(* ===== verification/_CoqProject ===== *)
-Q . S2P
Prelude.v
RustStr.v
SeekSequence.v
PatchParser.v
StreamingParser.v
Replacements.v
ApplyPatch.v
AbsolutePath.v
ExecRule.v
ExecPolicy.v
PolicyParser.v
ShellParse.v
CommandSafety.v
ExecApproval.v
HeadTailBuffer.v
StreamText.v
InlineTag.v
TaggedLine.v
AssistantText.v
Utf8.v
Utf8Stream.v
Truncate.v
TokenUsage.v
History.v
TokenEstimate.v
PasteBurst.v
ByteStr.v
Wrapping.v
Keys.v
TextArea.v
TextInput.v
AgentPath.v
AgentRegistry.v
FsPolicy.v
OsLinks.v
FsRoots.v
FsLegacy.v
Permissions.v
IpAddr.v
NetHost.v
NetConfig.v
MitmHook.v
HopHeaders.v
NetPolicy.v
NetRuntime.v
NetHandlers.v
ConfigMerge.v
ConfigLayers.v
HookConfig.v
Constraint.v
RequirementRules.v
Requirements.v
NetworkProxySpec.v
HookOutput.v
HookDispatch.v
HookTools.v
HookTurn.v
HookSpill.v
HookDiscovery.v
ThreadItems.v
ThreadHistory.v
MentionCodec.v
ChatHistory.v
HistorySearch.v
TableHoldback.v
StreamCore.v
StreamTick.v
