(* ===== verification/Prelude.v ===== *)
(** * Codex: a verification library for the core of the coding agent

    The repository is a command-line coding agent.  Its Rust workspace
    ([codex-rs]) runs a language model in a loop: the model proposes shell
    commands and patches, the agent decides whether a command may run and
    whether the user is asked, runs it, edits files, and feeds the results
    back.  The library models the parts of that loop that decide something:
    how a patch is parsed and applied, when a command is allowed, what the
    model is shown of outputs and of its own history, how its answer is cut
    into visible and hidden text, how keystrokes become text or pastes,
    which files a sandboxed command may read and write, which hosts it may
    reach, what the layers of configuration and an administrator's
    requirements make of all that, and what the user's own hooks may decide.

    ** Conventions

    A Rust [str] is the list of its Unicode scalar values ([str]); byte
    lengths are computed ([RustStr.byte_len]).  [Result] is [result] with the
    code's error type, a possible panic or an unbounded loop is [None] and is
    shown not to happen.  A method on [&mut self] is a function that returns
    the new state, errors included.  Positions and lengths of vectors are
    [nat]; where the code saturates a [usize] the width is written out
    ([HeadTailBuffer]).  Token counts are [Z] with the saturation or the
    wrap-around of [i64] at every operation ([i64_saturate] and its
    relatives); instants are nanoseconds.  Functions keep their names.

    ** The parts and how they interact

    Patches, [codex-rs/apply-patch/src]:
    - [SeekSequence] ([seek_sequence.rs]): where the old lines of a chunk are
      in a file, in four passes of decreasing strictness.
    - [PatchParser] ([parser.rs]): the batch parser [parse_patch_text], strict
      and lenient (heredoc-wrapped), from text to a list of [Hunk].
    - [StreamingParser] ([streaming_parser.rs]): the parser fed with deltas
      while the model writes; its state is the line buffer, the mode and the
      hunks so far, its operations [push_delta] and [finish].
    - [Replacements] ([lib.rs], [compute_replacements],
      [apply_replacements], [derive_new_contents_from_chunks]): from the
      chunks of an update to line replacements and the new text.  Uses
      [SeekSequence] to locate the chunks of [PatchParser].
    - [ApplyPatch] ([lib.rs], [apply_hunks_to_files]): the hunks applied to a
      file system behind the class [ExecutorFileSystem] (the trait of
      [codex-rs/file-system/src/lib.rs]); [FsLaws] is what the code relies
      on, and [MemFs], a map, and [LinkFs], a tree of directories and hard
      links, are instances.  Each step also records a delta of what it did.

    Commands, [codex-rs/execpolicy], [codex-rs/shell-command], [codex-rs/core]:
    - [AbsolutePath] ([utils/absolute-path]): lexical normalisation.
    - [ExecRule] ([rule.rs], [decision.rs]): decisions, prefix patterns,
      network hosts.
    - [ExecPolicy] ([policy.rs]): the table of rules and its evaluation,
      extension, overlay and compiled network lists.
    - [PolicyParser] ([parser.rs]): the built-ins of a rules file and the
      examples it must satisfy, over abstract Starlark values.
    - [ShellParse] ([bash.rs], [shell_detect.rs]): the plain commands of a
      shell script, over abstract tree-sitter trees.
    - [CommandSafety] ([command_safety/]): the commands known to be safe and
      those flagged dangerous.
    - [ExecApproval] ([core/src/exec_policy.rs]): puts these together: splits
      the script ([ShellParse]), evaluates every segment ([ExecPolicy]) with a
      heuristic for unmatched ones ([CommandSafety]), and answers skip, ask or
      refuse with a proposed amendment.

    The filesystem policy, [codex-rs/protocol], [codex-rs/sandboxing]:
    - [FsPolicy] ([protocol/src/permissions.rs]): a policy as an ordered list
      of entries (a path, a glob or a special location, with an access mode),
      the resolution of entries to absolute paths ([AbsolutePath]), the access
      a path gets, and the protection of project metadata directories.
    - [OsLinks]: what the policy relies on about symbolic links, as laws of
      the operating system, and a system with links that has them.
    - [FsRoots] ([permissions.rs], [protocol.rs]): what a sandbox is told: the
      readable, writable and unreadable roots, the deny-read matcher, and the
      transformations that add roots to a policy or restore its denials; on
      [OsLinks].
    - [FsLegacy] ([permissions.rs], [protocol.rs]): the older [SandboxPolicy]
      and the translations in both directions, on top of [FsRoots].
    - [Permissions] ([protocol/src/models.rs],
      [sandboxing/src/policy_transforms.rs]): permission profiles, the
      additional permissions a command may be granted, and their merge,
      intersection and effect on the policies of the three files above.

    The network proxy, [codex-rs/network-proxy/src], through which a
    sandboxed command reaches the network:
    - [IpAddr] ([policy.rs]): the addresses that are not public, and the
      address parser of the standard library.
    - [NetHost] ([policy.rs]): host names and domain patterns in their normal
      form, when a pattern covers another, and the globs of a list.
    - [NetConfig] ([config.rs]): the settings, the edits of their domain and
      socket lists, and the addresses the proxy listens on.
    - [MitmHook] ([mitm_hook.rs], [mitm.rs]): the hooks on intercepted
      requests, validated, compiled, matched and applied.
    - [HopHeaders] ([http_proxy.rs]): the hop-by-hop headers dropped from a
      forwarded request.
    - [NetPolicy] ([state.rs]): the managed constraints a configuration must
      respect, and the state compiled from it ([NetHost], [MitmHook]).
    - [NetRuntime] ([runtime.rs], [network_policy.rs],
      [connect_policy.rs]): the shared state; its operations in the sections
      that run under one lock, as a step relation over the state and the
      operations in flight; the decision on a host and what a decider may
      override.
    - [NetHandlers] ([http_proxy.rs], [socks5.rs], [mitm.rs],
      [responses.rs]): what is done with a request, as programs over the
      successive reads of that state, each of which may fail, with the
      entries and audit events they emit, and a small logic to reason about
      them.

    Configuration, [codex-rs/config/src], and its effect on the network:
    - [ConfigMerge] ([merge.rs], [key_aliases.rs], [overrides.rs],
      [fingerprint.rs]): TOML values, a layer merged over another, the
      overrides of the command line, the origins of settings.
    - [ConfigLayers] ([state.rs]): the stack of layers in the order of their
      precedence, and what replaces the user's layers; uses [ConfigMerge] for
      the effective configuration.
    - [Constraint] ([constraint.rs]): a value with the validators put on it.
    - [HookConfig] ([hook_config.rs]): the declared hooks.
    - [RequirementRules] ([requirements_exec_policy.rs]): required rules as a
      policy of [ExecPolicy].
    - [Requirements] ([config_requirements.rs]): the requirements of managed
      sources, merged, and turned into [Constraint]s on the approval policy
      ([ExecApproval]), the permission profile ([Permissions]) and the rest.
    - [NetworkProxySpec] ([core/src/config/network_proxy_spec.rs]): the
      network requirements, the permission profile and the rules of
      [ExecPolicy] applied to the settings of [NetConfig], checked by
      [NetPolicy].

    Hooks, [codex-rs/hooks/src]: commands of the user, of an administrator or
    of a plugin that run around the steps of a turn:
    - [HookOutput] ([schema.rs], [engine/output_parser.rs]): what a hook
      prints, and how each event reads it.
    - [HookDispatch] ([events/common.rs], [engine/dispatcher.rs]): the
      handlers an event selects, and the results of handlers that run at the
      same time, in the order they finish.
    - [HookTools] ([events/pre_tool_use.rs], [permission_request.rs],
      [post_tool_use.rs], [core/src/hook_runtime.rs]): the hooks of one tool
      call and what they decide together; on the two files above.
    - [HookTurn] ([events/user_prompt_submit.rs], [session_start.rs],
      [compact.rs], [stop.rs]): the hooks of a prompt, a session, a compaction
      and the end of a turn, with the helpers of [HookTools].
    - [HookSpill] ([output_spill.rs]): texts of hooks that are too long for
      the model; uses [Truncate].
    - [HookDiscovery] ([config_rules.rs], [engine/discovery.rs],
      [declarations.rs], [lib.rs]): the hooks of [Requirements],
      [ConfigLayers] and plugins, and which of them become the handlers of
      [HookDispatch].

    What the model sees:
    - [HeadTailBuffer] ([core/src/unified_exec/head_tail_buffer.rs]): the
      capped output of a running command.
    - [Truncate] ([utils/string/src/truncate.rs],
      [utils/output-truncation/src]): text cut in the middle to a budget of
      bytes or tokens, and the policy applied to the items of a tool output.
    - [TokenUsage] ([protocol/src/protocol.rs]): the token counters of the
      session and their accumulation.
    - [History] ([core/src/context_manager/history.rs], [normalize.rs]): the
      transcript; recording with [Truncate], pairing calls with outputs,
      removal, rollback of user turns.
    - [TokenEstimate] ([core/src/context_manager/history.rs]): the size of
      the transcript of [History] estimated in tokens, on top of
      [TokenUsage].

    What the user sees of the model's answer, [codex-rs/utils/stream-parser]:
    - [StreamText] ([stream_text.rs]): the chunk a parser emits and its laws.
    - [InlineTag] ([inline_hidden_tag.rs], [citation.rs]): tags hidden
      anywhere in a line; holds back a suffix that may begin a tag.
    - [TaggedLine] ([tagged_line_parser.rs], [proposed_plan.rs]): tags alone
      on a line.
    - [AssistantText] ([assistant_text.rs]): the two composed, citations
      first.
    - [Utf8], [Utf8Stream] ([utf8_stream.rs]): the decoder of byte chunks
      placed before them, with [std::str::from_utf8]'s validation.

    The terminal, and agents:
    - [PasteBurst] ([tui/src/bottom_pane/paste_burst.rs] and the key handlers
      of [chat_composer.rs] that drive it): a burst of fast keys buffered and
      inserted as one paste, as a machine over timed key events.
    - [ByteStr], [Wrapping] ([tui/src/wrapping.rs], [wrap_ranges]), [Keys]
      ([key_hint.rs], the editor keymaps of [keymap.rs]), [TextArea] and
      [TextInput] ([bottom_pane/textarea.rs]): the text the user edits, with
      elements that move as one piece.  [ByteStr] is slicing by byte offsets,
      [None] where Rust panics; [TextArea] has the state, its edits and the
      invariant, [TextInput] words, lines, kill and yank, and the keys.
    - [MentionCodec] ([tui/src/mention_codec.rs]): the text form in which
      prompts with mentions are kept in the history.
    - [ChatHistory], [HistorySearch]
      ([bottom_pane/chat_composer_history.rs]): the history of prompts, those
      of the log on disk and those typed here, with browsing and incremental
      search.  [ChatHistory] has the state and the operations, which ask for
      entries of the log and go on when the response comes; [HistorySearch]
      the specification and its refinement.
    - [TableHoldback] ([table_detect.rs], [streaming/table_holdback.rs]): the
      tables of a Markdown text, and from where a text still being written is
      held back because its last lines may become a table.
    - [StreamCore] ([markdown_stream.rs], [streaming/mod.rs],
      [streaming/controller.rs]): an answer as it is written: the lines that
      are stable and wait to be shown, and the tail that may still change; on
      [TableHoldback].
    - [StreamTick] ([streaming/chunking.rs], [commit_tick.rs], the plans of
      [controller.rs]): how many of the waiting lines of [StreamCore] a tick
      shows.
    - [AgentPath] ([protocol/src/agent_path.rs]): hierarchical agent names.
    - [AgentRegistry] ([core/src/agent/registry.rs]): the shared count of
      agents, the tree of [AgentPath]s and nicknames, reservations and their
      release on drop.

    What clients are shown, [codex-rs/app-server-protocol/src/protocol]:
    - [ThreadItems] ([v2/item.rs], [item_builders.rs]): the items of a
      thread, and the events they are built from.
    - [ThreadHistory] ([thread_history.rs]): the reducer that rebuilds the
      turns of a thread from its events or its rollout.

    [Prelude] holds what they share (the string notation, [result] and its
    monad, list searches and sorts, the tactics and the hint database
    [codex]); [RustStr] the standard library's operations on strings.

    ** What the theorems show

    - Patches mean what they say.  Parsing inverts printing
      ([parse_patch_render]); lenient mode only extends strict mode; the
      streaming parser agrees with the batch one however the text is cut, but
      for white space at the end of move and context lines
      ([streaming_agrees], [push_delta_app]), and its preview only grows.  The
      line search returns the first position of the strictest pass
      ([seek_sequence_correct]); an update whose regions do not collide
      rewrites them and copies the rest ([derive_new_text_correct]).  Over the in-memory file
      system the whole application is the map transformation the patch
      denotes ([apply_hunks_refines]), and over any lawful file system the
      recorded delta, when exact, undoes it, after a failure too, on every
      path that is not a second name of a file the patch names
      ([exact_delta_undoes]).
    - The policy decides conservatively.  Every match comes from a filed rule
      ([matches_justified]), the strictest one wins, an overlay never relaxes
      the base ([merge_overlay_strictest]), parsing and extending keep the
      table well formed, and an accepted rules file satisfies its own
      examples.
    - Nothing runs unasked without a reason ([approval_requirement_sound],
      [dangerous_never_silent], [word_only_commands], [safe_git_shape],
      [safe_not_dangerous]); proposed amendments do what they propose.
    - Totality and bounds: no parser or replacement indexes out of range or
      loops, evaluation never panics on non-empty input, the output buffer
      stays within its size with exact counters.
    - The transcript stays well formed.  Normalisation pairs every call with
      one output and every output with a call, and keeps what was paired
      ([normalize_history_paired]); removing an item removes its partner
      ([remove_keeps_pairs]); rolling back [n] turns cuts exactly at the
      [n]-th last user turn ([drop_last_n_user_turns_correct]).  Truncation
      keeps a prefix and a suffix cut between characters and counts what it
      drops ([truncate_correct]); the token estimates are non-negative and
      in range ([token_usage_bounds]).
    - Stream parsers do not depend on how the text is cut into chunks: their
      output is the one of a parse of the whole text
      ([inline_parser_correct], [plan_parser_correct],
      [assistant_text_correct]), also from bytes, where an invalid byte is
      reported and the state rolled back ([utf8_stream_correct]).
    - Typing settles: from every reachable state of the paste detector,
      enough idle time hands over everything held back, and nothing is lost
      or moved but what an Enter overtook ([typing_settles]).
    - Editing is safe.  No sequence of operations on the text panics, though
      every one slices it by byte offsets ([textarea_never_panics]); a key
      drops elements whole or leaves them ([keys_keep_elements_whole]); what
      a kill command removes, a yank puts back ([kill_then_yank_restores]);
      the cursor stays on the rows shown ([cursor_stays_visible]).
    - The history of prompts is a list.  Searching it is a cursor over its
      distinct matches, newest first ([search_is_a_cursor],
      [all_matches_spec]), although the entries are fetched on the way and
      their responses interleave with keys; every key is answered after
      finitely many lookups ([searches_are_answered]); browsing is a cursor
      over all entries ([browsing_is_a_cursor]).  What is written with
      mentions is read back with those the text uses
      ([history_mentions_roundtrip]).
    - An answer is shown once.  No sequence of deltas, ticks, resizes and
      changes of the mode panics ([streaming_never_panics]); without resizes
      every line is shown once and in order, with the look it had when it was
      shown ([stream_shown_once]), as the
      incremental scanner holds back what a scan of the whole text would
      ([scanner_agrees]).  A tick takes lines from the front
      ([tick_takes_front]), enough ticks show all ([ticks_show_queue]), and
      the pace does not flap ([no_early_reentry], [exit_is_held]).
    - Agents: the limit on spawned agents holds under every interleaving of
      reservations, commits, drops and releases ([spawn_limit_kept]); an
      accepted agent path is rooted and its names are valid
      ([agent_path_valid]).
    - A sandbox is told no more than the policy allows.  The most specific
      entry that covers a path decides, at equal specificity the strictest
      ([resolve_access_most_specific]); a policy with full disk access really
      gives it everywhere ([full_disk_access_everywhere]); metadata
      directories of a writable root stay read-only unless an entry says
      otherwise ([metadata_write_guard]).  A path below a writable root and
      outside its read-only subpaths is writable in the policy
      ([writable_roots_sound]), the deny-read matcher answers yes on every
      path an entry denies by name or by the place a symbolic link leads to
      ([read_deny_complete]), and a policy that restores
      denials is never wider than before ([preserve_deny_narrows]).  The
      granted part of requested permissions lies within the request and within
      the grant ([intersection_within_both]); legacy policies and profiles
      survive the translation to the new form and back ([legacy_roundtrip],
      [profile_roundtrip]).
    - The network policy holds at run time.  A configuration is accepted
      exactly within its managed constraints ([validate_policy_iff]), and in
      every reachable state host decisions are those of the lists
      ([reachable_policy]); an edit moves exactly the edited host
      ([update_domain_effect]); a decider overrides allowlist misses only
      ([decider_overrides_misses_only]).  Pattern inclusion is inclusion of
      the hosts the globs match, for domains without glob characters
      ([allows_iff_included]), and the classification of
      addresses is a list of blocks ([is_non_public_ip_blocks]).  Whatever
      happens between two reads, what a handler forwards passed every check
      ([forwarded_requests_checked]), limited mode only reads
      ([limited_mode_read_only]), refusals are recorded once
      ([refusals_recorded_once]); hooks are enforced as configured
      ([compiled_hooks_enforced], [hook_actions_replace]), hop-by-hop headers
      are dropped ([hop_by_hop_removed]), and without the dangerous flags the
      proxy listens on the loopback interface only
      ([resolve_runtime_local]).
    - A rebuilt history is consistent.  Whatever events come, rollbacks
      included, no two of its items share an id it generated
      ([generated_ids_unique]); turn ids are unique and a late event reaches
      the turn it names and changes only its own item
      ([late_events_find_their_turn]); a rollback drops exactly the last
      turns ([rollback_drops_last_turns]); the changes of a patch are listed
      in an order of their own ([convert_patch_changes_order]).
    - Configuration is layered.  The highest enabled layer that says anything
      of a setting decides it ([effective_config_highest_layer]) and is named
      as its origin ([origins_name_deciding_layer]); the order of the stack
      is kept by every operation ([stack_stays_ordered]); the last override
      of a setting wins ([last_override_wins]).
    - Requirements bind.  A constrained value passes every validator
      ([constrained_value_valid]); sources are merged field by field
      ([managed_sources_merge]), satisfiable exactly where stated
      ([requirements_satisfiable]), and what they exclude is never held
      ([managed_requirements_bind]); required rules are enforced under every
      policy ([required_rules_enforced]); and the network specification keeps
      to the requirements whatever the user and the rules say
      ([spec_keeps_requirements]).
    - Hooks are run with consent and add up safely.  What runs is managed, or
      trusted by the user in this very form, or its trust was bypassed
      ([only_trusted_hooks_run]), and a project cannot trust its own hooks
      ([project_cannot_trust_itself]); the hooks that run have distinct ids
      ([discovered_ids_distinct]).  Whatever order they finish in, each is
      reported once, in the configured order
      ([hooks_report_in_configured_order]), under the id it was announced with
      ([every_previewed_run_completes]).  A denial wins over every approval
      ([permission_denial_wins]), a block over everything else
      ([pre_tool_use_block_wins]), ending a turn over going on with it
      ([ending_wins_over_continuing]), and a run is reported as failed exactly
      when it is faulty, and then decides nothing
      ([failed_hooks_decide_nothing]).  A text too long for the model is kept
      whole in a file ([spilled_text_kept]).
    - Deviations are recorded as theorems of their own or in a comment next
      to them: [self_move_deletes], [final_newline], the [eof] search of
      [seek_sequence] and the collision it can cause
      ([end_of_file_chunk_collides]), [streamed_context_trimmed] (the two
      parsers differ on white space at the end of a context),
      [newline_overtakes_first_char] of the paste detector,
      the history version that a rollback bumps without dropping anything,
      and the truncation marker that is not counted in the budget;
      [metadata_guard_depends_on_order] (the guard reads the first root only),
      [full_disk_write_needs_tmp] (the full-disk test looks at the special
      [/tmp] entry), [intersection_drops_read_carveout] (an intersection
      forgets the read part of a denied-write entry) and the git pointer
      directory that a writable root lists although it lies outside it;
      [force_reload_resets_total] and [update_loses_event] of the blocked
      buffer, [second_connection_ignored] (only the first [Connection] header
      is obeyed), and the local host that the policy allows and the connector
      refuses ([demo_decisions]), [leading_dot_allowed] (a host with a leading
      dot passes for a subdomain), the error of an interrupted turn
      ([interrupted_keeps_error]) and the item numbers that a rollback frees
      ([rolled_back_numbers_reused]); [stale_origin] and [domain_origins] of the
      configuration, [required_prompt_relaxes] of the required rules;
      [open_line_below_last_line] (the cursor stays on the old line) and
      [cursor_inside_elements] of the text area;
      [interrupting_denial_dropped] (a denial that also asks to interrupt is
      an error, so it denies nothing) and [preview_exceeds_limit] (the preview
      of a spilled text is longer than its budget) of the hooks;
      [resize_replays_lines] (lines already shown come again after a resize)
      of the streamed answers, and [written_link_becomes_mention] (a link the
      user typed in a prompt comes back as a mention).

    ** Parameters and hypotheses

    The class [FsPolicy.Os] is what the policy code asks the operating system
    ([canonicalize], whether a path exists, is a directory or a symbolic
    link, the contents of a [.git] file); [mem_os] and [repo_os] are
    instances without links, [linked_os] and [link_os] with them.  [OsLaws] is
    the documented behaviour of [canonicalize] and [symlink_metadata], which
    [linked_os] has ([linked_laws]); [no_top_link] says of a path that the
    code keeps it as it is written, links deeper down included.  Globs are a
    matcher parameter ([globset]), [star_glob] an instance.  The network files
    use classes for third-party code: [Globs] (the glob compiler and the sets
    it builds; [GlobLaws] is what globs mean for the patterns with literal
    domains, and [wildcards] an instance), [Urls], [Http] (headers and forms, with the laws of its
    header map), [HopNames], [Json] and [Mitm] (the interception state); name
    resolution, the decider, the clock, the environment and the results of
    the reloads are arguments.  The text area asks [TextEnv] for grapheme and
    word boundaries, display widths and [textwrap]'s lines; [TextEnvLaws] says
    that boundaries are boundaries, that pieces cover the text and that the
    lines come in order, and [simple_env] is an instance.  [Fingerprint] is the
    digest of a layer, [WildMatch] the matcher of host names and [Debug] the
    text of a value in messages.  The hooks use [HookJson] (the wire types read
    by serde), [Regex], [ToJson] and [HookFiles]; the result of each command,
    the order in which the commands finish, the clock and the generated names
    of files are arguments.  Searching the history takes Unicode lower-casing
    as an argument; the streamed answers take the Markdown renderer, of which
    nothing is assumed, the styles of a plan and the clock; [parts_unchanged]
    says of one answer that no part of it is rendered anew by what follows,
    which always holds in raw mode ([raw_unchanged]).  Each class has an
    instance in the file that uses it first.

    ** Fuel

    [parse_hunks] and [parse_update_chunks] run on one more than the number
    of remaining lines, each round consumes a line
    ([parse_patch_text_total]).  [detect_shell_type] recurses on a strictly
    shorter path, so its length is enough ([detect_fuel_enough]).  The walks
    over a syntax tree run on its size ([dfs_spec]).  [push_loop] of
    [InlineTag] runs on one more than the length of the pending text, of
    which each round consumes a character.  [connection_loop] runs once
    ([connection_loop_once]), [pop_front_while] on the length of the
    buffer.  [expand_loop] runs on one more than the number of elements: each
    round but the last takes one in ([expand_loop_spec]).  A merge runs on one
    more than the depth of the overlay ([leaf_merge_at]).  The loops of
    [MentionCodec] and [strip_blockquote_loop] run on the length of their
    text, of which each round consumes a character, and [advance_search_from]
    on the number of entries.  No theorem assumes that the fuel was enough.

    ** What is not modelled

    Third-party code is a parameter: tree-sitter's grammar, the Starlark
    interpreter, PowerShell, the file system, the shell quoting crate.  File
    I/O (loading rule and configuration files, TOML and serde themselves, appending an amendment under a lock), unified
    diffs, Windows-only paths and code, and everything asynchronous
    (sessions, processes, the rest of the terminal interface, the servers) are left out;
    of the network proxy, the certificates, TLS, the upstream clients, the
    environment overrides of [proxy.rs], log lines and telemetry.  So are [percent_of_context_window_remaining] (floating
    point), the cache of image size estimates (the estimate is a parameter),
    image paths and text elements in the model of the composer of
    [PasteBurst], the drawing of the text area, overflow of a [usize] by a
    text as large as memory, what
    [agent/control.rs] does besides the registry, the message types of
    [models.rs], the rendering of Markdown, and the platform sandboxes (seatbelt, landlock, Windows)
    that enforce the roots of [FsRoots]. *)

From Stdlib Require Import Strings.Byte.
From stdpp Require Export base option decidable numbers gmap sorting list.

(** ** Characters and strings

    A Rust [char] is a Unicode scalar value; a Rust [String] or [&str] is
    the list of its chars.  Byte lengths are computed from the chars (see
    [RustStr.byte_len]). *)

Abbreviation char := N (only parsing).
Abbreviation str := (list N).

(** String literals of the development denote lists of scalar values; the
    bytes of a literal are decoded as UTF-8. *)
Fixpoint str_of_bytes (l : list Byte.byte) : list N :=
  match l with
  | [] => []
  | a :: r1 =>
      let na := Byte.to_N a in
      if (na <? 128)%N then na :: str_of_bytes r1
      else match r1 with
           | [] => [na]
           | b :: r2 =>
               let nb := (Byte.to_N b - 128)%N in
               if (na <? 224)%N then ((na - 192) * 64 + nb)%N :: str_of_bytes r2
               else match r2 with
                    | [] => [na; nb]
                    | c :: r3 =>
                        ((na - 224) * 4096 + nb * 64 + (Byte.to_N c - 128))%N
                          :: str_of_bytes r3
                    end
           end
  end.

Fixpoint bytes_of_str (l : list N) : option (list Byte.byte) :=
  match l with
  | [] => Some []
  | x :: r =>
      match Byte.of_N x, bytes_of_str r with
      | Some b, Some r => Some (b :: r)
      | _, _ => None
      end
  end.

Declare Scope str_scope.
Delimit Scope str_scope with str.
String Notation str str_of_bytes bytes_of_str : str_scope.

(** ** Fallible code: [Result] *)

Inductive result (E A : Type) : Type :=
| Ok (a : A)
| Err (e : E).
Arguments Ok {E A} a.
Arguments Err {E A} e.

#[export] Instance result_ret E : MRet (result E) := fun A a => Ok a.
#[export] Instance result_bind E : MBind (result E) := fun A B f m =>
  match m with Ok a => f a | Err e => Err e end.
#[export] Instance result_fmap E : FMap (result E) := fun A B f m =>
  match m with Ok a => Ok (f a) | Err e => Err e end.

#[export] Instance result_eq_dec {E A} `{EqDecision E, EqDecision A} :
  EqDecision (result E A).
Proof. solve_decision. Defined.

Definition is_ok {E A} (r : result E A) : bool :=
  match r with Ok _ => true | Err _ => false end.

Definition ok {E A} (r : result E A) : option A :=
  match r with Ok a => Some a | Err _ => None end.

Definition map_err {E F A} (f : E -> F) (r : result E A) : result F A :=
  match r with Ok a => Ok a | Err e => Err (f e) end.

Lemma result_bind_Ok {E A B} (m : result E A) (f : A -> result E B) b :
  m ≫= f = Ok b <-> exists a, m = Ok a /\ f a = Ok b.
Proof.
  destruct m as [a|e]; cbn; split.
  - intros H; eauto.
  - intros (a' & [= <-] & H); done.
  - done.
  - intros (a' & ? & _); done.
Qed.

(** ** Boolean tests on lists *)

Definition is_empty {A} (l : list A) : bool :=
  match l with [] => true | _ => false end.

Lemma is_empty_true {A} (l : list A) : is_empty l = true <-> l = [].
Proof. by destruct l. Qed.

Lemma is_empty_false {A} (l : list A) : is_empty l = false <-> l <> [].
Proof. by destruct l. Qed.

(** [l.last().is_some_and(f)] *)
Definition last_is {A} (f : A -> bool) (l : list A) : bool :=
  match last l with Some x => f x | None => false end.

Lemma last_is_snoc {A} (f : A -> bool) l x : last_is f (l ++ [x]) = f x.
Proof. unfold last_is. by rewrite last_snoc. Qed.

(** [Vec::remove] and [Vec::insert]: the standard library panics out of
    range, which is [None] here. *)
Definition vec_remove {A} (i : nat) (l : list A) : option (list A) :=
  if (i <? length l)%nat then Some (take i l ++ drop (S i) l) else None.

Definition vec_insert {A} (i : nat) (x : A) (l : list A) : option (list A) :=
  if (i <=? length l)%nat then Some (take i l ++ x :: drop i l) else None.

Lemma vec_insert_Some {A} i (x : A) l :
  i <= length l -> vec_insert i x l = Some (take i l ++ x :: drop i l).
Proof. intros H. unfold vec_insert. by rewrite (proj2 (Nat.leb_le _ _) H). Qed.

Lemma vec_remove_Some {A} i (l : list A) :
  i < length l -> vec_remove i l = Some (take i l ++ drop (S i) l).
Proof. intros H. unfold vec_remove. by rewrite (proj2 (Nat.ltb_lt _ _) H). Qed.

(** [Iterator::position]. *)
Fixpoint position {A} (f : A -> bool) (l : list A) : option nat :=
  match l with
  | [] => None
  | x :: l => if f x then Some 0 else S <$> position f l
  end.

(** [Iterator::find_map]. *)
Fixpoint find_map {A B} (f : A -> option B) (l : list A) : option B :=
  match l with
  | [] => None
  | x :: l => match f x with Some y => Some y | None => find_map f l end
  end.

(** [Iterator::max_by_key]: the last of the greatest. *)
Fixpoint max_by_key {A} (key : A -> nat) (l : list A) : option A :=
  match l with
  | [] => None
  | x :: l =>
      match max_by_key key l with
      | Some y => Some (if (key x <=? key y)%nat then y else x)
      | None => Some x
      end
  end.

Lemma max_by_key_spec {A} (key : A -> nat) l :
  match max_by_key key l with
  | Some x => x ∈ l /\ forall y, y ∈ l -> key y <= key x
  | None => l = []
  end.
Proof.
  induction l as [|a l IH]; cbn; [done|]. destruct (max_by_key key l) as [x|].
  - destruct IH as [Hin Hmax]. destruct (Nat.leb_spec (key a) (key x)).
    + split; [by right|]. intros y [->|Hy]%elem_of_cons; [done|by apply Hmax].
    + split; [by left|]. intros y [->|Hy]%elem_of_cons; [lia|]. specialize (Hmax y Hy). lia.
  - subst l. split; [by left|]. intros y ->%list_elem_of_singleton. lia.
Qed.

Lemma position_spec {A} (f : A -> bool) l :
  match position f l with
  | Some i => exists l1 x l2, l = l1 ++ x :: l2 /\ i = length l1 /\ f x = true
                              /\ Forall (fun y => f y = false) l1
  | None => Forall (fun y => f y = false) l
  end.
Proof.
  induction l as [|a l IH]; cbn; [done|]. destruct (f a) eqn:Ea; [by exists [], a, l|].
  destruct (position f l) as [i|]; cbn; [|by constructor].
  destruct IH as (l1 & x & l2 & -> & -> & Hx & Hl). exists (a :: l1), x, l2.
  split_and!; [done..|by constructor].
Qed.

Lemma find_map_spec {A B} (f : A -> option B) l :
  match find_map f l with
  | Some y => exists i x, l !! i = Some x /\ f x = Some y
                          /\ forall j z, j < i -> l !! j = Some z -> f z = None
  | None => forall i x, l !! i = Some x -> f x = None
  end.
Proof.
  induction l as [|a l IH]; cbn; [done|]. destruct (f a) as [y|] eqn:Ea.
  - exists 0, a. split_and!; [done..|lia].
  - destruct (find_map f l) as [y|].
    + destruct IH as (i & x & Hi & Hx & Hmin). exists (S i), x. split_and!; [done..|].
      intros [|j] z Hj Hz; [by injection Hz as <-|]. apply (Hmin j); [lia|done].
    + intros [|i] x Hx; [by injection Hx as <-|]. by apply (IH i).
Qed.

(** The first index in [lo, lo+n) that satisfies [f]: the shape of every
    [for i in lo..hi { if f(i) { return Some(i) } }] loop. *)
Fixpoint find_index (f : nat -> bool) (lo n : nat) : option nat :=
  match n with
  | O => None
  | S n' => if f lo then Some lo else find_index f (S lo) n'
  end.

Lemma find_index_Some f lo n i :
  find_index f lo n = Some i <->
  lo <= i < lo + n /\ f i = true /\ (forall j, lo <= j < i -> f j = false).
Proof.
  revert lo. induction n as [|n IH]; intros lo; cbn.
  - split; [done | lia].
  - destruct (f lo) eqn:Hlo.
    + split.
      * intros [= <-]. split_and!; [lia | lia | done | lia].
      * intros (Hr & Hi & Hmin). destruct (decide (i = lo)) as [->|]; [done|].
        rewrite (Hmin lo) in Hlo by lia. done.
    + rewrite IH. split; intros (Hr & Hi & Hmin).
      * split_and!; [lia | lia | done |]. intros j Hj.
        destruct (decide (j = lo)) as [->|]; [done|]. apply Hmin; lia.
      * assert (i <> lo) by (intros ->; congruence).
        split_and!; [lia | lia | done |]. intros j Hj. apply Hmin; lia.
Qed.

Lemma find_index_None f lo n :
  find_index f lo n = None <-> forall i, lo <= i < lo + n -> f i = false.
Proof.
  revert lo. induction n as [|n IH]; intros lo; cbn.
  - split; [lia | done].
  - destruct (f lo) eqn:Hlo.
    + split; [done|]. intros H. rewrite H in Hlo by lia. done.
    + rewrite IH. split.
      * intros H i Hi. destruct (decide (i = lo)) as [->|]; [done|]. apply H; lia.
      * intros H i Hi. apply H; lia.
Qed.

(** [slice::sort_by_key] with a [usize] key: a stable sort. *)
Fixpoint insert_by_key {A} (key : A -> nat) (x : A) (l : list A) : list A :=
  match l with
  | [] => [x]
  | y :: l' => if (key x <=? key y)%nat then x :: l else y :: insert_by_key key x l'
  end.
Definition sort_by_key {A} (key : A -> nat) (l : list A) : list A :=
  foldr (insert_by_key key) [] l.

Lemma insert_by_key_perm {A} (key : A -> nat) x l : insert_by_key key x l ≡ₚ x :: l.
Proof.
  induction l as [|y l IH]; cbn; [done|]. destruct (key x <=? key y)%nat; [done|].
  rewrite IH. apply Permutation_swap.
Qed.

Lemma sort_by_key_perm {A} (key : A -> nat) l : sort_by_key key l ≡ₚ l.
Proof. induction l as [|x l IH]; cbn; [done|]. by rewrite insert_by_key_perm, IH. Qed.

Lemma insert_by_key_sorted {A} (key : A -> nat) x l :
  StronglySorted (fun a b => key a <= key b) l ->
  StronglySorted (fun a b => key a <= key b) (insert_by_key key x l).
Proof.
  induction 1 as [|y l Hs IH Hy]; cbn; [repeat constructor|].
  destruct (Nat.leb_spec (key x) (key y)).
  - constructor; [by constructor|]. constructor; [done|].
    eapply Forall_impl; [exact Hy|]. cbn. intros; lia.
  - constructor; [done|]. rewrite insert_by_key_perm. constructor; [lia|done].
Qed.

Lemma sort_by_key_sorted {A} (key : A -> nat) l :
  StronglySorted (fun a b => key a <= key b) (sort_by_key key l).
Proof. induction l as [|x l IH]; cbn; [constructor|]. by apply insert_by_key_sorted. Qed.

(** ** Orders *)

(** The derived order on vectors. *)
Fixpoint list_compare {A} (cmp : A -> A -> comparison) (l k : list A) : comparison :=
  match l, k with
  | [], [] => Eq
  | [], _ :: _ => Lt
  | _ :: _, [] => Gt
  | x :: l, y :: k => match cmp x y with Eq => list_compare cmp l k | c => c end
  end.

#[export] Instance comparison_eq_dec : EqDecision comparison.
Proof. solve_decision. Defined.

(** A comparison function that decides a total order. *)
Record cmp_laws {A} (cmp : A -> A -> comparison) : Prop := {
  cmp_eq : forall x y, cmp x y = Eq <-> x = y;
  cmp_flip : forall x y, cmp y x = CompOpp (cmp x y);
  cmp_lt_trans : forall x y z, cmp x y = Lt -> cmp y z = Lt -> cmp x z = Lt;
}.

Lemma N_compare_laws : cmp_laws N.compare.
Proof.
  split.
  - apply N.compare_eq_iff.
  - intros x y. apply N.compare_antisym.
  - intros x y z. rewrite !N.compare_lt_iff. apply N.lt_trans.
Qed.

Lemma list_compare_laws {A} (cmp : A -> A -> comparison) :
  cmp_laws cmp -> cmp_laws (list_compare cmp).
Proof.
  intros [He Hf Ht]. split.
  - intros l. induction l as [|x l IH]; intros [|y k]; cbn; try done.
    destruct (cmp x y) eqn:E.
    + apply He in E as ->. rewrite IH. split; [by intros ->|by intros [= ->]].
    + split; [done|]. intros [= -> ->]. by rewrite (proj2 (He y y)) in E.
    + split; [done|]. intros [= -> ->]. by rewrite (proj2 (He y y)) in E.
  - intros l. induction l as [|x l IH]; intros [|y k]; cbn; try done.
    rewrite (Hf x y). destruct (cmp x y); cbn; [apply IH|done|done].
  - intros l. induction l as [|x l IH]; intros [|y k] [|z m]; cbn; try done.
    destruct (cmp x y) eqn:E1; try done.
    + apply He in E1 as ->. destruct (cmp y z); try done. apply IH.
    + intros _. destruct (cmp y z) eqn:E2; try done.
      * apply He in E2 as ->. by rewrite E1.
      * intros _. by rewrite (Ht _ _ _ E1 E2).
Qed.

(** The order of a comparison, with equality. *)
Definition cmp_le {A} (cmp : A -> A -> comparison) (a b : A) : Prop := cmp a b <> Gt.

#[export] Instance cmp_le_dec {A} (cmp : A -> A -> comparison) : RelDecision (cmp_le cmp).
Proof. intros a b. unfold cmp_le. apply _. Defined.

Section CmpLe.
Context {A : Type} {cmp : A -> A -> comparison} (laws : cmp_laws cmp).

Lemma cmp_le_trans : Transitive (cmp_le cmp).
Proof.
  intros a b c. unfold cmp_le. destruct laws as [He _ Ht].
  destruct (cmp a b) eqn:E1; [apply He in E1 as ->; done| |done].
  destruct (cmp b c) eqn:E2; [apply He in E2 as ->; congruence| |done].
  by rewrite (Ht _ _ _ E1 E2).
Qed.

Lemma cmp_le_total : Total (cmp_le cmp).
Proof.
  intros a b. unfold cmp_le. destruct laws as [_ Hf _].
  rewrite (Hf a b). destruct (cmp a b); cbn; naive_solver.
Qed.

Lemma cmp_le_antisym : AntiSymm (=) (cmp_le cmp).
Proof.
  intros a b. unfold cmp_le. destruct laws as [He Hf _]. rewrite (Hf a b). specialize (He a b).
  destruct (cmp a b); cbn; naive_solver.
Qed.
End CmpLe.

(** [Vec::dedup]: consecutive repetitions. *)
Fixpoint dedup {A} `{EqDecision A} (l : list A) : list A :=
  match l with
  | x :: (y :: _) as r => if decide (x = y) then dedup r else x :: dedup r
  | _ => l
  end.

Lemma elem_of_dedup {A} `{EqDecision A} (x : A) l : x ∈ dedup l <-> x ∈ l.
Proof.
  induction l as [|y l IH]; [done|]. destruct l as [|z l]; [done|].
  change (dedup (y :: z :: l)) with
    (if decide (y = z) then dedup (z :: l) else y :: dedup (z :: l)).
  destruct (decide (y = z)) as [->|Hne]; [|by rewrite !elem_of_cons, IH, elem_of_cons].
  rewrite IH, !elem_of_cons. naive_solver.
Qed.

(** [slice::sort_by]: a stable sort by a comparison. *)
Fixpoint insert_by {A} (cmp : A -> A -> comparison) (x : A) (l : list A) : list A :=
  match l with
  | [] => [x]
  | y :: l' => match cmp x y with Gt => y :: insert_by cmp x l' | _ => x :: l end
  end.
Definition sort_by {A} (cmp : A -> A -> comparison) (l : list A) : list A :=
  foldr (insert_by cmp) [] l.

Lemma insert_by_perm {A} (cmp : A -> A -> comparison) x l : insert_by cmp x l ≡ₚ x :: l.
Proof.
  induction l as [|y l IH]; cbn; [done|]. destruct (cmp x y); try done.
  rewrite IH. apply Permutation_swap.
Qed.

Lemma sort_by_perm {A} (cmp : A -> A -> comparison) l : sort_by cmp l ≡ₚ l.
Proof. induction l as [|x l IH]; cbn; [done|]. by rewrite insert_by_perm, IH. Qed.

(** ** Machine integers

    A 64-bit [usize] is an [N]; the saturating operations of the standard
    library write the bound out. *)

Definition USIZE_MAX : N := (2 ^ 64 - 1)%N.
Definition saturating_add (a b : N) : N := N.min (a + b) USIZE_MAX.
Definition saturating_sub (a b : N) : N := (a - b)%N.
Definition saturating_mul (a b : N) : N := N.min (a * b) USIZE_MAX.

Lemma saturating_add_small a b : (a + b <= USIZE_MAX)%N -> saturating_add a b = (a + b)%N.
Proof. unfold saturating_add. lia. Qed.

(** An [i64] is a [Z].  A plain operation panics on overflow in debug builds
    and wraps in release builds. *)
Definition I64_MIN : Z := (- 2 ^ 63)%Z.
Definition I64_MAX : Z := (2 ^ 63 - 1)%Z.
Definition in_i64 (z : Z) : Prop := (I64_MIN <= z <= I64_MAX)%Z.
Definition i64_saturate (z : Z) : Z := Z.max I64_MIN (Z.min z I64_MAX).
Definition i64_saturating_add (a b : Z) : Z := i64_saturate (a + b).
Definition i64_saturating_sub (a b : Z) : Z := i64_saturate (a - b).
Definition i64_wrap (z : Z) : Z := ((z - I64_MIN) mod 2 ^ 64 + I64_MIN)%Z.
Definition i64_checked (debug_assertions : bool) (z : Z) : option Z :=
  if bool_decide (I64_MIN <= z <= I64_MAX)%Z then Some z
  else if debug_assertions then None else Some (i64_wrap z).

Lemma i64_saturate_in z : in_i64 (i64_saturate z).
Proof. unfold in_i64, i64_saturate, I64_MIN, I64_MAX. lia. Qed.

Lemma i64_wrap_in z : in_i64 (i64_wrap z).
Proof.
  unfold in_i64, i64_wrap, I64_MIN, I64_MAX.
  pose proof (Z.mod_pos_bound (z - - 2 ^ 63) (2 ^ 64)). lia.
Qed.

Lemma i64_checked_small d z : in_i64 z -> i64_checked d z = Some z.
Proof. intros H. unfold i64_checked. by rewrite bool_decide_eq_true_2. Qed.

Lemma i64_checked_in d z r : i64_checked d z = Some r -> in_i64 r.
Proof.
  unfold i64_checked. case_bool_decide as H; [by intros [= <-]|].
  destruct d; [done|]. intros [= <-]. apply i64_wrap_in.
Qed.

(** ** Automation *)

(** Case analysis on every boolean comparison of natural numbers in sight. *)
Ltac nat_cases :=
  repeat match goal with
  | |- context [(?a <=? ?b)%nat] => destruct (Nat.leb_spec a b)
  | |- context [(?a <? ?b)%nat] => destruct (Nat.ltb_spec a b)
  | |- context [(?a =? ?b)%nat] => destruct (Nat.eqb_spec a b)
  | H : context [(?a <=? ?b)%nat] |- _ => destruct (Nat.leb_spec a b)
  | H : context [(?a <? ?b)%nat] |- _ => destruct (Nat.ltb_spec a b)
  | H : context [(?a =? ?b)%nat] |- _ => destruct (Nat.eqb_spec a b)
  end.

(** Split the boolean connectives of the hypotheses. *)
Ltac bool_hyps :=
  repeat match goal with
  | H : (_ && _) = true |- _ => apply andb_true_iff in H as [? ?]
  | H : (_ || _) = false |- _ => apply orb_false_iff in H as [? ?]
  | H : negb _ = true |- _ => apply negb_true_iff in H
  | H : negb _ = false |- _ => apply negb_false_iff in H
  | H : bool_decide _ = true |- _ => apply bool_decide_eq_true in H
  | H : bool_decide _ = false |- _ => apply bool_decide_eq_false in H
  end.

(** Open the binds of a successful computation in the hypotheses. *)
Ltac result_inv :=
  repeat match goal with
  | H : mbind _ _ = Ok _ |- _ =>
      apply result_bind_Ok in H as (? & ? & H); cbn beta in H
  | H : Ok _ = Ok _ |- _ => injection H as H; try subst
  | H : Err _ = Ok _ |- _ => discriminate H
  | H : Ok _ = Err _ |- _ => discriminate H
  end.

(** No element of the empty list. *)
Ltac no_elem :=
  exfalso; match goal with H : _ ∈ _ |- _ => exact (not_elem_of_nil _ H) end.

(** The facts the components' proofs use without naming them. *)
Create HintDb codex.
#[export] Hint Resolve sort_by_key_perm sort_by_key_sorted : codex.
#[export] Hint Resolve -> is_empty_true is_empty_false : codex.
#[export] Hint Extern 1 => no_elem : codex.

(** Decide a closed goal by computation. *)
Ltac dec_true := apply (bool_decide_unpack _); vm_compute; reflexivity.
