(* ===== verification/RustStr.v ===== *)
(** * The operations of Rust's [str], [String] and [char] the code uses

    Strings are lists of Unicode scalar values ([Prelude.str]).  The
    functions below have the names and the documented behaviour of the
    standard library; the lemmas are the facts every component uses. *)

From S2P Require Import Prelude.
Open Scope str_scope.

(** ** Characters *)

(** [char::is_whitespace]: the Unicode [White_Space] property. *)
Definition is_whitespace (c : char) : bool :=
  ((9 <=? c) && (c <=? 13) || (c =? 32) || (c =? 133) || (c =? 160)
   || (c =? 5760) || ((8192 <=? c) && (c <=? 8202))
   || (c =? 8232) || (c =? 8233) || (c =? 8239) || (c =? 8287)
   || (c =? 12288))%N.

Definition is_ascii_digit (c : char) : bool := ((48 <=? c) && (c <=? 57))%N.
Definition is_ascii_uppercase (c : char) : bool := ((65 <=? c) && (c <=? 90))%N.
Definition is_ascii_lowercase (c : char) : bool := ((97 <=? c) && (c <=? 122))%N.
Definition is_ascii_alphabetic (c : char) : bool :=
  is_ascii_uppercase c || is_ascii_lowercase c.
Definition is_ascii_alphanumeric (c : char) : bool :=
  is_ascii_alphabetic c || is_ascii_digit c.
Definition char_to_ascii_lowercase (c : char) : char :=
  if is_ascii_uppercase c then (c + 32)%N else c.

(** [char::len_utf8] *)
Definition len_utf8 (c : char) : nat :=
  if (c <? 128)%N then 1 else if (c <? 2048)%N then 2
  else if (c <? 65536)%N then 3 else 4.

(** [str::len]: the number of bytes of the UTF-8 encoding. *)
Definition byte_len (s : str) : nat := sum_list_with len_utf8 s.

Definition NL : char := 10%N.
Definition CR : char := 13%N.
Definition SPACE : char := 32%N.

Definition to_ascii_lowercase (s : str) : str := map char_to_ascii_lowercase s.
Definition char_to_ascii_uppercase (c : char) : char :=
  if is_ascii_lowercase c then (c - 32)%N else c.
Definition to_ascii_uppercase (s : str) : str := map char_to_ascii_uppercase s.

(** ** Trimming *)

Fixpoint trim_start_matches (p : char -> bool) (s : str) : str :=
  match s with
  | c :: r => if p c then trim_start_matches p r else s
  | [] => []
  end.
Definition trim_end_matches (p : char -> bool) (s : str) : str :=
  reverse (trim_start_matches p (reverse s)).

(** [chars().take_while(p)] *)
Fixpoint take_while (p : char -> bool) (s : str) : str :=
  match s with
  | [] => []
  | c :: s => if p c then c :: take_while p s else []
  end.

Definition trim_start : str -> str := trim_start_matches is_whitespace.
Definition trim_end : str -> str := trim_end_matches is_whitespace.
Definition trim (s : str) : str := trim_end (trim_start s).

(** ** Prefixes and suffixes *)

Fixpoint strip_prefix (p s : str) : option str :=
  match p, s with
  | [], _ => Some s
  | a :: p', b :: s' => if (a =? b)%N then strip_prefix p' s' else None
  | _ :: _, [] => None
  end.
Definition starts_with (s p : str) : bool := bool_decide (is_Some (strip_prefix p s)).
Definition strip_suffix (p s : str) : option str :=
  reverse <$> strip_prefix (reverse p) (reverse s).
Definition ends_with (s p : str) : bool := bool_decide (is_Some (strip_suffix p s)).

(** [s.contains(p)] for a string pattern. *)
Fixpoint contains (s p : str) : bool :=
  starts_with s p || match s with [] => false | _ :: r => contains r p end.
Definition contains_char (s : str) (c : char) : bool := existsb (N.eqb c) s.

(** ** Splitting and joining *)

(** [s.split(c)]: always at least one piece. *)
Fixpoint split (c : char) (s : str) : list str :=
  match s with
  | [] => [[]]
  | x :: r =>
      if (x =? c)%N then [] :: split c r
      else match split c r with
           | [] => [[x]]
           | p :: ps => (x :: p) :: ps
           end
  end.

(** [s.split_once(c)] *)
Fixpoint split_once (c : char) (s : str) : option (str * str) :=
  match s with
  | [] => None
  | x :: r =>
      if (x =? c)%N then Some ([], r)
      else '(a, b) ← split_once c r; Some (x :: a, b)
  end.

(** [s.rsplit_once(c)] *)
Definition rsplit_once (c : char) (s : str) : option (str * str) :=
  '(a, b) ← split_once c (reverse s); Some (reverse b, reverse a).

Fixpoint join (sep : str) (l : list str) : str :=
  match l with
  | [] => []
  | [x] => x
  | x :: r => x ++ sep ++ join sep r
  end.

(** [str::split_inclusive('\n')]: each piece keeps its newline. *)
Fixpoint split_inclusive (c : char) (s : str) : list str :=
  match s with
  | [] => []
  | x :: r =>
      if (x =? c)%N then [x] :: split_inclusive c r
      else match split_inclusive c r with
           | [] => [[x]]
           | p :: ps => (x :: p) :: ps
           end
  end.

(** [str::lines]: a line loses its ['\n'] and then one ['\r']; a last line
    without ['\n'] is kept as it is. *)
Definition line_of_piece (p : str) : str :=
  match strip_suffix [NL] p with
  | Some l => default l (strip_suffix [CR] l)
  | None => p
  end.
Definition lines (s : str) : list str := map line_of_piece (split_inclusive NL s).

(** ** Lemmas *)

Lemma byte_len_app s t : byte_len (s ++ t) = byte_len s + byte_len t.
Proof. apply sum_list_with_app. Qed.

Lemma len_utf8_pos c : 1 <= len_utf8 c.
Proof. unfold len_utf8. repeat case_match; lia. Qed.

Lemma byte_len_ge_length s : length s <= byte_len s.
Proof.
  induction s as [|c s IH]; cbn; [lia|]. pose proof (len_utf8_pos c).
  unfold byte_len in *. lia.
Qed.

Lemma strip_prefix_Some p s t : strip_prefix p s = Some t <-> s = p ++ t.
Proof.
  revert s. induction p as [|a p IH]; intros s; cbn.
  - split; [by intros [= ->] | by intros ->].
  - destruct s as [|b s]; [done|]. destruct (N.eqb_spec a b) as [->|Hne].
    + rewrite IH. split; [by intros -> | by intros [= ->]].
    + split; [done | by intros [= -> _]].
Qed.

Lemma strip_prefix_app p t : strip_prefix p (p ++ t) = Some t.
Proof. by apply strip_prefix_Some. Qed.

Lemma strip_suffix_Some p s t : strip_suffix p s = Some t <-> s = t ++ p.
Proof.
  unfold strip_suffix. rewrite fmap_Some. split.
  - intros (r & Hr%strip_prefix_Some & ->).
    apply (f_equal reverse) in Hr. rewrite reverse_app, !reverse_involutive in Hr. done.
  - intros ->. exists (reverse t). rewrite reverse_involutive. split; [|done].
    apply strip_prefix_Some. apply reverse_app.
Qed.

Lemma starts_with_spec s p : starts_with s p = true <-> exists t, s = p ++ t.
Proof.
  unfold starts_with. rewrite bool_decide_eq_true. split.
  - intros [t Ht]. exists t. by apply strip_prefix_Some.
  - intros [t ->]. rewrite strip_prefix_app. eauto.
Qed.

Lemma trim_start_matches_suffix p s :
  exists w, s = w ++ trim_start_matches p s /\ forallb p w = true.
Proof.
  induction s as [|c s (w & Hw & Hp)]; cbn; [by exists []|].
  destruct (p c) eqn:Hc; [|by exists []].
  exists (c :: w). cbn. rewrite Hc, <- Hw. done.
Qed.

Lemma take_while_trim p s : take_while p s ++ trim_start_matches p s = s.
Proof. induction s as [|c s IH]; cbn; [done|]. destruct (p c); cbn; [by rewrite IH|done]. Qed.

Lemma take_while_forallb p s : forallb p (take_while p s) = true.
Proof. induction s as [|c s IH]; cbn; [done|]. destruct (p c) eqn:Hc; cbn; [by rewrite Hc|done]. Qed.

Lemma take_while_app p w c s :
  forallb p w = true -> p c = false -> take_while p (w ++ c :: s) = w.
Proof.
  intros Hw Hc. induction w as [|d w IH]; cbn; [by rewrite Hc|].
  cbn in Hw. apply andb_true_iff in Hw as [-> Hw]. by rewrite IH.
Qed.

Lemma trim_start_matches_nop p c s :
  p c = false -> trim_start_matches p (c :: s) = c :: s.
Proof. cbn. by intros ->. Qed.

Lemma trim_start_matches_head p s c r :
  trim_start_matches p s = c :: r -> p c = false.
Proof.
  induction s as [|x s IH]; cbn; [done|]. destruct (p x) eqn:Hx; [done|].
  by intros [= <- _].
Qed.

Lemma trim_start_matches_idemp p s :
  trim_start_matches p (trim_start_matches p s) = trim_start_matches p s.
Proof.
  destruct (trim_start_matches p s) as [|c r] eqn:E; [done|].
  apply trim_start_matches_nop. by eapply trim_start_matches_head.
Qed.

Lemma trim_start_matches_all p w s :
  forallb p w = true -> trim_start_matches p (w ++ s) = trim_start_matches p s.
Proof. induction w as [|c w IH]; cbn; [done|]. intros [-> H]%andb_true_iff. auto. Qed.

Lemma trim_end_matches_snoc p s c :
  p c = false -> trim_end_matches p (s ++ [c]) = s ++ [c].
Proof.
  intros H. unfold trim_end_matches. rewrite reverse_snoc, trim_start_matches_nop by done.
  by rewrite reverse_cons, reverse_involutive.
Qed.

Lemma trim_end_matches_snoc_true p s c :
  p c = true -> trim_end_matches p (s ++ [c]) = trim_end_matches p s.
Proof.
  intros H. unfold trim_end_matches. rewrite reverse_snoc.
  cbn [trim_start_matches]. by rewrite H.
Qed.

Lemma trim_end_matches_nil p : trim_end_matches p [] = [].
Proof. done. Qed.

(** Trimming one end does not care about the other. *)
Lemma trim_end_cons_false p c s :
  p c = false -> trim_end_matches p (c :: s) = c :: trim_end_matches p s.
Proof.
  intros Hc. induction s as [|x s IH] using rev_ind.
  - apply (trim_end_matches_snoc p [] c Hc).
  - destruct (p x) eqn:Hx.
    + rewrite app_comm_cons, !trim_end_matches_snoc_true by done. exact IH.
    + rewrite app_comm_cons, !trim_end_matches_snoc by done. done.
Qed.

Lemma trim_end_start_comm p s :
  trim_end_matches p (trim_start_matches p s)
  = trim_start_matches p (trim_end_matches p s).
Proof.
  induction s as [|c s IH]; [done|]. cbn [trim_start_matches].
  destruct (p c) eqn:Hc.
  - rewrite IH. clear IH. induction s as [|x s IH] using rev_ind.
    + unfold trim_end_matches. cbn. by rewrite Hc.
    + destruct (p x) eqn:Hx.
      * rewrite app_comm_cons, !trim_end_matches_snoc_true by done. exact IH.
      * rewrite app_comm_cons, !trim_end_matches_snoc by done. cbn. by rewrite Hc.
  - rewrite trim_end_cons_false by done. cbn. by rewrite Hc.
Qed.

Lemma trim_alt s : trim s = trim_start (trim_end s).
Proof. apply trim_end_start_comm. Qed.

Lemma trim_start_nil : trim_start [] = [].
Proof. done. Qed.

Lemma trim_end_idemp s : trim_end (trim_end s) = trim_end s.
Proof.
  unfold trim_end, trim_end_matches.
  by rewrite reverse_involutive, trim_start_matches_idemp.
Qed.

Lemma trim_idemp s : trim (trim s) = trim s.
Proof.
  rewrite (trim_alt s) at 1. unfold trim, trim_start.
  rewrite trim_start_matches_idemp.
  fold trim_start. rewrite <- trim_alt. unfold trim. by rewrite trim_end_idemp.
Qed.

(** A string with no whitespace at either end is its own [trim]. *)
Lemma trim_nop c s d :
  is_whitespace c = false -> is_whitespace d = false ->
  trim (c :: s ++ [d]) = c :: s ++ [d].
Proof.
  intros Hc Hd. unfold trim, trim_start. rewrite trim_start_matches_nop by done.
  apply (trim_end_matches_snoc is_whitespace (c :: s)); done.
Qed.

Lemma trim_nop_app c s m d :
  is_whitespace c = false -> is_whitespace d = false ->
  trim ((c :: s) ++ m ++ [d]) = (c :: s) ++ m ++ [d].
Proof. intros Hc Hd. rewrite app_assoc. by apply (trim_nop c (s ++ m) d). Qed.

(** *** [split] and [join] *)

Lemma split_nonempty c s : split c s <> [].
Proof. destruct s as [|x s]; cbn; [done|]. repeat case_match; done. Qed.

Lemma join_cons sep x y l : join sep (x :: y :: l) = x ++ sep ++ join sep (y :: l).
Proof. done. Qed.

Lemma join_split c s : join [c] (split c s) = s.
Proof.
  induction s as [|x s IH]; [done|]. cbn [split].
  pose proof (split_nonempty c s) as Hne.
  destruct (N.eqb_spec x c) as [->|Hx].
  - destruct (split c s) as [|p ps]; [done|]. rewrite join_cons, IH. done.
  - destruct (split c s) as [|p [|q qs]]; [done| |].
    + cbn in *. by rewrite IH.
    + rewrite join_cons in *. by rewrite <- IH.
Qed.

(** A line holds no newline. *)
Definition no_char (c : char) (s : str) : Prop := c ∉ s.
#[export] Instance no_char_dec c s : Decision (no_char c s).
Proof. unfold no_char. apply _. Defined.

Lemma no_char_cons c x s : no_char c (x :: s) <-> x <> c /\ no_char c s.
Proof. unfold no_char. rewrite not_elem_of_cons. naive_solver. Qed.

Lemma no_char_app c s t : no_char c (s ++ t) <-> no_char c s /\ no_char c t.
Proof. unfold no_char. rewrite not_elem_of_app. done. Qed.

Lemma split_no_char c s : no_char c s -> split c s = [s].
Proof.
  induction s as [|x s IH]; [done|]. intros [Hx Hs]%no_char_cons. cbn.
  rewrite (proj2 (N.eqb_neq x c)) by done. by rewrite IH.
Qed.

Lemma split_app c s t : no_char c s -> split c (s ++ c :: t) = s :: split c t.
Proof.
  induction s as [|x s IH]; cbn.
  - by rewrite N.eqb_refl.
  - intros [Hx Hs]%no_char_cons. rewrite (proj2 (N.eqb_neq x c)) by done. by rewrite IH.
Qed.

(** [split] undoes [join] on a nonempty list of lines. *)
Lemma split_join c l :
  l <> [] -> Forall (no_char c) l -> split c (join [c] l) = l.
Proof.
  induction l as [|x l IH]; [done|]. intros _ [Hx Hl]%Forall_cons.
  destruct l as [|y l].
  - by apply split_no_char.
  - rewrite join_cons. cbn [app]. rewrite split_app by done. by rewrite IH.
Qed.

Lemma split_Forall_no_char c s : Forall (no_char c) (split c s).
Proof.
  induction s as [|x s IH]; cbn.
  - apply Forall_singleton. apply not_elem_of_nil.
  - destruct (N.eqb_spec x c) as [->|Hx].
    + constructor; [apply not_elem_of_nil | done].
    + destruct (split c s) as [|p ps].
      * apply Forall_singleton, no_char_cons. split; [done|apply not_elem_of_nil].
      * apply Forall_cons in IH as [Hp Hps]. constructor; [|done].
        by apply no_char_cons.
Qed.

(** *** [lines] *)

Lemma split_inclusive_line c s t :
  no_char c s -> split_inclusive c (s ++ c :: t) = (s ++ [c]) :: split_inclusive c t.
Proof.
  induction s as [|x s IH]; cbn.
  - by rewrite N.eqb_refl.
  - intros [Hx Hs]%no_char_cons. rewrite (proj2 (N.eqb_neq x c)) by done. by rewrite IH.
Qed.

Lemma split_inclusive_last c s :
  s <> [] -> no_char c s -> split_inclusive c s = [s].
Proof.
  induction s as [|x s IH]; [done|]. intros _ [Hx Hs]%no_char_cons. cbn.
  rewrite (proj2 (N.eqb_neq x c)) by done.
  destruct s as [|y s]; [done|]. by rewrite IH.
Qed.

(** A clean line: no newline and no trailing carriage return. *)
Definition clean_line (s : str) : Prop := no_char NL s /\ strip_suffix [CR] s = None.
#[export] Instance clean_line_dec s : Decision (clean_line s).
Proof. unfold clean_line. apply _. Defined.

Lemma line_of_piece_nl s : strip_suffix [CR] s = None -> line_of_piece (s ++ [NL]) = s.
Proof.
  intros H. unfold line_of_piece.
  rewrite (proj2 (strip_suffix_Some [NL] (s ++ [NL]) s) eq_refl). by rewrite H.
Qed.

Lemma line_of_piece_last s : no_char NL s -> line_of_piece s = s.
Proof.
  intros H. unfold line_of_piece.
  destruct (strip_suffix [NL] s) as [l|] eqn:E; [|done].
  apply strip_suffix_Some in E as ->. apply no_char_app in H as [_ H].
  apply no_char_cons in H as [H _]. done.
Qed.

(** [lines] undoes [join "\n"] on clean lines whose last one is nonempty. *)
Lemma lines_join l :
  Forall clean_line l -> (forall x, last l = Some x -> x <> []) ->
  lines (join [NL] l) = l.
Proof.
  induction l as [|x l IH]; [done|]. intros [[Hx Hcr] Hl]%Forall_cons Hlast.
  destruct l as [|y l].
  - unfold lines. cbn [join]. rewrite split_inclusive_last; [|by apply Hlast|done].
    cbn. by rewrite line_of_piece_last.
  - rewrite join_cons. unfold lines in *. cbn [app].
    rewrite split_inclusive_line by done. cbn [map].
    rewrite line_of_piece_nl by done. f_equal. apply IH; [done|].
    intros z Hz. apply Hlast. by rewrite last_cons, Hz.
Qed.

(** *** More on trimming, joining and clean lines *)

Lemma trim_cons c s : is_whitespace c = false -> trim (c :: s) = c :: trim_end s.
Proof.
  intros Hc. unfold trim, trim_start. rewrite trim_start_matches_nop by done.
  by apply trim_end_cons_false.
Qed.

(** A string that ends in a non-space keeps its end under any prefix. *)
Lemma trim_end_app s p : p <> [] -> trim_end p = p -> trim_end (s ++ p) = s ++ p.
Proof.
  intros Hne Hp. destruct p as [|d p _] using rev_ind; [done|].
  rewrite app_assoc. unfold trim_end. apply trim_end_matches_snoc.
  destruct (is_whitespace d) eqn:Hd; [|done]. exfalso.
  assert (length (trim_end (p ++ [d])) <= length p) as Hlen.
  { unfold trim_end. rewrite trim_end_matches_snoc_true by done.
    unfold trim_end_matches. rewrite length_reverse.
    destruct (trim_start_matches_suffix is_whitespace (reverse p)) as (w & Hw & _).
    apply (f_equal length) in Hw. rewrite length_app, length_reverse in Hw. lia. }
  rewrite Hp, length_app in Hlen. cbn in Hlen. lia.
Qed.

Lemma trim_cons_app c s p :
  is_whitespace c = false -> p <> [] -> trim_end p = p -> trim (c :: s ++ p) = c :: s ++ p.
Proof. intros Hc Hne Hp. rewrite trim_cons by done. by rewrite trim_end_app. Qed.

Lemma trim_end_snoc_ws s d : is_whitespace d = true -> trim_end (s ++ [d]) <> s ++ [d].
Proof.
  intros Hd Heq. assert (H : trim_end ([] ++ [d]) = [] ++ [d]).
  { unfold trim_end in *. rewrite trim_end_matches_snoc_true in Heq by done.
    exfalso. apply (f_equal length) in Heq. unfold trim_end_matches in Heq.
    rewrite length_reverse, length_app in Heq.
    destruct (trim_start_matches_suffix is_whitespace (reverse s)) as (w & Hw & _).
    apply (f_equal length) in Hw. rewrite length_app, length_reverse in Hw.
    cbn in Heq. lia. }
  cbn in H. unfold trim_end, trim_end_matches in H. cbn in H. by rewrite Hd in H.
Qed.

Lemma join_snoc sep l x : l <> [] -> join sep (l ++ [x]) = join sep l ++ sep ++ x.
Proof.
  induction l as [|a l IH]; [done|]. intros _. destruct l as [|b l]; [done|].
  cbn [app]. rewrite !join_cons. cbn [app] in IH. rewrite IH by done.
  by rewrite <- !app_assoc.
Qed.

Lemma strip_suffix_None_snoc p s d : d <> p -> strip_suffix [p] (s ++ [d]) = None.
Proof.
  intros Hne. destruct (strip_suffix [p] (s ++ [d])) as [t|] eqn:E; [|done].
  apply strip_suffix_Some in E. apply app_inj_tail in E as [_ ?]. done.
Qed.

Lemma clean_line_cons c s : c <> NL -> c <> CR -> clean_line s -> clean_line (c :: s).
Proof.
  intros Hn Hr [Hs Hcr]. split; [by apply no_char_cons|].
  destruct (strip_suffix [CR] (c :: s)) as [t|] eqn:E; [|done].
  apply strip_suffix_Some in E. destruct t as [|x t].
  - injection E as ->. done.
  - injection E as <- ->.
    rewrite (proj2 (strip_suffix_Some [CR] (t ++ [CR]) t) eq_refl) in Hcr. done.
Qed.

Lemma clean_line_app m s :
  no_char NL m -> s <> [] -> clean_line s -> clean_line (m ++ s).
Proof.
  intros Hm Hne [Hs Hcr]. split; [by apply no_char_app|].
  destruct s as [|d s _] using rev_ind; [done|]. rewrite app_assoc.
  apply strip_suffix_None_snoc. intros ->.
  by rewrite (proj2 (strip_suffix_Some [CR] (s ++ [CR]) s) eq_refl) in Hcr.
Qed.

Lemma trimmed_clean s : no_char NL s -> trim_end s = s -> clean_line s.
Proof.
  intros Hnl Hs. split; [done|].
  destruct (strip_suffix [CR] s) as [t|] eqn:E; [|done].
  apply strip_suffix_Some in E as ->. by destruct (trim_end_snoc_ws t CR eq_refl).
Qed.

Lemma lines_nil : lines [] = [].
Proof. done. Qed.

(** Complete lines, each with its newline. *)
Definition unlines (l : list str) : str := concat (map (fun x => x ++ [NL]) l).

Lemma lines_unlines l : Forall clean_line l -> lines (unlines l) = l.
Proof.
  induction l as [|x l IH]; [done|]. intros [[Hx Hcr] Hl]%Forall_cons.
  unfold unlines, lines in *. cbn [map concat]. rewrite <- app_assoc. cbn [app].
  rewrite split_inclusive_line by done. cbn [map].
  rewrite line_of_piece_nl by done. by rewrite IH.
Qed.

(** ** Characters of the results *)

Lemma trim_start_matches_elem p s c : c ∈ trim_start_matches p s -> c ∈ s.
Proof.
  destruct (trim_start_matches_suffix p s) as (w & Hs & _). intros H.
  rewrite Hs. apply elem_of_app. by right.
Qed.

Lemma trim_end_matches_elem p s c : c ∈ trim_end_matches p s -> c ∈ s.
Proof.
  unfold trim_end_matches. rewrite elem_of_reverse. intros H%trim_start_matches_elem.
  by rewrite elem_of_reverse in H.
Qed.

Lemma trim_elem s c : c ∈ trim s -> c ∈ s.
Proof. intros H%trim_end_matches_elem. by apply trim_start_matches_elem in H. Qed.

Lemma contains_char_spec s c : contains_char s c = true <-> c ∈ s.
Proof.
  unfold contains_char. rewrite existsb_exists. setoid_rewrite N.eqb_eq.
  rewrite list_elem_of_In. naive_solver.
Qed.

Lemma contains_char_false s c : contains_char s c = false <-> no_char c s.
Proof. unfold no_char. rewrite <- contains_char_spec. by destruct (contains_char s c). Qed.

Lemma contains_spec s p : contains s p = true <-> exists a b, s = a ++ p ++ b.
Proof.
  induction s as [|x s IH]; cbn [contains]; rewrite orb_true_iff, starts_with_spec.
  - split.
    + intros [[t Ht]|]; [|done]. by exists [], t.
    + intros (a & b & H). left. exists []. destruct a, p; done.
  - rewrite IH. split.
    + intros [[t Ht]|(a & b & ->)]; [by exists [], t|by exists (x :: a), b].
    + intros ([|y a] & b & H); [left; by exists b|right].
      injection H as _ ->. by exists a, b.
Qed.

Lemma trim_end_matches_all p s w :
  forallb p w = true -> trim_end_matches p (s ++ w) = trim_end_matches p s.
Proof.
  induction w as [|c w IH] using rev_ind; [by rewrite app_nil_r|].
  rewrite forallb_app, andb_true_iff. cbn. rewrite andb_true_r. intros [Hw Hc].
  by rewrite app_assoc, trim_end_matches_snoc_true, IH.
Qed.

Lemma trim_end_matches_last p s c :
  last s = Some c -> p c = false -> trim_end_matches p s = s.
Proof. intros [s' ->]%last_Some. apply trim_end_matches_snoc. Qed.

(** Trimming removes a padding of whitespace around any text that neither
    starts nor ends with whitespace. *)
Lemma trim_pad w1 s w2 c d :
  forallb is_whitespace w1 = true -> forallb is_whitespace w2 = true ->
  head s = Some c -> is_whitespace c = false ->
  last s = Some d -> is_whitespace d = false ->
  trim (w1 ++ s ++ w2) = s.
Proof.
  intros Hw1 Hw2 Hc Hcw Hd Hdw. unfold trim, trim_start.
  rewrite trim_start_matches_all by done. destruct s as [|x s]; [done|].
  injection Hc as ->. cbn [app]. rewrite trim_start_matches_nop by done.
  unfold trim_end. rewrite app_comm_cons, trim_end_matches_all by done.
  by eapply trim_end_matches_last.
Qed.

Lemma to_ascii_lowercase_not_upper c : is_ascii_uppercase (char_to_ascii_lowercase c) = false.
Proof.
  unfold char_to_ascii_lowercase, is_ascii_uppercase.
  destruct (65 <=? c)%N eqn:H1, (c <=? 90)%N eqn:H2; cbn [andb].
  - apply andb_false_iff. right. apply N.leb_gt. apply N.leb_le in H1. lia.
  - by rewrite H1, H2.
  - by rewrite H1.
  - by rewrite H1.
Qed.

(** ** Splitting once *)

Lemma split_once_Some c s a b :
  split_once c s = Some (a, b) <-> s = a ++ c :: b /\ no_char c a.
Proof.
  revert a. induction s as [|x s IH]; intros a; cbn.
  { split; [done|]. intros [H _]. by destruct a. }
  destruct (N.eqb_spec x c) as [->|Hx].
  - split.
    + intros [= <- <-]. split; [done|]. apply not_elem_of_nil.
    + intros [H Ha]. destruct a as [|y a]; [by injection H as ->|].
      injection H as -> _. apply no_char_cons in Ha as [? _]. done.
  - destruct (split_once c s) as [[a' b']|] eqn:E; cbn.
    + destruct (IH a') as [IH1 _]. split.
      * intros [= <- <-]. destruct (proj1 (IH a')) as [-> Ha'];
          [done|]. split; [done|]. by apply no_char_cons.
      * intros [H Ha]. destruct a as [|y a]; [by injection H as ->|].
        injection H as -> H. apply no_char_cons in Ha as [_ Ha].
        destruct (IH a) as [_ IH2]. specialize (IH2 (conj H Ha)). congruence.
    + split; [done|]. intros [H Ha]. destruct a as [|y a]; [by injection H as ->|].
      injection H as -> H. apply no_char_cons in Ha as [_ Ha].
      destruct (IH a) as [_ IH2]. specialize (IH2 (conj H Ha)). congruence.
Qed.

Lemma split_once_None c s : split_once c s = None <-> no_char c s.
Proof.
  induction s as [|x s IH]; cbn; [split; [intros _; apply not_elem_of_nil|done]|].
  rewrite no_char_cons. destruct (N.eqb_spec x c) as [->|Hx]; [naive_solver|].
  destruct (split_once c s) as [[a b]|]; cbn; naive_solver.
Qed.

Lemma rsplit_once_Some c s a b :
  rsplit_once c s = Some (a, b) <-> s = a ++ c :: b /\ no_char c b.
Proof.
  unfold rsplit_once. destruct (split_once c (reverse s)) as [[a' b']|] eqn:E; cbn.
  - apply split_once_Some in E as [E Ha]. apply (f_equal reverse) in E.
    rewrite reverse_involutive, reverse_app, reverse_cons, <- app_assoc in E. cbn in E.
    split.
    + intros [= <- <-]. split; [done|]. unfold no_char. by rewrite elem_of_reverse.
    + intros [H Hb]. assert (split_once c (reverse s) = Some (reverse b, reverse a)) as Hs.
      { apply split_once_Some. rewrite H, reverse_app, reverse_cons, <- app_assoc. cbn.
        split; [done|]. unfold no_char. by rewrite elem_of_reverse. }
      assert (split_once c (reverse s) = Some (a', b')) as Hs'.
      { apply split_once_Some. split; [|done]. rewrite E.
        rewrite reverse_app, reverse_cons, !reverse_involutive, <- app_assoc. done. }
      rewrite Hs in Hs'. injection Hs' as <- <-. by rewrite !reverse_involutive.
  - split; [done|]. intros [-> Hb]. apply split_once_None in E.
    rewrite reverse_app, reverse_cons, <- app_assoc in E. destruct E.
    apply elem_of_app. right. cbn. apply elem_of_cons. by left.
Qed.

Lemma rsplit_once_None c s : rsplit_once c s = None <-> no_char c s.
Proof.
  assert (no_char c s <-> no_char c (reverse s)) as ->.
  { unfold no_char. by rewrite elem_of_reverse. }
  rewrite <- split_once_None. unfold rsplit_once. by destruct (split_once c (reverse s)) as [[]|].
Qed.

(** A piece of a split is the whole or is shorter. *)
Lemma split_elem_length c s p : p ∈ split c s -> p = s \/ length p < length s.
Proof.
  intros Hp. destruct (decide (no_char c s)) as [Hc|Hc].
  - rewrite split_no_char in Hp by done. apply list_elem_of_singleton in Hp. by left.
  - right. revert p Hp. induction s as [|x s IH]; intros p Hp.
    { destruct Hc. apply not_elem_of_nil. }
    cbn in Hp. destruct (N.eqb_spec x c) as [->|Hx].
    + apply elem_of_cons in Hp as [->|Hp]; [cbn; lia|].
      destruct (decide (no_char c s)) as [Hs|Hs].
      * rewrite split_no_char in Hp by done. apply list_elem_of_singleton in Hp as ->. cbn. lia.
      * specialize (IH Hs p Hp). cbn. lia.
    + assert (~ no_char c s) as Hs by (intros Hs; apply Hc, no_char_cons; done).
      destruct (split c s) as [|q ps] eqn:E; [by destruct (split_nonempty c s)|].
      apply elem_of_cons in Hp as [->|Hp]; cbn.
      * specialize (IH Hs q ltac:(by left)). lia.
      * specialize (IH Hs p ltac:(by right)). lia.
Qed.

Lemma lower_char_cases c :
  char_to_ascii_lowercase c = c \/
  (97 <= char_to_ascii_lowercase c <= 122 /\ c = char_to_ascii_lowercase c - 32)%N.
Proof.
  unfold char_to_ascii_lowercase. destruct (is_ascii_uppercase c) eqn:H; [right|by left].
  unfold is_ascii_uppercase in H. apply andb_true_iff in H as [H1%N.leb_le H2%N.leb_le]. lia.
Qed.

Lemma lower_no_char c s :
  is_ascii_lowercase c = false -> no_char c s -> no_char c (to_ascii_lowercase s).
Proof.
  intros Hc Hs Hin. apply list_elem_of_fmap in Hin as (x & Hx & Hin).
  destruct (lower_char_cases x) as [E|[[H1 H2] _]]; [rewrite E in Hx; by subst|].
  rewrite <- Hx in H1, H2. unfold is_ascii_lowercase in Hc. apply andb_false_iff in Hc.
  rewrite !N.leb_gt in Hc. lia.
Qed.
