(* ===== verification/SeekSequence.v ===== *)
(** * Locating the lines of a patch in a file

    Model of [codex-rs/apply-patch/src/seek_sequence.rs]: four passes of
    decreasing strictness over the candidate positions.  The specification
    [seek_spec] says which position is the answer without saying how it is
    searched; [seek_sequence_correct] shows the passes implement it. *)

From S2P Require Import Prelude RustStr.
Open Scope str_scope.

(** The inner [fn normalise]: trim, then map typographic punctuation to
    ASCII. *)
Definition normalise_char (c : char) : char :=
  if ((8208 <=? c) && (c <=? 8213) || (c =? 8722))%N then 45%N
  else if ((8216 <=? c) && (c <=? 8219))%N then 39%N
  else if ((8220 <=? c) && (c <=? 8223))%N then 34%N
  else if ((c =? 160) || ((8194 <=? c) && (c <=? 8202)) || (c =? 8239)
           || (c =? 8287) || (c =? 12288))%N then 32%N
  else c.
Definition normalise (s : str) : str := map normalise_char (trim s).

(** The inner loop of the three lenient passes: every pattern line equals
    its counterpart after [f].  An index out of range would panic in the
    code; the callers only pass positions where the pattern fits. *)
Fixpoint lines_match (f : str -> str) (lines pattern : list str) (i : nat) : bool :=
  match pattern with
  | [] => true
  | pat :: rest =>
      match lines !! i with
      | None => false
      | Some l => bool_decide (f l = f pat) && lines_match f lines rest (S i)
      end
  end.

(** [lines[i..i + pattern.len()] == *pattern] *)
Definition exact_match (lines pattern : list str) (i : nat) : bool :=
  bool_decide (take (length pattern) (drop i lines) = pattern).

Definition seek_sequence (lines pattern : list str) (start : nat) (eof : bool)
    : option nat :=
  if is_empty pattern then Some start
  else if (length lines <? length pattern)%nat then None
  else
    let search_start :=
      if eof && (length pattern <=? length lines)%nat
      then length lines - length pattern else start in
    let last := length lines - length pattern in
    let pass ok := find_index ok search_start (S last - search_start) in
    match pass (exact_match lines pattern) with
    | Some i => Some i
    | None =>
        match pass (lines_match trim_end lines pattern) with
        | Some i => Some i
        | None =>
            match pass (lines_match trim lines pattern) with
            | Some i => Some i
            | None => pass (lines_match normalise lines pattern)
            end
        end
    end.

(** ** Specification *)

(** The patterns fits at [i] and agrees with the file up to [f]. *)
Definition occurs (f : str -> str) (lines pattern : list str) (i : nat) : Prop :=
  i + length pattern <= length lines /\
  map f (take (length pattern) (drop i lines)) = map f pattern.

(** The leniency levels, strictest first. *)
Definition levels : list (str -> str) := [id; trim_end; trim; normalise].

Definition seek_from (lines pattern : list str) (start : nat) (eof : bool) : nat :=
  if eof then length lines - length pattern else start.

(** [i] is the first occurrence at the strictest level that has one. *)
Definition seek_spec (lines pattern : list str) (from i : nat) : Prop :=
  exists k f, levels !! k = Some f /\ from <= i /\ occurs f lines pattern i /\
    (forall j, from <= j < i -> ~ occurs f lines pattern j) /\
    (forall k' f' j, k' < k -> levels !! k' = Some f' -> from <= j ->
       ~ occurs f' lines pattern j).

(** ** The passes *)

Lemma exact_match_spec lines pattern i :
  i + length pattern <= length lines ->
  exact_match lines pattern i = true <-> occurs id lines pattern i.
Proof.
  intros Hi. unfold exact_match, occurs. rewrite bool_decide_eq_true, !map_id. tauto.
Qed.

Lemma lines_match_spec f lines pattern i :
  lines_match f lines pattern i = true <-> occurs f lines pattern i \/ pattern = [].
Proof.
  unfold occurs. revert i. induction pattern as [|p pattern IH]; intros i; cbn.
  { split; [by right | done]. }
  destruct (lines !! i) as [l|] eqn:Hl.
  - rewrite andb_true_iff, bool_decide_eq_true, IH.
    rewrite (drop_S lines l i) by done. cbn.
    apply lookup_lt_Some in Hl. split.
    + intros [Hf [[Hlen Hm] | ->]]; left.
      * split; [lia|]. by rewrite Hf, Hm.
      * cbn in *. rewrite take_0. cbn. rewrite Hf. split; [lia|done].
    + intros [[Hlen [= Hf Hm]] | ?]; [|done]. split; [done|].
      left. split; [lia|done].
  - apply lookup_ge_None in Hl. split; [done|]. intros [[Hlen _] | ?]; [lia|done].
Qed.

Lemma trim_end_trim a b : trim_end a = trim_end b -> trim a = trim b.
Proof. rewrite !trim_alt. by intros ->. Qed.

(** A stricter level implies every laxer one. *)
Lemma level_mono k k' f f' a b :
  levels !! k = Some f -> levels !! k' = Some f' -> k <= k' ->
  f a = f b -> f' a = f' b.
Proof.
  intros Hk Hk' Hle Heq.
  destruct k as [|[|[|[|k]]]]; cbn in Hk; try done; injection Hk as <-;
  destruct k' as [|[|[|[|k']]]]; cbn in Hk'; try done; injection Hk' as <-;
  try lia; try done;
  unfold id, normalise in *;
  first [done | by rewrite Heq | by rewrite (trim_end_trim _ _ Heq) | by apply trim_end_trim].
Qed.

Lemma occurs_mono k k' f f' lines pattern i :
  levels !! k = Some f -> levels !! k' = Some f' -> k <= k' ->
  occurs f lines pattern i -> occurs f' lines pattern i.
Proof.
  intros Hk Hk' Hle [Hi Hm]. split; [done|].
  set (t := take (length pattern) (drop i lines)) in *. clearbody t. clear Hi.
  revert t Hm. induction pattern as [|p ps IH]; intros [|x t]; try done.
  cbn. intros [= Hx Hm]. by rewrite (level_mono k k' f f' x p Hk Hk' Hle Hx), (IH t).
Qed.

(** One pass of the search is the first occurrence at its level. *)
Lemma pass_Some ok f lines pattern from i :
  length pattern <= length lines ->
  (forall j, j + length pattern <= length lines ->
     ok j = true <-> occurs f lines pattern j) ->
  find_index ok from (S (length lines - length pattern) - from) = Some i ->
  from <= i /\ occurs f lines pattern i /\
  (forall j, from <= j < i -> ~ occurs f lines pattern j).
Proof.
  intros Hlen Hok (Hr & Hi & Hmin)%find_index_Some. split_and!; [lia| |].
  - apply Hok; [lia|done].
  - intros j Hj Hocc. apply Hok in Hocc; [|lia]. by rewrite Hmin in Hocc.
Qed.

Lemma pass_None ok f lines pattern from :
  length pattern <= length lines ->
  (forall j, j + length pattern <= length lines ->
     ok j = true <-> occurs f lines pattern j) ->
  find_index ok from (S (length lines - length pattern) - from) = None ->
  forall j, from <= j -> ~ occurs f lines pattern j.
Proof.
  intros Hlen Hok Hnone j Hj Hocc. pose proof Hocc as [Hfit _].
  apply Hok in Hocc; [|done]. rewrite find_index_None in Hnone.
  by rewrite Hnone in Hocc by lia.
Qed.

Lemma lines_match_ok f lines pattern :
  pattern <> [] -> forall j, j + length pattern <= length lines ->
  lines_match f lines pattern j = true <-> occurs f lines pattern j.
Proof. intros Hne j _. rewrite lines_match_spec. tauto. Qed.

(** The result of the search, in full. *)
Lemma seek_sequence_cases lines pattern start eof :
  pattern <> [] ->
  match seek_sequence lines pattern start eof with
  | Some i => seek_spec lines pattern (seek_from lines pattern start eof) i
  | None => forall j, seek_from lines pattern start eof <= j ->
              ~ occurs normalise lines pattern j
  end.
Proof.
  intros Hne. unfold seek_sequence. rewrite (proj2 (is_empty_false pattern) Hne).
  destruct (Nat.ltb_spec (length lines) (length pattern)) as [Hlt|Hge].
  { intros j _ [Hfit _]. lia. }
  rewrite (proj2 (Nat.leb_le _ _) Hge), andb_true_r.
  fold (seek_from lines pattern start eof).
  set (from := seek_from lines pattern start eof). clearbody from.
  destruct (find_index (exact_match _ _) _ _) as [i|] eqn:E0.
  { eapply pass_Some with (f := id) in E0 as (? & ? & ?); [|done|apply exact_match_spec].
    exists 0, id. split_and!; try done. intros k' f' j ?. lia. }
  pose proof (pass_None _ id _ _ _ Hge (exact_match_spec _ _) E0) as N0.
  destruct (find_index (lines_match trim_end _ _) _ _) as [i|] eqn:E1.
  { eapply pass_Some in E1 as (? & ? & ?); [|done|by apply lines_match_ok].
    exists 1, trim_end. split_and!; try done.
    intros [|k'] f' j Hk' Hf; [|lia]. injection Hf as <-. apply N0. }
  pose proof (pass_None _ _ _ _ _ Hge (lines_match_ok _ _ _ Hne) E1) as N1.
  destruct (find_index (lines_match trim _ _) _ _) as [i|] eqn:E2.
  { eapply pass_Some in E2 as (? & ? & ?); [|done|by apply lines_match_ok].
    exists 2, trim. split_and!; try done.
    intros [|[|k']] f' j Hk' Hf; [| |lia]; injection Hf as <-; [apply N0|apply N1]. }
  pose proof (pass_None _ _ _ _ _ Hge (lines_match_ok _ _ _ Hne) E2) as N2.
  destruct (find_index (lines_match normalise _ _) _ _) as [i|] eqn:E3.
  { eapply pass_Some in E3 as (? & ? & ?); [|done|by apply lines_match_ok].
    exists 3, normalise. split_and!; try done.
    intros [|[|[|k']]] f' j Hk' Hf; [| | |lia]; injection Hf as <-;
      [apply N0|apply N1|apply N2]. }
  exact (pass_None _ _ _ _ _ Hge (lines_match_ok _ _ _ Hne) E3).
Qed.

Lemma seek_spec_occurs lines pattern from i :
  seek_spec lines pattern from i -> from <= i /\ occurs normalise lines pattern i.
Proof.
  intros (k & f & Hk & Hfrom & Hocc & _). split; [done|].
  assert (k <= 3) by (apply lookup_lt_Some in Hk; cbn in Hk; lia).
  by apply (occurs_mono k 3 f normalise lines pattern i).
Qed.

Lemma seek_spec_unique lines pattern from i j :
  seek_spec lines pattern from i -> seek_spec lines pattern from j -> i = j.
Proof.
  intros (k & f & Hk & Hi & Hoi & Hmi & Hsi) (k' & f' & Hk' & Hj & Hoj & Hmj & Hsj).
  destruct (lt_eq_lt_dec k k') as [[Hlt | ->] | Hlt].
  - by destruct (Hsj k f i Hlt Hk Hi).
  - rewrite Hk in Hk'. injection Hk' as <-.
    destruct (lt_eq_lt_dec i j) as [[Hlt | ?] | Hlt]; [|done|].
    + by destruct (Hmj i (conj Hi Hlt)).
    + by destruct (Hmi j (conj Hj Hlt)).
  - by destruct (Hsi k' f' j Hlt Hk' Hj).
Qed.

(** What the callers rely on: a hit lies inside the file. *)
Lemma seek_sequence_bounds lines pattern start eof i :
  pattern <> [] -> seek_sequence lines pattern start eof = Some i ->
  seek_from lines pattern start eof <= i /\ i + length pattern <= length lines.
Proof.
  intros Hne H. pose proof (seek_sequence_cases lines pattern start eof Hne) as Hc.
  rewrite H in Hc. apply seek_spec_occurs in Hc as [? [? _]]. done.
Qed.

Lemma seek_sequence_nil lines start eof : seek_sequence lines [] start eof = Some start.
Proof. done. Qed.

(** ** Properties *)

(** [seek_sequence] implements its specification: for a nonempty
    pattern it returns [i] exactly when [i] is the first position, from the
    search start, of the strictest of the four leniency levels that has a
    match; in particular it returns nothing only when no level matches
    anywhere.  (An empty pattern answers [start].) *)
Theorem seek_sequence_correct (lines pattern : list str) (start : nat) (eof : bool)
    (Hne : pattern <> []) :
  (forall i, seek_sequence lines pattern start eof = Some i <->
     seek_spec lines pattern (seek_from lines pattern start eof) i) /\
  (seek_sequence lines pattern start eof = None <->
     forall f i, f ∈ levels -> seek_from lines pattern start eof <= i ->
       ~ occurs f lines pattern i).
Proof.
  pose proof (seek_sequence_cases lines pattern start eof Hne) as Hc.
  destruct (seek_sequence lines pattern start eof) as [i|]; split.
  - intros i'. split; [by intros [= <-]|]. intros H. f_equal. by eapply seek_spec_unique.
  - split; [done|]. intros H. apply seek_spec_occurs in Hc as [? ?].
    exfalso. eapply (H normalise i); [set_solver | done | done].
  - intros i'. split; [done|]. intros [H1 H2]%seek_spec_occurs. by destruct (Hc i').
  - split; [|done]. intros _ f i [k Hk]%list_elem_of_lookup Hi Hocc.
    assert (k <= 3) by (apply lookup_lt_Some in Hk; cbn in Hk; lia).
    eapply Hc; [exact Hi|]. by apply (occurs_mono k 3 f normalise lines pattern i).
Qed.

Lemma seek_sequence_correct_witness :
  seek_sequence ["  a "; "b"; "a"; "b"] ["a"; "b"] 0 false = Some 2 /\
  seek_spec ["  a "; "b"; "a"; "b"] ["a"; "b"] 0 2.
Proof.
  split; [vm_compute; reflexivity|].
  apply (proj1 (seek_sequence_correct ["  a "; "b"; "a"; "b"] ["a"; "b"] 0 false
                  ltac:(discriminate))).
  vm_compute. reflexivity.
Defined.
