(* ===== verification/PatchParser.v ===== *)
(** * The apply_patch grammar: parsing a patch into hunks

    Model of [codex-rs/apply-patch/src/parser.rs].  A function answers
    [None] where the code would panic on a slice or loop for ever (its
    [while] loops run on fuel); [parse_patch_text_total] shows neither
    happens, and [parse_patch_render] that the parser inverts the grammar
    given in the file's module documentation. *)

From S2P Require Import Prelude RustStr.
Open Scope str_scope.

(** ** Markers *)

Definition BEGIN_PATCH_MARKER : str := "*** Begin Patch".
Definition ENVIRONMENT_ID_MARKER : str := "*** Environment ID: ".
Definition END_PATCH_MARKER : str := "*** End Patch".
Definition ADD_FILE_MARKER : str := "*** Add File: ".
Definition DELETE_FILE_MARKER : str := "*** Delete File: ".
Definition UPDATE_FILE_MARKER : str := "*** Update File: ".
Definition MOVE_TO_MARKER : str := "*** Move to: ".
Definition EOF_MARKER : str := "*** End of File".
Definition CHANGE_CONTEXT_MARKER : str := "@@ ".
Definition EMPTY_CHANGE_CONTEXT_MARKER : str := "@@".

(** ** Data *)

Inductive ParseError :=
| InvalidPatchError (message : str)
| InvalidHunkError (message : str) (line_number : nat).

Record UpdateFileChunk := mkChunk {
  change_context : option str;
  old_lines : list str;
  new_lines : list str;
  is_end_of_file : bool;
}.

Inductive Hunk :=
| AddFile (path : str) (contents : str)
| DeleteFile (path : str)
| UpdateFile (path : str) (move_path : option str) (chunks : list UpdateFileChunk).

Record ApplyPatchArgs := mkArgs {
  patch : str;
  hunks : list Hunk;
  workdir : option str;
  environment_id : option str;
}.

Inductive ParseMode := Strict | Lenient.

(** [Hunk::path]: the path a hunk affects, after a move. *)
Definition hunk_path (h : Hunk) : str :=
  match h with
  | AddFile path _ => path
  | DeleteFile path => path
  | UpdateFile _ (Some path) _ => path
  | UpdateFile path None _ => path
  end.

(** [&l[n..]]: panics when [n] is out of range. *)
Definition slice_from {A} (n : nat) (l : list A) : option (list A) :=
  if (n <=? length l)%nat then Some (drop n l) else None.

(** [&l[1..l.len() - 1]]: panics when [l.len() < 2] ([0..] underflows,
    [1..0] is not a range). *)
Definition slice_inner {A} (l : list A) : option (list A) :=
  if (2 <=? length l)%nat then Some (take (length l - 2) (drop 1 l)) else None.

(** ** Patch boundaries *)

Definition first_line_message : str :=
  "The first line of the patch must be '*** Begin Patch'".
Definition last_line_message : str :=
  "The last line of the patch must be '*** End Patch'".

Definition check_start_and_end_lines_strict (first_line last_line : option str)
    : result ParseError unit :=
  match trim <$> first_line, trim <$> last_line with
  | Some first, Some last =>
      if bool_decide (first = BEGIN_PATCH_MARKER) && bool_decide (last = END_PATCH_MARKER)
      then Ok tt
      else if negb (bool_decide (first = BEGIN_PATCH_MARKER))
      then Err (InvalidPatchError first_line_message)
      else Err (InvalidPatchError last_line_message)
  | Some first, None =>
      if negb (bool_decide (first = BEGIN_PATCH_MARKER))
      then Err (InvalidPatchError first_line_message)
      else Err (InvalidPatchError last_line_message)
  | None, _ => Err (InvalidPatchError last_line_message)
  end.

Definition check_patch_boundaries_strict (lines : list str)
    : option (result ParseError (list str * list str)) :=
  let '(first_line, last_line) :=
    match lines with
    | [] => (None, None)
    | [first] => (Some first, Some first)
    | first :: _ => (Some first, last lines)
    end in
  match check_start_and_end_lines_strict first_line last_line with
  | Err e => Some (Err e)
  | Ok _ => inner ← slice_inner lines; Some (Ok (lines, inner))
  end.

Definition check_patch_boundaries_lenient (original_lines : list str)
    : option (result ParseError (list str * list str)) :=
  r ← check_patch_boundaries_strict original_lines;
  match r with
  | Ok lines => Some (Ok lines)
  | Err original_parse_error =>
      match original_lines, last original_lines with
      | first :: _ :: _, Some last_line =>
          if (bool_decide (first = "<<EOF") || bool_decide (first = "<<'EOF'")
              || bool_decide (first = "<<" ++ [34%N] ++ "EOF" ++ [34%N]))
             && ends_with last_line "EOF"
             && (4 <=? length original_lines)%nat
          then inner_lines ← slice_inner original_lines;
               check_patch_boundaries_strict inner_lines
          else Some (Err original_parse_error)
      | _, _ => Some (Err original_parse_error)
      end
  end.

Definition parse_environment_id_preamble (hunk_lines : list str)
    : result ParseError (option str * list str * nat) :=
  match hunk_lines with
  | [] => Ok (None, hunk_lines, 2)
  | first_line :: rest =>
      match strip_prefix ENVIRONMENT_ID_MARKER (trim_start first_line) with
      | None => Ok (None, hunk_lines, 2)
      | Some environment_id =>
          let environment_id := trim environment_id in
          if is_empty environment_id
          then Err (InvalidPatchError "apply_patch environment_id cannot be empty")
          else Ok (Some environment_id, rest, 3)
      end
  end.

(** ** Update chunks *)

Definition no_lines_message : str := "Update hunk does not contain any lines".
Definition unexpected_line_message (l : str) : str :=
  "Unexpected line found in update hunk: '" ++ l
  ++ "'. Every line should start with ' ' (context line), '+' (added line), or '-' (removed line)".
Definition expected_context_message (l : str) : str :=
  "Expected update hunk to start with a @@ context marker, got: '" ++ l ++ "'".

Definition push_old (l : str) (c : UpdateFileChunk) : UpdateFileChunk :=
  mkChunk (change_context c) (old_lines c ++ [l]) (new_lines c) (is_end_of_file c).
Definition push_new (l : str) (c : UpdateFileChunk) : UpdateFileChunk :=
  mkChunk (change_context c) (old_lines c) (new_lines c ++ [l]) (is_end_of_file c).
Definition set_eof (c : UpdateFileChunk) : UpdateFileChunk :=
  mkChunk (change_context c) (old_lines c) (new_lines c) true.

(** The [for line in &lines[start_index..]] loop. *)
Fixpoint parse_chunk_lines (ls : list str) (line_number : nat)
    (chunk : UpdateFileChunk) (parsed_lines : nat)
    : result ParseError (UpdateFileChunk * nat) :=
  match ls with
  | [] => Ok (chunk, parsed_lines)
  | line :: rest =>
      if bool_decide (line = EOF_MARKER) then
        if (parsed_lines =? 0)%nat
        then Err (InvalidHunkError no_lines_message (line_number + 1))
        else Ok (set_eof chunk, S parsed_lines)
      else
        match line with
        | [] =>
            parse_chunk_lines rest line_number
              (push_new [] (push_old [] chunk)) (S parsed_lines)
        | 32%N :: l =>
            parse_chunk_lines rest line_number
              (push_new l (push_old l chunk)) (S parsed_lines)
        | 43%N :: l =>
            parse_chunk_lines rest line_number (push_new l chunk) (S parsed_lines)
        | 45%N :: l =>
            parse_chunk_lines rest line_number (push_old l chunk) (S parsed_lines)
        | _ =>
            if (parsed_lines =? 0)%nat
            then Err (InvalidHunkError (unexpected_line_message line) (line_number + 1))
            else Ok (chunk, parsed_lines)
        end
  end.

Definition parse_update_file_chunk (lines : list str) (line_number : nat)
    (allow_missing_context : bool) : result ParseError (UpdateFileChunk * nat) :=
  match lines with
  | [] => Err (InvalidHunkError no_lines_message line_number)
  | line0 :: _ =>
      '(change_context, start_index) ←
        (if bool_decide (line0 = EMPTY_CHANGE_CONTEXT_MARKER) then Ok (None, 1)
         else match strip_prefix CHANGE_CONTEXT_MARKER line0 with
              | Some context => Ok (Some context, 1)
              | None =>
                  if negb allow_missing_context
                  then Err (InvalidHunkError (expected_context_message line0) line_number)
                  else Ok (None, 0)
              end);
      if (length lines <=? start_index)%nat
      then Err (InvalidHunkError no_lines_message (line_number + 1))
      else
        '(chunk, parsed_lines) ←
          parse_chunk_lines (drop start_index lines) line_number
            (mkChunk change_context [] [] false) 0;
        Ok (chunk, parsed_lines + start_index)
  end.

(** ** Hunks *)

(** The [for add_line in &lines[1..]] loop. *)
Fixpoint parse_add_lines (ls : list str) (contents : str) (parsed_lines : nat)
    : str * nat :=
  match ls with
  | [] => (contents, parsed_lines)
  | add_line :: rest =>
      match strip_prefix "+" add_line with
      | Some line_to_add =>
          parse_add_lines rest (contents ++ line_to_add ++ [NL]) (S parsed_lines)
      | None => (contents, parsed_lines)
      end
  end.

(** The [while !remaining_lines.is_empty()] loop of an update hunk. *)
Fixpoint parse_update_chunks (fuel : nat) (remaining_lines : list str)
    (line_number parsed_lines : nat) (chunks : list UpdateFileChunk)
    : option (result ParseError (list UpdateFileChunk * nat)) :=
  match fuel with
  | O => None
  | S fuel =>
      match remaining_lines with
      | [] => Some (Ok (chunks, parsed_lines))
      | l :: rest =>
          if is_empty (trim l)
          then parse_update_chunks fuel rest line_number (S parsed_lines) chunks
          else if starts_with l "*" then Some (Ok (chunks, parsed_lines))
          else
            match parse_update_file_chunk remaining_lines (line_number + parsed_lines)
                    (is_empty chunks) with
            | Err e => Some (Err e)
            | Ok (chunk, chunk_lines) =>
                remaining_lines ← slice_from chunk_lines remaining_lines;
                parse_update_chunks fuel remaining_lines line_number
                  (parsed_lines + chunk_lines) (chunks ++ [chunk])
            end
      end
  end.

Definition empty_update_message (path : str) : str :=
  "Update file hunk for path '" ++ path ++ "' is empty".
Definition invalid_header_message (first_line : str) : str :=
  "'" ++ first_line ++ "' is not a valid hunk header. Valid hunk headers: '*** Add File: {path}', '*** Delete File: {path}', '*** Update File: {path}'".

Definition parse_one_hunk (lines : list str) (line_number : nat)
    : option (result ParseError (Hunk * nat)) :=
  match lines with
  | [] => None
  | line0 :: rest =>
      let first_line := trim line0 in
      match strip_prefix ADD_FILE_MARKER first_line with
      | Some path =>
          let '(contents, parsed_lines) := parse_add_lines rest [] 1 in
          Some (Ok (AddFile path contents, parsed_lines))
      | None =>
      match strip_prefix DELETE_FILE_MARKER first_line with
      | Some path => Some (Ok (DeleteFile path, 1))
      | None =>
      match strip_prefix UPDATE_FILE_MARKER first_line with
      | Some path =>
          let move_path := head rest ≫= strip_prefix MOVE_TO_MARKER in
          let '(remaining_lines, parsed_lines) :=
            match move_path with
            | Some _ => (drop 1 rest, 2)
            | None => (rest, 1)
            end in
          r ← parse_update_chunks (S (length remaining_lines)) remaining_lines
                line_number parsed_lines [];
          match r with
          | Err e => Some (Err e)
          | Ok (chunks, parsed_lines) =>
              if is_empty chunks
              then Some (Err (InvalidHunkError (empty_update_message path) line_number))
              else Some (Ok (UpdateFile path move_path chunks, parsed_lines))
          end
      | None =>
          Some (Err (InvalidHunkError (invalid_header_message first_line) line_number))
      end
      end
      end
  end.

(** ** The whole patch *)

(** The [while !remaining_lines.is_empty()] loop of [parse_patch_text]. *)
Fixpoint parse_hunks (fuel : nat) (remaining_lines : list str) (line_number : nat)
    (hunks : list Hunk) : option (result ParseError (list Hunk)) :=
  match fuel with
  | O => None
  | S fuel =>
      match remaining_lines with
      | [] => Some (Ok hunks)
      | _ :: _ =>
          r ← parse_one_hunk remaining_lines line_number;
          match r with
          | Err e => Some (Err e)
          | Ok (hunk, hunk_lines) =>
              remaining_lines ← slice_from hunk_lines remaining_lines;
              parse_hunks fuel remaining_lines (line_number + hunk_lines)
                (hunks ++ [hunk])
          end
      end
  end.

Definition parse_patch_text (patch : str) (mode : ParseMode)
    : option (result ParseError ApplyPatchArgs) :=
  let lines := lines (trim patch) in
  r ← (match mode with
       | Strict => check_patch_boundaries_strict lines
       | Lenient => check_patch_boundaries_lenient lines
       end);
  match r with
  | Err e => Some (Err e)
  | Ok (patch_lines, hunk_lines) =>
      match parse_environment_id_preamble hunk_lines with
      | Err e => Some (Err e)
      | Ok (environment_id, remaining_lines, line_number) =>
          r ← parse_hunks (S (length remaining_lines)) remaining_lines line_number [];
          match r with
          | Err e => Some (Err e)
          | Ok hunks =>
              Some (Ok (mkArgs (join [NL] patch_lines) hunks None environment_id))
          end
      end
  end.

Definition PARSE_IN_STRICT_MODE : bool := false.

Definition parse_patch (patch : str) : option (result ParseError ApplyPatchArgs) :=
  let mode := if PARSE_IN_STRICT_MODE then Strict else Lenient in
  parse_patch_text patch mode.

(** ** Progress: every parsed unit consumes lines that exist *)

Lemma slice_from_Some {A} n (l : list A) : n <= length l -> slice_from n l = Some (drop n l).
Proof. intros H. unfold slice_from. by rewrite (proj2 (Nat.leb_le _ _) H). Qed.

Lemma parse_chunk_lines_step ls ln c n r :
  parse_chunk_lines ls ln c n = Ok r ->
  n <= snd r <= n + length ls /\ (ls <> [] -> n = 0 -> 1 <= snd r).
Proof.
  revert c n. induction ls as [|l ls IH]; intros c n; cbn [parse_chunk_lines].
  { intros [= <-]. cbn. split; [lia|done]. }
  case_bool_decide.
  { destruct (Nat.eqb_spec n 0); [done|]. intros [= <-]. cbn. lia. }
  assert (forall c', parse_chunk_lines ls ln c' (S n) = Ok r ->
    n <= snd r <= n + length (l :: ls) /\ (l :: ls <> [] -> n = 0 -> 1 <= snd r)) as Hrec.
  { intros c' [? _]%IH. cbn. lia. }
  assert ((if (n =? 0)%nat
           then Err (InvalidHunkError (unexpected_line_message l) (ln + 1))
           else Ok (c, n)) = Ok r ->
    n <= snd r <= n + length (l :: ls) /\ (l :: ls <> [] -> n = 0 -> 1 <= snd r)) as Hstop.
  { destruct (Nat.eqb_spec n 0); [done|]. intros [= <-]. cbn. lia. }
  repeat case_match; subst; first [exact (Hrec _) | exact Hstop | idtac].
Qed.

Lemma parse_update_file_chunk_progress ls ln b c n :
  parse_update_file_chunk ls ln b = Ok (c, n) -> 1 <= n <= length ls.
Proof.
  unfold parse_update_file_chunk. destruct ls as [|l0 ls]; [done|].
  intros ([ctx si] & _ & H)%result_bind_Ok. revert H. nat_cases; [done|].
  intros ([c' k] & Hk & [= <- <-])%result_bind_Ok.
  apply parse_chunk_lines_step in Hk as [Hk Hpos]. rewrite length_drop in Hk.
  cbn [snd] in *. destruct si as [|si]; [|lia].
  specialize (Hpos ltac:(done) eq_refl). lia.
Qed.

Lemma parse_update_chunks_total fuel ls ln n acc :
  length ls < fuel ->
  exists r, parse_update_chunks fuel ls ln n acc = Some r /\
    forall cs k, r = Ok (cs, k) -> n <= k <= n + length ls.
Proof.
  revert ls n acc. induction fuel as [|fuel IH]; intros ls n acc Hf; [lia|].
  cbn [parse_update_chunks]. destruct ls as [|l ls].
  { eexists. split; [done|]. intros ?? [= <- <-]. lia. }
  destruct (is_empty (trim l)).
  { destruct (IH ls (S n) acc) as (r & Hr & Hb); [cbn in Hf; lia|].
    exists r. split; [done|]. intros cs k Hk. specialize (Hb _ _ Hk). cbn. lia. }
  destruct (starts_with l "*").
  { eexists. split; [done|]. intros ?? [= <- <-]. lia. }
  destruct (parse_update_file_chunk (l :: ls) _ _) as [[c m]|e] eqn:Hc.
  - apply parse_update_file_chunk_progress in Hc.
    rewrite slice_from_Some by lia. cbn [mbind option_bind].
    destruct (IH (drop m (l :: ls)) (n + m) (acc ++ [c])) as (r & Hr & Hb).
    { rewrite length_drop. lia. }
    exists r. split; [done|]. intros cs k Hk. specialize (Hb _ _ Hk).
    rewrite length_drop in Hb. lia.
  - eexists. split; [done|]. done.
Qed.

Lemma parse_add_lines_progress ls s n s' n' :
  parse_add_lines ls s n = (s', n') -> n <= n' <= n + length ls.
Proof.
  revert s n. induction ls as [|l ls IH]; intros s n; cbn [parse_add_lines].
  { intros [= <- <-]. lia. }
  case_match; [intros ?%IH; cbn; lia | intros [= <- <-]; lia].
Qed.

Lemma parse_one_hunk_total ls ln :
  ls <> [] ->
  exists r, parse_one_hunk ls ln = Some r /\
    forall h n, r = Ok (h, n) -> 1 <= n <= length ls.
Proof.
  destruct ls as [|l ls]; [done|]. intros _. unfold parse_one_hunk.
  destruct (strip_prefix ADD_FILE_MARKER _) as [path|].
  { destruct (parse_add_lines ls [] 1) as [s n] eqn:E.
    apply parse_add_lines_progress in E. eexists. split; [done|].
    intros ?? [= <- <-]. cbn. lia. }
  destruct (strip_prefix DELETE_FILE_MARKER _) as [path|].
  { eexists. split; [done|]. intros ?? [= <- <-]. cbn. lia. }
  destruct (strip_prefix UPDATE_FILE_MARKER _) as [path|]; [|by eexists].
  set (mv := head ls ≫= strip_prefix MOVE_TO_MARKER).
  destruct (match mv with Some _ => (drop 1 ls, 2) | None => (ls, 1) end) as [rem k] eqn:Ek.
  assert (Hk : 1 <= k /\ k + length rem <= length (l :: ls)).
  { destruct mv eqn:Emv; injection Ek as <- <-; cbn [length]; [|lia].
    destruct ls as [|l1 ls]; [done|]. cbn. rewrite drop_0. lia. }
  destruct (parse_update_chunks_total (S (length rem)) rem ln k []) as (r & -> & Hb); [lia|].
  cbn [mbind option_bind]. destruct r as [[cs m]|e]; [|by eexists].
  specialize (Hb _ _ eq_refl). destruct (is_empty cs); [by eexists|].
  eexists. split; [done|]. intros ?? [= <- <-]. lia.
Qed.

Lemma parse_hunks_total fuel ls ln acc :
  length ls < fuel -> is_Some (parse_hunks fuel ls ln acc).
Proof.
  revert ls ln acc. induction fuel as [|fuel IH]; intros ls ln acc Hf; [lia|].
  cbn [parse_hunks]. destruct ls as [|l ls]; [by eexists|].
  destruct (parse_one_hunk_total (l :: ls) ln) as (r & -> & Hb); [done|].
  cbn [mbind option_bind]. destruct r as [[h n]|e]; [|by eexists].
  specialize (Hb _ _ eq_refl). rewrite slice_from_Some by lia. cbn [mbind option_bind].
  apply IH. rewrite length_drop. lia.
Qed.

(** The two markers differ, so boundaries that check out span two lines and
    [&lines[1..lines.len() - 1]] is in range. *)
Lemma check_patch_boundaries_strict_total ls :
  is_Some (check_patch_boundaries_strict ls).
Proof.
  unfold check_patch_boundaries_strict. destruct ls as [|a [|b ls]].
  - by eexists.
  - destruct (check_start_and_end_lines_strict (Some a) (Some a)) eqn:E; [|by eexists].
    exfalso. revert E. cbn. case_bool_decide as H1; [|done].
    case_bool_decide as H2; [|done]. rewrite H1 in H2. discriminate.
  - destruct (check_start_and_end_lines_strict _ _); [|by eexists].
    unfold slice_inner. cbn. by eexists.
Qed.

Lemma slice_inner_Some {A} (l : list A) : 2 <= length l -> is_Some (slice_inner l).
Proof. intros H. unfold slice_inner. rewrite (proj2 (Nat.leb_le _ _) H). by eexists. Qed.

Lemma check_patch_boundaries_lenient_total ls :
  is_Some (check_patch_boundaries_lenient ls).
Proof.
  unfold check_patch_boundaries_lenient.
  destruct (check_patch_boundaries_strict_total ls) as [r ->]. cbn [mbind option_bind].
  destruct r as [p|e]; [by eexists|].
  destruct ls as [|a [|b ls]]; try by eexists.
  destruct (last (a :: b :: ls)); [|by eexists].
  case_match; [|by eexists].
  destruct (slice_inner_Some (a :: b :: ls)) as [inner ->]; [cbn; lia|].
  cbn [mbind option_bind]. apply check_patch_boundaries_strict_total.
Qed.

(** C34.  Parsing never panics and never loops: every slice taken by the
    parser is in range and both [while] loops consume at least one line per
    round, so the fuel (one more than the number of lines) is enough for
    every patch text in both modes. *)
Theorem parse_patch_text_total (patch : str) (mode : ParseMode) :
  is_Some (parse_patch_text patch mode).
Proof.
  unfold parse_patch_text.
  assert (is_Some (match mode with
    | Strict => check_patch_boundaries_strict (lines (trim patch))
    | Lenient => check_patch_boundaries_lenient (lines (trim patch)) end)) as [r ->].
  { destruct mode; [apply check_patch_boundaries_strict_total
                   | apply check_patch_boundaries_lenient_total]. }
  cbn [mbind option_bind]. destruct r as [[pl hl]|e]; [|by eexists].
  destruct (parse_environment_id_preamble hl) as [[[env rem] ln]|e]; [|by eexists].
  destruct (parse_hunks_total (S (length rem)) rem ln []) as [r ->]; [lia|].
  cbn [mbind option_bind]. destruct r; by eexists.
Qed.

(** ** The grammar, as a printer *)

Definition wf_path (p : str) : Prop := p <> [] /\ trim_end p = p /\ no_char NL p.

Definition wf_chunk (c : UpdateFileChunk) : Prop :=
  old_lines c ++ new_lines c <> [] /\ Forall clean_line (old_lines c) /\
  Forall clean_line (new_lines c) /\
  match change_context c with Some ctx => clean_line ctx | None => True end.

Definition wf_hunk (h : Hunk) : Prop :=
  match h with
  | AddFile p contents =>
      wf_path p /\ Forall clean_line (lines contents) /\ contents = unlines (lines contents)
  | DeleteFile p => wf_path p
  | UpdateFile p mv cs =>
      wf_path p /\ match mv with Some q => clean_line q | None => True end /\
      cs <> [] /\ Forall wf_chunk cs
  end.

#[export] Instance wf_path_dec p : Decision (wf_path p).
Proof. unfold wf_path. apply _. Defined.
#[export] Instance wf_chunk_dec c : Decision (wf_chunk c).
Proof. unfold wf_chunk. destruct (change_context c); apply _. Defined.
#[export] Instance wf_hunk_dec h : Decision (wf_hunk h).
Proof.
  destruct h as [p s|p|p [q|] cs]; unfold wf_hunk; try apply _;
  (apply and_dec; [apply _|]; apply and_dec; [apply _|];
   apply and_dec; [destruct cs; [right; congruence | by left] | apply _]).
Defined.

Definition render_context (c : UpdateFileChunk) : str :=
  match change_context c with
  | Some ctx => CHANGE_CONTEXT_MARKER ++ ctx
  | None => EMPTY_CHANGE_CONTEXT_MARKER
  end.

(** The lines the two sides of a chunk start with in common are printed as
    context. *)
Fixpoint common_prefix (old new : list str) : list str :=
  match old, new with
  | x :: old, y :: new => if decide (x = y) then x :: common_prefix old new else []
  | _, _ => []
  end.
Definition shared (c : UpdateFileChunk) : list str := common_prefix (old_lines c) (new_lines c).
Definition removed (c : UpdateFileChunk) : list str := drop (length (shared c)) (old_lines c).
Definition added (c : UpdateFileChunk) : list str := drop (length (shared c)) (new_lines c).

Definition render_chunk (c : UpdateFileChunk) : list str :=
  render_context c :: map (cons 32%N) (shared c) ++ map (cons 45%N) (removed c)
  ++ map (cons 43%N) (added c) ++ (if is_end_of_file c then [EOF_MARKER] else []).

Lemma shared_split c :
  old_lines c = shared c ++ removed c /\ new_lines c = shared c ++ added c.
Proof.
  assert (forall old new, old = common_prefix old new ++ drop (length (common_prefix old new)) old /\
    new = common_prefix old new ++ drop (length (common_prefix old new)) new) as H; [|apply H].
  induction old as [|x old IH]; intros [|y new]; cbn [common_prefix]; try done.
  destruct (decide (x = y)) as [<-|]; [|done]. cbn. destruct (IH new) as [<- <-]. done.
Qed.

Definition render_hunk (h : Hunk) : list str :=
  match h with
  | AddFile p contents => (ADD_FILE_MARKER ++ p) :: map (cons 43%N) (lines contents)
  | DeleteFile p => [DELETE_FILE_MARKER ++ p]
  | UpdateFile p mv cs =>
      (UPDATE_FILE_MARKER ++ p)
        :: match mv with Some q => [MOVE_TO_MARKER ++ q] | None => [] end
        ++ concat (map render_chunk cs)
  end.

Definition wf_environment (env : option str) : Prop :=
  match env with
  | Some id => id <> [] /\ trim id = id /\ trim_end id = id /\ no_char NL id
  | None => True
  end.

Definition render_body (env : option str) (hs : list Hunk) : list str :=
  match env with Some id => [ENVIRONMENT_ID_MARKER ++ id] | None => [] end
  ++ concat (map render_hunk hs).

Definition render_lines (env : option str) (hs : list Hunk) : list str :=
  BEGIN_PATCH_MARKER :: render_body env hs ++ [END_PATCH_MARKER].

Definition render_patch (env : option str) (hs : list Hunk) : str :=
  join [NL] (render_lines env hs).

(** ** Reading a rendered chunk back *)

(** What may follow a chunk: nothing, another chunk or a hunk header. *)
Definition stops (rest : list str) : Prop :=
  match rest with
  | [] => True
  | l :: _ => (exists t, l = 64%N :: t \/ l = 42%N :: t) /\ l <> EOF_MARKER
  end.

Lemma parse_chunk_lines_stop rest ln c n :
  stops rest -> 0 < n -> parse_chunk_lines rest ln c n = Ok (c, n).
Proof.
  destruct rest as [|l rest]; [done|]. intros [[t [-> | ->]] Hne] Hn;
  cbn [parse_chunk_lines]; rewrite bool_decide_eq_false_2 by done;
  by rewrite (proj2 (Nat.eqb_neq n 0)) by lia.
Qed.

Lemma not_eof_marker (a : char) (s : str) :
  a <> 42%N -> bool_decide (a :: s = EOF_MARKER) = false.
Proof. intros Hne. apply bool_decide_eq_false. unfold EOF_MARKER. congruence. Qed.

Lemma parse_chunk_lines_old ls rest ln c n :
  parse_chunk_lines (map (cons 45%N) ls ++ rest) ln c n =
  parse_chunk_lines rest ln
    (mkChunk (change_context c) (old_lines c ++ ls) (new_lines c) (is_end_of_file c))
    (n + length ls).
Proof.
  revert c n. induction ls as [|l ls IH]; intros c n.
  - cbn. rewrite app_nil_r, Nat.add_0_r. by destruct c.
  - cbn [map app parse_chunk_lines]. rewrite not_eof_marker by done. rewrite IH. cbn.
    rewrite <- app_assoc. cbn. f_equal. lia.
Qed.

Lemma parse_chunk_lines_new ls rest ln c n :
  parse_chunk_lines (map (cons 43%N) ls ++ rest) ln c n =
  parse_chunk_lines rest ln
    (mkChunk (change_context c) (old_lines c) (new_lines c ++ ls) (is_end_of_file c))
    (n + length ls).
Proof.
  revert c n. induction ls as [|l ls IH]; intros c n.
  - cbn. rewrite app_nil_r, Nat.add_0_r. by destruct c.
  - cbn [map app parse_chunk_lines]. rewrite not_eof_marker by done. rewrite IH. cbn.
    rewrite <- app_assoc. cbn. f_equal. lia.
Qed.

Lemma parse_chunk_lines_shared ls rest ln c n :
  parse_chunk_lines (map (cons 32%N) ls ++ rest) ln c n =
  parse_chunk_lines rest ln
    (mkChunk (change_context c) (old_lines c ++ ls) (new_lines c ++ ls) (is_end_of_file c))
    (n + length ls).
Proof.
  revert c n. induction ls as [|l ls IH]; intros c n.
  - cbn. rewrite !app_nil_r, Nat.add_0_r. by destruct c.
  - cbn [map app parse_chunk_lines]. rewrite not_eof_marker by done. rewrite IH. cbn.
    rewrite <- !app_assoc. cbn. f_equal. lia.
Qed.

Lemma parse_chunk_lines_eof rest ln c n :
  0 < n -> parse_chunk_lines (EOF_MARKER :: rest) ln c n = Ok (set_eof c, S n).
Proof.
  intros Hn. cbn [parse_chunk_lines]. rewrite bool_decide_eq_true_2 by done.
  by rewrite (proj2 (Nat.eqb_neq n 0)) by lia.
Qed.

Lemma length_render_chunk c :
  length (render_chunk c) =
  1 + length (shared c) + length (removed c) + length (added c) + (if is_end_of_file c then 1 else 0).
Proof.
  unfold render_chunk. cbn [length]. rewrite !length_app, !length_map.
  destruct (is_end_of_file c); cbn; lia.
Qed.

(** A chunk with lines prints at least one of them. *)
Lemma printed_pos c :
  old_lines c ++ new_lines c <> [] -> 0 < length (shared c) + length (removed c) + length (added c).
Proof.
  intros Hne. destruct (shared_split c) as [Ho Hn].
  destruct (shared c) as [|x l]; [|cbn; lia]. cbn in Ho, Hn. rewrite <- Ho, <- Hn.
  rewrite <- Nat.add_assoc, <- length_app. cbn.
  destruct (old_lines c ++ new_lines c); [done|cbn; lia].
Qed.

Lemma parse_update_file_chunk_context c rest ln b :
  rest <> [] ->
  parse_update_file_chunk (render_context c :: rest) ln b =
  ('(chunk, parsed_lines) ← parse_chunk_lines rest ln
     (mkChunk (change_context c) [] [] false) 0;
   Ok (chunk, parsed_lines + 1)).
Proof.
  intros Hne. unfold parse_update_file_chunk, render_context.
  assert (Hlen : forall x : str, (length (x :: rest) <=? 1)%nat = false).
  { intros x. apply Nat.leb_gt. destruct rest; [done|cbn; lia]. }
  destruct (change_context c) as [ctx|].
  - rewrite bool_decide_eq_false_2 by done.
    rewrite strip_prefix_app. unfold mbind at 1, result_bind at 1. cbv beta iota.
    rewrite Hlen. cbn [drop]. by rewrite drop_0.
  - rewrite bool_decide_eq_true_2 by done. unfold mbind at 1, result_bind at 1.
    cbv beta iota. rewrite Hlen. cbn [drop]. by rewrite drop_0.
Qed.

Lemma parse_update_file_chunk_render c rest ln b :
  wf_chunk c -> stops rest ->
  parse_update_file_chunk (render_chunk c ++ rest) ln b
  = Ok (c, length (render_chunk c)).
Proof.
  intros (Hne & _ & _ & _) Hstop. rewrite length_render_chunk.
  pose proof (printed_pos c Hne) as Hpos. destruct (shared_split c) as [Ho Hn].
  unfold render_chunk. cbn [app]. rewrite parse_update_file_chunk_context.
  2: { intros H. apply (f_equal length) in H. rewrite !length_app, !length_map in H.
       cbn in H. lia. }
  rewrite <- !app_assoc, parse_chunk_lines_shared, parse_chunk_lines_old, parse_chunk_lines_new.
  cbn [is_end_of_file change_context old_lines new_lines app].
  rewrite <- Ho, <- Hn. destruct c as [ctx ol nl []];
    cbn [is_end_of_file change_context old_lines new_lines app].
  - rewrite parse_chunk_lines_eof by lia. unfold set_eof. cbn. do 2 f_equal; lia.
  - rewrite parse_chunk_lines_stop by (done || lia). cbn. do 2 f_equal; lia.
Qed.

(** ** Reading rendered hunks back *)

(** A hunk header: what follows a hunk when anything does. *)
Definition header_line (l : str) : Prop :=
  exists m p, l = m ++ p /\ wf_path p /\
    (m = ADD_FILE_MARKER \/ m = DELETE_FILE_MARKER \/ m = UPDATE_FILE_MARKER).

Definition headed (rest : list str) : Prop :=
  match rest with [] => True | l :: _ => header_line l end.

Lemma header_line_star l : header_line l ->
  exists t, l = 42%N :: t /\ l <> EOF_MARKER /\ is_empty (trim l) = false.
Proof.
  intros (m & p & -> & (Hne & Ht & _) & Hm).
  destruct Hm as [-> | [-> | ->]]; eexists; (split; [reflexivity|]);
    (split; [done|]); cbn [app ADD_FILE_MARKER DELETE_FILE_MARKER UPDATE_FILE_MARKER];
    by rewrite trim_cons.
Qed.

Lemma headed_stops rest : headed rest -> stops rest.
Proof.
  destruct rest as [|l rest]; [done|]. intros (t & -> & Hne & _)%header_line_star.
  split; [|done]. eauto.
Qed.

Lemma render_context_shape c :
  exists t, render_context c = 64%N :: 64%N :: t.
Proof. unfold render_context. destruct (change_context c); by eexists. Qed.

Lemma chunks_stop cs rest :
  headed rest -> stops (concat (map render_chunk cs) ++ rest).
Proof.
  intros Hr. destruct cs as [|c cs]; [by apply headed_stops|].
  cbn [map concat]. unfold render_chunk. cbn [app].
  destruct (render_context_shape c) as [t ->]. split; [eauto|done].
Qed.

Lemma parse_update_chunks_render cs rest ln n acc fuel :
  Forall wf_chunk cs -> headed rest ->
  length (concat (map render_chunk cs) ++ rest) < fuel ->
  parse_update_chunks fuel (concat (map render_chunk cs) ++ rest) ln n acc
  = Some (Ok (acc ++ cs, n + length (concat (map render_chunk cs)))).
Proof.
  intros Hcs Hrest. revert n acc fuel.
  induction Hcs as [|c cs Hc Hcs IH]; intros n acc [|fuel] Hfuel; try lia.
  - cbn [map concat app parse_update_chunks]. rewrite app_nil_r, Nat.add_0_r.
    destruct rest as [|l rest]; [done|].
    destruct (header_line_star l Hrest) as (t & -> & _ & Htrim).
    by rewrite Htrim.
  - cbn [map concat] in *. rewrite <- app_assoc in *.
    pose proof (parse_update_file_chunk_render c (concat (map render_chunk cs) ++ rest)
      (ln + n) (is_empty acc) Hc (chunks_stop cs rest Hrest)) as Hchunk.
    pose proof (length_render_chunk c) as Hpos.
    destruct (render_context_shape c) as [t Hctx].
    assert (Hshape : exists ls, render_chunk c = (64%N :: 64%N :: t) :: ls).
    { unfold render_chunk. rewrite Hctx. eauto. }
    destruct Hshape as [ls Hls].
    cbn [parse_update_chunks]. rewrite Hls. cbn [app]. rewrite trim_cons by done.
    cbn [is_empty]. change (starts_with (64%N :: 64%N :: t) "*") with false. cbv iota.
    change (((64%N :: 64%N :: t) :: ls ++ concat (map render_chunk cs) ++ rest))
      with (((64%N :: 64%N :: t) :: ls) ++ concat (map render_chunk cs) ++ rest).
    rewrite <- Hls, Hchunk. rewrite slice_from_Some by (rewrite length_app; lia).
    cbn [mbind option_bind]. rewrite drop_app_length, IH.
    + rewrite <- app_assoc. rewrite Hls. cbn [app length]. rewrite length_app. do 3 f_equal. lia.
    + rewrite !length_app in *. lia.
Qed.

Lemma parse_add_lines_render ls rest s n :
  headed rest ->
  parse_add_lines (map (cons 43%N) ls ++ rest) s n = (s ++ unlines ls, n + length ls).
Proof.
  intros Hrest. revert s n. induction ls as [|l ls IH]; intros s n.
  - cbn [map app parse_add_lines unlines concat]. rewrite app_nil_r, Nat.add_0_r.
    destruct rest as [|l rest]; [done|].
    by destruct (header_line_star l Hrest) as (t & -> & _).
  - cbn [map app parse_add_lines]. change (43%N :: l) with ("+" ++ l).
    rewrite strip_prefix_app, IH. unfold unlines. cbn. rewrite <- !app_assoc.
    f_equal. lia.
Qed.

Lemma trim_header m c p :
  m = 42%N :: c -> wf_path p -> trim (m ++ p) = m ++ p.
Proof. intros -> (Hne & Ht & _). cbn [app]. by apply trim_cons_app. Qed.

Lemma render_hunk_nonempty h : render_hunk h <> [].
Proof. by destruct h. Qed.

Lemma headed_hunks hs rest :
  Forall wf_hunk hs -> headed rest -> headed (concat (map render_hunk hs) ++ rest).
Proof.
  intros Hhs Hr. destruct Hhs as [|h hs Hh _]; [done|].
  destruct h as [p s|p|p mv cs]; cbn [map concat render_hunk app headed];
    eexists _, p; (split; [reflexivity|]); (split; [by destruct Hh|]); auto.
Qed.

Lemma parse_one_hunk_render h rest ln :
  wf_hunk h -> headed rest ->
  parse_one_hunk (render_hunk h ++ rest) ln = Some (Ok (h, length (render_hunk h))).
Proof.
  intros Hh Hrest. destruct h as [p s|p|p mv cs]; cbn [render_hunk app].
  - destruct Hh as (Hp & Hls & Hs). unfold parse_one_hunk.
    rewrite (trim_header ADD_FILE_MARKER _ p eq_refl Hp), strip_prefix_app.
    rewrite parse_add_lines_render by done. cbn [app length].
    rewrite length_map, <- Hs. done.
  - unfold parse_one_hunk. rewrite (trim_header DELETE_FILE_MARKER _ p eq_refl Hh).
    change (strip_prefix ADD_FILE_MARKER (DELETE_FILE_MARKER ++ p)) with (@None str).
    by rewrite strip_prefix_app.
  - destruct Hh as (Hp & Hmv & Hne & Hcs). unfold parse_one_hunk.
    rewrite (trim_header UPDATE_FILE_MARKER _ p eq_refl Hp).
    change (strip_prefix ADD_FILE_MARKER (UPDATE_FILE_MARKER ++ p)) with (@None str).
    change (strip_prefix DELETE_FILE_MARKER (UPDATE_FILE_MARKER ++ p)) with (@None str).
    rewrite strip_prefix_app.
    destruct mv as [q|]; cbn [app].
    + cbn [head mbind option_bind]. rewrite strip_prefix_app. cbn [drop]. rewrite drop_0.
      rewrite parse_update_chunks_render by (done || lia). cbn [mbind option_bind app].
      destruct cs; [done|]. cbn [is_empty length]. do 3 f_equal.
    + assert (Hmove : head (concat (map render_chunk cs) ++ rest)
        ≫= strip_prefix MOVE_TO_MARKER = None).
      { destruct cs as [|c cs]; [done|]. cbn [map concat]. unfold render_chunk.
        destruct (render_context_shape c) as [t ->]. done. }
      rewrite Hmove.
      rewrite parse_update_chunks_render by (done || lia). cbn [mbind option_bind app].
      destruct cs; [done|]. cbn [is_empty length]. do 3 f_equal.
Qed.

Lemma parse_hunks_render hs ln acc fuel :
  Forall wf_hunk hs -> length (concat (map render_hunk hs)) < fuel ->
  parse_hunks fuel (concat (map render_hunk hs)) ln acc = Some (Ok (acc ++ hs)).
Proof.
  intros Hhs. revert ln acc fuel.
  induction Hhs as [|h hs Hh Hhs IH]; intros ln acc [|fuel] Hfuel; try lia.
  - cbn. by rewrite app_nil_r.
  - cbn [map concat] in *. pose proof (render_hunk_nonempty h) as Hne.
    pose proof (headed_hunks hs [] Hhs I) as Hheaded. rewrite app_nil_r in Hheaded.
    pose proof (parse_one_hunk_render h _ ln Hh Hheaded) as Hone.
    rewrite length_app in Hfuel.
    cbn [parse_hunks]. destruct (render_hunk h ++ _) as [|l ls] eqn:E.
    { by apply app_nil in E as [? _]. }
    rewrite Hone, <- E. cbn [mbind option_bind].
    rewrite slice_from_Some by (rewrite length_app; lia). cbn [mbind option_bind].
    assert (0 < length (render_hunk h)) by (destruct (render_hunk h); [done|cbn; lia]).
    rewrite drop_app_length, IH by lia. by rewrite <- app_assoc.
Qed.

(** ** Rendered patches are made of clean lines *)

Lemma clean_header m p :
  no_char NL m -> wf_path p -> clean_line (m ++ p).
Proof. intros Hm (Hne & Ht & Hnl). apply clean_line_app; [done|done|]. by apply trimmed_clean. Qed.

Lemma clean_cons_map (c : char) ls :
  c <> NL -> c <> CR -> Forall clean_line ls -> Forall clean_line (map (cons c) ls).
Proof.
  intros Hn Hr Hls. apply Forall_fmap. eapply Forall_impl; [exact Hls|].
  intros l Hl. by apply clean_line_cons.
Qed.

Lemma clean_marker_app m d q :
  no_char NL (m ++ [d]) -> d <> CR -> clean_line q -> clean_line (m ++ [d] ++ q).
Proof.
  intros Hm Hd Hq. destruct q as [|x q].
  - rewrite app_nil_r. split; [done|]. by apply strip_suffix_None_snoc.
  - rewrite app_assoc. by apply clean_line_app.
Qed.

Lemma clean_render_chunk c : wf_chunk c -> Forall clean_line (render_chunk c).
Proof.
  intros (_ & Ho & Hn & Hctx). unfold render_chunk. constructor.
  - unfold render_context. destruct (change_context c) as [ctx|].
    + apply (clean_marker_app "@@" 32%N); [dec_true|done|done].
    + dec_true.
  - destruct (shared_split c) as [Ho' Hn'].
    rewrite Ho' in Ho. rewrite Hn' in Hn.
    apply Forall_app in Ho as [Hs Ho]. apply Forall_app in Hn as [_ Hn].
    repeat (apply Forall_app; split; [by apply clean_cons_map|]).
    destruct (is_end_of_file c); [|constructor]. apply Forall_singleton.
    dec_true.
Qed.

Lemma clean_render_hunk h : wf_hunk h -> Forall clean_line (render_hunk h).
Proof.
  destruct h as [p s|p|p mv cs]; cbn [render_hunk wf_hunk].
  - intros (Hp & Hls & _). constructor; [apply clean_header; [dec_true|done]|].
    by apply clean_cons_map.
  - intros Hp. apply Forall_singleton. apply clean_header; [dec_true|done].
  - intros (Hp & Hmv & _ & Hcs).
    constructor; [apply clean_header; [dec_true|done]|].
    apply Forall_app; split.
    + destruct mv as [q|]; [|constructor]. apply Forall_singleton.
      apply (clean_marker_app "*** Move to:" 32%N); [dec_true|done|done].
    + clear -Hcs. induction Hcs as [|c cs Hc _ IH]; [constructor|].
      cbn [map concat]. apply Forall_app; split; [by apply clean_render_chunk|done].
Qed.

Lemma clean_render_body env hs :
  wf_environment env -> Forall wf_hunk hs -> Forall clean_line (render_body env hs).
Proof.
  intros Henv Hhs. apply Forall_app; split.
  - destruct env as [id|]; [|constructor]. apply Forall_singleton.
    destruct Henv as (Hne & _ & Ht & Hnl). apply clean_header; [dec_true|done].
  - induction Hhs as [|h hs Hh _ IH]; [constructor|].
    cbn [map concat]. apply Forall_app; split; [by apply clean_render_hunk|done].
Qed.

Lemma clean_render_lines env hs :
  wf_environment env -> Forall wf_hunk hs -> Forall clean_line (render_lines env hs).
Proof.
  intros. unfold render_lines. constructor; [dec_true|].
  apply Forall_app; split; [by apply clean_render_body|].
  apply Forall_singleton. dec_true.
Qed.

(** The rendered text survives [trim] and [lines]. *)
Lemma trim_render_patch env hs : trim (render_patch env hs) = render_patch env hs.
Proof.
  unfold render_patch, render_lines.
  rewrite app_comm_cons, join_snoc by done.
  assert (exists s, join [NL] (BEGIN_PATCH_MARKER :: render_body env hs) = 42%N :: s) as [s ->].
  { destruct (render_body env hs); by eexists. }
  exact (trim_nop_app 42%N s ([NL] ++ "*** End Patc") 104%N eq_refl eq_refl).
Qed.

Lemma lines_render_patch env hs :
  wf_environment env -> Forall wf_hunk hs ->
  lines (trim (render_patch env hs)) = render_lines env hs.
Proof.
  intros Henv Hhs. rewrite trim_render_patch. apply lines_join.
  - by apply clean_render_lines.
  - unfold render_lines. intros x. rewrite app_comm_cons, last_snoc. by intros [= <-].
Qed.

Lemma boundaries_render env hs :
  check_patch_boundaries_strict (render_lines env hs)
  = Some (Ok (render_lines env hs, render_body env hs)).
Proof.
  unfold render_lines, check_patch_boundaries_strict.
  destruct (render_body env hs ++ [END_PATCH_MARKER]) as [|l ls] eqn:E.
  { by apply app_nil in E as [_ ?]. }
  rewrite <- E, app_comm_cons, last_snoc.
  change (check_start_and_end_lines_strict (Some BEGIN_PATCH_MARKER) (Some END_PATCH_MARKER))
    with (@Ok ParseError unit tt).
  cbv beta iota. unfold slice_inner. cbn [app length]. rewrite length_app.
  cbn [length]. rewrite (proj2 (Nat.leb_le _ _)) by lia. cbn [mbind option_bind drop].
  rewrite drop_0. replace (S (length (render_body env hs) + 1) - 2)
    with (length (render_body env hs)) by lia.
  by rewrite take_app_length.
Qed.

Lemma preamble_render env hs :
  wf_environment env -> Forall wf_hunk hs ->
  parse_environment_id_preamble (render_body env hs)
  = Ok (env, concat (map render_hunk hs), if env then 3 else 2).
Proof.
  intros Henv Hhs. unfold render_body. destruct env as [id|]; cbn [app].
  - destruct Henv as (Hne & Ht & _ & _). unfold parse_environment_id_preamble.
    change (trim_start (ENVIRONMENT_ID_MARKER ++ id)) with (ENVIRONMENT_ID_MARKER ++ id).
    rewrite strip_prefix_app, Ht. by rewrite (proj2 (is_empty_false id) Hne).
  - pose proof (headed_hunks hs [] Hhs I) as Hh. rewrite app_nil_r in Hh.
    destruct (concat (map render_hunk hs)) as [|l ls]; [done|].
    destruct Hh as (m & p & -> & _ & [-> | [-> | ->]]); reflexivity.
Qed.

(** C32.  The parser inverts the grammar: a patch printed from well-formed
    hunks (and an optional environment id) parses, in lenient and in strict
    mode, to exactly those hunks, with the text itself as the raw patch.
    The lines the two sides of a chunk start with are printed as context, the
    others as removed and added lines. *)
Theorem parse_patch_render (env : option str) (hs : list Hunk) (mode : ParseMode)
    (Henv : wf_environment env) (Hhs : Forall wf_hunk hs) :
  parse_patch_text (render_patch env hs) mode
  = Some (Ok (mkArgs (render_patch env hs) hs None env)).
Proof.
  unfold parse_patch_text. rewrite lines_render_patch by done.
  assert (Hb : match mode with
    | Strict => check_patch_boundaries_strict (render_lines env hs)
    | Lenient => check_patch_boundaries_lenient (render_lines env hs) end
    = Some (Ok (render_lines env hs, render_body env hs))).
  { unfold check_patch_boundaries_lenient. rewrite boundaries_render. by destruct mode. }
  rewrite Hb. cbn [mbind option_bind]. rewrite preamble_render by done.
  rewrite parse_hunks_render by (done || lia). done.
Qed.

Definition sample_hunks : list Hunk :=
  [ AddFile "a b/new.txt" (unlines ["hello"; ""; "+x"]);
    DeleteFile "gone.rs";
    UpdateFile "src/main.rs" (Some "src/lib.rs")
      [ mkChunk (Some "fn main() {") ["  old"; ""] ["  new"] false;
        mkChunk None ["tail"] ["tail"; "*** End Patch"] true ] ].

Lemma parse_patch_render_witness :
  parse_patch_text (render_patch (Some "env 1") sample_hunks) Lenient
  = Some (Ok (mkArgs (render_patch (Some "env 1") sample_hunks) sample_hunks None
               (Some "env 1"))).
Proof.
  apply parse_patch_render.
  - split_and!; try reflexivity; [discriminate | dec_true].
  - dec_true.
Defined.

Lemma boundaries_wrong_start a b ls :
  trim a <> BEGIN_PATCH_MARKER ->
  check_patch_boundaries_strict (a :: b :: ls)
  = Some (Err (InvalidPatchError first_line_message)).
Proof.
  intros Ha. unfold check_patch_boundaries_strict, check_start_and_end_lines_strict.
  cbn [fmap option_fmap option_map].
  rewrite (bool_decide_eq_false_2 (trim a = _)) by done.
  by destruct (trim <$> last (a :: b :: ls)).
Qed.

(** The opening line of a heredoc in its three spellings. *)
Definition heredoc_openings : list str :=
  ["<<EOF"; "<<'EOF'"; "<<" ++ [34%N] ++ "EOF" ++ [34%N]].

Lemma heredoc_opening_shape o : o ∈ heredoc_openings ->
  (exists s, o = 60%N :: s) /\ clean_line o /\
  (bool_decide (o = "<<EOF") || bool_decide (o = "<<'EOF'")
   || bool_decide (o = "<<" ++ [34%N] ++ "EOF" ++ [34%N])) = true.
Proof.
  unfold heredoc_openings. rewrite !elem_of_cons, elem_of_nil.
  intros [-> | [-> | [-> | []]]]; (split; [by eexists|split; [dec_true|reflexivity]]).
Qed.

Lemma slice_inner_wrap {A} (a b : A) l : slice_inner (a :: l ++ [b]) = Some l.
Proof.
  unfold slice_inner. cbn [length]. rewrite length_app. cbn [length].
  rewrite (proj2 (Nat.leb_le _ _)) by lia. cbn [drop]. rewrite drop_0.
  replace (S (length l + 1) - 2) with (length l) by lia. by rewrite take_app_length.
Qed.

Lemma boundaries_heredoc o env hs :
  o ∈ heredoc_openings ->
  check_patch_boundaries_lenient (o :: render_lines env hs ++ ["EOF"])
  = Some (Ok (render_lines env hs, render_body env hs)).
Proof.
  intros Ho. destruct (heredoc_opening_shape o Ho) as ([s Hs] & _ & Hcond).
  unfold check_patch_boundaries_lenient.
  assert (Hlast : last (o :: render_lines env hs ++ ["EOF"]) = Some "EOF").
  { by rewrite app_comm_cons, last_snoc. }
  assert (Hlen : (4 <=? length (o :: render_lines env hs ++ ["EOF"]))%nat = true).
  { apply Nat.leb_le. unfold render_lines. cbn [app length].
    rewrite !length_app. cbn. lia. }
  pose proof (slice_inner_wrap o "EOF" (render_lines env hs)) as Hslice.
  assert (exists rest, render_lines env hs ++ ["EOF"] = BEGIN_PATCH_MARKER :: rest)
    as [rest Hrest] by (eexists; reflexivity).
  rewrite Hrest in *. rewrite boundaries_wrong_start by (by rewrite Hs, trim_cons).
  cbn [mbind option_bind]. rewrite Hlast, Hcond, Hlen. cbn [andb].
  change (ends_with "EOF" "EOF") with true. cbv iota.
  rewrite Hslice. apply boundaries_render.
Qed.

Lemma lines_heredoc o env hs :
  o ∈ heredoc_openings -> wf_environment env -> Forall wf_hunk hs ->
  lines (trim (join [NL] (o :: render_lines env hs ++ ["EOF"])))
  = o :: render_lines env hs ++ ["EOF"].
Proof.
  intros Ho Henv Hhs. destruct (heredoc_opening_shape o Ho) as ([s Hs] & Hclean & _).
  replace (trim _) with (join [NL] (o :: render_lines env hs ++ ["EOF"])).
  - apply lines_join.
    + constructor; [done|]. apply Forall_app; split; [by apply clean_render_lines|].
      apply Forall_singleton. dec_true.
    + intros x. rewrite app_comm_cons, last_snoc. by intros [= <-].
  - rewrite app_comm_cons, join_snoc by done. rewrite Hs.
    unfold render_lines. rewrite join_cons. cbn [app]. symmetry.
    exact (trim_nop_app 60%N _ ([NL] ++ "EO") 70%N eq_refl eq_refl).
Qed.

(**  What [Lenient] adds to [Strict]: every text strict mode parses,
    lenient mode parses to the same result; and a patch wrapped in an
    [<<'EOF'] heredoc (any of the three spellings of the opening line)
    parses to the same hunks as the bare patch. *)
Theorem parse_patch_lenient_extends (o : str) (env : option str) (hs : list Hunk)
    (Ho : o ∈ heredoc_openings) (Henv : wf_environment env) (Hhs : Forall wf_hunk hs) :
  (forall txt args, parse_patch_text txt Strict = Some (Ok args) ->
     parse_patch_text txt Lenient = Some (Ok args)) /\
  parse_patch_text (join [NL] (o :: render_lines env hs ++ ["EOF"])) Lenient
  = Some (Ok (mkArgs (render_patch env hs) hs None env)).
Proof.
  split.
  - intros txt args. unfold parse_patch_text, check_patch_boundaries_lenient.
    destruct (check_patch_boundaries_strict _) as [[r|e]|]; done.
  - unfold parse_patch_text. rewrite lines_heredoc, boundaries_heredoc by done.
    cbn [mbind option_bind]. rewrite preamble_render by done.
    rewrite parse_hunks_render by (done || lia). done.
Qed.

Lemma parse_patch_lenient_extends_witness :
  parse_patch_text (join [NL] ("<<'EOF'" :: render_lines None sample_hunks ++ ["EOF"])) Lenient
  = Some (Ok (mkArgs (render_patch None sample_hunks) sample_hunks None None)).
Proof.
  refine (proj2 (parse_patch_lenient_extends "<<'EOF'" None sample_hunks _ _ _)).
  - dec_true.
  - exact I.
  - dec_true.
Defined.
