(* ===== verification/StreamingParser.v ===== *)
(** * The incremental patch parser

    Model of [codex-rs/apply-patch/src/streaming_parser.rs]: the parser the
    agent feeds with the deltas of a tool call while the model is still
    writing it.  A method that takes [&mut self] and returns a [Result] is a
    function from the parser to the result and the parser it leaves behind,
    errors included. *)

From S2P Require Import Prelude RustStr PatchParser.
Open Scope str_scope.

(** ** State *)

Inductive StreamingParserMode :=
| NotStarted
| StartedPatch
| ModeAddFile
| ModeDeleteFile
| ModeUpdateFile (hunk_line_number : nat)
| EndedPatch.

Record StreamingPatchParser := mkParser {
  line_buffer : str;
  mode : StreamingParserMode;
  s_hunks : list Hunk;
  s_line_number : nat;
}.

(** [#[derive(Default)]] *)
Definition default_parser : StreamingPatchParser := mkParser [] NotStarted [] 0.

Definition set_mode (m : StreamingParserMode) (p : StreamingPatchParser) :=
  mkParser (line_buffer p) m (s_hunks p) (s_line_number p).
Definition set_hunks (hs : list Hunk) (p : StreamingPatchParser) :=
  mkParser (line_buffer p) (mode p) hs (s_line_number p).
Definition set_buffer (b : str) (p : StreamingPatchParser) :=
  mkParser b (mode p) (s_hunks p) (s_line_number p).
Definition bump_line (p : StreamingPatchParser) :=
  mkParser (line_buffer p) (mode p) (s_hunks p) (s_line_number p + 1).

(** [*vec.last_mut() = x] *)
Definition set_last {A} (x : A) (l : list A) : list A := removelast l ++ [x].

Definition is_environment_id_preamble_line (line : str) : bool :=
  starts_with line ENVIRONMENT_ID_MARKER.

Definition chunk_is_empty (c : UpdateFileChunk) : bool :=
  is_empty (old_lines c) && is_empty (new_lines c).

(** ** Headers *)

Definition ensure_update_hunk_is_not_empty (p : StreamingPatchParser) (line : str)
    : result ParseError unit :=
  match last (s_hunks p) with
  | Some (UpdateFile path _ chunks) =>
      match mode p, is_empty chunks with
      | ModeUpdateFile hunk_line_number, true =>
          Err (InvalidHunkError (empty_update_message path) hunk_line_number)
      | _, _ =>
          if last_is chunk_is_empty chunks then
            if bool_decide (line = END_PATCH_MARKER)
            then Err (InvalidHunkError no_lines_message (s_line_number p))
            else Err (InvalidHunkError (unexpected_line_message line) (s_line_number p))
          else Ok tt
      end
  | _ => Ok tt
  end.

Definition push_hunk (h : Hunk) (p : StreamingPatchParser) : StreamingPatchParser :=
  set_hunks (s_hunks p ++ [h]) p.

Definition handle_hunk_headers_and_end_patch (p : StreamingPatchParser) (trimmed : str)
    : result ParseError bool * StreamingPatchParser :=
  let guarded (p' : StreamingPatchParser) :=
    match ensure_update_hunk_is_not_empty p trimmed with
    | Err e => (Err e, p)
    | Ok _ => (Ok true, p')
    end in
  if bool_decide (trimmed = END_PATCH_MARKER) then guarded (set_mode EndedPatch p)
  else match strip_prefix ADD_FILE_MARKER trimmed with
  | Some path => guarded (set_mode ModeAddFile (push_hunk (AddFile path []) p))
  | None =>
  match strip_prefix DELETE_FILE_MARKER trimmed with
  | Some path => guarded (set_mode ModeDeleteFile (push_hunk (DeleteFile path) p))
  | None =>
  match strip_prefix UPDATE_FILE_MARKER trimmed with
  | Some path =>
      guarded (set_mode (ModeUpdateFile (s_line_number p))
                 (push_hunk (UpdateFile path None []) p))
  | None => (Ok false, p)
  end end end.

(** ** Lines *)

Definition empty_chunk (ctx : option str) : UpdateFileChunk := mkChunk ctx [] [] false.

(** [if chunks.is_empty() { push(default) }; if let Some(c) = last_mut() { f(c) }] *)
Definition edit_last_chunk (f : UpdateFileChunk -> UpdateFileChunk)
    (chunks : list UpdateFileChunk) : list UpdateFileChunk :=
  let chunks := if is_empty chunks then [empty_chunk None] else chunks in
  match last chunks with
  | Some c => set_last (f c) chunks
  | None => chunks
  end.

(** The body of the [UpdateFile] arm once the last hunk is known to be an
    update: the new move path and chunks, or an error (which leaves both
    unchanged).  [None] is the fall through to the final error. *)
Definition process_update_line (line : str) (line_number : nat)
    (move_path : option str) (chunks : list UpdateFileChunk)
    : option (result ParseError (option str * list UpdateFileChunk)) :=
  let update_line := trim_end line in
  match (if is_empty chunks && negb (bool_decide (is_Some move_path))
         then strip_prefix MOVE_TO_MARKER update_line else None) with
  | Some move_to_path => Some (Ok (Some move_to_path, chunks))
  | None =>
  if (bool_decide (update_line = EMPTY_CHANGE_CONTEXT_MARKER)
      || starts_with update_line CHANGE_CONTEXT_MARKER)
     && last_is chunk_is_empty chunks
  then Some (Err (InvalidHunkError (unexpected_line_message line) line_number))
  else if bool_decide (update_line = EMPTY_CHANGE_CONTEXT_MARKER)
  then Some (Ok (move_path, chunks ++ [empty_chunk None]))
  else match strip_prefix CHANGE_CONTEXT_MARKER update_line with
  | Some change_context =>
      Some (Ok (move_path, chunks ++ [empty_chunk (Some change_context)]))
  | None =>
  if bool_decide (update_line = EOF_MARKER) then
    if last_is chunk_is_empty chunks
    then Some (Err (InvalidHunkError no_lines_message line_number))
    else Some (Ok (move_path,
                   match last chunks with
                   | Some c => set_last (set_eof c) chunks
                   | None => chunks
                   end))
  else match line with
  | [] => Some (Ok (move_path, edit_last_chunk (fun c => push_new [] (push_old [] c)) chunks))
  | 32%N :: l => Some (Ok (move_path, edit_last_chunk (fun c => push_new l (push_old l c)) chunks))
  | 43%N :: l => Some (Ok (move_path, edit_last_chunk (push_new l) chunks))
  | 45%N :: l => Some (Ok (move_path, edit_last_chunk (push_old l) chunks))
  | _ =>
      if last_is (fun c => negb (chunk_is_empty c)) chunks
      then Some (Err (InvalidHunkError (expected_context_message line) line_number))
      else None
  end end end.

Definition process_line (p : StreamingPatchParser) (line : str)
    : result ParseError unit * StreamingPatchParser :=
  let trimmed := trim line in
  let bad_header := InvalidHunkError (invalid_header_message trimmed) (s_line_number p) in
  match mode p with
  | NotStarted =>
      if bool_decide (trimmed = BEGIN_PATCH_MARKER)
      then (Ok tt, set_mode StartedPatch p)
      else (Err (InvalidPatchError first_line_message), p)
  | StartedPatch =>
      if is_environment_id_preamble_line line then (Ok tt, p)
      else match handle_hunk_headers_and_end_patch p trimmed with
           | (Err e, p) => (Err e, p)
           | (Ok true, p) => (Ok tt, p)
           | (Ok false, p) => (Err bad_header, p)
           end
  | ModeAddFile =>
      match handle_hunk_headers_and_end_patch p trimmed with
      | (Err e, p) => (Err e, p)
      | (Ok true, p) => (Ok tt, p)
      | (Ok false, p) =>
          match strip_prefix "+" line, last (s_hunks p) with
          | Some line_to_add, Some (AddFile path contents) =>
              (Ok tt, set_hunks (set_last (AddFile path (contents ++ line_to_add ++ [NL]))
                                          (s_hunks p)) p)
          | _, _ => (Err bad_header, p)
          end
      end
  | ModeDeleteFile =>
      match handle_hunk_headers_and_end_patch p trimmed with
      | (Err e, p) => (Err e, p)
      | (Ok true, p) => (Ok tt, p)
      | (Ok false, p) => (Err bad_header, p)
      end
  | ModeUpdateFile _ =>
      match handle_hunk_headers_and_end_patch p (trim_end line) with
      | (Err e, p) => (Err e, p)
      | (Ok true, p) => (Ok tt, p)
      | (Ok false, p) =>
          let unexpected :=
            InvalidHunkError (unexpected_line_message line) (s_line_number p) in
          match last (s_hunks p) with
          | Some (UpdateFile path move_path chunks) =>
              match process_update_line line (s_line_number p) move_path chunks with
              | Some (Ok (move_path, chunks)) =>
                  (Ok tt, set_hunks (set_last (UpdateFile path move_path chunks)
                                              (s_hunks p)) p)
              | Some (Err e) => (Err e, p)
              | None => (Err unexpected, p)
              end
          | _ => (Err unexpected, p)
          end
      end
  | EndedPatch => (Ok tt, p)
  end.

(** ** Deltas *)

Fixpoint push_chars (p : StreamingPatchParser) (delta : str)
    : result ParseError unit * StreamingPatchParser :=
  match delta with
  | [] => (Ok tt, p)
  | ch :: rest =>
      if (ch =? NL)%N then
        let line := line_buffer p in
        let line := default line (strip_suffix [CR] line) in
        match process_line (bump_line (set_buffer [] p)) line with
        | (Err e, p) => (Err e, p)
        | (Ok _, p) => push_chars p rest
        end
      else push_chars (set_buffer (line_buffer p ++ [ch]) p) rest
  end.

Definition push_delta (p : StreamingPatchParser) (delta : str)
    : result ParseError (list Hunk) * StreamingPatchParser :=
  match push_chars p delta with
  | (Err e, p) => (Err e, p)
  | (Ok _, p) => (Ok (s_hunks p), p)
  end.

Definition finish (p : StreamingPatchParser)
    : result ParseError (list Hunk) * StreamingPatchParser :=
  let '(r, p) :=
    if is_empty (line_buffer p) then (Ok tt, p)
    else
      let line := line_buffer p in
      let p := bump_line (set_buffer [] p) in
      if bool_decide (trim line = END_PATCH_MARKER) then
        match ensure_update_hunk_is_not_empty p (trim line) with
        | Err e => (Err e, p)
        | Ok _ => (Ok tt, set_mode EndedPatch p)
        end
      else process_line p line in
  match r with
  | Err e => (Err e, p)
  | Ok _ =>
      match mode p with
      | EndedPatch => (Ok (s_hunks p), p)
      | _ => (Err (InvalidPatchError last_line_message), p)
      end
  end.

(** ** Deltas compose *)

Lemma push_chars_app p a b :
  push_chars p (a ++ b) =
  match push_chars p a with
  | (Ok _, p') => push_chars p' b
  | (Err e, p') => (Err e, p')
  end.
Proof.
  revert p. induction a as [|c a IH]; intros p; [done|].
  cbn [app push_chars]. destruct (c =? NL)%N; [|apply IH].
  destruct (process_line _ _) as [[u|e] p']; [apply IH|done].
Qed.

(** How the patch text is cut into deltas does not matter: pushing two
    deltas one after the other leaves the parser in the same state, and
    reports the same hunks or the same error, as pushing their
    concatenation; an error of the first delta is the error of both. *)
Theorem push_delta_app (p : StreamingPatchParser) (a b : str) :
  push_delta p (a ++ b) =
  match push_delta p a with
  | (Ok _, p') => push_delta p' b
  | (Err e, p') => (Err e, p')
  end.
Proof.
  unfold push_delta. rewrite push_chars_app.
  by destruct (push_chars p a) as [[u|e] p'].
Qed.

(** ** The preview only grows *)

(** All hunks but the last are settled. *)
Definition extends (hs hs' : list Hunk) : Prop :=
  exists tail, hs' = removelast hs ++ tail /\ length hs <= length hs'.

Lemma extends_refl hs : extends hs hs.
Proof.
  destruct hs as [|h hs _] using rev_ind; [by exists []|].
  exists [h]. by rewrite removelast_last.
Qed.

Lemma extends_push hs h : extends hs (hs ++ [h]).
Proof.
  destruct (extends_refl hs) as (tl & Hhs & _). exists (tl ++ [h]).
  rewrite app_assoc, <- Hhs. split; [done|]. rewrite length_app. lia.
Qed.

Lemma extends_set_last hs h : hs <> [] -> extends hs (set_last h hs).
Proof.
  destruct hs as [|x hs _] using rev_ind; [done|]. intros _.
  exists [h]. split; [done|]. unfold set_last. rewrite removelast_last, !length_app. done.
Qed.

Lemma extends_trans a b c : extends a b -> extends b c -> extends a c.
Proof.
  intros (t & -> & Hab) (u & -> & Hbc).
  destruct t as [|x t _] using rev_ind.
  - rewrite app_nil_r in *. destruct a as [|y a _] using rev_ind.
    + exists u. split; [done|]. cbn in *. lia.
    + rewrite removelast_last, length_app in Hab. cbn in Hab. lia.
  - rewrite app_assoc, removelast_last in *. exists (t ++ u).
    split; [by rewrite app_assoc|]. lia.
Qed.

Lemma handle_headers_extends p line r p' :
  handle_hunk_headers_and_end_patch p line = (r, p') -> extends (s_hunks p) (s_hunks p').
Proof.
  unfold handle_hunk_headers_and_end_patch.
  destruct (ensure_update_hunk_is_not_empty p line); repeat case_match; intros [= <- <-];
    cbn; first [apply extends_refl | apply extends_push].
Qed.

Lemma last_Some_nonempty {A} (l : list A) x : last l = Some x -> l <> [].
Proof. by intros H ->. Qed.

Lemma process_line_extends p line r p' :
  process_line p line = (r, p') -> extends (s_hunks p) (s_hunks p').
Proof.
  unfold process_line. intros H.
  repeat (case_match; simplify_eq; try apply extends_refl);
    try (by eapply handle_headers_extends).
  all: cbn; eapply extends_trans; [by eapply handle_headers_extends|].
  all: by eapply extends_set_last, last_Some_nonempty.
Qed.

Lemma push_chars_extends p delta r p' :
  push_chars p delta = (r, p') -> extends (s_hunks p) (s_hunks p').
Proof.
  revert p. induction delta as [|c delta IH]; intros p; cbn [push_chars].
  { intros [= _ <-]. apply extends_refl. }
  destruct (c =? NL)%N; [|by intros ?%IH].
  destruct (process_line _ _) as [[u|e] q] eqn:E; apply process_line_extends in E.
  - intros ?%IH. by eapply extends_trans.
  - by intros [= _ <-].
Qed.

(** The preview is monotone: whatever is pushed, the hunks shown so far
    stay, except that the last one may still be completed; a hunk is never
    dropped or reordered, also when the delta ends in an error. *)
Theorem push_delta_monotone (p : StreamingPatchParser) (delta : str) :
  let '(_, p') := push_delta p delta in
  exists tail, s_hunks p' = removelast (s_hunks p) ++ tail /\
               length (s_hunks p) <= length (s_hunks p').
Proof.
  unfold push_delta. destruct (push_chars p delta) as [r q] eqn:E.
  apply push_chars_extends in E as (tl & Htl & Hlen).
  destruct r; exists tl; done.
Qed.

(** ** Agreement with the batch parser *)

(** Feeding whole lines. *)
Fixpoint run_lines (p : StreamingPatchParser) (ls : list str)
    : result ParseError unit * StreamingPatchParser :=
  match ls with
  | [] => (Ok tt, p)
  | l :: rest =>
      match process_line (bump_line p) l with
      | (Ok _, p) => run_lines p rest
      | (Err e, p) => (Err e, p)
      end
  end.

Lemma run_lines_app p a b p' :
  run_lines p a = (Ok tt, p') -> run_lines p (a ++ b) = run_lines p' b.
Proof.
  revert p. induction a as [|l a IH]; intros p; cbn [run_lines app].
  - by intros [= ->].
  - destruct (process_line _ _) as [[u|e] q]; [apply IH|done].
Qed.

Lemma push_chars_buffer p l :
  no_char NL l -> push_chars p l = (Ok tt, set_buffer (line_buffer p ++ l) p).
Proof.
  revert p. induction l as [|c l IH]; intros p; cbn [push_chars].
  - rewrite app_nil_r. by destruct p.
  - intros [Hc Hl]%no_char_cons. rewrite (proj2 (N.eqb_neq c NL)) by done.
    rewrite IH by done. cbn. by rewrite <- app_assoc.
Qed.

Lemma set_buffer_nil p : line_buffer p = [] -> set_buffer [] p = p.
Proof. destruct p. cbn. by intros ->. Qed.

(** A clean line followed by its newline is one [process_line]. *)
Lemma push_chars_line p l rest :
  line_buffer p = [] -> clean_line l ->
  push_chars p (l ++ NL :: rest) =
  match process_line (bump_line p) l with
  | (Ok _, p') => push_chars p' rest
  | (Err e, p') => (Err e, p')
  end.
Proof.
  intros Hb [Hl Hcr]. rewrite push_chars_app, push_chars_buffer by done.
  rewrite Hb. cbn [app push_chars]. rewrite N.eqb_refl. cbn [line_buffer set_buffer].
  rewrite Hcr. cbn [default].
  replace (bump_line _) with (bump_line p); [done|]. destruct p; cbn in *. by subst.
Qed.

Lemma handle_headers_buffer p line r p' :
  handle_hunk_headers_and_end_patch p line = (r, p') -> line_buffer p' = line_buffer p.
Proof.
  unfold handle_hunk_headers_and_end_patch.
  destruct (ensure_update_hunk_is_not_empty p line); repeat case_match; by intros [= <- <-].
Qed.

Lemma process_line_buffer p line r p' :
  process_line p line = (r, p') -> line_buffer p' = line_buffer p.
Proof.
  unfold process_line. intros H.
  repeat (case_match; simplify_eq; try done); cbn; by eapply handle_headers_buffer.
Qed.

(** Pushing the newline-joined lines runs all but the last, which stays in
    the buffer. *)
Lemma push_chars_join p ls l p' :
  line_buffer p = [] -> Forall clean_line ls -> no_char NL l ->
  run_lines p ls = (Ok tt, p') ->
  push_chars p (join [NL] (ls ++ [l])) = (Ok tt, set_buffer l p').
Proof.
  intros Hb Hls Hl. revert p Hb. induction Hls as [|x ls Hx Hls IH]; intros p Hb; cbn [run_lines].
  - intros [= <-]. cbn [app join]. rewrite push_chars_buffer by done. by rewrite Hb.
  - destruct (process_line (bump_line p) x) as [[u|e] q] eqn:E; [|done]. intros Hrun.
    cbn [app]. assert (exists y ys, ls ++ [l] = y :: ys) as (y & ys & Hy).
    { destruct ls; by eexists _, _. }
    rewrite Hy, join_cons, <- Hy. cbn [app]. rewrite push_chars_line, E by done.
    apply process_line_buffer in E. apply IH; [by rewrite E|done].
Qed.

(** What the incremental parser additionally asks of a hunk: it trims the
    end of move and context lines, so those must not end in a space. *)
Definition trimmed (s : str) : Prop := s <> [] /\ trim_end s = s.

Definition streamable (h : Hunk) : Prop :=
  match h with
  | UpdateFile _ mv cs =>
      match mv with Some q => trimmed q | None => True end /\
      Forall (fun c => match change_context c with Some x => trimmed x | None => True end) cs
  | _ => True
  end.

#[export] Instance trimmed_dec s : Decision (trimmed s).
Proof. unfold trimmed. apply _. Defined.
#[export] Instance streamable_dec h : Decision (streamable h).
Proof.
  destruct h as [| |p [q|] cs]; try (left; exact I);
  apply and_dec; try apply _; apply Forall_dec; intros c; destruct (change_context c); apply _.
Defined.

Definition not_header (x : str) : Prop :=
  forall p, handle_hunk_headers_and_end_patch p x = (Ok false, p).

Lemma not_header_char c x : c <> 42%N -> not_header (c :: x).
Proof.
  intros Hc p. unfold handle_hunk_headers_and_end_patch.
  rewrite bool_decide_eq_false_2 by (unfold END_PATCH_MARKER; congruence).
  cbn [strip_prefix ADD_FILE_MARKER DELETE_FILE_MARKER UPDATE_FILE_MARKER].
  by rewrite (proj2 (N.eqb_neq 42 c)) by congruence.
Qed.

Lemma not_header_move q : not_header (MOVE_TO_MARKER ++ q).
Proof. intros p. unfold handle_hunk_headers_and_end_patch. by rewrite bool_decide_eq_false_2. Qed.

Lemma not_header_eof : not_header EOF_MARKER.
Proof. by intros p. Qed.

(** An update hunk under construction. *)
Definition updating (n : nat) (acc : list Hunk) (path : str) (mv : option str)
    (cs : list UpdateFileChunk) (ln : nat) : StreamingPatchParser :=
  mkParser [] (ModeUpdateFile n) (acc ++ [UpdateFile path mv cs]) ln.

Lemma step_update n acc path mv cs ln line mv' cs' :
  not_header (trim_end line) ->
  process_update_line line (ln + 1) mv cs = Some (Ok (mv', cs')) ->
  process_line (bump_line (updating n acc path mv cs ln)) line
  = (Ok tt, updating n acc path mv' cs' (ln + 1)).
Proof.
  intros Hnh Hup. unfold process_line, updating, bump_line. cbn [mode].
  rewrite Hnh. cbn [s_hunks s_line_number]. rewrite last_snoc, Hup.
  unfold set_hunks, set_last. cbn. by rewrite removelast_last.
Qed.

Lemma edit_last_chunk_snoc f cs c : edit_last_chunk f (cs ++ [c]) = cs ++ [f c].
Proof.
  unfold edit_last_chunk.
  rewrite (proj2 (is_empty_false (cs ++ [c]))) by (by destruct cs).
  rewrite last_snoc. unfold set_last. by rewrite removelast_last.
Qed.

Lemma update_line_minus l ln mv cs :
  process_update_line (45%N :: l) ln mv cs = Some (Ok (mv, edit_last_chunk (push_old l) cs)).
Proof.
  unfold process_update_line. unfold trim_end. rewrite trim_end_cons_false by done.
  destruct (is_empty cs && _); reflexivity.
Qed.

Lemma update_line_plus l ln mv cs :
  process_update_line (43%N :: l) ln mv cs = Some (Ok (mv, edit_last_chunk (push_new l) cs)).
Proof.
  unfold process_update_line. unfold trim_end. rewrite trim_end_cons_false by done.
  destruct (is_empty cs && _); reflexivity.
Qed.

Lemma not_header_trim_end c l :
  is_whitespace c = false -> c <> 42%N -> not_header (trim_end (c :: l)).
Proof. intros Hw Hc. unfold trim_end. rewrite trim_end_cons_false by done. by apply not_header_char. Qed.

(** A context line starts with a space, or is blank once trimmed. *)
Lemma trim_end_space l : trim_end (32%N :: l) = [] \/ exists t, trim_end (32%N :: l) = 32%N :: t.
Proof.
  induction l as [|x l IH] using rev_ind; [by left|].
  rewrite app_comm_cons. unfold trim_end. destruct (is_whitespace x) eqn:E.
  - by rewrite trim_end_matches_snoc_true.
  - rewrite trim_end_matches_snoc by done. right. by eexists.
Qed.

Lemma not_header_space l : not_header (trim_end (32%N :: l)).
Proof. destruct (trim_end_space l) as [-> | [t ->]]; [by intros p|by apply not_header_char]. Qed.

Lemma update_line_space l ln mv cs :
  process_update_line (32%N :: l) ln mv cs =
  Some (Ok (mv, edit_last_chunk (fun c => push_new l (push_old l c)) cs)).
Proof.
  unfold process_update_line.
  destruct (trim_end_space l) as [-> | [t ->]]; destruct (is_empty cs && _); reflexivity.
Qed.

Lemma run_shared_lines n acc path mv cs c ln ls :
  run_lines (updating n acc path mv (cs ++ [c]) ln) (map (cons 32%N) ls)
  = (Ok tt, updating n acc path mv
      (cs ++ [mkChunk (change_context c) (old_lines c ++ ls) (new_lines c ++ ls) (is_end_of_file c)])
      (ln + length ls)).
Proof.
  revert c ln. induction ls as [|l ls IH]; intros c ln; cbn [run_lines map length].
  - rewrite !app_nil_r, Nat.add_0_r. by destruct c.
  - erewrite step_update; [|by apply not_header_space|by rewrite update_line_space, edit_last_chunk_snoc].
    rewrite IH. unfold push_new, push_old. cbn. rewrite <- !app_assoc. cbn. do 2 f_equal. lia.
Qed.

Lemma run_old_lines n acc path mv cs c ln ls :
  run_lines (updating n acc path mv (cs ++ [c]) ln) (map (cons 45%N) ls)
  = (Ok tt, updating n acc path mv
      (cs ++ [mkChunk (change_context c) (old_lines c ++ ls) (new_lines c) (is_end_of_file c)])
      (ln + length ls)).
Proof.
  revert c ln. induction ls as [|l ls IH]; intros c ln; cbn [run_lines map length].
  - rewrite app_nil_r, Nat.add_0_r. by destruct c.
  - erewrite step_update; [|by apply not_header_trim_end|by rewrite update_line_minus, edit_last_chunk_snoc].
    rewrite IH. unfold push_old. cbn. rewrite <- app_assoc. cbn. do 2 f_equal. lia.
Qed.

Lemma run_new_lines n acc path mv cs c ln ls :
  run_lines (updating n acc path mv (cs ++ [c]) ln) (map (cons 43%N) ls)
  = (Ok tt, updating n acc path mv
      (cs ++ [mkChunk (change_context c) (old_lines c) (new_lines c ++ ls) (is_end_of_file c)])
      (ln + length ls)).
Proof.
  revert c ln. induction ls as [|l ls IH]; intros c ln; cbn [run_lines map length].
  - rewrite app_nil_r, Nat.add_0_r. by destruct c.
  - erewrite step_update; [|by apply not_header_trim_end|by rewrite update_line_plus, edit_last_chunk_snoc].
    rewrite IH. unfold push_new. cbn. rewrite <- app_assoc. cbn. do 2 f_equal. lia.
Qed.

(** The chunks read so far are all nonempty. *)
Definition solid (cs : list UpdateFileChunk) : Prop := last_is chunk_is_empty cs = false.

Lemma wf_chunk_solid c cs : wf_chunk c -> solid (cs ++ [c]).
Proof.
  intros (Hne & _). unfold solid. rewrite last_is_snoc. unfold chunk_is_empty.
  apply andb_false_iff. rewrite !is_empty_false.
  destruct (old_lines c); [right|by left]. done.
Qed.

Lemma update_line_context c ln mv cs :
  match change_context c with Some x => trimmed x | None => True end -> solid cs ->
  process_update_line (render_context c) ln mv cs
  = Some (Ok (mv, cs ++ [empty_chunk (change_context c)])) /\
  not_header (trim_end (render_context c)).
Proof.
  intros Hctx Hsolid. unfold render_context, process_update_line. rewrite Hsolid, andb_false_r.
  destruct (change_context c) as [x|].
  - destruct Hctx as [Hne Ht]. rewrite trim_end_app by done. split; [|by apply not_header_char].
    destruct (is_empty cs && _); cbn; rewrite bool_decide_eq_false_2 by done; reflexivity.
  - split; [|by apply not_header_char]. destruct (is_empty cs && _); reflexivity.
Qed.

Lemma run_chunk n acc path mv cs c ln :
  wf_chunk c -> match change_context c with Some x => trimmed x | None => True end ->
  solid cs ->
  run_lines (updating n acc path mv cs ln) (render_chunk c)
  = (Ok tt, updating n acc path mv (cs ++ [c]) (ln + length (render_chunk c))).
Proof.
  intros Hc Hctx Hsolid.
  destruct (update_line_context c (ln + 1) mv cs Hctx Hsolid) as [Hline Hnh].
  rewrite length_render_chunk. unfold render_chunk. cbn [run_lines].
  destruct (shared_split c) as [Ho Hn].
  erewrite step_update by done.
  erewrite run_lines_app by apply run_shared_lines.
  erewrite run_lines_app by apply run_old_lines.
  erewrite run_lines_app by apply run_new_lines.
  unfold empty_chunk. cbn [change_context old_lines new_lines is_end_of_file app].
  rewrite <- Ho, <- Hn.
  destruct c as [ctx ol nl [|]]; cbn [is_end_of_file change_context old_lines new_lines] in *.
  - cbn [run_lines]. erewrite step_update; [|apply not_header_eof|].
    { do 2 f_equal. lia. }
    unfold process_update_line.
    change (trim_end EOF_MARKER) with EOF_MARKER.
    rewrite (wf_chunk_solid (mkChunk ctx ol nl false) cs).
    2: { destruct Hc as (? & ? & ? & ?). split_and!; done. }
    rewrite andb_false_r, last_snoc. unfold set_last, set_eof.
    rewrite removelast_last. destruct (is_empty _ && _); reflexivity.
  - cbn [run_lines]. do 2 f_equal. lia.
Qed.

Lemma run_chunks n acc path mv cs0 cs ln :
  Forall wf_chunk cs ->
  Forall (fun c => match change_context c with Some x => trimmed x | None => True end) cs ->
  solid cs0 ->
  run_lines (updating n acc path mv cs0 ln) (concat (map render_chunk cs))
  = (Ok tt, updating n acc path mv (cs0 ++ cs) (ln + length (concat (map render_chunk cs)))).
Proof.
  intros Hcs. revert cs0 ln. induction Hcs as [|c cs Hc Hcs IH]; intros cs0 ln Hctx Hsolid.
  - cbn. by rewrite app_nil_r, Nat.add_0_r.
  - apply Forall_cons in Hctx as [Hcc Hctx]. cbn [map concat].
    erewrite run_lines_app by (by apply run_chunk).
    rewrite IH by (done || by apply wf_chunk_solid).
    by rewrite <- app_assoc, length_app, Nat.add_assoc.
Qed.

(** A parser that may see the next header: its last hunk is complete. *)
Definition ready (p : StreamingPatchParser) : Prop :=
  line_buffer p = [] /\ mode p <> NotStarted /\ mode p <> EndedPatch /\
  match last (s_hunks p) with
  | Some (UpdateFile _ _ cs) => cs <> [] /\ solid cs
  | _ => True
  end.

Lemma ready_ensure p line : ready p -> ensure_update_hunk_is_not_empty p line = Ok tt.
Proof.
  intros (_ & _ & _ & H). unfold ensure_update_hunk_is_not_empty.
  destruct (last (s_hunks p)) as [[| |path mv cs]|]; try done.
  destruct H as [Hne Hs]. rewrite (proj2 (is_empty_false cs) Hne), Hs.
  by destruct (mode p).
Qed.

(** Reading a header line in any mode that accepts one. *)
Lemma process_header p m s path q :
  ready p -> wf_path path -> m = 42%N :: s ->
  is_environment_id_preamble_line (m ++ path) = false ->
  handle_hunk_headers_and_end_patch p (m ++ path) = (Ok true, q) ->
  process_line p (m ++ path) = (Ok tt, q).
Proof.
  intros (_ & Hns & Hne & _) Hp Hm Henv Hh.
  pose proof (trim_header m s path Hm Hp) as Ht. destruct Hp as (Hpne & Hpt & _).
  assert (Hte : trim_end (m ++ path) = m ++ path) by (by apply trim_end_app).
  unfold process_line. destruct (mode p); try done; rewrite ?Henv, ?Ht, ?Hte, Hh; done.
Qed.

Lemma ready_bump p : ready p -> ready (bump_line p).
Proof. done. Qed.

Definition after_hunk (h : Hunk) (acc : list Hunk) (ln : nat) (p : StreamingPatchParser) : Prop :=
  ready p /\ s_hunks p = acc ++ [h] /\ s_line_number p = ln.

Lemma run_add_lines acc path s ln ls :
  run_lines (mkParser [] ModeAddFile (acc ++ [AddFile path s]) ln) (map (cons 43%N) ls)
  = (Ok tt, mkParser [] ModeAddFile (acc ++ [AddFile path (s ++ unlines ls)]) (ln + length ls)).
Proof.
  revert s ln. induction ls as [|l ls IH]; intros s ln; cbn [run_lines map].
  - unfold unlines. cbn. by rewrite app_nil_r, Nat.add_0_r.
  - unfold process_line, bump_line. cbn [mode line_buffer s_hunks s_line_number].
    rewrite trim_cons by done. rewrite not_header_char by done.
    change (43%N :: l) with ("+" ++ l). rewrite strip_prefix_app. cbn [s_hunks].
    rewrite last_snoc. unfold set_hunks, set_last. cbn [mode line_buffer s_line_number].
    rewrite removelast_last, IH. unfold unlines. cbn [map concat length].
    rewrite <- !app_assoc. do 2 f_equal. lia.
Qed.

Lemma run_hunk p h :
  ready p -> wf_hunk h -> streamable h ->
  exists p', run_lines p (render_hunk h) = (Ok tt, p') /\
    after_hunk h (s_hunks p) (s_line_number p + length (render_hunk h)) p'.
Proof.
  intros Hr Hh Hs. pose proof (ready_bump p Hr) as Hb.
  pose proof (ready_ensure (bump_line p)) as He.
  destruct p as [buf md hs ln]. destruct Hr as (Hbuf & _). cbn in Hbuf. subst buf.
  unfold after_hunk, ready. destruct h as [path s|path|path mv cs];
    cbn [render_hunk run_lines s_hunks s_line_number].
  - destruct Hh as (Hp & Hls & Hsl).
    erewrite process_header; [|exact Hb|exact Hp|reflexivity|reflexivity|].
    2: { unfold handle_hunk_headers_and_end_patch. rewrite bool_decide_eq_false_2 by done.
         rewrite strip_prefix_app, He by done. reflexivity. }
    unfold push_hunk, set_mode, set_hunks, bump_line. cbn [line_buffer s_hunks s_line_number].
    rewrite run_add_lines. eexists; split; [reflexivity|]. cbn.
    rewrite last_snoc, <- Hsl, length_map. split_and!; try done. lia.
  - erewrite process_header; [|exact Hb|exact Hh|reflexivity|reflexivity|].
    2: { unfold handle_hunk_headers_and_end_patch. rewrite bool_decide_eq_false_2 by done.
         change (strip_prefix ADD_FILE_MARKER (DELETE_FILE_MARKER ++ path)) with (@None str).
         rewrite strip_prefix_app, He by done. reflexivity. }
    eexists; split; [reflexivity|]. cbn. by rewrite last_snoc.
  - destruct Hh as (Hp & Hmv & Hne & Hcs). destruct Hs as [Hsmv Hscs].
    erewrite process_header; [|exact Hb|exact Hp|reflexivity|reflexivity|].
    2: { unfold handle_hunk_headers_and_end_patch. rewrite bool_decide_eq_false_2 by done.
         change (strip_prefix ADD_FILE_MARKER (UPDATE_FILE_MARKER ++ path)) with (@None str).
         change (strip_prefix DELETE_FILE_MARKER (UPDATE_FILE_MARKER ++ path)) with (@None str).
         rewrite strip_prefix_app, He by done. reflexivity. }
    change (set_mode _ _) with (updating (ln + 1) hs path None [] (ln + 1)).
    assert (Hmove : run_lines (updating (ln + 1) hs path None [] (ln + 1))
        (match mv with Some q => [MOVE_TO_MARKER ++ q] | None => [] end)
      = (Ok tt, updating (ln + 1) hs path mv []
           (ln + 1 + length (match mv with Some q => [MOVE_TO_MARKER ++ q] | None => [] end)))).
    { destruct mv as [q|]; cbn [run_lines length]; [|by rewrite Nat.add_0_r].
      destruct Hsmv as [Hqne Hqt].
      erewrite step_update; [reflexivity| |];
        [|unfold process_update_line]; rewrite trim_end_app by done;
        [apply not_header_move|].
      cbn [is_empty]. rewrite (bool_decide_eq_false_2 (is_Some None)).
      2: { by intros [? ?]. }
      cbn [andb negb]. by rewrite strip_prefix_app. }
    erewrite run_lines_app by exact Hmove. rewrite run_chunks by done.
    eexists; split; [reflexivity|]. unfold updating. cbn [s_hunks mode line_buffer s_line_number].
    rewrite last_snoc. split_and!; try done.
    + destruct cs as [|c cs _] using rev_ind; [done|].
      apply Forall_app in Hcs as [_ Hc]. exact (wf_chunk_solid c cs (Forall_inv Hc)).
    + cbn [length]. rewrite length_app. lia.
Qed.

Lemma run_hunks hs p :
  ready p -> Forall wf_hunk hs -> Forall streamable hs ->
  exists p', run_lines p (concat (map render_hunk hs)) = (Ok tt, p') /\
    ready p' /\ s_hunks p' = s_hunks p ++ hs.
Proof.
  intros Hr Hhs. revert p Hr. induction Hhs as [|h hs Hh Hhs IH]; intros p Hr Hst.
  - exists p. cbn. by rewrite app_nil_r.
  - apply Forall_cons in Hst as [Hsh Hst].
    destruct (run_hunk p h Hr Hh Hsh) as (q & Hq & Hrq & Hhq & _).
    destruct (IH q Hrq Hst) as (p' & Hp' & Hr' & Hh'). exists p'.
    cbn [map concat]. erewrite run_lines_app by exact Hq.
    split_and!; [done|done|]. by rewrite Hh', Hhq, <- app_assoc.
Qed.

Lemma run_body env hs :
  wf_environment env -> Forall wf_hunk hs -> Forall streamable hs ->
  exists p', run_lines default_parser (BEGIN_PATCH_MARKER :: render_body env hs) = (Ok tt, p') /\
    ready p' /\ s_hunks p' = hs.
Proof.
  intros Henv Hhs Hst. cbn [run_lines].
  change (process_line _ _) with
    (@Ok ParseError unit tt, mkParser [] StartedPatch [] 1). cbv iota beta.
  assert (Hpre : exists n, run_lines (mkParser [] StartedPatch [] 1)
      (match env with Some id => [ENVIRONMENT_ID_MARKER ++ id] | None => [] end)
    = (Ok tt, mkParser [] StartedPatch [] n)).
  { destruct env as [id|]; cbn [run_lines]; [|by eexists].
    unfold process_line, bump_line. cbn [mode].
    assert (is_environment_id_preamble_line (ENVIRONMENT_ID_MARKER ++ id) = true) as ->.
    { unfold is_environment_id_preamble_line. apply starts_with_spec. by eexists. }
    by eexists. }
  destruct Hpre as [n Hpre]. unfold render_body. erewrite run_lines_app by exact Hpre.
  destruct (run_hunks hs (mkParser [] StartedPatch [] n)) as (p' & Hp' & Hr' & Hh');
    [done|done|done|]. by exists p'.
Qed.

(** C33.  The incremental parser agrees with [parse_patch] on the grammar:
    after the whole text of a well-formed patch whose move targets and change
    contexts are not empty and do not end in white space, cut into any deltas
    [pieces], [finish] accepts and returns the very hunks the batch parser
    returns.  (The incremental parser trims the end of move and context lines,
    the batch parser does not: see [streamed_context_trimmed].) *)
Theorem streaming_agrees (env : option str) (hs : list Hunk) (pieces : list str)
    (Henv : wf_environment env) (Hhs : Forall wf_hunk hs) (Hst : Forall streamable hs)
    (Hpieces : concat pieces = render_patch env hs) :
  exists p, fold_left (fun '(r, p) d => match r with
                         | Ok _ => push_delta p d
                         | Err e => (Err e, p) end) pieces
              (Ok [], default_parser)
            = (Ok (s_hunks p), p) /\
    fst (finish p) = Ok hs /\
    parse_patch (concat pieces) = Some (Ok (mkArgs (concat pieces) hs None env)).
Proof.
  destruct (run_body env hs Henv Hhs Hst) as (q & Hq & Hr & Hhq).
  assert (Hpush : push_chars default_parser (concat pieces)
                  = (Ok tt, set_buffer END_PATCH_MARKER q)).
  { rewrite Hpieces. unfold render_patch, render_lines. rewrite app_comm_cons.
    apply push_chars_join; [done| |dec_true|done].
    pose proof (clean_render_lines env hs Henv Hhs) as Hcl. unfold render_lines in Hcl.
    by rewrite app_comm_cons, Forall_app in Hcl; destruct Hcl. }
  exists (set_buffer END_PATCH_MARKER q). split_and!.
  - revert Hpush. generalize (set_buffer END_PATCH_MARKER q) as q'. clear.
    change (@nil Hunk) with (s_hunks default_parser).
    generalize default_parser as p. induction pieces as [|d ds IH]; intros p q'; cbn [concat].
    + cbn. by intros [= ->].
    + rewrite push_chars_app. cbn [fold_left]. unfold push_delta at 2.
      destruct (push_chars p d) as [[u|e] p1]; [apply IH|done].
  - unfold finish, set_buffer. cbn [line_buffer is_empty END_PATCH_MARKER].
    change (trim _) with END_PATCH_MARKER. rewrite bool_decide_eq_true_2 by done.
    rewrite ready_ensure; [cbn; by rewrite Hhq|]. destruct Hr as (? & ? & ? & ?).
    by split_and!.
  - rewrite Hpieces. by apply parse_patch_render.
Qed.

Lemma streaming_agrees_witness :
  exists p, fst (finish p) = Ok sample_hunks.
Proof.
  destruct (streaming_agrees None sample_hunks
              [take 50 (render_patch None sample_hunks);
               drop 50 (render_patch None sample_hunks)]) as (p & _ & H & _).
  - exact I.
  - dec_true.
  - dec_true.
  - vm_compute. reflexivity.
  - exists p. exact H.
Defined.

(** A change context that ends in a space loses it in the incremental parser
    only. *)
Example streamed_context_trimmed :
  let patch := render_patch None [UpdateFile "f" None [mkChunk (Some "def f: ") ["a"] ["b"] false]] in
  parse_patch patch =
    Some (Ok (mkArgs patch [UpdateFile "f" None [mkChunk (Some "def f: ") ["a"] ["b"] false]]
      None None)) /\
  fst (finish (snd (push_delta default_parser patch))) =
    Ok [UpdateFile "f" None [mkChunk (Some "def f:") ["a"] ["b"] false]].
Proof. vm_compute. split; reflexivity. Qed.
