(* ===== verification/Replacements.v ===== *)
(** * From chunks to line replacements

    Model of [compute_replacements], [apply_replacements] and the line
    arithmetic of [derive_new_contents_from_chunks] in
    [codex-rs/apply-patch/src/lib.rs].  [rewrite_lines] is the reference:
    one left-to-right pass that copies what no replacement covers. *)

From Stdlib Require Import Sorting.Sorted.
From S2P Require Import Prelude RustStr SeekSequence PatchParser.
Open Scope str_scope.

(** ** The code *)

Inductive ReplacementError := ComputeReplacements (message : str).

(** [(start_index, old_len, new_lines)] *)
Definition Replacement : Type := nat * nat * list str.
Definition r_start (r : Replacement) : nat := fst (fst r).
Definition r_len (r : Replacement) : nat := snd (fst r).
Definition r_new (r : Replacement) : list str := snd r.
Definition r_end (r : Replacement) : nat := r_start r + r_len r.

Definition context_error (ctx_line path : str) : ReplacementError :=
  ComputeReplacements ("Failed to find context '" ++ ctx_line ++ "' in " ++ path).
Definition lines_error (path : str) (old : list str) : ReplacementError :=
  ComputeReplacements ("Failed to find expected lines in " ++ path ++ ":" ++ [NL]
                         ++ join [NL] old).

(** One turn of the [for chunk in chunks] loop: the replacement it pushes
    and the next [line_index]. *)
Definition compute_chunk (original_lines : list str) (path : str) (line_index : nat)
    (chunk : UpdateFileChunk) : result ReplacementError (Replacement * nat) :=
  line_index ←
    (match change_context chunk with
     | None => Ok line_index
     | Some ctx_line =>
         match seek_sequence original_lines [ctx_line] line_index false with
         | Some idx => Ok (idx + 1)
         | None => Err (context_error ctx_line path)
         end
     end);
  if is_empty (old_lines chunk) then
    let insertion_idx :=
      if last_is is_empty original_lines
      then length original_lines - 1 else length original_lines in
    Ok ((insertion_idx, 0, new_lines chunk), line_index)
  else
    let pattern := old_lines chunk in
    let new_slice := new_lines chunk in
    let found := seek_sequence original_lines pattern line_index (is_end_of_file chunk) in
    let '(found, pattern, new_slice) :=
      if negb (bool_decide (is_Some found)) && last_is is_empty pattern then
        let pattern := removelast pattern in
        let new_slice :=
          if last_is is_empty new_slice then removelast new_slice else new_slice in
        (seek_sequence original_lines pattern line_index (is_end_of_file chunk),
         pattern, new_slice)
      else (found, pattern, new_slice) in
    match found with
    | Some start_idx =>
        Ok ((start_idx, length pattern, new_slice), start_idx + length pattern)
    | None => Err (lines_error path (old_lines chunk))
    end.

Fixpoint compute_loop (original_lines : list str) (path : str) (line_index : nat)
    (chunks : list UpdateFileChunk) (replacements : list Replacement)
    : result ReplacementError (list Replacement) :=
  match chunks with
  | [] => Ok replacements
  | chunk :: rest =>
      '(r, line_index) ← compute_chunk original_lines path line_index chunk;
      compute_loop original_lines path line_index rest (replacements ++ [r])
  end.

(** [slice::sort_by_key] with the start index as key: a stable sort. *)
Fixpoint insert_by_start (r : Replacement) (l : list Replacement) : list Replacement :=
  match l with
  | [] => [r]
  | x :: l' =>
      if (r_start r <=? r_start x)%nat then r :: l else x :: insert_by_start r l'
  end.
Definition sort_by_start (l : list Replacement) : list Replacement :=
  foldr insert_by_start [] l.

Definition compute_replacements (original_lines : list str) (path : str)
    (chunks : list UpdateFileChunk) : result ReplacementError (list Replacement) :=
  replacements ← compute_loop original_lines path 0 chunks [];
  Ok (sort_by_start replacements).

(** [for _ in 0..old_len { if start_idx < lines.len() { lines.remove(start_idx) } }] *)
Fixpoint remove_old (lines : list str) (start_idx old_len : nat) : option (list str) :=
  match old_len with
  | O => Some lines
  | S n =>
      lines ← (if (start_idx <? length lines)%nat
               then vec_remove start_idx lines else Some lines);
      remove_old lines start_idx n
  end.

(** [for (offset, new_line) in ... { lines.insert(start_idx + offset, ..) }] *)
Fixpoint insert_new (lines : list str) (idx : nat) (new_segment : list str)
    : option (list str) :=
  match new_segment with
  | [] => Some lines
  | new_line :: rest =>
      lines ← vec_insert idx new_line lines; insert_new lines (S idx) rest
  end.

(** [None] is a panic of [Vec::insert] or [Vec::remove]. *)
Fixpoint apply_rev (lines : list str) (reps : list Replacement) : option (list str) :=
  match reps with
  | [] => Some lines
  | (start_idx, old_len, new_segment) :: rest =>
      lines ← remove_old lines start_idx old_len;
      lines ← insert_new lines start_idx new_segment;
      apply_rev lines rest
  end.
Definition apply_replacements (lines : list str) (replacements : list Replacement)
    : option (list str) :=
  apply_rev lines (reverse replacements).

(** The lines of a file: the piece after a final newline is not one. *)
Definition split_file (original_contents : str) : list str :=
  let original_lines := split NL original_contents in
  if last_is is_empty original_lines then removelast original_lines else original_lines.

Definition join_file (new_lines : list str) : str :=
  join [NL] (if last_is is_empty new_lines then new_lines else new_lines ++ [[]]).

(** The text part of [derive_new_contents_from_chunks]. *)
Definition derive_new_text (original_contents path : str) (chunks : list UpdateFileChunk)
    : option (result ReplacementError str) :=
  let original_lines := split_file original_contents in
  match compute_replacements original_lines path chunks with
  | Err e => Some (Err e)
  | Ok replacements =>
      new_lines ← apply_replacements original_lines replacements;
      Some (Ok (join_file new_lines))
  end.

(** ** Reference *)

(** Copy from [pos] on, substituting each replacement as it is reached. *)
Fixpoint rewrite_lines (pos : nat) (lines : list str) (reps : list Replacement) : list str :=
  match reps with
  | [] => lines
  | r :: rest =>
      take (r_start r - pos) lines ++ r_new r
      ++ rewrite_lines (r_end r) (drop (r_end r - pos) lines) rest
  end.

(** Each replacement ends before the next one starts. *)
Definition before (a b : Replacement) : Prop := r_end a <= r_start b.
Definition disjoint_from (pos len : nat) (reps : list Replacement) : Prop :=
  StronglySorted before reps /\ Forall (fun r => pos <= r_start r /\ r_end r <= len) reps.

(** ** [apply_replacements] *)

Lemma remove_old_spec lines s n :
  s + n <= length lines -> remove_old lines s n = Some (take s lines ++ drop (s + n) lines).
Proof.
  revert lines. induction n as [|n IH]; intros lines H; cbn [remove_old].
  - by rewrite Nat.add_0_r, take_drop.
  - rewrite (proj2 (Nat.ltb_lt _ _)) by lia. rewrite vec_remove_Some by lia.
    cbn [mbind option_bind]. rewrite IH by (rewrite length_app, length_take, length_drop; lia).
    f_equal. rewrite take_app_le by (rewrite length_take; lia).
    rewrite take_take, Nat.min_id. f_equal.
    rewrite drop_app_ge by (rewrite length_take; lia).
    rewrite length_take, drop_drop. f_equal. lia.
Qed.

Lemma remove_old_total lines s n :
  exists lines', remove_old lines s n = Some lines' /\
    take s lines' = take s lines /\ (s <= length lines -> s <= length lines').
Proof.
  revert lines. induction n as [|n IH]; intros lines; cbn [remove_old]; [by eexists|].
  destruct (Nat.ltb_spec s (length lines)).
  - rewrite vec_remove_Some by done. cbn [mbind option_bind].
    destruct (IH (take s lines ++ drop (S s) lines)) as (l' & Hl' & Htake & Hlen).
    exists l'. split; [done|]. rewrite length_app, length_take in Hlen.
    rewrite Htake. split; [|intros; apply Hlen; lia].
    rewrite take_app_le by (rewrite length_take; lia). by rewrite take_take, Nat.min_id.
  - cbn [mbind option_bind]. apply IH.
Qed.

Lemma insert_new_spec lines s new :
  s <= length lines -> insert_new lines s new = Some (take s lines ++ new ++ drop s lines).
Proof.
  revert lines s. induction new as [|x new IH]; intros lines s H; cbn [insert_new].
  - by rewrite app_nil_l, take_drop.
  - rewrite vec_insert_Some by done. cbn [mbind option_bind].
    assert (Hl : length (take s lines) = s) by (rewrite length_take; lia).
    rewrite IH by (rewrite length_app; cbn; rewrite Hl; lia). f_equal.
    rewrite take_app_ge, drop_app_ge by lia. rewrite Hl.
    replace (S s - s) with 1 by lia. cbn [take drop]. rewrite take_0, drop_0.
    by rewrite <- !app_assoc.
Qed.

(** The replacements of the prefix do not see what later ones did. *)
Lemma rewrite_lines_snoc pos lines reps r :
  StronglySorted before (reps ++ [r]) ->
  Forall (fun x => pos <= r_start x /\ r_end x <= pos + length lines) (reps ++ [r]) ->
  rewrite_lines pos lines (reps ++ [r]) =
  rewrite_lines pos (take (r_start r - pos) lines ++ r_new r ++ drop (r_end r - pos) lines) reps.
Proof.
  revert pos lines. induction reps as [|x reps IH]; intros pos lines; [done|].
  cbn [app rewrite_lines]. intros Hsort Hall. apply StronglySorted_inv in Hsort as [Hsort Hx].
  apply Forall_cons in Hall as [[Hxs Hxe] Hall].
  assert (Hxr : r_end x <= r_start r).
  { apply Forall_app in Hx as [_ Hxr%Forall_inv]. done. }
  assert (Hrb : pos <= r_start r /\ r_end r <= pos + length lines).
  { apply Forall_app in Hall as [_ Hr%Forall_inv]. done. }
  assert (Hse : r_start r <= r_end r /\ r_start x <= r_end x) by (unfold r_end; lia).
  assert (Hlen : length (take (r_start r - pos) lines) = r_start r - pos).
  { rewrite length_take. lia. }
  f_equal; [|f_equal].
  - rewrite take_app_le by lia. rewrite take_take. f_equal. lia.
  - rewrite drop_app_le by lia. rewrite IH.
    + rewrite drop_drop, take_drop_commute.
      replace (r_end x - pos + (r_start r - r_end x)) with (r_start r - pos) by lia.
      by replace (r_end x - pos + (r_end r - r_end x)) with (r_end r - pos) by lia.
    + done.
    + rewrite length_drop. apply Forall_forall. intros y Hy.
      rewrite Forall_forall in Hall, Hx. specialize (Hall y Hy).
      specialize (Hx y Hy). unfold before in Hx. lia.
Qed.

Lemma apply_rev_spec lines reps :
  StronglySorted before reps -> Forall (fun r => r_end r <= length lines) reps ->
  apply_rev lines (reverse reps) = Some (rewrite_lines 0 lines reps).
Proof.
  revert lines. induction reps as [|[[s n] new] reps IH] using rev_ind; intros lines; [done|].
  intros Hsort Hall. rewrite reverse_snoc. cbn [apply_rev].
  pose proof Hall as [_ Hr%Forall_inv]%Forall_app. unfold r_end, r_start, r_len in Hr. cbn in Hr.
  rewrite remove_old_spec by lia. cbn [mbind option_bind].
  assert (Hl : length (take s lines) = s) by (rewrite length_take; lia).
  rewrite insert_new_spec by (rewrite length_app, Hl; lia). cbn [mbind option_bind].
  rewrite take_app_le, drop_app_ge by lia. rewrite take_take, Nat.min_id, Hl, Nat.sub_diag, drop_0.
  rewrite rewrite_lines_snoc.
  2: done.
  2: { eapply Forall_impl; [exact Hall|]. intros x Hx. cbn in *. lia. }
  cbn [r_end r_start r_len r_new fst snd]. rewrite !Nat.sub_0_r.
  assert (Hsort' : StronglySorted before reps /\ Forall (fun x => r_end x <= s) reps).
  { clear -Hsort. induction reps as [|x reps IHr]; [split; constructor|].
    cbn in Hsort. apply StronglySorted_inv in Hsort as [Hs Hx].
    destruct (IHr Hs) as [Hs' Hf]. apply Forall_app in Hx as [Hx Hxr%Forall_inv].
    split; constructor; done. }
  destruct Hsort' as [Hs' Hle]. rewrite IH; [done|done|].
  eapply Forall_impl; [exact Hle|]. intros x Hx. cbn in *.
  rewrite !length_app, Hl. lia.
Qed.

(** Whatever the replacements are, sorted starts inside the file are enough
    for [Vec::insert] never to be out of range. *)
Definition starts_le (a b : Replacement) : Prop := r_start a <= r_start b.

Lemma apply_rev_total lines reps :
  StronglySorted (fun a b => starts_le b a) reps ->
  Forall (fun r => r_start r <= length lines) reps ->
  is_Some (apply_rev lines reps).
Proof.
  revert lines. induction reps as [|[[s n] new] reps IH]; intros lines; [by eexists|].
  intros Hsort Hall. apply StronglySorted_inv in Hsort as [Hsort Hle].
  apply Forall_cons in Hall as [Hs Hall]. cbn [apply_rev]. unfold r_start in Hs. cbn in Hs.
  destruct (remove_old_total lines s n) as (l' & -> & _ & Hlen). cbn [mbind option_bind].
  specialize (Hlen Hs). rewrite insert_new_spec by done. cbn [mbind option_bind].
  apply IH; [done|]. eapply Forall_impl; [exact Hle|]. intros x Hx.
  unfold starts_le, r_start at 2 in Hx. cbn in Hx. rewrite length_app, length_take. lia.
Qed.

(** ** Sorting *)

Lemma insert_by_start_perm r l : insert_by_start r l ≡ₚ r :: l.
Proof.
  induction l as [|x l IH]; cbn; [done|]. case_match; [done|].
  rewrite IH. constructor.
Qed.

Lemma sort_by_start_perm l : sort_by_start l ≡ₚ l.
Proof.
  induction l as [|x l IH]; cbn; [done|]. rewrite insert_by_start_perm. by constructor.
Qed.

Lemma insert_by_start_sorted r l :
  StronglySorted starts_le l -> StronglySorted starts_le (insert_by_start r l).
Proof.
  unfold starts_le. induction l as [|x l IH]; cbn; intros Hs.
  { repeat constructor. }
  pose proof (StronglySorted_inv Hs) as [Hl Hx]. destruct (Nat.leb_spec (r_start r) (r_start x)).
  - constructor; [done|]. constructor; [done|].
    eapply Forall_impl; [exact Hx|]. cbn. lia.
  - constructor; [by apply IH|]. rewrite insert_by_start_perm. constructor; [lia|done].
Qed.

Lemma sort_by_start_sorted l : StronglySorted starts_le (sort_by_start l).
Proof. induction l as [|x l IH]; cbn; [constructor|]. by apply insert_by_start_sorted. Qed.

(** Two replacements that do not collide, in the order they were found. *)
Definition apart (a b : Replacement) : Prop :=
  r_end a <= r_start b \/ (r_end b <= r_start a /\ r_start b < r_start a).

Lemma insert_by_start_before r l :
  Forall (apart r) l -> StronglySorted before l -> StronglySorted starts_le l ->
  StronglySorted before (insert_by_start r l).
Proof.
  induction l as [|x l IH]; intros Hap Hb Hs; cbn [insert_by_start]; [repeat constructor|].
  pose proof (StronglySorted_inv Hb) as [Hb' Hbx].
  pose proof (StronglySorted_inv Hs) as [Hs' Hsx].
  pose proof Hap as Hap0. apply Forall_cons in Hap as [Hrx Hap].
  destruct (Nat.leb_spec (r_start r) (r_start x)) as [Hle|Hlt].
  - constructor; [done|]. apply Forall_forall. intros y Hy. unfold before.
    assert (r_start x <= r_start y).
    { apply elem_of_cons in Hy as [-> | Hy]; [done|].
      rewrite Forall_forall in Hsx. by apply Hsx. }
    rewrite Forall_forall in Hap0. destruct (Hap0 y Hy); lia.
  - constructor; [by apply IH|]. rewrite insert_by_start_perm. constructor; [|done].
    unfold before. destruct Hrx; unfold r_end in *; lia.
Qed.

Lemma sort_by_start_before l :
  ForallOrdPairs apart l -> StronglySorted before (sort_by_start l).
Proof.
  induction 1 as [|r l Hr _ IH]; cbn; [constructor|].
  apply insert_by_start_before; [by rewrite sort_by_start_perm|done|apply sort_by_start_sorted].
Qed.

(** ** [compute_replacements] *)

(** Where a chunk without old lines inserts: at the end, before a final empty
    line. *)
Definition insertion_idx (lines : list str) : nat :=
  if last_is is_empty lines then length lines - 1 else length lines.

(** What a replacement has to do with the chunk it came from: the region it
    removes reads like the chunk's old lines (up to normalisation), or like
    all of them but a final empty one, and what it inserts are the chunk's
    new lines (less, in the second case, their own final empty one). *)
Definition region_matches (lines : list str) (c : UpdateFileChunk) (r : Replacement) : Prop :=
  (old_lines c = [] /\ r_start r = insertion_idx lines /\ r_len r = 0 /\ r_new r = new_lines c) \/
  (exists pattern, old_lines c <> [] /\ r_len r = length pattern /\
     occurs normalise lines pattern (r_start r) /\
     ((pattern = old_lines c /\ r_new r = new_lines c) \/
      (old_lines c = pattern ++ [[]] /\
       (r_new r = new_lines c \/ new_lines c = r_new r ++ [[]])))).

Lemma last_is_empty_snoc (l : list str) :
  last_is is_empty l = true -> exists l', l = l' ++ [[]].
Proof.
  destruct l as [|x l _] using rev_ind; [done|]. rewrite last_is_snoc.
  intros ->%is_empty_true. by exists l.
Qed.

Lemma seek_any_bounds lines pattern start eof i :
  start <= length lines -> seek_sequence lines pattern start eof = Some i ->
  i + length pattern <= length lines /\ occurs normalise lines pattern i /\
  (eof = false -> start <= i).
Proof.
  intros Hs. destruct pattern as [|p ps].
  - cbn. intros [= <-]. split_and!; [lia| |lia]. split; [cbn; lia|]. cbn. by rewrite take_0.
  - intros Hi. pose proof (seek_sequence_cases lines (p :: ps) start eof ltac:(done)) as Hc.
    rewrite Hi in Hc. apply seek_spec_occurs in Hc as [Hfrom Hocc].
    split_and!; [by destruct Hocc|done|]. intros ->. done.
Qed.

Lemma compute_chunk_spec lines path li c r li' :
  li <= length lines -> compute_chunk lines path li c = Ok (r, li') ->
  r_end r <= length lines /\ li' <= length lines /\ region_matches lines c r /\
  (old_lines c = [] -> r_start r = insertion_idx lines /\ li <= li') /\
  (old_lines c <> [] -> li' = r_end r /\ (is_end_of_file c = false -> li <= r_start r)).
Proof.
  intros Hli. unfold compute_chunk. intros (li1 & Hctx & H)%result_bind_Ok.
  assert (Hli1 : li <= li1 <= length lines).
  { destruct (change_context c) as [ctx|]; [|injection Hctx as <-; lia].
    destruct (seek_sequence lines [ctx] li false) as [idx|] eqn:E; [|done].
    injection Hctx as <-. apply seek_any_bounds in E as (Hb & _ & Hge); [|done].
    cbn in Hb. specialize (Hge eq_refl). lia. }
  clear Hctx. destruct (is_empty (old_lines c)) eqn:Hold.
  { apply is_empty_true in Hold. fold (insertion_idx lines) in H. injection H as <- <-.
    unfold r_end, r_start, r_len. cbn [fst snd].
    assert (insertion_idx lines <= length lines) by (unfold insertion_idx; case_match; lia).
    split_and!; [lia|lia|by left| |done]. intros _. split; [done|lia]. }
  apply is_empty_false in Hold.
  destruct (seek_sequence lines (old_lines c) li1 (is_end_of_file c)) as [i|] eqn:E.
  - rewrite bool_decide_eq_true_2 in H by eauto. cbn in H. injection H as <- <-.
    apply seek_any_bounds in E as (Hb & Hocc & Hge); [|lia].
    unfold r_end, r_start, r_len. cbn [fst snd].
    split_and!; [done|done| |done|].
    + right. exists (old_lines c). split_and!; [done..|by left].
    + intros _. split; [done|]. intros Heof. specialize (Hge Heof). lia.
  - rewrite bool_decide_eq_false_2 in H by (by intros [? ?]). cbn [negb andb] in H.
    destruct (last_is is_empty (old_lines c)) eqn:Hlast; [|done].
    apply last_is_empty_snoc in Hlast as [pat Hpat]. rewrite Hpat, removelast_last in H.
    destruct (seek_sequence lines pat li1 (is_end_of_file c)) as [i|] eqn:E'; [|done].
    apply seek_any_bounds in E' as (Hb & Hocc & Hge); [|lia].
    set (ns := if last_is is_empty (new_lines c) then removelast (new_lines c)
               else new_lines c) in H.
    assert (Hns : ns = new_lines c \/ new_lines c = ns ++ [[]]).
    { subst ns. destruct (last_is is_empty (new_lines c)) eqn:Hn; [right|by left].
      apply last_is_empty_snoc in Hn as [l' ->]. by rewrite removelast_last. }
    clearbody ns. injection H as <- <-. unfold r_end, r_start, r_len. cbn [fst snd].
    split_and!; [done|done| |done|].
    + right. exists pat. split_and!; [done..|by right].
    + intros _. split; [done|]. intros Heof. specialize (Hge Heof). lia.
Qed.

Lemma compute_loop_acc lines path li chunks acc :
  compute_loop lines path li chunks acc = app acc <$> compute_loop lines path li chunks [].
Proof.
  revert li acc. induction chunks as [|c chunks IH]; intros li acc; cbn.
  - by rewrite app_nil_r.
  - destruct (compute_chunk lines path li c) as [[r li']|e]; [|done]. cbn.
    rewrite (IH li' (acc ++ [r])), (IH li' [r]).
    destruct (compute_loop lines path li' chunks []); [|done]. cbn.
    by rewrite <- app_assoc.
Qed.

Lemma compute_loop_cons lines path li c chunks reps :
  compute_loop lines path li (c :: chunks) [] = Ok reps ->
  exists r li' tail, compute_chunk lines path li c = Ok (r, li') /\
    compute_loop lines path li' chunks [] = Ok tail /\ reps = r :: tail.
Proof.
  cbn. intros ([r li'] & Hc & H)%result_bind_Ok. rewrite compute_loop_acc in H.
  destruct (compute_loop lines path li' chunks []) as [tail|] eqn:E; [|done].
  injection H as <-. by exists r, li', tail.
Qed.

Lemma compute_loop_regions lines path li chunks reps :
  li <= length lines -> compute_loop lines path li chunks [] = Ok reps ->
  Forall2 (region_matches lines) chunks reps /\ Forall (fun r => r_end r <= length lines) reps.
Proof.
  revert li reps. induction chunks as [|c chunks IH]; intros li reps Hli.
  - intros [= <-]. by split; constructor.
  - intros (r & li' & tail & Hc & Ht & ->)%compute_loop_cons.
    apply compute_chunk_spec in Hc as (Hend & Hli' & Hm & _); [|done].
    destruct (IH li' tail Hli' Ht) as [? ?]. by split; constructor.
Qed.

(** Chunks found by a forward search whose insertions go past every line. *)
Definition forward_chunks (lines : list str) (chunks : list UpdateFileChunk) : Prop :=
  Forall (fun c => is_end_of_file c = false) chunks /\
  (last_is is_empty lines = false \/ Forall (fun c => old_lines c <> []) chunks).

Lemma compute_loop_apart lines path li chunks reps :
  li <= length lines -> forward_chunks lines chunks ->
  compute_loop lines path li chunks [] = Ok reps ->
  ForallOrdPairs apart reps /\
  Forall (fun r => (li <= r_start r \/ r_start r = length lines) /\ r_end r <= length lines) reps.
Proof.
  revert li reps. induction chunks as [|c chunks IH]; intros li reps Hli [Heof Hadd].
  { intros [= <-]. by split; constructor. }
  intros (r & li' & tail & Hc & Ht & ->)%compute_loop_cons.
  apply Forall_cons in Heof as [Hce Heof].
  assert (Hfw : forward_chunks lines chunks).
  { split; [done|]. destruct Hadd as [?|Hadd]; [by left|right].
    by apply Forall_cons in Hadd as [_ ?]. }
  apply compute_chunk_spec in Hc as (Hend & Hli' & _ & Hpure & Hreg); [|done].
  destruct (IH li' tail Hli' Hfw Ht) as [Hpairs Hbounds].
  assert (Hr : li <= li' /\ ((r_start r = length lines) \/ (li <= r_start r /\ li' = r_end r))).
  { destruct (decide (old_lines c = [])) as [Ho|Ho].
    - destruct (Hpure Ho) as [Hstart ?]. split; [done|left]. rewrite Hstart.
      unfold insertion_idx. destruct Hadd as [->|Hadd]; [done|].
      by apply Forall_cons in Hadd as [? _].
    - destruct (Hreg Ho) as [-> Hge]. specialize (Hge Hce).
      split; [unfold r_end; lia|right; lia]. }
  destruct Hr as [Hmono Hr]. split.
  - constructor; [|done]. eapply Forall_impl; [exact Hbounds|].
    intros x [Hx Hxe]. unfold apart, r_end in *. lia.
  - constructor; [unfold r_end in *; lia|]. eapply Forall_impl; [exact Hbounds|].
    cbn. intros x [Hx ?]. lia.
Qed.

(** ** Properties *)

Lemma compute_replacements_perm lines path chunks reps :
  compute_replacements lines path chunks = Ok reps ->
  exists found, compute_loop lines path 0 chunks [] = Ok found /\ reps = sort_by_start found.
Proof. intros (found & Hf & [= <-])%result_bind_Ok. eauto. Qed.

(** Patching a file never panics: the replacements the search produces
    lie inside the file and are sorted, so no [Vec::insert] or [Vec::remove]
    is out of range, for every file, every list of chunks (overlapping ones
    included) and every order of their matches. *)
Theorem derive_new_text_total (original path : str) (chunks : list UpdateFileChunk) :
  is_Some (derive_new_text original path chunks).
Proof.
  unfold derive_new_text.
  destruct (compute_replacements (split_file original) path chunks) as [reps|e] eqn:E;
    [|by eexists].
  apply compute_replacements_perm in E as (found & Hf & ->).
  apply compute_loop_regions in Hf as [_ Hb]; [|lia].
  destruct (apply_rev_total (split_file original) (reverse (sort_by_start found))) as [l Hl].
  - pose proof (sort_by_start_sorted found) as Hs. revert Hs.
    generalize (sort_by_start found) as l. clear. unfold starts_le.
    induction l as [|r l IH] using rev_ind; [constructor|]. intros Hs.
    rewrite reverse_snoc. assert (Hs' : StronglySorted (fun a b => r_start a <= r_start b) l
      /\ Forall (fun a => r_start a <= r_start r) l).
    { clear IH. induction l as [|x l IH]; [split; constructor|].
      cbn in Hs. apply StronglySorted_inv in Hs as [Hs Hx]. destruct (IH Hs).
      apply Forall_app in Hx as [Hx Hxr%Forall_inv]. split; by constructor. }
    destruct Hs' as [Hs' Hle]. constructor; [by apply IH|]. by rewrite reverse_Permutation.
  - rewrite reverse_Permutation, sort_by_start_perm.
    eapply Forall_impl; [exact Hb|]. unfold r_end. cbn. lia.
  - unfold apply_replacements. rewrite Hl. by eexists.
Qed.

(** C31.  A successful update does what the patch says.  Each chunk has a
    region of the file: one that reads like its old lines (up to
    normalisation, and to a final empty line), or the end of the file, before
    a final empty line, for a chunk without old lines.  Whenever the regions do
    not collide, the result is the original file with the regions, pairwise
    disjoint and inside the file, replaced by the new lines of their chunks,
    and every other line copied in place and in order.  They never collide
    when no chunk is bound to the end of the file and, if the file ends in an
    empty line, none only inserts. *)
Theorem derive_new_text_correct (original path : str) (chunks : list UpdateFileChunk)
    (txt : str) (Hok : derive_new_text original path chunks = Some (Ok txt)) :
  exists found reps,
    Forall2 (region_matches (split_file original)) chunks found /\ reps ≡ₚ found /\
    (forward_chunks (split_file original) chunks -> ForallOrdPairs apart found) /\
    (ForallOrdPairs apart found ->
     disjoint_from 0 (length (split_file original)) reps /\
     txt = join_file (rewrite_lines 0 (split_file original) reps)).
Proof.
  revert Hok. unfold derive_new_text. set (lines := split_file original) in *.
  destruct (compute_replacements lines path chunks) as [reps|e] eqn:E; [|done].
  apply compute_replacements_perm in E as (found & Hf & ->).
  pose proof (compute_loop_regions lines path 0 chunks found (Nat.le_0_l _) Hf) as [Hm Hb].
  intros Happly. exists found, (sort_by_start found).
  split_and!; [done|apply sort_by_start_perm| |].
  { intros Hfw. by apply compute_loop_apart in Hf as [Hpairs _]; [|lia|]. }
  intros Hpairs%sort_by_start_before.
  assert (Hb' : Forall (fun r => r_end r <= length lines) (sort_by_start found))
    by (by rewrite sort_by_start_perm).
  unfold apply_replacements in Happly. rewrite apply_rev_spec in Happly by done.
  cbn [mbind option_bind] in Happly. injection Happly as <-. split; [|done].
  split; [done|]. eapply Forall_impl; [exact Hb'|]. cbn. lia.
Qed.

Lemma derive_new_text_correct_witness :
  derive_new_text (unlines ["one"; "two"; "three"]) "f"
    [mkChunk (Some "one") ["two "] ["2"; "2b"] false; mkChunk None [] ["end"] false]
  = Some (Ok (unlines ["one"; "2"; "2b"; "three"; "end"])) /\
  exists found reps : list Replacement, length found = 2 /\
    disjoint_from 0 3 reps /\
    unlines ["one"; "2"; "2b"; "three"; "end"]
    = join_file (rewrite_lines 0 ["one"; "two"; "three"] reps).
Proof.
  assert (H : derive_new_text (unlines ["one"; "two"; "three"]) "f"
    [mkChunk (Some "one") ["two "] ["2"; "2b"] false; mkChunk None [] ["end"] false]
    = Some (Ok (unlines ["one"; "2"; "2b"; "three"; "end"]))) by (vm_compute; reflexivity).
  split; [exact H|].
  destruct (derive_new_text_correct (unlines ["one"; "two"; "three"]) "f"
    [mkChunk (Some "one") ["two "] ["2"; "2b"] false; mkChunk None [] ["end"] false] _
    H) as (found & reps & Hm & _ & Hfw & Hres).
  exists found, reps. split; [symmetry; exact (Forall2_length _ _ _ Hm)|].
  apply Hres, Hfw. split; [repeat constructor|left; vm_compute; reflexivity].
Defined.

(** A chunk that is bound to the end of the file is searched there whatever was
    found before, and may find a region that an earlier chunk replaces: what
    that chunk wrote is then lost without an error. *)
Example end_of_file_chunk_collides :
  derive_new_text (unlines ["a"; "b"]) "f"
    [mkChunk None ["b"] ["X"] false; mkChunk None ["a"; "b"] ["c"] true] =
  Some (Ok (unlines ["c"])).
Proof. vm_compute. reflexivity. Qed.

(** *** Line endings *)

Lemma split_snoc_nl s : split NL (s ++ [NL]) = split NL s ++ [[]].
Proof.
  induction s as [|c s IH]; [done|]. cbn [app split]. destruct (c =? NL)%N.
  - by rewrite IH.
  - rewrite IH. pose proof (split_nonempty NL s). by destruct (split NL s).
Qed.

Lemma split_snoc_char s c : c <> NL -> last_is is_empty (split NL (s ++ [c])) = false.
Proof.
  intros Hc. induction s as [|x s IH].
  - cbn. by rewrite (proj2 (N.eqb_neq c NL)).
  - cbn [app split]. pose proof (split_nonempty NL (s ++ [c])) as Hne.
    destruct (x =? NL)%N.
    + unfold last_is in *. by destruct (split NL (s ++ [c])).
    + destruct (split NL (s ++ [c])) as [|p [|q qs]]; [done| |]; done.
Qed.

(**  What an update does to the end of a file it leaves otherwise
    alone: a missing final newline is added, a single one is kept, but of
    two or more final newlines one is lost (a file that ends in a blank line
    comes back without it). *)
Theorem final_newline (s : str) (c : char) (Hc : c <> NL) :
  join_file (split_file (s ++ [c])) = s ++ [c; NL] /\
  join_file (split_file (s ++ [c; NL])) = s ++ [c; NL] /\
  join_file (split_file (s ++ [c; NL; NL])) = s ++ [c; NL].
Proof.
  assert (Hlast : last_is is_empty (split NL (s ++ [c])) = false) by (by apply split_snoc_char).
  assert (Hjoin : join_file (split NL (s ++ [c])) = s ++ [c; NL]).
  { unfold join_file. rewrite Hlast, join_snoc, join_split by apply split_nonempty.
    cbn. by rewrite <- app_assoc. }
  unfold split_file. split_and!.
  - by rewrite Hlast.
  - change [c; NL] with ([c] ++ [NL]) at 1 2. rewrite app_assoc, split_snoc_nl.
    by rewrite last_is_snoc, removelast_last.
  - change [c; NL; NL] with ([c] ++ [NL] ++ [NL]) at 1 2.
    rewrite !app_assoc, !split_snoc_nl. rewrite last_is_snoc. cbn [is_empty].
    rewrite removelast_last. unfold join_file. rewrite last_is_snoc. cbn [is_empty].
    rewrite join_snoc, join_split by apply split_nonempty. by rewrite app_nil_r, <- app_assoc.
Qed.

Lemma final_newline_witness :
  join_file (split_file "a" ) = "a" ++ [NL] /\
  derive_new_text ("a" ++ [NL; NL]) "f" [mkChunk None ["a"] ["b"] false]
  = Some (Ok ("b" ++ [NL])).
Proof.
  split; [exact (proj1 (final_newline [] 97%N ltac:(discriminate)))|vm_compute; reflexivity].
Defined.
