(* ===== verification/ApplyPatch.v ===== *)
(** * Applying a patch to a file system

    Model of the effectful half of [codex-rs/apply-patch/src/lib.rs].  The
    file system is the interface [ExecutorFileSystem] of the code
    ([codex-rs/file-system/src/lib.rs]), here a type class over an abstract
    world; what the client relies on is the class [FsLaws], and [MemFs], a
    map, and [LinkFs], a tree with hard links, satisfy it. *)

From S2P Require Import Prelude RustStr PatchParser Replacements.
Open Scope str_scope.

(** ** The file-system interface *)

Inductive ErrorKind := NotFound | InvalidInput | OtherKind.
Record IoError := mkIoError { kind : ErrorKind; io_message : str }.

#[export] Instance ErrorKind_eq_dec : EqDecision ErrorKind.
Proof. solve_decision. Defined.

Record FileMetadata := mkMetadata {
  is_directory : bool; is_file : bool; is_symlink : bool;
}.

Class ExecutorFileSystem (W : Type) := {
  read_file_text : str -> W -> result IoError str;
  get_metadata : str -> W -> result IoError FileMetadata;
  write_file : str -> str -> W -> result IoError unit * W;
  create_directory : str -> W -> result IoError unit * W;
  remove : str -> W -> result IoError unit * W;
  (** [AbsolutePathBuf::parent] and [resolve_path_against_base(_, cwd)] *)
  path_parent : str -> option str;
  resolve_path : str -> str;
}.

(** ** Errors, deltas *)

Inductive AnyError :=
| Bail (message : str)
| AnyIo (context : option str) (source : IoError)
| AnyCompute (e : ReplacementError)
| AnyRead (context : str) (source : IoError).

Inductive AppliedPatchFileChange :=
| ChangeAdd (content : str) (overwritten_content : option str)
| ChangeDelete (content : str)
| ChangeUpdate (move_path : option str) (old_content : str)
    (overwritten_move_content : option str) (new_content : str).

Record AppliedPatchChange := mkChange { ch_path : str; ch_change : AppliedPatchFileChange }.

Record AppliedPatchDelta := mkDelta { d_changes : list AppliedPatchChange; d_exact : bool }.

Definition delta_empty : AppliedPatchDelta := mkDelta [] true.
(** [AppliedPatchDelta::append] *)
Definition delta_append (d other : AppliedPatchDelta) : AppliedPatchDelta :=
  mkDelta (d_changes d ++ d_changes other) (d_exact d && d_exact other).

Record AffectedPaths := mkAffected {
  added : list str; modified : list str; deleted : list str;
}.

(** The mutable state of [apply_hunks_to_files]. *)
Record St (W : Type) := mkSt { world : W; delta : AppliedPatchDelta; affected : AffectedPaths }.
Arguments mkSt {W} _ _ _.
Arguments world {W} _.
Arguments delta {W} _.
Arguments affected {W} _.

Section Operations.
Context {W : Type} `{ExecutorFileSystem W}.

Definition set_world (w : W) (s : St W) : St W := mkSt w (delta s) (affected s).
Definition set_exact (b : bool) (s : St W) : St W :=
  mkSt (world s) (mkDelta (d_changes (delta s)) b) (affected s).
(** [delta.exact &= b] *)
Definition and_exact (b : bool) (s : St W) : St W := set_exact (d_exact (delta s) && b) s.
Definition push_change (c : AppliedPatchChange) (s : St W) : St W :=
  mkSt (world s) (mkDelta (d_changes (delta s) ++ [c]) (d_exact (delta s))) (affected s).
(** [delta.changes[dest_write_change_index] = c], where the index is that
    of the last change. *)
Definition set_last_change (c : AppliedPatchChange) (s : St W) : St W :=
  mkSt (world s) (mkDelta (removelast (d_changes (delta s)) ++ [c]) (d_exact (delta s)))
       (affected s).
Definition push_added (p : str) (s : St W) : St W :=
  let a := affected s in
  mkSt (world s) (delta s) (mkAffected (added a ++ [p]) (modified a) (deleted a)).
Definition push_modified (p : str) (s : St W) : St W :=
  let a := affected s in
  mkSt (world s) (delta s) (mkAffected (added a) (modified a ++ [p]) (deleted a)).
Definition push_deleted (p : str) (s : St W) : St W :=
  let a := affected s in
  mkSt (world s) (delta s) (mkAffected (added a) (modified a) (deleted a ++ [p])).

Definition ensure_not_directory (path : str) (w : W) : result IoError unit :=
  metadata ← get_metadata path w;
  if is_directory metadata
  then Err (mkIoError InvalidInput "path is a directory") else Ok tt.

Definition remove_failure_was_side_effect_free (path : str)
    (expected_content : option str) (w : W) : bool :=
  match expected_content with
  | Some expected_content =>
      match read_file_text path w with
      | Ok content => bool_decide (content = expected_content)
      | Err _ => false
      end
  | None => false
  end.

(** The new value of [*exact]. *)
Definition note_existing_path_delta_support (path : str) (w : W) (exact : bool) : bool :=
  match get_metadata path w with
  | Ok metadata =>
      if is_file metadata && negb (is_symlink metadata) then exact else false
  | Err source => if bool_decide (kind source = NotFound) then exact else false
  end.

Definition read_optional_file_text_for_delta (path : str) (w : W) (exact : bool)
    : option str * bool :=
  let exact := note_existing_path_delta_support path w exact in
  match read_file_text path w with
  | Ok content => (Some content, exact)
  | Err source => if bool_decide (kind source = NotFound) then (None, exact) else (None, false)
  end.

Definition write_file_with_missing_parent_retry (path_abs contents : str) (w : W)
    : result AnyError unit * W :=
  let write_context := "Failed to write file " ++ path_abs in
  match write_file path_abs contents w with
  | (Ok _, w) => (Ok tt, w)
  | (Err err, w) =>
      if bool_decide (kind err = NotFound) then
        match (match path_parent path_abs with
               | Some parent_abs => create_directory parent_abs w
               | None => (Ok tt, w)
               end) with
        | (Err err, w) =>
            (Err (AnyIo (Some ("Failed to create parent directories for " ++ path_abs)) err), w)
        | (Ok _, w) =>
            match write_file path_abs contents w with
            | (Ok _, w) => (Ok tt, w)
            | (Err err, w) => (Err (AnyIo (Some write_context) err), w)
            end
        end
      else (Err (AnyIo (Some write_context) err), w)
  end.

(** [derive_new_contents_from_chunks]: the original and the new contents.
    The text computation never panics ([Replacements.derive_new_text_total]). *)
Definition derive_new_contents_from_chunks (path_abs : str)
    (chunks : list UpdateFileChunk) (w : W) : option (result AnyError (str * str)) :=
  match read_file_text path_abs w with
  | Err err => Some (Err (AnyRead ("Failed to read file to update " ++ path_abs) err))
  | Ok original_contents =>
      r ← derive_new_text original_contents path_abs chunks;
      match r with
      | Err e => Some (Err (AnyCompute e))
      | Ok new_contents => Some (Ok (original_contents, new_contents))
      end
  end.

Definition apply_add_file (affected_path path_abs contents : str) (s : St W)
    : result AnyError unit * St W :=
  let '(overwritten_content, exact) :=
    read_optional_file_text_for_delta path_abs (world s) (d_exact (delta s)) in
  let s := set_exact exact s in
  match write_file_with_missing_parent_retry path_abs contents (world s) with
  | (Err error, w) => (Err error, set_exact false (set_world w s))
  | (Ok _, w) =>
      let s := push_change (mkChange path_abs (ChangeAdd contents overwritten_content))
                           (set_world w s) in
      (Ok tt, push_added affected_path s)
  end.

Definition apply_delete_file (affected_path path_abs : str) (s : St W)
    : result AnyError unit * St W :=
  let s := set_exact (note_existing_path_delta_support path_abs (world s)
                        (d_exact (delta s))) s in
  let deleted_content := ok (read_file_text path_abs (world s)) in
  let s := match deleted_content with None => set_exact false s | Some _ => s end in
  let context := "Failed to delete file " ++ path_abs in
  match ensure_not_directory path_abs (world s) with
  | Err err => (Err (AnyIo (Some context) err), s)
  | Ok _ =>
      match remove path_abs (world s) with
      | (Err err, w) =>
          let s := set_world w s in
          (Err (AnyIo (Some context) err),
           and_exact (remove_failure_was_side_effect_free path_abs deleted_content w) s)
      | (Ok _, w) =>
          let s := set_world w s in
          let s := match deleted_content with
                   | Some content => push_change (mkChange path_abs (ChangeDelete content)) s
                   | None => s
                   end in
          (Ok tt, push_deleted affected_path s)
      end
  end.

(** The [if let Some(dest) = move_path] arm of an update. *)
Definition apply_move (affected_path path_abs dest_abs : str)
    (original_contents new_contents : str) (s : St W) : result AnyError unit * St W :=
  let '(overwritten_move_content, exact) :=
    read_optional_file_text_for_delta dest_abs (world s) (d_exact (delta s)) in
  let s := set_exact exact s in
  match write_file_with_missing_parent_retry dest_abs new_contents (world s) with
  | (Err error, w) => (Err error, set_exact false (set_world w s))
  | (Ok _, w) =>
      let s := push_change (mkChange dest_abs
                              (ChangeAdd new_contents overwritten_move_content))
                           (set_world w s) in
      let context := "Failed to remove original " ++ path_abs in
      match ensure_not_directory path_abs (world s) with
      | Err err => (Err (AnyIo (Some context) err), s)
      | Ok _ =>
          match remove path_abs (world s) with
          | (Err err, w) =>
              let s := set_world w s in
              (Err (AnyIo (Some context) err),
               and_exact (remove_failure_was_side_effect_free path_abs
                            (Some original_contents) w) s)
          | (Ok _, w) =>
              let s := set_last_change
                         (mkChange path_abs
                            (ChangeUpdate (Some dest_abs) original_contents
                               overwritten_move_content new_contents))
                         (set_world w s) in
              (Ok tt, push_modified affected_path s)
          end
      end
  end.

Definition apply_update_file (affected_path path_abs : str) (move_path : option str)
    (chunks : list UpdateFileChunk) (s : St W) : option (result AnyError unit * St W) :=
  let s := set_exact (note_existing_path_delta_support path_abs (world s)
                        (d_exact (delta s))) s in
  r ← derive_new_contents_from_chunks path_abs chunks (world s);
  match r with
  | Err e => Some (Err e, s)
  | Ok (original_contents, new_contents) =>
      match move_path with
      | Some dest =>
          Some (apply_move affected_path path_abs (resolve_path dest)
                  original_contents new_contents s)
      | None =>
          match write_file path_abs new_contents (world s) with
          | (Err error, w) =>
              Some (Err (AnyIo (Some ("Failed to write file " ++ path_abs)) error),
                    set_exact false (set_world w s))
          | (Ok _, w) =>
              let s := push_change
                         (mkChange path_abs
                            (ChangeUpdate None original_contents None new_contents))
                         (set_world w s) in
              Some (Ok tt, push_modified affected_path s)
          end
      end
  end.

(** One round of [for hunk in hunks]. *)
Definition apply_hunk (hunk : Hunk) (s : St W) : option (result AnyError unit * St W) :=
  let affected_path := hunk_path hunk in
  match hunk with
  | AddFile path contents =>
      Some (apply_add_file affected_path (resolve_path path) contents s)
  | DeleteFile path => Some (apply_delete_file affected_path (resolve_path path) s)
  | UpdateFile path move_path chunks =>
      apply_update_file affected_path (resolve_path path) move_path chunks s
  end.

Fixpoint apply_hunk_loop (hunks : list Hunk) (s : St W)
    : option (result AnyError AffectedPaths * St W) :=
  match hunks with
  | [] => Some (Ok (affected s), s)
  | hunk :: rest =>
      '(r, s) ← apply_hunk hunk s;
      match r with
      | Err e => Some (Err e, s)
      | Ok _ => apply_hunk_loop rest s
      end
  end.

Definition apply_hunks_to_files (hunks : list Hunk) (d : AppliedPatchDelta) (w : W)
    : option (result AnyError AffectedPaths * St W) :=
  let s := mkSt w d (mkAffected [] [] []) in
  if is_empty hunks then Some (Err (Bail "No files were modified."), s)
  else apply_hunk_loop hunks s.

(** [print_summary], as the text it writes. *)
Definition print_summary (a : AffectedPaths) : str :=
  let block (mark : str) (paths : list str) :=
    concat (map (fun p => mark ++ p ++ [NL]) paths) in
  "Success. Updated the following files:" ++ [NL]
  ++ block "A " (added a) ++ block "M " (modified a) ++ block "D " (deleted a).
End Operations.

#[global] Arguments remove_failure_was_side_effect_free : simpl never.
#[global] Arguments note_existing_path_delta_support : simpl never.

(** ** What the client relies on *)

(** The text at a path, when there is one. *)
Definition view {W} `{ExecutorFileSystem W} (w : W) (p : str) : option str :=
  ok (read_file_text p w).

(** A path writes go to directly: a regular file that is not a symbolic
    link, or nothing. *)
Definition regular {W} `{ExecutorFileSystem W} (w : W) (p : str) : bool :=
  match get_metadata p w with
  | Ok m => is_file m && negb (is_symlink m)
  | Err e => bool_decide (kind e = NotFound)
  end.

(** A regular file that is there, and not through a symbolic link. *)
Definition regular_file {W} `{ExecutorFileSystem W} (w : W) (p : str) : bool :=
  match get_metadata p w with Ok m => is_file m && negb (is_symlink m) | Err _ => false end.

(** Documented behaviour of the operations.  [same_file] tells that two paths
    lead to one file, by links of either kind, or would if it were there.
    - What has no metadata cannot be read.
    - A write to a regular path sets its text, and that of no path of another
      file; no write takes a regular file away, and one that fails with
      [NotFound] changes nothing.
    - Creating the directory of a path changes no text and leaves the path
      what it is: missing, or a regular file.
    - Removing a regular path takes its text and no other; a removal that
      fails can only have touched the files of its path.
    - None of them makes a link. *)
Class FsLaws (W : Type) `{ExecutorFileSystem W} := {
  same_file : W -> str -> str -> Prop;
  missing_unreadable p w e : get_metadata p w = Err e -> kind e = NotFound -> view w p = None;
  write_ok p c w w' : regular w p = true -> write_file p c w = (Ok tt, w') ->
    view w' p = Some c /\ forall q, q <> p -> ~ same_file w p q -> view w' q = view w q;
  write_keeps p c w q :
    regular_file w q = true -> regular_file (snd (write_file p c w)) q = true;
  write_not_found p c w e w' : write_file p c w = (Err e, w') -> kind e = NotFound ->
    forall q, view w' q = view w q /\ regular w' q = regular w q;
  write_links p c w q r : same_file (snd (write_file p c w)) q r -> same_file w q r;
  create_view p w q : view (snd (create_directory p w)) q = view w q;
  create_keeps p w q :
    regular_file w q = true -> regular_file (snd (create_directory p w)) q = true;
  create_regular p w q : path_parent q = Some p -> regular w q = true ->
    regular (snd (create_directory p w)) q = true;
  create_links p w q r : same_file (snd (create_directory p w)) q r -> same_file w q r;
  remove_ok p w w' : regular w p = true -> remove p w = (Ok tt, w') ->
    view w' p = None /\ forall q, q <> p -> ~ same_file w p q -> view w' q = view w q;
  remove_err p w e w' : remove p w = (Err e, w') ->
    forall q, q <> p -> ~ same_file w p q -> view w' q = view w q;
  remove_links p w q r : same_file (snd (remove p w)) q r -> same_file w q r;
}.

(** ** Undoing a delta *)

Definition upd (p : str) (c : option str) (v : str -> option str) : str -> option str :=
  fun q => if bool_decide (q = p) then c else v q.

Definition undo_change (c : AppliedPatchChange) (v : str -> option str) : str -> option str :=
  match ch_change c with
  | ChangeAdd _ overwritten => upd (ch_path c) overwritten v
  | ChangeDelete content => upd (ch_path c) (Some content) v
  | ChangeUpdate None old _ _ => upd (ch_path c) (Some old) v
  | ChangeUpdate (Some dest) old overwritten _ =>
      upd dest overwritten (upd (ch_path c) (Some old) v)
  end.

(** The last change is undone first. *)
Definition undo (cs : list AppliedPatchChange) (v : str -> option str) : str -> option str :=
  foldr undo_change v cs.

Lemma upd_eq p c v : upd p c v p = c.
Proof. unfold upd. by rewrite bool_decide_eq_true_2. Qed.
Lemma upd_ne p q c v : q <> p -> upd p c v q = v q.
Proof. intros. unfold upd. by rewrite bool_decide_eq_false_2. Qed.

(** What undoing gives a path depends on its own text only. *)
Lemma undo_change_local c v v' q : v q = v' q -> undo_change c v q = undo_change c v' q.
Proof.
  intros Hv. unfold undo_change, upd.
  destruct (ch_change c) as [| |[]]; repeat case_match; done.
Qed.

Lemma undo_local cs v v' q : v q = v' q -> undo cs v q = undo cs v' q.
Proof. intros Hv. induction cs as [|c cs IH]; [done|]. by apply undo_change_local. Qed.

Lemma undo_app cs ds v : undo (cs ++ ds) v = undo cs (undo ds v).
Proof. apply foldr_app. Qed.

Section Undo.
Context {W : Type} `{FsLaws W}.

Lemma note_existing_true p w b :
  note_existing_path_delta_support p w b = true -> b = true /\ regular w p = true.
Proof.
  unfold note_existing_path_delta_support, regular.
  destruct (get_metadata p w) as [m|e]; [destruct (_ && _)|case_bool_decide]; done.
Qed.

Lemma read_optional_true p w b c :
  read_optional_file_text_for_delta p w b = (c, true) ->
  b = true /\ regular w p = true /\ c = view w p.
Proof.
  unfold read_optional_file_text_for_delta, view.
  destruct (read_file_text p w) as [t|e]; [|case_bool_decide];
    intros [= <- Hn]; by apply note_existing_true in Hn as [? ?].
Qed.

(** The paths a patch names, as it names them to the file system. *)
Definition hunk_paths (h : Hunk) : list str :=
  match h with
  | AddFile path _ | DeleteFile path | UpdateFile path None _ => [resolve_path path]
  | UpdateFile path (Some dest) _ => [resolve_path path; resolve_path dest]
  end.
Definition touched_paths (hs : list Hunk) : list str := concat (map hunk_paths hs).

(** No path of [ps] leads to the file of [q], except [q] itself. *)
Definition alone (ps : list str) (w : W) (q : str) : Prop :=
  forall p, p ∈ ps -> q <> p -> ~ same_file w p q.

(** No link is new. *)
Definition no_new_links (w w' : W) : Prop := forall q r, same_file w' q r -> same_file w q r.

#[local] Instance no_new_links_preorder : PreOrder no_new_links.
Proof. split; [by intros w q r|]. intros w1 w2 w3 H12 H23 q r Hq. by apply H12, H23. Qed.

Lemma alone_later ps w w' q : no_new_links w w' -> alone ps w q -> alone ps w' q.
Proof. intros Hl Ha p Hp Hne Hs. by eapply Ha, Hl. Qed.

Lemma write_no_new_links p c w r w' : write_file p c w = (r, w') -> no_new_links w w'.
Proof. intros E q t Hs. apply (write_links p c). by rewrite E. Qed.
Lemma create_no_new_links p w r w' : create_directory p w = (r, w') -> no_new_links w w'.
Proof. intros E q t Hs. apply (create_links p). by rewrite E. Qed.
Lemma remove_no_new_links p w r w' : remove p w = (r, w') -> no_new_links w w'.
Proof. intros E q t Hs. apply (remove_links p). by rewrite E. Qed.

Lemma regular_file_regular w p : regular_file w p = true -> regular w p = true.
Proof. unfold regular_file, regular. by destruct (get_metadata p w). Qed.

(** A regular path that can be read is a file. *)
Lemma readable_regular_file w p t :
  regular w p = true -> view w p = Some t -> regular_file w p = true.
Proof.
  unfold regular, regular_file. destruct (get_metadata p w) as [m|e] eqn:E; [done|].
  intros Hk%bool_decide_eq_true. by rewrite (missing_unreadable p w e E Hk).
Qed.

Lemma write_file_keeps p c w r w' q :
  write_file p c w = (r, w') -> regular_file w q = true -> regular_file w' q = true.
Proof. intros E Hq. pose proof (write_keeps p c w q Hq) as H'. by rewrite E in H'. Qed.
Lemma create_directory_keeps p w r w' q :
  create_directory p w = (r, w') -> regular_file w q = true -> regular_file w' q = true.
Proof. intros E Hq. pose proof (create_keeps p w q Hq) as H'. by rewrite E in H'. Qed.

(** The directories the retry creates for a regular path. *)
Definition create_parents (p : str) (w : W) : result IoError unit * W :=
  match path_parent p with Some parent => create_directory parent w | None => (Ok tt, w) end.

Lemma create_parents_spec p w r w' :
  create_parents p w = (r, w') ->
  (forall q, view w' q = view w q) /\ (regular w p = true -> regular w' p = true) /\
  (forall q, regular_file w q = true -> regular_file w' q = true) /\ no_new_links w w'.
Proof.
  unfold create_parents. destruct (path_parent p) as [d|] eqn:Ed; [|by intros [= _ <-]].
  intros E. split_and!.
  - intros q. pose proof (create_view d w q) as Hv. by rewrite E in Hv.
  - intros Hr. pose proof (create_regular d w p Ed Hr) as Hr'. by rewrite E in Hr'.
  - intros q. by eapply create_directory_keeps.
  - by eapply create_no_new_links.
Qed.

Lemma write_retry_links p c w r w' :
  write_file_with_missing_parent_retry p c w = (r, w') -> no_new_links w w'.
Proof.
  unfold write_file_with_missing_parent_retry. fold (create_parents p).
  destruct (write_file p c w) as [[[]|e] w1] eqn:E1; [intros [= _ <-]; by eapply write_no_new_links|].
  apply write_no_new_links in E1. case_bool_decide; [|by intros [= _ <-]].
  fold (create_parents p w1). destruct (create_parents p w1) as [[[]|e'] w2] eqn:E2;
    apply create_parents_spec in E2 as (_ & _ & _ & E2); [|intros [= _ <-]; by etrans].
  destruct (write_file p c w2) as [[[]|e'] w3] eqn:E3; intros [= _ <-];
    apply write_no_new_links in E3; etrans; [done|etrans; done|done|etrans; done].
Qed.

(** The retry writes once: a [NotFound] write and the directories it
    creates leave the texts as they were. *)
Lemma write_retry_ok p c w w' :
  regular w p = true -> write_file_with_missing_parent_retry p c w = (Ok tt, w') ->
  view w' p = Some c /\ (forall q, q <> p -> ~ same_file w p q -> view w' q = view w q) /\
  (forall q, regular_file w q = true -> regular_file w' q = true).
Proof.
  intros Hr. unfold write_file_with_missing_parent_retry.
  destruct (write_file p c w) as [[[]|e] w1] eqn:E1.
  { intros [= <-]. pose proof (write_ok p c w w1 Hr E1) as [? ?]. split_and!; try done.
    intros q. by eapply write_file_keeps. }
  case_bool_decide as Hk; [|done]. fold (create_parents p w1).
  pose proof (write_not_found p c w e w1 E1 Hk) as H1.
  destruct (create_parents p w1) as [[[]|e'] w2] eqn:E2; [|done].
  apply create_parents_spec in E2 as (Hv2 & Hr2 & Hk2 & Hl2).
  destruct (write_file p c w2) as [[[]|e'] w3] eqn:E3; [|done]. intros [= <-].
  destruct (write_ok p c w2 w3) as [Hp Hq]; [|done|].
  { apply Hr2. by destruct (H1 p) as [_ ->]. }
  split_and!; [done| |].
  - intros q Hne Hs. destruct (H1 q) as [<- _]. rewrite Hq, Hv2; [done|done|].
    intros Hs2%Hl2. by apply Hs, (write_no_new_links _ _ _ _ _ E1).
  - intros q Hq1. eapply write_file_keeps, Hk2, write_file_keeps; done.
Qed.

Section Paths.
(** The paths the patch names. *)
Context (ps : list str).

(** A step is recorded faithfully when it makes no link and, as long as the
    delta still claims to be exact, it appended changes that undo what the
    step did to the files that only one path of the patch leads to. *)
Definition faithful_step (s s' : St W) : Prop :=
  no_new_links (world s) (world s') /\
  (d_exact (delta s') = true ->
   d_exact (delta s) = true /\
   exists cs, d_changes (delta s') = d_changes (delta s) ++ cs /\
     forall q, alone ps (world s) q -> undo cs (view (world s')) q = view (world s) q).

(** A step that changed nothing but the claim. *)
Lemma faithful_same s s' :
  d_changes (delta s') = d_changes (delta s) ->
  (d_exact (delta s') = true -> d_exact (delta s) = true) ->
  world s' = world s -> faithful_step s s'.
Proof.
  intros Hc He Hw. split; [by rewrite Hw|]. intros Hex. split; [auto|]. exists [].
  rewrite app_nil_r. split; [done|]. intros q _. by rewrite Hw.
Qed.

(** A step whose delta claims nothing. *)
Lemma faithful_inexact s s' :
  no_new_links (world s) (world s') -> d_exact (delta s') = false -> faithful_step s s'.
Proof. intros Hl He. split; [done|]. by rewrite He. Qed.

Lemma faithful_trans s1 s2 s3 :
  faithful_step s1 s2 -> faithful_step s2 s3 -> faithful_step s1 s3.
Proof.
  intros [Hl12 H12] [Hl23 H23]. split; [by etrans|]. intros Hex.
  destruct (H23 Hex) as (He2 & cs2 & Hc2 & Hu2).
  destruct (H12 He2) as (He1 & cs1 & Hc1 & Hu1). split; [done|].
  exists (cs1 ++ cs2). rewrite Hc2, Hc1, <- app_assoc. split; [done|].
  intros q Hq. rewrite undo_app, <- Hu1 by done. apply undo_local, Hu2.
  by eapply alone_later.
Qed.

Lemma apply_add_file_faithful ap p c s r s' :
  p ∈ ps -> apply_add_file ap p c s = (r, s') -> faithful_step s s'.
Proof.
  intros Hps. unfold apply_add_file.
  destruct (read_optional_file_text_for_delta p (world s) _) as [ov ex] eqn:Eov.
  destruct (write_file_with_missing_parent_retry p c _) as [[[]|e] w] eqn:Ew;
    pose proof (write_retry_links _ _ _ _ _ Ew) as Hl; intros [= <- <-];
    [|by apply faithful_inexact].
  split; [done|]. intros Hex. cbn in Hex. subst ex. apply read_optional_true in Eov as (Hb & Hr & ->).
  apply write_retry_ok in Ew as (Hp & Hq & _); [|done]. split; [done|].
  eexists; split; [reflexivity|]. intros q Ha. cbn. destruct (decide (q = p)) as [->|Hne].
  - by rewrite upd_eq.
  - rewrite upd_ne by done. apply Hq; [done|by apply Ha].
Qed.

Lemma remove_free_true p c w :
  remove_failure_was_side_effect_free p c w = true -> exists t, c = Some t /\ view w p = Some t.
Proof.
  unfold remove_failure_was_side_effect_free, view. destruct c as [t|]; [|done].
  destruct (read_file_text p w) as [t'|e]; [|done]. intros ->%bool_decide_eq_true. eauto.
Qed.

Lemma apply_delete_file_faithful ap p s r s' :
  p ∈ ps -> apply_delete_file ap p s = (r, s') -> faithful_step s s'.
Proof.
  intros Hps. unfold apply_delete_file.
  set (ex := note_existing_path_delta_support p (world s) _).
  cbn [world set_exact]. fold (view (world s) p).
  destruct (view (world s) p) as [content|] eqn:Hview; cbn [world set_exact];
  (destruct (ensure_not_directory p (world s)) as [[]|e];
   [destruct (remove p (world s)) as [[[]|e'] w] eqn:Er;
    pose proof (remove_no_new_links _ _ _ _ Er) as Hl|]);
  intros [= <- <-]; try (by apply faithful_inexact; cbn; rewrite ?andb_false_l);
  (split; [done|]; intros Hex; cbn in Hex).
  - apply note_existing_true in Hex as [Hb Hr]. split; [done|].
    eexists; split; [reflexivity|]. destruct (remove_ok p _ _ Hr Er) as [Hp Hq].
    intros q Ha. cbn. destruct (decide (q = p)) as [->|Hne].
    + by rewrite upd_eq.
    + rewrite upd_ne by done. apply Hq; [done|by apply Ha].
  - apply andb_true_iff in Hex as [Hx Hfree].
    apply note_existing_true in Hx as [Hb Hr]. apply remove_free_true in Hfree as (t & [= <-] & Ht).
    split; [done|]. exists []. rewrite app_nil_r. split; [done|]. intros q Ha. cbn.
    destruct (decide (q = p)) as [->|Hne]; [by rewrite Hview|].
    eapply remove_err; [done|done|by apply Ha].
  - apply note_existing_true in Hex as [Hb Hr]. split; [done|]. exists [].
    by rewrite app_nil_r.
Qed.

Lemma apply_move_faithful ap p d old new s r s' :
  p ∈ ps -> d ∈ ps -> view (world s) p = Some old -> regular (world s) p = true ->
  apply_move ap p d old new s = (r, s') -> faithful_step s s'.
Proof.
  intros Hpp Hdp Hview Hrp. unfold apply_move.
  destruct (read_optional_file_text_for_delta d (world s) _) as [ov ex] eqn:Eov.
  cbn [world set_exact].
  destruct (write_file_with_missing_parent_retry d new _) as [[[]|e] w] eqn:Ew;
    pose proof (write_retry_links _ _ _ _ _ Ew) as Hl;
    [|intros [= <- <-]; by apply faithful_inexact].
  cbn [world set_world push_change].
  assert (Hw : ex = true -> d_exact (delta s) = true /\ ov = view (world s) d /\
     view w d = Some new /\
     (forall q, q <> d -> ~ same_file (world s) d q -> view w q = view (world s) q) /\
     regular w p = true).
  { intros ->. apply read_optional_true in Eov as (Hb & Hr & ->).
    apply write_retry_ok in Ew as (Hd & Hq & Hreg); [|done]. split_and!; auto.
    by eapply regular_file_regular, Hreg, readable_regular_file. }
  assert (Hundo : ex = true -> forall q, alone ps (world s) q ->
    upd d ov (view w) q = view (world s) q).
  { intros (_ & -> & _ & Hq & _)%Hw q Ha. unfold upd. case_bool_decide; [by subst|].
    apply Hq; [done|by apply Ha]. }
  destruct (ensure_not_directory p w) as [[]|e].
  2: { intros [= <- <-]. split; [done|]. intros Hex. cbn in Hex. split; [by apply Hw|].
       eexists; split; [reflexivity|]. by apply Hundo. }
  destruct (remove p w) as [[[]|e'] w'] eqn:Er;
    pose proof (remove_no_new_links _ _ _ _ Er) as Hl'; intros [= <- <-];
    (split; [by etrans|]; intros Hex; cbn in Hex).
  - pose proof (Hw Hex) as (Hb & Hov & Hd & Hq & Hr). split; [done|].
    cbn. rewrite removelast_last. eexists; split; [reflexivity|].
    destruct (remove_ok p _ _ Hr Er) as [Hp' Hq']. intros q Ha. cbn. unfold undo_change, upd. cbn.
    case_bool_decide as Hqd; [by subst|]. case_bool_decide as Hqp; [by subst|].
    rewrite Hq', Hq; [done|done|by apply Ha|done|]. by apply (alone_later ps (world s) w q Hl Ha).
  - apply andb_true_iff in Hex as [Hx Hfree]. split; [by apply Hw|].
    apply remove_free_true in Hfree as (t & [= <-] & Ht).
    eexists; split; [reflexivity|]. intros q Ha. cbn. unfold undo_change. cbn.
    rewrite <- (Hundo Hx q Ha). unfold upd. case_bool_decide as Hqd; [done|].
    destruct (decide (q = p)) as [->|Hqp].
    + pose proof (Hw Hx) as (_ & _ & _ & Hq & _). rewrite Ht, Hq; [done|done|by apply Ha].
    + eapply remove_err; [done|done|]. by apply (alone_later ps (world s) w q Hl Ha).
Qed.

Lemma apply_update_file_faithful ap p mv cs s r s' :
  p ∈ ps -> (forall dest, mv = Some dest -> resolve_path dest ∈ ps) ->
  apply_update_file ap p mv cs s = Some (r, s') -> faithful_step s s'.
Proof.
  intros Hps Hmv. unfold apply_update_file.
  set (ex := note_existing_path_delta_support p (world s) _).
  unfold derive_new_contents_from_chunks. cbn [world set_exact].
  assert (Hnote : faithful_step s (set_exact ex s)).
  { apply faithful_same; [done| |done]. cbn. by intros [? _]%note_existing_true. }
  destruct (read_file_text p (world s)) as [old|e] eqn:Eold; [|by intros [= <- <-]].
  destruct (derive_new_text old p cs) as [[new|e]|]; [|by intros [= <- <-]|done].
  cbn [mbind option_bind].
  assert (Hview : view (world s) p = Some old) by (unfold view; by rewrite Eold).
  destruct mv as [dest|].
  - intros [= Hm]. eapply (faithful_trans s _ s' Hnote).
    destruct ex eqn:Hx.
    + apply note_existing_true in Hx as [Hb Hr]. by eapply apply_move_faithful; [|apply Hmv| | |].
    + revert Hm. unfold apply_move.
      destruct (read_optional_file_text_for_delta _ _ _) as [ov ex'] eqn:Eov.
      assert (ex' = false) as ->.
      { destruct ex'; [|done]. by apply read_optional_true in Eov as [? _]. }
      cbn [world set_exact].
      destruct (write_file_with_missing_parent_retry _ _ _) as [[[]|e] w] eqn:Ew;
        apply write_retry_links in Ew; [|intros [= <- <-]; by apply faithful_inexact].
      cbn [world set_world push_change].
      destruct (ensure_not_directory p w) as [[]|e];
        [|intros [= <- <-]; by apply faithful_inexact].
      destruct (remove p w) as [[[]|e'] w'] eqn:Er; apply remove_no_new_links in Er;
        intros [= <- <-]; (apply faithful_inexact; [by etrans|done]).
  - destruct (write_file p new (world s)) as [[[]|e] w] eqn:Ew;
      pose proof (write_no_new_links _ _ _ _ _ Ew) as Hl; intros [= <- <-];
      [|by apply faithful_inexact].
    split; [done|]. intros Hex. cbn in Hex.
    apply note_existing_true in Hex as [Hb Hr]. split; [done|].
    eexists; split; [reflexivity|]. destruct (write_ok p _ _ _ Hr Ew) as [Hp Hq].
    intros q Ha. cbn. unfold undo_change, upd. cbn.
    case_bool_decide as Hqp; [by subst|]. apply Hq; [done|by apply Ha].
Qed.

Lemma apply_hunk_faithful h s r s' :
  hunk_paths h ⊆ ps -> apply_hunk h s = Some (r, s') -> faithful_step s s'.
Proof.
  intros Hps. destruct h as [p c|p|p mv cs]; cbn.
  - intros [= Hadd]. eapply apply_add_file_faithful, Hadd. apply Hps. by left.
  - intros [= Hdel]. eapply apply_delete_file_faithful, Hdel. apply Hps. by left.
  - apply apply_update_file_faithful.
    + apply Hps. destruct mv; by left.
    + intros dest ->. apply Hps. right. by left.
Qed.

Lemma apply_hunk_loop_faithful hs s r s' :
  touched_paths hs ⊆ ps -> apply_hunk_loop hs s = Some (r, s') -> faithful_step s s'.
Proof.
  revert s. induction hs as [|h hs IH]; intros s Hps; cbn.
  - intros [= _ <-]. by apply faithful_same.
  - unfold touched_paths in Hps. cbn in Hps. apply list_subseteq_app_iff_l in Hps as [Hh Hhs].
    destruct (apply_hunk h s) as [[r1 s1]|] eqn:E; [|done]. cbn.
    apply apply_hunk_faithful in E; [|done]. destruct r1 as [[]|e].
    + intros ?%IH; [|done]. by eapply faithful_trans.
    + by intros [= _ <-].
Qed.
End Paths.
End Undo.

(** C1.  The delta can be trusted.  Whatever the outcome of
    [apply_hunks_to_files], success or a failure half way, if the delta it
    accumulated still claims to be exact then undoing its changes, last
    first, gives back the text that a path had before the patch.  This is for
    every path but those that lead, through a link, to a file which the patch
    names by another path. *)
Theorem exact_delta_undoes {W : Type} `{FsLaws W} (hs : list Hunk) (w : W)
    (r : result AnyError AffectedPaths) (s : St W)
    (Hrun : apply_hunks_to_files hs delta_empty w = Some (r, s))
    (Hexact : d_exact (delta s) = true) :
  forall p, alone (touched_paths hs) w p ->
    undo (d_changes (delta s)) (view (world s)) p = view w p.
Proof.
  unfold apply_hunks_to_files in Hrun. destruct (is_empty hs).
  - by injection Hrun as <- <-.
  - apply (apply_hunk_loop_faithful (touched_paths hs)) in Hrun as [_ Hrun]; [|done].
    by destruct (Hrun Hexact) as (_ & cs & -> & Hu).
Qed.

(** ** An in-memory file system *)

Module MemFs.
Definition not_found : IoError := mkIoError NotFound "No such file or directory".

#[export] Instance fs : ExecutorFileSystem (gmap str str) := {
  read_file_text p m := match m !! p with Some t => Ok t | None => Err not_found end;
  get_metadata p m :=
    match m !! p with Some _ => Ok (mkMetadata false true false) | None => Err not_found end;
  write_file p c m := (Ok tt, <[p := c]> m);
  create_directory p m := (Ok tt, m);
  remove p m :=
    match m !! p with Some _ => (Ok tt, delete p m) | None => (Err not_found, m) end;
  path_parent p := fst <$> rsplit_once 47%N p;
  resolve_path p := p;
}.

Lemma view_lookup (m : gmap str str) (p : str) : view m p = m !! p.
Proof. unfold view. cbn. by destruct (m !! p). Qed.

Lemma regular_all (m : gmap str str) (p : str) : regular m p = true.
Proof. unfold regular. cbn. by destruct (m !! p). Qed.

#[export] Program Instance laws : FsLaws (gmap str str) := {| same_file m p q := p = q |}.
Solve Obligations with (try (intros; done)).
Next Obligation. intros p m e. cbn. rewrite view_lookup. by destruct (m !! p). Qed.
Next Obligation.
  intros p c m m' _ [= <-]. rewrite view_lookup, lookup_insert_eq. split; [done|].
  intros q Hq _. by rewrite !view_lookup, lookup_insert_ne.
Qed.
Next Obligation.
  intros p c m q. unfold regular_file. cbn. destruct (decide (p = q)) as [->|Hne];
    [by rewrite lookup_insert_eq|by rewrite lookup_insert_ne].
Qed.
Next Obligation.
  intros p m m' _. cbn. destruct (m !! p); [|done]. intros [= <-].
  rewrite view_lookup, lookup_delete_eq. split; [done|].
  intros q Hq _. by rewrite !view_lookup, lookup_delete_ne.
Qed.
Next Obligation. intros p m e m'. cbn. destruct (m !! p); [done|]. by intros [= _ <-]. Qed.

(** What a hunk means for the contents of the files. *)
Definition spec_hunk (h : Hunk) (m : gmap str str) : option (gmap str str) :=
  match h with
  | AddFile p c => Some (<[p := c]> m)
  | DeleteFile p => _ ← m !! p; Some (delete p m)
  | UpdateFile p mv cs =>
      old ← m !! p;
      r ← derive_new_text old p cs;
      new ← ok r;
      Some (match mv with
            | Some d => delete p (<[d := new]> m)
            | None => <[p := new]> m
            end)
  end.

Fixpoint spec_hunks (hs : list Hunk) (m : gmap str str) : option (gmap str str) :=
  match hs with
  | [] => Some m
  | h :: rest => m ← spec_hunk h m; spec_hunks rest m
  end.

Definition summary (a : AffectedPaths) (h : Hunk) : AffectedPaths :=
  match h with
  | AddFile _ _ => mkAffected (added a ++ [hunk_path h]) (modified a) (deleted a)
  | DeleteFile _ => mkAffected (added a) (modified a) (deleted a ++ [hunk_path h])
  | UpdateFile _ _ _ => mkAffected (added a) (modified a ++ [hunk_path h]) (deleted a)
  end.

Lemma note_mem (p : str) (m : gmap str str) b : note_existing_path_delta_support p m b = b.
Proof. unfold note_existing_path_delta_support. cbn. by destruct (m !! p). Qed.

Lemma read_optional_mem (p : str) (m : gmap str str) (b : bool) :
  read_optional_file_text_for_delta p m b = (m !! p, b).
Proof.
  unfold read_optional_file_text_for_delta. rewrite note_mem. cbn. by destruct (m !! p).
Qed.

Lemma apply_hunk_mem (h : Hunk) (s : St (gmap str str)) :
  exists r s', apply_hunk h s = Some (r, s') /\
    match spec_hunk h (world s) with
    | Some m' => r = Ok tt /\ world s' = m' /\ affected s' = summary (affected s) h /\
                 d_exact (delta s') = d_exact (delta s)
    | None => is_ok r = false /\ world s' = world s
    end.
Proof.
  destruct s as [m [ch ex] a]. destruct h as [p c|p|p mv cs]; cbn.
  - unfold apply_add_file. cbn. rewrite read_optional_mem. eexists _, _. by split_and!.
  - unfold apply_delete_file. cbn. rewrite note_mem. unfold ensure_not_directory. cbn.
    destruct (m !! p) eqn:E; cbn; rewrite ?E; cbn; eexists _, _; by split_and!.
  - unfold apply_update_file, derive_new_contents_from_chunks. cbn. rewrite note_mem.
    destruct (m !! p) as [old|] eqn:E; cbn; [|eexists _, _; by split_and!].
    destruct (derive_new_text_total old p cs) as [[new|e] ->]; cbn;
      [|eexists _, _; by split_and!].
    destruct mv as [d|]; cbn; [|eexists _, _; by split_and!].
    unfold apply_move. cbn. rewrite read_optional_mem. cbn.
    unfold ensure_not_directory. cbn.
    destruct (<[d:=new]> m !! p) eqn:E2; cbn; [eexists _, _; by split_and!|].
    destruct (decide (d = p)) as [->|Hne].
    + by rewrite lookup_insert_eq in E2.
    + rewrite lookup_insert_ne in E2 by done. congruence.
Qed.

Lemma apply_hunk_loop_mem (hs : list Hunk) (s : St (gmap str str)) :
  exists r s', apply_hunk_loop hs s = Some (r, s') /\
    match spec_hunks hs (world s) with
    | Some m' => r = Ok (foldl summary (affected s) hs) /\ world s' = m' /\
                 d_exact (delta s') = d_exact (delta s)
    | None => is_ok r = false
    end.
Proof.
  revert s. induction hs as [|h hs IH]; intros s; cbn [apply_hunk_loop spec_hunks foldl].
  - eexists _, _. by split_and!.
  - destruct (apply_hunk_mem h s) as (r1 & s1 & -> & Hspec). cbn [mbind option_bind].
    destruct (spec_hunk h (world s)) as [m1|]; cbn [mbind option_bind].
    + destruct Hspec as (-> & <- & <- & Hex). rewrite <- Hex.
      destruct (IH s1) as (r & s' & Hr & Hm). by exists r, s'.
    + destruct Hspec as [Hr1 _]. destruct r1 as [[]|e]; [done|].
      by eexists _, _.
Qed.
End MemFs.
Import MemFs.

(** ** A file system with directories and hard links

    Names of the tree are directories or entries of a file; several names may
    be entries of one file.  Writing needs the directory of the name. *)

Module LinkFs.
Inductive Node := Directory | Entry (file : N).

#[global] Instance Node_eq_dec : EqDecision Node.
Proof. solve_decision. Defined.

Record Tree := mkTree { names : gmap str Node; texts : gmap N str }.

Definition file_of (node : Node) : option N :=
  match node with Entry file => Some file | Directory => None end.

Definition parent_of (p : str) : option str := fst <$> rsplit_once 47%N p.

(** The directories above a path, the nearest first; the root is not named. *)
Fixpoint parents (fuel : nat) (p : str) : list str :=
  match fuel, parent_of p with
  | S fuel, Some parent => if is_empty parent then [] else parent :: parents fuel parent
  | _, _ => []
  end.
Definition above (p : str) : list str := parents (length p) p.

Definition is_entry (t : Tree) (p : str) : bool :=
  match names t !! p with Some (Entry _) => true | _ => false end.
Definition has_directory (t : Tree) (p : str) : bool :=
  match parent_of p with
  | Some parent => is_empty parent || bool_decide (names t !! parent = Some Directory)
  | None => true
  end.

Definition not_found : IoError := mkIoError NotFound "No such file or directory".
Definition other : IoError := mkIoError OtherKind "Not a directory".

(** Why a name that is not there cannot be reached. *)
Definition missing (t : Tree) (p : str) : IoError :=
  if existsb (is_entry t) (above p) then other else not_found.

Definition lookup_text (t : Tree) (p : str) : option str :=
  match names t !! p with Some (Entry file) => texts t !! file | _ => None end.

Definition fresh_file (t : Tree) : N :=
  N.succ (foldr N.max 0%N (omap (fun x => file_of x.2) (map_to_list (names t)))).

(** [create_dir_all]: the directories are created from the root on. *)
Definition make_directory (p : str) (r : result IoError unit * Tree) : result IoError unit * Tree :=
  let '(r, t) := r in
  match r, names t !! p with
  | Err e, _ => (Err e, t)
  | Ok _, Some Directory => (Ok tt, t)
  | Ok _, Some (Entry _) => (Err other, t)
  | Ok _, None => (Ok tt, mkTree (<[p := Directory]> (names t)) (texts t))
  end.
Definition make_directories (p : str) (t : Tree) : result IoError unit * Tree :=
  foldr make_directory (Ok tt, t) (p :: above p).

#[global] Instance fs : ExecutorFileSystem Tree := {
  read_file_text p t :=
    match names t !! p with
    | Some _ => match lookup_text t p with Some text => Ok text | None => Err other end
    | None => Err (missing t p)
    end;
  get_metadata p t :=
    match names t !! p with
    | Some Directory => Ok (mkMetadata true false false)
    | Some (Entry _) => Ok (mkMetadata false true false)
    | None => Err (missing t p)
    end;
  write_file p c t :=
    match names t !! p with
    | Some Directory => (Err other, t)
    | Some (Entry file) => (Ok tt, mkTree (names t) (<[file := c]> (texts t)))
    | None =>
        if has_directory t p then
          let file := fresh_file t in
          (Ok tt, mkTree (<[p := Entry file]> (names t)) (<[file := c]> (texts t)))
        else (Err (missing t p), t)
    end;
  create_directory p t := make_directories p t;
  remove p t :=
    match names t !! p with
    | Some Directory => (Err other, t)
    | Some (Entry _) => (Ok tt, mkTree (delete p (names t)) (texts t))
    | None => (Err (missing t p), t)
    end;
  path_parent := parent_of;
  resolve_path p := p;
}.

(** Two names of one file. *)
Definition linked (t : Tree) (p q : str) : Prop :=
  p = q \/ exists file, names t !! p = Some (Entry file) /\ names t !! q = Some (Entry file).

Lemma view_text (t : Tree) p : view t p = lookup_text t p.
Proof.
  unfold view. cbn. unfold lookup_text.
  destruct (names t !! p) as [[|file]|]; [done| |done]. by destruct (texts t !! file).
Qed.

Lemma is_regular_file (t : Tree) p : regular_file t p = is_entry t p.
Proof. unfold regular_file, is_entry. cbn. by destruct (names t !! p) as [[]|]. Qed.

Lemma is_regular (t : Tree) p :
  regular t p = match names t !! p with
                | Some Directory => false
                | Some (Entry _) => true
                | None => negb (existsb (is_entry t) (above p))
                end.
Proof.
  unfold regular. cbn. destruct (names t !! p) as [[]|]; [done|done|].
  unfold missing. by destruct (existsb _ _).
Qed.

Lemma fresh_file_new (t : Tree) q : names t !! q <> Some (Entry (fresh_file t)).
Proof.
  intros Hq%elem_of_map_to_list. unfold fresh_file in Hq.
  assert (forall (f : N) l, f ∈ l -> (f <= foldr N.max 0 l)%N) as Hmax.
  { intros f l. induction l as [|x l IH]; intros Hf; [by apply not_elem_of_nil in Hf|].
    cbn. apply elem_of_cons in Hf as [->|Hf%IH]; lia. }
  assert (fresh_file t <= N.pred (fresh_file t))%N as Hle; [|unfold fresh_file in Hle; lia].
  unfold fresh_file at 2. rewrite N.pred_succ. apply Hmax, list_elem_of_omap. by eexists (q, _).
Qed.

(** A write sets the text of the entries of one file. *)
Lemma write_text (t t' : Tree) p c :
  write_file p c t = (Ok tt, t') ->
  view t' p = Some c /\ forall q, ~ linked t p q -> view t' q = view t q.
Proof.
  setoid_rewrite view_text. unfold lookup_text. cbn.
  destruct (names t !! p) as [[|file]|] eqn:Ep; [done|intros [= <-]|].
  - cbn. rewrite Ep. cbn. split; [by rewrite lookup_insert_eq|]. intros q Hq.
    destruct (names t !! q) as [[|file']|] eqn:Eq; [done| |done]. cbn.
    apply lookup_insert_ne. intros ->. apply Hq. right. by exists file'.
  - destruct (has_directory t p); [|done]. intros [= <-]. cbn.
    split; [by rewrite !lookup_insert_eq|]. intros q Hq.
    rewrite lookup_insert_ne by (intros ->; apply Hq; by left).
    destruct (names t !! q) as [[|file']|] eqn:Eq; [done| |done]. cbn.
    apply lookup_insert_ne. intros <-. by eapply fresh_file_new.
Qed.

Lemma remove_text (t t' : Tree) p :
  remove p t = (Ok tt, t') -> view t' p = None /\ forall q, q <> p -> view t' q = view t q.
Proof.
  setoid_rewrite view_text. unfold lookup_text. cbn.
  destruct (names t !! p) as [[|file]|]; [done|intros [= <-]|done].
  cbn. rewrite lookup_delete_eq. split; [done|]. intros q Hq. by rewrite lookup_delete_ne.
Qed.

(** Only directories are created, where there was nothing. *)
Lemma make_directories_spec l (t : Tree) :
  let t' := snd (foldr make_directory (Ok tt, t) l) in
  texts t' = texts t /\
  forall q, names t' !! q = names t !! q
            \/ names t !! q = None /\ names t' !! q = Some Directory /\ q ∈ l.
Proof.
  induction l as [|p l IH]; cbn; [split; [done|by left]|]. revert IH.
  destruct (foldr make_directory (Ok tt, t) l) as [r t1]. cbn. intros [Ht IH].
  unfold make_directory. destruct r as [[]|e]; [destruct (names t1 !! p) as [[]|] eqn:Ep|];
    cbn; (split; [done|]); intros q; destruct (IH q) as [Hq|(? & ? & ?)]; try (by left);
    try (by right; split_and!; [| |right]).
  - destruct (decide (q = p)) as [->|Hne]; [right|left].
    + rewrite lookup_insert_eq, <- Hq. split_and!; [done|done|by left].
    + by rewrite lookup_insert_ne.
  - right. split_and!; [done| |by right]. destruct (decide (q = p)) as [->|Hne];
      [by rewrite lookup_insert_eq|by rewrite lookup_insert_ne].
Qed.

Lemma make_directories_entry p (t : Tree) q :
  is_entry (snd (make_directories p t)) q = is_entry t q.
Proof.
  destruct (make_directories_spec (p :: above p) t) as [_ H].
  unfold is_entry, make_directories. destruct (H q) as [->|(-> & -> & _)]; done.
Qed.

Lemma parent_shorter p d : parent_of p = Some d -> length d < length p.
Proof.
  unfold parent_of. destruct (rsplit_once 47%N p) as [[a b]|] eqn:E; [|done].
  intros [= ->]. apply rsplit_once_Some in E as [-> _]. rewrite length_app. cbn. lia.
Qed.

Lemma parents_shorter fuel p q : q ∈ parents fuel p -> length q < length p.
Proof.
  revert p. induction fuel as [|fuel IH]; intros p; cbn; [by intros ?%not_elem_of_nil|].
  destruct (parent_of p) as [d|] eqn:Ed; [|by intros ?%not_elem_of_nil].
  apply parent_shorter in Ed. destruct (is_empty d); [by intros ?%not_elem_of_nil|].
  intros [->|Hq%IH]%elem_of_cons; lia.
Qed.

#[global] Program Instance laws : FsLaws Tree := {| same_file := linked |}.
Solve Obligations with (try (intros; done)).
Next Obligation.
  intros p t e. cbn. rewrite view_text. unfold lookup_text.
  by destruct (names t !! p) as [[]|].
Qed.
Next Obligation. intros p c t t' _ Hw. apply write_text in Hw as [? H]. split; [done|]. auto. Qed.
Next Obligation.
  intros p c t q. rewrite !is_regular_file. unfold is_entry. cbn.
  destruct (names t !! p) as [[|file]|] eqn:Ep; cbn; [done|done|].
  destruct (has_directory t p); [|done]. cbn. destruct (decide (p = q)) as [->|Hne];
    [by rewrite Ep|by rewrite lookup_insert_ne].
Qed.
Next Obligation.
  intros p c t e t'. cbn. destruct (names t !! p) as [[|file]|]; [by intros [= _ <-]|done|].
  destruct (has_directory t p); [done|]. by intros [= _ <-].
Qed.
Next Obligation.
  intros p c t q r. cbn. destruct (names t !! p) as [[|file]|] eqn:Ep; cbn; [done|done|].
  destruct (has_directory t p); [|done]. intros [->|(file & Hq & Hr)]; [by left|]. cbn in Hq, Hr.
  destruct (decide (q = p)) as [->|Hpq], (decide (r = p)) as [->|Hpr]; [by left| | |].
  - rewrite lookup_insert_eq in Hq. rewrite lookup_insert_ne in Hr by done.
    injection Hq as <-. by apply fresh_file_new in Hr.
  - rewrite lookup_insert_eq in Hr. rewrite lookup_insert_ne in Hq by done.
    injection Hr as <-. by apply fresh_file_new in Hq.
  - rewrite lookup_insert_ne in Hq, Hr by done. right. by exists file.
Qed.
Next Obligation.
  intros p t q. rewrite !view_text. unfold lookup_text.
  change (create_directory p t) with (make_directories p t).
  destruct (make_directories_spec (p :: above p) t) as [Ht H]. fold (make_directories p t) in Ht, H.
  rewrite Ht. destruct (H q) as [->|(-> & -> & _)]; done.
Qed.
Next Obligation. intros p t q. rewrite !is_regular_file. by rewrite make_directories_entry. Qed.
Next Obligation.
  intros p t q Hp. rewrite !is_regular. change (create_directory p t) with (make_directories p t).
  destruct (make_directories_spec (p :: above p) t) as [_ H]. fold (make_directories p t) in H.
  destruct (H q) as [->|(_ & _ & Hq)].
  - destruct (names t !! q) as [[]|]; [done|done|].
    intros Hq. rewrite <- Hq. f_equal. clear Hq. induction (above q) as [|a l IH]; [done|].
    cbn [existsb]. by rewrite make_directories_entry, IH.
  - apply parent_shorter in Hp. apply elem_of_cons in Hq as [->|Hq%parents_shorter]; lia.
Qed.
Next Obligation.
  intros p t q r. change (create_directory p t) with (make_directories p t).
  destruct (make_directories_spec (p :: above p) t) as [_ H].
  fold (make_directories p t) in H. intros [->|(file & Hq & Hr)]; [by left|]. right. exists file.
  destruct (H q) as [<-|(_ & E & _)], (H r) as [<-|(_ & E' & _)]; try congruence; done.
Qed.
Next Obligation. intros p t t' _ Hr. apply remove_text in Hr as [? H]. split; [done|]. auto. Qed.
Next Obligation.
  intros p t e t'. cbn. by destruct (names t !! p) as [[]|]; intros [= _ <-].
Qed.
Next Obligation.
  intros p t q r. cbn. destruct (names t !! p) as [[|f]|]; cbn; [done| |done].
  intros [->|(file & Hq & Hr)]; [by left|]. right. exists file.
  cbn in Hq, Hr. by apply lookup_delete_Some in Hq as [_ ?], Hr as [_ ?].
Qed.
End LinkFs.

(** C2.  Refinement: over the in-memory file system the whole
    read-match-write procedure is the map transformation the patch denotes:
    it succeeds exactly when every hunk makes sense in turn, then leaves the
    transformed files and reports each hunk's path, in order, under the
    right heading, with an exact delta. *)
Theorem apply_hunks_refines (hs : list Hunk) (m : gmap str str) (Hne : hs <> []) :
  exists r s, apply_hunks_to_files hs delta_empty m = Some (r, s) /\
    match MemFs.spec_hunks hs m with
    | Some m' => r = Ok (foldl MemFs.summary (mkAffected [] [] []) hs) /\ world s = m' /\
                 d_exact (delta s) = true
    | None => is_ok r = false
    end.
Proof.
  unfold apply_hunks_to_files. rewrite (proj2 (is_empty_false hs) Hne).
  destruct (MemFs.apply_hunk_loop_mem hs (mkSt m delta_empty (mkAffected [] [] [])))
    as (r & s & -> & Hspec). by exists r, s.
Qed.

Definition sample_fs : gmap str str :=
  <["a.txt" := unlines ["one"; "two"]]> (<["b.txt" := unlines ["bye"]]> ∅).
Definition sample_patch : list Hunk :=
  [ AddFile "c.txt" (unlines ["new"]); DeleteFile "b.txt";
    UpdateFile "a.txt" (Some "d.txt") [mkChunk None ["two"] ["2"] false] ].

Lemma apply_hunks_refines_witness :
  exists r s, apply_hunks_to_files sample_patch delta_empty sample_fs = Some (r, s) /\
    world s !! "d.txt" = Some (unlines ["one"; "2"]).
Proof.
  destruct (apply_hunks_refines sample_patch sample_fs ltac:(discriminate))
    as (r & s & Hr & Hspec).
  exists r, s. split; [exact Hr|].
  assert (Hm : (m ← MemFs.spec_hunks sample_patch sample_fs; m !! "d.txt")
               = Some (unlines ["one"; "2"])) by (vm_compute; reflexivity).
  destruct (MemFs.spec_hunks sample_patch sample_fs) as [m'|]; [|discriminate Hm].
  destruct Hspec as (_ & -> & _). exact Hm.
Defined.

(** A patch that needs new directories, moves, removes and then fails: an
    update does not find its lines.  ["/w/l"] is a second name of ["/w/a"]. *)
Definition sample_tree : LinkFs.Tree :=
  LinkFs.mkTree
    (<["/w" := LinkFs.Directory]> (<["/w/a" := LinkFs.Entry 1]> (<["/w/l" := LinkFs.Entry 1]>
      (<["/w/b" := LinkFs.Entry 2]> (<["/w/c" := LinkFs.Entry 3]> ∅)))))
    (<[1%N := unlines ["one"; "two"]]> (<[2%N := unlines ["bye"]]> (<[3%N := unlines ["c"]]> ∅))).
Definition failing_patch : list Hunk :=
  [ AddFile "/w/new/dir/x" (unlines ["x"]); DeleteFile "/w/b";
    UpdateFile "/w/a" (Some "/w/moved/a") [mkChunk None ["two"] ["2"] false];
    UpdateFile "/w/c" None [mkChunk None ["absent"] ["d"] false] ].

Lemma exact_delta_undoes_witness :
  exists r (s : St LinkFs.Tree),
    apply_hunks_to_files failing_patch delta_empty sample_tree = Some (r, s)
    /\ is_ok r = false /\ length (d_changes (delta s)) = 3
    /\ view (world s) "/w/a" = None
    /\ undo (d_changes (delta s)) (view (world s)) "/w/a" = Some (unlines ["one"; "two"])
    /\ undo (d_changes (delta s)) (view (world s)) "/w/b" = Some (unlines ["bye"])
    /\ undo (d_changes (delta s)) (view (world s)) "/w/new/dir/x" = None.
Proof.
  assert (forall p, p ∈ (["/w/a"; "/w/b"; "/w/new/dir/x"] : list str) ->
    alone (touched_paths failing_patch) sample_tree p) as Halone.
  { intros p Hp q Hq Hne [->|(file & Eq & Ep)]; [done|].
    repeat (apply elem_of_cons in Hp as [->|Hp]); [..|by apply not_elem_of_nil in Hp];
    repeat (apply elem_of_cons in Hq as [->|Hq]); try (by apply not_elem_of_nil in Hq);
    first [by destruct Hne|vm_compute in Ep, Eq; congruence]. }
  destruct (apply_hunks_to_files failing_patch delta_empty sample_tree) as [[r s]|] eqn:E;
    [|vm_compute in E; discriminate E].
  assert (d_exact (delta s) = true) as Hexact
    by (vm_compute in E; injection E as <- <-; vm_compute; reflexivity).
  pose proof (exact_delta_undoes failing_patch sample_tree r s E Hexact) as Hundo.
  exists r, s. split; [reflexivity|].
  rewrite !Hundo by (apply Halone; by repeat constructor).
  vm_compute in E. injection E as <- <-. by vm_compute.
Defined.

(**  A hunk that moves a file onto itself loses the file: the new
    contents are written to the destination and the source, which is the
    same path, is then removed; the call still succeeds and reports the
    file as modified. *)
Theorem self_move_deletes (p old new : str) (cs : list UpdateFileChunk) (m : gmap str str)
    (Hold : m !! p = Some old) (Hnew : derive_new_text old p cs = Some (Ok new)) :
  exists s, apply_hunks_to_files [UpdateFile p (Some p) cs] delta_empty m
            = Some (Ok (mkAffected [] [p] []), s) /\
    world s !! p = None.
Proof.
  destruct (MemFs.apply_hunk_loop_mem [UpdateFile p (Some p) cs]
              (mkSt m delta_empty (mkAffected [] [] []))) as (r & s & Hr & Hs).
  cbn [MemFs.spec_hunks MemFs.spec_hunk world] in Hs. rewrite Hold in Hs.
  cbn [mbind option_bind] in Hs. rewrite Hnew in Hs. cbn in Hs. destruct Hs as (-> & Hw & _).
  exists s. split; [exact Hr|]. rewrite Hw. apply lookup_delete_eq.
Qed.

Lemma self_move_deletes_witness :
  exists s, apply_hunks_to_files
      [UpdateFile "a.txt" (Some "a.txt") [mkChunk None ["two"] ["2"] false]]
      delta_empty sample_fs
    = Some (Ok (mkAffected [] ["a.txt"] []), s) /\ world s !! "a.txt" = None.
Proof.
  apply (self_move_deletes "a.txt" (unlines ["one"; "two"]) (unlines ["one"; "2"])).
  - vm_compute. reflexivity.
  - vm_compute. reflexivity.
Defined.
