(* ===== verification/AbsolutePath.v ===== *)
(** * AbsolutePath: lexical normalisation of paths

    [codex-rs/utils/absolute-path] on Unix.  A [Path] of the standard
    library is compared by its components, so a path buffer under
    construction is the list of its components; [components] and [render]
    go between the text of a path and that list. *)

From S2P Require Import Prelude RustStr.
Open Scope str_scope.

Definition SLASH : char := 47%N.

(** ** std::path on Unix *)

Inductive Component :=
| RootDir
| CurDir
| ParentDir
| Normal (name : str).

#[export] Instance Component_eq_dec : EqDecision Component.
Proof. solve_decision. Defined.

Abbreviation PathBuf := (list Component).

Definition is_absolute (p : str) : bool := starts_with p "/".

(** Repeated separators and inner [.] segments are not components. *)
Definition segment_component (s : str) : option Component :=
  if decide (s = []) then None
  else if decide (s = ".") then None
  else if decide (s = "..") then Some ParentDir
  else Some (Normal s).

Definition leading_component (p : str) : PathBuf :=
  if is_absolute p then [RootDir]
  else if decide (head (split SLASH p) = Some ".") then [CurDir] else [].

Definition components (p : str) : PathBuf :=
  leading_component p ++ omap segment_component (split SLASH p).

Definition component_str (c : Component) : str :=
  match c with RootDir => "/" | CurDir => "." | ParentDir => ".." | Normal s => s end.

Definition render (p : PathBuf) : str :=
  match p with
  | RootDir :: r => "/" ++ join "/" (map component_str r)
  | _ => join "/" (map component_str p)
  end.

(** [PathBuf::pop] truncates to [Path::parent]: nothing happens when the
    path is empty or ends in a root. *)
Definition pop (p : PathBuf) : PathBuf :=
  match last p with
  | None | Some RootDir => p
  | Some _ => take (pred (length p)) p
  end.

(** [PathBuf::push] of one component. *)
Definition push (p : PathBuf) (c : Component) : PathBuf :=
  match c with RootDir => [RootDir] | _ => p ++ [c] end.

(** [Path::join] on the text of paths. *)
Definition path_join (base p : str) : str :=
  if is_absolute p then p
  else if decide (base = []) then p
  else if ends_with base "/" then base ++ p
  else base ++ "/" ++ p.

Definition file_name (p : PathBuf) : option str :=
  match last p with Some (Normal s) => Some s | _ => None end.

Definition parent (p : PathBuf) : option PathBuf :=
  match last p with
  | None | Some RootDir => None
  | Some _ => Some (take (pred (length p)) p)
  end.

(** ** absolutize.rs *)

Definition normalize_step (normalized : PathBuf) (component : Component) : PathBuf :=
  match component with
  | CurDir => normalized
  | ParentDir => pop normalized
  | RootDir | Normal _ => push normalized component
  end.

Definition normalize_path (path : str) : PathBuf :=
  let normalized := fold_left normalize_step (components path) [] in
  if is_empty normalized then [CurDir] else normalized.

Definition path_with_base (path base_path : str) : str :=
  if is_absolute path then path else path_join base_path path.

Definition absolutize_from (path base_path : str) : PathBuf :=
  normalize_path (path_with_base path base_path).

(** ** lib.rs *)

Inductive PathError := NoCurrentDir | NotAbsolute (p : str).

Section Environment.

(** [dirs::home_dir()] and [std::env::current_dir()]. *)
Context (home_dir : option str) (current_dir : result PathError str).

Definition absolutize (path : str) : result PathError PathBuf :=
  if is_absolute path then Ok (normalize_path path)
  else match current_dir with
       | Err e => Err e
       | Ok cwd => Ok (absolutize_from path cwd)
       end.

Definition maybe_expand_home_directory (path : str) : str :=
  match home_dir, strip_prefix "~" path with
  | Some home, Some rest =>
      if is_empty rest then home
      else match strip_prefix "/" rest with
           | Some rest => path_join home (trim_start_matches (N.eqb SLASH) rest)
           | None => path
           end
  | _, _ => path
  end.

Definition resolve_path_against_base (path base_path : str) : PathBuf :=
  absolutize_from (maybe_expand_home_directory path) base_path.

Definition from_absolute_path (path : str) : result PathError PathBuf :=
  absolutize (maybe_expand_home_directory path).

Definition from_absolute_path_checked (path : str) : result PathError PathBuf :=
  let expanded := maybe_expand_home_directory path in
  if negb (is_absolute expanded) then Err (NotAbsolute path)
  else Ok (absolutize_from expanded "/").

Definition relative_to_current_dir (path : str) : result PathError PathBuf :=
  match current_dir with
  | Err e => Err e
  | Ok cwd => Ok (resolve_path_against_base path cwd)
  end.

Definition abs_join (self : PathBuf) (path : str) : PathBuf :=
  resolve_path_against_base path (render self).

End Environment.

(** ** Lemmas on components *)

Definition proper_name (s : str) : Prop :=
  s <> [] /\ s <> "." /\ s <> ".." /\ no_char SLASH s.

(** The normal form: a root and proper names. *)
Definition normal_abs (p : PathBuf) : Prop :=
  exists names, Forall proper_name names /\ p = RootDir :: map Normal names.

Lemma is_absolute_cons p : is_absolute p = true <-> exists r, p = SLASH :: r.
Proof. unfold is_absolute. rewrite starts_with_spec. done. Qed.

Lemma is_absolute_slash r : is_absolute (SLASH :: r) = true.
Proof. apply is_absolute_cons. eauto. Qed.

Lemma split_app_gen c s t : split c (s ++ c :: t) = split c s ++ split c t.
Proof.
  induction s as [|x s IH]; cbn [app split].
  - by rewrite N.eqb_refl.
  - destruct (N.eqb x c) eqn:E; rewrite IH; [done|].
    destruct (split c s) eqn:Es; [by destruct (split_nonempty c s)|done].
Qed.

Lemma segment_proper s : proper_name s -> segment_component s = Some (Normal s).
Proof.
  intros (H1 & H2 & H3 & _). unfold segment_component.
  by rewrite !decide_False by done.
Qed.

(** What a segment of a path can be. *)
Definition segment_like (c : Component) : Prop :=
  match c with ParentDir => True | Normal s => proper_name s | _ => False end.

Lemma segments_like p : Forall segment_like (omap segment_component (split SLASH p)).
Proof.
  induction (split_Forall_no_char SLASH p) as [|s l Hs _ IH]; cbn; [constructor|].
  unfold segment_component at 1.
  destruct (decide (s = [])); [done|]. destruct (decide (s = ".")); [done|].
  destruct (decide (s = "..")); cbn; constructor; done.
Qed.

Lemma segments_names ns :
  Forall proper_name ns -> omap segment_component ns = map Normal ns.
Proof.
  induction 1 as [|s l Hs _ IH]; [done|]. cbn. by rewrite segment_proper, IH.
Qed.

(** ** Normalisation *)

Abbreviation abs_path ns := (RootDir :: map Normal ns).
Abbreviation run := (fold_left normalize_step).

Lemma pop_abs ns : pop (abs_path ns) = abs_path (take (pred (length ns)) ns).
Proof.
  unfold pop. destruct ns as [|x l _] using rev_ind; [done|].
  rewrite map_app, app_comm_cons. cbn [map]. rewrite last_snoc.
  rewrite length_app. cbn [length]. rewrite length_map, !length_app. cbn [length].
  replace (pred (S (length l) + 1)) with (length (RootDir :: map Normal l))
    by (cbn; rewrite length_map; lia).
  rewrite take_app_length.
  replace (pred (length l + 1)) with (length l) by lia. by rewrite take_app_length.
Qed.

Lemma run_normal cs p : normal_abs p -> Forall segment_like cs -> normal_abs (run cs p).
Proof.
  intros Hp Hcs. revert p Hp.
  induction Hcs as [|c cs Hc _ IH]; intros p (ns & Hns & ->); cbn [fold_left].
  { by exists ns. }
  apply IH. destruct c as [| | |s]; try done; cbn [normalize_step].
  - rewrite pop_abs. eexists; split; [|done]. by apply Forall_take.
  - exists (ns ++ [s]). split; [apply Forall_app; split; [done|by apply Forall_singleton]|].
    cbn. by rewrite map_app.
Qed.

Lemma run_names ns p : run (map Normal ns) p = p ++ map Normal ns.
Proof.
  revert p. induction ns as [|s l IH]; intros p; cbn; [by rewrite app_nil_r|].
  rewrite IH. by rewrite <- app_assoc.
Qed.

Lemma normal_root : normal_abs [RootDir].
Proof. exists []. split; [constructor|done]. Qed.

(** Normalising an absolute path walks its segments from the root. *)
Lemma normalize_absolute p :
  is_absolute p = true ->
  normalize_path p = run (omap segment_component (split SLASH p)) [RootDir] /\
  normal_abs (normalize_path p).
Proof.
  intros Ha. unfold normalize_path, components, leading_component. rewrite Ha.
  cbn [app fold_left normalize_step push].
  pose proof (run_normal _ _ normal_root (segments_like p)) as Hn.
  destruct Hn as (ns & Hns & Hr). rewrite Hr. split; [done|]. by exists ns.
Qed.

Lemma path_join_absolute base p :
  is_absolute base = true -> is_absolute (path_join base p) = true.
Proof.
  intros Hb. unfold path_join. destruct (is_absolute p) eqn:Hp; [done|].
  apply is_absolute_cons in Hb as [r ->].
  destruct (decide _); [done|]. destruct (ends_with _ _); apply is_absolute_slash.
Qed.

Lemma ends_with_slash s : ends_with s "/" = true -> exists t, s = t ++ [SLASH].
Proof.
  unfold ends_with. intros [t Ht]%bool_decide_eq_true.
  apply strip_suffix_Some in Ht. by exists t.
Qed.

(** The segments of a joined path are the segments of the two parts. *)
Lemma join_segments base p :
  is_absolute p = false ->
  omap segment_component (split SLASH (path_join base p)) =
  omap segment_component (split SLASH base) ++ omap segment_component (split SLASH p).
Proof.
  intros Hp. unfold path_join. rewrite Hp.
  destruct (decide (base = [])) as [->|Hb]; [done|].
  destruct (ends_with base "/") eqn:He.
  - apply ends_with_slash in He as [t ->].
    rewrite <- app_assoc. cbn [app]. rewrite !split_app_gen, !omap_app. cbn.
    by rewrite app_nil_r.
  - cbn [app]. by rewrite split_app_gen, omap_app.
Qed.

Lemma render_segments ns :
  Forall proper_name ns ->
  omap segment_component (split SLASH (render (abs_path ns))) = map Normal ns.
Proof.
  intros Hns. unfold render.
  assert (map component_str (map Normal ns) = ns) as ->.
  { clear. induction ns; cbn; congruence. }
  change ("/" ++ join "/" ns) with ([] ++ SLASH :: join "/" ns).
  rewrite split_app_gen, omap_app. cbn.
  destruct ns as [|n ns]; [done|].
  rewrite (split_join SLASH); [by apply segments_names|done|].
  eapply Forall_impl; [exact Hns|]. by intros x (_ & _ & _ & ?).
Qed.

Lemma render_absolute ns : is_absolute (render (abs_path ns)) = true.
Proof. apply is_absolute_slash. Qed.

Lemma normalize_render p :
  normal_abs p ->
  is_absolute (render p) = true /\ normalize_path (render p) = p /\ components (render p) = p.
Proof.
  intros (ns & Hns & ->). split_and!.
  - apply render_absolute.
  - destruct (normalize_absolute _ (render_absolute ns)) as [-> _].
    rewrite render_segments by done. by rewrite run_names.
  - unfold components, leading_component. rewrite render_absolute, render_segments by done.
    done.
Qed.

(** ** The type's guarantee *)

Lemma expand_absolute home r : maybe_expand_home_directory home (SLASH :: r) = SLASH :: r.
Proof. unfold maybe_expand_home_directory. by destruct home. Qed.

Lemma absolutize_from_normal p base :
  is_absolute base = true -> normal_abs (absolutize_from p base).
Proof.
  intros Hb. apply normalize_absolute. unfold path_with_base.
  destruct (is_absolute p) eqn:Hp; [done|]. by apply path_join_absolute.
Qed.

(** An absolute text needs neither the home nor the current directory. *)
Lemma from_absolute_path_abs home cwd p :
  is_absolute p = true ->
  from_absolute_path home cwd p = Ok (normalize_path p) /\ normal_abs (normalize_path p).
Proof.
  intros Ha. split; [|by apply normalize_absolute]. apply is_absolute_cons in Ha as [r ->].
  unfold from_absolute_path. rewrite expand_absolute. unfold absolutize.
  by rewrite is_absolute_slash.
Qed.

Lemma from_absolute_path_is_normal home cwd p q :
  (forall d, cwd = Ok d -> is_absolute d = true) ->
  from_absolute_path home cwd p = Ok q -> normal_abs q.
Proof.
  unfold from_absolute_path, absolutize. intros Hcwd Hq.
  destruct (is_absolute _) eqn:Ha; [injection Hq as <-; by apply normalize_absolute|].
  destruct cwd as [d|e]; [|done]. injection Hq as <-.
  by apply absolutize_from_normal, Hcwd.
Qed.

Lemma from_absolute_path_render home cwd q :
  normal_abs q -> from_absolute_path home cwd (render q) = Ok q.
Proof.
  intros Hn. destruct (normalize_render q Hn) as (Ha & Hr & _).
  by destruct (from_absolute_path_abs home cwd _ Ha) as [-> _]; rewrite Hr.
Qed.

(** The guarantee of the type: when the current directory is absolute,
    every path [from_absolute_path] accepts becomes a root followed by
    proper names (no empty segment, no [.], no [..]), with or without a
    home directory to expand; the text of the result parses back to the
    same components, and normalising it again changes nothing. *)
Theorem from_absolute_path_normal home cwd p q :
  (forall d, cwd = Ok d -> is_absolute d = true) ->
  from_absolute_path home cwd p = Ok q ->
  normal_abs q /\
  components (render q) = q /\
  from_absolute_path home cwd (render q) = Ok q.
Proof.
  intros Hcwd Hq. pose proof (from_absolute_path_is_normal _ _ _ _ Hcwd Hq) as Hn.
  destruct (normalize_render q Hn) as (_ & _ & Hc).
  split_and!; [done|done|by apply from_absolute_path_render].
Qed.

Lemma from_absolute_path_normal_witness :
  let q := [RootDir; Normal "home"; Normal "u"; Normal "x"] in
  from_absolute_path (Some "/home/u") (Ok "/srv") "~//a/../x/." = Ok q /\
  normal_abs q /\ components (render q) = q /\
  from_absolute_path (Some "/home/u") (Ok "/srv") (render q) = Ok q.
Proof.
  split; [reflexivity|].
  apply (from_absolute_path_normal (Some "/home/u") (Ok "/srv") "~//a/../x/.").
  - intros d [= <-]. reflexivity.
  - reflexivity.
Defined.

Lemma abs_join_relative home base p :
  normal_abs base -> is_absolute p = false -> starts_with p "~" = false ->
  abs_join home base p = run (omap segment_component (split SLASH p)) base.
Proof.
  intros Hb Hp Ht. unfold abs_join, resolve_path_against_base, absolutize_from.
  assert (maybe_expand_home_directory home p = p) as ->.
  { unfold maybe_expand_home_directory, starts_with in *.
    destruct home; [|done]. destruct (strip_prefix "~" p); [|done].
    by rewrite bool_decide_eq_false in Ht; destruct Ht. }
  unfold path_with_base. rewrite Hp.
  destruct (normalize_render base Hb) as (Ha & Hr & Hc).
  destruct (normalize_absolute (path_join (render base) p)) as [-> _];
    [by apply path_join_absolute|].
  rewrite join_segments, fold_left_app by done.
  f_equal. destruct (normalize_absolute _ Ha) as [<- _]. done.
Qed.

Lemma starts_with_app_char c s t : s <> [] -> starts_with (s ++ t) [c] = starts_with s [c].
Proof.
  destruct s as [|x s]; [done|]. intros _. unfold starts_with. cbn.
  by destruct (c =? x)%N.
Qed.

Lemma path_join_starts c p q :
  is_absolute q = false -> starts_with p [c] = false -> starts_with q [c] = false ->
  starts_with (path_join p q) [c] = false.
Proof.
  intros Ha Hp Hq. unfold path_join. rewrite Ha.
  destruct (decide (p = [])) as [|Hne]; [done|].
  destruct (ends_with p "/"); by rewrite starts_with_app_char.
Qed.

(** Joining is compositional and stays inside the type: from a
    normalised base, joining relative paths one after the other is joining
    their textual concatenation (so [..] in the second may cancel a name of
    the first, and never climbs above the root), and joining an absolute
    path forgets the base. *)
Theorem join_compositional home base p q :
  normal_abs base -> normal_abs (abs_join home base p) /\
  (is_absolute p = false -> starts_with p "~" = false ->
   is_absolute q = false -> starts_with q "~" = false ->
   abs_join home (abs_join home base p) q = abs_join home base (path_join p q)) /\
  (is_absolute q = true -> abs_join home base q = normalize_path q).
Proof.
  intros Hb. destruct (normalize_render base Hb) as (Ha & _ & _).
  assert (normal_abs (abs_join home base p)) as Hn by (by apply absolutize_from_normal).
  split_and!; [done| |].
  - intros Hp Hpt Hq Hqt. rewrite (abs_join_relative home _ q) by done.
    rewrite !abs_join_relative by (try done; by apply path_join_starts).
    rewrite join_segments by done. by rewrite fold_left_app.
  - intros Hq. unfold abs_join, resolve_path_against_base, absolutize_from.
    apply is_absolute_cons in Hq as [r ->]. rewrite expand_absolute.
    unfold path_with_base. by rewrite is_absolute_slash.
Qed.

Lemma join_compositional_witness :
  let base := [RootDir; Normal "srv"] in
  normal_abs base /\
  abs_join None (abs_join None base "a/b") "../../../../c" = [RootDir; Normal "c"] /\
  abs_join None (abs_join None base "a/b") "../../../../c" =
    abs_join None base "a/b/../../../../c".
Proof.
  assert (normal_abs [RootDir; Normal "srv"]) as Hb.
  { exists ["srv"]. split; [|done]. apply Forall_singleton. unfold proper_name.
    split_and!; try done. intros H. repeat (apply elem_of_cons in H as [H|H]; [done|]).
    no_elem. }
  split_and!; [done|reflexivity|].
  refine (proj1 (proj2 (join_compositional None [RootDir; Normal "srv"] "a/b" "../../../../c" Hb))
    _ _ _ _); reflexivity.
Defined.

(** ** Resolution reads only the components

    Two texts with the same components (a doubled separator, an inner [.])
    resolve to the same path, home directory included. *)

Abbreviation segments s := (omap segment_component (split SLASH s)).

Lemma components_segments s s' :
  components s = components s' ->
  is_absolute s = is_absolute s' /\ segments s = segments s'.
Proof.
  unfold components, leading_component. intros H.
  pose proof (segments_like s) as Hs. pose proof (segments_like s') as Hs'.
  destruct (is_absolute s), (is_absolute s');
    repeat case_decide; cbn [app] in H; try (by injection H as ->); try done;
    try (split; congruence); exfalso;
    rewrite ?H in Hs; rewrite <- ?H in Hs';
    try (by apply Forall_inv in Hs); by apply Forall_inv in Hs'.
Qed.

Lemma segments_slash s : segments (SLASH :: s) = segments s.
Proof. by change (SLASH :: s) with ([] ++ SLASH :: s); rewrite split_app_gen. Qed.

Lemma segments_trim s : segments (trim_start_matches (N.eqb SLASH) s) = segments s.
Proof.
  induction s as [|c s IH]; [done|]. cbn [trim_start_matches].
  destruct (N.eqb_spec SLASH c) as [<-|]; [|done]. by rewrite IH, segments_slash.
Qed.

Lemma trim_slash_relative s : is_absolute (trim_start_matches (N.eqb SLASH) s) = false.
Proof.
  induction s as [|c s IH]; [done|]. cbn [trim_start_matches].
  destruct (N.eqb_spec SLASH c) as [<-|Hc]; [exact IH|].
  destruct (is_absolute (c :: s)) eqn:E; [|done]. by apply is_absolute_cons in E as [r [= -> _]].
Qed.

(** A text that the home directory replaces, with what follows the tilde. *)
Definition tilde_rest (s : str) : option str :=
  match strip_prefix "~" s with
  | Some [] => Some []
  | Some rest => strip_prefix "/" rest
  | None => None
  end.

Lemma expand_tilde home s :
  maybe_expand_home_directory home s =
  match home, tilde_rest s with
  | Some h, Some r =>
      if is_empty (default [] (strip_prefix "~" s)) then h
      else path_join h (trim_start_matches (N.eqb SLASH) r)
  | _, _ => s
  end.
Proof.
  unfold maybe_expand_home_directory, tilde_rest.
  destruct home as [h|]; [|done]. destruct (strip_prefix "~" s) as [[|c r]|]; try done.
Qed.

Lemma tilde_segments s r :
  tilde_rest s = Some r ->
  components s = Normal "~" :: segments r.
Proof.
  unfold tilde_rest. destruct (strip_prefix "~" s) as [t|] eqn:E; [|done].
  apply strip_prefix_Some in E as ->. intros Ht.
  assert (t = [] /\ r = [] \/ t = SLASH :: r) as [[-> ->]| ->].
  { destruct t as [|c t]; [left; by injection Ht as <-|right].
    by apply strip_prefix_Some in Ht as ->. }
  - by vm_compute.
  - unfold components, leading_component.
    rewrite (split_app SLASH "~" r) by (by apply (bool_decide_unpack _); vm_compute).
    cbn. done.
Qed.

(** The tilde shows in the components. *)
Lemma components_tilde s l :
  components s = Normal "~" :: l -> exists r, tilde_rest s = Some r /\ segments r = l.
Proof.
  unfold components, leading_component. intros H.
  destruct (is_absolute s) eqn:Ha; [done|].
  destruct (decide (head (split SLASH s) = Some ".")) as [|Hdot]; [done|].
  cbn [app] in H. pose proof (join_split SLASH s) as Hs.
  pose proof (split_Forall_no_char SLASH s) as Hno.
  destruct (split SLASH s) as [|f fs]; [done|]. cbn [omap list_omap] in H.
  assert (f = "~") as ->.
  { unfold segment_component in H. destruct (decide (f = [])) as [->|].
    - exfalso. destruct fs as [|g fs]; [done|].
      rewrite join_cons in Hs. subst s.
      apply not_true_iff_false in Ha. destruct Ha. apply is_absolute_slash.
    - destruct (decide (f = ".")) as [->|]; [done|].
      destruct (decide (f = "..")) as [->|]; [done|]. by injection H as ->. }
  injection H as <-. apply Forall_cons in Hno as [_ Hno].
  destruct fs as [|g fs].
  { exists []. subst s. done. }
  exists (join [SLASH] (g :: fs)). rewrite join_cons in Hs. subst s. split; [done|].
  by rewrite (split_join SLASH).
Qed.

(** The absolute form of an expanded text, from its components. *)
Lemma path_with_base_segments e base :
  is_absolute base = true ->
  normalize_path (path_with_base e base) =
  run (if is_absolute e then segments e else segments base ++ segments e) [RootDir].
Proof.
  intros Hb. unfold path_with_base. destruct (is_absolute e) eqn:He.
  - by apply normalize_absolute.
  - destruct (normalize_absolute (path_join base e)) as [-> _]; [by apply path_join_absolute|].
    by rewrite join_segments.
Qed.

Lemma path_join_relative h r :
  is_absolute r = false -> is_absolute (path_join h r) = is_absolute h.
Proof.
  intros Hr. unfold path_join. rewrite Hr. destruct (decide (h = [])) as [->|Hh]; [done|].
  destruct (ends_with h "/"); unfold is_absolute; by rewrite starts_with_app_char.
Qed.

Lemma expand_segments home s :
  let e := maybe_expand_home_directory home s in
  match home, tilde_rest s with
  | Some h, Some r => is_absolute e = is_absolute h /\ segments e = segments h ++ segments r
  | _, _ => e = s
  end.
Proof.
  cbn zeta. rewrite expand_tilde.
  destruct home as [h|]; [|done]. destruct (tilde_rest s) as [r|] eqn:E; [|done].
  destruct (is_empty _) eqn:Ee.
  - split; [done|]. unfold tilde_rest in E. destruct (strip_prefix "~" s) as [t|]; [|done].
    apply is_empty_true in Ee. cbn in Ee. subst t. injection E as <-. by rewrite app_nil_r.
  - pose proof (trim_slash_relative r) as Hr. split; [by apply path_join_relative|].
    by rewrite join_segments, segments_trim by done.
Qed.

Lemma resolve_components home s s' base :
  is_absolute base = true -> components s = components s' ->
  resolve_path_against_base home s base = resolve_path_against_base home s' base.
Proof.
  intros Hb Hc. unfold resolve_path_against_base, absolutize_from.
  rewrite !path_with_base_segments by done.
  pose proof (components_segments _ _ Hc) as [Ha Hs].
  pose proof (expand_segments home s) as He. pose proof (expand_segments home s') as He'.
  cbn zeta in He, He'. destruct home as [h|]; [|by rewrite He, He', Ha, Hs].
  destruct (tilde_rest s) as [r|] eqn:E.
  - apply tilde_segments in E. rewrite Hc in E.
    destruct (components_tilde _ _ E) as (r' & Er' & Hr'). rewrite Er' in He'.
    destruct He as [-> ->], He' as [-> ->]. by rewrite Hr'.
  - destruct (tilde_rest s') as [r'|] eqn:E'.
    + apply tilde_segments in E'. rewrite <- Hc in E'.
      destruct (components_tilde _ _ E') as (r & Er & _). congruence.
    + by rewrite He, He', Ha, Hs.
Qed.
