(* ===== verification/ExecRule.v ===== *)
(** * ExecRule: decisions, prefix patterns and network hosts

    [codex-rs/execpolicy/src/rule.rs], [decision.rs] and
    [executable_name.rs]: the three decisions and their severity order, the
    prefix matcher, and the normalisation of the host of a network rule. *)

From S2P Require Import Prelude RustStr AbsolutePath.
Open Scope str_scope.

(** ** error.rs (the constructors the policy code builds) *)

Record TextPosition := mkTextPosition { line : nat; column : nat }.
Record TextRange := mkTextRange { start_pos : TextPosition; end_pos : TextPosition }.
Record ErrorLocation := mkErrorLocation { loc_path : str; range : TextRange }.

Inductive Error :=
| InvalidDecision (raw : str)
| InvalidPattern (message : str)
| InvalidExample (message : str)
| InvalidRule (message : str)
| ExampleDidNotMatch (rules : list str) (examples : list str) (location : option ErrorLocation)
| ExampleDidMatch (rule : str) (example : str) (location : option ErrorLocation).

(** [Error::with_location] only fills a missing location. *)
Definition with_location (e : Error) (location : ErrorLocation) : Error :=
  match e with
  | ExampleDidNotMatch rules examples None => ExampleDidNotMatch rules examples (Some location)
  | ExampleDidMatch rule example None => ExampleDidMatch rule example (Some location)
  | other => other
  end.

(** ** decision.rs *)

Inductive Decision := Allow | Prompt | Forbidden.

#[export] Instance Decision_eq_dec : EqDecision Decision.
Proof. solve_decision. Defined.

(** The derived [Ord]: declaration order. *)
Definition severity (d : Decision) : nat :=
  match d with Allow => 0 | Prompt => 1 | Forbidden => 2 end.

Definition decision_parse (raw : str) : result Error Decision :=
  if decide (raw = "allow") then Ok Allow
  else if decide (raw = "prompt") then Ok Prompt
  else if decide (raw = "forbidden") then Ok Forbidden
  else Err (InvalidDecision raw).

(** [Iterator::max]: the last of the greatest elements. *)
Definition decision_max (a b : Decision) : Decision :=
  if severity b <? severity a then a else b.

Definition iter_max (l : list Decision) : option Decision :=
  match l with [] => None | d :: r => Some (fold_left decision_max r d) end.

Lemma severity_inj a b : severity a = severity b -> a = b.
Proof. by destruct a, b. Qed.

Lemma fold_max_spec l d :
  let m := fold_left decision_max l d in
  (m = d \/ m ∈ l) /\ severity d <= severity m /\
  (forall x, x ∈ l -> severity x <= severity m).
Proof.
  revert d. induction l as [|x l IH]; intros d; cbn.
  { split_and!; [by left|done|]. intros x H. no_elem. }
  destruct (IH (decision_max d x)) as (H1 & H2 & H3).
  assert (severity d <= severity (decision_max d x) /\
          severity x <= severity (decision_max d x) /\
          (decision_max d x = d \/ decision_max d x = x)) as (Hd & Hx & Hor).
  { unfold decision_max. destruct (Nat.ltb_spec (severity x) (severity d)); split_and!;
      auto; lia. }
  split_and!.
  - rewrite elem_of_cons. destruct H1 as [->|]; [|auto]. destruct Hor as [->| ->]; auto.
  - lia.
  - intros y [->|Hy]%elem_of_cons; [lia|auto].
Qed.

(** [iter_max] is the most severe decision of the list. *)
Lemma iter_max_Some l m :
  iter_max l = Some m <-> m ∈ l /\ (forall d, d ∈ l -> severity d <= severity m).
Proof.
  assert (forall l m, iter_max l = Some m ->
    m ∈ l /\ (forall d, d ∈ l -> severity d <= severity m)) as Hgo.
  { clear. intros [|d l] m; cbn; [done|]. intros [= <-].
    destruct (fold_max_spec l d) as (H1 & H2 & H3). split.
    - rewrite elem_of_cons. destruct H1; auto.
    - intros x [->|Hx]%elem_of_cons; auto. }
  split; [apply Hgo|]. intros [Hm Hmax].
  destruct (iter_max l) as [m'|] eqn:E.
  - destruct (Hgo _ _ E) as [Hm' Hmax']. f_equal. apply severity_inj.
    specialize (Hmax _ Hm'). specialize (Hmax' _ Hm). lia.
  - destruct l; [no_elem|done].
Qed.

Lemma iter_max_None l : iter_max l = None <-> l = [].
Proof. by destruct l. Qed.

(** ** Prefix patterns *)

Inductive PatternToken :=
| Single (expected : str)
| Alts (alternatives : list str).

Definition token_matches (p : PatternToken) (token : str) : bool :=
  match p with
  | Single expected => bool_decide (expected = token)
  | Alts alternatives => existsb (fun alt => bool_decide (alt = token)) alternatives
  end.

Definition alternatives (p : PatternToken) : list str :=
  match p with Single expected => [expected] | Alts l => l end.

Record PrefixPattern := mkPrefixPattern { first : str; rest : list PatternToken }.

(** The loop over [rest.iter().zip(&cmd[1..pattern_length])]. *)
Definition matches_prefix (p : PrefixPattern) (cmd : list str) : option (list str) :=
  let pattern_length := length (rest p) + 1 in
  match cmd with
  | [] => None
  | c0 :: _ =>
      if (length cmd <? pattern_length) || negb (bool_decide (c0 = first p)) then None
      else if forallb (fun '(t, c) => token_matches t c)
                (zip (rest p) (take (pattern_length - 1) (drop 1 cmd)))
      then Some (take pattern_length cmd)
      else None
  end.

Inductive RuleMatch :=
| PrefixRuleMatch (matched_prefix : list str) (decision : Decision)
    (resolved_program : option PathBuf) (justification : option str)
| HeuristicsRuleMatch (command : list str) (decision : Decision).

Definition match_decision (m : RuleMatch) : Decision :=
  match m with
  | PrefixRuleMatch _ decision _ _ => decision
  | HeuristicsRuleMatch _ decision => decision
  end.

Definition with_resolved_program (m : RuleMatch) (resolved_program : PathBuf) : RuleMatch :=
  match m with
  | PrefixRuleMatch matched_prefix decision _ justification =>
      PrefixRuleMatch matched_prefix decision (Some resolved_program) justification
  | other => other
  end.

(** [PrefixRule] is the only implementation of the trait [Rule]. *)
Record PrefixRule := mkPrefixRule {
  pattern : PrefixPattern;
  decision : Decision;
  justification : option str;
}.

Definition program (r : PrefixRule) : str := first (pattern r).

Definition rule_matches (r : PrefixRule) (cmd : list str) : option RuleMatch :=
  (fun matched_prefix => PrefixRuleMatch matched_prefix (decision r) None (justification r))
    <$> matches_prefix (pattern r) cmd.

(** What a token accepts, and what a whole pattern accepts. *)
Definition accepts (t : PatternToken) (c : str) : Prop := c ∈ alternatives t.

Lemma token_matches_accepts t c : token_matches t c = true <-> accepts t c.
Proof.
  unfold accepts. destruct t as [e|l]; cbn.
  - rewrite bool_decide_eq_true, list_elem_of_singleton. naive_solver.
  - rewrite existsb_exists. setoid_rewrite bool_decide_eq_true.
    setoid_rewrite list_elem_of_In. naive_solver.
Qed.

Lemma forallb_zip_accepts ts cs :
  length ts = length cs ->
  forallb (fun '(t, c) => token_matches t c) (zip ts cs) = true <-> Forall2 accepts ts cs.
Proof.
  revert cs. induction ts as [|t ts IH]; intros [|c cs] Hlen; try done; cbn.
  rewrite andb_true_iff, token_matches_accepts, IH by (cbn in Hlen; lia).
  by rewrite Forall2_cons.
Qed.

(** [matches_prefix] is the prefix relation of the pattern: it answers
    [pre] exactly when the command is [pre] followed by any further
    arguments, [pre] starts with the program and each later token of [pre]
    is one of the alternatives of the pattern token at its place. *)
Lemma matches_prefix_spec p cmd pre :
  matches_prefix p cmd = Some pre <->
  exists args more, pre = first p :: args /\ cmd = pre ++ more /\
    Forall2 accepts (rest p) args.
Proof.
  unfold matches_prefix. destruct cmd as [|c0 cmd].
  { split; [done|]. by intros (args & more & -> & ? & _). }
  replace (length (rest p) + 1 - 1) with (length (rest p)) by lia.
  replace (length (rest p) + 1) with (S (length (rest p))) by lia.
  cbn [length drop take]. rewrite drop_0. split.
  - destruct (_ || _) eqn:E; [done|]. bool_hyps. apply Nat.ltb_ge in H.
    destruct (forallb _ _) eqn:F; [|done]. intros [= <-].
    apply forallb_zip_accepts in F; [|rewrite length_take; lia].
    exists (take (length (rest p)) cmd), (drop (length (rest p)) cmd).
    subst. split_and!; [done| |done]. cbn. by rewrite take_drop.
  - intros (args & more & -> & [= -> ->] & Hacc).
    pose proof (Forall2_length _ _ _ Hacc) as Hl.
    rewrite bool_decide_eq_true_2 by done.
    rewrite (proj2 (Nat.ltb_ge _ _)) by (cbn; rewrite length_app; lia). cbn.
    rewrite Hl, take_app_length. rewrite (proj2 (forallb_zip_accepts _ _ Hl)) by done.
    done.
Qed.

(** ** Network rules *)

Inductive NetworkRuleProtocol := Http | Https | Socks5Tcp | Socks5Udp.

Definition protocol_parse (raw : str) : result Error NetworkRuleProtocol :=
  if decide (raw = "http") then Ok Http
  else if decide (raw = "https" \/ raw = "https_connect" \/ raw = "http-connect") then Ok Https
  else if decide (raw = "socks5_tcp") then Ok Socks5Tcp
  else if decide (raw = "socks5_udp") then Ok Socks5Udp
  else Err (InvalidRule
    ("network_rule protocol must be one of http, https, socks5_tcp, socks5_udp (got " ++ raw ++ ")")).

Definition as_policy_string (p : NetworkRuleProtocol) : str :=
  match p with
  | Http => "http" | Https => "https" | Socks5Tcp => "socks5_tcp" | Socks5Udp => "socks5_udp"
  end.

Record NetworkRule := mkNetworkRule {
  host : str;
  protocol : NetworkRuleProtocol;
  net_decision : Decision;
  net_justification : option str;
}.

(** [host.matches(c).count()] *)
Definition count_char (c : char) (s : str) : nat := length (filter (fun x => x = c) s).

Definition all_digits (s : str) : bool := forallb is_ascii_digit s.

(** The host part of an unbracketed or bracketed literal. *)
Definition strip_bracketed (raw stripped : str) : result Error str :=
  match split_once 93%N stripped with
  | None => Err (InvalidRule "network_rule host has an invalid bracketed IPv6 literal")
  | Some (inside, rest) =>
      let port_ok := match strip_prefix ":" rest with
                     | Some port => negb (is_empty port) && all_digits port
                     | None => false
                     end in
      if negb (is_empty rest) && negb port_ok
      then Err (InvalidRule ("network_rule host contains an unsupported suffix: " ++ raw))
      else Ok inside
  end.

Definition strip_port (h : str) : str :=
  if count_char 58%N h =? 1 then
    match rsplit_once 58%N h with
    | Some (candidate, port) =>
        if negb (is_empty candidate) && negb (is_empty port) && all_digits port
        then candidate else h
    | None => h
    end
  else h.

Definition normalize_network_rule_host (raw : str) : result Error str :=
  let h := trim raw in
  if is_empty h then Err (InvalidRule "network_rule host cannot be empty")
  else if contains h "://" || contains_char h 47%N || contains_char h 63%N || contains_char h 35%N
  then Err (InvalidRule
    "network_rule host must be a hostname or IP literal (without scheme or path)")
  else
    h ← match strip_prefix "[" h with
        | Some stripped => strip_bracketed raw stripped
        | None => Ok (strip_port h)
        end;
    let normalized := to_ascii_lowercase (trim (trim_end_matches (N.eqb 46%N) h)) in
    if is_empty normalized then Err (InvalidRule "network_rule host cannot be empty")
    else if contains_char normalized 42%N
    then Err (InvalidRule
      "network_rule host must be a specific host; wildcards are not allowed")
    else if existsb is_whitespace normalized
    then Err (InvalidRule "network_rule host cannot contain whitespace")
    else Ok normalized.

Example normalize_examples :
  normalize_network_rule_host " Example.COM.:443 " = Ok "example.com" /\
  normalize_network_rule_host "[2001:DB8::1]:443" = Ok "2001:db8::1" /\
  is_ok (normalize_network_rule_host "*.example.com") = false /\
  (* A trailing dot hides the port from the first pass. *)
  normalize_network_rule_host "example.com:80." = Ok "example.com:80" /\
  normalize_network_rule_host "example.com:80" = Ok "example.com".
Proof. vm_compute. split_and!; reflexivity. Qed.

(** A character allowed in a normalised host. *)
Definition host_char (c : char) : bool :=
  negb (is_whitespace c) && negb (existsb (N.eqb c) "*/?#").

Lemma host_char_spec c :
  host_char c = true <-> is_whitespace c = false /\ c <> 42%N /\ c <> 47%N /\ c <> 63%N /\ c <> 35%N.
Proof.
  unfold host_char. rewrite andb_true_iff, !negb_true_iff. cbn.
  rewrite !orb_false_iff, !N.eqb_neq. naive_solver.
Qed.

Lemma host_body_elem h c : strip_port h = c -> forall x, x ∈ c -> x ∈ h.
Proof.
  intros <- x. unfold strip_port. destruct (_ =? 1); [|done].
  destruct (rsplit_once 58%N h) as [[a b]|] eqn:E; [|done].
  destruct (_ && _); [|done]. apply rsplit_once_Some in E as [-> _].
  intros H. apply elem_of_app. by left.
Qed.

Lemma strip_bracketed_elem raw s h : strip_bracketed raw s = Ok h -> forall x, x ∈ h -> x ∈ s.
Proof.
  unfold strip_bracketed. destruct (split_once 93%N s) as [[a b]|] eqn:E; [|done].
  apply split_once_Some in E as [-> _]. destruct (_ && _); [done|].
  intros [= <-] x H. apply elem_of_app. by left.
Qed.

(** A host that normalisation accepts is safe to compare and to write
    into a rule: it is not empty, it has no whitespace, no wildcard, no
    path, query or fragment character and no ASCII upper-case letter. *)
Lemma normalize_host_sound raw h :
  normalize_network_rule_host raw = Ok h ->
  h <> [] /\ Forall (fun c => host_char c = true /\ is_ascii_uppercase c = false) h.
Proof.
  unfold normalize_network_rule_host. set (t := trim raw).
  destruct (is_empty t); [done|]. destruct (_ || _) eqn:Hc; [done|].
  apply orb_false_iff in Hc as [Hc H35]. apply orb_false_iff in Hc as [Hc H63].
  apply orb_false_iff in Hc as [_ H47].
  apply contains_char_false in H35, H63, H47. intros H. result_inv.
  destruct (is_empty _) eqn:He; [done|]. destruct (contains_char _ _) eqn:H42; [done|].
  destruct (existsb _ _) eqn:Hw; [done|]. result_inv.
  apply is_empty_false in He. apply contains_char_false in H42. split; [done|].
  assert (forall c, c ∈ x -> c ∈ t) as Hin.
  { destruct (strip_prefix "[" t) as [s|] eqn:Hs.
    - intros c Hin. apply (strip_bracketed_elem _ _ _ H0) in Hin.
      apply strip_prefix_Some in Hs as ->. apply elem_of_app. by right.
    - injection H0 as <-. by apply host_body_elem. }
  apply Forall_forall. intros c Hcin. apply list_elem_of_fmap in Hcin as (c0 & -> & Hc0).
  split; [|apply to_ascii_lowercase_not_upper]. apply host_char_spec.
  pose proof (Hin _ (trim_end_matches_elem _ _ _ (trim_elem _ _ Hc0))) as Ht.
  assert (char_to_ascii_lowercase c0 ∈ to_ascii_lowercase
    (trim (trim_end_matches (N.eqb 46%N) x))) as Hl by (by (apply list_elem_of_In, in_map, list_elem_of_In; done)).
  split.
  - destruct (is_whitespace _) eqn:E; [|done]. rewrite <- Hw. symmetry.
    apply existsb_exists. eexists; split; [by apply list_elem_of_In|done].
  - destruct (lower_char_cases c0) as [E|E].
    + rewrite E in Hl |- *. unfold no_char in *. clear - Hl Ht H42 H47 H63 H35. naive_solver.
    + lia.
Qed.

(** The ways to write the host [h]: a bare name or address with trailing
    dots, the same with a port, or a bracketed literal with or without a
    port. *)
Inductive host_form (h : str) : str -> Prop :=
| form_bare n :
    head h <> Some 91%N -> count_char 58%N h <> 1 ->
    host_form h (h ++ repeat 46%N n)
| form_port n port :
    head h <> Some 91%N -> no_char 58%N h -> port <> [] -> all_digits port = true ->
    host_form h (h ++ repeat 46%N n ++ ":" ++ port)
| form_bracketed n suffix :
    no_char 93%N h ->
    (suffix = [] \/ exists port, suffix = ":" ++ port /\ port <> [] /\ all_digits port = true) ->
    host_form h ("[" ++ h ++ repeat 46%N n ++ "]" ++ suffix).

Definition clean_host (h : str) : Prop :=
  h <> [] /\ Forall (fun c => host_char c = true) h /\ last h <> Some 46%N.

Lemma host_char_digit c : is_ascii_digit c = true -> host_char c = true.
Proof.
  unfold is_ascii_digit. intros [H1%N.leb_le H2%N.leb_le]%andb_true_iff.
  apply host_char_spec. unfold is_whitespace.
  repeat match goal with |- context [(?a <=? ?b)%N] => destruct (N.leb_spec a b); try lia end.
  repeat match goal with |- context [(?a =? ?b)%N] => destruct (N.eqb_spec a b); try lia end.
Qed.

Lemma host_char_lower c : host_char c = true -> host_char (char_to_ascii_lowercase c) = true.
Proof.
  intros H. destruct (lower_char_cases c) as [->|[[H1 H2] _]]; [done|].
  revert H1 H2. generalize (char_to_ascii_lowercase c). clear. intros c H1 H2.
  apply host_char_spec. unfold is_whitespace.
  repeat match goal with |- context [(?a <=? ?b)%N] => destruct (N.leb_spec a b); try lia end.
  repeat match goal with |- context [(?a =? ?b)%N] => destruct (N.eqb_spec a b); try lia end.
Qed.

Lemma repeat_dots_true n : forallb (N.eqb 46%N) (repeat 46%N n) = true.
Proof. by induction n. Qed.

Lemma no_char_repeat c d n : c <> d -> no_char c (repeat d n).
Proof. intros Hc H%list_elem_of_In%repeat_spec. done. Qed.

(** The final clean-up of [normalize_network_rule_host] is the lower-case
    name when what precedes it found the name and its dots. *)
Lemma clean_host_dots h n : clean_host h -> trim (trim_end_matches (N.eqb 46%N) (h ++ repeat 46%N n)) = h.
Proof.
  intros (Hne & Hall & Hl). rewrite trim_end_matches_all by apply repeat_dots_true.
  destruct (last h) as [d|] eqn:Ed; [|by apply last_None in Ed].
  rewrite (trim_end_matches_last _ _ d) by (done || (apply N.eqb_neq; congruence)).
  destruct h as [|c h]; [done|].
  rewrite Forall_forall in Hall.
  replace (c :: h) with ([] ++ (c :: h) ++ []) by by rewrite app_nil_r.
  rewrite (trim_pad [] (c :: h) [] c d); try done.
  - by rewrite app_nil_r.
  - apply host_char_spec, Hall. by left.
  - apply host_char_spec, Hall. apply last_Some in Ed as [l ->]. apply elem_of_app.
    right. by left.
Qed.

Lemma strip_port_none h : count_char 58%N h <> 1 -> strip_port h = h.
Proof. intros H. unfold strip_port. by rewrite (proj2 (Nat.eqb_neq _ _) H). Qed.

Lemma count_char_app c s t : count_char c (s ++ t) = count_char c s + count_char c t.
Proof. unfold count_char. by rewrite filter_app, length_app. Qed.

Lemma count_char_none c s : no_char c s -> count_char c s = 0.
Proof.
  unfold count_char. induction s as [|x s IH]; [done|].
  intros [Hx Hs]%no_char_cons. rewrite filter_cons_False by done. auto.
Qed.

Lemma digits_no_char c s : is_ascii_digit c = false -> all_digits s = true -> no_char c s.
Proof.
  intros Hc Hs Hin. unfold all_digits in Hs. rewrite forallb_forall in Hs.
  apply list_elem_of_In, Hs in Hin. congruence.
Qed.

Lemma strip_port_some h port :
  h <> [] -> no_char 58%N h -> port <> [] -> all_digits port = true ->
  strip_port (h ++ 58%N :: port) = h.
Proof.
  intros Hh Hn Hp Hd. unfold strip_port.
  assert (no_char 58%N port) as Hnp by by apply digits_no_char.
  rewrite count_char_app, (count_char_none _ h) by done.
  change (58%N :: port) with ([58%N] ++ port).
  rewrite count_char_app, (count_char_none _ port) by done. cbn [Nat.eqb plus].
  change (count_char 58%N [58%N]) with 1. cbn [Nat.eqb Nat.add].
  assert (rsplit_once 58%N (h ++ [58%N] ++ port) = Some (h, port)) as ->.
  { by apply rsplit_once_Some. }
  rewrite (proj2 (is_empty_false h)), (proj2 (is_empty_false port)), Hd by done. done.
Qed.

Lemma strip_bracketed_ok raw h suffix :
  no_char 93%N h ->
  (suffix = [] \/ exists port, suffix = ":" ++ port /\ port <> [] /\ all_digits port = true) ->
  strip_bracketed raw (h ++ "]" ++ suffix) = Ok h.
Proof.
  intros Hn Hs. unfold strip_bracketed.
  assert (split_once 93%N (h ++ "]" ++ suffix) = Some (h, suffix)) as ->.
  { by apply split_once_Some. }
  destruct Hs as [->|(port & -> & Hp & Hd)]; [done|].
  cbn [app strip_prefix is_empty negb andb]. rewrite N.eqb_refl.
  by rewrite (proj2 (is_empty_false port)), Hd.
Qed.

Abbreviation host_text := (Forall (fun c => host_char c = true)).

Lemma all_digits_text s : all_digits s = true -> host_text s.
Proof.
  unfold all_digits. rewrite forallb_forall, Forall_forall.
  intros H c Hc. by apply host_char_digit, H, list_elem_of_In.
Qed.

Lemma dots_text n : host_text (repeat 46%N n).
Proof. induction n; by constructor. Qed.

Lemma host_form_text h body : clean_host h -> host_form h body -> host_text body /\ body <> [].
Proof.
  intros (Hne & Hh & _). pose proof dots_text as Hd. pose proof all_digits_text as Hp.
  intros [n _ _|n port _ _ _ Hport|n suffix _ Hs]; split;
    try (by destruct h); rewrite ?Forall_app; split_and!; auto; try by repeat constructor.
  destruct Hs as [->|(port & -> & _ & Hport)]; [constructor|].
  constructor; [done|auto].
Qed.

Lemma trim_host_text s w1 w2 :
  forallb is_whitespace w1 = true -> forallb is_whitespace w2 = true ->
  s <> [] -> host_text s -> trim (w1 ++ s ++ w2) = s.
Proof.
  intros Hw1 Hw2 Hne Hs. rewrite Forall_forall in Hs.
  destruct (last s) as [d|] eqn:Ed; [|by apply last_None in Ed].
  destruct s as [|c s]; [done|]. eapply (trim_pad w1 (c :: s) w2 c d); try done.
  - apply host_char_spec, Hs. by left.
  - apply host_char_spec, Hs. apply last_Some in Ed as [l ->]. apply elem_of_app.
    right. by left.
Qed.

Lemma host_text_no_char c s : host_char c = false -> host_text s -> no_char c s.
Proof. intros Hc Hs Hin. rewrite Forall_forall in Hs. apply Hs in Hin. congruence. Qed.

Lemma host_text_no_path s :
  host_text s ->
  contains s "://" || contains_char s 47%N || contains_char s 63%N || contains_char s 35%N
  = false.
Proof.
  intros Hs. rewrite !orb_false_iff, !contains_char_false.
  split_and!; try by apply host_text_no_char.
  destruct (contains s "://") eqn:E; [|done]. apply contains_spec in E as (a & b & ->).
  apply Forall_app in Hs as [_ Hs]. apply Forall_app in Hs as [Hs _].
  apply Forall_cons in Hs as [_ Hs]. apply Forall_cons in Hs as [Hs _]. discriminate Hs.
Qed.

Lemma strip_prefix_bracket h s : head h <> Some 91%N -> h <> [] -> strip_prefix "[" (h ++ s) = None.
Proof.
  intros Hh Hne. destruct h as [|c h]; [done|]. cbn [app strip_prefix].
  destruct (N.eqb_spec 91 c) as [<-|]; [by destruct Hh|done].
Qed.

Lemma host_form_body raw h body :
  clean_host h -> host_form h body -> exists n,
  match strip_prefix "[" body with
  | Some stripped => strip_bracketed raw stripped
  | None => Ok (strip_port body)
  end = Ok (h ++ repeat 46%N n).
Proof.
  intros (Hne & _ & _) [n Hh Hc|n port Hh Hc Hp Hd|n suffix Hn Hs]; exists n.
  - rewrite strip_prefix_bracket by done. rewrite strip_port_none; [done|].
    rewrite count_char_app, (count_char_none _ (repeat _ _)) by by apply no_char_repeat. lia.
  - rewrite strip_prefix_bracket by done. rewrite app_assoc. f_equal.
    apply strip_port_some; try done; [by destruct h|].
    apply no_char_app. split; [done|by apply no_char_repeat].
  - cbn [app strip_prefix]. rewrite N.eqb_refl, app_assoc.
    apply strip_bracketed_ok; [|done]. apply no_char_app. split; [done|by apply no_char_repeat].
Qed.

Lemma lower_text h : host_text h -> host_text (to_ascii_lowercase h).
Proof.
  induction 1 as [|c h Hc _ IH]; cbn; constructor; [by apply host_char_lower|done].
Qed.

(** Every documented way to write a host gives the same normalised
    host: surrounding whitespace, trailing dots, a numeric port and the
    brackets of an IPv6 literal are removed, and letters are lowered. *)
Theorem normalize_host_forms h body w1 w2 :
  clean_host h -> host_form h body ->
  forallb is_whitespace w1 = true -> forallb is_whitespace w2 = true ->
  normalize_network_rule_host (w1 ++ body ++ w2) = Ok (to_ascii_lowercase h).
Proof.
  intros Hh Hf Hw1 Hw2. unfold normalize_network_rule_host.
  destruct (host_form_text h body Hh Hf) as [Ht Hne].
  rewrite trim_host_text by done. rewrite (proj2 (is_empty_false body)) by done.
  rewrite host_text_no_path by done.
  destruct (host_form_body (w1 ++ body ++ w2) h body Hh Hf) as [n ->].
  cbn [mbind result_bind]. rewrite clean_host_dots by done.
  destruct Hh as (Hhne & Hh & _). apply lower_text in Hh as Hl.
  rewrite (proj2 (is_empty_false _)) by by destruct h.
  rewrite (proj2 (contains_char_false _ 42%N)) by by apply host_text_no_char.
  rewrite Forall_forall in Hl.
  destruct (existsb is_whitespace _) eqn:E; [|done].
  apply existsb_exists in E as (c & Hc%list_elem_of_In & Hw).
  apply Hl, host_char_spec in Hc as [Hc _]. congruence.
Qed.

Lemma normalize_host_forms_witness :
  clean_host "2001:DB8::1" /\
  host_form "2001:DB8::1" "[2001:DB8::1.]:8443" /\
  normalize_network_rule_host " [2001:DB8::1.]:8443  " = Ok "2001:db8::1".
Proof.
  assert (clean_host "2001:DB8::1") as Hc by (split_and!; dec_true).
  assert (host_form "2001:DB8::1" "[2001:DB8::1.]:8443") as Hf.
  { apply (form_bracketed "2001:DB8::1" 1 ":8443"); [dec_true|].
    right. exists "8443". split_and!; done. }
  split_and!; [done|done|].
  apply (normalize_host_forms "2001:DB8::1" "[2001:DB8::1.]:8443" " " "  "); done.
Defined.
