(* ===== verification/ExecPolicy.v ===== *)
(** * ExecPolicy: evaluating commands and hosts against the rules

    [codex-rs/execpolicy/src/policy.rs] and [amend.rs]'s callers: the policy
    record, rule lookup by program (and, on request, by the base name of an
    absolute program), the aggregation of decisions, the merge of an overlay
    and the compilation of network rules. *)

From stdpp Require Import sorting.
From S2P Require Import Prelude RustStr AbsolutePath ExecRule.
Open Scope str_scope.

(** ** Multimaps

    [multimap::MultiMap] keeps a vector of values per key, in insertion
    order. *)
Abbreviation MultiMap := (gmap str (list PrefixRule)).

Definition get_vec (m : MultiMap) (k : str) : option (list PrefixRule) := m !! k.
Definition multimap_insert (k : str) (r : PrefixRule) (m : MultiMap) : MultiMap :=
  <[k := default [] (m !! k) ++ [r]]> m.

(** The values of a key. *)
Abbreviation vec_of m k := (default [] (m !! k)).

(** ** The policy *)

Record MatchOptions := mkMatchOptions { resolve_host_executables : bool }.
Definition default_options : MatchOptions := mkMatchOptions false.

Record Policy := mkPolicy {
  rules_by_program : MultiMap;
  network_rules : list NetworkRule;
  host_executables_by_name : gmap str (list PathBuf);
}.

Definition new (rules : MultiMap) : Policy := mkPolicy rules [] ∅.
Definition empty : Policy := new ∅.

(** *** Allowed prefixes *)

Definition render_pattern_token (t : PatternToken) : str :=
  match t with
  | Single value => value
  | Alts l => "[" ++ join "|" l ++ "]"
  end.

Definition rule_prefix (r : PrefixRule) : list str :=
  first (pattern r) :: map render_pattern_token (rest (pattern r)).

(** The derived order on vectors of strings. *)
Definition prefix_compare : list str -> list str -> comparison :=
  list_compare (list_compare N.compare).
Definition prefix_le : relation (list str) := cmp_le prefix_compare.
Definition prefix_lt (a b : list str) : Prop := prefix_compare a b = Lt.

#[export] Instance prefix_le_dec : RelDecision prefix_le := cmp_le_dec prefix_compare.

Definition get_allowed_prefixes (p : Policy) : list (list str) :=
  let prefixes :=
    concat (map (fun '(_, rules) =>
      map rule_prefix (filter (fun r => decision r = Allow) rules))
      (map_to_list (rules_by_program p))) in
  dedup (merge_sort prefix_le prefixes).

(** *** Changing a policy *)

Definition add_prefix_rule (p : Policy) (prefix : list str) (d : Decision) :
    result Error Policy :=
  match prefix with
  | [] => Err (InvalidPattern "prefix cannot be empty")
  | first_token :: rest =>
      let rule := mkPrefixRule (mkPrefixPattern first_token (map Single rest)) d None in
      Ok (mkPolicy (multimap_insert first_token rule (rules_by_program p))
                   (network_rules p) (host_executables_by_name p))
  end.

(** [Some(raw) if raw.trim().is_empty()] *)
Definition blank_justification (j : option str) : bool :=
  match j with Some raw => is_empty (trim raw) | None => false end.

Definition add_network_rule (p : Policy) (h : str) (proto : NetworkRuleProtocol)
    (d : Decision) (j : option str) : result Error Policy :=
  h ← normalize_network_rule_host h;
  if blank_justification j then Err (InvalidRule "justification cannot be empty")
  else Ok (mkPolicy (rules_by_program p)
             (network_rules p ++ [mkNetworkRule h proto d j])
             (host_executables_by_name p)).

Definition set_host_executable_paths (p : Policy) (name : str) (paths : list PathBuf) : Policy :=
  mkPolicy (rules_by_program p) (network_rules p)
    (<[name := paths]> (host_executables_by_name p)).

(** The two nested loops over [overlay.rules_by_program.iter_all()]. *)
Definition insert_all (rules : MultiMap) (l : list (str * list PrefixRule)) : MultiMap :=
  fold_left (fun m '(k, rs) => fold_left (fun m r => multimap_insert k r m) rs m) l rules.

Definition merge_overlay (self overlay : Policy) : Policy :=
  mkPolicy (insert_all (rules_by_program self) (map_to_list (rules_by_program overlay)))
    (network_rules self ++ network_rules overlay)
    (host_executables_by_name overlay ∪ host_executables_by_name self).

(** *** Network domains *)

Definition retain_not (h : str) (entries : list str) : list str :=
  filter (fun e => e <> h) entries.
Definition upsert_domain (entries : list str) (h : str) : list str :=
  retain_not h entries ++ [h].

Definition compile_rule (acc : list str * list str) (r : NetworkRule) : list str * list str :=
  let '(allowed, denied) := acc in
  match net_decision r with
  | Allow => (upsert_domain allowed (host r), retain_not (host r) denied)
  | Forbidden => (retain_not (host r) allowed, upsert_domain denied (host r))
  | Prompt => (allowed, denied)
  end.

Definition compiled_network_domains (p : Policy) : list str * list str :=
  fold_left compile_rule (network_rules p) ([], []).

(** *** Evaluation *)

Record Evaluation := mkEvaluation { ev_decision : Decision; matched_rules : list RuleMatch }.

Definition is_heuristics (m : RuleMatch) : bool :=
  match m with HeuristicsRuleMatch _ _ => true | _ => false end.
Definition is_match (e : Evaluation) : bool :=
  existsb (fun m => negb (is_heuristics m)) (matched_rules e).

(** [None] is the panic of [expect]. *)
Definition from_matches (ms : list RuleMatch) : option Evaluation :=
  (fun d => mkEvaluation d ms) <$> iter_max (map match_decision ms).

Definition executable_lookup_key (raw : str) : str := raw.
Definition executable_path_lookup_key (p : PathBuf) : option str :=
  executable_lookup_key <$> file_name p.

Definition match_exact_rules (p : Policy) (cmd : list str) : option (list RuleMatch) :=
  match cmd with
  | [] => None
  | first :: _ =>
      Some (match get_vec (rules_by_program p) first with
            | Some rules => omap (fun r => rule_matches r cmd) rules
            | None => []
            end)
  end.

Section Evaluate.

(** The process environment [AbsolutePathBuf::try_from] consults. *)
Context (home_dir : option str) (current_dir : result PathError str).

Definition match_host_executable_rules (p : Policy) (cmd : list str) : list RuleMatch :=
  match cmd with
  | [] => []
  | first :: args =>
      match from_absolute_path home_dir current_dir first with
      | Err _ => []
      | Ok program =>
          match executable_path_lookup_key program with
          | None => []
          | Some basename =>
              match get_vec (rules_by_program p) basename with
              | None => []
              | Some rules =>
                  if (match host_executables_by_name p !! basename with
                      | Some paths => negb (existsb (fun q => bool_decide (q = program)) paths)
                      | None => false
                      end)
                  then []
                  else map (fun m => with_resolved_program m program)
                         (omap (fun r => rule_matches r (basename :: args)) rules)
              end
          end
      end
  end.

(** [.filter(|m| !m.is_empty())] *)
Definition nonempty {A} (o : option (list A)) : option (list A) :=
  match o with Some [] => None | o => o end.

(** The local [matched_rules]: the exact rules, or else (on request) those
    of the base name. *)
Definition lookup_rules (p : Policy) (cmd : list str) (options : MatchOptions) : list RuleMatch :=
  default []
    (match nonempty (match_exact_rules p cmd) with
     | Some ms => Some ms
     | None =>
         if resolve_host_executables options
         then nonempty (Some (match_host_executable_rules p cmd)) else None
     end).

Definition matches_for_command_with_options (p : Policy) (cmd : list str)
    (heuristics_fallback : option (list str -> Decision)) (options : MatchOptions) :
    list RuleMatch :=
  match lookup_rules p cmd options, heuristics_fallback with
  | [], Some h => [HeuristicsRuleMatch cmd (h cmd)]
  | matched, _ => matched
  end.

Definition matches_for_command (p : Policy) (cmd : list str)
    (heuristics_fallback : option (list str -> Decision)) : list RuleMatch :=
  matches_for_command_with_options p cmd heuristics_fallback default_options.

Definition check_with_options (p : Policy) (cmd : list str) (h : list str -> Decision)
    (options : MatchOptions) : option Evaluation :=
  from_matches (matches_for_command_with_options p cmd (Some h) options).

Definition check (p : Policy) (cmd : list str) (h : list str -> Decision) : option Evaluation :=
  check_with_options p cmd h default_options.

Definition check_multiple_with_options (p : Policy) (commands : list (list str))
    (h : list str -> Decision) (options : MatchOptions) : option Evaluation :=
  from_matches (concat (map (fun cmd =>
    matches_for_command_with_options p cmd (Some h) options) commands)).

Definition check_multiple (p : Policy) (commands : list (list str))
    (h : list str -> Decision) : option Evaluation :=
  check_multiple_with_options p commands h default_options.

End Evaluate.

(** ** Evaluation is total and takes the most severe decision *)

Lemma from_matches_Some ms e :
  from_matches ms = Some e <->
  matched_rules e = ms /\ ev_decision e ∈ map match_decision ms /\
  (forall m, m ∈ ms -> severity (match_decision m) <= severity (ev_decision e)).
Proof.
  unfold from_matches. rewrite fmap_Some. split.
  - intros (d & Hd & ->). apply iter_max_Some in Hd as [Hin Hmax]. cbn.
    split_and!; [done|done|]. intros m Hm. apply Hmax, list_elem_of_In, in_map.
    by apply list_elem_of_In.
  - intros (<- & Hin & Hmax). exists (ev_decision e). split; [|by destruct e].
    apply iter_max_Some. split; [done|].
    intros d (m & -> & Hm)%list_elem_of_fmap. auto.
Qed.

Lemma from_matches_total ms : ms <> [] -> exists e, from_matches ms = Some e.
Proof.
  intros H. unfold from_matches. destruct (iter_max _) eqn:E; [by eexists|].
  apply iter_max_None in E. by destruct ms.
Qed.

Section EvaluateFacts.

Context (home_dir : option str) (current_dir : result PathError str).

Abbreviation matches_for := (matches_for_command_with_options home_dir current_dir).

Lemma nonempty_Some {A} (o : option (list A)) l : nonempty o = Some l -> o = Some l /\ l <> [].
Proof. destruct o as [[|x r]|]; cbn; try done. intros [= <-]. done. Qed.

Lemma matches_for_nonempty p cmd h options : matches_for p cmd (Some h) options <> [].
Proof. unfold matches_for_command_with_options. by destruct (lookup_rules _ _ _ _ _). Qed.

Lemma matches_for_none p cmd options :
  matches_for p cmd None options = lookup_rules home_dir current_dir p cmd options.
Proof. unfold matches_for_command_with_options. by destruct (lookup_rules _ _ _ _ _). Qed.

(** What a looked-up match is: a rule of the exact program, or a rule of
    the base name of a permitted absolute program. *)
Lemma lookup_rules_elem p cmd options m :
  m ∈ lookup_rules home_dir current_dir p cmd options ->
  (exists first args rules r, cmd = first :: args /\
     rules_by_program p !! first = Some rules /\ r ∈ rules /\ rule_matches r cmd = Some m) \/
  (resolve_host_executables options = true /\ nonempty (match_exact_rules p cmd) = None /\
   exists first args program basename rules r m0, cmd = first :: args /\
     from_absolute_path home_dir current_dir first = Ok program /\
     executable_path_lookup_key program = Some basename /\
     rules_by_program p !! basename = Some rules /\ r ∈ rules /\
     (forall paths, host_executables_by_name p !! basename = Some paths -> program ∈ paths) /\
     rule_matches r (basename :: args) = Some m0 /\ m = with_resolved_program m0 program).
Proof.
  unfold lookup_rules. destruct (nonempty (match_exact_rules p cmd)) as [ms|] eqn:E.
  - apply nonempty_Some in E as [E _]. intros Hm. change (m ∈ ms) in Hm. left. destruct cmd as [|c args]; [done|].
    cbn in E. injection E as <-. unfold get_vec in Hm.
    destruct (_ !! c) as [rules|] eqn:Er; [|no_elem].
    apply list_elem_of_omap in Hm as (r & Hr & Hrm). by exists c, args, rules, r.
  - destruct (resolve_host_executables options); [|cbn; intros H; no_elem].
    destruct (nonempty (Some (match_host_executable_rules home_dir current_dir p cmd))) as [ms|] eqn:E2; [|cbn; intros H; no_elem].
    apply nonempty_Some in E2 as [[= <-] _]. cbn. intros Hm. right. split; [done|]. split; [done|].
    unfold match_host_executable_rules, get_vec in Hm. destruct cmd as [|c args]; [no_elem|].
    destruct (from_absolute_path _ _ _) as [prog|] eqn:Ep; [|no_elem].
    destruct (executable_path_lookup_key prog) as [base|] eqn:Eb; [|no_elem].
    destruct (rules_by_program p !! base) as [rules|] eqn:Er; [|no_elem].
    destruct (match _ with Some _ => _ | None => _ end) eqn:Eg; [no_elem|].
    apply list_elem_of_fmap in Hm as (m0 & -> & (r & Hr & Hrm)%list_elem_of_omap).
    exists c, args, prog, base, rules, r, m0. split_and!; try done.
    intros paths Hp. rewrite Hp in Eg. apply negb_false_iff, existsb_exists in Eg as (q & Hq & Hd).
    apply bool_decide_eq_true in Hd as ->. by apply list_elem_of_In.
Qed.

Lemma rule_matches_prefix r cmd m :
  rule_matches r cmd = Some m ->
  exists pre, m = PrefixRuleMatch pre (decision r) None (justification r)
    /\ matches_prefix (pattern r) cmd = Some pre.
Proof. unfold rule_matches. rewrite fmap_Some. naive_solver. Qed.

Lemma lookup_rules_not_heuristics p cmd options m :
  m ∈ lookup_rules home_dir current_dir p cmd options -> is_heuristics m = false.
Proof.
  intros [(c & args & rules & r & _ & _ & _ & Hm)|(_ & _ & c & args & prog & base & rules & r & m0 & _ & _ & _ & _ & _ & _ & Hm & ->)]%lookup_rules_elem;
    by apply rule_matches_prefix in Hm as (pre & -> & _).
Qed.

(** Evaluating a command never hits the [expect]: there is always a
    decision; it is the most severe of the matched rules' decisions; when
    no rule of the policy is found the single match is the heuristic's and
    the decision is the heuristic's; and [is_match] tells the two apart. *)
Theorem check_total p cmd h options :
  exists e, check_with_options home_dir current_dir p cmd h options = Some e /\
  ev_decision e ∈ map match_decision (matched_rules e) /\
  (forall m, m ∈ matched_rules e -> severity (match_decision m) <= severity (ev_decision e)) /\
  (if is_match e then matched_rules e = lookup_rules home_dir current_dir p cmd options
   else matched_rules e = [HeuristicsRuleMatch cmd (h cmd)] /\ ev_decision e = h cmd /\
        lookup_rules home_dir current_dir p cmd options = []).
Proof.
  destruct (from_matches_total _ (matches_for_nonempty p cmd h options)) as [e He].
  exists e. split; [done|]. apply from_matches_Some in He as (Hm & Hd & Hmax).
  rewrite Hm in *. split_and!; [done|done|]. unfold is_match. rewrite Hm.
  pose proof (lookup_rules_not_heuristics p cmd options) as Hh.
  unfold matches_for_command_with_options in *.
  destruct (lookup_rules _ _ _ _ _) as [|m ms].
  - cbn. cbn in Hd. apply list_elem_of_singleton in Hd. done.
  - cbn. rewrite (Hh m) by by left. done.
Qed.

Lemma check_of_matches p cmd h options :
  exists d, check_with_options home_dir current_dir p cmd h options =
    Some (mkEvaluation d (matches_for p cmd (Some h) options)) /\
  iter_max (map match_decision (matches_for p cmd (Some h) options)) = Some d.
Proof.
  destruct (from_matches_total _ (matches_for_nonempty p cmd h options)) as [e He].
  unfold check_with_options. rewrite He. unfold from_matches in He.
  apply fmap_Some in He as (d & Hd & ->). by exists d.
Qed.

Lemma check_multiple_Some p commands h options :
  commands <> [] ->
  exists e, check_multiple_with_options home_dir current_dir p commands h options = Some e /\
  matched_rules e = concat (map (fun cmd => matches_for p cmd (Some h) options) commands) /\
  ev_decision e ∈ map match_decision (matched_rules e) /\
  (forall m, m ∈ matched_rules e -> severity (match_decision m) <= severity (ev_decision e)).
Proof.
  intros Hne. unfold check_multiple_with_options.
  destruct (from_matches_total (concat (map (fun cmd => matches_for p cmd (Some h) options) commands)))
    as [e He].
  { destruct commands as [|c cs]; [done|]. cbn. intros [H _]%app_eq_nil.
    by apply (matches_for_nonempty p c h options). }
  exists e. split; [done|]. apply from_matches_Some in He as (Hm & Hd & Hmax).
  rewrite Hm. split_and!; [done|done|exact Hmax].
Qed.

(** A batch of commands gets the most severe of the decisions its
    commands get alone: one forbidden part forbids the whole, and the whole
    is allowed only if every part is.  Only the empty batch panics. *)
Theorem check_multiple_strictest p commands h options :
  match check_multiple_with_options home_dir current_dir p commands h options with
  | None => commands = []
  | Some e =>
      iter_max (omap (fun cmd => ev_decision <$>
        check_with_options home_dir current_dir p cmd h options) commands) = Some (ev_decision e)
  end.
Proof.
  unfold check_multiple_with_options.
  destruct (from_matches _) as [e|] eqn:He.
  - apply from_matches_Some in He as (_ & Hin & Hmax). apply iter_max_Some. split.
    + apply list_elem_of_fmap in Hin as (m & Hd & Hm).
      apply list_elem_of_In, in_concat in Hm as (ms & (cmd & <- & Hc)%in_map_iff & Hm).
      destruct (check_of_matches p cmd h options) as (d & Hcheck & Hmaxd).
      apply list_elem_of_omap. exists cmd. split; [by apply list_elem_of_In|].
      rewrite Hcheck. cbn. f_equal. apply iter_max_Some in Hmaxd as [Hdin Hdmax].
      apply severity_inj, Nat.le_antisymm.
      * apply list_elem_of_fmap in Hdin as (m' & -> & Hm'). apply Hmax.
        apply list_elem_of_In, in_concat. eexists; split; [by apply in_map|].
        by apply list_elem_of_In.
      * rewrite Hd. apply Hdmax, list_elem_of_In, in_map, Hm.
    + intros d (cmd & Hc & Hd)%list_elem_of_omap.
      destruct (check_of_matches p cmd h options) as (d' & Hcheck & Hmaxd).
      rewrite Hcheck in Hd. injection Hd as ->.
      apply iter_max_Some in Hmaxd as [(m & -> & Hm)%list_elem_of_fmap _]. apply Hmax.
      apply list_elem_of_In, in_concat. eexists; split;
        [apply in_map; by apply list_elem_of_In|by apply list_elem_of_In].
  - unfold from_matches in He. apply fmap_None, iter_max_None in He.
    destruct commands as [|c cs]; [done|]. exfalso. cbn in He.
    apply map_eq_nil, app_eq_nil in He as [He _]. by apply (matches_for_nonempty p c h options).
Qed.

(** Every matched rule is justified: it is a heuristic answer, a prefix
    match of a rule filed under the exact program, or (when asked for, and
    only if no exact rule matches) a match of a rule filed under the base
    name of an absolute program that the host-executable table, if it
    lists the name, contains. *)
Theorem matches_justified p cmd h options e m :
  check_with_options home_dir current_dir p cmd h options = Some e -> m ∈ matched_rules e ->
  match m with
  | HeuristicsRuleMatch c d => c = cmd /\ d = h cmd
  | PrefixRuleMatch pre d resolved _ =>
      exists args rules r used more, r ∈ rules /\ decision r = d /\
        matches_prefix (pattern r) (used :: args) = Some pre /\ used :: args = pre ++ more /\
        rules_by_program p !! used = Some rules /\
        match resolved with
        | None => cmd = used :: args
        | Some program =>
            resolve_host_executables options = true /\
            default [] (match_exact_rules p cmd) = [] /\
            (exists first, cmd = first :: args /\
               from_absolute_path home_dir current_dir first = Ok program) /\
            file_name program = Some used /\
            (forall paths, host_executables_by_name p !! used = Some paths -> program ∈ paths)
        end
  end.
Proof.
  intros He Hm. apply from_matches_Some in He as (Hms & _ & _). rewrite Hms in Hm.
  unfold matches_for_command_with_options in Hm.
  assert (m = HeuristicsRuleMatch cmd (h cmd) \/ m ∈ lookup_rules home_dir current_dir p cmd options)
    as [->|Hl].
  { destruct (lookup_rules _ _ _ _ _); [left|by right]. by apply list_elem_of_singleton in Hm. }
  { done. }
  clear Hm. apply lookup_rules_elem in Hl
    as [(c & args & rules & r & -> & Hrules & Hr & Hm)
       |(Hopt & Hex & c & args & prog & base & rules & r & m0 & -> & Hp & Hb & Hrules & Hr & Hg & Hm & ->)];
    apply rule_matches_prefix in Hm as (pre & -> & Hpre); cbn [with_resolved_program];
    destruct (proj1 (matches_prefix_spec _ _ _) Hpre) as (args' & more & -> & Happ & _).
  - exists args, rules, r, c, more. done.
  - exists args, rules, r, base, more. split_and!; try done.
    + by destruct (match_exact_rules p (c :: args)) as [[|]|].
    + by exists c.
    + unfold executable_path_lookup_key, executable_lookup_key in Hb.
      destruct (file_name prog); [|done]. cbn in Hb. congruence.
Qed.

(** *** Merging *)

Lemma insert_list_vec (m : MultiMap) (k k' : str) rs :
  vec_of (fold_left (fun m r => multimap_insert k r m) rs m) k' =
  vec_of m k' ++ (if decide (k = k') then rs else []).
Proof.
  revert m. induction rs as [|r rs IH]; intros m; cbn [fold_left].
  { destruct (decide _); by rewrite app_nil_r. }
  rewrite IH. unfold multimap_insert. destruct (decide (k = k')) as [->|Hne].
  - rewrite lookup_insert_eq. cbn. by rewrite <- app_assoc.
  - by rewrite lookup_insert_ne.
Qed.

Lemma insert_all_vec (l : list (str * list PrefixRule)) (m : MultiMap) (k : str) :
  NoDup l.*1 ->
  vec_of (insert_all m l) k = vec_of m k ++ vec_of (list_to_map l : MultiMap) k.
Proof.
  revert m. induction l as [|[k' rs] l IH]; intros m Hnd; cbn.
  { by rewrite lookup_empty, app_nil_r. }
  apply NoDup_cons in Hnd as [Hk' Hnd]. unfold insert_all in IH. rewrite IH by done.
  rewrite insert_list_vec. destruct (decide (k' = k)) as [->|Hne].
  - rewrite lookup_insert_eq. cbn. rewrite <- app_assoc. f_equal.
    rewrite not_elem_of_list_to_map_1 by done. cbn. by rewrite app_nil_r.
  - rewrite lookup_insert_ne by done. by rewrite app_nil_r.
Qed.

Lemma merge_overlay_vec p q k :
  vec_of (rules_by_program (merge_overlay p q)) k =
  vec_of (rules_by_program p) k ++ vec_of (rules_by_program q) k.
Proof.
  cbn. rewrite insert_all_vec by apply NoDup_fst_map_to_list.
  by rewrite list_to_map_to_list.
Qed.

(** The matches of a command under its exact program. *)
Definition exact_matches (p : Policy) (cmd : list str) : list RuleMatch :=
  default [] (match_exact_rules p cmd).

Lemma exact_matches_vec p c args :
  exact_matches p (c :: args) =
  omap (fun r => rule_matches r (c :: args)) (vec_of (rules_by_program p) c).
Proof. unfold exact_matches. cbn. unfold get_vec. by destruct (_ !! c). Qed.

Lemma exact_matches_merge p q cmd :
  exact_matches (merge_overlay p q) cmd = exact_matches p cmd ++ exact_matches q cmd.
Proof.
  destruct cmd as [|c args]; [done|].
  by rewrite !exact_matches_vec, merge_overlay_vec, omap_app.
Qed.

Lemma matches_for_exact p cmd h options :
  exact_matches p cmd <> [] -> matches_for p cmd h options = exact_matches p cmd.
Proof.
  unfold exact_matches, matches_for_command_with_options, lookup_rules.
  destruct (match_exact_rules p cmd) as [[|m ms]|]; done.
Qed.

(** *** Adding a rule *)

Lemma add_prefix_vec p f rest d p' k :
  add_prefix_rule p (f :: rest) d = Ok p' ->
  vec_of (rules_by_program p') k = vec_of (rules_by_program p) k ++
    (if decide (f = k) then [mkPrefixRule (mkPrefixPattern f (map Single rest)) d None] else []).
Proof.
  intros [= <-]. cbn [rules_by_program].
  apply (insert_list_vec _ f k [mkPrefixRule (mkPrefixPattern f (map Single rest)) d None]).
Qed.

Lemma literal_prefix f toks cmd pre :
  matches_prefix (mkPrefixPattern f (map Single toks)) cmd = Some pre <->
  pre = f :: toks /\ exists more, cmd = pre ++ more.
Proof.
  rewrite matches_prefix_spec. cbn [first rest].
  assert (forall args, Forall2 accepts (map Single toks) args <-> args = toks) as Hacc.
  { clear. induction toks as [|t toks IH]; intros [|a args]; cbn.
    - split; [done|constructor].
    - by split; [intros ?%Forall2_nil_inv_l|].
    - by split; [intros ?%Forall2_cons_nil_inv|].
    - rewrite Forall2_cons, IH. unfold accepts. cbn. rewrite list_elem_of_singleton.
      naive_solver. }
  split.
  - intros (args & more & -> & -> & Hargs%Hacc). subst. eauto.
  - intros (-> & more & ->). exists toks, more. split_and!; [done|done|by apply Hacc].
Qed.

(** [add_prefix_rule] does what it says: it refuses only the empty
    prefix; afterwards every command that starts with the prefix matches
    it and gets a decision at least as severe as the one added, and every
    other command is matched as before. *)
Theorem add_prefix_rule_effective p prefix d h :
  match add_prefix_rule p prefix d with
  | Err _ => prefix = []
  | Ok p' =>
      prefix <> [] /\
      (forall args options, exists e,
         check_with_options home_dir current_dir p' (prefix ++ args) h options = Some e /\
         PrefixRuleMatch prefix d None None ∈ matched_rules e /\
         severity d <= severity (ev_decision e)) /\
      (forall cmd, (forall more, cmd <> prefix ++ more) ->
         check home_dir current_dir p' cmd h = check home_dir current_dir p cmd h)
  end.
Proof.
  destruct prefix as [|f toks]; [done|].
  destruct (add_prefix_rule p (f :: toks) d) as [p'|] eqn:Hadd; [|done].
  pose proof (fun k => add_prefix_vec p f toks d p' k Hadd) as Hvec.
  split_and!; [done| |].
  - intros args options. cbn [app].
    assert (PrefixRuleMatch (f :: toks) d None None ∈ exact_matches p' (f :: toks ++ args)) as Hin.
    { rewrite exact_matches_vec, Hvec, decide_True, omap_app by done.
      apply elem_of_app. right. apply list_elem_of_omap.
      exists (mkPrefixRule (mkPrefixPattern f (map Single toks)) d None). split; [by left|].
      unfold rule_matches. cbn [pattern decision justification].
      rewrite (proj2 (literal_prefix f toks _ (f :: toks))); [done|]. split; [done|]. by exists args. }
    assert (exact_matches p' (f :: toks ++ args) <> []) as Hne.
    { intros E. rewrite E in Hin. no_elem. }
    unfold check_with_options. rewrite matches_for_exact by done.
    destruct (from_matches_total _ Hne) as [e He]. exists e. split; [done|].
    apply from_matches_Some in He as (-> & _ & Hmax). split; [done|]. by apply (Hmax _ Hin).
  - intros cmd Hcmd. unfold check, check_with_options. f_equal.
    unfold matches_for_command_with_options, lookup_rules. cbn [resolve_host_executables default_options].
    enough (match_exact_rules p' cmd = match_exact_rules p cmd) as -> by done.
    destruct cmd as [|c args]; [done|].
    assert (exact_matches p' (c :: args) = exact_matches p (c :: args)) as E.
    { rewrite !exact_matches_vec, Hvec, omap_app.
      destruct (decide (f = c)) as [<-|]; [|by rewrite app_nil_r].
      set (r := mkPrefixRule _ _ _).
      assert (rule_matches r (f :: args) = None) as Hnone.
      { destruct (rule_matches r (f :: args)) eqn:Em; [|done].
        apply rule_matches_prefix in Em as (pre & _ & Em).
        apply literal_prefix in Em as (-> & more & Em). by destruct (Hcmd more). }
      assert (omap (fun r => rule_matches r (f :: args)) [r] = []) as ->; [|by rewrite app_nil_r].
      cbn [omap list_omap]. by rewrite Hnone. }
    unfold exact_matches in E. cbn in E. cbn. by rewrite E.
Qed.

(** A command starting with a fresh prefix matches the new rule. *)
Lemma add_prefix_match p prefix d p' args options :
  add_prefix_rule p prefix d = Ok p' ->
  PrefixRuleMatch prefix d None None ∈ lookup_rules home_dir current_dir p' (prefix ++ args) options.
Proof.
  destruct prefix as [|f toks]; [done|]. intros Hadd. cbn [app].
  assert (PrefixRuleMatch (f :: toks) d None None ∈ exact_matches p' (f :: toks ++ args)) as Hin.
  { rewrite exact_matches_vec, (add_prefix_vec p f toks d p' f Hadd), decide_True, omap_app by done.
    apply elem_of_app. right. apply list_elem_of_omap.
    exists (mkPrefixRule (mkPrefixPattern f (map Single toks)) d None). split; [by left|].
    unfold rule_matches. cbn [pattern decision justification].
    rewrite (proj2 (literal_prefix f toks _ (f :: toks))); [done|]. split; [done|]. by exists args. }
  assert (exact_matches p' (f :: toks ++ args) <> []) as Hne.
  { intros E. rewrite E in Hin. no_elem. }
  rewrite <- matches_for_none, matches_for_exact by done. done.
Qed.

(** A command no rule matched is decided by a rule added for it. *)
Lemma add_prefix_decides p cmd d p' h options :
  lookup_rules home_dir current_dir p cmd options = [] -> add_prefix_rule p cmd d = Ok p' ->
  ev_decision <$> check_with_options home_dir current_dir p' cmd h options = Some d.
Proof.
  intros Hl Hadd. destruct cmd as [|f toks]; [done|].
  assert (exact_matches p (f :: toks) = []) as He.
  { destruct (exact_matches p (f :: toks)) as [|m ms] eqn:E; [done|].
    rewrite <- matches_for_none, matches_for_exact in Hl by (by rewrite E). congruence. }
  assert (exact_matches p' (f :: toks) = [PrefixRuleMatch (f :: toks) d None None]) as He'.
  { rewrite exact_matches_vec in He |- *.
    rewrite (add_prefix_vec p f toks d p' f Hadd), decide_True, omap_app, He by done.
    cbn [app omap list_omap]. unfold rule_matches. cbn [pattern decision justification].
    rewrite (proj2 (literal_prefix f toks (f :: toks) (f :: toks))); [done|].
    split; [done|]. exists []. by rewrite app_nil_r. }
  unfold check_with_options. rewrite matches_for_exact by (by rewrite He'). by rewrite He'.
Qed.

(** C3. An overlay cannot relax a decision: when the exact program has a
    matching rule in the base or in the overlay, the merged policy matches
    the rules of both, base first, and its decision is at least as severe
    as the one either gives by a matching rule. *)
Theorem merge_overlay_strictest p q cmd h options :
  exact_matches p cmd ++ exact_matches q cmd <> [] ->
  exists e, check_with_options home_dir current_dir (merge_overlay p q) cmd h options = Some e /\
  matched_rules e = exact_matches p cmd ++ exact_matches q cmd /\
  forall r er, r = p \/ r = q -> exact_matches r cmd <> [] ->
    check_with_options home_dir current_dir r cmd h options = Some er ->
    severity (ev_decision er) <= severity (ev_decision e).
Proof.
  intros Hne. rewrite <- exact_matches_merge in *. unfold check_with_options.
  rewrite (matches_for_exact (merge_overlay p q)) by done.
  destruct (from_matches_total _ Hne) as [e He]. exists e. split; [done|].
  apply from_matches_Some in He as (Hm & _ & Hmax). split; [done|].
  intros r er Hr Hrne Her. rewrite matches_for_exact in Her by done.
  apply from_matches_Some in Her as (_ & (m & -> & Hin)%list_elem_of_fmap & _).
  apply Hmax. rewrite exact_matches_merge. apply elem_of_app. destruct Hr as [->| ->]; auto.
Qed.

End EvaluateFacts.

(** The exact program shadows the base name, so an overlay rule for the
    absolute path replaces what the base says of the base name: only exact
    rules are protected by [merge_overlay_strictest]. *)
Example overlay_shadows_base_name :
  let rule prog d := mkPrefixRule (mkPrefixPattern prog []) d None in
  let base := new {["git" := [rule "git" Forbidden]]} in
  let overlay := new {["/usr/bin/git" := [rule "/usr/bin/git" Allow]]} in
  let options := mkMatchOptions true in
  let run p := ev_decision <$> check_with_options None (Ok "/") p ["/usr/bin/git"; "push"]
                 (fun _ => Prompt) options in
  run base = Some Forbidden /\ run (merge_overlay base overlay) = Some Allow.
Proof. vm_compute. split; reflexivity. Qed.

Lemma merge_overlay_strictest_witness :
  let rule d := mkPrefixRule (mkPrefixPattern "git" [Single "push"]) d None in
  let base := new {["git" := [rule Prompt]]} in
  let overlay := new {["git" := [rule Allow]]} in
  let cmd := ["git"; "push"; "-f"] in
  exact_matches base cmd ++ exact_matches overlay cmd <> [] /\
  exists e, check_with_options None (Ok "/") (merge_overlay base overlay) cmd
      (fun _ => Allow) default_options = Some e /\
    matched_rules e = exact_matches base cmd ++ exact_matches overlay cmd /\
    forall r er, r = base \/ r = overlay -> exact_matches r cmd <> [] ->
      check_with_options None (Ok "/") r cmd (fun _ => Allow) default_options = Some er ->
      severity (ev_decision er) <= severity (ev_decision e).
Proof. intros. split; [done|]. by apply merge_overlay_strictest. Defined.

(** ** Network domains *)

(** The rules that say anything of a host, and what the last one says. *)
Definition effective (h : str) (r : NetworkRule) : Prop := host r = h /\ net_decision r <> Prompt.
#[export] Instance effective_dec h r : base.Decision (effective h r).
Proof. unfold effective. apply _. Defined.
Definition last_decision (h : str) (rules : list NetworkRule) : option Decision :=
  net_decision <$> last (filter (effective h) rules).

Lemma elem_of_retain h e l : e ∈ retain_not h l <-> e <> h /\ e ∈ l.
Proof. unfold retain_not. by rewrite list_elem_of_filter. Qed.

Lemma elem_of_upsert h e l : e ∈ upsert_domain l h <-> e = h \/ e ∈ l.
Proof.
  unfold upsert_domain. rewrite elem_of_app, elem_of_retain, list_elem_of_singleton.
  destruct (decide (e = h)); naive_solver.
Qed.

Lemma NoDup_retain h l : NoDup l -> NoDup (retain_not h l).
Proof. apply NoDup_filter. Qed.

Lemma NoDup_upsert h l : NoDup l -> NoDup (upsert_domain l h).
Proof.
  intros H. unfold upsert_domain. apply NoDup_app. split_and!.
  - by apply NoDup_retain.
  - intros e [He _]%elem_of_retain. by rewrite list_elem_of_singleton.
  - apply NoDup_singleton.
Qed.

Lemma last_decision_snoc h rules r :
  last_decision h (rules ++ [r]) =
  if decide (effective h r) then Some (net_decision r) else last_decision h rules.
Proof.
  unfold last_decision. rewrite filter_app. destruct (decide (effective h r)).
  - rewrite filter_cons_True by done. by rewrite filter_nil, last_snoc.
  - by rewrite filter_cons_False, filter_nil, app_nil_r.
Qed.

(** The compiled allow and deny lists have no repetitions, and a host is
    in one of them exactly when the last rule about it that is not a prompt
    rule says so: later rules override earlier ones, prompt rules change
    nothing, and no host is ever on both lists. *)
Theorem compiled_network_domains_last p :
  let '(allowed, denied) := compiled_network_domains p in
  NoDup allowed /\ NoDup denied /\
  forall h, (h ∈ allowed <-> last_decision h (network_rules p) = Some Allow) /\
            (h ∈ denied <-> last_decision h (network_rules p) = Some Forbidden).
Proof.
  unfold compiled_network_domains. induction (network_rules p) as [|r rules IH] using rev_ind.
  { cbn. split_and!; [constructor|constructor|]. intros h.
    split; split; try done; by intros ?%not_elem_of_nil. }
  rewrite fold_left_app. destruct (fold_left _ _ _) as [a d]. destruct IH as (Ha & Hd & Hh).
  cbn [fold_left compile_rule].
  destruct (net_decision r) eqn:Er; split_and!; auto using NoDup_upsert, NoDup_retain;
    intros h; rewrite last_decision_snoc, Er, ?elem_of_upsert, ?elem_of_retain;
    destruct (Hh h) as [-> ->]; destruct (decide (effective h r)) as [[<- Hp]|Hr];
    try (by rewrite Er in Hp); try (assert (h <> host r) by (by intros ->; apply Hr; split; congruence));
    intuition congruence.
Qed.

(** ** Allowed prefixes *)

Lemma prefix_compare_laws : cmp_laws prefix_compare.
Proof. apply list_compare_laws, list_compare_laws, N_compare_laws. Qed.

#[export] Instance prefix_le_trans : Transitive prefix_le := cmp_le_trans prefix_compare_laws.
#[export] Instance prefix_le_total : Total prefix_le := cmp_le_total prefix_compare_laws.

Lemma prefix_lt_le a b : prefix_le a b -> a <> b -> prefix_lt a b.
Proof.
  unfold prefix_le, cmp_le, prefix_lt. destruct prefix_compare_laws as [He _ _]. specialize (He a b).
  destruct (prefix_compare a b); naive_solver.
Qed.

Lemma dedup_sorted l : StronglySorted prefix_le l -> StronglySorted prefix_lt (dedup l).
Proof.
  induction 1 as [|y l Hl IH Hy]; [constructor|]. destruct l as [|z l]; [by repeat constructor|].
  change (dedup (y :: z :: l)) with
    (if decide (y = z) then dedup (z :: l) else y :: dedup (z :: l)).
  destruct (decide (y = z)) as [->|Hne]; [done|]. constructor; [done|].
  apply Forall_forall. intros x Hx. apply (proj1 (elem_of_dedup _ _)) in Hx.
  apply Forall_cons in Hy as [Hyz Hyl]. pose proof (prefix_lt_le _ _ Hyz Hne) as Hlt.
  apply elem_of_cons in Hx as [->|Hx]; [done|].
  apply StronglySorted_inv in Hl as [_ Hz]. rewrite Forall_forall in Hz. specialize (Hz _ Hx).
  destruct (decide (z = x)) as [->|Hzx]; [done|].
  apply prefix_compare_laws with z; [done|by apply prefix_lt_le].
Qed.

(** The allowed prefixes are exactly the rendered prefixes of the allow
    rules, in strictly increasing order (so without repetitions), whatever
    the iteration order of the rule table. *)
Theorem get_allowed_prefixes_spec p :
  StronglySorted prefix_lt (get_allowed_prefixes p) /\
  forall x, x ∈ get_allowed_prefixes p <->
    exists k rules r, rules_by_program p !! k = Some rules /\ r ∈ rules /\
      decision r = Allow /\ x = rule_prefix r.
Proof.
  unfold get_allowed_prefixes. split.
  - apply dedup_sorted, StronglySorted_merge_sort; apply _.
  - intros x. rewrite elem_of_dedup, merge_sort_Permutation, list_elem_of_In, in_concat. split.
    + intros (ps & Hps & Hx). apply in_map_iff in Hps as ([k rules] & <- & Hk).
      apply list_elem_of_In, elem_of_map_to_list in Hk.
      apply in_map_iff in Hx as (r & <- & Hr).
      apply list_elem_of_In, list_elem_of_filter in Hr as [Hd Hr]. by exists k, rules, r.
    + intros (k & rules & r & Hk & Hr & Hd & ->). eexists. split.
      * apply in_map_iff. exists (k, rules). split; [done|].
        by apply list_elem_of_In, elem_of_map_to_list.
      * apply in_map, list_elem_of_In, list_elem_of_filter. done.
Qed.

Lemma matches_justified_witness :
  let rule := mkPrefixRule (mkPrefixPattern "git" [Alts ["push"; "pull"]]) Forbidden None in
  let git := [RootDir; Normal "usr"; Normal "bin"; Normal "git"] in
  let p := mkPolicy {["git" := [rule]]} [] {["git" := [git]]} in
  let cmd := ["/usr/bin/../bin/git"; "pull"; "-f"] in
  let m := PrefixRuleMatch ["git"; "pull"] Forbidden (Some git) None in
  let e := mkEvaluation Forbidden [m] in
  check_with_options None (Ok "/") p cmd (fun _ => Allow) (mkMatchOptions true) = Some e /\
  m ∈ matched_rules e /\
  exists args rules r used more, r ∈ rules /\ decision r = Forbidden /\
    matches_prefix (pattern r) (used :: args) = Some ["git"; "pull"] /\
    used :: args = ["git"; "pull"] ++ more /\
    rules_by_program p !! used = Some rules /\
    true = true /\ default [] (match_exact_rules p cmd) = [] /\
    (exists first, cmd = first :: args /\ from_absolute_path None (Ok "/") first = Ok git) /\
    file_name git = Some used /\
    (forall paths, host_executables_by_name p !! used = Some paths -> git ∈ paths).
Proof.
  cbv zeta. match goal with |- ?A /\ ?B /\ _ =>
    assert (A) as He by (vm_compute; reflexivity); assert (B) as Hm by (by left) end.
  split; [exact He|]. split; [exact Hm|].
  exact (matches_justified None (Ok "/") _ _ _ _ _ _ He Hm).
Defined.
