(* ===== verification/PolicyParser.v ===== *)
(** * PolicyParser: building a policy from a rules file

    [codex-rs/execpolicy/src/parser.rs] and the example validation of
    [rule.rs].  Starlark is a third-party interpreter: its values are an
    abstract type with the three observations the code makes, and the run
    of a file is the sequence of built-in calls it makes, up to the first
    error. *)

From S2P Require Import Prelude RustStr AbsolutePath ExecRule ExecPolicy.
Open Scope str_scope.

Record PendingExampleValidation := mkPending {
  pv_rules : list PrefixRule;
  pv_matches : list (list str);
  pv_not_matches : list (list str);
  pv_location : option ErrorLocation;
}.

Record PolicyBuilder := mkBuilder {
  b_rules_by_program : MultiMap;
  b_network_rules : list NetworkRule;
  b_host_executables_by_name : gmap str (list PathBuf);
  pending_example_validations : list PendingExampleValidation;
}.

Definition builder_new : PolicyBuilder := mkBuilder ∅ [] ∅ [].

Definition add_rule (r : PrefixRule) (b : PolicyBuilder) : PolicyBuilder :=
  mkBuilder (multimap_insert (program r) r (b_rules_by_program b)) (b_network_rules b)
    (b_host_executables_by_name b) (pending_example_validations b).
Definition builder_add_network_rule (r : NetworkRule) (b : PolicyBuilder) : PolicyBuilder :=
  mkBuilder (b_rules_by_program b) (b_network_rules b ++ [r])
    (b_host_executables_by_name b) (pending_example_validations b).
Definition add_host_executable (name : str) (paths : list PathBuf) (b : PolicyBuilder) :
    PolicyBuilder :=
  mkBuilder (b_rules_by_program b) (b_network_rules b)
    (<[name := paths]> (b_host_executables_by_name b)) (pending_example_validations b).
Definition add_pending_example_validation (v : PendingExampleValidation) (b : PolicyBuilder) :
    PolicyBuilder :=
  mkBuilder (b_rules_by_program b) (b_network_rules b)
    (b_host_executables_by_name b) (pending_example_validations b ++ [v]).

Definition build (b : PolicyBuilder) : Policy :=
  mkPolicy (b_rules_by_program b) (b_network_rules b) (b_host_executables_by_name b).

Definition parse_network_rule_decision (raw : str) : result Error Decision :=
  if decide (raw = "deny") then Ok Forbidden else decision_parse raw.

Definition validate_host_executable_name (name : str) : result Error unit :=
  if is_empty name then Err (InvalidRule "host_executable name cannot be empty")
  else if negb (length (components name) =? 1)
          || negb (bool_decide (file_name (components name) = Some name))
  then Err (InvalidRule
    ("host_executable name must be a bare executable name (got " ++ name ++ ")"))
  else Ok tt.

Definition attach_validation_location (e : Error) (location : option ErrorLocation) : Error :=
  match location with Some location => with_location e location | None => e end.

(** The collection of an iterator of results stops at the first error. *)
Fixpoint collect {A B} (f : A -> result Error B) (l : list A) : result Error (list B) :=
  match l with
  | [] => Ok []
  | x :: l => y ← f x; ys ← collect f l; Ok (y :: ys)
  end.

Section Parser.

(** The Starlark value: its string, its elements, its type's name. *)
Context {Value : Type} (unpack_str : Value -> option str)
  (list_content : Value -> option (list Value)) (get_type : Value -> str).
(** [shlex::split], [shlex::try_join], the [Debug] text of a rule and of a
    match, and the environment of [AbsolutePathBuf::try_from]. *)
Context (shlex_split : str -> option (list str)) (try_join : list str -> option str)
  (debug_rule : PrefixRule -> str) (debug_match : RuleMatch -> str)
  (home_dir : option str) (current_dir : result PathError str)
  (debug_path_error : PathError -> str).

Definition unpack_or (prefix suffix : str) (mk : str -> Error) (v : Value) : result Error str :=
  match unpack_str v with
  | Some s => Ok s
  | None => Err (mk (prefix ++ get_type v ++ suffix))
  end.

Definition parse_pattern_token (value : Value) : result Error PatternToken :=
  match unpack_str value with
  | Some s => Ok (Single s)
  | None =>
      match list_content value with
      | Some content =>
          tokens ← collect
            (unpack_or "pattern alternative must be a string (got " ")" InvalidPattern) content;
          match tokens with
          | [] => Err (InvalidPattern "pattern alternatives cannot be empty")
          | [single] => Ok (Single single)
          | _ => Ok (Alts tokens)
          end
      | None => Err (InvalidPattern
          ("pattern element must be a string or list of strings (got " ++ get_type value ++ ")"))
      end
  end.

Definition parse_pattern (pattern : list Value) : result Error (list PatternToken) :=
  tokens ← collect parse_pattern_token pattern;
  if is_empty tokens then Err (InvalidPattern "pattern cannot be empty") else Ok tokens.

Definition parse_string_example (raw : str) : result Error (list str) :=
  match shlex_split raw with
  | None => Err (InvalidExample "example string has invalid shell syntax")
  | Some [] => Err (InvalidExample "example cannot be an empty string")
  | Some tokens => Ok tokens
  end.

Definition parse_list_example (content : list Value) : result Error (list str) :=
  tokens ← collect (unpack_or "example tokens must be strings (got " ")" InvalidExample) content;
  if is_empty tokens then Err (InvalidExample "example cannot be an empty list") else Ok tokens.

Definition parse_example (value : Value) : result Error (list str) :=
  match unpack_str value with
  | Some raw => parse_string_example raw
  | None =>
      match list_content value with
      | Some content => parse_list_example content
      | None => Err (InvalidExample
          ("example must be a string or list of strings (got " ++ get_type value ++ ")"))
      end
  end.

Definition parse_examples (examples : list Value) : result Error (list (list str)) :=
  collect parse_example examples.

(** [.map(parse_examples).transpose()?.unwrap_or_default()] *)
Definition parse_optional_examples (examples : option (list Value)) :
    result Error (list (list str)) :=
  match examples with Some l => parse_examples l | None => Ok [] end.

Definition parse_literal_absolute_path (raw : str) : result Error PathBuf :=
  if negb (is_absolute raw)
  then Err (InvalidRule ("host_executable paths must be absolute (got " ++ raw ++ ")"))
  else map_err (fun e => InvalidRule
         ("invalid absolute path `" ++ raw ++ "`: " ++ debug_path_error e))
         (from_absolute_path home_dir current_dir raw).

(** *** The built-in functions *)

Definition parse_justification (j : option str) : result Error (option str) :=
  if blank_justification j then Err (InvalidRule "justification cannot be empty") else Ok j.

Definition prefix_rule (pattern : list Value) (d : option str)
    (matches not_matches : option (list Value)) (j : option str)
    (location : option ErrorLocation) (b : PolicyBuilder) : result Error PolicyBuilder :=
  d ← match d with Some raw => decision_parse raw | None => Ok Allow end;
  j ← parse_justification j;
  pattern_tokens ← parse_pattern pattern;
  matches ← parse_optional_examples matches;
  not_matches ← parse_optional_examples not_matches;
  match pattern_tokens with
  | [] => Err (InvalidPattern "pattern cannot be empty")
  | first_token :: rest =>
      let rules := map (fun hd => mkPrefixRule (mkPrefixPattern hd rest) d j)
                     (alternatives first_token) in
      Ok (fold_left (fun b r => add_rule r b) rules
            (add_pending_example_validation (mkPending rules matches not_matches location) b))
  end.

Definition network_rule (h proto d : str) (j : option str) (b : PolicyBuilder) :
    result Error PolicyBuilder :=
  proto ← protocol_parse proto;
  d ← parse_network_rule_decision d;
  j ← parse_justification j;
  h ← normalize_network_rule_host h;
  Ok (builder_add_network_rule (mkNetworkRule h proto d j) b).

(** The loop over the paths of one [host_executable] call. *)
Fixpoint parse_paths (name : str) (paths : list Value) (parsed : list PathBuf) :
    result Error (list PathBuf) :=
  match paths with
  | [] => Ok parsed
  | value :: paths =>
      raw ← unpack_or "host_executable paths must be strings (got " ")" InvalidRule value;
      path ← parse_literal_absolute_path raw;
      let wrong := InvalidRule
        ("host_executable path `" ++ raw ++ "` must have basename `" ++ name ++ "`") in
      match executable_path_lookup_key path with
      | None => Err wrong
      | Some path_name =>
          if bool_decide (path_name <> executable_lookup_key name) then Err wrong
          else parse_paths name paths
                 (if existsb (fun q => bool_decide (q = path)) parsed
                  then parsed else parsed ++ [path])
      end
  end.

Definition host_executable (name : str) (paths : list Value) (b : PolicyBuilder) :
    result Error PolicyBuilder :=
  _ ← validate_host_executable_name name;
  parsed ← parse_paths name paths [];
  Ok (add_host_executable (executable_lookup_key name) parsed b).

(** *** Validating the examples *)

Definition render_example (example : list str) : str :=
  default "unable to render example" (try_join example).

Definition example_matches (p : Policy) (example : list str) : list RuleMatch :=
  matches_for_command_with_options home_dir current_dir p example None (mkMatchOptions true).

Definition validate_match_examples (p : Policy) (rules : list PrefixRule)
    (matches : list (list str)) : result Error unit :=
  let unmatched := map render_example
    (filter (fun example => is_empty (example_matches p example) = true) matches) in
  if is_empty unmatched then Ok tt
  else Err (ExampleDidNotMatch (map debug_rule rules) unmatched None).

Fixpoint validate_not_match_examples (p : Policy) (not_matches : list (list str)) :
    result Error unit :=
  match not_matches with
  | [] => Ok tt
  | example :: rest =>
      match example_matches p example with
      | rule :: _ => Err (ExampleDidMatch (debug_match rule) (render_example example) None)
      | [] => validate_not_match_examples p rest
      end
  end.

(** The policy of one validation: the rules of the call, under the
    builder's host executables. *)
Definition validation_policy (b : PolicyBuilder) (v : PendingExampleValidation) : Policy :=
  mkPolicy (fold_left (fun m r => multimap_insert (program r) r m) (pv_rules v) ∅) []
    (b_host_executables_by_name b).

Fixpoint validate_pending (b : PolicyBuilder) (vs : list PendingExampleValidation) :
    result Error unit :=
  match vs with
  | [] => Ok tt
  | v :: vs =>
      let p := validation_policy b v in
      _ ← map_err (fun e => attach_validation_location e (pv_location v))
            (validate_not_match_examples p (pv_not_matches v));
      _ ← map_err (fun e => attach_validation_location e (pv_location v))
            (validate_match_examples p (pv_rules v) (pv_matches v));
      validate_pending b vs
  end.

Definition validate_pending_examples_from (b : PolicyBuilder) (start : nat) : result Error unit :=
  validate_pending b (drop start (pending_example_validations b)).

(** *** Running a file *)

Inductive BuiltinCall :=
| CallPrefixRule (pattern : list Value) (d : option str)
    (matches not_matches : option (list Value)) (j : option str) (location : option ErrorLocation)
| CallNetworkRule (h proto d : str) (j : option str)
| CallHostExecutable (name : str) (paths : list Value).

Definition run_call (c : BuiltinCall) (b : PolicyBuilder) : result Error PolicyBuilder :=
  match c with
  | CallPrefixRule pattern d ms nms j location => prefix_rule pattern d ms nms j location b
  | CallNetworkRule h proto d j => network_rule h proto d j b
  | CallHostExecutable name paths => host_executable name paths b
  end.

(** A call that fails leaves the builder as the calls before it made it,
    and ends the run. *)
Fixpoint run_calls (calls : list BuiltinCall) (b : PolicyBuilder) :
    PolicyBuilder * result Error unit :=
  match calls with
  | [] => (b, Ok tt)
  | c :: calls =>
      match run_call c b with
      | Ok b' => run_calls calls b'
      | Err e => (b, Err e)
      end
  end.

(** [PolicyParser::parse] of a file that makes these calls: the parser keeps
    the builder, errors included. *)
Definition parse (calls : list BuiltinCall) (b : PolicyBuilder) :
    PolicyBuilder * result Error unit :=
  let pending_validation_count := length (pending_example_validations b) in
  let '(b', r) := run_calls calls b in
  match r with
  | Err e => (b', Err e)
  | Ok _ => (b', validate_pending_examples_from b' pending_validation_count)
  end.

(** ** Well-formed policies *)

Definition wf_token (t : PatternToken) : Prop :=
  match t with Single _ => True | Alts l => 2 <= length l end.

Definition wf_rules (m : MultiMap) : Prop :=
  forall k r, r ∈ vec_of m k ->
    program r = k /\ Forall wf_token (rest (pattern r)) /\
    blank_justification (justification r) = false.

Definition wf_network_rule (r : NetworkRule) : Prop :=
  host r <> [] /\
  Forall (fun c => host_char c = true /\ is_ascii_uppercase c = false) (host r) /\
  blank_justification (net_justification r) = false.

Definition wf_hosts (m : gmap str (list PathBuf)) : Prop :=
  forall name paths, m !! name = Some paths ->
    NoDup paths /\ forall q, q ∈ paths -> normal_abs q /\ file_name q = Some name.

Definition wf_policy (p : Policy) : Prop :=
  wf_rules (rules_by_program p) /\ Forall wf_network_rule (network_rules p) /\
  wf_hosts (host_executables_by_name p).

(** The rules a pending validation names are in the table. *)
Definition pending_filed (b : PolicyBuilder) : Prop :=
  forall v r, v ∈ pending_example_validations b -> r ∈ pv_rules v ->
    r ∈ vec_of (b_rules_by_program b) (program r).

Definition builder_inv (b : PolicyBuilder) : Prop := wf_policy (build b) /\ pending_filed b.

(** Every parser and every policy the public operations can make. *)
Inductive parser_state : PolicyBuilder -> Prop :=
| parser_new : parser_state builder_new
| parser_parse b calls : parser_state b -> parser_state (fst (parse calls b)).

Inductive policy_state : Policy -> Prop :=
| policy_empty : policy_state empty
| policy_built b : parser_state b -> policy_state (build b)
| policy_add_prefix p prefix d p' :
    policy_state p -> add_prefix_rule p prefix d = Ok p' -> policy_state p'
| policy_add_network p h proto d j p' :
    policy_state p -> add_network_rule p h proto d j = Ok p' -> policy_state p'
| policy_merge p q : policy_state p -> policy_state q -> policy_state (merge_overlay p q).

Lemma vec_insert_elem (m : MultiMap) k r k' x :
  x ∈ vec_of (multimap_insert k r m) k' <-> x ∈ vec_of m k' \/ (k' = k /\ x = r).
Proof.
  unfold multimap_insert. destruct (decide (k' = k)) as [->|Hne].
  - rewrite lookup_insert_eq. cbn. rewrite elem_of_app, list_elem_of_singleton. naive_solver.
  - rewrite lookup_insert_ne by done. naive_solver.
Qed.

Lemma wf_rules_insert m r :
  wf_rules m -> Forall wf_token (rest (pattern r)) ->
  blank_justification (justification r) = false ->
  wf_rules (multimap_insert (program r) r m).
Proof.
  intros Hm Ht Hj k x Hx. apply vec_insert_elem in Hx as [Hx|[-> ->]]; [by apply Hm|done].
Qed.

Lemma wf_rules_empty : wf_rules ∅.
Proof. intros k r Hr. rewrite lookup_empty in Hr. no_elem. Qed.

Lemma wf_hosts_empty : wf_hosts ∅.
Proof. intros k ps Hr. by rewrite lookup_empty in Hr. Qed.

Lemma collect_Forall {A B} (P : B -> Prop) (f : A -> result Error B) l ys :
  (forall x y, f x = Ok y -> P y) -> collect f l = Ok ys -> Forall P ys.
Proof.
  intros Hf. revert ys. induction l as [|x l IH]; intros ys; cbn.
  - intros [= <-]. constructor.
  - intros H. result_inv. constructor; [by eapply Hf|by apply IH].
Qed.

Lemma parse_pattern_wf pattern ts : parse_pattern pattern = Ok ts -> Forall wf_token ts.
Proof.
  unfold parse_pattern. intros H. result_inv. destruct (is_empty x); [done|]. injection H as <-.
  eapply collect_Forall; [|done]. clear. intros v t. unfold parse_pattern_token.
  destruct (unpack_str v); [by intros [= <-]|]. destruct (list_content v); [|done].
  intros H. result_inv. destruct x as [|a [|b x]]; try done; injection H as <-; cbn; [done|lia].
Qed.

Lemma parse_justification_ok j j' : parse_justification j = Ok j' -> j' = j /\ blank_justification j = false.
Proof. unfold parse_justification. destruct (blank_justification j); [done|]. by intros [= <-]. Qed.

Lemma fold_add_rule_inv rules b :
  builder_inv b ->
  Forall (fun r => Forall wf_token (rest (pattern r)) /\ blank_justification (justification r) = false) rules ->
  let b' := fold_left (fun b r => add_rule r b) rules b in
  builder_inv b' /\
  pending_example_validations b' = pending_example_validations b /\
  (forall k r, r ∈ vec_of (b_rules_by_program b) k -> r ∈ vec_of (b_rules_by_program b') k) /\
  (forall r, r ∈ rules -> r ∈ vec_of (b_rules_by_program b') (program r)).
Proof.
  intros Hb Hrs. revert b Hb. induction Hrs as [|r rules [Ht Hj] _ IH]; intros b Hb; cbn.
  { split_and!; try done. intros r Hr. no_elem. }
  assert (forall k x, x ∈ vec_of (b_rules_by_program b) k ->
    x ∈ vec_of (b_rules_by_program (add_rule r b)) k) as Hmono.
  { intros k x Hx. apply vec_insert_elem. by left. }
  assert (builder_inv (add_rule r b)) as Hadd.
  { destruct Hb as ((Hr & Hn & Hh) & Hp). split.
    - split_and!; [by apply wf_rules_insert|done|done].
    - intros v x Hv Hx. apply Hmono. by apply (Hp v). }
  destruct (IH _ Hadd) as (Hi & Hpend & Hm & Hin). split_and!; [done|done|auto|].
  intros x [->|Hx]%elem_of_cons; [|auto]. apply Hm, vec_insert_elem. by right.
Qed.

(** The validation a [prefix_rule] call queues. *)
Definition pending_of (pattern : list Value) (ms nms : option (list Value))
    (v : PendingExampleValidation) : Prop :=
  exists t ts d j, parse_pattern pattern = Ok (t :: ts) /\
    parse_optional_examples ms = Ok (pv_matches v) /\
    parse_optional_examples nms = Ok (pv_not_matches v) /\
    pv_rules v = map (fun hd => mkPrefixRule (mkPrefixPattern hd ts) d j) (alternatives t).

Lemma prefix_rule_inv pattern d ms nms j location b b' :
  builder_inv b -> prefix_rule pattern d ms nms j location b = Ok b' ->
  builder_inv b' /\ exists v, pending_example_validations b' = pending_example_validations b ++ [v] /\
    pending_of pattern ms nms v.
Proof.
  intros Hb H. unfold prefix_rule in H. result_inv. pose proof H2 as Hpat.
  apply parse_justification_ok in H1 as [-> Hj]. apply parse_pattern_wf in H2.
  destruct x1 as [|t ts]; [done|]. injection H as <-. apply Forall_cons in H2 as [_ Hts].
  set (rules := map _ (alternatives t)).
  assert (Forall (fun r => Forall wf_token (rest (ExecRule.pattern r)) /\
    blank_justification (justification r) = false) rules) as Hrules.
  { apply Forall_forall. by intros r (hd & -> & _)%list_elem_of_fmap. }
  set (v := mkPending rules x2 x3 location).
  (* The rules are filed after the validation is queued. *)
  destruct (fold_add_rule_inv rules b Hb Hrules) as (((Hr & Hn & Hh) & Hp) & Hpend & Hmono & Hin).
  assert (fold_left (fun b r => add_rule r b) rules (add_pending_example_validation v b) =
    add_pending_example_validation v (fold_left (fun b r => add_rule r b) rules b)) as ->.
  { clear. generalize v rules. intros v' rs. clear. revert b.
    induction rs as [|r rs IH]; intros b; [done|]. cbn. by rewrite <- IH. }
  split; [split|].
  - done.
  - intros v' r Hv Hr'. cbn in Hv. apply elem_of_app in Hv as [Hv|Hv].
    + by apply (Hp v').
    + apply list_elem_of_singleton in Hv as ->. by apply Hin.
  - exists v. cbn. rewrite Hpend. split; [done|]. by exists t, ts, x, j.
Qed.

Lemma network_rule_inv h proto d j b b' :
  builder_inv b -> network_rule h proto d j b = Ok b' ->
  builder_inv b' /\ pending_example_validations b' = pending_example_validations b.
Proof.
  intros ((Hr & Hn & Hh) & Hp) H. unfold network_rule in H. result_inv.
  apply parse_justification_ok in H2 as [-> Hj]. apply normalize_host_sound in H3 as [Hne Hhost].
  split; [|done]. split; [split_and!; [done| |done]|done].
  cbn. apply Forall_app. split; [done|]. by apply Forall_singleton.
Qed.

Lemma parse_paths_inv name vs parsed paths :
  parse_paths name vs parsed = Ok paths ->
  (NoDup parsed /\ forall q, q ∈ parsed -> normal_abs q /\ file_name q = Some name) ->
  (NoDup paths /\ forall q, q ∈ paths -> normal_abs q /\ file_name q = Some name).
Proof.
  revert parsed. induction vs as [|v vs IH]; intros parsed H Hp; cbn in H.
  { by injection H as <-. }
  result_inv. destruct (executable_path_lookup_key x0) as [base|] eqn:Eb; [|done].
  destruct (bool_decide _) eqn:Ed; [done|]. apply bool_decide_eq_false in Ed.
  apply (IH _ H). destruct (existsb _ parsed) eqn:Ex; [done|]. destruct Hp as [Hnd Hall]. split.
  - apply NoDup_app. split_and!; [done| |apply NoDup_singleton].
    intros q Hq ->%list_elem_of_singleton.
    rewrite <- not_true_iff_false, existsb_exists in Ex. apply Ex.
    exists x0. split; [by apply list_elem_of_In|by apply bool_decide_eq_true].
  - intros q [Hq| ->%list_elem_of_singleton]%elem_of_app; [auto|]. split.
    + unfold parse_literal_absolute_path in H1. destruct (is_absolute x) eqn:Ha; [|done].
      cbn in H1. destruct (from_absolute_path_abs home_dir current_dir x Ha) as [E Hn].
      rewrite E in H1. by injection H1 as <-.
    + unfold executable_path_lookup_key in Eb. destruct (file_name x0) as [n|]; [|done].
      injection Eb as <-. unfold executable_lookup_key in Ed. f_equal. by apply dec_stable.
Qed.

Lemma host_executable_inv name vs b b' :
  builder_inv b -> host_executable name vs b = Ok b' ->
  builder_inv b' /\ pending_example_validations b' = pending_example_validations b.
Proof.
  intros ((Hr & Hn & Hh) & Hp) H. unfold host_executable in H. result_inv.
  apply parse_paths_inv in H1 as Hx; [|split; [constructor|by intros q ?%not_elem_of_nil]].
  split; [|done]. split; [split_and!; [done|done|]|done].
  intros name' paths. cbn. destruct (decide (name' = name)) as [->|Hne].
  - rewrite lookup_insert_eq. by intros [= <-].
  - rewrite lookup_insert_ne by done. apply Hh.
Qed.

Lemma run_calls_inv calls b :
  builder_inv b ->
  builder_inv (fst (run_calls calls b)) /\
  exists vs, pending_example_validations (fst (run_calls calls b)) =
    pending_example_validations b ++ vs.
Proof.
  revert b. induction calls as [|c calls IH]; intros b Hb; cbn.
  { split; [done|]. exists []. by rewrite app_nil_r. }
  destruct (run_call c b) as [b'|e] eqn:Ec; cbn.
  2: { split; [done|]. exists []. by rewrite app_nil_r. }
  assert (builder_inv b' /\ exists vs, pending_example_validations b' =
    pending_example_validations b ++ vs) as [Hb' [vs Hvs]].
  { destruct c as [pattern d ms nms j location|h proto d j|name paths]; cbn in Ec.
    - apply prefix_rule_inv in Ec as [? (v & Hv & _)]; [|done]. eauto.
    - apply network_rule_inv in Ec as [? Hv]; [|done]. split; [done|].
      exists []. by rewrite app_nil_r.
    - apply host_executable_inv in Ec as [? Hv]; [|done]. split; [done|].
      exists []. by rewrite app_nil_r. }
  destruct (IH b' Hb') as [Hi [vs' Hvs']]. split; [done|].
  exists (vs ++ vs'). by rewrite Hvs', Hvs, <- app_assoc.
Qed.

Lemma parse_fst calls b : fst (parse calls b) = fst (run_calls calls b).
Proof. unfold parse. destruct (run_calls calls b) as [b' [[]|e]]; done. Qed.

Lemma parser_state_inv b : parser_state b -> builder_inv b.
Proof.
  induction 1 as [|b calls _ IH].
  - split; [split_and!; [apply wf_rules_empty|constructor|apply wf_hosts_empty]|].
    intros v r Hv. no_elem.
  - rewrite parse_fst. by apply run_calls_inv.
Qed.

(** Whatever files are parsed (failing ones included) and whatever rules
    are added or merged afterwards, the policy is well formed: every rule
    is filed under its own program and its alternatives are not degenerate,
    every network rule has a normalised host, no justification is blank,
    and every host-executable entry lists distinct, normalised absolute
    paths with that very base name. *)
Theorem policy_well_formed p : policy_state p -> wf_policy p.
Proof.
  induction 1 as [|b Hb|p prefix d p' _ (Hr & Hn & Hh) H|p h proto d j p' _ (Hr & Hn & Hh) H
                 |p q _ (Hr & Hn & Hh) _ (Hr' & Hn' & Hh')].
  - split_and!; [apply wf_rules_empty|constructor|apply wf_hosts_empty].
  - by apply parser_state_inv in Hb as [? _].
  - destruct prefix as [|f toks]; [done|]. injection H as <-. split_and!; [|done|done].
    apply (wf_rules_insert _ (mkPrefixRule (mkPrefixPattern f (map Single toks)) d None)); try done.
    apply Forall_forall. by intros t (x & -> & _)%list_elem_of_fmap.
  - unfold add_network_rule in H. result_inv. destruct (blank_justification j) eqn:Hj; [done|].
    injection H as <-. apply normalize_host_sound in H0 as [Hne Hhost].
    split_and!; [done| |done]. apply Forall_app. split; [done|]. by apply Forall_singleton.
  - split_and!.
    + intros k r Hkr. rewrite merge_overlay_vec in Hkr. apply elem_of_app in Hkr as [?|?]; auto.
    + by apply Forall_app.
    + intros name paths H. cbn in H. apply lookup_union_Some_raw in H as [H|[_ H]]; eauto.
Qed.

(** *** Examples *)

Lemma lookup_rules_exact p c args options r m :
  r ∈ vec_of (rules_by_program p) c -> rule_matches r (c :: args) = Some m ->
  lookup_rules home_dir current_dir p (c :: args) options <> [].
Proof.
  intros Hr Hm. unfold lookup_rules, match_exact_rules, get_vec.
  destruct (_ !! c) as [rules|] eqn:Er; [|no_elem].
  assert (m ∈ omap (fun r => rule_matches r (c :: args)) rules) as Hin.
  { apply list_elem_of_omap. by exists r. }
  destruct (omap _ rules); [no_elem|done].
Qed.

Lemma lookup_rules_host p c args prog base r m :
  from_absolute_path home_dir current_dir c = Ok prog ->
  executable_path_lookup_key prog = Some base ->
  r ∈ vec_of (rules_by_program p) base -> rule_matches r (base :: args) = Some m ->
  (forall paths, host_executables_by_name p !! base = Some paths -> prog ∈ paths) ->
  lookup_rules home_dir current_dir p (c :: args) (mkMatchOptions true) <> [].
Proof.
  intros Hp Hb Hr Hm Hg. unfold lookup_rules.
  destruct (nonempty _) eqn:E; [by apply nonempty_Some in E as [_ ?]|].
  cbn [resolve_host_executables]. unfold match_host_executable_rules, get_vec.
  rewrite Hp, Hb. destruct (rules_by_program p !! base) as [rules|] eqn:Er; [|no_elem].
  destruct (match _ with Some _ => _ | None => _ end) eqn:Eg.
  - destruct (host_executables_by_name p !! base) as [paths|]; [|done].
    apply negb_true_iff, not_true_iff_false in Eg. destruct Eg. apply existsb_exists.
    exists prog. split; [by apply list_elem_of_In, Hg|by apply bool_decide_eq_true].
  - assert (m ∈ omap (fun r => rule_matches r (base :: args)) rules) as Hin.
    { apply list_elem_of_omap. by exists r. }
    destruct (omap _ rules); [no_elem|done].
Qed.

(** A policy with more rules and the same host executables matches more. *)
Lemma lookup_rules_mono p q cmd :
  (forall k r, r ∈ vec_of (rules_by_program p) k -> r ∈ vec_of (rules_by_program q) k) ->
  host_executables_by_name q = host_executables_by_name p ->
  lookup_rules home_dir current_dir p cmd (mkMatchOptions true) <> [] ->
  lookup_rules home_dir current_dir q cmd (mkMatchOptions true) <> [].
Proof.
  intros Hr Hh Hne.
  destruct (lookup_rules home_dir current_dir p cmd (mkMatchOptions true)) as [|m ms] eqn:E; [done|].
  assert (m ∈ lookup_rules home_dir current_dir p cmd (mkMatchOptions true)) as Hm
    by (rewrite E; by left).
  apply lookup_rules_elem in Hm
    as [(c & args & rules & r & -> & Hk & Hrin & Hrm)
       |(_ & _ & c & args & prog & base & rules & r & m0 & -> & Hp & Hb & Hk & Hrin & Hg & Hrm & _)].
  - eapply lookup_rules_exact; [apply Hr; by rewrite Hk|done].
  - eapply lookup_rules_host; try done; [apply Hr; by rewrite Hk|]. by rewrite Hh.
Qed.

Lemma validation_policy_vec b v k r :
  r ∈ vec_of (rules_by_program (validation_policy b v)) k <-> r ∈ pv_rules v /\ k = program r.
Proof.
  cbn. assert (forall rules m, r ∈ vec_of (fold_left (fun m r => multimap_insert (program r) r m) rules m) k
    <-> r ∈ vec_of m k \/ (r ∈ rules /\ k = program r)) as H.
  { induction rules as [|x rules IH]; intros m; cbn.
    - rewrite elem_of_nil. naive_solver.
    - rewrite IH, vec_insert_elem, elem_of_cons. naive_solver. }
  rewrite H, lookup_empty. cbn. rewrite elem_of_nil. naive_solver.
Qed.

Lemma validate_not_ok p exs :
  validate_not_match_examples p exs = Ok tt -> forall ex, ex ∈ exs -> example_matches p ex = [].
Proof.
  induction exs as [|x exs IH]; intros H ex Hex; [no_elem|].
  cbn in H. destruct (example_matches p x) eqn:E; [|done].
  apply elem_of_cons in Hex as [->|Hex]; auto.
Qed.

Lemma validate_ok p rules exs :
  validate_match_examples p rules exs = Ok tt -> forall ex, ex ∈ exs -> example_matches p ex <> [].
Proof.
  unfold validate_match_examples. destruct (is_empty _) eqn:E; [|done]. intros _ ex Hex He.
  apply is_empty_true, map_eq_nil in E.
  assert (ex ∈ filter (fun example => is_empty (example_matches p example) = true) exs) as Hin.
  { apply list_elem_of_filter. by rewrite He. }
  rewrite E in Hin. no_elem.
Qed.

Lemma validate_pending_ok b vs v :
  validate_pending b vs = Ok tt -> v ∈ vs ->
  validate_not_match_examples (validation_policy b v) (pv_not_matches v) = Ok tt /\
  validate_match_examples (validation_policy b v) (pv_rules v) (pv_matches v) = Ok tt.
Proof.
  induction vs as [|x vs IH]; intros H Hv; [no_elem|]. cbn in H.
  destruct (validate_not_match_examples _ (pv_not_matches x)) as [[]|] eqn:E1; cbn in H; [|done].
  destruct (validate_match_examples _ (pv_rules x) _) as [[]|] eqn:E2; cbn in H; [|done].
  apply elem_of_cons in Hv as [->|Hv]; [done|auto].
Qed.

Lemma run_calls_pending calls b b' pattern d ms nms j location :
  builder_inv b -> run_calls calls b = (b', Ok tt) ->
  CallPrefixRule pattern d ms nms j location ∈ calls ->
  exists v vs, pending_example_validations b' = pending_example_validations b ++ vs /\ v ∈ vs /\
    pending_of pattern ms nms v.
Proof.
  revert b. induction calls as [|c calls IH]; intros b Hb H Hc; [no_elem|].
  pose proof (proj2 (run_calls_inv calls b Hb)) as _. cbn in H.
  destruct (run_call c b) as [b1|] eqn:Ec; [|done].
  assert (run_calls [c] b = (b1, Ok tt)) as Hone by (cbn; by rewrite Ec).
  destruct (run_calls_inv [c] b Hb) as [Hb1 [vs1 Hvs1]]. rewrite Hone in Hb1, Hvs1. cbn in Hb1, Hvs1.
  apply elem_of_cons in Hc as [<-|Hc].
  - cbn in Ec. apply prefix_rule_inv in Ec as (_ & v & Hv & Hpo); [|done].
    destruct (run_calls_inv calls b1 Hb1) as [_ [vs Hvs]]. rewrite H, Hv, <- app_assoc in Hvs.
    exists v, ([v] ++ vs). split_and!; [done|by left|done].
  - destruct (IH b1 Hb1 H Hc) as (v & vs & Hvs & Hv & Hpo). rewrite Hvs1, <- app_assoc in Hvs.
    exists v, (vs1 ++ vs). split_and!; [done|apply elem_of_app; by right|done].
Qed.

(** The examples of a rules file are checked: when a file is accepted,
    every positive example of each of its [prefix_rule] calls matches some
    rule of the policy built, and no negative example is matched by a rule
    of its call. *)
Theorem accepted_examples_hold b b' calls pattern d ms nms j location :
  parser_state b -> parse calls b = (b', Ok tt) ->
  CallPrefixRule pattern d ms nms j location ∈ calls ->
  (forall exs ex, parse_optional_examples ms = Ok exs -> ex ∈ exs ->
     matches_for_command_with_options home_dir current_dir (build b') ex None
       (mkMatchOptions true) <> []) /\
  (forall exs ex t ts hd, parse_optional_examples nms = Ok exs -> ex ∈ exs ->
     parse_pattern pattern = Ok (t :: ts) -> hd ∈ alternatives t ->
     matches_prefix (mkPrefixPattern hd ts) ex = None).
Proof.
  intros Hb%parser_state_inv H Hc. unfold parse in H.
  destruct (run_calls calls b) as [b1 [[]|]] eqn:Er; [|done]. injection H as -> Hval.
  destruct (run_calls_pending _ _ _ _ _ _ _ _ _ Hb Er Hc)
    as (v & vs & Hvs & Hv & t & ts & d' & j' & Hpat & Hms & Hnms & Hrules).
  unfold validate_pending_examples_from in Hval. rewrite Hvs, drop_app_length in Hval.
  destruct (validate_pending_ok _ _ _ Hval Hv) as [Hneg Hpos].
  destruct (run_calls_inv calls b Hb) as [[_ Hfiled] _]. rewrite Er in Hfiled. cbn in Hfiled.
  split.
  - intros exs ex Hexs Hex. rewrite Hms in Hexs. injection Hexs as <-.
    pose proof (validate_ok _ _ _ Hpos ex Hex) as Hne. unfold example_matches in Hne.
    rewrite matches_for_none in *. eapply (lookup_rules_mono (validation_policy b' v)); [|done|exact Hne].
    intros k r [Hr ->]%validation_policy_vec. apply (Hfiled v); [|done].
    rewrite Hvs. apply elem_of_app. by right.
  - intros exs ex t0 ts0 hd Hexs Hex Hpat0 Hhd. rewrite Hnms in Hexs. injection Hexs as <-.
    rewrite Hpat in Hpat0. injection Hpat0 as <- <-.
    pose proof (validate_not_ok _ _ Hneg ex Hex) as Hnil. unfold example_matches in Hnil.
    rewrite matches_for_none in Hnil.
    destruct (matches_prefix _ ex) as [pre|] eqn:Em; [|done]. exfalso.
    pose proof Em as (args & more & -> & -> & _)%matches_prefix_spec.
    set (r := mkPrefixRule (mkPrefixPattern hd ts) d' j').
    eapply (lookup_rules_exact (validation_policy b' v) hd (args ++ more) _ r); [| |exact Hnil].
    + apply validation_policy_vec. split; [|done]. rewrite Hrules.
      apply list_elem_of_In, in_map_iff. exists hd. split; [done|by apply list_elem_of_In].
    + cbn [first app] in Em. unfold rule_matches, r. cbn [ExecRule.pattern]. by rewrite Em.
Qed.

End Parser.

(** ** A concrete file *)

Module Sample.

Inductive Val := VStr (s : str) | VList (l : list Val).
Definition val_str (v : Val) : option str := match v with VStr s => Some s | _ => None end.
Definition val_list (v : Val) : option (list Val) := match v with VList l => Some l | _ => None end.
Definition val_type (v : Val) : str := match v with VStr _ => "string" | VList _ => "list" end.
Definition words (s : str) : option (list str) := Some (split SPACE s).
Definition unwords (l : list str) : option str := Some (join " " l).

Definition call : BuiltinCall :=
  CallPrefixRule [VStr "git"; VList [VStr "push"; VStr "pull"]] (Some "prompt")
    (Some [VStr "git push -f"; VStr "/usr/bin/git pull"]) (Some [VStr "git log"]) None None.
Definition file : list (@BuiltinCall Val) :=
  [call; CallHostExecutable "git" [VStr "/usr/bin//git"];
   CallNetworkRule "Example.com:443" "https" "deny" None].

Abbreviation parse_file := (parse val_str val_list val_type words unwords (fun _ => []) (fun _ => [])
  None (Ok "/") (fun _ => [])).

Definition built : PolicyBuilder := fst (parse_file file builder_new).

End Sample.

Lemma policy_well_formed_witness :
  policy_state Sample.val_str Sample.val_list Sample.val_type Sample.words Sample.unwords
    (fun _ => []) (fun _ => []) None (Ok "/") (fun _ => []) (build Sample.built) /\
  wf_policy (build Sample.built).
Proof.
  assert (policy_state Sample.val_str Sample.val_list Sample.val_type Sample.words Sample.unwords
    (fun _ => []) (fun _ => []) None (Ok "/") (fun _ => []) (build Sample.built)) as H.
  { apply policy_built, parser_parse, parser_new. }
  split; [exact H|]. exact (policy_well_formed _ _ _ _ _ _ _ _ _ _ _ H).
Defined.

Lemma accepted_examples_hold_witness :
  snd (Sample.parse_file Sample.file builder_new) = Ok tt /\
  matches_for_command_with_options None (Ok "/") (build Sample.built)
    ["/usr/bin/git"; "pull"] None (mkMatchOptions true) <> [] /\
  matches_prefix (mkPrefixPattern "git" [Alts ["push"; "pull"]]) ["git"; "log"] = None.
Proof.
  assert (Sample.parse_file Sample.file builder_new = (Sample.built, Ok tt)) as H
    by (vm_compute; reflexivity).
  assert (Sample.call ∈ Sample.file) as Hin by by left.
  destruct (accepted_examples_hold _ _ _ _ _ _ _ _ _ _ _ _ _ _ _ _ _ _ _
    (parser_new _ _ _ _ _ _ _ _ _ _) H Hin) as [Hpos Hneg].
  split; [by rewrite H|]. split.
  - eapply Hpos; [vm_compute; reflexivity|]. right. by left.
  - eapply Hneg; [vm_compute; reflexivity|by left|vm_compute; reflexivity|by left].
Defined.
