(* ===== verification/ShellParse.v ===== *)
(** * ShellParse: plain commands of a shell script

    [codex-rs/shell-command/src/bash.rs] and [shell_detect.rs].  The grammar
    is tree-sitter's: a parse tree is what the code observes of it (kind,
    named or not, text, start, children, and whether there was an error),
    and the parser itself is a parameter. *)

From S2P Require Import Prelude RustStr AbsolutePath.
Open Scope str_scope.

(** ** shell_detect.rs *)

Inductive ShellType := Zsh | Bash | PowerShell | Sh | Cmd.

#[export] Instance ShellType_eq_dec : EqDecision ShellType.
Proof. solve_decision. Defined.

(** [Path::file_stem]: the file name up to its last dot, which does not
    count at the start. *)
Definition file_stem (path : str) : option str :=
  match file_name (components path) with
  | None => None
  | Some name =>
      match rsplit_once 46%N name with
      | Some (before, _) => Some (if is_empty before then name else before)
      | None => Some name
      end
  end.

Definition shell_of_name (s : str) : option ShellType :=
  if decide (s = "zsh") then Some Zsh
  else if decide (s = "sh") then Some Sh
  else if decide (s = "cmd") then Some Cmd
  else if decide (s = "bash") then Some Bash
  else if decide (s = "pwsh" \/ s = "powershell") then Some PowerShell
  else None.

(** The recursion of [detect_shell_type]: each step strips directories or
    an extension. *)
Fixpoint detect_fuel (fuel : nat) (shell_path : str) : option (option ShellType) :=
  match fuel with
  | O => None
  | S fuel =>
      match shell_of_name shell_path with
      | Some t => Some (Some t)
      | None =>
          match file_stem shell_path with
          | Some shell_name =>
              if decide (components shell_name = components shell_path) then Some None
              else detect_fuel fuel shell_name
          | None => Some None
          end
      end
  end.

Definition detect_shell_type (shell_path : str) : option ShellType :=
  default None (detect_fuel (S (length shell_path)) shell_path).

(** ** Parse trees *)

Inductive Node := mkNode {
  kind : str;
  is_named : bool;
  utf8_text : option str;
  start_byte : nat;
  children : list Node;
}.

Record Tree := mkTree { root_node : Node; has_error : bool }.

Definition named_children (n : Node) : list Node := filter (fun c => is_named c = true) (children n).

Fixpoint node_size (n : Node) : nat :=
  S ((fix go l := match l with [] => 0 | c :: l => node_size c + go l end) (children n)).

(** The three tree walks of bash.rs share one loop: pop a node, act on it,
    push its children (all of them, or the named ones).  The action may
    stop the walk.  [None] is a lack of fuel. *)
Fixpoint dfs {A B} (kids : Node -> list Node) (step : A -> Node -> A + B)
    (fuel : nat) (stack : list Node) (acc : A) : option (A + B) :=
  match stack with
  | [] => Some (inl acc)
  | node :: stack =>
      match fuel with
      | O => None
      | S fuel =>
          match step acc node with
          | inr b => Some (inr b)
          | inl acc => dfs kids step fuel (reverse (kids node) ++ stack) acc
          end
      end
  end.

Definition ALLOWED_KINDS : list str :=
  ["program"; "list"; "pipeline"; "command"; "command_name"; "word"; "string";
   "string_content"; "raw_string"; "number"; "concatenation"].
Definition DOUBLE_QUOTE : char := 34%N.
Definition ALLOWED_PUNCT_TOKENS : list str := ["&&"; "||"; ";"; "|"; [DOUBLE_QUOTE]; "'"].

Definition mem (l : list str) (s : str) : bool := existsb (fun x => bool_decide (x = s)) l.

(** The checks of one popped node; [false] rejects the script. *)
Definition node_allowed (n : Node) : bool :=
  if is_named n then mem ALLOWED_KINDS (kind n)
  else
    negb (existsb (fun c => contains_char "&;|" c) (kind n)
          && negb (mem ALLOWED_PUNCT_TOKENS (kind n)))
    && (mem ALLOWED_PUNCT_TOKENS (kind n) || is_empty (trim (kind n))).

Definition is_command (n : Node) : bool := bool_decide (kind n = "command").

Definition word_only_step (command_nodes : list Node) (node : Node) : list Node + unit :=
  if node_allowed node
  then inl (if is_named node && is_command node then command_nodes ++ [node] else command_nodes)
  else inr tt.

Definition parse_double_quoted_string (node : Node) : option str :=
  if negb (bool_decide (kind node = "string")) then None
  else if negb (forallb (fun part => bool_decide (kind part = "string_content")) (named_children node))
  then None
  else raw ← utf8_text node; text ← strip_prefix [DOUBLE_QUOTE] raw; strip_suffix [DOUBLE_QUOTE] text.

Definition parse_raw_string (node : Node) : option str :=
  if negb (bool_decide (kind node = "raw_string")) then None
  else raw ← utf8_text node; text ← strip_prefix "'" raw; strip_suffix "'" text.

(** The parts of a concatenation such as [-g"*.py"]. *)
Fixpoint concat_parts (parts : list Node) (concatenated : str) : option str :=
  match parts with
  | [] => Some concatenated
  | part :: parts =>
      text ← (if mem ["word"; "number"] (kind part) then utf8_text part
              else if decide (kind part = "string") then parse_double_quoted_string part
              else if decide (kind part = "raw_string") then parse_raw_string part
              else None);
      concat_parts parts (concatenated ++ text)
  end.

Definition plain_word (child : Node) : option str :=
  if decide (kind child = "command_name") then
    match named_children child with
    | word_node :: _ => if decide (kind word_node = "word") then utf8_text word_node else None
    | [] => None
    end
  else if mem ["word"; "number"] (kind child) then utf8_text child
  else if decide (kind child = "string") then parse_double_quoted_string child
  else if decide (kind child = "raw_string") then parse_raw_string child
  else if decide (kind child = "concatenation") then
    text ← concat_parts (named_children child) [];
    if is_empty text then None else Some text
  else None.

Definition parse_plain_command_from_node (cmd : Node) : option (list str) :=
  if is_command cmd then mapM plain_word (named_children cmd) else None.

Definition try_parse_word_only_commands_sequence (tree : Tree) : option (list (list str)) :=
  if has_error tree then None
  else
    let root := root_node tree in
    match dfs children word_only_step (node_size root) [root] [] with
    | Some (inl command_nodes) =>
        mapM parse_plain_command_from_node (sort_by_key start_byte command_nodes)
    | _ => None
    end.

(** ** Here-documents *)

Definition has_named_descendant_kind (node : Node) (k : str) : bool :=
  match dfs named_children (fun _ n => if bool_decide (kind n = k) then inr tt else inl tt)
          (node_size node) [node] tt with
  | Some (inr _) => true
  | _ => false
  end.

Definition single_command_step (single : option Node) (node : Node) : option Node + unit :=
  if is_command node then
    match single with Some _ => inr tt | None => inl (Some node) end
  else inl single.

Definition find_single_command_node (root : Node) : option Node :=
  match dfs named_children single_command_step (node_size root) [root] None with
  | Some (inl single) => single
  | _ => None
  end.

Definition is_literal_word_or_number (node : Node) : bool :=
  mem ["word"; "number"] (kind node) && is_empty (named_children node).

Definition is_allowed_heredoc_attachment_kind (k : str) : bool :=
  mem ["heredoc_body"; "simple_heredoc_body"; "heredoc_redirect"; "herestring_redirect";
       "redirected_statement"] k.

(** The words a child of the command contributes; [None] rejects. *)
Definition heredoc_words (child : Node) : option (list str) :=
  if decide (kind child = "command_name") then
    match named_children child with
    | word_node :: _ =>
        if is_literal_word_or_number word_node then (fun w => [w]) <$> utf8_text word_node else None
    | [] => None
    end
  else if mem ["word"; "number"] (kind child) then
    if is_literal_word_or_number child then (fun w => [w]) <$> utf8_text child else None
  else if decide (kind child = "comment") then Some []
  else if is_allowed_heredoc_attachment_kind (kind child) then Some []
  else None.

Definition parse_heredoc_command_words (cmd : Node) : option (list str) :=
  if is_command cmd then
    words ← mapM heredoc_words (named_children cmd);
    if is_empty (concat words) then None else Some (concat words)
  else None.

(** ** Shell invocations *)

Definition extract_bash_command (command : list str) : option (str * str) :=
  match command with
  | [shell; flag; script] =>
      if mem ["-lc"; "-c"] flag
         && match detect_shell_type shell with
            | Some Zsh | Some Bash | Some Sh => true
            | _ => false
            end
      then Some (shell, script) else None
  | _ => None
  end.

Section Shell.

(** [tree_sitter::Parser::parse] with the bash grammar. *)
Context (try_parse_shell : str -> option Tree).

Definition parse_shell_lc_plain_commands (command : list str) : option (list (list str)) :=
  '(_, script) ← extract_bash_command command;
  tree ← try_parse_shell script;
  try_parse_word_only_commands_sequence tree.

Definition parse_shell_lc_single_command_prefix (command : list str) : option (list str) :=
  '(_, script) ← extract_bash_command command;
  tree ← try_parse_shell script;
  let root := root_node tree in
  if has_error tree then None
  else if negb (has_named_descendant_kind root "heredoc_redirect") then None
  else if has_named_descendant_kind root "file_redirect" then None
  else
    command_node ← find_single_command_node root;
    parse_heredoc_command_words command_node.

End Shell.

(** ** The shared walk *)

Fixpoint sizes (l : list Node) : nat :=
  match l with [] => 0 | c :: l => node_size c + sizes l end.

Lemma node_size_sizes n : node_size n = S (sizes (children n)).
Proof. by destruct n. Qed.

Lemma sizes_app l k : sizes (l ++ k) = sizes l + sizes k.
Proof. induction l as [|c l IH]; cbn; [done|lia]. Qed.

Lemma sizes_reverse l : sizes (reverse l) = sizes l.
Proof.
  induction l as [|c l IH]; [done|]. rewrite reverse_cons, sizes_app. cbn. lia.
Qed.

Lemma sizes_filter (P : Node -> Prop) `{forall x, base.Decision (P x)} l :
  sizes (filter P l) <= sizes l.
Proof.
  induction l as [|c l IH]; [done|]. cbn [sizes]. destruct (decide (P c)).
  - rewrite filter_cons_True by done. cbn. lia.
  - rewrite filter_cons_False by done. lia.
Qed.

(** The nodes below [n] through the children a walk follows. *)
Inductive reach (kids : Node -> list Node) : Node -> Node -> Prop :=
| reach_refl n : reach kids n n
| reach_kid n c d : c ∈ kids n -> reach kids c d -> reach kids n d.

(** The nodes below a stack. *)
Definition below (kids : Node -> list Node) (stack : list Node) (d : Node) : Prop :=
  exists r, r ∈ stack /\ reach kids r d.

(** The action of a walk on a list of nodes, none of which stops it. *)
Fixpoint fold_steps {A B} (step : A -> Node -> A + B) (acc : A) (l : list Node) : option A :=
  match l with
  | [] => Some acc
  | n :: l => match step acc n with inl acc => fold_steps step acc l | inr _ => None end
  end.

Lemma below_nil kids d : ~ below kids [] d.
Proof. intros (r & Hr & _). no_elem. Qed.

Lemma below_push kids n stack d :
  below kids (n :: stack) d <-> d = n \/ below kids (reverse (kids n) ++ stack) d.
Proof.
  split.
  - intros (r & [->|Hr]%elem_of_cons & Hd).
    + destruct Hd as [n|n c d Hc Hcd]; [by left|]. right. exists c.
      split; [|done]. apply elem_of_app. left. by apply elem_of_reverse.
    + right. exists r. split; [|done]. apply elem_of_app. by right.
  - intros [->|(r & [Hr|Hr]%elem_of_app & Hd)].
    + exists n. split; [by left|constructor].
    + apply (proj1 (elem_of_reverse _ _)) in Hr. exists n. split; [by left|]. by eapply reach_kid.
    + exists r. split; [by right|done].
Qed.

Section Walk.

Context {A B : Type} (kids : Node -> list Node) (step : A -> Node -> A + B).
Hypothesis kids_small : forall n, sizes (kids n) <= sizes (children n).

(** A walk with fuel for the sizes on its stack ends: either it acts once
    on every node below the stack, or it stops at one of them. *)
Lemma dfs_spec fuel stack acc :
  sizes stack <= fuel ->
  match dfs kids step fuel stack acc with
  | None => False
  | Some (inl acc') => exists visited, (forall d, d ∈ visited <-> below kids stack d) /\
      fold_steps step acc visited = Some acc'
  | Some (inr b) => exists visited lst acc', Forall (below kids stack) (visited ++ [lst]) /\
      fold_steps step acc visited = Some acc' /\ step acc' lst = inr b
  end.
Proof.
  revert stack acc. induction fuel as [|fuel IH]; intros [|n stack] acc Hf; cbn [dfs].
  1, 3: exists []; split; [|done]; intros d; split;
    [by intros ?%not_elem_of_nil|by intros ?%below_nil].
  { cbn in Hf. rewrite node_size_sizes in Hf. lia. }
  cbn [sizes] in Hf. rewrite node_size_sizes in Hf. pose proof (kids_small n) as Hk.
  destruct (step acc n) as [acc1|b] eqn:Es.
  - specialize (IH (reverse (kids n) ++ stack) acc1).
    destruct (dfs kids step fuel _ acc1) as [[acc'|b]|];
      [| |by apply IH; rewrite sizes_app, sizes_reverse; lia].
    + destruct IH as (visited & Hv & Hfold); [rewrite sizes_app, sizes_reverse; lia|].
      exists (n :: visited). split; [|by cbn; rewrite Es].
      intros d. by rewrite elem_of_cons, Hv, below_push.
    + destruct IH as (visited & lst & acc' & Hv & Hfold & Hst);
        [rewrite sizes_app, sizes_reverse; lia|].
      exists (n :: visited), lst, acc'. split_and!; [|by cbn; rewrite Es|done].
      cbn. constructor; [apply below_push; by left|].
      eapply Forall_impl; [exact Hv|]. intros d Hd. apply below_push. by right.
  - exists [], n, acc. split_and!; [|done|done]. apply Forall_singleton.
    apply below_push. by left.
Qed.

End Walk.

Lemma all_kids_small n : sizes (children n) <= sizes (children n).
Proof. done. Qed.
Lemma named_kids_small n : sizes (named_children n) <= sizes (children n).
Proof. apply sizes_filter. Qed.

Lemma below_root kids root d : below kids [root] d <-> reach kids root d.
Proof.
  split; [|intros Hd; exists root; split; [by left|done]].
  by intros (r & ->%list_elem_of_singleton & Hd).
Qed.

Lemma sizes_root root : sizes [root] <= node_size root.
Proof. cbn. lia. Qed.

(** ** Shell detection *)

Lemma file_stem_shorter p s : file_stem p = Some s -> s = p \/ length s < length p.
Proof.
  unfold file_stem. destruct (file_name (components p)) as [name|] eqn:En; [|done].
  assert (name = p \/ length name < length p) as Hname.
  { unfold file_name in En. destruct (last (components p)) as [[| | |n]|] eqn:El; try done.
    injection En as ->. apply last_Some in El as [l El].
    assert (Normal name ∈ components p) as Hin.
    { rewrite El. apply elem_of_app. right. by left. }
    unfold components in Hin. apply elem_of_app in Hin as [Hin|Hin].
    - unfold leading_component in Hin. destruct (is_absolute p);
        [|destruct (decide _)]; by repeat (apply elem_of_cons in Hin as [Hin|Hin]; [done|]);
        apply not_elem_of_nil in Hin.
    - apply list_elem_of_omap in Hin as (seg & Hseg & Hn).
      assert (seg = name) as ->; [|by apply split_elem_length in Hseg].
      unfold segment_component in Hn. repeat case_decide; congruence. }
  destruct (rsplit_once 46%N name) as [[before after]|] eqn:Er; intros [= <-]; [|done].
  apply rsplit_once_Some in Er as [-> _].
  destruct (is_empty before); [done|]. rewrite length_app in Hname. cbn in Hname.
  right. destruct Hname as [<-|?]; rewrite ?length_app; cbn; lia.
Qed.

(** Each round of the detection strips a directory or an extension, so a
    fuel of the path's length is enough, and more fuel changes nothing. *)
Lemma detect_fuel_enough p n : length p < n -> detect_fuel n p = Some (detect_shell_type p).
Proof.
  intros Hn.
  assert (forall k p, length p < k -> exists r, forall n, length p < n -> detect_fuel n p = Some r) as H.
  { clear. induction k as [|k IH]; intros p Hp; [lia|].
    destruct (shell_of_name p) as [t|] eqn:Et.
    { exists (Some t). intros [|n] Hn; [lia|]. cbn. by rewrite Et. }
    destruct (file_stem p) as [s|] eqn:Es.
    2: { exists None. intros [|n] Hn; [lia|]. cbn. by rewrite Et, Es. }
    destruct (decide (components s = components p)) as [Hc|Hc].
    { exists None. intros [|n] Hn; [lia|]. cbn. rewrite Et, Es. by rewrite decide_True. }
    destruct (file_stem_shorter p s Es) as [->|Hlt]; [done|].
    destruct (IH s ltac:(lia)) as [r Hr]. exists r. intros [|n] Hn; [lia|]. cbn.
    rewrite Et, Es, decide_False by done. apply Hr. lia. }
  destruct (H (S (length p)) p ltac:(lia)) as [r Hr].
  unfold detect_shell_type. rewrite !Hr by lia. done.
Qed.

(** ** Word-only scripts *)

Definition command_node (n : Node) : Prop := is_named n = true /\ is_command n = true.
#[export] Instance command_node_dec n : Decision (command_node n).
Proof. unfold command_node. apply _. Defined.

Lemma word_only_fold visited acc :
  fold_steps word_only_step acc visited =
  if forallb node_allowed visited then Some (acc ++ filter command_node visited) else None.
Proof.
  revert acc. induction visited as [|n l IH]; intros acc; cbn; [by rewrite app_nil_r|].
  unfold word_only_step at 1. destruct (node_allowed n); [|done]. cbn. rewrite IH.
  destruct (forallb node_allowed l); [|done]. f_equal.
  destruct (decide (command_node n)) as [[-> ->]|Hn].
  - cbn. by rewrite <- app_assoc.
  - destruct (is_named n && is_command n) eqn:E; [|done].
    apply andb_true_iff in E. destruct Hn. done.
Qed.

(** C40. What an auto-approvable script is: [Some] means the parse has no
    error, every node of the tree is of an allowed kind (so there is no
    redirection, substitution, subshell, assignment or control flow
    anywhere in it), and the result lists, in source order, the literal
    words of every command of the script; and the script is refused only
    when one of these fails.  The walk always ends. *)
Theorem word_only_commands tree :
  match try_parse_word_only_commands_sequence tree with
  | Some cmds =>
      has_error tree = false /\
      (forall d, reach children (root_node tree) d -> node_allowed d = true) /\
      exists nodes,
        (forall d, d ∈ nodes <-> reach children (root_node tree) d /\ command_node d) /\
        StronglySorted (fun a b => start_byte a <= start_byte b) nodes /\
        Forall2 (fun n words => parse_plain_command_from_node n = Some words) nodes cmds
  | None =>
      has_error tree = true \/
      exists d, reach children (root_node tree) d /\
        (node_allowed d = false \/ (command_node d /\ parse_plain_command_from_node d = None))
  end.
Proof.
  unfold try_parse_word_only_commands_sequence. set (root := root_node tree).
  destruct (has_error tree); [by left|].
  pose proof (dfs_spec children word_only_step all_kids_small (node_size root) [root] []
    (sizes_root root)) as Hdfs.
  destruct (dfs _ _ _ _ _) as [[nodes|[]]|]; [| |done].
  - destruct Hdfs as (visited & Hv & Hfold). rewrite word_only_fold in Hfold.
    destruct (forallb node_allowed visited) eqn:Hall; [|done]. cbn in Hfold. injection Hfold as <-.
    rewrite forallb_forall in Hall.
    assert (forall d, d ∈ sort_by_key start_byte (filter command_node visited) <->
      reach children root d /\ command_node d) as Hnodes.
    { intros d. rewrite sort_by_key_perm, list_elem_of_filter, Hv, below_root. naive_solver. }
    destruct (mapM _ _) as [cmds|] eqn:Em.
    + split_and!; [done| |].
      * intros d Hd. apply Hall, list_elem_of_In, Hv, below_root, Hd.
      * eexists. split_and!; [exact Hnodes|auto with codex|by apply mapM_Some].
    + right. apply mapM_None, Exists_exists in Em as (d & Hd & Hnone).
      apply Hnodes in Hd as [Hd Hc]. exists d. auto.
  - destruct Hdfs as (visited & lst & acc' & Hb & _ & Hst). right. exists lst.
    apply Forall_app in Hb as [_ Hb]. apply Forall_singleton, below_root in Hb. split; [done|].
    left. unfold word_only_step in Hst. by destruct (node_allowed lst).
Qed.
