(* ===== verification/CommandSafety.v ===== *)
(** * CommandSafety: the read-only and the dangerous command lists

    [codex-rs/shell-command/src/command_safety]: [is_safe_command.rs],
    [is_dangerous_command.rs] and the part of [windows_safe_commands.rs]
    that every platform runs, on Linux.  PowerShell scripts are split by an
    external process, which is a parameter. *)

From S2P Require Import Prelude RustStr AbsolutePath ShellParse.
Open Scope str_scope.

(** ** is_dangerous_command.rs *)

Definition executable_name_lookup_key (raw : str) : option str := file_name (components raw).

Definition is_git_global_option_with_value (arg : str) : bool :=
  mem ["-C"; "-c"; "--config-env"; "--exec-path"; "--git-dir"; "--namespace"; "--super-prefix";
       "--work-tree"] arg.

Definition is_git_global_option_with_inline_value (arg : str) : bool :=
  existsb (starts_with arg) ["--config-env="; "--exec-path="; "--git-dir="; "--namespace=";
                             "--super-prefix="; "--work-tree="]
  || ((starts_with arg "-C" || starts_with arg "-c") && (2 <? byte_len arg)%nat).

(** The scan for the subcommand, from position [idx]. *)
Fixpoint find_git_loop (subcommands : list str) (idx : nat) (skip_next : bool)
    (args : list str) : option (nat * str) :=
  match args with
  | [] => None
  | arg :: args =>
      if skip_next then find_git_loop subcommands (S idx) false args
      else if is_git_global_option_with_inline_value arg
      then find_git_loop subcommands (S idx) false args
      else if is_git_global_option_with_value arg
      then find_git_loop subcommands (S idx) true args
      else if bool_decide (arg = "--") || starts_with arg "-"
      then find_git_loop subcommands (S idx) false args
      else if mem subcommands arg then Some (idx, arg)
      else None
  end.

Definition find_git_subcommand (command : list str) (subcommands : list str) : option (nat * str) :=
  match command with
  | [] => None
  | cmd0 :: args =>
      if bool_decide (executable_name_lookup_key cmd0 = Some "git")
      then find_git_loop subcommands 1 false args else None
  end.

Fixpoint is_dangerous_to_call_with_exec (command : list str) : bool :=
  match command with
  | [] => false
  | cmd0 :: args =>
      if decide (cmd0 = "rm") then
        match args with a :: _ => mem ["-f"; "-rf"] a | [] => false end
      else if decide (cmd0 = "sudo") then is_dangerous_to_call_with_exec args
      else false
  end.

(** ** is_safe_command.rs *)

Inductive GitOptionPattern :=
| Exact (option : str)
| ShortWithInlineValue (option : str)
| Prefix (prefix : str).

Definition pattern_matches (p : GitOptionPattern) (arg : str) : bool :=
  match p with
  | Exact o => bool_decide (arg = o)
  | ShortWithInlineValue o => starts_with arg o && (byte_len o <? byte_len arg)%nat
  | Prefix pre => starts_with arg pre
  end.

Definition UNSAFE_GIT_GLOBAL_OPTIONS : list GitOptionPattern :=
  [Exact "-C"; ShortWithInlineValue "-C"; Exact "-c"; ShortWithInlineValue "-c"; Exact "-p";
   Exact "--config-env"; Prefix "--config-env="; Exact "--exec-path"; Prefix "--exec-path=";
   Exact "--git-dir"; Prefix "--git-dir="; Exact "--namespace"; Prefix "--namespace=";
   Exact "--paginate"; Exact "--super-prefix"; Prefix "--super-prefix="; Exact "--work-tree";
   Prefix "--work-tree="].

Definition UNSAFE_GIT_SUBCOMMAND_OPTIONS : list GitOptionPattern :=
  [Exact "--output"; Prefix "--output="; Exact "--ext-diff"; Exact "--textconv";
   Exact "--exec"; Prefix "--exec="].

Definition git_matches_option_pattern (arg : str) (patterns : list GitOptionPattern) : bool :=
  existsb (fun p => pattern_matches p arg) patterns.

Definition git_has_unsafe_global_option (global_args : list str) : bool :=
  existsb (fun arg => git_matches_option_pattern arg UNSAFE_GIT_GLOBAL_OPTIONS) global_args.

Definition git_subcommand_args_are_read_only (args : list str) : bool :=
  negb (existsb (fun arg => git_matches_option_pattern arg UNSAFE_GIT_SUBCOMMAND_OPTIONS) args).

Definition read_only_branch_flag (arg : str) : bool :=
  mem ["--list"; "-l"; "--show-current"; "-a"; "--all"; "-r"; "--remotes"; "-v"; "-vv"; "--verbose"] arg
  || starts_with arg "--format=".

Fixpoint branch_loop (args : list str) (saw_read_only_flag : bool) : bool :=
  match args with
  | [] => saw_read_only_flag
  | arg :: args => if read_only_branch_flag arg then branch_loop args true else false
  end.

Definition git_branch_is_read_only (branch_args : list str) : bool :=
  if is_empty branch_args then true else branch_loop branch_args false.

Definition is_safe_git_command (command : list str) : bool :=
  match find_git_subcommand command ["status"; "log"; "diff"; "show"; "branch"] with
  | None => false
  | Some (subcommand_idx, subcommand) =>
      let global_args := take (subcommand_idx - 1) (drop 1 command) in
      if git_has_unsafe_global_option global_args then false
      else
        let subcommand_args := drop (subcommand_idx + 1) command in
        if mem ["status"; "log"; "diff"; "show"] subcommand
        then git_subcommand_args_are_read_only subcommand_args
        else if decide (subcommand = "branch")
        then git_subcommand_args_are_read_only subcommand_args
             && git_branch_is_read_only subcommand_args
        else false
  end.

(** [/^(\d+,)?\d+p$/] *)
Definition is_valid_sed_n_arg (arg : option str) : bool :=
  match arg with
  | None => false
  | Some s =>
      match strip_suffix "p" s with
      | None => false
      | Some core =>
          match split 44%N core with
          | [num] => negb (is_empty num) && forallb is_ascii_digit num
          | [a; b] => negb (is_empty a) && negb (is_empty b)
                      && forallb is_ascii_digit a && forallb is_ascii_digit b
          | _ => false
          end
      end
  end.

Definition UNSAFE_FIND_OPTIONS : list str :=
  ["-exec"; "-execdir"; "-ok"; "-okdir"; "-delete"; "-fls"; "-fprint"; "-fprint0"; "-fprintf"].

Definition unsafe_base64_arg (arg : str) : bool :=
  mem ["-o"; "--output"] arg || starts_with arg "--output="
  || (starts_with arg "-o" && negb (bool_decide (arg = "-o"))).

Definition unsafe_rg_arg (arg : str) : bool :=
  mem ["--search-zip"; "-z"] arg
  || existsb (fun opt => bool_decide (arg = opt) || starts_with arg (opt ++ "="))
       ["--pre"; "--hostname-bin"].

Definition ALWAYS_SAFE : list str :=
  ["cat"; "cd"; "cut"; "echo"; "expr"; "false"; "grep"; "head"; "id"; "ls"; "nl"; "paste"; "pwd";
   "rev"; "seq"; "stat"; "tail"; "tr"; "true"; "uname"; "uniq"; "wc"; "which"; "whoami"].

Definition is_safe_to_call_with_exec (command : list str) : bool :=
  match command with
  | [] => false
  | cmd0 :: args =>
      match executable_name_lookup_key cmd0 with
      | None => false
      | Some cmd =>
          if mem ["numfmt"; "tac"] cmd then true
          else if mem ALWAYS_SAFE cmd then true
          else if decide (cmd = "base64") then negb (existsb unsafe_base64_arg args)
          else if decide (cmd = "find") then negb (existsb (mem UNSAFE_FIND_OPTIONS) command)
          else if decide (cmd = "rg") then negb (existsb unsafe_rg_arg command)
          else if decide (cmd = "git") then is_safe_git_command command
          else if decide (cmd = "sed") then
            (length command <=? 4)%nat && bool_decide (command !! 1 = Some "-n")
            && is_valid_sed_n_arg (command !! 2)
          else false
      end
  end.

(** ** windows_safe_commands.rs *)

Definition is_powershell_executable (exe : str) : bool :=
  mem ["powershell"; "powershell.exe"; "pwsh"; "pwsh.exe"]
    (to_ascii_lowercase (default exe (file_name (components exe)))).

Definition quote_argument (arg : str) : str :=
  if is_empty arg then "''"
  else if forallb (fun ch => negb (is_whitespace ch)) arg then arg
  else "'" ++ concat (map (fun c => if (c =? 39)%N then "''" else [c]) arg) ++ "'".

Definition join_arguments_as_script (args : list str) : str :=
  match args with
  | [] => []
  | first :: rest => join " " (first :: map quote_argument rest)
  end.

Definition is_paren (c : char) : bool := ((c =? 40) || (c =? 41))%N.

(** [w.trim_matches(..).trim_start_matches('-').to_ascii_lowercase()] *)
Definition powershell_word (w : str) : str :=
  to_ascii_lowercase (trim_start_matches (N.eqb 45%N)
    (trim_end_matches is_paren (trim_start_matches is_paren w))).

Definition SIDE_EFFECT_CMDLETS : list str :=
  ["set-content"; "add-content"; "out-file"; "new-item"; "remove-item"; "move-item"; "copy-item";
   "rename-item"; "start-process"; "stop-process"].

Definition is_safe_ripgrep (words : list str) : bool :=
  negb (existsb (fun arg => unsafe_rg_arg (to_ascii_lowercase arg)) (drop 1 words)).

Definition is_safe_powershell_words (words : list str) : bool :=
  match words with
  | [] => false
  | w0 :: _ =>
      if existsb (fun w => mem SIDE_EFFECT_CMDLETS (powershell_word w)) words then false
      else
        let command := powershell_word w0 in
        if mem ["echo"; "write-output"; "write-host"; "dir"; "ls"; "get-childitem"; "gci";
                "cat"; "type"; "gc"; "get-content"; "select-string"; "sls"; "findstr";
                "measure-object"; "measure"; "get-location"; "gl"; "pwd"; "test-path"; "tp";
                "resolve-path"; "rvpa"; "select-object"; "select"; "get-item"] command then true
        else if decide (command = "git") then is_safe_git_command words
        else if decide (command = "rg") then is_safe_ripgrep words
        else false
  end.

Section Safety.

(** tree-sitter, and the PowerShell process that splits a script. *)
Context (try_parse_shell : str -> option Tree)
  (parse_powershell_script : str -> str -> option (list (list str))).

(** The scan of the PowerShell arguments. *)
Fixpoint parse_powershell_invocation (executable : str) (args : list str) :
    option (list (list str)) :=
  match args with
  | [] => None
  | arg :: rest =>
      let lower := to_ascii_lowercase arg in
      if mem ["-command"; "/command"; "-c"] lower then
        match rest with
        | [script] => parse_powershell_script executable script
        | _ => None
        end
      else if starts_with lower "-command:" || starts_with lower "/command:" then
        match rest, split_once 58%N arg with
        | [], Some (_, script) => parse_powershell_script executable script
        | _, _ => None
        end
      else if mem ["-nologo"; "-noprofile"; "-noninteractive"; "-mta"; "-sta"] lower
      then parse_powershell_invocation executable rest
      else if mem ["-encodedcommand"; "-ec"; "-file"; "/file"; "-windowstyle"; "-executionpolicy";
                   "-workingdirectory"] lower then None
      else if starts_with lower "-" then None
      else parse_powershell_script executable (join_arguments_as_script args)
  end.

Definition try_parse_powershell_command_sequence (command : list str) : option (list (list str)) :=
  match command with
  | [] => None
  | exe :: rest =>
      if is_powershell_executable exe then parse_powershell_invocation exe rest else None
  end.

Definition is_safe_command_windows (command : list str) : bool :=
  match try_parse_powershell_command_sequence command with
  | Some commands => forallb is_safe_powershell_words commands
  | None => false
  end.

Definition zsh_to_bash (s : str) : str := if decide (s = "zsh") then "bash" else s.

Definition is_known_safe_command (command : list str) : bool :=
  let command := map zsh_to_bash command in
  if is_safe_command_windows command then true
  else if is_safe_to_call_with_exec command then true
  else match parse_shell_lc_plain_commands try_parse_shell command with
       | Some all_commands =>
           negb (is_empty all_commands) && forallb is_safe_to_call_with_exec all_commands
       | None => false
       end.

Definition command_might_be_dangerous (command : list str) : bool :=
  if is_dangerous_to_call_with_exec command then true
  else match parse_shell_lc_plain_commands try_parse_shell command with
       | Some all_commands => existsb is_dangerous_to_call_with_exec all_commands
       | None => false
       end.

End Safety.

Example safety_examples :
  is_safe_to_call_with_exec ["/usr/bin/git"; "--no-pager"; "log"; "-p"] = true /\
  is_safe_to_call_with_exec ["git"; "-c"; "core.pager=x"; "log"] = false /\
  is_safe_to_call_with_exec ["git"; "-C"; "status"; "push"] = false /\
  is_safe_to_call_with_exec ["git"; "branch"; "-d"; "main"] = false /\
  is_safe_to_call_with_exec ["sed"; "-n"; "1,5p"; "f"] = true /\
  is_safe_to_call_with_exec ["find"; "."; "-delete"] = false /\
  is_dangerous_to_call_with_exec ["sudo"; "sudo"; "rm"; "-rf"; "/"] = true.
Proof. vm_compute. split_and!; reflexivity. Qed.

(** ** Git *)

Lemma mem_spec l s : mem l s = true <-> s ∈ l.
Proof.
  unfold mem. rewrite existsb_exists. setoid_rewrite bool_decide_eq_true.
  rewrite list_elem_of_In. naive_solver.
Qed.

Lemma existsb_false {A} (f : A -> bool) l : existsb f l = false <-> Forall (fun x => f x = false) l.
Proof.
  induction l as [|x l IH]; cbn; [split; [constructor|done]|].
  by rewrite orb_false_iff, Forall_cons, IH.
Qed.

(** Every global option the scan skips for its value is one the check of
    the global options refuses. *)
Lemma inline_value_unsafe arg :
  is_git_global_option_with_inline_value arg = true ->
  git_matches_option_pattern arg UNSAFE_GIT_GLOBAL_OPTIONS = true.
Proof.
  unfold is_git_global_option_with_inline_value, git_matches_option_pattern.
  intros [H|H]%orb_true_iff; apply existsb_exists.
  - apply existsb_exists in H as (p & Hp & Hs). exists (Prefix p). split; [|done].
    cbn in Hp |- *. naive_solver.
  - apply andb_true_iff in H as [[H|H]%orb_true_iff Hl].
    + exists (ShortWithInlineValue "-C"). split; [cbn; tauto|]. cbn [pattern_matches].
      by rewrite H.
    + exists (ShortWithInlineValue "-c"). split; [cbn; tauto|]. cbn [pattern_matches].
      by rewrite H.
Qed.

Lemma with_value_unsafe arg :
  is_git_global_option_with_value arg = true ->
  git_matches_option_pattern arg UNSAFE_GIT_GLOBAL_OPTIONS = true.
Proof.
  intros H%mem_spec. unfold git_matches_option_pattern. apply existsb_exists.
  repeat (apply elem_of_cons in H as [->|H]; [eexists (Exact _); split; [|by apply bool_decide_eq_true]; cbn; tauto|]).
  no_elem.
Qed.

Lemma find_git_loop_ge subs idx skip args j sub :
  find_git_loop subs idx skip args = Some (j, sub) -> idx <= j.
Proof.
  revert idx skip. induction args as [|a args IH]; intros idx skip; cbn; [done|].
  repeat case_match; try (intros H'%IH; lia); intros; simplify_eq; lia.
Qed.

Lemma find_git_loop_split subs idx args j sub :
  find_git_loop subs idx false args = Some (j, sub) ->
  git_has_unsafe_global_option (take (j - idx) args) = false ->
  exists rest, args = take (j - idx) args ++ sub :: rest /\ rest = drop (S (j - idx)) args /\
    Forall (fun a => starts_with a "-" = true) (take (j - idx) args) /\ sub ∈ subs.
Proof.
  revert idx. induction args as [|a args IH]; intros idx; cbn [find_git_loop]; [done|].
  assert (forall skip, find_git_loop subs (S idx) skip args = Some (j, sub) ->
    exists n, j - idx = S n /\ j - S idx = n) as Hpos.
  { intros skip H%find_git_loop_ge. exists (j - S idx). lia. }
  unfold git_has_unsafe_global_option.
  destruct (is_git_global_option_with_inline_value a) eqn:Hi.
  { intros H. destruct (Hpos _ H) as (n & -> & _). cbn [take existsb]. by rewrite (inline_value_unsafe a Hi). }
  destruct (is_git_global_option_with_value a) eqn:Hv.
  { intros H. destruct (Hpos _ H) as (n & -> & _). cbn [take existsb]. by rewrite (with_value_unsafe a Hv). }
  destruct (_ || _) eqn:Hd.
  - intros H. destruct (Hpos _ H) as (n & -> & Hn). cbn [take existsb drop app].
    intros [_ Hu]%orb_false_iff. rewrite <- Hn in *.
    destruct (IH _ H Hu) as (rest & Hargs & Hrest & Hall & Hin).
    exists rest. split_and!; [by rewrite <- Hargs|done| |done]. constructor; [|done].
    apply orb_true_iff in Hd as [Hd|Hd]; [|done]. by apply bool_decide_eq_true in Hd as ->.
  - destruct (mem subs a) eqn:Hm; [|done]. intros [= <- <-] _. rewrite Nat.sub_diag.
    exists args. cbn. split_and!; [done|done|constructor|by apply mem_spec].
Qed.

Lemma branch_loop_ok args b : branch_loop args b = true -> Forall (fun a => read_only_branch_flag a = true) args.
Proof.
  revert b. induction args as [|a args IH]; intros b; cbn; [constructor|].
  destruct (read_only_branch_flag a) eqn:E; [|done]. constructor; [done|by eapply IH].
Qed.

(** No bypass through global options: a git command that is considered
    safe is [git], then only dash arguments none of which takes a value or
    changes the repository, configuration, program path or pager, and then
    one of the five read-only subcommands, whose own arguments include no
    option that writes a file or runs a program; for [branch] they are
    query flags only. *)
Theorem safe_git_shape command :
  is_safe_git_command command = true ->
  exists prog globals sub args,
    command = prog :: globals ++ sub :: args /\
    executable_name_lookup_key prog = Some "git" /\
    Forall (fun a => starts_with a "-" = true /\
              git_matches_option_pattern a UNSAFE_GIT_GLOBAL_OPTIONS = false) globals /\
    sub ∈ ["status"; "log"; "diff"; "show"; "branch"] /\
    Forall (fun a => git_matches_option_pattern a UNSAFE_GIT_SUBCOMMAND_OPTIONS = false) args /\
    (sub = "branch" -> Forall (fun a => read_only_branch_flag a = true) args).
Proof.
  unfold is_safe_git_command, find_git_subcommand. destruct command as [|prog args]; [done|].
  destruct (bool_decide _) eqn:Hp; [|done]. apply bool_decide_eq_true in Hp.
  destruct (find_git_loop _ _ _ _) as [[j sub]|] eqn:Hf; [|done]. cbn [drop]. rewrite drop_0.
  destruct (git_has_unsafe_global_option _) eqn:Hu; [done|].
  destruct (find_git_loop_split _ _ _ _ _ Hf Hu) as (rest & Hargs & Hrest & Hdash & Hin).
  pose proof (find_git_loop_ge _ _ _ _ _ _ Hf) as Hj.
  replace (drop (j + 1) (prog :: args)) with rest
    by (rewrite Hrest; replace (j + 1) with (S (S (j - 1))) by lia; done).
  intros Hsafe. exists prog, (take (j - 1) args), sub, rest. split_and!; [congruence|done| |done| |].
  - unfold git_has_unsafe_global_option in Hu. apply existsb_false in Hu.
    apply Forall_forall. intros a Ha. rewrite Forall_forall in Hdash, Hu. split; auto.
  - assert (git_subcommand_args_are_read_only rest = true) as Hro.
    { destruct (mem _ sub); [done|]. destruct (decide _); [|done]. by apply andb_true_iff in Hsafe as [? _]. }
    unfold git_subcommand_args_are_read_only in Hro. by apply negb_true_iff, existsb_false in Hro.
  - intros ->. change (mem ["status"; "log"; "diff"; "show"] "branch") with false in Hsafe.
    rewrite decide_True in Hsafe by done. apply andb_true_iff in Hsafe as [_ Hb].
    unfold git_branch_is_read_only in Hb. destruct rest; [constructor|]. exact (branch_loop_ok _ false Hb).
Qed.

Lemma safe_git_shape_witness :
  is_safe_git_command ["/usr/bin/git"; "--no-pager"; "branch"; "-a"; "--format=%(refname)"] = true /\
  exists prog globals sub args,
    ["/usr/bin/git"; "--no-pager"; "branch"; "-a"; "--format=%(refname)"] =
      prog :: globals ++ sub :: args /\
    executable_name_lookup_key prog = Some "git" /\
    Forall (fun a => starts_with a "-" = true /\
              git_matches_option_pattern a UNSAFE_GIT_GLOBAL_OPTIONS = false) globals /\
    sub ∈ ["status"; "log"; "diff"; "show"; "branch"] /\
    Forall (fun a => git_matches_option_pattern a UNSAFE_GIT_SUBCOMMAND_OPTIONS = false) args /\
    (sub = "branch" -> Forall (fun a => read_only_branch_flag a = true) args).
Proof.
  assert (is_safe_git_command ["/usr/bin/git"; "--no-pager"; "branch"; "-a"; "--format=%(refname)"]
    = true) as H by (vm_compute; reflexivity).
  split; [exact H|]. exact (safe_git_shape _ H).
Defined.

(** ** sed *)

(** The argument [sed -n] may take is exactly [/^(\d+,)?\d+p$/]: one or
    two runs of digits, a comma between two, and a final [p]. *)
Theorem sed_n_arg_spec s :
  is_valid_sed_n_arg (Some s) = true <->
  exists a b, b <> [] /\ forallb is_ascii_digit b = true /\
    (a = [] \/ exists d, a = d ++ "," /\ d <> [] /\ forallb is_ascii_digit d = true) /\
    s = a ++ b ++ "p".
Proof.
  assert (forall d, forallb is_ascii_digit d = true -> no_char 44%N d) as Hcomma.
  { intros d Hd Hin. rewrite forallb_forall in Hd. apply list_elem_of_In, Hd in Hin. done. }
  cbn [is_valid_sed_n_arg]. split.
  - destruct (strip_suffix "p" s) as [core|] eqn:Es; [|done].
    apply strip_suffix_Some in Es as ->. pose proof (join_split 44%N core) as Hj.
    destruct (split 44%N core) as [|x [|y [|]]] eqn:E; try done; cbn in Hj; subst core;
      rewrite !andb_true_iff, !negb_true_iff, !is_empty_false.
    + intros [Hx Hdx]. exists [], x. split_and!; [done|done|by left|done].
    + intros [[[Hx Hy] Hdx] Hdy]. exists (x ++ ","), y.
      split_and!; [done|done| |by rewrite <- !app_assoc].
      right. by exists x.
  - intros (a & b & Hb & Hbd & Ha & ->).
    assert (strip_suffix "p" (a ++ b ++ "p") = Some (a ++ b)) as ->.
    { apply strip_suffix_Some. by rewrite <- app_assoc. }
    destruct Ha as [->|(d & -> & Hd & Hdd)]; cbn [app].
    + rewrite split_no_char by auto. by rewrite (proj2 (is_empty_false b)), Hbd.
    + rewrite <- app_assoc. cbn [app]. rewrite split_app, split_no_char by auto.
      by rewrite (proj2 (is_empty_false b)), (proj2 (is_empty_false d)), Hbd, Hdd.
Qed.

(** ** Safe commands are not dangerous *)

Lemma detect_unfold p :
  detect_shell_type p =
  match shell_of_name p with
  | Some t => Some t
  | None =>
      match file_stem p with
      | Some s => if decide (components s = components p) then None else detect_shell_type s
      | None => None
      end
  end.
Proof.
  assert (exists m, length p < m) as [m Hm] by (exists (S (length p)); lia).
  pose proof (detect_fuel_enough p (S m) ltac:(lia)) as H. cbn [detect_fuel] in H.
  destruct (shell_of_name p) as [t|] eqn:Et; [congruence|].
  destruct (file_stem p) as [s|] eqn:Es; [|congruence].
  destruct (decide (components s = components p)); [congruence|].
  rewrite detect_fuel_enough in H; [congruence|].
  destruct (file_stem_shorter p s Es) as [->|]; lia.
Qed.

Definition posix_shell (t : option ShellType) : bool :=
  match t with Some Zsh | Some Bash | Some Sh => true | _ => false end.

Lemma components_proper s : proper_name s -> components s = [Normal s].
Proof.
  intros Hs. pose proof Hs as (H1 & H2 & H3 & H4). unfold components, leading_component.
  assert (is_absolute s = false) as ->.
  { destruct (is_absolute s) eqn:E; [|done]. apply is_absolute_cons in E as [r ->].
    destruct H4. by left. }
  rewrite split_no_char by done. rewrite decide_False by (cbn; congruence).
  cbn. by rewrite segment_proper.
Qed.

Lemma file_name_proper p n : file_name (components p) = Some n -> proper_name n.
Proof.
  unfold file_name. destruct (last (components p)) as [[| | |m]|] eqn:El; try done. intros [= ->].
  apply last_Some in El as [l El]. unfold components in El.
  assert (Normal n ∈ leading_component p ++ omap segment_component (split SLASH p)) as Hin.
  { rewrite El. apply elem_of_app. right. by left. }
  apply elem_of_app in Hin as [Hin|Hin].
  - unfold leading_component in Hin. destruct (is_absolute p); [|destruct (decide _)];
      repeat (apply elem_of_cons in Hin as [Hin|Hin]; [done|]); no_elem.
  - pose proof (segments_like p) as Hs. rewrite Forall_forall in Hs. by apply (Hs (Normal n)).
Qed.

Lemma shell_of_name_posix p :
  posix_shell (shell_of_name p) = true -> p = "zsh" \/ p = "sh" \/ p = "bash".
Proof. unfold shell_of_name. repeat case_decide; auto; done. Qed.

(** A posix shell whose file name has no dot is one of the three names. *)
Lemma posix_shell_no_dot p n :
  posix_shell (detect_shell_type p) = true -> file_name (components p) = Some n ->
  no_char 46%N n -> n = "zsh" \/ n = "sh" \/ n = "bash".
Proof.
  intros Hp Hn Hdot. pose proof (file_name_proper p n Hn) as Hprop.
  assert (file_stem p = Some n) as Hstem.
  { unfold file_stem. rewrite Hn. by rewrite (proj2 (rsplit_once_None 46%N n)). }
  rewrite detect_unfold, Hstem in Hp.
  destruct (shell_of_name p) as [t|] eqn:Et.
  - assert (p = "zsh" \/ p = "sh" \/ p = "bash") as [->|[->| ->]]
      by (apply shell_of_name_posix; by rewrite Et); vm_compute in Hn; injection Hn as <-; auto.
  - destruct (decide _); [done|]. rewrite detect_unfold in Hp.
    destruct (shell_of_name n) as [t|] eqn:Et'.
    + apply shell_of_name_posix. by rewrite Et'.
    + assert (file_stem n = Some n) as Hn2.
      { unfold file_stem. rewrite components_proper by done. cbn [file_name last].
        by rewrite (proj2 (rsplit_once_None 46%N n)). }
      rewrite Hn2, decide_True in Hp by done. done.
Qed.

Definition SAFE_PROGRAMS : list str :=
  ["numfmt"; "tac"] ++ ALWAYS_SAFE ++ ["base64"; "find"; "rg"; "git"; "sed"].

Lemma safe_exec_program cmd0 args :
  is_safe_to_call_with_exec (cmd0 :: args) = true ->
  exists n, executable_name_lookup_key cmd0 = Some n /\ n ∈ SAFE_PROGRAMS.
Proof.
  unfold is_safe_to_call_with_exec. destruct (executable_name_lookup_key cmd0) as [n|]; [|done].
  intros H. exists n. split; [done|]. apply mem_spec. unfold SAFE_PROGRAMS, mem.
  rewrite !existsb_app. fold (mem ["numfmt"; "tac"] n). fold (mem ALWAYS_SAFE n).
  destruct (mem ["numfmt"; "tac"] n); [done|]. destruct (mem ALWAYS_SAFE n); [done|].
  repeat (destruct (decide (n = _)) as [->|]; [reflexivity|]). done.
Qed.

Lemma dangerous_program c : is_dangerous_to_call_with_exec c = true ->
  exists args, c = "rm" :: args \/ c = "sudo" :: args.
Proof.
  destruct c as [|c0 args]; [done|]. cbn. destruct (decide (c0 = "rm")) as [->|]; [eauto|].
  destruct (decide (c0 = "sudo")) as [->|]; [eauto|done].
Qed.

Lemma exec_safe_not_dangerous c :
  is_safe_to_call_with_exec c = true -> is_dangerous_to_call_with_exec c = false.
Proof.
  intros Hs. destruct (is_dangerous_to_call_with_exec c) eqn:Hd; [|done]. exfalso.
  apply dangerous_program in Hd as [args [-> | ->]];
    apply safe_exec_program in Hs as (n & Hn & Hin); vm_compute in Hn; injection Hn as <-;
    apply mem_spec in Hin; vm_compute in Hin; done.
Qed.

Lemma safe_program_not_shell cmd0 args :
  is_safe_to_call_with_exec (cmd0 :: args) = true -> posix_shell (detect_shell_type cmd0) = false.
Proof.
  intros (n & Hn & Hin)%safe_exec_program. destruct (posix_shell _) eqn:Hp; [|done]. exfalso.
  assert (forallb (fun n => negb (contains_char n 46%N) && negb (mem ["zsh"; "sh"; "bash"] n))
    SAFE_PROGRAMS = true) as Hall by (vm_compute; reflexivity).
  rewrite forallb_forall in Hall. apply list_elem_of_In, Hall in Hin.
  apply andb_true_iff in Hin as [Hdot%negb_true_iff%contains_char_false Hnot%negb_true_iff].
  destruct (posix_shell_no_dot cmd0 n Hp Hn Hdot) as [->|[->| ->]]; by vm_compute in Hnot.
Qed.

Lemma powershell_name p n :
  file_name (components p) = Some n ->
  is_powershell_executable p = mem ["powershell"; "powershell.exe"; "pwsh"; "pwsh.exe"] (to_ascii_lowercase n).
Proof. intros H. unfold is_powershell_executable. by rewrite H. Qed.

(** Dropping the extension of a PowerShell name leaves a PowerShell name. *)
Lemma powershell_stem before after :
  no_char 46%N after ->
  mem ["powershell"; "powershell.exe"; "pwsh"; "pwsh.exe"]
    (to_ascii_lowercase (before ++ 46%N :: after)) = true ->
  to_ascii_lowercase before = "powershell" \/ to_ascii_lowercase before = "pwsh".
Proof.
  intros Ha H%mem_spec. unfold to_ascii_lowercase in H. rewrite map_app in H. cbn [map] in H.
  change (char_to_ascii_lowercase 46) with 46%N in H.
  fold (to_ascii_lowercase before) (to_ascii_lowercase after) in H.
  assert (rsplit_once 46%N (to_ascii_lowercase before ++ 46%N :: to_ascii_lowercase after)
    = Some (to_ascii_lowercase before, to_ascii_lowercase after)) as Hr.
  { apply rsplit_once_Some. split; [done|]. by apply lower_no_char. }
  assert (rsplit_once 46%N "powershell" = None /\ rsplit_once 46%N "pwsh" = None /\
    rsplit_once 46%N "powershell.exe" = Some ("powershell", "exe") /\
    rsplit_once 46%N "pwsh.exe" = Some ("pwsh", "exe")) as (E1 & E2 & E3 & E4)
    by (vm_compute; done).
  repeat (apply elem_of_cons in H as [H|H]; [rewrite H in Hr; simplify_eq; auto|]).
  no_elem.
Qed.

Lemma powershell_not_posix p :
  is_powershell_executable p = true -> posix_shell (detect_shell_type p) = false.
Proof.
  assert (exists k, length p < k) as [k Hk] by (exists (S (length p)); lia). revert p Hk.
  induction k as [|k IH]; intros p Hk Hps; [lia|].
  destruct (posix_shell (detect_shell_type p)) eqn:Hp; [|done]. exfalso.
  rewrite detect_unfold in Hp. destruct (shell_of_name p) as [t|] eqn:Et.
  { assert (p = "zsh" \/ p = "sh" \/ p = "bash") as [->|[->| ->]]
      by (apply shell_of_name_posix; by rewrite Et); by vm_compute in Hps. }
  destruct (file_stem p) as [s|] eqn:Es; [|done].
  destruct (decide _) as [|Hne]; [done|].
  assert (length s < k) as Hlen.
  { destruct (file_stem_shorter p s Es) as [->|]; [done|lia]. }
  enough (is_powershell_executable s = true) as Hs by (rewrite IH in Hp; done).
  unfold file_stem in Es. destruct (file_name (components p)) as [name|] eqn:En; [|done].
  rewrite (powershell_name p name En) in Hps. pose proof (file_name_proper p name En) as Hprop.
  assert (is_powershell_executable name = true) as Hname.
  { rewrite (powershell_name name name); [done|]. by rewrite components_proper. }
  destruct (rsplit_once 46%N name) as [[before after]|] eqn:Er; injection Es as <-; [|done].
  destruct (is_empty before) eqn:Eb; [done|]. apply is_empty_false in Eb.
  apply rsplit_once_Some in Er as [-> Hafter].
  apply (powershell_stem before after Hafter) in Hps.
  assert (proper_name before) as Hb.
  { destruct Hprop as (_ & _ & _ & Hslash). apply no_char_app in Hslash as [Hslash _].
    split_and!; [done| | |done]; intros ->; vm_compute in Hps; destruct Hps; done. }
  rewrite (powershell_name before before) by by rewrite components_proper.
  apply mem_spec. destruct Hps as [-> | ->]; [by left|right; right; by left].
Qed.

Lemma extract_bash_Some c shell script :
  extract_bash_command c = Some (shell, script) <->
  exists flag, c = [shell; flag; script] /\ mem ["-lc"; "-c"] flag = true /\
    posix_shell (detect_shell_type shell) = true.
Proof.
  unfold extract_bash_command. destruct c as [|a [|b [|d [|]]]]; try by split; [done|intros (? & ? & _)].
  fold (posix_shell (detect_shell_type a)). split.
  - destruct (_ && _) eqn:E; [|done]. intros [= <- <-]. apply andb_true_iff in E as [? ?]. eauto.
  - intros (flag & [= -> -> ->] & -> & ->). done.
Qed.

Section Disjoint.

Context (try_parse_shell : str -> option Tree)
  (parse_powershell_script : str -> str -> option (list (list str))).

(** The grammar reads the single word [zsh] as that command, if anything. *)
Hypothesis zsh_is_a_word : forall tree, try_parse_shell "zsh" = Some tree ->
  forall cmds, try_parse_word_only_commands_sequence tree = Some cmds -> cmds = [["zsh"]].

Abbreviation plain_commands := (parse_shell_lc_plain_commands try_parse_shell).

(** A safe command does not start with [rm] or [sudo]. *)
Lemma safe_head_not_dangerous c :
  is_known_safe_command try_parse_shell parse_powershell_script c = true ->
  is_dangerous_to_call_with_exec c = false.
Proof.
  intros Hs. destruct (is_dangerous_to_call_with_exec c) eqn:Hd; [|done]. exfalso.
  revert Hs. apply not_true_iff_false.
  assert (exists prog args, c = prog :: args /\ zsh_to_bash prog = prog /\
    is_powershell_executable prog = false /\ executable_name_lookup_key prog ∈ [Some "rm"; Some "sudo"] /\
    posix_shell (detect_shell_type prog) = false) as (prog & args & -> & Hz & Hps & Hkey & Hsh).
  { apply dangerous_program in Hd as [args [-> | ->]]; eexists _, args; split_and!; try reflexivity;
      vm_compute; [by left|right; by left]. }
  unfold is_known_safe_command. cbn [map]. rewrite Hz.
  unfold is_safe_command_windows. cbn [try_parse_powershell_command_sequence]. rewrite Hps.
  destruct (is_safe_to_call_with_exec _) eqn:Hexec.
  { apply safe_exec_program in Hexec as (n & Hn & Hin). rewrite Hn in Hkey.
    apply mem_spec in Hin. apply elem_of_cons in Hkey as [[= ->]|Hkey]; [by vm_compute in Hin|].
    apply list_elem_of_singleton in Hkey as [= ->]. by vm_compute in Hin. }
  unfold parse_shell_lc_plain_commands. destruct (extract_bash_command _) as [[sh sc]|] eqn:E; [|done].
  apply extract_bash_Some in E as (flag & [= <- _] & _ & Hposix). congruence.
Qed.

(** A safe shell wrapper is safe because of its script. *)
Lemma safe_wrapper shell flag script :
  mem ["-lc"; "-c"] flag = true -> posix_shell (detect_shell_type shell) = true ->
  is_known_safe_command try_parse_shell parse_powershell_script [shell; flag; script] = true ->
  exists cmds,
    (tree ← try_parse_shell (zsh_to_bash script); try_parse_word_only_commands_sequence tree) = Some cmds /\
    forallb is_safe_to_call_with_exec cmds = true.
Proof.
  intros Hflag Hshell. unfold is_known_safe_command. cbn [map].
  assert (posix_shell (detect_shell_type (zsh_to_bash shell)) = true) as Hz.
  { unfold zsh_to_bash. destruct (decide (shell = "zsh")); [reflexivity|done]. }
  unfold is_safe_command_windows. cbn [try_parse_powershell_command_sequence].
  destruct (is_powershell_executable _) eqn:Hps; [by apply powershell_not_posix in Hps; congruence|].
  destruct (is_safe_to_call_with_exec _) eqn:Hexec;
    [by apply safe_program_not_shell in Hexec; congruence|].
  unfold parse_shell_lc_plain_commands.
  destruct (extract_bash_command _) as [[sh sc]|] eqn:E; [|done].
  apply extract_bash_Some in E as (fl & [= <- _ <-] & _ & _). cbn [mbind option_bind].
  destruct (try_parse_shell _ ≫= _) as [cmds|] eqn:Ep; [|done].
  intros [_ Hall]%andb_true_iff. by exists cmds.
Qed.

Lemma known_safe_not_dangerous c :
  is_known_safe_command try_parse_shell parse_powershell_script c = true ->
  command_might_be_dangerous try_parse_shell c = false.
Proof.
  intros Hsafe. unfold command_might_be_dangerous.
  rewrite (safe_head_not_dangerous c Hsafe).
  unfold parse_shell_lc_plain_commands at 1.
  destruct (extract_bash_command c) as [[shell script]|] eqn:Ec; [|done].
  apply extract_bash_Some in Ec as (flag & -> & Hflag & Hshell).
  destruct (safe_wrapper shell flag script Hflag Hshell Hsafe) as (cmds & Hcmds & Hall).
  cbn [mbind option_bind]. destruct (decide (script = "zsh")) as [->|Hz].
  - destruct (try_parse_shell "zsh") as [tree|] eqn:Et; [|done]. cbn [mbind option_bind].
    destruct (try_parse_word_only_commands_sequence tree) as [l|] eqn:El; [|done].
    by rewrite (zsh_is_a_word tree eq_refl l El).
  - unfold zsh_to_bash in Hcmds. rewrite decide_False in Hcmds by done. rewrite Hcmds.
    apply existsb_false, Forall_forall. intros x Hx. apply exec_safe_not_dangerous.
    rewrite forallb_forall in Hall. by apply Hall, list_elem_of_In.
Qed.

(** The two lists are disjoint: no command that is auto-approved as
    known to be safe is also flagged as dangerous, whatever shell wrapper
    it comes in. *)
Theorem safe_not_dangerous c :
  is_known_safe_command try_parse_shell parse_powershell_script c = true ->
  command_might_be_dangerous try_parse_shell c = false.
Proof. apply known_safe_not_dangerous. Qed.

End Disjoint.

(** ** A concrete grammar: one command of plain words *)

Module WordGrammar.

Definition leaf (k w : str) : Node := mkNode k true (Some w) 0 [].
Definition command_of (words : list str) : list Node :=
  match words with
  | [] => []
  | w :: ws => mkNode "command_name" true (Some w) 0 [leaf "word" w] :: map (leaf "word") ws
  end.
Definition parse (script : str) : option Tree :=
  Some (mkTree (mkNode "program" true (Some script) 0
    [mkNode "command" true (Some script) 0 (command_of (split SPACE script))]) false).

Lemma zsh_word tree : parse "zsh" = Some tree ->
  forall cmds, try_parse_word_only_commands_sequence tree = Some cmds -> cmds = [["zsh"]].
Proof. intros [= <-] cmds H. vm_compute in H. by injection H as <-. Qed.

End WordGrammar.

Lemma safe_not_dangerous_witness :
  is_known_safe_command WordGrammar.parse (fun _ _ => None)
    ["/bin/bash"; "-lc"; "git status --short"] = true /\
  command_might_be_dangerous WordGrammar.parse ["/bin/bash"; "-lc"; "git status --short"] = false.
Proof.
  assert (is_known_safe_command WordGrammar.parse (fun _ _ => None)
    ["/bin/bash"; "-lc"; "git status --short"] = true) as H by (vm_compute; reflexivity).
  split; [exact H|].
  exact (safe_not_dangerous WordGrammar.parse (fun _ _ => None) WordGrammar.zsh_word _ H).
Defined.
