(* ===== verification/ExecApproval.v ===== *)
(** * ExecApproval: when a command runs, asks or is refused

    [codex-rs/core/src/exec_policy.rs]: the decision for a command no rule
    matches, the approval requirement of a shell command, the amendments it
    proposes and the update of the policy by an accepted one.  The types of
    [codex-rs/protocol] it reads are given with the fields the code uses.
    Reading the rule files of the configuration layers and appending to the
    default one are file operations. *)

From S2P Require Import Prelude RustStr AbsolutePath ExecRule ExecPolicy ShellParse CommandSafety.
Open Scope str_scope.

(** ** The protocol's types *)

Record GranularApprovalConfig := mkGranular {
  sandbox_approval : bool;
  rules : bool;
  skill_approval : bool;
  request_permissions : bool;
  mcp_elicitations : bool;
}.

Inductive AskForApproval :=
| UnlessTrusted | OnFailure | OnRequest
| Granular (config : GranularApprovalConfig)
| Never.

(** The payloads of a profile are not looked at. *)
Inductive PermissionProfile := Managed | Disabled | External.
Inductive FileSystemSandboxKind := Restricted | Unrestricted | ExternalSandbox.
Inductive SandboxPermissions := UseDefault | RequireEscalated | WithAdditionalPermissions.

Definition requests_sandbox_override (s : SandboxPermissions) : bool :=
  match s with UseDefault => false | _ => true end.

Record ExecPolicyAmendment := mkAmendment { am_command : list str }.

Inductive ExecApprovalRequirement :=
| Skip (bypass_sandbox : bool) (proposed : option ExecPolicyAmendment)
| NeedsApproval (reason : option str) (proposed : option ExecPolicyAmendment)
| ForbiddenReq (reason : str).

Definition proposed_execpolicy_amendment (r : ExecApprovalRequirement) : option ExecPolicyAmendment :=
  match r with Skip _ p | NeedsApproval _ p => p | ForbiddenReq _ => None end.

(** ** exec_policy.rs *)

Definition PROMPT_CONFLICT_REASON : str :=
  "approval required by policy, but AskForApproval is set to Never".
Definition REJECT_SANDBOX_APPROVAL_REASON : str :=
  "approval required by policy, but AskForApproval::Granular.sandbox_approval is false".
Definition REJECT_RULES_APPROVAL_REASON : str :=
  "approval required by policy rule, but AskForApproval::Granular.rules is false".

Definition BANNED_PREFIX_SUGGESTIONS : list (list str) :=
  [["python3"]; ["python3"; "-"]; ["python3"; "-c"]; ["python"]; ["python"; "-"];
   ["python"; "-c"]; ["py"]; ["py"; "-3"]; ["pythonw"]; ["pyw"]; ["pypy"]; ["pypy3"];
   ["git"]; ["bash"]; ["bash"; "-lc"]; ["sh"]; ["sh"; "-c"]; ["sh"; "-lc"]; ["zsh"];
   ["zsh"; "-lc"]; ["/bin/zsh"]; ["/bin/zsh"; "-lc"]; ["/bin/bash"];
   ["/bin/bash"; "-lc"]; ["pwsh"]; ["pwsh"; "-Command"]; ["pwsh"; "-c"]; ["powershell"];
   ["powershell"; "-Command"]; ["powershell"; "-c"]; ["powershell.exe"];
   ["powershell.exe"; "-Command"]; ["powershell.exe"; "-c"]; ["env"]; ["sudo"]; ["node"];
   ["node"; "-e"]; ["perl"]; ["perl"; "-e"]; ["ruby"]; ["ruby"; "-e"]; ["php"];
   ["php"; "-r"]; ["lua"]; ["lua"; "-e"]; ["osascript"]].

Definition is_policy_match (m : RuleMatch) : bool :=
  match m with PrefixRuleMatch _ _ _ _ => true | HeuristicsRuleMatch _ _ => false end.

Definition prompt_is_rejected_by_policy (approval_policy : AskForApproval) (prompt_is_rule : bool) :
    option str :=
  match approval_policy with
  | Never => Some PROMPT_CONFLICT_REASON
  | OnFailure | OnRequest | UnlessTrusted => None
  | Granular c =>
      if prompt_is_rule then
        if negb (rules c) then Some REJECT_RULES_APPROVAL_REASON else None
      else if negb (sandbox_approval c) then Some REJECT_SANDBOX_APPROVAL_REASON else None
  end.

Definition policy_match_with (d : Decision) (m : RuleMatch) : bool :=
  is_policy_match m && bool_decide (match_decision m = d).

Definition try_derive_execpolicy_amendment_for_prompt_rules (matched : list RuleMatch) :
    option ExecPolicyAmendment :=
  if existsb (policy_match_with Prompt) matched then None
  else head (omap (fun m => match m with
                            | HeuristicsRuleMatch command Prompt => Some (mkAmendment command)
                            | _ => None end) matched).

Definition try_derive_execpolicy_amendment_for_allow_rules (matched : list RuleMatch) :
    option ExecPolicyAmendment :=
  if existsb is_policy_match matched then None
  else head (omap (fun m => match m with
                            | HeuristicsRuleMatch command Allow => Some (mkAmendment command)
                            | _ => None end) matched).

Record ExecPolicyCommands := mkCommands {
  commands : list (list str);
  used_complex_parsing : bool;
}.

Record ExecApprovalRequest := mkRequest {
  command : list str;
  approval_policy : AskForApproval;
  permission_profile : PermissionProfile;
  file_system_kind : FileSystemSandboxKind;
  sandbox_permissions : SandboxPermissions;
  prefix_rule : option (list str);
}.

Section Approval.

Context (try_parse_shell : str -> option Tree)
  (parse_powershell_script : str -> str -> option (list (list str)))
  (shlex_try_join : list str -> option str)
  (home_dir : option str) (current_dir : result PathError str).

Abbreviation known_safe := (is_known_safe_command try_parse_shell parse_powershell_script).
Abbreviation dangerous := (command_might_be_dangerous try_parse_shell).

(** On Unix [environment_lacks_sandbox_protections] is false and the command
    words are always [Generic]. *)
Definition render_decision_for_unmatched_command (cmd : list str) (req : ExecApprovalRequest)
    (used_complex_parsing : bool) : Decision :=
  if known_safe cmd && negb used_complex_parsing
     && match approval_policy req with UnlessTrusted => true | _ => false end
  then Allow
  else if dangerous cmd then
    match approval_policy req with
    | Never =>
        match permission_profile req with
        | Disabled | External => Allow
        | Managed => Forbidden
        end
    | OnFailure | OnRequest | UnlessTrusted | Granular _ => Prompt
    end
  else
    match approval_policy req with
    | Never | OnFailure => Allow
    | UnlessTrusted => Prompt
    | OnRequest | Granular _ =>
        match file_system_kind req with
        | Unrestricted | ExternalSandbox => Allow
        | Restricted =>
            if requests_sandbox_override (sandbox_permissions req) then Prompt else Allow
        end
    end.

Definition commands_for_exec_policy (cmd : list str) : ExecPolicyCommands :=
  match parse_shell_lc_plain_commands try_parse_shell cmd with
  | Some ((_ :: _) as cmds) => mkCommands cmds false
  | _ =>
      match parse_shell_lc_single_command_prefix try_parse_shell cmd with
      | Some single => mkCommands [single] true
      | None => mkCommands [cmd] false
      end
  end.

Definition render_shlex_command (args : list str) : str :=
  default (join " " args) (shlex_try_join args).

Definition derive_prompt_reason (command_args : list str) (e : Evaluation) : option str :=
  let command := render_shlex_command command_args in
  match max_by_key fst (omap (fun m => match m with
          | PrefixRuleMatch matched_prefix Prompt _ justification =>
              Some (length matched_prefix, justification)
          | _ => None end) (matched_rules e)) with
  | Some (_, Some justification) => Some ("`" ++ command ++ "` requires approval: " ++ justification)
  | Some (_, None) => Some ("`" ++ command ++ "` requires approval by policy")
  | None => None
  end.

Definition derive_forbidden_reason (command_args : list str) (e : Evaluation) : str :=
  let command := render_shlex_command command_args in
  match max_by_key (fun p => length (fst p)) (omap (fun m => match m with
          | PrefixRuleMatch matched_prefix Forbidden _ justification =>
              Some (matched_prefix, justification)
          | _ => None end) (matched_rules e)) with
  | Some (_, Some justification) => "`" ++ command ++ "` rejected: " ++ justification
  | Some (matched_prefix, None) =>
      "`" ++ command ++ "` rejected: policy forbids commands starting with `"
      ++ render_shlex_command matched_prefix ++ "`"
  | None => "`" ++ command ++ "` rejected: blocked by policy"
  end.

Definition match_options : MatchOptions := mkMatchOptions true.

Abbreviation check_one p cmd h := (check_with_options home_dir current_dir p cmd h match_options).

Definition allowed (e : option Evaluation) : bool :=
  match e with Some e => bool_decide (ev_decision e = Allow) | None => false end.

Definition prefix_rule_would_approve_all_commands (p : Policy) (prefix : list str)
    (cmds : list (list str)) (h : list str -> Decision) : bool :=
  match add_prefix_rule p prefix Allow with
  | Err _ => false
  | Ok p' => forallb (fun cmd => allowed (check_one p' cmd h)) cmds
  end.

Definition derive_requested_execpolicy_amendment_from_prefix_rule (prefix : option (list str))
    (matched : list RuleMatch) (p : Policy) (cmds : list (list str)) (h : list str -> Decision) :
    option ExecPolicyAmendment :=
  match prefix with
  | None => None
  | Some prefix =>
      if is_empty prefix then None
      else if existsb (fun banned => bool_decide (prefix = banned)) BANNED_PREFIX_SUGGESTIONS then None
      else if existsb is_policy_match matched then None
      else if prefix_rule_would_approve_all_commands p prefix cmds h
      then Some (mkAmendment prefix) else None
  end.

(** [None] is the panic of an evaluation without matches. *)
Definition create_exec_approval_requirement_for_command (p : Policy) (req : ExecApprovalRequest) :
    option ExecApprovalRequirement :=
  let c := commands_for_exec_policy (command req) in
  let auto_amendment_allowed := negb (used_complex_parsing c) in
  let h := fun cmd => render_decision_for_unmatched_command cmd req (used_complex_parsing c) in
  evaluation ← check_multiple_with_options home_dir current_dir p (commands c) h match_options;
  let matched := matched_rules evaluation in
  let requested_amendment :=
    if auto_amendment_allowed
    then derive_requested_execpolicy_amendment_from_prefix_rule (prefix_rule req) matched p (commands c) h
    else None in
  Some match ev_decision evaluation with
  | Forbidden => ForbiddenReq (derive_forbidden_reason (command req) evaluation)
  | Prompt =>
      let prompt_is_rule := existsb (policy_match_with Prompt) matched in
      match prompt_is_rejected_by_policy (approval_policy req) prompt_is_rule with
      | Some reason => ForbiddenReq reason
      | None =>
          NeedsApproval (derive_prompt_reason (command req) evaluation)
            (match requested_amendment with
             | Some a => Some a
             | None => if auto_amendment_allowed
                       then try_derive_execpolicy_amendment_for_prompt_rules matched else None
             end)
      end
  | Allow =>
      Skip
        (forallb (fun cmd => existsb (policy_match_with Allow)
           (matches_for_command_with_options home_dir current_dir p cmd None match_options))
           (commands c))
        (if auto_amendment_allowed
         then try_derive_execpolicy_amendment_for_allow_rules matched else None)
  end.

(** ** The manager *)

Inductive ExecPolicyUpdateError :=
| EmptyPrefix
| AppendFailed (message : str)
| AddRule (source : Error).

(** amend.rs: the guard of the append; [io] is what the file system says. *)
Definition blocking_append_allow_prefix_rule (prefix : list str)
    (io : result ExecPolicyUpdateError unit) : result ExecPolicyUpdateError unit :=
  if is_empty prefix then Err EmptyPrefix else io.

(** The update runs under the manager's lock; the policy is replaced last.
    [None] is the panic of an evaluation without matches. *)
Definition append_amendment_and_update (p : Policy) (a : ExecPolicyAmendment)
    (io : result ExecPolicyUpdateError unit) : option (result ExecPolicyUpdateError unit * Policy) :=
  match blocking_append_allow_prefix_rule (am_command a) io with
  | Err e => Some (Err e, p)
  | Ok _ =>
      existing ← check_multiple_with_options home_dir current_dir p [am_command a]
                   (fun _ => Forbidden) match_options;
      if bool_decide (ev_decision existing = Allow)
         && existsb (policy_match_with Allow) (matched_rules existing)
      then Some (Ok tt, p)
      else match add_prefix_rule p (am_command a) Allow with
           | Err e => Some (Err (AddRule e), p)
           | Ok p' => Some (Ok tt, p')
           end
  end.

Definition append_network_rule_and_update (p : Policy) (h : str) (proto : NetworkRuleProtocol)
    (d : Decision) (j : option str) (io : result ExecPolicyUpdateError unit) :
    result ExecPolicyUpdateError unit * Policy :=
  match io with
  | Err e => (Err e, p)
  | Ok _ =>
      match add_network_rule p h proto d j with
      | Err e => (Err (AddRule e), p)
      | Ok p' => (Ok tt, p')
      end
  end.

(** ** Facts *)

Lemma commands_nonempty cmd : commands (commands_for_exec_policy cmd) <> [].
Proof.
  unfold commands_for_exec_policy.
  destruct (parse_shell_lc_plain_commands _ _) as [[|c cs]|]; [|done|];
    by destruct (parse_shell_lc_single_command_prefix _ _).
Qed.

(** The heuristic answer and the decision a command segment gets alone. *)
Definition heuristic (req : ExecApprovalRequest) (cmd : list str) : Decision :=
  render_decision_for_unmatched_command cmd req
    (used_complex_parsing (commands_for_exec_policy (command req))).

Definition decides (p : Policy) (req : ExecApprovalRequest) (cmd : list str) (d : Decision) : Prop :=
  ev_decision <$> check_one p cmd (heuristic req) = Some d.

Definition segments (req : ExecApprovalRequest) : list (list str) :=
  commands (commands_for_exec_policy (command req)).

Lemma segment_matches p req cmd :
  cmd ∈ segments req -> forall m,
  m ∈ matches_for_command_with_options home_dir current_dir p cmd (Some (heuristic req)) match_options ->
  m ∈ concat (map (fun cmd => matches_for_command_with_options home_dir current_dir p cmd
    (Some (heuristic req)) match_options) (segments req)).
Proof.
  intros Hc m Hm. apply list_elem_of_In, in_concat. eexists.
  split; [apply in_map; by apply list_elem_of_In|by apply list_elem_of_In].
Qed.

(** The decision of the whole against those of its segments. *)
Lemma batch_decisions p req e :
  check_multiple_with_options home_dir current_dir p (segments req) (heuristic req) match_options = Some e ->
  (exists cmd, cmd ∈ segments req /\ decides p req cmd (ev_decision e)) /\
  (forall cmd d, cmd ∈ segments req -> decides p req cmd d -> severity d <= severity (ev_decision e)).
Proof.
  intros He.
  destruct (check_multiple_Some home_dir current_dir p (segments req) (heuristic req) match_options
    (commands_nonempty _)) as (e' & He' & Hm & Hd & Hmax).
  rewrite He in He'. injection He' as <-. rewrite Hm in *.
  assert (forall cmd d, cmd ∈ segments req -> decides p req cmd d -> severity d <= severity (ev_decision e)) as Hle.
  { intros cmd d Hc Hdec. unfold decides in Hdec.
    destruct (check_of_matches home_dir current_dir p cmd (heuristic req) match_options) as (d' & Hcheck & Hi).
    rewrite Hcheck in Hdec. injection Hdec as <-.
    apply iter_max_Some in Hi as [(m & -> & Hin)%list_elem_of_fmap _].
    apply Hmax. by eapply segment_matches. }
  split; [|done]. apply list_elem_of_fmap in Hd as (m & Hd & Hin).
  apply list_elem_of_In, in_concat in Hin as (ms & (cmd & <- & Hc)%in_map_iff & Hin).
  apply list_elem_of_In in Hc, Hin. exists cmd. split; [done|]. unfold decides.
  destruct (check_of_matches home_dir current_dir p cmd (heuristic req) match_options) as (d' & Hcheck & Hi).
  rewrite Hcheck. cbn. f_equal. apply severity_inj, Nat.le_antisymm.
  - apply (Hle cmd); [done|]. unfold decides. by rewrite Hcheck.
  - apply iter_max_Some in Hi as [_ Hi]. rewrite Hd. apply Hi, list_elem_of_In, in_map.
    by apply list_elem_of_In.
Qed.

(** C4. The approval requirement of a command, for any policy and request:
    the evaluation never panics; a refusal has a segment that is forbidden,
    or one that needs a prompt the approval policy rejects; an approval is
    never requested when the approval policy is [Never] and no segment is
    forbidden; and a command runs without asking only if every one of its
    segments is allowed, outside the sandbox only if every segment has an
    allow rule. *)
Theorem approval_requirement_sound p req :
  match create_exec_approval_requirement_for_command p req with
  | None => False
  | Some (ForbiddenReq _) =>
      (exists cmd, cmd ∈ segments req /\ decides p req cmd Forbidden) \/
      ((exists cmd, cmd ∈ segments req /\ decides p req cmd Prompt) /\
       exists b, is_Some (prompt_is_rejected_by_policy (approval_policy req) b))
  | Some (NeedsApproval _ _) =>
      approval_policy req <> Never /\
      (exists cmd, cmd ∈ segments req /\ decides p req cmd Prompt) /\
      (forall cmd, cmd ∈ segments req -> ~ decides p req cmd Forbidden)
  | Some (Skip bypass _) =>
      (forall cmd, cmd ∈ segments req -> decides p req cmd Allow) /\
      (bypass = true -> forall cmd, cmd ∈ segments req ->
         exists m, m ∈ lookup_rules home_dir current_dir p cmd match_options /\
           is_policy_match m = true /\ match_decision m = Allow)
  end.
Proof.
  unfold create_exec_approval_requirement_for_command.
  change (commands (commands_for_exec_policy (command req))) with (segments req).
  change (fun cmd => render_decision_for_unmatched_command cmd req _) with (heuristic req).
  destruct (check_multiple_Some home_dir current_dir p (segments req) (heuristic req) match_options
    (commands_nonempty _)) as (e & He & _).
  rewrite He. cbn [mbind option_bind].
  destruct (batch_decisions p req e He) as [(cmd & Hc & Hd) Hle].
  destruct (ev_decision e) eqn:Ed.
  - split.
    + intros c Hin.
      destruct (check_of_matches home_dir current_dir p c (heuristic req) match_options)
        as (d & Hcheck & _).
      assert (decides p req c d) as Hdec by (unfold decides; by rewrite Hcheck).
      pose proof (Hle c d Hin Hdec). by destruct d; cbn in *; try lia.
    + intros Hb c Hin. rewrite forallb_forall in Hb. apply list_elem_of_In, Hb in Hin.
      apply existsb_exists in Hin as (m & Hm & Hp). rewrite matches_for_none in Hm.
      apply andb_true_iff in Hp as [Hp Hdm]. apply bool_decide_eq_true in Hdm.
      exists m. split_and!; [by apply list_elem_of_In|done|done].
  - destruct (prompt_is_rejected_by_policy _ _) as [reason|] eqn:Er.
    + right. split; [by exists cmd|]. eexists. by rewrite Er.
    + split_and!; [intros E; by rewrite E in Er|by exists cmd|].
      intros c Hin Hf. pose proof (Hle c Forbidden Hin Hf). cbn in *. lia.
  - left. by exists cmd.
Qed.

(** A command flagged as dangerous that no rule matches never runs
    silently: it is allowed only when approvals are off and the profile
    says there is no sandbox of ours; with approvals off and a managed
    sandbox it is refused, and otherwise the user is asked. *)
Theorem dangerous_never_silent (Hzsh : forall tree, try_parse_shell "zsh" = Some tree ->
    forall cmds, try_parse_word_only_commands_sequence tree = Some cmds -> cmds = [["zsh"]])
    cmd req complex :
  dangerous cmd = true ->
  render_decision_for_unmatched_command cmd req complex =
    match approval_policy req, permission_profile req with
    | Never, Managed => Forbidden
    | Never, _ => Allow
    | _, _ => Prompt
    end.
Proof.
  intros Hd. unfold render_decision_for_unmatched_command. rewrite Hd.
  destruct (known_safe cmd) eqn:Hs.
  { by rewrite (known_safe_not_dangerous _ _ Hzsh cmd Hs) in Hd. }
  cbn. by destruct (approval_policy req), (permission_profile req).
Qed.

(** *** Amendments *)

(** A heuristic match of the batch is the answer for a segment no rule
    matched. *)
Lemma batch_heuristic p req e m :
  check_multiple_with_options home_dir current_dir p (segments req) (heuristic req) match_options = Some e ->
  m ∈ matched_rules e -> is_policy_match m = false ->
  exists cmd, cmd ∈ segments req /\ lookup_rules home_dir current_dir p cmd match_options = [] /\
    m = HeuristicsRuleMatch cmd (heuristic req cmd).
Proof.
  intros He Hm Hp.
  destruct (check_multiple_Some home_dir current_dir p (segments req) (heuristic req) match_options
    (commands_nonempty _)) as (e' & He' & Hms & _).
  rewrite He in He'. injection He' as <-. rewrite Hms in Hm.
  apply list_elem_of_In, in_concat in Hm as (ms & (cmd & <- & Hc)%in_map_iff & Hm).
  apply list_elem_of_In in Hc, Hm. exists cmd. split; [done|].
  unfold matches_for_command_with_options in Hm.
  destruct (lookup_rules _ _ p cmd _) as [|x l] eqn:El.
  - apply list_elem_of_singleton in Hm. done.
  - rewrite <- El in Hm. apply lookup_rules_not_heuristics in Hm. by destruct m.
Qed.

Lemma batch_no_policy_match p req e :
  check_multiple_with_options home_dir current_dir p (segments req) (heuristic req) match_options = Some e ->
  existsb is_policy_match (matched_rules e) = false ->
  forall cmd, cmd ∈ segments req -> lookup_rules home_dir current_dir p cmd match_options = [].
Proof.
  intros He Hn cmd Hc. apply existsb_false in Hn. rewrite Forall_forall in Hn.
  destruct (check_multiple_Some home_dir current_dir p (segments req) (heuristic req) match_options
    (commands_nonempty _)) as (e' & He' & Hms & _).
  rewrite He in He'. injection He' as <-.
  destruct (lookup_rules _ _ p cmd _) as [|m l] eqn:El; [done|]. exfalso.
  assert (m ∈ lookup_rules home_dir current_dir p cmd match_options) as Hm by (rewrite El; by left).
  assert (is_policy_match m = false) as Hf.
  { apply Hn. rewrite Hms. eapply (segment_matches p req cmd Hc).
    unfold matches_for_command_with_options. rewrite El. by left. }
  apply lookup_rules_not_heuristics in Hm. by destruct m.
Qed.

Lemma head_omap_elem {A B} (f : A -> option B) l b :
  head (omap f l) = Some b -> exists a, a ∈ l /\ f a = Some b.
Proof. intros H%head_Some_elem_of. by apply list_elem_of_omap in H. Qed.

(** The three ways an amendment is derived. *)
Lemma amendment_cases p req r a :
  create_exec_approval_requirement_for_command p req = Some r ->
  proposed_execpolicy_amendment r = Some a ->
  used_complex_parsing (commands_for_exec_policy (command req)) = false /\
  exists e, check_multiple_with_options home_dir current_dir p (segments req) (heuristic req)
              match_options = Some e /\
  ((exists d, HeuristicsRuleMatch (am_command a) d ∈ matched_rules e) \/
   (existsb is_policy_match (matched_rules e) = false /\
    prefix_rule_would_approve_all_commands p (am_command a) (segments req) (heuristic req) = true)).
Proof.
  unfold create_exec_approval_requirement_for_command.
  change (commands (commands_for_exec_policy (command req))) with (segments req).
  change (fun cmd => render_decision_for_unmatched_command cmd req _) with (heuristic req).
  destruct (check_multiple_with_options _ _ _ _ _ _) as [e|] eqn:He; [|done].
  cbn [mbind option_bind]. intros [= <-] Ha.
  destruct (used_complex_parsing _); cbn [negb] in Ha.
  { exfalso. destruct (ev_decision e); cbn in Ha; [done| |done].
    by destruct (prompt_is_rejected_by_policy _ _). }
  split; [done|]. exists e. split; [done|]. destruct (ev_decision e); cbn in Ha; [| |done].
  - unfold try_derive_execpolicy_amendment_for_allow_rules in Ha.
    destruct (existsb _ _); [done|]. apply head_omap_elem in Ha as (m & Hm & Hf).
    left. destruct m as [|c [| |]]; try done. injection Hf as <-. by exists Allow.
  - destruct (prompt_is_rejected_by_policy _ _); [done|]. cbn in Ha.
    destruct (derive_requested_execpolicy_amendment_from_prefix_rule _ _ _ _ _) as [x|] eqn:Er.
    + injection Ha as ->. right. unfold derive_requested_execpolicy_amendment_from_prefix_rule in Er.
      destruct (prefix_rule req) as [pre|]; [|done]. destruct (is_empty pre); [done|].
      destruct (existsb _ BANNED_PREFIX_SUGGESTIONS); [done|].
      destruct (existsb is_policy_match _) eqn:En; [done|].
      destruct (prefix_rule_would_approve_all_commands _ _ _ _) eqn:Ew; [|done].
      injection Er as <-. done.
    + unfold try_derive_execpolicy_amendment_for_prompt_rules in Ha.
      destruct (existsb _ _); [done|]. apply head_omap_elem in Ha as (m & Hm & Hf).
      left. destruct m as [|c [| |]]; try done. injection Hf as <-. by exists Prompt.
Qed.

(** A proposed amendment works: it is proposed only when the script was
    fully parsed (never from the here-document fallback), the policy
    accepts it as an allow rule, and it settles a segment of the command
    that no rule matched before, which is allowed from then on. *)
Theorem proposed_amendment_effective p req r a :
  Forall (fun cmd => cmd <> []) (segments req) ->
  create_exec_approval_requirement_for_command p req = Some r ->
  proposed_execpolicy_amendment r = Some a ->
  used_complex_parsing (commands_for_exec_policy (command req)) = false /\
  exists p' cmd, add_prefix_rule p (am_command a) Allow = Ok p' /\ cmd ∈ segments req /\
    lookup_rules home_dir current_dir p cmd match_options = [] /\ decides p' req cmd Allow.
Proof.
  intros Hne Hr Ha. rewrite Forall_forall in Hne.
  destruct (amendment_cases p req r a Hr Ha) as (Hc & e & He & Hcase). split; [done|].
  destruct Hcase as [(d & Hd)|(Hn & Hw)].
  - destruct (batch_heuristic p req e _ He Hd eq_refl) as (cmd & Hin & Hl & [= Hcmd _]).
    rewrite Hcmd. destruct (add_prefix_rule p cmd Allow) as [p'|] eqn:Hadd.
    2: { destruct cmd; [by apply Hne in Hin|done]. }
    exists p', cmd. split_and!; [done|done|done|]. by eapply add_prefix_decides.
  - unfold prefix_rule_would_approve_all_commands in Hw.
    destruct (add_prefix_rule p (am_command a) Allow) as [p'|] eqn:Hadd; [|done].
    assert (exists cmd, cmd ∈ segments req) as [cmd Hin].
    { destruct (segments req) as [|cmd cs] eqn:Es; [destruct (commands_nonempty (command req) Es)|].
      exists cmd. by left. }
    exists p', cmd. split_and!; [done|done|by eapply batch_no_policy_match|].
    rewrite forallb_forall in Hw. unfold decides.
    specialize (Hw cmd (proj1 (list_elem_of_In _ _) Hin)). unfold allowed in Hw.
    destruct (check_with_options _ _ _ _ _ _); [|done]. apply bool_decide_eq_true in Hw. cbn. congruence.
Qed.

(** Accepting an amendment: the update never panics; a failure (an empty
    prefix, a file error) leaves the policy in memory as it was; a success
    leaves a policy with all the rules of the old one in which the
    amendment's command, alone or with more arguments, has an allow rule. *)
Theorem append_amendment_sound p a io :
  match append_amendment_and_update p a io with
  | None => False
  | Some (Err _, p') => p' = p
  | Some (Ok _, p') =>
      am_command a <> [] /\
      (forall k, exists more, vec_of (rules_by_program p') k = vec_of (rules_by_program p) k ++ more) /\
      (exists m, m ∈ lookup_rules home_dir current_dir p' (am_command a) match_options /\
         policy_match_with Allow m = true) /\
      (p' = p \/ forall args, exists m,
         m ∈ lookup_rules home_dir current_dir p' (am_command a ++ args) match_options /\
         policy_match_with Allow m = true)
  end.
Proof.
  unfold append_amendment_and_update, blocking_append_allow_prefix_rule.
  destruct (is_empty (am_command a)) eqn:En; [done|]. apply is_empty_false in En.
  destruct io as [[]|e]; [|done].
  destruct (check_multiple_Some home_dir current_dir p [am_command a] (fun _ => Forbidden) match_options
    ltac:(done)) as (e & He & Hm & _).
  rewrite He. cbn [mbind option_bind].
  destruct (bool_decide _ && _) eqn:Eb.
  - split_and!; [done|intros k; exists []; by rewrite app_nil_r| |by left].
    apply andb_true_iff in Eb as [_ Hex]. apply existsb_exists in Hex as (m & Hin & Hp).
    exists m. split; [|done]. rewrite Hm in Hin. cbn in Hin. rewrite app_nil_r in Hin.
    apply list_elem_of_In in Hin. unfold matches_for_command_with_options in Hin.
    destruct (lookup_rules _ _ _ _ _) eqn:El; [|done].
    apply list_elem_of_singleton in Hin as ->. done.
  - destruct (add_prefix_rule p (am_command a) Allow) as [p'|] eqn:Hadd; [|done].
    split_and!; [done| | |right].
    + intros k. destruct (am_command a) as [|f toks]; [done|].
      eexists. by apply (add_prefix_vec p f toks Allow p').
    + exists (PrefixRuleMatch (am_command a) Allow None None). split; [|reflexivity].
      pose proof (add_prefix_match home_dir current_dir p (am_command a) Allow p' [] match_options Hadd) as H.
      by rewrite app_nil_r in H.
    + intros args. exists (PrefixRuleMatch (am_command a) Allow None None).
      split; [by apply (add_prefix_match home_dir current_dir p)|done].
Qed.

End Approval.

(** ** Concrete requests *)

Module Sample.

Definition ps (_ _ : str) : option (list (list str)) := None.
Definition joined (l : list str) : option str := Some (join " " l).
Definition request (cmd : list str) (a : AskForApproval) (pre : option (list str)) : ExecApprovalRequest :=
  mkRequest cmd a Managed Restricted UseDefault pre.
Abbreviation requirement := (create_exec_approval_requirement_for_command WordGrammar.parse ps joined None (Ok "/")).

Definition deny_push : Policy :=
  new {["git" := [mkPrefixRule (mkPrefixPattern "git" [Single "push"]) Forbidden (Some "no")]]}.

Example outcomes :
  requirement empty (request ["bash"; "-lc"; "cargo test"] UnlessTrusted (Some ["cargo"; "test"])) =
    Some (NeedsApproval None (Some (mkAmendment ["cargo"; "test"]))) /\
  requirement empty (request ["bash"; "-lc"; "ls -l"] UnlessTrusted None) =
    Some (Skip false (Some (mkAmendment ["ls"; "-l"]))) /\
  requirement deny_push (request ["bash"; "-lc"; "git push -f"] Never None) =
    Some (ForbiddenReq "`bash -lc git push -f` rejected: no") /\
  requirement empty (request ["rm"; "-rf"; "/"] Never None) =
    Some (ForbiddenReq "`rm -rf /` rejected: blocked by policy").
Proof. vm_compute. split_and!; reflexivity. Qed.

End Sample.

Lemma dangerous_never_silent_witness :
  command_might_be_dangerous WordGrammar.parse ["bash"; "-lc"; "sudo rm -rf /"] = true /\
  render_decision_for_unmatched_command WordGrammar.parse Sample.ps
    ["bash"; "-lc"; "sudo rm -rf /"] (Sample.request [] Never None) false = Forbidden.
Proof.
  assert (command_might_be_dangerous WordGrammar.parse ["bash"; "-lc"; "sudo rm -rf /"] = true) as H
    by (vm_compute; reflexivity).
  split; [exact H|].
  exact (dangerous_never_silent WordGrammar.parse Sample.ps WordGrammar.zsh_word _
    (Sample.request [] Never None) false H).
Defined.

Lemma proposed_amendment_effective_witness :
  let req := Sample.request ["bash"; "-lc"; "cargo test"] UnlessTrusted (Some ["cargo"; "test"]) in
  Sample.requirement empty req =
    Some (NeedsApproval None (Some (mkAmendment ["cargo"; "test"]))) /\
  exists p' cmd, add_prefix_rule empty ["cargo"; "test"] Allow = Ok p' /\
    cmd ∈ segments WordGrammar.parse req /\
    lookup_rules None (Ok "/") empty cmd match_options = [] /\
    decides WordGrammar.parse Sample.ps None (Ok "/") p' req cmd Allow.
Proof.
  cbv zeta. match goal with |- ?A /\ _ => assert (A) as H by (vm_compute; reflexivity) end.
  split; [exact H|].
  refine (proj2 (proposed_amendment_effective WordGrammar.parse Sample.ps Sample.joined None (Ok "/")
    empty _ _ _ _ H eq_refl)).
  vm_compute. repeat constructor. discriminate.
Defined.
