(* ===== verification/HeadTailBuffer.v ===== *)
(** * HeadTailBuffer: a capped output buffer

    [codex-rs/core/src/unified_exec/head_tail_buffer.rs]: the prefix and the
    suffix of a stream of bytes, with the middle dropped.  Sizes are 64-bit
    [usize] numbers with their saturating arithmetic. *)

From Stdlib Require Import Strings.Byte.
From S2P Require Import Prelude.

Abbreviation bytes := (list Byte.byte).

Definition len (l : bytes) : N := N.of_nat (length l).

Definition UNIFIED_EXEC_OUTPUT_MAX_BYTES : N := (1024 * 1024)%N.

Record HeadTailBuffer := mkBuffer {
  max_bytes : N;
  head_budget : N;
  tail_budget : N;
  head : list bytes;
  tail : list bytes;
  head_bytes : N;
  tail_bytes : N;
  omitted_bytes : N;
}.

Definition new (max_bytes : N) : HeadTailBuffer :=
  let head_budget := (max_bytes / 2)%N in
  let tail_budget := saturating_sub max_bytes head_budget in
  mkBuffer max_bytes head_budget tail_budget [] [] 0 0 0.

Definition default_buffer : HeadTailBuffer := new UNIFIED_EXEC_OUTPUT_MAX_BYTES.

Definition set_head (h : list bytes) (n : N) (b : HeadTailBuffer) : HeadTailBuffer :=
  mkBuffer (max_bytes b) (head_budget b) (tail_budget b) h (tail b) n (tail_bytes b) (omitted_bytes b).
Definition set_tail (t : list bytes) (n : N) (b : HeadTailBuffer) : HeadTailBuffer :=
  mkBuffer (max_bytes b) (head_budget b) (tail_budget b) (head b) t (head_bytes b) n (omitted_bytes b).
Definition set_omitted (n : N) (b : HeadTailBuffer) : HeadTailBuffer :=
  mkBuffer (max_bytes b) (head_budget b) (tail_budget b) (head b) (tail b) (head_bytes b) (tail_bytes b) n.

Definition retained_bytes (b : HeadTailBuffer) : N := saturating_add (head_bytes b) (tail_bytes b).

(** The [while excess > 0] loop over the front of the tail. *)
Fixpoint trim_loop (t : list bytes) (excess tail_bytes omitted : N) : list bytes * N * N :=
  if (excess =? 0)%N then (t, tail_bytes, omitted)
  else match t with
       | [] => (t, tail_bytes, omitted)
       | front :: rest =>
           if (len front <=? excess)%N
           then trim_loop rest (excess - len front) (saturating_sub tail_bytes (len front))
                  (saturating_add omitted (len front))
           else (drop (N.to_nat excess) front :: rest, saturating_sub tail_bytes excess,
                 saturating_add omitted excess)
       end.

Definition trim_tail_to_budget (b : HeadTailBuffer) : HeadTailBuffer :=
  let excess := saturating_sub (tail_bytes b) (tail_budget b) in
  let '(t, n, o) := trim_loop (tail b) excess (tail_bytes b) (omitted_bytes b) in
  set_omitted o (set_tail t n b).

Definition push_to_tail (chunk : bytes) (b : HeadTailBuffer) : HeadTailBuffer :=
  if (tail_budget b =? 0)%N then set_omitted (saturating_add (omitted_bytes b) (len chunk)) b
  else if (tail_budget b <=? len chunk)%N then
    let start := saturating_sub (len chunk) (tail_budget b) in
    let kept := drop (N.to_nat start) chunk in
    let dropped := saturating_sub (len chunk) (len kept) in
    set_tail [kept] (len kept)
      (set_omitted (saturating_add (saturating_add (omitted_bytes b) (tail_bytes b)) dropped) b)
  else
    trim_tail_to_budget
      (set_tail (tail b ++ [chunk]) (saturating_add (tail_bytes b) (len chunk)) b).

Definition push_chunk (chunk : bytes) (b : HeadTailBuffer) : HeadTailBuffer :=
  if (max_bytes b =? 0)%N then set_omitted (saturating_add (omitted_bytes b) (len chunk)) b
  else if (head_bytes b <? head_budget b)%N then
    let remaining_head := saturating_sub (head_budget b) (head_bytes b) in
    if (len chunk <=? remaining_head)%N
    then set_head (head b ++ [chunk]) (saturating_add (head_bytes b) (len chunk)) b
    else
      let head_part := take (N.to_nat remaining_head) chunk in
      let tail_part := drop (N.to_nat remaining_head) chunk in
      let b := if is_empty head_part then b
               else set_head (head b ++ [head_part]) (saturating_add (head_bytes b) (len head_part)) b in
      push_to_tail tail_part b
  else push_to_tail chunk b.

Definition snapshot_chunks (b : HeadTailBuffer) : list bytes := head b ++ tail b.
Definition to_bytes (b : HeadTailBuffer) : bytes := concat (head b) ++ concat (tail b).
Definition drain_chunks (b : HeadTailBuffer) : list bytes * HeadTailBuffer :=
  (head b ++ tail b,
   mkBuffer (max_bytes b) (head_budget b) (tail_budget b) [] [] 0 0 0).

(** ** The abstract buffer *)

(** The last [n] elements. *)
Definition last_n {A} (n : nat) (l : list A) : list A := drop (length l - n) l.

Lemma length_last_n {A} n (l : list A) : length (last_n n l) = Nat.min n (length l).
Proof. unfold last_n. rewrite length_drop. lia. Qed.

Lemma last_n_all {A} n (l : list A) : length l <= n -> last_n n l = l.
Proof. intros H. unfold last_n. replace (length l - n) with 0 by lia. apply drop_0. Qed.

Lemma last_n_app_r {A} n (l k : list A) : n <= length k -> last_n n (l ++ k) = last_n n k.
Proof.
  intros H. unfold last_n. rewrite length_app, drop_app_ge by lia. f_equal. lia.
Qed.

Lemma last_n_app {A} n (l k : list A) : last_n n (last_n n l ++ k) = last_n n (l ++ k).
Proof.
  destruct (decide (n <= length k)) as [H|H]; [by rewrite !last_n_app_r|].
  destruct (decide (length l <= n)) as [Hl|Hl]; [by rewrite (last_n_all n l)|].
  assert (length (last_n n l) = n) as Hn by (rewrite length_last_n; lia).
  transitivity (drop (length k) (last_n n l) ++ k).
  - unfold last_n at 1. rewrite drop_app_le by (rewrite length_app, Hn; lia).
    do 2 f_equal. rewrite length_app, Hn. lia.
  - unfold last_n. rewrite drop_drop, drop_app_le by (rewrite length_app; lia).
    rewrite length_app. do 2 f_equal. lia.
Qed.

(** The buffer after a stream [total]: its first half-budget bytes, then
    the last bytes of the rest that fit. *)
Definition represents (total : bytes) (b : HeadTailBuffer) : Prop :=
  head_budget b = (max_bytes b / 2)%N /\ tail_budget b = (max_bytes b - max_bytes b / 2)%N /\
  concat (head b) = take (N.to_nat (head_budget b)) total /\ head_bytes b = len (concat (head b)) /\
  concat (tail b) = last_n (N.to_nat (tail_budget b)) (drop (N.to_nat (head_budget b)) total) /\
  tail_bytes b = len (concat (tail b)) /\
  omitted_bytes b = (len total - head_bytes b - tail_bytes b)%N.

Lemma represents_new n : represents [] (new n).
Proof. unfold represents, new, last_n. cbn. rewrite !take_nil, !drop_nil. done. Qed.

Lemma len_app l k : len (l ++ k) = (len l + len k)%N.
Proof. unfold len. rewrite length_app. lia. Qed.

Lemma concat_snoc {A} (l : list (list A)) x : concat (l ++ [x]) = concat l ++ x.
Proof. rewrite concat_app. cbn. by rewrite app_nil_r. Qed.

Lemma trim_loop_spec t excess tb om :
  (excess <= len (concat t))%N -> tb = len (concat t) -> (om + excess <= USIZE_MAX)%N ->
  exists t', trim_loop t excess tb om = (t', (tb - excess)%N, (om + excess)%N) /\
    concat t' = drop (N.to_nat excess) (concat t).
Proof.
  revert excess tb om. induction t as [|f t IH]; intros excess tb om He Htb Ho.
  - assert (excess = 0)%N as -> by (unfold len in He; cbn in He; lia).
    exists []. split; [|done]. cbn. by rewrite N.sub_0_r, N.add_0_r.
  - cbn [trim_loop concat] in *. rewrite len_app in *. destruct (N.eqb_spec excess 0) as [->|Hz].
    { exists (f :: t). split; [by rewrite N.sub_0_r, N.add_0_r|done]. }
    destruct (N.leb_spec (len f) excess) as [Hle|Hgt].
    + unfold saturating_sub. rewrite saturating_add_small by lia.
      destruct (IH (excess - len f)%N (tb - len f)%N (om + len f)%N) as (t' & Ht' & Hc); [lia..|].
      exists t'. rewrite Ht'. split.
      { replace (tb - len f - (excess - len f))%N with (tb - excess)%N by lia.
        replace (om + len f + (excess - len f))%N with (om + excess)%N by lia. done. }
      rewrite Hc.
      unfold len in *. rewrite drop_app_ge by lia. f_equal. lia.
    + eexists. split.
      * unfold saturating_sub. rewrite saturating_add_small by lia. reflexivity.
      * cbn. unfold len in Hgt. by rewrite drop_app_le by lia.
Qed.

Lemma len_last_n n l : len (last_n n l) = N.min (N.of_nat n) (len l).
Proof. unfold len. rewrite length_last_n. lia. Qed.

(** Pushing past a full head only concerns the tail. *)
Lemma push_to_tail_spec rest chunk b :
  (tail_budget b <> 0)%N -> concat (tail b) = last_n (N.to_nat (tail_budget b)) rest ->
  tail_bytes b = len (concat (tail b)) ->
  omitted_bytes b = (len rest - tail_bytes b)%N -> (len rest + len chunk <= USIZE_MAX)%N ->
  exists t, push_to_tail chunk b =
      set_tail t (len (concat t)) (set_omitted (len (rest ++ chunk) - len (concat t))%N b) /\
    concat t = last_n (N.to_nat (tail_budget b)) (rest ++ chunk).
Proof.
  intros Hz Ht Hn Ho Hmax. unfold push_to_tail. rewrite (proj2 (N.eqb_neq _ _)) by done.
  assert (len (concat (tail b)) = N.min (tail_budget b) (len rest)) as Hlt
    by (rewrite Ht, len_last_n; lia).
  destruct (N.leb_spec (tail_budget b) (len chunk)) as [Hle|Hgt].
  - set (kept := drop _ chunk). exists [kept].
    assert (kept = last_n (N.to_nat (tail_budget b)) chunk) as Hk.
    { unfold kept, last_n, saturating_sub, len. f_equal. lia. }
    assert (len kept = tail_budget b) as Hlk by (rewrite Hk, len_last_n; lia).
    cbn [concat]. rewrite app_nil_r. split.
    + rewrite len_app. unfold saturating_sub. rewrite (saturating_add_small (omitted_bytes b)) by lia.
      rewrite saturating_add_small by lia. do 2 f_equal. lia.
    + rewrite Hk. rewrite last_n_app_r; [done|]. unfold len in Hle. lia.
  - rewrite saturating_add_small by lia. unfold trim_tail_to_budget.
    cbn [tail_bytes tail tail_budget set_tail omitted_bytes].
    set (excess := saturating_sub _ _).
    assert (excess = tail_bytes b + len chunk - tail_budget b)%N as He by reflexivity.
    destruct (trim_loop_spec (tail b ++ [chunk]) excess (tail_bytes b + len chunk) (omitted_bytes b))
      as (t & Hloop & Hc); [rewrite concat_snoc, len_app; lia|rewrite concat_snoc, len_app; lia|lia|].
    rewrite Hloop. exists t.
    assert (concat t = last_n (N.to_nat (tail_budget b)) (rest ++ chunk)) as Hct.
    { rewrite Hc, concat_snoc, Ht. rewrite <- last_n_app. unfold last_n at 2.
      f_equal. rewrite length_app. rewrite <- Ht. unfold len in *. lia. }
    assert (len (concat t) = N.min (tail_budget b) (len rest + len chunk)) as Hlc.
    { rewrite Hct, len_last_n, len_app. lia. }
    split; [|done]. rewrite len_app. unfold set_omitted, set_tail. cbn. f_equal; lia.
Qed.

Lemma len_take n l : len (take n l) = N.min (N.of_nat n) (len l).
Proof. unfold len. rewrite length_take. lia. Qed.

Lemma len_drop n l : len (drop n l) = (len l - N.of_nat n)%N.
Proof. unfold len. rewrite length_drop. lia. Qed.

(** What pushing [chunk] past the head does to the representation. *)
Lemma push_tail_represents total chunk b :
  max_bytes b <> 0%N -> (head_budget b = max_bytes b / 2)%N ->
  (tail_budget b = max_bytes b - max_bytes b / 2)%N ->
  concat (head b) = take (N.to_nat (head_budget b)) (total ++ chunk) ->
  head_bytes b = len (concat (head b)) -> (head_budget b <= len total)%N ->
  concat (tail b) = last_n (N.to_nat (tail_budget b)) (drop (N.to_nat (head_budget b)) total) ->
  tail_bytes b = len (concat (tail b)) ->
  omitted_bytes b = (len total - head_budget b - tail_bytes b)%N ->
  (len (total ++ chunk) <= USIZE_MAX)%N ->
  represents (total ++ chunk) (push_to_tail chunk b).
Proof.
  intros Hm Hhb Htb Hh Hhn Hfull Ht Htn Ho Hmax. rewrite len_app in Hmax.
  assert (tail_budget b <> 0)%N as Hz.
  { rewrite Htb. pose proof (N.div_lt (max_bytes b) 2). lia. }
  set (rest := drop (N.to_nat (head_budget b)) total) in *.
  assert (len rest = len total - head_budget b)%N as Hr by (unfold rest; rewrite len_drop; lia).
  destruct (push_to_tail_spec rest chunk b Hz Ht Htn) as (t & -> & Hct); [lia|lia|].
  assert (drop (N.to_nat (head_budget b)) (total ++ chunk) = rest ++ chunk) as Hrest.
  { unfold rest. unfold len in Hfull. by rewrite drop_app_le by lia. }
  unfold represents. cbn [head_budget tail_budget max_bytes head tail head_bytes tail_bytes
    omitted_bytes set_tail set_omitted].
  rewrite Hrest. split_and!; try done.
  rewrite Hhn, Hh, len_take, !len_app. lia.
Qed.

(** Each push keeps the buffer a representation of the whole stream. *)
Lemma push_chunk_represents total chunk b :
  represents total b -> (len (total ++ chunk) <= USIZE_MAX)%N ->
  represents (total ++ chunk) (push_chunk chunk b).
Proof.
  intros (Hhb & Htb & Hh & Hhn & Ht & Htn & Ho) Hmax. unfold push_chunk.
  assert (head_bytes b = N.min (head_budget b) (len total)) as Hhm
    by (rewrite Hhn, Hh, len_take; lia).
  destruct (N.eqb_spec (max_bytes b) 0) as [Hz|Hz].
  { assert (head_budget b = 0 /\ tail_budget b = 0)%N as [Hh0 Ht0] by (rewrite Hhb, Htb, Hz; done).
    rewrite Hh0 in Hh. rewrite Ht0, Hh0 in Ht. unfold last_n in Ht. rewrite drop_0, drop_ge in Ht by lia.
    rewrite len_app in Hmax. rewrite Hh in Hhn. rewrite Ht in Htn. change (len []) with 0%N in Htn.
    change (len (take (N.to_nat 0) total)) with 0%N in Hhn.
    unfold represents. cbn [head_budget tail_budget max_bytes head tail head_bytes tail_bytes
      omitted_bytes set_omitted].
    rewrite Hh0, Ht0, Hz, Hh, Ht, Hhn, Htn, len_app, saturating_add_small by lia.
    split_and!; try done; [|lia].
    unfold last_n. rewrite drop_0, drop_ge by lia. done. }
  destruct (N.ltb_spec (head_bytes b) (head_budget b)) as [Hlt|Hge].
  - assert (len total < head_budget b)%N as Hs by lia.
    assert (take (N.to_nat (head_budget b)) total = total) as Hall
      by (apply take_ge; unfold len in Hs; lia).
    assert (drop (N.to_nat (head_budget b)) total = []) as Hnil
      by (apply drop_ge; unfold len in Hs; lia).
    rewrite Hall in Hh. rewrite Hnil in Ht.
    assert (concat (tail b) = [] /\ tail_bytes b = 0%N) as [Ht0 Htn0].
    { rewrite Htn, Ht. unfold last_n. by rewrite !drop_nil. }
    unfold saturating_sub.
    destruct (N.leb_spec (len chunk) (head_budget b - head_bytes b)) as [Hle|Hgt].
    + rewrite len_app in Hmax. unfold represents.
      cbn [head_budget tail_budget max_bytes head tail head_bytes tail_bytes omitted_bytes set_head].
      rewrite concat_snoc, Hh. rewrite saturating_add_small by lia. rewrite !len_app.
      assert (length (total ++ chunk) <= N.to_nat (head_budget b)) as Hlen
        by (rewrite length_app; unfold len in *; lia).
      rewrite take_ge, drop_ge by done.
      split_and!; [done|done|done|lia|by rewrite Ht0; unfold last_n; rewrite drop_nil|by rewrite Htn|lia].
    + set (k := N.to_nat (head_budget b - head_bytes b)).
      assert (is_empty (take k chunk) = false) as ->.
      { apply is_empty_false. intros E. apply (f_equal length) in E.
        rewrite length_take in E. unfold len in *. cbn in E. lia. }
      set (b1 := set_head _ _ b).
      assert (total ++ chunk = (total ++ take k chunk) ++ drop k chunk) as Hsplit
        by (by rewrite <- app_assoc, take_drop).
      assert (length (total ++ take k chunk) = N.to_nat (head_budget b)) as Hlen
        by (rewrite length_app, length_take; unfold len in *; lia).
      assert (len total + len chunk <= USIZE_MAX)%N as Hfit by (rewrite <- len_app; done).
      rewrite Hsplit in *. apply push_tail_represents; try done; cbn.
      * rewrite concat_snoc, Hh, <- Hlen, take_app_length. done.
      * rewrite concat_snoc, Hh, len_app, len_take. rewrite saturating_add_small; lia.
      * unfold len. lia.
      * rewrite Ht0, <- Hlen, drop_all. unfold last_n. by rewrite drop_nil.
      * rewrite Ho, Htn0. unfold len in *. lia.
  - assert (head_budget b <= len total)%N as Hfull by lia.
    apply push_tail_represents; try done.
    + rewrite Hh. unfold len in Hfull. by rewrite take_app_le by lia.
    + rewrite Ho. lia.
Qed.

(** ** Correctness *)

Definition push_all (chunks : list bytes) (b : HeadTailBuffer) : HeadTailBuffer :=
  fold_left (fun b c => push_chunk c b) chunks b.

Lemma push_all_represents chunks total b :
  represents total b -> (len (total ++ concat chunks) <= USIZE_MAX)%N ->
  represents (total ++ concat chunks) (push_all chunks b).
Proof.
  revert total b. induction chunks as [|c cs IH]; intros total b Hb Hmax; cbn in *.
  { by rewrite app_nil_r. }
  rewrite app_assoc in *. apply IH; [|done]. apply push_chunk_represents; [done|].
  rewrite len_app in Hmax. lia.
Qed.

Lemma push_all_max chunks b : max_bytes (push_all chunks b) = max_bytes b.
Proof.
  revert b. induction chunks as [|c cs IH]; intros b; cbn; [done|]. rewrite IH.
  unfold push_chunk, push_to_tail, trim_tail_to_budget.
  repeat (case_match; cbn; try done).
Qed.

(** Whatever the chunking, the buffer keeps exactly the first half of its
    capacity and the last half of what follows: [to_bytes] is that prefix
    followed by that suffix, at most [max_bytes] bytes are retained, the
    counters are exact (no byte is lost or counted twice) and the result
    depends on the stream only, not on how it was cut. *)
Theorem head_tail_buffer_correct max chunks :
  let total := concat chunks in
  let b := push_all chunks (new max) in
  let hb := N.to_nat (max / 2) in
  let tb := N.to_nat (max - max / 2) in
  (len total <= USIZE_MAX)%N -> (max <= USIZE_MAX)%N ->
  to_bytes b = take hb total ++ last_n tb (drop hb total) /\
  concat (snapshot_chunks b) = to_bytes b /\
  retained_bytes b = len (to_bytes b) /\ (retained_bytes b <= max)%N /\
  (retained_bytes b + omitted_bytes b = len total)%N /\
  ((len total <= max)%N -> to_bytes b = total) /\
  represents [] (snd (drain_chunks b)).
Proof.
  cbv zeta. intros Hmax Hm. set (b := push_all chunks (new max)).
  pose proof (push_all_represents chunks [] (new max) (represents_new max) Hmax)
    as (Hhb & Htb & Hh & Hhn & Ht & Htn & Ho). fold b in Hhb, Htb, Hh, Hhn, Ht, Htn, Ho.
  cbn [app] in *. set (total := concat chunks) in *.
  assert (max_bytes b = max) as Hmb by apply push_all_max. rewrite Hmb in Hhb, Htb.
  rewrite Hhb in Hh, Ht. rewrite Htb in Ht.
  assert (head_bytes b = N.min (max / 2) (len total)) as Hh'.
  { rewrite Hhn, Hh, len_take. lia. }
  assert (tail_bytes b = N.min (max - max / 2) (len total - max / 2)) as Ht'.
  { rewrite Htn, Ht, len_last_n, len_drop. lia. }
  assert (max / 2 <= max)%N as Hd by (apply N.div_le_upper_bound; lia).
  assert (retained_bytes b = head_bytes b + tail_bytes b)%N as Hr
    by (unfold retained_bytes; apply saturating_add_small; lia).
  split_and!.
  - unfold to_bytes. by rewrite Hh, Ht.
  - unfold snapshot_chunks, to_bytes. apply concat_app.
  - unfold to_bytes. rewrite len_app, <- Hhn, <- Htn. done.
  - lia.
  - lia.
  - intros Hfit. unfold to_bytes. rewrite Hh, Ht. rewrite last_n_all; [apply take_drop|].
    rewrite length_drop. unfold len in Hfit. lia.
  - unfold represents. cbn. rewrite Hmb, Hhb, Htb, take_nil, drop_nil. done.
Qed.

Lemma head_tail_buffer_correct_witness :
  let chunks := [[x61; x62]; [x63; x64; x65]; [x66]; [x67; x68]]%byte in
  let b := push_all chunks (new 5) in
  (len (concat chunks) <= USIZE_MAX)%N /\ to_bytes b = [x61; x62; x66; x67; x68]%byte /\
  (retained_bytes b + omitted_bytes b = 8)%N.
Proof.
  cbv zeta. match goal with |- ?A /\ _ => assert (A) as H by (vm_compute; discriminate) end.
  destruct (head_tail_buffer_correct 5 _ H ltac:(vm_compute; discriminate))
    as (Hb & _ & _ & _ & Hsum & _).
  split_and!; [exact H|exact Hb|exact Hsum].
Defined.
