(* ===== verification/StreamText.v ===== *)
(** * StreamText: parsers of streamed text

    [codex-rs/utils/stream-parser/src/stream_text.rs]: the trait of the
    parsers that take text in chunks and give back what can be shown and
    what was hidden.  [StreamTextLaws] is what such a parser promises: the
    places where the text is cut do not matter. *)

From S2P Require Import Prelude RustStr.

Record StreamTextChunk (T : Type) := mkTextChunk {
  visible_text : str;
  extracted : list T;
}.
Arguments mkTextChunk {T}.
Arguments visible_text {T}.
Arguments extracted {T}.

(** [Default] *)
Definition empty_chunk {T} : StreamTextChunk T := mkTextChunk [] [].

(** [StreamTextChunk::is_empty] *)
Definition chunk_is_empty {T} (c : StreamTextChunk T) : bool :=
  is_empty (visible_text c) && is_empty (extracted c).

(** [push_str] and [append] of one chunk to another. *)
Definition chunk_app {T} (c d : StreamTextChunk T) : StreamTextChunk T :=
  mkTextChunk (visible_text c ++ visible_text d) (extracted c ++ extracted d).

Class StreamTextParser (P E : Type) := {
  push_str : str -> P -> StreamTextChunk E * P;
  finish : P -> StreamTextChunk E * P;
}.

(** Feed every chunk, then flush. *)
Fixpoint push_chunks {P E} `{StreamTextParser P E} (chunks : list str) (p : P) :
    StreamTextChunk E * P :=
  match chunks with
  | [] => (empty_chunk, p)
  | s :: chunks =>
      let '(c, p) := push_str s p in
      let '(d, p) := push_chunks chunks p in
      (chunk_app c d, p)
  end.

Definition collect {P E} `{StreamTextParser P E} (chunks : list str) (p : P) : StreamTextChunk E :=
  let '(c, p) := push_chunks chunks p in chunk_app c (fst (finish p)).

(** ** What the consumer of a chunk can tell *)

(** A payload is observed as a list of [O]: a parser may cut one piece of
    hidden text in two, so the observations of payloads are concatenated. *)
Class Observation (E : Type) := { obs : Type; observe : E -> list obs }.

Definition observed {E} `{Observation E} (l : list E) : list obs := concat (map observe l).

Lemma observed_app {E} `{Observation E} (l k : list E) :
  observed (l ++ k) = observed l ++ observed k.
Proof. unfold observed. by rewrite map_app, concat_app. Qed.

#[export] Instance chunk_equiv {E} `{Observation E} : Equiv (StreamTextChunk E) := fun c d =>
  visible_text c = visible_text d /\ observed (extracted c) = observed (extracted d).

#[export] Instance chunk_equivalence {E} `{Observation E} :
  Equivalence (≡@{StreamTextChunk E}).
Proof.
  split; unfold equiv, chunk_equiv.
  - intros c; done.
  - intros c d [? ?]; done.
  - intros c d e [? ?] [? ?]; split; etrans; eassumption.
Qed.

#[export] Instance chunk_app_proper {E} `{Observation E} :
  Proper ((≡) ==> (≡) ==> (≡)) (@chunk_app E).
Proof.
  intros c c' [Hc1 Hc2] d d' [Hd1 Hd2].
  split; cbn [chunk_app visible_text extracted]; [by rewrite Hc1, Hd1|].
  by rewrite !observed_app, Hc2, Hd2.
Qed.

Lemma chunk_app_assoc {T} (c d e : StreamTextChunk T) :
  chunk_app c (chunk_app d e) = chunk_app (chunk_app c d) e.
Proof. unfold chunk_app. cbn. by rewrite !app_assoc. Qed.

Lemma chunk_app_empty_l {T} (c : StreamTextChunk T) : chunk_app empty_chunk c = c.
Proof. by destruct c. Qed.

Lemma chunk_app_empty_r {T} (c : StreamTextChunk T) : chunk_app c empty_chunk = c.
Proof. destruct c. unfold chunk_app. cbn. by rewrite !app_nil_r. Qed.

(** ** The contract *)

(** [settled] describes the states between two pushes. *)
Class StreamTextLaws (P E : Type) `{StreamTextParser P E, Observation E} := {
  settled : P -> Prop;
  push_settled s p : settled p -> settled (snd (push_str s p));
  push_nil p : settled p -> push_str [] p = (empty_chunk, p);
  push_app s t p : settled p ->
    let '(c, p1) := push_str s p in
    let '(d, p2) := push_str t p1 in
    fst (push_str (s ++ t) p) ≡ chunk_app c d /\ snd (push_str (s ++ t) p) = p2;
}.

Section Laws.
Context {P E : Type} `{StreamTextLaws P E}.

(** Feeding a text in pieces is feeding it at once. *)
Lemma push_chunks_concat chunks p :
  settled p ->
  fst (push_chunks chunks p) ≡ fst (push_str (concat chunks) p) /\
  snd (push_chunks chunks p) = snd (push_str (concat chunks) p).
Proof.
  revert p. induction chunks as [|s chunks IH]; intros p Hp; cbn.
  { rewrite push_nil by done. done. }
  pose proof (push_app s (concat chunks) p Hp) as Happ.
  pose proof (push_settled s p Hp) as Hs.
  destruct (push_str s p) as [c p1]. cbn in Hs. destruct (IH p1 Hs) as [IH1 IH2].
  destruct (push_chunks chunks p1) as [d p2], (push_str (concat chunks) p1) as [d' p2'].
  cbn in *. destruct Happ as [Happ1 Happ2]. split.
  - rewrite Happ1, IH1. done.
  - congruence.
Qed.

Lemma push_chunks_settled chunks p : settled p -> settled (snd (push_chunks chunks p)).
Proof.
  intros Hp. destruct (push_chunks_concat chunks p Hp) as [_ ->]. by apply push_settled.
Qed.

Lemma collect_concat chunks p : settled p -> collect chunks p ≡ collect [concat chunks] p.
Proof.
  intros Hp. destruct (push_chunks_concat chunks p Hp) as [Hc1 Hc2]. unfold collect. cbn.
  destruct (push_chunks chunks p) as [c q], (push_str (concat chunks) p) as [c' q'].
  cbn in *. subst q'. rewrite chunk_app_empty_r, Hc1. done.
Qed.

(** Cutting a text differently does not change what is collected. *)
Lemma collect_recut chunks chunks' p :
  settled p -> concat chunks = concat chunks' -> collect chunks p ≡ collect chunks' p.
Proof. intros Hp Heq. rewrite collect_concat, Heq by done. symmetry. by apply collect_concat. Qed.
End Laws.
