(* ===== verification/InlineTag.v ===== *)
(** * InlineTag: hiding inline tags in streamed text

    [codex-rs/utils/stream-parser/src/inline_hidden_tag.rs] and
    [citation.rs].  Positions in a string are counted in chars: every
    position the code computes is a char boundary.  The loop of [push_str]
    runs on the length of the pending text, every round that continues
    removes a delimiter ([push_loop_total]).  [hidden] says which text is
    visible and what is extracted without saying how it is scanned. *)

From S2P Require Import Prelude RustStr StreamText.
Open Scope str_scope.

(** ** The code *)

(** [str::find] of a pattern. *)
Fixpoint find (s p : str) : option nat :=
  if starts_with s p then Some 0
  else match s with [] => None | _ :: s => S <$> find s p end.

(** [Iterator::min_by]: the first of the minimal elements. *)
Definition min_by {A} (cmp : A -> A -> comparison) (l : list A) : option A :=
  match l with
  | [] => None
  | x :: l => Some (fold_left (fun a b => match cmp a b with Gt => b | _ => a end) l x)
  end.

(** The loop of [longest_suffix_prefix_len], from [k] down to 1. *)
Fixpoint suffix_prefix_loop (k : nat) (s needle : str) : nat :=
  match k with
  | 0 => 0
  | S k' => if ends_with s (take k needle) then k else suffix_prefix_loop k' s needle
  end.
Definition longest_suffix_prefix_len (s needle : str) : nat :=
  suffix_prefix_loop (Nat.min (length s) (length needle - 1)) s needle.

Section Parser.
Context {T : Type}.

Record ExtractedInlineTag := mkExtracted { e_tag : T; e_content : str }.
Record InlineTagSpec := mkSpec { s_tag : T; s_open : str; s_close : str }.
Record ActiveTag := mkActive { a_tag : T; a_close : str; a_content : str }.
Record InlineHiddenTagParser := mkInline {
  specs : list InlineTagSpec;
  pending : str;
  active : option ActiveTag;
}.

(** [new] panics without a spec or on an empty delimiter. *)
Definition new (specs : list InlineTagSpec) : option InlineHiddenTagParser :=
  if is_empty specs then None
  else if existsb (fun s => is_empty (s_open s) || is_empty (s_close s)) specs then None
  else Some (mkInline specs [] None).

(** Position, byte length of the opener and index: the earliest, then the
    longest, then the first. *)
Definition open_cmp (a b : nat * nat * nat) : comparison :=
  match Nat.compare (fst (fst a)) (fst (fst b)) with
  | Eq => match Nat.compare (snd (fst b)) (snd (fst a)) with
          | Eq => Nat.compare (snd a) (snd b)
          | c => c
          end
  | c => c
  end.

Definition open_candidates (specs : list InlineTagSpec) (t : str) : list (nat * nat * nat) :=
  omap (fun '(idx, s) => (fun pos => (pos, byte_len (s_open s), idx)) <$> find t (s_open s))
    (imap pair specs).

Definition find_next_open (specs : list InlineTagSpec) (t : str) : option (nat * nat) :=
  (fun c => (fst (fst c), snd c)) <$> min_by open_cmp (open_candidates specs t).

Definition max_open_prefix_suffix_len (specs : list InlineTagSpec) (t : str) : nat :=
  max_list (map (fun s => longest_suffix_prefix_len t (s_open s)) specs).

Definition show (s : str) (out : StreamTextChunk ExtractedInlineTag) :=
  mkTextChunk (visible_text out ++ s) (extracted out).
Definition extract (e : ExtractedInlineTag) (out : StreamTextChunk ExtractedInlineTag) :=
  mkTextChunk (visible_text out) (extracted out ++ [e]).

(** [push_visible_prefix] *)
Definition push_visible_prefix (out : StreamTextChunk ExtractedInlineTag) (s : str) :=
  if is_empty s then out else show s out.

Definition drain_visible_to_suffix_match (p : InlineHiddenTagParser)
    (out : StreamTextChunk ExtractedInlineTag) (keep_suffix_len : nat) :
    StreamTextChunk ExtractedInlineTag * InlineHiddenTagParser :=
  let n := length (pending p) - keep_suffix_len in
  if n =? 0 then (out, p)
  else (push_visible_prefix out (take n (pending p)),
        mkInline (specs p) (drop n (pending p)) (active p)).

(** The [loop] of [push_str]. *)
Fixpoint push_loop (fuel : nat) (p : InlineHiddenTagParser)
    (out : StreamTextChunk ExtractedInlineTag) :
    option (StreamTextChunk ExtractedInlineTag * InlineHiddenTagParser) :=
  match fuel with
  | 0 => None
  | S fuel =>
      match active p with
      | Some a =>
          match find (pending p) (a_close a) with
          | Some close_idx =>
              push_loop fuel
                (mkInline (specs p) (drop (close_idx + length (a_close a)) (pending p)) None)
                (extract (mkExtracted (a_tag a) (a_content a ++ take close_idx (pending p))) out)
          | None =>
              let keep := longest_suffix_prefix_len (pending p) (a_close a) in
              let n := length (pending p) - keep in
              if 0 <? n then
                Some (out, mkInline (specs p) (drop n (pending p))
                       (Some (mkActive (a_tag a) (a_close a) (a_content a ++ take n (pending p)))))
              else Some (out, p)
          end
      | None =>
          match find_next_open (specs p) (pending p) with
          | Some (open_idx, spec_idx) =>
              match specs p !! spec_idx with
              | Some s =>
                  push_loop fuel
                    (mkInline (specs p) (drop (open_idx + length (s_open s)) (pending p))
                       (Some (mkActive (s_tag s) (s_close s) [])))
                    (push_visible_prefix out (take open_idx (pending p)))
              | None => None
              end
          | None =>
              Some (drain_visible_to_suffix_match p out
                      (max_open_prefix_suffix_len (specs p) (pending p)))
          end
      end
  end.

Definition inline_push_str (chunk : str) (p : InlineHiddenTagParser) :
    StreamTextChunk ExtractedInlineTag * InlineHiddenTagParser :=
  let p := mkInline (specs p) (pending p ++ chunk) (active p) in
  default (empty_chunk, p) (push_loop (S (length (pending p))) p empty_chunk).

Definition inline_finish (p : InlineHiddenTagParser) :
    StreamTextChunk ExtractedInlineTag * InlineHiddenTagParser :=
  match active p with
  | Some a =>
      (extract (mkExtracted (a_tag a) (a_content a ++ pending p)) empty_chunk,
       mkInline (specs p) [] None)
  | None => (show (pending p) empty_chunk, mkInline (specs p) [] None)
  end.

#[export] Instance inline_parser : StreamTextParser InlineHiddenTagParser ExtractedInlineTag := {
  push_str := inline_push_str;
  finish := inline_finish;
}.

#[export] Instance inline_observation : Observation ExtractedInlineTag :=
  {| obs := ExtractedInlineTag; observe e := [e] |}.
End Parser.
Arguments ExtractedInlineTag : clear implicits.
Arguments InlineTagSpec : clear implicits.
Arguments ActiveTag : clear implicits.
Arguments InlineHiddenTagParser : clear implicits.

(** ** citation.rs *)

Inductive CitationTag := Citation.

Definition CITATION_OPEN : str := "<oai-mem-citation>".
Definition CITATION_CLOSE : str := "</oai-mem-citation>".

Record CitationStreamParser := mkCitation { c_inner : InlineHiddenTagParser CitationTag }.

Definition CITATION_SPECS : list (InlineTagSpec CitationTag) :=
  [mkSpec Citation CITATION_OPEN CITATION_CLOSE].

Definition new_citation : option CitationStreamParser := mkCitation <$> new CITATION_SPECS.

Definition citation_chunk (c : StreamTextChunk (ExtractedInlineTag CitationTag)) :
    StreamTextChunk str :=
  mkTextChunk (visible_text c) (map e_content (extracted c)).

Definition citation_push_str (chunk : str) (p : CitationStreamParser) :
    StreamTextChunk str * CitationStreamParser :=
  let '(c, inner) := push_str chunk (c_inner p) in (citation_chunk c, mkCitation inner).
Definition citation_finish (p : CitationStreamParser) : StreamTextChunk str * CitationStreamParser :=
  let '(c, inner) := finish (c_inner p) in (citation_chunk c, mkCitation inner).

#[export] Instance citation_parser : StreamTextParser CitationStreamParser str := {
  push_str := citation_push_str;
  finish := citation_finish;
}.

#[export] Instance citation_observation : Observation str :=
  {| obs := str; observe e := [e] |}.

Definition strip_citations (text : str) : option (str * list str) :=
  p ← new_citation;
  let '(out, p) := push_str text p in
  let '(tail, _) := finish p in
  Some (visible_text out ++ visible_text tail, extracted out ++ extracted tail).

Example strip_citations_tests :
  strip_citations "a<oai-mem-citation>one</oai-mem-citation>b<oai-mem-citation>two</oai-mem-citation>c"
    = Some ("abc", ["one"; "two"]) /\
  strip_citations "x<oai-mem-citation>y" = Some ("x", ["y"]) /\
  strip_citations
    "a<oai-mem-citation>x<oai-mem-citation>y</oai-mem-citation>z</oai-mem-citation>b"
    = Some ("az</oai-mem-citation>b", ["x<oai-mem-citation>y"]) /\
  strip_citations "hello <oai-mem-" = Some ("hello <oai-mem-", []).
Proof. vm_compute. done. Qed.

(** ** Occurrences *)

(** [p] is in [t] at position [k]. *)
Definition occ (p t : str) (k : nat) : Prop := forall i, i < length p -> t !! (k + i) = p !! i.

(** The last [n] chars of [t] are the first [n] of [p]. *)
Definition overlap (n : nat) (p t : str) : Prop :=
  n <= length t /\ forall i, i < n -> t !! (length t - n + i) = p !! i.

Lemma occ_bound p t k : p <> [] -> occ p t k -> k + length p <= length t.
Proof.
  intros Hp H. destruct (decide (length p = 0)) as [E|E]; [by apply length_zero_iff_nil in E|].
  specialize (H (length p - 1) ltac:(lia)).
  destruct (lookup_lt_is_Some_2 p (length p - 1)) as [x Hx]; [lia|]. rewrite Hx in H.
  apply lookup_lt_Some in H. lia.
Qed.

Lemma occ_app_l p t u k : k + length p <= length t -> occ p (t ++ u) k <-> occ p t k.
Proof.
  intros Hk. unfold occ. split; intros H i Hi; specialize (H i Hi).
  - by rewrite lookup_app_l in H by lia.
  - by rewrite lookup_app_l by lia.
Qed.

Lemma occ_shift p pre t k : occ p (pre ++ t) (length pre + k) <-> occ p t k.
Proof.
  unfold occ. split; intros H i Hi; specialize (H i Hi).
  - rewrite lookup_app_r in H by lia. rewrite <- H. f_equal. lia.
  - rewrite lookup_app_r by lia. rewrite <- H. f_equal. lia.
Qed.

Lemma starts_with_occ s p : starts_with s p = true <-> occ p s 0.
Proof.
  rewrite starts_with_spec. split.
  - intros [r ->] i Hi. by rewrite lookup_app_l by done.
  - intros H. exists (drop (length p) s). apply list_eq. intros i.
    destruct (decide (i < length p)) as [Hi|Hi].
    + rewrite lookup_app_l by done. apply (H i Hi).
    + rewrite lookup_app_r, lookup_drop by lia. f_equal. lia.
Qed.

Lemma occ_cons p c s k : occ p (c :: s) (S k) <-> occ p s k.
Proof. apply (occ_shift p [c] s k). Qed.

Lemma find_Some s p k :
  find s p = Some k <-> occ p s k /\ forall j, j < k -> ~ occ p s j.
Proof.
  revert k. induction s as [|c s IH]; intros k; cbn [find].
  - destruct (starts_with [] p) eqn:E.
    + apply starts_with_occ in E. split.
      * intros [= <-]. split; [done|lia].
      * intros [_ Hj]. destruct k; [done|]. destruct (Hj 0); [lia|done].
    + split; [done|]. intros [H _]. destruct p as [|d p].
      { assert (starts_with [] [] = true) by (apply starts_with_occ; intros i; cbn; lia).
        congruence. }
      apply occ_bound in H; [|done]. cbn in H. lia.
  - destruct (starts_with (c :: s) p) eqn:E.
    + apply starts_with_occ in E. split.
      * intros [= <-]. split; [done|lia].
      * intros [_ Hj]. destruct k; [done|]. destruct (Hj 0); [lia|done].
    + assert (~ occ p (c :: s) 0) as H0 by (rewrite <- starts_with_occ; congruence).
      rewrite fmap_Some. split.
      * intros (k' & Hk & ->). apply IH in Hk as [Hk Hj]. split; [by apply occ_cons|].
        intros [|j] Hlt; [done|]. rewrite occ_cons. apply Hj. lia.
      * intros [H Hj]. destruct k as [|k]; [done|]. exists k. split; [|done]. apply IH.
        split; [by apply occ_cons in H|]. intros j Hlt. rewrite <- (occ_cons p c). apply Hj. lia.
Qed.

Lemma find_None s p : find s p = None <-> forall k, ~ occ p s k.
Proof.
  split.
  - intros H k Hk. revert s H Hk. induction k as [|k IH]; intros s H Hk.
    + destruct s; cbn in H; apply starts_with_occ in Hk; rewrite Hk in H; done.
    + destruct s as [|c s].
      * destruct p as [|d p]; [|apply occ_bound in Hk; [cbn in Hk; lia|done]].
        cbn in H. done.
      * cbn in H. destruct (starts_with (c :: s) p); [done|]. apply fmap_None in H.
        apply occ_cons in Hk. by apply (IH s).
  - intros H. destruct (find s p) as [k|] eqn:E; [|done]. apply find_Some in E as [E _].
    by destruct (H k).
Qed.

(** The first occurrence stays the first when text is appended. *)
Lemma find_app t u p k : p <> [] -> find t p = Some k -> find (t ++ u) p = Some k.
Proof.
  intros Hp H. apply find_Some in H as [H Hj]. apply find_Some.
  pose proof (occ_bound p t k Hp H). split; [by apply occ_app_l|].
  intros j Hlt Ho. apply (Hj j Hlt). by apply (occ_app_l p t u) in Ho; [|lia].
Qed.

(** A prefix before every occurrence shifts the first one. *)
Lemma find_shift pre t p :
  (forall j, occ p (pre ++ t) j -> length pre <= j) ->
  find (pre ++ t) p = Nat.add (length pre) <$> find t p.
Proof.
  intros Hpre. destruct (find t p) as [k|] eqn:E; cbn.
  - apply find_Some in E as [E Hj]. apply find_Some. split; [by apply occ_shift|].
    intros j Hlt Ho. pose proof (Hpre j Ho). apply (Hj (j - length pre)); [lia|].
    apply (occ_shift p pre). by replace (length pre + (j - length pre)) with j by lia.
  - rewrite find_None in E. apply find_None. intros j Ho. pose proof (Hpre j Ho).
    apply (E (j - length pre)). apply (occ_shift p pre).
    by replace (length pre + (j - length pre)) with j by lia.
Qed.

(** ** The text held back *)

Lemma ends_with_overlap s needle k :
  k <= length needle -> ends_with s (take k needle) = true <-> overlap k needle s.
Proof.
  intros Hk. unfold ends_with. rewrite bool_decide_eq_true. split.
  - intros [t Ht]. apply strip_suffix_Some in Ht. subst s.
    assert (length (take k needle) = k) as Hl by (rewrite length_take; lia). split.
    + rewrite length_app, Hl. lia.
    + intros i Hi. rewrite length_app, Hl, lookup_app_r by lia.
      rewrite lookup_take_lt by lia. f_equal. lia.
  - intros [Hle H]. exists (take (length s - k) s). apply strip_suffix_Some. apply list_eq. intros i.
    destruct (decide (i < length s - k)) as [Hi|Hi].
    + rewrite lookup_app_l by (rewrite length_take; lia). by rewrite lookup_take_lt by lia.
    + rewrite lookup_app_r by (rewrite length_take; lia). rewrite length_take.
      replace (Nat.min (length s - k) (length s)) with (length s - k) by lia.
      destruct (decide (i < length s)) as [Hi2|Hi2].
      * rewrite lookup_take_lt by lia. rewrite <- H by lia. f_equal. lia.
      * rewrite lookup_ge_None_2 by lia. symmetry. apply lookup_ge_None_2.
        rewrite length_take. lia.
Qed.

Lemma overlap_0 p t : overlap 0 p t.
Proof. split; lia. Qed.

Lemma suffix_prefix_loop_spec m s needle :
  m <= length needle ->
  overlap (suffix_prefix_loop m s needle) needle s /\ suffix_prefix_loop m s needle <= m /\
  forall n, n <= m -> overlap n needle s -> n <= suffix_prefix_loop m s needle.
Proof.
  intros Hm. induction m as [|m IH]; cbn [suffix_prefix_loop].
  - split_and!; [apply overlap_0|lia|lia].
  - destruct (ends_with s (take (S m) needle)) eqn:E.
    + apply ends_with_overlap in E; [|done]. split_and!; [done|lia|lia].
    + destruct (IH ltac:(lia)) as (H1 & H2 & H3). split_and!; [done|lia|].
      intros n Hn Ho. destruct (decide (n = S m)) as [->|]; [|apply H3; [lia|done]].
      apply ends_with_overlap in Ho; [congruence|done].
Qed.

(** It is the largest overlap that is not the whole pattern. *)
Lemma longest_suffix_prefix_len_spec s p :
  p <> [] ->
  overlap (longest_suffix_prefix_len s p) p s /\ longest_suffix_prefix_len s p < length p /\
  forall n, n < length p -> overlap n p s -> n <= longest_suffix_prefix_len s p.
Proof.
  intros Hp. assert (length p <> 0) by (by destruct p).
  destruct (suffix_prefix_loop_spec (Nat.min (length s) (length p - 1)) s p) as (H1 & H2 & H3); [lia|].
  unfold longest_suffix_prefix_len. split_and!; [done|lia|].
  intros n Hn Ho. apply H3; [|done]. destruct Ho. lia.
Qed.

(** What is kept of [t] for the patterns [P]. *)
Definition keep (P : list str) (t : str) : nat :=
  max_list (map (longest_suffix_prefix_len t) P).
Definition kept (P : list str) (t : str) : str := drop (length t - keep P t) t.
Definition passed (P : list str) (t : str) : str := take (length t - keep P t) t.

Lemma passed_kept P t : passed P t ++ kept P t = t.
Proof. apply take_drop. Qed.

Lemma max_list_elem n l : n ∈ l -> n <= max_list l.
Proof.
  induction l as [|x l IH]; intros H; [no_elem|]. cbn.
  apply elem_of_cons in H as [->|H]; [lia|]. specialize (IH H). lia.
Qed.

Lemma max_list_attained l : max_list l = 0 \/ max_list l ∈ l.
Proof.
  induction l as [|x l IH]; [by left|]. cbn. destruct IH as [IH|IH].
  - rewrite IH, Nat.max_0_r. right. left.
  - right. destruct (Nat.max_spec x (max_list l)) as [[_ ->]|[_ ->]]; [by right|left].
Qed.

Section Keep.
Variable P : list str.
Hypothesis P_nonempty : Forall (fun p => p <> []) P.

Lemma keep_spec t :
  (keep P t = 0 \/ exists p, p ∈ P /\ overlap (keep P t) p t /\ keep P t < length p) /\
  forall p n, p ∈ P -> n < length p -> overlap n p t -> n <= keep P t.
Proof.
  rewrite Forall_forall in P_nonempty. unfold keep. split.
  - destruct (max_list_attained (map (longest_suffix_prefix_len t) P)) as [H|H]; [by left|right].
    apply list_elem_of_fmap in H as (p & Hp & Hin). exists p. rewrite Hp.
    destruct (longest_suffix_prefix_len_spec t p) as (? & ? & _); auto.
  - intros p n Hin Hn Ho.
    destruct (longest_suffix_prefix_len_spec t p) as (_ & _ & H); [by apply P_nonempty|].
    etrans; [by apply H|]. apply max_list_elem, list_elem_of_fmap. eauto.
Qed.

Lemma keep_le t : keep P t <= length t.
Proof. destruct (keep_spec t) as [[->|(p & _ & [H _] & _)] _]; lia. Qed.

Lemma length_kept t : length (kept P t) = keep P t.
Proof. unfold kept. rewrite length_drop. pose proof (keep_le t). lia. Qed.

Lemma length_passed t : length (passed P t) = length t - keep P t.
Proof. unfold passed. rewrite length_take. lia. Qed.

(** No occurrence starts in the text that was let through. *)
Lemma occ_after_passed t u p j :
  p ∈ P -> (forall k, ~ occ p t k) -> occ p (t ++ u) j -> length (passed P t) <= j.
Proof.
  intros Hp Hno Ho. rewrite length_passed. destruct (decide (j + length p <= length t)) as [Hf|Hf].
  { apply occ_app_l in Ho; [|done]. by apply Hno in Ho. }
  destruct (decide (length t <= j)) as [Hj|Hj]; [lia|].
  destruct (keep_spec t) as [_ Hmax].
  assert (length t - j <= keep P t) as H; [|lia].
  apply (Hmax p); [done|lia|]. split; [lia|]. intros i Hi.
  replace (length t - (length t - j) + i) with (j + i) by lia.
  rewrite <- (lookup_app_l t u) by lia. apply Ho. lia.
Qed.

Lemma overlap_suffix pre n p t : n <= length t -> overlap n p (pre ++ t) <-> overlap n p t.
Proof.
  intros Hn. unfold overlap. rewrite length_app. split; intros [_ H]; (split; [lia|]); intros i Hi;
    rewrite <- (H i Hi); [|symmetry]; rewrite lookup_app_r by lia; f_equal; lia.
Qed.

(** What is kept of a longer text only depends on what was kept. *)
Lemma keep_app t u : keep P (t ++ u) = keep P (kept P t ++ u).
Proof.
  destruct (keep_spec t) as [_ Ht].
  destruct (keep_spec (t ++ u)) as [H1 Hmax1], (keep_spec (kept P t ++ u)) as [H2 Hmax2].
  assert (forall n p, p ∈ P -> n < length p -> overlap n p (t ++ u) <-> overlap n p (kept P t ++ u))
    as Hiff.
  { intros n p Hp Hn. rewrite <- (passed_kept P t) at 1. rewrite <- app_assoc.
    destruct (decide (n <= length (kept P t ++ u))) as [Hle|Hle]; [by apply overlap_suffix|].
    rewrite length_app, length_kept in Hle. split; [|intros [H _]; rewrite length_app, length_kept in H; lia].
    rewrite app_assoc, passed_kept. intros [Hb Ho]. rewrite length_app in *. exfalso.
    assert (n - length u <= keep P t) as Hcontra; [|lia].
    apply (Ht p); [done|lia|]. split; [lia|]. intros i Hi. rewrite <- (Ho i) by lia.
    rewrite lookup_app_l by lia. f_equal. lia. }
  apply Nat.le_antisymm.
  - destruct H1 as [->|(p & Hp & Ho & Hl)]; [lia|]. apply (Hmax2 p); [done|done|by apply Hiff].
  - destruct H2 as [->|(p & Hp & Ho & Hl)]; [lia|]. apply (Hmax1 p); [done|done|by apply Hiff].
Qed.

Lemma kept_app t u : kept P (t ++ u) = kept P (kept P t ++ u).
Proof.
  unfold kept at 1 2. rewrite keep_app. set (k := keep P (kept P t ++ u)).
  assert (k <= length (kept P t ++ u)) as Hk by apply keep_le.
  rewrite <- (passed_kept P t) at 2. rewrite <- app_assoc, drop_app_ge.
  - f_equal. rewrite <- (passed_kept P t) at 1. rewrite <- app_assoc, length_app. lia.
  - rewrite <- (passed_kept P t) at 2. rewrite <- app_assoc, length_app. lia.
Qed.

Lemma passed_app t u : passed P (t ++ u) = passed P t ++ passed P (kept P t ++ u).
Proof.
  apply (app_inv_tail (kept P (t ++ u))). rewrite passed_kept. rewrite kept_app at 1.
  by rewrite <- app_assoc, passed_kept, app_assoc, passed_kept.
Qed.

(** Keeping is idempotent. *)
Lemma keep_kept t : keep P (kept P t) = keep P t.
Proof.
  pose proof (keep_app t []) as H. rewrite !app_nil_r in H. done.
Qed.

Lemma kept_kept t : kept P (kept P t) = kept P t.
Proof. pose proof (kept_app t []) as H. rewrite !app_nil_r in H. done. Qed.

Lemma passed_of_kept t : passed P (kept P t) = [].
Proof.
  unfold passed. rewrite length_kept, keep_kept, Nat.sub_diag. done.
Qed.
End Keep.

(** ** The next opener *)

Definition open_le (a b : nat * nat * nat) : Prop :=
  fst (fst a) < fst (fst b) \/
  fst (fst a) = fst (fst b) /\
    (snd (fst b) < snd (fst a) \/ snd (fst a) = snd (fst b) /\ snd a <= snd b).

Lemma open_cmp_le a b : open_cmp a b <> Gt <-> open_le a b.
Proof.
  unfold open_cmp, open_le.
  destruct (Nat.compare_spec (fst (fst a)) (fst (fst b)));
    [destruct (Nat.compare_spec (snd (fst b)) (snd (fst a)));
      [destruct (Nat.compare_spec (snd a) (snd b))|..]|..];
    split; intros Hab; try done; try lia.
Qed.

Lemma open_le_antisym a b : open_le a b -> open_le b a -> a = b.
Proof. destruct a as [[? ?] ?], b as [[? ?] ?]. unfold open_le. cbn. intros. repeat f_equal; lia. Qed.

Lemma open_cmp_Gt a b : open_cmp a b = Gt -> open_le b a.
Proof.
  intros H. apply open_cmp_le. unfold open_cmp in *.
  rewrite (Nat.compare_antisym (fst (fst a)) (fst (fst b))),
    (Nat.compare_antisym (snd (fst b)) (snd (fst a))), (Nat.compare_antisym (snd a) (snd b)).
  destruct (_ ?= _); cbn; [|done..]. destruct (_ ?= _); cbn; [|done..]. by destruct (_ ?= _).
Qed.

Lemma min_by_spec l c :
  min_by open_cmp l = Some c <-> c ∈ l /\ forall d, d ∈ l -> open_le c d.
Proof.
  assert (forall l x, let m := fold_left (fun a b => match open_cmp a b with Gt => b | _ => a end) l x in
    m ∈ x :: l /\ forall d, d ∈ x :: l -> open_le m d) as Hfold.
  { clear. induction l as [|y l IH]; intros x; cbn.
    - split; [left|]. intros d ->%list_elem_of_singleton. unfold open_le. lia.
    - destruct (IH (match open_cmp x y with Gt => y | _ => x end)) as [Hin Hle].
      set (m := fold_left _ _ _) in *.
      assert (open_le m (match open_cmp x y with Gt => y | _ => x end)) as Hm by (apply Hle; left).
      split.
      + apply elem_of_cons in Hin as [->|Hin]; [|by right; right].
        destruct (open_cmp x y); first [left | right; left].
      + intros d Hd. destruct (open_cmp x y) eqn:E.
        1,2: assert (open_le x y) by (apply open_cmp_le; congruence).
        3: apply open_cmp_Gt in E.
        all: apply elem_of_cons in Hd as [->|Hd]; [|apply elem_of_cons in Hd as [->|Hd]];
          first [apply Hle; by constructor|unfold open_le in *; lia]. }
  destruct l as [|x l]; cbn.
  { split; [done|]. intros [H _]. no_elem. }
  destruct (Hfold l x) as [Hin Hle]. set (m := fold_left _ _ _) in *. split.
  - intros [= <-]. done.
  - intros [Hc Hlec]. f_equal. apply open_le_antisym; auto.
Qed.

Section Open.
Context {T : Type} (specs : list (InlineTagSpec T)).

Lemma open_candidates_elem t c :
  c ∈ open_candidates specs t <->
  exists s, specs !! snd c = Some s /\ find t (s_open s) = Some (fst (fst c)) /\
    snd (fst c) = byte_len (s_open s).
Proof.
  destruct c as [[pos len] idx]. unfold open_candidates. rewrite list_elem_of_omap. cbn. split.
  - intros ([idx' s] & Hin & H). apply list_elem_of_lookup in Hin as [k Hk].
    rewrite list_lookup_imap in Hk. apply fmap_Some in Hk as (s' & Hs & [= -> ->]).
    apply fmap_Some in H as (pos' & Hf & [= -> -> ->]). eauto.
  - intros (s & Hs & Hf & ->). exists (idx, s). split.
    + apply list_elem_of_lookup. exists idx. by rewrite list_lookup_imap, Hs.
    + by rewrite Hf.
Qed.

Lemma find_next_open_Some t pos idx :
  find_next_open specs t = Some (pos, idx) <->
  exists s, specs !! idx = Some s /\ find t (s_open s) = Some pos /\
    forall j s' k, specs !! j = Some s' -> find t (s_open s') = Some k ->
      open_le (pos, byte_len (s_open s), idx) (k, byte_len (s_open s'), j).
Proof.
  unfold find_next_open. rewrite fmap_Some. split.
  - intros (c & Hc & [= -> ->]). apply min_by_spec in Hc as [Hc Hle].
    apply open_candidates_elem in Hc as (s & Hs & Hf & Hl). exists s. split_and!; [done|done|].
    intros j s' k Hs' Hk. rewrite <- Hl. destruct c as [[? ?] ?]. apply Hle.
    apply open_candidates_elem. eauto.
  - intros (s & Hs & Hf & Hle). exists (pos, byte_len (s_open s), idx). split; [|done].
    apply min_by_spec. split; [apply open_candidates_elem; eauto|].
    intros [[k l] j] Hd. apply open_candidates_elem in Hd as (s' & Hs' & Hk & Hl). cbn in *.
    subst l. eauto.
Qed.

Lemma find_next_open_None t :
  find_next_open specs t = None <-> forall s k, s ∈ specs -> ~ occ (s_open s) t k.
Proof.
  unfold find_next_open. rewrite fmap_None. split.
  - intros H s k Hs Ho. apply list_elem_of_lookup in Hs as [j Hj].
    destruct (find t (s_open s)) as [pos|] eqn:E; [|by apply (proj1 (find_None _ _) E k)].
    assert ((pos, byte_len (s_open s), j) ∈ open_candidates specs t) as Hin
      by (apply open_candidates_elem; eauto).
    destruct (open_candidates specs t); [no_elem|done].
  - intros H. destruct (open_candidates specs t) as [|c l] eqn:E; [done|].
    assert (c ∈ open_candidates specs t) as Hc by (rewrite E; left).
    apply open_candidates_elem in Hc as (s & Hs & Hf & _). apply find_Some in Hf as [Hf _].
    destruct (H s (fst (fst c))); [|done]. apply list_elem_of_lookup. eauto.
Qed.

(** No opener is inside another one before its last char. *)
Definition unambiguous : bool :=
  forallb (fun a => forallb (fun b =>
    negb (bool_decide (is_Some (find (take (length (s_open b) - 1) (s_open b)) (s_open a)))))
    specs) specs.

Definition well_formed : bool :=
  forallb (fun s => negb (is_empty (s_open s)) && negb (is_empty (s_close s))) specs.

Hypothesis Hunamb : unambiguous = true.
Hypothesis Hwf : well_formed = true.

Lemma opens_nonempty s : s ∈ specs -> s_open s <> [] /\ s_close s <> [].
Proof.
  intros Hs. unfold well_formed in Hwf. rewrite forallb_forall in Hwf.
  specialize (Hwf s (proj1 (list_elem_of_In _ _) Hs)). bool_hyps.
  split; by apply is_empty_false.
Qed.

Lemma not_inside s s' k : s ∈ specs -> s' ∈ specs ->
  ~ (occ (s_open s) (s_open s') k /\ k + length (s_open s) < length (s_open s')).
Proof.
  intros Hs Hs' [Ho Hk]. unfold unambiguous in Hunamb. rewrite forallb_forall in Hunamb.
  specialize (Hunamb s (proj1 (list_elem_of_In _ _) Hs)). rewrite forallb_forall in Hunamb.
  specialize (Hunamb s' (proj1 (list_elem_of_In _ _) Hs')). bool_hyps.
  apply eq_None_not_Some in Hunamb. rewrite find_None in Hunamb. apply (Hunamb k).
  apply (occ_app_l _ _ (drop (length (s_open s') - 1) (s_open s'))).
  - rewrite length_take. lia.
  - by rewrite take_drop.
Qed.

(** Two occurrences in one text: none ends inside the other. *)
Lemma occ_not_inside t s s' k k' : s ∈ specs -> s' ∈ specs ->
  occ (s_open s) t k -> occ (s_open s') t k' -> k' <= k ->
  k' + length (s_open s') <= k + length (s_open s).
Proof.
  intros Hs Hs' Ho Ho' Hk. destruct (decide (k' + length (s_open s') <= k + length (s_open s)))
    as [|Hn]; [done|]. exfalso. apply (not_inside s s' (k - k') Hs Hs'). split; [|lia].
  intros i Hi. rewrite <- (Ho i Hi), <- Ho' by lia. f_equal. lia.
Qed.

(** The next opener stays the next one when text is appended. *)
Lemma find_next_open_app t u pos idx :
  find_next_open specs t = Some (pos, idx) -> find_next_open specs (t ++ u) = Some (pos, idx).
Proof.
  intros H. apply find_next_open_Some in H as (s & Hs & Hf & Hle). apply find_next_open_Some.
  assert (s ∈ specs) as Hin by (apply list_elem_of_lookup; eauto).
  destruct (opens_nonempty s Hin) as [Hne _].
  exists s. split_and!; [done|by apply find_app|]. intros j s' k Hs' Hk.
  assert (s' ∈ specs) as Hin' by (apply list_elem_of_lookup; eauto).
  destruct (opens_nonempty s' Hin') as [Hne' _].
  destruct (find t (s_open s')) as [k'|] eqn:E.
  { rewrite (find_app t u _ k' Hne' E) in Hk. injection Hk as <-. eauto. }
  left. cbn. apply find_Some in Hk as [Hk _]. apply find_Some in Hf as [Hf _].
  destruct (decide (pos < k)) as [|Hn]; [done|]. exfalso.
  pose proof (occ_bound _ _ _ Hne Hf) as Hb.
  assert (occ (s_open s) (t ++ u) pos) as Hf' by by apply occ_app_l.
  pose proof (occ_not_inside _ _ _ _ _ Hin Hin' Hf' Hk ltac:(lia)).
  rewrite find_None in E. apply (E k). apply (occ_app_l _ _ u); [lia|done].
Qed.

(** Text before every opener shifts the next one. *)
Lemma find_next_open_shift pre t :
  (forall s j, s ∈ specs -> occ (s_open s) (pre ++ t) j -> length pre <= j) ->
  find_next_open specs (pre ++ t) =
    (fun '(pos, idx) => (length pre + pos, idx)) <$> find_next_open specs t.
Proof.
  intros Hpre. destruct (find_next_open specs t) as [[pos idx]|] eqn:E; cbn.
  - apply find_next_open_Some in E as (s & Hs & Hf & Hle). apply find_next_open_Some.
    assert (forall j s', specs !! j = Some s' ->
      find (pre ++ t) (s_open s') = Nat.add (length pre) <$> find t (s_open s')) as Hfind.
    { intros j s' Hs'. apply find_shift. intros i. apply Hpre. apply list_elem_of_lookup. eauto. }
    exists s. rewrite (Hfind idx s Hs), Hf. split_and!; [done|done|].
    intros j s' k Hs' Hk. rewrite (Hfind j s' Hs') in Hk. apply fmap_Some in Hk as (k' & Hk' & ->).
    specialize (Hle j s' k' Hs' Hk'). unfold open_le in *. cbn in *. lia.
  - rewrite find_next_open_None in E. apply find_next_open_None. intros s k Hs Ho.
    pose proof (Hpre s k Hs Ho). apply (E s (k - length pre) Hs).
    apply (occ_shift _ pre). by replace (length pre + (k - length pre)) with k by lia.
Qed.
End Open.

(** ** The scanning loop *)

Section Loop.
Context {T : Type}.
Abbreviation parser := (InlineHiddenTagParser T).
Abbreviation chunk := (StreamTextChunk (ExtractedInlineTag T)).
Implicit Types (p q : parser) (c out : chunk) (a : ActiveTag T) (s : InlineTagSpec T).

Definition more (u : str) (p : parser) : parser := mkInline (specs p) (pending p ++ u) (active p).

(** What the parser is looking for. *)
Definition opens (specs : list (InlineTagSpec T)) : list str := map s_open specs.

Definition good (p : parser) : Prop :=
  well_formed (specs p) = true /\ unambiguous (specs p) = true /\
  match active p with Some a => a_close a <> [] | None => True end.

Lemma opens_good p : good p -> Forall (fun o => o <> []) (opens (specs p)).
Proof.
  intros (Hwf & _ & _). apply Forall_forall. intros o Ho.
  apply list_elem_of_fmap in Ho as (s & -> & Hs).
  by apply (opens_nonempty (specs p) Hwf).
Qed.

Lemma close_good a : a_close a <> [] -> Forall (fun o => o <> []) [a_close a].
Proof. by repeat constructor. Qed.

Lemma push_visible_prefix_show out (s : str) : push_visible_prefix (T := T) out s = show s out.
Proof.
  unfold push_visible_prefix. destruct s; [|done]. destruct out. unfold show. cbn.
  by rewrite app_nil_r.
Qed.

(** The four kinds of rounds. *)
Lemma push_loop_closed n p a e out :
  active p = Some a -> find (pending p) (a_close a) = Some e ->
  push_loop (S n) p out = push_loop n
    (mkInline (specs p) (drop (e + length (a_close a)) (pending p)) None)
    (extract (mkExtracted (a_tag a) (a_content a ++ take e (pending p))) out).
Proof. intros Ha He. cbn. by rewrite Ha, He. Qed.

Lemma push_loop_wait n p a out :
  active p = Some a -> find (pending p) (a_close a) = None ->
  push_loop (S n) p out = Some (out, mkInline (specs p) (kept [a_close a] (pending p))
    (Some (mkActive (a_tag a) (a_close a) (a_content a ++ passed [a_close a] (pending p))))).
Proof.
  intros Ha He. cbn [push_loop]. rewrite Ha, He. unfold kept, passed, keep. cbn [map max_list_with id].
  rewrite Nat.max_0_r. destruct (Nat.ltb_spec 0 (length (pending p) -
    longest_suffix_prefix_len (pending p) (a_close a))) as [Hlt|Hge]; [done|].
  replace (length (pending p) - _) with 0 by lia. rewrite take_0, drop_0, app_nil_r.
  destruct p as [sp pe ac], a. cbn in *. by subst.
Qed.

Lemma push_loop_opened n p out pos idx s :
  active p = None -> find_next_open (specs p) (pending p) = Some (pos, idx) ->
  specs p !! idx = Some s ->
  push_loop (S n) p out = push_loop n
    (mkInline (specs p) (drop (pos + length (s_open s)) (pending p))
       (Some (mkActive (s_tag s) (s_close s) [])))
    (show (take pos (pending p)) out).
Proof. intros Ha Hn Hs. cbn. by rewrite Ha, Hn, Hs, push_visible_prefix_show. Qed.

Lemma push_loop_done n p out :
  active p = None -> find_next_open (specs p) (pending p) = None ->
  push_loop (S n) p out = Some (show (passed (opens (specs p)) (pending p)) out,
    mkInline (specs p) (kept (opens (specs p)) (pending p)) None).
Proof.
  intros Ha Hn. cbn [push_loop]. rewrite Ha, Hn. unfold drain_visible_to_suffix_match, kept, passed, keep, opens.
  unfold max_open_prefix_suffix_len. rewrite map_map.
  set (k := max_list _). destruct (Nat.eqb_spec (length (pending p) - k) 0) as [E|E].
  - rewrite E, take_0, drop_0. destruct p as [sp pe ac], out. cbn in *. subst.
    unfold show. cbn. by rewrite app_nil_r.
  - by rewrite push_visible_prefix_show, Ha.
Qed.

(** The output accumulates. *)
Lemma push_loop_out n p out :
  push_loop n p out = (fun '(c, q) => (chunk_app out c, q)) <$> push_loop n p empty_chunk.
Proof.
  revert p out. induction n as [|n IH]; intros p out; [done|].
  destruct (active p) as [a|] eqn:Ha.
  - destruct (find (pending p) (a_close a)) as [e|] eqn:He.
    + rewrite !(push_loop_closed _ _ _ _ _ Ha He).
      rewrite IH, (IH _ (extract (T:=T) _ empty_chunk)). destruct (push_loop n _ _) as [[c q]|]; [|done].
      cbn. do 2 f_equal. unfold chunk_app, extract. cbn. by rewrite <- app_assoc.
    + rewrite !(push_loop_wait _ _ _ _ Ha He). cbn. by rewrite chunk_app_empty_r.
  - destruct (find_next_open (specs p) (pending p)) as [[pos idx]|] eqn:Hn.
    + destruct (specs p !! idx) as [s|] eqn:Hs; [|cbn; by rewrite Ha, Hn, Hs].
      rewrite !(push_loop_opened _ _ _ _ _ _ Ha Hn Hs).
      rewrite IH, (IH _ (show (T:=T) _ empty_chunk)). destruct (push_loop n _ _) as [[c q]|]; [|done].
      cbn. do 2 f_equal. unfold chunk_app, show. cbn. by rewrite <- app_assoc.
    + rewrite !(push_loop_done _ _ _ Ha Hn). cbn. do 2 f_equal. unfold chunk_app, show. cbn.
      by rewrite app_nil_r.
Qed.

(** More fuel changes nothing. *)
Lemma push_loop_mono n m p out r : push_loop n p out = Some r -> n <= m -> push_loop m p out = Some r.
Proof.
  revert m p out. induction n as [|n IH]; intros [|m] p out H Hm; try done; [lia|].
  destruct (active p) as [a|] eqn:Ha.
  - destruct (find (pending p) (a_close a)) as [e|] eqn:He.
    + rewrite (push_loop_closed m _ _ _ _ Ha He). rewrite (push_loop_closed n _ _ _ _ Ha He) in H.
      apply IH; [done|lia].
    + rewrite (push_loop_wait m _ _ _ Ha He). by rewrite (push_loop_wait n _ _ _ Ha He) in H.
  - destruct (find_next_open (specs p) (pending p)) as [[pos idx]|] eqn:Hn.
    + destruct (specs p !! idx) as [s|] eqn:Hs; [|cbn in H; by rewrite Ha, Hn, Hs in H].
      rewrite (push_loop_opened m _ _ _ _ _ Ha Hn Hs).
      rewrite (push_loop_opened n _ _ _ _ _ Ha Hn Hs) in H. apply IH; [done|lia].
    + rewrite (push_loop_done m _ _ Ha Hn). by rewrite (push_loop_done n _ _ Ha Hn) in H.
Qed.

Lemma push_loop_agree n m p out r r' :
  push_loop n p out = Some r -> push_loop m p out = Some r' -> r = r'.
Proof.
  intros H H'. apply (push_loop_mono _ (Nat.max n m)) in H, H'; [congruence|lia..].
Qed.

(** What the two continuing rounds go on with. *)
Lemma good_closed p n : good p -> good (mkInline (specs p) (drop n (pending p)) None).
Proof. intros (? & ? & _). by split_and!. Qed.

Lemma good_opened p t idx s : good p -> specs p !! idx = Some s ->
  good (mkInline (specs p) t (Some (mkActive (s_tag s) (s_close s) []))).
Proof.
  intros (Hwf & ? & _) Hs. split_and!; [done|done|]. cbn.
  apply (opens_nonempty (specs p) Hwf). apply list_elem_of_lookup. eauto.
Qed.

Lemma closed_bound p a e : good p -> active p = Some a ->
  find (pending p) (a_close a) = Some e ->
  e + length (a_close a) <= length (pending p) /\ 0 < length (a_close a).
Proof.
  intros (_ & _ & Hc) Ha He. rewrite Ha in Hc. apply find_Some in He as [He _]. split.
  - by apply occ_bound.
  - by destruct (a_close a); [|cbn; lia].
Qed.

Lemma opened_bound p pos idx : good p ->
  find_next_open (specs p) (pending p) = Some (pos, idx) ->
  exists s, specs p !! idx = Some s /\
    pos + length (s_open s) <= length (pending p) /\ 0 < length (s_open s).
Proof.
  intros (Hwf & _ & _) Hn. apply find_next_open_Some in Hn as (s & Hs & Hf & _).
  assert (s_open s <> []) as Hne
    by (apply (opens_nonempty (specs p) Hwf), list_elem_of_lookup; eauto).
  exists s. apply find_Some in Hf as [Hf _]. split_and!; [done|by apply occ_bound|].
  by destruct (s_open s); [|cbn; lia].
Qed.

(** The loop ends: every continuing round removes a delimiter. *)
Lemma push_loop_total n p out :
  good p -> length (pending p) < n -> is_Some (push_loop n p out).
Proof.
  revert p out. induction n as [|n IH]; intros p out Hg Hn; [lia|].
  destruct (active p) as [a|] eqn:Ha.
  - destruct (find (pending p) (a_close a)) as [e|] eqn:He.
    + rewrite (push_loop_closed _ _ _ _ _ Ha He). apply IH; [by apply good_closed|].
      destruct (closed_bound p a e Hg Ha He). cbn. rewrite length_drop. lia.
    + rewrite (push_loop_wait _ _ _ _ Ha He). eauto.
  - destruct (find_next_open (specs p) (pending p)) as [[pos idx]|] eqn:Ho.
    + destruct (opened_bound p pos idx Hg Ho) as (s & Hs & Hb & Hl).
      rewrite (push_loop_opened _ _ _ _ _ _ Ha Ho Hs). apply IH; [by eapply good_opened|].
      cbn. rewrite length_drop. lia.
    + rewrite (push_loop_done _ _ _ Ha Ho). eauto.
Qed.

Lemma inline_push_loop (s : str) p n :
  good p -> length (pending (more s p)) < n ->
  push_loop n (more s p) empty_chunk = Some (inline_push_str s p).
Proof.
  intros Hg Hn. unfold inline_push_str. fold (more s p). cbv zeta.
  destruct (push_loop_total (S (length (pending (more s p)))) (more s p) empty_chunk Hg
    ltac:(lia)) as [r Hr].
  rewrite Hr. cbn. eapply push_loop_mono; [exact Hr|lia].
Qed.

(** The states between two pushes: nothing to be found, nothing to let
    through. *)
Definition inline_settled (p : parser) : Prop :=
  good p /\
  match active p with
  | Some a => find (pending p) (a_close a) = None /\ passed [a_close a] (pending p) = []
  | None => find_next_open (specs p) (pending p) = None /\
            passed (opens (specs p)) (pending p) = []
  end.

Lemma occ_kept P (p t : str) k : occ p (kept P t) k -> occ p t (length (passed P t) + k).
Proof. intros H. rewrite <- (passed_kept P t) at 1. by apply occ_shift. Qed.

Lemma push_loop_settled n p out c q :
  good p -> push_loop n p out = Some (c, q) -> inline_settled q.
Proof.
  revert p out. induction n as [|n IH]; intros p out Hg H; [done|].
  destruct (active p) as [a|] eqn:Ha.
  - destruct (find (pending p) (a_close a)) as [e|] eqn:He.
    + rewrite (push_loop_closed _ _ _ _ _ Ha He) in H. eapply IH; [|exact H]. by apply good_closed.
    + rewrite (push_loop_wait _ _ _ _ Ha He) in H. injection H as _ <-.
      destruct Hg as (? & ? & Hc). rewrite Ha in Hc. split; cbn; [done|]. split.
      * rewrite find_None in *. intros k Hk. by apply occ_kept, He in Hk.
      * by apply passed_of_kept, close_good.
  - destruct (find_next_open (specs p) (pending p)) as [[pos idx]|] eqn:Ho.
    + destruct (opened_bound p pos idx Hg Ho) as (s & Hs & _).
      rewrite (push_loop_opened _ _ _ _ _ _ Ha Ho Hs) in H. eapply IH; [|exact H].
      by eapply good_opened.
    + rewrite (push_loop_done _ _ _ Ha Ho) in H. injection H as _ <-.
      pose proof (opens_good p Hg). destruct Hg as (? & ? & _). split; cbn; [done|]. split.
      * rewrite find_next_open_None in *. intros s k Hs Hk. by apply occ_kept, Ho in Hk.
      * by apply passed_of_kept.
Qed.
End Loop.

(** ** Where the text is cut does not matter *)

Section Cut.
Context {T : Type}.
Abbreviation parser := (InlineHiddenTagParser T).
Abbreviation chunk := (StreamTextChunk (ExtractedInlineTag T)).
Implicit Types (p q : parser) (c d out : chunk) (a : ActiveTag T).

(** Waiting for a closer and then reading [u] is reading [u] at once. *)
Lemma wait_more n p a u out :
  active p = Some a -> a_close a <> [] -> find (pending p) (a_close a) = None ->
  push_loop (S n) (more u (mkInline (specs p) (kept [a_close a] (pending p))
    (Some (mkActive (a_tag a) (a_close a) (a_content a ++ passed [a_close a] (pending p)))))) out =
  push_loop (S n) (more u p) out.
Proof.
  intros Ha Hc He. set (P := [a_close a]). pose proof (close_good a Hc) as HP. fold P in HP.
  set (a' := mkActive _ _ _). set (p' := mkInline _ _ (Some a')).
  assert (active (more u p) = Some a) as Hm by done. assert (active (more u p') = Some a') as Hm' by done.
  assert (pending p ++ u = passed P (pending p) ++ kept P (pending p) ++ u) as Hsplit
    by (by rewrite app_assoc, passed_kept).
  assert (find (passed P (pending p) ++ kept P (pending p) ++ u) (a_close a) =
    Nat.add (length (passed P (pending p))) <$> find (kept P (pending p) ++ u) (a_close a)) as Hshift.
  { apply find_shift. intros j Hj. rewrite app_assoc, passed_kept in Hj.
    apply (occ_after_passed P HP (pending p) u (a_close a)); [left|by apply find_None|done]. }
  rewrite <- Hsplit in Hshift.
  destruct (find (kept P (pending p) ++ u) (a_close a)) as [e|] eqn:E; cbn in Hshift.
  - rewrite (push_loop_closed n (more u p') a' e out Hm' E).
    rewrite (push_loop_closed n (more u p) a _ out Hm Hshift). cbn. f_equal.
    + f_equal. rewrite Hsplit. symmetry. rewrite drop_app_ge by lia. f_equal. lia.
    + do 2 f_equal. rewrite <- app_assoc, Hsplit. symmetry. rewrite take_app_ge by lia. do 3 f_equal. lia.
  - rewrite (push_loop_wait n (more u p') a' out Hm' E).
    rewrite (push_loop_wait n (more u p) a out Hm Hshift).
    cbn [more specs pending a_tag a_close a_content a' p']. fold P.
    by rewrite <- app_assoc, <- (passed_app P HP), <- (kept_app P HP).
Qed.

(** The same between two tags, where the passed text has been shown. *)
Lemma done_more n p u :
  good p -> active p = None -> find_next_open (specs p) (pending p) = None ->
  (fun '(d, q) => (chunk_app (show (passed (opens (specs p)) (pending p)) empty_chunk) d, q)) <$>
    push_loop (S n) (more u (mkInline (specs p) (kept (opens (specs p)) (pending p)) None)) empty_chunk
  = push_loop (S n) (more u p) empty_chunk.
Proof.
  intros Hg Ha Ho. set (P := opens (specs p)). pose proof (opens_good p Hg) as HP. fold P in HP.
  set (p' := mkInline _ _ None). destruct Hg as (Hwf & Hun & _).
  assert (active (more u p) = None) as Hm by done. assert (active (more u p') = None) as Hm' by done.
  assert (pending p ++ u = passed P (pending p) ++ kept P (pending p) ++ u) as Hsplit
    by (by rewrite app_assoc, passed_kept).
  assert (find_next_open (specs p) (passed P (pending p) ++ kept P (pending p) ++ u) =
    (fun '(pos, idx) => (length (passed P (pending p)) + pos, idx)) <$>
      find_next_open (specs p) (kept P (pending p) ++ u)) as Hshift.
  { apply find_next_open_shift. intros s j Hs Hj. rewrite app_assoc, passed_kept in Hj.
    rewrite find_next_open_None in Ho.
    apply (occ_after_passed P HP (pending p) u (s_open s)); [|by intros k; apply Ho|done].
    unfold P, opens. apply list_elem_of_fmap. eauto. }
  rewrite <- Hsplit in Hshift.
  destruct (find_next_open (specs p) (kept P (pending p) ++ u)) as [[pos idx]|] eqn:E; cbn in Hshift.
  - destruct (proj1 (find_next_open_Some _ _ _ _) E) as (s & Hs & _).
    rewrite (push_loop_opened n (more u p') _ pos idx s Hm' E Hs).
    rewrite (push_loop_opened n (more u p) _ _ idx s Hm Hshift Hs). cbn [specs pending more p'].
    rewrite push_loop_out. rewrite (push_loop_out n _ (show (take (_ + _) _) _)).
    replace (drop (length (passed P (pending p)) + pos + length (s_open s)) (pending p ++ u))
      with (drop (pos + length (s_open s)) (kept P (pending p) ++ u)).
    2:{ rewrite Hsplit. symmetry. rewrite drop_app_ge by lia. f_equal. lia. }
    destruct (push_loop n _ _) as [[d q]|]; [|done]. cbn. do 2 f_equal. unfold chunk_app. cbn.
    rewrite app_assoc. do 2 f_equal. rewrite Hsplit. symmetry. rewrite take_app_ge by lia. do 2 f_equal. lia.
  - rewrite (push_loop_done n (more u p') _ Hm' E), (push_loop_done n (more u p) _ Hm Hshift).
    cbn [more specs pending p' fmap option_fmap option_map]. fold P.
    unfold chunk_app, show. cbn [visible_text extracted empty_chunk app].
    by rewrite (passed_app P HP (pending p) u), (kept_app P HP (pending p) u).
Qed.

Lemma push_loop_app n m p u c q d r :
  good p -> push_loop n p empty_chunk = Some (c, q) ->
  push_loop m (more u q) empty_chunk = Some (d, r) ->
  exists k, push_loop k (more u p) empty_chunk = Some (chunk_app c d, r).
Proof.
  revert p c. induction n as [|n IH]; intros p c Hg H Hu; [done|].
  destruct m as [|m]; [done|]. destruct (active p) as [a|] eqn:Ha.
  - assert (a_close a <> []) as Hc by (destruct Hg as (_ & _ & Hc); by rewrite Ha in Hc).
    destruct (find (pending p) (a_close a)) as [e|] eqn:He.
    + rewrite (push_loop_closed n p a e _ Ha He), push_loop_out in H.
      destruct (push_loop n _ empty_chunk) as [[c' q']|] eqn:Hl; [|done].
      cbn in H. injection H as <- ->.
      destruct (IH _ _ (good_closed p _ Hg) Hl Hu) as [k Hk]. exists (S k).
      destruct (closed_bound p a e Hg Ha He) as [Hb _].
      rewrite (push_loop_closed k (more u p) a e); [|done|by apply find_app].
      unfold more in Hk |- *. cbn [pending specs active] in *. rewrite take_app_le, drop_app_le by lia.
      rewrite push_loop_out, Hk. cbn. by rewrite chunk_app_assoc.
    + rewrite (push_loop_wait n p a _ Ha He) in H. injection H as <- <-.
      exists (S m). rewrite wait_more in Hu by done. rewrite Hu. by rewrite chunk_app_empty_l.
  - destruct (find_next_open (specs p) (pending p)) as [[pos idx]|] eqn:Ho.
    + destruct (opened_bound p pos idx Hg Ho) as (s & Hs & Hb & _).
      rewrite (push_loop_opened n p _ pos idx s Ha Ho Hs), push_loop_out in H.
      destruct (push_loop n _ empty_chunk) as [[c' q']|] eqn:Hl; [|done].
      cbn in H. injection H as <- ->.
      destruct (IH _ _ (good_opened p _ idx s Hg Hs) Hl Hu) as [k Hk]. exists (S k).
      destruct Hg as (Hwf & Hun & _).
      rewrite (push_loop_opened k (more u p) _ pos idx s); [|done|by apply find_next_open_app|done].
      unfold more in Hk |- *. cbn [pending specs active] in *. rewrite take_app_le, drop_app_le by lia.
      rewrite push_loop_out, Hk. cbn. by rewrite chunk_app_assoc.
    + rewrite (push_loop_done n p _ Ha Ho) in H. injection H as <- <-.
      exists (S m). rewrite <- (done_more m p u Hg Ha Ho), Hu. done.
Qed.

Lemma settled_good p : inline_settled p -> good p.
Proof. by intros [? _]. Qed.

Lemma good_more p u : good p -> good (more u p).
Proof. done. Qed.

Lemma more_app p u v : more v (more u p) = more (u ++ v) p.
Proof. unfold more. cbn. by rewrite app_assoc. Qed.

#[export] Instance inline_laws : StreamTextLaws (InlineHiddenTagParser T) (ExtractedInlineTag T).
Proof.
  refine {| settled := inline_settled |}.
  - intros s p Hp. cbn [push_str inline_parser]. apply settled_good in Hp.
    pose proof (inline_push_loop s p (S (length (pending (more s p)))) Hp ltac:(lia)) as H.
    destruct (inline_push_str s p) as [c q]. eapply push_loop_settled; [|exact H].
    by apply good_more.
  - intros p [Hg Hp]. cbn [push_str inline_parser].
    pose proof (inline_push_loop [] p (S (length (pending (more [] p)))) Hg ltac:(lia)) as H.
    assert (more [] p = p) as Hnil.
    { destruct p as [sp pe ac]. unfold more. cbn. by rewrite app_nil_r. }
    rewrite Hnil in H. destruct (active p) as [a|] eqn:Ha; destruct Hp as [Hf Hpass].
    + rewrite (push_loop_wait _ p a _ Ha Hf), Hpass, app_nil_r in H.
      pose proof (passed_kept [a_close a] (pending p)) as Hk. rewrite Hpass in Hk. cbn in Hk.
      rewrite Hk in H. injection H as <-. f_equal. destruct p, a. cbn in *. by subst.
    + rewrite (push_loop_done _ p _ Ha Hf), Hpass in H.
      pose proof (passed_kept (opens (specs p)) (pending p)) as Hk. rewrite Hpass in Hk. cbn in Hk.
      rewrite Hk in H. injection H as <-. unfold show, empty_chunk. cbn. f_equal.
      destruct p. cbn in *. by subst.
  - intros s t p Hp. apply settled_good in Hp. cbn [push_str inline_parser].
    pose proof (inline_push_loop s p _ Hp (Nat.lt_succ_diag_r _)) as H1.
    destruct (inline_push_str s p) as [c q].
    assert (good q) as Hq
      by (eapply settled_good, push_loop_settled; [apply good_more, Hp|exact H1]).
    pose proof (inline_push_loop t q _ Hq (Nat.lt_succ_diag_r _)) as H2.
    destruct (inline_push_str t q) as [d r].
    destruct (push_loop_app _ _ (more s p) t c q d r (good_more p s Hp) H1 H2) as [k Hk].
    rewrite more_app in Hk.
    pose proof (inline_push_loop (s ++ t) p _ Hp (Nat.lt_succ_diag_r _)) as H3.
    pose proof (push_loop_agree _ _ _ _ _ _ Hk H3) as <-. done.
Defined.

(** ** What is hidden *)

(** The opener at [pos] is the one the parser takes: the earliest; of
    several at one position the longest, then the first in the list. *)
Definition first_open (specs : list (InlineTagSpec T)) (t : str) (pos : nat) (s : InlineTagSpec T) :
    Prop :=
  exists idx, specs !! idx = Some s /\ occ (s_open s) t pos /\
    forall j s' k, specs !! j = Some s' -> occ (s_open s') t k ->
      open_le (pos, byte_len (s_open s), idx) (k, byte_len (s_open s'), j).

Definition first_close (close t : str) (e : nat) : Prop :=
  occ close t e /\ forall j, j < e -> ~ occ close t j.

(** [hidden specs looking t v x]: reading [t] to its end, outside of a tag
    or inside one (its tag and closer), shows [v] and extracts [x]. *)
Inductive hidden (specs : list (InlineTagSpec T)) :
    option (T * str) -> str -> str -> list (ExtractedInlineTag T) -> Prop :=
| hidden_text t :
    (forall s k, s ∈ specs -> ~ occ (s_open s) t k) ->
    hidden specs None t t []
| hidden_open t pos s v x :
    first_open specs t pos s ->
    hidden specs (Some (s_tag s, s_close s)) (drop (pos + length (s_open s)) t) v x ->
    hidden specs None t (take pos t ++ v) x
| hidden_unclosed tag close t :
    (forall k, ~ occ close t k) ->
    hidden specs (Some (tag, close)) t [] [mkExtracted tag t]
| hidden_closed tag close t e v x :
    first_close close t e ->
    hidden specs None (drop (e + length close) t) v x ->
    hidden specs (Some (tag, close)) t v (mkExtracted tag (take e t) :: x).

Lemma first_open_iff specs t pos s :
  first_open specs t pos s <->
  exists idx, specs !! idx = Some s /\ find_next_open specs t = Some (pos, idx).
Proof.
  split.
  - intros (idx & Hs & Ho & Hle). exists idx. split; [done|]. apply find_next_open_Some.
    exists s. split_and!; [done| |].
    + apply find_Some. split; [done|]. intros j Hj Ho'. specialize (Hle _ _ _ Hs Ho').
      unfold open_le in Hle. cbn in Hle. lia.
    + intros j s' k Hs' Hk. apply find_Some in Hk as [Hk _]. eauto.
  - intros (idx & Hs & Hn). apply find_next_open_Some in Hn as (s0 & Hs0 & Hf & Hle).
    assert (s0 = s) as -> by congruence. exists idx. split_and!; [done| |].
    + by apply find_Some in Hf as [Hf _].
    + intros j s' k Hs' Hk. destruct (find t (s_open s')) as [k'|] eqn:E.
      * specialize (Hle _ _ _ Hs' E). apply find_Some in E as [_ E].
        destruct (decide (k < k')) as [Hlt|Hge]; [by destruct (E k)|].
        unfold open_le in *. cbn in *. lia.
      * rewrite find_None in E. by destruct (E k).
Qed.

(** The reading is determined by the text. *)
Lemma hidden_det specs o t v x v' x' :
  hidden specs o t v x -> hidden specs o t v' x' -> v = v' /\ x = x'.
Proof.
  intros H. revert v' x'. induction H as [t Hno|t pos s v x Hf H IH|tag close t Hno|tag close t e v x Hf H IH];
    intros v' x' H'; inversion H' as [? Hno'|? pos' s' v0 x0 Hf' Hr|? ? ? Hno'|? ? ? e' v0 x0 Hf' Hr];
    subst; try done.
  - apply first_open_iff in Hf' as (idx & _ & Hn). apply find_next_open_None in Hno. congruence.
  - apply first_open_iff in Hf as (idx & _ & Hn). apply find_next_open_None in Hno'. congruence.
  - apply first_open_iff in Hf as (idx & Hs & Hn), Hf' as (idx' & Hs' & Hn').
    rewrite Hn in Hn'. injection Hn' as -> ->. assert (s = s') as <- by congruence.
    destruct (IH _ _ Hr) as [-> ->]. done.
  - destruct Hf' as [Hc _]. by destruct (Hno e').
  - destruct Hf as [Hc _]. by destruct (Hno' e).
  - apply find_Some in Hf, Hf'. assert (e = e') as <- by congruence.
    destruct (IH _ _ Hr) as [-> ->]. done.
Qed.

(** The loop followed by [finish] reads the pending text; inside a tag the
    content so far comes before what is read. *)
Definition reads p (out : chunk) : Prop :=
  match active p with
  | None => hidden (specs p) None (pending p) (visible_text out) (extracted out)
  | Some a => exists b x, extracted out = mkExtracted (a_tag a) (a_content a ++ b) :: x /\
      hidden (specs p) (Some (a_tag a, a_close a)) (pending p) (visible_text out)
        (mkExtracted (a_tag a) b :: x)
  end.

Lemma push_loop_reads n p c q :
  good p -> push_loop n p empty_chunk = Some (c, q) ->
  reads p (chunk_app c (fst (finish q))).
Proof.
  revert p c. induction n as [|n IH]; intros p c Hg H; [done|]. unfold reads.
  destruct (active p) as [a|] eqn:Ha.
  - destruct (find (pending p) (a_close a)) as [e|] eqn:He.
    + rewrite (push_loop_closed n p a e _ Ha He), push_loop_out in H.
      destruct (push_loop n _ empty_chunk) as [[c' q']|] eqn:Hl; [|done].
      cbn in H. injection H as <- ->. specialize (IH _ _ (good_closed p _ Hg) Hl).
      unfold reads in IH. cbn [active specs pending] in IH. rewrite <- chunk_app_assoc.
      set (out := chunk_app c' _) in *. clearbody out. do 2 eexists. split; [reflexivity|].
      apply hidden_closed; [by apply find_Some|done].
    + rewrite (push_loop_wait n p a _ Ha He) in H. injection H as <- <-.
      exists (pending p), []. cbn. split.
      * by rewrite <- app_assoc, passed_kept.
      * apply hidden_unclosed. by apply find_None.
  - destruct (find_next_open (specs p) (pending p)) as [[pos idx]|] eqn:Ho.
    + destruct (opened_bound p pos idx Hg Ho) as (s & Hs & _).
      rewrite (push_loop_opened n p _ pos idx s Ha Ho Hs), push_loop_out in H.
      destruct (push_loop n _ empty_chunk) as [[c' q']|] eqn:Hl; [|done].
      cbn in H. injection H as <- ->. specialize (IH _ _ (good_opened p _ idx s Hg Hs) Hl).
      unfold reads in IH. cbn [active specs pending a_tag a_content a_close] in IH.
      rewrite <- chunk_app_assoc. set (out := chunk_app c' _) in *. clearbody out.
      destruct IH as (b & x & Hx & IH). cbn. rewrite Hx. cbn.
      apply (hidden_open _ _ pos s); [apply first_open_iff; eauto|done].
    + rewrite (push_loop_done n p _ Ha Ho) in H. injection H as <- <-. cbn.
      rewrite passed_kept. apply hidden_text. by apply find_next_open_None.
Qed.

Lemma new_settled specs p : new specs = Some p -> unambiguous specs = true ->
  p = mkInline specs [] None /\ inline_settled p.
Proof.
  unfold new. intros H Hun. destruct (is_empty specs); [done|].
  destruct (existsb _ specs) eqn:E; [done|]. injection H as <-. split; [done|].
  assert (well_formed specs = true) as Hwf.
  { unfold well_formed. apply forallb_forall. intros s Hs.
    destruct (is_empty (s_open s) || is_empty (s_close s)) eqn:Es.
    - assert (existsb (fun s => is_empty (s_open s) || is_empty (s_close s)) specs = true)
        by (apply existsb_exists; eauto). congruence.
    - apply orb_false_iff in Es as [-> ->]. done. }
  split; cbn; [done|]. split; [|done]. apply find_next_open_None. intros s k Hs Ho.
  destruct (opens_nonempty specs Hwf s Hs) as [Hne _].
  apply occ_bound in Ho; [|done]. destruct (s_open s); [done|]. cbn in Ho. lia.
Qed.

Lemma observed_inline (l : list (ExtractedInlineTag T)) : observed l = l.
Proof. unfold observed. induction l as [|e l IH]; [done|]. cbn in *. by rewrite IH. Qed.

(** What any chunks give is the reading of their concatenation. *)
Lemma collect_hidden specs p chunks :
  new specs = Some p -> unambiguous specs = true ->
  hidden specs None (concat chunks) (visible_text (collect chunks p)) (extracted (collect chunks p)).
Proof.
  intros Hnew Hun. destruct (new_settled specs p Hnew Hun) as [Hp Hset].
  pose proof (collect_concat (P := parser) (E := ExtractedInlineTag T) chunks p) as Hcut.
  destruct (Hcut Hset) as [Hv Hx].
  rewrite !observed_inline in Hx. rewrite Hv, Hx. set (t := concat chunks).
  pose proof (inline_push_loop t p _ (settled_good p Hset) (Nat.lt_succ_diag_r _)) as H.
  unfold collect. cbn -[finish inline_push_str]. destruct (inline_push_str t p) as [c q].
  rewrite chunk_app_empty_r. apply push_loop_reads in H; [|exact (settled_good p Hset)].
  unfold reads in H. subst p. exact H.
Qed.
End Cut.

(** ** Citations *)

Lemma observed_str (l : list str) : observed l = l.
Proof. unfold observed. induction l as [|e l IH]; [done|]. cbn in *. by rewrite IH. Qed.

Lemma citation_chunk_app c d :
  citation_chunk (chunk_app c d) = chunk_app (citation_chunk c) (citation_chunk d).
Proof. unfold citation_chunk, chunk_app. cbn. by rewrite map_app. Qed.

#[export] Instance citation_chunk_proper : Proper ((≡) ==> (≡)) citation_chunk.
Proof.
  intros c d [Hv Hx]. rewrite !observed_inline in Hx. split; [done|].
  rewrite !observed_str. cbn. by rewrite Hx.
Qed.

#[export] Instance citation_laws : StreamTextLaws CitationStreamParser str.
Proof.
  refine {| settled p := settled (c_inner p) |}.
  - intros s [p] Hp. cbn in Hp. pose proof (push_settled s p Hp) as H. cbn -[inline_push_str] in *.
    unfold citation_push_str. cbn -[inline_push_str] in *. by destruct (inline_push_str s p).
  - intros [p] Hp. cbn in Hp. pose proof (push_nil p Hp) as H. cbn -[inline_push_str] in *.
    unfold citation_push_str. cbn -[inline_push_str]. by rewrite H.
  - intros s t [p] Hp. cbn in Hp. pose proof (push_app s t p Hp) as H. cbn -[inline_push_str] in *.
    unfold citation_push_str. cbn -[inline_push_str]. destruct (inline_push_str s p) as [c q].
    cbn -[inline_push_str]. destruct (inline_push_str t q) as [d r].
    destruct (inline_push_str (s ++ t) p) as [cd r']. cbn in *.
    destruct H as [-> ->]. by rewrite citation_chunk_app.
Defined.

(** [new] does not panic on the citation tag. *)
Definition citation_start : CitationStreamParser := mkCitation (mkInline CITATION_SPECS [] None).

Lemma new_citation_ok : new_citation = Some citation_start.
Proof. reflexivity. Qed.

Lemma citation_settled : settled citation_start.
Proof.
  destruct (new_settled CITATION_SPECS (c_inner citation_start)); [done|vm_compute; done|done].
Qed.

(** [strip_citations] does not panic; it is what any chunks give. *)
Lemma strip_citations_collect text :
  strip_citations text = Some (visible_text (collect [text] citation_start),
                               extracted (collect [text] citation_start)).
Proof.
  unfold strip_citations. rewrite new_citation_ok. unfold collect. cbn -[citation_push_str citation_finish].
  destruct (citation_push_str text citation_start) as [out q]. cbn -[citation_finish].
  destruct (citation_finish q) as [tail r]. cbn. by rewrite !app_nil_r.
Qed.

(** Streaming does not change what is hidden: when no opener lies inside
    another before its last char, feeding the text in any chunks and flushing
    shows and extracts exactly what [hidden] says of the whole text: the
    earliest opener, up to its first closer, the rest of the text if it is
    never closed.  [hidden] determines the result, so the chunks do not
    matter. *)
Theorem inline_parser_correct {T} (specs : list (InlineTagSpec T)) p chunks out :
  new specs = Some p -> unambiguous specs = true ->
  collect chunks p = out <->
  hidden specs None (concat chunks) (visible_text out) (extracted out).
Proof.
  intros Hnew Hun. pose proof (collect_hidden specs p chunks Hnew Hun) as H. split.
  - by intros <-.
  - intros H'. destruct (hidden_det _ _ _ _ _ _ _ H H') as [Hv Hx].
    destruct (collect chunks p), out. cbn in *. by subst.
Qed.

Module InlineSample.

Inductive Tag := A | B.
Definition two_tags : list (InlineTagSpec Tag) := [mkSpec A "<a>" "</a>"; mkSpec B "<b>" "</b>"].
Definition cut : list str := ["1<"; "a>x<"; "/a"; ">2<b>y</b"; ">3<a>z"].

(** An opener inside another one makes the cut matter: [unambiguous] is
    needed. *)
Definition nested_openers : list (InlineTagSpec Tag) :=
  [mkSpec A "<a" "</a>"; mkSpec B "<ab" "</ab>"].
Example cut_matters :
  let p := mkInline nested_openers [] None in
  collect ["<ab"; "x"] p = mkTextChunk [] [mkExtracted B "x"] /\
  collect ["<a"; "bx"] p = mkTextChunk [] [mkExtracted A "bx"].
Proof. vm_compute. done. Qed.

End InlineSample.

Lemma inline_parser_correct_witness :
  let p := mkInline InlineSample.two_tags [] None in
  let out := mkTextChunk "123" [mkExtracted InlineSample.A "x"; mkExtracted InlineSample.B "y";
                                mkExtracted InlineSample.A "z"] in
  collect InlineSample.cut p = out /\
  hidden InlineSample.two_tags None (concat InlineSample.cut) (visible_text out) (extracted out).
Proof.
  cbv zeta. match goal with |- ?A /\ _ => assert A as H by (vm_compute; reflexivity) end.
  split; [exact H|].
  apply (inline_parser_correct InlineSample.two_tags (mkInline InlineSample.two_tags [] None)
    InlineSample.cut _ ltac:(vm_compute; reflexivity) ltac:(vm_compute; reflexivity)).
  exact H.
Defined.
