(* ===== verification/TaggedLine.v ===== *)
(** * TaggedLine: blocks of text between tag lines

    [codex-rs/utils/stream-parser/src/tagged_line_parser.rs] and
    [proposed_plan.rs]: a tag must be alone on its line, so a line is held
    back until it cannot be a tag any more.  [document] reads a whole text
    line by line; the parser gives the same events however the text is
    cut. *)

From S2P Require Import Prelude RustStr StreamText.
Open Scope str_scope.

(** ** tagged_line_parser.rs *)

Section Parser.
Context {T : Type} `{EqDecision T}.

Record TagSpec := mkTagSpec { t_open : str; t_close : str; t_tag : T }.

Inductive TaggedLineSegment :=
| Normal (s : str)
| TagStart (tag : T)
| TagDelta (tag : T) (s : str)
| TagEnd (tag : T).

Record TaggedLineParser := mkTagged {
  t_specs : list TagSpec;
  active_tag : option T;
  detect_tag : bool;
  line_buffer : str;
}.

Definition new_tagged (specs : list TagSpec) : TaggedLineParser := mkTagged specs None true [].

Definition is_tag_prefix (specs : list TagSpec) (slug : str) : bool :=
  let slug := trim_end slug in
  existsb (fun s => starts_with (t_open s) slug || starts_with (t_close s) slug) specs.

Definition match_open (specs : list TagSpec) (slug : str) : option T :=
  t_tag <$> List.find (fun s => bool_decide (t_open s = slug)) specs.
Definition match_close (specs : list TagSpec) (slug : str) : option T :=
  t_tag <$> List.find (fun s => bool_decide (t_close s = slug)) specs.

(** A text is appended to a last segment of its kind. *)
Definition push_segment (segments : list TaggedLineSegment) (segment : TaggedLineSegment) :
    list TaggedLineSegment :=
  match segment with
  | Normal delta =>
      if is_empty delta then segments
      else match last segments with
           | Some (Normal existing) => removelast segments ++ [Normal (existing ++ delta)]
           | _ => segments ++ [segment]
           end
  | TagDelta tag delta =>
      if is_empty delta then segments
      else match last segments with
           | Some (TagDelta existing_tag existing) =>
               if decide (existing_tag = tag)
               then removelast segments ++ [TagDelta existing_tag (existing ++ delta)]
               else segments ++ [segment]
           | _ => segments ++ [segment]
           end
  | _ => segments ++ [segment]
  end.

Definition push_text (p : TaggedLineParser) (text : str) (segments : list TaggedLineSegment) :=
  match active_tag p with
  | Some tag => push_segment segments (TagDelta tag text)
  | None => push_segment segments (Normal text)
  end.

Definition set_active (a : option T) (p : TaggedLineParser) :=
  mkTagged (t_specs p) a (detect_tag p) (line_buffer p).
Definition set_detect (d : bool) (p : TaggedLineParser) :=
  mkTagged (t_specs p) (active_tag p) d (line_buffer p).
Definition set_buffer (b : str) (p : TaggedLineParser) :=
  mkTagged (t_specs p) (active_tag p) (detect_tag p) b.

(** [if let Some(tag) = self.match_open(slug) && self.active_tag.is_none()] *)
Definition opening_tag (p : TaggedLineParser) (slug : str) : option T :=
  tag ← match_open (t_specs p) slug;
  if active_tag p is Some _ then None else Some tag.
(** [... self.match_close(slug) && self.active_tag == Some(tag)] *)
Definition closing_tag (p : TaggedLineParser) (slug : str) : option T :=
  tag ← match_close (t_specs p) slug;
  if decide (active_tag p = Some tag) then Some tag else None.

Definition line_slug (line : str) : str :=
  let without_newline := default line (strip_suffix [NL] line) in
  trim_end (trim_start without_newline).

Definition finish_line (p : TaggedLineParser) (segments : list TaggedLineSegment) :
    TaggedLineParser * list TaggedLineSegment :=
  let line := line_buffer p in
  let p := set_buffer [] p in
  let slug := line_slug line in
  match opening_tag p slug with
  | Some tag =>
      (set_detect true (set_active (Some tag) p), push_segment segments (TagStart tag))
  | None =>
      match closing_tag p slug with
      | Some tag => (set_detect true (set_active None p), push_segment segments (TagEnd tag))
      | None => let p := set_detect true p in (p, push_text p line segments)
      end
  end.

(** One char of [parse]: the parser, the run of plain text, the segments. *)
Definition parse_char (st : TaggedLineParser * str * list TaggedLineSegment) (ch : char) :
    TaggedLineParser * str * list TaggedLineSegment :=
  let '(p, run, segments) := st in
  if detect_tag p then
    let segments := if is_empty run then segments else push_text p run segments in
    let p := set_buffer (line_buffer p ++ [ch]) p in
    if (ch =? NL)%N then
      let '(p, segments) := finish_line p segments in (p, [], segments)
    else
      let slug := trim_start (line_buffer p) in
      if is_empty slug || is_tag_prefix (t_specs p) slug then (p, [], segments)
      else
        let buffered := line_buffer p in
        let p := set_detect false (set_buffer [] p) in
        (p, [], push_text p buffered segments)
  else
    let run := run ++ [ch] in
    if (ch =? NL)%N then (set_detect true p, [], push_text p run segments)
    else (p, run, segments).

Definition parse (delta : str) (p : TaggedLineParser) : list TaggedLineSegment * TaggedLineParser :=
  let '(p, run, segments) := fold_left parse_char delta (p, [], []) in
  (if is_empty run then segments else push_text p run segments, p).

Definition finish_tagged (p : TaggedLineParser) : list TaggedLineSegment * TaggedLineParser :=
  let '(p, segments) :=
    if is_empty (line_buffer p) then (p, [])
    else
      let buffered := line_buffer p in
      let p := set_buffer [] p in
      let slug := line_slug buffered in
      match opening_tag p slug with
      | Some tag => (set_active (Some tag) p, push_segment [] (TagStart tag))
      | None =>
          match closing_tag p slug with
          | Some tag => (set_active None p, push_segment [] (TagEnd tag))
          | None => (p, push_text p buffered [])
          end
      end in
  let segments :=
    match active_tag p with Some tag => push_segment segments (TagEnd tag) | None => segments end in
  (segments, set_detect true (set_active None p)).
End Parser.
Arguments TagSpec : clear implicits.
Arguments TaggedLineSegment : clear implicits.
Arguments TaggedLineParser : clear implicits.

(** ** proposed_plan.rs *)

Inductive PlanTag := ProposedPlan.
#[export] Instance PlanTag_eq_dec : EqDecision PlanTag.
Proof. solve_decision. Defined.

Definition OPEN_TAG : str := "<proposed_plan>".
Definition CLOSE_TAG : str := "</proposed_plan>".

Inductive ProposedPlanSegment :=
| PlanNormal (s : str)
| ProposedPlanStart
| ProposedPlanDelta (s : str)
| ProposedPlanEnd.

Record ProposedPlanParser := mkPlan { p_parser : TaggedLineParser PlanTag }.

Definition PLAN_SPECS : list (TagSpec PlanTag) := [mkTagSpec OPEN_TAG CLOSE_TAG ProposedPlan].
Definition new_plan : ProposedPlanParser := mkPlan (new_tagged PLAN_SPECS).

Definition map_segment (s : TaggedLineSegment PlanTag) : ProposedPlanSegment :=
  match s with
  | Normal text => PlanNormal text
  | TagStart ProposedPlan => ProposedPlanStart
  | TagDelta ProposedPlan text => ProposedPlanDelta text
  | TagEnd ProposedPlan => ProposedPlanEnd
  end.

Definition map_segments (segments : list (TaggedLineSegment PlanTag)) :
    StreamTextChunk ProposedPlanSegment :=
  fold_left (fun out segment =>
      let mapped := map_segment segment in
      let visible := match mapped with
                     | PlanNormal text => visible_text out ++ text
                     | _ => visible_text out
                     end in
      mkTextChunk visible (extracted out ++ [mapped])) segments empty_chunk.

Definition plan_push_str (chunk : str) (p : ProposedPlanParser) :=
  let '(segments, q) := parse chunk (p_parser p) in (map_segments segments, mkPlan q).
Definition plan_finish (p : ProposedPlanParser) :=
  let '(segments, q) := finish_tagged (p_parser p) in (map_segments segments, mkPlan q).

#[export] Instance plan_parser : StreamTextParser ProposedPlanParser ProposedPlanSegment := {
  push_str := plan_push_str;
  finish := plan_finish;
}.

Definition strip_proposed_plan_blocks (text : str) : str :=
  let '(out, p) := push_str text new_plan in
  let '(tail, _) := finish p in
  visible_text out ++ visible_text tail.

(** The loop of [extract_proposed_plan_text]. *)
Definition plan_text_step (st : str * bool) (segment : ProposedPlanSegment) : str * bool :=
  let '(plan_text, saw_plan_block) := st in
  match segment with
  | ProposedPlanStart => ([], true)
  | ProposedPlanDelta delta => (plan_text ++ delta, saw_plan_block)
  | ProposedPlanEnd | PlanNormal _ => st
  end.

Definition extract_proposed_plan_text (text : str) : option str :=
  let '(out, p) := push_str text new_plan in
  let '(tail, _) := finish p in
  let '(plan_text, saw_plan_block) :=
    fold_left plan_text_step (extracted out ++ extracted tail) ([], false) in
  if saw_plan_block then Some plan_text else None.

Definition nl (s : str) : str := s ++ [NL].

Example proposed_plan_tests :
  let text := nl "before" ++ nl "<proposed_plan>" ++ nl "- step" ++ nl "</proposed_plan>" ++ "after" in
  strip_proposed_plan_blocks text = nl "before" ++ "after" /\
  extract_proposed_plan_text text = Some (nl "- step") /\
  strip_proposed_plan_blocks (nl "  <proposed_plan> extra") = nl "  <proposed_plan> extra" /\
  extracted (collect [nl "Intro text" ++ "<prop"; nl "osed_plan>" ++ nl "- step 1";
                      nl "</proposed_plan>" ++ "Outro"] new_plan) =
    [PlanNormal (nl "Intro text"); ProposedPlanStart; ProposedPlanDelta (nl "- step 1");
     ProposedPlanEnd; PlanNormal "Outro"].
Proof. vm_compute. done. Qed.

(** ** Events *)

(** What segments amount to, char by char. *)
Inductive event (T : Type) :=
| EText (inside : option T) (c : char)
| EStart (tag : T)
| EEnd (tag : T).
Arguments EText {T}.
Arguments EStart {T}.
Arguments EEnd {T}.

Section Events.
Context {T : Type} `{EqDecision T}.
Abbreviation parser := (TaggedLineParser T).
Implicit Types (p q : parser) (a : option T) (specs : list (TagSpec T)).

Definition text a (s : str) : list (event T) := map (EText a) s.

Definition segment_events (s : TaggedLineSegment T) : list (event T) :=
  match s with
  | Normal s => text None s
  | TagStart tag => [EStart tag]
  | TagDelta tag s => text (Some tag) s
  | TagEnd tag => [EEnd tag]
  end.
Definition events (l : list (TaggedLineSegment T)) : list (event T) :=
  concat (map segment_events l).

Lemma text_app a s t : text a (s ++ t) = text a s ++ text a t.
Proof. apply map_app. Qed.

Lemma events_app l k : events (l ++ k) = events l ++ events k.
Proof. unfold events. by rewrite map_app, concat_app. Qed.

Lemma events_snoc l s : events (l ++ [s]) = events l ++ segment_events s.
Proof. rewrite events_app. cbn. by rewrite app_nil_r. Qed.

Lemma events_push_segment l s : events (push_segment l s) = events l ++ segment_events s.
Proof.
  destruct s as [d|tag|tag d|tag]; cbn [push_segment]; try apply events_snoc.
  - destruct (is_empty d) eqn:E; [apply is_empty_true in E as ->; cbn; by rewrite app_nil_r|].
    induction l as [|x l _] using rev_ind; [apply events_snoc|]. rewrite last_snoc.
    destruct x as [e|tg|tg e|tg]; try apply events_snoc.
    rewrite removelast_last, !events_snoc. cbn. by rewrite text_app, app_assoc.
  - destruct (is_empty d) eqn:E; [apply is_empty_true in E as ->; cbn; by rewrite app_nil_r|].
    induction l as [|x l _] using rev_ind; [apply events_snoc|]. rewrite last_snoc.
    destruct x as [e|tg|tg e|tg]; try apply events_snoc.
    destruct (decide (tg = tag)) as [->|]; [|apply events_snoc].
    rewrite removelast_last, !events_snoc. cbn. by rewrite text_app, app_assoc.
Qed.

Lemma events_push_text p s l : events (push_text p s l) = events l ++ text (active_tag p) s.
Proof. unfold push_text. destruct (active_tag p); apply events_push_segment. Qed.

(** ** Reading a whole text *)

(** A complete line: the tag it is, or its text. *)
Definition line_events specs a (line : str) : list (event T) * option T :=
  let slug := trim line in
  match match_open specs slug, match_close specs slug, a with
  | Some tag, _, None => ([EStart tag], Some tag)
  | _, Some tag, Some active =>
      if decide (active = tag) then ([EEnd tag], None) else (text a line, a)
  | _, _, _ => (text a line, a)
  end.

Fixpoint lines_events specs a (ls : list str) : list (event T) * option T :=
  match ls with
  | [] => ([], a)
  | l :: ls =>
      let '(e, a) := line_events specs a l in
      let '(es, a) := lines_events specs a ls in (e ++ es, a)
  end.

Definition closing a : list (event T) := match a with Some tag => [EEnd tag] | None => [] end.

(** The lines in order; a block left open is closed at the end. *)
Definition document specs (s : str) : list (event T) :=
  let '(es, a) := lines_events specs None (split_inclusive NL s) in es ++ closing a.

(** ** The parser, one char at a time *)

Definition step_line p : list (event T) * parser :=
  let line := line_buffer p in
  let '(e, a) := line_events (t_specs p) (active_tag p) line in
  (e, mkTagged (t_specs p) a true []).

Definition step p (ch : char) : list (event T) * parser :=
  if detect_tag p then
    let p := set_buffer (line_buffer p ++ [ch]) p in
    if (ch =? NL)%N then step_line p
    else if is_empty (trim_start (line_buffer p)) ||
            is_tag_prefix (t_specs p) (trim_start (line_buffer p)) then ([], p)
    else (text (active_tag p) (line_buffer p), set_detect false (set_buffer [] p))
  else (text (active_tag p) [ch], if (ch =? NL)%N then set_detect true p else p).

Fixpoint steps p (s : str) : list (event T) * parser :=
  match s with
  | [] => ([], p)
  | c :: s => let '(e, p) := step p c in let '(es, p) := steps p s in (e ++ es, p)
  end.

Lemma line_slug_trim line : line_slug line = trim line.
Proof.
  unfold line_slug. destruct (strip_suffix [NL] line) as [l|] eqn:E; [|done].
  apply strip_suffix_Some in E as ->. change (trim l = trim (l ++ [NL])).
  rewrite !trim_alt. f_equal. symmetry. by apply trim_end_matches_snoc_true.
Qed.

(** The cases of a line: opening, closing and current tag. *)
#[local] Ltac case_tags mo mc a :=
  destruct mo as [?|], mc as [tag'|], a as [tg|]; cbn [mbind option_bind];
  try (destruct (decide (tg = tag')) as [->|?]; [rewrite decide_True by done|
         rewrite decide_False by congruence]);
  try (rewrite decide_False by done); cbn [mbind option_bind].

Lemma finish_line_step p l :
  events (snd (finish_line p l)) = events l ++ fst (step_line p) /\
  fst (finish_line p l) = snd (step_line p).
Proof.
  unfold finish_line, step_line, opening_tag, closing_tag, line_events. rewrite line_slug_trim.
  destruct p as [sp a d b]. cbn [set_buffer t_specs active_tag line_buffer detect_tag].
  generalize (match_open sp (trim b)) (match_close sp (trim b)). intros mo mc.
  case_tags mo mc a; cbn [fst snd]; rewrite ?events_push_text, ?events_push_segment; done.
Qed.

Lemma parse_char_step p run l ch :
  let '(p', run', l') := parse_char (p, run, l) ch in
  p' = snd (step p ch) /\
  events l' ++ text (active_tag p') run' = events l ++ text (active_tag p) run ++ fst (step p ch).
Proof.
  unfold parse_char, step. destruct (detect_tag p) eqn:Hd.
  - set (l1 := if is_empty run then l else push_text p run l).
    assert (events l1 = events l ++ text (active_tag p) run) as Hl1.
    { unfold l1. destruct (is_empty run) eqn:E; [|apply events_push_text].
      apply is_empty_true in E as ->. cbn. by rewrite app_nil_r. }
    rewrite app_assoc, <- Hl1. clearbody l1. set (p1 := set_buffer _ p).
    destruct (ch =? NL)%N.
    + destruct (finish_line_step p1 l1) as [He Hp]. destruct (finish_line p1 l1) as [q l2].
      cbn in *. rewrite app_nil_r. done.
    + destruct (is_empty _ || _); cbn; [by rewrite !app_nil_r|].
      rewrite events_push_text, app_nil_r. done.
  - destruct (ch =? NL)%N; cbn.
    + rewrite events_push_text, app_nil_r, text_app. done.
    + rewrite text_app. done.
Qed.

Lemma parse_fold s p run l :
  let '(p', run', l') := fold_left parse_char s (p, run, l) in
  p' = snd (steps p s) /\
  events l' ++ text (active_tag p') run' = events l ++ text (active_tag p) run ++ fst (steps p s).
Proof.
  revert p run l. induction s as [|c s IH]; intros p run l; cbn [fold_left steps].
  { split; [done|]. cbn. by rewrite app_nil_r. }
  pose proof (parse_char_step p run l c) as Hc.
  destruct (parse_char (p, run, l) c) as [[p1 run1] l1]. destruct Hc as [-> Hc].
  destruct (step p c) as [e q]. cbn in Hc. specialize (IH q run1 l1).
  destruct (fold_left parse_char s _) as [[p2 run2] l2]. destruct (steps q s) as [es r]. cbn in *.
  destruct IH as [-> IH]. split; [done|]. rewrite IH, app_assoc, Hc. by rewrite <- !app_assoc.
Qed.

Lemma parse_steps s p : events (fst (parse s p)) = fst (steps p s) /\ snd (parse s p) = snd (steps p s).
Proof.
  unfold parse. pose proof (parse_fold s p [] []) as H.
  destruct (fold_left parse_char s _) as [[q run] l]. destruct H as [-> H]. cbn [fst snd] in *.
  split; [|done]. change (events l ++ text (active_tag (snd (steps p s))) run = fst (steps p s)) in H.
  rewrite <- H. destruct (is_empty run) eqn:E; [|by rewrite events_push_text].
  apply is_empty_true in E as ->. by rewrite app_nil_r.
Qed.

Lemma steps_app p s t :
  steps p (s ++ t) =
    let '(e, q) := steps p s in let '(es, r) := steps q t in (e ++ es, r).
Proof.
  revert p. induction s as [|c s IH]; intros p; cbn; [by destruct (steps p t)|].
  destruct (step p c) as [e q]. rewrite IH. destruct (steps q s) as [e1 r].
  destruct (steps r t) as [e2 r2]. by rewrite app_assoc.
Qed.

(** ** A line held back until it is decided *)

Lemma trim_end_prefix s : exists w, s = trim_end s ++ w.
Proof.
  destruct (trim_start_matches_suffix is_whitespace (reverse s)) as (w & Hw & _).
  exists (reverse w). unfold trim_end, trim_end_matches. rewrite <- reverse_app, <- Hw.
  by rewrite reverse_involutive.
Qed.

(** Whatever follows [s], its trimmed part stays at the start. *)
Lemma trim_end_app_prefix s r : exists w, trim_end (s ++ r) = trim_end s ++ w.
Proof.
  induction r as [|c r IH] using rev_ind.
  - rewrite app_nil_r. exists []. by rewrite app_nil_r.
  - rewrite app_assoc. destruct (is_whitespace c) eqn:E.
    + unfold trim_end in *. rewrite trim_end_matches_snoc_true by done. exact IH.
    + unfold trim_end at 1. rewrite trim_end_matches_snoc by done.
      destruct (trim_end_prefix s) as [w Hw]. exists (w ++ r ++ [c]).
      rewrite app_assoc, <- Hw. by rewrite app_assoc.
Qed.

Lemma trim_start_app s r : trim_start s <> [] -> trim_start (s ++ r) = trim_start s ++ r.
Proof.
  unfold trim_start. induction s as [|c s IH]; cbn; [done|]. by destruct (is_whitespace c).
Qed.

(** A line with a start that is no prefix of a tag is not a tag. *)
Lemma not_a_tag specs s r :
  trim_start s <> [] -> is_tag_prefix specs (trim_start s) = false ->
  match_open specs (trim (s ++ r)) = None /\ match_close specs (trim (s ++ r)) = None.
Proof.
  intros Hs Hp. destruct (trim_end_app_prefix (trim_start s) r) as [w Hw].
  assert (trim (s ++ r) = trim_end (trim_start s) ++ w) as Ht
    by (unfold trim; by rewrite trim_start_app).
  assert (forall sp, sp ∈ specs -> t_open sp <> trim (s ++ r) /\ t_close sp <> trim (s ++ r)) as H.
  { intros sp Hin. unfold is_tag_prefix in Hp.
    assert (forall o, starts_with o (trim_end (trim_start s)) = false -> o <> trim (s ++ r)) as Ho.
    { intros o Ho ->. rewrite Ht in Ho.
      assert (starts_with (trim_end (trim_start s) ++ w) (trim_end (trim_start s)) = true)
        by (apply starts_with_spec; eauto). congruence. }
    destruct (starts_with (t_open sp) (trim_end (trim_start s)) ||
              starts_with (t_close sp) (trim_end (trim_start s))) eqn:E.
    - assert (existsb (fun s0 => starts_with (t_open s0) (trim_end (trim_start s)) ||
        starts_with (t_close s0) (trim_end (trim_start s))) specs = true); [|congruence].
      apply existsb_exists. exists sp. split; [by apply list_elem_of_In|done].
    - apply orb_false_iff in E as [E1 E2]. split; by apply Ho. }
  unfold match_open, match_close. split; apply fmap_None.
  all: match goal with |- List.find ?f ?l = None => destruct (List.find f l) as [sp|] eqn:E end; [|done].
  all: apply find_some in E as [Hin E]; apply bool_decide_eq_true in E;
    apply list_elem_of_In in Hin; by destruct (H sp Hin).
Qed.

Lemma line_events_text specs a line :
  match_open specs (trim line) = None -> match_close specs (trim line) = None ->
  line_events specs a line = (text a line, a).
Proof. intros Ho Hc. unfold line_events. by rewrite Ho, Hc. Qed.

(** Inside a line the parser holds it back, or has decided it is text. *)
Lemma steps_in_line specs a s :
  no_char NL s ->
  steps (mkTagged specs a true []) s = ([], mkTagged specs a true s) \/
  steps (mkTagged specs a true []) s = (text a s, mkTagged specs a false []) /\
    forall r, line_events specs a (s ++ r) = (text a (s ++ r), a).
Proof.
  induction s as [|c s IH] using rev_ind; [by left|]. intros [Hs Hc]%no_char_app.
  apply no_char_cons in Hc as [Hc _]. rewrite steps_app.
  destruct (IH Hs) as [->|[-> Htext]]; cbn [steps]; unfold step; cbn [detect_tag].
  - rewrite (proj2 (N.eqb_neq c NL)) by done. cbn [line_buffer set_buffer t_specs active_tag].
    destruct (is_empty (trim_start (s ++ [c])) || is_tag_prefix specs (trim_start (s ++ [c]))) eqn:E;
      [by left|]. right. apply orb_false_iff in E as [E1 E2]. apply is_empty_false in E1.
    split; [cbn; by rewrite app_nil_r|]. intros r.
    destruct (not_a_tag specs (s ++ [c]) r E1 E2). by apply line_events_text.
  - rewrite (proj2 (N.eqb_neq c NL)) by done. right. split.
    + cbn. by rewrite text_app.
    + intros r. rewrite <- app_assoc. apply Htext.
Qed.

Lemma steps_line specs a s :
  no_char NL s ->
  steps (mkTagged specs a true []) (s ++ [NL]) =
    let '(e, a) := line_events specs a (s ++ [NL]) in (e, mkTagged specs a true []).
Proof.
  intros Hs. rewrite steps_app.
  destruct (steps_in_line specs a s Hs) as [->|[-> Htext]]; cbn [steps]; unfold step; cbn [detect_tag].
  - cbn. unfold step_line. cbn. destruct (line_events specs a (s ++ [NL])) as [e b]. cbn.
    by rewrite app_nil_r.
  - rewrite Htext. cbn. by rewrite text_app.
Qed.

(** The end of the text. *)
Definition step_finish p : list (event T) :=
  if is_empty (line_buffer p) then closing (active_tag p)
  else let '(e, a) := line_events (t_specs p) (active_tag p) (line_buffer p) in e ++ closing a.

Lemma finish_step p : events (fst (finish_tagged p)) = step_finish p.
Proof.
  unfold finish_tagged, step_finish. destruct (is_empty (line_buffer p)).
  { destruct (active_tag p); done. }
  rewrite line_slug_trim. unfold opening_tag, closing_tag, line_events. destruct p as [sp a d b].
  cbn [set_buffer t_specs active_tag line_buffer detect_tag].
  generalize (match_open sp (trim b)) (match_close sp (trim b)). intros mo mc.
  case_tags mo mc a; cbn [set_active set_buffer active_tag t_specs detect_tag line_buffer fst closing];
    rewrite ?events_push_segment, ?events_push_text; cbn [app active_tag]; rewrite ?app_nil_r; done.
Qed.

Lemma steps_last specs a s :
  no_char NL s -> s <> [] ->
  let '(e, q) := steps (mkTagged specs a true []) s in
  e ++ step_finish q = let '(e, a) := line_events specs a s in e ++ closing a.
Proof.
  intros Hs Hne. destruct (steps_in_line specs a s Hs) as [->|[-> Htext]].
  - unfold step_finish. cbn. by rewrite (proj2 (is_empty_false s) Hne).
  - specialize (Htext []). rewrite app_nil_r in Htext. rewrite Htext. done.
Qed.

(** The first newline of a text. *)
Lemma first_line (s : str) :
  no_char NL s \/ exists l r, s = l ++ NL :: r /\ no_char NL l.
Proof.
  induction s as [|c s IH]; [left; apply not_elem_of_nil|].
  destruct (decide (c = NL)) as [->|Hc].
  - right. exists [], s. split; [done|apply not_elem_of_nil].
  - destruct IH as [IH|(l & r & -> & Hl)].
    + left. by apply no_char_cons.
    + right. exists (c :: l), r. split; [done|by apply no_char_cons].
Qed.

Lemma steps_document specs a s :
  let '(e, q) := steps (mkTagged specs a true []) s in
  e ++ step_finish q =
    let '(es, a) := lines_events specs a (split_inclusive NL s) in es ++ closing a.
Proof.
  remember (length s) as n eqn:Hn. revert a s Hn.
  induction n as [n IH] using lt_wf_ind. intros a s ->.
  destruct (first_line s) as [Hs|(l & r & -> & Hl)].
  - destruct s as [|c s]; [done|]. rewrite split_inclusive_last by done.
    pose proof (steps_last specs a (c :: s) Hs ltac:(done)) as H.
    destruct (steps _ (c :: s)) as [e q]. rewrite H. cbn.
    destruct (line_events specs a (c :: s)). by rewrite app_nil_r.
  - rewrite split_inclusive_line by done. rewrite (app_assoc l [NL] r : l ++ NL :: r = _).
    rewrite steps_app, steps_line by done. cbn [lines_events].
    destruct (line_events specs a (l ++ [NL])) as [e b].
    assert (length r < length (l ++ NL :: r)) as Hlt by (rewrite length_app; cbn; lia).
    specialize (IH (length r) Hlt b r eq_refl).
    destruct (steps (mkTagged specs b true []) r) as [e1 q].
    destruct (lines_events specs b (split_inclusive NL r)) as [es b'].
    by rewrite <- !app_assoc, IH.
Qed.
End Events.

(** ** The plan parser *)

Definition plan_segment_events (s : ProposedPlanSegment) : list (event PlanTag) :=
  match s with
  | PlanNormal s => text None s
  | ProposedPlanStart => [EStart ProposedPlan]
  | ProposedPlanDelta s => text (Some ProposedPlan) s
  | ProposedPlanEnd => [EEnd ProposedPlan]
  end.

#[export] Instance plan_observation : Observation ProposedPlanSegment :=
  {| obs := event PlanTag; observe := plan_segment_events |}.

(** The text outside of the blocks. *)
Definition outside (es : list (event PlanTag)) : str :=
  omap (fun e => match e with EText None c => Some c | _ => None end) es.

(** The text of the last block, if there is one. *)
Definition plan_event_step (st : option str) (e : event PlanTag) : option str :=
  match e with
  | EStart _ => Some []
  | EText (Some _) c => (fun s => s ++ [c]) <$> st
  | _ => st
  end.
Definition last_block (es : list (event PlanTag)) : option str := fold_left plan_event_step es None.

Lemma outside_app l k : outside (l ++ k) = outside l ++ outside k.
Proof. unfold outside. induction l as [|e l IH]; [done|]. cbn. destruct e as [[?|] ?|?|?]; by rewrite ?IH. Qed.

Lemma outside_text s : outside (text None s) = s.
Proof. induction s as [|c s IH]; [done|]. change (c :: outside (text None s) = c :: s). by rewrite IH. Qed.

Lemma outside_text_in tag s : outside (text (Some tag) s) = [].
Proof. induction s as [|c s IH]; [done|]. exact IH. Qed.

Lemma map_segments_spec l :
  observed (extracted (map_segments l)) = events l /\
  visible_text (map_segments l) = outside (events l).
Proof.
  induction l as [|s l [IHx IHv]] using rev_ind; [done|].
  unfold map_segments in *. rewrite fold_left_app. cbn [fold_left].
  set (out := fold_left _ l empty_chunk) in *. clearbody out. cbn [extracted visible_text].
  rewrite observed_app, IHx, events_snoc, outside_app, <- IHv. split.
  - f_equal. unfold observed. cbn [map concat]. rewrite app_nil_r. by destruct s as [?|[]|[]|[]].
  - destruct s as [?|[]|[] ?|[]]; cbn [map_segment segment_events];
      rewrite ?outside_text, ?outside_text_in; cbn; by rewrite ?app_nil_r.
Qed.

Lemma plan_push_spec s p :
  let '(e, q) := steps (p_parser p) s in
  observed (extracted (fst (plan_push_str s p))) = e /\
  visible_text (fst (plan_push_str s p)) = outside e /\ snd (plan_push_str s p) = mkPlan q.
Proof.
  pose proof (parse_steps s (p_parser p)) as H. unfold plan_push_str.
  destruct (parse s (p_parser p)) as [l q], (steps (p_parser p) s) as [e q']. cbn [fst snd] in *.
  destruct H as [<- ->]. destruct (map_segments_spec l) as [Hx Hv]. done.
Qed.

Lemma plan_finish_spec p :
  observed (extracted (fst (plan_finish p))) = step_finish (p_parser p) /\
  visible_text (fst (plan_finish p)) = outside (step_finish (p_parser p)).
Proof.
  pose proof (finish_step (p_parser p)) as H. unfold plan_finish.
  destruct (finish_tagged (p_parser p)) as [l q]. cbn [fst] in *. rewrite <- H. apply map_segments_spec.
Qed.

#[export] Instance plan_laws : StreamTextLaws ProposedPlanParser ProposedPlanSegment.
Proof.
  refine {| settled p := True |}.
  - done.
  - intros [p] _. done.
  - intros s t p _. cbn [push_str plan_parser].
    pose proof (plan_push_spec s p) as H1. destruct (plan_push_str s p) as [c p1].
    pose proof (plan_push_spec t p1) as H2. destruct (plan_push_str t p1) as [d p2].
    pose proof (plan_push_spec (s ++ t) p) as H3. destruct (plan_push_str (s ++ t) p) as [cd p3].
    rewrite steps_app in H3. destruct (steps (p_parser p) s) as [e1 q1]. cbn [fst snd] in *.
    destruct H1 as (Hx1 & Hv1 & ->). cbn [p_parser] in H2.
    destruct (steps q1 t) as [e2 q2]. destruct H2 as (Hx2 & Hv2 & ->), H3 as (Hx3 & Hv3 & ->).
    split; [|done]. split; cbn [chunk_app visible_text extracted].
    + by rewrite Hv1, Hv2, Hv3, outside_app.
    + by rewrite observed_app, Hx1, Hx2, Hx3.
Defined.

(** Reading a whole text at once. *)
Lemma plan_collect_one s :
  observed (extracted (collect [s] new_plan)) = document PLAN_SPECS s /\
  visible_text (collect [s] new_plan) = outside (document PLAN_SPECS s).
Proof.
  unfold collect. cbn [push_chunks push_str finish plan_parser].
  pose proof (plan_push_spec s new_plan) as H1. destruct (plan_push_str s new_plan) as [c p].
  pose proof (plan_finish_spec p) as H2. destruct (plan_finish p) as [d p']. cbn [fst snd] in *.
  pose proof (steps_document PLAN_SPECS None s) as H3. fold (new_tagged PLAN_SPECS) in H3.
  change (p_parser new_plan) with (new_tagged PLAN_SPECS) in H1.
  destruct (steps (new_tagged PLAN_SPECS) s) as [e q]. destruct H1 as (Hx & Hv & ->), H2 as [Hx' Hv'].
  cbn [p_parser] in *. fold (document PLAN_SPECS s) in H3. rewrite chunk_app_empty_r.
  cbn [chunk_app extracted visible_text].
  by rewrite observed_app, Hx, Hx', Hv, Hv', <- outside_app, <- H3.
Qed.

(** Any chunks give the events of the document. *)
Lemma plan_collect chunks :
  observed (extracted (collect chunks new_plan)) = document PLAN_SPECS (concat chunks) /\
  visible_text (collect chunks new_plan) = outside (document PLAN_SPECS (concat chunks)).
Proof.
  pose proof (collect_concat (P := ProposedPlanParser) (E := ProposedPlanSegment) chunks new_plan)
    as H. destruct (H I) as [-> ->]. apply plan_collect_one.
Qed.

Lemma plan_text_step_events s st :
  let '(b, saw) := plan_text_step st s in
  fold_left plan_event_step (plan_segment_events s) (if snd st then Some (fst st) else None)
  = if saw then Some b else None.
Proof.
  destruct st as [b saw], s as [s| |s|]; cbn; try done.
  - clear. induction s as [|c s IH]; [done|]. exact IH.
  - clear. revert b. induction s as [|c s IH]; intros b; cbn.
    + by rewrite app_nil_r.
    + destruct saw; cbn; [|apply (IH b)]. specialize (IH (b ++ [c])). etransitivity; [exact IH|].
      by rewrite <- app_assoc.
Qed.

Lemma plan_text_events l st :
  let '(b, saw) := fold_left plan_text_step l st in
  fold_left plan_event_step (observed l) (if snd st then Some (fst st) else None)
  = if saw then Some b else None.
Proof.
  revert st. induction l as [|s l IH]; intros st; cbn [fold_left].
  { by destruct st as [b []]. }
  change (observed (s :: l)) with (plan_segment_events s ++ observed l). rewrite fold_left_app.
  pose proof (plan_text_step_events s st) as H. specialize (IH (plan_text_step st s)).
  destruct (plan_text_step st s) as [b saw]. by rewrite H.
Qed.

(** The plan parser implements the line-by-line reading of [document]
    however the text is cut: the payloads amount to its events, the visible
    text to the text outside of the blocks.  The two whole-text functions
    give the text outside of the blocks and the text of the last block.  A
    line held back as a possible tag is never lost or reordered. *)
Theorem plan_parser_correct chunks :
  let doc := document PLAN_SPECS (concat chunks) in
  observed (extracted (collect chunks new_plan)) = doc /\
  visible_text (collect chunks new_plan) = outside doc /\
  strip_proposed_plan_blocks (concat chunks) = outside doc /\
  extract_proposed_plan_text (concat chunks) = last_block doc.
Proof.
  cbv zeta. destruct (plan_collect chunks) as [Hx Hv].
  destruct (plan_collect_one (concat chunks)) as [Hx1 Hv1].
  unfold strip_proposed_plan_blocks, extract_proposed_plan_text, last_block.
  unfold collect in Hx1, Hv1. cbn [push_chunks] in Hx1, Hv1.
  destruct (push_str (concat chunks) new_plan) as [c p].
  rewrite chunk_app_empty_r in Hx1, Hv1. destruct (finish p) as [d p']. cbn [fst] in *.
  split_and!; [done|done|done|].
  pose proof (plan_text_events (extracted c ++ extracted d) ([], false)) as H.
  cbn [chunk_app extracted] in Hx1. rewrite <- Hx1. cbn [fst snd] in H.
  destruct (fold_left plan_text_step _ _) as [b saw]. by rewrite H.
Qed.
