(* ===== verification/AssistantText.v ===== *)
(** * AssistantText: citations and plans in one pass

    [codex-rs/utils/stream-parser/src/assistant_text.rs]: the text of the
    assistant goes through the citation parser and what that shows through
    the plan parser, in plan mode.  The proof only uses what the two parsers
    promise ([StreamTextLaws]) and what they show of a whole text. *)

From S2P Require Import Prelude RustStr StreamText InlineTag TaggedLine.
Open Scope str_scope.

Record AssistantTextChunk := mkAssistantChunk {
  at_visible_text : str;
  citations : list str;
  plan_segments : list ProposedPlanSegment;
}.

Definition assistant_chunk_is_empty (c : AssistantTextChunk) : bool :=
  is_empty (at_visible_text c) && is_empty (citations c) && is_empty (plan_segments c).

Record AssistantTextStreamParser := mkAssistant {
  plan_mode : bool;
  at_citations : CitationStreamParser;
  at_plan : ProposedPlanParser;
}.

Definition new_assistant (plan_mode : bool) : option AssistantTextStreamParser :=
  c ← new_citation; Some (mkAssistant plan_mode c new_plan).

Definition parse_visible_text (visible_text : str) (p : AssistantTextStreamParser) :
    AssistantTextChunk * AssistantTextStreamParser :=
  if plan_mode p then
    let '(plan_chunk, plan) := push_str visible_text (at_plan p) in
    (mkAssistantChunk (StreamText.visible_text plan_chunk) [] (extracted plan_chunk),
     mkAssistant true (at_citations p) plan)
  else (mkAssistantChunk visible_text [] [], p).

Definition set_citations (cs : list str) (c : AssistantTextChunk) : AssistantTextChunk :=
  mkAssistantChunk (at_visible_text c) cs (plan_segments c).

Definition assistant_push_str (chunk : str) (p : AssistantTextStreamParser) :
    AssistantTextChunk * AssistantTextStreamParser :=
  let '(citation_chunk, cit) := push_str chunk (at_citations p) in
  let '(out, p) := parse_visible_text (visible_text citation_chunk)
                     (mkAssistant (plan_mode p) cit (at_plan p)) in
  (set_citations (extracted citation_chunk) out, p).

Definition assistant_finish (p : AssistantTextStreamParser) :
    AssistantTextChunk * AssistantTextStreamParser :=
  let '(citation_chunk, cit) := finish (at_citations p) in
  let '(out, p) := parse_visible_text (visible_text citation_chunk)
                     (mkAssistant (plan_mode p) cit (at_plan p)) in
  let '(out, p) :=
    if plan_mode p then
      let '(tail, plan) := finish (at_plan p) in
      let p := mkAssistant true (at_citations p) plan in
      if chunk_is_empty tail then (out, p)
      else (mkAssistantChunk (at_visible_text out ++ visible_text tail) (citations out)
              (plan_segments out ++ extracted tail), p)
    else (out, p) in
  (set_citations (extracted citation_chunk) out, p).

(** ** The whole stream *)

Definition assistant_app (c d : AssistantTextChunk) : AssistantTextChunk :=
  mkAssistantChunk (at_visible_text c ++ at_visible_text d) (citations c ++ citations d)
    (plan_segments c ++ plan_segments d).

Fixpoint assistant_push_chunks (chunks : list str) (p : AssistantTextStreamParser) :
    AssistantTextChunk * AssistantTextStreamParser :=
  match chunks with
  | [] => (mkAssistantChunk [] [] [], p)
  | s :: chunks =>
      let '(c, p) := assistant_push_str s p in
      let '(d, p) := assistant_push_chunks chunks p in (assistant_app c d, p)
  end.

Definition assistant_collect (chunks : list str) (p : AssistantTextStreamParser) :
    AssistantTextChunk :=
  let '(c, p) := assistant_push_chunks chunks p in
  assistant_app c (fst (assistant_finish p)).

Example assistant_tests :
  let p := mkAssistant true citation_start new_plan in
  assistant_collect [nl "Intro" ++ "<proposed"; nl "_plan>" ++
                     nl "- step <oai-mem-citation>doc</oai-mem-citation>";
                     nl "</proposed_plan>" ++ "Outro"] p
  = mkAssistantChunk (nl "Intro" ++ "Outro") ["doc"]
      [PlanNormal (nl "Intro"); ProposedPlanStart; ProposedPlanDelta (nl "- step ");
       ProposedPlanEnd; PlanNormal "Outro"].
Proof. vm_compute. done. Qed.

(** What the plan parser is fed: the visible pieces of the citation
    parser. *)
Lemma assistant_push_chunks_split chunks p :
  exists vs,
    let '(out, q) := assistant_push_chunks chunks p in
    let '(c, cit) := push_chunks chunks (at_citations p) in
    plan_mode q = plan_mode p /\ at_citations q = cit /\ citations out = extracted c /\
    concat vs = visible_text c /\
    if plan_mode p then
      let '(d, plan) := push_chunks vs (at_plan p) in
      at_plan q = plan /\ at_visible_text out = visible_text d /\ plan_segments out = extracted d
    else at_visible_text out = visible_text c /\ plan_segments out = [].
Proof.
  revert p. induction chunks as [|s chunks IH]; intros [mode cit plan].
  { exists []. cbn. by destruct mode. }
  cbn [assistant_push_chunks push_chunks at_citations plan_mode at_plan].
  unfold assistant_push_str at 1. cbn [at_citations plan_mode at_plan].
  destruct (push_str s cit) as [c0 cit0]. unfold parse_visible_text. cbn [plan_mode at_plan].
  destruct mode.
  - destruct (push_str (visible_text c0) plan) as [d0 plan0] eqn:Hd0.
    destruct (IH (mkAssistant true cit0 plan0)) as [vs H]. exists (visible_text c0 :: vs).
    cbn [at_citations plan_mode at_plan] in *.
    destruct (assistant_push_chunks chunks _) as [out q], (push_chunks chunks cit0) as [c cit1].
    cbn [push_chunks concat]. rewrite Hd0. destruct (push_chunks vs plan0) as [d plan1].
    destruct H as (-> & -> & Hc & Hv & -> & Hvis & Hseg). cbn. by rewrite Hc, Hv, Hvis, Hseg.
  - destruct (IH (mkAssistant false cit0 plan)) as [vs H]. exists (visible_text c0 :: vs).
    cbn [at_citations plan_mode at_plan] in *.
    destruct (assistant_push_chunks chunks _) as [out q], (push_chunks chunks cit0) as [c cit1].
    destruct H as (-> & -> & Hc & Hv & Hvis & Hseg). cbn. by rewrite Hc, Hv, Hvis, Hseg.
Qed.

Lemma chunk_is_empty_true {E} (c : StreamTextChunk E) : chunk_is_empty c = true -> c = empty_chunk.
Proof.
  unfold chunk_is_empty. intros H. bool_hyps. destruct c as [v x]. cbn in *.
  by destruct v, x.
Qed.

Lemma push_chunks_snoc {P E} `{StreamTextParser P E} vs v p :
  push_chunks (vs ++ [v]) p =
    let '(c, q) := push_chunks vs p in let '(d, r) := push_str v q in (chunk_app c d, r).
Proof.
  revert p. induction vs as [|u vs IH]; intros p; cbn.
  - destruct (push_str v p) as [d r]. rewrite chunk_app_empty_r, chunk_app_empty_l. done.
  - destruct (push_str u p) as [c q]. rewrite IH. destruct (push_chunks vs q) as [c' q'].
    destruct (push_str v q') as [d r]. by rewrite chunk_app_assoc.
Qed.

(** The two parsers in sequence. *)
Lemma assistant_collect_split chunks mode cit plan :
  exists vs,
    let out := assistant_collect chunks (mkAssistant mode cit plan) in
    citations out = extracted (collect chunks cit) /\
    concat vs = visible_text (collect chunks cit) /\
    if mode then
      at_visible_text out = visible_text (collect vs plan) /\
      plan_segments out = extracted (collect vs plan)
    else at_visible_text out = visible_text (collect chunks cit) /\ plan_segments out = [].
Proof.
  destruct (assistant_push_chunks_split chunks (mkAssistant mode cit plan)) as [vs H].
  unfold assistant_collect, collect at 1 2 5. cbn [at_citations plan_mode at_plan] in H.
  destruct (assistant_push_chunks chunks _) as [out q], (push_chunks chunks cit) as [c cit1].
  destruct q as [mode' cit' plan']. cbn [plan_mode at_citations at_plan] in H.
  destruct H as (-> & -> & Hc & Hv & H). unfold assistant_finish, parse_visible_text.
  cbn [plan_mode at_citations at_plan]. destruct (finish cit1) as [cf cit2].
  exists (vs ++ [visible_text cf]). rewrite concat_app. cbn [concat fst]. rewrite app_nil_r, Hv.
  destruct mode.
  - unfold collect. rewrite push_chunks_snoc. destruct (push_chunks vs plan) as [d plan1].
    destruct H as (-> & Hvis & Hseg). cbn [plan_mode at_plan].
    destruct (push_str (visible_text cf) plan1) as [df plan2]. cbn [plan_mode at_plan at_citations].
    destruct (finish plan2) as [tail plan3]. destruct (chunk_is_empty tail) eqn:E.
    + apply chunk_is_empty_true in E as ->. cbn. rewrite Hc, Hvis, Hseg, !app_nil_r. done.
    + cbn. rewrite Hc, Hvis, Hseg, <- !app_assoc. done.
  - destruct H as [Hvis Hseg]. cbn. rewrite Hc, Hvis, Hseg. done.
Qed.

(** The citations of a text and the text without them. *)
Definition cited (s v : str) (cs : list str) : Prop :=
  exists x, hidden CITATION_SPECS None s v x /\ cs = map e_content x.

Lemma citation_push_inner chunks inner :
  push_chunks chunks (mkCitation inner) =
    let '(c, q) := push_chunks chunks inner in (citation_chunk c, mkCitation q).
Proof.
  revert inner. induction chunks as [|s chunks IH]; intros inner; [done|].
  cbn [push_chunks push_str citation_parser]. unfold citation_push_str. cbn [c_inner].
  destruct (push_str s inner) as [c q]. rewrite IH. destruct (push_chunks chunks q) as [d r].
  by rewrite citation_chunk_app.
Qed.

Lemma citation_collect chunks :
  cited (concat chunks) (visible_text (collect chunks citation_start))
    (extracted (collect chunks citation_start)).
Proof.
  set (inner := c_inner citation_start).
  pose proof (collect_hidden CITATION_SPECS inner chunks eq_refl eq_refl) as H.
  exists (extracted (collect chunks inner)).
  assert (collect chunks citation_start = citation_chunk (collect chunks inner)) as ->; [|done].
  unfold collect. change citation_start with (mkCitation inner). rewrite citation_push_inner.
  destruct (push_chunks chunks inner) as [c q]. cbn [finish citation_parser].
  unfold citation_finish. cbn [c_inner]. rewrite citation_chunk_app. by destruct (finish q).
Qed.

Lemma cited_det s v v' cs cs' : cited s v cs -> cited s v' cs' -> v = v' /\ cs = cs'.
Proof.
  intros (x & Hx & ->) (x' & Hx' & ->). destruct (hidden_det _ _ _ _ _ _ _ Hx Hx') as [-> ->]. done.
Qed.

(** The pipeline is the composition of the two whole-text readings:
    [new] does not panic, and whatever the chunks, the citations are those of
    the text, and what is shown is the rest of the text, in plan mode without
    its plan blocks, whose events are the plan segments.  A citation or a tag
    line cut by a chunk boundary, and a tag line with a citation inside it,
    change nothing. *)
Theorem assistant_text_correct mode chunks v cs :
  cited (concat chunks) v cs ->
  exists p, new_assistant mode = Some p /\
    let out := assistant_collect chunks p in
    citations out = cs /\
    if mode then at_visible_text out = outside (document PLAN_SPECS v) /\
                 observed (plan_segments out) = document PLAN_SPECS v
    else at_visible_text out = v /\ plan_segments out = [].
Proof.
  intros Hcited. unfold new_assistant. rewrite new_citation_ok. eexists. split; [reflexivity|].
  cbv zeta. destruct (assistant_collect_split chunks mode citation_start new_plan)
    as (vs & Hc & Hvs & H).
  destruct (cited_det _ _ _ _ _ Hcited (citation_collect chunks)) as [Hv Hcs].
  rewrite Hc, Hcs. split; [done|]. destruct mode.
  - destruct H as [-> ->]. destruct (plan_collect vs) as [-> ->]. rewrite Hvs, <- Hv. done.
  - destruct H as [-> ->]. done.
Qed.

Lemma assistant_text_correct_witness :
  let chunks := [nl "Intro" ++ "<proposed"; nl "_plan>" ++ "- step <oai-mem-cit";
                 nl "ation>doc</oai-mem-citation>" ++ nl "</proposed_plan>" ++ "Outro"] in
  let v := nl "Intro" ++ nl "<proposed_plan>" ++ nl "- step " ++ nl "</proposed_plan>" ++ "Outro" in
  exists p, new_assistant true = Some p /\
    citations (assistant_collect chunks p) = ["doc"] /\
    at_visible_text (assistant_collect chunks p) = nl "Intro" ++ "Outro".
Proof.
  cbv zeta.
  match goal with |- exists p, _ /\ citations (assistant_collect ?chunks p) = _ /\ _ =>
    destruct (assistant_text_correct true chunks _ _ (citation_collect chunks)) as (p & Hp & Hc & Hv & _)
  end.
  exists p. split; [exact Hp|]. split.
  - etransitivity; [exact Hc|vm_compute; reflexivity].
  - etransitivity; [exact Hv|vm_compute; reflexivity].
Defined.
