(* ===== verification/Utf8.v ===== *)
(** * Utf8: encoding and validating UTF-8

    [std::str::from_utf8] of the Rust standard library, which
    [codex-rs/utils/stream-parser] calls on the bytes of a stream, with the
    two numbers of its error.  A [u8] is a number below 256. *)

From S2P Require Import Prelude RustStr.
#[local] Open Scope N_scope.

Abbreviation u8 := N (only parsing).

(** [char]: a scalar value is no surrogate and at most [0x10FFFF]. *)
Definition is_scalar (c : char) : Prop := c < 55296 \/ 57344 <= c < 1114112.
#[export] Instance is_scalar_dec c : Decision (is_scalar c).
Proof. unfold is_scalar. apply _. Defined.

Definition encode_char (c : char) : list u8 :=
  if c <? 128 then [c]
  else if c <? 2048 then [192 + c / 64; 128 + c mod 64]
  else if c <? 65536 then [224 + c / 4096; 128 + (c / 64) mod 64; 128 + c mod 64]
  else [240 + c / 262144; 128 + (c / 4096) mod 64; 128 + (c / 64) mod 64; 128 + c mod 64].
Definition encode (s : str) : list u8 := concat (map encode_char s).

(** How the valid prefix ends: with the text, in the middle of a char, or
    with a sequence of [error_len] bytes that no char starts with. *)
Inductive utf8_end := Complete | Truncated | Malformed (error_len : nat).

Definition within (lo hi b : N) : bool := (lo <=? b) && (b <=? hi).
Definition cont (b : u8) : bool := within 128 191 b.

(** The second bytes of a sequence of three and of four. *)
Definition second3 (b0 b1 : u8) : bool :=
  if b0 =? 224 then within 160 191 b1
  else if b0 =? 237 then within 128 159 b1
  else cont b1.
Definition second4 (b0 b1 : u8) : bool :=
  if b0 =? 240 then within 144 191 b1
  else if b0 =? 244 then within 128 143 b1
  else cont b1.

Definition char2 (b0 b1 : u8) : char := (b0 - 192) * 64 + (b1 - 128).
Definition char3 (b0 b1 b2 : u8) : char := ((b0 - 224) * 64 + (b1 - 128)) * 64 + (b2 - 128).
Definition char4 (b0 b1 b2 b3 : u8) : char :=
  (((b0 - 240) * 64 + (b1 - 128)) * 64 + (b2 - 128)) * 64 + (b3 - 128).

Definition put (c : char) (r : str * utf8_end) : str * utf8_end := (c :: fst r, snd r).

Fixpoint decode (b : list u8) : str * utf8_end :=
  match b with
  | [] => ([], Complete)
  | b0 :: r0 =>
      if b0 <? 128 then put b0 (decode r0)
      else if within 194 223 b0 then
        match r0 with
        | [] => ([], Truncated)
        | b1 :: r1 => if cont b1 then put (char2 b0 b1) (decode r1) else ([], Malformed 1)
        end
      else if within 224 239 b0 then
        match r0 with
        | [] => ([], Truncated)
        | b1 :: r1 =>
            if second3 b0 b1 then
              match r1 with
              | [] => ([], Truncated)
              | b2 :: r2 => if cont b2 then put (char3 b0 b1 b2) (decode r2) else ([], Malformed 2)
              end
            else ([], Malformed 1)
        end
      else if within 240 244 b0 then
        match r0 with
        | [] => ([], Truncated)
        | b1 :: r1 =>
            if second4 b0 b1 then
              match r1 with
              | [] => ([], Truncated)
              | b2 :: r2 =>
                  if cont b2 then
                    match r2 with
                    | [] => ([], Truncated)
                    | b3 :: r3 =>
                        if cont b3 then put (char4 b0 b1 b2 b3) (decode r3) else ([], Malformed 3)
                    end
                  else ([], Malformed 2)
              end
            else ([], Malformed 1)
        end
      else ([], Malformed 1)
  end.

Record Utf8Error := mkUtf8Error { valid_up_to : nat; error_len : option nat }.

Definition from_utf8 (b : list u8) : result Utf8Error str :=
  match decode b with
  | (s, Complete) => Ok s
  | (s, Truncated) => Err (mkUtf8Error (byte_len s) None)
  | (s, Malformed n) => Err (mkUtf8Error (byte_len s) (Some n))
  end.

Example from_utf8_tests :
  from_utf8 [65; 195; 169; 228; 184; 173; 240; 159; 146; 169] = Ok [65; 233; 20013; 128169] /\
  from_utf8 [195; 40] = Err (mkUtf8Error 0 (Some 1%nat)) /\
  from_utf8 [111; 107; 255] = Err (mkUtf8Error 2 (Some 1%nat)) /\
  from_utf8 [226; 130] = Err (mkUtf8Error 0 None) /\
  from_utf8 [237; 160; 128] = Err (mkUtf8Error 0 (Some 1%nat)) /\
  encode [65; 233; 20013; 128169] = [65; 195; 169; 228; 184; 173; 240; 159; 146; 169].
Proof. vm_compute. done. Qed.

(** ** Facts *)

(** Decide every comparison of bytes in the goal. *)
#[local] Ltac byte_cases :=
  unfold second3, second4, cont, within in *;
  repeat match goal with
  | |- context [?a <? ?b] => destruct (N.ltb_spec a b); try lia
  | |- context [?a <=? ?b] => destruct (N.leb_spec a b); try lia
  | |- context [?a =? ?b] => destruct (N.eqb_spec a b); try lia
  end.

Lemma length_encode_char c : length (encode_char c) = len_utf8 c.
Proof. unfold encode_char, len_utf8. repeat case_match; done. Qed.

Lemma encode_app s t : encode (s ++ t) = encode s ++ encode t.
Proof. unfold encode. by rewrite map_app, concat_app. Qed.

Lemma length_encode s : length (encode s) = byte_len s.
Proof.
  induction s as [|c s IH]; [done|]. unfold encode, byte_len in *. cbn.
  rewrite length_app, length_encode_char. cbn in *. by rewrite IH.
Qed.

(** The digits of a number in base 64. *)
Lemma base64 c : exists q m, c / 64 = q /\ c mod 64 = m /\ c = 64 * q + m /\ m < 64.
Proof.
  exists (c / 64), (c mod 64). split_and!; [done|done|apply N.div_mod'|apply N.mod_lt; done].
Qed.

Lemma div_4096 c : c / 4096 = c / 64 / 64.
Proof. by rewrite N.Div0.div_div. Qed.
Lemma div_262144 c : c / 262144 = c / 64 / 64 / 64.
Proof. by rewrite !N.Div0.div_div. Qed.

Lemma decode_encode_char c r : is_scalar c -> decode (encode_char c ++ r) = put c (decode r).
Proof.
  unfold is_scalar, encode_char. rewrite div_4096, div_262144. intros Hc.
  destruct (base64 c) as (q & m & -> & -> & -> & Hm).
  destruct (base64 q) as (q1 & m1 & -> & -> & -> & Hm1).
  destruct (base64 q1) as (q2 & m2 & -> & -> & -> & Hm2).
  destruct (N.ltb_spec (64 * (64 * (64 * q2 + m2) + m1) + m) 128);
    [|destruct (N.ltb_spec (64 * (64 * (64 * q2 + m2) + m1) + m) 2048);
      [|destruct (N.ltb_spec (64 * (64 * (64 * q2 + m2) + m1) + m) 65536)]];
    cbn [app decode]; byte_cases; cbn [andb]; f_equal; unfold char2, char3, char4; lia.
Qed.

Lemma decode_encode s r :
  Forall is_scalar s -> decode (encode s ++ r) = (s ++ fst (decode r), snd (decode r)).
Proof.
  induction 1 as [|c s Hc Hs IH]; [apply surjective_pairing|].
  change (encode (c :: s)) with (encode_char c ++ encode s). rewrite <- app_assoc.
  rewrite decode_encode_char by done. by rewrite IH.
Qed.

Lemma digit64 a b : b < 64 -> (a * 64 + b) / 64 = a /\ (a * 64 + b) mod 64 = b.
Proof.
  intros Hb. rewrite (N.add_comm (a * 64) b). split.
  - rewrite N.div_add, N.div_small by lia. lia.
  - rewrite N.Div0.mod_add, N.mod_small by lia. lia.
Qed.

(** The bytes of a decoded char are its encoding. *)
Lemma encode_char2 b0 b1 : within 194 223 b0 = true -> cont b1 = true ->
  is_scalar (char2 b0 b1) /\ encode_char (char2 b0 b1) = [b0; b1].
Proof.
  unfold cont, within. intros H0 H1. bool_hyps. rewrite !N.leb_le in *.
  unfold char2, is_scalar, encode_char. set (c := (b0 - 192) * 64 + (b1 - 128)).
  destruct (digit64 (b0 - 192) (b1 - 128)) as [Hq Hm]; [lia|]. fold c in Hq, Hm. rewrite Hq, Hm.
  assert (128 <= c < 2048) as Hc by (unfold c; lia). split; [lia|].
  rewrite (proj2 (N.ltb_ge c 128)), (proj2 (N.ltb_lt c 2048)) by lia. repeat f_equal; lia.
Qed.

Lemma encode_char3 b0 b1 b2 :
  within 224 239 b0 = true -> second3 b0 b1 = true -> cont b2 = true ->
  is_scalar (char3 b0 b1 b2) /\ encode_char (char3 b0 b1 b2) = [b0; b1; b2].
Proof.
  unfold char3, is_scalar, encode_char. rewrite div_4096. intros H0 H1 H2.
  assert (224 <= b0 <= 239 /\ 128 <= b1 <= 191 /\ 128 <= b2 <= 191 /\
    (b0 = 224 -> 160 <= b1) /\ (b0 = 237 -> b1 <= 159)) as Hr.
  { unfold second3, cont, within in *. destruct (N.eqb_spec b0 224), (N.eqb_spec b0 237); bool_hyps;
      rewrite !N.leb_le in *; lia. }
  clear H0 H1 H2. set (d := (b0 - 224) * 64 + (b1 - 128)). set (c := d * 64 + (b2 - 128)).
  destruct (digit64 d (b2 - 128)) as [Hq Hm]; [lia|]. fold c in Hq, Hm.
  destruct (digit64 (b0 - 224) (b1 - 128)) as [Hq1 Hm1]; [lia|]. fold d in Hq1, Hm1.
  rewrite Hq, Hm, Hq1, Hm1.
  assert (2048 <= c < 65536 /\ (c < 55296 \/ 57344 <= c)) as [Hc Hs] by (unfold c, d; lia).
  split; [lia|]. rewrite (proj2 (N.ltb_ge c 128)), (proj2 (N.ltb_ge c 2048)) by lia.
  rewrite (proj2 (N.ltb_lt c 65536)) by lia. repeat f_equal; lia.
Qed.

Lemma encode_char4 b0 b1 b2 b3 :
  within 240 244 b0 = true -> second4 b0 b1 = true -> cont b2 = true -> cont b3 = true ->
  is_scalar (char4 b0 b1 b2 b3) /\ encode_char (char4 b0 b1 b2 b3) = [b0; b1; b2; b3].
Proof.
  unfold char4, is_scalar, encode_char. rewrite div_4096, div_262144. intros H0 H1 H2 H3.
  assert (240 <= b0 <= 244 /\ 128 <= b1 <= 191 /\ 128 <= b2 <= 191 /\ 128 <= b3 <= 191 /\
    (b0 = 240 -> 144 <= b1) /\ (b0 = 244 -> b1 <= 143)) as Hr.
  { unfold second4, cont, within in *. destruct (N.eqb_spec b0 240), (N.eqb_spec b0 244); bool_hyps;
      rewrite !N.leb_le in *; lia. }
  clear H0 H1 H2 H3. set (d1 := (b0 - 240) * 64 + (b1 - 128)).
  set (d := d1 * 64 + (b2 - 128)). set (c := d * 64 + (b3 - 128)).
  destruct (digit64 d (b3 - 128)) as [Hq Hm]; [lia|]. fold c in Hq, Hm.
  destruct (digit64 d1 (b2 - 128)) as [Hq1 Hm1]; [lia|]. fold d in Hq1, Hm1.
  destruct (digit64 (b0 - 240) (b1 - 128)) as [Hq2 Hm2]; [lia|]. fold d1 in Hq2, Hm2.
  rewrite Hq, Hm, Hq1, Hm1, Hq2, Hm2.
  assert (65536 <= c < 1114112) as Hc by (unfold c, d, d1; lia).
  split; [lia|].
  rewrite (proj2 (N.ltb_ge c 128)), (proj2 (N.ltb_ge c 2048)), (proj2 (N.ltb_ge c 65536)) by lia.
  repeat f_equal; lia.
Qed.

(** The three ways a decoding starts: the end, a char, or a stop. *)
Lemma decode_cases b :
  b = [] \/
  (exists c r, is_scalar c /\ b = encode_char c ++ r /\ decode b = put c (decode r)) \/
  (b <> [] /\ exists e, decode b = ([], e) /\ e <> Complete).
Proof.
  destruct b as [|b0 r0]; [by left|]. right. cbn [decode].
  destruct (N.ltb_spec b0 128).
  { left. exists b0, r0. split_and!; [unfold is_scalar; lia| |done].
    unfold encode_char. by rewrite (proj2 (N.ltb_lt b0 128)). }
  destruct (within 194 223 b0) eqn:H2.
  { destruct r0 as [|b1 r1]; [right; eauto|]. destruct (cont b1) eqn:Hc; [|right; eauto].
    left. destruct (encode_char2 b0 b1 H2 Hc) as [Hs He]. exists (char2 b0 b1), r1. by rewrite He. }
  destruct (within 224 239 b0) eqn:H3.
  { destruct r0 as [|b1 r1]; [right; eauto|]. destruct (second3 b0 b1) eqn:Hc1; [|right; eauto].
    destruct r1 as [|b2 r2]; [right; eauto|]. destruct (cont b2) eqn:Hc2; [|right; eauto].
    left. destruct (encode_char3 b0 b1 b2 H3 Hc1 Hc2) as [Hs He].
    exists (char3 b0 b1 b2), r2. by rewrite He. }
  destruct (within 240 244 b0) eqn:H4; [|right; eauto].
  destruct r0 as [|b1 r1]; [right; eauto|]. destruct (second4 b0 b1) eqn:Hc1; [|right; eauto].
  destruct r1 as [|b2 r2]; [right; eauto|]. destruct (cont b2) eqn:Hc2; [|right; eauto].
  destruct r2 as [|b3 r3]; [right; eauto|]. destruct (cont b3) eqn:Hc3; [|right; eauto].
  left. destruct (encode_char4 b0 b1 b2 b3 H4 Hc1 Hc2 Hc3) as [Hs He].
  exists (char4 b0 b1 b2 b3), r3. by rewrite He.
Qed.

(** The decoded prefix is encoded by the bytes consumed; the rest starts no
    char. *)
Lemma decode_spec b :
  Forall is_scalar (fst (decode b)) /\
  b = encode (fst (decode b)) ++ drop (byte_len (fst (decode b))) b /\
  decode (drop (byte_len (fst (decode b))) b) = ([], snd (decode b)) /\
  (snd (decode b) = Complete <-> drop (byte_len (fst (decode b))) b = []).
Proof.
  remember (length b) as n eqn:Hn. revert b Hn. induction n as [n IH] using lt_wf_ind. intros b ->.
  destruct (decode_cases b) as [->|[(c & r & Hc & Hb & Hd)|(Hne & e & Hd & He)]].
  - cbn. done.
  - assert (length r < length b)%nat as Hlt.
    { rewrite Hb, length_app, length_encode_char. pose proof (len_utf8_pos c). lia. }
    destruct (IH _ Hlt r eq_refl) as (IH1 & IH2 & IH3 & IH4).
    rewrite Hd. cbn [fst snd put]. destruct (decode r) as [s e]. cbn [fst snd] in *.
    change (encode (c :: s)) with (encode_char c ++ encode s).
    change (byte_len (c :: s)) with (len_utf8 c + byte_len s)%nat.
    assert (drop (len_utf8 c + byte_len s) b = drop (byte_len s) r) as ->.
    { rewrite Hb, drop_app_ge by (rewrite length_encode_char; lia). f_equal.
      rewrite length_encode_char. lia. }
    split_and!; [by constructor|by rewrite <- app_assoc, <- IH2|done|done..].
  - rewrite Hd. cbn [fst snd]. change (byte_len []) with 0%nat. rewrite drop_0.
    split_and!; [constructor|done|done|]. intuition congruence.
Qed.

(** Bytes that no char starts with stay so. *)
Lemma decode_malformed_app b n x : decode b = ([], Malformed n) -> decode (b ++ x) = ([], Malformed n).
Proof.
  intros H. destruct b as [|b0 r0]; [done|]. cbn [decode app] in *.
  repeat (case_match; cbn [app] in *; try done; try congruence).
Qed.

Lemma from_utf8_encode s : Forall is_scalar s -> from_utf8 (encode s) = Ok s.
Proof.
  intros Hs. unfold from_utf8. rewrite <- (app_nil_r (encode s)), decode_encode by done. cbn.
  by rewrite app_nil_r.
Qed.
