(* ===== verification/Utf8Stream.v ===== *)
(** * Utf8Stream: bytes in front of a text parser

    [codex-rs/utils/stream-parser/src/utf8_stream.rs]: chunks of bytes are
    decoded for an inner parser, of which only the contract
    ([StreamTextLaws]) is used; the bytes of an unfinished char wait for the
    next chunk. *)

From S2P Require Import Prelude RustStr StreamText Utf8 InlineTag.

Inductive Utf8StreamParserError :=
| InvalidUtf8 (valid_up_to error_len : nat)
| IncompleteUtf8AtEof.

Record Utf8StreamParser (P : Type) := mkUtf8 { inner : P; pending_utf8 : list u8 }.
Arguments mkUtf8 {P}.
Arguments inner {P}.
Arguments pending_utf8 {P}.

Section Parser.
Context {P E : Type} `{StreamTextParser P E}.

Definition new_utf8 (inner : P) : Utf8StreamParser P := mkUtf8 inner [].

Definition push_bytes (chunk : list u8) (p : Utf8StreamParser P) :
    result Utf8StreamParserError (StreamTextChunk E) * Utf8StreamParser P :=
  let pending := pending_utf8 p ++ chunk in
  match from_utf8 pending with
  | Ok text => let '(out, q) := push_str text (inner p) in (Ok out, mkUtf8 q [])
  | Err err =>
      match error_len err with
      | Some n => (Err (InvalidUtf8 (valid_up_to err) n), mkUtf8 (inner p) (pending_utf8 p))
      | None =>
          let n := valid_up_to err in
          if (n =? 0)%nat then (Ok empty_chunk, mkUtf8 (inner p) pending)
          else match from_utf8 (take n pending) with
               | Ok text =>
                   let '(out, q) := push_str text (inner p) in (Ok out, mkUtf8 q (drop n pending))
               | Err prefix_err =>
                   (Err (InvalidUtf8 (valid_up_to prefix_err) (default 0 (error_len prefix_err))),
                    mkUtf8 (inner p) (pending_utf8 p))
               end
      end
  end.

(** The error of undecoded bytes, in [finish] and [into_inner]. *)
Definition pending_error (b : list u8) : option Utf8StreamParserError :=
  if is_empty b then None
  else match from_utf8 b with
       | Ok _ => None
       | Err err =>
           match error_len err with
           | Some n => Some (InvalidUtf8 (valid_up_to err) n)
           | None => Some IncompleteUtf8AtEof
           end
       end.

Definition finish_utf8 (p : Utf8StreamParser P) :
    result Utf8StreamParserError (StreamTextChunk E) * Utf8StreamParser P :=
  match pending_error (pending_utf8 p) with
  | Some e => (Err e, p)
  | None =>
      let flushed :=
        if is_empty (pending_utf8 p) then Ok (empty_chunk, p)
        else match from_utf8 (pending_utf8 p) with
             | Ok text =>
                 let '(out, q) := push_str text (inner p) in Ok (out, mkUtf8 q [])
             | Err err => Err (InvalidUtf8 (valid_up_to err) (default 0 (error_len err)))
             end in
      match flushed with
      | Err e => (Err e, p)
      | Ok (out, p) =>
          let '(tail, q) := finish (inner p) in
          (Ok (chunk_app out tail), mkUtf8 q (pending_utf8 p))
      end
  end.

Definition into_inner (p : Utf8StreamParser P) : result Utf8StreamParserError P :=
  match pending_error (pending_utf8 p) with Some e => Err e | None => Ok (inner p) end.
Definition into_inner_lossy (p : Utf8StreamParser P) : P := inner p.

(** Push every chunk and flush, up to the first error. *)
Fixpoint push_byte_chunks (chunks : list (list u8)) (p : Utf8StreamParser P) :
    result Utf8StreamParserError (StreamTextChunk E * Utf8StreamParser P) :=
  match chunks with
  | [] => Ok (empty_chunk, p)
  | b :: chunks =>
      match push_bytes b p with
      | (Err e, _) => Err e
      | (Ok c, p) =>
          match push_byte_chunks chunks p with
          | Err e => Err e
          | Ok (d, p) => Ok (chunk_app c d, p)
          end
      end
  end.

Definition collect_bytes (chunks : list (list u8)) (p : Utf8StreamParser P) :
    result Utf8StreamParserError (StreamTextChunk E) :=
  match push_byte_chunks chunks p with
  | Err e => Err e
  | Ok (c, p) => match fst (finish_utf8 p) with Err e => Err e | Ok d => Ok (chunk_app c d) end
  end.
End Parser.

Example utf8_stream_tests :
  let p := new_utf8 citation_start in
  collect_bytes [[65; 195]; [169]; [228; 184]; [173; 90]]%N p
    = Ok (mkTextChunk [65; 233; 20013; 90]%N []) /\
  fst (push_bytes [111; 107; 255]%N p) = Err (InvalidUtf8 2 1) /\
  collect_bytes [[226; 130]]%N p = Err IncompleteUtf8AtEof.
Proof. vm_compute. done. Qed.

(** ** Correctness *)

Section Correct.
Context {P E : Type} `{StreamTextLaws P E}.

(** After the bytes [b], pushed without an error: the inner parser has the
    decoded text, the rest waits. *)
Definition decoded (p0 : P) (b : list u8) (out : StreamTextChunk E) (p : Utf8StreamParser P) : Prop :=
  let s := fst (decode b) in
  (forall n, snd (decode b) <> Malformed n) /\
  pending_utf8 p = drop (byte_len s) b /\
  inner p = snd (push_str s p0) /\ out ≡ fst (push_str s p0).

(** The decoding of a longer stream goes on from what waits. *)
Lemma decode_more b x :
  decode (b ++ x) =
    let s := fst (decode b) in
    let r := decode (drop (byte_len s) b ++ x) in (s ++ fst r, snd r).
Proof.
  cbv zeta. destruct (decode_spec b) as (Hs & Hb & _). rewrite Hb at 1.
  rewrite <- app_assoc. by apply decode_encode.
Qed.

Lemma byte_len_0 s : byte_len s = 0 -> s = [].
Proof. intros Hs. pose proof (byte_len_ge_length s). destruct s; [done|cbn in *; lia]. Qed.

(** Feeding the inner parser the rest of the text. *)
Lemma push_more p0 s t out :
  settled p0 -> out ≡ fst (push_str s p0) ->
  let '(d, q) := push_str t (snd (push_str s p0)) in
  chunk_app out d ≡ fst (push_str (s ++ t) p0) /\ q = snd (push_str (s ++ t) p0).
Proof.
  intros Hp Hout. pose proof (push_app s t p0 Hp) as Happ.
  destruct (push_str s p0) as [c p1]. cbn [fst snd] in *. destruct (push_str t p1) as [d q].
  destruct Happ as [Hc Hq]. split; [|done]. by rewrite Hout, Hc.
Qed.

Lemma push_bytes_step p0 b out p x :
  settled p0 -> decoded p0 b out p ->
  match push_bytes x p with
  | (Ok c, q) => decoded p0 (b ++ x) (chunk_app out c) q
  | (Err e, q) => q = p /\ exists k n, e = InvalidUtf8 k n /\
      snd (decode (b ++ x)) = Malformed n
  end.
Proof.
  intros Hp (Hb & Hpend & Hin & Hout). unfold push_bytes. rewrite Hpend, Hin.
  pose proof (decode_more b x) as Hd. cbv zeta in Hd. set (s := fst (decode b)) in *.
  set (r := drop (byte_len s) b ++ x) in *.
  destruct (decode_spec r) as (Hs' & Hr & Hrest & Hcomp).
  unfold from_utf8 at 1. destruct (decode r) as [s' e] eqn:Er. cbn [fst snd] in *.
  destruct e as [| |n]; cbn [error_len valid_up_to].
  - pose proof (push_more p0 s s' out Hp Hout) as Hm.
    destruct (push_str s' (snd (push_str s p0))) as [d q]. destruct Hm as [Hc ->].
    unfold decoded. rewrite Hd. cbn [fst snd pending_utf8 inner]. split; [done|split; [|split; [done|exact Hc]]].
    rewrite byte_len_app, <- drop_drop. fold s.
    rewrite drop_app_le by (destruct (decode_spec b) as (_ & Hb' & _); rewrite Hb', length_app, length_encode; fold s; lia).
    fold r. symmetry. by apply Hcomp.
  - destruct (Nat.eqb_spec (byte_len s') 0) as [Hz|Hz].
    + apply byte_len_0 in Hz as ->. unfold decoded. rewrite Hd. cbn [fst snd pending_utf8 inner].
      rewrite app_nil_r, chunk_app_empty_r. split; [done|split; [|split; [done|exact Hout]]].
      unfold r. rewrite drop_app_le; [done|].
      destruct (decode_spec b) as (_ & Hb' & _). rewrite Hb', length_app, length_encode. fold s. lia.
    + assert (take (byte_len s') r = encode s') as ->.
      { rewrite Hr, take_app_le by (rewrite length_encode; lia).
        apply take_ge. rewrite length_encode. lia. }
      rewrite from_utf8_encode by done.
      pose proof (push_more p0 s s' out Hp Hout) as Hm.
      destruct (push_str s' (snd (push_str s p0))) as [d q]. destruct Hm as [Hc ->].
      unfold decoded. rewrite Hd. cbn [fst snd pending_utf8 inner]. split; [done|split; [|split; [done|exact Hc]]].
      rewrite byte_len_app, <- drop_drop.
      rewrite (drop_app_le b) by (destruct (decode_spec b) as (_ & Hb' & _); rewrite Hb', length_app, length_encode; fold s; lia).
      done.
  - split; [by destruct p; cbn in *; subst|]. exists (byte_len s'), n. split; [done|]. by rewrite Hd.
Qed.

(** A chunk that makes the stream invalid makes all of it invalid. *)
Lemma malformed_stays b n x : snd (decode b) = Malformed n -> snd (decode (b ++ x)) = Malformed n.
Proof.
  intros Hn. destruct (decode_spec b) as (_ & _ & Hrest & _). rewrite Hn in Hrest.
  rewrite decode_more. cbn [snd]. by rewrite (decode_malformed_app _ n x Hrest).
Qed.

Lemma push_byte_chunks_spec p0 b out p chunks :
  settled p0 -> decoded p0 b out p ->
  match push_byte_chunks chunks p with
  | Ok (c, q) => decoded p0 (b ++ concat chunks) (chunk_app out c) q
  | Err e => exists k n, e = InvalidUtf8 k n /\ snd (decode (b ++ concat chunks)) = Malformed n
  end.
Proof.
  intros Hp. revert b out p. induction chunks as [|x chunks IH]; intros b out p Hd;
    cbn [push_byte_chunks concat].
  { by rewrite app_nil_r, chunk_app_empty_r. }
  pose proof (push_bytes_step p0 b out p x Hp Hd) as Hx. destruct (push_bytes x p) as [[c|e] q].
  - specialize (IH _ _ _ Hx). rewrite <- app_assoc in IH.
    destruct (push_byte_chunks chunks q) as [[d r]|e]; [|done]. by rewrite chunk_app_assoc.
  - destruct Hx as (_ & k & n & -> & Hn). exists k, n. split; [done|].
    rewrite app_assoc. by apply malformed_stays.
Qed.

Lemma decoded_start p0 : settled p0 -> decoded p0 [] empty_chunk (new_utf8 p0).
Proof.
  intros Hp. unfold decoded. cbn. rewrite (push_nil p0 Hp). done.
Qed.
End Correct.

(** Any chunking of a valid byte stream gives the inner parser's result on
    the decoded text, even when a char is cut; a stream that is not UTF-8
    ends in an error: the invalid sequence's length is reported, and an
    unfinished last char is [IncompleteUtf8AtEof].  A push that fails rolls
    the whole chunk back, so the caller can go on from the state before. *)
Theorem utf8_stream_correct {P E : Type} `{StreamTextLaws P E} (p0 : P) chunks :
  settled p0 ->
  match from_utf8 (concat chunks), collect_bytes chunks (new_utf8 p0) with
  | Ok s, Ok out => out ≡ collect [s] p0
  | Err err, Err e =>
      match error_len err with
      | Some n => exists k, e = InvalidUtf8 k n
      | None => e = IncompleteUtf8AtEof
      end
  | _, _ => False
  end /\
  forall q bytes e, fst (push_bytes bytes q) = Err e -> snd (push_bytes bytes q) = q.
Proof.
  intros Hp. split.
  - pose proof (push_byte_chunks_spec p0 [] empty_chunk (new_utf8 p0) chunks Hp (decoded_start p0 Hp))
      as Hall.
    cbn [app] in Hall. set (b := concat chunks) in *. unfold collect_bytes, from_utf8.
    destruct (decode_spec b) as (_ & _ & Hrest & Hcomp).
    destruct (push_byte_chunks chunks (new_utf8 p0)) as [[c q]|e].
    + destruct Hall as (Hok & Hpend & Hin & Hout). destruct (decode b) as [s e]. cbn [fst snd] in *.
      unfold finish_utf8, pending_error. rewrite Hpend.
      destruct e as [| |n]; [| |by destruct (Hok n)].
      * rewrite (proj1 Hcomp eq_refl). cbn [is_empty]. rewrite Hin.
        rewrite chunk_app_empty_l in Hout. unfold collect. cbn [push_chunks].
        destruct (push_str s p0) as [d p1]. cbn [fst snd] in *.
        destruct (finish p1) as [tail p2]. cbn [fst].
        by rewrite chunk_app_empty_l, chunk_app_empty_r, Hout.
      * assert (is_empty (drop (byte_len s) b) = false) as ->.
        { apply is_empty_false. intros Hz. apply Hcomp in Hz. done. }
        unfold from_utf8. rewrite Hrest. done.
    + destruct Hall as (k & n & -> & Hn). destruct (decode b) as [s e]. cbn [snd] in Hn. subst e.
      cbn. eauto.
  - intros q bytes e. unfold push_bytes. destruct q as [i pend].
    destruct (from_utf8 _) as [text|err]; cbn [inner pending_utf8];
      [by destruct (push_str text i)|].
    destruct (error_len err); [done|]. destruct (_ =? 0)%nat; [done|].
    destruct (from_utf8 (take _ _)) as [text|perr]; [by destruct (push_str text i)|done].
Qed.

Definition sample_text : str := [65; 233; 60; 111; 20013]%N.
Definition sample_bytes : list (list u8) := [[65; 195]; [169; 60]; [111; 228; 184]; [173]]%N.

Lemma utf8_stream_correct_witness :
  settled citation_start /\
  exists out, collect_bytes sample_bytes (new_utf8 citation_start) = Ok out /\
    out ≡ collect [sample_text] citation_start.
Proof.
  split; [exact citation_settled|].
  pose proof (utf8_stream_correct (P := CitationStreamParser) (E := str)
    citation_start sample_bytes citation_settled) as [H _].
  assert (from_utf8 (concat sample_bytes) = Ok sample_text) as Hs by (vm_compute; reflexivity).
  rewrite Hs in H. destruct (collect_bytes sample_bytes _) as [out|e]; [|destruct H].
  exists out. split; [reflexivity|exact H].
Defined.
