(* ===== verification/Truncate.v ===== *)
(** * Truncate: shortening long outputs in the middle

    [codex-rs/utils/string/src/truncate.rs] and
    [codex-rs/utils/output-truncation/src/lib.rs], with the policy and the
    content items of [codex-rs/protocol].  Sizes are [usize] numbers; a slice
    that is not at a char boundary would panic, which is [None] here and does
    not happen ([truncate_correct]). *)

From Stdlib Require Import Init.Decimal.
From S2P Require Import Prelude RustStr.
Open Scope str_scope.

(** ** Strings by bytes *)

Definition blen (s : str) : N := N.of_nat (byte_len s).

(** [(&s[..n], &s[n..])]: [None] when [n] is no char boundary. *)
Fixpoint split_at_byte (n : N) (s : str) : option (str * str) :=
  if (n =? 0)%N then Some ([], s)
  else match s with
       | [] => None
       | c :: s =>
           let w := N.of_nat (len_utf8 c) in
           if (n <? w)%N then None
           else '(a, b) ← split_at_byte (n - w) s; Some (c :: a, b)
       end.

(** Decimal digits. *)
Fixpoint str_of_uint (d : Decimal.uint) : str :=
  match d with
  | Decimal.Nil => []
  | Decimal.D0 d => 48%N :: str_of_uint d
  | Decimal.D1 d => 49%N :: str_of_uint d
  | Decimal.D2 d => 50%N :: str_of_uint d
  | Decimal.D3 d => 51%N :: str_of_uint d
  | Decimal.D4 d => 52%N :: str_of_uint d
  | Decimal.D5 d => 53%N :: str_of_uint d
  | Decimal.D6 d => 54%N :: str_of_uint d
  | Decimal.D7 d => 55%N :: str_of_uint d
  | Decimal.D8 d => 56%N :: str_of_uint d
  | Decimal.D9 d => 57%N :: str_of_uint d
  end.
Definition format_number (n : N) : str := str_of_uint (N.to_uint n).

(** ** truncate.rs *)

Definition APPROX_BYTES_PER_TOKEN : N := 4.

Definition approx_token_count (text : str) : N :=
  (saturating_add (blen text) (saturating_sub APPROX_BYTES_PER_TOKEN 1) / APPROX_BYTES_PER_TOKEN)%N.
Definition approx_bytes_for_tokens (tokens : N) : N := saturating_mul tokens APPROX_BYTES_PER_TOKEN.
Definition approx_tokens_from_byte_count (bytes : N) : N :=
  (saturating_add bytes (saturating_sub APPROX_BYTES_PER_TOKEN 1) / APPROX_BYTES_PER_TOKEN)%N.

(** The loop variables: [prefix_end], [suffix_start], [removed_chars],
    [suffix_started]. *)
Record SplitState := mkSplit {
  prefix_end : N; suffix_start : N; removed_chars : N; suffix_started : bool;
}.

(** One round of the loop over [char_indices]. *)
Definition split_step (beginning_bytes tail_start_target idx : N) (ch : char) (st : SplitState) :
    SplitState :=
  let char_end := (idx + N.of_nat (len_utf8 ch))%N in
  if (char_end <=? beginning_bytes)%N then
    mkSplit char_end (suffix_start st) (removed_chars st) (suffix_started st)
  else if (tail_start_target <=? idx)%N then
    if suffix_started st then st
    else mkSplit (prefix_end st) idx (removed_chars st) true
  else mkSplit (prefix_end st) (suffix_start st) (saturating_add (removed_chars st) 1)
         (suffix_started st).

Fixpoint split_loop (beginning_bytes tail_start_target idx : N) (s : str) (st : SplitState) :
    SplitState :=
  match s with
  | [] => st
  | ch :: s =>
      split_loop beginning_bytes tail_start_target (idx + N.of_nat (len_utf8 ch)) s
        (split_step beginning_bytes tail_start_target idx ch st)
  end.

Definition split_string (s : str) (beginning_bytes end_bytes : N) : option (N * str * str) :=
  if is_empty s then Some (0%N, [], [])
  else
    let len := blen s in
    let tail_start_target := saturating_sub len end_bytes in
    let st := split_loop beginning_bytes tail_start_target 0 s (mkSplit 0 len 0 false) in
    let suffix_start :=
      if (suffix_start st <? prefix_end st)%N then prefix_end st else suffix_start st in
    '(before, _) ← split_at_byte (prefix_end st) s;
    '(_, after) ← split_at_byte suffix_start s;
    Some (removed_chars st, before, after).

Definition split_budget (budget : N) : N * N :=
  let left := (budget / 2)%N in (left, (budget - left)%N).

Definition format_truncation_marker (use_tokens : bool) (removed_count : N) : str :=
  if use_tokens then "…" ++ format_number removed_count ++ " tokens truncated…"
  else "…" ++ format_number removed_count ++ " chars truncated…".

Definition removed_units (use_tokens : bool) (removed_bytes removed_chars : N) : N :=
  if use_tokens then approx_tokens_from_byte_count removed_bytes else removed_chars.

Definition truncate_with_byte_estimate (s : str) (max_bytes : N) (use_tokens : bool) : option str :=
  if is_empty s then Some []
  else
    let total_chars := N.of_nat (length s) in
    if (max_bytes =? 0)%N then
      Some (format_truncation_marker use_tokens (removed_units use_tokens (blen s) total_chars))
    else if (blen s <=? max_bytes)%N then Some s
    else
      let '(left_budget, right_budget) := split_budget max_bytes in
      '(removed, before, after) ← split_string s left_budget right_budget;
      let marker := format_truncation_marker use_tokens
                      (removed_units use_tokens (saturating_sub (blen s) max_bytes) removed) in
      Some (before ++ marker ++ after).

Definition truncate_middle_chars (s : str) (max_bytes : N) : option str :=
  truncate_with_byte_estimate s max_bytes false.

Definition truncate_middle_with_token_budget (s : str) (max_tokens : N) : option (str * option N) :=
  if is_empty s then Some ([], None)
  else if (0 <? max_tokens)%N && (blen s <=? approx_bytes_for_tokens max_tokens)%N
  then Some (s, None)
  else
    truncated ← truncate_with_byte_estimate s (approx_bytes_for_tokens max_tokens) true;
    let total_tokens := approx_token_count s in
    if bool_decide (truncated = s) then Some (truncated, None)
    else Some (truncated, Some total_tokens).

(** ** The policy and the content items (protocol) *)

Inductive TruncationPolicy := Bytes (bytes : N) | Tokens (tokens : N).

Definition token_budget (p : TruncationPolicy) : N :=
  match p with Bytes bytes => approx_tokens_from_byte_count bytes | Tokens tokens => tokens end.
Definition byte_budget (p : TruncationPolicy) : N :=
  match p with Bytes bytes => bytes | Tokens tokens => approx_bytes_for_tokens tokens end.

(** Rounding to the 53 bits of an [f64], to nearest, ties to even. *)
Definition round53 (n : N) : N :=
  let size := N.size n in
  if (size <=? 53)%N then n
  else
    let shift := (size - 53)%N in
    let q := N.shiftr n shift in
    let rem := (n - N.shiftl q shift)%N in
    let half := N.shiftl 1 (shift - 1) in
    let q := if (half <? rem)%N || (half =? rem)%N && N.odd q then (q + 1)%N else q in
    N.shiftl q shift.

(** [(x as f64 * multiplier).ceil() as usize] for the [f64] multiplier
    [mantissa / 2 ^ scale]. *)
Definition scale_ceil (mantissa scale x : N) : N :=
  let product := round53 (round53 x * mantissa) in
  N.min ((product + N.shiftl 1 scale - 1) / N.shiftl 1 scale) USIZE_MAX.

Definition mul (p : TruncationPolicy) (mantissa scale : N) : TruncationPolicy :=
  match p with
  | Bytes bytes => Bytes (scale_ceil mantissa scale bytes)
  | Tokens tokens => Tokens (scale_ceil mantissa scale tokens)
  end.

Inductive ImageDetail := Auto | Low | High | Original.

Inductive FunctionCallOutputContentItem :=
| OutInputText (text : str)
| OutInputImage (image_url : str) (detail : option ImageDetail)
| EncryptedContent (encrypted_content : str).

(** ** output-truncation/src/lib.rs *)

Definition truncate_text (content : str) (policy : TruncationPolicy) : option str :=
  match policy with
  | Bytes bytes => truncate_middle_chars content bytes
  | Tokens tokens => fst <$> truncate_middle_with_token_budget content tokens
  end.

Definition formatted_truncate_text (content : str) (policy : TruncationPolicy) : option str :=
  if (blen content <=? byte_budget policy)%N then Some content
  else
    let total_lines := N.of_nat (length (lines content)) in
    result ← truncate_text content policy;
    Some ("Total output lines: " ++ format_number total_lines ++ [NL; NL] ++ result).

Definition item_text (i : FunctionCallOutputContentItem) : option str :=
  match i with OutInputText text => Some text | _ => None end.
Definition not_text (i : FunctionCallOutputContentItem) : option FunctionCallOutputContentItem :=
  match i with OutInputText _ => None | _ => Some i end.

Definition formatted_truncate_text_content_items_with_policy
    (items : list FunctionCallOutputContentItem) (policy : TruncationPolicy) :
    option (list FunctionCallOutputContentItem * option N) :=
  let text_segments := omap item_text items in
  if is_empty text_segments then Some (items, None)
  else
    let combined := fold_left (fun combined text =>
        (if is_empty combined then combined else combined ++ [NL]) ++ text) text_segments [] in
    if (blen combined <=? byte_budget policy)%N then Some (items, None)
    else
      text ← formatted_truncate_text combined policy;
      Some (OutInputText text :: omap not_text items, Some (approx_token_count combined)).

(** One item of [truncate_function_output_items_with_policy]; the state is
    the output, the remaining budget and the number of texts left out. *)
Definition truncate_item (policy : TruncationPolicy)
    (st : list FunctionCallOutputContentItem * N * N) (item : FunctionCallOutputContentItem) :
    option (list FunctionCallOutputContentItem * N * N) :=
  let '(out, remaining_budget, omitted_text_items) := st in
  match item with
  | OutInputText text =>
      if (remaining_budget =? 0)%N then Some (out, remaining_budget, (omitted_text_items + 1)%N)
      else
        let cost := match policy with
                    | Bytes _ => blen text
                    | Tokens _ => approx_token_count text
                    end in
        if (cost <=? remaining_budget)%N
        then Some (out ++ [OutInputText text], saturating_sub remaining_budget cost,
                   omitted_text_items)
        else
          let snippet_policy := match policy with
                                | Bytes _ => Bytes remaining_budget
                                | Tokens _ => Tokens remaining_budget
                                end in
          snippet ← truncate_text text snippet_policy;
          if is_empty snippet then Some (out, 0%N, (omitted_text_items + 1)%N)
          else Some (out ++ [OutInputText snippet], 0%N, omitted_text_items)
  | _ => Some (out ++ [item], remaining_budget, omitted_text_items)
  end.

Fixpoint truncate_items (policy : TruncationPolicy)
    (st : list FunctionCallOutputContentItem * N * N) (items : list FunctionCallOutputContentItem) :
    option (list FunctionCallOutputContentItem * N * N) :=
  match items with
  | [] => Some st
  | item :: items => st ← truncate_item policy st item; truncate_items policy st items
  end.

Definition truncate_function_output_items_with_policy
    (items : list FunctionCallOutputContentItem) (policy : TruncationPolicy) :
    option (list FunctionCallOutputContentItem) :=
  let remaining_budget := match policy with
                          | Bytes _ => byte_budget policy
                          | Tokens _ => token_budget policy
                          end in
  '(out, _, omitted) ← truncate_items policy ([], remaining_budget, 0%N) items;
  Some (if (0 <? omitted)%N
        then out ++ [OutInputText ("[omitted " ++ format_number omitted ++ " text items ...]")]
        else out).

Definition approx_tokens_from_byte_count_i64 (bytes : Z) : Z :=
  if (bytes <=? 0)%Z then 0%Z
  else Z.min (Z.of_N (approx_tokens_from_byte_count (Z.to_N bytes))) I64_MAX.

Example split_string_tests :
  split_string "hello world" 5 5 = Some (1%N, "hello", "world") /\
  split_string "abc" 0 0 = Some (3%N, "", "") /\
  split_string "abcdef" 3 0 = Some (3%N, "abc", "") /\
  split_string "abcdef" 4 4 = Some (0%N, "abcd", "ef") /\
  split_string (128512 :: "abc" ++ [128512])%N 5 5 = Some (1%N, 128512 :: "a", "c" ++ [128512])%N /\
  split_string (replicate 5 128512%N) 7 7 = Some (3%N, [128512%N], [128512%N]) /\
  truncate_middle_with_token_budget "abcdef" 0 = Some ("…2 tokens truncated…", Some 2%N).
Proof. vm_compute. done. Qed.

(** The decimal digits of a number tell it apart. *)
Lemma str_of_uint_inj d e : str_of_uint d = str_of_uint e -> d = e.
Proof.
  revert e. induction d as [|d IH|d IH|d IH|d IH|d IH|d IH|d IH|d IH|d IH|d IH]; intros e;
    destruct e; try done; cbn; intros [= E]; by rewrite (IH _ E).
Qed.

(** ** The split *)

Section Split.
Variables L target len : N.

(** Every char from here on ends past the beginning budget. *)
Definition past (idx : N) (s : str) : Prop :=
  match s with [] => True | c :: _ => (L < idx + N.of_nat (len_utf8 c))%N end.

Lemma past_next idx c s : past idx (c :: s) -> past (idx + N.of_nat (len_utf8 c)) s.
Proof. destruct s as [|d s]; cbn; [done|]. pose proof (len_utf8_pos d). lia. Qed.

Lemma blen_cons c s : blen (c :: s) = (N.of_nat (len_utf8 c) + blen s)%N.
Proof. unfold blen, byte_len. cbn. lia. Qed.

Lemma blen_app s t : blen (s ++ t) = (blen s + blen t)%N.
Proof. unfold blen. rewrite byte_len_app. lia. Qed.

Lemma length_le_blen s : (N.of_nat (length s) <= blen s)%N.
Proof. unfold blen. pose proof (byte_len_ge_length s). lia. Qed.

(** The suffix: nothing changes any more. *)
Lemma split_loop_suffix s idx pe ss rc :
  past idx s -> (target <= idx)%N ->
  split_loop L target idx s (mkSplit pe ss rc true) = mkSplit pe ss rc true.
Proof.
  revert idx. induction s as [|c s IH]; intros idx Hp Ht; [done|]. cbn [split_loop].
  unfold split_step. cbn [suffix_started]. cbn in Hp.
  rewrite (proj2 (N.leb_gt _ _)) by lia. rewrite (proj2 (N.leb_le target idx)) by done.
  apply IH; [by apply past_next|lia].
Qed.

(** The middle, then the suffix. *)
Lemma split_loop_middle s idx pe rc :
  past idx s -> (rc + N.of_nat (length s) <= USIZE_MAX)%N ->
  exists m q, s = m ++ q /\
    split_loop L target idx s (mkSplit pe len rc false) =
      mkSplit pe (if is_empty q then len else idx + blen m)%N (rc + N.of_nat (length m))%N
        (negb (is_empty q)) /\
    (q <> [] -> target <= idx + blen m)%N /\
    (forall m' c, m = m' ++ [c] -> idx + blen m' < target)%N.
Proof.
  revert idx rc. induction s as [|c s IH]; intros idx rc Hp Hrc.
  { exists [], []. cbn. rewrite N.add_0_r. split_and!; [done|done|done|].
    intros m' c H. by destruct m'. }
  cbn [split_loop]. unfold split_step. cbn [suffix_started prefix_end suffix_start removed_chars].
  cbn in Hp. rewrite (proj2 (N.leb_gt _ _)) by lia.
  destruct (N.leb_spec target idx) as [Ht|Ht].
  - exists [], (c :: s). rewrite split_loop_suffix by (first [exact (past_next idx c s Hp)|lia]).
    cbn. rewrite !N.add_0_r. split_and!; [done|done|done|]. intros m' d H. by destruct m'.
  - cbn [length] in Hrc. rewrite saturating_add_small by lia.
    destruct (IH (idx + N.of_nat (len_utf8 c))%N (rc + 1)%N) as (m & q & -> & Hl & Hq & Hm);
      [by apply past_next|lia|].
    exists (c :: m), q. rewrite Hl, blen_cons. split_and!.
    + done.
    + f_equal; [|cbn [length]; lia]. by rewrite N.add_assoc.
    + intros Hne. specialize (Hq Hne). lia.
    + intros [|d m'] c' H; cbn in H; injection H as -> H; [change (blen []) with 0%N; lia|].
      specialize (Hm m' c' H). rewrite blen_cons. lia.
Qed.

(** The prefix first. *)
Lemma split_loop_spec s idx pe :
  (N.of_nat (length s) <= USIZE_MAX)%N ->
  exists p m q, s = p ++ m ++ q /\
    split_loop L target idx s (mkSplit pe len 0 false) =
      mkSplit (if is_empty p then pe else idx + blen p)%N
        (if is_empty q then len else idx + blen (p ++ m))%N (N.of_nat (length m))
        (negb (is_empty q)) /\
    (p = [] \/ idx + blen p <= L)%N /\ past (idx + blen p) (m ++ q) /\
    (q <> [] -> target <= idx + blen (p ++ m))%N /\
    (forall m' c, m = m' ++ [c] -> idx + blen (p ++ m') < target)%N.
Proof.
  revert idx pe. induction s as [|c s IH]; intros idx pe Hs.
  { exists [], [], []. cbn. split_and!; [done|done|by left|done|done|].
    intros m' c H. by destruct m'. }
  cbn [split_loop]. unfold split_step. cbn [suffix_started prefix_end suffix_start removed_chars].
  destruct (N.leb_spec (idx + N.of_nat (len_utf8 c)) L) as [Hle|Hgt].
  - cbn [length] in Hs. destruct (IH (idx + N.of_nat (len_utf8 c))%N (idx + N.of_nat (len_utf8 c))%N)
      as (p & m & q & -> & Hl & Hp & Hpast & Hq & Hm); [lia|].
    exists (c :: p), m, q. rewrite Hl. cbn [app is_empty]. rewrite !blen_cons, !N.add_assoc.
    split_and!; [done| |right|done|done|].
    + f_equal. destruct p; [cbn; by rewrite N.add_0_r|done].
    + destruct Hp as [->|Hp]; subst; cbn [app] in *; change (blen []) with 0%N in *; lia.
    + intros m' c' Hmm. rewrite blen_cons, N.add_assoc. by apply (Hm m' c').
  - destruct (split_loop_middle (c :: s) idx pe 0) as (m & q & Heq & Hl & Hq & Hm);
      [done|cbn [length] in *; lia|].
    exists [], m, q. cbn [app is_empty]. change (blen []) with 0%N. rewrite N.add_0_r.
    cbn [split_loop] in Hl. unfold split_step in Hl.
    cbn [suffix_started prefix_end suffix_start removed_chars] in Hl.
    rewrite (proj2 (N.leb_gt _ _)) in Hl by lia.
    split_and!; [done| |by left|by rewrite <- Heq|done|done].
    rewrite Hl. f_equal.
Qed.
End Split.

Lemma split_at_byte_app a b : split_at_byte (blen a) (a ++ b) = Some (a, b).
Proof.
  induction a as [|c a IH]; cbn [app]; [by destruct b|].
  rewrite blen_cons. cbn [split_at_byte]. pose proof (len_utf8_pos c).
  rewrite (proj2 (N.eqb_neq _ _)) by lia. rewrite (proj2 (N.ltb_ge _ _)) by lia.
  replace (N.of_nat (len_utf8 c) + blen a - N.of_nat (len_utf8 c))%N with (blen a) by lia.
  by rewrite IH.
Qed.

Lemma split_at_byte_Some n s a b : split_at_byte n s = Some (a, b) -> s = a ++ b /\ n = blen a.
Proof.
  revert n a. induction s as [|c s IH]; intros n a H; cbn in H; destruct (N.eqb_spec n 0) as [->|Hn];
    try (by injection H as <- <-); [done|].
  destruct (n <? _)%N eqn:E; [done|]. apply N.ltb_ge in E.
  apply bind_Some in H as ([a' b'] & H & [= <- <-]). apply IH in H as [-> H].
  split; [done|]. rewrite blen_cons. lia.
Qed.

(** [cut L E s p m q]: [p] is the longest prefix within [L] bytes, [q] the
    longest suffix within [E] bytes of the rest, [m] what is between. *)
Definition cut (L E : N) (s p m q : str) : Prop :=
  s = p ++ m ++ q /\ (blen p <= L)%N /\ (blen q <= E)%N /\
  (forall c r, m ++ q = c :: r -> L < blen (p ++ [c]))%N /\
  (forall m' c, m = m' ++ [c] -> E < blen (c :: q))%N.

Lemma split_string_cut s L E :
  (blen s <= USIZE_MAX)%N -> (E <= blen s)%N ->
  exists p m q, split_string s L E = Some (N.of_nat (length m), p, q) /\ cut L E s p m q.
Proof.
  intros Hs HE. unfold split_string. destruct (is_empty s) eqn:Hempty.
  { apply is_empty_true in Hempty as ->. exists [], [], []. unfold cut. cbn.
    change (blen []) with 0%N. split_and!; [done|done|lia|lia|done|]. intros m' c Hm. by destruct m'. }
  pose proof (length_le_blen s).
  destruct (split_loop_spec L (saturating_sub (blen s) E) (blen s) s 0 0 ltac:(lia))
    as (p & m & q & Heq & -> & Hp & Hpast & Hq & Hm).
  unfold saturating_sub in *. rewrite !N.add_0_l in *. exists p, m, q.
  assert (blen s = blen p + blen m + blen q)%N as Hlen by (rewrite Heq, !blen_app; lia).
  cbn [prefix_end suffix_start removed_chars].
  assert ((if is_empty p then 0 else blen p)%N = blen p) as -> by by destruct p.
  assert ((if is_empty q then blen s else blen (p ++ m))%N = blen (p ++ m)) as ->.
  { destruct q; [|done]. cbn. rewrite Hlen, blen_app. change (blen []) with 0%N. lia. }
  rewrite (proj2 (N.ltb_ge _ _)) by (rewrite blen_app; lia). split.
  - rewrite Heq at 1. rewrite split_at_byte_app. cbn.
    rewrite Heq, (app_assoc p m q), split_at_byte_app. done.
  - split_and!; [done|destruct Hp as [->|Hp]; [change (blen []) with 0%N; lia|done]| | |].
    + destruct q as [|c q]; [change (blen []) with 0%N; lia|]. specialize (Hq ltac:(done)). rewrite blen_app in Hq. lia.
    + intros c r Hr. unfold past in Hpast. rewrite Hr in Hpast. rewrite blen_app, blen_cons.
      change (blen []) with 0%N. lia.
    + intros m' c ->. specialize (Hm m' c eq_refl). rewrite blen_cons.
      rewrite !blen_app, blen_cons in *. change (blen []) with 0%N in Hlen. lia.
Qed.

(** The result of a truncation, for either marker. *)
Lemma truncate_spec s max_bytes use_tokens :
  (blen s <= USIZE_MAX)%N ->
  exists out, truncate_with_byte_estimate s max_bytes use_tokens = Some out /\
    ((blen s <= max_bytes)%N -> out = s) /\
    ((max_bytes < blen s)%N ->
      exists p m q, cut (max_bytes / 2) (max_bytes - max_bytes / 2) s p m q /\
        out = p ++ format_truncation_marker use_tokens
          (if use_tokens then approx_tokens_from_byte_count (blen s - max_bytes)
           else N.of_nat (length m)) ++ q).
Proof.
  intros Hs. unfold truncate_with_byte_estimate. destruct (is_empty s) eqn:Hempty.
  { apply is_empty_true in Hempty as ->. exists []. split_and!; [done|done|].
    change (blen []) with 0%N. lia. }
  destruct (N.eqb_spec max_bytes 0) as [->|Hz].
  { eexists. split; [reflexivity|]. split.
    - intros Hb. pose proof (length_le_blen s). apply is_empty_false in Hempty.
      destruct s; [done|cbn [length] in *; lia].
    - intros _. exists [], s, []. split; [|by rewrite app_nil_r, N.sub_0_r; destruct use_tokens].
      change (0 / 2)%N with 0%N. unfold cut. cbn [app]. rewrite app_nil_r. change (blen []) with 0%N.
      split_and!; [done|lia|lia| |]; intros; rewrite blen_cons; pose proof (len_utf8_pos c); lia. }
  destruct (N.leb_spec (blen s) max_bytes) as [Hle|Hgt].
  { eexists. split_and!; [reflexivity|done|lia]. }
  unfold split_budget, saturating_sub.
  assert (max_bytes - max_bytes / 2 <= blen s)%N as HE by (etrans; [apply N.le_sub_l|lia]).
  destruct (split_string_cut s (max_bytes / 2) (max_bytes - max_bytes / 2) Hs HE)
    as (p & m & q & -> & Hcut).
  eexists. split_and!; [reflexivity|lia|]. intros _. exists p, m, q. split; [done|].
  by destruct use_tokens.
Qed.

Lemma truncate_total s max_bytes use_tokens :
  (blen s <= USIZE_MAX)%N -> is_Some (truncate_with_byte_estimate s max_bytes use_tokens).
Proof. intros Hs. destruct (truncate_spec s max_bytes use_tokens Hs) as (out & -> & _). eauto. Qed.

(** C36. Truncation never slices inside a char: a text within the budget comes
    back unchanged; from a longer one exactly the longest prefix within half
    of the budget and the longest suffix within the other half are kept, with
    a marker between them that counts the chars removed, or the approximate
    tokens over budget. *)
Theorem truncate_correct s max_bytes use_tokens :
  (blen s <= USIZE_MAX)%N ->
  exists out, truncate_with_byte_estimate s max_bytes use_tokens = Some out /\
    ((blen s <= max_bytes)%N -> out = s) /\
    ((max_bytes < blen s)%N ->
      exists p m q, cut (max_bytes / 2) (max_bytes - max_bytes / 2) s p m q /\
        out = p ++ format_truncation_marker use_tokens
          (if use_tokens then approx_tokens_from_byte_count (blen s - max_bytes)
           else N.of_nat (length m)) ++ q).
Proof. apply truncate_spec. Qed.

Definition sample_text : str := 128512%N :: " hello world with a long tail " ++ [128512%N].

Lemma truncate_correct_witness :
  (blen sample_text <= USIZE_MAX)%N /\
  exists out, truncate_with_byte_estimate sample_text 14 false = Some out /\
    out = (128512%N :: " he") ++ "…24 chars truncated…" ++ "il " ++ [128512%N].
Proof.
  assert (blen sample_text <= USIZE_MAX)%N as H by (vm_compute; discriminate).
  split; [exact H|]. destruct (truncate_correct sample_text 14 false H) as (out & Hout & _).
  exists out. split; [exact Hout|]. vm_compute in Hout. by injection Hout as <-.
Defined.

(** ** Totality of the callers *)

Lemma truncate_text_total s policy : (blen s <= USIZE_MAX)%N -> is_Some (truncate_text s policy).
Proof.
  intros Hs. destruct policy as [bytes|tokens]; cbn.
  - destruct (truncate_with_byte_estimate s bytes false) eqn:E; [eauto|].
    unfold truncate_middle_chars. rewrite E. exfalso.
    destruct (truncate_total s bytes false Hs) as [out Hout]. congruence.
  - unfold truncate_middle_with_token_budget. destruct (is_empty s); [cbn; eauto|].
    destruct (_ && _); [cbn; eauto|].
    destruct (truncate_total s (approx_bytes_for_tokens tokens) true Hs) as [out ->]. cbn.
    destruct (bool_decide _); cbn; eauto.
Qed.
