(* ===== verification/TokenUsage.v ===== *)
(** * TokenUsage: token counts of a thread

    [TokenUsage] and [TokenUsageInfo] of [codex-rs/protocol/src/protocol.rs].
    The counts are [i64]; the plain additions and subtractions panic on
    overflow in debug builds ([None]) and wrap in release builds.  The display
    helper [percent_of_context_window_remaining] divides [f64] and is left
    out. *)

From S2P Require Import Prelude.
#[local] Open Scope Z_scope.

Record TokenUsage := mkUsage {
  input_tokens : Z;
  cached_input_tokens : Z;
  output_tokens : Z;
  reasoning_output_tokens : Z;
  total_tokens : Z;
}.

Definition default_usage : TokenUsage := mkUsage 0 0 0 0 0.

Definition is_zero (u : TokenUsage) : bool := total_tokens u =? 0.
Definition cached_input (u : TokenUsage) : Z := Z.max (cached_input_tokens u) 0.
Definition tokens_in_context_window (u : TokenUsage) : Z := total_tokens u.

Section Build.
Variable debug_assertions : bool.
Abbreviation checked := (i64_checked debug_assertions).

Definition non_cached_input (u : TokenUsage) : option Z :=
  d ← checked (input_tokens u - cached_input u); Some (Z.max d 0).

Definition blended_total (u : TokenUsage) : option Z :=
  n ← non_cached_input u;
  t ← checked (n + Z.max (output_tokens u) 0);
  Some (Z.max t 0).

Definition add_assign (u other : TokenUsage) : option TokenUsage :=
  i ← checked (input_tokens u + input_tokens other);
  c ← checked (cached_input_tokens u + cached_input_tokens other);
  o ← checked (output_tokens u + output_tokens other);
  r ← checked (reasoning_output_tokens u + reasoning_output_tokens other);
  t ← checked (total_tokens u + total_tokens other);
  Some (mkUsage i c o r t).

Record TokenUsageInfo := mkInfo {
  total_token_usage : TokenUsage;
  last_token_usage : TokenUsage;
  model_context_window : option Z;
}.

Definition append_last_usage (last : TokenUsage) (info : TokenUsageInfo) : option TokenUsageInfo :=
  total ← add_assign (total_token_usage info) last;
  Some (mkInfo total last (model_context_window info)).

Definition new_or_append (info : option TokenUsageInfo) (last : option TokenUsage)
    (window : option Z) : option (option TokenUsageInfo) :=
  match info, last with
  | None, None => Some None
  | _, _ =>
      let info := match info with
                  | Some info => info
                  | None => mkInfo default_usage default_usage window
                  end in
      info ← match last with
             | Some last => append_last_usage last info
             | None => Some info
             end;
      Some (Some (match window with
                  | Some w => mkInfo (total_token_usage info) (last_token_usage info) (Some w)
                  | None => info
                  end))
  end.

Definition fill_to_context_window (context_window : Z) (info : TokenUsageInfo) :
    option TokenUsageInfo :=
  let previous_total := total_tokens (total_token_usage info) in
  d ← checked (context_window - previous_total);
  Some (mkInfo (mkUsage 0 0 0 0 context_window) (mkUsage 0 0 0 0 (Z.max d 0)) (Some context_window)).

Definition full_context_window (context_window : Z) : option TokenUsageInfo :=
  fill_to_context_window context_window
    (mkInfo default_usage default_usage (Some context_window)).
End Build.

(** ** Sums of usages *)

(** Every count of [u] is an [i64]. *)
Definition usage_in (u : TokenUsage) : Prop :=
  in_i64 (input_tokens u) /\ in_i64 (cached_input_tokens u) /\ in_i64 (output_tokens u) /\
  in_i64 (reasoning_output_tokens u) /\ in_i64 (total_tokens u).

(** Fieldwise sum, without width. *)
Definition usage_sum (u v : TokenUsage) : TokenUsage :=
  mkUsage (input_tokens u + input_tokens v) (cached_input_tokens u + cached_input_tokens v)
    (output_tokens u + output_tokens v) (reasoning_output_tokens u + reasoning_output_tokens v)
    (total_tokens u + total_tokens v).

Lemma add_assign_small d u v : usage_in (usage_sum u v) -> add_assign d u v = Some (usage_sum u v).
Proof.
  intros (H1 & H2 & H3 & H4 & H5). unfold add_assign. cbn in *.
  by rewrite !i64_checked_small by done.
Qed.

Lemma add_assign_release u v : is_Some (add_assign false u v).
Proof. unfold add_assign, i64_checked. repeat case_bool_decide; cbn; eauto. Qed.

Lemma add_assign_in d u v r : add_assign d u v = Some r -> usage_in r.
Proof.
  unfold add_assign. intros H.
  repeat (apply bind_Some in H as (? & ?%i64_checked_in & H)). injection H as <-.
  by unfold usage_in; cbn.
Qed.

(** ** Accumulation *)

(** The reports of a thread, one after another. *)
Fixpoint append_all (d : bool) (info : option TokenUsageInfo) (reports : list (TokenUsage * option Z)) :
    option (option TokenUsageInfo) :=
  match reports with
  | [] => Some info
  | (u, w) :: reports => info ← new_or_append d info (Some u) w; append_all d info reports
  end.

Definition usage_total (us : list TokenUsage) : TokenUsage := fold_left usage_sum us default_usage.

Lemma usage_sum_default u : usage_sum default_usage u = u.
Proof. by destruct u. Qed.

(** While every running total is an [i64], the total is the sum of the
    reports, the last usage is the last report and the window is the last
    window reported, in either build. *)
Theorem reports_accumulate d reports :
  (forall n, usage_in (usage_total (map fst (take n reports)))) ->
  append_all d None reports =
    Some (match last reports with
          | None => None
          | Some (u, _) =>
              Some (mkInfo (usage_total (map fst reports)) u (last (omap snd reports)))
          end).
Proof.
  induction reports as [|[u w] reports IH] using rev_ind; intros Hin; [done|].
  assert (forall xs ys i, append_all d i (xs ++ ys) = (i ← append_all d i xs; append_all d i ys)) as Happ.
  { induction xs as [|[v x] xs IHx]; intros ys i; [done|]. cbn.
    destruct (new_or_append d i (Some v) x); cbn; [apply IHx|done]. }
  rewrite Happ, IH.
  2: { intros n. destruct (decide (n <= length reports)%nat) as [Hn|Hn].
       - specialize (Hin n). by rewrite take_app_le in Hin.
       - specialize (Hin (length reports)). rewrite take_app_length in Hin. by rewrite take_ge by lia. }
  pose proof (Hin (length (reports ++ [(u, w)]))) as Hall. rewrite take_ge in Hall by done.
  rewrite map_app in Hall. unfold usage_total in Hall. rewrite fold_left_app in Hall.
  rewrite last_snoc, map_app, omap_app. unfold usage_total. rewrite fold_left_app.
  cbn [mbind option_bind append_all map fst fold_left omap list_omap snd] in *.
  destruct (last reports) as [[u0 w0]|] eqn:E; cbn [new_or_append].
  - unfold append_last_usage. cbn [total_token_usage].
    fold (usage_total (map fst reports)) in *. rewrite (add_assign_small d _ _ Hall).
    cbn [mbind option_bind]. destruct w; cbn; by rewrite ?last_snoc, ?app_nil_r.
  - destruct reports as [|r rs _] using rev_ind; [|by rewrite last_snoc in E]. cbn in *.
    unfold append_last_usage. cbn. rewrite (add_assign_small d _ _ Hall). by destruct w.
Qed.
