(* ===== verification/History.v ===== *)
(** * History: the transcript sent to the model

    [codex-rs/core/src/context_manager/normalize.rs] and [history.rs]: the
    list of response items of a thread, the pairing of tool calls with their
    outputs, and rollback.  Values the code never looks into (statuses,
    actions, JSON) have an abstract type.  [error_or_panic] panics in debug
    builds, which is [None], and logs in release builds.  The registry of
    contextual user fragments ([core/src/context], which parses XML with a
    third-party crate), the JSON test of inter-agent messages, token usage and
    the context snapshot are arguments. *)

From S2P Require Import Prelude RustStr Truncate TokenUsage.
Open Scope str_scope.

Definition u64_MAX : N := (2 ^ 64 - 1)%N.

(** ** The protocol's items *)

Inductive ContentItem :=
| InputText (text : str)
| InputImage (image_url : str) (detail : option ImageDetail)
| OutputText (text : str).

Inductive FunctionCallOutputBody :=
| Text (content : str)
| ContentItems (items : list FunctionCallOutputContentItem).

Record FunctionCallOutputPayload := mkPayload {
  body : FunctionCallOutputBody;
  success : option bool;
}.

Definition from_text (content : str) : FunctionCallOutputPayload := mkPayload (Text content) None.

Inductive InputModality := TextModality | ImageModality.
#[export] Instance InputModality_eq_dec : EqDecision InputModality.
Proof. solve_decision. Defined.

Section Items.
Context {Opaque : Type}.

Inductive ResponseItem :=
| Message (id : option str) (role : str) (content : list ContentItem) (phase : option Opaque)
| Reasoning (id : str) (summary : list Opaque) (content : option (list Opaque))
    (encrypted_content : option str)
| LocalShellCall (id call_id : option str) (status action : Opaque)
| FunctionCall (id : option str) (name : str) (namespace : option str) (arguments call_id : str)
| ToolSearchCall (id call_id status : option str) (execution : str) (arguments : Opaque)
| FunctionCallOutput (call_id : str) (output : FunctionCallOutputPayload)
| CustomToolCall (id status : option str) (call_id name input : str)
| CustomToolCallOutput (call_id : str) (name : option str) (output : FunctionCallOutputPayload)
| ToolSearchOutput (call_id : option str) (status execution : str) (tools : list Opaque)
| WebSearchCall (id status : option str) (action : option Opaque)
| ImageGenerationCall (id status : str) (revised_prompt : option str) (result : str)
| Compaction (encrypted_content : str)
| CompactionTrigger
| ContextCompaction (encrypted_content : option str)
| Other.

(** ** normalize.rs *)

Definition is_function_output (call_id : str) (i : ResponseItem) : bool :=
  match i with FunctionCallOutput existing _ => bool_decide (existing = call_id) | _ => false end.
Definition is_custom_output (call_id : str) (i : ResponseItem) : bool :=
  match i with CustomToolCallOutput existing _ _ => bool_decide (existing = call_id) | _ => false end.
Definition is_search_output (call_id : str) (i : ResponseItem) : bool :=
  match i with
  | ToolSearchOutput (Some existing) _ _ _ => bool_decide (existing = call_id)
  | _ => false
  end.
Definition is_function_call (call_id : str) (i : ResponseItem) : bool :=
  match i with FunctionCall _ _ _ _ existing => bool_decide (existing = call_id) | _ => false end.
Definition is_custom_call (call_id : str) (i : ResponseItem) : bool :=
  match i with CustomToolCall _ _ existing _ _ => bool_decide (existing = call_id) | _ => false end.
Definition is_search_call (call_id : str) (i : ResponseItem) : bool :=
  match i with
  | ToolSearchCall _ (Some existing) _ _ _ => bool_decide (existing = call_id)
  | _ => false
  end.
Definition is_shell_call (call_id : str) (i : ResponseItem) : bool :=
  match i with
  | LocalShellCall _ (Some existing) _ _ => bool_decide (existing = call_id)
  | _ => false
  end.

Section Build.
Variable debug_assertions : bool.

(** [util::error_or_panic] *)
Definition error_or_panic : option unit := if debug_assertions then None else Some tt.

(** The body of the first loop: the output to insert after [item]. *)
Definition missing_output (items : list ResponseItem) (item : ResponseItem) :
    option (option ResponseItem) :=
  match item with
  | FunctionCall _ _ _ _ call_id =>
      if existsb (is_function_output call_id) items then Some None
      else Some (Some (FunctionCallOutput call_id (from_text "aborted")))
  | ToolSearchCall _ (Some call_id) _ _ _ =>
      if existsb (is_search_output call_id) items then Some None
      else Some (Some (ToolSearchOutput (Some call_id) "completed" "client" []))
  | CustomToolCall _ _ call_id _ _ =>
      if existsb (is_custom_output call_id) items then Some None
      else _ ← error_or_panic;
           Some (Some (CustomToolCallOutput call_id None (from_text "aborted")))
  | LocalShellCall _ (Some call_id) _ _ =>
      if existsb (is_function_output call_id) items then Some None
      else _ ← error_or_panic;
           Some (Some (FunctionCallOutput call_id (from_text "aborted")))
  | _ => Some None
  end.

(** [missing_outputs_to_insert], for the items from position [idx] on. *)
Fixpoint missing_outputs (all : list ResponseItem) (idx : nat) (items : list ResponseItem) :
    option (list (nat * ResponseItem)) :=
  match items with
  | [] => Some []
  | item :: items =>
      out ← missing_output all item;
      rest ← missing_outputs all (S idx) items;
      Some (match out with Some o => (idx, o) :: rest | None => rest end)
  end.

(** The insertions go from the last to the first. *)
Definition insert_outputs (missing : list (nat * ResponseItem)) (items : list ResponseItem) :
    option (list ResponseItem) :=
  fold_left (fun items '(idx, output_item) => items ← items; vec_insert (idx + 1) output_item items)
    (rev missing) (Some items).

Definition ensure_call_outputs_present (items : list ResponseItem) : option (list ResponseItem) :=
  missing ← missing_outputs items 0 items; insert_outputs missing items.

Definition function_call_ids (items : list ResponseItem) : gset str :=
  list_to_set (omap (fun i => match i with FunctionCall _ _ _ _ c => Some c | _ => None end) items).
Definition tool_search_call_ids (items : list ResponseItem) : gset str :=
  list_to_set (omap (fun i => match i with ToolSearchCall _ c _ _ _ => c | _ => None end) items).
Definition local_shell_call_ids (items : list ResponseItem) : gset str :=
  list_to_set (omap (fun i => match i with LocalShellCall _ c _ _ => c | _ => None end) items).
Definition custom_tool_call_ids (items : list ResponseItem) : gset str :=
  list_to_set (omap (fun i => match i with CustomToolCall _ _ c _ _ => Some c | _ => None end) items).

(** [has_match] of an output; items that need no call are kept. *)
Definition retained (items : list ResponseItem) (item : ResponseItem) : bool :=
  match item with
  | FunctionCallOutput call_id _ =>
      bool_decide (call_id ∈ function_call_ids items) ||
      bool_decide (call_id ∈ local_shell_call_ids items)
  | CustomToolCallOutput call_id _ _ => bool_decide (call_id ∈ custom_tool_call_ids items)
  | ToolSearchOutput call_id _ execution _ =>
      if bool_decide (execution = "server") then true
      else match call_id with
           | Some call_id => bool_decide (call_id ∈ tool_search_call_ids items)
           | None => true
           end
  | _ => true
  end.

Fixpoint retain (keep : ResponseItem -> bool) (items : list ResponseItem) :
    option (list ResponseItem) :=
  match items with
  | [] => Some []
  | item :: items =>
      if keep item then cons item <$> retain keep items
      else _ ← error_or_panic; retain keep items
  end.

Definition remove_orphan_outputs (items : list ResponseItem) : option (list ResponseItem) :=
  retain (retained items) items.
End Build.

(** [position] and [remove]. *)
Fixpoint remove_first_matching (predicate : ResponseItem -> bool) (items : list ResponseItem) :
    list ResponseItem :=
  match items with
  | [] => []
  | i :: items => if predicate i then items else i :: remove_first_matching predicate items
  end.

Definition remove_corresponding_for (items : list ResponseItem) (item : ResponseItem) :
    list ResponseItem :=
  match item with
  | FunctionCall _ _ _ _ call_id => remove_first_matching (is_function_output call_id) items
  | FunctionCallOutput call_id _ =>
      if existsb (is_function_call call_id) items
      then remove_first_matching (is_function_call call_id) items
      else remove_first_matching (is_shell_call call_id) items
  | ToolSearchCall _ (Some call_id) _ _ _ => remove_first_matching (is_search_output call_id) items
  | ToolSearchOutput (Some call_id) _ _ _ => remove_first_matching (is_search_call call_id) items
  | CustomToolCall _ _ call_id _ _ => remove_first_matching (is_custom_output call_id) items
  | CustomToolCallOutput call_id _ _ => remove_first_matching (is_custom_call call_id) items
  | LocalShellCall _ (Some call_id) _ _ => remove_first_matching (is_function_output call_id) items
  | _ => items
  end.

Definition IMAGE_CONTENT_OMITTED_PLACEHOLDER : str :=
  "image content omitted because you do not support image input".

Definition strip_content (c : ContentItem) : ContentItem :=
  match c with InputImage _ _ => InputText IMAGE_CONTENT_OMITTED_PLACEHOLDER | _ => c end.
Definition strip_output_content (c : FunctionCallOutputContentItem) : FunctionCallOutputContentItem :=
  match c with OutInputImage _ _ => OutInputText IMAGE_CONTENT_OMITTED_PLACEHOLDER | _ => c end.
Definition strip_payload (p : FunctionCallOutputPayload) : FunctionCallOutputPayload :=
  match body p with
  | ContentItems items => mkPayload (ContentItems (map strip_output_content items)) (success p)
  | Text _ => p
  end.
Definition strip_item (i : ResponseItem) : ResponseItem :=
  match i with
  | Message id role content phase => Message id role (map strip_content content) phase
  | FunctionCallOutput call_id output => FunctionCallOutput call_id (strip_payload output)
  | CustomToolCallOutput call_id name output =>
      CustomToolCallOutput call_id name (strip_payload output)
  | ImageGenerationCall id status revised_prompt _ => ImageGenerationCall id status revised_prompt []
  | _ => i
  end.

Definition strip_images_when_unsupported (input_modalities : list InputModality)
    (items : list ResponseItem) : list ResponseItem :=
  if bool_decide (ImageModality ∈ input_modalities) then items else map strip_item items.

(** ** history.rs *)

Definition normalize_history (debug_assertions : bool) (input_modalities : list InputModality)
    (items : list ResponseItem) : option (list ResponseItem) :=
  items ← ensure_call_outputs_present debug_assertions items;
  items ← remove_orphan_outputs debug_assertions items;
  Some (strip_images_when_unsupported input_modalities items).

Definition is_api_message (message : ResponseItem) : bool :=
  match message with
  | Message _ role _ _ => negb (bool_decide (role = "system"))
  | CompactionTrigger | Other => false
  | _ => true
  end.

Definition truncate_function_output_payload (output : FunctionCallOutputPayload)
    (policy : TruncationPolicy) : option FunctionCallOutputPayload :=
  body ← match body output with
         | Text content => Text <$> truncate_text content policy
         | ContentItems items =>
             ContentItems <$> truncate_function_output_items_with_policy items policy
         end;
  Some (mkPayload body (success output)).

(** The [f64] 1.2 is [5404319552844595 / 2 ^ 52]. *)
Definition process_item (item : ResponseItem) (policy : TruncationPolicy) : option ResponseItem :=
  let policy_with_serialization_budget := mul policy 5404319552844595 52 in
  match item with
  | FunctionCallOutput call_id output =>
      FunctionCallOutput call_id <$>
        truncate_function_output_payload output policy_with_serialization_budget
  | CustomToolCallOutput call_id name output =>
      CustomToolCallOutput call_id name <$>
        truncate_function_output_payload output policy_with_serialization_budget
  | _ => Some item
  end.

(** [eq_ignore_ascii_case] of the first bytes. *)
Definition has_prefix_ignoring_case (text prefix : str) : bool :=
  match split_at_byte (blen prefix) text with
  | Some (candidate, _) =>
      bool_decide (to_ascii_lowercase candidate = to_ascii_lowercase prefix)
  | None => false
  end.

Definition CONTEXTUAL_DEVELOPER_PREFIXES : list str :=
  ["<permissions instructions>"; "<model_switch>"; "<collaboration_mode>";
   "<realtime_conversation>"; "<personality_spec>"].

Definition is_contextual_dev_fragment (c : ContentItem) : bool :=
  match c with
  | InputText text => existsb (has_prefix_ignoring_case (trim_start text)) CONTEXTUAL_DEVELOPER_PREFIXES
  | _ => false
  end.
Definition is_contextual_dev_message_content (message : list ContentItem) : bool :=
  existsb is_contextual_dev_fragment message.
Definition has_non_contextual_dev_message_content (message : list ContentItem) : bool :=
  existsb (fun c => negb (is_contextual_dev_fragment c)) message.

Section Manager.
Context {TurnContextItem : Type}.
Variable is_contextual_user_fragment : ContentItem -> bool.
(** [serde_json::from_str::<InterAgentCommunication>(text).is_ok()] *)
Variable is_inter_agent_json : str -> bool.

Record ContextManager := mkManager {
  items : list ResponseItem;
  history_version : N;
  token_info : option TokenUsageInfo;
  reference_context_item : option TurnContextItem;
}.

Definition set_items (l : list ResponseItem) (m : ContextManager) : ContextManager :=
  mkManager l (history_version m) (token_info m) (reference_context_item m).
Definition bump (m : ContextManager) : ContextManager :=
  mkManager (items m) (N.min (history_version m + 1) u64_MAX) (token_info m)
    (reference_context_item m).

Definition new (debug_assertions : bool) : option ContextManager :=
  info ← new_or_append debug_assertions None None None; Some (mkManager [] 0 info None).
Definition set_token_info (info : option TokenUsageInfo) (m : ContextManager) : ContextManager :=
  mkManager (items m) (history_version m) info (reference_context_item m).
Definition set_reference_context_item (item : option TurnContextItem) (m : ContextManager) :
    ContextManager :=
  mkManager (items m) (history_version m) (token_info m) item.

Definition set_token_usage_full (debug_assertions : bool) (context_window : Z)
    (m : ContextManager) : option ContextManager :=
  info ← match token_info m with
         | Some info => fill_to_context_window debug_assertions context_window info
         | None => full_context_window debug_assertions context_window
         end;
  Some (set_token_info (Some info) m).

Definition update_token_info (debug_assertions : bool) (usage : TokenUsage)
    (model_context_window : option Z) (m : ContextManager) : option ContextManager :=
  info ← new_or_append debug_assertions (token_info m) (Some usage) model_context_window;
  Some (set_token_info info m).

Fixpoint record_items (new_items : list ResponseItem) (policy : TruncationPolicy)
    (m : ContextManager) : option ContextManager :=
  match new_items with
  | [] => Some m
  | item :: new_items =>
      if is_api_message item then
        processed ← process_item item policy;
        record_items new_items policy (set_items (items m ++ [processed]) m)
      else record_items new_items policy m
  end.

Definition for_prompt (debug_assertions : bool) (input_modalities : list InputModality)
    (m : ContextManager) : option (list ResponseItem) :=
  normalize_history debug_assertions input_modalities (items m).

Definition remove_first_item (m : ContextManager) : ContextManager :=
  match items m with
  | [] => m
  | removed :: rest => set_items (remove_corresponding_for rest removed) m
  end.

Definition remove_last_item (m : ContextManager) : bool * ContextManager :=
  match last (items m) with
  | Some removed =>
      (true, bump (set_items (remove_corresponding_for (removelast (items m)) removed) m))
  | None => (false, m)
  end.

Definition replace (l : list ResponseItem) (m : ContextManager) : ContextManager :=
  bump (set_items l m).

Definition is_contextual_user_message_content (message : list ContentItem) : bool :=
  existsb is_contextual_user_fragment message.
Definition is_inter_agent_instruction_content (content : list ContentItem) : bool :=
  match content with
  | [InputText text] | [OutputText text] => is_inter_agent_json text
  | _ => false
  end.

Definition is_user_turn_boundary (item : ResponseItem) : bool :=
  match item with
  | Message _ role content _ =>
      bool_decide (role = "user") && negb (is_contextual_user_message_content content)
      || bool_decide (role = "assistant") && is_inter_agent_instruction_content content
  | _ => false
  end.

Fixpoint user_message_positions (idx : nat) (l : list ResponseItem) : list nat :=
  match l with
  | [] => []
  | i :: l =>
      if is_user_turn_boundary i then idx :: user_message_positions (S idx) l
      else user_message_positions (S idx) l
  end.

(** [iter().rposition(f)]: the last position. *)
Fixpoint rposition (f : ResponseItem -> bool) (l : list ResponseItem) : option nat :=
  match l with
  | [] => None
  | i :: l => match rposition f l with
              | Some n => Some (S n)
              | None => if f i then Some 0 else None
              end
  end.

Definition replace_last_turn_images (placeholder : str) (m : ContextManager) :
    bool * ContextManager :=
  match rposition (fun i => match i with
                            | FunctionCallOutput _ _ => true
                            | _ => is_user_turn_boundary i
                            end) (items m) with
  | None => (false, m)
  | Some index =>
      match items m !! index with
      | Some (FunctionCallOutput call_id output) =>
          match body output with
          | Text _ => (false, m)
          | ContentItems content_items =>
              let is_image c := match c with OutInputImage _ _ => true | _ => false end in
              let replaced := existsb is_image content_items in
              let content_items :=
                map (fun c => if is_image c then OutInputText placeholder else c) content_items in
              let m := set_items (<[index := FunctionCallOutput call_id
                                     (mkPayload (ContentItems content_items) (success output))]>
                                    (items m)) m in
              (replaced, if replaced then bump m else m)
          end
      | _ => (false, m)
      end
  end.

(** The loop of [trim_pre_turn_context_updates]. *)
Fixpoint trim_pre_turn_context_updates (snapshot : list ResponseItem)
    (first_instruction_turn_idx cut_idx : nat) (reference : option TurnContextItem) :
    nat * option TurnContextItem :=
  match cut_idx with
  | 0 => (cut_idx, reference)
  | S before =>
      if first_instruction_turn_idx <? cut_idx then
        match snapshot !! before with
        | Some (Message _ role content _) =>
            if bool_decide (role = "developer") && is_contextual_dev_message_content content then
              trim_pre_turn_context_updates snapshot first_instruction_turn_idx before
                (if has_non_contextual_dev_message_content content then None else reference)
            else if bool_decide (role = "user") && is_contextual_user_message_content content then
              trim_pre_turn_context_updates snapshot first_instruction_turn_idx before reference
            else (cut_idx, reference)
        | _ => (cut_idx, reference)
        end
      else (cut_idx, reference)
  end.

Definition drop_last_n_user_turns (num_turns : N) (m : ContextManager) : option ContextManager :=
  if (num_turns =? 0)%N then Some m
  else
    let snapshot := items m in
    let user_positions := user_message_positions 0 snapshot in
    match user_positions with
    | [] => Some (replace snapshot m)
    | first_instruction_turn_idx :: _ =>
        let n_from_end := N.to_nat num_turns in
        cut_idx ← if (length user_positions <=? n_from_end)%nat then Some first_instruction_turn_idx
                  else user_positions !! (length user_positions - n_from_end);
        let '(cut_idx, reference) :=
          trim_pre_turn_context_updates snapshot first_instruction_turn_idx cut_idx
            (reference_context_item m) in
        Some (replace (take cut_idx snapshot) (set_reference_context_item reference m))
    end.
End Manager.
End Items.
Arguments ResponseItem : clear implicits.
Arguments ContextManager : clear implicits.

(** ** Calls and outputs *)

(** What an output answers: the kind of the call and its id. *)
Inductive Kind := KFunction | KCustom | KSearch.
#[export] Instance Kind_eq_dec : EqDecision Kind.
Proof. solve_decision. Defined.

Section Pairing.
Context {Opaque : Type}.
Abbreviation item := (ResponseItem Opaque).
Implicit Types (i x : item) (l : list item) (k : Kind * str).

Definition call_key i : option (Kind * str) :=
  match i with
  | FunctionCall _ _ _ _ c => Some (KFunction, c)
  | LocalShellCall _ (Some c) _ _ => Some (KFunction, c)
  | CustomToolCall _ _ c _ _ => Some (KCustom, c)
  | ToolSearchCall _ (Some c) _ _ _ => Some (KSearch, c)
  | _ => None
  end.

Definition output_key i : option (Kind * str) :=
  match i with
  | FunctionCallOutput c _ => Some (KFunction, c)
  | CustomToolCallOutput c _ _ => Some (KCustom, c)
  | ToolSearchOutput (Some c) _ _ _ => Some (KSearch, c)
  | _ => None
  end.

(** A search the server ran needs no call in the transcript. *)
Definition server_side i : bool :=
  match i with ToolSearchOutput _ _ execution _ => bool_decide (execution = "server") | _ => false end.

Definition calls l : list (Kind * str) := omap call_key l.
Definition outputs l : list (Kind * str) := omap output_key l.

(** Every call has an output and every output its call. *)
Definition paired l : Prop :=
  (forall k, k ∈ calls l -> k ∈ outputs l) /\
  (forall i k, i ∈ l -> output_key i = Some k -> server_side i = false -> k ∈ calls l).

Lemma calls_elem l k : k ∈ calls l <-> exists i, i ∈ l /\ call_key i = Some k.
Proof. apply list_elem_of_omap. Qed.

Lemma outputs_elem l k : k ∈ outputs l <-> exists i, i ∈ l /\ output_key i = Some k.
Proof. apply list_elem_of_omap. Qed.

(** The tests of the code are tests of keys. *)
Lemma is_function_output_key c i :
  is_function_output c i = true <-> output_key i = Some (KFunction, c).
Proof. destruct i as [| | | | | | | |[?|] | | | | | |]; cbn; rewrite ?bool_decide_eq_true; naive_solver. Qed.
Lemma is_custom_output_key c i :
  is_custom_output c i = true <-> output_key i = Some (KCustom, c).
Proof. destruct i as [| | | | | | | |[?|] | | | | | |]; cbn; rewrite ?bool_decide_eq_true; naive_solver. Qed.
Lemma is_search_output_key c i :
  is_search_output c i = true <-> output_key i = Some (KSearch, c).
Proof. destruct i as [| | | | | | | |[?|] | | | | | |]; cbn; rewrite ?bool_decide_eq_true; naive_solver. Qed.
Lemma is_custom_call_key c i : is_custom_call c i = true <-> call_key i = Some (KCustom, c).
Proof.
  destruct i as [| |? [?|]| |? [?|]| | | | | | | | | |]; cbn; rewrite ?bool_decide_eq_true; naive_solver.
Qed.
Lemma is_search_call_key c i : is_search_call c i = true <-> call_key i = Some (KSearch, c).
Proof.
  destruct i as [| |? [?|]| |? [?|]| | | | | | | | | |]; cbn; rewrite ?bool_decide_eq_true; naive_solver.
Qed.
Lemma is_any_function_call_key c i :
  is_function_call c i = true \/ is_shell_call c i = true <-> call_key i = Some (KFunction, c).
Proof.
  destruct i as [| |? [?|]| |? [?|]| | | | | | | | | |]; cbn; rewrite ?bool_decide_eq_true; naive_solver.
Qed.

Lemma existsb_output (f : item -> bool) k l :
  (forall i, f i = true <-> output_key i = Some k) ->
  existsb f l = true <-> k ∈ outputs l.
Proof.
  intros Hf. rewrite existsb_exists, outputs_elem.
  split; intros (i & Hi & H); exists i; by rewrite list_elem_of_In, Hf in *.
Qed.

(** *** Inserting the missing outputs *)

(** The output that is missing after [i], whatever the build. *)
Definition missing_of l i : option item :=
  match missing_output false l i with Some o => o | None => None end.

(** What the reverse insertions amount to. *)
Definition with_outputs l : list item := concat (map (fun i => i :: option_list (missing_of l i)) l).

Lemma missing_output_release l i : missing_output false l i = Some (missing_of l i).
Proof. unfold missing_of. destruct i as [| |? [?|]| |? [?|]| | | | | | | | | |]; cbn; repeat case_match; done. Qed.

Lemma missing_output_debug l i o : missing_output true l i = Some o -> o = missing_of l i.
Proof.
  unfold missing_of. destruct i as [| |? [?|]| |? [?|]| | | | | | | | | |]; cbn;
    repeat case_match; cbn; congruence.
Qed.

Lemma missing_outputs_build d l idx l' r :
  missing_outputs d l idx l' = Some r -> missing_outputs false l idx l' = Some r.
Proof.
  revert idx r. induction l' as [|i l' IH]; intros idx r H; [done|]. cbn in *.
  apply bind_Some in H as (o & Ho & H). apply bind_Some in H as (rest & Hrest & H).
  assert (missing_output false l i = Some o) as ->.
  { destruct d; [|done]. apply missing_output_debug in Ho as ->. apply missing_output_release. }
  cbn. by rewrite (IH _ _ Hrest).
Qed.

Lemma missing_outputs_total l idx l' : is_Some (missing_outputs false l idx l').
Proof.
  revert idx. induction l' as [|i l' IH]; intros idx; cbn; [eauto|].
  rewrite missing_output_release. cbn. destruct (IH (S idx)) as [r ->]. cbn. eauto.
Qed.

(** The insertions at increasing positions of a suffix. *)
Lemma insert_outputs_suffix l pre l' missing :
  missing_outputs false l (length pre) l' = Some missing ->
  foldr (fun '(idx, o) acc => acc ← acc; vec_insert (idx + 1) o acc) (Some (pre ++ l')) missing =
    Some (pre ++ concat (map (fun i => i :: option_list (missing_of l i)) l')).
Proof.
  revert pre missing. induction l' as [|i l' IH]; intros pre missing H; cbn in H.
  { by injection H as <-. }
  rewrite missing_output_release in H. cbn in H. apply bind_Some in H as (rest & Hrest & H).
  injection H as <-.
  specialize (IH (pre ++ [i]) rest). rewrite length_app, Nat.add_1_r in IH. specialize (IH Hrest).
  rewrite <- !app_assoc in IH. cbn [app] in IH. cbn [map concat].
  destruct (missing_of l i) as [o|]; cbn [foldr option_list app]; [|exact IH].
  rewrite IH. cbn [mbind option_bind]. rewrite vec_insert_Some by (rewrite length_app; cbn; lia).
  rewrite Nat.add_1_r, take_app_ge, drop_app_ge by lia.
  replace (S (length pre) - length pre) with 1 by lia. cbn. by rewrite <- app_assoc.
Qed.

Lemma ensure_with_outputs l : ensure_call_outputs_present false l = Some (with_outputs l).
Proof.
  unfold ensure_call_outputs_present, insert_outputs.
  destruct (missing_outputs_total l 0 l) as [missing Hm]. rewrite Hm. cbn [mbind option_bind].
  rewrite <- fold_left_rev_right, rev_involutive.
  pose proof (insert_outputs_suffix l [] l missing Hm) as H. cbn [app] in H. unfold with_outputs. rewrite <- H.
  clear. induction missing as [|[idx o] missing IH]; [done|]. cbn [foldr]. by rewrite IH.
Qed.

Lemma ensure_debug l r :
  ensure_call_outputs_present true l = Some r -> r = with_outputs l.
Proof.
  unfold ensure_call_outputs_present. intros H. apply bind_Some in H as (missing & Hm & H).
  apply missing_outputs_build in Hm. pose proof (ensure_with_outputs l) as He.
  unfold ensure_call_outputs_present in He. rewrite Hm in He. cbn in He. congruence.
Qed.

(** The inserted output answers its call. *)
Lemma missing_of_key l i o :
  missing_of l i = Some o ->
  exists k, call_key i = Some k /\ output_key o = Some k /\ server_side o = false /\
    call_key o = None /\ k ∉ outputs l.
Proof.
  assert (forall (f : item -> bool) k, (forall i, f i = true <-> output_key i = Some k) ->
    existsb f l = false -> k ∉ outputs l) as Hno.
  { intros f k Hf He Hk. rewrite <- (existsb_output f k l Hf) in Hk. congruence. }
  unfold missing_of. destruct i as [| |? [c|]| |? [c|]| |? ? c| | | | | | | |]; cbn; try done.
  - destruct (existsb _ l) eqn:E; [done|]. intros [= <-]. eexists. split_and!; try done.
    eapply Hno; [apply is_function_output_key|done].
  - destruct (existsb _ l) eqn:E; [done|]. intros [= <-]. eexists. split_and!; try done.
    eapply Hno; [apply is_function_output_key|done].
  - destruct (existsb _ l) eqn:E; [done|]. intros [= <-]. eexists. split_and!; try done.
    eapply Hno; [apply is_search_output_key|done].
  - destruct (existsb _ l) eqn:E; [done|]. intros [= <-]. eexists. split_and!; try done.
    eapply Hno; [apply is_custom_output_key|done].
Qed.

Lemma missing_of_None l i k : call_key i = Some k -> missing_of l i = None -> k ∈ outputs l.
Proof.
  assert (forall (f : item -> bool) k, (forall i, f i = true <-> output_key i = Some k) ->
    existsb f l = true -> k ∈ outputs l) as Hyes.
  { intros f k' Hf He. by rewrite <- (existsb_output f k' l Hf). }
  unfold missing_of. destruct i as [| |? [c|]| |? [c|]| |? ? c| | | | | | | |]; cbn; try done;
    intros [= <-]; destruct (existsb _ l) eqn:E; try done; intros _.
  - eapply Hyes; [apply is_function_output_key|done].
  - eapply Hyes; [apply is_function_output_key|done].
  - eapply Hyes; [apply is_search_output_key|done].
  - eapply Hyes; [apply is_custom_output_key|done].
Qed.

Lemma with_outputs_elem l x :
  x ∈ with_outputs l <-> exists i, i ∈ l /\ (x = i \/ missing_of l i = Some x).
Proof.
  unfold with_outputs. rewrite list_elem_of_In, in_concat. split.
  - intros (ys & (i & <- & Hi)%in_map_iff & Hx). exists i. rewrite list_elem_of_In. split; [done|].
    destruct Hx as [->|Hx]; [by left|right]. destruct (missing_of l i); cbn in Hx; [|done].
    by destruct Hx as [->|[]].
  - intros (i & Hi & Hx). exists (i :: option_list (missing_of l i)). split.
    + apply in_map_iff. exists i. split; [done|]. by apply list_elem_of_In.
    + destruct Hx as [-> | ->]; [by left|right; by left].
Qed.

Lemma with_outputs_calls l k : k ∈ calls (with_outputs l) <-> k ∈ calls l.
Proof.
  rewrite !calls_elem. split.
  - intros (x & Hx & Hk). apply with_outputs_elem in Hx as (i & Hi & [->|Hm]); [eauto|].
    apply missing_of_key in Hm as (? & _ & _ & _ & ? & _). congruence.
  - intros (i & Hi & Hk). exists i. split; [|done]. apply with_outputs_elem. eauto.
Qed.

Lemma with_outputs_answered l k : k ∈ calls l -> k ∈ outputs (with_outputs l).
Proof.
  intros Hk. apply calls_elem in Hk as (i & Hi & Hk). apply outputs_elem.
  destruct (missing_of l i) as [o|] eqn:E.
  - exists o. split; [apply with_outputs_elem; eauto|].
    apply missing_of_key in E as (k' & ? & ? & _). congruence.
  - pose proof (missing_of_None l i k Hk E) as Ho. apply outputs_elem in Ho as (o & Ho & Hko).
    exists o. split; [apply with_outputs_elem; eauto|done].
Qed.

(** *** Removing the orphans *)

Lemma retained_spec l i :
  retained l i = true <->
  forall k, output_key i = Some k -> server_side i = false -> k ∈ calls l.
Proof.
  assert (forall c, c ∈ function_call_ids l \/ c ∈ local_shell_call_ids l <-> (KFunction, c) ∈ calls l) as Hf.
  { intros c. unfold function_call_ids, local_shell_call_ids.
    rewrite !elem_of_list_to_set, !list_elem_of_omap, calls_elem. split.
    - intros [(x & Hx & H)|(x & Hx & H)]; exists x; (split; [done|]).
      + destruct x; try done. by injection H as <-.
      + destruct x; try done. by subst.
    - intros (x & Hx & H). destruct x as [| |? [?|]| |? [?|]| | | | | | | | | |]; try done;
        injection H as <-; [right|left]; eexists; eauto. }
  assert (forall c, c ∈ custom_tool_call_ids l <-> (KCustom, c) ∈ calls l) as Hc.
  { intros c. unfold custom_tool_call_ids. rewrite elem_of_list_to_set, list_elem_of_omap, calls_elem.
    split; intros (x & Hx & H); exists x; (split; [done|]);
      destruct x as [| |? [?|]| |? [?|]| | | | | | | | | |]; try done; by injection H as <-. }
  assert (forall c, c ∈ tool_search_call_ids l <-> (KSearch, c) ∈ calls l) as Hs.
  { intros c. unfold tool_search_call_ids. rewrite elem_of_list_to_set, list_elem_of_omap, calls_elem.
    split; intros (x & Hx & H); exists x; (split; [done|]);
      destruct x as [| |? [?|]| |? [?|]| | | | | | | | | |]; try done; by injection H as <-. }
  destruct i as [| | | | |c ?| |c ? ?|[c|] ? ex ?| | | | | |]; cbn; try (split; [done|by intros _]).
  - rewrite <- bool_decide_or, bool_decide_eq_true, Hf. naive_solver.
  - rewrite bool_decide_eq_true, Hc. naive_solver.
  - destruct (decide (ex = "server")) as [->|Hne].
    + rewrite bool_decide_eq_true_2 by done. naive_solver.
    + rewrite bool_decide_eq_false_2 by done. rewrite bool_decide_eq_true, Hs. naive_solver.
  - destruct (bool_decide (ex = "server")); naive_solver.
Qed.

Lemma retain_release (keep : item -> bool) l : retain false keep l = Some (List.filter keep l).
Proof.
  induction l as [|i l IH]; [done|]. cbn. rewrite IH. by destruct (keep i).
Qed.

Lemma retain_debug (keep : item -> bool) l r : retain true keep l = Some r -> r = List.filter keep l.
Proof.
  revert r. induction l as [|i l IH]; intros r H; cbn in *; [congruence|].
  destruct (keep i); [|done]. apply fmap_Some in H as (r' & Hr & ->). f_equal. by apply IH.
Qed.

Definition without_orphans l : list item := List.filter (retained l) l.

Lemma without_orphans_elem l i : i ∈ without_orphans l <-> i ∈ l /\ retained l i = true.
Proof. unfold without_orphans. by rewrite !list_elem_of_In, filter_In. Qed.

Lemma call_no_output i k : call_key i = Some k -> output_key i = None.
Proof. by destruct i as [| |? [?|]| |? [?|]| | | | | | | | | |]. Qed.

Lemma without_orphans_calls l k : k ∈ calls (without_orphans l) <-> k ∈ calls l.
Proof.
  rewrite !calls_elem. split; intros (i & Hi & Hk); exists i; (split; [|done]).
  - by apply without_orphans_elem in Hi as [Hi _].
  - apply without_orphans_elem. split; [done|]. apply retained_spec. intros k' Hk'.
    rewrite (call_no_output i k Hk) in Hk'. done.
Qed.

(** Filling in and removing gives a paired list. *)
Lemma normalized_paired l : paired (without_orphans (with_outputs l)).
Proof.
  split.
  - intros k Hk. rewrite without_orphans_calls in Hk. pose proof Hk as Hk'.
    rewrite with_outputs_calls in Hk. apply with_outputs_answered, outputs_elem in Hk as (o & Ho & Hko).
    apply outputs_elem. exists o. split; [|done]. apply without_orphans_elem. split; [done|].
    apply retained_spec. intros k' Hk2 _. congruence.
  - intros i k Hi Hk Hserver. apply without_orphans_elem in Hi as [Hi Hr].
    rewrite without_orphans_calls. by apply (proj1 (retained_spec _ _) Hr).
Qed.

(** A paired list is left alone. *)
Lemma paired_with_outputs l : paired l -> with_outputs l = l.
Proof.
  intros [Hcalls _]. unfold with_outputs.
  assert (forall l', (forall i, i ∈ l' -> i ∈ l) ->
    concat (map (fun i => i :: option_list (missing_of l i)) l') = l') as H; [|by apply H].
  induction l' as [|i l' IH]; intros Hin; [done|]. cbn.
  rewrite IH by (intros j Hj; apply Hin; by right). f_equal.
  destruct (missing_of l i) as [o|] eqn:E; [|done]. exfalso.
  apply missing_of_key in E as (k & Hk & _ & _ & _ & Hno). apply Hno, Hcalls, calls_elem.
  exists i. split; [|done]. apply Hin. left.
Qed.

Lemma filter_all (f : item -> bool) l : (forall i, i ∈ l -> f i = true) -> List.filter f l = l.
Proof.
  induction l as [|i l IH]; intros H; [done|]. cbn. rewrite (H i) by left.
  f_equal. apply IH. intros j Hj. apply H. by right.
Qed.

Lemma paired_without_orphans l : paired l -> without_orphans l = l.
Proof.
  intros [_ Hout]. apply filter_all. intros i Hi. apply retained_spec. intros k Hk Hs. eauto.
Qed.

(** *** Stripping images *)

Definition no_image i : bool :=
  match i with
  | Message _ _ content _ =>
      forallb (fun c => match c with InputImage _ _ => false | _ => true end) content
  | FunctionCallOutput _ o | CustomToolCallOutput _ _ o =>
      match body o with
      | ContentItems cs => forallb (fun c => match c with OutInputImage _ _ => false | _ => true end) cs
      | Text _ => true
      end
  | ImageGenerationCall _ _ _ result => is_empty result
  | _ => true
  end.

Lemma strip_item_no_image i : no_image (strip_item i) = true.
Proof.
  destruct i; cbn; try done.
  - rewrite forallb_forall. intros c (c' & <- & _)%in_map_iff. by destruct c'.
  - unfold strip_payload. destruct (body output) eqn:E; cbn; [by rewrite E|].
    rewrite forallb_forall. intros c (c' & <- & _)%in_map_iff. by destruct c'.
  - unfold strip_payload. destruct (body output) eqn:E; cbn; [by rewrite E|].
    rewrite forallb_forall. intros c (c' & <- & _)%in_map_iff. by destruct c'.
Qed.

Lemma strip_item_keys i :
  call_key (strip_item i) = call_key i /\ output_key (strip_item i) = output_key i /\
  server_side (strip_item i) = server_side i.
Proof. by destruct i. Qed.

Lemma omap_map {A B C} (f : B -> option C) (g : A -> B) (xs : list A) :
  omap f (map g xs) = omap (fun a => f (g a)) xs.
Proof. induction xs as [|a xs IH]; [done|]. cbn. by rewrite IH. Qed.

Lemma omap_ext' {A B} (f g : A -> option B) (xs : list A) : (forall a, f a = g a) -> omap f xs = omap g xs.
Proof. intros H. induction xs as [|a xs IH]; [done|]. cbn. by rewrite H, IH. Qed.

Lemma strip_paired l : paired l -> paired (map strip_item l).
Proof.
  assert (calls (map strip_item l) = calls l) as Hc.
  { unfold calls. rewrite omap_map. apply omap_ext'. intros i. apply strip_item_keys. }
  assert (outputs (map strip_item l) = outputs l) as Ho.
  { unfold outputs. rewrite omap_map. apply omap_ext'. intros i. apply strip_item_keys. }
  intros [H1 H2]. split.
  - intros k. rewrite Hc, Ho. apply H1.
  - intros i k Hi Hk Hs. rewrite Hc. apply list_elem_of_fmap in Hi as (j & -> & Hj).
    destruct (strip_item_keys j) as (_ & Hko & Hks). rewrite Hko in Hk. rewrite Hks in Hs. eauto.
Qed.

(** The items that are no outputs. *)
Definition not_output i : bool :=
  match i with
  | FunctionCallOutput _ _ | CustomToolCallOutput _ _ _ | ToolSearchOutput _ _ _ _ => false
  | _ => true
  end.

Lemma not_output_with_outputs l :
  List.filter not_output (without_orphans (with_outputs l)) = List.filter not_output l.
Proof.
  unfold without_orphans. set (r := retained (with_outputs l)).
  assert (forall i, not_output i = true -> r i = true) as Hr.
  { intros i Hi. apply retained_spec. intros k Hk. by destruct i. }
  assert (forall xs, List.filter not_output (List.filter r xs) = List.filter not_output xs) as ->.
  { induction xs as [|i xs IH]; [done|]. cbn. destruct (r i) eqn:E; cbn; rewrite IH; [done|].
    destruct (not_output i) eqn:En; [|done]. rewrite Hr in E by done. done. }
  unfold with_outputs.
  assert (forall l', List.filter not_output
      (concat (map (fun i => i :: option_list (missing_of l i)) l')) = List.filter not_output l') as H;
    [|apply H].
  induction l' as [|i l' IH]; [done|]. cbn.
  assert (List.filter not_output (option_list (missing_of l i)) = []) as Hnil.
  { destruct (missing_of l i) as [o|] eqn:E; [|done].
    apply missing_of_key in E as (k & _ & Ho & _). cbn. by destruct o. }
  destruct (not_output i); rewrite List.filter_app, Hnil, IH; done.
Qed.

(** *** Removing an item and its partner *)

(** What the removal of [i] looks for. *)
Definition partner i x : Prop :=
  (exists k, call_key i = Some k /\ output_key x = Some k) \/
  (exists k, output_key i = Some k /\ call_key x = Some k).

Lemma remove_first_matching_spec (f : item -> bool) l :
  (exists y l1 l2, f y = true /\ l = l1 ++ y :: l2 /\ remove_first_matching f l = l1 ++ l2) \/
  ((forall y, y ∈ l -> f y = false) /\ remove_first_matching f l = l).
Proof.
  induction l as [|i l IH].
  - right. split; [|done]. intros y H. by apply elem_of_nil in H.
  - cbn. destruct (f i) eqn:E.
    + left. by exists i, [], l.
    + destruct IH as [(y & l1 & l2 & Hy & -> & ->)|[Hno ->]].
      * left. by exists y, (i :: l1), l2.
      * right. split; [|done]. intros y Hy. apply elem_of_cons in Hy as [->|Hy]; [done|]. by apply Hno.
Qed.

(** The removal takes out one partner, if there is one. *)
Lemma remove_corresponding_for_spec l i :
  (exists y l1 l2, partner i y /\ l = l1 ++ y :: l2 /\ remove_corresponding_for l i = l1 ++ l2) \/
  ((forall y, y ∈ l -> ~ partner i y) /\ remove_corresponding_for l i = l).
Proof.
  assert (forall (f : item -> bool),
    (forall y, f y = true -> partner i y) -> (forall y, y ∈ l -> partner i y -> f y = true) ->
    remove_corresponding_for l i = remove_first_matching f l ->
    (exists y l1 l2, partner i y /\ l = l1 ++ y :: l2 /\ remove_corresponding_for l i = l1 ++ l2) \/
    ((forall y, y ∈ l -> ~ partner i y) /\ remove_corresponding_for l i = l)) as Hgo.
  { intros f Hf Hf' ->. destruct (remove_first_matching_spec f l) as [(y & l1 & l2 & Hy & H)|[Hno H]].
    - left. exists y, l1, l2. split; [by apply Hf|done].
    - right. split; [|done]. intros y Hy Hp. specialize (Hf' y Hy Hp). rewrite Hno in Hf' by done. done. }
  assert ((forall y, ~ partner i y) -> remove_corresponding_for l i = l ->
    (exists y l1 l2, partner i y /\ l = l1 ++ y :: l2 /\ remove_corresponding_for l i = l1 ++ l2) \/
    ((forall y, y ∈ l -> ~ partner i y) /\ remove_corresponding_for l i = l)) as Hnone by eauto.
  unfold partner in *.
  destruct i as [| |? [c|]|? ? ? ? c|? [c|]|c|? ? c|c|[c|]| | | | | |];
    try (apply Hnone; [clear; intros y; cbn; naive_solver|done]).
  - apply (Hgo (is_function_output c)); [| |done]; clear; intros y; rewrite is_function_output_key; cbn; naive_solver.
  - apply (Hgo (is_function_output c)); [| |done]; clear; intros y; rewrite is_function_output_key; cbn; naive_solver.
  - apply (Hgo (is_search_output c)); [| |done]; clear; intros y; rewrite is_search_output_key; cbn; naive_solver.
  - cbn [remove_corresponding_for] in *. destruct (existsb (is_function_call c) l) eqn:E.
    + destruct (remove_first_matching_spec (is_function_call c) l) as [(y & l1 & l2 & Hy & H)|[Hno H]].
      * left. exists y, l1, l2. split; [|done]. right. exists (KFunction, c).
        split; [done|]. apply is_any_function_call_key. by left.
      * apply existsb_exists in E as (y & Hy & Hyt). apply list_elem_of_In, Hno in Hy. congruence.
    + apply (Hgo (is_shell_call c)); [| |done].
      * intros y Hy. right. exists (KFunction, c). split; [done|]. apply is_any_function_call_key. by right.
      * intros y Hy [(k & ? & _)|(k & [= <-] & Hk)]; [done|].
        apply is_any_function_call_key in Hk as [Hk|Hk]; [|done].
        assert (existsb (is_function_call c) l = true); [|congruence].
        apply existsb_exists. exists y. by rewrite <- list_elem_of_In.
  - apply (Hgo (is_custom_output c)); [| |done]; clear; intros y; rewrite is_custom_output_key; cbn; naive_solver.
  - apply (Hgo (is_custom_call c)); [| |done]; clear; intros y; rewrite is_custom_call_key; cbn; naive_solver.
  - apply (Hgo (is_search_call c)); [| |done]; clear; intros y; rewrite is_search_call_key; cbn; naive_solver.
Qed.

(** Calls and outputs with distinct keys, each call answered. *)
Definition well_paired l : Prop := paired l /\ NoDup (calls l) /\ NoDup (outputs l).

#[export] Instance calls_Permutation : Proper ((≡ₚ) ==> (≡ₚ)) calls.
Proof. unfold calls. solve_proper. Qed.
#[export] Instance outputs_Permutation : Proper ((≡ₚ) ==> (≡ₚ)) outputs.
Proof. unfold outputs. solve_proper. Qed.

Lemma well_paired_perm l l' : l ≡ₚ l' -> well_paired l -> well_paired l'.
Proof.
  intros Hp [[H1 H2] [Hc Ho]]. split; [split|split].
  - intros k. rewrite <- Hp. apply H1.
  - intros i k Hi. rewrite <- Hp in Hi. rewrite <- Hp. by apply H2.
  - by rewrite <- Hp.
  - by rewrite <- Hp.
Qed.

(** Taking out an item together with its partner keeps the rest paired. *)
Lemma well_paired_remove i l : well_paired (i :: l) -> well_paired (remove_corresponding_for l i).
Proof.
  intros Hw. destruct (remove_corresponding_for_spec l i) as [(y & l1 & l2 & Hy & -> & ->)|[Hno ->]].
  - assert (i :: l1 ++ y :: l2 ≡ₚ i :: y :: l1 ++ l2) as Hp by solve_Permutation.
    apply (well_paired_perm _ _ Hp) in Hw. clear Hp. revert Hw. generalize (l1 ++ l2) as l. clear l1 l2.
    intros l [[H1 H2] [Hc Ho]].
    assert (exists k, (calls (i :: y :: l) = k :: calls l) /\ (outputs (i :: y :: l) = k :: outputs l))
      as (k & Ec & Eo).
    { destruct Hy as [(k & Hi & Hy)|(k & Hi & Hy)]; exists k; unfold calls, outputs; cbn;
        rewrite ?Hi, ?Hy, ?(call_no_output _ _ Hi), ?(call_no_output _ _ Hy);
        [destruct (call_key y) eqn:E|destruct (call_key i) eqn:E]; try done;
        apply call_no_output in E; congruence. }
    rewrite Ec, Eo in *. apply NoDup_cons in Hc as [Hkc Hc]. apply NoDup_cons in Ho as [Hko Ho].
    split; [split|split]; [| |done|done].
    + intros k' Hk'. assert (k' ∈ k :: outputs l) as H by (apply H1; by right).
      apply elem_of_cons in H as [->|H]; done.
    + intros j k' Hj Hk' Hs. assert (k' ∈ k :: calls l) as H.
      { apply (H2 j); [|done|done]. by do 2 right. }
      apply elem_of_cons in H as [->|H]; [|done].
      destruct Hko. apply outputs_elem. eauto.
  - destruct Hw as [[H1 H2] [Hc Ho]].
    assert (call_key i = None) as Hi.
    { destruct (call_key i) as [k|] eqn:E; [|done]. exfalso.
      assert (k ∈ outputs (i :: l)) as Hk by (apply H1, calls_elem; exists i; split; [left|done]).
      apply outputs_elem in Hk as (o & Ho' & Hk). apply elem_of_cons in Ho' as [->|Ho'].
      - rewrite (call_no_output _ _ E) in Hk. done.
      - apply (Hno o Ho'). left. eauto. }
    assert (calls (i :: l) = calls l) as Ec by (unfold calls; cbn; by rewrite Hi).
    rewrite Ec in *.
    split; [split|split]; [| |done|].
    + intros k Hk. pose proof (H1 k Hk) as Hko. apply outputs_elem in Hko as (o & Ho' & Hk').
      apply elem_of_cons in Ho' as [->|Ho'].
      * apply calls_elem in Hk as (c & Hc' & Hk). destruct (Hno c Hc'). right. eauto.
      * apply outputs_elem. eauto.
    + intros j k Hj Hk Hs. apply (H2 j); [by right|done|done].
    + revert Ho. unfold outputs. cbn. destruct (output_key i); [|done]. by intros [_ ?]%NoDup_cons.
Qed.

Context {TurnContextItem : Type}.
Implicit Types (m : ContextManager Opaque TurnContextItem).

(** C35. What is sent to the model is paired: in a release build normalisation
    always succeeds, every call then has an output of its kind and every
    output that is not the server's has its call; no item that is not an
    output is lost or reordered; a list that is paired already is sent as it
    is when the model takes images, and without images when it does not.  A
    debug build panics or agrees. *)
Theorem normalize_history_paired l modalities :
  exists r, normalize_history false modalities l = Some r /\
    paired r /\
    (paired l -> r = strip_images_when_unsupported modalities l) /\
    List.filter not_output r =
      strip_images_when_unsupported modalities (List.filter not_output l) /\
    (ImageModality ∉ modalities -> forallb no_image r = true) /\
    (forall r', normalize_history true modalities l = Some r' -> r' = r).
Proof.
  exists (strip_images_when_unsupported modalities (without_orphans (with_outputs l))).
  unfold normalize_history, remove_orphan_outputs. split_and!.
  - rewrite ensure_with_outputs. cbn [mbind option_bind]. by rewrite retain_release.
  - unfold strip_images_when_unsupported. case_bool_decide; [|apply strip_paired]; apply normalized_paired.
  - intros Hp. by rewrite paired_with_outputs, paired_without_orphans.
  - unfold strip_images_when_unsupported. rewrite <- (not_output_with_outputs l).
    case_bool_decide; [done|]. induction (without_orphans _) as [|i xs IH]; [done|].
    cbn [map List.filter]. assert (not_output (strip_item i) = not_output i) as -> by by destruct i.
    by destruct (not_output i); cbn [map]; rewrite IH.
  - intros Hno. unfold strip_images_when_unsupported. rewrite bool_decide_eq_false_2 by done.
    apply forallb_forall. intros x (i & <- & _)%in_map_iff. apply strip_item_no_image.
  - intros r' H. apply bind_Some in H as (xs & Hxs & H). apply ensure_debug in Hxs as ->.
    apply bind_Some in H as (ys & Hys & H). apply retain_debug in Hys as ->. by injection H as <-.
Qed.

(** Shrinking the history from either end keeps it paired: when every call
    has exactly one output and every output its call, the same holds after
    [remove_first_item] and [remove_last_item]. *)
Theorem remove_keeps_pairs m :
  well_paired (items m) ->
  well_paired (items (remove_first_item m)) /\ well_paired (items (remove_last_item m).2).
Proof.
  intros Hw. split.
  - unfold remove_first_item. destruct (items m) as [|i l] eqn:E; [by rewrite E|].
    by apply well_paired_remove.
  - unfold remove_last_item. destruct (last (items m)) as [i|] eqn:E; [|done].
    cbn [snd items bump set_items]. apply well_paired_remove.
    apply last_Some in E as [l' E]. rewrite E in *. rewrite removelast_last.
    eapply well_paired_perm; [|done]. by rewrite Permutation_app_comm.
Qed.
End Pairing.

(** Two calls with their outputs. *)
Lemma remove_keeps_pairs_witness :
  let m := mkManager (Opaque := unit) (TurnContextItem := unit)
    [FunctionCall None "f" None "{}" "1"; CustomToolCall None None "1" "t" "";
     CustomToolCallOutput "1" None (from_text "a"); FunctionCallOutput "1" (from_text "b")]
    0 None None in
  well_paired (items m) /\
  (well_paired (items (remove_first_item m)) /\ well_paired (items (remove_last_item m).2)).
Proof.
  intros m.
  assert (well_paired (items m)) as Hw.
  { split; [split|split].
    - intros k Hk. apply (bool_decide_unpack _). cbn in Hk.
      repeat (apply elem_of_cons in Hk as [->|Hk]; [by vm_compute|]). by apply elem_of_nil in Hk.
    - intros i k Hi Hk _. cbn in Hi.
      repeat (apply elem_of_cons in Hi as [->|Hi];
        [try (by cbn in Hk); injection Hk as <-; apply (bool_decide_unpack _); by vm_compute|]).
      by apply elem_of_nil in Hi.
    - apply (bool_decide_unpack _). by vm_compute.
    - apply (bool_decide_unpack _). by vm_compute. }
  split; [exact Hw|]. exact (remove_keeps_pairs m Hw).
Defined.

(** ** Rollback *)

Section Rollback.
Context {Opaque TurnContextItem : Type}.
Variable is_contextual_user_fragment : ContentItem -> bool.
Variable is_inter_agent_json : str -> bool.
Abbreviation item := (ResponseItem Opaque).
Abbreviation boundary := (is_user_turn_boundary (Opaque := Opaque) is_contextual_user_fragment is_inter_agent_json).
Abbreviation positions := (user_message_positions (Opaque := Opaque) is_contextual_user_fragment is_inter_agent_json).
Implicit Types (i : item) (l : list item) (m : ContextManager Opaque TurnContextItem).

(** A context update, which rollback trims before the cut. *)
Definition context_update i : bool :=
  match i with
  | Message _ role content _ =>
      bool_decide (role = "developer") && is_contextual_dev_message_content content ||
      bool_decide (role = "user") &&
        is_contextual_user_message_content is_contextual_user_fragment content
  | _ => false
  end.

(** A developer update that also carries text of another kind. *)
Definition mixed_update i : bool :=
  match i with
  | Message _ role content _ =>
      bool_decide (role = "developer") && is_contextual_dev_message_content content &&
      has_non_contextual_dev_message_content content
  | _ => false
  end.

Definition turns l : list item := List.filter boundary l.

Lemma context_update_no_boundary i : context_update i = true -> boundary i = false.
Proof.
  destruct i as [? role content ?| | | | | | | | | | | | | |]; cbn; try done.
  destruct (is_contextual_user_message_content _ content); cbn.
  - rewrite !andb_false_r, andb_true_r. cbn. intros [H|H]%orb_true_iff.
    + apply andb_prop in H as [->%bool_decide_eq_true _]. done.
    + apply bool_decide_eq_true in H as ->. done.
  - rewrite !andb_false_r, orb_false_r. intros [->%bool_decide_eq_true _]%andb_prop. done.
Qed.

Lemma positions_length idx l : length (positions idx l) = length (turns l).
Proof. revert idx. induction l as [|i l IH]; intros idx; cbn; [done|]. by destruct (boundary i); cbn; rewrite IH. Qed.

Lemma positions_lookup idx l n p :
  positions idx l !! n = Some p ->
  exists pre i post, l = pre ++ i :: post /\ p = idx + length pre /\ boundary i = true /\
    length (turns pre) = n.
Proof.
  revert idx n. induction l as [|i l IH]; intros idx n H; cbn in H; [done|].
  destruct (boundary i) eqn:E.
  - destruct n as [|n]; cbn in H.
    + injection H as <-. exists [], i, l. split_and!; auto.
    + apply IH in H as (pre & j & post & -> & -> & Hj & <-). exists (i :: pre), j, post.
      split_and!; [done|cbn; lia|done|]. cbn. by rewrite E.
  - apply IH in H as (pre & j & post & -> & -> & Hj & <-). exists (i :: pre), j, post.
    split_and!; [done|cbn; lia|done|]. cbn. by rewrite E.
Qed.

(** What the trimming loop leaves. *)
Lemma trim_spec first a b (reference : option TurnContextItem) :
  first <= length a ->
  exists kept trimmed, a = kept ++ trimmed /\
    trim_pre_turn_context_updates is_contextual_user_fragment (a ++ b) first (length a) reference =
      (length kept, if existsb mixed_update trimmed then None else reference) /\
    first <= length kept /\ forallb context_update trimmed = true /\
    (length kept = first \/ exists i, last kept = Some i /\ context_update i = false).
Proof.
  revert b reference. induction a as [|i a IH] using rev_ind; intros b reference Hf.
  { exists [], []. cbn in *. split_and!; auto. left. lia. }
  rewrite length_app, Nat.add_1_r in *. cbn [trim_pre_turn_context_updates].
  destruct (first <? S (length a)) eqn:E; [apply Nat.ltb_lt in E|apply Nat.ltb_ge in E].
  2: { exists (a ++ [i]), []. rewrite app_nil_r, length_app, Nat.add_1_r. split_and!; auto. left. lia. }
  rewrite <- app_assoc, lookup_app_r, Nat.sub_diag by lia. cbn [lookup list_lookup app].
  assert (forall reference', context_update i = true ->
    (if mixed_update i then None else reference) = reference' ->
    exists kept trimmed, a ++ [i] = kept ++ trimmed /\
    trim_pre_turn_context_updates is_contextual_user_fragment (a ++ i :: b) first (length a) reference' =
      (length kept, if existsb mixed_update trimmed then None else reference) /\
    first <= length kept /\ forallb context_update trimmed = true /\
    (length kept = first \/ exists i, last kept = Some i /\ context_update i = false)) as Hgo.
  { intros reference' Hi <-. destruct (IH (i :: b) (if mixed_update i then None else reference))
      as (kept & trimmed & -> & Ht & Hk & Hall & Hlast); [lia|].
    exists kept, (trimmed ++ [i]). split_and!; [by rewrite app_assoc| |done| |done].
    - rewrite Ht, existsb_app. cbn. rewrite orb_false_r.
      by destruct (existsb mixed_update trimmed), (mixed_update i).
    - by rewrite forallb_app, Hall; cbn; rewrite Hi. }
  assert (context_update i = false ->
    exists kept trimmed, a ++ [i] = kept ++ trimmed /\
    (S (length a), reference) =
      (length kept, if existsb mixed_update trimmed then None else reference) /\
    first <= length kept /\ forallb context_update trimmed = true /\
    (length kept = first \/ exists i, last kept = Some i /\ context_update i = false)) as Hstop.
  { intros Hi. exists (a ++ [i]), []. rewrite app_nil_r, length_app, Nat.add_1_r.
    split_and!; auto. right. exists i. by rewrite last_snoc. }
  destruct i as [? role content ?| | | | | | | | | | | | | |]; try (by apply Hstop).
  cbn [context_update mixed_update] in *.
  destruct (bool_decide (role = "developer") && is_contextual_dev_message_content content) eqn:Ed.
  - apply Hgo; [done|]. cbn. by destruct (has_non_contextual_dev_message_content content).
  - destruct (bool_decide (role = "user") && _) eqn:Eu; [by apply Hgo|by apply Hstop].
Qed.

Lemma turns_app a b : turns (a ++ b) = turns a ++ turns b.
Proof. apply List.filter_app. Qed.

Lemma turns_context_updates l : forallb context_update l = true -> turns l = [].
Proof.
  induction l as [|i l IH]; cbn; [done|]. intros [Hi Hl]%andb_prop.
  rewrite (context_update_no_boundary i Hi). by apply IH.
Qed.

(** What rollback by [n] keeps of the items: the preamble before the first
    turn stays, [trimmed] goes with the turns from the cut on. *)
Definition rolled_back (n : nat) l (kept trimmed dropped : list item) : Prop :=
  l = kept ++ trimmed ++ dropped /\
  turns kept = take (length (turns l) - n) (turns l) /\
  forallb context_update trimmed = true /\
  (exists i rest, dropped = i :: rest /\ boundary i = true) /\
  (exists preamble turns_kept, kept = preamble ++ turns_kept /\ turns preamble = [] /\
    (exists first post, l = preamble ++ first :: post /\ boundary first = true) /\
    (turns_kept = [] \/ exists i, last kept = Some i /\ context_update i = false)).

Lemma rolled_back_at n l pre i post cut_pre j cut_post (reference : option TurnContextItem) :
  l = pre ++ i :: post -> boundary i = true -> turns pre = [] ->
  l = cut_pre ++ j :: cut_post -> boundary j = true -> length pre <= length cut_pre ->
  length (turns cut_pre) = length (turns l) - n ->
  exists kept trimmed, rolled_back n l kept trimmed (j :: cut_post) /\
    trim_pre_turn_context_updates is_contextual_user_fragment l (length pre) (length cut_pre) reference =
      (length kept, if existsb mixed_update trimmed then None else reference).
Proof.
  intros Hl Hi Hpre Hl' Hj Hle Hn.
  destruct (trim_spec (length pre) cut_pre (j :: cut_post) reference Hle)
    as (kept & trimmed & -> & Ht & Hk & Hall & Hlast).
  exists kept, trimmed. rewrite <- Hl' in Ht. split; [|done]. rewrite <- app_assoc in Hl'.
  unfold rolled_back. split_and!; [done| |done|by eauto|].
  - rewrite turns_app, (turns_context_updates trimmed), app_nil_r in Hn by done.
    rewrite <- Hn, Hl', turns_app. by rewrite take_app_length.
  - assert (exists u, kept = pre ++ u) as [u ->].
    { exists (drop (length pre) kept). rewrite <- (take_drop (length pre) kept) at 1. f_equal.
      rewrite Hl in Hl'. apply (f_equal (take (length pre))) in Hl'.
      rewrite take_app_length, take_app_le in Hl' by done. done. }
    exists pre, u. split_and!; [done|done|by eauto|].
    destruct Hlast as [Hlast|Hlast]; [left|by right]. rewrite length_app in Hlast.
    apply nil_length_inv. lia.
Qed.

(** Where the items are cut, before any trimming. *)
Lemma cut_position n l pre i post ps :
  n <> 0 -> l = pre ++ i :: post -> boundary i = true -> turns pre = [] -> positions 0 l = length pre :: ps ->
  exists cut_pre j cut_post,
    (if length (length pre :: ps) <=? n then Some (length pre)
     else (length pre :: ps) !! (length (length pre :: ps) - n)) = Some (length cut_pre) /\
    l = cut_pre ++ j :: cut_post /\ boundary j = true /\
    length (turns cut_pre) = length (turns l) - n /\ length pre <= length cut_pre.
Proof.
  intros Hn Hl Hi Hpre Ep. pose proof (positions_length 0 l) as Hlen. rewrite Ep in Hlen.
  rewrite Hlen. destruct (_ <=? _) eqn:E; [apply Nat.leb_le in E|apply Nat.leb_gt in E].
  { exists pre, i, post. split_and!; try done. rewrite Hpre. cbn. lia. }
  destruct (lookup_lt_is_Some_2 (length pre :: ps) (length (turns l) - n)) as [p Hp]; [rewrite Hlen; lia|].
  rewrite <- Ep in Hp. pose proof Hp as Hp'.
  apply positions_lookup in Hp as (cut_pre & j & cut_post & Hl' & -> & Hj & H3).
  exists cut_pre, j, cut_post. rewrite <- Ep. split_and!; try done.
  destruct (decide (length pre <= length cut_pre)) as [|Hgt]; [done|]. exfalso.
  assert (turns (cut_pre ++ [j]) = []) as H.
  { rewrite Hl' in Hl. apply (f_equal (take (S (length cut_pre)))) in Hl.
    rewrite (take_app_le pre), <- Nat.add_1_r, take_app_add in Hl by lia. cbn in Hl.
    rewrite take_0 in Hl. rewrite Hl.
    rewrite <- (take_drop (length cut_pre + 1) pre), turns_app in Hpre.
    by apply app_eq_nil in Hpre as [? _]. }
  rewrite turns_app in H. cbn in H. rewrite Hj in H. by destruct (turns cut_pre).
Qed.

(** Rolling back [n] user turns never fails; with [n = 0] or no turn it
    leaves the items; otherwise it keeps a prefix with all but the last [n]
    turns, keeps the preamble before the first turn, and drops, before the
    cut, only context updates, all of them down to the preamble; the
    reference snapshot is cleared exactly when a dropped update was mixed
    with other text, and the version is bumped. *)
Theorem drop_last_n_user_turns_correct n m :
  exists m', drop_last_n_user_turns is_contextual_user_fragment is_inter_agent_json n m = Some m' /\
    (n = 0%N -> m' = m) /\
    (n <> 0%N -> history_version m' = N.min (history_version m + 1) u64_MAX /\
      token_info m' = token_info m) /\
    (turns (items m) = [] -> items m' = items m /\
      reference_context_item m' = reference_context_item m) /\
    (n <> 0%N -> turns (items m) <> [] ->
      exists trimmed dropped, rolled_back (N.to_nat n) (items m) (items m') trimmed dropped /\
        reference_context_item m' =
          if existsb mixed_update trimmed then None else reference_context_item m).
Proof.
  unfold drop_last_n_user_turns.
  destruct (N.eqb_spec n 0) as [->|Hn]; [by exists m|].
  pose proof (positions_length 0 (items m)) as Hlen.
  destruct (positions 0 (items m)) as [|first ps] eqn:Ep.
  { exists (replace (items m) m). split_and!; try done. intros _ Ht. by destruct (turns (items m)). }
  destruct (positions_lookup 0 (items m) 0 first) as (pre & i & post & Hl & -> & Hi & Hpre);
    [by rewrite Ep|].
  apply nil_length_inv in Hpre. rewrite Nat.add_0_l in *.
  destruct (cut_position (N.to_nat n) (items m) pre i post ps)
    as (cut_pre & j & cut_post & Hcut & Hl' & Hj & Hturns & Hle); try done; [lia|].
  rewrite Hcut. cbn [mbind option_bind].
  destruct (rolled_back_at (N.to_nat n) (items m) pre i post cut_pre j cut_post
    (reference_context_item m)) as (kept & trimmed & Hr & Ht); try done.
  rewrite Ht. eexists. split; [done|].
  assert (take (length kept) (items m) = kept) as Hk.
  { destruct Hr as [-> _]. by rewrite take_app_length. }
  cbn [items history_version token_info reference_context_item replace bump set_items
       set_reference_context_item]. rewrite Hk.
  split_and!; try done.
  - intros H. rewrite Hl, turns_app in H. cbn in H. rewrite Hi in H. by destruct (turns pre).
  - intros _ _. eauto.
Qed.
End Rollback.
