(* ===== verification/TokenEstimate.v ===== *)
(** * TokenEstimate: the estimated size of the transcript

    The estimates of [codex-rs/core/src/context_manager/history.rs], on which
    compaction decides.  The JSON length of an item ([serde_json]) and the
    decoding of an image ([base64], [image]) are arguments; the cache of image
    estimates, keyed by the digest of the URL, is not modelled. *)

From S2P Require Import Prelude RustStr Truncate TokenUsage History.
#[local] Open Scope Z_scope.

(** [i64::try_from(n).unwrap_or(i64::MAX)] *)
Definition i64_of_usize (n : N) : Z := Z.min (Z.of_N n) I64_MAX.

Definition estimate_reasoning_length (encoded_len : N) : N :=
  saturating_sub (saturating_mul encoded_len 3 / 4) 650.

(** [div_ceil] *)
Definition estimate_encrypted_function_output_length (encoded_len : N) : N :=
  let n := saturating_mul encoded_len 9 in
  if (n mod 16 =? 0)%N then (n / 16)%N else (n / 16 + 1)%N.

Definition RESIZED_IMAGE_BYTES_ESTIMATE : Z := 7373.
Definition ORIGINAL_IMAGE_PATCH_SIZE : Z := 32.
Definition ORIGINAL_IMAGE_MAX_PATCHES : N := 10000.

Definition parse_base64_image_data_url (url : str) : option str :=
  if negb (has_prefix_ignoring_case url "data:"%str) then None
  else
    '(metadata, payload) ← split_once 44%N url;
    '(_, metadata_without_scheme) ← split_at_byte (blen "data:"%str) metadata;
    match split 59%N metadata_without_scheme with
    | mime_type :: metadata_parts =>
        let has_base64_marker :=
          existsb (fun part => bool_decide (to_ascii_lowercase part = "base64"%str)) metadata_parts in
        if negb (has_prefix_ignoring_case mime_type "image/"%str) then None
        else if negb has_base64_marker then None
        else Some payload
    | [] => None
    end.

Example parse_base64_image_data_url_tests :
  parse_base64_image_data_url "DATA:Image/png;x=1;BASE64,abc,d"%str = Some "abc,d"%str /\
  parse_base64_image_data_url "data:image/png,abc"%str = None /\
  parse_base64_image_data_url "data:text/png;base64,abc"%str = None /\
  parse_base64_image_data_url "https://x/y;base64,abc"%str = None /\
  estimate_encrypted_function_output_length 100 = 57%N.
Proof. by vm_compute. Qed.

Section Estimate.
Context {Opaque TurnContextItem : Type}.
Abbreviation item := (ResponseItem Opaque).
(** The length of [serde_json::to_string], when it succeeds. *)
Variable serialized_len : item -> option N.
(** [BASE64_STANDARD.decode] of the payload, then the width and height of
    [image::load_from_memory], two [u32]. *)
Variable image_size : str -> option (N * N).

Definition estimate_original_image_bytes (image_url : str) : option Z :=
  payload ← parse_base64_image_data_url image_url;
  '(width, height) ← image_size payload;
  let patch_size := ORIGINAL_IMAGE_PATCH_SIZE in
  let patches_wide := Z.quot (i64_saturating_add (Z.of_N width) (i64_saturating_sub patch_size 1)) patch_size in
  let patches_high := Z.quot (i64_saturating_add (Z.of_N height) (i64_saturating_sub patch_size 1)) patch_size in
  let patch_count := i64_saturate (patches_wide * patches_high) in
  let patch_count := if patch_count <? 0 then USIZE_MAX else Z.to_N patch_count in
  let patch_count := N.min patch_count ORIGINAL_IMAGE_MAX_PATCHES in
  Some (i64_of_usize (approx_bytes_for_tokens patch_count)).

(** [accumulate]: one image of the item. *)
Definition accumulate (acc : Z * Z) (image_url : str) (detail : option ImageDetail) : Z * Z :=
  match parse_base64_image_data_url image_url with
  | Some payload =>
      (i64_saturating_add acc.1 (i64_of_usize (blen payload)),
       i64_saturating_add acc.2
         (match detail with
          | Some Original => default RESIZED_IMAGE_BYTES_ESTIMATE (estimate_original_image_bytes image_url)
          | _ => RESIZED_IMAGE_BYTES_ESTIMATE
          end))
  | None => acc
  end.

Definition image_data_url_estimate_adjustment (i : item) : Z * Z :=
  match i with
  | Message _ _ content _ =>
      fold_left (fun acc c => match c with
                              | InputImage image_url detail => accumulate acc image_url detail
                              | _ => acc
                              end) content (0, 0)
  | FunctionCallOutput _ output | CustomToolCallOutput _ _ output =>
      match body output with
      | ContentItems items =>
          fold_left (fun acc c => match c with
                                  | OutInputImage image_url detail => accumulate acc image_url detail
                                  | _ => acc
                                  end) items (0, 0)
      | Text _ => (0, 0)
      end
  | _ => (0, 0)
  end.

Definition encrypted_function_output_estimate_adjustment (i : item) : Z * Z :=
  match i with
  | FunctionCallOutput _ output =>
      match body output with
      | ContentItems items =>
          fold_left (fun acc c =>
            match c with
            | EncryptedContent encrypted_content =>
                (i64_saturating_add acc.1 (i64_of_usize (blen encrypted_content)),
                 i64_saturating_add acc.2
                   (i64_of_usize (estimate_encrypted_function_output_length (blen encrypted_content))))
            | _ => acc
            end) items (0, 0)
      | Text _ => (0, 0)
      end
  | _ => (0, 0)
  end.

Definition estimate_response_item_model_visible_bytes (i : item) : Z :=
  match i with
  | Reasoning _ _ _ (Some content) | Compaction content | ContextCompaction (Some content) =>
      i64_of_usize (estimate_reasoning_length (blen content))
  | i =>
      let raw := match serialized_len i with Some n => i64_of_usize n | None => 0 end in
      let '(image_payload_bytes, image_replacement_bytes) := image_data_url_estimate_adjustment i in
      let '(encrypted_payload_bytes, encrypted_replacement_bytes) :=
        encrypted_function_output_estimate_adjustment i in
      let raw := i64_saturating_add (i64_saturating_sub raw image_payload_bytes)
                   image_replacement_bytes in
      i64_saturating_add (i64_saturating_sub raw encrypted_payload_bytes) encrypted_replacement_bytes
  end.

Definition estimate_item_token_count (i : item) : Z :=
  approx_tokens_from_byte_count_i64 (estimate_response_item_model_visible_bytes i).

Definition is_model_generated_item (i : item) : bool :=
  match i with
  | Message _ role _ _ => bool_decide (role = "assistant"%str)
  | Reasoning _ _ _ _ | FunctionCall _ _ _ _ _ | ToolSearchCall _ _ _ _ _ | WebSearchCall _ _ _
  | ImageGenerationCall _ _ _ _ | CustomToolCall _ _ _ _ _ | LocalShellCall _ _ _ _
  | Compaction _ | ContextCompaction _ => true
  | CompactionTrigger => false
  | FunctionCallOutput _ _ | ToolSearchOutput _ _ _ _ | CustomToolCallOutput _ _ _ | Other => false
  end.

Definition is_codex_generated_item (i : item) : bool :=
  match i with
  | FunctionCallOutput _ _ | ToolSearchOutput _ _ _ _ | CustomToolCallOutput _ _ _ => true
  | Message _ role _ _ => bool_decide (role = "developer"%str)
  | _ => false
  end.

(** [map(f).fold(0, i64::saturating_add)] *)
Definition saturating_sum (f : item -> Z) (l : list item) : Z :=
  fold_left i64_saturating_add (map f l) 0.

Section Manager.
Variable is_contextual_user_fragment : ContentItem -> bool.
Variable is_inter_agent_json : str -> bool.
Abbreviation manager := (ContextManager Opaque TurnContextItem).

Definition estimate_token_count_with_base_instructions (text : str) (m : manager) : option Z :=
  let base_tokens := i64_of_usize (approx_token_count text) in
  Some (i64_saturating_add base_tokens (saturating_sum estimate_item_token_count (items m))).

Definition get_non_last_reasoning_items_tokens (m : manager) : Z :=
  match rposition (is_user_turn_boundary is_contextual_user_fragment is_inter_agent_json) (items m) with
  | None => 0
  | Some last_user_index =>
      saturating_sum estimate_item_token_count
        (List.filter (fun i => match i with Reasoning _ _ _ (Some _) => true | _ => false end)
           (take last_user_index (items m)))
  end.

Definition items_after_last_model_generated_item (m : manager) : list item :=
  let start := match rposition is_model_generated_item (items m) with
               | Some index => (index + 1)%nat
               | None => length (items m)
               end in
  drop start (items m).

Definition last_total_tokens (m : manager) : Z :=
  match token_info m with
  | Some info => total_tokens (last_token_usage info)
  | None => 0
  end.

Definition get_total_token_usage (server_reasoning_included : bool) (m : manager) : Z :=
  let last_tokens := last_total_tokens m in
  let items_after_last_model_generated_tokens :=
    saturating_sum estimate_item_token_count (items_after_last_model_generated_item m) in
  if server_reasoning_included then
    i64_saturating_add last_tokens items_after_last_model_generated_tokens
  else
    i64_saturating_add (i64_saturating_add last_tokens (get_non_last_reasoning_items_tokens m))
      items_after_last_model_generated_tokens.

Record TotalTokenUsageBreakdown := mkBreakdown {
  last_api_response_total_tokens : Z;
  all_history_items_model_visible_bytes : Z;
  estimated_tokens_of_items_added_since_last_successful_api_response : Z;
  estimated_bytes_of_items_added_since_last_successful_api_response : Z;
}.

Definition get_total_token_usage_breakdown (m : manager) : TotalTokenUsageBreakdown :=
  let after := items_after_last_model_generated_item m in
  mkBreakdown (last_total_tokens m)
    (saturating_sum estimate_response_item_model_visible_bytes (items m))
    (saturating_sum estimate_item_token_count after)
    (saturating_sum estimate_response_item_model_visible_bytes after).
End Manager.
End Estimate.

(** ** Bounds *)

Lemma i64_of_usize_in n : 0 <= i64_of_usize n <= I64_MAX.
Proof. unfold i64_of_usize, I64_MAX. lia. Qed.

Lemma approx_tokens_i64_in bytes : 0 <= approx_tokens_from_byte_count_i64 bytes <= I64_MAX.
Proof. unfold approx_tokens_from_byte_count_i64, I64_MAX. destruct (bytes <=? 0); lia. Qed.

(** The slice of [parse_base64_image_data_url] is in range. *)
Lemma data_url_slice_ok url metadata payload :
  has_prefix_ignoring_case url "data:"%str = true -> split_once 44%N url = Some (metadata, payload) ->
  is_Some (split_at_byte (blen "data:"%str) metadata).
Proof.
  unfold has_prefix_ignoring_case. change (blen "data:"%str) with 5%N.
  destruct (split_at_byte 5 url) as [[a b]|] eqn:E; [|done].
  intros Ha%bool_decide_eq_true Hs.
  assert (exists c1 c2 c3 c4 c5, a = [c1; c2; c3; c4; c5]) as (c1 & c2 & c3 & c4 & c5 & ->).
  { apply (f_equal length) in Ha as Hl. unfold to_ascii_lowercase in Hl. rewrite !length_map in Hl.
    destruct a as [|c1 [|c2 [|c3 [|c4 [|c5 [|]]]]]]; try done. by exists c1, c2, c3, c4, c5. }
  assert (forall x c y : char, char_to_ascii_lowercase c = x -> x <> 44%N -> (x < 128)%N ->
    c <> 44%N /\ N.of_nat (len_utf8 c) = 1%N) as Hc.
  { intros x c _ <- Hne Hlt. unfold char_to_ascii_lowercase in *. unfold len_utf8.
    destruct (is_ascii_uppercase c) eqn:Eu.
    - apply andb_prop in Eu as [?%N.leb_le ?%N.leb_le].
      split; [lia|]. rewrite (proj2 (N.ltb_lt _ _)) by lia. done.
    - split; [done|]. rewrite (proj2 (N.ltb_lt _ _)) by lia. done. }
  assert (url = [c1; c2; c3; c4; c5] ++ b) as ->.
  { by apply split_at_byte_Some in E as [-> _]. }
  injection Ha as H1 H2 H3 H4 H5.
  apply (Hc _ _ 0%N) in H1 as [N1 L1], H2 as [N2 L2], H3 as [N3 L3], H4 as [N4 L4], H5 as [N5 L5]; try done.
  apply split_once_Some in Hs as [Hs Hno].
  assert (exists md, metadata = [c1; c2; c3; c4; c5] ++ md) as [md ->].
  { cbn in Hs. do 5 (destruct metadata as [|? metadata]; injection Hs as ? Hs; [by subst|subst]).
    by exists metadata. }
  replace 5%N with (blen [c1; c2; c3; c4; c5]) by (unfold blen; cbn; lia).
  rewrite split_at_byte_app. eauto.
Qed.

(** ** Sums *)

Section Sums.
Context {Opaque TurnContextItem : Type}.
Variable serialized_len : ResponseItem Opaque -> option N.
Variable image_size : str -> option (N * N).
Abbreviation item := (ResponseItem Opaque).
Implicit Types (i : item) (l : list item) (m : ContextManager Opaque TurnContextItem).
Abbreviation tokens := (estimate_item_token_count serialized_len image_size).

(** The estimate of a list, without width. *)
Definition total_estimate l : Z := foldr (fun i n => tokens i + n) 0 l.

Lemma total_estimate_app l l' : total_estimate (l ++ l') = total_estimate l + total_estimate l'.
Proof. unfold total_estimate. induction l as [|i l IH]; cbn; lia. Qed.

Lemma tokens_in i : 0 <= tokens i <= I64_MAX.
Proof. apply approx_tokens_i64_in. Qed.

Lemma total_estimate_pos l : 0 <= total_estimate l.
Proof. unfold total_estimate. induction l as [|i l IH]; cbn; [lia|]. pose proof (tokens_in i). lia. Qed.

(** Saturation only caps the total, as no term is negative. *)
Lemma saturating_sum_total l : saturating_sum tokens l = Z.min (total_estimate l) I64_MAX.
Proof.
  unfold saturating_sum.
  assert (forall acc, 0 <= acc <= I64_MAX ->
    fold_left i64_saturating_add (map tokens l) acc = Z.min (acc + total_estimate l) I64_MAX) as H.
  { induction l as [|i l IH]; intros acc Hacc.
    - unfold total_estimate. cbn [map fold_left foldr]. lia.
    - cbn [map fold_left]. unfold total_estimate. cbn [foldr]. fold (total_estimate l).
      pose proof (tokens_in i). pose proof (total_estimate_pos l).
      assert (i64_saturating_add acc (tokens i) = Z.min (acc + tokens i) I64_MAX) as ->.
      { unfold i64_saturating_add, i64_saturate, I64_MIN, I64_MAX. lia. }
      rewrite IH by lia. lia. }
  rewrite H; [done|]. unfold I64_MAX. lia.
Qed.

Lemma rposition_None (f : item -> bool) l : rposition f l = None <-> forall i, i ∈ l -> f i = false.
Proof.
  induction l as [|i l IH]; cbn.
  - split; [intros _ i Hi; by apply elem_of_nil in Hi|done].
  - destruct (rposition f l) as [n|].
    + split; [done|]. intros H. assert (Some n = None); [|done]. apply IH. intros j Hj. apply H. by right.
    + destruct (f i) eqn:E.
      * split; [done|]. intros H. rewrite H in E by left. done.
      * split; [|done]. intros _ j Hj. apply elem_of_cons in Hj as [->|Hj]; [done|]. by apply IH.
Qed.

Lemma rposition_app (f : item -> bool) l l' :
  rposition f (l ++ l') =
    match rposition f l' with Some n => Some (length l + n)%nat | None => rposition f l end.
Proof.
  induction l as [|i l IH]; cbn; [by destruct (rposition f l')|].
  rewrite IH. by destruct (rposition f l').
Qed.

Lemma rposition_lt (f : item -> bool) l n : rposition f l = Some n -> (n < length l)%nat.
Proof.
  revert n. induction l as [|i l IH]; intros n; cbn; [done|].
  destruct (rposition f l) as [k|].
  - intros [= <-]. specialize (IH k eq_refl). lia.
  - destruct (f i); [intros [= <-]; lia|done].
Qed.

Variable is_contextual_user_fragment : ContentItem -> bool.
Variable is_inter_agent_json : str -> bool.
Abbreviation usage :=
  (get_total_token_usage serialized_len image_size is_contextual_user_fragment is_inter_agent_json).
Abbreviation old_reasoning :=
  (get_non_last_reasoning_items_tokens serialized_len image_size is_contextual_user_fragment
     is_inter_agent_json).

Lemma saturating_sum_in l : 0 <= saturating_sum tokens l <= I64_MAX.
Proof. rewrite saturating_sum_total. pose proof (total_estimate_pos l). unfold I64_MAX. lia. Qed.

Lemma old_reasoning_in m : 0 <= old_reasoning m <= I64_MAX.
Proof.
  unfold get_non_last_reasoning_items_tokens.
  destruct (rposition _ _); [apply saturating_sum_in|unfold I64_MAX; lia].
Qed.

(** Without an item of the model nothing is counted after it. *)
Lemma after_app m l :
  forallb (fun i => negb (is_model_generated_item i)) l = true ->
  items_after_last_model_generated_item (set_items (items m ++ l) m) =
    match rposition is_model_generated_item (items m) with
    | Some _ => items_after_last_model_generated_item m ++ l
    | None => []
    end.
Proof.
  intros Hl. unfold items_after_last_model_generated_item. cbn [items set_items].
  assert (rposition is_model_generated_item l = None) as Hno.
  { apply rposition_None. intros i Hi. rewrite forallb_forall in Hl.
    apply list_elem_of_In in Hi. apply Hl in Hi. by apply negb_true_iff in Hi. }
  rewrite rposition_app, Hno. destruct (rposition _ (items m)) as [n|] eqn:E.
  - apply rposition_lt in E. rewrite drop_app_le by lia. done.
  - by rewrite drop_all.
Qed.

Lemma old_reasoning_app m l : old_reasoning m <= old_reasoning (set_items (items m ++ l) m).
Proof.
  unfold get_non_last_reasoning_items_tokens. cbn [items set_items].
  rewrite rposition_app.
  destruct (rposition _ (items m)) as [n|] eqn:E.
  2: { destruct (rposition _ l); [apply saturating_sum_in|done]. }
  pose proof (rposition_lt _ _ _ E) as Hn.
  set (f := List.filter (fun i : item => match i with Reasoning _ _ _ (Some _) => true | _ => false end)).
  assert (forall k, (n <= k)%nat ->
    saturating_sum tokens (f (take n (items m))) <= saturating_sum tokens (f (take k (items m ++ l)))) as H.
  { intros k Hk. rewrite !saturating_sum_total.
    assert (take k (items m ++ l) = take n (items m) ++ drop n (take k (items m ++ l))) as ->.
    { rewrite <- (take_drop n (take k (items m ++ l))) at 1. f_equal.
      rewrite take_take, Nat.min_l, take_app_le by lia. done. }
    unfold f. rewrite List.filter_app, total_estimate_app.
    pose proof (total_estimate_pos (List.filter (fun i : item =>
      match i with Reasoning _ _ _ (Some _) => true | _ => false end)
      (drop n (take k (items m ++ l))))). lia. }
  destruct (rposition _ l); apply H; lia.
Qed.

(** The estimated usage is an [i64] that never wraps: with the server's
    count of reasoning it is the last reported total plus the estimates of
    the items after the last item of the model, capped; without, it is at
    least that; and recording items that are not the model's never lowers
    it. *)
Theorem token_usage_bounds m l b :
  (forall u, token_info m = Some u -> usage_in (last_token_usage u)) ->
  forallb (fun i => negb (is_model_generated_item i)) l = true ->
  in_i64 (usage b m) /\
  usage true m =
    Z.min (last_total_tokens m +
           Z.min (total_estimate (items_after_last_model_generated_item m)) I64_MAX) I64_MAX /\
  usage true m <= usage false m /\
  last_total_tokens m <= usage b m <= usage b (set_items (items m ++ l) m).
Proof.
  intros Hlast Hl.
  assert (in_i64 (last_total_tokens m)) as Hin.
  { unfold last_total_tokens. destruct (token_info m) as [u|]; [by apply (Hlast u)|].
    by unfold in_i64, I64_MIN, I64_MAX. }
  pose proof (saturating_sum_in (items_after_last_model_generated_item m)) as Ha.
  pose proof (old_reasoning_in m) as Hr.
  pose proof (old_reasoning_app m l) as Hr'.
  assert (saturating_sum tokens (items_after_last_model_generated_item m) <=
    saturating_sum tokens (items_after_last_model_generated_item (set_items (items m ++ l) m))) as Ha'.
  { rewrite after_app by done. rewrite !saturating_sum_total.
    destruct (rposition _ (items m)) as [n|] eqn:E.
    - rewrite total_estimate_app. pose proof (total_estimate_pos l). lia.
    - unfold items_after_last_model_generated_item. rewrite E, drop_all. done. }
  pose proof (saturating_sum_in (items_after_last_model_generated_item (set_items (items m ++ l) m))) as Ha2.
  pose proof (old_reasoning_in (set_items (items m ++ l) m)) as Hr2.
  assert (last_total_tokens (set_items (items m ++ l) m) = last_total_tokens m) as Hsame by done.
  unfold get_total_token_usage. rewrite Hsame. unfold in_i64 in *. split_and!.
  - destruct b; apply i64_saturate_in.
  - destruct b; apply i64_saturate_in.
  - rewrite saturating_sum_total in *.
    pose proof (total_estimate_pos (items_after_last_model_generated_item m)).
    unfold i64_saturating_add, i64_saturate, I64_MIN, I64_MAX in *. lia.
  - unfold i64_saturating_add, i64_saturate, I64_MIN, I64_MAX in *. lia.
  - destruct b; unfold i64_saturating_add, i64_saturate, I64_MIN, I64_MAX in *; lia.
  - destruct b; unfold i64_saturating_add, i64_saturate, I64_MIN, I64_MAX in *; lia.
Qed.
End Sums.

(** A user message and a call output after an answer of the model. *)
Lemma token_usage_bounds_witness :
  let m := mkManager (Opaque := unit) (TurnContextItem := unit)
    [Message None "user" [InputText "hi"] None; Message None "assistant" [OutputText "yes"] None;
     FunctionCallOutput "1" (from_text "done")] 0
    (Some (mkInfo default_usage (mkUsage 10 0 5 0 15) None)) None in
  let l := [Message None "user" [InputText "go on"] None] in
  let len (_ : ResponseItem unit) := Some 100%N in
  let size (_ : str) : option (N * N) := None in
  let usage := get_total_token_usage len size (fun _ => false) (fun _ => false) in
  usage true m = 40 /\ usage true (set_items (items m ++ l) m) = 65 /\
  (in_i64 (usage false m) /\
   usage true m =
     Z.min (last_total_tokens m +
            Z.min (total_estimate len size (items_after_last_model_generated_item m)) I64_MAX) I64_MAX /\
   usage true m <= usage false m /\
   last_total_tokens m <= usage false m <= usage false (set_items (items m ++ l) m)).
Proof.
  intros m l len size usage. split; [by vm_compute|]. split; [by vm_compute|].
  apply (token_usage_bounds len size (fun _ => false) (fun _ => false) m l false); [|by vm_compute].
  intros u [= <-]. by vm_compute.
Defined.
