(* ===== verification/PasteBurst.v ===== *)
(** * PasteBurst: pastes that arrive as key presses

    [codex-rs/tui/src/bottom_pane/paste_burst.rs]: the state machine that
    tells a paste from typing by the time between characters, and the part of
    [chat_composer.rs] that feeds it and applies its decisions to the draft.
    Instants and durations are nanoseconds; [duration_since] saturates at
    zero.  The text area is its text before and after the cursor, without the
    atomic elements: the placeholder of a large paste is plain text, and image
    paths are not recognised ([image_paste_enabled] off).  Popups and
    submission are left out. *)

From S2P Require Import Prelude RustStr Truncate.
#[local] Open Scope N_scope.

Definition from_millis (ms : N) : N := ms * 1000000.
Definition duration_since (now earlier : N) : N := now - earlier.

Definition PASTE_BURST_MIN_CHARS : N := 3.
Definition PASTE_ENTER_SUPPRESS_WINDOW : N := from_millis 120.
Definition PASTE_BURST_CHAR_INTERVAL : N := from_millis 8.
Definition U16_MAX : N := 65535.

Record PasteBurst := mkBurst {
  last_plain_char_time : option N;
  consecutive_plain_char_burst : N;
  burst_window_until : option N;
  buffer : str;
  active : bool;
  pending_first_char : option (char * N);
}.

Definition default_burst : PasteBurst := mkBurst None 0 None [] false None.

Inductive CharDecision :=
| BeginBuffer (retro_chars : N)
| BufferAppend
| RetainFirstChar
| BeginBufferFromPending.

Record RetroGrab := mkGrab { start_byte : N; grabbed : str }.

Inductive FlushResult := Paste (s : str) | Typed (ch : char) | Nothing.

(** ** paste_burst.rs *)

Definition set_window (now : N) (b : PasteBurst) : PasteBurst :=
  mkBurst (last_plain_char_time b) (consecutive_plain_char_burst b)
    (Some (now + PASTE_ENTER_SUPPRESS_WINDOW)) (buffer b) (active b) (pending_first_char b).
Definition set_active (a : bool) (b : PasteBurst) : PasteBurst :=
  mkBurst (last_plain_char_time b) (consecutive_plain_char_burst b) (burst_window_until b)
    (buffer b) a (pending_first_char b).
Definition set_buffer (s : str) (b : PasteBurst) : PasteBurst :=
  mkBurst (last_plain_char_time b) (consecutive_plain_char_burst b) (burst_window_until b)
    s (active b) (pending_first_char b).
Definition set_pending (p : option (char * N)) (b : PasteBurst) : PasteBurst :=
  mkBurst (last_plain_char_time b) (consecutive_plain_char_burst b) (burst_window_until b)
    (buffer b) (active b) p.

Definition is_active_internal (b : PasteBurst) : bool := active b || negb (is_empty (buffer b)).
Definition is_active (b : PasteBurst) : bool :=
  is_active_internal b || bool_decide (is_Some (pending_first_char b)).

Definition note_plain_char (now : N) (b : PasteBurst) : PasteBurst :=
  let count :=
    match last_plain_char_time b with
    | Some prev =>
        if duration_since now prev <=? PASTE_BURST_CHAR_INTERVAL
        then N.min (consecutive_plain_char_burst b + 1) U16_MAX else 1
    | None => 1
    end in
  mkBurst (Some now) count (burst_window_until b) (buffer b) (active b) (pending_first_char b).

Definition on_plain_char (ch : char) (now : N) (b : PasteBurst) : CharDecision * PasteBurst :=
  let b := note_plain_char now b in
  if active b then (BufferAppend, set_window now b)
  else
    let decide_rest :=
      if PASTE_BURST_MIN_CHARS <=? consecutive_plain_char_burst b
      then (BeginBuffer (consecutive_plain_char_burst b - 1), b)
      else (RetainFirstChar, set_pending (Some (ch, now)) b) in
    match pending_first_char b with
    | Some (held, held_at) =>
        if duration_since now held_at <=? PASTE_BURST_CHAR_INTERVAL then
          (BeginBufferFromPending,
           set_window now (set_buffer (buffer b ++ [held]) (set_pending None (set_active true b))))
        else decide_rest
    | None => decide_rest
    end.

Definition on_plain_char_no_hold (now : N) (b : PasteBurst) : option CharDecision * PasteBurst :=
  let b := note_plain_char now b in
  if active b then (Some BufferAppend, set_window now b)
  else if PASTE_BURST_MIN_CHARS <=? consecutive_plain_char_burst b
  then (Some (BeginBuffer (consecutive_plain_char_burst b - 1)), b)
  else (None, b).

Definition append_newline_if_active (now : N) (b : PasteBurst) : bool * PasteBurst :=
  if is_active b then (true, set_window now (set_buffer (buffer b ++ [NL]) b)) else (false, b).

Definition newline_should_insert_instead_of_submit (now : N) (b : PasteBurst) : bool :=
  let in_burst_window :=
    match burst_window_until b with Some until => now <=? until | None => false end in
  is_active b || in_burst_window.

Definition extend_window (now : N) (b : PasteBurst) : PasteBurst := set_window now b.

Definition begin_with_retro_grabbed (grabbed : str) (now : N) (b : PasteBurst) : PasteBurst :=
  let b := if is_empty grabbed then b else set_buffer (buffer b ++ grabbed) b in
  set_window now (set_active true b).

Definition append_char_to_buffer (ch : char) (now : N) (b : PasteBurst) : PasteBurst :=
  set_window now (set_buffer (buffer b ++ [ch]) b).

Definition try_append_char_if_active (ch : char) (now : N) (b : PasteBurst) : bool * PasteBurst :=
  if active b || negb (is_empty (buffer b)) then (true, append_char_to_buffer ch now b) else (false, b).

(** [char_indices().rev().nth(retro_chars - 1)] *)
Definition retro_start_index (before : str) (retro_chars : N) : N :=
  if retro_chars =? 0 then blen before
  else if N.of_nat (length before) <? retro_chars then 0
  else blen (take (length before - N.to_nat retro_chars) before).

(** [None]: the slice is out of range or cuts a char. *)
Definition decide_begin_buffer (now : N) (before : str) (retro_chars : N) (b : PasteBurst) :
    option (option RetroGrab * PasteBurst) :=
  let start_byte := retro_start_index before retro_chars in
  '(_, grabbed) ← split_at_byte start_byte before;
  let looks_pastey := existsb is_whitespace grabbed || (16 <=? N.of_nat (length grabbed)) in
  Some (if looks_pastey
        then (Some (mkGrab start_byte grabbed), begin_with_retro_grabbed grabbed now b)
        else (None, b)).

Definition flush_before_modified_input (b : PasteBurst) : option str * PasteBurst :=
  if negb (is_active b) then (None, b)
  else
    let out := buffer b ++ match pending_first_char b with Some (ch, _) => [ch] | None => [] end in
    (Some out, set_pending None (set_buffer [] (set_active false b))).

Definition clear_window_after_non_char (b : PasteBurst) : PasteBurst :=
  mkBurst None 0 None (buffer b) false None.

Definition clear_after_explicit_paste (b : PasteBurst) : PasteBurst := mkBurst None 0 None [] false None.

Section Platform.
Variable windows : bool.

Definition PASTE_BURST_ACTIVE_IDLE_TIMEOUT : N := from_millis (if windows then 60 else 8).

Definition flush_if_due (now : N) (b : PasteBurst) : FlushResult * PasteBurst :=
  let timeout :=
    if is_active_internal b then PASTE_BURST_ACTIVE_IDLE_TIMEOUT else PASTE_BURST_CHAR_INTERVAL in
  let timed_out := match last_plain_char_time b with
                   | Some t => timeout <? duration_since now t
                   | None => false
                   end in
  if timed_out && is_active_internal b then (Paste (buffer b), set_buffer [] (set_active false b))
  else if timed_out then
    match pending_first_char b with
    | Some (ch, _) => (Typed ch, set_pending None b)
    | None => (Nothing, b)
    end
  else (Nothing, b).

(** ** chat_composer.rs *)

Definition LARGE_PASTE_CHAR_THRESHOLD : N := 1000.

Record Draft := mkDraft {
  before : str;
  after : str;
  is_bash_mode : bool;
  pending_pastes : list (str * str);
  paste_burst : PasteBurst;
  disable_paste_burst : bool;
}.

Definition set_text (b a : str) (d : Draft) : Draft :=
  mkDraft b a (is_bash_mode d) (pending_pastes d) (paste_burst d) (disable_paste_burst d).
Definition set_burst (b : PasteBurst) (d : Draft) : Draft :=
  mkDraft (before d) (after d) (is_bash_mode d) (pending_pastes d) b (disable_paste_burst d).
Definition set_bash (x : bool) (d : Draft) : Draft :=
  mkDraft (before d) (after d) x (pending_pastes d) (paste_burst d) (disable_paste_burst d).
Definition set_pastes (l : list (str * str)) (d : Draft) : Draft :=
  mkDraft (before d) (after d) (is_bash_mode d) l (paste_burst d) (disable_paste_burst d).

(** [textarea.text()] *)
Definition text (d : Draft) : str := before d ++ after d.

(** [sync_bash_mode_from_text]: a leading [!] becomes the mode. *)
Definition sync_bash_mode_from_text (d : Draft) : Draft :=
  if negb (is_bash_mode d) && starts_with (text d) [33]
  then set_bash true
         match before d with
         | _ :: b => set_text b (after d) d
         | [] => set_text [] (tl (after d)) d
         end
  else d.

Definition insert_str (s : str) (d : Draft) : Draft :=
  sync_bash_mode_from_text (set_text (before d ++ s) (after d) d).

(** [pasted.replace("\r\n", "\n").replace('\r', "\n")] *)
Fixpoint normalize_newlines (s : str) : str :=
  match s with
  | [] => []
  | c :: rest =>
      if c =? CR then NL :: match rest with
                            | d :: rest' => if d =? NL then normalize_newlines rest'
                                            else normalize_newlines rest
                            | [] => []
                            end
      else c :: normalize_newlines rest
  end.

(** [parse::<usize>()] *)
Definition parse_usize (s : str) : option N :=
  let digits := match strip_prefix [43] s with Some rest => rest | None => s end in
  if is_empty digits || negb (forallb is_ascii_digit digits) then None
  else
    let n := fold_left (fun n c => n * 10 + (c - 48)) digits 0 in
    if n <=? USIZE_MAX then Some n else None.

Definition next_large_paste_placeholder (char_count : N) (d : Draft) : str :=
  let base := ("[Pasted Content " ++ format_number char_count ++ " chars]")%str in
  let prefix := (base ++ " #")%str in
  let max_suffix :=
    fold_left (fun max_suffix (p : str * str) =>
        if bool_decide (p.1 = base) then N.max max_suffix 1
        else match strip_prefix prefix p.1 with
             | Some suffix => match parse_usize suffix with
                              | Some value => N.max max_suffix value
                              | None => max_suffix
                              end
             | None => max_suffix
             end)
      (pending_pastes d) 0 in
  if max_suffix =? 0 then base else (base ++ " #" ++ format_number (max_suffix + 1))%str.

Definition handle_paste (pasted : str) (d : Draft) : Draft :=
  let pasted := normalize_newlines pasted in
  let char_count := N.of_nat (length pasted) in
  let d :=
    if LARGE_PASTE_CHAR_THRESHOLD <? char_count then
      let placeholder := next_large_paste_placeholder char_count d in
      set_pastes (pending_pastes d ++ [(placeholder, pasted)])
        (set_text (before d ++ placeholder) (after d) d)
    else insert_str pasted d in
  set_burst (clear_after_explicit_paste (paste_burst d)) d.

(** [if let Some(pasted) = flush_before_modified_input() { handle_paste(pasted) }] *)
Definition flush_held (d : Draft) : Draft :=
  let '(out, b) := flush_before_modified_input (paste_burst d) in
  let d := set_burst b d in
  match out with Some pasted => handle_paste pasted d | None => d end.

Definition handle_paste_burst_flush (now : N) (d : Draft) : bool * Draft :=
  let '(r, b) := flush_if_due now (paste_burst d) in
  let d := set_burst b d in
  match r with
  | Paste pasted => (true, handle_paste pasted d)
  | Typed ch => (true, insert_str [ch] d)
  | Nothing => (false, d)
  end.

(** The [BeginBuffer] arm: remove the grabbed text and buffer it with [ch].
    The first [None] is a panic, the second falls through. *)
Definition begin_buffer (ch : char) (now retro_chars : N) (d : Draft) : option (Draft * bool) :=
  '(grab, b) ← decide_begin_buffer now (before d) retro_chars (paste_burst d);
  match grab with
  | Some grab =>
      '(kept, _) ← split_at_byte (start_byte grab) (before d);
      let d := if is_empty (grabbed grab) then d else set_text kept (after d) d in
      Some (set_burst (append_char_to_buffer ch now b) d, true)
  | None => Some (set_burst b d, false)
  end.

(** Normal insertion; placeholders that are gone are forgotten. *)
Definition insert_non_ascii (ch : char) (d : Draft) : Draft :=
  let d := set_text (before d ++ [ch]) (after d) d in
  set_pastes (List.filter (fun p => contains (text d) p.1) (pending_pastes d)) d.

Definition handle_non_ascii_char (ch : char) (now : N) (d : Draft) : option Draft :=
  if disable_paste_burst d then Some (insert_non_ascii ch d)
  else
    let '(appended, b) := try_append_char_if_active ch now (paste_burst d) in
    if appended then Some (set_burst b d)
    else
      let d := flush_held d in
      let '(decision, b) := on_plain_char_no_hold now (paste_burst d) in
      let d := set_burst b d in
      match decision with
      | Some BufferAppend => Some (set_burst (append_char_to_buffer ch now (paste_burst d)) d)
      | Some (BeginBuffer retro_chars) =>
          '(d, buffered) ← begin_buffer ch now retro_chars d;
          if (buffered : bool) then Some d else Some (insert_non_ascii ch (flush_held d))
      | Some _ => None
      | None => Some (insert_non_ascii ch (flush_held d))
      end.

(** [handle_input_basic_with_time] of a plain char; [allows] is
    [textarea.allows_paste_burst()]. *)
Definition handle_char (allows : bool) (ch : char) (now : N) (d : Draft) : option Draft :=
  let d := (handle_paste_burst_flush now d).2 in
  let insert d :=
    let d := flush_held d in
    Some (sync_bash_mode_from_text (set_text (before d ++ [ch]) (after d) d)) in
  if negb (disable_paste_burst d) && allows then
    if negb (ch <? 128) then handle_non_ascii_char ch now d
    else
      let '(decision, b) := on_plain_char ch now (paste_burst d) in
      let d := set_burst b d in
      match decision with
      | BufferAppend | BeginBufferFromPending =>
          Some (set_burst (append_char_to_buffer ch now (paste_burst d)) d)
      | BeginBuffer retro_chars =>
          '(d, buffered) ← begin_buffer ch now retro_chars d;
          if (buffered : bool) then Some d else insert d
      | RetainFirstChar => Some d
      end
  else insert d.

(** [handle_submission_with_time] up to the submission, which is [false]. *)
Definition handle_enter (slash_commands_enabled popup_command : bool) (now : N) (d : Draft) :
    bool * Draft :=
  let in_slash_context :=
    slash_commands_enabled && negb (is_bash_mode d) &&
    (popup_command || starts_with (default [] (head (lines (text d)))) "/"%str) in
  let '(appended, b) :=
    if negb (disable_paste_burst d) && is_active (paste_burst d) && negb in_slash_context
    then append_newline_if_active now (paste_burst d) else (false, paste_burst d) in
  if appended then (true, set_burst b d)
  else if negb in_slash_context && negb (disable_paste_burst d) &&
          newline_should_insert_instead_of_submit now (paste_burst d)
  then
    let d := set_text (before d ++ [NL]) (after d) d in
    (true, set_burst (extend_window now (paste_burst d)) d)
  else (false, d).

Definition set_disable_paste_burst (disabled : bool) (d : Draft) : Draft :=
  let was_disabled := disable_paste_burst d in
  let d := mkDraft (before d) (after d) (is_bash_mode d) (pending_pastes d) (paste_burst d) disabled in
  if disabled && negb was_disabled then
    let d := flush_held d in
    set_burst (clear_after_explicit_paste (paste_burst d)) d
  else d.
End Platform.

(** ** What has been typed *)

(** The text the state machine holds back. *)
Definition held (b : PasteBurst) : str :=
  buffer b ++ match pending_first_char b with Some (ch, _) => [ch] | None => [] end.
(** The text before the cursor, with the [!] that became the mode. *)
Definition shown (d : Draft) : str := (if is_bash_mode d then "!"%str else []) ++ before d.
Definition typed (d : Draft) : str := shown d ++ held (paste_burst d).

(** A held char excludes a buffer, and what is held has a time to expire. *)
Definition good (b : PasteBurst) : Prop :=
  match pending_first_char b with
  | Some (_, h) => last_plain_char_time b = Some h /\ active b = false /\ buffer b = []
  | None => (active b = true <-> buffer b <> []) /\ (active b = true -> is_Some (last_plain_char_time b))
  end.

(** No recorded time is later than [t]. *)
Definition fresh (t : N) (b : PasteBurst) : Prop := forall h, last_plain_char_time b = Some h -> h <= t.

Definition inv (t : N) (d : Draft) : Prop :=
  good (paste_burst d) /\ fresh t (paste_burst d) /\ no_char CR (typed d).

(** [d'] is [d] with [s] typed, at time [t]. *)
Definition typed_to (t : N) (d : Draft) (s : str) (d' : Draft) : Prop :=
  inv t d' /\ typed d' = typed d ++ s /\ after d' = after d.

Lemma normalize_newlines_id s : no_char CR s -> normalize_newlines s = s.
Proof.
  induction s as [|c s IH]; [done|]. intros [Hc Hs]%no_char_cons. cbn.
  rewrite (proj2 (N.eqb_neq _ _)) by done. by rewrite IH.
Qed.

Lemma sync_shown d :
  before d <> [] ->
  shown (sync_bash_mode_from_text d) = shown d /\ after (sync_bash_mode_from_text d) = after d /\
  paste_burst (sync_bash_mode_from_text d) = paste_burst d.
Proof.
  intros Hb. unfold sync_bash_mode_from_text. destruct d as [b a bash ps pb dis]. cbn in *.
  destruct b as [|c b]; [done|]. destruct bash; cbn; [done|].
  destruct (starts_with _ _) eqn:E; cbn; [|done].
  apply starts_with_spec in E as [u E]. by injection E as -> _.
Qed.

Lemma insert_str_shown s d :
  s <> [] ->
  shown (insert_str s d) = shown d ++ s /\ after (insert_str s d) = after d /\
  paste_burst (insert_str s d) = paste_burst d.
Proof.
  intros Hs. unfold insert_str.
  destruct (sync_shown (set_text (before d ++ s) (after d) d)) as (H1 & H2 & H3).
  - cbn. intros [_ ?]%app_eq_nil. done.
  - rewrite H1, H2, H3. unfold shown. cbn. by rewrite app_assoc.
Qed.

Lemma handle_paste_shown s d :
  s <> [] -> no_char CR s -> N.of_nat (length s) <= LARGE_PASTE_CHAR_THRESHOLD ->
  shown (handle_paste s d) = shown d ++ s /\ after (handle_paste s d) = after d /\
  paste_burst (handle_paste s d) = clear_after_explicit_paste (paste_burst d).
Proof.
  intros Hs Hcr Hlen. unfold handle_paste. rewrite normalize_newlines_id by done.
  rewrite (proj2 (N.ltb_ge _ _)) by done.
  destruct (insert_str_shown s d Hs) as (H1 & H2 & H3). by rewrite H3.
Qed.

Lemma cleared_good t b : good (clear_after_explicit_paste b) /\ fresh t (clear_after_explicit_paste b) /\
  held (clear_after_explicit_paste b) = [].
Proof. split_and!; try done. Qed.

Lemma is_active_held b : good b -> is_active b = negb (is_empty (held b)).
Proof.
  unfold good, is_active, is_active_internal, held.
  destruct (pending_first_char b) as [[c h]|]; cbn.
  - intros (_ & -> & ->). done.
  - intros [H _]. rewrite app_nil_r, orb_false_r.
    destruct (active b); destruct (buffer b); cbn; try done. destruct H as [H _]. by destruct (H eq_refl).
Qed.

Lemma flush_before_good b :
  good b ->
  flush_before_modified_input b =
    (if is_empty (held b) then (None, b)
     else (Some (held b), set_pending None (set_buffer [] (set_active false b)))).
Proof.
  intros Hg. unfold flush_before_modified_input. rewrite (is_active_held b Hg).
  by destruct (is_empty (held b)).
Qed.

Definition short (d : Draft) : Prop := N.of_nat (length (typed d)) <= LARGE_PASTE_CHAR_THRESHOLD.

Lemma no_char_held d : no_char CR (typed d) -> no_char CR (held (paste_burst d)).
Proof. unfold typed. by intros [_ H]%no_char_app. Qed.

Lemma short_held d : short d -> N.of_nat (length (held (paste_burst d))) <= LARGE_PASTE_CHAR_THRESHOLD.
Proof. unfold short, typed. rewrite length_app. lia. Qed.

(** Flushing shows everything that was held. *)
Lemma flush_held_spec t d :
  inv t d -> short d ->
  typed_to t d [] (flush_held d) /\ held (paste_burst (flush_held d)) = [].
Proof.
  intros (Hg & Hf & Hcr) Hs. unfold flush_held. rewrite flush_before_good by done.
  destruct (held (paste_burst d)) as [|c s] eqn:E; cbn [is_empty].
  - unfold typed_to, inv. cbn. by rewrite app_nil_r.
  - rewrite <- E. destruct (handle_paste_shown (held (paste_burst d))
      (set_burst (set_pending None (set_buffer [] (set_active false (paste_burst d)))) d)) as (H1 & H2 & H3).
    { by rewrite E. } { by apply no_char_held. } { by apply short_held. }
    destruct (cleared_good t (paste_burst (set_burst
      (set_pending None (set_buffer [] (set_active false (paste_burst d)))) d))) as (C1 & C2 & C3).
    unfold typed_to, inv, typed. rewrite H1, H2, H3, C3, !app_nil_r.
    by split_and!.
Qed.

Lemma fresh_le t t' b : fresh t b -> t <= t' -> fresh t' b.
Proof. intros H Hle h Hh. specialize (H h Hh). lia. Qed.

Lemma typed_to_trans t t' d s d' s' d'' :
  typed_to t d s d' -> typed_to t' d' s' d'' -> typed_to t' d (s ++ s') d''.
Proof.
  intros (_ & H1 & H2) (H & H3 & H4). split_and!; [done|by rewrite H3, H1, app_assoc|congruence].
Qed.

(** A tick shows what is due and keeps the rest. *)
Lemma tick_spec windows t now d :
  inv t d -> short d -> t <= now ->
  let d' := (handle_paste_burst_flush windows now d).2 in
  typed_to now d [] d' /\
  (forall c h, pending_first_char (paste_burst d') = Some (c, h) ->
     duration_since now h <= PASTE_BURST_CHAR_INTERVAL) /\
  (t + PASTE_BURST_ACTIVE_IDLE_TIMEOUT windows < now -> held (paste_burst d') = []).
Proof.
  intros (Hg & Hf & Hcr) Hs Hle d'. subst d'. unfold handle_paste_burst_flush.
  assert (PASTE_BURST_CHAR_INTERVAL <= PASTE_BURST_ACTIVE_IDLE_TIMEOUT windows) as Hint.
  { unfold PASTE_BURST_ACTIVE_IDLE_TIMEOUT, PASTE_BURST_CHAR_INTERVAL, from_millis. destruct windows; lia. }
  assert (typed_to now d [] (set_burst (paste_burst d) d)) as Hsame.
  { split_and!; [split_and!; [done|by eapply fresh_le|done]|by rewrite app_nil_r|done]. }
  set (b := paste_burst d) in *.
  assert (forall h, last_plain_char_time b = Some h -> h <= t) as Hlast by done.
  unfold flush_if_due, duration_since in *. pose proof Hg as Hg'. unfold good in Hg.
  destruct (pending_first_char b) as [[c h]|] eqn:Ep.
  - destruct Hg as (Hl & Ha & Hb). unfold is_active_internal. rewrite Ha, Hb, Hl. cbn [orb negb is_empty].
    rewrite andb_false_r. specialize (Hlast h Hl).
    destruct (_ <? now - h) eqn:E; [apply N.ltb_lt in E|apply N.ltb_ge in E]; cbn [snd].
    + destruct (insert_str_shown [c] (set_burst (set_pending None b) d)) as (H1 & H2 & H3); [done|].
      assert (typed (insert_str [c] (set_burst (set_pending None b) d)) = typed d) as Ht.
      { unfold typed. rewrite H1, H3. fold b. unfold held. cbn. rewrite Ep, Hb. by rewrite !app_nil_r. }
      split_and!.
      * split_and!; [split_and!| |done].
        -- rewrite H3. unfold good. cbn. rewrite Ha, Hb. by split.
        -- rewrite H3. apply (fresh_le t); done.
        -- by rewrite Ht.
        -- by rewrite Ht, app_nil_r.
      * rewrite H3. done.
      * intros _. rewrite H3. unfold held. cbn. by rewrite Hb.
    + split_and!; [done| |].
      * cbn. rewrite Ep. intros ? ? [= <- <-]. unfold PASTE_BURST_CHAR_INTERVAL in *. lia.
      * intros Ht. exfalso. lia.
  - destruct Hg as [Hab Hlt]. unfold is_active_internal.
    destruct (active b) eqn:Ea.
    + destruct (Hlt eq_refl) as [h Hl]. rewrite Hl. cbn [orb]. specialize (Hlast h Hl).
      assert (buffer b <> []) as Hb by by apply Hab.
      assert (held b = buffer b) as Hh by (unfold held; rewrite Ep; by rewrite app_nil_r).
      destruct (_ <? now - h) eqn:E; [apply N.ltb_lt in E|apply N.ltb_ge in E]; cbn [snd andb].
      * rewrite <- Hh. destruct (handle_paste_shown (held b)
          (set_burst (set_buffer [] (set_active false b)) d)) as (H1 & H2 & H3).
        { by rewrite Hh. } { by apply no_char_held. } { by apply short_held. }
        destruct (cleared_good now (paste_burst (set_burst (set_buffer [] (set_active false b)) d)))
          as (C1 & C2 & C3).
        unfold typed_to, inv, typed. rewrite H1, H2, H3, C3, !app_nil_r.
        by split_and!.
      * split_and!; [done| |].
        -- cbn. by rewrite Ep.
        -- intros Ht. exfalso. lia.
    + assert (buffer b = []) as Hb.
      { destruct (buffer b) eqn:E; [done|]. destruct Hab as [_ Hab]. by discriminate Hab. }
      rewrite Hb. cbn [orb negb is_empty].
      assert (forall x : bool, (let '(r, b0) := if x && false then (Paste [], set_buffer [] (set_active false b))
        else if x then (Nothing, b) else (Nothing, b) in
        match r with
        | Paste pasted => (true, handle_paste pasted (set_burst b0 d))
        | Typed ch => (true, insert_str [ch] (set_burst b0 d))
        | Nothing => (false, set_burst b0 d)
        end) = (false, set_burst b d)) as -> by by intros [].
      cbn [snd]. split_and!; [done| |].
      * cbn. by rewrite Ep.
      * intros _. cbn. unfold held. by rewrite Ep, Hb.
Qed.

(** The retroactive grab moves the end of the text to the buffer. *)
Lemma decide_begin_buffer_spec now text n b :
  exists kept grab, text = kept ++ grab /\
    decide_begin_buffer now text n b =
      Some (if existsb is_whitespace grab || (16 <=? N.of_nat (length grab))
            then (Some (mkGrab (blen kept) grab), begin_with_retro_grabbed grab now b)
            else (None, b)).
Proof.
  assert (exists kept grab, text = kept ++ grab /\ retro_start_index text n = blen kept)
    as (kept & grab & -> & H).
  { unfold retro_start_index. destruct (n =? 0).
    - exists text, []. by rewrite app_nil_r.
    - destruct (N.of_nat (length text) <? n).
      + by exists [], text.
      + eexists _, _. split; [symmetry; apply take_drop|done]. }
  exists kept, grab. split; [done|]. unfold decide_begin_buffer. rewrite H, split_at_byte_app. done.
Qed.

Lemma begin_buffer_spec t ch now n d :
  inv t d -> pending_first_char (paste_burst d) = None -> active (paste_burst d) = false ->
  is_Some (last_plain_char_time (paste_burst d)) -> ch <> CR ->
  exists d' buffered, begin_buffer ch now n d = Some (d', buffered) /\
    if (buffered : bool) then typed_to t d [ch] d' else d' = d.
Proof.
  intros (Hg & Hf & Hcr) Hp Ha Hl Hch. unfold begin_buffer.
  destruct (decide_begin_buffer_spec now (before d) n (paste_burst d)) as (kept & grab & Ht & ->).
  cbn [mbind option_bind].
  destruct (existsb is_whitespace grab || _) eqn:E.
  2: { exists d, false. split; [|done]. cbn. f_equal. f_equal. by destruct d. }
  assert (grab <> []) as Hne by (intros ->; cbn in E; done).
  cbn [start_byte grabbed]. rewrite Ht, split_at_byte_app. cbn [mbind option_bind].
  eexists _, true. split; [done|].
  rewrite (proj2 (is_empty_false grab) Hne).
  assert (buffer (paste_burst d) = []) as Hb.
  { unfold good in Hg. rewrite Hp in Hg. destruct Hg as [[_ Hab] _].
    destruct (buffer (paste_burst d)); [done|]. rewrite Hab in Ha; done. }
  assert (forall d', paste_burst d' = append_char_to_buffer ch now (begin_with_retro_grabbed grab now (paste_burst d)) ->
    shown d' ++ grab = shown d -> typed d' = typed d ++ [ch]) as Htyped.
  { intros d' Hd' Hs. unfold typed, held. rewrite Hd'. unfold begin_with_retro_grabbed.
    rewrite (proj2 (is_empty_false grab) Hne). cbn. rewrite Hp, Hb, <- Hs. cbn.
    by rewrite !app_nil_r, <- !app_assoc. }
  specialize (Htyped (set_burst (append_char_to_buffer ch now (begin_with_retro_grabbed grab now (paste_burst d)))
    (set_text kept (after d) d)) eq_refl).
  assert (shown (set_text kept (after d) d) ++ grab = shown d) as Hs.
  { unfold shown. cbn. by rewrite Ht, app_assoc. }
  specialize (Htyped Hs). split_and!; [split_and!|done|done].
  - cbn. unfold begin_with_retro_grabbed. rewrite (proj2 (is_empty_false grab) Hne).
    unfold good. cbn. rewrite Hp. split; [|done]. split; [|done]. intros _ [_ ?]%app_eq_nil. done.
  - intros h Hh. apply Hf. revert Hh. cbn. unfold begin_with_retro_grabbed.
    by rewrite (proj2 (is_empty_false grab) Hne).
  - rewrite Htyped. apply no_char_app. split; [done|]. apply no_char_cons. split; [done|].
    intros H. by apply elem_of_nil in H.
Qed.

Lemma no_char_snoc c s d : no_char c s -> d <> c -> no_char c (s ++ [d]).
Proof.
  intros Hs Hd. apply no_char_app. split; [done|]. apply no_char_cons. split; [done|].
  intros H. by apply elem_of_nil in H.
Qed.

(** Nothing held: a char typed into the text. *)
Lemma type_spec t ch d d' :
  inv t d -> held (paste_burst d) = [] -> ch <> CR ->
  paste_burst d' = paste_burst d -> after d' = after d -> shown d' = shown d ++ [ch] ->
  typed_to t d [ch] d'.
Proof.
  intros (Hg & Hf & Hcr) Hh Hch Hb Ha Hs. unfold typed_to, inv, typed in *.
  rewrite Hb, Ha, Hs, Hh, !app_nil_r in *. split_and!; try done. by apply no_char_snoc.
Qed.

Lemma insert_non_ascii_spec t ch d :
  inv t d -> held (paste_burst d) = [] -> ch <> CR -> typed_to t d [ch] (insert_non_ascii ch d).
Proof. intros. eapply type_spec; try done. unfold shown. cbn. by rewrite app_assoc. Qed.

Lemma insert_char_spec t ch d :
  inv t d -> held (paste_burst d) = [] -> ch <> CR ->
  typed_to t d [ch] (sync_bash_mode_from_text (set_text (before d ++ [ch]) (after d) d)).
Proof.
  intros Hi Hh Hch.
  destruct (sync_shown (set_text (before d ++ [ch]) (after d) d)) as (H1 & H2 & H3).
  { cbn. by intros [_ ?]%app_eq_nil. }
  eapply type_spec; try done. rewrite H1. unfold shown. cbn. by rewrite app_assoc.
Qed.

(** A char appended to what is held. *)
Lemma append_spec t ch d b :
  inv t d -> good b -> fresh t b -> held b = held (paste_burst d) ++ [ch] -> ch <> CR ->
  typed_to t d [ch] (set_burst b d).
Proof.
  intros (Hg & Hf & Hcr) Hgb Hfb Hh Hch. unfold typed_to, inv, typed in *. cbn. rewrite Hh.
  rewrite app_assoc. split_and!; try done. by apply no_char_snoc.
Qed.

Lemma note_spec now b :
  last_plain_char_time (note_plain_char now b) = Some now /\
  buffer (note_plain_char now b) = buffer b /\ active (note_plain_char now b) = active b /\
  pending_first_char (note_plain_char now b) = pending_first_char b.
Proof. done. Qed.

Lemma note_inv t now d :
  inv t d -> pending_first_char (paste_burst d) = None ->
  inv now (set_burst (note_plain_char now (paste_burst d)) d) /\
  typed (set_burst (note_plain_char now (paste_burst d)) d) = typed d.
Proof.
  intros (Hg & Hf & Hcr) Hp. split; [|done]. split_and!; [| |done].
  - unfold good in *. cbn. rewrite Hp in *. destruct Hg as [Hg _]. split; [done|]. eauto.
  - intros h. cbn. intros [= <-]. done.
Qed.

Lemma short_nil t d d' : typed_to t d [] d' -> short d -> short d'.
Proof. unfold short. intros (_ & -> & _). by rewrite app_nil_r. Qed.

Lemma held_nil_pending b : held b = [] -> pending_first_char b = None /\ buffer b = [].
Proof. unfold held. intros [Hb Hp]%app_eq_nil. by destruct (pending_first_char b) as [[c h]|]. Qed.

Lemma good_idle b : good b -> pending_first_char b = None -> active b = false -> buffer b = [].
Proof.
  unfold good. intros Hg Hp Ha. rewrite Hp in Hg. destruct Hg as [[_ H] _].
  destruct (buffer b); [done|]. rewrite H in Ha; done.
Qed.

(** A char while the buffer is filling. *)
Lemma append_active_spec t now ch d b :
  inv t d -> t <= now -> pending_first_char b = None -> buffer b = buffer (paste_burst d) ->
  pending_first_char (paste_burst d) = None -> active b = true -> buffer b <> [] ->
  last_plain_char_time b = last_plain_char_time (paste_burst d) \/ last_plain_char_time b = Some now ->
  ch <> CR ->
  typed_to now d [ch] (set_burst (append_char_to_buffer ch now b) d).
Proof.
  intros Hi Hle Hp Hb Hp' Ha Hne Hl Hch. pose proof Hi as (Hg & Hf & Hcr).
  assert (is_Some (last_plain_char_time b) /\ fresh now b) as [Hl1 Hl2].
  { destruct Hl as [Hl|Hl]; unfold fresh; rewrite Hl.
    - split; [|intros h Hh; specialize (Hf h Hh); lia].
      unfold good in Hg. rewrite Hp' in Hg. destruct Hg as [Hab Hsome]. apply Hsome, Hab. by rewrite <- Hb.
    - split; [eauto|]. by intros h [= <-]. }
  apply append_spec; [split_and!; [done|by eapply fresh_le|done]| |done| |done].
  - unfold good. cbn. rewrite Hp. split; [|done]. split; [|done]. intros _ [_ ?]%app_eq_nil. done.
  - unfold held. cbn. by rewrite Hp, Hp', Hb, !app_nil_r.
Qed.

Lemma begin_or_insert_spec now ch n d (insert : Draft -> Draft) :
  inv now d -> short d -> pending_first_char (paste_burst d) = None -> active (paste_burst d) = false ->
  is_Some (last_plain_char_time (paste_burst d)) -> ch <> CR ->
  (forall d, inv now d -> held (paste_burst d) = [] -> typed_to now d [ch] (insert d)) ->
  exists d', ('(d, buffered) ← begin_buffer ch now n d;
              if (buffered : bool) then Some d else Some (insert (flush_held d))) = Some d' /\
    typed_to now d [ch] d'.
Proof.
  intros Hi Hs Hp Ha Hl Hch Hins.
  destruct (begin_buffer_spec now ch now n d Hi Hp Ha Hl Hch) as (d' & buffered & -> & H).
  cbn [mbind option_bind]. destruct buffered; [eauto|]. subst d'. eexists. split; [done|].
  destruct (flush_held_spec now d Hi Hs) as [H1 H2].
  apply (typed_to_trans now now d [] _ [ch] _ H1). apply Hins; [apply H1|done].
Qed.

Lemma handle_non_ascii_char_spec ch now d :
  inv now d -> short d -> ch <> CR -> disable_paste_burst d = false ->
  exists d', handle_non_ascii_char ch now d = Some d' /\ typed_to now d [ch] d'.
Proof.
  intros Hi Hs Hch Hdis. unfold handle_non_ascii_char, try_append_char_if_active. rewrite Hdis.
  destruct (active (paste_burst d) || _) eqn:E.
  - eexists. split; [done|]. pose proof Hi as (Hg & _).
    assert (pending_first_char (paste_burst d) = None /\ active (paste_burst d) = true /\
      buffer (paste_burst d) <> []) as (Hp & Ha & Hb).
    { unfold good in Hg. destruct (pending_first_char (paste_burst d)) as [[c h]|].
      - destruct Hg as (_ & Ha & Hb). by rewrite Ha, Hb in E.
      - destruct Hg as [[H1 H2] _]. apply orb_true_iff in E as [E|E]; [by eauto|].
        apply negb_true_iff, is_empty_false in E. eauto. }
    apply (append_active_spec now); auto.
  - cbn iota zeta. destruct (flush_held_spec now d Hi Hs) as [Hf Hheld].
    pose proof (short_nil _ _ _ Hf Hs) as Hs'. pose proof Hf as (Hi' & Ht & Ha').
    rewrite app_nil_r in Ht.
    set (d1 := flush_held d) in *. destruct (held_nil_pending _ Hheld) as [Hp Hb].
    assert (active (paste_burst d1) = false) as Hact.
    { destruct Hi' as (Hg & _). unfold good in Hg. rewrite Hp in Hg. destruct Hg as [[H _] _].
      destruct (active (paste_burst d1)); [|done]. by destruct H. }
    unfold on_plain_char_no_hold. cbn [active note_plain_char]. rewrite Hact.
    destruct (note_inv now now d1 Hi' Hp) as [Hi2 Ht2].
    set (d2 := set_burst (note_plain_char now (paste_burst d1)) d1) in *.
    assert (short d2) as Hs2 by (unfold short in *; by rewrite Ht2).
    assert (forall d', typed_to now d2 [ch] d' -> typed_to now d [ch] d') as Hback.
    { intros d' H. apply (typed_to_trans now now d [] d1 [ch] d' Hf).
      destruct H as (H1 & H2 & H3). split_and!; [done|by rewrite H2, Ht2|done]. }
    destruct (PASTE_BURST_MIN_CHARS <=? _).
    + destruct (begin_or_insert_spec now ch (consecutive_plain_char_burst (note_plain_char now (paste_burst d1)) - 1)
        d2 (insert_non_ascii ch) Hi2 Hs2) as (d' & H1 & H2); try done.
      { intros d0 H0 Hh0. by apply insert_non_ascii_spec. }
      exists d'. split; [exact H1|by apply Hback].
    + eexists. split; [done|]. apply Hback.
      destruct (flush_held_spec now d2 Hi2 Hs2) as [Hf2 Hh2].
      apply (typed_to_trans now now d2 [] _ [ch] _ Hf2). by apply insert_non_ascii_spec; [apply Hf2| |].
Qed.

(** A plain char is typed, whether shown, held or buffered. *)
Lemma handle_char_spec windows allows ch t now d :
  inv t d -> short d -> ch <> CR -> t <= now ->
  exists d', handle_char windows allows ch now d = Some d' /\ typed_to now d [ch] d'.
Proof.
  intros Hi0 Hs0 Hch Hle. unfold handle_char.
  destruct (tick_spec windows t now d Hi0 Hs0 Hle) as (Htick & Hpend & _).
  set (d1 := (handle_paste_burst_flush windows now d).2) in *.
  pose proof (short_nil _ _ _ Htick Hs0) as Hs. pose proof Htick as (Hi & _ & _).
  assert (forall d', typed_to now d1 [ch] d' -> typed_to now d [ch] d') as Hback.
  { intros d' H. exact (typed_to_trans now now d [] d1 [ch] d' Htick H). }
  cbn zeta.
  assert (forall d2, inv now d2 -> short d2 -> typed_to now d2 [ch]
    (sync_bash_mode_from_text
       (set_text (before (flush_held d2) ++ [ch]) (after (flush_held d2)) (flush_held d2)))) as Hins.
  { intros d2 Hi2 Hs2. destruct (flush_held_spec now d2 Hi2 Hs2) as [Hf2 Hh2].
    apply (typed_to_trans now now d2 [] _ [ch] _ Hf2). by apply insert_char_spec; [apply Hf2| |]. }
  destruct (negb (disable_paste_burst d1) && allows) eqn:Eon.
  2: { eexists. split; [done|]. apply Hback. by apply Hins. }
  apply andb_prop in Eon as [Edis%negb_true_iff _].
  destruct (negb (ch <? 128)).
  { destruct (handle_non_ascii_char_spec ch now d1) as (d' & H1 & H2); try done. eauto. }
  unfold on_plain_char. set (b1 := note_plain_char now (paste_burst d1)).
  destruct (active b1) eqn:Ea.
  - eexists. split; [done|]. apply Hback.
    assert (pending_first_char (paste_burst d1) = None /\ buffer (paste_burst d1) <> []) as [Hp Hb].
    { destruct Hi as (Hg & _). unfold good in Hg. cbn in Ea.
      destruct (pending_first_char (paste_burst d1)) as [[c h]|].
      - destruct Hg as (_ & Ha & _). congruence.
      - destruct Hg as [[H _] _]. auto. }
    change (set_burst (append_char_to_buffer ch now (paste_burst (set_burst (set_window now b1) d1)))
      (set_burst (set_window now b1) d1)) with (set_burst (append_char_to_buffer ch now (set_window now b1)) d1).
    apply (append_active_spec now); auto.
  - destruct (pending_first_char b1) as [[c h]|] eqn:Ep.
    + assert (last_plain_char_time (paste_burst d1) = Some h /\ buffer (paste_burst d1) = []) as [Hl Hb].
      { destruct Hi as (Hg & _). unfold good in Hg. change (pending_first_char (paste_burst d1)) with (pending_first_char b1) in Hg.
        rewrite Ep in Hg. naive_solver. }
      rewrite (proj2 (N.leb_le _ _)) by (by apply (Hpend c h)).
      eexists. split; [done|]. apply Hback.
      match goal with |- typed_to _ _ _ (set_burst ?b _) => apply (append_spec now ch d1 b) end; try done.
      * unfold good. cbn. split; [|eauto]. split; [|done]. intros _ H. by rewrite Hb in H.
      * intros x. cbn. intros [= <-]. done.
      * unfold held. cbn. change (pending_first_char (paste_burst d1)) with (pending_first_char b1).
        rewrite Ep, Hb. done.
    + change (pending_first_char (paste_burst d1) = None) in Ep. pose proof Hi as (Hg & _). pose proof (good_idle _ Hg Ep Ea) as Hb.
      destruct (note_inv now now d1 Hi Ep) as [Hi2 Ht2]. fold b1 in Hi2, Ht2.
      set (d2 := set_burst b1 d1) in *.
      assert (short d2) as Hs2 by (unfold short in *; by rewrite Ht2).
      assert (forall d', typed_to now d2 [ch] d' -> typed_to now d [ch] d') as Hback2.
      { intros d' H. apply Hback. destruct H as (H1 & H2 & H3). split_and!; [done|by rewrite H2, Ht2|done]. }
      destruct (PASTE_BURST_MIN_CHARS <=? _).
      * destruct (begin_buffer_spec now ch now (consecutive_plain_char_burst b1 - 1) d2 Hi2)
          as (d' & buffered & H1 & H2); try done.
        fold d2. rewrite H1. cbn [mbind option_bind]. destruct buffered.
        -- exists d'. auto.
        -- subst d'. eexists. split; [done|]. apply Hback2. by apply Hins.
      * eexists. split; [done|]. apply Hback.
        apply (append_spec now ch d1 (set_pending (Some (ch, now)) b1)); try done.
        -- intros h. cbn. by intros [= <-].
        -- unfold held. cbn. rewrite Ep, Hb. done.
Qed.

(** Enter is typed while a burst is on, except over a held first char. *)
Lemma handle_enter_spec slash popup t now d d' :
  inv t d -> t <= now -> pending_first_char (paste_burst d) = None ->
  held (paste_burst d) = [] \/ disable_paste_burst d = false ->
  handle_enter slash popup now d = (true, d') -> typed_to now d [NL] d'.
Proof.
  intros Hi Hle Hp Hdis. unfold handle_enter.
  set (slash_context := slash && negb (is_bash_mode d) && _). intros H.
  assert (inv now d) as Hi' by (destruct Hi as (? & ? & ?); split_and!; try done; by eapply fresh_le).
  assert (NL <> CR) as Hnl by done.
  destruct (is_active (paste_burst d)) eqn:Ea.
  - pose proof Hi as (Hg & _). rewrite (is_active_held _ Hg) in Ea.
    apply negb_true_iff, is_empty_false in Ea.
    assert (buffer (paste_burst d) <> [] /\ active (paste_burst d) = true) as [Hb Hact].
    { unfold held in Ea. rewrite Hp, app_nil_r in Ea. split; [done|].
      unfold good in Hg. rewrite Hp in Hg. by apply Hg. }
    destruct Hdis as [?|Hdis]; [done|]. rewrite Hdis in H.
    assert (is_active (paste_burst d) = true) as Hact'.
    { rewrite (is_active_held _ Hg). by apply negb_true_iff, is_empty_false. }
    destruct slash_context; cbn [negb andb] in H; [done|].
    unfold append_newline_if_active in H. rewrite Hact' in H. injection H as <-.
    by apply (append_active_spec t now NL d (paste_burst d)); auto.
  - rewrite andb_false_r in H. cbn [andb] in H.
    destruct (negb slash_context && _ && _) eqn:E; [|done]. injection H as <-.
    assert (held (paste_burst d) = []) as Hh.
    { pose proof Hi as (Hg & _). rewrite (is_active_held _ Hg) in Ea.
      apply negb_false_iff, is_empty_true in Ea. done. }
    assert (typed_to now d [NL] (set_text (before d ++ [NL]) (after d) d)) as (H1 & H2 & H3).
    { apply type_spec; try done. unfold shown. cbn. by rewrite app_assoc. }
    split_and!; [|done|done]. destruct H1 as (H1 & H4 & H5). split_and!; done.
Qed.

(** ** An Enter over a held first char

    The newline is buffered although the buffer was not begun: the held char
    [c] now comes behind it, and is dropped when the buffer is flushed before
    the next char.  What is held then reads as the buffer, followed by [c]. *)

Definition waiting (t : N) (d : Draft) (c : char) : Prop :=
  (exists h, pending_first_char (paste_burst d) = Some (c, h) /\
     last_plain_char_time (paste_burst d) = Some h) /\
  active (paste_burst d) = false /\ buffer (paste_burst d) <> [] /\
  fresh t (paste_burst d) /\ no_char CR (typed d).

Lemma waiting_active t d c : waiting t d c -> is_active (paste_burst d) = true.
Proof.
  intros (_ & Ha & Hb & _). unfold is_active, is_active_internal.
  by rewrite Ha, (proj2 (is_empty_false _) Hb).
Qed.

Lemma waiting_held t d c : waiting t d c -> held (paste_burst d) = buffer (paste_burst d) ++ [c].
Proof. intros ((h & Hp & _) & _). unfold held. by rewrite Hp. Qed.

Lemma waiting_le t t' d c : waiting t d c -> t <= t' -> waiting t' d c.
Proof. intros (H1 & H2 & H3 & H4 & H5) Hle. split_and!; try done. by eapply fresh_le. Qed.

(** Flushing before a modified input shows the buffer and the char. *)
Lemma flush_waiting t d c :
  waiting t d c -> short d ->
  typed_to t d [] (flush_held d) /\ held (paste_burst (flush_held d)) = [].
Proof.
  intros Hw Hs. pose proof (waiting_active _ _ _ Hw) as Hact. pose proof (waiting_held _ _ _ Hw) as Hh.
  destruct Hw as (_ & _ & _ & Hf & Hcr).
  unfold flush_held, flush_before_modified_input. rewrite Hact. cbn [negb].
  change (buffer (paste_burst d) ++ _) with (held (paste_burst d)).
  destruct (handle_paste_shown (held (paste_burst d))
    (set_burst (set_pending None (set_buffer [] (set_active false (paste_burst d)))) d)) as (H1 & H2 & H3).
  { rewrite Hh. by intros [_ ?]%app_eq_nil. } { by apply no_char_held. } { by apply short_held. }
  destruct (cleared_good t (paste_burst (set_burst
    (set_pending None (set_buffer [] (set_active false (paste_burst d)))) d))) as (C1 & C2 & C3).
  unfold typed_to, inv, typed. rewrite H1, H2, H3, C3, !app_nil_r. by split_and!.
Qed.

(** A tick leaves everything as it is, or pastes the buffer and drops the char. *)
Lemma tick_waiting windows t now d c :
  waiting t d c -> short d -> t <= now ->
  let d' := (handle_paste_burst_flush windows now d).2 in
  (d' = d /\ now <= t + PASTE_BURST_ACTIVE_IDLE_TIMEOUT windows) \/
  (inv now d' /\ typed d = typed d' ++ [c] /\ held (paste_burst d') = []).
Proof.
  intros Hw Hs Hle d'. subst d'. pose proof (waiting_held _ _ _ Hw) as Hh.
  destruct Hw as ((h & Hp & Hl) & Ha & Hb & Hf & Hcr). pose proof (Hf h Hl) as Hht.
  unfold handle_paste_burst_flush, flush_if_due, is_active_internal, duration_since.
  rewrite Ha, (proj2 (is_empty_false _) Hb), Hl. cbn [orb negb].
  destruct (_ <? now - h) eqn:E; [apply N.ltb_lt in E|apply N.ltb_ge in E]; cbn [snd andb].
  2: { left. split; [by destruct d|lia]. }
  right. unfold typed in Hcr. rewrite Hh in Hcr. apply no_char_app in Hcr as [Hcs [Hcb _]%no_char_app].
  pose proof (short_held _ Hs) as Hlen. rewrite Hh, length_app in Hlen. cbn in Hlen.
  destruct (handle_paste_shown (buffer (paste_burst d))
    (set_burst (set_buffer [] (set_active false (paste_burst d))) d)) as (H1 & H2 & H3); [done|done|lia|].
  destruct (cleared_good now (paste_burst
    (set_burst (set_buffer [] (set_active false (paste_burst d))) d))) as (C1 & C2 & C3).
  unfold inv, typed. rewrite H1, H3, C3, Hh, !app_nil_r, app_assoc. split_and!; try done.
  by apply no_char_app.
Qed.

(** A char over a waiting one: both are typed; it is buffered before the
    waiting one; or it takes its place. *)
Lemma handle_char_waiting windows allows ch now d c :
  waiting now d c -> short d -> ch <> CR -> (handle_paste_burst_flush windows now d).2 = d ->
  exists d', handle_char windows allows ch now d = Some d' /\
    ((inv now d' /\ typed d' = typed d ++ [ch]) \/
     (waiting now d' c /\ typed d' ≡ₚ typed d ++ [ch]) \/
     (waiting now d' ch /\ typed d ++ [ch] ≡ₚ typed d' ++ [c])).
Proof.
  intros Hw Hs Hch Htick. unfold handle_char. rewrite Htick. cbn zeta.
  destruct (negb (disable_paste_burst d) && allows) eqn:Eon.
  2: { eexists. split; [done|]. left. destruct (flush_waiting now d c Hw Hs) as [Hf Hh].
       destruct (typed_to_trans now now d [] _ [ch] _ Hf
         (insert_char_spec now ch (flush_held d) (proj1 Hf) Hh Hch)) as (H1 & H2 & _).
       by split. }
  apply andb_prop in Eon as [Edis%negb_true_iff _].
  pose proof (waiting_held _ _ _ Hw) as Hh.
  destruct Hw as ((h & Hp & Hl) & Ha & Hb & Hf & Hcr).
  pose proof (no_char_snoc _ _ _ Hcr Hch) as Hcr'.
  destruct (negb (ch <? 128)).
  - unfold handle_non_ascii_char, try_append_char_if_active. rewrite Edis.
    rewrite (proj2 (is_empty_false _) Hb), orb_true_r.
    eexists. split; [done|]. right; left.
    assert (typed (set_burst (append_char_to_buffer ch now (paste_burst d)) d) ≡ₚ typed d ++ [ch]) as Ht.
    { unfold typed at 2. rewrite Hh. unfold typed, held, shown. cbn. rewrite Hp. by solve_Permutation. }
    split; [|done]. split_and!; try done; [by exists h|by intros [_ ?]%app_eq_nil|].
    intros H. rewrite Ht in H. by apply Hcr'.
  - unfold on_plain_char. cbn [active note_plain_char pending_first_char]. rewrite Ha, Hp.
    destruct (duration_since now h <=? _) eqn:E.
    + eexists. split; [done|]. left.
      match goal with |- inv _ ?d' /\ _ => assert (typed d' = typed d ++ [ch]) as Ht end.
      { unfold typed at 2. rewrite Hh. unfold typed, held, shown. cbn.
        by rewrite !app_nil_r, <- !app_assoc. }
      split; [|exact Ht]. split_and!; [|by intros x [= <-]|by rewrite Ht].
      unfold good. cbn. split; [|done]. split; [|done]. intros _ [_ ?]%app_eq_nil. done.
    + assert (consecutive_plain_char_burst (note_plain_char now (paste_burst d)) = 1) as Hcount
        by (cbn; by rewrite Hl, E).
      rewrite Hcount. cbn [N.leb]. eexists. split; [done|]. right; right.
      assert (typed d ++ [ch] ≡ₚ typed (set_burst (set_pending (Some (ch, now))
        (note_plain_char now (paste_burst d))) d) ++ [c]) as Ht.
      { unfold typed at 1. rewrite Hh. unfold typed, held, shown. cbn. by solve_Permutation. }
      split; [|exact Ht]. split_and!; [by exists now|done|done|by intros x [= <-]|].
      intros H. apply Hcr'. rewrite Ht. apply elem_of_app. by left.
Qed.

(** A captured Enter over a held first char. *)
Lemma handle_enter_held slash popup t now d d' c h :
  fresh t (paste_burst d) -> no_char CR (typed d) -> t <= now ->
  pending_first_char (paste_burst d) = Some (c, h) ->
  last_plain_char_time (paste_burst d) = Some h -> active (paste_burst d) = false ->
  handle_enter slash popup now d = (true, d') ->
  waiting now d' c /\ typed d' ≡ₚ typed d ++ [NL].
Proof.
  intros Hf Hcr Hle Hp Hl Ha. unfold handle_enter.
  set (slash_context := slash && negb (is_bash_mode d) && _).
  assert (is_active (paste_burst d) = true) as Hact
    by (unfold is_active; rewrite Hp; apply orb_true_r).
  rewrite Hact, andb_true_r.
  destruct slash_context; rewrite ?andb_false_r; cbn [negb andb]; [done|]. rewrite andb_true_r.
  destruct (negb (disable_paste_burst d)); cbn [andb]; [|done].
  unfold append_newline_if_active. rewrite Hact. intros [= <-].
  set (d' := set_burst _ d).
  assert (typed d' ≡ₚ typed d ++ [NL]) as Ht
    by (unfold typed, held, shown; cbn; rewrite Hp; by solve_Permutation).
  split; [|done]. split_and!; [by exists h|done|by intros [_ ?]%app_eq_nil|by apply (fresh_le t)|].
  intros H. rewrite Ht in H. by apply (no_char_snoc CR (typed d) NL Hcr) in H.
Qed.

(** ** Sessions of typing *)

Section Session.
Variables windows : bool.

Definition overtaken (b : PasteBurst) : bool :=
  bool_decide (is_Some (pending_first_char b)) && negb (is_empty (buffer b)).

(** From an empty draft, by chars, ticks and captured Enters at times that do
    not decrease; the third argument is what was typed, the last one the
    chars at risk: those held as a first char when an Enter came, and those
    typed while such a char was waiting behind its newline. *)
Inductive session : N -> Draft -> str -> str -> Prop :=
| session_start t disabled a :
    session t (mkDraft [] a false [] default_burst disabled) [] []
| session_char t d s o allows ch now d' :
    session t d s o -> t <= now -> ch <> CR ->
    handle_char windows allows ch now d = Some d' ->
    session now d' (s ++ [ch]) (o ++ if overtaken (paste_burst d) then [ch] else [])
| session_tick t d s o now :
    session t d s o -> t <= now -> session now (handle_paste_burst_flush windows now d).2 s o
| session_disable t d s o disabled :
    session t d s o -> session t (set_disable_paste_burst disabled d) s o
| session_enter t d s o slash popup now d' :
    session t d s o -> t <= now -> handle_enter slash popup now d = (true, d') ->
    session now d' (s ++ [NL])
      (o ++ match pending_first_char (paste_burst d) with Some (c, _) => [c] | None => [] end).

(** What was typed is shown or held, but for chars at risk. *)
Definition follows (t : N) (d : Draft) (s o : str) : Prop :=
  exists lost, s ≡ₚ typed d ++ lost /\ (o = [] -> typed d = s) /\
    (inv t d /\ lost ⊆+ o \/ exists c, waiting t d c /\ lost ++ [c] ⊆+ o).

Lemma follows_short t d s o :
  follows t d s o -> N.of_nat (length s) <= LARGE_PASTE_CHAR_THRESHOLD -> short d.
Proof. intros (lost & Hp & _). unfold short. rewrite Hp, length_app. lia. Qed.

Lemma at_risk (lost o : str) c : lost ++ [c] ⊆+ o -> o <> [].
Proof. intros H%submseteq_length ->. rewrite length_app in H. cbn in H. lia. Qed.

(** Steps that only add what is typed. *)
Lemma follows_typed now d d' s o x :
  s ≡ₚ typed d ++ x -> forall k, typed_to now d k d' -> (o = [] -> typed d = s) -> x ⊆+ o ->
  follows now d' (s ++ k) o.
Proof.
  intros Hs k (Hi & Ht & _) Ho Hx. exists x. rewrite Ht. split_and!.
  - rewrite Hs. by solve_Permutation.
  - intros E. by rewrite Ho.
  - by left.
Qed.

Lemma follows_tick t now d s o :
  follows t d s o -> short d -> t <= now ->
  follows now (handle_paste_burst_flush windows now d).2 s o.
Proof.
  intros (lost & Hp & Ho & [[Hi Hl]|(c & Hw & Hl)]) Hs Hle.
  - destruct (tick_spec windows t now d Hi Hs Hle) as (H & _).
    rewrite <- (app_nil_r s). by apply (follows_typed now d _ s o lost).
  - destruct (tick_waiting windows t now d c Hw Hs Hle) as [[-> _]|(Hi & Ht & _)].
    + exists lost. split_and!; [done|done|]. right. exists c. split; [by eapply waiting_le|done].
    + exists (lost ++ [c]). split_and!; [rewrite Hp, Ht; by solve_Permutation| |by left].
      intros ->. by apply at_risk in Hl.
Qed.

(** Where nothing is held, another tick does nothing. *)
Lemma tick_idle now d :
  inv now d -> held (paste_burst d) = [] -> (handle_paste_burst_flush windows now d).2 = d.
Proof.
  intros (Hg & _) Hh. destruct (held_nil_pending _ Hh) as [Hp Hb].
  unfold handle_paste_burst_flush, flush_if_due. unfold good in Hg. rewrite Hp in Hg.
  assert (active (paste_burst d) = false) as Ha.
  { destruct (active (paste_burst d)); [|done]. by destruct Hg as [[Hg _] _]; destruct Hg. }
  unfold is_active_internal. rewrite Ha, Hb, Hp. cbn [orb negb is_empty]. rewrite andb_false_r.
  by destruct (match last_plain_char_time _ with Some _ => _ | None => _ end), d.
Qed.

Lemma follows_char t now d s o allows ch :
  follows t d s o -> short d -> t <= now -> ch <> CR ->
  exists d', handle_char windows allows ch now d = Some d' /\
    follows now d' (s ++ [ch]) (o ++ if overtaken (paste_burst d) then [ch] else []).
Proof.
  intros Hfol Hs Hle Hch. pose proof (follows_tick t now d s o Hfol Hs Hle) as Htick.
  destruct Hfol as (lost & Hp & Ho & [[Hi Hl]|(c & Hw & Hl)]).
  { destruct (handle_char_spec windows allows ch t now d Hi Hs Hch Hle) as (d' & H1 & H2).
    exists d'. split; [done|]. apply (follows_typed now d d' s _ lost); [done|done| |].
    - intros [? _]%app_eq_nil. by apply Ho.
    - etrans; [exact Hl|]. by apply submseteq_inserts_r. }
  assert (overtaken (paste_burst d) = true) as Hover.
  { destruct Hw as ((h & Hpend & _) & _ & Hb & _). unfold overtaken.
    by rewrite Hpend, (proj2 (is_empty_false _) Hb). }
  rewrite Hover. assert (o ++ [ch] = [] -> typed d = s) as Ho' by by intros [_ ?]%app_eq_nil.
  destruct (tick_waiting windows t now d c Hw Hs Hle) as [[Heq _]|(Hi & Ht & Hh)].
  - destruct (handle_char_waiting windows allows ch now d c (waiting_le _ _ _ _ Hw Hle) Hs Hch Heq)
      as (d' & H1 & [[H2 H3]|[[H2 H3]|[H2 H3]]]); exists d'; (split; [done|]).
    + exists lost. rewrite H3. split_and!; [rewrite Hp; by solve_Permutation|by intros [_ ?]%app_eq_nil|].
      left. split; [done|]. etrans; [|by apply submseteq_inserts_r, Hl]. by apply submseteq_inserts_r.
    + exists lost. split_and!; [rewrite Hp, H3; by solve_Permutation|by intros [_ ?]%app_eq_nil|].
      right. exists c. split; [done|]. by apply submseteq_inserts_r.
    + exists (lost ++ [c]). split_and!; [|by intros [_ ?]%app_eq_nil|].
      * rewrite Hp. trans ((typed d ++ [ch]) ++ lost); [by solve_Permutation|]. rewrite H3. by solve_Permutation.
      * right. exists ch. split; [done|]. by apply submseteq_app.
  - set (d1 := (handle_paste_burst_flush windows now d).2) in *.
    assert (short d1) as Hs1 by (unfold short in *; rewrite Ht, length_app in Hs; cbn in Hs; lia).
    destruct (handle_char_spec windows allows ch now now d1 Hi Hs1 Hch) as (d' & H1 & H2); [done|].
    exists d'. split.
    + rewrite <- H1. unfold handle_char. fold d1. by rewrite (tick_idle now d1 Hi Hh).
    + apply (follows_typed now d1 d' s _ (lost ++ [c])); [|done|by intros [_ ?]%app_eq_nil|].
      * rewrite Hp, Ht. by solve_Permutation.
      * etrans; [exact Hl|]. by apply submseteq_inserts_r.
Qed.

Lemma follows_enter t now d s o slash popup d' :
  follows t d s o -> t <= now -> handle_enter slash popup now d = (true, d') ->
  follows now d' (s ++ [NL])
    (o ++ match pending_first_char (paste_burst d) with Some (c, _) => [c] | None => [] end).
Proof.
  intros (lost & Hp & Ho & Hcase) Hle Henter.
  assert (disable_paste_burst d = false) as Hdis.
  { revert Henter. unfold handle_enter. destruct (disable_paste_burst d); [|done].
    cbn [negb andb]. by rewrite andb_false_r. }
  destruct (pending_first_char (paste_burst d)) as [[c h]|] eqn:Epend.
  - assert (last_plain_char_time (paste_burst d) = Some h /\ active (paste_burst d) = false /\
      fresh t (paste_burst d) /\ no_char CR (typed d) /\ lost ⊆+ o) as (Hl & Ha & Hf & Hcr & Hlost).
    { destruct Hcase as [[(Hg & Hf & Hcr) Hl]|(c' & ((h' & Hp' & Hl') & Ha & _ & Hf & Hcr) & Hl)].
      - unfold good in Hg. rewrite Epend in Hg. naive_solver.
      - rewrite Epend in Hp'. injection Hp' as -> ->. split_and!; try done.
        etrans; [|exact Hl]. by apply submseteq_inserts_r. }
    destruct (handle_enter_held slash popup t now d d' c h Hf Hcr Hle Epend Hl Ha Henter) as [Hw Ht].
    exists lost. split_and!; [rewrite Hp, Ht; by solve_Permutation|by intros [_ ?]%app_eq_nil|].
    right. exists c. split; [done|]. by apply submseteq_app.
  - rewrite app_nil_r. destruct Hcase as [[Hi Hl]|(c & ((h & Hp' & _) & _) & _)]; [|congruence].
    apply (follows_typed now d d' s o lost); try done.
    apply (handle_enter_spec slash popup t now d d'); auto.
Qed.

Lemma follows_disable t d s o disabled :
  follows t d s o -> short d -> follows t (set_disable_paste_burst disabled d) s o.
Proof.
  intros (lost & Hp & Ho & Hcase) Hs. unfold set_disable_paste_burst.
  set (d1 := mkDraft _ _ _ _ _ disabled).
  assert (short d1) as Hs1 by done.
  destruct (disabled && _); [|by exists lost].
  assert (typed_to t d1 [] (flush_held d1) /\ held (paste_burst (flush_held d1)) = []) as [Hf Hh].
  { destruct Hcase as [[Hi _]|(c & Hw & _)]; [by apply flush_held_spec|by apply (flush_waiting t d1 c)]. }
  pose proof Hf as (Hi & Ht & _). rewrite app_nil_r in Ht.
  destruct (cleared_good t (paste_burst (flush_held d1))) as (C1 & C2 & C3).
  assert (typed (set_burst (clear_after_explicit_paste (paste_burst (flush_held d1))) (flush_held d1))
    = typed d1) as E.
  { rewrite <- Ht. unfold typed. cbn [paste_burst set_burst]. rewrite C3, Hh. done. }
  exists lost. rewrite E. split_and!; [done|done|]. left. split.
  - split_and!; [done|done|]. rewrite E, <- Ht. by destruct Hi as (_ & _ & ?).
  - destruct Hcase as [[_ Hl]|(c & _ & Hl)]; [done|].
    etrans; [|exact Hl]. by apply submseteq_inserts_r.
Qed.

Lemma session_follows t d s o :
  session t d s o -> N.of_nat (length s) <= LARGE_PASTE_CHAR_THRESHOLD -> follows t d s o.
Proof.
  assert (forall (s : str) ch, N.of_nat (length (s ++ [ch])) <= LARGE_PASTE_CHAR_THRESHOLD ->
    N.of_nat (length s) <= LARGE_PASTE_CHAR_THRESHOLD) as Hshort.
  { intros s' ch. rewrite length_app. cbn. lia. }
  induction 1 as [t disabled a|t d s o allows ch now d' _ IH Hle Hch Hstep|t d s o now _ IH Hle
    |t d s o disabled _ IH|t d s o slash popup now d' _ IH Hle Hstep]; intros Hlen.
  - exists []. split_and!; [done|done|]. left. split; [|done]. split_and!; [by split| |]; [intros h; done|].
    intros H. by apply elem_of_nil in H.
  - specialize (IH (Hshort _ _ Hlen)).
    pose proof (follows_short _ _ _ _ IH (Hshort _ _ Hlen)) as Hs.
    destruct (follows_char t now d s o allows ch IH Hs Hle Hch) as (d2 & H1 & H2).
    rewrite H1 in Hstep. by injection Hstep as ->.
  - specialize (IH Hlen). apply (follows_tick t); [done| |done]. by eapply follows_short.
  - specialize (IH Hlen). apply follows_disable; [done|]. by eapply follows_short.
  - specialize (IH (Hshort _ _ Hlen)). by apply (follows_enter t now d s o slash popup).
Qed.

(** After a tick later than the idle timeout nothing is held. *)
Lemma follows_settles t d s o now :
  follows t d s o -> short d -> t + PASTE_BURST_ACTIVE_IDLE_TIMEOUT windows < now ->
  held (paste_burst (handle_paste_burst_flush windows now d).2) = [] /\
  inv now (handle_paste_burst_flush windows now d).2.
Proof.
  intros (lost & _ & _ & [[Hi _]|(c & Hw & _)]) Hs Hnow.
  - destruct (tick_spec windows t now d Hi Hs) as ((H1 & _) & _ & H3); [lia|]. auto.
  - destruct (tick_waiting windows t now d c Hw Hs) as [[_ ?]|(Hi & _ & Hh)]; [lia|lia|done].
Qed.

End Session.

(** Keys at the given milliseconds, [Enter] as [None]. *)
Definition press (keys : list (N * option char)) : option Draft :=
  fold_left (fun d (k : N * option char) =>
      d ← d;
      match k.2 with
      | Some ch => handle_char false true ch (from_millis k.1) d
      | None => Some (handle_enter true false (from_millis k.1) d).2
      end) keys (Some (mkDraft [] [] false [] default_burst false)).

Example press_tests :
  (before <$> press [(0, Some 97); (1, Some 98); (2, Some 99); (20, Some 100); (40, Some 101)]) =
    Some "abcd"%str /\
  (held ∘ paste_burst <$> press [(0, Some 97); (1, Some 98); (2, None); (3, Some 99)]) =
    Some (97 :: 98 :: NL :: [99]).
Proof. by vm_compute. Qed.

(** An Enter over a held first char goes before it, or drops it. *)
Theorem newline_overtakes_first_char :
  let shown_later keys :=
    d ← press keys; Some (before (handle_paste_burst_flush false (from_millis 1000) d).2) in
  shown_later [(0, Some 97); (1, None); (2, Some 98)] = Some (NL :: "ab"%str) /\
  shown_later [(0, Some 97); (1, None)] = Some [NL].
Proof. by vm_compute. Qed.

