(* ===== verification/ByteStr.v ===== *)
(** * Byte offsets into strings

    [str::is_char_boundary], slicing by byte ranges, [find], [rfind] and the
    edits of a [String] at byte offsets.  A slice whose ends are not on
    character boundaries, out of bounds or reversed panics in Rust; here it is
    [None]. *)

From S2P Require Import Prelude RustStr.
#[local] Arguments byte_len : simpl never.
#[local] Arguments len_utf8 : simpl never.

(** [std::ops::Range<usize>] *)
Record Range := mkRange { rstart : nat; rend : nat }.

#[export] Instance Range_eq_dec : EqDecision Range.
Proof. solve_decision. Defined.

(** [str::split_at_checked] *)
Fixpoint split_at (n : nat) (s : str) : option (str * str) :=
  match s with
  | [] => if n =? 0 then Some ([], []) else None
  | c :: r =>
      if n =? 0 then Some ([], s)
      else if n <? len_utf8 c then None
      else '(a, b) ← split_at (n - len_utf8 c) r; Some (c :: a, b)
  end.

Definition is_char_boundary (s : str) (n : nat) : bool :=
  bool_decide (is_Some (split_at n s)).

(** [s.get(i..j)], and [s[i..j]] where [None] is the panic. *)
Definition slice (s : str) (i j : nat) : option str :=
  '(a, _) ← split_at j s; snd <$> split_at i a.
Definition slice_to (s : str) (j : nat) : option str := slice s 0 j.
Definition slice_from (s : str) (i : nat) : option str := snd <$> split_at i s.
Definition slice_range (s : str) (r : Range) : option str := slice s (rstart r) (rend r).

(** [String::insert_str], [String::replace_range] *)
Definition string_insert (s : str) (i : nat) (t : str) : option str :=
  '(a, b) ← split_at i s; Some (a ++ t ++ b).
Definition string_replace (s : str) (r : Range) (t : str) : option str :=
  '(a, c) ← split_at (rend r) s; '(a, _) ← split_at (rstart r) a; Some (a ++ t ++ c).

(** The first and the last of [s.char_indices()] that satisfies a predicate. *)
Fixpoint find_char (p : char -> bool) (s : str) : option (nat * char) :=
  match s with
  | [] => None
  | c :: r => if p c then Some (0, c) else '(i, d) ← find_char p r; Some (len_utf8 c + i, d)
  end.
Fixpoint rfind_char (p : char -> bool) (s : str) : option (nat * char) :=
  match s with
  | [] => None
  | c :: r =>
      match rfind_char p r with
      | Some (i, d) => Some (len_utf8 c + i, d)
      | None => if p c then Some (0, c) else None
      end
  end.
Definition find (p : char -> bool) (s : str) : option nat := fst <$> find_char p s.
Definition rfind (p : char -> bool) (s : str) : option nat := fst <$> rfind_char p s.

Example slice_tests :
  slice [97; 233; 98]%N 1 3 = Some [233]%N /\ slice [97; 233; 98]%N 1 2 = None /\
  slice [97; 98]%N 2 1 = None /\ slice [97; 98]%N 0 3 = None /\
  string_replace [97; 233; 98]%N (mkRange 1 3) [99]%N = Some [97; 99; 98]%N /\
  rfind (N.eqb 97) [233; 97; 97]%N = Some 3.
Proof. done. Qed.

(** ** Boundaries *)

Definition at_boundary (s : str) (n : nat) : Prop := exists a b, s = a ++ b /\ byte_len a = n.

Lemma byte_len_cons c s : byte_len (c :: s) = len_utf8 c + byte_len s.
Proof. done. Qed.

Lemma byte_len_nil s : byte_len s = 0 -> s = [].
Proof. destruct s as [|c s]; [done|]. rewrite byte_len_cons. pose proof (len_utf8_pos c). lia. Qed.

Lemma split_at_Some n s a b : split_at n s = Some (a, b) <-> s = a ++ b /\ byte_len a = n.
Proof.
  revert n a b. induction s as [|c s IH]; intros n a b; cbn [split_at].
  - destruct (Nat.eqb_spec n 0) as [->|Hn].
    + split; [by intros [= <- <-]|]. intros [Hab Ha]. symmetry in Hab.
      by apply app_nil in Hab as [-> ->].
    + split; [done|]. intros [Hab Ha]. symmetry in Hab. by apply app_nil in Hab as [-> ->].
  - destruct (Nat.eqb_spec n 0) as [->|Hn].
    + split; [by intros [= <- <-]|]. intros [Hab Ha%byte_len_nil]. subst a. cbn in Hab. by rewrite Hab.
    + destruct (Nat.ltb_spec n (len_utf8 c)) as [Hlt|Hge].
      * split; [done|]. intros [Hab Ha]. destruct a as [|d a]; [change (byte_len []) with 0 in Ha; lia|].
        injection Hab as <- Hs. rewrite byte_len_cons in Ha. lia.
      * rewrite bind_Some. split.
        -- intros ([x y] & (-> & Hx)%IH & [= <- <-]). rewrite byte_len_cons. split; [done|lia].
        -- intros [Hab Ha]. destruct a as [|d a]; [change (byte_len []) with 0 in Ha; lia|]. injection Hab as <- ->.
           rewrite byte_len_cons in Ha. exists (a, b). split; [|done]. apply IH. split; [done|lia].
Qed.

Lemma split_at_app a b : split_at (byte_len a) (a ++ b) = Some (a, b).
Proof. by apply split_at_Some. Qed.

Lemma at_boundary_alt s n : at_boundary s n <-> is_Some (split_at n s).
Proof.
  split.
  - intros (a & b & -> & <-). rewrite split_at_app. eauto.
  - intros [[a b] H%split_at_Some]. by exists a, b.
Qed.

Lemma is_char_boundary_spec s n : is_char_boundary s n = true <-> at_boundary s n.
Proof. unfold is_char_boundary. by rewrite bool_decide_eq_true, at_boundary_alt. Qed.

Lemma is_char_boundary_false s n : is_char_boundary s n = false <-> ~ at_boundary s n.
Proof. rewrite <- is_char_boundary_spec. by destruct (is_char_boundary s n). Qed.

Lemma at_boundary_0 s : at_boundary s 0.
Proof. by exists [], s. Qed.

Lemma at_boundary_len s : at_boundary s (byte_len s).
Proof. exists s, []. by rewrite app_nil_r. Qed.

Lemma at_boundary_le s n : at_boundary s n -> n <= byte_len s.
Proof. intros (a & b & -> & <-). rewrite byte_len_app. lia. Qed.

Lemma at_boundary_app a b : at_boundary (a ++ b) (byte_len a).
Proof. by exists a, b. Qed.

Lemma at_boundary_app_l a b n : at_boundary a n -> at_boundary (a ++ b) n.
Proof. intros (x & y & -> & <-). exists x, (y ++ b). by rewrite app_assoc. Qed.

Lemma at_boundary_app_r a b n : at_boundary b n -> at_boundary (a ++ b) (byte_len a + n).
Proof. intros (x & y & -> & <-). exists (a ++ x), y. by rewrite app_assoc, byte_len_app. Qed.

(** The shorter of two prefixes is a prefix of the longer. *)
Lemma prefix_by_len (a b x y : str) :
  a ++ b = x ++ y -> byte_len a <= byte_len x -> exists m, x = a ++ m /\ b = m ++ y.
Proof.
  revert x. induction a as [|c a IH]; intros x H Hle; cbn in *; [by exists x|].
  destruct x as [|d x]; cbn in *.
  - rewrite byte_len_cons in Hle. pose proof (len_utf8_pos c). change (byte_len []) with 0 in Hle. lia.
  - injection H as -> H. rewrite !byte_len_cons in Hle.
    destruct (IH x H ltac:(lia)) as (m & -> & ->). by exists m.
Qed.

Lemma at_boundary_app_inv_l a b n : at_boundary (a ++ b) n -> n <= byte_len a -> at_boundary a n.
Proof.
  intros (x & y & H & <-) Hle. symmetry in H.
  destruct (prefix_by_len _ _ _ _ H Hle) as (m & -> & _). by exists x, m.
Qed.

Lemma at_boundary_app_inv_r a b n :
  at_boundary (a ++ b) n -> byte_len a <= n -> at_boundary b (n - byte_len a).
Proof.
  intros (x & y & H & <-) Hle.
  destruct (prefix_by_len _ _ _ _ H Hle) as (m & -> & ->). exists m, y.
  rewrite byte_len_app. split; [done|lia].
Qed.

(** ** Slices *)

Lemma slice_Some s i j m :
  slice s i j = Some m <->
  exists a b, s = a ++ m ++ b /\ byte_len a = i /\ byte_len a + byte_len m = j.
Proof.
  unfold slice. rewrite bind_Some. split.
  - intros ([x y] & (-> & <-)%split_at_Some & ([a m'] & H & ->)%fmap_Some).
    apply split_at_Some in H as [-> <-]. exists a, y. cbn.
    by rewrite byte_len_app, <- app_assoc.
  - intros (a & b & -> & <- & <-). exists (a ++ m, b). split.
    + apply split_at_Some. by rewrite byte_len_app, app_assoc.
    + by rewrite split_at_app.
Qed.

Lemma slice_app a m b : slice (a ++ m ++ b) (byte_len a) (byte_len a + byte_len m) = Some m.
Proof. apply slice_Some. by exists a, b. Qed.

Lemma slice_bounds s i j :
  at_boundary s i -> at_boundary s j -> i <= j ->
  exists a m b, s = a ++ m ++ b /\ byte_len a = i /\ byte_len a + byte_len m = j.
Proof.
  intros (a & x & Hs & <-) (y & b & -> & <-) Hle. symmetry in Hs.
  destruct (prefix_by_len _ _ _ _ Hs Hle) as (m & -> & ->).
  exists a, m, b. by rewrite byte_len_app, <- app_assoc.
Qed.

Lemma slice_is_Some s i j :
  is_Some (slice s i j) <-> at_boundary s i /\ at_boundary s j /\ i <= j.
Proof.
  split.
  - intros [m (a & b & -> & <- & <-)%slice_Some]. split_and!; [apply at_boundary_app| |lia].
    rewrite app_assoc, <- byte_len_app. apply at_boundary_app.
  - intros (Hi & Hj & Hle). destruct (slice_bounds s i j Hi Hj Hle) as (a & m & b & -> & <- & <-).
    rewrite slice_app. eauto.
Qed.

Lemma slice_full s : slice s 0 (byte_len s) = Some s.
Proof. apply slice_Some. exists [], []. by rewrite app_nil_r. Qed.

Lemma slice_from_alt s i : slice_from s i = slice s i (byte_len s).
Proof.
  unfold slice_from, slice.
  assert (split_at (byte_len s) s = Some (s, [])) as ->; [|done].
  apply split_at_Some. by rewrite app_nil_r.
Qed.

Lemma suffix_from_Some s i m :
  slice_from s i = Some m <-> exists a, s = a ++ m /\ byte_len a = i.
Proof.
  unfold slice_from. rewrite fmap_Some. split.
  - intros ([a b] & (-> & <-)%split_at_Some & ->). by exists a.
  - intros (a & -> & <-). exists (a, m). by rewrite split_at_app.
Qed.

Lemma slice_boundary s i j m k :
  slice s i j = Some m -> at_boundary m k -> at_boundary s (i + k).
Proof.
  intros (a & b & -> & <- & _)%slice_Some Hk. apply at_boundary_app_r.
  by apply at_boundary_app_l.
Qed.

Lemma slice_app_l a b i j : j <= byte_len a -> slice (a ++ b) i j = slice a i j.
Proof.
  intros Hj. apply option_eq. intros m. rewrite !slice_Some. split.
  - intros (x & y & H & <- & <-). rewrite app_assoc in H. symmetry in H.
    destruct (prefix_by_len _ _ _ _ H) as (z & -> & _); [rewrite byte_len_app; lia|].
    exists x, z. by rewrite app_assoc.
  - intros (x & y & -> & <- & <-). exists x, (y ++ b). by rewrite <- !app_assoc.
Qed.

Lemma slice_app_r a b i j :
  byte_len a <= i -> i <= j ->
  slice (a ++ b) i j = slice b (i - byte_len a) (j - byte_len a).
Proof.
  intros Hi Hj. apply option_eq. intros m. rewrite !slice_Some. split.
  - intros (x & y & H & <- & <-).
    destruct (prefix_by_len _ _ _ _ H Hi) as (z & -> & ->).
    exists z, y. rewrite byte_len_app. split_and!; [done|lia|lia].
  - intros (x & y & -> & Hx & Hm). exists (a ++ x), y.
    rewrite byte_len_app, <- app_assoc. split_and!; [done|lia|lia].
Qed.

(** ** Edits *)

Lemma string_insert_app a b t : string_insert (a ++ b) (byte_len a) t = Some (a ++ t ++ b).
Proof. unfold string_insert. by rewrite split_at_app. Qed.

Lemma string_replace_app a m b t :
  string_replace (a ++ m ++ b) (mkRange (byte_len a) (byte_len a + byte_len m)) t
  = Some (a ++ t ++ b).
Proof.
  unfold string_replace. cbn. rewrite <- byte_len_app, app_assoc, split_at_app. cbn.
  by rewrite split_at_app.
Qed.

(** ** Searches *)

Lemma find_char_Some p s i c :
  find_char p s = Some (i, c) <->
  exists a b, s = a ++ c :: b /\ byte_len a = i /\ p c = true /\ Forall (fun d => p d = false) a.
Proof.
  revert i c. induction s as [|d s IH]; intros i c; cbn.
  - split; [done|]. intros (a & b & H & _). by destruct a.
  - destruct (p d) eqn:Hd.
    + split.
      * intros [= <- <-]. by exists [], s.
      * intros (a & b & H & <- & Hc & Ha). destruct a as [|e a]; [by injection H as -> _|].
        injection H as -> _. apply Forall_cons in Ha as [He _]. congruence.
    + rewrite bind_Some. split.
      * intros ([j e] & (a & b & -> & <- & Hc & Ha)%IH & [= <- <-]).
        exists (d :: a), b. split_and!; [done|done|done|by constructor].
      * intros (a & b & H & <- & Hc & Ha). destruct a as [|e a]; injection H as -> H; [congruence|].
        apply Forall_cons in Ha as [_ Ha]. exists (byte_len a, c). split; [|done].
        apply IH. by exists a, b.
Qed.

Lemma find_char_None p s : find_char p s = None <-> Forall (fun d => p d = false) s.
Proof.
  induction s as [|d s IH]; cbn; [by split|]. rewrite Forall_cons, <- IH.
  destruct (p d) eqn:Hd; [split; [done|by intros [? _]]|].
  destruct (find_char p s) as [[i c]|]; cbn; split; try done; by intros [_ ?].
Qed.

Lemma rfind_char_Some p s i c :
  rfind_char p s = Some (i, c) ->
  exists a b, s = a ++ c :: b /\ byte_len a = i /\ p c = true /\ Forall (fun d => p d = false) b.
Proof.
  revert i c. induction s as [|d s IH]; intros i c; cbn; [done|].
  destruct (rfind_char p s) as [[j e]|] eqn:E.
  - intros [= <- <-]. destruct (IH _ _ eq_refl) as (a & b & -> & <- & Hp & Hb).
    by exists (d :: a), b.
  - destruct (p d) eqn:Hd; [|done]. intros [= <- <-]. exists [], s.
    split_and!; [done|done|done|]. clear IH Hd.
    induction s as [|x s IH]; cbn in E; [constructor|].
    destruct (rfind_char p s) as [[j e]|]; [done|].
    destruct (p x) eqn:Hx; [done|]. constructor; auto.
Qed.

Lemma rfind_char_None p s : rfind_char p s = None <-> Forall (fun d => p d = false) s.
Proof.
  induction s as [|d s IH]; cbn; [by split|]. rewrite Forall_cons, <- IH.
  destruct (rfind_char p s) as [[i c]|]; [by split; intros; [|destruct_and?]|].
  destruct (p d); naive_solver.
Qed.

(** The character found lies between two boundaries. *)
Lemma find_char_boundary p s i c :
  find_char p s = Some (i, c) ->
  at_boundary s i /\ at_boundary s (i + len_utf8 c) /\ p c = true.
Proof.
  intros (a & b & -> & <- & Hc & _)%find_char_Some. split_and!; [apply at_boundary_app| |done].
  exists (a ++ [c]), b. rewrite byte_len_app, byte_len_cons. rewrite <- app_assoc.
  split; [done|]. change (byte_len []) with 0. lia.
Qed.

Lemma rfind_char_boundary p s i c :
  rfind_char p s = Some (i, c) ->
  at_boundary s i /\ at_boundary s (i + len_utf8 c) /\ p c = true.
Proof.
  intros (a & b & -> & <- & Hc & _)%rfind_char_Some. split_and!; [apply at_boundary_app| |done].
  exists (a ++ [c]), b. rewrite byte_len_app, byte_len_cons. rewrite <- app_assoc.
  split; [done|]. change (byte_len []) with 0. lia.
Qed.

(** ** The nearest boundary *)

(** [while prev > 0 && !s.is_char_boundary(prev) { prev -= 1 }] *)
Fixpoint boundary_before (s : str) (prev : nat) : nat :=
  match prev with
  | 0 => 0
  | S p => if is_char_boundary s prev then prev else boundary_before s p
  end.

(** [while next < s.len() && !s.is_char_boundary(next) { next += 1 }]; the
    fuel is the distance to the end. *)
Fixpoint boundary_after (s : str) (fuel next : nat) : nat :=
  match fuel with
  | 0 => next
  | S f =>
      if (next <? byte_len s) && negb (is_char_boundary s next)
      then boundary_after s f (S next) else next
  end.

Definition clamp_to_char_boundary (s : str) (pos : nat) : nat :=
  let pos := Nat.min pos (byte_len s) in
  if is_char_boundary s pos then pos
  else
    let prev := boundary_before s pos in
    let next := boundary_after s (byte_len s - pos) pos in
    if pos - prev <=? next - pos then prev else next.

Lemma boundary_before_spec s p :
  at_boundary s (boundary_before s p) /\ boundary_before s p <= p
  /\ (forall q, at_boundary s q -> q <= p -> q <= boundary_before s p).
Proof.
  induction p as [|p (IH1 & IH2 & IH3)]; cbn [boundary_before].
  - split_and!; [apply at_boundary_0|lia|]. intros; lia.
  - destruct (is_char_boundary s (S p)) eqn:E.
    + apply is_char_boundary_spec in E. split_and!; [done|lia|]. intros; lia.
    + apply is_char_boundary_false in E. split_and!; [done|lia|].
      intros q Hq Hle. apply IH3; [done|].
      destruct (decide (q = S p)) as [->|]; [done|lia].
Qed.

Lemma boundary_after_spec s f p :
  p <= byte_len s -> byte_len s - p <= f ->
  at_boundary s (boundary_after s f p) /\ p <= boundary_after s f p
  /\ (forall q, at_boundary s q -> p <= q -> boundary_after s f p <= q).
Proof.
  revert p. induction f as [|f IH]; intros p Hp Hf; cbn [boundary_after].
  - assert (p = byte_len s) as -> by lia. split_and!; [apply at_boundary_len|lia|]. intros; lia.
  - destruct (Nat.ltb_spec p (byte_len s)) as [Hlt|Hge]; cbn [andb].
    + destruct (is_char_boundary s p) eqn:E; cbn [negb].
      * apply is_char_boundary_spec in E. split_and!; [done|lia|]. intros; lia.
      * apply is_char_boundary_false in E.
        destruct (IH (S p) ltac:(lia) ltac:(lia)) as (H1 & H2 & H3). split_and!; [done|lia|].
        intros q Hq Hle. apply H3; [done|]. destruct (decide (q = p)) as [->|]; [done|lia].
    + assert (p = byte_len s) as -> by lia. split_and!; [apply at_boundary_len|lia|]. intros; lia.
Qed.

Lemma clamp_boundary s p : at_boundary s (clamp_to_char_boundary s p).
Proof.
  unfold clamp_to_char_boundary. set (q := Nat.min p (byte_len s)).
  destruct (is_char_boundary s q) eqn:E; [by apply is_char_boundary_spec|].
  destruct (_ <=? _); [apply boundary_before_spec|]. apply boundary_after_spec; lia.
Qed.

Lemma clamp_id s p : at_boundary s p -> clamp_to_char_boundary s p = p.
Proof.
  intros Hp. unfold clamp_to_char_boundary.
  rewrite Nat.min_l by by apply at_boundary_le. by apply is_char_boundary_spec in Hp as ->.
Qed.

Lemma clamp_le s p : clamp_to_char_boundary s p <= byte_len s.
Proof. apply at_boundary_le, clamp_boundary. Qed.

(** No boundary is nearer, so the clamp is monotone. *)
Lemma clamp_before s p q : at_boundary s q -> q <= p -> q <= clamp_to_char_boundary s p.
Proof.
  intros Hq Hle. pose proof (at_boundary_le _ _ Hq) as Hlen. unfold clamp_to_char_boundary.
  destruct (is_char_boundary _ _); [lia|]. destruct (_ <=? _).
  - apply boundary_before_spec; [done|lia].
  - destruct (boundary_after_spec s (byte_len s - Nat.min p (byte_len s)) (Nat.min p (byte_len s)))
      as (_ & H & _); [lia|lia|]. lia.
Qed.

Lemma clamp_after s p q : at_boundary s q -> p <= q -> clamp_to_char_boundary s p <= q.
Proof.
  intros Hq Hle. pose proof (at_boundary_le _ _ Hq) as Hlen. unfold clamp_to_char_boundary.
  destruct (is_char_boundary _ _); [lia|]. destruct (_ <=? _).
  - destruct (boundary_before_spec s (Nat.min p (byte_len s))) as (_ & H & _). lia.
  - apply boundary_after_spec; [lia|lia|done|lia].
Qed.

Lemma clamp_mono s p q : p <= q -> clamp_to_char_boundary s p <= clamp_to_char_boundary s q.
Proof.
  intros Hpq. destruct (decide (clamp_to_char_boundary s p <= q)) as [Hle|Hgt].
  { apply clamp_before; [apply clamp_boundary|done]. }
  destruct (decide (p <= clamp_to_char_boundary s q)) as [Hle|Hgt'].
  { apply clamp_after; [apply clamp_boundary|done]. }
  (* both round away from each other: the gap holds both, and rounding up from
     [p] forces rounding up from [q] *)
  revert Hgt Hgt'. unfold clamp_to_char_boundary.
  set (p' := Nat.min p (byte_len s)). set (q' := Nat.min q (byte_len s)).
  destruct (boundary_before_spec s p') as (Bp1 & Bp2 & Bp3).
  destruct (boundary_before_spec s q') as (Bq1 & Bq2 & Bq3).
  destruct (boundary_after_spec s (byte_len s - p') p') as (Ap1 & Ap2 & Ap3); [lia|lia|].
  destruct (boundary_after_spec s (byte_len s - q') q') as (Aq1 & Aq2 & Aq3); [lia|lia|].
  pose proof (Bp3 _ Bq1). pose proof (Bq3 _ Bp1). pose proof (Ap3 _ Aq1). pose proof (Aq3 _ Ap1).
  destruct (is_char_boundary s p') eqn:Ep; destruct (is_char_boundary s q') eqn:Eq;
    rewrite ?is_char_boundary_spec in *;
    try pose proof (Bq3 _ Ep); try pose proof (Ap3 _ Eq); nat_cases; intros; lia.
Qed.
