(* ===== verification/Wrapping.v ===== *)
(** * The wrapped lines of a text

    [codex-rs/tui/src/wrapping.rs], [wrap_ranges] and
    [map_owned_wrapped_line_to_range]: the lines [textwrap::wrap] returns,
    mapped back to byte ranges of the text, trailing spaces included, with one
    byte more at the end.  What [textwrap] returns is the input: a line is
    either borrowed, and points into the text or elsewhere, or owned. *)

From S2P Require Import Prelude RustStr ByteStr.
#[local] Arguments byte_len : simpl never.
#[local] Arguments len_utf8 : simpl never.

(** [Cow<'_, str>]; the [Range] of a borrowed line is where it points in the
    text, [None] when it points elsewhere ([borrowed_slice_range]). *)
Inductive WrappedLine :=
| Borrowed (place : option Range) (s : str)
| Owned (s : str).

(** The first loop: the spaces of the source skipped before the line. *)
Fixpoint skip_spaces (rest : str) (start : nat) : nat :=
  match rest with
  | ch :: rest => if (ch =? SPACE)%N then skip_spaces rest (start + len_utf8 ch) else start
  | [] => start
  end.

(** The second loop: the source characters the line matches; [rest] is the
    text from [stop] on. *)
Fixpoint match_source (wrapped rest : str) (stop : nat) (saw_source_char : bool) : nat :=
  match wrapped with
  | [] => stop
  | ch :: chars =>
      let unmatched :=
        if (ch =? 45)%N && is_empty chars then stop
        else if negb saw_source_char then match_source chars rest stop saw_source_char
        else stop in
      match rest with
      | src :: rest' =>
          if (ch =? src)%N then match_source chars rest' (stop + len_utf8 src) true else unmatched
      | [] => unmatched
      end
  end.

(** [text[from..]] where the code has checked [from < text.len()]. *)
Definition rest_of (text : str) (from : nat) : option str :=
  if from <? byte_len text then slice_from text from else Some [].

Definition map_owned_wrapped_line_to_range (text : str) (cursor : nat)
    (wrapped synthetic_prefix : str) : option Range :=
  let wrapped := default wrapped (strip_prefix synthetic_prefix wrapped) in
  start ←
    (if starts_with wrapped [SPACE] then Some cursor
     else rest ← rest_of text cursor; Some (skip_spaces rest cursor));
  rest ← rest_of text start;
  Some (mkRange start (match_source wrapped rest start false)).

Definition count_spaces (s : str) : nat := skip_spaces s 0.

(** One turn of the loop of [wrap_ranges]: the line pushed and the new
    [cursor]. *)
Definition wrap_range (text prefix : str) (cursor : nat) (line : WrappedLine)
  : option (Range * nat) :=
  range ←
    match line with
    | Borrowed (Some range) _ => Some range
    | Borrowed None s | Owned s => map_owned_wrapped_line_to_range text cursor s prefix
    end;
  rest ← slice_from text (rend range);
  let trailing_spaces := count_spaces rest in
  Some (mkRange (rstart range) (rend range + trailing_spaces + 1), rend range + trailing_spaces).

Fixpoint wrap_ranges_loop (text subsequent_indent prefix : str) (cursor : nat)
    (wrapped : list WrappedLine) : option (list Range) :=
  match wrapped with
  | [] => Some []
  | line :: wrapped =>
      '(r, cursor) ← wrap_range text prefix cursor line;
      lines ← wrap_ranges_loop text subsequent_indent subsequent_indent cursor wrapped;
      Some (r :: lines)
  end.

Definition wrap_ranges (initial_indent subsequent_indent text : str)
    (wrapped : list WrappedLine) : option (list Range) :=
  wrap_ranges_loop text subsequent_indent initial_indent 0 wrapped.

(** ** The lines the text area relies on *)

(** What [textwrap::wrap] is relied on for, without indents and with hyphens
    already in the text: every line is a slice of the text, or an empty string
    made elsewhere; the slices come in order and no line starts in the spaces
    that follow the one before. *)
Fixpoint slices_in_order (text : str) (from : nat) (wrapped : list WrappedLine) : Prop :=
  match wrapped with
  | [] => True
  | Borrowed (Some r) s :: wrapped =>
      from <= rstart r /\ slice_range text r = Some s /\
      (forall rest, slice_from text (rend r) = Some rest ->
         slices_in_order text (rend r + count_spaces rest) wrapped)
  | Borrowed None s :: wrapped =>
      s = [] /\ (forall rest, slice_from text from = Some rest ->
                   slices_in_order text (from + count_spaces rest) wrapped)
  | Owned _ :: _ => False
  end.

(** A line is a slice of the text, the last byte of the range left aside, and
    the lines start one after the other. *)
Definition line_ok (text : str) (r : Range) : Prop :=
  at_boundary text (rstart r) /\ at_boundary text (rend r - 1) /\ rstart r < rend r.

Definition lines_ok (text : str) (lines : list Range) : Prop :=
  Forall (line_ok text) lines /\ StronglySorted (fun r r' => rend r - 1 <= rstart r') lines.

Lemma skip_spaces_shift rest n : skip_spaces rest n = n + count_spaces rest.
Proof.
  unfold count_spaces. revert n. induction rest as [|c rest IH]; intros n; cbn; [lia|].
  destruct (c =? SPACE)%N; [|lia]. rewrite (IH (n + _)), (IH (len_utf8 c)). lia.
Qed.

Lemma count_spaces_boundary rest : at_boundary rest (count_spaces rest).
Proof.
  unfold count_spaces. induction rest as [|c rest IH]; cbn; [apply at_boundary_0|].
  destruct (c =? SPACE)%N; [|apply at_boundary_0]. rewrite skip_spaces_shift.
  apply (at_boundary_app_r [c]) in IH. rewrite byte_len_cons in IH.
  change (byte_len []) with 0 in IH. by rewrite Nat.add_0_r in IH.
Qed.

(** Past the spaces there are none. *)
Lemma count_spaces_idemp text n rest rest' :
  slice_from text n = Some rest -> slice_from text (n + count_spaces rest) = Some rest' ->
  count_spaces rest' = 0.
Proof.
  intros (a & -> & <-)%suffix_from_Some (b & H & Hb)%suffix_from_Some.
  destruct (prefix_by_len _ _ _ _ H ltac:(lia)) as (m & -> & ->).
  rewrite byte_len_app in Hb. assert (byte_len m = count_spaces (m ++ rest')) as Hm by lia.
  clear H Hb. induction m as [|c m IH]; cbn in Hm |- *; [done|].
  rewrite byte_len_cons in Hm. unfold count_spaces in Hm. cbn in Hm.
  pose proof (len_utf8_pos c).
  destruct (c =? SPACE)%N; [|lia]. rewrite skip_spaces_shift in Hm. apply IH. lia.
Qed.

Lemma map_owned_empty text cursor rest :
  slice_from text cursor = Some rest ->
  map_owned_wrapped_line_to_range text cursor [] []
  = Some (mkRange (cursor + count_spaces rest) (cursor + count_spaces rest)).
Proof.
  intros Hrest. unfold map_owned_wrapped_line_to_range. cbn [strip_prefix default].
  change (starts_with [] [SPACE]) with false. cbn match.
  assert (forall n r, slice_from text n = Some r -> rest_of text n = Some r) as Hr.
  { intros n r Hn. unfold rest_of. destruct (Nat.ltb_spec n (byte_len text)); [done|].
    apply suffix_from_Some in Hn as (a & -> & <-). rewrite byte_len_app in *.
    by rewrite (byte_len_nil r) by lia. }
  rewrite (Hr _ _ Hrest). cbn. rewrite skip_spaces_shift.
  assert (is_Some (slice_from text (cursor + count_spaces rest))) as [r Hs].
  { rewrite slice_from_alt. apply slice_is_Some.
    assert (at_boundary text (cursor + count_spaces rest)) as Hb.
    { rewrite slice_from_alt in Hrest. eapply slice_boundary; [exact Hrest|].
      apply count_spaces_boundary. }
    split_and!; [done|apply at_boundary_len|by apply at_boundary_le]. }
  by rewrite (Hr _ _ Hs).
Qed.

Lemma slice_from_is_Some text n : at_boundary text n -> is_Some (slice_from text n).
Proof.
  intros Hn. rewrite slice_from_alt. apply slice_is_Some.
  split_and!; [done|apply at_boundary_len|by apply at_boundary_le].
Qed.

Lemma after_spaces_boundary text n rest :
  slice_from text n = Some rest -> at_boundary text (n + count_spaces rest).
Proof.
  rewrite slice_from_alt. intros H. eapply slice_boundary; [exact H|]. apply count_spaces_boundary.
Qed.

Lemma wrap_ranges_loop_ok text wrapped cursor :
  at_boundary text cursor -> slices_in_order text cursor wrapped ->
  exists lines, wrap_ranges_loop text [] [] cursor wrapped = Some lines
    /\ lines_ok text lines /\ Forall (fun r => cursor <= rstart r) lines.
Proof.
  revert cursor. induction wrapped as [|[[r|] s|s] wrapped IH]; intros cursor Hc; cbn; [| | |done].
  - intros _. exists []. split_and!; [done|split; constructor|constructor].
  - intros (Hle & Hs & Hrec).
    assert (is_Some (slice_range text r)) as (Hr1 & Hr2 & Hr3)%slice_is_Some by by eexists.
    destruct (slice_from_is_Some _ _ Hr2) as [rest Hrest].
    destruct (IH _ (after_spaces_boundary _ _ _ Hrest) (Hrec _ Hrest))
      as (lines & Hl & [Hok Hsort] & Hfrom).
    rewrite Hrest. cbn. rewrite Hl. cbn. eexists. split_and!; [done| |].
    + split.
      * constructor; [|done]. split_and!; cbn; [done| |lia].
        replace (_ - 1) with (rend r + count_spaces rest) by lia.
        by apply after_spaces_boundary.
      * constructor; [done|]. eapply Forall_impl; [exact Hfrom|]. cbn. intros; lia.
    + constructor; [done|]. eapply Forall_impl; [exact Hfrom|]. cbn. intros; lia.
  - intros [-> Hrec]. destruct (slice_from_is_Some _ _ Hc) as [rest Hrest].
    unfold wrap_range. rewrite (map_owned_empty _ _ _ Hrest). cbn.
    pose proof (after_spaces_boundary _ _ _ Hrest) as Hb.
    destruct (slice_from_is_Some _ _ Hb) as [rest' Hrest'].
    pose proof (count_spaces_idemp _ _ _ _ Hrest Hrest') as H0.
    rewrite Hrest'. cbn. rewrite H0, !Nat.add_0_r.
    destruct (IH _ Hb (Hrec _ Hrest)) as (lines & Hl & [Hok Hsort] & Hfrom).
    rewrite Hl. cbn. eexists. split_and!; [done| |].
    + split.
      * constructor; [|done]. split_and!; cbn; [done| |lia].
        by replace (_ - 1) with (cursor + count_spaces rest) by lia.
      * constructor; [done|]. eapply Forall_impl; [exact Hfrom|]. cbn. intros; lia.
    + constructor; [cbn; lia|]. eapply Forall_impl; [exact Hfrom|]. cbn. intros; lia.
Qed.

Lemma wrap_ranges_ok text wrapped :
  slices_in_order text 0 wrapped ->
  exists lines, wrap_ranges [] [] text wrapped = Some lines /\ lines_ok text lines.
Proof.
  intros H. destruct (wrap_ranges_loop_ok text wrapped 0 (at_boundary_0 _) H) as (lines & Hl & Hok & _).
  by exists lines.
Qed.
