(* ===== verification/Keys.v ===== *)
(** * Key events and bindings

    [codex-rs/tui/src/key_hint.rs]: a binding and the events it matches, with
    the ways terminals report shifted letters and control characters; the
    editor and Vim keymaps of [keymap.rs] with their built-in bindings. *)

From S2P Require Import Prelude RustStr.
#[local] Open Scope str_scope.

(** [crossterm]'s key codes: those the code names, and the others. *)
Inductive KeyCode :=
| Backspace | Enter | Left | Right | Up | Down | Home | End | PageUp | PageDown
| Tab | BackTab | Delete | Insert | Esc
| F (n : N) | Char (c : char) | OtherKey (n : N).

#[export] Instance KeyCode_eq_dec : EqDecision KeyCode.
Proof. solve_decision. Defined.

(** [KeyModifiers]: a set of bit flags. *)
Definition KeyModifiers := N.
Definition NONE : KeyModifiers := 0%N.
Definition SHIFT : KeyModifiers := 1%N.
Definition CONTROL : KeyModifiers := 2%N.
Definition ALT : KeyModifiers := 4%N.
Definition mods_contain (m flags : KeyModifiers) : bool := (N.land m flags =? flags)%N.

Inductive KeyEventKind := Press | Repeat | Release.
Record KeyEvent := mkKeyEvent { code : KeyCode; modifiers : KeyModifiers; kind : KeyEventKind }.

Definition key_press (c : KeyCode) (m : KeyModifiers) : KeyEvent := mkKeyEvent c m Press.

(** [KeyEventKind::Press | KeyEventKind::Repeat] *)
Definition is_press_or_repeat (e : KeyEvent) : bool :=
  match kind e with Press | Repeat => true | Release => false end.

Definition is_ascii_control (c : char) : bool := ((c <? 32) || (c =? 127))%N.

Definition c0_control_char_to_ctrl_char (ch : char) : option char :=
  if (ch =? 0)%N then Some 32%N
  else if (ch <=? 26)%N then Some (ch - 1 + 97)%N
  else if (28 <=? ch)%N && (ch <=? 31)%N then Some (ch - 28 + 52)%N
  else None.

Definition normalize_key_parts (key : KeyCode) (m : KeyModifiers) : KeyCode * KeyModifiers :=
  match key with
  | Char ch =>
      match (if (m =? NONE)%N then c0_control_char_to_ctrl_char ch else None) with
      | Some ctrl_char => (Char ctrl_char, N.lor CONTROL m)
      | None =>
          if is_ascii_uppercase ch then (Char (char_to_ascii_lowercase ch), N.lor m SHIFT)
          else (key, m)
      end
  | _ => (key, m)
  end.

Record KeyBinding := mkBinding { bkey : KeyCode; bmodifiers : KeyModifiers }.

Definition is_press (b : KeyBinding) (e : KeyEvent) : bool :=
  bool_decide (normalize_key_parts (bkey b) (bmodifiers b)
               = normalize_key_parts (code e) (modifiers e))
  && is_press_or_repeat e.

(** [KeyBindingListExt::is_pressed] *)
Definition is_pressed (l : list KeyBinding) (e : KeyEvent) : bool :=
  existsb (fun b => is_press b e) l.

Definition from_event (e : KeyEvent) : KeyBinding :=
  let '(key, m) := normalize_key_parts (code e) (modifiers e) in mkBinding key m.

Definition is_plain_text_key_event (e : KeyEvent) : bool :=
  match code e with
  | Char ch =>
      negb (is_ascii_control ch) && negb (mods_contain (modifiers e) CONTROL)
      && negb (mods_contain (modifiers e) ALT)
  | _ => false
  end.

(** [is_altgr]: AltGr is reported as control and alt, on Windows only. *)
Definition is_altgr (windows : bool) (m : KeyModifiers) : bool :=
  windows && mods_contain m ALT && mods_contain m CONTROL.
Definition has_ctrl_or_alt (windows : bool) (m : KeyModifiers) : bool :=
  (mods_contain m CONTROL || mods_contain m ALT) && negb (is_altgr windows m).

Definition plain (key : KeyCode) : KeyBinding := mkBinding key NONE.
Definition alt (key : KeyCode) : KeyBinding := mkBinding key ALT.
Definition shift (key : KeyCode) : KeyBinding := mkBinding key SHIFT.
Definition ctrl (key : KeyCode) : KeyBinding := mkBinding key CONTROL.
Definition ctrl_alt (key : KeyCode) : KeyBinding := mkBinding key (N.lor CONTROL ALT).

(** ** The keymaps of the text area ([keymap.rs]) *)

Module Editor.
Record EditorKeymap := mkEditorKeymap {
  insert_newline : list KeyBinding;
  move_left : list KeyBinding;
  move_right : list KeyBinding;
  move_up : list KeyBinding;
  move_down : list KeyBinding;
  move_word_left : list KeyBinding;
  move_word_right : list KeyBinding;
  move_line_start : list KeyBinding;
  move_line_end : list KeyBinding;
  delete_backward : list KeyBinding;
  delete_forward : list KeyBinding;
  delete_backward_word : list KeyBinding;
  delete_forward_word : list KeyBinding;
  kill_line_start : list KeyBinding;
  kill_whole_line : list KeyBinding;
  kill_line_end : list KeyBinding;
  yank : list KeyBinding
}.
End Editor.

Module VimNormal.
Record VimNormalKeymap := mkVimNormalKeymap {
  enter_insert : list KeyBinding;
  append_after_cursor : list KeyBinding;
  append_line_end : list KeyBinding;
  insert_line_start : list KeyBinding;
  open_line_below : list KeyBinding;
  open_line_above : list KeyBinding;
  move_left : list KeyBinding;
  move_right : list KeyBinding;
  move_up : list KeyBinding;
  move_down : list KeyBinding;
  move_word_forward : list KeyBinding;
  move_word_backward : list KeyBinding;
  move_word_end : list KeyBinding;
  move_line_start : list KeyBinding;
  move_line_end : list KeyBinding;
  delete_char : list KeyBinding;
  delete_to_line_end : list KeyBinding;
  yank_line : list KeyBinding;
  paste_after : list KeyBinding;
  start_delete_operator : list KeyBinding;
  start_yank_operator : list KeyBinding;
  cancel_operator : list KeyBinding
}.
End VimNormal.

Module VimOp.
Record VimOperatorKeymap := mkVimOperatorKeymap {
  delete_line : list KeyBinding;
  yank_line : list KeyBinding;
  motion_left : list KeyBinding;
  motion_right : list KeyBinding;
  motion_up : list KeyBinding;
  motion_down : list KeyBinding;
  motion_word_forward : list KeyBinding;
  motion_word_backward : list KeyBinding;
  motion_word_end : list KeyBinding;
  motion_line_start : list KeyBinding;
  motion_line_end : list KeyBinding;
  cancel : list KeyBinding
}.
End VimOp.

Export Editor(EditorKeymap, mkEditorKeymap).
Export VimNormal(VimNormalKeymap, mkVimNormalKeymap).
Export VimOp(VimOperatorKeymap, mkVimOperatorKeymap).

(** [KeyCode::Char] of a one-character literal. *)
Definition key (s : str) : KeyCode := Char (hd 0%N s).

Definition default_editor : EditorKeymap := {|
  Editor.insert_newline := [ctrl (key "j"); ctrl (key "m"); plain Enter; shift Enter; alt Enter];
  Editor.move_left := [plain Left; ctrl (key "b")];
  Editor.move_right := [plain Right; ctrl (key "f")];
  Editor.move_up := [plain Up; ctrl (key "p")];
  Editor.move_down := [plain Down; ctrl (key "n")];
  Editor.move_word_left := [alt (key "b"); mkBinding Left ALT; mkBinding Left CONTROL];
  Editor.move_word_right := [alt (key "f"); mkBinding Right ALT; mkBinding Right CONTROL];
  Editor.move_line_start := [plain Home; ctrl (key "a")];
  Editor.move_line_end := [plain End; ctrl (key "e")];
  Editor.delete_backward := [plain Backspace; shift Backspace; ctrl (key "h")];
  Editor.delete_forward := [plain Delete; shift Delete; ctrl (key "d")];
  Editor.delete_backward_word :=
    [alt Backspace; ctrl Backspace; mkBinding Backspace (N.lor CONTROL SHIFT); ctrl (key "w");
     mkBinding (key "h") (N.lor CONTROL ALT)];
  Editor.delete_forward_word :=
    [alt Delete; ctrl Delete; mkBinding Delete (N.lor CONTROL SHIFT); alt (key "d")];
  Editor.kill_line_start := [ctrl (key "u")];
  Editor.kill_whole_line := [];
  Editor.kill_line_end := [ctrl (key "k")];
  Editor.yank := [ctrl (key "y")] |}.

Definition default_vim_normal : VimNormalKeymap := {|
  VimNormal.enter_insert := [plain (key "i"); plain Insert];
  VimNormal.append_after_cursor := [plain (key "a")];
  VimNormal.append_line_end := [shift (key "a"); plain (key "A")];
  VimNormal.insert_line_start := [shift (key "i"); plain (key "I")];
  VimNormal.open_line_below := [plain (key "o")];
  VimNormal.open_line_above := [shift (key "o"); plain (key "O")];
  VimNormal.move_left := [plain (key "h"); plain Left];
  VimNormal.move_right := [plain (key "l"); plain Right];
  VimNormal.move_up := [plain (key "k"); plain Up];
  VimNormal.move_down := [plain (key "j"); plain Down];
  VimNormal.move_word_forward := [plain (key "w")];
  VimNormal.move_word_backward := [plain (key "b")];
  VimNormal.move_word_end := [plain (key "e")];
  VimNormal.move_line_start := [plain (key "0")];
  VimNormal.move_line_end := [plain (key "$"); shift (key "$")];
  VimNormal.delete_char := [plain (key "x")];
  VimNormal.delete_to_line_end := [shift (key "d"); plain (key "D")];
  VimNormal.yank_line := [shift (key "y"); plain (key "Y")];
  VimNormal.paste_after := [plain (key "p")];
  VimNormal.start_delete_operator := [plain (key "d")];
  VimNormal.start_yank_operator := [plain (key "y")];
  VimNormal.cancel_operator := [plain Esc] |}.

Definition default_vim_operator : VimOperatorKeymap := {|
  VimOp.delete_line := [plain (key "d")];
  VimOp.yank_line := [plain (key "y")];
  VimOp.motion_left := [plain (key "h")];
  VimOp.motion_right := [plain (key "l")];
  VimOp.motion_up := [plain (key "k")];
  VimOp.motion_down := [plain (key "j")];
  VimOp.motion_word_forward := [plain (key "w")];
  VimOp.motion_word_backward := [plain (key "b")];
  VimOp.motion_word_end := [plain (key "e")];
  VimOp.motion_line_start := [plain (key "0")];
  VimOp.motion_line_end := [plain (key "$"); shift (key "$")];
  VimOp.cancel := [plain Esc] |}.

(** ** Facts *)

Example is_press_tests :
  is_press (shift (key "a")) (key_press (key "A") NONE) = true /\
  is_press (ctrl (key "j")) (key_press (Char NL) NONE) = true /\
  is_press (shift (key "o")) (key_press (key "o") NONE) = false /\
  is_pressed [plain (key "a"); ctrl (key "b")] (key_press (key "c") NONE) = false /\
  is_press (ctrl (key "k")) (mkKeyEvent (key "k") CONTROL Release) = false.
Proof. split_and!; vm_compute; reflexivity. Qed.

(** The normal form is a fixed point, so a binding captured from an event
    matches that event and every event with the same normal form. *)
Lemma normalize_idemp k m k' m' :
  normalize_key_parts k m = (k', m') -> normalize_key_parts k' m' = (k', m').
Proof.
  destruct k as [ | | | | | | | | | | | | | | |n|c|n]; cbn; try by intros [= <- <-].
  destruct (if (m =? NONE)%N then _ else _) as [d|] eqn:E.
  - intros [= <- <-]. unfold normalize_key_parts.
    destruct (N.eqb_spec m NONE) as [->|]; [|done]. change (N.lor CONTROL NONE =? NONE)%N with false.
    assert (is_ascii_uppercase d = false) as ->; [|done].
    unfold c0_control_char_to_ctrl_char in E. unfold is_ascii_uppercase.
    destruct (N.eqb_spec c 0); [by injection E as <-|].
    destruct (N.leb_spec c 26); [injection E as <-; apply andb_false_iff; right; apply N.leb_gt; lia|].
    destruct (N.leb_spec 28 c); [|done]. destruct (N.leb_spec c 31); [|done].
    injection E as <-. apply andb_false_iff. left. apply N.leb_gt. lia.
  - destruct (is_ascii_uppercase c) eqn:Hc; intros [= <- <-]; cbn.
    + assert ((N.lor m SHIFT =? NONE)%N = false) as ->.
      { apply N.eqb_neq. unfold SHIFT, NONE. intros H%N.lor_eq_0_iff. lia. }
      by rewrite to_ascii_lowercase_not_upper.
    + by rewrite E, Hc.
Qed.

Lemma from_event_matches e :
  is_press_or_repeat e = true -> is_press (from_event e) e = true.
Proof.
  intros He. unfold is_press, from_event.
  destruct (normalize_key_parts (code e) (modifiers e)) as [k m] eqn:E. cbn.
  rewrite He, (normalize_idemp _ _ _ _ E). by rewrite bool_decide_true.
Qed.
