(* ===== verification/TextArea.v ===== *)
(** * The editable text

    [codex-rs/tui/src/bottom_pane/textarea.rs]: the text of the composer, the
    elements in it that move as one piece, the cursor, the cache of wrapped
    lines and the kill buffer.  This file has the state, the edits and the
    movements of the cursor by one position; [TextInput] has the movements by
    words and lines, the kill and yank commands and the keys.  A panic is
    [None].  The [unicode-segmentation], [unicode-width] and [textwrap] crates
    are the operations of [TextEnv]. *)

From S2P Require Import Prelude RustStr ByteStr Wrapping Keys.
#[local] Open Scope str_scope.
#[local] Arguments byte_len : simpl never.
#[local] Arguments len_utf8 : simpl never.
#[local] Arguments Nat.ltb : simpl never.

(** The crates: [GraphemeCursor::prev_boundary] and [next_boundary] on the
    whole text, [grapheme_indices(true)], [split_word_bound_indices], [width],
    and [textwrap::wrap] at a width with first fit. *)
Inductive GraphemeIncomplete := Incomplete.

Class TextEnv := {
  gc_prev_boundary : str -> nat -> result GraphemeIncomplete (option nat);
  gc_next_boundary : str -> nat -> result GraphemeIncomplete (option nat);
  grapheme_indices : str -> list (nat * str);
  split_word_bound_indices : str -> list (nat * str);
  width : str -> nat;
  textwrap : str -> N -> list WrappedLine
}.

Record TextElement := mkElement { id : N; range : Range; name : option str }.
Record WrapCache := mkWrapCache { cache_width : N; cache_lines : list Range }.

Inductive VimMode := Normal | Insert.
Inductive KillBufferKind := Characterwise | Linewise.
Inductive VimOperator := OpDelete | OpYank.

Record TextArea := mkTextArea {
  text : str;
  cursor_pos : nat;
  wrap_cache : option WrapCache;
  preferred_col : option nat;
  elements : list TextElement;
  next_element_id : N;
  kill_buffer : str;
  kill_buffer_kind : KillBufferKind;
  vim_enabled : bool;
  vim_mode : VimMode;
  vim_operator : option VimOperator;
  editor_keymap : EditorKeymap;
  vim_normal_keymap : VimNormalKeymap;
  vim_operator_keymap : VimOperatorKeymap
}.

Definition new_textarea : TextArea :=
  mkTextArea [] 0 None None [] 1 [] Characterwise false Insert None
    default_editor default_vim_normal default_vim_operator.

(** Assignments to the fields. *)
Definition with_cursor (c : nat) (s : TextArea) : TextArea :=
  mkTextArea (text s) c (wrap_cache s) (preferred_col s) (elements s) (next_element_id s)
    (kill_buffer s) (kill_buffer_kind s) (vim_enabled s) (vim_mode s) (vim_operator s)
    (editor_keymap s) (vim_normal_keymap s) (vim_operator_keymap s).
Definition with_preferred_col (c : option nat) (s : TextArea) : TextArea :=
  mkTextArea (text s) (cursor_pos s) (wrap_cache s) c (elements s) (next_element_id s)
    (kill_buffer s) (kill_buffer_kind s) (vim_enabled s) (vim_mode s) (vim_operator s)
    (editor_keymap s) (vim_normal_keymap s) (vim_operator_keymap s).
Definition with_wrap_cache (c : option WrapCache) (s : TextArea) : TextArea :=
  mkTextArea (text s) (cursor_pos s) c (preferred_col s) (elements s) (next_element_id s)
    (kill_buffer s) (kill_buffer_kind s) (vim_enabled s) (vim_mode s) (vim_operator s)
    (editor_keymap s) (vim_normal_keymap s) (vim_operator_keymap s).
Definition with_text (t : str) (s : TextArea) : TextArea :=
  mkTextArea t (cursor_pos s) (wrap_cache s) (preferred_col s) (elements s) (next_element_id s)
    (kill_buffer s) (kill_buffer_kind s) (vim_enabled s) (vim_mode s) (vim_operator s)
    (editor_keymap s) (vim_normal_keymap s) (vim_operator_keymap s).
Definition with_elements (l : list TextElement) (s : TextArea) : TextArea :=
  mkTextArea (text s) (cursor_pos s) (wrap_cache s) (preferred_col s) l (next_element_id s)
    (kill_buffer s) (kill_buffer_kind s) (vim_enabled s) (vim_mode s) (vim_operator s)
    (editor_keymap s) (vim_normal_keymap s) (vim_operator_keymap s).
Definition with_next_id (n : N) (s : TextArea) : TextArea :=
  mkTextArea (text s) (cursor_pos s) (wrap_cache s) (preferred_col s) (elements s) n
    (kill_buffer s) (kill_buffer_kind s) (vim_enabled s) (vim_mode s) (vim_operator s)
    (editor_keymap s) (vim_normal_keymap s) (vim_operator_keymap s).
Definition store_kill_buffer (t : str) (k : KillBufferKind) (s : TextArea) : TextArea :=
  mkTextArea (text s) (cursor_pos s) (wrap_cache s) (preferred_col s) (elements s)
    (next_element_id s) t k (vim_enabled s) (vim_mode s) (vim_operator s)
    (editor_keymap s) (vim_normal_keymap s) (vim_operator_keymap s).
Definition with_vim (enabled : bool) (mode : VimMode) (op : option VimOperator) (s : TextArea)
  : TextArea :=
  mkTextArea (text s) (cursor_pos s) (wrap_cache s) (preferred_col s) (elements s)
    (next_element_id s) (kill_buffer s) (kill_buffer_kind s) enabled mode op
    (editor_keymap s) (vim_normal_keymap s) (vim_operator_keymap s).
Definition set_keymap_bindings (e : EditorKeymap) (n : VimNormalKeymap) (o : VimOperatorKeymap)
    (s : TextArea) : TextArea :=
  mkTextArea (text s) (cursor_pos s) (wrap_cache s) (preferred_col s) (elements s)
    (next_element_id s) (kill_buffer s) (kill_buffer_kind s) (vim_enabled s) (vim_mode s)
    (vim_operator s) e n o.

(** ** Vim modes *)

Definition is_normal (m : VimMode) : bool := match m with Normal => true | Insert => false end.

Definition set_vim_enabled (enabled : bool) (s : TextArea) : TextArea :=
  with_vim enabled (if enabled then Normal else Insert) None s.
Definition is_vim_normal_mode (s : TextArea) : bool := vim_enabled s && is_normal (vim_mode s).
Definition is_vim_operator_pending (s : TextArea) : bool :=
  bool_decide (is_Some (vim_operator s)).
Definition enter_vim_insert_mode (s : TextArea) : TextArea :=
  if vim_enabled s then with_vim true Insert None s else s.
Definition enter_vim_normal_mode (s : TextArea) : TextArea :=
  if vim_enabled s then with_preferred_col None (with_vim true Normal None s) else s.
Definition allows_paste_burst (s : TextArea) : bool :=
  negb (vim_enabled s) || negb (is_normal (vim_mode s)).
Definition uses_vim_insert_cursor (s : TextArea) : bool :=
  vim_enabled s && negb (is_normal (vim_mode s)).
Definition should_handle_vim_insert_escape (s : TextArea) (e : KeyEvent) : bool :=
  vim_enabled s && negb (is_normal (vim_mode s)) && bool_decide (code e = Esc)
  && (modifiers e =? NONE)%N && is_press_or_repeat e.
Definition vim_mode_label (s : TextArea) : option str :=
  if negb (vim_enabled s) then None
  else Some (match vim_mode s with Normal => "Normal" | Insert => "Insert" end).

(** ** Positions and elements *)

Definition strictly_inside (pos : nat) (r : Range) : bool :=
  (rstart r <? pos) && (pos <? rend r).

(** The index of the source is used only to read the element. *)
Definition find_element_containing (els : list TextElement) (pos : nat) : option TextElement :=
  List.find (fun e => strictly_inside pos (range e)) els.

Definition clamp_pos_to_char_boundary (s : TextArea) (pos : nat) : nat :=
  clamp_to_char_boundary (text s) pos.

Definition clamp_pos_to_nearest_boundary (s : TextArea) (pos : nat) : nat :=
  let pos := clamp_pos_to_char_boundary s pos in
  match find_element_containing (elements s) pos with
  | Some e =>
      let dist_start := pos - rstart (range e) in
      let dist_end := rend (range e) - pos in
      clamp_pos_to_char_boundary s
        (if dist_start <=? dist_end then rstart (range e) else rend (range e))
  | None => pos
  end.

Definition clamp_pos_for_insertion (s : TextArea) (pos : nat) : nat :=
  let pos := clamp_pos_to_char_boundary s pos in
  match find_element_containing (elements s) pos with
  | Some e =>
      let dist_start := pos - rstart (range e) in
      let dist_end := rend (range e) - pos in
      clamp_pos_to_char_boundary s
        (if dist_start <=? dist_end then rstart (range e) else rend (range e))
  | None => pos
  end.

Definition adjust_pos_out_of_elements (s : TextArea) (pos : nat) (prefer_start : bool) : nat :=
  match find_element_containing (elements s) pos with
  | Some e => if prefer_start then rstart (range e) else rend (range e)
  | None => pos
  end.

(** One turn of the inner loop of [expand_range_to_element_boundaries], with
    the flag [changed]. *)
Definition expand_step (st : Range * bool) (e : TextElement) : Range * bool :=
  let '(r, changed) := st in
  if (rstart (range e) <? rend r) && (rstart r <? rend (range e)) then
    let new_start := Nat.min (rstart r) (rstart (range e)) in
    let new_end := Nat.max (rend r) (rend (range e)) in
    if negb (new_start =? rstart r) || negb (new_end =? rend r)
    then (mkRange new_start new_end, true) else (r, changed)
  else (r, changed).

(** The outer loop; every turn but the last takes in an element more. *)
Fixpoint expand_loop (fuel : nat) (els : list TextElement) (r : Range) : Range :=
  match fuel with
  | 0 => r
  | S fuel =>
      let '(r, changed) := fold_left expand_step els (r, false) in
      if changed then expand_loop fuel els r else r
  end.

Definition expand_range_to_element_boundaries (s : TextArea) (r : Range) : Range :=
  expand_loop (S (length (elements s))) (elements s) r.

(** [as usize] of an [isize]. *)
Definition as_usize (z : Z) : nat := Z.to_nat (if z <? 0 then z + 2 ^ 64 else z)%Z.
Definition shift_pos (p : nat) (diff : Z) : nat := as_usize (Z.of_nat p + diff).

(** The body of the second loop of [shift_elements]. *)
Definition shift_element (at_ end_ inserted : nat) (diff : Z) (e : TextElement) : TextElement :=
  let r := range e in
  if rend r <=? at_ then e
  else if end_ <=? rstart r then
    mkElement (id e) (mkRange (shift_pos (rstart r) diff) (shift_pos (rend r) diff)) (name e)
  else
    mkElement (id e)
      (mkRange (Nat.min at_ (rstart r)) (at_ + Nat.max inserted (rend r - end_))) (name e).

Definition shift_elements (els : list TextElement) (at_ removed inserted : nat)
  : list TextElement :=
  let end_ := at_ + removed in
  let diff := (Z.of_nat inserted - Z.of_nat removed)%Z in
  shift_element at_ end_ inserted diff <$>
    List.filter (fun e => negb ((at_ <=? rstart (range e)) && (rend (range e) <=? end_))) els.

(** ** Edits *)

Definition set_cursor (pos : nat) (s : TextArea) : TextArea :=
  let s := with_cursor (Nat.min pos (byte_len (text s))) s in
  with_preferred_col None (with_cursor (clamp_pos_to_nearest_boundary s (cursor_pos s)) s).

Definition insert_str_at (pos : nat) (t : str) (s : TextArea) : option TextArea :=
  let pos := clamp_pos_for_insertion s pos in
  text' ← string_insert (text s) pos t;
  let s := with_wrap_cache None (with_text text' s) in
  let s := if pos <=? cursor_pos s then with_cursor (cursor_pos s + byte_len t) s else s in
  let s := with_elements (shift_elements (elements s) pos 0 (byte_len t)) s in
  Some (with_preferred_col None s).

Definition insert_str (t : str) (s : TextArea) : option TextArea :=
  insert_str_at (cursor_pos s) t s.

Definition replace_range_raw (r : Range) (t : str) (s : TextArea) : option TextArea :=
  if rend r <? rstart r then None
  else
    let start := Nat.min (rstart r) (byte_len (text s)) in
    let stop := Nat.min (rend r) (byte_len (text s)) in
    let removed_len := stop - start in
    let inserted_len := byte_len t in
    if (removed_len =? 0) && (inserted_len =? 0) then Some s
    else
      let diff := (Z.of_nat inserted_len - Z.of_nat removed_len)%Z in
      text' ← string_replace (text s) r t;
      let s := with_preferred_col None (with_wrap_cache None (with_text text' s)) in
      let s := with_elements (shift_elements (elements s) start (stop - start) inserted_len) s in
      let c := if cursor_pos s <? start then cursor_pos s
               else if cursor_pos s <=? stop then start + inserted_len
               else shift_pos (cursor_pos s) diff in
      let s := with_cursor (Nat.min c (byte_len (text s))) s in
      Some (with_cursor (clamp_pos_to_nearest_boundary s (cursor_pos s)) s).

Definition replace_range (r : Range) (t : str) (s : TextArea) : option TextArea :=
  replace_range_raw (expand_range_to_element_boundaries s r) t s.

(** ** Elements *)

Definition U64_MAX : N := (2 ^ 64 - 1)%N.
Definition take_element_id (s : TextArea) : N * TextArea :=
  (next_element_id s, with_next_id (N.min (next_element_id s + 1) U64_MAX) s).

Definition sort_elements (els : list TextElement) : list TextElement :=
  sort_by_key (fun e => rstart (range e)) els.

(** One element of [set_text_inner]. *)
Definition push_user_element (s : TextArea) (r : Range) : TextArea :=
  let start := clamp_pos_to_char_boundary s (Nat.min (rstart r) (byte_len (text s))) in
  let stop := clamp_pos_to_char_boundary s (Nat.min (rend r) (byte_len (text s))) in
  if stop <=? start then s
  else
    let '(n, s) := take_element_id s in
    with_elements (elements s ++ [mkElement n (mkRange start stop) None]) s.

(** [elements] are the byte ranges of the [UserTextElement]s; their
    placeholders are not read. *)
Definition set_text_inner (t : str) (els : option (list Range)) (s : TextArea) : TextArea :=
  let s := with_text t s in
  let s := with_cursor (Nat.min (cursor_pos s) (byte_len t)) s in
  let s := with_elements [] s in
  let s :=
    match els with
    | Some els =>
        let s := fold_left push_user_element els s in
        with_elements (sort_elements (elements s)) s
    | None => s
    end in
  let s := with_cursor (clamp_pos_to_nearest_boundary s (cursor_pos s)) s in
  with_preferred_col None (with_wrap_cache None s).
Definition set_text_clearing_elements (t : str) : TextArea -> TextArea := set_text_inner t None.
Definition set_text_with_elements (t : str) (els : list Range) : TextArea -> TextArea :=
  set_text_inner t (Some els).

Definition add_element_with_id (r : Range) (nm : option str) (s : TextArea) : N * TextArea :=
  let '(n, s) := take_element_id s in
  (n, with_elements (sort_elements (elements s ++ [mkElement n r nm])) s).
Definition add_element (r : Range) (s : TextArea) : N * TextArea := add_element_with_id r None s.

Definition insert_element_named (t : str) (nm : option str) (s : TextArea)
  : option (N * TextArea) :=
  let start := clamp_pos_for_insertion s (cursor_pos s) in
  s ← insert_str_at start t s;
  let stop := start + byte_len t in
  let '(n, s) := add_element_with_id (mkRange start stop) nm s in
  Some (n, set_cursor stop s).
Definition insert_element (t : str) (s : TextArea) : option (N * TextArea) :=
  insert_element_named t None s.
Definition insert_named_element (t : str) (nm : str) (s : TextArea) : option TextArea :=
  snd <$> insert_element_named t (Some nm) s.

Definition has_name (nm : str) (e : TextElement) : bool := bool_decide (name e = Some nm).
Definition named_element_range (s : TextArea) (nm : str) : option Range :=
  range <$> List.find (has_name nm) (elements s).

Definition replace_element_by_id (nm t : str) (s : TextArea) : option (bool * TextArea) :=
  match named_element_range s nm with
  | Some r =>
      s ← replace_range_raw r t s;
      Some (true, with_elements (List.filter (fun e => negb (has_name nm e)) (elements s)) s)
  | None => Some (false, s)
  end.

Definition update_named_element_by_id (nm t : str) (s : TextArea) : option (bool * TextArea) :=
  match named_element_range s nm with
  | Some r =>
      s ← replace_range_raw r t s;
      let stop := rstart r + byte_len t in
      Some (true, snd (add_element_with_id (mkRange (rstart r) stop) (Some nm) s))
  | None => Some (false, s)
  end.

Definition clamp_range (s : TextArea) (r : Range) : Range :=
  mkRange (clamp_pos_to_char_boundary s (Nat.min (rstart r) (byte_len (text s))))
          (clamp_pos_to_char_boundary s (Nat.min (rend r) (byte_len (text s)))).

Definition add_element_range (r : Range) (s : TextArea) : option N * TextArea :=
  let r := clamp_range s r in
  if rend r <=? rstart r then (None, s)
  else if existsb (fun e => bool_decide (range e = r)) (elements s) then (None, s)
  else if existsb (fun e => (rstart r <? rend (range e)) && (rstart (range e) <? rend r))
            (elements s) then (None, s)
  else let '(n, s) := add_element r s in (Some n, s).

Definition remove_element_range (r : Range) (s : TextArea) : bool * TextArea :=
  let r := clamp_range s r in
  if rend r <=? rstart r then (false, s)
  else
    let kept := List.filter (fun e => bool_decide (range e <> r)) (elements s) in
    (negb (length (elements s) =? length kept), with_elements kept s).

Definition payload (t : str) (e : TextElement) : option str := slice_range t (range e).

Definition element_payloads (s : TextArea) : list str := omap (payload (text s)) (elements s).
Definition text_elements (s : TextArea) : list (Range * option str) :=
  (fun e => (range e, payload (text s) e)) <$> elements s.
Definition text_element_snapshots (s : TextArea) : list (N * Range * str) :=
  omap (fun e => (fun t => (id e, range e, t)) <$> payload (text s) e) (elements s).
Definition element_id_for_exact_range (s : TextArea) (r : Range) : option N :=
  id <$> List.find (fun e => bool_decide (range e = r)) (elements s).

(** The loop of [replace_element_payload] over the other elements. *)
Definition shift_other_element (idx start end_ inserted : nat) (diff : Z) (j : nat)
    (e : TextElement) : TextElement :=
  let r := range e in
  if j =? idx then e
  else if rend r <=? start then e
  else if end_ <=? rstart r then
    mkElement (id e) (mkRange (shift_pos (rstart r) diff) (shift_pos (rend r) diff)) (name e)
  else
    mkElement (id e)
      (mkRange (Nat.min start (rstart r))
         (Nat.max (start + inserted) (Z.to_nat (Z.of_nat (rend r) + diff)))) (name e).

(** The elements [replace_element_payload] leaves, before they are sorted. *)
Definition renamed_elements (els : list TextElement) (idx : nat) (e : TextElement)
    (inserted_len : nat) : list TextElement :=
  let start := rstart (range e) in
  let end_ := rend (range e) in
  let diff := (Z.of_nat inserted_len - Z.of_nat (end_ - start))%Z in
  let els := <[idx := mkElement (id e) (mkRange start (start + inserted_len)) (name e)]> els in
  if (diff =? 0)%Z then els else imap (shift_other_element idx start end_ inserted_len diff) els.

Definition replace_element_payload (old new : str) (s : TextArea) : option (bool * TextArea) :=
  match list_find (fun e => payload (text s) e = Some old) (elements s) with
  | None => Some (false, s)
  | Some (idx, e) =>
      let start := rstart (range e) in
      let end_ := rend (range e) in
      if (end_ <? start) || (byte_len (text s) <? end_) then Some (false, s)
      else
        let removed_len := end_ - start in
        let inserted_len := byte_len new in
        let diff := (Z.of_nat inserted_len - Z.of_nat removed_len)%Z in
        text' ← string_replace (text s) (range e) new;
        let s := with_preferred_col None (with_wrap_cache None (with_text text' s)) in
        let els := renamed_elements (elements s) idx e inserted_len in
        let s := with_elements els s in
        let c := if cursor_pos s <? start then cursor_pos s
                 else if cursor_pos s <=? end_ then start + inserted_len
                 else shift_pos (cursor_pos s) diff in
        let s := with_cursor c s in
        let s := with_cursor (clamp_pos_to_nearest_boundary s (cursor_pos s)) s in
        Some (true, with_elements (sort_elements (elements s)) s)
  end.

(** ** One position to the left or right *)

Section Boundaries.
Context `{TextEnv}.

(** The graphemes are read from the cursor's position in the text; a position
    inside a character panics. *)
Definition prev_atomic_boundary (s : TextArea) (pos : nat) : option nat :=
  if pos =? 0 then Some 0
  else
    match List.find (fun e => (rstart (range e) <? pos) && (pos <=? rend (range e)))
            (elements s) with
    | Some e => Some (rstart (range e))
    | None =>
        _ ← slice_to (text s) pos;
        match gc_prev_boundary (text s) pos with
        | Ok (Some b) =>
            Some (match find_element_containing (elements s) b with
                  | Some e => rstart (range e)
                  | None => b
                  end)
        | Ok None => Some 0
        | Err _ => Some (pos - 1)
        end
    end.

Definition next_atomic_boundary (s : TextArea) (pos : nat) : option nat :=
  if byte_len (text s) <=? pos then Some (byte_len (text s))
  else
    match List.find (fun e => (rstart (range e) <=? pos) && (pos <? rend (range e)))
            (elements s) with
    | Some e => Some (rend (range e))
    | None =>
        _ ← slice_from (text s) pos;
        match gc_next_boundary (text s) pos with
        | Ok (Some b) =>
            Some (match find_element_containing (elements s) b with
                  | Some e => rend (range e)
                  | None => b
                  end)
        | Ok None => Some (byte_len (text s))
        | Err _ => Some (pos + 1)
        end
    end.

Definition vim_normal_end_cursor (s : TextArea) : option nat :=
  if is_empty (text s) then Some 0 else prev_atomic_boundary s (byte_len (text s)).

(** [wrapped_lines]: fills the cache when the width has changed. *)
Definition wrapped_lines (w : N) (s : TextArea) : option (list Range * TextArea) :=
  let needs_recalc := match wrap_cache s with Some c => negb (cache_width c =? w)%N | None => true end in
  if needs_recalc then
    lines ← wrap_ranges [] [] (text s) (textwrap (text s) w);
    Some (lines, with_wrap_cache (Some (mkWrapCache w lines)) s)
  else (fun c => (cache_lines c, s)) <$> wrap_cache s.

End Boundaries.

(** ** Laws of the crates *)

(** The pieces [l] of [t], with the byte offset of each: they cover [t] from
    offset [off] on. *)
Fixpoint tiles (off : nat) (l : list (nat * str)) (t : str) : Prop :=
  match l with
  | [] => t = []
  | (i, p) :: l => i = off /\ exists t', t = p ++ t' /\ tiles (off + byte_len p) l t'
  end.

Class TextEnvLaws `{TextEnv} : Prop := {
  gc_prev_law t pos :
    at_boundary t pos -> 0 < pos ->
    exists b, gc_prev_boundary t pos = Ok (Some b) /\ at_boundary t b /\ b < pos;
  gc_next_law t pos :
    at_boundary t pos -> pos < byte_len t ->
    exists b, gc_next_boundary t pos = Ok (Some b) /\ at_boundary t b /\ pos < b;
  grapheme_law t : Forall (fun g => at_boundary t (fst g)) (grapheme_indices t);
  word_bound_law t : tiles 0 (split_word_bound_indices t) t;
  textwrap_law t w : slices_in_order t 0 (textwrap t w)
}.

(** ** The invariant *)

Definition disjoint (r r' : Range) : Prop := rend r <= rstart r' \/ rend r' <= rstart r.

#[export] Instance disjoint_dec r r' : Decision (disjoint r r').
Proof. unfold disjoint. apply _. Defined.

(** The elements are slices of the text, in order, none over another. *)
Definition range_ok (t : str) (r : Range) : Prop :=
  at_boundary t (rstart r) /\ at_boundary t (rend r) /\ rstart r <= rend r.
Definition ordered (e e' : TextElement) : Prop :=
  rstart (range e) <= rstart (range e') /\ disjoint (range e) (range e').
Record elements_ok (t : str) (els : list TextElement) : Prop := mkElementsOk {
  elements_range : Forall (fun e => range_ok t (range e)) els;
  elements_ordered : StronglySorted ordered els
}.

Record inv `{TextEnv} (s : TextArea) : Prop := mkInv {
  inv_cursor : at_boundary (text s) (cursor_pos s);
  inv_elements : elements_ok (text s) (elements s);
  inv_cache : forall c, wrap_cache s = Some c ->
    wrap_ranges [] [] (text s) (textwrap (text s) (cache_width c)) = Some (cache_lines c)
}.

(** No element has the position strictly inside. *)
Definition clear (els : list TextElement) (pos : nat) : Prop :=
  Forall (fun e => ~ (rstart (range e) < pos < rend (range e))) els.
Definition outside (s : TextArea) : Prop := clear (elements s) (cursor_pos s).

(** What an element is to the user: its identity and its text. *)
Definition tag (t : str) (e : TextElement) : N * option str * option str :=
  (id e, name e, payload t e).
Definition tags (s : TextArea) : list (N * option str * option str) :=
  tag (text s) <$> elements s.

Lemma ordered_pair els e f :
  StronglySorted ordered els -> e ∈ els -> f ∈ els -> e = f \/ disjoint (range e) (range f).
Proof.
  induction 1 as [|x els Hs IH Hx]; [by intros ?%elem_of_nil|].
  rewrite !elem_of_cons. rewrite Forall_forall in Hx.
  intros [->|He] [->|Hf]; [by left| | |by apply IH].
  - right. by apply Hx in Hf as [_ ?].
  - right. apply Hx in He as [_ [?|?]]; [by right|by left].
Qed.

Lemma clear_edges t els e :
  elements_ok t els -> e ∈ els -> clear els (rstart (range e)) /\ clear els (rend (range e)).
Proof.
  intros [Hr Ho] He. unfold clear. rewrite !Forall_forall.
  rewrite Forall_forall in Hr. pose proof (Hr _ He) as (_ & _ & Hle).
  split; intros f Hf; pose proof (Hr _ Hf) as (_ & _ & Hlf);
    destruct (ordered_pair _ _ _ Ho He Hf) as [->|[?|?]]; lia.
Qed.

Lemma clear_0 els : clear els 0.
Proof. apply Forall_true. intros; lia. Qed.

Lemma clear_len t els : elements_ok t els -> clear els (byte_len t).
Proof.
  intros [Hr _]. eapply Forall_impl; [exact Hr|]. intros e (_ & He%at_boundary_le & _). lia.
Qed.

Lemma list_find_elem {A} (f : A -> bool) l x : List.find f l = Some x -> x ∈ l /\ f x = true.
Proof. intros [H ?]%find_some. by rewrite <- list_elem_of_In in H. Qed.

Lemma find_element_Some els pos e :
  find_element_containing els pos = Some e ->
  e ∈ els /\ rstart (range e) < pos < rend (range e).
Proof.
  intros [? H]%list_find_elem. unfold strictly_inside in H. bool_hyps. nat_cases; [|done..].
  split; [done|lia].
Qed.

Lemma find_element_None els pos : find_element_containing els pos = None -> clear els pos.
Proof.
  intros H. apply Forall_forall. intros e He. rewrite list_elem_of_In in He.
  pose proof (find_none _ _ H _ He) as Hs. unfold strictly_inside in Hs. nat_cases; cbn in Hs; lia.
Qed.

Lemma find_element_clear els pos : clear els pos -> find_element_containing els pos = None.
Proof.
  intros H. destruct (find_element_containing els pos) as [e|] eqn:E; [|done].
  apply find_element_Some in E as [He Hin]. unfold clear in H. rewrite Forall_forall in H.
  by apply H in He.
Qed.

Lemma element_range_ok t els e : elements_ok t els -> e ∈ els -> range_ok t (range e).
Proof. intros [H _]. rewrite Forall_forall in H. apply H. Qed.

(** The clamp: a boundary outside the elements, the position itself when it is
    one. *)
Lemma clamp_nearest s pos :
  elements_ok (text s) (elements s) ->
  at_boundary (text s) (clamp_pos_to_nearest_boundary s pos)
  /\ clear (elements s) (clamp_pos_to_nearest_boundary s pos).
Proof.
  intros Hok. unfold clamp_pos_to_nearest_boundary, clamp_pos_to_char_boundary.
  destruct (find_element_containing _ _) as [e|] eqn:E.
  - apply find_element_Some in E as [He _].
    destruct (element_range_ok _ _ _ Hok He) as (H1 & H2 & _).
    destruct (clear_edges _ _ _ Hok He) as [C1 C2].
    case_match; rewrite clamp_id by done; done.
  - split; [apply clamp_boundary|by apply find_element_None].
Qed.

Lemma clamp_nearest_id s pos :
  at_boundary (text s) pos -> clear (elements s) pos -> clamp_pos_to_nearest_boundary s pos = pos.
Proof.
  intros Hb Hc. unfold clamp_pos_to_nearest_boundary, clamp_pos_to_char_boundary.
  rewrite clamp_id by done. by rewrite find_element_clear.
Qed.

Lemma adjust_pos_ok s pos b :
  elements_ok (text s) (elements s) -> at_boundary (text s) pos ->
  at_boundary (text s) (adjust_pos_out_of_elements s pos b)
  /\ clear (elements s) (adjust_pos_out_of_elements s pos b).
Proof.
  intros Hok Hb. unfold adjust_pos_out_of_elements.
  destruct (find_element_containing _ _) as [e|] eqn:E; [|by split; [|apply find_element_None]].
  apply find_element_Some in E as [He _].
  destruct (element_range_ok _ _ _ Hok He) as (H1 & H2 & _).
  destruct (clear_edges _ _ _ Hok He) as [C1 C2]. by destruct b.
Qed.

(** ** Replacing a slice under the elements *)

(** No element crosses an end of the range. *)
Definition uncut (els : list TextElement) (r : Range) : Prop :=
  Forall (fun e => disjoint (range e) r
                   \/ (rstart r <= rstart (range e) /\ rend (range e) <= rend r)) els.

Lemma shift_pos_add p (i j : nat) :
  j <= p -> shift_pos p (Z.of_nat i - Z.of_nat j) = p - j + i.
Proof.
  intros Hj. unfold shift_pos, as_usize. destruct (Z.ltb_spec (Z.of_nat p + (Z.of_nat i - Z.of_nat j)) 0); lia.
Qed.

Section Shift.
Variables a m b x : str.
Abbreviation i := (byte_len a).
Abbreviation j := (byte_len a + byte_len m).
Abbreviation shifted := (shift_element i j (byte_len x) (Z.of_nat (byte_len x) - Z.of_nat (byte_len m))).
Abbreviation contained e := ((i <=? rstart (range e)) && (rend (range e) <=? j)).

(** An element outside the range stays or moves by the difference. *)
Lemma shift_cases e :
  range_ok (a ++ m ++ b) (range e) -> disjoint (range e) (mkRange i j) ->
  (rend (range e) <= i /\ shifted e = e)
  \/ (j <= rstart (range e)
      /\ shifted e = mkElement (id e)
           (mkRange (rstart (range e) - byte_len m + byte_len x)
                    (rend (range e) - byte_len m + byte_len x)) (name e)).
Proof.
  intros (_ & _ & Hle) Hd. unfold shift_element, disjoint in *. cbn in Hd.
  destruct (Nat.leb_spec (rend (range e)) i); [by left|].
  right. split; [lia|]. destruct (Nat.leb_spec j (rstart (range e))); [|lia].
  by rewrite !shift_pos_add by lia.
Qed.

Lemma shift_payload e :
  range_ok (a ++ m ++ b) (range e) -> disjoint (range e) (mkRange i j) ->
  range_ok (a ++ x ++ b) (range (shifted e))
  /\ tag (a ++ x ++ b) (shifted e) = tag (a ++ m ++ b) e
  /\ disjoint (range (shifted e)) (mkRange i (i + byte_len x)).
Proof.
  intros Hok Hd. destruct (shift_cases e Hok Hd) as [[Hle ->]|[Hle ->]].
  - destruct Hok as (H1 & H2 & H3). split_and!.
    + split_and!; [| |done]; apply at_boundary_app_l; eapply at_boundary_app_inv_l; eauto; lia.
    + unfold tag, payload, slice_range. f_equal. by rewrite !slice_app_l by lia.
    + left. cbn. lia.
  - destruct Hok as (H1 & H2 & H3). rewrite app_assoc in H1, H2.
    apply at_boundary_app_inv_r in H1; [|rewrite byte_len_app; lia].
    apply at_boundary_app_inv_r in H2; [|rewrite byte_len_app; lia].
    rewrite byte_len_app in H1, H2.
    assert (forall p, j <= p -> p - byte_len m + byte_len x = byte_len (a ++ x) + (p - j)) as Hp
      by (intros; rewrite byte_len_app; lia).
    split_and!.
    + split_and!; cbn; [| |lia]; rewrite app_assoc, Hp by lia; by apply at_boundary_app_r.
    + unfold tag, payload, slice_range. cbn. f_equal. rewrite !app_assoc.
      rewrite !slice_app_r by (rewrite ?byte_len_app; lia). rewrite !byte_len_app. f_equal; lia.
    + right. cbn. lia.
Qed.

Lemma shift_disjoint e f :
  range_ok (a ++ m ++ b) (range e) -> range_ok (a ++ m ++ b) (range f) ->
  disjoint (range e) (mkRange i j) -> disjoint (range f) (mkRange i j) ->
  disjoint (range e) (range f) -> disjoint (range (shifted e)) (range (shifted f)).
Proof.
  intros He Hf Hde Hdf. pose proof He as (_ & _ & ?). pose proof Hf as (_ & _ & ?).
  destruct (shift_cases e He Hde) as [[? ->]|[? ->]];
    destruct (shift_cases f Hf Hdf) as [[? ->]|[? ->]]; unfold disjoint; cbn; lia.
Qed.

Lemma uncut_disjoint e :
  disjoint (range e) (mkRange i j) \/ (i <= rstart (range e) /\ rend (range e) <= j) ->
  contained e = false -> disjoint (range e) (mkRange i j).
Proof.
  intros [?|?] Hc; [done|]. apply andb_false_iff in Hc. rewrite !Nat.leb_gt in Hc. lia.
Qed.

Lemma shift_ordered e f :
  range_ok (a ++ m ++ b) (range e) -> range_ok (a ++ m ++ b) (range f) ->
  disjoint (range e) (mkRange i j) -> disjoint (range f) (mkRange i j) ->
  contained e = false -> contained f = false -> ordered e f -> ordered (shifted e) (shifted f).
Proof.
  intros He Hf Hde Hdf Hce Hcf [Hle Hd]. split; [|by apply shift_disjoint].
  pose proof He as (_ & _ & ?). pose proof Hf as (_ & _ & ?).
  apply andb_false_iff in Hce, Hcf. rewrite !Nat.leb_gt in *.
  destruct (shift_cases e He Hde) as [[? ->]|[? ->]];
    destruct (shift_cases f Hf Hdf) as [[? ->]|[? ->]]; cbn; lia.
Qed.

Lemma shift_elements_ok els :
  elements_ok (a ++ m ++ b) els -> uncut els (mkRange i j) ->
  let els' := shift_elements els i (byte_len m) (byte_len x) in
  elements_ok (a ++ x ++ b) els'
  /\ (tag (a ++ x ++ b) <$> els') `sublist_of` (tag (a ++ m ++ b) <$> els)
  /\ Forall (fun e => disjoint (range e) (mkRange i (i + byte_len x))) els'.
Proof.
  intros [Hr Ho] Hu. unfold shift_elements. cbn zeta. induction els as [|e els IH]; cbn.
  { split_and!; [split; constructor|done|constructor]. }
  apply Forall_cons in Hr as [He Hr]. apply Forall_cons in Hu as [Hue Hu].
  apply StronglySorted_inv in Ho as [Ho Hf].
  destruct (IH Hr Ho Hu) as ([Hr' Ho'] & Ht & Hd).
  destruct (contained e) eqn:Hc; cbn.
  { split_and!; [done|by constructor|done]. }
  apply uncut_disjoint in Hue; [|done].
  destruct (shift_payload e He Hue) as (P1 & P2 & P3).
  split_and!; [|rewrite P2; by constructor|by constructor].
  split; [by constructor|]. constructor; [done|].
  rewrite Forall_fmap, Forall_forall. intros f Hin. cbn.
  rewrite list_elem_of_In in Hin. apply filter_In in Hin as [Hin Hcf%negb_true_iff].
  rewrite <- list_elem_of_In in Hin. rewrite Forall_forall in Hr, Hu, Hf.
  apply shift_ordered; auto using uncut_disjoint.
Qed.

End Shift.

(** ** Steps that keep the elements *)

(** No element holds a newline, so none runs over the start of a line. *)
Definition one_line (t : N * option str * option str) : Prop :=
  match snd t with Some p => no_char NL p | None => True end.
Definition lines_apart (s : TextArea) : Prop := Forall one_line (tags s).

Section Kept.
Context `{TextEnv}.

(** A step from [s] to [s'] that may drop elements whole but neither adds nor
    alters one, and that leaves the cursor outside them if it was (a cursor
    inside an element is put out of it by the next movement). *)
Record kept (s s' : TextArea) : Prop := mkKept {
  kept_inv : inv s';
  kept_tags : tags s' `sublist_of` tags s;
  kept_outside : lines_apart s -> outside s -> outside s'
}.

Definition steps (s : TextArea) (r : option TextArea) : Prop :=
  exists s', r = Some s' /\ kept s s'.

Lemma lines_apart_sub s s' : tags s' `sublist_of` tags s -> lines_apart s -> lines_apart s'.
Proof.
  unfold lines_apart. intros Hs. induction Hs; rewrite ?Forall_cons; intros Hl; destruct_and?; auto.
Qed.

Lemma kept_refl s : inv s -> kept s s.
Proof. by intros ?; split. Qed.

Lemma kept_trans s1 s2 s3 : kept s1 s2 -> kept s2 s3 -> kept s1 s3.
Proof.
  intros [I1 T1 O1] [I2 T2 O2]. split; [done|by etrans|].
  intros Hl Ho. apply O2; [by eapply lines_apart_sub|auto].
Qed.

Lemma steps_some s s' : kept s s' -> steps s (Some s').
Proof. by exists s'. Qed.

Lemma steps_bind s r (f : TextArea -> option TextArea) :
  steps s r -> (forall s', kept s s' -> steps s' (f s')) -> steps s (r ≫= f).
Proof.
  intros (s' & -> & Hk) Hf. destruct (Hf s' Hk) as (s'' & Hr & Hk'). exists s''.
  split; [done|]. by eapply kept_trans.
Qed.

Lemma steps_trans s s1 r : kept s s1 -> steps s1 r -> steps s r.
Proof. intros Hk (s' & -> & Hk'). exists s'. split; [done|]. by eapply kept_trans. Qed.

(** A state that differs in nothing the invariant sees. *)
Lemma kept_frame s s' :
  inv s -> text s' = text s -> elements s' = elements s -> cursor_pos s' = cursor_pos s ->
  wrap_cache s' = wrap_cache s -> kept s s'.
Proof.
  intros [Hc He Hw] Ht Hel Hcur Hcache. split.
  - split; rewrite ?Ht, ?Hel, ?Hcur, ?Hcache; done.
  - unfold tags. by rewrite Ht, Hel.
  - unfold outside. by rewrite Hel, Hcur.
Qed.

(** Only the cursor moves. *)
Lemma kept_cursor s c s' :
  inv s -> text s' = text s -> elements s' = elements s -> wrap_cache s' = wrap_cache s ->
  cursor_pos s' = c -> at_boundary (text s) c -> clear (elements s) c -> kept s s'.
Proof.
  intros [_ He Hw] Ht Hel Hcache Hcur Hb Hc. split.
  - split; rewrite ?Ht, ?Hel, ?Hcur, ?Hcache; done.
  - unfold tags. by rewrite Ht, Hel.
  - unfold outside. by rewrite Hel, Hcur.
Qed.

Lemma set_cursor_kept pos s : inv s -> kept s (set_cursor pos s).
Proof.
  intros Hi. destruct (clamp_nearest (with_cursor (Nat.min pos (byte_len (text s))) s)
    (Nat.min pos (byte_len (text s)))) as [Hb Hc]; [apply Hi|].
  by eapply kept_cursor.
Qed.

Lemma inv_cursor_le s : inv s -> cursor_pos s <= byte_len (text s).
Proof. intros [Hc _ _]. by apply at_boundary_le. Qed.

Lemma clear_uncut els p : clear els p -> uncut els (mkRange p p).
Proof.
  intros Hc. eapply Forall_impl; [exact Hc|]. cbn. intros e Hx. left. unfold disjoint. cbn. lia.
Qed.

(** What [insert_str_at] returns. *)
Lemma insert_str_at_eq s pos t :
  inv s ->
  exists a b,
    text s = a ++ b /\ byte_len a = clamp_pos_to_nearest_boundary s pos
    /\ clear (elements s) (byte_len a)
    /\ insert_str_at pos t s
       = Some (with_preferred_col None
                 (with_elements (shift_elements (elements s) (byte_len a) 0 (byte_len t))
                    (with_cursor
                       (if byte_len a <=? cursor_pos s then cursor_pos s + byte_len t
                        else cursor_pos s)
                       (with_wrap_cache None (with_text (a ++ t ++ b) s))))).
Proof.
  intros Hi. unfold insert_str_at. 
  change (clamp_pos_for_insertion s pos) with (clamp_pos_to_nearest_boundary s pos).
  destruct (clamp_nearest s pos (inv_elements _ Hi)) as [(a & b & Hs & Ha) Hc].
  exists a, b. rewrite <- Ha in *. split_and!; [done..|].
  cbn zeta. rewrite Hs, string_insert_app. cbn. by destruct (byte_len a <=? cursor_pos s).
Qed.

(** After an edit that replaces [m] by [x], where the cursor may stay. *)
Lemma edit_kept s s' a m b x :
  inv s -> text s = a ++ m ++ b ->
  uncut (elements s) (mkRange (byte_len a) (byte_len a + byte_len m)) ->
  text s' = a ++ x ++ b ->
  elements s' = shift_elements (elements s) (byte_len a) (byte_len m) (byte_len x) ->
  wrap_cache s' = None ->
  at_boundary (text s') (cursor_pos s') ->
  (outside s -> outside s') ->
  kept s s'.
Proof.
  intros Hi Ht Hu Ht' He' Hw Hb Ho. pose proof (inv_elements _ Hi) as Hok. rewrite Ht in Hok.
  destruct (shift_elements_ok _ _ _ x _ Hok Hu) as (P1 & P2 & _). split.
  - split; [done|by rewrite Ht', He'|by rewrite Hw].
  - unfold tags. by rewrite Ht, Ht', He'.
  - auto.
Qed.

Lemma insert_str_at_steps s pos t : inv s -> steps s (insert_str_at pos t s).
Proof.
  intros Hi. destruct (insert_str_at_eq s pos t Hi) as (a & b & Hs & Ha & Hc & ->).
  apply steps_some. pose proof (inv_cursor _ Hi) as Hcur.
  eapply (edit_kept s _ a [] b t); [done|done|by rewrite Nat.add_0_r; apply clear_uncut|
    done|done|done| |]; cbn [text cursor_pos elements with_preferred_col with_elements
      with_cursor with_wrap_cache with_text].
  - rewrite Hs in Hcur. destruct (Nat.leb_spec (byte_len a) (cursor_pos s)).
    + apply at_boundary_app_inv_r in Hcur; [|done].
      replace (_ + _) with (byte_len (a ++ t) + (cursor_pos s - byte_len a))
        by (rewrite byte_len_app; lia).
      rewrite app_assoc. by apply at_boundary_app_r.
    + apply at_boundary_app_l. eapply at_boundary_app_inv_l; [done|lia].
  - unfold outside, clear. cbn. rewrite !Forall_forall. intros Ho e He.
    pose proof (inv_elements _ Hi) as Hok. rewrite Hs in Hok.
    unfold shift_elements in He. apply list_elem_of_fmap in He as (f & -> & Hf).
    rewrite list_elem_of_In in Hf. apply filter_In in Hf as [Hf Hcon%negb_true_iff].
    rewrite <- list_elem_of_In in Hf. pose proof (element_range_ok _ _ _ Hok Hf) as Hr.
    pose proof (shift_cases a [] b t f Hr) as Hcase. rewrite !Nat.add_0_r in *.
    change (byte_len []) with 0 in *. specialize (Ho _ Hf).
    unfold clear in Hc. rewrite Forall_forall in Hc. pose proof (Hc _ Hf).
    destruct Hcase as [[? ->]|[? ->]]; [unfold disjoint; cbn; lia|cbn; nat_cases; lia..].
Qed.

Lemma range_split t r :
  range_ok t r ->
  exists a m b, t = a ++ m ++ b /\ r = mkRange (byte_len a) (byte_len a + byte_len m).
Proof.
  intros (H1 & H2 & H3). destruct (slice_bounds _ _ _ H1 H2 H3) as (a & m & b & -> & Ha & Hm).
  exists a, m, b. split; [done|]. destruct r; cbn in *. by subst.
Qed.

(** What [replace_range_raw] returns on a slice that cuts no element. *)
Lemma replace_range_raw_eq s a m b t :
  inv s -> text s = a ++ m ++ b ->
  uncut (elements s) (mkRange (byte_len a) (byte_len a + byte_len m)) ->
  m ++ t <> [] ->
  let els := shift_elements (elements s) (byte_len a) (byte_len m) (byte_len t) in
  exists c,
    replace_range_raw (mkRange (byte_len a) (byte_len a + byte_len m)) t s
    = Some (with_cursor c (with_elements els
              (with_preferred_col None (with_wrap_cache None (with_text (a ++ t ++ b) s)))))
    /\ at_boundary (a ++ t ++ b) c /\ clear els c
    /\ (byte_len a <= cursor_pos s <= byte_len a + byte_len m -> c = byte_len a + byte_len t).
Proof.
  intros Hi Ht Hu Hne els. pose proof (inv_elements _ Hi) as Hok. rewrite Ht in Hok.
  destruct (shift_elements_ok _ _ _ t _ Hok Hu) as (P1 & _ & P3). fold els in P1, P3.
  unfold replace_range_raw. cbn [rstart rend].
  destruct (Nat.ltb_spec (byte_len a + byte_len m) (byte_len a)); [lia|].
  assert (byte_len (text s) = byte_len a + byte_len m + byte_len b) as Hlen
    by (rewrite Ht, !byte_len_app; lia).
  rewrite !Nat.min_l by lia. replace (byte_len a + byte_len m - byte_len a) with (byte_len m) by lia.
  replace ((byte_len m =? 0) && (byte_len t =? 0)) with false.
  2:{ symmetry. apply not_true_is_false. rewrite andb_true_iff, !Nat.eqb_eq.
      intros [->%byte_len_nil ->%byte_len_nil]. done. }
  cbn zeta. rewrite Ht, string_replace_app. cbn -[Nat.min shift_elements].
  match goal with |- context [with_cursor (clamp_pos_to_nearest_boundary ?s' ?p)] =>
    destruct (clamp_nearest s' p P1) as [Hb Hc]; exists (clamp_pos_to_nearest_boundary s' p);
    pose proof (clamp_nearest_id s' p) as Hid end.
  split_and!; [done|exact Hb|exact Hc|].
  intros Hin. cbn [text elements with_cursor with_elements with_text cursor_pos
    with_preferred_col with_wrap_cache] in Hid |- *. revert Hid.
  destruct (Nat.ltb_spec (cursor_pos s) (byte_len a)); [lia|].
  destruct (Nat.leb_spec (cursor_pos s) (byte_len a + byte_len m)); [|lia].
  rewrite Nat.min_l by (rewrite !byte_len_app; lia). intros Hid. apply Hid.
  - rewrite app_assoc, <- byte_len_app. apply at_boundary_app.
  - eapply Forall_impl; [exact P3|]. unfold disjoint. cbn. intros; lia.
Qed.

Lemma replace_range_raw_steps s r t :
  inv s -> range_ok (text s) r -> uncut (elements s) r -> steps s (replace_range_raw r t s).
Proof.
  intros Hi Hr Hu. destruct (range_split _ _ Hr) as (a & m & b & Ht & ->).
  destruct (decide (m ++ t = [])) as [[-> ->]%app_nil|Hne].
  - unfold replace_range_raw. cbn [rstart rend]. change (byte_len []) with 0.
    rewrite Nat.add_0_r, Nat.ltb_irrefl, Nat.sub_diag. cbn. by apply steps_some, kept_refl.
  - destruct (replace_range_raw_eq s a m b t Hi Ht Hu Hne) as (c & -> & Hb & Hc & _).
    apply steps_some. by eapply (edit_kept s _ a m b t).
Qed.

(** ** Expanding a range over the elements it touches *)

Definition within (r r' : Range) : Prop := rstart r' <= rstart r /\ rend r <= rend r'.

(** An element is taken in when it meets the range and is not yet inside. *)
Definition pending (r : Range) (e : TextElement) : bool :=
  negb ((rstart r <=? rstart (range e)) && (rend (range e) <=? rend r)).

Lemma expand_step_spec r c e :
  let '(r', c') := expand_step (r, c) e in
  within r r'
  /\ (r' = r /\ c' = c
      /\ (disjoint (range e) r \/ (rstart r <= rstart (range e) /\ rend (range e) <= rend r))
      \/ c' = true /\ pending r e = true /\ pending r' e = false
         /\ r' = mkRange (Nat.min (rstart r) (rstart (range e))) (Nat.max (rend r) (rend (range e)))).
Proof.
  unfold expand_step, pending, within, disjoint. cbn.
  destruct (Nat.ltb_spec (rstart (range e)) (rend r)); destruct (Nat.ltb_spec (rstart r) (rend (range e)));
    cbn; try (split; [lia|left; split_and!; [done|done|lia]]).
  destruct (Nat.eqb_spec (Nat.min (rstart r) (rstart (range e))) (rstart r));
    destruct (Nat.eqb_spec (Nat.max (rend r) (rend (range e))) (rend r)); cbn;
    (split; [lia|]); [left; split_and!; [done|done|lia]|right..];
    (split_and!; [done| | |done]);
    rewrite ?negb_true_iff, ?negb_false_iff, ?andb_true_iff, ?andb_false_iff, ?Nat.leb_le, ?Nat.leb_gt;
    cbn; lia.
Qed.

Lemma within_trans r1 r2 r3 : within r1 r2 -> within r2 r3 -> within r1 r3.
Proof. unfold within. lia. Qed.

Lemma pending_within r r' e : within r r' -> pending r' e = true -> pending r e = true.
Proof.
  unfold within, pending. rewrite !negb_true_iff, !andb_false_iff, !Nat.leb_gt. lia.
Qed.

Definition count_pending (r : Range) (els : list TextElement) : nat :=
  length (List.filter (pending r) els).

Lemma count_pending_within r r' els : within r r' -> count_pending r' els <= count_pending r els.
Proof.
  intros Hw. unfold count_pending. induction els as [|e els IH]; cbn; [lia|].
  pose proof (pending_within r r' e Hw).
  destruct (pending r' e), (pending r e); cbn; lia.
Qed.

(** One turn of the outer loop: the range only grows; without change, no
    element is cut; with a change, one element fewer is left to take in. *)
Lemma expand_pass_spec els r c :
  let '(r', c') := fold_left expand_step els (r, c) in
  within r r'
  /\ (c' = false -> r' = r /\ c = false /\ uncut els r)
  /\ (c' = true -> c = true \/ count_pending r' els < count_pending r els).
Proof.
  revert r c. induction els as [|e els IH]; intros r c; cbn [fold_left].
  - split_and!; [unfold within; lia| |auto]. intros ->. split_and!; [done|done|constructor].
  - pose proof (expand_step_spec r c e) as He. destruct (expand_step (r, c) e) as [r1 c1].
    specialize (IH r1 c1). destruct (fold_left expand_step els (r1, c1)) as [r' c'].
    destruct He as [Hw1 He], IH as (Hw2 & Hf & Ht).
    pose proof (count_pending_within _ _ els Hw1) as Hcount.
    split_and!; [by eapply within_trans| |].
    + intros ->. destruct (Hf eq_refl) as (-> & -> & Hu).
      destruct He as [(-> & -> & Hd)|(? & _)]; [|done].
      split_and!; [done|done|by constructor].
    + intros ->. unfold count_pending in *. cbn.
      pose proof (count_pending_within _ _ els Hw2) as Hcount2. unfold count_pending in Hcount2.
      destruct He as [(-> & -> & _)|(-> & Hp & Hp' & _)].
      * destruct (Ht eq_refl) as [?|Hlt]; [by left|]. right.
        pose proof (pending_within _ _ e Hw2).
        destruct (pending r' e), (pending r e); cbn; lia.
      * right. rewrite Hp. destruct (pending r' e) eqn:Hp''; [|cbn; lia].
        by rewrite (pending_within _ _ _ Hw2 Hp'') in Hp'.
Qed.

Lemma expand_loop_spec fuel els r :
  count_pending r els < fuel ->
  within r (expand_loop fuel els r) /\ uncut els (expand_loop fuel els r).
Proof.
  revert r. induction fuel as [|fuel IH]; intros r Hf; cbn; [lia|].
  pose proof (expand_pass_spec els r false) as H1.
  destruct (fold_left expand_step els (r, false)) as [r' c]. destruct H1 as (Hw & Hfalse & Htrue).
  destruct c.
  - destruct (Htrue eq_refl) as [?|Hlt]; [done|]. destruct (IH r' ltac:(lia)) as [Hw' Hu].
    split; [by eapply within_trans|done].
  - destruct (Hfalse eq_refl) as (-> & _ & Hu). done.
Qed.

(** The ends of the expanded range are ends of the range or of elements. *)
Lemma expand_loop_edges (P : nat -> Prop) fuel els r :
  Forall (fun e => P (rstart (range e)) /\ P (rend (range e))) els ->
  P (rstart r) -> P (rend r) ->
  P (rstart (expand_loop fuel els r)) /\ P (rend (expand_loop fuel els r)).
Proof.
  intros Hels. revert r. induction fuel as [|fuel IH]; intros r H1 H2; cbn; [done|].
  assert (forall c, let '(r', _) := fold_left expand_step els (r, c) in P (rstart r') /\ P (rend r'))
    as Hpass.
  { clear IH. revert r H1 H2. induction Hels as [|e els [E1 E2] Hels IH]; intros r H1 H2 c;
      cbn [fold_left]; [done|].
    pose proof (expand_step_spec r c e) as He. destruct (expand_step (r, c) e) as [r1 c1].
    destruct He as [_ [(-> & _)|(_ & _ & _ & ->)]]; apply IH; cbn; auto.
    - by destruct (Nat.min_dec (rstart r) (rstart (range e))) as [->| ->].
    - by destruct (Nat.max_dec (rend r) (rend (range e))) as [->| ->]. }
  specialize (Hpass false). destruct (fold_left expand_step els (r, false)) as [r' c].
  destruct Hpass. destruct c; auto.
Qed.

Lemma expand_ok s r :
  elements_ok (text s) (elements s) -> range_ok (text s) r ->
  let r' := expand_range_to_element_boundaries s r in
  range_ok (text s) r' /\ within r r' /\ uncut (elements s) r'.
Proof.
  intros Hok (H1 & H2 & H3). unfold expand_range_to_element_boundaries.
  destruct (expand_loop_spec (S (length (elements s))) (elements s) r) as [Hw Hu].
  { unfold count_pending. pose proof (List.filter_length_le (pending r) (elements s)). lia. }
  split_and!; [|done..].
  destruct (expand_loop_edges (at_boundary (text s)) (S (length (elements s))) (elements s) r)
    as [E1 E2]; [|done|done|].
  { eapply Forall_impl; [exact (elements_range _ _ Hok)|]. by intros e (? & ? & _). }
  unfold range_ok. split_and!; [done|done|]. unfold within in Hw. lia.
Qed.

Lemma replace_range_steps s r t :
  inv s -> range_ok (text s) r -> steps s (replace_range r t s).
Proof.
  intros Hi Hr. destruct (expand_ok s r (inv_elements _ Hi) Hr) as (H1 & _ & H2).
  by apply replace_range_raw_steps.
Qed.

(** ** The operations on elements keep the invariant *)

Definition apart (e f : TextElement) : Prop := disjoint (range e) (range f).

Lemma apart_sym e f : apart e f -> apart f e.
Proof. unfold apart, disjoint. tauto. Qed.

Lemma sorted_apart_perm els els' :
  els ≡ₚ els' -> StronglySorted apart els -> StronglySorted apart els'.
Proof.
  induction 1 as [|x l k Hp IH|x y l|l k m' H1 IH1 H2 IH2]; [done| | |by auto].
  - intros [Hs Hx]%StronglySorted_inv. constructor; [auto|]. by rewrite <- Hp.
  - intros [[Hs Hx]%StronglySorted_inv Hy]%StronglySorted_inv.
    apply Forall_cons in Hy as [Hyx Hy].
    apply SSorted_cons; [by apply SSorted_cons|]. apply Forall_cons; auto using apart_sym.
Qed.

Lemma sort_elements_ok t els :
  Forall (fun e => range_ok t (range e)) els -> StronglySorted apart els ->
  elements_ok t (sort_elements els).
Proof.
  intros Hr Ha. pose proof (sort_by_key_perm (fun e => rstart (range e)) els) as Hp.
  fold (sort_elements els) in Hp. split; [by rewrite Hp|].
  pose proof (sort_by_key_sorted (fun e => rstart (range e)) els) as Hs.
  fold (sort_elements els) in Hs.
  apply (sorted_apart_perm _ (sort_elements els)) in Ha; [|by symmetry].
  clear Hp Hr. induction Hs as [|e l Hs IH He]; [constructor|].
  apply StronglySorted_inv in Ha as [Ha Hea]. constructor; [auto|].
  rewrite Forall_forall in *. intros f Hf. split; [by apply He|by apply Hea].
Qed.

Lemma ordered_apart els : StronglySorted ordered els -> StronglySorted apart els.
Proof.
  induction 1 as [|e l Hs IH He]; constructor; [done|].
  eapply Forall_impl; [exact He|]. by intros f [_ ?].
Qed.

Lemma sorted_snoc {A} (R : A -> A -> Prop) l x :
  StronglySorted R l -> Forall (fun y => R y x) l -> StronglySorted R (l ++ [x]).
Proof.
  induction 1 as [|y l Hs IH Hy]; cbn; [by repeat constructor|].
  intros [Hyx Hl]%Forall_cons. constructor; [auto|]. apply Forall_app. auto.
Qed.

(** A new element over no other. *)
Lemma add_element_ok r nm s :
  inv s -> range_ok (text s) r -> Forall (fun e => disjoint (range e) r) (elements s) ->
  inv (snd (add_element_with_id r nm s)).
Proof.
  intros [Hc [Hr Ho] Hw] Hok Hd. split; [done| |done].
  apply sort_elements_ok.
  - apply Forall_app. split; [done|]. by repeat constructor; apply Hok.
  - apply sorted_snoc; [by apply ordered_apart|done].
Qed.

Lemma sorted_filter {A} (R : A -> A -> Prop) f l :
  StronglySorted R l -> StronglySorted R (List.filter f l).
Proof.
  induction 1 as [|x l Hs IH Hx]; cbn; [constructor|]. destruct (f x); [|done].
  constructor; [done|]. rewrite Forall_forall in *. intros y Hy. apply Hx.
  rewrite list_elem_of_In in *. by apply filter_In in Hy as [? _].
Qed.

Lemma filter_elements_inv f s : inv s -> inv (with_elements (List.filter f (elements s)) s).
Proof.
  intros [Hc [Hr Ho] Hw]. split; [done| |done]. split; [|by apply sorted_filter].
  rewrite Forall_forall in *. intros e He. apply Hr. cbn in He.
  rewrite list_elem_of_In in *. by apply filter_In in He as [? _].
Qed.

Lemma element_uncut t els e : elements_ok t els -> e ∈ els -> uncut els (range e).
Proof.
  intros [Hr Ho] He. apply Forall_forall. intros f Hf.
  destruct (ordered_pair _ _ _ Ho Hf He) as [->|?]; [right; lia|by left].
Qed.

(** After a replacement the new text lies between the elements. *)
Lemma replace_range_raw_gap s r t :
  inv s -> range_ok (text s) r -> uncut (elements s) r ->
  exists s', replace_range_raw r t s = Some s' /\ inv s'
    /\ (let r' := mkRange (rstart r) (rstart r + byte_len t) in
        range_ok (text s') r' /\ Forall (fun e => disjoint (range e) r') (elements s')).
Proof.
  intros Hi Hr Hu. destruct (range_split _ _ Hr) as (a & m & b & Ht & ->). cbn [rstart].
  destruct (replace_range_raw_steps _ _ t Hi Hr Hu) as (s' & Hs' & Hk).
  exists s'. split; [done|]. split; [apply Hk|].
  destruct (decide (m ++ t = [])) as [[-> ->]%app_nil|Hne].
  - change (byte_len []) with 0 in *. rewrite Nat.add_0_r in *.
    unfold replace_range_raw in Hs'. cbn [rstart rend] in Hs'. change (byte_len []) with 0 in Hs'.
    rewrite Nat.ltb_irrefl, Nat.sub_diag in Hs'. cbn in Hs'. injection Hs' as <-.
    split; [done|]. pose proof (elements_range _ _ (inv_elements _ Hi)) as Hel.
    unfold uncut in Hu. rewrite Forall_forall in *. intros e He.
    destruct (Hu _ He) as [?|Hin]; [done|]. cbn in Hin. unfold disjoint. cbn. lia.
  - destruct (replace_range_raw_eq s a m b t Hi Ht Hu Hne) as (c & Heq & _).
    rewrite Heq in Hs'. injection Hs' as <-. cbn.
    pose proof (inv_elements _ Hi) as Hok. rewrite Ht in Hok.
    destruct (shift_elements_ok _ _ _ t _ Hok Hu) as (_ & _ & P3). split; [|done].
    split_and!; cbn; [apply at_boundary_app| |lia].
    rewrite app_assoc, <- byte_len_app. apply at_boundary_app.
Qed.

Lemma insert_element_inv t nm s :
  inv s -> exists n s', insert_element_named t nm s = Some (n, s') /\ inv s'.
Proof.
  intros Hi. unfold insert_element_named.
  change (clamp_pos_for_insertion s) with (clamp_pos_to_nearest_boundary s).
  set (p := clamp_pos_to_nearest_boundary s (cursor_pos s)).
  destruct (clamp_nearest s (cursor_pos s) (inv_elements _ Hi)) as [Hb Hc]. fold p in Hb, Hc.
  destruct (insert_str_at_steps s p t Hi) as (s1 & Hs1 & Hk).
  destruct (insert_str_at_eq s p t Hi) as (a & b & Ht & Ha & _ & Heq).
  rewrite clamp_nearest_id in Ha by done. rewrite Hs1 in Heq. injection Heq as Heq.
  rewrite Hs1. cbn -[add_element_with_id set_cursor].
  pose proof (add_element_ok (mkRange p (p + byte_len t)) nm s1 (kept_inv _ _ Hk)) as Hadd.
  destruct (add_element_with_id _ nm s1) as [n s2]. eexists _, _. split; [done|].
  apply kept_inv with s2, set_cursor_kept, Hadd; rewrite Heq; cbn; rewrite <- Ha.
  - split_and!; cbn; [apply at_boundary_app| |lia].
    rewrite app_assoc, <- byte_len_app. apply at_boundary_app.
  - pose proof (inv_elements _ Hi) as Hok. rewrite Ht in Hok. rewrite <- Ha in Hc.
    apply (shift_elements_ok a [] b t); [done|]. rewrite Nat.add_0_r. by apply clear_uncut.
Qed.

Lemma named_element_uncut s nm r :
  inv s -> named_element_range s nm = Some r -> range_ok (text s) r /\ uncut (elements s) r.
Proof.
  intros Hi (e & He%list_find_elem & ->)%fmap_Some. destruct He as [He _].
  split; [by eapply element_range_ok, He; apply Hi|]. by eapply element_uncut, He; apply Hi.
Qed.

Lemma replace_element_by_id_inv nm t s :
  inv s -> exists b s', replace_element_by_id nm t s = Some (b, s') /\ inv s'.
Proof.
  intros Hi. unfold replace_element_by_id.
  destruct (named_element_range s nm) as [r|] eqn:E; [|by eauto].
  destruct (named_element_uncut _ _ _ Hi E) as [Hr Hu].
  destruct (replace_range_raw_steps s r t Hi Hr Hu) as (s' & -> & Hk). cbn.
  eexists _, _. split; [done|]. apply filter_elements_inv, Hk.
Qed.

Lemma update_named_element_inv nm t s :
  inv s -> exists b s', update_named_element_by_id nm t s = Some (b, s') /\ inv s'.
Proof.
  intros Hi. unfold update_named_element_by_id.
  destruct (named_element_range s nm) as [r|] eqn:E; [|by eauto].
  destruct (named_element_uncut _ _ _ Hi E) as [Hr Hu].
  destruct (replace_range_raw_gap s r t Hi Hr Hu) as (s' & -> & Hi' & Hok & Hd).
  cbn -[add_element_with_id]. eexists _, _. split; [done|]. by apply add_element_ok.
Qed.

Lemma clamp_range_ok s r :
  rstart (clamp_range s r) <= rend (clamp_range s r) -> range_ok (text s) (clamp_range s r).
Proof. intros H1. split_and!; [apply clamp_boundary..|done]. Qed.

Lemma add_element_range_inv r s : inv s -> inv (snd (add_element_range r s)).
Proof.
  intros Hi. unfold add_element_range. set (r' := clamp_range s r).
  destruct (Nat.leb_spec (rend r') (rstart r')); [done|].
  destruct (existsb (fun e => bool_decide _) _); [done|].
  destruct (existsb _ _) eqn:E2; [done|].
  pose proof (add_element_ok r' None s Hi) as Hadd. unfold add_element.
  destruct (add_element_with_id r' None s) as [n s']. apply Hadd.
  - apply clamp_range_ok. fold r'. lia.
  - apply Forall_forall. intros e He. apply not_true_iff_false in E2.
    destruct (decide (disjoint (range e) r')) as [?|Hn]; [done|]. exfalso. apply E2, existsb_exists.
    exists e. rewrite <- list_elem_of_In. split; [done|].
    unfold disjoint in Hn. rewrite andb_true_iff, !Nat.ltb_lt. lia.
Qed.

Lemma remove_element_range_inv r s : inv s -> inv (snd (remove_element_range r s)).
Proof.
  intros Hi. unfold remove_element_range.
  destruct (_ <=? _); [done|]. by apply filter_elements_inv.
Qed.

Lemma clamp_range_disjoint s r r' :
  disjoint r r' -> disjoint (clamp_range s r) (clamp_range s r').
Proof.
  unfold disjoint, clamp_range. cbn. intros [?|?]; [left|right]; apply clamp_mono; lia.
Qed.

(** Ranges over one another would make overlapping elements: the callers pass
    disjoint ones. *)
Lemma push_user_elements_ok els s :
  Forall (fun e => range_ok (text s) (range e)) (elements s) ->
  StronglySorted apart (elements s) ->
  StronglySorted disjoint els ->
  Forall (fun r => Forall (fun e => disjoint (range e) (clamp_range s r)) (elements s)) els ->
  let s' := fold_left push_user_element els s in
  text s' = text s /\ cursor_pos s' = cursor_pos s
  /\ Forall (fun e => range_ok (text s) (range e)) (elements s')
  /\ StronglySorted apart (elements s').
Proof.
  revert s. induction els as [|r els IH]; intros s Hr Ha Hd Hel; [done|].
  apply StronglySorted_inv in Hd as [Hd Hrd]. apply Forall_cons in Hel as [Hrel Hel].
  cbn [fold_left].
  assert (push_user_element s r
    = if rend (clamp_range s r) <=? rstart (clamp_range s r) then s
      else with_elements (elements s ++ [mkElement (next_element_id s) (clamp_range s r) None])
             (snd (take_element_id s))) as -> by done.
  destruct (Nat.leb_spec (rend (clamp_range s r)) (rstart (clamp_range s r))) as [Hle|Hlt];
    [by apply IH|].
  assert (range_ok (text s) (clamp_range s r)) as Hok by (apply clamp_range_ok; lia).
  refine (IH (with_elements _ _) _ _ _ _); cbn [text elements with_elements take_element_id snd
    with_next_id].
  - apply Forall_app. split; [done|]. by apply Forall_singleton.
  - by apply sorted_snoc.
  - done.
  - rewrite Forall_forall in *. intros r' Hr'. apply Forall_app. split; [by apply Hel|].
    apply Forall_singleton. change (disjoint (clamp_range s r) (clamp_range s r')).
    by apply clamp_range_disjoint, Hrd.
Qed.

Lemma set_text_inner_inv t els s :
  inv s -> (forall l, els = Some l -> StronglySorted disjoint l) -> inv (set_text_inner t els s).
Proof.
  intros Hi Hd. unfold set_text_inner. cbv zeta.
  set (s0 := with_elements [] _).
  assert (text s0 = t) as Ht by done.
  assert (exists s1, text s1 = t /\ elements_ok t (elements s1)
    /\ match els with
       | Some l => with_elements (sort_elements (elements (fold_left push_user_element l s0)))
                     (fold_left push_user_element l s0)
       | None => s0
       end = s1) as (s1 & Ht1 & Hok & ->).
  { destruct els as [l|].
    - destruct (push_user_elements_ok l s0) as (P1 & _ & P3 & P4);
        [constructor|constructor|by apply Hd|by apply Forall_true; constructor|].
      eexists. split_and!; [| |done]; cbn; [by rewrite P1|].
      apply sort_elements_ok; [rewrite Ht in P3; exact P3|exact P4].
    - exists s0. split_and!; [done| |done]. split; constructor. }
  rewrite <- Ht1 in Hok. split; cbn; [|done|done]. by apply clamp_nearest.
Qed.

Lemma shift_other_cases i j x idx k e :
  k <> idx -> i <= j -> disjoint (range e) (mkRange i j) ->
  shift_other_element idx i j x (Z.of_nat x - Z.of_nat (j - i)) k e
  = shift_element i j x (Z.of_nat x - Z.of_nat (j - i)) e.
Proof.
  intros Hk Hij Hd. unfold shift_other_element, shift_element, disjoint in *. cbn in Hd.
  destruct (Nat.eqb_spec k idx); [done|].
  destruct (Nat.leb_spec (rend (range e)) i); [done|].
  by destruct (Nat.leb_spec j (rstart (range e))); [|lia].
Qed.

(** The elements but one, moved around the one that is replaced. *)
Lemma replaced_elements_ok a m b x l1 e l2 :
  elements_ok (a ++ m ++ b) (l1 ++ e :: l2) ->
  range e = mkRange (byte_len a) (byte_len a + byte_len m) ->
  let shifted := shift_element (byte_len a) (byte_len a + byte_len m) (byte_len x)
                   (Z.of_nat (byte_len x) - Z.of_nat (byte_len m)) in
  let new := mkElement (id e) (mkRange (byte_len a) (byte_len a + byte_len x)) (name e) in
  Forall (fun e => range_ok (a ++ x ++ b) (range e)) ((shifted <$> l1) ++ new :: (shifted <$> l2))
  /\ StronglySorted apart ((shifted <$> l1) ++ new :: (shifted <$> l2)).
Proof.
  intros [Hr Ho%ordered_apart] He shifted new.
  assert (forall l1' l2', (shifted <$> l1') ++ new :: (shifted <$> l2')
    ≡ₚ new :: (shifted <$> (l1' ++ l2'))) as Hp
    by (intros; rewrite fmap_app; symmetry; apply Permutation_middle).
  apply (sorted_apart_perm _ (e :: l1 ++ l2)) in Ho; [|by rewrite Permutation_middle].
  rewrite <- Permutation_middle in Hr. apply Forall_cons in Hr as [_ Hr].
  apply StronglySorted_inv in Ho as [Ho Hd].
  rewrite Forall_forall in Hr, Hd.
  assert (forall f, f ∈ l1 ++ l2 -> disjoint (range f) (mkRange (byte_len a) (byte_len a + byte_len m)))
    as Hdis by (intros f Hf; rewrite <- He; apply apart_sym, Hd, Hf).
  assert (range_ok (a ++ x ++ b) (range new)) as Hnew.
  { split_and!; cbn; [apply at_boundary_app| |lia].
    rewrite app_assoc, <- byte_len_app. apply at_boundary_app. }
  split.
  - rewrite Hp. constructor; [done|]. rewrite Forall_fmap, Forall_forall. intros f Hf.
    by apply (shift_payload a m b x f); [apply Hr|apply Hdis].
  - eapply sorted_apart_perm; [symmetry; apply Hp|]. constructor.
    + clear Hp Hd. induction Ho as [|f l Hl IH Hfl]; cbn; [constructor|].
      constructor; [apply IH; intros g Hg; [apply Hr|apply Hdis]; by right|].
      rewrite Forall_forall in Hfl. rewrite Forall_fmap, Forall_forall. intros g Hg.
      apply (shift_disjoint a m b x); [apply Hr; by left|apply Hr; by right|apply Hdis; by left|
        apply Hdis; by right|by apply Hfl].
    + rewrite Forall_fmap, Forall_forall. intros f Hf. apply apart_sym.
      by apply (shift_payload a m b x f); [apply Hr|apply Hdis].
Qed.

Lemma shift_element_same i j x e : shift_element i j x 0 e = e \/ ~ disjoint (range e) (mkRange i j).
Proof.
  unfold shift_element, disjoint. cbn. nat_cases; [by left|left|right; lia].
  unfold shift_pos, as_usize. rewrite !Z.add_0_r, !(proj2 (Z.ltb_ge _ _)), !Nat2Z.id by lia.
  by destruct e as [? [? ?] ?].
Qed.

Lemma imap_skip {A} (f : nat -> A -> A) (g : A -> A) idx l1 x l2 :
  length l1 = idx -> f idx x = x ->
  (forall k y, k <> idx -> y ∈ l1 ++ l2 -> f k y = g y) ->
  imap f (l1 ++ x :: l2) = (g <$> l1) ++ x :: (g <$> l2).
Proof.
  intros Hl Hx Hg. apply list_eq. intros k. rewrite list_lookup_imap.
  destruct (decide (k < idx)) as [Hlt|Hge].
  - rewrite !lookup_app_l by (rewrite ?length_fmap; lia). rewrite list_lookup_fmap.
    destruct (l1 !! k) as [y|] eqn:E; cbn; [|done]. f_equal. apply Hg; [lia|].
    apply elem_of_app. left. by eapply list_elem_of_lookup_2.
  - rewrite !lookup_app_r by (rewrite ?length_fmap; lia). rewrite length_fmap, Hl.
    rewrite !lookup_cons. destruct (k - idx) as [|n] eqn:En.
    { assert (k = idx) as -> by lia. cbn. by rewrite Hx. }
    rewrite list_lookup_fmap. destruct (l2 !! n) as [y|] eqn:E; cbn; [|done]. f_equal.
    apply Hg; [lia|]. apply elem_of_app. right. by eapply list_elem_of_lookup_2.
Qed.

Lemma renamed_elements_ok a m b x els idx e :
  elements_ok (a ++ m ++ b) els -> els !! idx = Some e ->
  range e = mkRange (byte_len a) (byte_len a + byte_len m) ->
  Forall (fun e => range_ok (a ++ x ++ b) (range e)) (renamed_elements els idx e (byte_len x))
  /\ StronglySorted apart (renamed_elements els idx e (byte_len x)).
Proof.
  intros Hok Hidx He. pose proof Hok as [_ Ho%ordered_apart].
  apply list_elem_of_split_length in Hidx as (l1 & l2 & -> & ->).
  pose proof (replaced_elements_ok _ _ _ x _ _ _ Hok He) as Hgoal. cbn zeta in Hgoal.
  assert (forall f, f ∈ l1 ++ l2 -> disjoint (range f) (mkRange (byte_len a) (byte_len a + byte_len m)))
    as Hdis.
  { apply (sorted_apart_perm _ (e :: l1 ++ l2)) in Ho; [|by rewrite Permutation_middle].
    apply StronglySorted_inv in Ho as [_ Hd]. rewrite Forall_forall in Hd.
    intros f Hf. rewrite <- He. by apply apart_sym, Hd. }
  unfold renamed_elements. rewrite He. cbn [rstart rend].
  replace (byte_len a + byte_len m - byte_len a) with (byte_len m) by lia.
  rewrite insert_app_r_alt, Nat.sub_diag by done. cbn [insert list_insert].
  set (shifted := shift_element _ _ _ _) in Hgoal.
  destruct (Z.eqb_spec (Z.of_nat (byte_len x) - Z.of_nat (byte_len m)) 0) as [Hz|Hz].
  - assert (forall l, (forall f, f ∈ l -> f ∈ l1 ++ l2) -> list_fmap _ _ shifted l = l) as Hid.
    { intros l Hl. rewrite <- (list_fmap_id l) at 2. apply list_fmap_ext.
      intros k f Hf%list_elem_of_lookup_2. cbn. unfold shifted. rewrite Hz.
      destruct (shift_element_same (byte_len a) (byte_len a + byte_len m) (byte_len x) f) as [?|Hn];
        [done|]. by destruct Hn; apply Hdis, Hl. }
    by rewrite !Hid in Hgoal by (intros; apply elem_of_app; auto).
  - rewrite (imap_skip _ shifted (length l1)); [done|done| |].
    + unfold shift_other_element. by rewrite Nat.eqb_refl.
    + intros k f Hk Hf. unfold shifted.
      pose proof (shift_other_cases (byte_len a) (byte_len a + byte_len m) (byte_len x)
        (length l1) k f Hk ltac:(lia) (Hdis _ Hf)) as Hs.
      by replace (byte_len a + byte_len m - byte_len a) with (byte_len m) in Hs by lia.
Qed.

Lemma replace_element_payload_inv old new s :
  inv s -> exists r s', replace_element_payload old new s = Some (r, s') /\ inv s'.
Proof.
  intros Hi. unfold replace_element_payload.
  destruct (list_find _ _) as [[idx e]|] eqn:E; [|by eauto].
  apply list_find_Some in E as (Hidx & Hp & _).
  pose proof (list_elem_of_lookup_2 _ _ _ Hidx) as Hin.
  pose proof (element_range_ok _ _ _ (inv_elements _ Hi) Hin) as Hr.
  destruct (range_split _ _ Hr) as (a & m & b & Ht & He).
  pose proof (inv_elements _ Hi) as Hok. rewrite Ht in Hok.
  destruct (renamed_elements_ok a m b new _ _ _ Hok Hidx He) as [P1 P2].
  destruct (_ || _); [by eauto|].
  assert (string_replace (text s) (range e) new = Some (a ++ new ++ b)) as ->
    by (rewrite Ht, He; apply string_replace_app).
  eexists _, _. split; [done|].
  match goal with |- inv (with_elements _ (with_cursor (clamp_pos_to_nearest_boundary ?s' ?p) _)) =>
    assert (elements_ok (text s') (sort_elements (elements s'))) as Hs'
      by (apply sort_elements_ok; [exact P1|exact P2]);
    assert (at_boundary (text s') (clamp_pos_to_nearest_boundary s' p)) as Hb end.
  { unfold clamp_pos_to_nearest_boundary. destruct (find_element_containing _ _); apply clamp_boundary. }
  split; [exact Hb|exact Hs'|done].
Qed.

(** ** One position left or right, and the wrapped lines *)

Context `{!TextEnvLaws}.

Lemma prev_atomic_boundary_ok s pos :
  elements_ok (text s) (elements s) -> at_boundary (text s) pos ->
  exists p, prev_atomic_boundary s pos = Some p /\ at_boundary (text s) p
    /\ clear (elements s) p /\ p <= pos /\ (0 < pos -> p < pos).
Proof.
  intros Hok Hb. unfold prev_atomic_boundary. destruct (Nat.eqb_spec pos 0) as [->|Hne].
  { exists 0. split_and!; [done|done|apply clear_0|lia|lia]. }
  destruct (List.find _ _) as [e|] eqn:E.
  { apply list_find_elem in E as [He Hin]. rewrite andb_true_iff, Nat.ltb_lt in Hin.
    destruct (element_range_ok _ _ _ Hok He) as (? & _ & _).
    destruct (clear_edges _ _ _ Hok He) as [? _].
    exists (rstart (range e)). split_and!; [done..|lia|lia]. }
  assert (is_Some (slice_to (text s) pos)) as [t ->]
    by (apply slice_is_Some; split_and!; [apply at_boundary_0|done|lia]).
  destruct (gc_prev_law (text s) pos Hb ltac:(lia)) as (b & -> & Hbb & Hlt). cbn.
  destruct (find_element_containing _ _) as [e|] eqn:E'.
  - apply find_element_Some in E' as [He Hin].
    destruct (element_range_ok _ _ _ Hok He) as (? & _ & _).
    destruct (clear_edges _ _ _ Hok He) as [? _].
    exists (rstart (range e)). split_and!; [done..|lia|lia].
  - exists b. split_and!; [done|done|by apply find_element_None|lia|lia].
Qed.

Lemma next_atomic_boundary_ok s pos :
  elements_ok (text s) (elements s) -> at_boundary (text s) pos ->
  exists p, next_atomic_boundary s pos = Some p /\ at_boundary (text s) p
    /\ clear (elements s) p /\ pos <= p.
Proof.
  intros Hok Hb. pose proof (at_boundary_le _ _ Hb). unfold next_atomic_boundary.
  destruct (Nat.leb_spec (byte_len (text s)) pos) as [Hle|Hlt].
  { exists (byte_len (text s)).
    split_and!; [done|apply at_boundary_len|by eapply clear_len|lia]. }
  destruct (List.find _ _) as [e|] eqn:E.
  { apply list_find_elem in E as [He Hin]. rewrite andb_true_iff, Nat.ltb_lt, Nat.leb_le in Hin.
    destruct (element_range_ok _ _ _ Hok He) as (_ & ? & _).
    destruct (clear_edges _ _ _ Hok He) as [_ ?].
    exists (rend (range e)). split_and!; [done..|lia]. }
  destruct (slice_from_is_Some _ _ Hb) as [t ->].
  destruct (gc_next_law (text s) pos Hb ltac:(lia)) as (b & -> & Hbb & Hlt'). cbn.
  destruct (find_element_containing _ _) as [e|] eqn:E'.
  - apply find_element_Some in E' as [He Hin].
    destruct (element_range_ok _ _ _ Hok He) as (_ & ? & _).
    destruct (clear_edges _ _ _ Hok He) as [_ ?].
    exists (rend (range e)). split_and!; [done..|lia].
  - exists b. split_and!; [done|done|by apply find_element_None|lia].
Qed.

Lemma cache_lines_ok s c : inv s -> wrap_cache s = Some c -> lines_ok (text s) (cache_lines c).
Proof.
  intros Hi Hc. apply (inv_cache _ Hi) in Hc.
  destruct (wrap_ranges_ok (text s) _ (textwrap_law (text s) (cache_width c))) as (lines & Hl & Hok).
  rewrite Hl in Hc. by injection Hc as <-.
Qed.

Lemma wrapped_lines_ok w s :
  inv s -> exists lines s', wrapped_lines w s = Some (lines, s')
    /\ kept s s' /\ cursor_pos s' = cursor_pos s /\ text s' = text s /\ lines_ok (text s) lines
    /\ wrap_cache s' = Some (mkWrapCache w lines).
Proof.
  intros Hi. unfold wrapped_lines.
  destruct (wrap_ranges_ok (text s) _ (textwrap_law (text s) w)) as (lines & Hl & Hok).
  assert (exists lines s',
    (lines ← wrap_ranges [] [] (text s) (textwrap (text s) w);
     Some (lines, with_wrap_cache (Some (mkWrapCache w lines)) s)) = Some (lines, s')
    /\ kept s s' /\ cursor_pos s' = cursor_pos s /\ text s' = text s /\ lines_ok (text s) lines
    /\ wrap_cache s' = Some (mkWrapCache w lines)) as Hnew.
  { rewrite Hl. cbn. eexists _, _. split_and!; [done| |done|done|done|done]. split.
    - split; [apply Hi|apply Hi|]. by intros c [= <-].
    - done.
    - done. }
  destruct (wrap_cache s) as [c|] eqn:Hc; [|exact Hnew].
  destruct (N.eqb_spec (cache_width c) w) as [<-|]; [|exact Hnew]. cbn.
  eexists _, _. split_and!; [done|by apply kept_refl|done|done|by apply cache_lines_ok|].
  rewrite Hc. by destruct c.
Qed.

End Kept.
