(* ===== verification/TextInput.v ===== *)
(** * Editing by keys

    [codex-rs/tui/src/bottom_pane/textarea.rs], the rest: movements by words
    and lines, kill and yank, the keys with and without Vim, scrolling, and
    the public operations as one type. *)

From S2P Require Import Prelude RustStr ByteStr Wrapping Keys TextArea.
#[local] Open Scope str_scope.
#[local] Arguments byte_len : simpl never.
#[local] Arguments len_utf8 : simpl never.
#[local] Arguments Nat.ltb : simpl never.

(** ** Words *)

(** The punctuation of ASCII but the underscore; 34 is the double quote. *)
Definition WORD_SEPARATORS : str := "`~!@#$%^&*()-=+[{]}\|;:'" ++ [34%N] ++ ",.<>/?".
Definition is_word_separator (ch : char) : bool := contains_char WORD_SEPARATORS ch.
#[local] Arguments is_word_separator : simpl never.

(** The inner loop of [split_word_pieces]: [chars] is what [char_indices] has
    left, from byte [idx] of the segment on. *)
Fixpoint split_segment (segment_start : nat) (segment : str) (piece_start idx : nat)
    (in_separator : bool) (chars : str) : option (list (nat * str)) :=
  match chars with
  | [] =>
      piece ← slice_from segment piece_start;
      Some [(segment_start + piece_start, piece)]
  | ch :: chars =>
      let next := idx + len_utf8 ch in
      if Bool.eqb (is_word_separator ch) in_separator then
        split_segment segment_start segment piece_start next in_separator chars
      else
        piece ← slice segment piece_start idx;
        pieces ← split_segment segment_start segment idx next (is_word_separator ch) chars;
        Some ((segment_start + piece_start, piece) :: pieces)
  end.

Section Words.
Context `{TextEnv}.

Fixpoint split_segments (segments : list (nat * str)) : option (list (nat * str)) :=
  match segments with
  | [] => Some []
  | (segment_start, segment) :: segments =>
      pieces ←
        (match segment with
         | [] => Some []
         | first_char :: chars =>
             split_segment segment_start segment 0 (len_utf8 first_char)
               (is_word_separator first_char) chars
         end);
      rest ← split_segments segments;
      Some (pieces ++ rest)
  end.

Definition split_word_pieces (run : str) : option (list (nat * str)) :=
  split_segments (split_word_bound_indices run).

Definition not_whitespace (c : char) : bool := negb (is_whitespace c).

(** The pieces before [start], the nearest first. *)
Fixpoint back_over_separators (run_start : nat) (pieces : list (nat * str)) (start : nat) : nat :=
  match pieces with
  | (idx, piece) :: pieces =>
      if forallb is_word_separator piece
      then back_over_separators run_start pieces (run_start + idx) else start
  | [] => start
  end.

Definition beginning_of_previous_word (s : TextArea) : option nat :=
  prefix ← slice_to (text s) (cursor_pos s);
  match rfind_char not_whitespace prefix with
  | None => Some 0
  | Some (first_non_ws_idx, ch) =>
      before ← slice_to prefix first_non_ws_idx;
      let run_start :=
        match rfind_char is_whitespace before with
        | Some (idx, ch) => idx + len_utf8 ch
        | None => 0
        end in
      let run_end := first_non_ws_idx + len_utf8 ch in
      run ← slice prefix run_start run_end;
      pieces ← split_word_pieces run;
      match reverse pieces with
      | [] => Some run_start
      | (piece_start, piece) :: pieces =>
          let start := run_start + piece_start in
          let start := if forallb is_word_separator piece
                       then back_over_separators run_start pieces start else start in
          Some (adjust_pos_out_of_elements s start true)
      end
  end.

Fixpoint over_separators (run_start : nat) (pieces : list (nat * str)) (stop : nat) : nat :=
  match pieces with
  | (idx, piece) :: pieces =>
      if forallb is_word_separator piece
      then over_separators run_start pieces (run_start + idx + byte_len piece) else stop
  | [] => stop
  end.

Definition end_of_next_word (s : TextArea) : option nat :=
  suffix ← slice_from (text s) (cursor_pos s);
  match find not_whitespace suffix with
  | None => Some (byte_len (text s))
  | Some first_non_ws =>
      run ← slice_from suffix first_non_ws;
      run ← slice_to run (default (byte_len run) (find is_whitespace run));
      pieces ← split_word_pieces run;
      match pieces with
      | [] => Some (cursor_pos s + first_non_ws)
      | (start, piece) :: pieces =>
          let word_start := cursor_pos s + first_non_ws + start in
          let stop := word_start + byte_len piece in
          let stop := if forallb is_word_separator piece
                      then over_separators (cursor_pos s + first_non_ws) pieces stop else stop in
          Some (adjust_pos_out_of_elements s stop false)
      end
  end.

Definition beginning_of_next_word (s : TextArea) : option nat :=
  suffix ← slice_from (text s) (cursor_pos s);
  match find not_whitespace suffix with
  | None => Some (byte_len (text s))
  | Some first_non_ws =>
      let word_start := cursor_pos s + first_non_ws in
      if negb (word_start =? cursor_pos s)
      then Some (adjust_pos_out_of_elements s word_start true)
      else
        stop ← end_of_next_word s;
        if byte_len (text s) <=? stop then Some (byte_len (text s))
        else
          rest ← slice_from (text s) stop;
          match find not_whitespace rest with
          | None => Some (byte_len (text s))
          | Some next_non_ws => Some (adjust_pos_out_of_elements s (stop + next_non_ws) true)
          end
  end.

Definition vim_word_end_cursor (s : TextArea) : option nat :=
  stop ← end_of_next_word s;
  if cursor_pos s <? stop then prev_atomic_boundary s stop else Some stop.

(** ** Lines *)

Definition is_nl (c : char) : bool := (c =? NL)%N.

Definition beginning_of_line (s : TextArea) (pos : nat) : option nat :=
  prefix ← slice_to (text s) pos;
  Some (match rfind is_nl prefix with Some i => i + 1 | None => 0 end).
Definition beginning_of_current_line (s : TextArea) : option nat :=
  beginning_of_line s (cursor_pos s).

Definition end_of_line (s : TextArea) (pos : nat) : option nat :=
  suffix ← slice_from (text s) pos;
  Some (match find is_nl suffix with Some i => i + pos | None => byte_len (text s) end).
Definition end_of_current_line (s : TextArea) : option nat := end_of_line s (cursor_pos s).

Definition first_non_blank_of_current_line (s : TextArea) : option nat :=
  bol ← beginning_of_current_line s;
  eol ← end_of_current_line s;
  line ← slice (text s) bol eol;
  Some (match find not_whitespace line with Some offset => bol + offset | None => eol end).

(** [eol + 1] when a newline follows. *)
Definition past_newline (s : TextArea) (eol : nat) : nat :=
  if eol <? byte_len (text s) then eol + 1 else eol.

Definition current_line_range_with_newline (s : TextArea) : option Range :=
  bol ← beginning_of_current_line s;
  eol ← end_of_current_line s;
  Some (mkRange bol (past_newline s eol)).

Definition vim_line_end_cursor (s : TextArea) : option nat :=
  bol ← beginning_of_current_line s;
  eol ← end_of_current_line s;
  if bol <? eol then p ← prev_atomic_boundary s eol; Some (Nat.max p bol) else Some eol.

Definition current_display_col (s : TextArea) : option nat :=
  bol ← beginning_of_current_line s;
  before ← slice (text s) bol (cursor_pos s);
  Some (width before).

(** [wrapped_line_index_by_start]: [partition_point] of lines in order. *)
Fixpoint partition_point (lines : list Range) (pos : nat) : nat :=
  match lines with
  | r :: lines => if rstart r <=? pos then S (partition_point lines pos) else 0
  | [] => 0
  end.
Definition wrapped_line_index_by_start (lines : list Range) (pos : nat) : option nat :=
  match partition_point lines pos with 0 => None | S idx => Some idx end.

(** The loop of [move_to_display_col_on_line]: the first grapheme that passes
    the column. *)
Fixpoint column_offset (graphemes : list (nat * str)) (width_so_far target_col : nat)
  : option nat :=
  match graphemes with
  | [] => None
  | (i, g) :: graphemes =>
      let width_so_far := width_so_far + width g in
      if target_col <? width_so_far then Some i
      else column_offset graphemes width_so_far target_col
  end.

Definition move_to_display_col_on_line (line_start line_end target_col : nat) (s : TextArea)
  : option TextArea :=
  line ← slice (text s) line_start line_end;
  let pos := match column_offset (grapheme_indices line) 0 target_col with
             | Some i => line_start + i
             | None => line_end
             end in
  let s := with_cursor pos s in
  Some (with_cursor (clamp_pos_to_nearest_boundary s (cursor_pos s)) s).

Definition move_cursor_left (s : TextArea) : option TextArea :=
  p ← prev_atomic_boundary s (cursor_pos s);
  Some (with_preferred_col None (with_cursor p s)).
Definition move_cursor_right (s : TextArea) : option TextArea :=
  p ← next_atomic_boundary s (cursor_pos s);
  Some (with_preferred_col None (with_cursor p s)).

(** What the wrapping cache says of the cursor: the column to keep and the
    visual line [up] or down of it, when there is one.  [None] inside when
    there is no cache or no line starts before the cursor. *)
Definition visual_target (up : bool) (s : TextArea) : option (option (nat * option (nat * nat))) :=
  match wrap_cache s with
  | None => Some None
  | Some cache =>
      let lines := cache_lines cache in
      match wrapped_line_index_by_start lines (cursor_pos s) with
      | None => Some None
      | Some idx =>
          cur_range ← lines !! idx;
          target_col ←
            (match preferred_col s with
             | Some c => Some c
             | None => before ← slice (text s) (rstart cur_range) (cursor_pos s); Some (width before)
             end);
          if up then
            (if 0 <? idx then
               prev ← lines !! (idx - 1);
               Some (Some (target_col, Some (rstart prev, rend prev - 1)))
             else Some (Some (target_col, None)))
          else
            (if idx + 1 <? length lines then
               next ← lines !! (idx + 1);
               Some (Some (target_col, Some (rstart next, rend next - 1)))
             else Some (Some (target_col, None)))
      end
  end.

(** [if self.preferred_col.is_none() { self.preferred_col = Some(col) }] *)
Definition keep_col (col : nat) (s : TextArea) : TextArea :=
  match preferred_col s with None => with_preferred_col (Some col) s | Some _ => s end.

(** [preferred_col], or the column of the cursor, then kept. *)
Definition preferred_or_current (s : TextArea) : option (nat * TextArea) :=
  match preferred_col s with
  | Some c => Some (c, s)
  | None => c ← current_display_col s; Some (c, with_preferred_col (Some c) s)
  end.

Definition move_cursor_up (s : TextArea) : option TextArea :=
  target ← visual_target true s;
  match target with
  | Some (target_col, Some (line_start, line_end)) =>
      move_to_display_col_on_line line_start line_end target_col (keep_col target_col s)
  | Some (_, None) => Some (with_preferred_col None (with_cursor 0 s))
  | None =>
      prefix ← slice_to (text s) (cursor_pos s);
      match rfind is_nl prefix with
      | Some prev_nl =>
          '(target_col, s) ← preferred_or_current s;
          before ← slice_to (text s) prev_nl;
          let prev_line_start := match rfind is_nl before with Some i => i + 1 | None => 0 end in
          move_to_display_col_on_line prev_line_start prev_nl target_col s
      | None => Some (with_preferred_col None (with_cursor 0 s))
      end
  end.

Definition move_cursor_down (s : TextArea) : option TextArea :=
  target ← visual_target false s;
  match target with
  | Some (target_col, Some (line_start, line_end)) =>
      move_to_display_col_on_line line_start line_end target_col (keep_col target_col s)
  | Some (_, None) => Some (with_preferred_col None (with_cursor (byte_len (text s)) s))
  | None =>
      '(target_col, s) ← preferred_or_current s;
      suffix ← slice_from (text s) (cursor_pos s);
      match find is_nl suffix with
      | Some i =>
          let next_line_start := i + cursor_pos s + 1 in
          rest ← slice_from (text s) next_line_start;
          let next_line_end :=
            match find is_nl rest with Some i => i + next_line_start | None => byte_len (text s) end in
          move_to_display_col_on_line next_line_start next_line_end target_col s
      | None => Some (with_preferred_col None (with_cursor (byte_len (text s)) s))
      end
  end.

Definition move_cursor_to_beginning_of_line (move_up_at_bol : bool) (s : TextArea)
  : option TextArea :=
  bol ← beginning_of_current_line s;
  s ← (if move_up_at_bol && (cursor_pos s =? bol)
       then p ← beginning_of_line s (cursor_pos s - 1); Some (set_cursor p s)
       else Some (set_cursor bol s));
  Some (with_preferred_col None s).

Definition move_cursor_to_end_of_line (move_down_at_eol : bool) (s : TextArea)
  : option TextArea :=
  eol ← end_of_current_line s;
  if move_down_at_eol && (cursor_pos s =? eol) then
    let next_pos := Nat.min (cursor_pos s + 1) (byte_len (text s)) in
    p ← end_of_line s next_pos; Some (set_cursor p s)
  else Some (set_cursor eol s).

(** ** Kill and yank *)

Definition kill_range_with_kind (r : Range) (k : KillBufferKind) (s : TextArea)
  : option TextArea :=
  let r := expand_range_to_element_boundaries s r in
  if rend r <=? rstart r then Some s
  else
    removed ← slice_range (text s) r;
    if is_empty removed then Some s
    else replace_range_raw r [] (store_kill_buffer removed k s).
Definition kill_range (r : Range) : TextArea -> option TextArea :=
  kill_range_with_kind r Characterwise.
Definition kill_line_range (r : Range) : TextArea -> option TextArea :=
  kill_range_with_kind r Linewise.

Definition yank_range_with_kind (r : Range) (k : KillBufferKind) (s : TextArea)
  : option TextArea :=
  let r := expand_range_to_element_boundaries s r in
  if rend r <=? rstart r then Some s
  else
    removed ← slice_range (text s) r;
    if is_empty removed then Some s else Some (store_kill_buffer removed k s).
Definition yank_range (r : Range) : TextArea -> option TextArea :=
  yank_range_with_kind r Characterwise.
Definition yank_line_range (r : Range) : TextArea -> option TextArea :=
  yank_range_with_kind r Linewise.

(** [for _ in 0..n { target = step(target); if stop(target) { break } }] *)
Fixpoint repeat_boundary (n : nat) (step : nat -> option nat) (stop : nat -> bool) (target : nat)
  : option nat :=
  match n with
  | 0 => Some target
  | S n =>
      target ← step target;
      if stop target then Some target else repeat_boundary n step stop target
  end.

Definition delete_backward (n : nat) (s : TextArea) : option TextArea :=
  if (n =? 0) || (cursor_pos s =? 0) then Some s
  else
    target ← repeat_boundary n (prev_atomic_boundary s) (fun t => t =? 0) (cursor_pos s);
    replace_range (mkRange target (cursor_pos s)) [] s.

Definition forward_target (n : nat) (s : TextArea) : option nat :=
  repeat_boundary n (next_atomic_boundary s) (fun t => byte_len (text s) <=? t) (cursor_pos s).

Definition delete_forward (n : nat) (s : TextArea) : option TextArea :=
  if (n =? 0) || (byte_len (text s) <=? cursor_pos s) then Some s
  else
    target ← forward_target n s;
    replace_range (mkRange (cursor_pos s) target) [] s.

Definition delete_forward_kill (n : nat) (s : TextArea) : option TextArea :=
  if (n =? 0) || (byte_len (text s) <=? cursor_pos s) then Some s
  else
    target ← forward_target n s;
    kill_range (mkRange (cursor_pos s) target) s.

Definition delete_backward_word (s : TextArea) : option TextArea :=
  start ← beginning_of_previous_word s;
  kill_range (mkRange start (cursor_pos s)) s.

Definition delete_forward_word (s : TextArea) : option TextArea :=
  stop ← end_of_next_word s;
  if cursor_pos s <? stop then kill_range (mkRange (cursor_pos s) stop) s else Some s.

Definition kill_to_end_of_line (s : TextArea) : option TextArea :=
  eol ← end_of_current_line s;
  let r :=
    if cursor_pos s =? eol then
      (if eol <? byte_len (text s) then Some (mkRange (cursor_pos s) (eol + 1)) else None)
    else Some (mkRange (cursor_pos s) eol) in
  match r with Some r => kill_range r s | None => Some s end.

Definition kill_to_beginning_of_line (s : TextArea) : option TextArea :=
  bol ← beginning_of_current_line s;
  let r :=
    if cursor_pos s =? bol then
      (if 0 <? bol then Some (mkRange (bol - 1) bol) else None)
    else Some (mkRange bol (cursor_pos s)) in
  match r with Some r => kill_range r s | None => Some s end.

Definition yank_current_line (s : TextArea) : option TextArea :=
  r ← current_line_range_with_newline s; yank_line_range r s.
Definition kill_current_line (s : TextArea) : option TextArea :=
  r ← current_line_range_with_newline s; kill_line_range r s.

Definition yank (s : TextArea) : option TextArea :=
  if is_empty (kill_buffer s) then Some s else insert_str (kill_buffer s) s.

Definition paste_line_after_current_line (s : TextArea) : option TextArea :=
  eol ← end_of_current_line s;
  let inner := eol <? byte_len (text s) in
  let insert_at := if inner then eol + 1 else eol in
  let cursor := if inner then insert_at else insert_at + 1 in
  let t :=
    if inner then
      (if ends_with (kill_buffer s) [NL] then kill_buffer s else kill_buffer s ++ [NL])
    else [NL] ++ trim_end_matches is_nl (kill_buffer s) in
  s ← insert_str_at insert_at t s;
  Some (set_cursor (Nat.min cursor (byte_len (text s))) s).

Definition paste_after_cursor (s : TextArea) : option TextArea :=
  if is_empty (kill_buffer s) then Some s
  else match kill_buffer_kind s with
       | Linewise => paste_line_after_current_line s
       | Characterwise =>
           insert_at ← next_atomic_boundary s (cursor_pos s);
           insert_str (kill_buffer s) (set_cursor insert_at s)
       end.

(** ** Keys without Vim *)

(** [if keymap.a.is_pressed(event) { ...; return; } if keymap.b ...]: the
    first action one of whose bindings is pressed. *)
Fixpoint first_pressed {A} (e : KeyEvent) (actions : list (list KeyBinding * A)) : option A :=
  match actions with
  | [] => None
  | (bindings, action) :: actions =>
      if is_pressed bindings e then Some action else first_pressed e actions
  end.

Definition ctrl_char (e : KeyEvent) (c : char) : bool :=
  bool_decide (code e = Char c) && (modifiers e =? CONTROL)%N.

Definition move_by (p : TextArea -> option nat) (s : TextArea) : option TextArea :=
  p ← p s; Some (set_cursor p s).

(** The actions in the order they are tried, before and after AltGr. *)
Definition early_actions (m : EditorKeymap) : list (list KeyBinding * (TextArea -> option TextArea)) :=
  [(Editor.insert_newline m, insert_str [NL]);
   (Editor.delete_backward_word m, delete_backward_word)].

Definition late_actions (m : EditorKeymap) (e : KeyEvent)
  : list (list KeyBinding * (TextArea -> option TextArea)) :=
  [(Editor.delete_backward m, delete_backward 1);
   (Editor.delete_forward_word m, delete_forward_word);
   (Editor.delete_forward m, delete_forward 1);
   (Editor.kill_line_start m, kill_to_beginning_of_line);
   (Editor.kill_whole_line m, kill_current_line);
   (Editor.kill_line_end m, kill_to_end_of_line);
   (Editor.yank m, yank);
   (Editor.move_word_left m, move_by beginning_of_previous_word);
   (Editor.move_word_right m, move_by end_of_next_word);
   (Editor.move_left m, move_cursor_left);
   (Editor.move_right m, move_cursor_right);
   (Editor.move_up m, move_cursor_up);
   (Editor.move_down m, move_cursor_down);
   (Editor.move_line_start m, move_cursor_to_beginning_of_line (ctrl_char e 97));
   (Editor.move_line_end m, move_cursor_to_end_of_line (ctrl_char e 101))].

Definition insert_typed (e : KeyEvent) (s : TextArea) : option TextArea :=
  match code e with
  | Char c =>
      if (modifiers e =? NONE)%N || (modifiers e =? SHIFT)%N then
        if is_ascii_control c then Some s else insert_str [c] s
      else Some s
  | _ => Some s
  end.

Definition input_with_keymap (windows : bool) (e : KeyEvent) (m : EditorKeymap) (s : TextArea)
  : option TextArea :=
  match first_pressed e (early_actions m) with
  | Some action => action s
  | None =>
      match code e, is_altgr windows (modifiers e) with
      | Char c, true => insert_str [c] s
      | _, _ =>
          match first_pressed e (late_actions m e) with
          | Some action => action s
          | None => insert_typed e s
          end
      end
  end.

(** ** Keys in Vim mode *)

Inductive VimMotion :=
| MLeft | MRight | MUp | MDown | MWordForward | MWordBackward | MWordEnd | MLineStart | MLineEnd.

Definition vim_motion_for_event (s : TextArea) (e : KeyEvent) : option VimMotion :=
  let m := vim_operator_keymap s in
  first_pressed e
    [(VimOp.motion_left m, MLeft); (VimOp.motion_right m, MRight);
     (VimOp.motion_down m, MDown); (VimOp.motion_up m, MUp);
     (VimOp.motion_word_forward m, MWordForward); (VimOp.motion_word_backward m, MWordBackward);
     (VimOp.motion_word_end m, MWordEnd); (VimOp.motion_line_start m, MLineStart);
     (VimOp.motion_line_end m, MLineEnd)].

(** [(range.start < range.end).then_some(range)] *)
Definition nonempty_range (r : Range) : option Range :=
  if rstart r <? rend r then Some r else None.

Definition linewise_range_for_vertical_motion (m : VimMotion) (s : TextArea)
  : option (option Range) :=
  current ← current_line_range_with_newline s;
  match m with
  | MUp =>
      start ← (if rstart current =? 0 then Some (rstart current)
               else beginning_of_line s (rstart current - 1));
      Some (nonempty_range (mkRange start (rend current)))
  | MDown =>
      stop ← (if byte_len (text s) <=? rend current then Some (rend current)
              else next_eol ← end_of_line s (rend current); Some (past_newline s next_eol));
      Some (nonempty_range (mkRange (rstart current) stop))
  | _ => Some None
  end.

Definition run_motion (m : VimMotion) : TextArea -> option TextArea :=
  match m with
  | MLeft => move_cursor_left
  | MRight => move_cursor_right
  | MUp => move_cursor_up
  | MDown => move_cursor_down
  | MWordForward => move_by beginning_of_next_word
  | MWordBackward => move_by beginning_of_previous_word
  | MWordEnd => move_by end_of_next_word
  | MLineStart => move_by beginning_of_current_line
  | MLineEnd => move_by end_of_current_line
  end.

(** Moves the cursor, reads it, and puts it and the column back. *)
Definition target_for_motion (m : VimMotion) (s : TextArea) : option (nat * TextArea) :=
  s' ← run_motion m s;
  Some (cursor_pos s',
        with_preferred_col (preferred_col s) (with_cursor (cursor_pos s) s')).

Definition range_for_motion (m : VimMotion) (s : TextArea) : option (option Range * TextArea) :=
  match m with
  | MUp | MDown => r ← linewise_range_for_vertical_motion m s; Some (r, s)
  | _ =>
      let start := cursor_pos s in
      '(target, s) ← target_for_motion m s;
      Some (if start =? target then None
            else Some (if target <? start then mkRange target start else mkRange start target), s)
  end.

Definition apply_vim_operator (op : VimOperator) (m : VimMotion) (s : TextArea)
  : option TextArea :=
  '(r, s) ← range_for_motion m s;
  match r with
  | None => Some s
  | Some r => match op with OpDelete => kill_range r s | OpYank => yank_range r s end
  end.

Definition is_delete (op : VimOperator) : bool := match op with OpDelete => true | OpYank => false end.

Definition handle_vim_operator (op : VimOperator) (e : KeyEvent) (s : TextArea)
  : option TextArea :=
  if is_delete op && is_pressed (VimOp.delete_line (vim_operator_keymap s)) e
  then kill_current_line s
  else if negb (is_delete op) && is_pressed (VimOp.yank_line (vim_operator_keymap s)) e
  then yank_current_line s
  else if is_pressed (VimOp.cancel (vim_operator_keymap s)) e then Some s
  else match vim_motion_for_event s e with
       | Some motion => apply_vim_operator op motion s
       | None => Some s
       end.

Definition with_mode (m : VimMode) (s : TextArea) : TextArea :=
  with_vim (vim_enabled s) m (vim_operator s) s.
Definition with_operator (op : option VimOperator) (s : TextArea) : TextArea :=
  with_vim (vim_enabled s) (vim_mode s) op s.

Definition open_line_below (s : TextArea) : option TextArea :=
  eol ← end_of_current_line s;
  let insert_at := past_newline s eol in
  s ← insert_str_at insert_at [NL] s;
  let cursor := if eol <? byte_len (text s) then insert_at else insert_at + 1 in
  Some (with_mode Insert (set_cursor cursor s)).

Definition open_line_above (s : TextArea) : option TextArea :=
  bol ← beginning_of_current_line s;
  s ← insert_str_at bol [NL] s;
  Some (with_mode Insert (set_cursor bol s)).

Definition then_insert (act : TextArea -> option TextArea) (s : TextArea) : option TextArea :=
  s ← act s; Some (with_mode Insert s).

Definition vim_normal_actions (m : VimNormalKeymap)
  : list (list KeyBinding * (TextArea -> option TextArea)) :=
  [(VimNormal.enter_insert m, then_insert Some);
   (VimNormal.append_after_cursor m,
     then_insert (move_by (fun s => next_atomic_boundary s (cursor_pos s))));
   (VimNormal.append_line_end m, then_insert (move_by end_of_current_line));
   (VimNormal.insert_line_start m, then_insert (move_by first_non_blank_of_current_line));
   (VimNormal.open_line_below m, open_line_below);
   (VimNormal.open_line_above m, open_line_above);
   (VimNormal.move_left m, move_cursor_left);
   (VimNormal.move_right m, move_cursor_right);
   (VimNormal.move_down m, move_cursor_down);
   (VimNormal.move_up m, move_cursor_up);
   (VimNormal.move_word_forward m, move_by beginning_of_next_word);
   (VimNormal.move_word_backward m, move_by beginning_of_previous_word);
   (VimNormal.move_word_end m, move_by vim_word_end_cursor);
   (VimNormal.move_line_start m, move_by beginning_of_current_line);
   (VimNormal.move_line_end m, move_by vim_line_end_cursor);
   (VimNormal.delete_char m, delete_forward_kill 1);
   (VimNormal.delete_to_line_end m, kill_to_end_of_line);
   (VimNormal.yank_line m, yank_current_line);
   (VimNormal.paste_after m, paste_after_cursor);
   (VimNormal.start_delete_operator m, fun s => Some (with_operator (Some OpDelete) s));
   (VimNormal.start_yank_operator m, fun s => Some (with_operator (Some OpYank) s));
   (VimNormal.cancel_operator m, fun s => Some (with_operator None s))].

Definition handle_vim_normal (e : KeyEvent) (s : TextArea) : option TextArea :=
  match vim_operator s with
  | Some op => handle_vim_operator op e (with_operator None s)
  | None =>
      match first_pressed e (vim_normal_actions (vim_normal_keymap s)) with
      | Some action => action s
      | None => Some s
      end
  end.

Definition vim_escape (s : TextArea) : option TextArea :=
  bol ← beginning_of_current_line s;
  s ← (if bol <? cursor_pos s
       then p ← prev_atomic_boundary s (cursor_pos s); Some (with_cursor (Nat.max p bol) s)
       else Some s);
  Some (enter_vim_normal_mode s).

Definition handle_vim_insert (windows : bool) (e : KeyEvent) (s : TextArea) : option TextArea :=
  if bool_decide (code e = Esc) then vim_escape s
  else input_with_keymap windows e (editor_keymap s) s.

Definition input (windows : bool) (e : KeyEvent) (s : TextArea) : option TextArea :=
  if negb (is_press_or_repeat e) then Some s
  else if vim_enabled s then
    match vim_mode s with
    | Insert => handle_vim_insert windows e s
    | Normal => handle_vim_normal e s
    end
  else input_with_keymap windows e (editor_keymap s) s.

(** ** Scrolling *)

(** [as u16], and [u16] addition: [None] on overflow, where a release build
    wraps. *)
Definition u16 (n : nat) : N := (N.of_nat n mod 65536)%N.
Definition u16_add (a b : N) : option N := if (a + b <? 65536)%N then Some (a + b)%N else None.

Definition effective_scroll (s : TextArea) (area_height : N) (lines : list Range)
    (current_scroll : N) : option N :=
  let total_lines := u16 (length lines) in
  if (total_lines <=? area_height)%N then Some 0%N
  else
    let cursor_line_idx := u16 (default 0 (wrapped_line_index_by_start lines (cursor_pos s))) in
    let max_scroll := (total_lines - area_height)%N in
    let scroll := N.min current_scroll max_scroll in
    if (cursor_line_idx <? scroll)%N then Some cursor_line_idx
    else
      bottom ← u16_add scroll area_height;
      if (bottom <=? cursor_line_idx)%N then
        next ← u16_add cursor_line_idx 1; Some (next - area_height)%N
      else Some scroll.

(** [cursor_pos_with_state] up to the addition of the area's origin: the
    column and the row inside the area. *)
Definition cursor_cell (s : TextArea) (area_width area_height scroll : N)
  : option (option (N * N) * TextArea) :=
  '(lines, s) ← wrapped_lines area_width s;
  effective ← effective_scroll s area_height lines scroll;
  match wrapped_line_index_by_start lines (cursor_pos s) with
  | None => Some (None, s)
  | Some i =>
      ls ← lines !! i;
      before ← slice (text s) (rstart ls) (cursor_pos s);
      let row := (N.of_nat i - effective)%N in
      Some (Some (u16 (width before), if (row <? 65536)%N then row else 0%N), s)
  end.

Definition desired_height (w : N) (s : TextArea) : option (N * TextArea) :=
  '(lines, s) ← wrapped_lines w s; Some (u16 (length lines), s).

(** ** The public operations *)

Inductive Op :=
| SetText (t : str) (els : option (list Range))
| InsertStr (t : str)
| InsertStrAt (pos : nat) (t : str)
| ReplaceRange (r : Range) (t : str)
| SetCursor (pos : nat)
| Input (windows : bool) (e : KeyEvent)
| InputWithKeymap (windows : bool) (e : KeyEvent) (m : EditorKeymap)
| DeleteBackward (n : nat)
| DeleteForward (n : nat)
| DeleteForwardKill (n : nat)
| DeleteBackwardWord
| DeleteForwardWord
| KillToEndOfLine
| KillToBeginningOfLine
| YankOp
| MoveLeft
| MoveRight
| MoveUp
| MoveDown
| MoveToBeginningOfLine (up_at_bol : bool)
| MoveToEndOfLine (down_at_eol : bool)
| ReplaceElementPayload (old new : str)
| InsertElement (t : str)
| InsertNamedElement (t nm : str)
| ReplaceElementById (nm t : str)
| UpdateNamedElementById (nm t : str)
| AddElementRange (r : Range)
| RemoveElementRange (r : Range)
| SetVimEnabled (enabled : bool)
| EnterVimInsertMode
| EnterVimNormalMode
| SetKeymapBindings (e : EditorKeymap) (n : VimNormalKeymap) (o : VimOperatorKeymap)
| Wrap (w : N).

Definition apply_op (op : Op) (s : TextArea) : option TextArea :=
  match op with
  | SetText t els => Some (set_text_inner t els s)
  | InsertStr t => insert_str t s
  | InsertStrAt pos t => insert_str_at pos t s
  | ReplaceRange r t => replace_range r t s
  | SetCursor pos => Some (set_cursor pos s)
  | Input w e => input w e s
  | InputWithKeymap w e m => input_with_keymap w e m s
  | DeleteBackward n => delete_backward n s
  | DeleteForward n => delete_forward n s
  | DeleteForwardKill n => delete_forward_kill n s
  | DeleteBackwardWord => delete_backward_word s
  | DeleteForwardWord => delete_forward_word s
  | KillToEndOfLine => kill_to_end_of_line s
  | KillToBeginningOfLine => kill_to_beginning_of_line s
  | YankOp => yank s
  | MoveLeft => move_cursor_left s
  | MoveRight => move_cursor_right s
  | MoveUp => move_cursor_up s
  | MoveDown => move_cursor_down s
  | MoveToBeginningOfLine b => move_cursor_to_beginning_of_line b s
  | MoveToEndOfLine b => move_cursor_to_end_of_line b s
  | ReplaceElementPayload old new => snd <$> replace_element_payload old new s
  | InsertElement t => snd <$> insert_element t s
  | InsertNamedElement t nm => insert_named_element t nm s
  | ReplaceElementById nm t => snd <$> replace_element_by_id nm t s
  | UpdateNamedElementById nm t => snd <$> update_named_element_by_id nm t s
  | AddElementRange r => Some (snd (add_element_range r s))
  | RemoveElementRange r => Some (snd (remove_element_range r s))
  | SetVimEnabled b => Some (set_vim_enabled b s)
  | EnterVimInsertMode => Some (enter_vim_insert_mode s)
  | EnterVimNormalMode => Some (enter_vim_normal_mode s)
  | SetKeymapBindings e n o => Some (set_keymap_bindings e n o s)
  | Wrap w => snd <$> wrapped_lines w s
  end.

(** ** Positions are boundaries *)

Context `{!TextEnvLaws}.

Lemma slice_to_ok t pos :
  at_boundary t pos ->
  exists a b, slice_to t pos = Some a /\ t = a ++ b /\ byte_len a = pos.
Proof.
  intros (a & b & -> & <-). exists a, b. split_and!; [|done|done].
  apply slice_Some. by exists [], b.
Qed.

Lemma slice_from_ok t pos :
  at_boundary t pos ->
  exists a b, slice_from t pos = Some b /\ t = a ++ b /\ byte_len a = pos.
Proof.
  intros (a & b & -> & <-). exists a, b. split_and!; [|done|done].
  apply suffix_from_Some. by exists a.
Qed.

Lemma beginning_of_line_ok s pos :
  at_boundary (text s) pos ->
  exists p, beginning_of_line s pos = Some p /\ at_boundary (text s) p /\ p <= pos
    /\ (0 < p -> exists a b, text s = a ++ NL :: b /\ byte_len a = p - 1).
Proof.
  intros Hb. unfold beginning_of_line.
  destruct (slice_to_ok _ _ Hb) as (a & b & -> & Ht & Ha). cbn. unfold rfind.
  destruct (rfind_char is_nl a) as [[i c]|] eqn:E; cbn.
  - pose proof (rfind_char_boundary _ _ _ _ E) as (Hi & Hi' & Hc).
    apply N.eqb_eq in Hc as ->. change (len_utf8 NL) with 1 in Hi'.
    exists (i + 1). split_and!; [done| | |].
    + rewrite Ht. by apply at_boundary_app_l.
    + apply at_boundary_le in Hi'. lia.
    + intros _. apply rfind_char_Some in E as (x & y & -> & <- & _).
      exists x, (y ++ b). rewrite Ht, <- app_assoc. split; [done|lia].
  - exists 0. split_and!; [done|apply at_boundary_0|lia|lia].
Qed.

Lemma end_of_line_ok s pos :
  at_boundary (text s) pos ->
  exists p, end_of_line s pos = Some p /\ at_boundary (text s) p /\ pos <= p
    /\ (p < byte_len (text s) -> at_boundary (text s) (p + 1)).
Proof.
  intros Hb. unfold end_of_line.
  destruct (slice_from_ok _ _ Hb) as (a & b & -> & Ht & Ha). cbn. unfold find.
  destruct (find_char is_nl b) as [[i c]|] eqn:E; cbn.
  - apply find_char_boundary in E as (Hi & Hi' & Hc).
    apply N.eqb_eq in Hc as ->. change (len_utf8 NL) with 1 in Hi'.
    apply (at_boundary_app_r a) in Hi, Hi'. rewrite Ha, <- Ht in Hi, Hi'.
    rewrite Nat.add_comm in Hi. rewrite Nat.add_assoc, (Nat.add_comm pos) in Hi'.
    exists (i + pos). split_and!; [done|done|lia|done].
  - exists (byte_len (text s)). split_and!; [done|apply at_boundary_len|by apply at_boundary_le|lia].
Qed.

Lemma past_newline_ok s eol :
  at_boundary (text s) eol -> (eol < byte_len (text s) -> at_boundary (text s) (eol + 1)) ->
  at_boundary (text s) (past_newline s eol) /\ eol <= past_newline s eol.
Proof.
  intros H1 H2. unfold past_newline. destruct (Nat.ltb_spec eol (byte_len (text s))); split; auto; lia.
Qed.

Lemma current_line_range_ok s :
  inv s -> exists r, current_line_range_with_newline s = Some r /\ range_ok (text s) r
    /\ rstart r <= cursor_pos s <= rend r
    /\ (0 < rstart r -> exists a b, text s = a ++ NL :: b /\ byte_len a = rstart r - 1).
Proof.
  intros Hi. unfold current_line_range_with_newline, beginning_of_current_line, end_of_current_line.
  destruct (beginning_of_line_ok s _ (inv_cursor _ Hi)) as (bol & -> & Hb & Hle & Hnl). cbn.
  destruct (end_of_line_ok s _ (inv_cursor _ Hi)) as (eol & -> & He & Hge & Hsucc). cbn.
  destruct (past_newline_ok s eol He Hsucc) as [Hp Hple].
  exists (mkRange bol (past_newline s eol)). cbn. split_and!; [done| |lia|lia|done].
  split_and!; cbn; [done|done|lia].
Qed.

Lemma first_non_blank_ok s :
  inv s -> exists p, first_non_blank_of_current_line s = Some p /\ at_boundary (text s) p.
Proof.
  intros Hi. unfold first_non_blank_of_current_line, beginning_of_current_line, end_of_current_line.
  destruct (beginning_of_line_ok s _ (inv_cursor _ Hi)) as (bol & -> & Hb & Hle & _). cbn.
  destruct (end_of_line_ok s _ (inv_cursor _ Hi)) as (eol & -> & He & Hge & _). cbn.
  assert (is_Some (slice (text s) bol eol)) as [line Hl]
    by (apply slice_is_Some; split_and!; [done|done|lia]).
  rewrite Hl. cbn. unfold find.
  destruct (find_char not_whitespace line) as [[i c]|] eqn:E; cbn; [|by exists eol].
  exists (bol + i). split; [done|]. apply find_char_boundary in E as (Hbi & _).
  by eapply slice_boundary.
Qed.

Lemma vim_line_end_ok s :
  inv s -> exists p, vim_line_end_cursor s = Some p /\ at_boundary (text s) p.
Proof.
  intros Hi. unfold vim_line_end_cursor, beginning_of_current_line, end_of_current_line.
  destruct (beginning_of_line_ok s _ (inv_cursor _ Hi)) as (bol & -> & Hb & Hle & _). cbn.
  destruct (end_of_line_ok s _ (inv_cursor _ Hi)) as (eol & -> & He & Hge & _). cbn.
  destruct (bol <? eol); [|by exists eol].
  destruct (prev_atomic_boundary_ok s eol (inv_elements _ Hi) He) as (p & -> & Hp & _). cbn.
  exists (Nat.max p bol). split; [done|]. by destruct (Nat.max_dec p bol) as [->| ->].
Qed.

(** ** Words *)

Definition piece_ok (run : str) (p : nat * str) : Prop :=
  at_boundary run (fst p) /\ at_boundary run (fst p + byte_len (snd p)).

Lemma slice_end t i j m : slice t i j = Some m -> i + byte_len m = j.
Proof. by intros (a & b & _ & <- & <-)%slice_Some. Qed.

Lemma split_segment_ok segment_start segment chars piece_start idx in_sep :
  (exists pre, segment = pre ++ chars /\ byte_len pre = idx) ->
  at_boundary segment piece_start -> piece_start <= idx ->
  exists l, split_segment segment_start segment piece_start idx in_sep chars = Some l
    /\ Forall (fun p => exists q, fst p = segment_start + q /\ piece_ok segment (q, snd p)) l.
Proof.
  revert piece_start idx in_sep. induction chars as [|ch chars IH];
    intros piece_start idx in_sep (pre & Hs & Hpre) Hb Hle; cbn.
  - destruct (slice_from_ok _ _ Hb) as (a & m & -> & Hs' & Ha). cbn. eexists. split; [done|].
    apply Forall_singleton. exists piece_start. split; [done|]. split; cbn; [done|].
    rewrite <- Ha, <- byte_len_app, <- Hs'. apply at_boundary_len.
  - assert (exists pre', segment = pre' ++ chars /\ byte_len pre' = idx + len_utf8 ch) as Hnext.
    { exists (pre ++ [ch]). rewrite byte_len_app, byte_len_cons, <- app_assoc.
      change (byte_len []) with 0. split; [done|lia]. }
    assert (at_boundary segment idx) as Hidx by by exists pre, (ch :: chars).
    destruct (Bool.eqb _ _).
    + apply IH; [done|done|]. pose proof (len_utf8_pos ch). lia.
    + assert (is_Some (slice segment piece_start idx)) as [m Hm]
        by (apply slice_is_Some; by split_and!).
      destruct (IH idx (idx + len_utf8 ch) (is_word_separator ch) Hnext Hidx ltac:(lia))
        as (l & Hl & Hok).
      rewrite Hm, Hl. cbn. eexists. split; [done|]. constructor; [|done].
      exists piece_start. split; [done|]. split; cbn; [done|]. by rewrite (slice_end _ _ _ _ Hm).
Qed.

Lemma split_segments_ok run segments off pre t :
  run = pre ++ t -> byte_len pre = off -> tiles off segments t ->
  exists l, split_segments segments = Some l /\ Forall (piece_ok run) l.
Proof.
  revert off pre t. induction segments as [|[i seg] segments IH]; intros off pre t Hrun Hpre; cbn.
  - intros ->. by exists [].
  - intros (-> & t' & -> & Hrec).
    destruct (IH (off + byte_len seg) (pre ++ seg) t') as (rest & Hrest & Hok);
      [by rewrite Hrun, app_assoc|by rewrite byte_len_app, Hpre|done|].
    assert (exists l,
      match seg with
      | [] => Some []
      | first_char :: chars =>
          split_segment off seg 0 (len_utf8 first_char) (is_word_separator first_char) chars
      end = Some l
      /\ Forall (fun p => exists q, fst p = off + q /\ piece_ok seg (q, snd p)) l) as (l & Hl & Hlok).
    { destruct seg as [|c seg]; [exists []; by split; [|constructor]|].
      apply split_segment_ok; [|apply at_boundary_0|lia]. exists [c].
      split; [done|]. rewrite byte_len_cons. change (byte_len []) with 0. lia. }
    rewrite Hl, Hrest. cbn. eexists. split; [done|]. apply Forall_app. split; [|done].
    eapply Forall_impl; [exact Hlok|]. intros [j p] (q & Hq & H1 & H2). cbn in *.
    assert (forall n, at_boundary seg n -> at_boundary run (off + n)) as Hup.
    { intros n Hn. rewrite Hrun, <- Hpre. by apply at_boundary_app_r, at_boundary_app_l. }
    split; cbn; rewrite Hq; [by apply Hup|]. rewrite <- Nat.add_assoc. by apply Hup.
Qed.

Lemma split_word_pieces_ok run :
  exists l, split_word_pieces run = Some l /\ Forall (piece_ok run) l.
Proof. by apply (split_segments_ok run _ 0 [] run); [| |apply word_bound_law]. Qed.

Lemma back_over_separators_ok (P : nat -> Prop) run_start pieces start :
  Forall (fun p => P (run_start + fst p)) pieces -> P start ->
  P (back_over_separators run_start pieces start).
Proof.
  intros Hp. revert start. induction Hp as [|[i p] l H1 Hl IH]; intros start Hs; cbn; [done|].
  destruct (forallb _ _); auto.
Qed.

Lemma over_separators_ok (P : nat -> Prop) run_start pieces stop :
  Forall (fun p => P (run_start + fst p + byte_len (snd p))) pieces -> P stop ->
  P (over_separators run_start pieces stop).
Proof.
  intros Hp. revert stop. induction Hp as [|[i p] l H1 Hl IH]; intros stop Hs; cbn; [done|].
  destruct (forallb _ _); auto.
Qed.

Lemma beginning_of_previous_word_ok s :
  inv s -> exists p, beginning_of_previous_word s = Some p /\ at_boundary (text s) p
    /\ p <= cursor_pos s.
Proof.
  intros Hi. unfold beginning_of_previous_word.
  destruct (slice_to_ok _ _ (inv_cursor _ Hi)) as (prefix & rest & -> & Ht & Hp). cbn.
  destruct (rfind_char not_whitespace prefix) as [[i ch]|] eqn:E;
    [|exists 0; split_and!; [done|apply at_boundary_0|lia]].
  apply rfind_char_boundary in E as (Hb1 & Hb2 & _).
  destruct (slice_to_ok _ _ Hb1) as (before & r & -> & Hpre & Hbefore). cbn.
  set (run_start := match rfind_char is_whitespace before with Some (idx, ch) => idx + len_utf8 ch
                    | None => 0 end).
  assert (at_boundary before run_start) as Hrs.
  { unfold run_start. destruct (rfind_char is_whitespace before) as [[j c]|] eqn:E; [|apply at_boundary_0].
    by apply rfind_char_boundary in E as (_ & ? & _). }
  pose proof (at_boundary_le _ _ Hrs).
  assert (at_boundary prefix run_start) as Hrs' by (rewrite Hpre; by apply at_boundary_app_l).
  assert (is_Some (slice prefix run_start (i + len_utf8 ch))) as [run Hrun]
    by (apply slice_is_Some; split_and!; [done|done|lia]).
  rewrite Hrun. cbn. destruct (split_word_pieces_ok run) as (pieces & -> & Hok). cbn.
  assert (forall p, at_boundary prefix p -> at_boundary (text s) p /\ p <= cursor_pos s) as Hup.
  { intros p Hpp. rewrite <- Hp. split; [rewrite Ht; by apply at_boundary_app_l|by apply at_boundary_le]. }
  rewrite <- Forall_reverse in Hok.
  destruct (reverse pieces) as [|[j piece] l]; [exists run_start; split; [done|by apply Hup]|].
  apply Forall_cons in Hok as [[Hj _] Hl]. cbn in Hj.
  set (start := if forallb _ piece then _ else _).
  assert (at_boundary prefix start) as Hstart.
  { unfold start. pose proof (slice_boundary _ _ _ _ _ Hrun Hj).
    destruct (forallb _ _); [|done]. apply back_over_separators_ok; [|done].
    eapply Forall_impl; [exact Hl|]. intros [k q] [Hk _]. by eapply slice_boundary. }
  destruct (Hup _ Hstart) as [Hst Hle].
  destruct (adjust_pos_ok s start true (inv_elements _ Hi) Hst) as [Hadj _].
  eexists. split_and!; [done|exact Hadj|]. unfold adjust_pos_out_of_elements.
  destruct (find_element_containing _ _) as [e|] eqn:E; [|done].
  apply find_element_Some in E as [_ Hin]. cbn. lia.
Qed.

Lemma end_of_next_word_ok s :
  inv s -> exists p, end_of_next_word s = Some p /\ at_boundary (text s) p.
Proof.
  intros Hi. unfold end_of_next_word.
  destruct (slice_from_ok _ _ (inv_cursor _ Hi)) as (pre & suffix & -> & Ht & Hp). cbn. unfold find at 1.
  destruct (find_char not_whitespace suffix) as [[i c]|] eqn:E; cbn;
    [|exists (byte_len (text s)); split; [done|apply at_boundary_len]].
  apply find_char_boundary in E as (Hb & _).
  destruct (slice_from_ok _ _ Hb) as (ws & run1 & -> & Hsuf & Hws). cbn.
  assert (at_boundary run1 (default (byte_len run1) (find is_whitespace run1))) as Hb2.
  { unfold find. destruct (find_char is_whitespace run1) as [[j d]|] eqn:E; cbn; [|apply at_boundary_len].
    by apply find_char_boundary in E as (? & _). }
  destruct (slice_to_ok _ _ Hb2) as (run & r & -> & Hrun1 & _). cbn.
  destruct (split_word_pieces_ok run) as (pieces & -> & Hok). cbn.
  assert (forall k, at_boundary run k -> at_boundary (text s) (cursor_pos s + i + k)) as Hup.
  { intros k Hk. rewrite Ht, <- Hp, <- Nat.add_assoc. apply at_boundary_app_r.
    rewrite Hsuf, <- Hws. apply at_boundary_app_r. rewrite Hrun1. by apply at_boundary_app_l. }
  destruct pieces as [|[j piece] l].
  { eexists. split; [done|]. rewrite <- (Nat.add_0_r (_ + i)). apply Hup, at_boundary_0. }
  apply Forall_cons in Hok as [[_ Hj] Hl]. cbn in Hj.
  eexists. split; [done|]. apply adjust_pos_ok; [apply Hi|].
  assert (at_boundary (text s) (cursor_pos s + i + j + byte_len piece)) as Hpiece
    by (rewrite <- Nat.add_assoc; by apply Hup).
  destruct (forallb _ _); [|done]. apply over_separators_ok; [|done].
  eapply Forall_impl; [exact Hl|]. intros [k q] [_ Hk]. cbn in *. rewrite <- Nat.add_assoc. by apply Hup.
Qed.

Lemma beginning_of_next_word_ok s :
  inv s -> exists p, beginning_of_next_word s = Some p /\ at_boundary (text s) p.
Proof.
  intros Hi. unfold beginning_of_next_word.
  assert (exists p, Some (byte_len (text s)) = Some p /\ at_boundary (text s) p) as Hlen
    by (eexists; split; [done|apply at_boundary_len]).
  destruct (slice_from_ok _ _ (inv_cursor _ Hi)) as (pre & suffix & -> & Ht & Hp). cbn. unfold find at 1.
  destruct (find_char not_whitespace suffix) as [[i c]|] eqn:E; cbn; [|done].
  apply find_char_boundary in E as (Hb & _).
  apply (at_boundary_app_r pre) in Hb. rewrite <- Ht, Hp in Hb.
  destruct (negb _); [eexists; split; [done|]; by apply adjust_pos_ok; [apply Hi|]|].
  destruct (end_of_next_word_ok s Hi) as (stop & -> & Hs). cbn.
  destruct (_ <=? _); [done|].
  destruct (slice_from_ok _ _ Hs) as (pre' & rest & -> & Ht' & Hp'). cbn. unfold find.
  destruct (find_char not_whitespace rest) as [[j d]|] eqn:E; cbn; [|done].
  apply find_char_boundary in E as (Hb' & _).
  apply (at_boundary_app_r pre') in Hb'. rewrite <- Ht', Hp' in Hb'.
  eexists; split; [done|]. by apply adjust_pos_ok; [apply Hi|].
Qed.

Lemma vim_word_end_ok s :
  inv s -> exists p, vim_word_end_cursor s = Some p /\ at_boundary (text s) p.
Proof.
  intros Hi. unfold vim_word_end_cursor.
  destruct (end_of_next_word_ok s Hi) as (stop & -> & Hs). cbn.
  destruct (_ <? _); [|by exists stop].
  destruct (prev_atomic_boundary_ok s stop (inv_elements _ Hi) Hs) as (p & Hp & Hb & _). by exists p.
Qed.

(** ** Movements *)

#[local] Arguments move_to_display_col_on_line : simpl never.
#[local] Arguments slice_to : simpl never.
#[local] Arguments slice_from : simpl never.
#[local] Arguments set_cursor : simpl never.
#[local] Arguments insert_str_at : simpl never.

(** Only the cursor and the preferred column change. *)
Definition moves (f : TextArea -> option TextArea) : Prop :=
  forall s, inv s -> exists c p,
    f s = Some (with_preferred_col p (with_cursor c s))
    /\ kept s (with_preferred_col p (with_cursor c s)).

Definition safe (f : TextArea -> option TextArea) : Prop := forall s, inv s -> steps s (f s).

Lemma moves_safe f : moves f -> safe f.
Proof. intros Hf s Hi. destruct (Hf s Hi) as (c & p & -> & Hk). by apply steps_some. Qed.

Lemma moved_to s c p :
  inv s -> at_boundary (text s) c -> clear (elements s) c ->
  kept s (with_preferred_col p (with_cursor c s)).
Proof. intros Hi Hb Hc. by eapply kept_cursor. Qed.

Lemma set_cursor_moves s pos :
  inv s -> exists c p, set_cursor pos s = with_preferred_col p (with_cursor c s)
    /\ kept s (with_preferred_col p (with_cursor c s)).
Proof.
  intros Hi. eexists _, None. split; [done|]. exact (set_cursor_kept pos s Hi).
Qed.

Lemma move_by_moves q :
  (forall s, inv s -> exists p, q s = Some p) -> moves (move_by q).
Proof.
  intros Hq s Hi. unfold move_by. destruct (Hq s Hi) as [p ->]. cbn.
  destruct (set_cursor_moves s p Hi) as (c & pc & -> & Hk). eauto.
Qed.

Lemma move_cursor_left_moves : moves move_cursor_left.
Proof.
  intros s Hi. unfold move_cursor_left.
  destruct (prev_atomic_boundary_ok s _ (inv_elements _ Hi) (inv_cursor _ Hi))
    as (p & -> & Hb & Hc & _). cbn. eexists _, _. split; [done|]. by apply moved_to.
Qed.

Lemma move_cursor_right_moves : moves move_cursor_right.
Proof.
  intros s Hi. unfold move_cursor_right.
  destruct (next_atomic_boundary_ok s _ (inv_elements _ Hi) (inv_cursor _ Hi))
    as (p & -> & Hb & Hc & _). cbn. eexists _, _. split; [done|]. by apply moved_to.
Qed.

Lemma move_to_display_col_moves i j col s0 s pc :
  inv s -> s0 = with_preferred_col pc s -> at_boundary (text s) i -> at_boundary (text s) j -> i <= j ->
  exists c p, move_to_display_col_on_line i j col s0 = Some (with_preferred_col p (with_cursor c s))
    /\ kept s (with_preferred_col p (with_cursor c s)).
Proof.
  intros Hi -> Hb1 Hb2 Hle. unfold move_to_display_col_on_line. cbn [text with_preferred_col].
  assert (is_Some (slice (text s) i j)) as [line ->] by (apply slice_is_Some; by split_and!). cbn.
  match goal with |- context [clamp_pos_to_nearest_boundary ?s' ?p] =>
    destruct (clamp_nearest s' p (inv_elements _ Hi)) as [Hb Hc] end.
  eexists _, pc. split; [done|]. by apply moved_to.
Qed.

Lemma partition_point_lookup lines pos idx :
  partition_point lines pos = S idx -> exists r, lines !! idx = Some r /\ rstart r <= pos.
Proof.
  revert idx. induction lines as [|r lines IH]; intros idx; cbn; [done|].
  destruct (Nat.leb_spec (rstart r) pos); [|done]. intros [= Hp].
  destruct idx as [|idx]; [by exists r|]. by destruct (IH idx Hp) as (r' & ? & ?); exists r'.
Qed.

Lemma line_bounds t lines idx r :
  lines_ok t lines -> lines !! idx = Some r ->
  at_boundary t (rstart r) /\ at_boundary t (rend r - 1) /\ rstart r <= rend r - 1.
Proof.
  intros [Hok _] Hr. rewrite Forall_lookup in Hok. destruct (Hok _ _ Hr) as (? & ? & ?).
  split_and!; [done|done|lia].
Qed.

Lemma visual_target_ok up s :
  inv s -> exists r, visual_target up s = Some r
    /\ match r with
       | Some (_, Some (i, j)) => at_boundary (text s) i /\ at_boundary (text s) j /\ i <= j
       | _ => True
       end.
Proof.
  intros Hi. unfold visual_target.
  destruct (wrap_cache s) as [c|] eqn:Hc; [|by exists None].
  pose proof (cache_lines_ok _ _ Hi Hc) as Hok. unfold wrapped_line_index_by_start.
  destruct (partition_point (cache_lines c) (cursor_pos s)) as [|idx] eqn:E; [by exists None|].
  apply partition_point_lookup in E as (r & Hr & Hle). rewrite Hr. cbn.
  destruct (line_bounds _ _ _ _ Hok Hr) as (Hb & _).
  assert (exists col, match preferred_col s with
    | Some c => Some c
    | None => before ← slice (text s) (rstart r) (cursor_pos s); Some (width before)
    end = Some col) as [col ->].
  { destruct (preferred_col s) as [p|]; [by eauto|].
    assert (is_Some (slice (text s) (rstart r) (cursor_pos s))) as [b ->]; [|by eauto].
    apply slice_is_Some. split_and!; [done|apply Hi|done]. }
  cbn. destruct up.
  - destruct (Nat.ltb_spec 0 idx); [|by exists (Some (col, None))].
    destruct (lookup_lt_is_Some_2 (cache_lines c) (idx - 1)) as [p Hp];
      [apply lookup_lt_Some in Hr; lia|].
    rewrite Hp. cbn. eexists. split; [done|]. by eapply line_bounds.
  - destruct (Nat.ltb_spec (idx + 1) (length (cache_lines c))); [|by exists (Some (col, None))].
    destruct (lookup_lt_is_Some_2 (cache_lines c) (idx + 1)) as [p Hp]; [done|].
    rewrite Hp. cbn. eexists. split; [done|]. by eapply line_bounds.
Qed.

Lemma preferred_or_current_ok s :
  inv s -> exists col pc, preferred_or_current s = Some (col, with_preferred_col pc s).
Proof.
  intros Hi. unfold preferred_or_current. destruct (preferred_col s) as [c|] eqn:E.
  { exists c, (Some c). rewrite <- E. by destruct s. }
  unfold current_display_col, beginning_of_current_line.
  destruct (beginning_of_line_ok s _ (inv_cursor _ Hi)) as (bol & -> & Hb & Hle & _). cbn.
  assert (is_Some (slice (text s) bol (cursor_pos s))) as [b ->]; [|by cbn; eauto].
  apply slice_is_Some. split_and!; [done|apply Hi|done].
Qed.

Lemma keep_col_eq col s : exists pc, keep_col col s = with_preferred_col pc s.
Proof.
  unfold keep_col. destruct (preferred_col s) eqn:E; [|by eauto].
  exists (preferred_col s). by destruct s.
Qed.

Lemma move_cursor_up_moves : moves move_cursor_up.
Proof.
  intros s Hi. unfold move_cursor_up.
  assert (exists c p, Some (with_preferred_col None (with_cursor 0 s))
      = Some (with_preferred_col p (with_cursor c s))
      /\ kept s (with_preferred_col p (with_cursor c s))) as Htop.
  { eexists _, _. split; [done|]. apply moved_to; [done|apply at_boundary_0|apply clear_0]. }
  destruct (visual_target_ok true s Hi) as (r & -> & Hr). cbn.
  destruct r as [[col [[i j]|]]|]; [|done|].
  { destruct (keep_col_eq col s) as [pc ->]. destruct Hr as (? & ? & ?).
    by eapply move_to_display_col_moves. }
  destruct (slice_to_ok _ _ (inv_cursor _ Hi)) as (prefix & rest & -> & Ht & Hp). cbn. unfold rfind at 1.
  destruct (rfind_char is_nl prefix) as [[nl c]|] eqn:E; [|exact Htop].
  cbn. destruct (preferred_or_current_ok s Hi) as (col & pc & ->). cbn.
  apply rfind_char_boundary in E as (Hnl & _).
  assert (at_boundary (text s) nl) as Hnl' by (rewrite Ht; by apply at_boundary_app_l).
  destruct (slice_to_ok _ _ Hnl') as (before & r & -> & Ht' & Hb). cbn. unfold rfind.
  destruct (rfind_char is_nl before) as [[i d]|] eqn:E; cbn.
  - apply rfind_char_boundary in E as (_ & Hi' & Hd). apply N.eqb_eq in Hd as ->.
    change (len_utf8 NL) with 1 in Hi'. pose proof (at_boundary_le _ _ Hi').
    eapply move_to_display_col_moves; [done|done| |done|lia].
    rewrite Ht'. by apply at_boundary_app_l.
  - eapply move_to_display_col_moves; [done|done|apply at_boundary_0|done|lia].
Qed.

Lemma move_cursor_down_moves : moves move_cursor_down.
Proof.
  intros s Hi. unfold move_cursor_down.
  assert (forall pc, exists c p,
      Some (with_preferred_col None (with_cursor (byte_len (text s)) (with_preferred_col pc s)))
      = Some (with_preferred_col p (with_cursor c s))
      /\ kept s (with_preferred_col p (with_cursor c s))) as Hbottom.
  { intros pc. eexists _, _. split; [done|].
    apply moved_to; [done|apply at_boundary_len|by eapply clear_len, Hi]. }
  destruct (visual_target_ok false s Hi) as (r & -> & Hr). cbn.
  destruct r as [[col [[i j]|]]|]; [|exact (Hbottom None)|].
  { destruct (keep_col_eq col s) as [pc ->]. destruct Hr as (? & ? & ?).
    by eapply move_to_display_col_moves. }
  destruct (preferred_or_current_ok s Hi) as (col & pc & ->). cbn.
  destruct (slice_from_ok _ _ (inv_cursor _ Hi)) as (pre & suffix & -> & Ht & Hp). cbn. unfold find at 1.
  destruct (find_char is_nl suffix) as [[i c]|] eqn:E; [|exact (Hbottom pc)].
  apply find_char_boundary in E as (_ & Hi' & Hc). apply N.eqb_eq in Hc as ->.
  change (len_utf8 NL) with 1 in Hi'. apply (at_boundary_app_r pre) in Hi'.
  rewrite <- Ht, Hp in Hi'. cbn. replace (cursor_pos s + (i + 1)) with (i + cursor_pos s + 1) in Hi' by lia.
  destruct (slice_from_ok _ _ Hi') as (pre' & rest & -> & Ht' & Hp'). cbn. unfold find.
  destruct (find_char is_nl rest) as [[j d]|] eqn:E; cbn.
  - apply find_char_boundary in E as (Hj & _). apply (at_boundary_app_r pre') in Hj.
    rewrite <- Ht', Hp', Nat.add_comm in Hj.
    eapply move_to_display_col_moves; [done|done|done|done|lia].
  - eapply move_to_display_col_moves; [done|done|done|apply at_boundary_len|by apply at_boundary_le].
Qed.

Lemma line_start_before s pos :
  at_boundary (text s) pos -> (0 < pos -> exists a b, text s = a ++ NL :: b /\ byte_len a = pos - 1) ->
  at_boundary (text s) (pos - 1).
Proof.
  intros Hb Hnl. destruct pos as [|pos]; [apply at_boundary_0|].
  destruct (Hnl ltac:(lia)) as (a & b & -> & <-). apply at_boundary_app.
Qed.

Lemma move_to_bol_moves up : moves (move_cursor_to_beginning_of_line up).
Proof.
  intros s Hi. unfold move_cursor_to_beginning_of_line, beginning_of_current_line.
  destruct (beginning_of_line_ok s _ (inv_cursor _ Hi)) as (bol & -> & Hb & Hle & Hnl).
  cbn. destruct (up && _) eqn:E.
  - apply andb_true_iff in E as [_ E%Nat.eqb_eq]. rewrite E in *.
    destruct (beginning_of_line_ok s _ (line_start_before _ _ Hb Hnl)) as (p & -> & _).
    cbn. destruct (set_cursor_moves s p Hi) as (c & pc & Heq & Hk).
    exists c, None. rewrite Heq. split; [done|].
    eapply kept_trans; [exact Hk|]. by apply kept_frame; [apply Hk|..].
  - destruct (set_cursor_moves s bol Hi) as (c & pc & Heq & Hk).
    exists c, None. rewrite Heq. split; [done|].
    eapply kept_trans; [exact Hk|]. by apply kept_frame; [apply Hk|..].
Qed.

Lemma move_to_eol_moves down : moves (move_cursor_to_end_of_line down).
Proof.
  intros s Hi. unfold move_cursor_to_end_of_line, end_of_current_line.
  destruct (end_of_line_ok s _ (inv_cursor _ Hi)) as (eol & -> & Hb & Hle & Hsucc). cbn.
  destruct (down && _) eqn:E.
  - apply andb_true_iff in E as [_ E%Nat.eqb_eq].
    assert (at_boundary (text s) (Nat.min (cursor_pos s + 1) (byte_len (text s)))) as Hn.
    { destruct (Nat.min_spec (cursor_pos s + 1) (byte_len (text s))) as [[? ->]|[? ->]];
        [|apply at_boundary_len]. rewrite E. apply Hsucc. lia. }
    destruct (end_of_line_ok s _ Hn) as (p & -> & _). cbn.
    destruct (set_cursor_moves s p Hi) as (c & pc & -> & Hk). eauto.
  - destruct (set_cursor_moves s eol Hi) as (c & pc & -> & Hk). eauto.
Qed.

(** ** Kill, yank and delete *)

Lemma kill_range_ok r k s :
  inv s -> range_ok (text s) r ->
  let r' := expand_range_to_element_boundaries s r in
  (rstart r' = rend r' /\ kill_range_with_kind r k s = Some s)
  \/ exists a m b,
       text s = a ++ m ++ b /\ r' = mkRange (byte_len a) (byte_len a + byte_len m) /\ m <> []
       /\ kill_range_with_kind r k s = replace_range_raw r' [] (store_kill_buffer m k s).
Proof.
  intros Hi Hr r'. destruct (expand_ok s r (inv_elements _ Hi) Hr) as (Hok & Hw & Hu).
  unfold kill_range_with_kind. fold r' in Hok, Hu |- *. cbn zeta.
  destruct (Nat.leb_spec (rend r') (rstart r')) as [Hle|Hlt].
  { left. destruct Hok as (_ & _ & ?). split; [lia|done]. }
  right. destruct (range_split _ _ Hok) as (a & m & b & Ht & Hr'). exists a, m, b.
  rewrite Hr' in *. cbn [rstart rend] in Hlt.
  assert (m <> []) as Hm by (intros ->; change (byte_len []) with 0 in Hlt; lia).
  split_and!; [done..|]. unfold slice_range. cbn [rstart rend]. rewrite Ht, slice_app. cbn.
  by destruct m.
Qed.

Lemma kill_range_safe r k s : inv s -> range_ok (text s) r -> steps s (kill_range_with_kind r k s).
Proof.
  intros Hi Hr. destruct (expand_ok s r (inv_elements _ Hi) Hr) as (Hok & _ & Hu).
  destruct (kill_range_ok r k s Hi Hr) as [[_ ->]|(a & m & b & _ & _ & _ & ->)];
    [by apply steps_some, kept_refl|].
  assert (kept s (store_kill_buffer m k s)) as Hk by by apply kept_frame.
  eapply steps_trans; [exact Hk|]. by apply replace_range_raw_steps; [apply Hk|..].
Qed.

Lemma yank_range_safe r k s : inv s -> range_ok (text s) r -> steps s (yank_range_with_kind r k s).
Proof.
  intros Hi Hr. destruct (expand_ok s r (inv_elements _ Hi) Hr) as (Hok & _ & _).
  unfold yank_range_with_kind. destruct (_ <=? _); [by apply steps_some, kept_refl|].
  apply slice_is_Some in Hok as [m Hm]. unfold slice_range. rewrite Hm. cbn.
  destruct (is_empty m); apply steps_some; [by apply kept_refl|by apply kept_frame].
Qed.

(** What was killed and yanked back is the text there was. *)
Definition yank_restores (s : TextArea) (killed : option TextArea) : Prop :=
  exists s1, killed = Some s1 /\
    (s1 = s \/ exists s2, yank s1 = Some s2 /\ text s2 = text s).

Lemma kill_range_restores r k s :
  inv s -> range_ok (text s) r -> rstart r <= cursor_pos s <= rend r ->
  yank_restores s (kill_range_with_kind r k s).
Proof.
  intros Hi Hr Hcur. destruct (expand_ok s r (inv_elements _ Hi) Hr) as (Hok & Hw & Hu).
  destruct (kill_range_ok r k s Hi Hr) as [[_ ->]|(a & m & b & Ht & Heq & Hm & ->)];
    [exists s; auto|]. rewrite Heq in *. unfold within in Hw. cbn in Hw.
  assert (inv (store_kill_buffer m k s)) as Hi'
    by (apply kept_inv with s, kept_frame; done).
  destruct (replace_range_raw_eq (store_kill_buffer m k s) a m b [] Hi' Ht Hu)
    as (c & -> & Hb & Hc & Hin); [by rewrite app_nil_r|].
  eexists. split; [done|]. right. cbn in Hin. change (byte_len []) with 0 in Hin.
  rewrite Hin, Nat.add_0_r in * by lia. unfold yank. cbn [kill_buffer store_kill_buffer with_cursor
    with_elements with_preferred_col with_wrap_cache with_text].
  replace (is_empty m) with false by (by destruct m). unfold insert_str.
  match goal with |- context [insert_str_at _ m ?s'] =>
    destruct (clamp_nearest s' (cursor_pos s')) as [_ _]; [|set (s1 := s')] end.
  { cbn. pose proof (inv_elements _ Hi) as Hel. rewrite Ht in Hel.
    by destruct (shift_elements_ok a m b [] _ Hel Hu). }
  unfold insert_str_at. change (clamp_pos_for_insertion s1) with (clamp_pos_to_nearest_boundary s1).
  rewrite clamp_nearest_id by done. cbn zeta.
  assert (string_insert (text s1) (cursor_pos s1) m = Some (a ++ m ++ b)) as ->
    by apply string_insert_app.
  eexists. split; [done|]. by destruct (_ <=? _).
Qed.

Lemma repeat_boundary_ok (P : nat -> Prop) n step stop target :
  (forall t, P t -> exists t', step t = Some t' /\ P t') -> P target ->
  exists t, repeat_boundary n step stop target = Some t /\ P t.
Proof.
  intros Hstep. revert target. induction n as [|n IH]; intros target Ht; cbn; [by eauto|].
  destruct (Hstep _ Ht) as (t' & -> & Ht'). cbn. destruct (stop t'); [by eauto|]. by apply IH.
Qed.

Lemma forward_target_ok n s :
  inv s -> exists t, forward_target n s = Some t /\ range_ok (text s) (mkRange (cursor_pos s) t).
Proof.
  intros Hi. apply (repeat_boundary_ok (fun t => range_ok (text s) (mkRange (cursor_pos s) t))).
  - intros t (H1 & H2 & H3). cbn in *.
    destruct (next_atomic_boundary_ok s t (inv_elements _ Hi) H2) as (p & -> & Hp & _ & Hle).
    exists p. split; [done|]. split_and!; cbn; [done|done|lia].
  - split_and!; cbn; [apply Hi|apply Hi|lia].
Qed.

Lemma delete_backward_safe n : safe (delete_backward n).
Proof.
  intros s Hi. unfold delete_backward. destruct (_ || _); [by apply steps_some, kept_refl|].
  destruct (repeat_boundary_ok (fun t => range_ok (text s) (mkRange t (cursor_pos s))) n
    (prev_atomic_boundary s) (fun t => t =? 0) (cursor_pos s)) as (t & -> & Hr).
  - intros t (H1 & H2 & H3). cbn in *.
    destruct (prev_atomic_boundary_ok s t (inv_elements _ Hi) H1) as (p & -> & Hp & _ & Hle & _).
    exists p. split; [done|]. split_and!; cbn; [done|done|lia].
  - split_and!; cbn; [apply Hi|apply Hi|lia].
  - cbn. by apply replace_range_steps.
Qed.

Lemma delete_forward_safe n : safe (delete_forward n).
Proof.
  intros s Hi. unfold delete_forward. destruct (_ || _); [by apply steps_some, kept_refl|].
  destruct (forward_target_ok n s Hi) as (t & -> & Hr). cbn. by apply replace_range_steps.
Qed.

(** The kill commands kill a slice that has the cursor at an end or inside, or
    do nothing. *)
Definition kills (f : TextArea -> option TextArea) : Prop :=
  forall s, inv s ->
    f s = Some s \/ exists r k, f s = kill_range_with_kind r k s
      /\ range_ok (text s) r /\ rstart r <= cursor_pos s <= rend r.

Lemma kills_safe f : kills f -> safe f.
Proof.
  intros Hf s Hi. destruct (Hf s Hi) as [->|(r & k & -> & Hr & _)];
    [by apply steps_some, kept_refl|by apply kill_range_safe].
Qed.

Lemma delete_forward_kill_kills n : kills (delete_forward_kill n).
Proof.
  intros s Hi. unfold delete_forward_kill. destruct (_ || _); [by left|].
  destruct (forward_target_ok n s Hi) as (t & -> & Hr). right. eexists _, _. split; [done|].
  destruct Hr as (? & ? & ?). cbn in *. split_and!; [by split_and!|done|done].
Qed.

Lemma delete_backward_word_kills : kills delete_backward_word.
Proof.
  intros s Hi. unfold delete_backward_word.
  destruct (beginning_of_previous_word_ok s Hi) as (p & -> & Hb & Hle). right.
  eexists _, _. split; [done|]. cbn. split_and!; [split_and!; cbn; [done|apply Hi|done]|done|done].
Qed.

Lemma delete_forward_word_kills : kills delete_forward_word.
Proof.
  intros s Hi. unfold delete_forward_word.
  destruct (end_of_next_word_ok s Hi) as (p & -> & Hb). cbn.
  destruct (Nat.ltb_spec (cursor_pos s) p); [|by left]. right.
  eexists _, _. split; [done|]. cbn. split_and!; [split_and!; cbn; [apply Hi|done|lia]|done|lia].
Qed.

Lemma kill_to_end_of_line_kills : kills kill_to_end_of_line.
Proof.
  intros s Hi. unfold kill_to_end_of_line, end_of_current_line.
  destruct (end_of_line_ok s _ (inv_cursor _ Hi)) as (eol & -> & Hb & Hle & Hsucc). cbn.
  destruct (Nat.eqb_spec (cursor_pos s) eol) as [Heq|Hne].
  - destruct (Nat.ltb_spec eol (byte_len (text s))) as [Hlt|]; [|by left]. right.
    eexists _, _. split; [done|]. cbn. split_and!; [|done|lia].
    split_and!; cbn; [apply Hi|auto|lia].
  - right. eexists _, _. split; [done|]. cbn. split_and!; [|done|lia].
    split_and!; cbn; [apply Hi|done|lia].
Qed.

Lemma kill_to_beginning_of_line_kills : kills kill_to_beginning_of_line.
Proof.
  intros s Hi. unfold kill_to_beginning_of_line, beginning_of_current_line.
  destruct (beginning_of_line_ok s _ (inv_cursor _ Hi)) as (bol & -> & Hb & Hle & Hnl). cbn.
  destruct (Nat.eqb_spec (cursor_pos s) bol) as [Heq|Hne].
  - destruct (Nat.ltb_spec 0 bol) as [Hlt|]; [|by left]. right.
    eexists _, _. split; [done|]. cbn. split_and!; [|lia|lia].
    split_and!; cbn; [by apply line_start_before|done|lia].
  - right. eexists _, _. split; [done|]. cbn. split_and!; [|done|lia].
    split_and!; cbn; [done|apply Hi|lia].
Qed.

Lemma kill_current_line_kills : kills kill_current_line.
Proof.
  intros s Hi. unfold kill_current_line.
  destruct (current_line_range_ok s Hi) as (r & -> & Hr & Hin & _). right. by eexists _, _.
Qed.

Lemma yank_current_line_safe : safe yank_current_line.
Proof.
  intros s Hi. unfold yank_current_line.
  destruct (current_line_range_ok s Hi) as (r & -> & Hr & _). by apply yank_range_safe.
Qed.

Lemma insert_str_safe t : safe (insert_str t).
Proof. intros s Hi. by apply insert_str_at_steps. Qed.

Lemma yank_safe : safe yank.
Proof.
  intros s Hi. unfold yank. destruct (is_empty _); [by apply steps_some, kept_refl|].
  by apply insert_str_safe.
Qed.

Lemma then_set_cursor s r (p : TextArea -> nat) :
  steps s r -> steps s (s' ← r; Some (set_cursor (p s') s')).
Proof.
  intros Hr. apply steps_bind; [done|]. intros s' Hk. by apply steps_some, set_cursor_kept, Hk.
Qed.

Lemma paste_after_cursor_safe : safe paste_after_cursor.
Proof.
  intros s Hi. unfold paste_after_cursor. destruct (is_empty _); [by apply steps_some, kept_refl|].
  destruct (kill_buffer_kind s).
  - destruct (next_atomic_boundary_ok s _ (inv_elements _ Hi) (inv_cursor _ Hi)) as (p & -> & _).
    pose proof (set_cursor_kept p s Hi) as Hk. cbn.
    eapply steps_trans; [exact Hk|]. apply insert_str_safe, Hk.
  - unfold paste_line_after_current_line, end_of_current_line.
    destruct (end_of_line_ok s _ (inv_cursor _ Hi)) as (eol & -> & _). cbn.
    by apply then_set_cursor, insert_str_at_steps.
Qed.

(** ** Keys *)

Create HintDb text_area.
#[local] Hint Resolve moves_safe kills_safe move_cursor_left_moves move_cursor_right_moves
  move_cursor_up_moves move_cursor_down_moves move_to_bol_moves move_to_eol_moves
  delete_backward_safe delete_forward_safe delete_forward_kill_kills delete_backward_word_kills
  delete_forward_word_kills kill_to_end_of_line_kills kill_to_beginning_of_line_kills
  kill_current_line_kills yank_current_line_safe insert_str_safe yank_safe
  paste_after_cursor_safe : text_area.

(** A query that always has an answer, as [move_by] needs. *)
Lemma move_by_safe q :
  (forall s, inv s -> exists p, q s = Some p /\ at_boundary (text s) p) -> moves (move_by q).
Proof. intros Hq. apply move_by_moves. intros s Hi. destruct (Hq s Hi) as (p & ? & _). eauto. Qed.

Lemma bol_ok s :
  inv s -> exists p, beginning_of_current_line s = Some p /\ at_boundary (text s) p.
Proof. intros Hi. destruct (beginning_of_line_ok s _ (inv_cursor _ Hi)) as (p & ? & ? & _). eauto. Qed.

Lemma eol_ok s : inv s -> exists p, end_of_current_line s = Some p /\ at_boundary (text s) p.
Proof. intros Hi. destruct (end_of_line_ok s _ (inv_cursor _ Hi)) as (p & ? & ? & _). eauto. Qed.

Lemma next_ok s :
  inv s -> exists p, next_atomic_boundary s (cursor_pos s) = Some p /\ at_boundary (text s) p.
Proof.
  intros Hi. destruct (next_atomic_boundary_ok s _ (inv_elements _ Hi) (inv_cursor _ Hi))
    as (p & ? & ? & _). eauto.
Qed.

Lemma prev_word_ok s :
  inv s -> exists p, beginning_of_previous_word s = Some p /\ at_boundary (text s) p.
Proof. intros Hi. destruct (beginning_of_previous_word_ok s Hi) as (p & ? & ? & _). eauto. Qed.

#[local] Hint Resolve move_by_safe bol_ok eol_ok next_ok prev_word_ok end_of_next_word_ok
  beginning_of_next_word_ok vim_word_end_ok vim_line_end_ok first_non_blank_ok : text_area.

Lemma frame_safe f :
  (forall s, text (f s) = text s /\ elements (f s) = elements s /\ cursor_pos (f s) = cursor_pos s
             /\ wrap_cache (f s) = wrap_cache s) ->
  safe (fun s => Some (f s)).
Proof. intros Hf s Hi. apply steps_some. destruct (Hf s) as (? & ? & ? & ?). by apply kept_frame. Qed.

Lemma then_insert_safe act : safe act -> safe (then_insert act).
Proof.
  intros Ha s Hi. unfold then_insert. apply steps_bind; [by apply Ha|]. intros s' Hk.
  by apply steps_some, kept_frame; [apply Hk|..].
Qed.

Lemma open_line_below_safe : safe open_line_below.
Proof.
  intros s Hi. unfold open_line_below. destruct (eol_ok s Hi) as (eol & -> & _). cbn.
  apply steps_bind; [by apply insert_str_at_steps|]. intros s' Hk. apply steps_some.
  eapply kept_trans; [apply set_cursor_kept, Hk|]. apply kept_frame; [|done..].
  apply kept_inv with s', set_cursor_kept, Hk.
Qed.

Lemma open_line_above_safe : safe open_line_above.
Proof.
  intros s Hi. unfold open_line_above. destruct (bol_ok s Hi) as (bol & -> & _). cbn.
  apply steps_bind; [by apply insert_str_at_steps|]. intros s' Hk. apply steps_some.
  eapply kept_trans; [apply set_cursor_kept, Hk|]. apply kept_frame; [|done..].
  apply kept_inv with s', set_cursor_kept, Hk.
Qed.

Lemma first_pressed_elem {A} e (actions : list (list KeyBinding * A)) a :
  first_pressed e actions = Some a -> exists b, (b, a) ∈ actions.
Proof.
  induction actions as [|[b x] actions IH]; cbn; [done|].
  destruct (is_pressed b e); [intros [= ->]; exists b; by left|].
  intros (b' & ?)%IH. exists b'. by right.
Qed.

Lemma pressed_safe e actions a :
  Forall (fun p => safe (snd p)) actions -> first_pressed e actions = Some a -> safe a.
Proof.
  intros Hs (b & Hb)%first_pressed_elem. rewrite Forall_forall in Hs. exact (Hs _ Hb).
Qed.

Lemma some_safe : safe Some.
Proof. intros s Hi. by apply steps_some, kept_refl. Qed.

#[local] Hint Resolve some_safe then_insert_safe open_line_below_safe open_line_above_safe : text_area.
#[local] Hint Extern 1 (safe (fun s => Some (with_operator _ s))) => by apply frame_safe : text_area.

Lemma editor_actions_safe m e :
  Forall (fun p => safe (snd p)) (early_actions m)
  /\ Forall (fun p => safe (snd p)) (late_actions m e).
Proof.
  split; repeat (apply Forall_cons; split; [cbn [snd]; eauto with text_area|]); apply Forall_nil_2.
Qed.

Lemma vim_actions_safe m : Forall (fun p => safe (snd p)) (vim_normal_actions m).
Proof.
  repeat (apply Forall_cons; split; [cbn [snd]; eauto 6 with text_area|]); apply Forall_nil_2.
Qed.

Lemma insert_typed_safe e : safe (insert_typed e).
Proof.
  intros s Hi. unfold insert_typed. destruct (code e); try by apply some_safe.
  destruct (_ || _); [|by apply some_safe].
  destruct (is_ascii_control c); [by apply some_safe|by apply insert_str_safe].
Qed.

Lemma input_with_keymap_safe w e m : safe (input_with_keymap w e m).
Proof.
  intros s Hi. destruct (editor_actions_safe m e) as [He Hl]. unfold input_with_keymap.
  destruct (first_pressed e (early_actions m)) as [a|] eqn:E;
    [exact (pressed_safe _ _ _ He E s Hi)|].
  assert (steps s match first_pressed e (late_actions m e) with
                  | Some action => action s
                  | None => insert_typed e s
                  end) as Hlate.
  { destruct (first_pressed e (late_actions m e)) as [a|] eqn:E';
      [exact (pressed_safe _ _ _ Hl E' s Hi)|].
    by apply insert_typed_safe. }
  destruct (code e); try exact Hlate. destruct (is_altgr _ _); [|exact Hlate].
  by apply insert_str_safe.
Qed.

(** ** Operators *)

Lemma linewise_range_ok m s :
  inv s -> exists r, linewise_range_for_vertical_motion m s = Some r
    /\ (forall x, r = Some x -> range_ok (text s) x).
Proof.
  intros Hi. unfold linewise_range_for_vertical_motion, nonempty_range.
  destruct (current_line_range_ok s Hi) as (r & -> & (H1 & H2 & H3) & _ & Hnl). cbn.
  assert (exists x : option Range, Some (None : option Range) = Some x
    /\ (forall y, x = Some y -> range_ok (text s) y)) as Hnone by by exists None.
  destruct m; try exact Hnone.
  - assert (exists st, (if rstart r =? 0 then Some (rstart r)
      else beginning_of_line s (rstart r - 1)) = Some st /\ at_boundary (text s) st) as (st & -> & Hst).
    { destruct (_ =? 0); [by eauto|].
      destruct (beginning_of_line_ok s _ (line_start_before _ _ H1 Hnl)) as (p & ? & ? & _). eauto. }
    cbn. eexists. split; [done|]. destruct (Nat.ltb_spec st (rend r)); [|done].
    intros x [= <-]. split_and!; cbn; [done|done|lia].
  - assert (exists st, (if byte_len (text s) <=? rend r then Some (rend r)
      else next_eol ← end_of_line s (rend r); Some (past_newline s next_eol)) = Some st
      /\ at_boundary (text s) st) as (st & -> & Hst).
    { destruct (_ <=? _); [by eauto|].
      destruct (end_of_line_ok s _ H2) as (p & -> & Hp & _ & Hs). cbn.
      eexists. split; [done|]. by apply past_newline_ok. }
    cbn. eexists. split; [done|]. destruct (Nat.ltb_spec (rstart r) st); [|done].
    intros x [= <-]. split_and!; cbn; [done|done|lia].
Qed.

Lemma run_motion_moves m : moves (run_motion m).
Proof. destruct m; cbn; eauto with text_area. Qed.

(** A motion is tried and taken back: only its target is left. *)
Lemma target_for_motion_ok m s :
  inv s -> exists t, target_for_motion m s = Some (t, s) /\ at_boundary (text s) t.
Proof.
  intros Hi. unfold target_for_motion. destruct (run_motion_moves m s Hi) as (c & p & -> & Hk).
  cbn. exists c. split; [by destruct s|]. exact (inv_cursor _ (kept_inv _ _ Hk)).
Qed.

Lemma range_for_motion_ok m s :
  inv s -> exists r, range_for_motion m s = Some (r, s)
    /\ (forall x, r = Some x -> range_ok (text s) x).
Proof.
  intros Hi.
  assert (forall m, exists r,
    ('(target, s') ← target_for_motion m s;
     Some (if cursor_pos s =? target then None
           else Some (if target <? cursor_pos s then mkRange target (cursor_pos s)
                      else mkRange (cursor_pos s) target), s')) = Some (r, s)
    /\ (forall x, r = Some x -> range_ok (text s) x)) as Hmove.
  { intros m'. destruct (target_for_motion_ok m' s Hi) as (t & -> & Ht). cbn.
    eexists. split; [done|]. intros x Hx. pose proof (inv_cursor _ Hi).
    destruct (_ =? _); [done|]. injection Hx as <-.
    destruct (Nat.ltb_spec t (cursor_pos s)); split_and!; cbn; try done; lia. }
  destruct (linewise_range_ok m s Hi) as (r & Hr & Hok). unfold range_for_motion.
  destruct m; try apply Hmove; rewrite Hr; cbn; eauto.
Qed.

Lemma apply_vim_operator_safe op m : safe (apply_vim_operator op m).
Proof.
  intros s Hi. unfold apply_vim_operator. destruct (range_for_motion_ok m s Hi) as (r & -> & Hr). cbn.
  destruct r as [r|]; [|by apply some_safe].
  destruct op; [apply kill_range_safe|apply yank_range_safe]; auto.
Qed.

Lemma handle_vim_operator_safe op e : safe (handle_vim_operator op e).
Proof.
  intros s Hi. unfold handle_vim_operator.
  destruct (_ && _); [by apply (kills_safe _ kill_current_line_kills)|].
  destruct (_ && _); [by apply yank_current_line_safe|].
  destruct (is_pressed _ _); [by apply some_safe|].
  destruct (vim_motion_for_event s e); [by apply apply_vim_operator_safe|by apply some_safe].
Qed.

Lemma handle_vim_normal_safe e : safe (handle_vim_normal e).
Proof.
  intros s Hi. unfold handle_vim_normal. destruct (vim_operator s) as [op|].
  - assert (kept s (with_operator None s)) as Hk by by apply kept_frame.
    eapply steps_trans; [exact Hk|]. apply handle_vim_operator_safe, Hk.
  - destruct (first_pressed _ _) as [a|] eqn:E; [|by apply some_safe].
    exact (pressed_safe _ _ _ (vim_actions_safe _) E s Hi).
Qed.

(** A line cannot start inside an element that holds no newline. *)
Lemma line_start_clear s p :
  inv s -> lines_apart s ->
  (0 < p -> exists a b, text s = a ++ NL :: b /\ byte_len a = p - 1) ->
  clear (elements s) p.
Proof.
  intros Hi Hl Hp. apply Forall_forall. intros e He [H1 H2].
  destruct (Hp ltac:(lia)) as (a & b & Ht & Ha).
  pose proof (element_range_ok _ _ _ (inv_elements _ Hi) He) as Hr.
  apply slice_is_Some in Hr as [m Hm].
  unfold lines_apart, tags in Hl. rewrite Forall_fmap, Forall_forall in Hl.
  specialize (Hl _ He). unfold one_line, tag, payload, slice_range in Hl. cbn in Hl.
  rewrite Hm in Hl. apply Hl. apply slice_Some in Hm as (x & y & Ht' & Hx & Hlen).
  rewrite Ht in Ht'. symmetry in Ht'.
  destruct (prefix_by_len _ _ _ _ Ht' ltac:(lia)) as (u & -> & Hu).
  rewrite byte_len_app in Ha. symmetry in Hu.
  assert (exists v, m = u ++ NL :: v) as [v ->]; [|apply elem_of_app; right; by left].
  destruct (prefix_by_len _ _ _ _ Hu ltac:(lia)) as (v & -> & Hv).
  destruct v as [|c v]; [|injection Hv as <- _; by exists v].
  rewrite app_nil_r in Hlen. lia.
Qed.

Lemma vim_escape_safe : safe vim_escape.
Proof.
  intros s Hi. unfold vim_escape, beginning_of_current_line.
  destruct (beginning_of_line_ok s _ (inv_cursor _ Hi)) as (bol & -> & Hb & Hle & Hnl). cbn.
  apply steps_bind.
  - destruct (Nat.ltb_spec bol (cursor_pos s)) as [Hlt|]; [|by apply steps_some, kept_refl].
    destruct (prev_atomic_boundary_ok s _ (inv_elements _ Hi) (inv_cursor _ Hi))
      as (p & -> & Hp & Hc & _). cbn. apply steps_some. split.
    + split; [|apply Hi|apply Hi]. cbn. by destruct (Nat.max_dec p bol) as [->| ->].
    + done.
    + intros Hl _. unfold outside. cbn.
      destruct (Nat.max_dec p bol) as [->| ->]; [done|by apply line_start_clear].
  - intros s' Hk. unfold enter_vim_normal_mode. apply steps_some.
    destruct (vim_enabled s'); [by apply kept_frame; [apply Hk|..]|by apply kept_refl, Hk].
Qed.

Lemma input_safe w e : safe (input w e).
Proof.
  intros s Hi. unfold input. destruct (negb _); [by apply some_safe|].
  destruct (vim_enabled s); [|by apply input_with_keymap_safe].
  destruct (vim_mode s); [by apply handle_vim_normal_safe|].
  unfold handle_vim_insert. destruct (bool_decide _); [by apply vim_escape_safe|].
  by apply input_with_keymap_safe.
Qed.

(** ** Every sequence of operations *)

(** What the callers guarantee: a replaced range is a slice of the text, and
    the elements of a new text do not overlap. *)
Definition op_ok (s : TextArea) (op : Op) : Prop :=
  match op with
  | ReplaceRange r _ => range_ok (text s) r
  | SetText _ (Some els) => StronglySorted disjoint els
  | _ => True
  end.

Inductive text_reachable : TextArea -> Prop :=
| reach_new : text_reachable new_textarea
| reach_op s op s' :
    text_reachable s -> op_ok s op -> apply_op op s = Some s' -> text_reachable s'.

Lemma inv_new : inv new_textarea.
Proof. split; [apply at_boundary_0|split; constructor|done]. Qed.

Lemma steps_inv s r : steps s r -> exists s', r = Some s' /\ inv s'.
Proof. intros (s' & -> & Hk). exists s'. split; [done|apply Hk]. Qed.

Lemma fmap_snd_inv {A} (r : option (A * TextArea)) :
  (exists b s', r = Some (b, s') /\ inv s') -> exists s', snd <$> r = Some s' /\ inv s'.
Proof. intros (b & s' & -> & Hi). by exists s'. Qed.

Lemma apply_op_inv s op : inv s -> op_ok s op -> exists s', apply_op op s = Some s' /\ inv s'.
Proof.
  intros Hi Hop.
  assert (forall s', kept s s' -> exists s'', Some s' = Some s'' /\ inv s'') as Hkept
    by (intros s' Hk; exists s'; split; [done|apply Hk]).
  assert (forall f, safe f -> exists s', f s = Some s' /\ inv s') as Hsafe
    by (intros f Hf; by apply (steps_inv s), Hf).
  destruct op; cbn [apply_op op_ok] in *; try (by apply Hsafe; eauto with text_area).
  - eexists. split; [done|]. apply set_text_inner_inv; [done|]. by intros l ->.
  - by apply (steps_inv s), insert_str_at_steps.
  - by apply (steps_inv s), replace_range_steps.
  - by apply Hkept, set_cursor_kept.
  - by apply (steps_inv s), input_safe.
  - by apply (steps_inv s), input_with_keymap_safe.
  - by apply fmap_snd_inv, replace_element_payload_inv.
  - by apply fmap_snd_inv, insert_element_inv.
  - by apply fmap_snd_inv, insert_element_inv.
  - by apply fmap_snd_inv, replace_element_by_id_inv.
  - by apply fmap_snd_inv, update_named_element_inv.
  - eexists. split; [done|]. by apply add_element_range_inv.
  - eexists. split; [done|]. by apply remove_element_range_inv.
  - by apply Hkept, kept_frame.
  - apply Hkept. unfold enter_vim_insert_mode. by destruct (vim_enabled s); apply kept_frame.
  - apply Hkept. unfold enter_vim_normal_mode. by destruct (vim_enabled s); apply kept_frame.
  - by apply Hkept, kept_frame.
  - destruct (wrapped_lines_ok w s Hi) as (lines & s' & -> & Hk & _). by apply Hkept.
Qed.

Lemma text_reachable_inv s : text_reachable s -> inv s.
Proof.
  induction 1 as [|s op s' _ Hi Hop Hs]; [exact inv_new|].
  destruct (apply_op_inv s op Hi Hop) as (s'' & Hs' & Hi'). rewrite Hs in Hs'. by injection Hs' as ->.
Qed.

Lemma set_text_keeps_kill_buffer t els s :
  kill_buffer (set_text_inner t els s) = kill_buffer s
  /\ kill_buffer_kind (set_text_inner t els s) = kill_buffer_kind s.
Proof.
  destruct els as [els|]; [|done]. unfold set_text_inner. cbn.
  match goal with |- context [fold_left _ els ?s0] =>
    change (kill_buffer s) with (kill_buffer s0);
    change (kill_buffer_kind s) with (kill_buffer_kind s0); generalize s0 end.
  induction els as [|r els IH]; intros s0; [done|]. cbn [fold_left].
  destruct (IH (push_user_element s0 r)) as [-> ->].
  unfold push_user_element. by destruct (_ <=? _).
Qed.

Definition kill_commands : list (TextArea -> option TextArea) :=
  [kill_to_end_of_line; kill_to_beginning_of_line; kill_current_line; delete_backward_word;
   delete_forward_word; delete_forward_kill 1].

Lemma kill_commands_kill : Forall kills kill_commands.
Proof.
  repeat (apply Forall_cons; split; [eauto with text_area|]); apply Forall_nil_2.
Qed.

Lemma partition_point_le lines pos : partition_point lines pos <= length lines.
Proof. induction lines as [|r lines IH]; cbn; [lia|]. destruct (_ <=? _); lia. Qed.

Lemma line_index_lt lines pos :
  lines <> [] -> default 0 (wrapped_line_index_by_start lines pos) < length lines.
Proof.
  intros Hl. pose proof (partition_point_le lines pos). unfold wrapped_line_index_by_start.
  destruct (partition_point lines pos); cbn; [|lia]. destruct lines; [done|cbn; lia].
Qed.

(** C30. From the empty text, whatever the operations and their order, none
    panics: every slice the code takes, by bytes, is in bounds and on
    character boundaries.  After each one the cursor is on a character
    boundary, the elements are slices of the text in order and none is over
    another.  The callers must pass a slice of the text to [replace_range] and
    elements that do not overlap to [set_text_with_elements]. *)
Theorem textarea_never_panics s op :
  text_reachable s -> op_ok s op ->
  exists s', apply_op op s = Some s'
    /\ at_boundary (text s') (cursor_pos s') /\ elements_ok (text s') (elements s').
Proof.
  intros Hs Hop. destruct (apply_op_inv s op (text_reachable_inv s Hs) Hop) as (s' & Hs' & Hi).
  exists s'. split; [done|]. split; apply Hi.
Qed.

(** A key, in any mode and under any keymap, never panics and leaves each
    element whole or removes it: the elements after it, by id, name and text,
    are those before without some.  When no element holds a newline, the
    cursor does not get inside one. *)
Theorem keys_keep_elements_whole windows e s :
  text_reachable s ->
  exists s', input windows e s = Some s'
    /\ tags s' `sublist_of` tags s
    /\ (lines_apart s -> outside s -> outside s').
Proof.
  intros Hs. destruct (input_safe windows e s (text_reachable_inv s Hs)) as (s' & Hs' & [_ Ht Ho]).
  by exists s'.
Qed.

(** Every kill command either changes nothing or is undone by a yank: the
    text is again what it was, elements included as plain text. *)
Theorem kill_then_yank_restores f s :
  f ∈ kill_commands -> text_reachable s -> yank_restores s (f s).
Proof.
  intros Hf Hs%text_reachable_inv. pose proof kill_commands_kill as Hk.
  rewrite Forall_forall in Hk. destruct (Hk f Hf s Hs) as [->|(r & k & -> & Hr & Hc)].
  - exists s. auto.
  - by apply kill_range_restores.
Qed.

(** The scroll of an area of [h] rows: with fewer than 65536 wrapped lines
    no [u16] overflows, the line of the cursor is one of the rows shown, and a
    text that fits is not scrolled. *)
Theorem cursor_stays_visible s w h current :
  text_reachable s -> (0 < h < 65536)%N ->
  exists lines s', wrapped_lines w s = Some (lines, s') /\
    let i := N.of_nat (default 0 (wrapped_line_index_by_start lines (cursor_pos s))) in
    (length lines < N.to_nat 65536 ->
     exists r, effective_scroll s' h lines current = Some r
       /\ (r <= i < r + h)%N /\ (N.of_nat (length lines) <= h -> r = 0)%N).
Proof.
  intros Hs Hh. destruct (wrapped_lines_ok w s (text_reachable_inv s Hs))
    as (lines & s' & Hw & _ & Hcur & _). exists lines, s'. split; [done|]. cbn zeta. intros Hlen.
  unfold effective_scroll. rewrite Hcur.
  assert (default 0 (wrapped_line_index_by_start lines (cursor_pos s)) < length lines
          \/ lines = [] /\ default 0 (wrapped_line_index_by_start lines (cursor_pos s)) = 0) as Hi.
  { destruct (decide (lines = [])) as [->|Hne]; [by right|]. left. by apply line_index_lt. }
  revert Hi. generalize (default 0 (wrapped_line_index_by_start lines (cursor_pos s))). intros i Hi.
  assert (i < N.to_nat 65536) by (destruct Hi as [?|[_ ->]]; lia).
  unfold u16. rewrite !N.mod_small by lia. unfold u16_add.
  destruct (N.leb_spec (N.of_nat (length lines)) h) as [Hfit|Hfit].
  { exists 0%N. split_and!; [done|lia| |done]. destruct Hi as [?|[_ ->]]; lia. }
  destruct Hi as [Hi|[-> _]]; [|cbn in Hfit; lia].
  set (scroll := N.min current (N.of_nat (length lines) - h)).
  assert (scroll <= N.of_nat (length lines) - h)%N by (unfold scroll; lia).
  destruct (N.ltb_spec (N.of_nat i) scroll).
  { eexists. split_and!; [done|lia|lia|lia]. }
  destruct (N.ltb_spec (scroll + h) 65536); [|lia]. cbn [mbind option_bind].
  destruct (N.leb_spec (scroll + h) (N.of_nat i)); [|eexists; split_and!; [done|lia|lia|lia]].
  destruct (N.ltb_spec (N.of_nat i + 1) 65536); [|lia]. eexists. split_and!; [done|lia|lia|lia].
Qed.

End Words.

(** ** A concrete environment: graphemes are characters, a run is one word
    piece, and lines wrap at newlines only. *)

Module Simple.
Definition prev (t : str) (pos : nat) : result GraphemeIncomplete (option nat) :=
  match split_at pos t with
  | Some (a, _) => Ok ((fun c => pos - len_utf8 c) <$> last a)
  | None => Err Incomplete
  end.
Definition next (t : str) (pos : nat) : result GraphemeIncomplete (option nat) :=
  match split_at pos t with
  | Some (_, b) => Ok ((fun c => pos + len_utf8 c) <$> head b)
  | None => Err Incomplete
  end.
Fixpoint char_indices (off : nat) (t : str) : list (nat * str) :=
  match t with [] => [] | c :: r => (off, [c]) :: char_indices (off + len_utf8 c) r end.
Fixpoint line_slices (off : nat) (l : list str) : list WrappedLine :=
  match l with
  | [] => []
  | p :: l => Borrowed (Some (mkRange off (off + byte_len p))) p :: line_slices (off + byte_len p + 1) l
  end.
End Simple.

#[export] Instance simple_env : TextEnv := {|
  gc_prev_boundary := Simple.prev;
  gc_next_boundary := Simple.next;
  grapheme_indices := Simple.char_indices 0;
  split_word_bound_indices t := if is_empty t then [] else [(0, t)];
  width := length;
  textwrap t _ := Simple.line_slices 0 (split NL t)
|}.

Lemma char_indices_boundary pre t :
  Forall (fun g => at_boundary (pre ++ t) (fst g)) (Simple.char_indices (byte_len pre) t).
Proof.
  revert pre. induction t as [|c t IH]; intros pre; cbn; constructor; [apply at_boundary_app|].
  specialize (IH (pre ++ [c])). rewrite byte_len_app, byte_len_cons, <- app_assoc in IH.
  change (byte_len []) with 0 in IH. by rewrite Nat.add_0_r in IH.
Qed.

Lemma line_slices_in_order n pre u from :
  length u < n -> from <= byte_len pre ->
  slices_in_order (pre ++ u) from (Simple.line_slices (byte_len pre) (split NL u)).
Proof.
  revert pre u from. induction n as [|n IH]; intros pre u from Hn Hle; [lia|].
  assert (forall x v, slice_range (pre ++ x ++ v) (mkRange (byte_len pre) (byte_len pre + byte_len x))
    = Some x) as Hslice by (intros; apply slice_app).
  destruct (split_once NL u) as [[x v]|] eqn:E.
  - apply split_once_Some in E as [-> Hx]. rewrite split_app by done. cbn.
    split_and!; [done|apply Hslice|]. intros rest Hrest.
    assert (rest = NL :: v) as ->.
    { rewrite app_assoc, <- byte_len_app in Hrest. apply suffix_from_Some in Hrest as (y & Hy & Hlen).
      destruct (prefix_by_len _ _ _ _ Hy ltac:(lia)) as (m & -> & Hm). rewrite byte_len_app in Hlen.
      by rewrite (byte_len_nil m) in Hm by lia. }
    change (count_spaces (NL :: v)) with 0. rewrite Nat.add_0_r.
    specialize (IH (pre ++ x ++ [NL]) v (byte_len pre + byte_len x)).
    rewrite !byte_len_app, <- !app_assoc in IH. change (byte_len [NL]) with 1 in IH.
    rewrite Nat.add_assoc in IH. apply IH; [|lia]. rewrite length_app in Hn. cbn in Hn. lia.
  - apply split_once_None in E. rewrite split_no_char by done. cbn.
    split_and!; [done| |done]. specialize (Hslice u []). by rewrite app_nil_r in Hslice.
Qed.

#[export] Instance simple_laws : TextEnvLaws.
Proof.
  split; cbn.
  - intros t pos (a & b & -> & <-) Hpos. unfold Simple.prev. rewrite split_at_app.
    destruct a as [|c a _] using rev_ind; [by apply Nat.lt_irrefl in Hpos|].
    rewrite last_snoc. cbn. eexists. split; [done|].
    rewrite byte_len_app, byte_len_cons. change (byte_len []) with 0. pose proof (len_utf8_pos c).
    replace (_ - _) with (byte_len a) by lia. rewrite <- app_assoc.
    split; [apply at_boundary_app|lia].
  - intros t pos (a & b & -> & <-) Hpos. unfold Simple.next. rewrite split_at_app.
    destruct b as [|c b]; [rewrite app_nil_r in Hpos; lia|]. cbn. eexists. split; [done|].
    pose proof (len_utf8_pos c). split; [|lia]. exists (a ++ [c]), b.
    rewrite byte_len_app, byte_len_cons, <- app_assoc. split; [done|]. change (byte_len []) with 0. lia.
  - intros t. apply (char_indices_boundary []).
  - intros [|c t]; [done|]. cbn [is_empty]. split; [done|]. exists [].
    by rewrite app_nil_r.
  - intros t _. by apply (line_slices_in_order (S (length t)) [] t 0); [lia|].
Qed.

(** ** Witnesses *)

Fixpoint run_ops (ops : list Op) (s : TextArea) : option TextArea :=
  match ops with
  | [] => Some s
  | op :: ops => s ← apply_op op s; run_ops ops s
  end.

Definition press (s : str) : Op := Input false (key_press (key s) NONE).
Definition press_ctrl (s : str) : Op := Input false (key_press (key s) CONTROL).

(** Backspace after an element removes it whole; control-k and control-y give
    the end of the line back as plain text. *)
Example element_keys :
  (fun s => (text s, cursor_pos s, element_payloads s)) <$>
    run_ops [InsertStr "see "; InsertElement "[Image 1]"; Input false (key_press Backspace NONE)]
      new_textarea = Some ("see " : str, 4, []) /\
  (fun s => (text s, cursor_pos s, element_payloads s)) <$>
    run_ops [InsertStr "see "; InsertElement "[Image 1]"; SetCursor 6; press_ctrl "k"; SetCursor 0;
             press_ctrl "y"] new_textarea = Some ("[Image 1]see " : str, 9, []).
Proof. split; vm_compute; reflexivity. Qed.

(** [o] on the last line opens a line below but leaves the cursor on the line
    it was on: the test [eol < text.len()] is made after the newline is
    inserted, and the typed text goes before the newline.  On another line the
    cursor is on the line that was opened. *)
Example open_line_below_last_line :
  (fun s => (text s, cursor_pos s)) <$>
    run_ops [SetText "abc" None; SetVimEnabled true; press "o"; press "x"] new_textarea
  = Some (("abcx" ++ [NL])%list : str, 4) /\
  (fun s => (text s, cursor_pos s)) <$>
    run_ops [SetText ("abc" ++ [NL] ++ "d") None; SetVimEnabled true; press "o"; press "x"] new_textarea
  = Some (("abc" ++ [NL] ++ "x" ++ [NL] ++ "d")%list : str, 5).
Proof. split; vm_compute; reflexivity. Qed.

(** Escape can put the cursor inside an element that holds a newline, and so
    can an element added around it. *)
Example cursor_inside_elements :
  (fun s => (cursor_pos s, range <$> elements s)) <$>
    run_ops [SetVimEnabled true; EnterVimInsertMode; InsertElement ("a" ++ [NL] ++ "b");
             Input false (key_press Esc NONE)] new_textarea
  = Some (2, [mkRange 0 3]) /\
  (fun s => (cursor_pos s, range <$> elements s)) <$>
    run_ops [InsertStr "/plan"; SetCursor 2; AddElementRange (mkRange 0 5)] new_textarea
  = Some (2, [mkRange 0 5]).
Proof. split; vm_compute; reflexivity. Qed.

(** A draft with an element, wrapped. *)
Definition demo_text : TextArea :=
  set_text_inner "hi there" (Some [mkRange 3 8]) new_textarea.
Definition demo_draft : TextArea := default demo_text (apply_op (Wrap 10) demo_text).

Lemma demo_draft_reachable : text_reachable demo_draft.
Proof.
  apply (reach_op demo_text (Wrap 10)); [|done|reflexivity].
  apply (reach_op new_textarea (SetText "hi there" (Some [mkRange 3 8]))); [apply reach_new| |done].
  by repeat constructor.
Qed.

Lemma textarea_never_panics_witness :
  op_ok demo_draft (ReplaceRange (mkRange 2 4) "x") /\
  exists s', apply_op (ReplaceRange (mkRange 2 4) "x") demo_draft = Some s'
    /\ at_boundary (text s') (cursor_pos s') /\ elements_ok (text s') (elements s').
Proof.
  assert (op_ok demo_draft (ReplaceRange (mkRange 2 4) "x")) as H.
  { apply slice_is_Some. by eexists. }
  split; [exact H|]. apply (textarea_never_panics demo_draft); [exact demo_draft_reachable|exact H].
Defined.

Lemma keys_keep_elements_whole_witness :
  exists s', input false (key_press Backspace NONE) demo_draft = Some s'
    /\ tags s' `sublist_of` tags demo_draft
    /\ (lines_apart demo_draft -> outside demo_draft -> outside s').
Proof. apply (keys_keep_elements_whole false _ demo_draft), demo_draft_reachable. Defined.

Lemma kill_then_yank_restores_witness : yank_restores demo_draft (kill_current_line demo_draft).
Proof.
  apply (kill_then_yank_restores kill_current_line demo_draft);
    [right; right; left|exact demo_draft_reachable].
Defined.

Lemma cursor_stays_visible_witness :
  exists lines s', wrapped_lines 10 demo_draft = Some (lines, s') /\
    let i := N.of_nat (default 0 (wrapped_line_index_by_start lines (cursor_pos demo_draft))) in
    (length lines < N.to_nat 65536 ->
     exists r, effective_scroll s' 1 lines 0 = Some r
       /\ (r <= i < r + 1)%N /\ (N.of_nat (length lines) <= 1 -> r = 0)%N).
Proof. apply (cursor_stays_visible demo_draft); [exact demo_draft_reachable|split; reflexivity]. Defined.
