(* ===== verification/AgentPath.v ===== *)
(** * AgentPath: the names of agents

    [codex-rs/protocol/src/agent_path.rs]: an absolute path of agent names
    under [/root], or the single path [/morpheus].  An [AgentPath] is its
    string; [valid] is what its constructors establish. *)

From S2P Require Import Prelude RustStr.
Open Scope str_scope.

Abbreviation AgentPath := str (only parsing).
Definition SLASH : char := 47%N.

Definition ROOT : AgentPath := "/root".
Definition MORPHEUS : AgentPath := "/morpheus".
Definition ROOT_SEGMENT : str := "root".

Definition is_root (p : AgentPath) : bool := bool_decide (p = ROOT).

Definition validate_agent_name (agent_name : str) : result str unit :=
  if is_empty agent_name then Err "agent_name must not be empty"
  else if bool_decide (agent_name = ROOT_SEGMENT) then Err "agent_name `root` is reserved"
  else if bool_decide (agent_name = ".") || bool_decide (agent_name = "..") then
    Err ("agent_name `" ++ agent_name ++ "` is reserved")
  else if contains_char agent_name SLASH then Err "agent_name must not contain `/`"
  else if negb (forallb (fun ch => is_ascii_lowercase ch || is_ascii_digit ch || (ch =? 95)%N) agent_name)
  then Err "agent_name must use only lowercase letters, digits, and underscores"
  else Ok tt.

Fixpoint validate_segments (segments : list str) : result str unit :=
  match segments with
  | [] => Ok tt
  | segment :: segments => _ ← validate_agent_name segment; validate_segments segments
  end.

Definition validate_absolute_path (path : str) : result str unit :=
  if bool_decide (path = MORPHEUS) then Ok tt
  else
    match strip_prefix [SLASH] path with
    | None => Err "absolute agent paths must start with `/root` or be `/morpheus`"
    | Some stripped =>
        match split SLASH stripped with
        | [] => Err "absolute agent path must not be empty"
        | root :: segments =>
            if negb (bool_decide (root = ROOT_SEGMENT))
            then Err "absolute agent paths must start with `/root` or be `/morpheus`"
            else if ends_with stripped [SLASH]
            then Err "absolute agent path must not end with `/`"
            else validate_segments segments
        end
    end.

Definition validate_relative_reference (reference : str) : result str unit :=
  if ends_with reference [SLASH] then Err "relative agent path must not end with `/`"
  else validate_segments (split SLASH reference).

Definition from_string (path : str) : result str AgentPath :=
  _ ← validate_absolute_path path; Ok path.

Definition name (p : AgentPath) : str :=
  if is_root p then ROOT_SEGMENT
  else
    let segment := match rsplit_once SLASH p with Some (_, s) => s | None => p end in
    if is_empty segment then ROOT_SEGMENT else segment.

Definition join (p : AgentPath) (agent_name : str) : result str AgentPath :=
  _ ← validate_agent_name agent_name; from_string (p ++ [SLASH] ++ agent_name).

Definition resolve (p : AgentPath) (reference : str) : result str AgentPath :=
  if is_empty reference then Err "agent path must not be empty"
  else if bool_decide (reference = ROOT) then Ok ROOT
  else if starts_with reference [SLASH] then from_string reference
  else _ ← validate_relative_reference reference; from_string (p ++ [SLASH] ++ reference).

Example agent_path_tests :
  (p ← join ROOT "researcher"; resolve p "worker_2") = Ok "/root/researcher/worker_2" /\
  resolve "/root/a" "/root" = Ok ROOT /\ resolve "/root/a" "/morpheus" = Ok MORPHEUS /\
  is_ok (resolve "/root/a" "../b") = false /\ is_ok (from_string "/root/") = false /\
  is_ok (from_string "/other/a") = false /\ is_ok (resolve MORPHEUS "a") = false /\
  name "/root/a/b" = "b" /\ name ROOT = "root".
Proof. by vm_compute. Qed.

(** ** Valid paths *)

Definition agent_name (n : str) : Prop :=
  n <> [] /\ n <> ROOT_SEGMENT /\
  Forall (fun ch => is_ascii_lowercase ch || is_ascii_digit ch || (ch =? 95)%N = true) n.

(** The path of the names [ns] under the root. *)
Definition path_of (ns : list str) : str := RustStr.join [SLASH] ([] :: ROOT_SEGMENT :: ns).

Definition valid (p : str) : Prop := p = MORPHEUS \/ exists ns, Forall agent_name ns /\ p = path_of ns.

Lemma agent_name_no_slash n : agent_name n -> no_char SLASH n.
Proof. intros (_ & _ & H) Hin. rewrite Forall_forall in H. by specialize (H _ Hin). Qed.

Lemma validate_agent_name_Ok n u : validate_agent_name n = Ok u <-> agent_name n.
Proof.
  unfold validate_agent_name, agent_name.
  destruct n as [|c n]; cbn [is_empty]; [split; [done|naive_solver]|].
  set (w := c :: n). assert (w <> []) as Hw by done. clearbody w.
  assert (forallb (fun ch => is_ascii_lowercase ch || is_ascii_digit ch || (ch =? 95)%N) w = true <->
    Forall (fun ch => is_ascii_lowercase ch || is_ascii_digit ch || (ch =? 95)%N = true) w) as Hall.
  { rewrite forallb_forall, Forall_forall. split; intros H x Hx; apply H; by apply list_elem_of_In. }
  case_bool_decide as H1; [split; [done|naive_solver]|].
  destruct (bool_decide (w = ".") || bool_decide (w = "..")) eqn:H2.
  { split; [done|]. intros (_ & _ & H). apply Hall in H.
    apply orb_true_iff in H2 as [H2|H2]; apply bool_decide_eq_true in H2; subst w; done. }
  destruct (contains_char w SLASH) eqn:H3.
  { split; [done|]. intros Hn. apply contains_char_spec in H3.
    by destruct (agent_name_no_slash w Hn). }
  destruct (forallb _ w); cbn [negb].
  - destruct u. split; [|done]. intros _. by split_and!; [| |apply Hall].
  - split; [done|]. intros (_ & _ & H). by apply Hall in H.
Qed.

Lemma validate_segments_Ok ns u : validate_segments ns = Ok u <-> Forall agent_name ns.
Proof.
  destruct u. induction ns as [|n ns IH]; cbn; [done|].
  rewrite result_bind_Ok, Forall_cons, <- IH. split.
  - intros (v & Hv & H). split; [by eapply validate_agent_name_Ok|done].
  - intros [Hn H]. exists tt. by rewrite validate_agent_name_Ok.
Qed.

Lemma path_of_cons ns : path_of ns = SLASH :: RustStr.join [SLASH] (ROOT_SEGMENT :: ns).
Proof. done. Qed.

Lemma trailing_slash_spec s : ends_with s [SLASH] = true <-> exists t, s = t ++ [SLASH].
Proof.
  unfold ends_with. rewrite bool_decide_eq_true. split.
  - intros [t Ht]. exists t. by apply strip_suffix_Some.
  - intros [t ->]. exists t. by apply strip_suffix_Some.
Qed.

(** A join of nonempty names without slashes ends in no slash. *)
Lemma join_no_trailing ns :
  ns <> [] -> Forall (fun n => n <> [] /\ no_char SLASH n) ns -> ends_with (RustStr.join [SLASH] ns) [SLASH] = false.
Proof.
  intros Hne Hall. apply not_true_is_false. intros [t Ht]%trailing_slash_spec.
  assert (split SLASH (RustStr.join [SLASH] ns) = ns) as Hs.
  { apply split_join; [done|]. eapply Forall_impl; [done|]. by intros ? []. }
  destruct ns as [|n ns _] using rev_ind; [done|].
  apply Forall_app in Hall as [_ [[Hn Hns] _]%Forall_cons].
  assert (exists u, RustStr.join [SLASH] (ns ++ [n]) = u ++ n) as [u Hu].
  { destruct ns as [|x ns]; [by exists []|]. rewrite join_snoc by done.
    exists (RustStr.join [SLASH] (x :: ns) ++ [SLASH]). by rewrite <- app_assoc. }
  rewrite Hu in Ht. destruct n as [|c n _] using rev_ind; [done|].
  rewrite app_assoc in Ht. apply app_inj_tail in Ht as [_ ->].
  apply no_char_app in Hns as [_ [? _]%no_char_cons]. done.
Qed.

Lemma agent_names_clean ns : Forall agent_name ns -> Forall (fun n => n <> [] /\ no_char SLASH n) (ROOT_SEGMENT :: ns).
Proof.
  intros H. constructor.
  - split; [done|]. by apply (bool_decide_unpack _).
  - eapply Forall_impl; [exact H|]. intros n Hn. split; [apply Hn|by apply agent_name_no_slash].
Qed.

(** The constructor accepts exactly the valid paths. *)
Lemma from_string_Ok p q : from_string p = Ok q <-> p = q /\ valid p.
Proof.
  unfold from_string. rewrite result_bind_Ok.
  assert (validate_absolute_path p = Ok tt <-> valid p) as H.
  { unfold validate_absolute_path, valid. case_bool_decide as Hm; [naive_solver|].
    destruct (strip_prefix [SLASH] p) as [stripped|] eqn:Es.
    2: { split; [done|]. intros [?|(ns & _ & ->)]; [done|]. by rewrite path_of_cons in Es. }
    apply strip_prefix_Some in Es as ->. cbn [app].
    pose proof (join_split SLASH stripped) as Hj.
    assert (forall ns, Forall agent_name ns -> SLASH :: stripped = path_of ns ->
      split SLASH stripped = ROOT_SEGMENT :: ns /\ ends_with stripped [SLASH] = false) as Hns.
    { intros ns Hns Hp. rewrite path_of_cons in Hp. 
      assert (stripped = RustStr.join [SLASH] (ROOT_SEGMENT :: ns)) as Hst by exact (f_equal (drop 1) Hp).
      rewrite Hst.
      pose proof (agent_names_clean ns Hns) as Hc. split; [|by apply join_no_trailing].
      apply split_join; [done|]. eapply Forall_impl; [exact Hc|]. by intros ? []. }
    destruct (split SLASH stripped) as [|root segments] eqn:E; [by destruct (split_nonempty SLASH stripped)|].
    case_bool_decide as Hr; cbn [negb].
    2: { split; [done|]. intros [?|(ns & H1 & H2)]; [done|]. by destruct (Hns ns H1 H2) as [[= ? ?] _]. }
    subst root. destruct (ends_with stripped [SLASH]) eqn:Ee.
    { split; [done|]. intros [?|(ns & H1 & H2)]; [done|]. by destruct (Hns ns H1 H2) as [_ ?]. }
    rewrite validate_segments_Ok. split.
    - intros H. right. exists segments. split; [done|]. by rewrite path_of_cons, Hj.
    - intros [?|(ns & H1 & H2)]; [done|]. destruct (Hns ns H1 H2) as [[= ->] _]. done. }
  split.
  - intros ([] & Hu & [= <-]). split; [done|]. by apply H.
  - intros [<- Hv]. exists tt. split; [by apply H|done].
Qed.

Lemma join_app sep (xs ys : list str) :
  xs <> [] -> ys <> [] -> RustStr.join sep (xs ++ ys) = RustStr.join sep xs ++ sep ++ RustStr.join sep ys.
Proof.
  intros Hx Hy. induction xs as [|x xs IH]; [done|]. destruct xs as [|x' xs].
  - by destruct ys.
  - cbn [app]. rewrite !join_cons. cbn [app] in IH. rewrite IH by done. by rewrite <- !app_assoc.
Qed.

Lemma path_of_app ns ms : ms <> [] -> path_of (ns ++ ms) = path_of ns ++ [SLASH] ++ RustStr.join [SLASH] ms.
Proof. intros Hms. unfold path_of. exact (join_app [SLASH] ([] :: ROOT_SEGMENT :: ns) ms ltac:(done) Hms). Qed.

Lemma path_of_inj ns ms : Forall agent_name ns -> Forall agent_name ms -> path_of ns = path_of ms -> ns = ms.
Proof.
  intros Hn Hm H. apply (f_equal (split SLASH)) in H. unfold path_of in H.
  assert (forall l, Forall agent_name l -> Forall (no_char SLASH) ([] :: ROOT_SEGMENT :: l)) as Hc.
  { intros l Hl. constructor; [apply not_elem_of_nil|]. apply agent_names_clean in Hl.
    eapply Forall_impl; [exact Hl|]. by intros ? []. }
  rewrite !split_join in H by (done || by apply Hc). by injection H.
Qed.

Lemma morpheus_child_invalid r : r <> [] -> ~ valid (MORPHEUS ++ [SLASH] ++ r).
Proof.
  intros Hr [H|(ns & _ & H)].
  - apply (f_equal length) in H. rewrite length_app in H. cbn in H. lia.
  - rewrite path_of_cons in H. apply (f_equal (fun s => s !! 1)) in H. by destruct ns.
Qed.

Lemma name_path_of ns n : agent_name n -> name (path_of (ns ++ [n])) = n.
Proof.
  intros Hn. unfold name. rewrite path_of_app by done. cbn [RustStr.join].
  assert (rsplit_once SLASH (path_of ns ++ [SLASH] ++ n) = Some (path_of ns, n)) as H.
  { apply rsplit_once_Some. split; [done|by apply agent_name_no_slash]. }
  unfold is_root. case_bool_decide as Hr.
  - rewrite Hr in H. vm_compute in H. injection H as _ <-. by destruct Hn as (_ & ? & _).
  - rewrite H. destruct Hn as (Hn & _). by destruct n.
Qed.

Lemma validate_relative_Ok r u :
  validate_relative_reference r = Ok u <-> exists ms, ms <> [] /\ Forall agent_name ms /\ r = RustStr.join [SLASH] ms.
Proof.
  unfold validate_relative_reference. destruct u. split.
  - destruct (ends_with r [SLASH]); [done|]. rewrite validate_segments_Ok. intros H.
    exists (split SLASH r). split_and!; [apply split_nonempty|done|by rewrite join_split].
  - intros (ms & Hne & Hms & ->). pose proof (agent_names_clean ms Hms) as Hc.
    apply Forall_cons in Hc as [_ Hc]. rewrite join_no_trailing by done.
    rewrite split_join; [by apply validate_segments_Ok|done|].
    eapply Forall_impl; [exact Hc|]. by intros ? [].
Qed.

Lemma from_string_descendant ns ms :
  Forall agent_name ns -> Forall agent_name ms -> ms <> [] ->
  from_string (path_of ns ++ [SLASH] ++ RustStr.join [SLASH] ms) = Ok (path_of (ns ++ ms)).
Proof.
  intros Hn Hm Hne. rewrite <- path_of_app by done. apply from_string_Ok. split; [done|].
  right. exists (ns ++ ms). split; [by apply Forall_app|done].
Qed.

Lemma resolve_descendant ns ms :
  Forall agent_name ns -> Forall agent_name ms -> ms <> [] ->
  resolve (path_of ns) (RustStr.join [SLASH] ms) = Ok (path_of (ns ++ ms)).
Proof.
  intros Hns Hms Hne. unfold resolve.
  assert (validate_relative_reference (RustStr.join [SLASH] ms) = Ok tt) as Hv
    by (apply validate_relative_Ok; eauto).
  assert (exists c r, RustStr.join [SLASH] ms = c :: r /\ c <> SLASH) as (c & r & E & Hc).
  { destruct ms as [|m ms]; [done|]. apply Forall_cons in Hms as [Hm _].
    pose proof (agent_name_no_slash m Hm) as Hns'. destruct Hm as (Hm & _).
    destruct m as [|c m]; [done|]. apply no_char_cons in Hns' as [Hc _].
    exists c. destruct ms; cbn; eauto. }
  assert (starts_with (RustStr.join [SLASH] ms) [SLASH] = false) as Hst.
  { apply not_true_is_false. intros [t Ht]%starts_with_spec. rewrite E in Ht. by injection Ht as ->. }
  assert (RustStr.join [SLASH] ms <> ROOT) as Hr.
  { intros H. rewrite E in H. injection H as -> _. done. }
  rewrite (proj2 (is_empty_false _)) by (by rewrite E).
  rewrite bool_decide_eq_false_2 by done. rewrite Hst, Hv. cbn [mbind result_bind].
  by apply from_string_descendant.
Qed.

(** A valid path is absolute. *)
Lemma resolve_valid p q : valid q -> resolve p q = Ok q.
Proof.
  intros Hq. unfold resolve.
  assert (exists r, q = SLASH :: r) as [r Hr].
  { destruct Hq as [->|(ns & _ & ->)]; [by eexists|rewrite path_of_cons; by eexists]. }
  rewrite (proj2 (is_empty_false q)) by (by rewrite Hr).
  case_bool_decide as E; [by rewrite E|].
  assert (starts_with q [SLASH] = true) as -> by (apply starts_with_spec; rewrite Hr; by exists r).
  by apply from_string_Ok.
Qed.

(** C39. Agent paths stay well formed: the constructor accepts exactly
    [/morpheus] and the paths of agent names under [/root]; joining a name to
    a path under the root gives the child of that name, and resolving gives
    the absolute path referred to, or the descendant along the relative
    names; so everything built from a valid path is valid, every valid path
    resolves to itself from anywhere, and children of [/morpheus] are
    refused. *)
Theorem agent_path_valid :
  (forall p q, from_string p = Ok q <-> p = q /\ valid p) /\
  (forall ns n, Forall agent_name ns ->
     (forall q, join (path_of ns) n = Ok q <-> agent_name n /\ q = path_of (ns ++ [n])) /\
     (agent_name n -> name (path_of (ns ++ [n])) = n)) /\
  (forall p q, valid q -> resolve p q = Ok q) /\
  (forall ns ms, Forall agent_name ns -> Forall agent_name ms -> ms <> [] ->
     resolve (path_of ns) (RustStr.join [SLASH] ms) = Ok (path_of (ns ++ ms))) /\
  (forall p n q, valid p -> join p n = Ok q -> valid q) /\
  (forall p r q, valid p -> resolve p r = Ok q -> valid q) /\
  (forall n q, join MORPHEUS n <> Ok q).
Proof.
  split_and!.
  - apply from_string_Ok.
  - intros ns n Hns. split; [|apply name_path_of].
    intros q. unfold join. rewrite result_bind_Ok. split.
    + intros (u & Hu & Hq). apply validate_agent_name_Ok in Hu. split; [done|].
      pose proof (from_string_descendant ns [n] Hns ltac:(by constructor) ltac:(done)) as Hsub.
      cbn [RustStr.join] in Hsub. rewrite Hsub in Hq. by injection Hq as <-.
    + intros [Hn ->]. exists tt. split; [by apply validate_agent_name_Ok|].
      exact (from_string_descendant ns [n] Hns ltac:(by constructor) ltac:(done)).
  - apply resolve_valid.
  - apply resolve_descendant.
  - intros p n q _ H. unfold join in H. apply result_bind_Ok in H as (u & _ & H).
    apply from_string_Ok in H as [<- H]. done.
  - intros p r q _ H. unfold resolve in H. destruct (is_empty r); [done|].
    case_bool_decide as E.
    { injection H as <-. right. by exists []. }
    destruct (starts_with r [SLASH]); [|apply result_bind_Ok in H as (u & _ & H)];
      apply from_string_Ok in H as [<- H]; done.
  - intros n q H. unfold join in H. apply result_bind_Ok in H as (u & Hu & H).
    apply validate_agent_name_Ok in Hu. apply from_string_Ok in H as [_ H].
    apply morpheus_child_invalid in H; [done|]. apply Hu.
Qed.
