(* ===== verification/AgentRegistry.v ===== *)
(** * AgentRegistry: the sub-agents of a session

    [codex-rs/core/src/agent/registry.rs] and the spawning discipline of
    [control.rs]: a counter of spawned threads behind compare-and-exchange,
    the tree of agents behind a lock, and the reservations that hold a slot
    until an agent is committed or the reservation is dropped.  Each operation
    on the locked tree is one function; [Step] interleaves them with the
    atomic operations on the counter.  Thread ids print as their UUID
    ([show_id], injective); the order of a hash map and the random choice of
    a name are arguments. *)

From S2P Require Import Prelude RustStr Truncate AgentPath.
Open Scope str_scope.

Section Registry.
Context {ThreadId : Type} `{EqDecision ThreadId}.
Variable show_id : ThreadId -> str.

Record AgentMetadata := mkMetadata {
  agent_id : option ThreadId;
  agent_path : option AgentPath;
  agent_nickname : option str;
  agent_role : option str;
  last_task_message : option str;
}.

Record ActiveAgents := mkActive {
  agent_tree : gmap str AgentMetadata;
  used_agent_nicknames : gset str;
  nickname_reset_count : N;
}.

Record AgentRegistry := mkRegistry {
  active_agents : ActiveAgents;
  total_count : N;
}.

Definition default_registry : AgentRegistry := mkRegistry (mkActive ∅ ∅ 0) 0.

Record SpawnReservation := mkReservation {
  active : bool;
  reserved_agent_nickname : option str;
  reserved_agent_path : option AgentPath;
}.

Inductive CodexErr :=
| AgentLimitReached (max_threads : N)
| UnsupportedOperation (message : str).

Definition set_tree (t : gmap str AgentMetadata) (a : ActiveAgents) : ActiveAgents :=
  mkActive t (used_agent_nicknames a) (nickname_reset_count a).
Definition set_active_agents (a : ActiveAgents) (r : AgentRegistry) : AgentRegistry :=
  mkRegistry a (total_count r).
Definition set_count (n : N) (r : AgentRegistry) : AgentRegistry := mkRegistry (active_agents r) n.
Definition on_tree (f : gmap str AgentMetadata -> gmap str AgentMetadata) (r : AgentRegistry) :
    AgentRegistry :=
  set_active_agents (set_tree (f (agent_tree (active_agents r))) (active_agents r)) r.
Definition tree (r : AgentRegistry) : gmap str AgentMetadata := agent_tree (active_agents r).

(** ** Names *)

Definition format_agent_nickname (name : str) (nickname_reset_count : N) : str :=
  if (nickname_reset_count =? 0)%N then name
  else
    let value := (nickname_reset_count + 1)%N in
    let suffix :=
      if ((11 <=? value mod 100) && (value mod 100 <=? 13))%N then "th"
      else if (value mod 10 =? 1)%N then "st"
      else if (value mod 10 =? 2)%N then "nd"
      else if (value mod 10 =? 3)%N then "rd"
      else "th" in
    name ++ " the " ++ format_number value ++ suffix.

Example format_agent_nickname_tests :
  map (format_agent_nickname "Ada") [0; 1; 2; 3; 10; 11; 12; 20; 21; 110; 111; 120]%N =
  ["Ada"; "Ada the 2nd"; "Ada the 3rd"; "Ada the 4th"; "Ada the 11th"; "Ada the 12th"; "Ada the 13th";
   "Ada the 21st"; "Ada the 22nd"; "Ada the 111th"; "Ada the 112th"; "Ada the 121st"].
Proof. by vm_compute. Qed.

(** [names.choose(&mut rand::rng())]; the two arguments of the function
    below are the choices it makes. *)
Definition reserve_agent_nickname (choose choose_again : list str -> option str)
    (names : list str) (preferred : option str) (a : ActiveAgents) : option str * ActiveAgents :=
  let use agent_nickname a :=
    (Some agent_nickname,
     mkActive (agent_tree a) ({[agent_nickname]} ∪ used_agent_nicknames a) (nickname_reset_count a)) in
  match preferred with
  | Some preferred => use preferred a
  | None =>
      if is_empty names then (None, a)
      else
        let available_names :=
          List.filter (fun name => negb (bool_decide (name ∈ used_agent_nicknames a)))
            (map (fun name => format_agent_nickname name (nickname_reset_count a)) names) in
        match choose available_names with
        | Some name => use name a
        | None =>
            let a := mkActive (agent_tree a) ∅ (nickname_reset_count a + 1) in
            match choose_again names with
            | Some name => use (format_agent_nickname name (nickname_reset_count a)) a
            | None => (None, a)
            end
        end
  end.

(** ** The tree *)

Definition register_root_thread (thread_id : ThreadId) (t : gmap str AgentMetadata) :
    gmap str AgentMetadata :=
  match t !! ROOT with
  | Some _ => t
  | None => <[ROOT := mkMetadata (Some thread_id) (Some ROOT) None None None]> t
  end.

Definition agent_id_for_path (path : AgentPath) (t : gmap str AgentMetadata) : option ThreadId :=
  md ← t !! path; agent_id md.

Definition register_spawned_thread (md : AgentMetadata) (a : ActiveAgents) : ActiveAgents :=
  match agent_id md with
  | None => a
  | Some thread_id =>
      let key := match agent_path md with Some p => p | None => "thread:" ++ show_id thread_id end in
      let nicknames := match agent_nickname md with
                       | Some n => {[n]} ∪ used_agent_nicknames a
                       | None => used_agent_nicknames a
                       end in
      mkActive (<[key := md]> (agent_tree a)) nicknames (nickname_reset_count a)
  end.

Definition reserve_agent_path (path : AgentPath) (t : gmap str AgentMetadata) :
    result CodexErr (gmap str AgentMetadata) :=
  match t !! path with
  | Some _ => Err (UnsupportedOperation ("agent path `" ++ path ++ "` already exists"))
  | None => Ok (<[path := mkMetadata None (Some path) None None None]> t)
  end.

Definition release_reserved_agent_path (path : AgentPath) (t : gmap str AgentMetadata) :
    gmap str AgentMetadata :=
  match t !! path with
  | Some md => if bool_decide (agent_id md = None) then delete path t else t
  | None => t
  end.

Definition is_root_metadata (md : AgentMetadata) : bool :=
  match agent_path md with Some p => is_root p | None => false end.

(** The order in which a hash map yields its entries. *)
Variable entries : gmap str AgentMetadata -> list (str * AgentMetadata).

Definition find_thread (thread_id : ThreadId) (t : gmap str AgentMetadata) : option (str * AgentMetadata) :=
  List.find (fun e => bool_decide (agent_id e.2 = Some thread_id)) (entries t).

Definition agent_metadata_for_thread (thread_id : ThreadId) (t : gmap str AgentMetadata) :
    option AgentMetadata :=
  snd <$> find_thread thread_id t.

Definition is_live (md : AgentMetadata) : bool :=
  bool_decide (is_Some (agent_id md)) && negb (is_root_metadata md).

Definition live_agents (t : gmap str AgentMetadata) : list AgentMetadata :=
  List.filter is_live (map snd (entries t)).

Definition update_last_task_message (thread_id : ThreadId) (message : str)
    (t : gmap str AgentMetadata) : gmap str AgentMetadata :=
  match find_thread thread_id t with
  | Some (key, md) =>
      <[key := mkMetadata (agent_id md) (agent_path md) (agent_nickname md) (agent_role md) (Some message)]> t
  | None => t
  end.

(** The locked part of [release_spawned_thread]: whether a counted agent went. *)
Definition release_thread (thread_id : ThreadId) (t : gmap str AgentMetadata) :
    bool * gmap str AgentMetadata :=
  match find_thread thread_id t with
  | Some (key, md) => (negb (is_root_metadata md), delete key t)
  | None => (false, t)
  end.

(** ** The counter *)

(** [fetch_add] and [fetch_sub] wrap. *)
Definition fetch_add (n : N) : N := ((n + 1) mod 2 ^ 64)%N.
Definition fetch_sub (n : N) : N := ((n + 2 ^ 64 - 1) mod 2 ^ 64)%N.

Inductive CasResult := Refused | Incremented (count : N) | Retry (current : N).

(** One round of the loop of [try_increment_spawned]; the weak exchange may
    fail [spuriously]. *)
Definition try_increment_round (max_threads current : N) (spuriously : bool) (count : N) : CasResult :=
  if (max_threads <=? current)%N then Refused
  else if (count =? current)%N && negb spuriously then Incremented (current + 1)
  else Retry count.

(** [reserve_spawn_slot] when nothing interferes. *)
Definition reserve_spawn_slot (max_threads : option N) (r : AgentRegistry) :
    result CodexErr (SpawnReservation * AgentRegistry) :=
  let reservation := mkReservation true None None in
  match max_threads with
  | Some max_threads =>
      match try_increment_round max_threads (total_count r) false (total_count r) with
      | Incremented count => Ok (reservation, set_count count r)
      | _ => Err (AgentLimitReached max_threads)
      end
  | None => Ok (reservation, set_count (fetch_add (total_count r)) r)
  end.

(** ** Reservations *)

Definition reserve_agent_nickname_with_preference (choose choose_again : list str -> option str)
    (names : list str) (preferred : option str) (res : SpawnReservation) (a : ActiveAgents) :
    result CodexErr str * (SpawnReservation * ActiveAgents) :=
  match reserve_agent_nickname choose choose_again names preferred a with
  | (Some nickname, a) =>
      (Ok nickname, (mkReservation (active res) (Some nickname) (reserved_agent_path res), a))
  | (None, a) => (Err (UnsupportedOperation "no available agent nicknames"), (res, a))
  end.

Definition commit (md : AgentMetadata) (res : SpawnReservation) (r : AgentRegistry) :
    SpawnReservation * AgentRegistry :=
  (mkReservation false None None,
   set_active_agents (register_spawned_thread md (active_agents r)) r).

(** The two parts of [drop]: the lock, then the counter. *)
Definition drop_path (res : SpawnReservation) (r : AgentRegistry) : AgentRegistry :=
  if active res then
    match reserved_agent_path res with
    | Some p => on_tree (release_reserved_agent_path p) r
    | None => r
    end
  else r.
Definition drop_slot (res : SpawnReservation) (r : AgentRegistry) : AgentRegistry :=
  if active res then set_count (fetch_sub (total_count r)) r else r.

(** ** control.rs *)

(** [prepare_thread_spawn]; the candidate names come from the configuration. *)
Definition prepare_thread_spawn (choose choose_again : list str -> option str)
    (candidate_names : list str) (parent_thread_id : ThreadId) (depth : Z)
    (path : option AgentPath) (role preferred : option str)
    (res : SpawnReservation) (r : AgentRegistry) :
    result CodexErr AgentMetadata * (SpawnReservation * AgentRegistry) :=
  let r := if (depth =? 1)%Z then on_tree (register_root_thread parent_thread_id) r else r in
  let reserved :=
    match path with
    | Some p =>
        match reserve_agent_path p (tree r) with
        | Ok t => Ok (mkReservation (active res) (reserved_agent_nickname res) (Some p),
                      on_tree (fun _ => t) r)
        | Err e => Err e
        end
    | None => Ok (res, r)
    end in
  match reserved with
  | Err e => (Err e, (res, r))
  | Ok (res, r) =>
      let '(nickname, (res, a)) :=
        reserve_agent_nickname_with_preference choose choose_again candidate_names preferred res
          (active_agents r) in
      let r := set_active_agents a r in
      match nickname with
      | Ok nickname => (Ok (mkMetadata None path (Some nickname) role None), (res, r))
      | Err e => (Err e, (res, r))
      end
  end.

(** [resolve_agent_reference] from the path of the current agent. *)
Definition resolve_agent_reference (current_agent_path : option AgentPath) (agent_reference : str)
    (t : gmap str AgentMetadata) : result CodexErr ThreadId :=
  path ← map_err UnsupportedOperation (resolve (default ROOT current_agent_path) agent_reference);
  match agent_id_for_path path t with
  | Some thread_id => Ok thread_id
  | None => Err (UnsupportedOperation ("live agent path `" ++ path ++ "` not found"))
  end.

Definition agent_matches_prefix (path : option AgentPath) (prefix : AgentPath) : bool :=
  if is_root prefix then true
  else match path with
       | Some p =>
           bool_decide (p = prefix) ||
           match strip_prefix prefix p with Some suffix => starts_with suffix [SLASH] | None => false end
       | None => false
       end.

End Registry.

(** ** Depth *)

Section Depth.
Context {ThreadId : Type}.

Inductive SubAgentSource :=
| Review
| Compact
| ThreadSpawn (parent_thread_id : ThreadId) (depth : Z) (path : option AgentPath) (nickname role : option str)
| MemoryConsolidation
| OtherSource (s : str).

Inductive SessionSource :=
| Cli | VSCode | Exec | Mcp
| Custom (s : str)
| Internal
| SubAgent (s : SubAgentSource)
| Unknown.

Definition I32_MAX : Z := (2 ^ 31 - 1)%Z.

Definition session_depth (session_source : SessionSource) : Z :=
  match session_source with
  | SubAgent (ThreadSpawn _ depth _ _ _) => depth
  | SubAgent _ => 0
  | _ => 0
  end.
Definition next_thread_spawn_depth (session_source : SessionSource) : Z :=
  Z.min (session_depth session_source + 1) I32_MAX.
Definition exceeds_thread_spawn_depth_limit (depth max_depth : Z) : bool := (max_depth <? depth)%Z.

(** Each spawn goes one level deeper, up to the width of the depth. *)
Lemma next_depth_grows source max_depth :
  (session_depth source < I32_MAX)%Z ->
  exceeds_thread_spawn_depth_limit (next_thread_spawn_depth source) max_depth = false ->
  (session_depth source < max_depth)%Z.
Proof.
  unfold exceeds_thread_spawn_depth_limit, next_thread_spawn_depth. rewrite Z.ltb_ge.
  generalize (session_depth source). unfold I32_MAX. lia.
Qed.
End Depth.

(** ** Counting the live agents *)

Section Count.
Context {ThreadId : Type} `{EqDecision ThreadId}.
Abbreviation metadata := (@AgentMetadata ThreadId).
Implicit Types (t : gmap str metadata) (md : metadata).

Definition live_count t : nat := length (List.filter is_live (map snd (map_to_list t))).

Definition one (b : bool) : nat := if b then 1 else 0.

Lemma filter_length_perm {A} (f : A -> bool) l l' : l ≡ₚ l' -> length (List.filter f l) = length (List.filter f l').
Proof.
  induction 1 as [|x l l' _ IH|x y l|]; cbn; [done| | |congruence].
  - destruct (f x); cbn; lia.
  - destruct (f x), (f y); done.
Qed.

Lemma live_count_perm t l : l ≡ₚ map_to_list t -> length (List.filter is_live (map snd l)) = live_count t.
Proof. intros Hp. apply filter_length_perm. by apply Permutation_map. Qed.

Lemma live_count_insert t k md : t !! k = None -> live_count (<[k := md]> t) = one (is_live md) + live_count t.
Proof.
  intros Hk. unfold live_count.
  rewrite (filter_length_perm is_live _ (md :: map snd (map_to_list t))).
  - cbn. by destruct (is_live md).
  - by rewrite (map_to_list_insert t k md Hk).
Qed.

Lemma live_count_delete t k md : t !! k = Some md -> live_count t = one (is_live md) + live_count (delete k t).
Proof.
  intros Hk. rewrite <- (insert_delete_id t k md Hk) at 1. apply live_count_insert. apply lookup_delete_eq.
Qed.

Lemma live_count_replace t k md md' :
  t !! k = Some md -> live_count (<[k := md']> t) + one (is_live md) = live_count t + one (is_live md').
Proof.
  intros Hk. rewrite <- (insert_delete_eq t k md'), live_count_insert by apply lookup_delete_eq.
  rewrite (live_count_delete t k md Hk). lia.
Qed.

Lemma live_count_empty : live_count ∅ = 0.
Proof. unfold live_count. by rewrite map_to_list_empty. Qed.
End Count.

(** ** Interleaved spawns *)

Section System.
Context {ThreadId : Type} `{EqDecision ThreadId}.
Variable show_id : ThreadId -> str.
Hypothesis show_id_inj : forall i j, show_id i = show_id j -> i = j.
Abbreviation metadata := (@AgentMetadata ThreadId).
Variable entries : gmap str metadata -> list (str * metadata).
Hypothesis entries_perm : forall t, entries t ≡ₚ map_to_list t.
(** [config.agent_max_threads] *)
Variable max_threads : N.

Implicit Types (t : gmap str metadata) (md : metadata) (res : SpawnReservation).

(** The registry, the loops of [try_increment_spawned] with the count they
    saw, the reservations that are alive, and the decrements still owed by a
    drop or a release after it gave up the lock. *)
Record System := mkSystem {
  registry : @AgentRegistry ThreadId;
  attempts : list N;
  reservations : list SpawnReservation;
  owed : nat;
}.

Definition initial : System := mkSystem default_registry [] [] 0.

Inductive Step : System -> System -> Prop :=
(** A thread enters the loop and reads the counter. *)
| step_load r at_ rs o : Step (mkSystem r at_ rs o) (mkSystem r (total_count r :: at_) rs o)
(** A round of the loop of some thread. *)
| step_refused r a1 current a2 rs o spuriously :
    try_increment_round max_threads current spuriously (total_count r) = Refused ->
    Step (mkSystem r (a1 ++ current :: a2) rs o) (mkSystem r (a1 ++ a2) rs o)
| step_retry r a1 current a2 rs o spuriously updated :
    try_increment_round max_threads current spuriously (total_count r) = Retry updated ->
    Step (mkSystem r (a1 ++ current :: a2) rs o) (mkSystem r (a1 ++ updated :: a2) rs o)
| step_incremented r a1 current a2 rs o spuriously count :
    try_increment_round max_threads current spuriously (total_count r) = Incremented count ->
    Step (mkSystem r (a1 ++ current :: a2) rs o)
      (mkSystem (set_count count r) (a1 ++ a2) (mkReservation true None None :: rs) o)
(** The owner of a fresh reservation prepares the spawn; a given path is a
    valid path other than the root. *)
| step_prepare r at_ rs1 res rs2 o c1 c2 names parent depth path role preferred result res' r' :
    reserved_agent_path res = None ->
    (forall p, path = Some p -> valid p /\ p <> ROOT) ->
    prepare_thread_spawn c1 c2 names parent depth path role preferred res r = (result, (res', r')) ->
    Step (mkSystem r at_ (rs1 ++ res :: rs2) o) (mkSystem r' at_ (rs1 ++ res' :: rs2) o)
(** It commits a new thread at the path it reserved. *)
| step_commit r at_ rs1 res rs2 o md id r' :
    agent_id md = Some id -> agent_path md = reserved_agent_path res ->
    (forall k md', tree r !! k = Some md' -> agent_id md' <> Some id) ->
    (commit show_id md res r).2 = r' ->
    Step (mkSystem r at_ (rs1 ++ res :: rs2) o) (mkSystem r' at_ (rs1 ++ rs2) o)
(** Or drops it, first under the lock. *)
| step_drop r at_ rs1 res rs2 o :
    Step (mkSystem r at_ (rs1 ++ res :: rs2) o) (mkSystem (drop_path res r) at_ (rs1 ++ rs2) (S o))
| step_release r at_ rs o id counted t' :
    release_thread entries id (tree r) = (counted, t') ->
    Step (mkSystem r at_ rs o) (mkSystem (on_tree (fun _ => t') r) at_ rs (one counted + o))
| step_decrement r at_ rs o :
    Step (mkSystem r at_ rs (S o)) (mkSystem (set_count (fetch_sub (total_count r)) r) at_ rs o)
| step_root r at_ rs o id :
    Step (mkSystem r at_ rs o) (mkSystem (on_tree (register_root_thread id) r) at_ rs o)
| step_message r at_ rs o id message :
    Step (mkSystem r at_ rs o) (mkSystem (on_tree (update_last_task_message entries id message) r) at_ rs o).

(** Every entry is at the key of its path or id; reserved paths hold
    placeholders and are distinct; the counter counts reservations, live
    agents and decrements owed, and stays within the limit. *)
Definition keyed t : Prop :=
  forall k md, t !! k = Some md ->
    match agent_path md with
    | Some p => k = p /\ exists c q, p = SLASH :: c :: q
    | None => exists id, agent_id md = Some id /\ k = "thread:" ++ show_id id
    end.

Definition reserved_paths (rs : list SpawnReservation) : list AgentPath := omap reserved_agent_path rs.

Definition held_paths t (rs : list SpawnReservation) : Prop :=
  NoDup (reserved_paths rs) /\
  (forall p, p ∈ reserved_paths rs ->
     p <> ROOT /\ exists md, t !! p = Some md /\ agent_id md = None).

Record good (s : System) : Prop := mkGood {
  good_keyed : keyed (tree (registry s));
  good_paths : held_paths (tree (registry s)) (reservations s);
  good_active : Forall (fun res => active res = true) (reservations s);
  good_count : N.to_nat (total_count (registry s)) =
    length (reservations s) + live_count (tree (registry s)) + owed s;
  good_limit : (total_count (registry s) <= max_threads)%N;
}.

(** *** The parts of the invariant *)

Lemma keyed_insert t k md :
  keyed t ->
  match agent_path md with
  | Some p => k = p /\ exists c q, p = SLASH :: c :: q
  | None => exists id, agent_id md = Some id /\ k = "thread:" ++ show_id id
  end -> keyed (<[k := md]> t).
Proof.
  intros Ht Hmd k' md' Hk. destruct (decide (k = k')) as [<-|Hne].
  - rewrite lookup_insert_eq in Hk. by injection Hk as <-.
  - rewrite lookup_insert_ne in Hk by done. by apply Ht.
Qed.

Lemma keyed_delete t k : keyed t -> keyed (delete k t).
Proof. intros Ht k' md [_ Hk]%lookup_delete_Some. by apply Ht. Qed.

Lemma valid_slash p : valid p -> exists c q, p = SLASH :: c :: q.
Proof.
  intros [->|(ns & _ & ->)]; [by eexists _, _|]. rewrite path_of_cons.
  destruct ns; by eexists _, _.
Qed.

Lemma find_thread_Some id t k md :
  find_thread entries id t = Some (k, md) -> t !! k = Some md /\ agent_id md = Some id.
Proof.
  unfold find_thread. intros H. apply List.find_some in H as [Hin H]. cbn in H.
  apply bool_decide_eq_true in H. split; [|done].
  apply elem_of_map_to_list. rewrite <- (entries_perm t). by apply list_elem_of_In.
Qed.

(** Changing entries that hold an agent leaves the placeholders alone. *)
Lemma held_paths_update t t' rs :
  (forall p md, t !! p = Some md -> agent_id md = None -> t' !! p = Some md) ->
  held_paths t rs -> held_paths t' rs.
Proof.
  intros Ht [Hnd Hp]. split; [done|]. intros p Hin. destruct (Hp p Hin) as (Hroot & md & Hmd & Hid).
  split; [done|]. exists md. split; [by apply Ht|done].
Qed.

Lemma held_paths_sub t rs rs' :
  reserved_paths rs' `sublist_of` reserved_paths rs -> held_paths t rs -> held_paths t rs'.
Proof.
  intros Hsub [Hnd Hp]. split; [by eapply sublist_NoDup|]. intros p Hin. apply Hp. by eapply elem_of_sublist.
Qed.

Lemma register_root_spec id t :
  (keyed t -> keyed (register_root_thread id t)) /\
  live_count (register_root_thread id t) = live_count t /\
  (forall p md, t !! p = Some md -> register_root_thread id t !! p = Some md).
Proof.
  unfold register_root_thread. destruct (t !! ROOT) as [md|] eqn:E; [done|]. split_and!.
  - intros Ht. apply keyed_insert; [done|]. cbn. split; [done|]. by eexists _, _.
  - rewrite live_count_insert by done. done.
  - intros p md Hp. rewrite lookup_insert_ne; [done|]. intros <-. congruence.
Qed.

Lemma prepare_spec c1 c2 names parent depth path role preferred res r out res' r' :
  prepare_thread_spawn c1 c2 names parent depth path role preferred res r = (out, (res', r')) ->
  total_count r' = total_count r /\ active res' = active res /\
  exists t0, (t0 = tree r \/ t0 = register_root_thread parent (tree r)) /\
    ((reserved_agent_path res' = reserved_agent_path res /\ tree r' = t0) \/
     (exists p, path = Some p /\ reserved_agent_path res' = Some p /\ t0 !! p = None /\
        tree r' = <[p := mkMetadata None (Some p) None None None]> t0)).
Proof.
  unfold prepare_thread_spawn. cbv zeta.
  set (r0 := if (depth =? 1)%Z then _ else _).
  assert (total_count r0 = total_count r /\
    (tree r0 = tree r \/ tree r0 = register_root_thread parent (tree r))) as [Hc Ht].
  { unfold r0. destruct (depth =? 1)%Z; split; try done; [by right|by left]. }
  assert (forall res1 r1 res2 r2 (out' : result CodexErr metadata),
    @eq (result CodexErr metadata * (SpawnReservation * @AgentRegistry ThreadId))
    (let '(nickname, (res0, a)) :=
       reserve_agent_nickname_with_preference c1 c2 names preferred res1 (active_agents r1) in
     match nickname with
     | Ok nickname => (Ok (mkMetadata None path (Some nickname) role None), (res0, set_active_agents a r1))
     | Err e => (Err e, (res0, set_active_agents a r1))
     end) (out', (res2, r2)) ->
    total_count r2 = total_count r1 /\ active res2 = active res1 /\
    reserved_agent_path res2 = reserved_agent_path res1 /\ tree r2 = tree r1) as Hn.
  { intros res1 r1 res2 r2 out'. unfold reserve_agent_nickname_with_preference, reserve_agent_nickname.
    repeat (case_match; simplify_eq/=); intros H'; simplify_eq/=; done. }
  destruct path as [p|].
  - unfold reserve_agent_path. destruct (tree r0 !! p) as [md|] eqn:Ep.
    + intros [= <- <- <-]. split_and!; try done. exists (tree r0). split; [done|]. by left.
    + intros H. apply Hn in H as (H1 & H2 & H3 & H4). cbn in *.
      split_and!; [congruence|done|]. exists (tree r0). split; [done|]. right. by exists p.
  - intros H. apply Hn in H as (H1 & H2 & H3 & H4).
    split_and!; [congruence|done|]. exists (tree r0). split; [done|]. by left.
Qed.

Lemma fetch_sub_pos n : (0 < n < 2 ^ 64)%N -> fetch_sub n = (n - 1)%N.
Proof.
  intros H. unfold fetch_sub. replace (n + 2 ^ 64 - 1)%N with (n - 1 + 1 * 2 ^ 64)%N by lia.
  rewrite N.Div0.mod_add. apply N.mod_small. lia.
Qed.

Lemma release_reserved_spec p md t :
  t !! p = Some md -> agent_id md = None ->
  release_reserved_agent_path p t = delete p t /\ live_count (delete p t) = live_count t.
Proof.
  intros Hp Hid. unfold release_reserved_agent_path. rewrite Hp, bool_decide_eq_true_2 by done.
  split; [done|]. rewrite (live_count_delete t p md Hp). unfold is_live. by rewrite Hid.
Qed.

Lemma reserved_paths_middle rs1 res rs2 :
  reserved_paths (rs1 ++ res :: rs2) ≡ₚ
    option_list (reserved_agent_path res) ++ reserved_paths (rs1 ++ rs2).
Proof.
  unfold reserved_paths. rewrite !omap_app. cbn.
  destruct (reserved_agent_path res); cbn; [solve_Permutation|done].
Qed.

Lemma held_paths_perm t rs rs' : reserved_paths rs ≡ₚ reserved_paths rs' -> held_paths t rs -> held_paths t rs'.
Proof. intros Hp [Hnd H]. split; [by rewrite <- Hp|]. intros p. rewrite <- Hp. apply H. Qed.

(** Without its paths or with its path freed, the others keep theirs. *)
Lemma held_paths_drop t rs1 res rs2 t' :
  held_paths t (rs1 ++ res :: rs2) ->
  (forall p, reserved_agent_path res <> Some p -> p ∈ reserved_paths (rs1 ++ rs2) -> t' !! p = t !! p) ->
  held_paths t' (rs1 ++ rs2).
Proof.
  intros [Hnd H] Ht. rewrite reserved_paths_middle in Hnd. apply NoDup_app in Hnd as (_ & Hdis & Hnd).
  split; [done|]. intros p Hin. rewrite Ht; [| |done].
  - apply H. rewrite reserved_paths_middle. apply elem_of_app. by right.
  - intros Hp. apply (Hdis p); [|done]. rewrite Hp. left.
Qed.

Hypothesis max_threads_usize : (max_threads <= USIZE_MAX)%N.

Lemma step_good s s' : Step s s' -> good s -> good s'.
Proof.
  intros Hstep [Hk Hp Ha Hc Hl]. destruct Hstep as
    [r at_ rs o|r a1 current a2 rs o sp Hcas|r a1 current a2 rs o sp updated Hcas
    |r a1 current a2 rs o sp count Hcas
    |r at_ rs1 res rs2 o c1 c2 names parent depth path role preferred result res' r' Hres Hpath Hprep
    |r at_ rs1 res rs2 o md id r' Hid Hmp Hfresh Hcommit|r at_ rs1 res rs2 o
    |r at_ rs o id counted t' Hrel|r at_ rs o|r at_ rs o id|r at_ rs o id message];
    cbn [registry reservations owed] in *.
  - done.
  - done.
  - done.
  - unfold try_increment_round in Hcas. destruct (_ <=? _)%N eqn:E1; [done|]. apply N.leb_gt in E1.
    destruct ((_ =? _)%N && _) eqn:E2; [|done]. injection Hcas as <-.
    apply andb_prop in E2 as [E2%N.eqb_eq _]. subst current. split; cbn; try done.
    + by constructor.
    + unfold tree in *. cbn in *. lia.
    + lia.
  - apply prepare_spec in Hprep as (Hcount & Hact & t0 & Ht0 & Htree).
    assert (keyed t0 /\ live_count t0 = live_count (tree r) /\
      (forall p md, tree r !! p = Some md -> t0 !! p = Some md)) as (Hk0 & Hl0 & Hsame).
    { destruct Ht0 as [-> | ->]; [done|]. destruct (register_root_spec parent (tree r)) as (H1 & H2 & H3).
      split_and!; [by apply H1|done|done]. }
    assert (held_paths t0 (rs1 ++ res :: rs2)) as Hp0.
    { eapply held_paths_update; [|exact Hp]. intros p md Hmd _. by apply Hsame. }
    rewrite Hres in Htree. split; cbn.
    + destruct Htree as [[_ ->]|(p & Hpp & _ & _ & ->)]; [done|]. apply keyed_insert; [done|]. cbn.
      split; [done|]. by apply valid_slash, (Hpath p Hpp).
    + destruct Htree as [[Hr ->]|(p & Hpp & Hr & Hno & ->)].
      * eapply held_paths_perm; [|exact Hp0]. by rewrite !reserved_paths_middle, Hr, Hres.
      * assert (reserved_paths (rs1 ++ res' :: rs2) ≡ₚ p :: reserved_paths (rs1 ++ res :: rs2)) as Hperm.
        { by rewrite !reserved_paths_middle, Hr, Hres. }
        destruct Hp0 as [Hnd Hin]. split.
        -- rewrite Hperm. constructor; [|done]. intros Hp'. destruct (Hin p Hp') as (_ & md & Hmd & _). congruence.
        -- intros q. rewrite Hperm. intros [->|Hq]%elem_of_cons.
           ++ split; [by apply (Hpath p Hpp)|]. eexists. split; [apply lookup_insert_eq|done].
           ++ destruct (Hin q Hq) as (Hroot & md & Hmd & Hid). split; [done|]. exists md. split; [|done].
              rewrite lookup_insert_ne; [done|]. intros <-. congruence.
    + apply Forall_app in Ha as [Ha1 [Ha2 Ha3]%Forall_cons]. apply Forall_app. split; [done|].
      constructor; [by rewrite Hact|done].
    + rewrite Hcount, Hc, !length_app. cbn. f_equal.
      assert (live_count (tree r') = live_count (tree r)) as ->; [|done].
      destruct Htree as [[_ ->]|(p & _ & _ & Hno & ->)]; [done|]. by rewrite live_count_insert.
    + by rewrite Hcount.
  - set (key := match reserved_agent_path res with Some p => p | None => "thread:" ++ show_id id end).
    assert (tree r' = <[key := md]> (tree r) /\ total_count r' = total_count r) as [Ht Hcount].
    { subst r'. unfold commit, register_spawned_thread. rewrite Hid. cbn. by rewrite Hmp. }
    assert (live_count (tree r') = S (live_count (tree r)) /\ keyed (tree r') /\
      (forall p, reserved_agent_path res <> Some p -> p ∈ reserved_paths (rs1 ++ rs2) ->
         tree r' !! p = tree r !! p)) as (Hlive & Hk' & Hsame).
    { rewrite Ht. destruct (reserved_agent_path res) as [p|] eqn:Hres; subst key.
      - destruct Hp as [Hnd Hin]. destruct (Hin p) as (Hroot & md0 & Hmd0 & Hid0).
        { rewrite reserved_paths_middle, Hres. left. }
        pose proof (Hk p md0 Hmd0) as Hkp.
        assert (agent_path md0 = Some p) as Hp0.
        { destruct (agent_path md0) as [q|]; [by destruct Hkp as [-> _]|]. destruct Hkp as (i & Hi & _). congruence. }
        rewrite Hp0 in Hkp. destruct Hkp as [_ Hsl]. split_and!.
        + pose proof (live_count_replace (tree r) p md0 md Hmd0) as H.
          unfold is_live in H. rewrite Hid0, Hid in H. cbn in H.
          assert (is_root_metadata md = false) as Hr; [|rewrite Hr in H; cbn in H; lia].
          unfold is_root_metadata. rewrite Hmp. by apply bool_decide_eq_false_2.
        + apply keyed_insert; [done|]. rewrite Hmp. done.
        + intros q Hq _. rewrite lookup_insert_ne by congruence. done.
      - destruct (tree r !! ("thread:" ++ show_id id)) as [md0|] eqn:E.
        { exfalso. pose proof (Hk _ _ E) as Hkp. destruct (agent_path md0) as [q|].
          - destruct Hkp as [Hq (c & q' & ->)]. done.
          - destruct Hkp as (i & Hi & Heq). apply app_inv_head in Heq. apply show_id_inj in Heq as <-.
            by apply (Hfresh _ _ E). }
        split_and!.
        + rewrite live_count_insert by done. unfold is_live, is_root_metadata. rewrite Hid, Hmp. done.
        + apply keyed_insert; [done|]. rewrite Hmp. eauto.
        + intros p _ Hin. rewrite lookup_insert_ne; [done|]. intros <-.
          destruct Hp as [_ Hp]. destruct (Hp ("thread:" ++ show_id id)) as (_ & md0 & Hmd0 & _); [|congruence].
          rewrite reserved_paths_middle. apply elem_of_app. by right. }
    split; cbn.
    + done.
    + by eapply held_paths_drop.
    + apply Forall_app in Ha as [Ha1 [Ha2 Ha3]%Forall_cons]. by apply Forall_app.
    + rewrite Hcount, Hc, Hlive, !length_app. cbn. lia.
    + by rewrite Hcount.
  - apply Forall_app in Ha as [Ha1 [Ha2 Ha3]%Forall_cons]. unfold drop_path. rewrite Ha2.
    assert (forall r', total_count r' = total_count r -> keyed (tree r') ->
      live_count (tree r') = live_count (tree r) ->
      (forall p, reserved_agent_path res <> Some p -> tree r' !! p = tree r !! p) ->
      good (mkSystem r' at_ (rs1 ++ rs2) (S o))) as Hgo.
    { intros r' H1 H2 H3 H4. split; cbn.
      - done.
      - eapply held_paths_drop; [exact Hp|]. auto.
      - by apply Forall_app.
      - rewrite H1, Hc, H3, !length_app. cbn. lia.
      - by rewrite H1. }
    destruct (reserved_agent_path res) as [p|] eqn:Hres; [|by apply Hgo].
    destruct Hp as [_ Hin]. destruct (Hin p) as (_ & md & Hmd & Hid).
    { rewrite reserved_paths_middle, Hres. left. }
    destruct (release_reserved_spec p md (tree r) Hmd Hid) as [Hrel Hlive].
    apply Hgo; cbn; unfold tree in Hrel; try rewrite Hrel; try done.
    + by apply keyed_delete.
    + intros q Hq. apply lookup_delete_ne. congruence.
  - unfold release_thread in Hrel. destruct (find_thread entries id (tree r)) as [[k md]|] eqn:E.
    + apply find_thread_Some in E as [Hmd Hid]. injection Hrel as <- <-. split; cbn.
      * by apply keyed_delete.
      * eapply held_paths_update; [|exact Hp]. intros p md' Hp' Hno. rewrite lookup_delete_ne; [done|].
        intros ->. congruence.
      * done.
      * rewrite Hc. rewrite (live_count_delete (tree r) k md Hmd). unfold is_live. rewrite Hid.
        cbn. unfold tree. lia.
      * done.
    + injection Hrel as <- <-. split; cbn; done.
  - rewrite fetch_sub_pos by (unfold USIZE_MAX in *; lia). split; unfold tree in *; cbn in *; try done; lia.
  - destruct (register_root_spec id (tree r)) as (H1 & H2 & H3). split; cbn; try done.
    + by apply H1.
    + eapply held_paths_update; [|exact Hp]. intros p md Hmd _. by apply H3.
    + unfold tree in *. by rewrite H2.
  - unfold update_last_task_message.
    destruct (find_thread entries id (tree r)) as [[k md]|] eqn:E; unfold tree in E; split; cbn; rewrite ?E; try done.
    + apply find_thread_Some in E as [Hmd Hid]. apply keyed_insert; [done|]. cbn. apply (Hk k md Hmd).
    + apply find_thread_Some in E as [Hmd Hid]. eapply held_paths_update; [|exact Hp].
      intros p md' Hp' Hno. rewrite lookup_insert_ne; [done|]. intros ->. unfold tree in Hp'. congruence.
    + apply find_thread_Some in E as [Hmd Hid]. rewrite Hc.
      match goal with |- context [<[k := ?new]> _] => pose proof (live_count_replace _ k md new Hmd) as H end.
      unfold is_live, is_root_metadata in H. cbn in H. unfold tree in *. lia.
Qed.

Lemma initial_good : good initial.
Proof.
  split; cbn.
  - intros k md Hk. by rewrite lookup_empty in Hk.
  - split; [constructor|]. intros p H. by apply elem_of_nil in H.
  - constructor.
  - unfold tree. cbn. by rewrite (live_count_empty (ThreadId := ThreadId)).
  - lia.
Qed.

Lemma reachable_good s : rtc Step initial s -> good s.
Proof.
  intros H. assert (forall s0, good s0 -> rtc Step s0 s -> good s) as Hind; [|eauto using initial_good].
  clear H. intros s0 H0 Hr. induction Hr; [done|]. eauto using step_good.
Qed.

(** C38. The number of sub-agents stays within the limit under any
    interleaving of spawns, commits, drops and releases: the counter never
    wraps and is the number of reservations, of live agents and of decrements
    still owed; it is at most [max_threads]; a slot is refused only when that
    many are taken; and a path reserved by a spawn is reserved by no other
    and belongs to no agent until the spawn commits or is dropped. *)
Theorem spawn_limit_kept s :
  rtc Step initial s ->
  N.to_nat (total_count (registry s)) =
    length (reservations s) + length (live_agents entries (tree (registry s))) + owed s /\
  length (reservations s) + length (live_agents entries (tree (registry s))) <= N.to_nat max_threads /\
  (is_ok (reserve_spawn_slot (Some max_threads) (registry s)) = true <->
    length (reservations s) + length (live_agents entries (tree (registry s))) + owed s < N.to_nat max_threads) /\
  NoDup (reserved_paths (reservations s)) /\
  (forall p, p ∈ reserved_paths (reservations s) -> agent_id_for_path p (tree (registry s)) = None).
Proof.
  intros Hr. apply reachable_good in Hr as [Hk [Hnd Hp] Ha Hc Hl].
  assert (length (live_agents entries (tree (registry s))) = live_count (tree (registry s))) as ->.
  { unfold live_agents. by apply live_count_perm. }
  split_and!; [done|lia| |done|].
  - unfold reserve_spawn_slot, try_increment_round. rewrite N.eqb_refl.
    destruct (max_threads <=? total_count (registry s))%N eqn:E; cbn;
      [apply N.leb_le in E|apply N.leb_gt in E]; split; try done; lia.
  - intros p Hin. destruct (Hp p Hin) as (_ & md & Hmd & Hid). unfold agent_id_for_path. by rewrite Hmd.
Qed.
End System.

(** One agent is spawned at [/root/a] with a limit of one. *)
Lemma spawn_limit_kept_witness :
  let entries (t : gmap str (@AgentMetadata N)) := map_to_list t in
  let show_id (n : N) := [n] in
  let md := mkMetadata (Some 7%N) (Some ("/root/a")) (Some "Ada") None None in
  exists s, rtc (Step show_id entries 1) initial s /\
    live_agents entries (tree (registry s)) = [md] /\
    (N.to_nat (total_count (registry s)) =
       length (reservations s) + length (live_agents entries (tree (registry s))) + owed s /\
     length (reservations s) + length (live_agents entries (tree (registry s))) <= 1 /\
     (is_ok (reserve_spawn_slot (Some 1%N) (registry s)) = true <->
       length (reservations s) + length (live_agents entries (tree (registry s))) + owed s < 1) /\
     NoDup (reserved_paths (reservations s)) /\
     (forall p, p ∈ reserved_paths (reservations s) -> agent_id_for_path p (tree (registry s)) = None)).
Proof.
  intros entries show_id md. eexists.
  set (r1 := set_count 1%N (@default_registry N)).
  set (prepared := prepare_thread_spawn head head ["Ada"] 3%N 1 (Some ("/root/a")) None None
    (mkReservation true None None) r1).
  assert (rtc (Step show_id entries 1) initial
    (mkSystem (commit show_id md prepared.2.1 prepared.2.2).2 [] [] 0)) as Hr.
  { eapply rtc_l; [apply step_load|].
    eapply rtc_l; [apply (step_incremented _ _ _ default_registry [] 0%N [] [] 0 false 1%N); by vm_compute|].
    eapply rtc_l; [apply (step_prepare _ _ _ r1 [] [] (mkReservation true None None) [] 0 head head ["Ada"]
      3%N 1 (Some ("/root/a")) None None prepared.1 prepared.2.1 prepared.2.2); [done| |by vm_compute]|].
    { intros p [= <-]. split; [|done]. right. exists ["a"]. split; [|done].
      constructor; [|constructor]. split_and!; [done|done|]. by repeat constructor. }
    eapply rtc_l; [apply (step_commit _ _ _ prepared.2.2 [] [] prepared.2.1 [] 0 md 7%N (commit show_id md prepared.2.1 prepared.2.2).2);
      [done|by vm_compute| |reflexivity]|apply rtc_refl].
    assert (map_Forall (fun _ md' => agent_id md' <> Some 7%N) (tree prepared.2.2)) as H.
    { apply (bool_decide_unpack _). by vm_compute. }
    exact H. }
  split; [exact Hr|]. split; [by vm_compute|].
  apply (spawn_limit_kept show_id (ltac:(intros i j E; by injection E)) entries (ltac:(done)) 1%N
    (ltac:(done)) _ Hr).
Defined.

(** ** What a spawn does *)

Section Outcome.
Context {ThreadId : Type} `{EqDecision ThreadId}.
Variable show_id : ThreadId -> str.
Implicit Types (r : @AgentRegistry ThreadId) (a : @ActiveAgents ThreadId).

(** A lawful random choice. *)
Definition chooses (choose : list str -> option str) : Prop :=
  forall l, match choose l with Some x => x ∈ l | None => l = [] end.

(** The nickname is the preferred one, or a free name of the current round,
    or, when every name of the round is used, a name of the next round with
    the used names forgotten; it is used from then on. *)
Lemma reserve_agent_nickname_spec choose choose_again names preferred a n a' :
  chooses choose -> chooses choose_again ->
  reserve_agent_nickname choose choose_again names preferred a = (Some n, a') ->
  n ∈ used_agent_nicknames a' /\ agent_tree a' = agent_tree a /\
  match preferred with
  | Some p => n = p
  | None =>
      let round k := map (fun name => format_agent_nickname name k) names in
      (n ∈ round (nickname_reset_count a) /\ n ∉ used_agent_nicknames a /\
       nickname_reset_count a' = nickname_reset_count a) \/
      ((forall x, x ∈ round (nickname_reset_count a) -> x ∈ used_agent_nicknames a) /\
       n ∈ round (nickname_reset_count a + 1)%N /\
       nickname_reset_count a' = (nickname_reset_count a + 1)%N /\ used_agent_nicknames a' = {[n]})
  end.
Proof.
  intros Hc1 Hc2. unfold reserve_agent_nickname. destruct preferred as [p|].
  { intros [= <- <-]. cbn. split_and!; [set_solver|done|done]. }
  destruct (is_empty names); [done|].
  set (available := List.filter _ _). pose proof (Hc1 available) as Hav.
  destruct (choose available) as [x|].
  - intros [= <- <-]. cbn. split_and!; [set_solver|done|]. left.
    apply list_elem_of_In, filter_In in Hav as [Hin Hu].
    apply negb_true_iff, bool_decide_eq_false in Hu. split_and!; [by apply list_elem_of_In|done|done].
  - pose proof (Hc2 names) as Hag. destruct (choose_again names) as [x|]; [|done].
    intros [= <- <-]. cbn. split_and!; [set_solver|done|]. right. split_and!.
    + intros y Hy. destruct (decide (y ∈ used_agent_nicknames a)) as [|Hn]; [done|]. exfalso.
      assert (y ∈ available) as H'; [|rewrite Hav in H'; by apply elem_of_nil in H'].
      apply list_elem_of_In, filter_In. split; [by apply list_elem_of_In|].
      by rewrite bool_decide_eq_false_2.
    + apply list_elem_of_fmap. by exists x.
    + done.
    + set_solver.
Qed.

(** Below the root, a spawn that is dropped leaves the tree and the counter
    as they were, and one that is committed is found at its path, which stays
    taken. *)
Theorem spawn_outcome choose choose_again names parent depth p role preferred n r r0 res0 md res r' id :
  depth <> 1%Z -> valid p -> (total_count r < USIZE_MAX)%N ->
  reserve_spawn_slot n r = Ok (res0, r0) ->
  prepare_thread_spawn choose choose_again names parent depth (Some p) role preferred res0 r0 =
    (Ok md, (res, r')) ->
  (tree (drop_path res r') = tree r /\ total_count (drop_slot res r') = total_count r) /\
  (let md' := mkMetadata (Some id) (agent_path md) (agent_nickname md) (agent_role md) None in
   let t := tree (commit show_id md' res r').2 in
   resolve_agent_reference None p t = Ok id /\ is_ok (reserve_agent_path p t) = false).
Proof.
  intros Hdepth Hvalid Hcount Hslot H.
  assert (res0 = mkReservation true None None /\ tree r0 = tree r /\
    total_count r0 = (total_count r + 1)%N) as (-> & Ht0 & Hc0).
  { unfold reserve_spawn_slot, try_increment_round in Hslot. destruct n as [n|].
    - destruct (_ <=? _)%N; [done|]. rewrite N.eqb_refl in Hslot. by injection Hslot as <- <-.
    - injection Hslot as <- <-. split_and!; try done. cbn. unfold fetch_add, USIZE_MAX in *.
      apply N.mod_small. lia. }
  unfold prepare_thread_spawn in H. rewrite (proj2 (Z.eqb_neq depth 1) Hdepth) in H.
  unfold reserve_agent_path in H. destruct (tree r0 !! p) as [md0|] eqn:Ep; [done|].
  cbv zeta iota beta in H.
  destruct (reserve_agent_nickname_with_preference _ _ _ _ _ _) as [nick [res1 a]] eqn:En.
  destruct nick as [nick|e]; [|done]. injection H as <- <- <-.
  assert (active res1 = true /\ reserved_agent_path res1 = Some p /\
    agent_tree a = <[p := mkMetadata None (Some p) None None None]> (tree r0)) as (Ha & Hp & Ht).
  { unfold reserve_agent_nickname_with_preference, reserve_agent_nickname in En.
    repeat (case_match; simplify_eq/=); done. }
  unfold drop_path, drop_slot. rewrite Ha, Hp. split; [split|].
  - unfold tree, on_tree. cbn. rewrite Ht. unfold release_reserved_agent_path. rewrite lookup_insert_eq.
    rewrite bool_decide_eq_true_2 by done. rewrite delete_insert_id by apply Ep. exact Ht0.
  - cbn. rewrite Hc0. unfold fetch_sub, USIZE_MAX in *.
    replace (total_count r + 1 + 2 ^ 64 - 1)%N with (total_count r + 1 * 2 ^ 64)%N by lia.
    rewrite N.Div0.mod_add. apply N.mod_small. lia.
  - set (md' := mkMetadata (Some id) _ _ _ _).
    assert (forall r1, active_agents r1 = a ->
      tree (commit show_id md' res1 r1).2 = <[p := md']> (agent_tree a)) as -> by (by intros r1 <-).
    2: done. cbn zeta. split.
    + unfold resolve_agent_reference. rewrite resolve_valid by done. cbn.
      unfold agent_id_for_path. by rewrite lookup_insert_eq.
    + unfold reserve_agent_path. by rewrite lookup_insert_eq.
Qed.
End Outcome.
