(* ===== verification/FsPolicy.v ===== *)
(** * FsPolicy: which paths a command may read and write

    [codex-rs/protocol/src/permissions.rs]: the split filesystem policy of a
    permission profile.  A policy is a list of entries (path, access); the
    access of a path is the one of the most specific entry that covers it, a
    deny beating a write and a write beating a read at the same path.  Writes
    to the metadata directories of a writable root need an entry of their
    own.  The operating system is behind the class [Os]. *)

From S2P Require Import Prelude RustStr AbsolutePath.
#[local] Open Scope str_scope.

(** ** The operating system

    Queries on paths; a path is absolute and given by its components, except
    where the code hands over the text it received. *)

Class Os := {
  home_dir : option str;
  current_dir : result PathError str;
  TMPDIR : option str;
  is_file : PathBuf -> bool;
  is_dir : PathBuf -> bool;
  exists_path : PathBuf -> bool;
  read_to_string : PathBuf -> option str;
  (** [Some b] when there is metadata, [b] telling symbolic links. *)
  symlink_metadata : PathBuf -> option bool;
  canonicalize : str -> option PathBuf;
  (** [std::env::current_dir] returns an absolute path. *)
  current_dir_absolute d : current_dir = Ok d -> is_absolute d = true
}.

(** A system with the given directories and files and no symbolic links. *)
Definition mem_os (home tmp : option str) (dirs : list PathBuf)
    (files : list (PathBuf * str)) : Os := {|
  home_dir := home;
  current_dir := Ok "/";
  TMPDIR := tmp;
  is_file p := existsb (fun f => bool_decide (f.1 = p)) files;
  is_dir p := existsb (fun d => bool_decide (d = p)) dirs;
  exists_path p := existsb (fun d => bool_decide (d = p)) (dirs ++ map fst files);
  read_to_string p := snd <$> List.find (fun f => bool_decide (f.1 = p)) files;
  symlink_metadata p :=
    if existsb (fun d => bool_decide (d = p)) (dirs ++ map fst files)
    then Some false else None;
  canonicalize p :=
    let q := normalize_path (path_with_base p "/") in
    if existsb (fun d => bool_decide (d = q)) (dirs ++ map fst files)
    then Some q else None;
  current_dir_absolute := fun d H => match H with eq_refl => eq_refl end
|}.

(** ** Paths of the standard library *)

(** [Path::starts_with]: whole components. *)
Definition path_starts_with (p base : PathBuf) : bool := bool_decide (base `prefix_of` p).

Definition path_strip_prefix (p base : PathBuf) : option PathBuf :=
  if path_starts_with p base then Some (drop (length base) p) else None.

Fixpoint ancestors_from (n : nat) (p : PathBuf) : list PathBuf :=
  p :: match n, parent p with
       | S n, Some q => ancestors_from n q
       | _, _ => []
       end.

(** [Path::ancestors]: the path, its parent, and so on. *)
Definition ancestors (p : PathBuf) : list PathBuf := ancestors_from (length p) p.

(** Equality of two [Option<PathBuf>] given by their texts. *)
Definition opt_path_eqb (a b : option str) : bool :=
  bool_decide (components <$> a = components <$> b).

(** [Iterator::max_by_key]: the last of the greatest elements. *)
Definition max_by {A} (lt : A -> A -> bool) (l : list A) : option A :=
  fold_left (fun acc x =>
    match acc with None => Some x | Some y => if lt x y then acc else Some x end) l None.

(** ** Data *)

Definition PROTECTED_METADATA_GIT_PATH_NAME : str := ".git".
Definition PROTECTED_METADATA_AGENTS_PATH_NAME : str := ".agents".
Definition PROTECTED_METADATA_CODEX_PATH_NAME : str := ".codex".
Definition PROTECTED_METADATA_PATH_NAMES : list str :=
  [PROTECTED_METADATA_GIT_PATH_NAME; PROTECTED_METADATA_AGENTS_PATH_NAME;
   PROTECTED_METADATA_CODEX_PATH_NAME].

Definition is_protected_metadata_name (name : str) : bool :=
  existsb (fun metadata_name => bool_decide (name = metadata_name))
    PROTECTED_METADATA_PATH_NAMES.

Definition is_protected_metadata_directory_name (name : str) : bool :=
  bool_decide (name = PROTECTED_METADATA_AGENTS_PATH_NAME)
  || bool_decide (name = PROTECTED_METADATA_CODEX_PATH_NAME).

Inductive NetworkSandboxPolicy :=
| NetworkRestricted
| NetworkEnabled.

Definition network_is_enabled (self : NetworkSandboxPolicy) : bool :=
  match self with NetworkEnabled => true | NetworkRestricted => false end.

Inductive FileSystemAccessMode :=
| Read
| Write
| Deny.
#[export] Instance FileSystemAccessMode_eq_dec : EqDecision FileSystemAccessMode.
Proof. solve_decision. Defined.

(** The derived order, that of the declaration. *)
Definition access_rank (a : FileSystemAccessMode) : nat :=
  match a with Read => 0 | Write => 1 | Deny => 2 end.

Definition can_read (self : FileSystemAccessMode) : bool :=
  match self with Deny => false | _ => true end.
Definition can_write (self : FileSystemAccessMode) : bool :=
  match self with Write => true | _ => false end.

(** A sub-path keeps its text, which [resolve_path_against_base] reads. *)
Inductive FileSystemSpecialPath :=
| Root
| Minimal
| ProjectRoots (subpath : option str)
| Tmpdir
| SlashTmp
| Unknown (path : str) (subpath : option str).

Inductive FileSystemPath :=
| Path (path : PathBuf)
| GlobPattern (pattern : str)
| Special (value : FileSystemSpecialPath).

Record FileSystemSandboxEntry := SandboxEntry {
  path : FileSystemPath;
  access : FileSystemAccessMode
}.

Inductive FileSystemSandboxKind :=
| Restricted
| Unrestricted
| ExternalSandbox.

Record FileSystemSandboxPolicy := SandboxPolicyOf {
  kind : FileSystemSandboxKind;
  glob_scan_max_depth : option N;
  entries : list FileSystemSandboxEntry
}.

Record ResolvedFileSystemEntry := ResolvedEntry {
  rpath : PathBuf;
  raccess : FileSystemAccessMode
}.

(** The derived equalities, with paths compared by components. *)
Definition special_path_eqb (a b : FileSystemSpecialPath) : bool :=
  match a, b with
  | Root, Root | Minimal, Minimal | Tmpdir, Tmpdir | SlashTmp, SlashTmp => true
  | ProjectRoots s, ProjectRoots t => opt_path_eqb s t
  | Unknown p s, Unknown q t => bool_decide (p = q) && opt_path_eqb s t
  | _, _ => false
  end.

Definition file_system_path_eqb (a b : FileSystemPath) : bool :=
  match a, b with
  | Path p, Path q => bool_decide (p = q)
  | GlobPattern p, GlobPattern q => bool_decide (p = q)
  | Special v, Special w => special_path_eqb v w
  | _, _ => false
  end.

Definition entry_eqb (a b : FileSystemSandboxEntry) : bool :=
  file_system_path_eqb (path a) (path b) && bool_decide (access a = access b).

Definition PROJECT_ROOTS_GLOB_PATTERN_PREFIX : str := "codex-project-roots://".

Definition project_roots_glob_pattern (subpath : str) : str :=
  PROJECT_ROOTS_GLOB_PATTERN_PREFIX ++ subpath.

(** ** Construction *)

Definition default_policy : FileSystemSandboxPolicy :=
  SandboxPolicyOf Restricted None [SandboxEntry (Special Root) Read].

Definition unrestricted : FileSystemSandboxPolicy := SandboxPolicyOf Unrestricted None [].
Definition external_sandbox : FileSystemSandboxPolicy :=
  SandboxPolicyOf ExternalSandbox None [].
Definition restricted (entries : list FileSystemSandboxEntry) : FileSystemSandboxPolicy :=
  SandboxPolicyOf Restricted None entries.

Definition is_restricted (k : FileSystemSandboxKind) : bool :=
  match k with Restricted => true | _ => false end.
Definition is_deny (e : FileSystemSandboxEntry) : bool := bool_decide (access e = Deny).

Definition push_entry (self : FileSystemSandboxPolicy) (e : FileSystemSandboxEntry) :
    FileSystemSandboxPolicy :=
  SandboxPolicyOf (kind self) (glob_scan_max_depth self) (entries self ++ [e]).
Definition with_entries (self : FileSystemSandboxPolicy)
    (es : list FileSystemSandboxEntry) : FileSystemSandboxPolicy :=
  SandboxPolicyOf (kind self) (glob_scan_max_depth self) es.

(** ** Targets that coincide without a working directory *)

Definition special_paths_share_target (left right : FileSystemSpecialPath) : bool :=
  match left, right with
  | Root, Root | Minimal, Minimal | Tmpdir, Tmpdir | SlashTmp, SlashTmp => true
  | ProjectRoots l, ProjectRoots r => opt_path_eqb l r
  | Unknown l lsub, Unknown r rsub => bool_decide (l = r) && opt_path_eqb lsub rsub
  | _, _ => false
  end.

Definition special_path_matches_absolute_path (value : FileSystemSpecialPath)
    (path : PathBuf) : bool :=
  match value with
  | Root => match parent path with None => true | Some _ => false end
  | SlashTmp => bool_decide (path = components "/tmp")
  | _ => false
  end.

Definition file_system_paths_share_target (left right : FileSystemPath) : bool :=
  match left, right with
  | Path l, Path r => bool_decide (l = r)
  | Special l, Special r => special_paths_share_target l r
  | Path p, Special v | Special v, Path p => special_path_matches_absolute_path v p
  | GlobPattern l, GlobPattern r => bool_decide (l = r)
  | GlobPattern _, _ | _, GlobPattern _ => false
  end.

(** ** What the entries say without resolving them *)

Definition has_root_access (self : FileSystemSandboxPolicy)
    (predicate : FileSystemAccessMode -> bool) : bool :=
  is_restricted (kind self)
  && existsb (fun entry =>
       match path entry with Special Root => predicate (access entry) | _ => false end)
       (entries self).

Definition has_denied_read_restrictions (self : FileSystemSandboxPolicy) : bool :=
  is_restricted (kind self) && existsb is_deny (entries self).

Definition has_same_target_write_override (self : FileSystemSandboxPolicy)
    (entry : FileSystemSandboxEntry) : bool :=
  existsb (fun candidate =>
    can_write (access candidate)
    && (access_rank (access entry) <? access_rank (access candidate))%nat
    && file_system_paths_share_target (path candidate) (path entry)) (entries self).

Definition has_write_narrowing_entries (self : FileSystemSandboxPolicy) : bool :=
  is_restricted (kind self)
  && existsb (fun entry =>
       if can_write (access entry) then false
       else match path entry with
            | Path _ => negb (has_same_target_write_override self entry)
            | GlobPattern _ => true
            | Special value =>
                match value with
                | Root => is_deny entry
                | Minimal | Unknown _ _ => false
                | _ => negb (has_same_target_write_override self entry)
                end
            end) (entries self).

Definition has_full_disk_read_access (self : FileSystemSandboxPolicy) : bool :=
  match kind self with
  | Unrestricted | ExternalSandbox => true
  | Restricted =>
      has_root_access self can_read && negb (has_denied_read_restrictions self)
  end.

Definition has_full_disk_write_access (self : FileSystemSandboxPolicy) : bool :=
  match kind self with
  | Unrestricted | ExternalSandbox => true
  | Restricted =>
      has_root_access self can_write && negb (has_write_narrowing_entries self)
  end.

Definition include_platform_defaults (self : FileSystemSandboxPolicy) : bool :=
  negb (has_full_disk_read_access self)
  && is_restricted (kind self)
  && existsb (fun entry =>
       match path entry with Special Minimal => can_read (access entry) | _ => false end)
       (entries self).

Section System.
Context {os : Os}.

Definition from_absolute (p : str) : result PathError PathBuf :=
  from_absolute_path home_dir current_dir p.
Definition against_base (p : str) (base : PathBuf) : PathBuf :=
  resolve_path_against_base home_dir p (render base).
Definition join_path (self : PathBuf) (p : str) : PathBuf := abs_join home_dir self p.

(** ** Resolution *)

(** [None] stands for the panic of a path without a root too, which an
    absolute path does not reach ([absolute_root_of]). *)
Definition absolute_root_path_for_cwd (cwd : PathBuf) : option PathBuf :=
  match last (ancestors cwd) with
  | None => None
  | Some root => ok (from_absolute (render root))
  end.

Definition resolve_file_system_special_path (value : FileSystemSpecialPath)
    (cwd : option PathBuf) : option PathBuf :=
  match value with
  | Root | Minimal | Unknown _ _ => None
  | ProjectRoots subpath =>
      match cwd with
      | None => None
      | Some cwd =>
          match subpath with
          | Some subpath => Some (against_base subpath cwd)
          | None => Some cwd
          end
      end
  | Tmpdir =>
      match TMPDIR with
      | None => None
      | Some tmpdir => if is_empty tmpdir then None else ok (from_absolute tmpdir)
      end
  | SlashTmp =>
      match from_absolute "/tmp" with
      | Err _ => None
      | Ok slash_tmp => if negb (is_dir slash_tmp) then None else Some slash_tmp
      end
  end.

Definition resolve_file_system_path (path : FileSystemPath) (cwd : option PathBuf) :
    option PathBuf :=
  match path with
  | Path path => Some path
  | GlobPattern _ => None
  | Special value => resolve_file_system_special_path value cwd
  end.

Definition resolve_entry_path (path : FileSystemPath) (cwd : option PathBuf) :
    option PathBuf :=
  match path with
  | Special Root => match cwd with None => None | Some c => absolute_root_path_for_cwd c end
  | _ => resolve_file_system_path path cwd
  end.

Definition resolve_candidate_path (path cwd : str) : option PathBuf :=
  if is_absolute path then ok (from_absolute path)
  else match ok (from_absolute cwd) with
       | None => None
       | Some cwd => Some (join_path cwd path)
       end.

Definition resolve_entry (cwd : option PathBuf) (entry : FileSystemSandboxEntry) :
    option ResolvedFileSystemEntry :=
  match resolve_entry_path (path entry) cwd with
  | Some p => Some (ResolvedEntry p (access entry))
  | None => None
  end.

Definition resolved_entries_with_cwd (self : FileSystemSandboxPolicy) (cwd : str) :
    list ResolvedFileSystemEntry :=
  omap (resolve_entry (ok (from_absolute cwd))) (entries self).

(** ** The access of a path *)

Definition resolved_entry_precedence (entry : ResolvedFileSystemEntry) :
    nat * FileSystemAccessMode :=
  (length (rpath entry), raccess entry).

(** The lexicographic order of the keys. *)
Definition precedence_lt (a b : ResolvedFileSystemEntry) : bool :=
  let '(n, x) := resolved_entry_precedence a in
  let '(m, y) := resolved_entry_precedence b in
  (n <? m)%nat || ((n =? m)%nat && (access_rank x <? access_rank y)%nat).

Definition covers (target : PathBuf) (entry : ResolvedFileSystemEntry) : bool :=
  path_starts_with target (rpath entry).

Definition resolve_access_with_cwd (self : FileSystemSandboxPolicy) (path cwd : str) :
    FileSystemAccessMode :=
  match kind self with
  | Unrestricted | ExternalSandbox => Write
  | Restricted =>
      match resolve_candidate_path path cwd with
      | None => Deny
      | Some path =>
          match max_by precedence_lt
                  (List.filter (covers path) (resolved_entries_with_cwd self cwd)) with
          | Some entry => raccess entry
          | None => Deny
          end
      end
  end.

Definition can_read_path_with_cwd (self : FileSystemSandboxPolicy) (path cwd : str) : bool :=
  can_read (resolve_access_with_cwd self path cwd).

(** ** Metadata directories *)

Definition metadata_path_name (name : str) : option str :=
  List.find (fun metadata_name => bool_decide (name = metadata_name))
    PROTECTED_METADATA_PATH_NAMES.

Definition metadata_child (target : PathBuf) (entry : ResolvedFileSystemEntry) :
    option (PathBuf * str) :=
  match path_strip_prefix target (rpath entry) with
  | None | Some [] => None
  | Some (first_component :: _) =>
      match metadata_path_name (component_str first_component) with
      | None => None
      | Some metadata_name => Some (join_path (rpath entry) metadata_name, metadata_name)
      end
  end.

Definition metadata_child_of_writable_root (policy : FileSystemSandboxPolicy)
    (target : PathBuf) (cwd : str) : option (PathBuf * str) :=
  head (omap (metadata_child target)
    (List.filter (fun entry => can_write (raccess entry))
      (resolved_entries_with_cwd policy cwd))).

Definition has_explicit_write_entry_for_metadata_path (policy : FileSystemSandboxPolicy)
    (protected_metadata_path target : PathBuf) (cwd : str) : bool :=
  existsb (fun entry =>
    can_write (raccess entry)
    && path_starts_with target (rpath entry)
    && path_starts_with (rpath entry) protected_metadata_path)
    (resolved_entries_with_cwd policy cwd).

Definition is_metadata_write_denied (self : FileSystemSandboxPolicy) (path cwd : str) : bool :=
  if negb (is_restricted (kind self)) then false
  else match resolve_candidate_path path cwd with
       | None => true
       | Some target =>
           match metadata_child_of_writable_root self target cwd with
           | None => false
           | Some (protected_metadata_path, _) =>
               negb (has_explicit_write_entry_for_metadata_path self
                       protected_metadata_path target cwd)
           end
       end.

Definition can_write_path_with_cwd (self : FileSystemSandboxPolicy) (path cwd : str) : bool :=
  if negb (can_write (resolve_access_with_cwd self path cwd)) then false
  else if has_full_disk_write_access self then true
  else negb (is_metadata_write_denied self path cwd).

Definition forbidden_agent_metadata_write (path cwd : str)
    (policy : FileSystemSandboxPolicy) : option str :=
  if negb (is_restricted (kind policy)) then None
  else match resolve_candidate_path path cwd with
       | None => None
       | Some target =>
           match metadata_child_of_writable_root policy target cwd with
           | None => None
           | Some (protected_metadata_path, metadata_name) =>
               if has_explicit_write_entry_for_metadata_path policy
                    protected_metadata_path target cwd
               then None
               else if negb (can_write_path_with_cwd policy (render target) cwd)
               then Some metadata_name
               else None
           end
       end.

End System.

(** ** The greatest element *)

Section MaxBy.
Context {A : Type} (lt : A -> A -> bool).
Context (lt_asym : forall x y, lt x y = true -> lt y x = false).
Context (lt_negtrans : forall x y z, lt x y = false -> lt y z = false -> lt x z = false).

Let step (acc : option A) (x : A) : option A :=
  match acc with None => Some x | Some y => if lt x y then acc else Some x end.

Lemma max_irrefl x : lt x x = false.
Proof. destruct (lt x x) eqn:E; [|done]. by rewrite (lt_asym _ _ E) in E. Qed.

Lemma max_by_fold l a :
  exists m, fold_left step l (Some a) = Some m /\ (m = a \/ m ∈ l) /\
    lt m a = false /\ forall y, y ∈ l -> lt m y = false.
Proof.
  revert a. induction l as [|x l IH]; intros a.
  { exists a. split_and!; [done|by left|apply max_irrefl|]. intros y []%elem_of_nil. }
  cbn [fold_left step].
  destruct (lt x a) eqn:E.
  - destruct (IH a) as (m & Hm & Hin & Hma & Hall). exists m. split_and!; [done| |done|].
    + destruct Hin; [by left|right; by right].
    + intros y [->|Hy]%elem_of_cons; [|by apply Hall].
      apply (lt_negtrans _ a); [done|by apply lt_asym].
  - destruct (IH x) as (m & Hm & Hin & Hmx & Hall). exists m. split_and!; [done| | |].
    + right. destruct Hin as [->|]; [by left|by right].
    + by apply (lt_negtrans _ x).
    + intros y [->|Hy]%elem_of_cons; [done|by apply Hall].
Qed.

Lemma max_by_spec l :
  match max_by lt l with
  | None => l = []
  | Some m => m ∈ l /\ forall y, y ∈ l -> lt m y = false
  end.
Proof.
  destruct l as [|a l]; [done|]. change (max_by lt (a :: l)) with (fold_left step l (Some a)).
  destruct (max_by_fold l a) as (m & -> & Hin & Hma & Hall). split.
  - destruct Hin as [->|]; [by left|by right].
  - intros y [->|Hy]%elem_of_cons; [done|by apply Hall].
Qed.

End MaxBy.

(** ** Lemmas on paths *)

Lemma path_starts_with_spec p base : path_starts_with p base = true <-> base `prefix_of` p.
Proof. unfold path_starts_with. apply bool_decide_eq_true. Qed.

Lemma path_strip_prefix_spec p base r :
  path_strip_prefix p base = Some r <-> p = base ++ r.
Proof.
  unfold path_strip_prefix. destruct (path_starts_with p base) eqn:E.
  - apply path_starts_with_spec in E as [k ->]. rewrite drop_app_length.
    split; [by intros [= ->]|]. by intros ->%app_inv_head.
  - split; [done|]. intros ->. rewrite (proj2 (path_starts_with_spec _ _)) in E; [done|].
    by apply prefix_app_r.
Qed.

Lemma prefix_same_length {A} (a b t : list A) :
  a `prefix_of` t -> b `prefix_of` t -> length a = length b -> a = b.
Proof.
  intros Ha Hb Hl. destruct (prefix_weak_total a b t Ha Hb) as [H|H].
  - apply prefix_length_eq; [done|lia].
  - symmetry. apply prefix_length_eq; [done|lia].
Qed.

Lemma parent_abs ns :
  parent (abs_path ns) =
  match ns with [] => None | _ => Some (abs_path (take (pred (length ns)) ns)) end.
Proof.
  destruct ns as [|s l _] using rev_ind; [done|].
  pose proof (pop_abs (l ++ [s])) as Hp. unfold pop in Hp. unfold parent.
  rewrite map_app, app_comm_cons in *. cbn [map] in *. rewrite last_snoc in *.
  rewrite Hp. by destruct l.
Qed.

Lemma ancestors_from_abs n ns :
  length ns <= n ->
  ancestors_from n (abs_path ns) = map (fun k => abs_path (take k ns)) (rev (seq 0 (S (length ns)))).
Proof.
  revert ns. induction n as [|n IH]; intros ns Hn.
  { by destruct ns; [|cbn in Hn; lia]. }
  cbn [ancestors_from]. rewrite parent_abs.
  rewrite seq_S, rev_app_distr. cbn [rev app map Nat.add]. rewrite firstn_all. f_equal.
  destruct ns as [|s l] eqn:El; [done|]. rewrite <- El in *.
  assert (length ns = S (length l)) as Hlen by by subst.
  rewrite Hlen. cbn [pred]. rewrite IH by (rewrite length_take; lia).
  rewrite length_take. replace (length l `min` length ns) with (length l) by lia.
  apply map_ext_in. intros k [Hk Hk']%in_rev%in_seq. f_equal. f_equal.
  rewrite take_take. f_equal. lia.
Qed.

(** The ancestors of an absolute path are its prefixes with the root. *)
Lemma ancestors_abs ns :
  ancestors (abs_path ns) = map (fun k => abs_path (take k ns)) (rev (seq 0 (S (length ns)))).
Proof. unfold ancestors. apply ancestors_from_abs. cbn. rewrite length_map. lia. Qed.

(** ** Resolution stays within the type *)

(** The guarantee of [AbsolutePathBuf] on the paths a policy holds. *)
Definition entry_ok (e : FileSystemSandboxEntry) : Prop :=
  match path e with Path p => normal_abs p | _ => True end.
Definition policy_ok (self : FileSystemSandboxPolicy) : Prop := Forall entry_ok (entries self).

Lemma precedence_lt_spec a b :
  precedence_lt a b = true <->
  length (rpath a) < length (rpath b) \/
  (length (rpath a) = length (rpath b) /\ access_rank (raccess a) < access_rank (raccess b)).
Proof.
  unfold precedence_lt, resolved_entry_precedence.
  rewrite orb_true_iff, andb_true_iff, Nat.ltb_lt, Nat.eqb_eq, Nat.ltb_lt. done.
Qed.

Lemma precedence_lt_false a b :
  precedence_lt a b = false <->
  length (rpath b) < length (rpath a) \/
  (length (rpath b) = length (rpath a) /\ access_rank (raccess b) <= access_rank (raccess a)).
Proof.
  rewrite <- not_true_iff_false, precedence_lt_spec. lia.
Qed.

Lemma precedence_asym a b : precedence_lt a b = true -> precedence_lt b a = false.
Proof. rewrite precedence_lt_spec, precedence_lt_false. lia. Qed.

Lemma precedence_negtrans a b c :
  precedence_lt a b = false -> precedence_lt b c = false -> precedence_lt a c = false.
Proof. rewrite !precedence_lt_false. lia. Qed.

Lemma access_rank_inj a b : access_rank a = access_rank b -> a = b.
Proof. by destruct a, b. Qed.

Section SystemLemmas.
Context {os : Os}.

Lemma from_absolute_normal p q : from_absolute p = Ok q -> normal_abs q.
Proof. apply from_absolute_path_is_normal, current_dir_absolute. Qed.

Lemma from_absolute_render q : normal_abs q -> from_absolute (render q) = Ok q.
Proof. apply from_absolute_path_render. Qed.

Lemma ok_Some {E A} (r : result E A) a : ok r = Some a <-> r = Ok a.
Proof. by destruct r; split; intros [= ->]. Qed.

Lemma against_base_normal s p : normal_abs p -> normal_abs (against_base s p).
Proof. intros (Ha & _ & _)%normalize_render. by apply absolutize_from_normal. Qed.

(** A proper name that is not a home directory is one more component. *)
Lemma join_path_name p s :
  normal_abs p -> proper_name s -> starts_with s "~" = false ->
  join_path p s = p ++ [Normal s].
Proof.
  intros Hp Hs Ht. unfold join_path.
  assert (is_absolute s = false) as Ha.
  { destruct (is_absolute s) eqn:E; [|done]. apply is_absolute_cons in E as [r ->].
    destruct Hs as (_ & _ & _ & [? _]%no_char_cons). done. }
  rewrite abs_join_relative by done.
  rewrite split_no_char by apply Hs. cbn. rewrite segment_proper by done. cbn.
  done.
Qed.

Lemma absolute_root_of p : normal_abs p -> absolute_root_path_for_cwd p = Some [RootDir].
Proof.
  intros (ns & Hns & ->). unfold absolute_root_path_for_cwd. rewrite ancestors_abs.
  cbn [seq rev]. rewrite map_app. cbn [map]. rewrite last_snoc. cbn [take].
  by rewrite from_absolute_render by apply normal_root.
Qed.

Lemma slash_tmp_path : from_absolute "/tmp" = Ok (components "/tmp").
Proof. by apply (from_absolute_path_abs home_dir current_dir "/tmp"). Qed.

Lemma resolve_entry_path_normal cwd e q :
  (forall c, cwd = Some c -> normal_abs c) -> entry_ok e ->
  resolve_entry_path (path e) cwd = Some q -> normal_abs q.
Proof.
  unfold entry_ok. intros Hc He Hq. destruct (path e) as [p|g|v]; cbn in *; [congruence|done|].
  destruct v as [| |sub| | |u sub]; cbn in Hq; try done.
  - destruct cwd as [c|]; [|done]. rewrite absolute_root_of in Hq by by apply Hc.
    injection Hq as <-. apply normal_root.
  - destruct cwd as [c|]; [|done]. destruct sub as [s|]; injection Hq as <-; [|by apply Hc].
    by apply against_base_normal, Hc.
  - destruct TMPDIR as [t|]; [|done]. destruct (is_empty t); [done|].
    apply ok_Some in Hq. by apply from_absolute_normal in Hq.
  - rewrite slash_tmp_path in Hq. destruct (is_dir _); [|done]. injection Hq as <-.
    apply (from_absolute_normal "/tmp"), slash_tmp_path.
Qed.

Lemma resolved_entry_iff self cwd r :
  r ∈ resolved_entries_with_cwd self cwd <->
  exists e, e ∈ entries self /\ raccess r = access e /\
    resolve_entry_path (path e) (ok (from_absolute cwd)) = Some (rpath r).
Proof.
  unfold resolved_entries_with_cwd. rewrite list_elem_of_omap. unfold resolve_entry. split.
  - intros (e & He & Hr). exists e. destruct (resolve_entry_path _ _) as [q|] eqn:E; [|done].
    by injection Hr as <-.
  - intros (e & He & Ha & Hp). exists e. rewrite Hp, <- Ha. by destruct r.
Qed.

Lemma resolved_normal self cwd r :
  policy_ok self -> r ∈ resolved_entries_with_cwd self cwd -> normal_abs (rpath r).
Proof.
  intros Hok (e & He & _ & Hr)%resolved_entry_iff.
  eapply resolve_entry_path_normal; [|by eapply Forall_forall in Hok|exact Hr].
  intros c Hc%ok_Some. by eapply from_absolute_normal.
Qed.

Lemma candidate_normal p cwd t : resolve_candidate_path p cwd = Some t -> normal_abs t.
Proof.
  unfold resolve_candidate_path. destruct (is_absolute p).
  - intros Ht%ok_Some. by eapply from_absolute_normal.
  - destruct (from_absolute cwd) as [c|] eqn:Ec; [|done]. cbn. intros [= <-].
    apply from_absolute_normal in Ec. by apply against_base_normal.
Qed.

Lemma candidate_render t cwd : normal_abs t -> resolve_candidate_path (render t) cwd = Some t.
Proof.
  intros Hn. unfold resolve_candidate_path.
  destruct (normalize_render t Hn) as (-> & _). by rewrite from_absolute_render.
Qed.

(** ** The entry that decides *)

(** [e] is the most specific of the entries that cover [t]; at the same path
    it has the greatest access. *)
Definition decides (l : list ResolvedFileSystemEntry) (t : PathBuf)
    (e : ResolvedFileSystemEntry) : Prop :=
  e ∈ l /\ rpath e `prefix_of` t /\
  forall d, d ∈ l -> rpath d `prefix_of` t ->
    length (rpath d) < length (rpath e) \/
    (rpath d = rpath e /\ access_rank (raccess d) <= access_rank (raccess e)).

Lemma decides_unique l t e d : decides l t e -> decides l t d -> e = d.
Proof.
  intros (He & Hpe & Hme) (Hd & Hpd & Hmd).
  destruct (Hme d Hd Hpd) as [|[Hp Ha]]; destruct (Hmd e He Hpe) as [|[Hp' Ha']]; try lia;
    try (rewrite Hp in *; lia); try (rewrite Hp' in *; lia).
  destruct e, d; cbn in *; subst. f_equal. apply access_rank_inj. lia.
Qed.

Lemma max_covering l t :
  match max_by precedence_lt (List.filter (covers t) l) with
  | Some e => decides l t e
  | None => forall e, e ∈ l -> ~ rpath e `prefix_of` t
  end.
Proof.
  pose proof (max_by_spec precedence_lt precedence_asym precedence_negtrans
    (List.filter (covers t) l)) as Hm.
  destruct (max_by _ _) as [e|].
  - destruct Hm as [Hin Hall]. apply list_elem_of_In, filter_In in Hin as [Hin Hc].
    apply path_starts_with_spec in Hc. split_and!; [by apply list_elem_of_In|done|].
    intros d Hd Hpd. assert (precedence_lt e d = false) as Hlt.
    { apply Hall, list_elem_of_In, filter_In. split; [by apply list_elem_of_In|].
      by apply path_starts_with_spec. }
    apply precedence_lt_false in Hlt as [|[Hl Ha]]; [by left|right; split; [|done]].
    by eapply prefix_same_length.
  - intros e He Hpe. assert (e ∈ List.filter (covers t) l) as Hin.
    { apply list_elem_of_In, filter_In. split; [by apply list_elem_of_In|].
      by apply path_starts_with_spec. }
    rewrite Hm in Hin. by apply elem_of_nil in Hin.
Qed.

Lemma access_decided self p cwd t e :
  kind self = Restricted -> resolve_candidate_path p cwd = Some t ->
  decides (resolved_entries_with_cwd self cwd) t e ->
  resolve_access_with_cwd self p cwd = raccess e.
Proof.
  intros Hk Ht He. unfold resolve_access_with_cwd. rewrite Hk, Ht.
  pose proof (max_covering (resolved_entries_with_cwd self cwd) t) as Hm.
  destruct (max_by _ _) as [d|]; [by rewrite (decides_unique _ _ _ _ He Hm)|].
  destruct He as (He & Hp & _). by destruct (Hm e He).
Qed.

Lemma access_inv self p cwd t :
  kind self = Restricted -> resolve_candidate_path p cwd = Some t ->
  (exists e, decides (resolved_entries_with_cwd self cwd) t e /\
     resolve_access_with_cwd self p cwd = raccess e) \/
  (resolve_access_with_cwd self p cwd = Deny /\
   forall e, e ∈ resolved_entries_with_cwd self cwd -> ~ rpath e `prefix_of` t).
Proof.
  intros Hk Ht. unfold resolve_access_with_cwd. rewrite Hk, Ht.
  pose proof (max_covering (resolved_entries_with_cwd self cwd) t) as Hm.
  destruct (max_by _ _) as [d|]; [left; by exists d|by right].
Qed.

End SystemLemmas.

(** ** Entries that share a target *)

Lemma existsb_false_elem {A} (f : A -> bool) l x : existsb f l = false -> x ∈ l -> f x = false.
Proof.
  intros H Hx. apply not_true_iff_false. intros Hf. apply not_true_iff_false in H.
  apply H, existsb_exists. exists x. split; [by apply list_elem_of_In|done].
Qed.

Lemma parent_none p : normal_abs p -> parent p = None -> p = [RootDir].
Proof.
  intros (ns & _ & ->). rewrite parent_abs. by destruct ns.
Qed.

Lemma opt_path_eqb_spec a b : opt_path_eqb a b = true <-> components <$> a = components <$> b.
Proof. unfold opt_path_eqb. apply bool_decide_eq_true. Qed.

Section TargetLemmas.
Context {os : Os}.

Lemma project_roots_components sub sub' c :
  normal_abs c -> opt_path_eqb sub sub' = true ->
  resolve_file_system_special_path (ProjectRoots sub) (Some c) =
  resolve_file_system_special_path (ProjectRoots sub') (Some c).
Proof.
  intros (Ha & _)%normalize_render Heq%opt_path_eqb_spec.
  destruct sub as [s|], sub' as [s'|]; try done. injection Heq as Heq. cbn.
  f_equal. by apply resolve_components.
Qed.

Lemma share_target_resolves a b c q :
  is_dir (components "/tmp") = true -> normal_abs c ->
  (forall p, a = Path p -> normal_abs p) -> (forall p, b = Path p -> normal_abs p) ->
  file_system_paths_share_target a b = true ->
  resolve_entry_path b (Some c) = Some q -> resolve_entry_path a (Some c) = Some q.
Proof.
  intros Htmp Hc Ha Hb Hs Hq.
  assert (forall v p, normal_abs p -> special_path_matches_absolute_path v p = true ->
    resolve_entry_path (Special v) (Some c) = Some p) as Hmatch.
  { intros v p Hp. destruct v; cbn [special_path_matches_absolute_path]; try done.
    - destruct (parent p) eqn:E; [done|]. intros _. cbn [resolve_entry_path].
      rewrite (parent_none p) by done. by apply absolute_root_of.
    - intros ->%bool_decide_eq_true. cbn. by rewrite slash_tmp_path, Htmp. }
  destruct a as [p|g|v], b as [p'|g'|w]; cbn [file_system_paths_share_target] in Hs; try done.
  - by apply bool_decide_eq_true in Hs as ->.
  - rewrite (Hmatch w p) in Hq by auto. by rewrite <- Hq.
  - apply Hmatch in Hs; [|by apply Hb]. by rewrite Hs, <- Hq.
  - destruct v, w; try done. cbn [special_paths_share_target] in Hs.
    cbn [resolve_entry_path resolve_file_system_path] in *.
    by rewrite (project_roots_components _ subpath0).
Qed.

Lemma root_access_entry self pred cwd c :
  has_root_access self pred = true -> from_absolute cwd = Ok c ->
  exists r, r ∈ resolved_entries_with_cwd self cwd /\ rpath r = [RootDir] /\
    pred (raccess r) = true.
Proof.
  intros [_ (e & He & Hp)%existsb_exists]%andb_true_iff Hc.
  exists (ResolvedEntry [RootDir] (access e)).
  destruct (path e) as [| |[]] eqn:Ep; try done. split_and!; [|done|done].
  apply resolved_entry_iff. exists e. rewrite Ep, Hc. cbn [ok resolve_entry_path].
  split_and!; [by apply list_elem_of_In|done|]. by apply absolute_root_of, (from_absolute_normal cwd).
Qed.

Lemma normal_root_prefix t : normal_abs t -> [RootDir] `prefix_of` t.
Proof. intros (ns & _ & ->). by exists (map Normal ns). Qed.

(** With a root entry, some entry decides for every path. *)
Lemma root_decides self pred p cwd c t :
  kind self = Restricted -> has_root_access self pred = true ->
  from_absolute cwd = Ok c -> resolve_candidate_path p cwd = Some t ->
  exists r d, decides (resolved_entries_with_cwd self cwd) t d /\
    resolve_access_with_cwd self p cwd = raccess d /\
    r ∈ resolved_entries_with_cwd self cwd /\ rpath r = [RootDir] /\ pred (raccess r) = true.
Proof.
  intros Hk Hr Hc Ht. destruct (root_access_entry _ _ _ _ Hr Hc) as (r & Hin & Hp & Ha).
  exists r. destruct (access_inv self p cwd t Hk Ht) as [(d & Hd & Had)|[_ Hno]].
  - by exists d.
  - destruct (Hno r Hin). rewrite Hp. by eapply normal_root_prefix, candidate_normal.
Qed.

Lemma full_disk_read_access self p cwd c t :
  from_absolute cwd = Ok c -> resolve_candidate_path p cwd = Some t ->
  has_full_disk_read_access self = true ->
  can_read_path_with_cwd self p cwd = true.
Proof.
  intros Hc Ht Hf. unfold can_read_path_with_cwd. unfold has_full_disk_read_access in Hf.
  destruct (kind self) eqn:Hk; [|by unfold resolve_access_with_cwd; rewrite Hk..].
  apply andb_true_iff in Hf as [Hr Hno].
  destruct (root_decides _ _ p cwd c t Hk Hr Hc Ht) as (_ & d & (Hd & _) & -> & _).
  apply resolved_entry_iff in Hd as (e & He & -> & _).
  destruct (access e) eqn:Ea; try done. exfalso.
  apply negb_true_iff in Hno. unfold has_denied_read_restrictions in Hno.
  rewrite Hk in Hno. cbn in Hno. apply existsb_false_elem with (x := e) in Hno; [|done].
  unfold is_deny in Hno. by rewrite Ea in Hno.
Qed.

(** A non-write entry that nothing shadows counts as narrowing. *)
Lemma not_narrowing self e c q :
  is_dir (components "/tmp") = true -> normal_abs c -> policy_ok self ->
  kind self = Restricted -> has_write_narrowing_entries self = false ->
  e ∈ entries self -> resolve_entry_path (path e) (Some c) = Some q ->
  can_write (access e) = true \/
  (access e = Read /\ path e = Special Root) \/
  exists w, w ∈ entries self /\ access w = Write /\ access_rank (access e) < 1 /\
    resolve_entry_path (path w) (Some c) = Some q.
Proof.
  intros Htmp Hc Hok Hk Hn He Hq. unfold has_write_narrowing_entries in Hn.
  rewrite Hk in Hn. cbn [is_restricted andb] in Hn.
  pose proof (existsb_false_elem _ _ e Hn He) as Hbody. cbn beta in Hbody.
  destruct (can_write (access e)) eqn:Ea; [by left|right].
  assert (has_same_target_write_override self e = true \/
    (access e = Read /\ path e = Special Root)) as [Ho|]; [|right|by left].
  { destruct (path e) as [|g|[]]; try done; try (left; by apply negb_false_iff).
    right. split; [|done]. unfold is_deny in Hbody. by destruct (access e). }
  apply existsb_exists in Ho as (w & Hw & Hcond).
  apply andb_true_iff in Hcond as [[Hcw Hlt%Nat.ltb_lt]%andb_true_iff Hs].
  apply list_elem_of_In in Hw. exists w.
  assert (access w = Write) as Ew by (by destruct (access w)).
  rewrite Ew in Hlt. split_and!; [done|done|done|].
  pose proof (proj1 (Forall_forall _ _) Hok) as Hf.
  eapply share_target_resolves; [done|done| | |exact Hs|done].
  - intros p Ep. specialize (Hf w Hw). unfold entry_ok in Hf. by rewrite Ep in Hf.
  - intros p Ep. specialize (Hf e He). unfold entry_ok in Hf. by rewrite Ep in Hf.
Qed.

Lemma full_disk_write_access self p cwd c t :
  is_dir (components "/tmp") = true -> policy_ok self ->
  from_absolute cwd = Ok c -> resolve_candidate_path p cwd = Some t ->
  has_full_disk_write_access self = true ->
  can_write_path_with_cwd self p cwd = true.
Proof.
  intros Htmp Hok Hc Ht Hf. unfold can_write_path_with_cwd. rewrite Hf.
  cut (can_write (resolve_access_with_cwd self p cwd) = true); [by intros ->|].
  unfold has_full_disk_write_access in Hf.
  destruct (kind self) eqn:Hk; [|by unfold resolve_access_with_cwd; rewrite Hk..].
  apply andb_true_iff in Hf as [Hr Hno%negb_true_iff].
  destruct (root_decides _ _ p cwd c t Hk Hr Hc Ht) as (r & d & Hd & -> & Hrin & Hrp & Hra).
  destruct Hd as (Hd & Hpre & Hmax). pose proof Hd as Hd'.
  apply resolved_entry_iff in Hd' as (e & He & Hda & Hq).
  rewrite Hc in Hq. cbn [ok] in Hq.
  destruct (not_narrowing self e c (rpath d)) as [Hw|[[Ha Hp]|(w & Hw & Haw & Hlt & Hqw)]];
    try done.
  - by eapply from_absolute_normal.
  - by rewrite Hda.
  - exfalso. rewrite Hp in Hq. cbn [resolve_entry_path] in Hq.
    rewrite absolute_root_of in Hq by (by eapply from_absolute_normal). injection Hq as Hq.
    destruct (Hmax r Hrin) as [Hl|[_ Hl]].
    + rewrite Hrp. by eapply normal_root_prefix, candidate_normal.
    + rewrite Hrp, <- Hq in Hl. lia.
    + rewrite Hda, Ha in Hl. by destruct (raccess r); cbn in *; [|lia|].
  - exfalso. destruct (Hmax (ResolvedEntry (rpath d) Write)) as [Hl|[_ Hl]]; cbn in *.
    + apply resolved_entry_iff. exists w. rewrite Hc. by split_and!.
    + done.
    + lia.
    + rewrite Hda in Hl. lia.
Qed.

End TargetLemmas.

(** ** Metadata directories *)

Lemma metadata_path_name_spec n m :
  metadata_path_name n = Some m <-> n = m /\ is_protected_metadata_name n = true.
Proof.
  unfold metadata_path_name, is_protected_metadata_name. split.
  - intros [Hin Heq]%find_some. apply bool_decide_eq_true in Heq as ->. split; [done|].
    apply existsb_exists. exists m. split; [done|]. by apply bool_decide_eq_true.
  - intros [<- (x & Hin & ->%bool_decide_eq_true)%existsb_exists].
    destruct (List.find _ _) as [y|] eqn:E.
    + apply find_some in E as [_ ->%bool_decide_eq_true]. done.
    + apply find_none with (x := x) in E; [|done]. by apply bool_decide_eq_false in E.
Qed.

Lemma protected_name_proper n :
  is_protected_metadata_name n = true -> proper_name n /\ starts_with n "~" = false.
Proof.
  intros (x & Hin & ->%bool_decide_eq_true)%existsb_exists.
  unfold proper_name, no_char.
  destruct Hin as [<-|[<-|[<-|[]]]]; (split; [|by vm_compute]);
    by apply (bool_decide_unpack _); vm_compute.
Qed.

Section MetadataLemmas.
Context {os : Os}.

Lemma metadata_child_spec t w m n :
  normal_abs (rpath w) ->
  metadata_child t w = Some (m, n) <->
  is_protected_metadata_name n = true /\ m = rpath w ++ [Normal n] /\ m `prefix_of` t.
Proof.
  intros Hw. unfold metadata_child.
  destruct (path_strip_prefix t (rpath w)) as [[|c r]|] eqn:E.
  - split; [done|]. intros (_ & -> & k & Hk). apply path_strip_prefix_spec in E.
    rewrite app_nil_r in E. subst t. rewrite <- app_assoc in Hk.
    apply (f_equal length) in Hk. rewrite length_app in Hk. cbn in Hk. lia.
  - apply path_strip_prefix_spec in E as ->. split.
    + destruct (metadata_path_name _) as [m'|] eqn:Em; [|done]. intros [= <- <-].
      apply metadata_path_name_spec in Em as [Hc Hp]. rewrite Hc in Hp.
      destruct (protected_name_proper _ Hp) as [Hprop Ht].
      rewrite join_path_name by done. split_and!; [done|done|].
      exists r. rewrite <- app_assoc. f_equal. cbn. f_equal.
      destruct c; cbn in Hc; subst; try done; by destruct Hprop.
    + intros (Hp & -> & k & Hk). rewrite <- app_assoc in Hk. apply app_inv_head in Hk.
      injection Hk as -> ->. cbn [component_str].
      rewrite (proj2 (metadata_path_name_spec n n)) by done.
      destruct (protected_name_proper _ Hp) as [Hprop Ht]. by rewrite join_path_name.
  - split; [done|]. intros (_ & -> & k & Hk). rewrite <- app_assoc in Hk. subst t.
    assert (path_strip_prefix (rpath w ++ [Normal n] ++ k) (rpath w) = Some ([Normal n] ++ k))
      as Hs by by apply path_strip_prefix_spec. by rewrite Hs in E.
Qed.

(** [w] is a writable root and [t] is in its metadata directory [n]. *)
Definition in_metadata (self : FileSystemSandboxPolicy) (cwd : str) (t : PathBuf)
    (w : ResolvedFileSystemEntry) (n : str) : Prop :=
  w ∈ resolved_entries_with_cwd self cwd /\ raccess w = Write /\
  is_protected_metadata_name n = true /\ rpath w ++ [Normal n] `prefix_of` t.

Lemma can_write_Write a : can_write a = true <-> a = Write.
Proof. by destruct a. Qed.

Lemma metadata_child_Some self t cwd m n :
  policy_ok self -> metadata_child_of_writable_root self t cwd = Some (m, n) ->
  exists w, in_metadata self cwd t w n /\ m = rpath w ++ [Normal n].
Proof.
  intros Hok Hm. unfold metadata_child_of_writable_root in Hm.
  apply head_Some_elem_of, list_elem_of_omap in Hm as (w & Hw & Hmc).
  apply list_elem_of_In, filter_In in Hw as [Hin Ha%can_write_Write].
  apply list_elem_of_In in Hin.
  apply metadata_child_spec in Hmc as (Hp & -> & Hpre); [|by eapply resolved_normal].
  by exists w.
Qed.

Lemma metadata_child_None self t cwd w n :
  policy_ok self -> metadata_child_of_writable_root self t cwd = None ->
  ~ in_metadata self cwd t w n.
Proof.
  intros Hok Hm (Hin & Ha & Hp & Hpre). unfold metadata_child_of_writable_root in Hm.
  apply head_None in Hm.
  assert ((rpath w ++ [Normal n], n) ∈ omap (metadata_child t)
    (List.filter (fun entry => can_write (raccess entry))
      (resolved_entries_with_cwd self cwd))) as Hel.
  { apply list_elem_of_omap. exists w. split.
    - apply list_elem_of_In, filter_In. split; [by apply list_elem_of_In|by rewrite Ha].
    - apply metadata_child_spec; [by eapply resolved_normal|done]. }
  rewrite Hm in Hel. by apply elem_of_nil in Hel.
Qed.

Lemma explicit_write_spec self m t cwd :
  has_explicit_write_entry_for_metadata_path self m t cwd = true <->
  exists e, e ∈ resolved_entries_with_cwd self cwd /\ raccess e = Write /\
    rpath e `prefix_of` t /\ m `prefix_of` rpath e.
Proof.
  unfold has_explicit_write_entry_for_metadata_path. rewrite existsb_exists.
  split; intros (e & He & Hc); exists e.
  - apply andb_true_iff in Hc as [[Ha%can_write_Write Hp]%andb_true_iff Hm].
    rewrite path_starts_with_spec in Hp, Hm. split_and!; try done. by apply list_elem_of_In.
  - destruct Hc as (Ha & Hp & Hm). split; [by apply list_elem_of_In|].
    rewrite Ha, !andb_true_iff, !path_starts_with_spec. done.
Qed.

(** What is decided of a path is decided of its resolved form. *)
Lemma can_write_render self p cwd t :
  resolve_candidate_path p cwd = Some t ->
  can_write_path_with_cwd self (render t) cwd = can_write_path_with_cwd self p cwd.
Proof.
  intros Ht. pose proof (candidate_render t cwd (candidate_normal _ _ _ Ht)) as Hr.
  unfold can_write_path_with_cwd, is_metadata_write_denied, resolve_access_with_cwd.
  by rewrite Ht, Hr.
Qed.

(** A write is granted by the deciding entry, unless the metadata guard
    refuses it. *)
Lemma can_write_inv self p cwd :
  can_write_path_with_cwd self p cwd = true <->
  resolve_access_with_cwd self p cwd = Write /\
  (has_full_disk_write_access self = true \/ is_metadata_write_denied self p cwd = false).
Proof.
  unfold can_write_path_with_cwd.
  destruct (can_write _) eqn:E; cbn [negb].
  - apply can_write_Write in E. rewrite E.
    destruct (has_full_disk_write_access self).
    + split; [by split; [|left]|done].
    + rewrite negb_true_iff. split; [by split; [|right]|by intros [_ [|]]].
  - split; [done|]. intros [Hw _]. by rewrite Hw in E.
Qed.

End MetadataLemmas.

(** ** The properties *)

Section Properties.
Context {os : Os}.

(** C5. The access of a path in a restricted policy is the access of the
    one most specific entry that covers it, a deny beating a write and a
    write a read among the entries for that same path, and deny when no
    entry covers it; so it does not depend on the order of the entries.
    Other policies grant every write. *)
Theorem resolve_access_most_specific self p cwd t :
  resolve_candidate_path p cwd = Some t ->
  (kind self = Restricted ->
   let l := resolved_entries_with_cwd self cwd in
   (forall a, resolve_access_with_cwd self p cwd = a <->
      (exists e, decides l t e /\ raccess e = a) \/
      (a = Deny /\ forall e, e ∈ l -> ~ rpath e `prefix_of` t)) /\
   (forall other, kind other = Restricted -> entries other ≡ₚ entries self ->
      resolve_access_with_cwd other p cwd = resolve_access_with_cwd self p cwd)) /\
  (kind self <> Restricted -> resolve_access_with_cwd self p cwd = Write).
Proof.
  intros Ht. split; cycle 1.
  { intros Hk. unfold resolve_access_with_cwd. by destruct (kind self). }
  intros Hk. cbn zeta. split.
  - intros a. pose proof (access_inv self p cwd t Hk Ht) as Hinv. split.
    + intros <-. destruct Hinv as [(e & He & ->)|[-> Hno]]; [left; by exists e|by right].
    + intros [(e & He & <-)|[-> Hno]]; [by eapply access_decided|].
      destruct Hinv as [(e & (He & Hp & _) & _)|[Ha _]]; [by destruct (Hno e He)|done].
  - intros other Hko Hperm.
    assert (forall r, r ∈ resolved_entries_with_cwd other cwd <->
                      r ∈ resolved_entries_with_cwd self cwd) as Hmem.
    { intros r. rewrite !resolved_entry_iff. by setoid_rewrite Hperm. }
    destruct (access_inv self p cwd t Hk Ht) as [(e & (He & Hp & Hmax) & ->)|[-> Hno]].
    + eapply access_decided; [done|done|]. split_and!; [by apply Hmem|done|].
      intros d Hd%Hmem. by apply Hmax.
    + destruct (access_inv other p cwd t Hko Ht) as [(e & (He%Hmem & Hp & _) & _)|[Ha _]];
        [by destruct (Hno e He)|done].
Qed.

(** The two shortcuts of the callers are justified: a policy that
    claims full-disk reads (writes) lets every path that resolves be read
    (written), whatever narrower entries it also lists; that is, the test for
    entries that narrow a root-wide write overlooks none that matters. *)
Theorem full_disk_access_everywhere self p cwd c t :
  is_dir (components "/tmp") = true -> policy_ok self ->
  from_absolute cwd = Ok c -> resolve_candidate_path p cwd = Some t ->
  (has_full_disk_read_access self = true -> can_read_path_with_cwd self p cwd = true) /\
  (has_full_disk_write_access self = true -> can_write_path_with_cwd self p cwd = true).
Proof.
  intros Htmp Hok Hc Ht. split; intros Hf.
  - by eapply full_disk_read_access.
  - by eapply full_disk_write_access.
Qed.

(** C6. Metadata directories of writable roots are guarded.  Under a
    restricted policy without full-disk writes a path inside [.git], [.agents]
    or [.codex] of a writable root is written only through a write entry that
    is itself inside such a directory; under a restricted policy the guard
    changes nothing outside of them, a command is stopped for the metadata
    directory [n] only if [t] is in one and may not be written, and a path
    whose deciding entry grants the write is refused only with such a stop. *)
Theorem metadata_write_guard self p cwd t :
  policy_ok self -> kind self = Restricted ->
  resolve_candidate_path p cwd = Some t ->
  (can_write_path_with_cwd self p cwd = true -> has_full_disk_write_access self = false ->
   forall w n, in_metadata self cwd t w n ->
   exists e w' n', e ∈ resolved_entries_with_cwd self cwd /\ raccess e = Write /\
     rpath e `prefix_of` t /\ in_metadata self cwd (rpath e) w' n') /\
  ((forall w n, ~ in_metadata self cwd t w n) ->
   can_write_path_with_cwd self p cwd = can_write (resolve_access_with_cwd self p cwd)) /\
  (forall n, forbidden_agent_metadata_write p cwd self = Some n ->
   can_write_path_with_cwd self p cwd = false /\ exists w, in_metadata self cwd t w n) /\
  (resolve_access_with_cwd self p cwd = Write ->
   can_write_path_with_cwd self p cwd = false ->
   exists n, forbidden_agent_metadata_write p cwd self = Some n).
Proof.
  intros Hok Hk Ht. unfold forbidden_agent_metadata_write. rewrite Hk, Ht.
  cbn [is_restricted negb]. rewrite (can_write_render self p cwd t Ht).
  assert (is_metadata_write_denied self p cwd =
    match metadata_child_of_writable_root self t cwd with
    | None => false
    | Some (m, _) => negb (has_explicit_write_entry_for_metadata_path self m t cwd)
    end) as Hden by by unfold is_metadata_write_denied; rewrite Hk, Ht.
  pose proof (can_write_inv self p cwd) as Hinv. rewrite Hden in Hinv.
  destruct (metadata_child_of_writable_root self t cwd) as [[m n]|] eqn:Em.
  - destruct (metadata_child_Some _ _ _ _ _ Hok Em) as (w & Hw & Hm).
    destruct (has_explicit_write_entry_for_metadata_path self m t cwd) eqn:Ex.
    + split_and!; [| |done|].
      * intros _ _ w0 n0 _. apply explicit_write_spec in Ex as (e & He & Ha & Hp & Hpm).
        exists e, w, n. destruct Hw as (? & ? & ? & _). split_and!; try done.
        split_and!; try done. by rewrite <- Hm.
      * intros Hno. by destruct (Hno w n).
      * intros Ha Hc. apply not_true_iff_false in Hc. destruct Hc. apply Hinv. by split; [|right].
    + split_and!.
      * intros [_ [Hf|Hf]]%Hinv Hnf; [congruence|done].
      * intros Hno. by destruct (Hno w n).
      * intros n0. destruct (can_write_path_with_cwd self p cwd); [done|].
        intros [= <-]. split; [done|by exists w].
      * intros _ ->. by exists n.
  - split_and!; [| |done|].
    + intros _ _ w n Hw. by destruct (metadata_child_None self t cwd w n Hok Em).
    + intros _. apply eq_iff_eq_true. rewrite Hinv, can_write_Write.
      split; [by intros [? _]|by split; [|right]].
    + intros Ha Hc. apply not_true_iff_false in Hc. destruct Hc. apply Hinv. by split; [|right].
Qed.

End Properties.

(** ** At work *)

Definition demo_os : Os :=
  mem_os (Some "/home/u") None
    [components "/"; components "/tmp"; components "/w"; components "/w/.git"] [].

Definition demo_policy : FileSystemSandboxPolicy :=
  restricted [
    SandboxEntry (Special Root) Read;
    SandboxEntry (Special (ProjectRoots None)) Write;
    SandboxEntry (Path (components "/w/secret")) Deny;
    SandboxEntry (Path (components "/w/secret/open")) Write;
    SandboxEntry (Path (components "/w/.git/hooks")) Write].

Lemma demo_policy_ok : policy_ok demo_policy.
Proof.
  assert (forall p, is_absolute p = true -> components p = normalize_path p ->
    normal_abs (components p)) as Hn by (intros p Ha ->; by apply normalize_absolute).
  repeat constructor; apply Hn; by vm_compute.
Qed.

Example demo_access :
  map (fun p => (can_read_path_with_cwd (os := demo_os) demo_policy p "/w",
                 can_write_path_with_cwd (os := demo_os) demo_policy p "/w"))
    ["src/x"; "secret/k"; "secret/open/k"; "/etc/passwd"; ".git/config"; ".git/hooks/h"] =
  [(true, true); (false, false); (true, true); (true, false); (true, false); (true, true)].
Proof. vm_compute. reflexivity. Qed.

Lemma resolve_access_most_specific_witness :
  resolve_access_with_cwd (os := demo_os) (restricted (rev (entries demo_policy)))
    "secret/open/k" "/w" = Write.
Proof.
  destruct (resolve_access_most_specific (os := demo_os) demo_policy "secret/open/k" "/w"
    (components "/w/secret/open/k") eq_refl) as [Hr _].
  destruct (Hr eq_refl) as [_ Hp]. rewrite Hp; [by vm_compute|done|].
  apply Permutation_sym, Permutation_rev.
Defined.

Lemma full_disk_access_everywhere_witness :
  let self := restricted [SandboxEntry (Path (components "/tmp")) Read;
                          SandboxEntry (Special SlashTmp) Write;
                          SandboxEntry (Special Root) Write] in
  has_full_disk_write_access self = true /\
  can_write_path_with_cwd (os := demo_os) self "/tmp/.git/x" "/w" = true.
Proof.
  intros self. split; [reflexivity|].
  apply (full_disk_access_everywhere (os := demo_os) self "/tmp/.git/x" "/w"
    (components "/w") (components "/tmp/.git/x")); try reflexivity.
  repeat constructor. exists ["tmp"]. split; [|reflexivity].
  repeat constructor; apply (bool_decide_unpack _); by vm_compute.
Defined.

Lemma metadata_write_guard_witness :
  can_write_path_with_cwd (os := demo_os) demo_policy ".git/config" "/w" = false /\
  exists w, in_metadata (os := demo_os) demo_policy "/w" (components "/w/.git/config") w ".git".
Proof.
  apply (metadata_write_guard (os := demo_os) demo_policy ".git/config" "/w"
    (components "/w/.git/config")); [apply demo_policy_ok|reflexivity..|].
  vm_compute. reflexivity.
Defined.

(** The guard looks at the first writable root that has the path in a
    metadata directory, so with nested roots the order of the entries
    decides whether the inner directory is guarded. *)
Theorem metadata_guard_depends_on_order :
  let a := SandboxEntry (Path (components "/a")) Write in
  let b := SandboxEntry (Path (components "/a/.git")) Write in
  can_write_path_with_cwd (os := demo_os) (restricted [a; b]) "/a/.git/.codex/x" "/" = true /\
  can_write_path_with_cwd (os := demo_os) (restricted [b; a]) "/a/.git/.codex/x" "/" = false.
Proof. vm_compute. done. Qed.

(** Without a [/tmp] directory a shadowing [:slash_tmp] entry resolves to
    nothing, and the claim of full-disk writes is too strong. *)
Theorem full_disk_write_needs_tmp :
  let self := restricted [SandboxEntry (Path (components "/tmp")) Read;
                          SandboxEntry (Special SlashTmp) Write;
                          SandboxEntry (Special Root) Write] in
  has_full_disk_write_access self = true /\
  can_write_path_with_cwd (os := mem_os None None [components "/"] []) self "/tmp/x" "/" = false.
Proof. vm_compute. done. Qed.
