(* ===== verification/OsLinks.v ===== *)
(** * OsLinks: symbolic links

    What the filesystem policy relies on when it follows symbolic links: the
    documented behaviour of [std::fs::canonicalize] and
    [std::fs::symlink_metadata] on a Unix system whose names are compared as
    they are written, as laws of [Os], and a system with links that has them. *)

From S2P Require Import Prelude RustStr AbsolutePath FsPolicy.
#[local] Open Scope str_scope.

(** ** The laws

    [canonicalize] "returns the canonical, absolute form of the path with all
    intermediate components normalized and symbolic links resolved", and fails
    when the path does not exist.  In particular, a path in normal form that
    goes through no symbolic link is its own canonical form. *)

Class OsLaws (os : Os) := {
  canonical_normal p q : canonicalize p = Some q -> normal_abs q;
  canonical_fixed p q : canonicalize p = Some q -> canonicalize (render q) = Some q;
  canonical_exists a q :
    normal_abs a -> canonicalize (render a) = Some q -> symlink_metadata a <> None;
  canonical_unlinked a q :
    normal_abs a ->
    (forall b, b `prefix_of` a -> normal_abs b -> symlink_metadata b <> Some true) ->
    canonicalize (render a) = Some q -> q = a;
  root_not_link : symlink_metadata [RootDir] <> Some true
}.

(** The component directly below the root is not a symbolic link. *)
Definition no_top_link {os : Os} (p : PathBuf) : Prop :=
  forall r c rest, p = r :: c :: rest -> symlink_metadata [r; c] <> Some true.

#[export] Instance no_top_link_dec {os : Os} p : Decision (no_top_link p).
Proof.
  destruct p as [|r [|c rest]]; [by left|by left|].
  destruct (decide (symlink_metadata [r; c] = Some true)) as [H|H].
  - right. intros Hno. by apply (Hno r c rest).
  - left. by intros ? ? ? [= -> -> ->].
Defined.

Lemma no_top_link_prefix {os : Os} a p : a `prefix_of` p -> no_top_link p -> no_top_link a.
Proof. intros [k ->] H r c rest ->. by apply (H r c (rest ++ k)). Qed.

(** ** Prefixes of normal paths *)

Lemma normal_prefix a p : normal_abs p -> a `prefix_of` p -> a <> [] -> normal_abs a.
Proof.
  intros (ns & Hns & ->) [k Hk] Hne. destruct a as [|c a]; [done|].
  injection Hk as <- Hk. apply map_eq_app in Hk as (l1 & l2 & -> & <- & _).
  exists l1. split; [|done]. by apply Forall_app in Hns as [? _].
Qed.

Lemma normal_ne p : normal_abs p -> p <> [].
Proof. by intros (ns & _ & ->). Qed.

Lemma ancestors_prefix p a :
  normal_abs p -> a ∈ ancestors p <-> (a `prefix_of` p /\ a <> []).
Proof.
  intros (ns & Hns & ->). rewrite ancestors_abs. split.
  - intros (k & <- & _)%list_elem_of_In%in_map_iff. split; [|done].
    exists (map Normal (drop k ns)). cbn. by rewrite <- map_app, take_drop.
  - intros [[k Hk] Hne]. destruct a as [|c a]; [done|]. injection Hk as <- Hk.
    apply map_eq_app in Hk as (l1 & l2 & -> & <- & _).
    apply list_elem_of_In, in_map_iff. exists (length l1). split.
    + by rewrite take_app_length.
    + apply -> in_rev. apply in_seq. rewrite length_app. lia.
Qed.

(** ** A system with links

    Directories, files with their text, and links with their targets; the
    names are canonical.  A path is walked component by component, a link
    leading on at its target, and [..] to the parent of where the walk is. *)

Section Linked.
Context (tmp : option str) (dirs : list PathBuf) (files : list (PathBuf * str))
  (links : list (PathBuf * PathBuf)).

Definition nodes : list PathBuf := [RootDir] :: dirs ++ map fst files.

Definition link_target (p : PathBuf) : option PathBuf :=
  snd <$> List.find (fun l => bool_decide (l.1 = p)) links.

Definition enter (p : PathBuf) : option PathBuf :=
  match link_target p with
  | Some target => Some target
  | None => if bool_decide (p ∈ nodes) then Some p else None
  end.

Fixpoint walk (cur : PathBuf) (l : list Component) : option PathBuf :=
  match l with
  | [] => Some cur
  | RootDir :: l => walk [RootDir] l
  | CurDir :: l => walk cur l
  | ParentDir :: l => walk (pop cur) l
  | Normal n :: l =>
      match enter (cur ++ [Normal n]) with Some next => walk next l | None => None end
  end.

(** The entry a path names: the walk up to its last component. *)
Definition entry_of (p : PathBuf) : option PathBuf :=
  match last p, parent p with
  | Some (Normal n), Some dir => (fun cur => cur ++ [Normal n]) <$> walk [RootDir] dir
  | _, _ => walk [RootDir] p
  end.

Definition linked_os : Os := {|
  home_dir := None;
  current_dir := Ok "/";
  TMPDIR := tmp;
  is_file p := match walk [RootDir] p with
               | Some q => bool_decide (q ∈ map fst files)
               | None => false
               end;
  is_dir p := match walk [RootDir] p with
              | Some q => bool_decide (q = [RootDir] \/ q ∈ dirs)
              | None => false
              end;
  exists_path p := match walk [RootDir] p with Some _ => true | None => false end;
  read_to_string p := walk [RootDir] p ≫= fun q =>
    snd <$> List.find (fun f => bool_decide (f.1 = q)) files;
  symlink_metadata p := entry_of p ≫= fun q =>
    match link_target q with
    | Some _ => Some true
    | None => if bool_decide (q ∈ nodes) then Some false else None
    end;
  canonicalize p := walk [RootDir] (components (path_with_base p "/"));
  current_dir_absolute := fun d H => match H with eq_refl => eq_refl end
|}.

(** The tree is closed: parents exist, and a link leads to an existing
    directory or file and does not replace one. *)
Record closed : Prop := Closed {
  nodes_normal : Forall normal_abs nodes;
  nodes_parents : Forall (fun p => pop p ∈ nodes) nodes;
  links_lead : Forall (fun l => l.2 ∈ nodes) links;
  links_apart : Forall (fun l => l.1 ∉ nodes) links
}.

Context (Hclosed : closed).

Lemma link_target_inv p target :
  link_target p = Some target -> target ∈ nodes /\ p ∉ nodes.
Proof.
  unfold link_target. destruct (List.find _ links) as [[a b]|] eqn:E; [|done].
  intros [= <-]. apply find_some in E as [Hin Heq%bool_decide_eq_true]. cbn in Heq. subst a.
  apply list_elem_of_In in Hin. destruct Hclosed as [_ _ H1 H2].
  rewrite Forall_forall in H1, H2. by split; [apply (H1 (p, b))|apply (H2 (p, b))].
Qed.

Lemma enter_nodes p q : enter p = Some q -> q ∈ nodes.
Proof.
  unfold enter. destruct (link_target p) eqn:E.
  - intros [= <-]. by apply link_target_inv in E as [? _].
  - case_bool_decide; [by intros [= <-]|done].
Qed.

Lemma enter_node p : p ∈ nodes -> enter p = Some p.
Proof.
  intros Hp. unfold enter. destruct (link_target p) eqn:E.
  - by apply link_target_inv in E as [_ ?].
  - by rewrite bool_decide_eq_true_2.
Qed.

Lemma walk_nodes l cur q : cur ∈ nodes -> walk cur l = Some q -> q ∈ nodes.
Proof.
  revert cur. induction l as [|[| | |n] l IH]; intros cur Hcur; cbn [walk].
  - by intros [= <-].
  - apply IH. by left.
  - by apply IH.
  - apply IH. destruct Hclosed as [_ H _ _]. rewrite Forall_forall in H. by apply H.
  - destruct (enter _) eqn:E; [|done]. apply IH. by eapply enter_nodes.
Qed.

Lemma walk_app cur l k : walk cur (l ++ k) = walk cur l ≫= fun q => walk q k.
Proof.
  revert cur. induction l as [|[| | |n] l IH]; intros cur; cbn [walk app]; try done.
  by destruct (enter _).
Qed.

Lemma root_node : [RootDir] ∈ nodes.
Proof. by left. Qed.

(** An existing name is where its walk ends. *)
Lemma walk_node q : q ∈ nodes -> walk [RootDir] q = Some q.
Proof.
  intros Hq. destruct Hclosed as [Hn Hpar _ _]. rewrite Forall_forall in Hn, Hpar.
  destruct (Hn q Hq) as (ns & Hns & ->). revert Hq. clear Hns.
  induction ns as [|n ns IH] using rev_ind; intros Hq; [done|].
  assert (RootDir :: map Normal ns ∈ nodes) as Hp.
  { specialize (Hpar _ Hq). rewrite pop_abs, length_app, Nat.add_1_r in Hpar. cbn [pred] in Hpar.
    by rewrite take_app_length in Hpar. }
  rewrite map_app. change (RootDir :: map Normal ns ++ map Normal [n])
    with ((RootDir :: map Normal ns) ++ [Normal n]).
  rewrite walk_app, IH by done. cbn. rewrite enter_node; [done|].
  by rewrite map_app in Hq.
Qed.

Lemma entry_of_snoc ns n :
  entry_of (abs_path (ns ++ [n])) = (fun cur => cur ++ [Normal n]) <$> walk [RootDir] (abs_path ns).
Proof.
  unfold entry_of. rewrite parent_abs, length_app, Nat.add_1_r. cbn [pred].
  rewrite take_app_length, map_app, app_comm_cons. cbn [map]. rewrite last_snoc.
  by destruct ns.
Qed.

Lemma walk_snoc ns n :
  walk [RootDir] (abs_path (ns ++ [n])) =
  walk [RootDir] (abs_path ns) ≫= fun cur => enter (cur ++ [Normal n]).
Proof.
  rewrite map_app, app_comm_cons, walk_app. destruct (walk _ (abs_path ns)); [|done].
  cbn. by destruct (enter _).
Qed.

Lemma canonicalize_linked a :
  normal_abs a -> canonicalize (Os := linked_os) (render a) = walk [RootDir] a.
Proof.
  intros Ha. destruct (normalize_render a Ha) as (Habs & _ & Hc). cbn.
  unfold path_with_base. by rewrite Habs, Hc.
Qed.

Lemma symlink_metadata_snoc ns n cur :
  walk [RootDir] (abs_path ns) = Some cur ->
  symlink_metadata (Os := linked_os) (abs_path (ns ++ [n])) =
  match link_target (cur ++ [Normal n]) with
  | Some _ => Some true
  | None => if bool_decide (cur ++ [Normal n] ∈ nodes) then Some false else None
  end.
Proof. intros Hw. cbn -[entry_of]. by rewrite entry_of_snoc, Hw. Qed.

Lemma root_metadata : symlink_metadata (Os := linked_os) [RootDir] = Some false.
Proof.
  cbn. destruct (link_target [RootDir]) eqn:E; [|done].
  by apply link_target_inv in E as [_ []%not_elem_of_cons].
Qed.

Lemma walk_unlinked ns :
  Forall proper_name ns ->
  (forall b, b `prefix_of` abs_path ns -> normal_abs b ->
    symlink_metadata (Os := linked_os) b <> Some true) ->
  forall q, walk [RootDir] (abs_path ns) = Some q -> q = abs_path ns.
Proof.
  induction ns as [|n ns IH] using rev_ind; intros Hns Hno q; [by intros [= <-]|].
  pose proof Hns as [Hl _]%Forall_app. rewrite walk_snoc.
  destruct (walk _ (abs_path ns)) as [cur|] eqn:E; [|done]. cbn. intros He.
  assert (cur = abs_path ns) as ->.
  { apply IH; [done| |done]. intros b [k Hb]. apply Hno. exists (k ++ [Normal n]).
    by rewrite map_app, app_comm_cons, Hb, app_assoc. }
  specialize (Hno (abs_path (ns ++ [n])) ltac:(done)
    (ex_intro _ _ (conj Hns eq_refl))).
  rewrite (symlink_metadata_snoc _ _ _ E) in Hno. unfold enter in He.
  rewrite map_app. destruct (link_target _); [done|].
  case_bool_decide; [by injection He as <-|done].
Qed.

Lemma linked_laws : OsLaws linked_os.
Proof.
  pose proof (nodes_normal Hclosed) as Hn. rewrite Forall_forall in Hn. split.
  - intros p q Hq. apply Hn. eapply walk_nodes; [apply root_node|exact Hq].
  - intros p q Hq. assert (q ∈ nodes) as Hin by (eapply walk_nodes; [apply root_node|exact Hq]).
    rewrite canonicalize_linked by by apply Hn. by apply walk_node.
  - intros a q Ha. rewrite canonicalize_linked by done. destruct Ha as (ns & Hns & ->).
    destruct ns as [|n ns _] using rev_ind; [by cbn [map]; rewrite root_metadata|].
    rewrite walk_snoc. destruct (walk _ (abs_path ns)) as [cur|] eqn:E; [|done].
    rewrite (symlink_metadata_snoc _ _ _ E). cbn. unfold enter.
    destruct (link_target _); [done|]. by case_bool_decide.
  - intros a q Ha Hno. rewrite canonicalize_linked by done. destruct Ha as (ns & Hns & ->).
    by apply walk_unlinked.
  - by rewrite root_metadata.
Qed.

End Linked.
