(* ===== verification/FsRoots.v ===== *)
(** * FsRoots: the roots of a filesystem policy and its transformations

    [codex-rs/protocol/src/permissions.rs], on top of [FsPolicy]: what a
    sandbox is told (readable, writable and unreadable roots, the read-only
    parts of a writable root), the matcher of denied reads, and the
    operations that build or change a policy.  Also
    [canonicalize_preserving_symlinks] of [utils/absolute-path/src/lib.rs]
    and [WritableRoot] of [protocol/src/protocol.rs]. *)

From S2P Require Import Prelude RustStr AbsolutePath FsPolicy OsLinks.
#[local] Open Scope str_scope.

(** ** Orders of paths *)

Definition component_compare (a b : Component) : comparison :=
  match a, b with
  | Normal s, Normal t => list_compare N.compare s t
  | _, _ =>
      let rank c := match c with RootDir => 0 | CurDir => 1 | ParentDir => 2 | Normal _ => 3 end in
      Nat.compare (rank a) (rank b)
  end.

(** [Path::cmp] *)
Definition path_compare : PathBuf -> PathBuf -> comparison := list_compare component_compare.

Definition sorted_absolute_paths (paths : list PathBuf) : list PathBuf :=
  sort_by path_compare paths.

Record WritableRoot := WritableRootOf {
  root : PathBuf;
  read_only_subpaths : list PathBuf;
  protected_metadata_names : list str
}.
#[export] Instance WritableRoot_eq_dec : EqDecision WritableRoot.
Proof. solve_decision. Defined.

Definition path_contains_protected_metadata_name (self : WritableRoot) (path : PathBuf) : bool :=
  match path_strip_prefix path (root self) with
  | None | Some [] => false
  | Some (first_component :: _) =>
      existsb (fun name => bool_decide (component_str first_component = name))
        (protected_metadata_names self)
  end.

Definition is_path_writable (self : WritableRoot) (path : PathBuf) : bool :=
  if negb (path_starts_with path (root self)) then false
  else if existsb (path_starts_with path) (read_only_subpaths self) then false
  else negb (path_contains_protected_metadata_name self path).

Definition sorted_writable_roots (roots : list WritableRoot) : list WritableRoot :=
  sort_by (fun l r => path_compare (root l) (root r))
    (map (fun r => WritableRootOf (root r) (sorted_absolute_paths (read_only_subpaths r))
            (dedup (sort_by (list_compare N.compare) (protected_metadata_names r)))) roots).

(** ** Adding entries *)

Definition append_default_read_only_entry_if_no_explicit_rule
    (entries : list FileSystemSandboxEntry) (p : FileSystemPath) :
    list FileSystemSandboxEntry :=
  if existsb (fun entry => file_system_paths_share_target (path entry) p) entries
  then entries else entries ++ [SandboxEntry p Read].

Definition append_default_read_only_project_root_subpath_if_no_explicit_rule
    (entries : list FileSystemSandboxEntry) (subpath : str) : list FileSystemSandboxEntry :=
  append_default_read_only_entry_if_no_explicit_rule entries
    (Special (ProjectRoots (Some subpath))).

Definition append_default_read_only_path_if_no_explicit_rule
    (entries : list FileSystemSandboxEntry) (p : PathBuf) : list FileSystemSandboxEntry :=
  append_default_read_only_entry_if_no_explicit_rule entries (Path p).

(** [contains] then [push]. *)
Definition push_entry_if_absent (es : list FileSystemSandboxEntry)
    (e : FileSystemSandboxEntry) : list FileSystemSandboxEntry :=
  if existsb (fun entry => entry_eqb entry e) es then es else es ++ [e].

Definition has_explicit_resolved_path_entry (entries : list ResolvedFileSystemEntry)
    (p : PathBuf) : bool :=
  existsb (fun entry => bool_decide (rpath entry = p)) entries.

Definition preserve_deny_read_restrictions_from
    (self existing : FileSystemSandboxPolicy) : FileSystemSandboxPolicy :=
  let has_deny_read_entries := existsb is_deny (entries existing) in
  let self :=
    match kind self with
    | Unrestricted =>
        if has_deny_read_entries then restricted [SandboxEntry (Special Root) Write] else self
    | _ => self
    end in
  if negb (is_restricted (kind self)) then self
  else
    SandboxPolicyOf (kind self)
      (match glob_scan_max_depth self with
       | None => glob_scan_max_depth existing
       | some => some
       end)
      (fold_left push_entry_if_absent (List.filter is_deny (entries existing)) (entries self)).

(** ** Project roots *)

Definition parse_project_roots_glob_pattern (pattern : str) : option str :=
  strip_prefix PROJECT_ROOTS_GLOB_PATTERN_PREFIX pattern.

Section System.
Context {os : Os}.

Definition resolve_project_roots_glob_pattern (subpath : str) (root : PathBuf) : str :=
  render (against_base subpath root).

Definition materialize_entry_with_cwd (cwd : option PathBuf)
    (entry : FileSystemSandboxEntry) : FileSystemSandboxEntry :=
  match path entry with
  | Special (ProjectRoots _) =>
      match resolve_file_system_path (path entry) cwd with
      | Some p => SandboxEntry (Path p) (access entry)
      | None => entry
      end
  | GlobPattern pattern =>
      match cwd, parse_project_roots_glob_pattern pattern with
      | Some cwd, Some subpath =>
          SandboxEntry (GlobPattern (resolve_project_roots_glob_pattern subpath cwd))
            (access entry)
      | _, _ => entry
      end
  | Special _ | Path _ => entry
  end.

Definition materialize_project_roots_with_cwd (self : FileSystemSandboxPolicy) (cwd : str) :
    FileSystemSandboxPolicy :=
  let cwd := ok (from_absolute cwd) in
  with_entries self (map (materialize_entry_with_cwd cwd) (entries self)).

Definition materialize_entry_with_workspace_roots (workspace_roots : list PathBuf)
    (entry : FileSystemSandboxEntry) : list FileSystemSandboxEntry :=
  match path entry with
  | Special (ProjectRoots subpath) =>
      map (fun root =>
        SandboxEntry
          (Path (match subpath with
                 | Some subpath => against_base subpath root
                 | None => root
                 end)) (access entry)) workspace_roots
  | GlobPattern pattern =>
      match parse_project_roots_glob_pattern pattern with
      | Some subpath =>
          map (fun root =>
            SandboxEntry (GlobPattern (resolve_project_roots_glob_pattern subpath root))
              (access entry)) workspace_roots
      | None => [SandboxEntry (GlobPattern pattern) (access entry)]
      end
  | Path p => [SandboxEntry (Path p) (access entry)]
  | Special value => [SandboxEntry (Special value) (access entry)]
  end.

Definition materialize_project_roots_with_workspace_roots (self : FileSystemSandboxPolicy)
    (workspace_roots : list PathBuf) : FileSystemSandboxPolicy :=
  with_entries self
    (concat (map (materialize_entry_with_workspace_roots workspace_roots) (entries self))).

Definition with_materialized_project_roots_for_workspace_roots
    (self : FileSystemSandboxPolicy) (workspace_roots : list PathBuf) :
    FileSystemSandboxPolicy :=
  let materialized := materialize_project_roots_with_workspace_roots self workspace_roots in
  with_entries self (fold_left push_entry_if_absent (entries materialized) (entries self)).

(** ** Additional roots *)

Definition add_readable_root (cwd : str) (self : FileSystemSandboxPolicy) (p : PathBuf) :
    FileSystemSandboxPolicy :=
  if can_read_path_with_cwd self (render p) cwd then self
  else push_entry self (SandboxEntry (Path p) Read).

Definition with_additional_readable_roots (self : FileSystemSandboxPolicy) (cwd : str)
    (additional_readable_roots : list PathBuf) : FileSystemSandboxPolicy :=
  if has_full_disk_read_access self then self
  else fold_left (add_readable_root cwd) additional_readable_roots self.

Definition add_writable_root (cwd : str) (self : FileSystemSandboxPolicy) (p : PathBuf) :
    FileSystemSandboxPolicy :=
  if can_write_path_with_cwd self (render p) cwd then self
  else push_entry self (SandboxEntry (Path p) Write).

Definition with_additional_writable_roots (self : FileSystemSandboxPolicy) (cwd : str)
    (additional_writable_roots : list PathBuf) : FileSystemSandboxPolicy :=
  fold_left (add_writable_root cwd) additional_writable_roots self.

(** ** Effective paths *)

Definition should_preserve_logical_path (logical : PathBuf) : bool :=
  existsb (fun ancestor =>
    match symlink_metadata ancestor with
    | None => false
    | Some is_symlink =>
        is_symlink
        && match parent ancestor with
           | None => false
           | Some q => match parent q with None => false | Some _ => true end
           end
    end) (ancestors logical).

Definition canonicalize_preserving_symlinks (path : str) : result PathError PathBuf :=
  match from_absolute path with
  | Err e => Err e
  | Ok logical =>
      let preserve_logical_path := should_preserve_logical_path logical in
      match canonicalize path with
      | Some canonical =>
          if preserve_logical_path && negb (bool_decide (canonical = logical))
          then Ok logical else Ok canonical
      | None => Ok logical
      end
  end.

Definition canonicalize_existing_preserving_symlinks (path : str) : option PathBuf :=
  match from_absolute path with
  | Err _ => None
  | Ok logical =>
      match canonicalize path with
      | None => None
      | Some canonical =>
          if should_preserve_logical_path logical && negb (bool_decide (canonical = logical))
          then Some logical else Some canonical
      end
  end.

Fixpoint normalize_from_ancestors (raw_path : PathBuf) (l : list PathBuf) : PathBuf :=
  match l with
  | [] => raw_path
  | ancestor :: l =>
      let continue := normalize_from_ancestors raw_path l in
      match symlink_metadata ancestor with
      | None => continue
      | Some _ =>
          match canonicalize_preserving_symlinks (render ancestor) with
          | Err _ => continue
          | Ok normalized_ancestor =>
              match path_strip_prefix raw_path ancestor with
              | None => continue
              | Some suffix =>
                  match from_absolute (path_join (render normalized_ancestor) (render suffix)) with
                  | Ok normalized_path => normalized_path
                  | Err _ => continue
                  end
              end
          end
      end
  end.

Definition normalize_effective_absolute_path (path : PathBuf) : PathBuf :=
  normalize_from_ancestors path (ancestors path).

Definition dedup_absolute_paths (paths : list PathBuf) (normalize_effective_paths : bool) :
    list PathBuf :=
  fold_left (fun deduped path =>
    let dedup_path :=
      if normalize_effective_paths then normalize_effective_absolute_path path else path in
    if bool_decide (dedup_path ∈ deduped) then deduped else deduped ++ [dedup_path]) paths [].

(** ** Read-only parts of a writable root *)

Definition is_git_pointer_file (path : PathBuf) : bool :=
  is_file path && bool_decide (file_name path = Some PROTECTED_METADATA_GIT_PATH_NAME).

Definition resolve_gitdir_from_file (dot_git : PathBuf) : option PathBuf :=
  match read_to_string dot_git with
  | None => None
  | Some contents =>
      match split_once 58 (trim contents) with
      | None => None
      | Some (prefix, gitdir_raw) =>
          if negb (bool_decide (trim prefix = "gitdir")) then None
          else
            let gitdir_raw := trim gitdir_raw in
            if is_empty gitdir_raw then None
            else match parent dot_git with
                 | None => None
                 | Some base =>
                     let gitdir_path := against_base gitdir_raw base in
                     if negb (exists_path gitdir_path) then None else Some gitdir_path
                 end
      end
  end.

Definition default_read_only_subpaths_for_writable_root (writable_root : PathBuf)
    (protect_missing_dot_codex : bool) : list PathBuf :=
  let top_level_git := join_path writable_root PROTECTED_METADATA_GIT_PATH_NAME in
  let top_level_git_is_file := is_file top_level_git in
  let top_level_git_is_dir := is_dir top_level_git in
  let should_protect_top_level := top_level_git_is_dir || top_level_git_is_file in
  let git :=
    if should_protect_top_level then
      (if top_level_git_is_file && is_git_pointer_file top_level_git
       then match resolve_gitdir_from_file top_level_git with
            | Some gitdir => [gitdir]
            | None => []
            end
       else []) ++ [top_level_git]
    else [] in
  let top_level_agents := join_path writable_root PROTECTED_METADATA_AGENTS_PATH_NAME in
  let agents := if is_dir top_level_agents then [top_level_agents] else [] in
  let top_level_codex := join_path writable_root PROTECTED_METADATA_CODEX_PATH_NAME in
  let codex :=
    if protect_missing_dot_codex || is_dir top_level_codex then [top_level_codex] else [] in
  dedup_absolute_paths (git ++ agents ++ codex) false.

Definition append_default_read_only_subpaths (protect_missing_dot_codex : bool)
    (entries : list FileSystemSandboxEntry) (writable_root : PathBuf) :
    list FileSystemSandboxEntry :=
  fold_left append_default_read_only_path_if_no_explicit_rule
    (default_read_only_subpaths_for_writable_root writable_root protect_missing_dot_codex)
    entries.

Definition workspace_write (writable_roots : list PathBuf)
    (exclude_tmpdir_env_var exclude_slash_tmp : bool) : FileSystemSandboxPolicy :=
  let entries :=
    [SandboxEntry (Special Root) Read;
     SandboxEntry (Special (ProjectRoots None)) Write] ++
    (if negb exclude_slash_tmp then [SandboxEntry (Special SlashTmp) Write] else []) ++
    (if negb exclude_tmpdir_env_var then [SandboxEntry (Special Tmpdir) Write] else []) ++
    map (fun path => SandboxEntry (Path path) Write) writable_roots in
  let entries :=
    append_default_read_only_project_root_subpath_if_no_explicit_rule entries ".git" in
  let entries :=
    append_default_read_only_project_root_subpath_if_no_explicit_rule entries ".agents" in
  let entries :=
    append_default_read_only_project_root_subpath_if_no_explicit_rule entries ".codex" in
  restricted (fold_left (append_default_read_only_subpaths false) writable_roots entries).

Definition add_legacy_writable_root (self : FileSystemSandboxPolicy) (p : PathBuf) :
    FileSystemSandboxPolicy :=
  let es :=
    if existsb (fun entry =>
         can_write (access entry)
         && match path entry with Path existing => bool_decide (existing = p) | _ => false end)
         (entries self)
    then entries self else entries self ++ [SandboxEntry (Path p) Write] in
  with_entries self (append_default_read_only_subpaths false es p).

Definition with_additional_legacy_workspace_writable_roots (self : FileSystemSandboxPolicy)
    (additional_writable_roots : list PathBuf) : FileSystemSandboxPolicy :=
  if negb (is_restricted (kind self)) then self
  else fold_left add_legacy_writable_root additional_writable_roots self.

(** ** What a sandbox is told *)

Definition get_readable_roots_with_cwd (self : FileSystemSandboxPolicy) (cwd : str) :
    list PathBuf :=
  if has_full_disk_read_access self then []
  else
    dedup_absolute_paths
      (map rpath
        (List.filter (fun entry => can_read_path_with_cwd self (render (rpath entry)) cwd)
          (List.filter (fun entry => can_read (raccess entry))
            (resolved_entries_with_cwd self cwd)))) true.

Definition protected_metadata_names_for_writable_root (policy : FileSystemSandboxPolicy)
    (root : PathBuf) (raw_writable_roots : list PathBuf) (cwd : str) : list str :=
  List.filter (fun metadata_name =>
    let metadata_paths :=
      join_path root metadata_name ::
      map (fun raw_root => join_path raw_root metadata_name) raw_writable_roots in
    forallb (fun metadata_path =>
      negb (can_write_path_with_cwd policy (render metadata_path) cwd)) metadata_paths)
    PROTECTED_METADATA_PATH_NAMES.

(** The path of an entry that carves a read-only part out of [root]. *)
Definition carveout_path (root : PathBuf) (raw_writable_roots : list PathBuf)
    (entry_path : PathBuf) : option PathBuf :=
  let effective_path := normalize_effective_absolute_path entry_path in
  let raw_carveout_path :=
    match parent root with
    | None => None
    | Some _ =>
        if bool_decide (entry_path = root) then None
        else if path_starts_with entry_path root then Some entry_path
        else
          head (omap (fun raw_root =>
            match path_strip_prefix entry_path raw_root with
            | None | Some [] => None
            | Some suffix => Some (join_path root (render suffix))
            end) raw_writable_roots)
    end in
  match raw_carveout_path with
  | Some p => Some p
  | None =>
      if bool_decide (effective_path = root) || negb (path_starts_with effective_path root)
      then None else Some effective_path
  end.

Definition writable_root_of (self : FileSystemSandboxPolicy) (cwd : str)
    (resolved_entries : list ResolvedFileSystemEntry) (writable_entries : list PathBuf)
    (root : PathBuf) : WritableRoot :=
  let raw_writable_roots :=
    List.filter (fun path => bool_decide (normalize_effective_absolute_path path = root))
      writable_entries in
  let protect_missing_dot_codex :=
    match ok (from_absolute cwd) with
    | None => false
    | Some cwd => bool_decide (normalize_effective_absolute_path cwd = root)
    end in
  let default_subpaths :=
    List.filter (fun path => negb (has_explicit_resolved_path_entry resolved_entries path))
      (default_read_only_subpaths_for_writable_root root protect_missing_dot_codex) in
  let carveouts :=
    omap (fun entry => carveout_path root raw_writable_roots (rpath entry))
      (List.filter (fun entry => negb (can_write_path_with_cwd self (render (rpath entry)) cwd))
        (List.filter (fun entry => negb (can_write (raccess entry))) resolved_entries)) in
  WritableRootOf root
    (dedup_absolute_paths (default_subpaths ++ carveouts) false)
    (protected_metadata_names_for_writable_root self root raw_writable_roots cwd).

Definition get_writable_roots_with_cwd (self : FileSystemSandboxPolicy) (cwd : str) :
    list WritableRoot :=
  if has_full_disk_write_access self then []
  else
    let resolved_entries := resolved_entries_with_cwd self cwd in
    let writable_entries :=
      map rpath
        (List.filter (fun entry => can_write_path_with_cwd self (render (rpath entry)) cwd)
          (List.filter (fun entry => can_write (raccess entry)) resolved_entries)) in
    map (writable_root_of self cwd resolved_entries writable_entries)
      (dedup_absolute_paths writable_entries true).

Definition get_unreadable_roots_with_cwd (self : FileSystemSandboxPolicy) (cwd : str) :
    list PathBuf :=
  if negb (is_restricted (kind self)) then []
  else
    let root :=
      match ok (from_absolute cwd) with
      | None => None
      | Some cwd => absolute_root_path_for_cwd cwd
      end in
    dedup_absolute_paths
      (map rpath
        (List.filter (fun entry => negb (bool_decide (root = Some (rpath entry))))
          (List.filter (fun entry =>
               negb (can_read_path_with_cwd self (render (rpath entry)) cwd))
            (List.filter (fun entry => bool_decide (raccess entry = Deny))
              (resolved_entries_with_cwd self cwd))))) true.

Definition get_unreadable_globs_with_cwd (self : FileSystemSandboxPolicy) (cwd : str) :
    list str :=
  if negb (is_restricted (kind self)) then []
  else
    dedup (sort_by (list_compare N.compare)
      (map render
        (omap (fun entry =>
           match path entry with
           | GlobPattern pattern => Some (resolve_path_against_base home_dir pattern cwd)
           | Path _ | Special _ => None
           end) (List.filter is_deny (entries self))))).

(** ** Semantic comparison *)

Record FileSystemSemanticSignature := SemanticSignature {
  sig_full_disk_read : bool;
  sig_full_disk_write : bool;
  sig_platform_defaults : bool;
  sig_readable_roots : list PathBuf;
  sig_writable_roots : list WritableRoot;
  sig_unreadable_roots : list PathBuf;
  sig_unreadable_globs : list str
}.
#[export] Instance FileSystemSemanticSignature_eq_dec : EqDecision FileSystemSemanticSignature.
Proof. solve_decision. Defined.

Definition semantic_signature (self : FileSystemSandboxPolicy) (cwd : str) :
    FileSystemSemanticSignature :=
  SemanticSignature
    (has_full_disk_read_access self) (has_full_disk_write_access self)
    (include_platform_defaults self)
    (sorted_absolute_paths (get_readable_roots_with_cwd self cwd))
    (sorted_writable_roots (get_writable_roots_with_cwd self cwd))
    (sorted_absolute_paths (get_unreadable_roots_with_cwd self cwd))
    (get_unreadable_globs_with_cwd self cwd).

Definition is_semantically_equivalent_to (self other : FileSystemSandboxPolicy) (cwd : str) :
    bool :=
  bool_decide (semantic_signature self cwd = semantic_signature other cwd).

(** ** The matcher of denied reads

    A candidate is the text of a path.  Globs are compiled by a third-party
    library: [glob_build] gives a matcher of texts or an error. *)

Definition same_path (a b : str) : bool := bool_decide (components a = components b).

Definition push_unique (candidates : list str) (candidate : str) : list str :=
  if negb (existsb (fun existing => same_path existing candidate) candidates)
  then candidates ++ [candidate] else candidates.

Definition normalized_and_canonical_candidates (path : str) : list str :=
  let candidates :=
    match from_absolute path with
    | Ok normalized => push_unique [] (render normalized)
    | Err _ => push_unique [] path
    end in
  match canonicalize path with
  | None => candidates
  | Some canonical =>
      match from_absolute (render canonical) with
      | Ok canonical_absolute => push_unique candidates (render canonical_absolute)
      | Err _ => candidates
      end
  end.

Inductive InvalidDenyReadGlobBehavior := FailClosed | ReturnError.

Record ReadDenyMatcher := ReadDenyMatcherOf {
  denied_candidates : list (list str);
  deny_read_matchers : list (str -> bool);
  invalid_pattern : bool
}.

Context (build_glob_matcher : str -> result str (str -> bool)).

Fixpoint build_matchers (invalid_glob_behavior : InvalidDenyReadGlobBehavior)
    (patterns : list str) (matchers : list (str -> bool)) (invalid : bool) :
    result str (list (str -> bool) * bool) :=
  match patterns with
  | [] => Ok (matchers, invalid)
  | pattern :: patterns =>
      match build_glob_matcher pattern with
      | Ok matcher =>
          build_matchers invalid_glob_behavior patterns (matchers ++ [matcher]) invalid
      | Err err =>
          match invalid_glob_behavior with
          | FailClosed => build_matchers invalid_glob_behavior patterns matchers true
          | ReturnError =>
              Err ("invalid deny-read glob pattern `" ++ pattern ++ "`: " ++ err)
          end
      end
  end.

Definition build (policy : FileSystemSandboxPolicy) (cwd : str)
    (invalid_glob_behavior : InvalidDenyReadGlobBehavior) :
    result str (option ReadDenyMatcher) :=
  if negb (has_denied_read_restrictions policy) then Ok None
  else
    let denied :=
      map (fun path => normalized_and_canonical_candidates (render path))
        (get_unreadable_roots_with_cwd policy cwd) in
    match build_matchers invalid_glob_behavior
            (get_unreadable_globs_with_cwd policy cwd) [] false with
    | Err e => Err e
    | Ok (matchers, invalid) => Ok (Some (ReadDenyMatcherOf denied matchers invalid))
    end.

(** [None] is the [unreachable!] of the code. *)
Definition new_matcher (policy : FileSystemSandboxPolicy) (cwd : str) :
    option (option ReadDenyMatcher) :=
  match build policy cwd FailClosed with
  | Ok matcher => Some matcher
  | Err _ => None
  end.

Definition try_new (policy : FileSystemSandboxPolicy) (cwd : str) :
    result str (option ReadDenyMatcher) :=
  build policy cwd ReturnError.

Definition is_read_denied (self : ReadDenyMatcher) (path : str) : bool :=
  if invalid_pattern self then true
  else
    let path_candidates := normalized_and_canonical_candidates path in
    if existsb (fun denied =>
         existsb (fun candidate =>
           existsb (fun denied_candidate =>
             same_path candidate denied_candidate
             || path_starts_with (components candidate) (components denied_candidate))
             denied) path_candidates) (denied_candidates self)
    then true
    else existsb (fun matcher => existsb matcher path_candidates) (deny_read_matchers self).

End System.

(** ** One more entry *)

(** Reasons up to the order of two conditions used by several proofs. *)
Lemma prefix_length_lt {A} (a b t : list A) :
  a `prefix_of` t -> b `prefix_of` t -> length a < length b -> a `prefix_of` b.
Proof.
  intros Ha Hb Hl. destruct (prefix_weak_total a b t Ha Hb) as [|H]; [done|].
  apply prefix_length in H. lia.
Qed.

Lemma elem_of_filter_bool {A} (f : A -> bool) l x :
  x ∈ List.filter f l <-> x ∈ l /\ f x = true.
Proof. rewrite !list_elem_of_In. apply filter_In. Qed.

Section PushLemmas.
Context {os : Os}.

(** [r] reaches [t] before every entry of [l] that covers it. *)
Definition overrides (l : list ResolvedFileSystemEntry) (t : PathBuf)
    (r : ResolvedFileSystemEntry) : Prop :=
  rpath r `prefix_of` t /\
  forall d, d ∈ l -> rpath d `prefix_of` t ->
    length (rpath d) < length (rpath r) \/
    (rpath d = rpath r /\ access_rank (raccess d) <= access_rank (raccess r)).

Lemma resolved_app self es cwd :
  resolved_entries_with_cwd (with_entries self (entries self ++ es)) cwd =
  resolved_entries_with_cwd self cwd ++ omap (resolve_entry (ok (from_absolute cwd))) es.
Proof. unfold resolved_entries_with_cwd. cbn. apply omap_app. Qed.

Lemma push_access self e p cwd t :
  kind self = Restricted -> resolve_candidate_path p cwd = Some t ->
  (resolve_access_with_cwd (push_entry self e) p cwd = resolve_access_with_cwd self p cwd /\
   forall r, resolve_entry (ok (from_absolute cwd)) e = Some r ->
     overrides (resolved_entries_with_cwd self cwd) t r ->
     resolve_access_with_cwd self p cwd = raccess r) \/
  exists r, resolve_entry (ok (from_absolute cwd)) e = Some r /\
    overrides (resolved_entries_with_cwd self cwd) t r /\
    resolve_access_with_cwd (push_entry self e) p cwd = raccess r.
Proof.
  intros Hk Ht. set (l := resolved_entries_with_cwd self cwd).
  change (push_entry self e) with (with_entries self (entries self ++ [e])).
  set (self' := with_entries self (entries self ++ [e])).
  assert (kind self' = Restricted) as Hk' by done.
  assert (resolved_entries_with_cwd self' cwd =
    l ++ omap (resolve_entry (ok (from_absolute cwd))) [e]) as Hl by apply resolved_app.
  cbn [omap list_omap] in Hl.
  destruct (access_inv self' p cwd t Hk' Ht) as [(d & (Hd & Hp & Hmax) & Ha)|[Ha Hno]];
    rewrite Hl in *.
  - rewrite Ha. apply elem_of_app in Hd as [Hd|Hd].
    + left. assert (resolve_access_with_cwd self p cwd = raccess d) as Hs.
      { eapply access_decided; [done|done|]. split_and!; [done|done|].
        intros x Hx. apply Hmax, elem_of_app. by left. }
      split; [done|]. intros r Hr [Hrp Hro]. rewrite Hs. rewrite Hr in Hmax.
      apply access_rank_inj.
      destruct (Hmax r) as [|[E1 E2]]; [apply elem_of_app; right; by left|done| |];
        (destruct (Hro d Hd Hp) as [|[E3 E4]]; [|]); try rewrite E1 in *; try lia;
        try rewrite E3 in *; lia.
    + right. destruct (resolve_entry _ e) as [r|]; [|by apply elem_of_nil in Hd].
      apply list_elem_of_singleton in Hd as ->. exists r. split_and!; [done| |done].
      split; [done|]. intros x Hx. apply Hmax, elem_of_app. by left.
  - left. rewrite Ha. split.
    + destruct (access_inv self p cwd t Hk Ht) as [(d & (Hd & Hp & _) & _)|[-> _]]; [|done].
      destruct (Hno d); [apply elem_of_app; by left|done].
    + intros r Hr [Hrp _]. rewrite Hr in Hno.
      destruct (Hno r); [apply elem_of_app; right; by left|done].
Qed.

(** Where a new path entry changes the answer, the answer was the one of
    the path itself. *)
Lemma overridden_access self r p cwd t :
  kind self = Restricted -> resolve_candidate_path p cwd = Some t ->
  normal_abs (rpath r) ->
  overrides (resolved_entries_with_cwd self cwd) t r ->
  resolve_access_with_cwd self (render (rpath r)) cwd = resolve_access_with_cwd self p cwd.
Proof.
  intros Hk Ht Hn [Hp Hov]. pose proof (candidate_render _ cwd Hn) as Hr.
  destruct (access_inv self p cwd t Hk Ht) as [(d & (Hd & Hdp & Hmax) & ->)|[-> Hno]].
  - eapply access_decided; [done|done|]. split_and!; [done| |].
    + destruct (Hov d Hd Hdp) as [Hl|[-> _]]; [|done]. by eapply prefix_length_lt.
    + intros x Hx Hxp. apply Hmax; [done|]. by transitivity (rpath r).
  - destruct (access_inv self _ cwd _ Hk Hr) as [(d & (Hd & Hdp & _) & _)|[-> _]]; [|done].
    destruct (Hno d Hd). by transitivity (rpath r).
Qed.

Lemma resolve_path_entry cwd p a :
  resolve_entry cwd (SandboxEntry (Path p) a) = Some (ResolvedEntry p a).
Proof. done. Qed.

(** An explicit deny for exactly this path. *)
Definition denied_exactly (self : FileSystemSandboxPolicy) (cwd : str) (p : PathBuf) : Prop :=
  exists d, d ∈ resolved_entries_with_cwd self cwd /\ rpath d = p /\ raccess d = Deny.

(** A path entry decides its own path, unless a stronger one is there. *)
Lemma push_own_access self p a cwd :
  kind self = Restricted -> normal_abs p ->
  (forall d, d ∈ resolved_entries_with_cwd self cwd -> rpath d = p ->
     access_rank (raccess d) <= access_rank a) ->
  resolve_access_with_cwd (push_entry self (SandboxEntry (Path p) a)) (render p) cwd = a.
Proof.
  intros Hk Hn Hall. pose proof (candidate_render p cwd Hn) as Hr.
  assert (overrides (resolved_entries_with_cwd self cwd) p (ResolvedEntry p a)) as Hov.
  { split; [done|]. intros d Hd Hp. cbn. pose proof (prefix_length _ _ Hp).
    destruct (decide (length (rpath d) = length p)) as [E|]; [right|left; lia].
    apply prefix_length_eq in Hp; [|lia]. split; [done|by apply Hall]. }
  destruct (push_access self (SandboxEntry (Path p) a) _ cwd p Hk Hr) as [[-> H]|(r & Hr' & _ & ->)].
  - by apply (H (ResolvedEntry p a)).
  - by injection Hr' as <-.
Qed.

End PushLemmas.

(** ** Growing the allow side *)

Section Growth.
Context {os : Os} (cwd : str).

Definition grown (a : FileSystemAccessMode) (self new : FileSystemSandboxPolicy) : Prop :=
  forall p t, resolve_candidate_path p cwd = Some t ->
    resolve_access_with_cwd new p cwd = resolve_access_with_cwd self p cwd \/
    (resolve_access_with_cwd new p cwd = a /\
     (a = Read -> resolve_access_with_cwd self p cwd = Deny)).

(** [x] grants at least what [a] does. *)
Definition grants (a x : FileSystemAccessMode) : Prop :=
  match a with Read => x <> Deny | Write => x = Write | Deny => True end.

Lemma grown_trans a p q r : grown a p q -> grown a q r -> grown a p r.
Proof.
  intros H1 H2 x t Ht. destruct (H1 x t Ht) as [E1|[E1 D1]], (H2 x t Ht) as [E2|[E2 D2]].
  - left. congruence.
  - right. split; [done|]. rewrite <- E1. done.
  - right. split; [congruence|done].
  - right. split; [done|]. intros ->. specialize (D2 eq_refl). congruence.
Qed.

Lemma grown_grants a self new p t :
  grown a self new -> resolve_candidate_path p cwd = Some t ->
  grants a (resolve_access_with_cwd self p cwd) ->
  grants a (resolve_access_with_cwd new p cwd).
Proof.
  intros Hg Ht Hs. destruct (Hg p t Ht) as [->|[-> _]]; [done|]. by destruct a.
Qed.

(** One root handled the way both operations handle it. *)
Definition grow_step (a : FileSystemAccessMode)
    (step : FileSystemSandboxPolicy -> PathBuf -> FileSystemSandboxPolicy) : Prop :=
  forall self q, kind self = Restricted -> normal_abs q ->
    kind (step self q) = Restricted /\ grown a self (step self q) /\
    (grants a (resolve_access_with_cwd (step self q) (render q) cwd) \/
     denied_exactly self cwd q) /\
    forall x, denied_exactly (step self q) cwd x -> denied_exactly self cwd x.

Lemma grow_fold a step roots self :
  grow_step a step -> kind self = Restricted -> Forall normal_abs roots ->
  grown a self (fold_left step roots self) /\
  forall q, q ∈ roots ->
    grants a (resolve_access_with_cwd (fold_left step roots self) (render q) cwd) \/
    denied_exactly self cwd q.
Proof.
  intros Hstep. revert self.
  induction roots as [|q roots IH]; intros self Hk Hn; cbn [fold_left].
  { split; [by left|]. intros q []%elem_of_nil. }
  apply Forall_cons in Hn as [Hq Hn].
  destruct (Hstep self q Hk Hq) as (Hk' & Hg & Hown & Hden).
  destruct (IH (step self q) Hk' Hn) as [Hg' Hall].
  split; [by eapply grown_trans|]. intros x [->|Hx]%elem_of_cons.
  - destruct Hown as [Hown|]; [left|by right].
    eapply grown_grants; [done|by apply candidate_render|done].
  - destruct (Hall x Hx) as [|Hd]; [by left|right; by apply Hden].
Qed.

Lemma push_denied_exactly self q a x :
  a <> Deny -> denied_exactly (push_entry self (SandboxEntry (Path q) a)) cwd x ->
  denied_exactly self cwd x.
Proof.
  intros Ha (d & Hd & Hp & Hdeny). exists d. split; [|done].
  change (push_entry self (SandboxEntry (Path q) a)) with
    (with_entries self (entries self ++ [SandboxEntry (Path q) a])) in Hd.
  rewrite resolved_app in Hd. apply elem_of_app in Hd as [|Hd]; [done|].
  apply list_elem_of_singleton in Hd as ->. done.
Qed.

(** Adding an entry for a path that does not grant [a] yet. *)
Lemma push_grow a self q :
  a <> Deny -> kind self = Restricted -> normal_abs q ->
  ~ (a = Read /\ resolve_access_with_cwd self (render q) cwd <> Deny) ->
  let new := push_entry self (SandboxEntry (Path q) a) in
  grown a self new /\
  (grants a (resolve_access_with_cwd new (render q) cwd) \/ denied_exactly self cwd q).
Proof.
  intros Hna Hk Hq Hno. cbn zeta. split.
  - intros p t Ht. destruct (push_access self (SandboxEntry (Path q) a) p cwd t Hk Ht)
      as [[-> _]|(r & Hr & Hov & ->)]; [by left|right].
    injection Hr as <-. split; [done|]. intros ->.
    rewrite <- (overridden_access _ (ResolvedEntry q Read) _ _ _ Hk Ht Hq Hov). cbn [rpath].
    destruct (resolve_access_with_cwd _ _ _) eqn:E; done || by destruct Hno.
  - destruct (decide (Exists (fun d => rpath d = q /\ access_rank a < access_rank (raccess d))
      (resolved_entries_with_cwd self cwd))) as [(d & Hd & Hp & Hr)%Exists_exists|Hx].
    + destruct (decide (raccess d = Deny)); [right; by exists d|].
      destruct a, (raccess d) eqn:Ed; cbn in Hr; try lia; try done.
      destruct (access_inv self _ cwd q Hk (candidate_render q cwd Hq))
        as [(e & (He & Hpe & Hmax) & Ha)|[_ Hn]]; [|by destruct (Hn d Hd); rewrite Hp].
      right. exists e. destruct (Hmax d Hd) as [Hl|[Hl _]]; [by rewrite Hp| |].
      * apply prefix_length in Hpe. rewrite Hp in Hl. lia.
      * split_and!; [done|congruence|]. rewrite <- Ha.
        destruct (resolve_access_with_cwd _ _ _); try done; by destruct Hno.
    + left. rewrite push_own_access; [by destruct a|done|done|].
      intros d Hd Hp. apply Nat.nlt_ge. intros Hlt. apply Hx, Exists_exists. by exists d.
Qed.

Lemma readable_grow_step : grow_step Read (add_readable_root cwd).
Proof.
  intros self q Hk Hq. unfold add_readable_root, can_read_path_with_cwd.
  destruct (can_read _) eqn:E.
  - split_and!; [done|by left| |done]. left. cbn. by destruct (resolve_access_with_cwd _ _ _).
  - destruct (push_grow Read self q) as [Hg Hown]; [done..| |].
    { intros [_ Hno]. by destruct (resolve_access_with_cwd _ _ _). }
    split_and!; [done|done|done|]. intros x. by apply push_denied_exactly.
Qed.

Lemma writable_grow_step : grow_step Write (add_writable_root cwd).
Proof.
  intros self q Hk Hq. unfold add_writable_root.
  destruct (can_write_path_with_cwd self (render q) cwd) eqn:E.
  - split_and!; [done|by left| |done]. left. by apply can_write_inv in E as [-> _].
  - destruct (push_grow Write self q) as [Hg Hown]; [done..|by intros []|].
    split_and!; [done|done|done|]. intros x. by apply push_denied_exactly.
Qed.

(** Adding roots only adds.  Adding readable roots turns a denied path
    into a readable one or leaves it; adding writable roots leaves the access
    of a path or makes it a write; so neither takes anything away.  Every
    root that was asked for ends up granted, except when the policy denies
    exactly that path: a deny is never overridden at its own path. *)
Theorem additional_roots_only_add self c roots :
  kind self = Restricted -> from_absolute cwd = Ok c -> Forall normal_abs roots ->
  let readable := with_additional_readable_roots self cwd roots in
  let writable := with_additional_writable_roots self cwd roots in
  (forall p t, resolve_candidate_path p cwd = Some t ->
     (resolve_access_with_cwd readable p cwd = resolve_access_with_cwd self p cwd \/
      (resolve_access_with_cwd readable p cwd = Read /\
       resolve_access_with_cwd self p cwd = Deny)) /\
     (resolve_access_with_cwd writable p cwd = resolve_access_with_cwd self p cwd \/
      resolve_access_with_cwd writable p cwd = Write)) /\
  (forall q, q ∈ roots ->
     (can_read_path_with_cwd readable (render q) cwd = true \/ denied_exactly self cwd q) /\
     (resolve_access_with_cwd writable (render q) cwd = Write \/ denied_exactly self cwd q)).
Proof.
  intros Hk Hc Hn readable writable.
  destruct (grow_fold _ _ roots self writable_grow_step Hk Hn) as [Hw Hwr].
  assert (grown Read self readable /\ forall q, q ∈ roots ->
    can_read_path_with_cwd readable (render q) cwd = true \/ denied_exactly self cwd q)
    as [Hr Hrr].
  { unfold readable, with_additional_readable_roots.
    destruct (has_full_disk_read_access self) eqn:Hf.
    - split; [by left|]. intros q Hq. left.
      eapply full_disk_read_access; [done| |done]. apply candidate_render.
      by eapply Forall_forall in Hn.
    - destruct (grow_fold _ _ roots self readable_grow_step Hk Hn) as [Hr Hrr].
      split; [done|]. intros q Hq. destruct (Hrr q Hq) as [Hg|]; [left|by right].
      unfold can_read_path_with_cwd. cbn in Hg. by destruct (resolve_access_with_cwd _ _ _). }
  split.
  - intros p t Ht. destruct (Hr p t Ht) as [|[? HD]], (Hw p t Ht) as [|[? _]]; auto.
  - intros q Hq. split; [by apply Hrr|by apply Hwr].
Qed.

End Growth.

(** ** Keeping denies *)

Lemma opt_path_eqb_refl a : opt_path_eqb a a = true.
Proof. by apply opt_path_eqb_spec. Qed.

Lemma entry_eqb_refl e : entry_eqb e e = true.
Proof.
  unfold entry_eqb. rewrite bool_decide_eq_true_2 by done. rewrite andb_true_r.
  destruct (path e) as [p|g|[]]; cbn; rewrite ?bool_decide_eq_true_2, ?opt_path_eqb_refl; done.
Qed.

Lemma push_if_absent_cases es e :
  push_entry_if_absent es e = es \/ push_entry_if_absent es e = es ++ [e].
Proof. unfold push_entry_if_absent. destruct (existsb _ _); auto. Qed.

Lemma elem_of_push_if_absent es e d :
  d ∈ es -> d ∈ push_entry_if_absent es e.
Proof.
  unfold push_entry_if_absent. intros Hd. destruct (existsb _ _); [done|].
  apply elem_of_app. by left.
Qed.

Lemma push_if_absent_has es e :
  exists d, d ∈ push_entry_if_absent es e /\ entry_eqb d e = true.
Proof.
  unfold push_entry_if_absent. destruct (existsb _ _) eqn:E.
  - apply existsb_exists in E as (d & Hd & He). exists d. split; [|done].
    by apply list_elem_of_In.
  - exists e. split; [apply elem_of_app; right; by left|apply entry_eqb_refl].
Qed.

Lemma fold_push_elem l es d : d ∈ es -> d ∈ fold_left push_entry_if_absent l es.
Proof.
  revert es. induction l as [|e l IH]; intros es Hd; [done|]. cbn.
  by apply IH, elem_of_push_if_absent.
Qed.

Lemma fold_push_has l es e :
  e ∈ l -> exists d, d ∈ fold_left push_entry_if_absent l es /\ entry_eqb d e = true.
Proof.
  revert es. induction l as [|x l IH]; intros es He; [by apply elem_of_nil in He|]. cbn.
  apply elem_of_cons in He as [<-|He]; [|by apply IH].
  destruct (push_if_absent_has es e) as (d & Hd & Heq). exists d. split; [|done].
  by apply fold_push_elem.
Qed.

Section Denies.
Context {os : Os}.

Lemma entry_eqb_resolves a b cwd :
  (forall c, cwd = Some c -> normal_abs c) -> entry_eqb a b = true ->
  resolve_entry cwd a = resolve_entry cwd b.
Proof.
  intros Hc [Hp Ha%bool_decide_eq_true]%andb_true_iff. unfold resolve_entry. rewrite Ha.
  enough (resolve_entry_path (path a) cwd = resolve_entry_path (path b) cwd) as -> by done.
  destruct (path a) as [p|g|v], (path b) as [q|h|w]; cbn in Hp; try done.
  - by apply bool_decide_eq_true in Hp as ->.
  - destruct v, w; try done. cbn [resolve_entry_path resolve_file_system_path].
    destruct cwd as [c|]; [|done]. apply project_roots_components; auto.
Qed.

Lemma access_ext self other p cwd :
  kind self = kind other -> entries self = entries other ->
  resolve_access_with_cwd self p cwd = resolve_access_with_cwd other p cwd.
Proof.
  intros Hk He. unfold resolve_access_with_cwd, resolved_entries_with_cwd. by rewrite Hk, He.
Qed.

Lemma deny_fold_access l self p cwd t :
  kind self = Restricted -> resolve_candidate_path p cwd = Some t ->
  Forall (fun e => access e = Deny) l ->
  let new := with_entries self (fold_left push_entry_if_absent l (entries self)) in
  resolve_access_with_cwd new p cwd = resolve_access_with_cwd self p cwd \/
  resolve_access_with_cwd new p cwd = Deny.
Proof.
  intros Hk Ht Hl. revert self Hk. induction Hl as [|e l He _ IH]; intros self Hk.
  { left. by apply access_ext. }
  cbn [fold_left]. destruct (push_if_absent_cases (entries self) e) as [-> | ->]; [by apply IH|].
  destruct (IH (push_entry self e) Hk) as [IH'|IH']; [|by right].
  cbn [entries push_entry] in IH'.
  change (with_entries self ?x) with (with_entries (push_entry self e) x). rewrite IH'.
  destruct (push_access self e p cwd t Hk Ht) as [[-> _]|(r & Hr & _ & ->)]; [by left|right].
  unfold resolve_entry in Hr. destruct (resolve_entry_path _ _); [|done].
  by injection Hr as <-.
Qed.

(** What the code turns the receiver into first. *)
Definition deny_base (self existing : FileSystemSandboxPolicy) : FileSystemSandboxPolicy :=
  match kind self with
  | Unrestricted =>
      if existsb is_deny (entries existing)
      then restricted [SandboxEntry (Special Root) Write] else self
  | _ => self
  end.

Lemma deny_base_access self existing p cwd t :
  resolve_candidate_path p cwd = Some t ->
  resolve_access_with_cwd (deny_base self existing) p cwd = resolve_access_with_cwd self p cwd \/
  resolve_access_with_cwd (deny_base self existing) p cwd = Deny.
Proof.
  intros Ht. unfold deny_base. destruct (kind self) eqn:Hk; [by left| |by left].
  destruct (existsb _ _); [|by left].
  assert (resolve_access_with_cwd self p cwd = Write) as ->
    by by unfold resolve_access_with_cwd; rewrite Hk.
  destruct (access_inv (restricted [SandboxEntry (Special Root) Write]) p cwd t)
    as [(e & (He & _) & ->)|[-> _]]; [done|done| |by right].
  left. apply resolved_entry_iff in He as (x & Hx & -> & _). by apply list_elem_of_singleton in Hx as ->.
Qed.

Lemma preserve_deny_alt self existing :
  let base := deny_base self existing in
  let new := preserve_deny_read_restrictions_from self existing in
  kind new = kind base /\
  entries new =
    if is_restricted (kind base)
    then fold_left push_entry_if_absent (List.filter is_deny (entries existing)) (entries base)
    else entries base.
Proof.
  cbn zeta. unfold preserve_deny_read_restrictions_from. fold (deny_base self existing).
  destruct (is_restricted (kind (deny_base self existing))); done.
Qed.

Lemma is_deny_spec e : is_deny e = true <-> access e = Deny.
Proof. unfold is_deny. apply bool_decide_eq_true. Qed.

Lemma preserve_deny_access self existing p cwd t :
  resolve_candidate_path p cwd = Some t ->
  let new := preserve_deny_read_restrictions_from self existing in
  resolve_access_with_cwd new p cwd = resolve_access_with_cwd self p cwd \/
  resolve_access_with_cwd new p cwd = Deny.
Proof.
  intros Ht. destruct (preserve_deny_alt self existing) as [Hk He]. cbn zeta.
  set (base := deny_base self existing) in *.
  assert (resolve_access_with_cwd (preserve_deny_read_restrictions_from self existing) p cwd =
    resolve_access_with_cwd base p cwd \/
    resolve_access_with_cwd (preserve_deny_read_restrictions_from self existing) p cwd = Deny)
    as [->|]; [|by apply (deny_base_access _ _ _ _ t)|by right].
  destruct (kind base) eqn:Hkb; cbn [is_restricted] in He;
    [|left; apply access_ext; congruence..].
  pose proof (deny_fold_access (List.filter is_deny (entries existing)) base p cwd t Hkb Ht)
    as Hf. cbn zeta in Hf.
  rewrite (access_ext _ (preserve_deny_read_restrictions_from self existing)) in Hf;
    [apply Hf|cbn; congruence|done].
  apply Forall_forall. intros e [_ Hd]%elem_of_filter_bool. by apply is_deny_spec.
Qed.

Lemma preserve_deny_kept self existing d :
  kind self <> ExternalSandbox -> d ∈ entries existing -> access d = Deny ->
  let new := preserve_deny_read_restrictions_from self existing in
  kind new = Restricted /\ exists e, e ∈ entries new /\ entry_eqb e d = true.
Proof.
  intros Hk Hd Ha. destruct (preserve_deny_alt self existing) as [Hkind He]. cbn zeta.
  assert (kind (deny_base self existing) = Restricted) as Hb.
  { unfold deny_base. destruct (kind self) eqn:E; [done| |done].
    assert (existsb is_deny (entries existing) = true) as ->; [|done].
    apply existsb_exists. exists d. split; [by apply list_elem_of_In|by apply is_deny_spec]. }
  rewrite Hb in *. split; [done|]. cbn in He. rewrite He. apply fold_push_has.
  apply elem_of_filter_bool. split; [done|by apply is_deny_spec].
Qed.

(** Below a deny only a more specific entry allows. *)
Lemma deny_reaches self cwd r p t :
  kind self = Restricted -> resolve_candidate_path p cwd = Some t ->
  r ∈ resolved_entries_with_cwd self cwd -> raccess r = Deny -> rpath r `prefix_of` t ->
  resolve_access_with_cwd self p cwd = Deny \/
  exists x, x ∈ resolved_entries_with_cwd self cwd /\ raccess x <> Deny /\
    rpath x `prefix_of` t /\ length (rpath r) < length (rpath x).
Proof.
  intros Hk Ht Hr Ha Hp.
  destruct (access_inv self p cwd t Hk Ht) as [(e & (He & Hpe & Hmax) & ->)|[-> _]]; [|by left].
  destruct (decide (raccess e = Deny)); [by left|right]. exists e.
  split_and!; try done. destruct (Hmax r Hr Hp) as [|[_ Hl]]; [done|].
  rewrite Ha in Hl. by destruct (raccess e); cbn in Hl; try lia.
Qed.

(** Replacing the allow side of a policy never loosens its read denies.
    The result grants nothing the replacement did not grant; every path or
    glob denied by the existing policy is denied by an equal entry of the
    result, which is restricted then (an external sandbox aside); and below
    such a path the result denies everything, except where a more specific
    entry allows. *)
Theorem preserve_deny_narrows self existing :
  let new := preserve_deny_read_restrictions_from self existing in
  (forall p cwd t, resolve_candidate_path p cwd = Some t ->
     resolve_access_with_cwd new p cwd = resolve_access_with_cwd self p cwd \/
     resolve_access_with_cwd new p cwd = Deny) /\
  (kind self <> ExternalSandbox -> forall d, d ∈ entries existing -> access d = Deny ->
     kind new = Restricted /\ (exists e, e ∈ entries new /\ entry_eqb e d = true) /\
     forall cwd r p t, resolve_entry (ok (from_absolute cwd)) d = Some r ->
       resolve_candidate_path p cwd = Some t -> rpath r `prefix_of` t ->
       resolve_access_with_cwd new p cwd = Deny \/
       exists x, x ∈ resolved_entries_with_cwd new cwd /\ raccess x <> Deny /\
         rpath x `prefix_of` t /\ length (rpath r) < length (rpath x)).
Proof.
  cbn zeta. split; [intros p cwd t; apply preserve_deny_access|].
  intros Hk d Hd Ha. destruct (preserve_deny_kept self existing d Hk Hd Ha) as [Hkn (e & He & Heq)].
  split_and!; [done|by exists e|]. intros cwd r p t Hr Ht Hp.
  apply deny_reaches; [done|done| | |done].
  - unfold resolved_entries_with_cwd. apply list_elem_of_omap. exists e. split; [done|].
    rewrite (entry_eqb_resolves _ d); [done| |done].
    intros c Hc%ok_Some. by eapply from_absolute_normal.
  - unfold resolve_entry in Hr. destruct (resolve_entry_path _ _); [|done].
    by injection Hr as <-.
Qed.

End Denies.

(** ** The roots a sandbox is given *)

Lemma map_component_str ms : map component_str (map Normal ms) = ms.
Proof. induction ms as [|s l IH]; cbn; [done|]. by rewrite IH. Qed.

Lemma render_relative_segments ms :
  Forall proper_name ms ->
  omap segment_component (split SLASH (render (map Normal ms))) = map Normal ms /\
  is_absolute (render (map Normal ms)) = false.
Proof.
  intros Hms. destruct ms as [|m ms]; [by vm_compute|].
  assert (render (map Normal (m :: ms)) = join "/" (m :: ms)) as ->.
  { change (join "/" (map component_str (map Normal (m :: ms))) = join "/" (m :: ms)).
    by rewrite map_component_str. }
  split.
  - rewrite (split_join SLASH); [by apply segments_names|done|].
    eapply Forall_impl; [exact Hms|]. by intros x (_ & _ & _ & ?).
  - destruct (is_absolute _) eqn:E; [|done]. apply is_absolute_cons in E as [r Hr].
    apply Forall_inv in Hms as (Hne & _ & _ & Hno). destruct m as [|c m]; [done|].
    apply no_char_cons in Hno as [Hc _]. by destruct ms; injection Hr as ->.
Qed.

Lemma normal_app_inv a suffix :
  normal_abs a -> normal_abs (a ++ suffix) ->
  exists ms, Forall proper_name ms /\ suffix = map Normal ms.
Proof.
  intros (ns & _ & ->) (ks & Hks & Heq). injection Heq as Heq.
  symmetry in Heq. apply map_eq_app in Heq as (l1 & l2 & -> & _ & <-).
  exists l2. split; [|done]. by apply Forall_app in Hks as [_ ?].
Qed.

Section Effective.
Context {os : Os} {laws : OsLaws os}.

Lemma join_render a suffix :
  normal_abs a -> normal_abs (a ++ suffix) ->
  from_absolute (path_join (render a) (render suffix)) = Ok (a ++ suffix).
Proof.
  intros Ha Hp. destruct (normal_app_inv a suffix Ha Hp) as (ms & Hms & ->).
  destruct (render_relative_segments ms Hms) as [Hseg Hrel].
  destruct (normalize_render a Ha) as (Habs & Hn & _).
  unfold from_absolute.
  rewrite (proj1 (from_absolute_path_abs _ _ _ (path_join_absolute _ _ Habs))). f_equal. destruct (normalize_absolute (path_join (render a) (render (map Normal ms)))) as [-> _];
    [by apply path_join_absolute|].
  rewrite join_segments, fold_left_app, Hseg by done.
  destruct (normalize_absolute (render a) Habs) as [<- _]. by rewrite Hn, run_names.
Qed.

(** Where the logical path is not preserved, no link is on the way. *)
Lemma unlinked_prefixes a :
  normal_abs a -> no_top_link a -> should_preserve_logical_path a = false ->
  forall b, b `prefix_of` a -> normal_abs b -> symlink_metadata b <> Some true.
Proof.
  intros Ha Htop Hp b Hb Hn Hlink.
  apply existsb_false_elem with (x := b) in Hp;
    [|by apply ancestors_prefix; [|split; [|apply normal_ne]]].
  rewrite Hlink in Hp. apply andb_false_iff in Hp as [|Hp]; [done|].
  destruct Hn as (ns & Hns & ->). rewrite parent_abs in Hp.
  destruct ns as [|n [|n' ns]].
  - by apply root_not_link.
  - by apply (no_top_link_prefix _ _ Hb Htop _ _ [] eq_refl).
  - rewrite parent_abs in Hp. by cbn in Hp.
Qed.

Lemma canonicalize_logical a :
  normal_abs a -> no_top_link a -> canonicalize_preserving_symlinks (render a) = Ok a.
Proof.
  intros Ha Htop. unfold canonicalize_preserving_symlinks.
  rewrite from_absolute_render by done.
  destruct (canonicalize (render a)) as [q|] eqn:E; [|done].
  destruct (should_preserve_logical_path a) eqn:Hp.
  - case_bool_decide as Hq; [by subst|done].
  - f_equal. by eapply canonical_unlinked; [|apply unlinked_prefixes|].
Qed.

(** The effective form of a path that no link directly below the root leads
    elsewhere is the path. *)
Lemma normalize_effective_logical p :
  normal_abs p -> no_top_link p -> normalize_effective_absolute_path p = p.
Proof.
  intros Hp Htop. unfold normalize_effective_absolute_path.
  assert (Forall (fun a => normal_abs a /\ no_top_link a) (ancestors p)) as Hanc.
  { apply Forall_forall. intros a [Ha Hne]%ancestors_prefix; [|done].
    by split; [eapply normal_prefix|eapply no_top_link_prefix]. }
  induction (ancestors p) as [|a l IH]; [done|]. apply Forall_cons in Hanc as [[Ha Ht] Hanc].
  cbn [normalize_from_ancestors].
  destruct (symlink_metadata a); [|by apply IH].
  rewrite canonicalize_logical by done.
  destruct (path_strip_prefix p a) as [suffix|] eqn:E; [|by apply IH].
  apply path_strip_prefix_spec in E as ->. by rewrite join_render.
Qed.

(** The effective form of an existing path is the path or its canonical form. *)
Lemma normalize_effective_existing p q :
  normal_abs p -> canonicalize (render p) = Some q ->
  normalize_effective_absolute_path p = p \/ normalize_effective_absolute_path p = q.
Proof.
  intros Hp Hq. unfold normalize_effective_absolute_path.
  assert (exists l, ancestors p = p :: l) as [l ->]
    by (unfold ancestors; destruct (length p); by eexists).
  cbn [normalize_from_ancestors].
  destruct (symlink_metadata p) eqn:E; [|by destruct (canonical_exists p q Hp Hq)].
  assert (path_strip_prefix p p = Some []) as ->
    by (apply path_strip_prefix_spec; by rewrite app_nil_r).
  unfold canonicalize_preserving_symlinks. rewrite from_absolute_render, Hq by done.
  assert (forall a, normal_abs a ->
    from_absolute (path_join (render a) (render [])) = Ok a) as Hjoin.
  { intros a Ha. pose proof (join_render a []) as H. rewrite app_nil_r in H. by apply H. }
  destruct (_ && _).
  - rewrite Hjoin by done. by left.
  - rewrite Hjoin by by eapply canonical_normal. by right.
Qed.

Lemma dedup_raw_elem l p : p ∈ dedup_absolute_paths l false <-> p ∈ l.
Proof.
  unfold dedup_absolute_paths. cbn zeta. rewrite <- (right_id_L [] (++) l) at 2.
  assert (forall acc, p ∈ fold_left (fun deduped path =>
    if bool_decide (path ∈ deduped) then deduped else deduped ++ [path]) l acc <->
    p ∈ l ++ acc) as H; [|apply H].
  induction l as [|x l IH]; intros acc; cbn [fold_left app]; [done|].
  rewrite IH. case_bool_decide as Hx.
  - rewrite elem_of_cons, !elem_of_app. split; [tauto|]. intros [->|]; tauto.
  - rewrite elem_of_cons, !elem_of_app, list_elem_of_singleton. tauto.
Qed.

Lemma dedup_effective_logical l :
  Forall normal_abs l -> Forall no_top_link l ->
  dedup_absolute_paths l true = dedup_absolute_paths l false.
Proof.
  induction l as [|x l IH] using rev_ind; [done|].
  intros [Hn Hx]%Forall_app [Ht Htx]%Forall_app. apply Forall_inv in Hx, Htx.
  specialize (IH Hn Ht). unfold dedup_absolute_paths in *.
  rewrite !fold_left_app, IH. cbn [fold_left].
  by rewrite !(normalize_effective_logical x Hx Htx).
Qed.

Lemma dedup_effective_elem l p :
  p ∈ l -> normalize_effective_absolute_path p ∈ dedup_absolute_paths l true.
Proof.
  unfold dedup_absolute_paths. cbn zeta. intros Hp.
  assert (forall acc, normalize_effective_absolute_path p ∈ acc \/ p ∈ l ->
    normalize_effective_absolute_path p ∈ fold_left (fun deduped path =>
      if bool_decide (normalize_effective_absolute_path path ∈ deduped) then deduped
      else deduped ++ [normalize_effective_absolute_path path]) l acc) as H; [|apply H; by right].
  clear Hp. induction l as [|x l IH]; intros acc Hacc; cbn [fold_left].
  { destruct Hacc as [|Hacc]; [done|by apply elem_of_nil in Hacc]. }
  apply IH. destruct Hacc as [Hacc|[->|Hp]%elem_of_cons].
  - left. case_bool_decide; [done|]. apply elem_of_app. by left.
  - left. case_bool_decide; [done|]. apply elem_of_app. right. by left.
  - by right.
Qed.

(** A carve-out strictly below the root is reported as it is. *)
Lemma carveout_below root raw p :
  normal_abs p -> no_top_link p -> root `prefix_of` p -> p <> root ->
  carveout_path root raw p = Some p.
Proof.
  intros Hp Ht Hpre Hne. unfold carveout_path.
  rewrite normalize_effective_logical by done.
  rewrite (bool_decide_eq_false_2 (p = root)) by done.
  rewrite (proj2 (path_starts_with_spec p root)) by done. cbn.
  by destruct (parent root).
Qed.

End Effective.

Section Roots.
Context {os : Os} {laws : OsLaws os}.

(** No entry is reached through a symbolic link directly below the root. *)
Definition entries_logical (self : FileSystemSandboxPolicy) (cwd : str) : Prop :=
  Forall (fun r => no_top_link (rpath r)) (resolved_entries_with_cwd self cwd).

Lemma entry_logical self cwd r :
  entries_logical self cwd -> r ∈ resolved_entries_with_cwd self cwd -> no_top_link (rpath r).
Proof. unfold entries_logical. rewrite Forall_forall. auto. Qed.

Lemma not_full_write_restricted self :
  has_full_disk_write_access self = false -> kind self = Restricted.
Proof. unfold has_full_disk_write_access. by destruct (kind self). Qed.

(** The deciding entry of a path decides for its own path. *)
Lemma decides_own l t e : decides l t e -> decides l (rpath e) e.
Proof.
  intros (He & Hp & Hmax). split_and!; [done|done|]. intros d Hd Hdp.
  apply Hmax; [done|]. by transitivity (rpath e).
Qed.

Lemma decided_own_access self cwd t e :
  policy_ok self -> kind self = Restricted ->
  decides (resolved_entries_with_cwd self cwd) t e ->
  resolve_access_with_cwd self (render (rpath e)) cwd = raccess e.
Proof.
  intros Hok Hk He. eapply access_decided; [done| |by eapply decides_own].
  apply candidate_render. eapply resolved_normal; [done|apply He].
Qed.

Lemma writable_root_inv self cwd wr :
  entries_logical self cwd -> policy_ok self -> wr ∈ get_writable_roots_with_cwd self cwd ->
  exists r writable, r ∈ resolved_entries_with_cwd self cwd /\ raccess r = Write /\
    can_write_path_with_cwd self (render (rpath r)) cwd = true /\
    Forall normal_abs writable /\ Forall no_top_link writable /\
    wr = writable_root_of self cwd (resolved_entries_with_cwd self cwd) writable (rpath r).
Proof.
  intros Hl Hok Hwr. unfold get_writable_roots_with_cwd in Hwr.
  destruct (has_full_disk_write_access self); [by apply elem_of_nil in Hwr|].
  apply list_elem_of_fmap in Hwr as (root & -> & Hroot).
  set (writable := map rpath _) in *.
  assert (forall p, p ∈ writable -> exists r, p = rpath r /\
    r ∈ resolved_entries_with_cwd self cwd /\ raccess r = Write /\
    can_write_path_with_cwd self (render (rpath r)) cwd = true) as Hin.
  { intros p (r & -> & Hr)%list_elem_of_fmap.
    apply elem_of_filter_bool in Hr as [[Hr Ha%can_write_Write]%elem_of_filter_bool Hc].
    by exists r. }
  assert (Forall normal_abs writable) as Hn.
  { apply Forall_forall. intros p (r & -> & Hr & _)%Hin. by eapply resolved_normal. }
  assert (Forall no_top_link writable) as Ht.
  { apply Forall_forall. intros p (r & -> & Hr & _)%Hin. by eapply entry_logical. }
  rewrite dedup_effective_logical in Hroot by done.
  apply (proj1 (dedup_raw_elem _ _)) in Hroot. destruct (Hin root Hroot) as (r & -> & Hr & Ha & Hc).
  by exists r, writable.
Qed.

Lemma carveout_reported self cwd writable root e :
  entries_logical self cwd -> policy_ok self -> kind self = Restricted ->
  e ∈ resolved_entries_with_cwd self cwd -> raccess e <> Write ->
  resolve_access_with_cwd self (render (rpath e)) cwd = raccess e ->
  root `prefix_of` rpath e -> rpath e <> root ->
  rpath e ∈ read_only_subpaths
    (writable_root_of self cwd (resolved_entries_with_cwd self cwd) writable root).
Proof.
  intros Hl Hok Hk He Ha Hacc Hpre Hne. apply dedup_raw_elem, elem_of_app. right.
  apply list_elem_of_omap. exists e. split.
  - apply elem_of_filter_bool. split.
    + apply elem_of_filter_bool. split; [done|]. by destruct (raccess e).
    + apply negb_true_iff, not_true_iff_false. intros [Hw _]%can_write_inv. congruence.
  - apply carveout_below; try done; [by eapply resolved_normal|by eapply entry_logical].
Qed.

Lemma protected_names_spec self root writable cwd n :
  Forall normal_abs writable -> Forall no_top_link writable -> normal_abs root ->
  is_protected_metadata_name n = true ->
  n ∉ protected_metadata_names
    (writable_root_of self cwd (resolved_entries_with_cwd self cwd) writable root) ->
  can_write_path_with_cwd self (render (root ++ [Normal n])) cwd = true.
Proof.
  intros Hw Hwt Hr Hn Hno. apply not_false_iff_true. intros Hc. apply Hno.
  destruct (protected_name_proper n Hn) as [Hprop Ht].
  apply elem_of_filter_bool. split.
  - apply existsb_exists in Hn as (x & Hx & ->%bool_decide_eq_true). by apply list_elem_of_In.
  - apply forallb_forall. intros p [<-|Hp]; [by rewrite join_path_name, Hc|].
    apply in_map_iff in Hp as (raw & <- & Hraw%list_elem_of_In).
    apply elem_of_filter_bool in Hraw as [Hraw Heq%bool_decide_eq_true].
    assert (normal_abs raw) as Hnr by (by eapply Forall_forall in Hw).
    assert (no_top_link raw) as Htr by (by eapply Forall_forall in Hwt).
    rewrite normalize_effective_logical in Heq by done. subst raw.
    by rewrite join_path_name, Hc.
Qed.

(** C7. What a sandbox is told never exceeds the policy.  When no entry of
    the policy is reached through a symbolic link directly below the
    filesystem root (such a root is reported at the place the link leads to;
    links deeper down keep the paths as they are written), a path that one of
    the writable roots lets through (below the root, below none of its
    read-only parts, outside of its protected metadata directories) has write
    access under the policy; and where it lies in a metadata directory of the
    root, the policy allows writing that directory itself. *)
Theorem writable_roots_sound self cwd p t wr :
  entries_logical self cwd -> policy_ok self -> resolve_candidate_path p cwd = Some t ->
  wr ∈ get_writable_roots_with_cwd self cwd -> is_path_writable wr t = true ->
  resolve_access_with_cwd self p cwd = Write /\
  forall n, is_protected_metadata_name n = true -> root wr ++ [Normal n] `prefix_of` t ->
    can_write_path_with_cwd self (render (root wr ++ [Normal n])) cwd = true.
Proof.
  intros Hl Hok Ht Hwr Hwritable.
  assert (kind self = Restricted) as Hk.
  { apply not_full_write_restricted. unfold get_writable_roots_with_cwd in Hwr.
    by destruct (has_full_disk_write_access self); [apply elem_of_nil in Hwr|]. }
  destruct (writable_root_inv _ _ _ Hl Hok Hwr) as (r & writable & Hr & Ha & Hc & Hw & Hwt & ->).
  pose proof (resolved_normal _ _ _ Hok Hr) as Hrn.
  unfold is_path_writable in Hwritable. cbn [root writable_root_of] in *.
  destruct (path_starts_with t (rpath r)) eqn:Hpre; [|done]. cbn [negb] in Hwritable.
  apply path_starts_with_spec in Hpre.
  destruct (existsb _ _) eqn:Hsub; [done|]. apply negb_true_iff in Hwritable. split.
  - destruct (access_inv self p cwd t Hk Ht) as [(e & He & ->)|[_ Hno]]; [|by destruct (Hno r)].
    pose proof (decided_own_access _ _ _ _ Hok Hk He) as Hown.
    destruct He as (He & Hpe & Hmax).
    destruct (decide (raccess e = Write)) as [|Hne]; [done|exfalso].
    destruct (Hmax r Hr Hpre) as [Hlt|[Heq _]].
    + apply existsb_false_elem with (x := rpath e) in Hsub.
      * apply not_true_iff_false in Hsub. by apply Hsub, path_starts_with_spec.
      * apply carveout_reported; try done; [by eapply prefix_length_lt|].
        intros Heq. rewrite Heq in Hlt. lia.
    + rewrite Heq in Hc. apply can_write_inv in Hc as [Hc _]. congruence.
  - intros n Hn [k Hk']. apply (protected_names_spec _ _ writable); try done. intros Hin.
    unfold path_contains_protected_metadata_name in Hwritable. cbn [root writable_root_of] in *.
    assert (path_strip_prefix t (rpath r) = Some (Normal n :: k)) as Hs.
    { apply path_strip_prefix_spec. by rewrite Hk', <- app_assoc. }
    rewrite Hs in Hwritable. apply existsb_false_elem with (x := n) in Hwritable; [|done].
    by apply bool_decide_eq_false in Hwritable.
Qed.

End Roots.

(** ** The matcher of denied reads *)

Section Matcher.
Context {os : Os} {laws : OsLaws os} (build_glob_matcher : str -> result str (str -> bool)).

Definition glob_fails (pattern : str) : bool :=
  match build_glob_matcher pattern with Err _ => true | Ok _ => false end.

Lemma build_matchers_fail_closed patterns ms inv :
  build_matchers build_glob_matcher FailClosed patterns ms inv =
  Ok (ms ++ omap (fun p => ok (build_glob_matcher p)) patterns,
      inv || existsb glob_fails patterns).
Proof.
  revert ms inv. induction patterns as [|p l IH]; intros ms inv; cbn.
  { by rewrite app_nil_r, orb_false_r. }
  unfold glob_fails at 1. destruct (build_glob_matcher p); cbn; rewrite IH.
  - by rewrite <- app_assoc.
  - by rewrite orb_true_l, orb_true_r.
Qed.

Lemma build_matchers_return_error patterns ms inv :
  match build_matchers build_glob_matcher ReturnError patterns ms inv with
  | Ok (_, inv') => inv' = inv /\ existsb glob_fails patterns = false
  | Err _ => existsb glob_fails patterns = true
  end.
Proof.
  revert ms inv. induction patterns as [|p l IH]; intros ms inv; cbn; [done|].
  unfold glob_fails at 1 3. destruct (build_glob_matcher p); cbn; [apply IH|done].
Qed.

Lemma new_matcher_eq policy cwd :
  new_matcher build_glob_matcher policy cwd =
  Some (if has_denied_read_restrictions policy
        then Some (ReadDenyMatcherOf
          (map (fun r => normalized_and_canonical_candidates (render r))
            (get_unreadable_roots_with_cwd policy cwd))
          (omap (fun p => ok (build_glob_matcher p)) (get_unreadable_globs_with_cwd policy cwd))
          (existsb glob_fails (get_unreadable_globs_with_cwd policy cwd)))
        else None).
Proof.
  unfold new_matcher, build. destruct (has_denied_read_restrictions policy); [|done].
  cbn [negb]. by rewrite build_matchers_fail_closed.
Qed.

Lemma try_new_Err policy cwd :
  (exists e, try_new build_glob_matcher policy cwd = Err e) <->
  has_denied_read_restrictions policy = true /\
  existsb glob_fails (get_unreadable_globs_with_cwd policy cwd) = true.
Proof.
  unfold try_new, build. destruct (has_denied_read_restrictions policy); cbn [negb].
  - pose proof (build_matchers_return_error (get_unreadable_globs_with_cwd policy cwd) [] false) as H.
    destruct (build_matchers _ _ _ _ _) as [[ms inv]|e].
    + destruct H as [_ ->]. split; [by intros [? ?]|by intros [_ ?]].
    + rewrite H. split; [done|by exists e].
  - split; [by intros [? ?]|by intros [? _]].
Qed.

Lemma candidates_normalized p t :
  from_absolute p = Ok t -> render t ∈ normalized_and_canonical_candidates p.
Proof.
  intros Ht. unfold normalized_and_canonical_candidates. rewrite Ht. cbn.
  destruct (canonicalize p) as [q|]; [|by left].
  destruct (from_absolute (render q)); [|by left]. unfold push_unique.
  destruct (negb _); [apply elem_of_app; left|]; by left.
Qed.

Lemma candidates_canonical p t pc :
  from_absolute p = Ok t -> canonicalize p = Some pc ->
  exists c, c ∈ normalized_and_canonical_candidates p /\ components c = pc.
Proof.
  intros Ht Hc. pose proof (canonical_normal _ _ Hc) as Hn.
  unfold normalized_and_canonical_candidates. rewrite Ht, Hc, from_absolute_render by done.
  destruct (normalize_render _ Hn) as (_ & _ & Hr). unfold push_unique at 1.
  destruct (existsb _ _) eqn:E; cbn [negb].
  - apply existsb_exists in E as (x & Hx & Heq%bool_decide_eq_true).
    exists x. rewrite list_elem_of_In. split; [done|congruence].
  - exists (render pc). split; [|done]. apply elem_of_app. right. by left.
Qed.

Lemma is_read_denied_spec m p :
  is_read_denied m p = true <->
  invalid_pattern m = true \/
  (exists denied c d, denied ∈ denied_candidates m /\ d ∈ denied /\
     c ∈ normalized_and_canonical_candidates p /\ components d `prefix_of` components c) \/
  (exists f c, f ∈ deny_read_matchers m /\ c ∈ normalized_and_canonical_candidates p /\
     f c = true).
Proof.
  assert (forall c d, same_path c d || path_starts_with (components c) (components d) = true <->
    components d `prefix_of` components c) as Hcd.
  { intros c d. rewrite orb_true_iff, path_starts_with_spec. unfold same_path.
    rewrite bool_decide_eq_true. split; [by intros [->|]|by right]. }
  unfold is_read_denied. destruct (invalid_pattern m); [by split; [left|]|].
  destruct (existsb _ (denied_candidates m)) eqn:E.
  - split; [intros _|done]. right; left.
    apply existsb_exists in E as (denied & Hd & E). exists denied.
    apply existsb_exists in E as (c & Hc & E). exists c.
    apply existsb_exists in E as (d & Hdd & E%Hcd). exists d.
    by rewrite !list_elem_of_In.
  - assert (forall P : Prop, (P <-> (exists f c, f ∈ deny_read_matchers m /\
      c ∈ normalized_and_canonical_candidates p /\ f c = true)) ->
      P <-> false = true \/ (exists denied c d, denied ∈ denied_candidates m /\ d ∈ denied /\
        c ∈ normalized_and_canonical_candidates p /\ components d `prefix_of` components c) \/
        (exists f c, f ∈ deny_read_matchers m /\
          c ∈ normalized_and_canonical_candidates p /\ f c = true)) as Hgoal.
    { intros P ->. split; [tauto|]. intros [|[(dn & c & d & H1 & H2 & H3 & H4)|]]; [done| |done].
      apply existsb_false_elem with (x := dn) in E; [|done].
      apply existsb_false_elem with (x := c) in E; [|done].
      apply existsb_false_elem with (x := d) in E; [|done].
      apply not_true_iff_false in E. by destruct E; apply Hcd. }
    apply Hgoal. rewrite existsb_exists. split.
    + intros (f & Hf & (c & Hc & Hfc)%existsb_exists). exists f, c. by rewrite !list_elem_of_In.
    + intros (f & c & Hf & Hc & Hfc). exists f. split; [by apply list_elem_of_In|].
      apply existsb_exists. exists c. split; [by apply list_elem_of_In|done].
Qed.

(** A denied path becomes an unreadable root, in its effective form. *)
Lemma deny_is_unreadable_root policy cwd c d :
  policy_ok policy -> kind policy = Restricted -> from_absolute cwd = Ok c ->
  d ∈ resolved_entries_with_cwd policy cwd -> raccess d = Deny -> rpath d <> [RootDir] ->
  normalize_effective_absolute_path (rpath d) ∈ get_unreadable_roots_with_cwd policy cwd.
Proof.
  intros Hok Hk Hc Hd Ha Hne. unfold get_unreadable_roots_with_cwd. rewrite Hk, Hc.
  cbn [is_restricted negb ok]. rewrite absolute_root_of by by eapply from_absolute_normal.
  apply dedup_effective_elem, list_elem_of_fmap. exists d. split; [done|].
  rewrite !elem_of_filter_bool. split_and!; [done|by rewrite Ha| |].
  - pose proof (candidate_render (rpath d) cwd (resolved_normal _ _ _ Hok Hd)) as Hr.
    unfold can_read_path_with_cwd.
    destruct (deny_reaches policy cwd d _ _ Hk Hr Hd Ha) as [->|(x & _ & _ & Hp & Hlt)]; [done|done|].
    apply prefix_length in Hp. lia.
  - rewrite negb_true_iff. apply bool_decide_eq_false. congruence.
Qed.

(** A candidate of a path below a candidate of an unreadable root. *)
Lemma denied_below policy cwd m r p c d :
  new_matcher build_glob_matcher policy cwd = Some (Some m) ->
  r ∈ get_unreadable_roots_with_cwd policy cwd ->
  d ∈ normalized_and_canonical_candidates (render r) ->
  c ∈ normalized_and_canonical_candidates p -> components d `prefix_of` components c ->
  is_read_denied m p = true.
Proof.
  rewrite new_matcher_eq. destruct (has_denied_read_restrictions policy); [|done].
  intros [= <-] Hr Hd Hc Hp. apply is_read_denied_spec. right; left.
  exists (normalized_and_canonical_candidates (render r)), c, d. split_and!; try done.
  apply list_elem_of_fmap. by exists r.
Qed.

Lemma denied_by_name policy cwd m d p t :
  new_matcher build_glob_matcher policy cwd = Some (Some m) ->
  normal_abs (rpath d) -> no_top_link (rpath d) ->
  normalize_effective_absolute_path (rpath d) ∈ get_unreadable_roots_with_cwd policy cwd ->
  from_absolute p = Ok t -> rpath d `prefix_of` t -> is_read_denied m p = true.
Proof.
  intros Hm Hn Htop Hr Ht Hp. rewrite normalize_effective_logical in Hr by done.
  eapply (denied_below _ _ _ _ _ (render t) (render (rpath d)) Hm Hr).
  - by apply candidates_normalized, from_absolute_render.
  - by apply candidates_normalized.
  - destruct (normalize_render _ Hn) as (_ & _ & ->).
    by destruct (normalize_render _ (from_absolute_normal _ _ Ht)) as (_ & _ & ->).
Qed.

Lemma denied_by_place policy cwd m d p t dc pc :
  new_matcher build_glob_matcher policy cwd = Some (Some m) -> normal_abs (rpath d) ->
  normalize_effective_absolute_path (rpath d) ∈ get_unreadable_roots_with_cwd policy cwd ->
  from_absolute p = Ok t -> canonicalize (render (rpath d)) = Some dc ->
  canonicalize p = Some pc -> dc `prefix_of` pc -> is_read_denied m p = true.
Proof.
  intros Hm Hn Hr Ht Hdc Hpc Hp.
  assert (exists x, x ∈ normalized_and_canonical_candidates
    (render (normalize_effective_absolute_path (rpath d))) /\ components x = dc) as (x & Hx & Hxc).
  { destruct (normalize_effective_existing _ _ Hn Hdc) as [->| ->].
    - by eapply candidates_canonical; [apply from_absolute_render|].
    - eapply candidates_canonical; [|by eapply canonical_fixed].
      apply from_absolute_render. by eapply canonical_normal. }
  destruct (candidates_canonical _ _ _ Ht Hpc) as (c & Hc & Hcc).
  eapply (denied_below _ _ _ _ _ c x Hm Hr); [done|done|]. by rewrite Hxc, Hcc.
Qed.

(** C8. Direct reads are denied where the policy denies.  Building the
    matcher for reads never fails, and it exists exactly when the policy has
    a deny; it denies everything as soon as one glob is malformed, which the
    strict constructor reports instead; otherwise it denies whatever a glob
    matches and, for a denied path other than the filesystem root, every path
    written at or below it (when no symbolic link directly below the root is
    on the way to the denied path) and every path that leads to a place at or
    below the place it leads to, whatever symbolic links either goes through;
    both even under a more specific entry that allows it. *)
Theorem read_deny_complete policy cwd c :
  policy_ok policy -> from_absolute cwd = Ok c ->
  exists matcher, new_matcher build_glob_matcher policy cwd = Some matcher /\
  (matcher = None <-> has_denied_read_restrictions policy = false) /\
  forall m, matcher = Some m ->
  ((exists e, try_new build_glob_matcher policy cwd = Err e) <->
     exists g, g ∈ get_unreadable_globs_with_cwd policy cwd /\ glob_fails g = true) /\
  (forall g p, g ∈ get_unreadable_globs_with_cwd policy cwd -> glob_fails g = true ->
     is_read_denied m p = true) /\
  (forall g f p t, g ∈ get_unreadable_globs_with_cwd policy cwd ->
     build_glob_matcher g = Ok f -> from_absolute p = Ok t -> f (render t) = true ->
     is_read_denied m p = true) /\
  (forall d p t, d ∈ resolved_entries_with_cwd policy cwd -> raccess d = Deny ->
     rpath d <> [RootDir] -> from_absolute p = Ok t ->
     (no_top_link (rpath d) -> rpath d `prefix_of` t -> is_read_denied m p = true) /\
     (forall dc pc, canonicalize (render (rpath d)) = Some dc -> canonicalize p = Some pc ->
        dc `prefix_of` pc -> is_read_denied m p = true)).
Proof.
  intros Hok Hc. pose proof (new_matcher_eq policy cwd) as Hnew. rewrite Hnew.
  eexists. split; [done|].
  assert (forall g, g ∈ get_unreadable_globs_with_cwd policy cwd -> glob_fails g = true ->
    existsb glob_fails (get_unreadable_globs_with_cwd policy cwd) = true) as Hinv.
  { intros g Hg Hf. apply existsb_exists. exists g. by rewrite <- list_elem_of_In. }
  destruct (has_denied_read_restrictions policy) eqn:Hden; [|done].
  split; [done|]. intros m [= Hm]. rewrite Hm in Hnew. subst m. split_and!.
  - rewrite try_new_Err, Hden. split.
    + intros [_ (g & Hg & Hf)%existsb_exists]. exists g. by rewrite list_elem_of_In.
    + intros (g & Hg & Hf). split; [done|by apply (Hinv g)].
  - intros g p Hg Hf. apply is_read_denied_spec. left. by apply (Hinv g).
  - intros g f p t Hg Hf Ht Hm. apply is_read_denied_spec. right; right.
    exists f, (render t). split_and!; [|by apply candidates_normalized|done].
    apply list_elem_of_omap. exists g. split; [done|by rewrite Hf].
  - intros d p t Hd Ha Hne Ht. apply andb_true_iff in Hden as [Hk _].
    pose proof (resolved_normal _ _ _ Hok Hd) as Hdn.
    assert (normalize_effective_absolute_path (rpath d) ∈ get_unreadable_roots_with_cwd policy cwd)
      as Hroot by (eapply deny_is_unreadable_root; try done; by destruct (kind policy)).
    split; [intros; by eapply denied_by_name|intros; by eapply denied_by_place].
Qed.

End Matcher.

(** ** At work *)

Definition repo_os : Os :=
  mem_os None (Some "/var/tmp")
    (map components ["/"; "/tmp"; "/w"; "/w/.agents"; "/g"; "/g/wt"])
    [(components "/w/.git", "gitdir: /g/wt")].

Lemma components_normal p :
  is_absolute p = true -> components p = normalize_path p -> normal_abs (components p).
Proof. intros Ha ->. by apply normalize_absolute. Qed.

(** A system with symbolic links: [/var] leads to [/private/var] and
    [/srv/link] to [/w/secret]. *)
Definition link_dirs : list PathBuf :=
  map components ["/tmp"; "/w"; "/w/secret"; "/srv"; "/private"; "/private/var"; "/private/var/tmp"].
Definition link_files : list (PathBuf * str) := [(components "/w/secret/k", "key")].
Definition link_links : list (PathBuf * PathBuf) :=
  [(components "/var", components "/private/var"); (components "/srv/link", components "/w/secret")].
Definition link_os : Os := linked_os (Some "/private/var/tmp") link_dirs link_files link_links.

Lemma link_os_laws : OsLaws link_os.
Proof.
  apply linked_laws. split.
  - unfold nodes, link_dirs, link_files. cbn [map app fst].
    apply Forall_cons. split; [apply normal_root|].
    repeat (apply Forall_cons; split; [apply components_normal; reflexivity|]). by apply Forall_nil.
  - apply (bool_decide_unpack _). vm_compute. exact I.
  - apply (bool_decide_unpack _). vm_compute. exact I.
  - apply (bool_decide_unpack _). vm_compute. exact I.
Qed.

(** A writable root directly below the root of the filesystem is reported at
    the place the link leads to, one deeper down as it is written. *)
Example linked_roots :
  map (fun r => render (root r))
    (get_writable_roots_with_cwd (os := link_os)
      (restricted [SandboxEntry (Path (components "/var")) Write;
                   SandboxEntry (Path (components "/srv/link")) Write]) "/w") =
  ["/private/var" : str; "/srv/link"].
Proof. vm_compute. reflexivity. Qed.

(** The git directory that a [.git] file points to is a read-only part of the
    root even though it is outside of it. *)
Example workspace_roots :
  map (fun r => (render (root r), map render (read_only_subpaths r)))
    (get_writable_roots_with_cwd (os := repo_os)
      (workspace_write (os := repo_os) [components "/data"] true false) "/w") =
  [(("/w" : str), ["/g/wt" : str; "/w/.git"; "/w/.agents"; "/w/.codex"]);
   ("/tmp", []); ("/data", [])].
Proof. vm_compute. reflexivity. Qed.

Lemma additional_roots_only_add_witness :
  let self := restricted [SandboxEntry (Path (components "/w/secret")) Deny] in
  let readable :=
    with_additional_readable_roots (os := repo_os) self "/w"
      [components "/w/secret"; components "/w/secret/open"] in
  can_read_path_with_cwd (os := repo_os) readable "/w/secret/k" "/w" = false /\
  (can_read_path_with_cwd (os := repo_os) readable "/w/secret/open" "/w" = true \/
   denied_exactly (os := repo_os) self "/w" (components "/w/secret/open")).
Proof.
  intros self readable. split; [vm_compute; reflexivity|].
  destruct (additional_roots_only_add (os := repo_os) "/w" self (components "/w")
    [components "/w/secret"; components "/w/secret/open"]) as [_ Hall].
  - reflexivity.
  - vm_compute. reflexivity.
  - repeat constructor; apply components_normal; reflexivity.
  - destruct (Hall (components "/w/secret/open")) as [Hr _]; [right; by left|exact Hr].
Defined.

Lemma writable_roots_sound_witness :
  let self := workspace_write (os := link_os) [components "/srv/link"] true false in
  let wr := WritableRootOf (components "/srv/link") []
    [".git" : str; ".agents" : str; ".codex" : str] in
  wr ∈ get_writable_roots_with_cwd (os := link_os) self "/w" /\
  resolve_access_with_cwd (os := link_os) self "/srv/link/k" "/w" = Write.
Proof.
  intros self wr. assert (wr ∈ get_writable_roots_with_cwd (os := link_os) self "/w") as Hin.
  { apply (bool_decide_unpack _). vm_compute. exact I. }
  split; [exact Hin|].
  apply (writable_roots_sound (os := link_os) (laws := link_os_laws) self "/w" "/srv/link/k"
    (components "/srv/link/k") wr).
  - apply (bool_decide_unpack _). vm_compute. exact I.
  - repeat constructor. apply components_normal; reflexivity.
  - vm_compute. reflexivity.
  - exact Hin.
  - vm_compute. reflexivity.
Defined.

(** A concrete glob compiler: a trailing [*] matches any rest without a
    separator; a pattern with an opening brace is malformed. *)
Definition star_glob (pattern : str) : result str (str -> bool) :=
  if contains_char pattern 123 then Err "unclosed alternate group"
  else match strip_suffix "*" pattern with
       | Some pre => Ok (fun p =>
           match strip_prefix pre p with
           | Some rest => negb (contains_char rest SLASH)
           | None => false
           end)
       | None => Ok (fun p => bool_decide (p = pattern))
       end.

Lemma read_deny_complete_witness :
  let policy := restricted [SandboxEntry (Special Root) Read;
                            SandboxEntry (Path (components "/srv/link")) Deny;
                            SandboxEntry (Path (components "/w/secret")) Read;
                            SandboxEntry (GlobPattern "*") Deny] in
  exists m, new_matcher (os := link_os) star_glob policy "/w" = Some (Some m) /\
    is_read_denied (os := link_os) m "/srv/link/new" = true /\
    is_read_denied (os := link_os) m "/w/secret/k" = true /\
    is_read_denied (os := link_os) m "/w/a" = true /\
    is_read_denied (os := link_os) m "/w/a/b" = false.
Proof.
  intros policy.
  destruct (read_deny_complete (os := link_os) (laws := link_os_laws) star_glob policy "/w"
    (components "/w")) as (matcher & Hnew & Hnone & Hm).
  - repeat constructor; apply components_normal; reflexivity.
  - vm_compute. reflexivity.
  - destruct matcher as [m|]; [|by destruct Hnone as [Hnone _]; specialize (Hnone eq_refl)].
    exists m. split; [exact Hnew|]. destruct (Hm m eq_refl) as (_ & _ & _ & Hden).
    assert (ResolvedEntry (components "/srv/link") Deny ∈
      resolved_entries_with_cwd (os := link_os) policy "/w") as Hd.
    { apply resolved_entry_iff. eexists. split; [right; by left|by vm_compute]. }
    split; [|split].
    + destruct (Hden _ "/srv/link/new" (components "/srv/link/new") Hd eq_refl ltac:(done)
        ltac:(vm_compute; reflexivity)) as [Hname _].
      apply Hname; apply (bool_decide_unpack _); vm_compute; exact I.
    + destruct (Hden _ "/w/secret/k" (components "/w/secret/k") Hd eq_refl ltac:(done)
        ltac:(vm_compute; reflexivity)) as [_ Hplace].
      apply (Hplace (components "/w/secret") (components "/w/secret/k"));
        [by vm_compute..|]. apply (bool_decide_unpack _). vm_compute. exact I.
    + vm_compute in Hnew. injection Hnew as <-. by vm_compute.
Defined.

Lemma preserve_deny_narrows_witness :
  let d := SandboxEntry (Path (components "/w/secret")) Deny in
  let existing := restricted [SandboxEntry (Special Root) Read; d] in
  let new := preserve_deny_read_restrictions_from unrestricted existing in
  kind new = Restricted /\ (exists e, e ∈ entries new /\ entry_eqb e d = true) /\
  resolve_access_with_cwd (os := repo_os) new "/w/secret/k" "/w" = Deny.
Proof.
  intros d existing new.
  destruct (preserve_deny_narrows (os := repo_os) unrestricted existing) as [_ Hkeep].
  destruct (Hkeep ltac:(done) d) as (Hk & He & _); [right; by left|done|].
  split_and!; [exact Hk|exact He|by vm_compute].
Defined.
