(* ===== verification/FsLegacy.v ===== *)
(** * FsLegacy: the older sandbox policies and the bridge to them

    [SandboxPolicy] of [codex-rs/protocol/src/protocol.rs] and the
    conversions of [permissions.rs] between it and the split policies of
    [FsPolicy], which decide whether a runtime that only knows the older
    policies may be used. *)

From S2P Require Import Prelude RustStr AbsolutePath FsPolicy FsRoots.
#[local] Open Scope str_scope.

Inductive NetworkAccess :=
| AccessRestricted
| AccessEnabled.

Definition access_is_enabled (self : NetworkAccess) : bool :=
  match self with AccessEnabled => true | AccessRestricted => false end.

Inductive SandboxPolicy :=
| DangerFullAccess
| ReadOnly (network_access : bool)
| ExternalSandbox (network_access : NetworkAccess)
| WorkspaceWrite (writable_roots : list PathBuf) (network_access : bool)
    (exclude_tmpdir_env_var exclude_slash_tmp : bool).

Definition new_read_only_policy : SandboxPolicy := ReadOnly false.
Definition new_workspace_write_policy : SandboxPolicy := WorkspaceWrite [] false false false.

Definition legacy_has_full_disk_write_access (self : SandboxPolicy) : bool :=
  match self with
  | DangerFullAccess | ExternalSandbox _ => true
  | ReadOnly _ | WorkspaceWrite _ _ _ _ => false
  end.

Definition has_full_network_access (self : SandboxPolicy) : bool :=
  match self with
  | DangerFullAccess => true
  | ExternalSandbox network_access => access_is_enabled network_access
  | ReadOnly network_access | WorkspaceWrite _ network_access _ _ => network_access
  end.

Definition network_policy_from (value : SandboxPolicy) : NetworkSandboxPolicy :=
  if has_full_network_access value then NetworkEnabled else NetworkRestricted.

Inductive BridgeError := WritesOutsideWorkspace.

(** The flags the conversion collects from the entries. *)
Record Bridge := BridgeOf {
  workspace_root_writable : bool;
  writable_roots : list PathBuf;
  tmpdir_writable : bool;
  slash_tmp_writable : bool;
  unbridgeable_root_write : bool
}.
Definition bridge_start : Bridge := BridgeOf false [] false false false.

Definition set_workspace_root (s : Bridge) : Bridge :=
  BridgeOf true (writable_roots s) (tmpdir_writable s) (slash_tmp_writable s)
    (unbridgeable_root_write s).
Definition push_writable_root (p : PathBuf) (s : Bridge) : Bridge :=
  BridgeOf (workspace_root_writable s) (writable_roots s ++ [p]) (tmpdir_writable s)
    (slash_tmp_writable s) (unbridgeable_root_write s).
Definition set_tmpdir (s : Bridge) : Bridge :=
  BridgeOf (workspace_root_writable s) (writable_roots s) true
    (slash_tmp_writable s) (unbridgeable_root_write s).
Definition set_slash_tmp (s : Bridge) : Bridge :=
  BridgeOf (workspace_root_writable s) (writable_roots s) (tmpdir_writable s)
    true (unbridgeable_root_write s).
Definition set_unbridgeable (s : Bridge) : Bridge :=
  BridgeOf (workspace_root_writable s) (writable_roots s) (tmpdir_writable s)
    (slash_tmp_writable s) true.

Section System.
Context {os : Os}.

Definition legacy_get_writable_roots_with_cwd (self : SandboxPolicy) (cwd : str) :
    list WritableRoot :=
  match self with
  | DangerFullAccess | ExternalSandbox _ | ReadOnly _ => []
  | WorkspaceWrite writable_roots _ exclude_tmpdir_env_var exclude_slash_tmp =>
      let roots := writable_roots in
      let roots :=
        match from_absolute cwd with Ok cwd => roots ++ [cwd] | Err _ => roots end in
      let roots :=
        if negb exclude_slash_tmp then
          match from_absolute "/tmp" with
          | Ok slash_tmp => if is_dir slash_tmp then roots ++ [slash_tmp] else roots
          | Err _ => roots
          end
        else roots in
      let roots :=
        match TMPDIR with
        | Some tmpdir =>
            if negb exclude_tmpdir_env_var && negb (is_empty tmpdir) then
              match from_absolute tmpdir with
              | Ok tmpdir_path => roots ++ [tmpdir_path]
              | Err _ => roots
              end
            else roots
        | None => roots
        end in
      let cwd_root := ok (from_absolute cwd) in
      map (fun writable_root =>
        let protect_missing_dot_codex :=
          match cwd_root with
          | Some cwd_root => bool_decide (cwd_root = writable_root)
          | None => false
          end in
        WritableRootOf writable_root
          (default_read_only_subpaths_for_writable_root writable_root
             protect_missing_dot_codex) []) roots
  end.

Definition file_system_policy_from (value : SandboxPolicy) : FileSystemSandboxPolicy :=
  match value with
  | DangerFullAccess => unrestricted
  | ExternalSandbox _ => external_sandbox
  | ReadOnly _ => restricted [SandboxEntry (Special Root) Read]
  | WorkspaceWrite writable_roots _ exclude_tmpdir_env_var exclude_slash_tmp =>
      workspace_write writable_roots exclude_tmpdir_env_var exclude_slash_tmp
  end.

(** The read-only parts of the working directory and of each root. *)
Definition append_legacy_subpaths (cwd : str) (writable_roots : list PathBuf)
    (entries : list FileSystemSandboxEntry) : list FileSystemSandboxEntry :=
  let entries :=
    match from_absolute cwd with
    | Ok cwd_root => append_default_read_only_subpaths true entries cwd_root
    | Err _ => entries
    end in
  fold_left (append_default_read_only_subpaths false) writable_roots entries.

Definition from_legacy_sandbox_policy_for_cwd (sandbox_policy : SandboxPolicy) (cwd : str) :
    FileSystemSandboxPolicy :=
  let file_system_policy := file_system_policy_from sandbox_policy in
  match sandbox_policy with
  | WorkspaceWrite writable_roots _ _ _ =>
      with_entries file_system_policy
        (append_legacy_subpaths cwd writable_roots (entries file_system_policy))
  | _ => file_system_policy
  end.

Definition from_legacy_sandbox_policy_preserving_deny_entries
    (sandbox_policy : SandboxPolicy) (cwd : str) (existing : FileSystemSandboxPolicy) :
    FileSystemSandboxPolicy :=
  let rebuilt := from_legacy_sandbox_policy_for_cwd sandbox_policy cwd in
  if negb (is_restricted (kind rebuilt)) then rebuilt
  else
    SandboxPolicyOf (kind rebuilt) (glob_scan_max_depth existing)
      (fold_left push_entry_if_absent (List.filter is_deny (entries existing))
        (entries rebuilt)).

Definition legacy_runtime_file_system_policy_for_cwd (sandbox_policy : SandboxPolicy)
    (cwd : str) : FileSystemSandboxPolicy :=
  match sandbox_policy with
  | WorkspaceWrite writable_roots _ exclude_tmpdir_env_var exclude_slash_tmp =>
      let entries :=
        [SandboxEntry (Special Root) Read;
         SandboxEntry (Special (ProjectRoots None)) Write] ++
        (if negb exclude_slash_tmp then [SandboxEntry (Special SlashTmp) Write] else []) ++
        (if negb exclude_tmpdir_env_var then [SandboxEntry (Special Tmpdir) Write] else []) ++
        map (fun path => SandboxEntry (Path path) Write) writable_roots in
      restricted (append_legacy_subpaths cwd writable_roots entries)
  | _ => file_system_policy_from sandbox_policy
  end.

(** ** From a split policy to an older one *)

Definition bridge_entry (cwd_absolute : option PathBuf) (s : Bridge)
    (entry : FileSystemSandboxEntry) : Bridge :=
  match path entry with
  | GlobPattern _ => s
  | Path p =>
      if can_write (access entry) then
        if match cwd_absolute with Some cwd => bool_decide (cwd = p) | None => false end
        then set_workspace_root s else push_writable_root p s
      else s
  | Special value =>
      match value with
      | Root =>
          match access entry with Deny | Read => s | Write => set_unbridgeable s end
      | Minimal => s
      | ProjectRoots subpath =>
          if match subpath with None => true | Some _ => false end && can_write (access entry)
          then set_workspace_root s
          else match resolve_file_system_special_path value cwd_absolute with
               | Some p => if can_write (access entry) then push_writable_root p s else s
               | None => s
               end
      | Tmpdir => if can_write (access entry) then set_tmpdir s else s
      | SlashTmp => if can_write (access entry) then set_slash_tmp s else s
      | Unknown _ _ => s
      end
  end.

Definition to_legacy_sandbox_policy (self : FileSystemSandboxPolicy)
    (network_policy : NetworkSandboxPolicy) (cwd : str) : result BridgeError SandboxPolicy :=
  match kind self with
  | FsPolicy.ExternalSandbox =>
      Ok (ExternalSandbox
        (if network_is_enabled network_policy then AccessEnabled else AccessRestricted))
  | Unrestricted =>
      if network_is_enabled network_policy then Ok DangerFullAccess
      else Ok (ExternalSandbox AccessRestricted)
  | Restricted =>
      let cwd_absolute := ok (from_absolute cwd) in
      let s := fold_left (bridge_entry cwd_absolute) (entries self) bridge_start in
      if has_full_disk_write_access self then
        if network_is_enabled network_policy then Ok DangerFullAccess
        else Ok (ExternalSandbox AccessRestricted)
      else if workspace_root_writable s then
        Ok (WorkspaceWrite (dedup_absolute_paths (writable_roots s) false)
              (network_is_enabled network_policy)
              (negb (tmpdir_writable s)) (negb (slash_tmp_writable s)))
      else if unbridgeable_root_write s || negb (is_empty (writable_roots s))
              || tmpdir_writable s || slash_tmp_writable s
      then Err WritesOutsideWorkspace
      else Ok (ReadOnly (network_is_enabled network_policy))
  end.

Definition protected_metadata_names_need_direct_runtime_enforcement
    (policy : FileSystemSandboxPolicy) (legacy_policy : SandboxPolicy) (cwd : str) : bool :=
  let legacy_roots := legacy_get_writable_roots_with_cwd legacy_policy cwd in
  existsb (fun writable_root =>
    match List.find (fun candidate => bool_decide (root candidate = root writable_root))
            legacy_roots with
    | None => negb (is_empty (protected_metadata_names writable_root))
    | Some legacy_root =>
        existsb (fun metadata_name =>
          let metadata_path := join_path (root writable_root) metadata_name in
          negb (existsb (fun subpath => bool_decide (subpath = metadata_path))
                  (read_only_subpaths legacy_root)))
          (protected_metadata_names writable_root)
    end) (get_writable_roots_with_cwd policy cwd).

Definition needs_direct_runtime_enforcement (self : FileSystemSandboxPolicy)
    (network_policy : NetworkSandboxPolicy) (cwd : str) : bool :=
  if negb (is_restricted (kind self)) then false
  else match to_legacy_sandbox_policy self network_policy cwd with
       | Err _ => true
       | Ok legacy_policy =>
           if protected_metadata_names_need_direct_runtime_enforcement self legacy_policy cwd
           then true
           else negb (bool_decide (semantic_signature self cwd =
                  semantic_signature
                    (legacy_runtime_file_system_policy_for_cwd legacy_policy cwd) cwd))
       end.

End System.

(** ** The conversion keeps every write *)

Section Bridging.
Context {os : Os}.

(** [q] is writable according to the collected flags. *)
Definition recorded (cwd : option PathBuf) (s : Bridge) (q : PathBuf) : Prop :=
  (workspace_root_writable s = true /\ cwd = Some q) \/
  q ∈ writable_roots s \/
  (tmpdir_writable s = true /\ resolve_file_system_special_path Tmpdir cwd = Some q) \/
  (slash_tmp_writable s = true /\ resolve_file_system_special_path SlashTmp cwd = Some q) \/
  (unbridgeable_root_write s = true /\ q = [RootDir]).

Lemma bridge_entry_cases cwd s e :
  bridge_entry cwd s e ∈
    [s; set_workspace_root s; set_tmpdir s; set_slash_tmp s; set_unbridgeable s] \/
  exists p, bridge_entry cwd s e = push_writable_root p s.
Proof.
  unfold bridge_entry. destruct (path e) as [p|g|v].
  - destruct (can_write (access e)); [|left; rewrite !elem_of_cons; tauto].
    destruct (match cwd with Some _ => _ | None => _ end); [left; rewrite !elem_of_cons; tauto|right; by exists p].
  - left; rewrite !elem_of_cons; tauto.
  - destruct v as [| |sub| | |u sub]; try (left; rewrite !elem_of_cons; tauto).
    + left. destruct (access e); (rewrite !elem_of_cons; tauto).
    + destruct (_ && _); [left; rewrite !elem_of_cons; tauto|].
      destruct (resolve_file_system_special_path _ _) as [p|]; [|left; rewrite !elem_of_cons; tauto].
      destruct (can_write (access e)); [right; by exists p|left; rewrite !elem_of_cons; tauto].
    + left. destruct (can_write (access e)); (rewrite !elem_of_cons; tauto).
    + left. destruct (can_write (access e)); (rewrite !elem_of_cons; tauto).
Qed.

Lemma recorded_mono cwd s e q : recorded cwd s q -> recorded cwd (bridge_entry cwd s e) q.
Proof.
  intros Hr. destruct (bridge_entry_cases cwd s e) as [Hin|[p ->]].
  - rewrite !elem_of_cons in Hin. unfold recorded in *.
    destruct Hin as [->|[->|[->|[->|[->|Hnil]]]]]; cbn; [..|by apply elem_of_nil in Hnil];
      intuition congruence.
  - unfold recorded in *. cbn. rewrite elem_of_app. tauto.
Qed.

Lemma recorded_entry cwd s e q :
  (forall c, cwd = Some c -> normal_abs c) ->
  access e = Write -> resolve_entry_path (path e) cwd = Some q ->
  recorded cwd (bridge_entry cwd s e) q.
Proof.
  intros Hc Ha Hq. unfold bridge_entry, recorded. rewrite Ha. cbn [can_write].
  destruct (path e) as [p|g|v]; [|done|].
  - injection Hq as ->. destruct cwd as [c|]; [case_bool_decide as E; [subst c|]|]; cbn;
      rewrite ?elem_of_app, ?list_elem_of_singleton; tauto.
  - destruct v as [| |sub| | |u sub]; try done.
    + cbn [resolve_entry_path] in Hq. destruct cwd as [c|]; [|done].
      rewrite absolute_root_of in Hq by auto. injection Hq as <-. cbn. tauto.
    + cbn [resolve_entry_path resolve_file_system_path] in Hq.
      destruct sub as [t|]; cbn [andb].
      * rewrite Hq. cbn. rewrite elem_of_app, list_elem_of_singleton. tauto.
      * cbn in Hq. destruct cwd; [|done]. injection Hq as ->. cbn. tauto.
    + cbn [resolve_entry_path resolve_file_system_path] in Hq. cbn [tmpdir_writable set_tmpdir].
      tauto.
    + cbn [resolve_entry_path resolve_file_system_path] in Hq.
      cbn [slash_tmp_writable set_slash_tmp]. tauto.
Qed.

Lemma recorded_all self cwd r :
  r ∈ resolved_entries_with_cwd self cwd -> raccess r = Write ->
  recorded (ok (from_absolute cwd))
    (fold_left (bridge_entry (ok (from_absolute cwd))) (entries self) bridge_start) (rpath r).
Proof.
  intros (e & He & Ha & Hq)%resolved_entry_iff Hw. rewrite Hw in Ha. symmetry in Ha.
  set (c := ok (from_absolute cwd)) in *.
  assert (forall q, c = Some q -> normal_abs q) as Hc.
  { intros q Hc%ok_Some. by eapply from_absolute_normal. }
  assert (forall l s, recorded c s (rpath r) -> recorded c (fold_left (bridge_entry c) l s) (rpath r))
    as Hmono.
  { induction l as [|x l IH]; intros s Hs; [done|]. cbn. by apply IH, recorded_mono. }
  generalize bridge_start as s. induction (entries self) as [|x l IH]; [by apply elem_of_nil in He|].
  intros s. cbn. apply elem_of_cons in He as [<-|He]; [|by apply IH].
  by apply Hmono, recorded_entry.
Qed.

Lemma bridge_no_writes c l :
  (forall e, e ∈ l -> access e <> Write) -> fold_left (bridge_entry c) l bridge_start = bridge_start.
Proof.
  intros Hall. induction l as [|e l IH]; [done|]. cbn [fold_left].
  assert (bridge_entry c bridge_start e = bridge_start) as ->.
  { pose proof (Hall e ltac:(by left)) as Ha. unfold bridge_entry.
    destruct (access e); [|done|]; destruct (path e) as [| |[]]; try done; cbn [can_write];
      rewrite andb_false_r; by destruct (resolve_file_system_special_path _ _). }
  apply IH. intros x Hx. apply Hall. by right.
Qed.

(** What the older policy says about the writes of a restricted one. *)
Definition legacy_allows (legacy : SandboxPolicy) (cwd : option PathBuf) (q : PathBuf) : Prop :=
  match legacy with
  | DangerFullAccess | ExternalSandbox _ => True
  | ReadOnly _ => False
  | WorkspaceWrite roots _ exclude_tmpdir_env_var exclude_slash_tmp =>
      cwd = Some q \/ q ∈ roots \/
      (exclude_tmpdir_env_var = false /\ resolve_file_system_special_path Tmpdir cwd = Some q) \/
      (exclude_slash_tmp = false /\ resolve_file_system_special_path SlashTmp cwd = Some q)
  end.

(** The bridge to the older policies loses no write and invents no
    network.  When a restricted policy converts, every entry that grants
    writes to a path is a writable root of the result (the working
    directory, a listed root, or the temporary directory it keeps), a
    root-wide write inside a workspace policy aside; the result writes
    everywhere only if the policy does, and has the network exactly when it
    was enabled.  The conversion fails only when some entry asks for writes
    and they do not amount to the whole disk. *)
Theorem to_legacy_keeps_writes self network cwd :
  kind self = Restricted ->
  match to_legacy_sandbox_policy self network cwd with
  | Ok legacy =>
      (forall r, r ∈ resolved_entries_with_cwd self cwd -> raccess r = Write ->
         legacy_allows legacy (ok (from_absolute cwd)) (rpath r) \/
         (exists l n x y, legacy = WorkspaceWrite l n x y) /\ rpath r = [RootDir]) /\
      legacy_has_full_disk_write_access legacy = has_full_disk_write_access self /\
      network_policy_from legacy = network
  | Err _ => has_full_disk_write_access self = false /\
      exists e, e ∈ entries self /\ access e = Write
  end.
Proof.
  intros Hk. unfold to_legacy_sandbox_policy. rewrite Hk.
  pose proof (recorded_all self cwd) as Hrec.
  set (c := ok (from_absolute cwd)) in *.
  set (s := fold_left (bridge_entry c) (entries self) bridge_start) in *.
  destruct (has_full_disk_write_access self).
  { destruct network; (split_and!; [by left|done|done]). }
  destruct (workspace_root_writable s) eqn:Hws.
  { split_and!; [|done|by destruct network]. intros r Hr Hw.
    destruct (Hrec r Hr Hw) as [[_ ?]|[?|[[E ?]|[[E ?]|[_ ?]]]]].
    - left. by left.
    - left. right; left. by apply dedup_raw_elem.
    - left. right; right; left. by rewrite E.
    - left. right; right; right. by rewrite E.
    - right. split; [by repeat eexists|done]. }
  destruct (_ || slash_tmp_writable s) eqn:Hflags.
  { split; [done|].
    destruct (decide (Exists (fun e => access e = Write) (entries self))) as [Hx|Hx].
    - by apply Exists_exists in Hx.
    - unfold s in Hflags. rewrite bridge_no_writes in Hflags; [done|].
      intros e He Ha. apply Hx, Exists_exists. by exists e. }
  rewrite !orb_false_iff, negb_false_iff, is_empty_true in Hflags.
  destruct Hflags as [[[Hun Hroots] Htmp] Hslash].
  split_and!; [|done|by destruct network]. intros r Hr Hw. exfalso.
  destruct (Hrec r Hr Hw) as [[? _]|[Hin|[[? _]|[[? _]|[? _]]]]]; try congruence.
  rewrite Hroots in Hin. by apply elem_of_nil in Hin.
Qed.

End Bridging.

(** ** Round trip *)

Section RoundTrip.
Context {os : Os}.

(** [es'] is [es] with read entries behind it. *)
Definition reads_after (es es' : list FileSystemSandboxEntry) : Prop :=
  exists reads, es' = es ++ reads /\ Forall (fun e => access e = Read) reads.

Lemma reads_after_refl es : reads_after es es.
Proof. exists []. by rewrite app_nil_r. Qed.

Lemma reads_after_trans a b c : reads_after a b -> reads_after b c -> reads_after a c.
Proof.
  intros (r & -> & Hr) (r' & -> & Hr'). exists (r ++ r'). rewrite app_assoc.
  split; [done|by apply Forall_app].
Qed.

Lemma reads_after_append es p :
  reads_after es (append_default_read_only_entry_if_no_explicit_rule es p).
Proof.
  unfold append_default_read_only_entry_if_no_explicit_rule.
  destruct (existsb _ _); [apply reads_after_refl|].
  exists [SandboxEntry p Read]. split; [done|by repeat constructor].
Qed.

Lemma reads_after_fold {A} (f : list FileSystemSandboxEntry -> A -> list FileSystemSandboxEntry) l es :
  (forall es x, reads_after es (f es x)) -> reads_after es (fold_left f l es).
Proof.
  intros Hf. revert es. induction l as [|x l IH]; intros es; [apply reads_after_refl|].
  eapply reads_after_trans; [apply Hf|apply IH].
Qed.

Lemma reads_after_subpaths missing es root :
  reads_after es (append_default_read_only_subpaths missing es root).
Proof. apply reads_after_fold. intros. apply reads_after_append. Qed.

(** The entries of a workspace policy before its read-only parts. *)
Definition workspace_entries (writable_roots : list PathBuf)
    (exclude_tmpdir_env_var exclude_slash_tmp : bool) : list FileSystemSandboxEntry :=
  [SandboxEntry (Special Root) Read; SandboxEntry (Special (ProjectRoots None)) Write] ++
  (if negb exclude_slash_tmp then [SandboxEntry (Special SlashTmp) Write] else []) ++
  (if negb exclude_tmpdir_env_var then [SandboxEntry (Special Tmpdir) Write] else []) ++
  map (fun path => SandboxEntry (Path path) Write) writable_roots.

Lemma workspace_write_entries roots et es :
  reads_after (workspace_entries roots et es) (entries (workspace_write roots et es)).
Proof.
  unfold workspace_write. cbn [restricted entries]. fold (workspace_entries roots et es).
  eapply reads_after_trans; [|apply reads_after_fold; intros; apply reads_after_subpaths].
  repeat (eapply reads_after_trans; [|apply reads_after_append]). apply reads_after_refl.
Qed.

Lemma bridge_reads c l s :
  Forall (fun e => access e = Read) l -> fold_left (bridge_entry c) l s = s.
Proof.
  intros Hl. revert s. induction Hl as [|e l He _ IH]; intros s; [done|]. cbn [fold_left].
  rewrite IH. unfold bridge_entry. rewrite He. destruct (path e) as [| |[]]; try done.
  cbn [can_write]. rewrite andb_false_r. by destruct (resolve_file_system_special_path _ _).
Qed.

Definition other_roots (c : option PathBuf) (roots : list PathBuf) : list PathBuf :=
  List.filter (fun r => negb (bool_decide (c = Some r))) roots.

Lemma bridge_roots c roots s :
  workspace_root_writable s = true ->
  fold_left (bridge_entry c) (map (fun path => SandboxEntry (Path path) Write) roots) s =
  BridgeOf true (writable_roots s ++ other_roots c roots) (tmpdir_writable s)
    (slash_tmp_writable s) (unbridgeable_root_write s).
Proof.
  revert s. induction roots as [|r roots IH]; intros s Hs; cbn [map fold_left].
  { rewrite app_nil_r, <- Hs. by destruct s. }
  unfold bridge_entry at 2. cbn [path access can_write].
  assert (match c with Some cwd => bool_decide (cwd = r) | None => false end =
    bool_decide (c = Some r)) as ->.
  { destruct c as [q|]; [|done]. by apply bool_decide_ext; split; [intros ->|intros [= ->]]. }
  cbn [other_roots List.filter]. unfold other_roots in *.
  destruct (bool_decide (c = Some r)); cbn [negb]; rewrite IH by done; cbn; [done|].
  by rewrite <- app_assoc.
Qed.

Lemma workspace_not_full roots et es :
  has_full_disk_write_access (workspace_write roots et es) = false.
Proof.
  unfold has_full_disk_write_access, has_root_access. cbn [kind workspace_write restricted].
  apply andb_false_iff. left. cbn [is_restricted andb].
  destruct (workspace_write_entries roots et es) as (reads & -> & Hreads).
  apply not_true_iff_false. intros (e & [He|He]%in_app_or & Hc)%existsb_exists.
  - unfold workspace_entries in He. destruct et, es; cbn in He;
      repeat destruct He as [<-|He]; try done;
      apply in_map_iff in He as (p & <- & _); done.
  - apply list_elem_of_In in He. eapply Forall_forall in Hreads; [|done].
    rewrite Hreads in Hc. by destruct (path e) as [| |[]].
Qed.

Lemma legacy_roundtrip_eq legacy cwd :
  to_legacy_sandbox_policy (file_system_policy_from legacy) (network_policy_from legacy) cwd =
  Ok match legacy with
     | WorkspaceWrite roots network et es =>
         WorkspaceWrite (dedup_absolute_paths (other_roots (ok (from_absolute cwd)) roots) false)
           network et es
     | _ => legacy
     end.
Proof.
  destruct legacy as [|n|[]|roots n et es]; try done; [by destruct n|].
  unfold to_legacy_sandbox_policy, file_system_policy_from.
  cbn [kind workspace_write restricted]. fold (workspace_write roots et es).
  rewrite workspace_not_full.
  destruct (workspace_write_entries roots et es) as (reads & -> & Hreads).
  rewrite fold_left_app, bridge_reads by done.
  set (c := ok (from_absolute cwd)). unfold workspace_entries.
  rewrite !fold_left_app, bridge_roots by (by destruct et, es).
  by destruct et, es, n.
Qed.

(** The older policies survive the way through the split ones.
    Converting an older policy, with its network, and back gives it again;
    for a workspace policy up to the writable roots: the working directory
    is not repeated among them, and each is listed once, in order. *)
Theorem legacy_roundtrip legacy cwd :
  to_legacy_sandbox_policy (file_system_policy_from legacy) (network_policy_from legacy) cwd =
  Ok match legacy with
     | WorkspaceWrite roots network et es =>
         WorkspaceWrite (dedup_absolute_paths (other_roots (ok (from_absolute cwd)) roots) false)
           network et es
     | _ => legacy
     end.
Proof. apply legacy_roundtrip_eq. Qed.

End RoundTrip.

Lemma to_legacy_keeps_writes_witness :
  let self := restricted [SandboxEntry (Special (ProjectRoots None)) Write;
                          SandboxEntry (Path (components "/data")) Write] in
  to_legacy_sandbox_policy (os := repo_os) self NetworkEnabled "/w" =
    Ok (WorkspaceWrite [components "/data"] true true true) /\
  network_policy_from (WorkspaceWrite [components "/data"] true true true) = NetworkEnabled.
Proof.
  intros self.
  pose proof (to_legacy_keeps_writes (os := repo_os) self NetworkEnabled "/w" eq_refl) as H.
  assert (to_legacy_sandbox_policy (os := repo_os) self NetworkEnabled "/w" =
    Ok (WorkspaceWrite [components "/data"] true true true)) as E by (vm_compute; reflexivity).
  rewrite E in H. split; [exact E|apply H].
Defined.
