(* ===== verification/Permissions.v ===== *)
(** * Permissions: permission profiles and their combination

    [PermissionProfile] and the additional permissions of a single command,
    of [codex-rs/protocol/src/models.rs], and the operations of
    [codex-rs/sandboxing/src/policy_transforms.rs] that normalise, merge and
    intersect additional permissions and apply them to the policies of
    [FsPolicy].  A [NonZeroUsize] is an [N] that [nonzero_new] has checked. *)

From S2P Require Import Prelude RustStr AbsolutePath FsPolicy FsRoots FsLegacy.
#[local] Open Scope str_scope.

(** [NonZeroUsize::new] *)
Definition nonzero_new (n : N) : option N := if (n =? 0)%N then None else Some n.

(** ** models.rs *)

Inductive SandboxPermissions :=
| UseDefault
| RequireEscalated
| WithAdditionalPermissions.

Definition requires_escalated_permissions (self : SandboxPermissions) : bool :=
  match self with RequireEscalated => true | _ => false end.
Definition requests_sandbox_override (self : SandboxPermissions) : bool :=
  match self with UseDefault => false | _ => true end.
Definition uses_additional_permissions (self : SandboxPermissions) : bool :=
  match self with WithAdditionalPermissions => true | _ => false end.

Record FileSystemPermissions := FileSystemPermissionsOf {
  fs_entries : list FileSystemSandboxEntry;
  fs_depth : option N
}.
Definition default_file_system_permissions : FileSystemPermissions :=
  FileSystemPermissionsOf [] None.

Definition file_system_is_empty (self : FileSystemPermissions) : bool :=
  is_empty (fs_entries self).

Definition path_entries (access : FileSystemAccessMode) (roots : option (list PathBuf)) :
    list FileSystemSandboxEntry :=
  match roots with
  | Some roots => map (fun p => SandboxEntry (Path p) access) roots
  | None => []
  end.

Definition from_read_write_roots (read write : option (list PathBuf)) : FileSystemPermissions :=
  FileSystemPermissionsOf (path_entries Read read ++ path_entries Write write) None.

Definition explicit_path_entries (self : FileSystemPermissions) :
    list (PathBuf * FileSystemAccessMode) :=
  omap (fun entry =>
    match path entry with
    | Path p => Some (p, access entry)
    | GlobPattern _ | Special _ => None
    end) (fs_entries self).

Record LegacyFileSystemPermissions := LegacyFileSystemPermissionsOf {
  legacy_read : option (list PathBuf);
  legacy_write : option (list PathBuf)
}.

(** The loop of [as_legacy_permissions]: the read and the written roots, or
    [None] at the first entry that the older form cannot say. *)
Fixpoint split_read_write (l : list FileSystemSandboxEntry) (read write : list PathBuf) :
    option (list PathBuf * list PathBuf) :=
  match l with
  | [] => Some (read, write)
  | entry :: l =>
      match path entry with
      | Path p =>
          match access entry with
          | Read => split_read_write l (read ++ [p]) write
          | Write => split_read_write l read (write ++ [p])
          | Deny => None
          end
      | GlobPattern _ | Special _ => None
      end
  end.

Definition some_nonempty (l : list PathBuf) : option (list PathBuf) :=
  if is_empty l then None else Some l.

Definition as_legacy_permissions (self : FileSystemPermissions) :
    option LegacyFileSystemPermissions :=
  match fs_depth self with
  | Some _ => None
  | None =>
      match split_read_write (fs_entries self) [] [] with
      | None => None
      | Some (read, write) =>
          Some (LegacyFileSystemPermissionsOf (some_nonempty read) (some_nonempty write))
      end
  end.

Definition legacy_read_write_roots (self : FileSystemPermissions) :
    option (option (list PathBuf) * option (list PathBuf)) :=
  match as_legacy_permissions self with
  | Some legacy => Some (legacy_read legacy, legacy_write legacy)
  | None => None
  end.

(** The two forms a value is stored in. *)
Inductive FileSystemPermissionsDe :=
| Canonical (entries : list FileSystemSandboxEntry) (glob_scan_max_depth : option N)
| Legacy (legacy : LegacyFileSystemPermissions).

Definition serialize (self : FileSystemPermissions) : FileSystemPermissionsDe :=
  match as_legacy_permissions self with
  | Some legacy => Legacy legacy
  | None => Canonical (fs_entries self) (fs_depth self)
  end.

Definition deserialize (value : FileSystemPermissionsDe) : FileSystemPermissions :=
  match value with
  | Canonical entries glob_scan_max_depth =>
      FileSystemPermissionsOf entries glob_scan_max_depth
  | Legacy legacy => from_read_write_roots (legacy_read legacy) (legacy_write legacy)
  end.

Record NetworkPermissions := NetworkPermissionsOf {
  enabled : option bool
}.
Definition network_is_empty (self : NetworkPermissions) : bool :=
  match enabled self with None => true | Some _ => false end.

(** [Some(NetworkPermissions { enabled: Some(true) })] *)
Definition network_enabled (n : option NetworkPermissions) : bool :=
  match n with Some (NetworkPermissionsOf (Some true)) => true | _ => false end.

Record AdditionalPermissionProfile := AdditionalPermissionProfileOf {
  network : option NetworkPermissions;
  file_system : option FileSystemPermissions
}.

Definition profile_is_empty (self : AdditionalPermissionProfile) : bool :=
  match network self, file_system self with None, None => true | _, _ => false end.

Inductive SandboxEnforcement :=
| EnforceManaged
| EnforceDisabled
| EnforceExternal.
#[export] Instance SandboxEnforcement_eq_dec : EqDecision SandboxEnforcement.
Proof. solve_decision. Defined.

Definition enforcement_from_legacy (sandbox_policy : SandboxPolicy) : SandboxEnforcement :=
  match sandbox_policy with
  | DangerFullAccess => EnforceDisabled
  | ExternalSandbox _ => EnforceExternal
  | ReadOnly _ | WorkspaceWrite _ _ _ _ => EnforceManaged
  end.

Inductive ManagedFileSystemPermissions :=
| ManagedRestricted (entries : list FileSystemSandboxEntry) (glob_scan_max_depth : option N)
| ManagedUnrestricted.

(** [None] is the [unreachable!] of the code. *)
Definition managed_from_sandbox_policy (policy : FileSystemSandboxPolicy) :
    option ManagedFileSystemPermissions :=
  match kind policy with
  | Restricted =>
      Some (ManagedRestricted (entries policy) (glob_scan_max_depth policy ≫= nonzero_new))
  | Unrestricted => Some ManagedUnrestricted
  | FsPolicy.ExternalSandbox => None
  end.

Definition managed_to_sandbox_policy (self : ManagedFileSystemPermissions) :
    FileSystemSandboxPolicy :=
  match self with
  | ManagedRestricted entries glob_scan_max_depth =>
      SandboxPolicyOf Restricted glob_scan_max_depth entries
  | ManagedUnrestricted => unrestricted
  end.

Definition BUILT_IN_PERMISSION_PROFILE_READ_ONLY : str := ":read-only".
Definition BUILT_IN_PERMISSION_PROFILE_WORKSPACE : str := ":workspace".
Definition BUILT_IN_PERMISSION_PROFILE_DANGER_FULL_ACCESS : str := ":danger-full-access".

Inductive PermissionProfile :=
| Managed (file_system : ManagedFileSystemPermissions) (network : NetworkSandboxPolicy)
| Disabled
| External (network : NetworkSandboxPolicy).

Record ActivePermissionProfile := ActivePermissionProfileOf {
  profile_id : str;
  profile_extends : option str
}.
Definition new_active_profile (id : str) : ActivePermissionProfile :=
  ActivePermissionProfileOf id None.
Definition active_read_only : ActivePermissionProfile :=
  new_active_profile BUILT_IN_PERMISSION_PROFILE_READ_ONLY.

Definition default_permission_profile : PermissionProfile :=
  Managed (ManagedRestricted [] None) NetworkRestricted.

Definition read_only : PermissionProfile :=
  Managed (ManagedRestricted [SandboxEntry (Special Root) Read] None) NetworkRestricted.

Definition from_runtime_permissions_with_enforcement (enforcement : SandboxEnforcement)
    (policy : FileSystemSandboxPolicy) (network : NetworkSandboxPolicy) :
    option PermissionProfile :=
  match kind policy with
  | FsPolicy.ExternalSandbox => Some (External network)
  | Unrestricted =>
      if decide (enforcement = EnforceDisabled) then Some Disabled
      else match managed_from_sandbox_policy policy with
           | Some file_system => Some (Managed file_system network)
           | None => None
           end
  | Restricted =>
      match managed_from_sandbox_policy policy with
      | Some file_system => Some (Managed file_system network)
      | None => None
      end
  end.

Definition from_runtime_permissions (policy : FileSystemSandboxPolicy)
    (network : NetworkSandboxPolicy) : option PermissionProfile :=
  let enforcement :=
    match kind policy with
    | Restricted | Unrestricted => EnforceManaged
    | FsPolicy.ExternalSandbox => EnforceExternal
    end in
  from_runtime_permissions_with_enforcement enforcement policy network.

Definition enforcement (self : PermissionProfile) : SandboxEnforcement :=
  match self with
  | Managed _ _ => EnforceManaged
  | Disabled => EnforceDisabled
  | External _ => EnforceExternal
  end.

Definition file_system_sandbox_policy (self : PermissionProfile) : FileSystemSandboxPolicy :=
  match self with
  | Managed file_system _ => managed_to_sandbox_policy file_system
  | Disabled => unrestricted
  | External _ => external_sandbox
  end.

Definition network_sandbox_policy (self : PermissionProfile) : NetworkSandboxPolicy :=
  match self with
  | Managed _ network | External network => network
  | Disabled => NetworkEnabled
  end.

Definition to_runtime_permissions (self : PermissionProfile) :
    FileSystemSandboxPolicy * NetworkSandboxPolicy :=
  (file_system_sandbox_policy self, network_sandbox_policy self).

(** The shape written before enforcement was explicit. *)
Record LegacyPermissionProfile := LegacyPermissionProfileOf {
  old_network : option NetworkPermissions;
  old_file_system : option FileSystemPermissions
}.

Definition policy_from_permissions (value : FileSystemPermissions) : FileSystemSandboxPolicy :=
  SandboxPolicyOf Restricted (fs_depth value) (fs_entries value).

Definition profile_from_legacy_shape (value : LegacyPermissionProfile) :
    option PermissionProfile :=
  let policy :=
    match old_file_system value with
    | None => restricted []
    | Some file_system => policy_from_permissions file_system
    end in
  let network :=
    if default false (old_network value ≫= enabled) then NetworkEnabled else NetworkRestricted in
  from_runtime_permissions policy network.

Definition network_permissions_from (value : NetworkSandboxPolicy) : NetworkPermissions :=
  NetworkPermissionsOf (Some (network_is_enabled value)).

Section Profiles.
Context {os : Os}.

Definition workspace_write_with (writable_roots : list PathBuf) (network : NetworkSandboxPolicy)
    (exclude_tmpdir_env_var exclude_slash_tmp : bool) : option PermissionProfile :=
  match managed_from_sandbox_policy
          (workspace_write writable_roots exclude_tmpdir_env_var exclude_slash_tmp) with
  | Some file_system => Some (Managed file_system network)
  | None => None
  end.

Definition profile_workspace_write : option PermissionProfile :=
  workspace_write_with [] NetworkRestricted false false.

Definition profile_materialize_project_roots (self : PermissionProfile)
    (workspace_roots : list PathBuf) : option PermissionProfile :=
  match self with
  | Managed file_system network =>
      match managed_from_sandbox_policy
              (materialize_project_roots_with_workspace_roots
                (managed_to_sandbox_policy file_system) workspace_roots) with
      | Some file_system => Some (Managed file_system network)
      | None => None
      end
  | Disabled => Some Disabled
  | External network => Some (External network)
  end.

Definition profile_from_legacy_sandbox_policy (sandbox_policy : SandboxPolicy) :
    option PermissionProfile :=
  from_runtime_permissions_with_enforcement (enforcement_from_legacy sandbox_policy)
    (file_system_policy_from sandbox_policy) (network_policy_from sandbox_policy).

Definition profile_from_legacy_sandbox_policy_for_cwd (sandbox_policy : SandboxPolicy)
    (cwd : str) : option PermissionProfile :=
  from_runtime_permissions_with_enforcement (enforcement_from_legacy sandbox_policy)
    (from_legacy_sandbox_policy_for_cwd sandbox_policy cwd)
    (network_policy_from sandbox_policy).

Definition profile_to_legacy_sandbox_policy (self : PermissionProfile) (cwd : str) :
    result BridgeError SandboxPolicy :=
  match self with
  | Managed file_system network =>
      to_legacy_sandbox_policy (managed_to_sandbox_policy file_system) network cwd
  | Disabled => Ok DangerFullAccess
  | External network =>
      Ok (ExternalSandbox
        (if network_is_enabled network then AccessEnabled else AccessRestricted))
  end.

(** ** policy_transforms.rs *)

Inductive NormalizeError := GlobNotDeny.

Definition normalize_entry (entry : FileSystemSandboxEntry) :
    result NormalizeError FileSystemSandboxEntry :=
  match path entry with
  | GlobPattern pattern =>
      if negb (is_deny entry) then Err GlobNotDeny
      else Ok (SandboxEntry (GlobPattern pattern) (access entry))
  | Path p =>
      let p' :=
        match canonicalize_preserving_symlinks (render p) with
        | Ok canonical => default p (ok (from_absolute (render canonical)))
        | Err _ => p
        end in
      Ok (SandboxEntry (Path p') (access entry))
  | Special value => Ok (SandboxEntry (Special value) (access entry))
  end.

Fixpoint normalize_entries (l acc : list FileSystemSandboxEntry) :
    result NormalizeError (list FileSystemSandboxEntry) :=
  match l with
  | [] => Ok acc
  | entry :: l =>
      match normalize_entry entry with
      | Err e => Err e
      | Ok normalized_entry => normalize_entries l (push_entry_if_absent acc normalized_entry)
      end
  end.

Definition normalize_additional_permissions
    (additional_permissions : AdditionalPermissionProfile) :
    result NormalizeError AdditionalPermissionProfile :=
  let network :=
    match network additional_permissions with
    | Some network => if network_is_empty network then None else Some network
    | None => None
    end in
  match file_system additional_permissions with
  | None => Ok (AdditionalPermissionProfileOf network None)
  | Some file_system =>
      match normalize_entries (fs_entries file_system) [] with
      | Err e => Err e
      | Ok entries =>
          let file_system := FileSystemPermissionsOf entries (fs_depth file_system) in
          Ok (AdditionalPermissionProfileOf network
            (if file_system_is_empty file_system then None else Some file_system))
      end
  end.

Definition merge_permission_entries (base permissions : list FileSystemSandboxEntry) :
    list FileSystemSandboxEntry :=
  fold_left push_entry_if_absent (base ++ permissions) [].

Inductive GlobScanDepth :=
| Bounded (depth : N)
| Unbounded.

Definition effective_glob_scan_depth (entries : list FileSystemSandboxEntry)
    (depth : option N) : option GlobScanDepth :=
  if existsb (fun entry =>
       is_deny entry && match path entry with GlobPattern _ => true | _ => false end) entries
  then Some (match depth with Some depth => Bounded depth | None => Unbounded end)
  else None.

Definition merge_glob_scan_max_depth (left_entries : list FileSystemSandboxEntry)
    (left_depth : option N) (right_entries : list FileSystemSandboxEntry)
    (right_depth : option N) : option N :=
  match effective_glob_scan_depth left_entries left_depth,
        effective_glob_scan_depth right_entries right_depth with
  | Some Unbounded, _ | _, Some Unbounded => None
  | Some (Bounded l), Some (Bounded r) => Some (N.max l r)
  | Some (Bounded depth), None | None, Some (Bounded depth) => Some depth
  | None, None => None
  end.

Definition nonempty_file_system (f : FileSystemPermissions) : option FileSystemPermissions :=
  if file_system_is_empty f then None else Some f.
Definition nonempty_profile (p : AdditionalPermissionProfile) :
    option AdditionalPermissionProfile :=
  if profile_is_empty p then None else Some p.

Definition merge_permission_profiles (base permissions : option AdditionalPermissionProfile) :
    option AdditionalPermissionProfile :=
  match permissions with
  | None => base
  | Some permissions =>
      match base with
      | Some base =>
          let network :=
            if network_enabled (network base) || network_enabled (network permissions)
            then Some (NetworkPermissionsOf (Some true)) else None in
          let file_system :=
            match file_system base, file_system permissions with
            | Some base, Some permissions =>
                nonempty_file_system (FileSystemPermissionsOf
                  (merge_permission_entries (fs_entries base) (fs_entries permissions))
                  (merge_glob_scan_max_depth (fs_entries base) (fs_depth base)
                     (fs_entries permissions) (fs_depth permissions) ≫= nonzero_new))
            | Some base, None => Some base
            | None, Some permissions => Some permissions
            | None, None => None
            end in
          nonempty_profile (AdditionalPermissionProfileOf network file_system)
      | None => nonempty_profile permissions
      end
  end.

Definition access_covers (requested granted : FileSystemAccessMode) : bool :=
  match granted with
  | Read => can_read requested
  | Write => can_write requested
  | Deny => false
  end.

(** The last ancestor of the working directory is taken from its text. *)
Definition resolve_permission_path (path : FileSystemPath) (cwd : str) : option PathBuf :=
  match path with
  | Path p => Some p
  | GlobPattern _ => None
  | Special value =>
      match value with
      | Root =>
          match last (ancestors (components cwd)) with
          | None => None
          | Some root => ok (from_absolute (render root))
          end
      | ProjectRoots subpath =>
          match ok (from_absolute cwd) with
          | None => None
          | Some cwd =>
              Some match subpath with
                   | Some subpath => against_base subpath cwd
                   | None => cwd
                   end
          end
      | Tmpdir =>
          match TMPDIR with
          | None => None
          | Some tmpdir => if is_empty tmpdir then None else ok (from_absolute tmpdir)
          end
      | SlashTmp =>
          match ok (from_absolute "/tmp") with
          | Some path => if is_dir path then Some path else None
          | None => None
          end
      | Minimal | Unknown _ _ => None
      end
  end.

Definition materialize_cwd_dependent_entry (entry : FileSystemSandboxEntry) (cwd : str) :
    FileSystemSandboxEntry :=
  match path entry with
  | Special (ProjectRoots _) =>
      match resolve_permission_path (path entry) cwd with
      | Some p => SandboxEntry (Path p) (access entry)
      | None => entry
      end
  | GlobPattern pattern =>
      SandboxEntry (GlobPattern (render (resolve_path_against_base home_dir pattern cwd)))
        (access entry)
  | Path _ | Special _ => entry
  end.

Definition paths_overlap (left right : PathBuf) : bool :=
  path_starts_with left right || path_starts_with right left.

Definition is_glob_char (c : char) : bool :=
  bool_decide (c ∈ [42; 63; 91; 93]%N).

(** The text before the first of [*], [?], [[] and []]. *)
Fixpoint before_glob_char (s : str) : option str :=
  match s with
  | [] => None
  | c :: r => if is_glob_char c then Some [] else cons c <$> before_glob_char r
  end.

Definition glob_static_prefix_path (pattern cwd : str) : option PathBuf :=
  let resolved_pattern := render (resolve_path_against_base home_dir pattern cwd) in
  match before_glob_char resolved_pattern with
  | Some [] => None
  | Some prefix =>
      if ends_with prefix "/" || ends_with prefix "\" then ok (from_absolute prefix)
      else match parent (components prefix) with
           | None => None
           | Some q => ok (from_absolute (render q))
           end
  | None => ok (from_absolute resolved_pattern)
  end.

Definition deny_entry_constrains_accepted_grant (deny_entry : FileSystemSandboxEntry)
    (accepted_entries : list FileSystemSandboxEntry) (cwd : str) : bool :=
  existsb (fun entry =>
    match resolve_permission_path (path entry) cwd with
    | None => false
    | Some grant_path =>
        match path deny_entry with
        | GlobPattern pattern =>
            match glob_static_prefix_path pattern cwd with
            | Some prefix => paths_overlap prefix grant_path
            | None => false
            end
        | Path _ | Special _ =>
            match resolve_permission_path (path deny_entry) cwd with
            | Some deny_path => paths_overlap deny_path grant_path
            | None => false
            end
        end
    end) (List.filter (fun entry => can_read (access entry)) accepted_entries).

(** One deny entry: the output entries and the retained ones. *)
Definition retain_deny (accepted_entries : list FileSystemSandboxEntry) (cwd : str)
    (s : list FileSystemSandboxEntry * list FileSystemSandboxEntry)
    (entry : FileSystemSandboxEntry) :
    list FileSystemSandboxEntry * list FileSystemSandboxEntry :=
  if negb (deny_entry_constrains_accepted_grant entry accepted_entries cwd) then s
  else
    let entry := materialize_cwd_dependent_entry entry cwd in
    (push_entry_if_absent s.1 entry, s.2 ++ [entry]).

Definition retain_constraining_deny_entries
    (source_entries accepted_entries : list FileSystemSandboxEntry) (cwd : str)
    (output_entries : list FileSystemSandboxEntry) :
    list FileSystemSandboxEntry * list FileSystemSandboxEntry :=
  fold_left (retain_deny accepted_entries cwd) (List.filter is_deny source_entries)
    (output_entries, []).

Definition granted_file_system_entry_within_request (requested : FileSystemPermissions)
    (requested_policy : FileSystemSandboxPolicy)
    (requested_read_deny_matcher : option ReadDenyMatcher)
    (granted_entry : FileSystemSandboxEntry) (cwd : str) : bool :=
  if negb (can_read (access granted_entry)) then false
  else match resolve_permission_path (path granted_entry) cwd with
       | Some p =>
           if match requested_read_deny_matcher with
              | Some matcher => is_read_denied matcher (render p)
              | None => false
              end
           then false
           else access_covers (resolve_access_with_cwd requested_policy (render p) cwd)
                  (access granted_entry)
       | None =>
           existsb (fun requested_entry =>
             access_covers (access requested_entry) (access granted_entry)
             && file_system_path_eqb (path requested_entry) (path granted_entry))
             (fs_entries requested)
       end.

Context (build_glob_matcher : str -> result str (str -> bool)).

(** The outer [None] is the panic of [ReadDenyMatcher::new]. *)
Definition intersect_file_system (requested granted : FileSystemPermissions) (cwd : str) :
    option FileSystemPermissions :=
  let requested_policy := restricted (fs_entries requested) in
  match new_matcher build_glob_matcher requested_policy cwd with
  | None => None
  | Some requested_read_deny_matcher =>
      let accepted_entries :=
        fold_left (fun accepted entry =>
            push_entry_if_absent accepted (materialize_cwd_dependent_entry entry cwd))
          (List.filter (fun entry =>
             granted_file_system_entry_within_request requested requested_policy
               requested_read_deny_matcher entry cwd) (fs_entries granted)) [] in
      let '(entries, requested_retained) :=
        retain_constraining_deny_entries (fs_entries requested) accepted_entries cwd
          accepted_entries in
      let '(entries, granted_retained) :=
        retain_constraining_deny_entries (fs_entries granted) accepted_entries cwd entries in
      Some (FileSystemPermissionsOf entries
        (merge_glob_scan_max_depth requested_retained (fs_depth requested)
           granted_retained (fs_depth granted) ≫= nonzero_new))
  end.

Definition intersect_permission_profiles (requested granted : AdditionalPermissionProfile)
    (cwd : str) : option AdditionalPermissionProfile :=
  let network :=
    if network_enabled (network requested) && network_enabled (network granted)
    then Some (NetworkPermissionsOf (Some true)) else None in
  match file_system requested with
  | None => Some (AdditionalPermissionProfileOf network None)
  | Some requested_file_system =>
      let granted_file_system :=
        default default_file_system_permissions (file_system granted) in
      match intersect_file_system requested_file_system granted_file_system cwd with
      | None => None
      | Some f => Some (AdditionalPermissionProfileOf network (nonempty_file_system f))
      end
  end.

Definition merge_file_system_policy_with_additional_permissions
    (file_system_policy : FileSystemSandboxPolicy)
    (additional_permissions : FileSystemPermissions) : FileSystemSandboxPolicy :=
  match kind file_system_policy with
  | Restricted =>
      SandboxPolicyOf Restricted
        (merge_glob_scan_max_depth (entries file_system_policy)
           (glob_scan_max_depth file_system_policy) (fs_entries additional_permissions)
           (fs_depth additional_permissions))
        (fold_left push_entry_if_absent (fs_entries additional_permissions)
           (entries file_system_policy))
  | Unrestricted | FsPolicy.ExternalSandbox => file_system_policy
  end.

Definition effective_file_system_sandbox_policy (file_system_policy : FileSystemSandboxPolicy)
    (additional_permissions : option AdditionalPermissionProfile) : FileSystemSandboxPolicy :=
  match additional_permissions with
  | None => file_system_policy
  | Some additional_permissions =>
      match file_system additional_permissions with
      | None => file_system_policy
      | Some file_system_permissions =>
          if file_system_is_empty file_system_permissions then file_system_policy
          else merge_file_system_policy_with_additional_permissions file_system_policy
                 file_system_permissions
      end
  end.

Definition merge_network_access (base_network_access : bool)
    (additional_permissions : AdditionalPermissionProfile) : bool :=
  base_network_access || default false (network additional_permissions ≫= enabled).

Definition effective_network_sandbox_policy (network_policy : NetworkSandboxPolicy)
    (additional_permissions : option AdditionalPermissionProfile) : NetworkSandboxPolicy :=
  match additional_permissions with
  | Some permissions =>
      if merge_network_access (network_is_enabled network_policy) permissions
      then NetworkEnabled else NetworkRestricted
  | None => network_policy
  end.

Definition effective_permission_profile (permission_profile : PermissionProfile)
    (additional_permissions : option AdditionalPermissionProfile) : option PermissionProfile :=
  let '(file_system_policy, network_policy) := to_runtime_permissions permission_profile in
  from_runtime_permissions_with_enforcement (enforcement permission_profile)
    (effective_file_system_sandbox_policy file_system_policy additional_permissions)
    (effective_network_sandbox_policy network_policy additional_permissions).

Definition should_require_platform_sandbox (file_system_policy : FileSystemSandboxPolicy)
    (network_policy : NetworkSandboxPolicy) (has_managed_network_requirements : bool) : bool :=
  if has_managed_network_requirements then true
  else if negb (network_is_enabled network_policy) then
    match kind file_system_policy with FsPolicy.ExternalSandbox => false | _ => true end
  else match kind file_system_policy with
       | Restricted => negb (has_full_disk_write_access file_system_policy)
       | Unrestricted | FsPolicy.ExternalSandbox => false
       end.

End Profiles.

(** ** Intersection *)

Lemma ancestors_from_rooted n l :
  Forall segment_like l -> length l <= n ->
  last (ancestors_from n (RootDir :: l)) = Some [RootDir].
Proof.
  revert l. induction n as [|n IH]; intros l Hl Hn.
  { by destruct l; [|cbn in Hn; lia]. }
  destruct l as [|c l _] using rev_ind; [done|].
  apply Forall_app in Hl as [Hl Hc]. apply Forall_inv in Hc.
  rewrite length_app in Hn. cbn in Hn.
  assert (parent (RootDir :: l ++ [c]) = Some (RootDir :: l)) as Hp.
  { unfold parent. rewrite app_comm_cons, last_snoc.
    assert (take (pred (length ((RootDir :: l) ++ [c]))) ((RootDir :: l) ++ [c]) = RootDir :: l) as ->.
    { rewrite length_app. cbn [length]. replace (pred (S (length l) + 1)) with (length (RootDir :: l))
        by (cbn; lia). apply take_app_length. }
    by destruct c. }
  cbn [ancestors_from]. rewrite Hp.
  specialize (IH l Hl ltac:(lia)).
  destruct (ancestors_from n (RootDir :: l)) as [|x xs]; [done|]. exact IH.
Qed.

Section Intersection.
Context {os : Os}.

Lemma last_ancestor_absolute cwd :
  is_absolute cwd = true -> last (ancestors (components cwd)) = Some [RootDir].
Proof.
  intros Ha. unfold components, leading_component. rewrite Ha.
  apply ancestors_from_rooted; [apply segments_like|]. cbn. lia.
Qed.

Lemma absolute_cwd cwd : is_absolute cwd = true -> exists c, from_absolute cwd = Ok c.
Proof. intros Ha. eexists. by apply from_absolute_path_abs. Qed.

(** With an absolute working directory both resolutions agree. *)
Lemma permission_path_resolves p cwd :
  is_absolute cwd = true ->
  resolve_permission_path p cwd = resolve_entry_path p (ok (from_absolute cwd)).
Proof.
  intros Ha. destruct (absolute_cwd cwd Ha) as [c Hc].
  destruct p as [q|g|v]; [done..|].
  destruct v; cbn [resolve_permission_path resolve_entry_path resolve_file_system_path
    resolve_file_system_special_path]; rewrite ?Hc; try done; cbn [ok].
  - rewrite last_ancestor_absolute by done.
    rewrite absolute_root_of by by eapply from_absolute_normal.
    by rewrite (from_absolute_render [RootDir]) by apply normal_root.
  - by destruct subpath.
  - rewrite slash_tmp_path. cbn [ok]. by destruct (is_dir _).
Qed.

Lemma materialize_resolves e cwd :
  is_absolute cwd = true ->
  resolve_entry (ok (from_absolute cwd)) (materialize_cwd_dependent_entry e cwd) =
  resolve_entry (ok (from_absolute cwd)) e.
Proof.
  intros Ha. unfold materialize_cwd_dependent_entry, resolve_entry.
  destruct (path e) as [q|g|v] eqn:Ep; [by rewrite Ep|done|].
  destruct v; try by rewrite Ep.
  rewrite permission_path_resolves by done.
  destruct (resolve_entry_path (Special (ProjectRoots subpath)) _) as [q|] eqn:Er; [done|].
  by rewrite Ep, Er.
Qed.

Lemma materialize_access e cwd : access (materialize_cwd_dependent_entry e cwd) = access e.
Proof.
  unfold materialize_cwd_dependent_entry. destruct (path e) as [| |[]]; try done.
  by destruct (resolve_permission_path _ _).
Qed.

Lemma fold_push_inv l es x : x ∈ fold_left push_entry_if_absent l es -> x ∈ es \/ x ∈ l.
Proof.
  revert es. induction l as [|e l IH]; intros es Hx; [by left|]. cbn in Hx.
  apply IH in Hx as [Hx|Hx]; [|right; by right].
  destruct (push_if_absent_cases es e) as [E|E]; rewrite E in Hx; [by left|].
  apply elem_of_app in Hx as [Hx|Hx]; [by left|right].
  apply list_elem_of_singleton in Hx as ->. by left.
Qed.

Lemma fold_push_map {A} (f : A -> FileSystemSandboxEntry) l es :
  fold_left (fun acc x => push_entry_if_absent acc (f x)) l es =
  fold_left push_entry_if_absent (map f l) es.
Proof. revert es. induction l as [|x l IH]; intros es; [done|]. apply IH. Qed.

(** The denies that a source adds to the output. *)
Definition kept_denies (source accepted : list FileSystemSandboxEntry) (cwd : str) :
    list FileSystemSandboxEntry :=
  map (fun e => materialize_cwd_dependent_entry e cwd)
    (List.filter (fun e => deny_entry_constrains_accepted_grant e accepted cwd)
      (List.filter is_deny source)).

Lemma retain_alt source accepted cwd out :
  retain_constraining_deny_entries source accepted cwd out =
  (fold_left push_entry_if_absent (kept_denies source accepted cwd) out,
   kept_denies source accepted cwd).
Proof.
  unfold retain_constraining_deny_entries, kept_denies. set (l := List.filter is_deny source).
  assert (forall out ret, fold_left (retain_deny accepted cwd) l (out, ret) =
    (fold_left push_entry_if_absent
      (map (fun e => materialize_cwd_dependent_entry e cwd)
        (List.filter (fun e => deny_entry_constrains_accepted_grant e accepted cwd) l)) out,
     ret ++ map (fun e => materialize_cwd_dependent_entry e cwd)
        (List.filter (fun e => deny_entry_constrains_accepted_grant e accepted cwd) l)))
    as H; [|by rewrite H].
  clear out. induction l as [|e l IH]; intros out ret; cbn [fold_left List.filter map].
  { by rewrite app_nil_r. }
  unfold retain_deny at 2.
  destruct (deny_entry_constrains_accepted_grant e accepted cwd); cbn [negb]; rewrite IH; [|done].
  cbn [map fold_left fst snd]. by rewrite <- app_assoc.
Qed.

Lemma kept_deny source accepted cwd d :
  d ∈ kept_denies source accepted cwd <->
  exists e, d = materialize_cwd_dependent_entry e cwd /\ e ∈ source /\ access e = Deny /\
    deny_entry_constrains_accepted_grant e accepted cwd = true.
Proof.
  unfold kept_denies. rewrite list_elem_of_fmap. setoid_rewrite elem_of_filter_bool.
  setoid_rewrite elem_of_filter_bool. setoid_rewrite is_deny_spec. naive_solver.
Qed.

(** What the intersection is made of. *)
Lemma intersect_parts build_glob_matcher requested granted cwd f :
  intersect_file_system build_glob_matcher requested granted cwd = Some f ->
  exists accepted matcher,
    fs_entries f =
      fold_left push_entry_if_absent (kept_denies (fs_entries granted) accepted cwd)
        (fold_left push_entry_if_absent (kept_denies (fs_entries requested) accepted cwd)
          accepted) /\
    forall e, e ∈ accepted -> exists g, g ∈ fs_entries granted /\
      e = materialize_cwd_dependent_entry g cwd /\
      granted_file_system_entry_within_request requested (restricted (fs_entries requested))
        matcher g cwd = true.
Proof.
  unfold intersect_file_system. destruct (new_matcher _ _ _) as [matcher|]; [|done].
  rewrite fold_push_map. set (accepted := fold_left push_entry_if_absent _ []).
  rewrite !retain_alt. intros [= <-]. exists accepted, matcher. split; [done|].
  intros e He. apply fold_push_inv in He as [He|He]; [by apply elem_of_nil in He|].
  apply list_elem_of_fmap in He as (g & -> & Hg). apply elem_of_filter_bool in Hg as [Hg Hw].
  by exists g.
Qed.

End Intersection.

Section Within.
Context {os : Os}.

Lemma resolve_entry_Some c e r :
  resolve_entry c e = Some r <-> resolve_entry_path (path e) c = Some (rpath r) /\ raccess r = access e.
Proof.
  unfold resolve_entry. destruct (resolve_entry_path _ _) as [q|].
  - split; [by intros [= <-]|]. destruct r; cbn. by intros [[= ->] ->].
  - by split; [|intros []].
Qed.

Lemma restricted_resolved es cwd r :
  r ∈ resolved_entries_with_cwd (restricted es) cwd <->
  exists e, e ∈ es /\ resolve_entry (ok (from_absolute cwd)) e = Some r.
Proof. unfold resolved_entries_with_cwd. by rewrite list_elem_of_omap. Qed.

Lemma paths_overlap_prefix (a b t : PathBuf) :
  a `prefix_of` t -> b `prefix_of` t -> paths_overlap a b = true.
Proof.
  intros Ha Hb. unfold paths_overlap. rewrite orb_true_iff, !path_starts_with_spec.
  destruct (prefix_weak_total a b t Ha Hb); auto.
Qed.

(** A deny of a source that meets an accepted grant is kept. *)
Lemma deny_is_kept cwd source accepted fe q d t :
  is_absolute cwd = true -> fe ∈ accepted -> access fe <> Deny ->
  resolve_entry_path (path fe) (ok (from_absolute cwd)) = Some q -> q `prefix_of` t ->
  d ∈ resolved_entries_with_cwd (restricted source) cwd -> raccess d = Deny ->
  rpath d `prefix_of` t ->
  exists k, k ∈ kept_denies source accepted cwd /\
    resolve_entry (ok (from_absolute cwd)) k = Some d.
Proof.
  intros Ha Hfe Hacc Hq Hqt (e & He & Hr)%restricted_resolved Hd Hdt.
  pose proof Hr as [Hre Hae]%resolve_entry_Some.
  exists (materialize_cwd_dependent_entry e cwd). split.
  - apply kept_deny. exists e. split_and!; [done|done|congruence|].
    apply existsb_exists. exists fe. split.
    { apply list_elem_of_In, elem_of_filter_bool. split; [done|]. by destruct (access fe). }
    rewrite permission_path_resolves, Hq by done.
    rewrite <- (permission_path_resolves _ _ Ha) in Hre.
    destruct (path e) as [p|g|v]; [|done|]; rewrite Hre; by eapply paths_overlap_prefix.
  - by rewrite materialize_resolves.
Qed.

(** Where the output grants, the source does not deny, once it does not
    deny the granted path itself. *)
Lemma source_not_denied source out cwd p t e :
  resolve_candidate_path p cwd = Some t ->
  decides (resolved_entries_with_cwd (restricted out) cwd) t e -> raccess e <> Deny ->
  normal_abs (rpath e) ->
  resolve_access_with_cwd (restricted source) (render (rpath e)) cwd <> Deny ->
  (forall d, d ∈ resolved_entries_with_cwd (restricted source) cwd -> raccess d = Deny ->
     rpath d `prefix_of` t -> d ∈ resolved_entries_with_cwd (restricted out) cwd) ->
  resolve_access_with_cwd (restricted source) p cwd <> Deny.
Proof.
  intros Ht (He & Hpe & Hmax) Hacc Hn Hown Hkept Hdeny.
  pose proof (candidate_render _ cwd Hn) as Hr.
  destruct (access_inv (restricted source) _ cwd _ eq_refl Hr)
    as [(s & (Hs & Hsp & Hsmax) & Hsa)|[? _]]; [|done].
  destruct (access_inv (restricted source) p cwd t eq_refl Ht)
    as [(d & (Hd & Hdp & Hdmax) & Hda)|[_ Hno]].
  - assert (raccess d = Deny) as Hdd by congruence.
    destruct (Hmax d (Hkept d Hd Hdd Hdp) Hdp) as [Hlt|[_ Hrank]].
    + assert (resolve_access_with_cwd (restricted source) (render (rpath e)) cwd = raccess d)
        as Heq; [|congruence].
      eapply access_decided; [done|done|]. split_and!; [done|by eapply prefix_length_lt|].
      intros x Hx Hxp. apply Hdmax; [done|]. by transitivity (rpath e).
    + rewrite Hdd in Hrank. by destruct (raccess e); cbn in Hrank; try lia.
  - apply (Hno s Hs). by transitivity (rpath e).
Qed.

(** The access at the path of a granted entry is not lost to a kept deny. *)
Lemma granted_own_access granted out cwd t g e :
  decides (resolved_entries_with_cwd (restricted out) cwd) t e -> raccess e <> Deny ->
  normal_abs (rpath e) -> g ∈ granted ->
  resolve_entry (ok (from_absolute cwd)) g = Some e ->
  (forall d, d ∈ resolved_entries_with_cwd (restricted granted) cwd -> raccess d = Deny ->
     rpath d `prefix_of` t -> d ∈ resolved_entries_with_cwd (restricted out) cwd) ->
  resolve_access_with_cwd (restricted granted) (render (rpath e)) cwd <> Deny.
Proof.
  intros (He & Hpe & Hmax) Hacc Hn Hg Hr Hkept Hdeny.
  assert (e ∈ resolved_entries_with_cwd (restricted granted) cwd) as Hin.
  { apply restricted_resolved. by exists g. }
  destruct (access_inv (restricted granted) _ cwd _ eq_refl (candidate_render _ cwd Hn))
    as [(d & (Hd & Hdp & Hdmax) & Hda)|[_ Hno]]; [|by apply (Hno e Hin)].
  assert (raccess d = Deny) as Hdd by congruence.
  destruct (Hdmax e Hin) as [Hlt|[Heq _]]; [done| |].
  - apply prefix_length in Hdp. lia.
  - assert (rpath d `prefix_of` t) as Hdt by by rewrite <- Heq.
    destruct (Hmax d (Hkept d Hd Hdd Hdt) Hdt) as [Hlt|[_ Hrank]]; [rewrite Heq in Hlt; lia|].
    rewrite Hdd in Hrank. by destruct (raccess e); cbn in Hrank; try lia.
Qed.

(** Where a grant of the intersection comes from. *)
Lemma intersect_grant cwd requested granted accepted matcher out e :
  is_absolute cwd = true ->
  out = fold_left push_entry_if_absent (kept_denies (fs_entries granted) accepted cwd)
    (fold_left push_entry_if_absent (kept_denies (fs_entries requested) accepted cwd) accepted) ->
  (forall e, e ∈ accepted -> exists g, g ∈ fs_entries granted /\
    e = materialize_cwd_dependent_entry g cwd /\
    granted_file_system_entry_within_request requested (restricted (fs_entries requested))
      matcher g cwd = true) ->
  e ∈ resolved_entries_with_cwd (restricted out) cwd -> raccess e <> Deny ->
  exists fe g, fe ∈ accepted /\ access fe = raccess e /\
    resolve_entry_path (path fe) (ok (from_absolute cwd)) = Some (rpath e) /\
    g ∈ fs_entries granted /\ resolve_entry (ok (from_absolute cwd)) g = Some e /\
    access_covers (resolve_access_with_cwd (restricted (fs_entries requested))
      (render (rpath e)) cwd) (raccess e) = true.
Proof.
  intros Ha -> Hacc (fe & Hfe & Hr)%restricted_resolved Hd.
  pose proof Hr as [Hre Hae]%resolve_entry_Some.
  assert (fe ∈ accepted) as Hin.
  { assert (forall source, fe ∉ kept_denies source accepted cwd) as Hno.
    { intros source (x & -> & _ & Hx & _)%kept_deny. rewrite materialize_access in Hae. congruence. }
    apply fold_push_inv in Hfe as [Hfe|Hfe]; [|by destruct (Hno (fs_entries granted))].
    apply fold_push_inv in Hfe as [Hfe|Hfe]; [done|by destruct (Hno (fs_entries requested))]. }
  destruct (Hacc fe Hin) as (g & Hg & -> & Hw). rewrite materialize_resolves in Hr by done.
  rewrite materialize_access in Hae. pose proof Hr as [Hrg _]%resolve_entry_Some.
  exists (materialize_cwd_dependent_entry g cwd), g. rewrite materialize_access.
  split_and!; try done.
  unfold granted_file_system_entry_within_request in Hw.
  destruct (can_read (access g)); [|done]. cbn [negb] in Hw.
  rewrite permission_path_resolves, Hrg in Hw by done. rewrite Hae.
  by destruct (match matcher with Some _ => _ | None => _ end).
Qed.

Lemma access_covers_grants requested granted :
  granted <> Deny -> access_covers requested granted = true ->
  requested <> Deny /\ (granted = Write -> requested = Write).
Proof. by destruct requested, granted. Qed.

(** Reads of the output are reads of both sides. *)
Lemma intersect_reads requested granted accepted matcher out cwd p t :
  is_absolute cwd = true -> policy_ok (restricted (fs_entries granted)) ->
  out = fold_left push_entry_if_absent (kept_denies (fs_entries granted) accepted cwd)
    (fold_left push_entry_if_absent (kept_denies (fs_entries requested) accepted cwd) accepted) ->
  (forall e, e ∈ accepted -> exists g, g ∈ fs_entries granted /\
    e = materialize_cwd_dependent_entry g cwd /\
    granted_file_system_entry_within_request requested (restricted (fs_entries requested))
      matcher g cwd = true) ->
  resolve_candidate_path p cwd = Some t ->
  can_read_path_with_cwd (restricted out) p cwd = true ->
  can_read_path_with_cwd (restricted (fs_entries requested)) p cwd = true /\
  can_read_path_with_cwd (restricted (fs_entries granted)) p cwd = true.
Proof.
  intros Ha Hokg Hent Hacc Ht Hread. unfold can_read_path_with_cwd in *.
  assert (forall a, can_read a = true <-> a <> Deny) as Hcr by by destruct a.
  rewrite !Hcr in *.
  destruct (access_inv (restricted out) p cwd t eq_refl Ht)
    as [(e & He & Hea)|[? _]]; [|done]. rewrite Hea in Hread.
  destruct (intersect_grant cwd requested granted accepted matcher out e Ha Hent Hacc
    (proj1 He) Hread) as (fe & g & Hfe & Hfa & Hfr & Hg & Hgr & Hcov).
  assert (normal_abs (rpath e)) as Hn.
  { apply (resolved_normal (restricted (fs_entries granted)) cwd); [done|].
    apply restricted_resolved. by exists g. }
  assert (forall source, (forall k, k ∈ kept_denies source accepted cwd -> exists k',
      k' ∈ out /\ entry_eqb k' k = true) ->
    forall d, d ∈ resolved_entries_with_cwd (restricted source) cwd -> raccess d = Deny ->
    rpath d `prefix_of` t -> d ∈ resolved_entries_with_cwd (restricted out) cwd)
    as Hkept.
  { intros source Hsub d Hd Hdd Hdt.
    destruct (deny_is_kept cwd source accepted fe (rpath e) d t) as (k & Hk & Hkr);
      try done; [congruence|apply He|].
    destruct (Hsub k Hk) as (k' & Hk' & Heq). apply restricted_resolved. exists k'.
    split; [done|]. rewrite (entry_eqb_resolves _ k); [done| |done].
    intros c Hc%ok_Some. by eapply from_absolute_normal. }
  apply access_covers_grants in Hcov as [Hcov _]; [|done].
  split; eapply source_not_denied; try done.
  + apply Hkept. intros k Hk. rewrite Hent.
    destruct (fold_push_has _ accepted k Hk) as (k' & Hk' & Heq). exists k'.
    split; [by apply fold_push_elem|done].
  + eapply granted_own_access; try done. apply Hkept. intros k Hk. rewrite Hent.
    by apply fold_push_has.
  + apply Hkept. intros k Hk. rewrite Hent. by apply fold_push_has.
Qed.

(** C9. Granting a request never goes beyond either side.  The intersection
    always exists.  A path that it lets be read may be read under the request
    and under the grant, with every deny of either taken into account; each
    write it contains is a write of the grant at that path that the request
    asked for; and the network is on only if both sides enable it. *)
Theorem intersection_within_both build_glob_matcher requested granted cwd :
  is_absolute cwd = true ->
  policy_ok (restricted (fs_entries requested)) -> policy_ok (restricted (fs_entries granted)) ->
  exists f, intersect_file_system build_glob_matcher requested granted cwd = Some f /\
  (forall p t, resolve_candidate_path p cwd = Some t ->
     can_read_path_with_cwd (restricted (fs_entries f)) p cwd = true ->
     can_read_path_with_cwd (restricted (fs_entries requested)) p cwd = true /\
     can_read_path_with_cwd (restricted (fs_entries granted)) p cwd = true) /\
  (forall w, w ∈ resolved_entries_with_cwd (restricted (fs_entries f)) cwd -> raccess w = Write ->
     w ∈ resolved_entries_with_cwd (restricted (fs_entries granted)) cwd /\
     resolve_access_with_cwd (restricted (fs_entries requested)) (render (rpath w)) cwd = Write) /\
  forall net net', intersect_permission_profiles build_glob_matcher
      (AdditionalPermissionProfileOf net (Some requested))
      (AdditionalPermissionProfileOf net' (Some granted)) cwd =
    Some (AdditionalPermissionProfileOf
      (if network_enabled net && network_enabled net'
       then Some (NetworkPermissionsOf (Some true)) else None) (nonempty_file_system f)).
Proof.
  intros Ha Hokr Hokg.
  destruct (intersect_file_system build_glob_matcher requested granted cwd) as [f|] eqn:Hf; cycle 1.
  { exfalso. unfold intersect_file_system in Hf. rewrite new_matcher_eq in Hf.
    rewrite !retain_alt in Hf. done. }
  destruct (intersect_parts _ _ _ _ _ Hf) as (accepted & matcher & Hent & Hacc).
  exists f. split; [done|]. split_and!.
  - intros p t Ht. by eapply intersect_reads.
  - intros w Hw Hww. assert (raccess w <> Deny) as Hnd by congruence.
    destruct (intersect_grant cwd requested granted accepted matcher (fs_entries f) w Ha Hent Hacc
      Hw Hnd) as (_ & g & _ & _ & _ & Hg & Hgr & Hcov).
    split; [apply restricted_resolved; by exists g|].
    apply access_covers_grants in Hcov as [_ Hcov]; auto.
  - intros net net'. unfold intersect_permission_profiles. cbn. by rewrite Hf.
Qed.

End Within.

(** ** Profiles *)

Section ProfileLemmas.
Context {os : Os}.

(** The invariant of the [NonZeroUsize] a profile holds. *)
Definition profile_ok (self : PermissionProfile) : Prop :=
  match self with
  | Managed (ManagedRestricted _ (Some n)) _ => n <> 0%N
  | _ => True
  end.

Lemma from_runtime_total e policy net :
  exists prof, from_runtime_permissions_with_enforcement e policy net = Some prof /\
    profile_ok prof.
Proof.
  unfold from_runtime_permissions_with_enforcement, managed_from_sandbox_policy.
  destruct (kind policy); [|destruct (decide _)|]; eexists; (split; [done|]); cbn; try done.
  destruct (glob_scan_max_depth policy) as [n|]; [|done]. cbn. unfold nonzero_new.
  by destruct (N.eqb_spec n 0).
Qed.

Lemma profile_runtime_roundtrip prof :
  profile_ok prof ->
  from_runtime_permissions_with_enforcement (enforcement prof)
    (file_system_sandbox_policy prof) (network_sandbox_policy prof) = Some prof.
Proof.
  destruct prof as [[es [n|]|] net| |net]; try done. cbn. intros Hn.
  unfold from_runtime_permissions_with_enforcement, managed_from_sandbox_policy. cbn.
  unfold nonzero_new. by rewrite (proj2 (N.eqb_neq n 0) Hn).
Qed.

(** Profiles and their runtime form are in correspondence.  Splitting a
    profile into its policies and enforcement and building it again gives the
    same profile, also as the effective profile without additional
    permissions; building never reaches the [unreachable!] of the code; and
    an older sandbox policy turned into a profile, and back, is itself up to
    repeated roots, with the enforcement it stands for. *)
Theorem profile_roundtrip :
  (forall prof, profile_ok prof ->
     from_runtime_permissions_with_enforcement (enforcement prof)
       (fst (to_runtime_permissions prof)) (snd (to_runtime_permissions prof)) = Some prof /\
     effective_permission_profile prof None = Some prof) /\
  (forall prof extra, exists eff, effective_permission_profile prof extra = Some eff /\
     profile_ok eff) /\
  (forall legacy cwd, exists prof, profile_from_legacy_sandbox_policy legacy = Some prof /\
     enforcement prof = enforcement_from_legacy legacy /\
     profile_to_legacy_sandbox_policy prof cwd =
       Ok match legacy with
          | WorkspaceWrite roots network et es =>
              WorkspaceWrite
                (dedup_absolute_paths (other_roots (ok (from_absolute cwd)) roots) false)
                network et es
          | _ => legacy
          end).
Proof.
  split_and!.
  - intros prof Hok. split; by apply profile_runtime_roundtrip.
  - intros prof extra. apply from_runtime_total.
  - intros legacy cwd. pose proof (legacy_roundtrip_eq legacy cwd) as Hr.
    by destruct legacy; eexists.
Qed.

Lemma merged_resolved policy f cwd r :
  r ∈ resolved_entries_with_cwd (merge_file_system_policy_with_additional_permissions policy f) cwd <->
  r ∈ resolved_entries_with_cwd policy cwd \/
  (kind policy = Restricted /\ r ∈ resolved_entries_with_cwd (restricted (fs_entries f)) cwd).
Proof.
  unfold merge_file_system_policy_with_additional_permissions.
  destruct (kind policy); [|by split; [left|intros [|[]]]..].
  unfold resolved_entries_with_cwd. cbn [entries restricted]. rewrite !list_elem_of_omap. split.
  - intros (e & [He|He]%fold_push_inv & Hr); [left|right; split; [done|]]; by exists e.
  - intros [(e & He & Hr)|[_ (e & He & Hr)]].
    + exists e. split; [by apply fold_push_elem|done].
    + destruct (fold_push_has (fs_entries f) (entries policy) e He) as (d & Hd & Heq).
      exists d. split; [done|]. rewrite (entry_eqb_resolves d e); [done| |done].
      intros c Hc%ok_Some. by eapply from_absolute_normal.
Qed.

(** Additional permissions add their entries and nothing else; a deny of the
    base policy then only yields to a more specific entry, and neither the
    kind of the policy nor an enabled network changes. *)
Theorem additional_permissions_effect policy network extra :
  let eff := effective_file_system_sandbox_policy policy (Some extra) in
  kind eff = kind policy /\
  (forall cwd r, r ∈ resolved_entries_with_cwd eff cwd <->
     r ∈ resolved_entries_with_cwd policy cwd \/
     (kind policy = Restricted /\ exists f, file_system extra = Some f /\
        r ∈ resolved_entries_with_cwd (restricted (fs_entries f)) cwd)) /\
  (forall cwd p t d, kind policy = Restricted -> resolve_candidate_path p cwd = Some t ->
     d ∈ resolved_entries_with_cwd policy cwd -> raccess d = Deny -> rpath d `prefix_of` t ->
     resolve_access_with_cwd eff p cwd = Deny \/
     exists x, x ∈ resolved_entries_with_cwd eff cwd /\ raccess x <> Deny /\
       rpath x `prefix_of` t /\ length (rpath d) < length (rpath x)) /\
  (network = NetworkEnabled ->
     effective_network_sandbox_policy network (Some extra) = NetworkEnabled).
Proof.
  cbn zeta. set (eff := effective_file_system_sandbox_policy policy (Some extra)).
  assert (kind eff = kind policy) as Hk.
  { unfold eff, effective_file_system_sandbox_policy.
    destruct (file_system extra) as [f|]; [|done]. destruct (file_system_is_empty f); [done|].
    unfold merge_file_system_policy_with_additional_permissions. by destruct (kind policy) eqn:E. }
  assert (forall cwd r, r ∈ resolved_entries_with_cwd eff cwd <->
     r ∈ resolved_entries_with_cwd policy cwd \/
     (kind policy = Restricted /\ exists f, file_system extra = Some f /\
        r ∈ resolved_entries_with_cwd (restricted (fs_entries f)) cwd)) as Hres.
  { intros cwd r. unfold eff, effective_file_system_sandbox_policy.
    destruct (file_system extra) as [f|].
    - destruct (file_system_is_empty f) eqn:Ef.
      + apply is_empty_true in Ef. split; [by left|].
        intros [|[_ (f' & [= <-] & Hr)]]; [done|].
        rewrite Ef in Hr. by apply elem_of_nil in Hr.
      + rewrite merged_resolved. split; [|by intros [|[? (f' & [= <-] & ?)]]; [left|right]].
        intros [|[? ?]]; [by left|right; split; [done|]]. by exists f.
    - split; [by left|]. by intros [|[_ (f' & ? & _)]]. }
  split_and!; [done|done| |by intros ->].
  intros cwd p t d Hkr Ht Hd Hdd Hdt. apply deny_reaches; try done; [congruence|].
  apply Hres. by left.
Qed.

End ProfileLemmas.

(** ** Storage *)

Lemma split_read_write_spec l read write read' write' :
  split_read_write l read write = Some (read', write') ->
  exists rs ws, read' = read ++ rs /\ write' = write ++ ws /\
    l ≡ₚ map (fun p => SandboxEntry (Path p) Read) rs ++
         map (fun p => SandboxEntry (Path p) Write) ws.
Proof.
  revert read write. induction l as [|[p a] l IH]; intros read write H; cbn in H.
  { injection H as <- <-. exists [], []. by rewrite !app_nil_r. }
  destruct p as [q|g|v]; [|done..]. destruct a; [..|done];
    apply IH in H as (rs & ws & -> & -> & Hl); rewrite <- !app_assoc.
  - exists (q :: rs), ws. split_and!; [done|done|]. cbn. by rewrite Hl.
  - exists rs, (q :: ws). split_and!; [done|done|]. cbn. rewrite Hl. apply Permutation_middle.
Qed.

Lemma split_reads rs ws read write :
  split_read_write (map (fun p => SandboxEntry (Path p) Read) rs ++
                    map (fun p => SandboxEntry (Path p) Write) ws) read write =
  Some (read ++ rs, write ++ ws).
Proof.
  revert read. induction rs as [|r rs IH]; intros read; cbn.
  - revert write. induction ws as [|w ws IH]; intros write; cbn; [by rewrite !app_nil_r|].
    by rewrite IH, <- app_assoc, app_nil_r.
  - by rewrite IH, <- app_assoc.
Qed.

Lemma path_entries_nonempty a l :
  path_entries a (some_nonempty l) = map (fun p => SandboxEntry (Path p) a) l.
Proof. by destruct l. Qed.

(** Stored file system permissions come back with the same entries and depth;
    the older form groups the reads before the writes, and storing the result
    again changes nothing. *)
Theorem permissions_storage_roundtrip f :
  fs_entries (deserialize (serialize f)) ≡ₚ fs_entries f /\
  fs_depth (deserialize (serialize f)) = fs_depth f /\
  deserialize (serialize (deserialize (serialize f))) = deserialize (serialize f).
Proof.
  unfold serialize at 1 2 4 5. unfold as_legacy_permissions. destruct f as [es depth].
  destruct depth as [n|]; cbn [fs_depth fs_entries]; [done|].
  destruct (split_read_write es [] []) as [[rs ws]|] eqn:E.
  - apply split_read_write_spec in E as (rs' & ws' & -> & -> & Hp). cbn [app deserialize].
    unfold from_read_write_roots. cbn [legacy_read legacy_write fs_entries fs_depth].
    rewrite !path_entries_nonempty. split_and!; [done|done|].
    unfold serialize, as_legacy_permissions. cbn [fs_depth fs_entries].
    rewrite split_reads. cbn. unfold from_read_write_roots. by rewrite !path_entries_nonempty.
  - cbn. split_and!; [done|done|]. unfold serialize, as_legacy_permissions. cbn. by rewrite E.
Qed.

(** ** At work *)

(** The intersection keeps the denies of a request but not its narrower read
    entries: below them the result may be written although the request asked
    for reads only. *)
Theorem intersection_drops_read_carveout :
  let requested := FileSystemPermissionsOf
    [SandboxEntry (Path (components "/a")) Write;
     SandboxEntry (Path (components "/a/ro")) Read] None in
  let granted := FileSystemPermissionsOf [SandboxEntry (Path (components "/a")) Write] None in
  exists f, intersect_file_system (os := repo_os) star_glob requested granted "/w" = Some f /\
    can_write_path_with_cwd (os := repo_os) (restricted (fs_entries requested)) "/a/ro/x" "/w" = false /\
    can_write_path_with_cwd (os := repo_os) (restricted (fs_entries f)) "/a/ro/x" "/w" = true.
Proof. eexists. split; [vm_compute; reflexivity|]. vm_compute. done. Qed.

Lemma intersection_within_both_witness :
  let requested := FileSystemPermissionsOf
    [SandboxEntry (Path (components "/a")) Write;
     SandboxEntry (Path (components "/a/secret")) Deny] None in
  let granted := FileSystemPermissionsOf [SandboxEntry (Path (components "/a")) Write] None in
  exists f, intersect_file_system (os := repo_os) star_glob requested granted "/w" = Some f /\
    can_read_path_with_cwd (os := repo_os) (restricted (fs_entries f)) "/a/x" "/w" = true /\
    can_read_path_with_cwd (os := repo_os) (restricted (fs_entries f)) "/a/secret/x" "/w" = false /\
    can_read_path_with_cwd (os := repo_os) (restricted (fs_entries requested)) "/a/x" "/w" = true.
Proof.
  intros requested granted.
  destruct (intersection_within_both (os := repo_os) star_glob requested granted "/w")
    as (f & Hf & Hread & _).
  - reflexivity.
  - repeat constructor; apply components_normal; reflexivity.
  - repeat constructor; apply components_normal; reflexivity.
  - exists f. split; [exact Hf|].
    assert (can_read_path_with_cwd (os := repo_os) (restricted (fs_entries f)) "/a/x" "/w" = true)
      as Ha by (vm_compute in Hf; injection Hf as <-; vm_compute; reflexivity).
    split; [exact Ha|]. split.
    + vm_compute in Hf. injection Hf as <-. vm_compute. reflexivity.
    + apply (Hread "/a/x" (components "/a/x")); [vm_compute; reflexivity|exact Ha].
Defined.

Lemma profile_roundtrip_witness :
  effective_permission_profile read_only None = Some read_only.
Proof. apply (proj1 (profile_roundtrip (os := repo_os)) read_only). exact I. Defined.
