(* ===== verification/IpAddr.v ===== *)
(** * Internet addresses as the standard library reads and classifies them

    [std::net::IpAddr]: the parser behind [str::parse::<IpAddr>] and the
    predicates the network proxy asks of an address
    ([network-proxy/src/policy.rs]), with the ranges [policy.rs] adds to them.
    The theorem says which intervals of addresses count as non-public. *)

From S2P Require Import Prelude RustStr.
#[local] Open Scope str_scope.

(** ** Addresses *)

(** The four octets, each below 256. *)
Record Ipv4Addr := mkV4 { v4_a : N; v4_b : N; v4_c : N; v4_d : N }.

(** The eight 16-bit segments. *)
Record Ipv6Addr := mkV6 { segments : list N }.

Inductive IpAddr :=
| V4 (ip : Ipv4Addr)
| V6 (ip : Ipv6Addr).

#[export] Instance Ipv4Addr_eq_dec : EqDecision Ipv4Addr.
Proof. solve_decision. Defined.
#[export] Instance Ipv6Addr_eq_dec : EqDecision Ipv6Addr.
Proof. solve_decision. Defined.
#[export] Instance IpAddr_eq_dec : EqDecision IpAddr.
Proof. solve_decision. Defined.

Definition octet (n : N) : bool := (n <? 256)%N.

Definition valid_v4 (ip : Ipv4Addr) : bool :=
  octet (v4_a ip) && octet (v4_b ip) && octet (v4_c ip) && octet (v4_d ip).

Definition valid_v6 (ip : Ipv6Addr) : bool :=
  (length (segments ip) =? 8) && forallb (fun s => s <? 65536)%N (segments ip).

Definition valid_ip (ip : IpAddr) : bool :=
  match ip with V4 ip => valid_v4 ip | V6 ip => valid_v6 ip end.

(** [u32::from(ip)] *)
Definition u32_from (ip : Ipv4Addr) : N :=
  (v4_a ip * 16777216 + v4_b ip * 65536 + v4_c ip * 256 + v4_d ip)%N.

(** ** Parsing *)

(** [char::to_digit] *)
Definition to_digit (radix : N) (c : char) : option N :=
  let digit :=
    if is_ascii_digit c then Some (c - 48)%N
    else if ((97 <=? c) && (c <=? 122))%N then Some (c - 87)%N
    else if ((65 <=? c) && (c <=? 90))%N then Some (c - 55)%N
    else None in
  d ← digit; if (d <? radix)%N then Some d else None.

(** The digits of a number, at most [max_digits] of them. *)
Fixpoint read_digits (radix : N) (max_digits count : nat) (acc : N) (s : str)
    : option (N * nat * str) :=
  match s with
  | [] => Some (acc, count, [])
  | c :: r =>
      match to_digit radix c with
      | None => Some (acc, count, s)
      | Some d =>
          if max_digits <? S count then None
          else read_digits radix max_digits (S count) (acc * radix + d)%N r
      end
  end.

Definition read_number (radix : N) (max_digits : nat) (allow_zero_prefix : bool)
    (limit : N) (s : str) : option (N * str) :=
  '(n, count, rest) ← read_digits radix max_digits 0 0%N s;
  if count =? 0 then None
  else if negb allow_zero_prefix && bool_decide (head s = Some 48%N) && (1 <? count) then None
  else if (n <? limit)%N then Some (n, rest) else None.

Definition read_given_char (c : char) (s : str) : option str :=
  match s with
  | x :: r => if (x =? c)%N then Some r else None
  | [] => None
  end.

Definition read_separator {T} (sep : char) (index : nat) (inner : str -> option (T * str))
    (s : str) : option (T * str) :=
  match index with
  | 0 => inner s
  | S _ => s ← read_given_char sep s; inner s
  end.

Definition read_ipv4_addr (s : str) : option (Ipv4Addr * str) :=
  let group i := read_separator 46%N i (read_number 10 3 false 256) in
  '(a, s) ← group 0 s;
  '(b, s) ← group 1 s;
  '(c, s) ← group 2 s;
  '(d, s) ← group 3 s;
  Some (mkV4 a b c d, s).

(** [slots] groups are left to fill; the flag tells that the groups end with
    an embedded IPv4 address. *)
Fixpoint read_groups (slots i : nat) (s : str) : list N * bool * str :=
  match slots with
  | 0 => ([], false, s)
  | S slots =>
      let ipv4 := if 0 <? slots then read_separator 58%N i read_ipv4_addr s else None in
      match ipv4 with
      | Some (ip, s) =>
          ([(v4_a ip * 256 + v4_b ip)%N; (v4_c ip * 256 + v4_d ip)%N], true, s)
      | None =>
          match read_separator 58%N i (read_number 16 4 true 65536) s with
          | Some (g, s) =>
              let '(gs, v4, s) := read_groups slots (S i) s in (g :: gs, v4, s)
          | None => ([], false, s)
          end
      end
  end.

Definition read_ipv6_addr (s : str) : option (Ipv6Addr * str) :=
  let '(front, head_ipv4, s) := read_groups 8 0 s in
  if length front =? 8 then Some (mkV6 front, s)
  else if head_ipv4 then None
  else
    s ← read_given_char 58%N s;
    s ← read_given_char 58%N s;
    let '(back, _, s) := read_groups (8 - (length front + 1)) 0 s in
    Some (mkV6 (front ++ repeat 0%N (8 - length front - length back) ++ back), s).

(** [host.parse::<IpAddr>().ok()] *)
Definition parse_ip (s : str) : option IpAddr :=
  match read_ipv4_addr s with
  | Some (ip, rest) => if is_empty rest then Some (V4 ip) else None
  | None =>
      '(ip, rest) ← read_ipv6_addr s;
      if is_empty rest then Some (V6 ip) else None
  end.

Example parse_ip_examples :
  parse_ip "127.0.0.1" = Some (V4 (mkV4 127 0 0 1)) /\
  parse_ip "127.0.0.01" = None /\ parse_ip "256.0.0.1" = None /\ parse_ip "1.2.3" = None /\
  parse_ip "::1" = Some (V6 (mkV6 [0; 0; 0; 0; 0; 0; 0; 1]%N)) /\
  parse_ip "fe80::aB" = Some (V6 (mkV6 [65152; 0; 0; 0; 0; 0; 0; 171]%N)) /\
  parse_ip "::ffff:10.0.0.1" = Some (V6 (mkV6 [0; 0; 0; 0; 0; 65535; 2560; 1]%N)) /\
  parse_ip "1:2:3:4:5:6:7:8" = Some (V6 (mkV6 [1; 2; 3; 4; 5; 6; 7; 8]%N)) /\
  parse_ip "1:2:3:4:5:6:7:8:9" = None /\ parse_ip "1::2::3" = None /\
  parse_ip "[::1]" = None /\ parse_ip "fe80::1%eth0" = None /\ parse_ip "" = None.
Proof. vm_compute. split_and!; reflexivity. Qed.

(** ** Classification *)

Module v4.
Definition is_loopback (ip : Ipv4Addr) : bool := (v4_a ip =? 127)%N.
Definition is_private (ip : Ipv4Addr) : bool :=
  ((v4_a ip =? 10)
   || ((v4_a ip =? 172) && ((16 <=? v4_b ip) && (v4_b ip <=? 31)))
   || ((v4_a ip =? 192) && (v4_b ip =? 168)))%N.
Definition is_link_local (ip : Ipv4Addr) : bool := ((v4_a ip =? 169) && (v4_b ip =? 254))%N.
Definition is_unspecified (ip : Ipv4Addr) : bool := bool_decide (ip = mkV4 0 0 0 0).
Definition is_multicast (ip : Ipv4Addr) : bool := ((224 <=? v4_a ip) && (v4_a ip <=? 239))%N.
Definition is_broadcast (ip : Ipv4Addr) : bool := bool_decide (ip = mkV4 255 255 255 255).
End v4.

Module v6.
Definition segment (ip : Ipv6Addr) : N := default 0%N (head (segments ip)).
Definition is_loopback (ip : Ipv6Addr) : bool := bool_decide (ip = mkV6 [0; 0; 0; 0; 0; 0; 0; 1]%N).
Definition is_unspecified (ip : Ipv6Addr) : bool :=
  bool_decide (ip = mkV6 [0; 0; 0; 0; 0; 0; 0; 0]%N).
Definition is_multicast (ip : Ipv6Addr) : bool := (N.shiftr (segment ip) 8 =? 255)%N.
Definition is_unique_local (ip : Ipv6Addr) : bool :=
  (N.land (segment ip) 65024 =? 64512)%N.
Definition is_unicast_link_local (ip : Ipv6Addr) : bool :=
  (N.land (segment ip) 65472 =? 65152)%N.
(** IPv4-compatible and IPv4-mapped addresses. *)
Definition to_ipv4 (ip : Ipv6Addr) : option Ipv4Addr :=
  match segments ip with
  | [0; 0; 0; 0; 0; m; ab; cd]%N =>
      if ((m =? 0) || (m =? 65535))%N
      then Some (mkV4 (ab / 256) (ab mod 256) (cd / 256) (cd mod 256))
      else None
  | _ => None
  end.
End v6.

(** [IpAddr::is_loopback] *)
Definition is_loopback (ip : IpAddr) : bool :=
  match ip with V4 ip => v4.is_loopback ip | V6 ip => v6.is_loopback ip end.

(** [u32::MAX << k], which drops the bits that leave the word. *)
Definition u32_mask (k : N) : N := (N.shiftl 4294967295 k mod 2 ^ 32)%N.

Definition ipv4_in_cidr (ip base : Ipv4Addr) (prefix : N) : bool :=
  let mask := if (prefix =? 0)%N then 0%N else u32_mask (32 - prefix) in
  (N.land (u32_from ip) mask =? N.land (u32_from base) mask)%N.

Definition is_non_public_ipv4 (ip : Ipv4Addr) : bool :=
  v4.is_loopback ip
  || v4.is_private ip
  || v4.is_link_local ip
  || v4.is_unspecified ip
  || v4.is_multicast ip
  || v4.is_broadcast ip
  || ipv4_in_cidr ip (mkV4 0 0 0 0) 8
  || ipv4_in_cidr ip (mkV4 100 64 0 0) 10
  || ipv4_in_cidr ip (mkV4 192 0 0 0) 24
  || ipv4_in_cidr ip (mkV4 192 0 2 0) 24
  || ipv4_in_cidr ip (mkV4 198 18 0 0) 15
  || ipv4_in_cidr ip (mkV4 198 51 100 0) 24
  || ipv4_in_cidr ip (mkV4 203 0 113 0) 24
  || ipv4_in_cidr ip (mkV4 240 0 0 0) 4.

Definition is_non_public_ipv6 (ip : Ipv6Addr) : bool :=
  match v6.to_ipv4 ip with
  | Some v4 => is_non_public_ipv4 v4 || v6.is_loopback ip
  | None =>
      v6.is_loopback ip
      || v6.is_unspecified ip
      || v6.is_multicast ip
      || v6.is_unique_local ip
      || v6.is_unicast_link_local ip
  end.

Definition is_non_public_ip (ip : IpAddr) : bool :=
  match ip with
  | V4 ip => is_non_public_ipv4 ip
  | V6 ip => is_non_public_ipv6 ip
  end.

(** ** The ranges, as intervals *)

(** The first and the last address of a block, as 32-bit numbers. *)
Definition non_public_v4_blocks : list (Ipv4Addr * Ipv4Addr) := [
  (mkV4 0 0 0 0, mkV4 0 255 255 255);
  (mkV4 10 0 0 0, mkV4 10 255 255 255);
  (mkV4 100 64 0 0, mkV4 100 127 255 255);
  (mkV4 127 0 0 0, mkV4 127 255 255 255);
  (mkV4 169 254 0 0, mkV4 169 254 255 255);
  (mkV4 172 16 0 0, mkV4 172 31 255 255);
  (mkV4 192 0 0 0, mkV4 192 0 0 255);
  (mkV4 192 0 2 0, mkV4 192 0 2 255);
  (mkV4 192 168 0 0, mkV4 192 168 255 255);
  (mkV4 198 18 0 0, mkV4 198 19 255 255);
  (mkV4 198 51 100 0, mkV4 198 51 100 255);
  (mkV4 203 0 113 0, mkV4 203 0 113 255);
  (mkV4 224 0 0 0, mkV4 239 255 255 255);
  (mkV4 240 0 0 0, mkV4 255 255 255 255)]%N.

Definition in_blocks (blocks : list (N * N)) (u : N) : bool :=
  existsb (fun b => (b.1 <=? u) && (u <=? b.2))%N blocks.

Definition v4_blocks : list (N * N) :=
  map (fun b => (u32_from b.1, u32_from b.2)) non_public_v4_blocks.

(** An IPv6 address as a 128-bit number. *)
Definition u128_from (ip : Ipv6Addr) : N :=
  fold_left (fun acc s => acc * 65536 + s)%N (segments ip) 0%N.

(** The addresses that embed a non-public IPv4 address, at [::/96] and at
    [::ffff:0:0/96], and the unique-local, link-local and multicast ones. *)
Definition v6_blocks : list (N * N) :=
  v4_blocks
  ++ map (fun b => (65535 * 2 ^ 32 + b.1, 65535 * 2 ^ 32 + b.2))%N v4_blocks
  ++ [(64512 * 2 ^ 112, 65024 * 2 ^ 112 - 1);
      (65152 * 2 ^ 112, 65216 * 2 ^ 112 - 1);
      (65280 * 2 ^ 112, 2 ^ 128 - 1)]%N.

Definition non_public_interval (ip : IpAddr) : bool :=
  match ip with
  | V4 ip => in_blocks v4_blocks (u32_from ip)
  | V6 ip => in_blocks v6_blocks (u128_from ip)
  end.

(** ** Lemmas *)

Lemma in_block_iff b u : in_blocks [b] u = true <-> (b.1 <= u <= b.2)%N.
Proof. unfold in_blocks. cbn. rewrite orb_false_r, andb_true_iff, !N.leb_le. done. Qed.

Lemma in_blocks_app l k u : in_blocks (l ++ k) u = in_blocks l u || in_blocks k u.
Proof. apply existsb_app. Qed.

(** Every block of [l] lies within a block of [k]. *)
Definition covered (l k : list (N * N)) : bool :=
  forallb (fun b => existsb (fun c => (c.1 <=? b.1) && (b.2 <=? c.2))%N k) l.

Lemma in_blocks_covered l k u : covered l k = true -> in_blocks l u = true -> in_blocks k u = true.
Proof.
  unfold covered, in_blocks. rewrite forallb_forall, !existsb_exists.
  intros Hc (b & Hb & Hu). apply Hc, existsb_exists in Hb as (c & Hc' & H).
  exists c. split; [done|]. rewrite andb_true_iff, !N.leb_le in *. lia.
Qed.

Lemma in_blocks_eq l k u :
  covered l k = true -> covered k l = true -> in_blocks l u = in_blocks k u.
Proof. intros H1 H2. apply eq_iff_eq_true. split; by apply in_blocks_covered. Qed.

(** Shifting the all-ones word of width [w] to the left gives the mask that
    keeps the bits from [k] on. *)
Definition high_mask (w k : N) : N := (N.shiftl (N.ones w) k mod 2 ^ w)%N.

Lemma high_mask_land w u k :
  (u < 2 ^ w)%N -> (k <= w)%N -> N.land u (high_mask w k) = N.shiftl (N.shiftr u k) k.
Proof.
  intros Hu Hk. apply N.bits_inj. intros i. rewrite N.land_spec. unfold high_mask.
  destruct (N.lt_ge_cases i w) as [Hi|Hi].
  - rewrite N.mod_pow2_bits_low by done.
    destruct (N.lt_ge_cases i k) as [Hik|Hik].
    + by rewrite !N.shiftl_spec_low, andb_false_r.
    + rewrite !N.shiftl_spec_high', N.shiftr_spec', N.ones_spec_low by (done || lia).
      rewrite andb_true_r. f_equal. lia.
  - rewrite N.mod_pow2_bits_high, andb_false_r by done.
    rewrite N.shiftl_spec_high', N.shiftr_spec' by lia.
    replace (i - k + k)%N with i by lia. symmetry.
    destruct (decide (u = 0%N)) as [->|Hu0]; [apply N.bits_0|].
    apply N.bits_above_log2. apply N.log2_lt_pow2; [lia|].
    eapply N.lt_le_trans; [done|]. by apply N.pow_le_mono_r.
Qed.

Lemma shiftr_shiftl_div u k : N.shiftl (N.shiftr u k) k = (u / 2 ^ k * 2 ^ k)%N.
Proof. by rewrite N.shiftl_mul_pow2, N.shiftr_div_pow2. Qed.

Lemma div_interval u m q :
  (0 < m)%N -> (u / m = q <-> q * m <= u <= q * m + (m - 1))%N.
Proof.
  intros Hm. pose proof (N.div_mod u m ltac:(lia)) as Hd.
  pose proof (N.mod_lt u m ltac:(lia)) as Hlt. split.
  - intros <-. rewrite (N.mul_comm (u / m)).
    revert Hd Hlt. generalize (m * (u / m))%N (u mod m)%N. lia.
  - intros [H1 H2]. symmetry. apply (N.div_unique u m q (u - q * m)); lia.
Qed.

Lemma u32_from_bound ip : valid_v4 ip = true -> (u32_from ip < 2 ^ 32)%N.
Proof.
  unfold valid_v4, octet, u32_from. rewrite !andb_true_iff, !N.ltb_lt.
  change (2 ^ 32)%N with 4294967296%N. lia.
Qed.

(** A CIDR test is membership in the block of the addresses that agree with
    the base above the prefix. *)
Lemma ipv4_in_cidr_block ip base prefix :
  valid_v4 ip = true -> valid_v4 base = true -> (prefix <= 32)%N ->
  let m := (2 ^ (32 - prefix))%N in
  let lo := (u32_from base / m * m)%N in
  ipv4_in_cidr ip base prefix = in_blocks [(lo, lo + (m - 1))%N] (u32_from ip).
Proof.
  intros Hi Hb Hp m lo. apply eq_iff_eq_true. rewrite in_block_iff. cbn [fst snd].
  apply u32_from_bound in Hi, Hb. unfold ipv4_in_cidr.
  assert (0 < m)%N as Hm by (apply N.neq_0_lt_0, N.pow_nonzero; lia).
  destruct (N.eqb_spec prefix 0) as [->|Hp0].
  - rewrite !N.land_0_r. split; [|done]. intros _.
    subst lo. rewrite N.div_small by exact Hb.
    change (2 ^ 32)%N with m in Hi. clearbody m. lia.
  - change (u32_mask (32 - prefix)) with (high_mask 32 (32 - prefix)).
    rewrite N.eqb_eq, !(high_mask_land 32), !shiftr_shiftl_div by (done || lia). fold m.
    subst lo. rewrite <- (div_interval _ m) by done. split; [|by intros ->].
    intros H. apply N.mul_cancel_r in H; [done|lia].
Qed.

(** The goal compares 32-bit numbers written in octets. *)
Ltac octets Hv :=
  unfold valid_v4, octet in Hv; rewrite !andb_true_iff, !N.ltb_lt in Hv;
  destruct Hv as [[[? ?] ?] ?];
  unfold u32_from; cbn [v4_a v4_b v4_c v4_d] in *.

Ltac blocks_iff :=
  apply eq_iff_eq_true; unfold in_blocks; cbn [existsb fst snd];
  rewrite ?orb_true_iff, ?andb_true_iff, ?orb_true_iff, ?andb_true_iff, ?N.eqb_eq, ?N.leb_le,
    ?bool_decide_eq_true.

Abbreviation block a b c d a' b' c' d' :=
  (u32_from (mkV4 a b c d), u32_from (mkV4 a' b' c' d')) (only parsing).

Section Ranges.
Variable ip : Ipv4Addr.
Hypothesis Hv : valid_v4 ip = true.
#[local] Open Scope N_scope.

Lemma is_loopback_block :
  v4.is_loopback ip = in_blocks [block 127 0 0 0 127 255 255 255] (u32_from ip).
Proof using Hv. unfold v4.is_loopback. blocks_iff. octets Hv. lia. Qed.

Lemma is_private_blocks :
  v4.is_private ip =
  in_blocks [block 10 0 0 0 10 255 255 255; block 172 16 0 0 172 31 255 255;
             block 192 168 0 0 192 168 255 255] (u32_from ip).
Proof using Hv. unfold v4.is_private. blocks_iff. octets Hv. lia. Qed.

Lemma is_link_local_block :
  v4.is_link_local ip = in_blocks [block 169 254 0 0 169 254 255 255] (u32_from ip).
Proof using Hv. unfold v4.is_link_local. blocks_iff. octets Hv. lia. Qed.

Lemma is_multicast_block :
  v4.is_multicast ip = in_blocks [block 224 0 0 0 239 255 255 255] (u32_from ip).
Proof using Hv. unfold v4.is_multicast. blocks_iff. octets Hv. lia. Qed.

Lemma is_unspecified_block :
  v4.is_unspecified ip = in_blocks [block 0 0 0 0 0 0 0 0] (u32_from ip).
Proof using Hv.
  unfold v4.is_unspecified. blocks_iff. destruct ip as [a b c d]. octets Hv.
  split; [intros [= -> -> -> ->]; lia|]. intros. f_equal; lia.
Qed.

Lemma is_broadcast_block :
  v4.is_broadcast ip = in_blocks [block 255 255 255 255 255 255 255 255] (u32_from ip).
Proof using Hv.
  unfold v4.is_broadcast. blocks_iff. destruct ip as [a b c d]. octets Hv.
  split; [intros [= -> -> -> ->]; lia|]. intros. f_equal; lia.
Qed.

Lemma is_non_public_ipv4_blocks :
  is_non_public_ipv4 ip = in_blocks v4_blocks (u32_from ip).
Proof using Hv.
  unfold is_non_public_ipv4.
  rewrite is_loopback_block, is_private_blocks, is_link_local_block, is_unspecified_block,
    is_multicast_block, is_broadcast_block.
  rewrite !ipv4_in_cidr_block by (done || exact Hv).
  rewrite <- !in_blocks_app. by apply in_blocks_eq; vm_compute.
Qed.
End Ranges.

(** ** IPv6 *)

(** [lia] with the equations of division by constants. *)
Ltac lia_div := zify; Z.to_euclidean_division_equations; lia.

Definition shift_block (off : N) (b : N * N) : N * N := (off + b.1, off + b.2)%N.

Lemma in_blocks_shift off l u :
  in_blocks (map (shift_block off) l) (off + u) = in_blocks l u.
Proof.
  induction l as [|b l IH]; [done|]. unfold in_blocks in *. cbn [map existsb]. rewrite IH. f_equal.
  apply eq_iff_eq_true. rewrite !andb_true_iff, !N.leb_le. cbn. lia.
Qed.

(** Blocks below [m] have no address from [m] on. *)
Lemma in_blocks_below l m u :
  forallb (fun b => b.2 <? m)%N l = true -> (m <= u)%N -> in_blocks l u = false.
Proof.
  intros Hl Hm. apply not_true_iff_false. unfold in_blocks. rewrite existsb_exists.
  intros (b & Hb & Hu). rewrite forallb_forall in Hl. apply Hl, N.ltb_lt in Hb.
  rewrite andb_true_iff, !N.leb_le in Hu. lia.
Qed.

Lemma in_blocks_above l m u :
  forallb (fun b => m <=? b.1)%N l = true -> (u < m)%N -> in_blocks l u = false.
Proof.
  intros Hl Hm. apply not_true_iff_false. unfold in_blocks. rewrite existsb_exists.
  intros (b & Hb & Hu). rewrite forallb_forall in Hl. apply Hl, N.leb_le in Hb.
  rewrite andb_true_iff, !N.leb_le in Hu. lia.
Qed.

Definition v6_only_blocks : list (N * N) :=
  [(64512 * 2 ^ 112, 65024 * 2 ^ 112 - 1);
   (65152 * 2 ^ 112, 65216 * 2 ^ 112 - 1);
   (65280 * 2 ^ 112, 2 ^ 128 - 1)]%N.

Lemma v6_blocks_parts u :
  in_blocks v6_blocks u =
  in_blocks v4_blocks u || (in_blocks (map (shift_block (65535 * 2 ^ 32)) v4_blocks) u
                            || in_blocks v6_only_blocks u).
Proof. unfold v6_blocks. by rewrite !in_blocks_app. Qed.

Lemma valid_v6_inv ip :
  valid_v6 ip = true ->
  exists a b c d e f g h, ip = mkV6 [a; b; c; d; e; f; g; h] /\
    Forall (fun s => s < 65536)%N [a; b; c; d; e; f; g; h].
Proof.
  destruct ip as [l]. unfold valid_v6. cbn [segments].
  intros [Hl%Nat.eqb_eq Hs]%andb_true_iff.
  do 8 (destruct l as [|? l]; [discriminate Hl|]). destruct l; [|discriminate Hl].
  do 8 eexists. split; [done|]. apply Forall_forall. intros x Hx%list_elem_of_In.
  rewrite forallb_forall in Hs. by apply N.ltb_lt, Hs.
Qed.

Lemma u128_segments a b c d e f g h :
  (u128_from (mkV6 [a; b; c; d; e; f; g; h]) =
   a * 2 ^ 112 + (b * 2 ^ 96 + c * 2 ^ 80 + d * 2 ^ 64 + e * 2 ^ 48
                  + f * 2 ^ 32 + g * 65536 + h))%N.
Proof.
  unfold u128_from. cbn [segments fold_left].
  change (2 ^ 112)%N with 5192296858534827628530496329220096%N.
  change (2 ^ 96)%N with 79228162514264337593543950336%N.
  change (2 ^ 80)%N with 1208925819614629174706176%N.
  change (2 ^ 64)%N with 18446744073709551616%N.
  change (2 ^ 48)%N with 281474976710656%N.
  change (2 ^ 32)%N with 4294967296%N. lia.
Qed.

Lemma to_ipv4_segments a b c d e f g h :
  v6.to_ipv4 (mkV6 [a; b; c; d; e; f; g; h]) =
  if bool_decide ([a; b; c; d; e] = repeat 0%N 5) && ((f =? 0) || (f =? 65535))%N
  then Some (mkV4 (g / 256) (g mod 256) (h / 256) (h mod 256)) else None.
Proof. unfold v6.to_ipv4. cbn [segments]. destruct a, b, c, d, e; reflexivity. Qed.

Lemma embedded_ipv4 g h :
  (g < 65536)%N -> (h < 65536)%N ->
  let ip := mkV4 (g / 256) (g mod 256) (h / 256) (h mod 256) in
  valid_v4 ip = true /\ u32_from ip = (g * 65536 + h)%N.
Proof.
  intros Hg Hh. unfold valid_v4, octet, u32_from. cbn [v4_a v4_b v4_c v4_d].
  rewrite !andb_true_iff, !N.ltb_lt. lia_div.
Qed.

Lemma segment_mask a k : (a < 65536)%N -> (k <= 16)%N ->
  N.land a (high_mask 16 k) = (a / 2 ^ k * 2 ^ k)%N.
Proof. intros Ha Hk. by rewrite high_mask_land, shiftr_shiftl_div. Qed.

Lemma first_segment_blocks a t r :
  (a < 65536)%N -> (r < 2 ^ 112)%N ->
  let ip := mkV6 (a :: t) in
  v6.is_multicast ip || v6.is_unique_local ip || v6.is_unicast_link_local ip
  = in_blocks v6_only_blocks (a * 2 ^ 112 + r)%N.
Proof.
  intros Ha Hr. unfold v6.is_multicast, v6.is_unique_local, v6.is_unicast_link_local, v6.segment.
  cbn [segments head default from_option id].
  change 65024%N with (high_mask 16 9). change 65472%N with (high_mask 16 6).
  rewrite !segment_mask, N.shiftr_div_pow2 by done.
  apply eq_iff_eq_true. unfold in_blocks, v6_only_blocks. cbn [existsb fst snd].
  rewrite !orb_true_iff, !andb_true_iff, !N.eqb_eq, !N.leb_le.
  change (2 ^ 128)%N with (65536 * 2 ^ 112)%N.
  change (2 ^ 8)%N with 256%N. change (2 ^ 9)%N with 512%N. change (2 ^ 6)%N with 64%N.
  revert Hr. generalize (2 ^ 112)%N. intros m Hr.
  assert (a / 256 = 255 <-> 65280 <= a)%N as -> by lia_div.
  assert (a / 512 * 512 = 64512 <-> 64512 <= a < 65024)%N as -> by lia_div.
  assert (a / 64 * 64 = 65152 <-> 65152 <= a < 65216)%N as -> by lia_div.
  nia.
Qed.

Lemma v4_blocks_bound : forallb (fun b => b.2 <? 2 ^ 32)%N v4_blocks = true.
Proof. by vm_compute. Qed.

(** Below [2^48] only the embedded IPv4 blocks matter. *)
Lemma low_blocks u :
  (u < 2 ^ 48)%N ->
  in_blocks v6_blocks u =
  in_blocks v4_blocks u || in_blocks (map (shift_block (65535 * 2 ^ 32)) v4_blocks) u.
Proof.
  intros Hu. rewrite v6_blocks_parts, (in_blocks_above v6_only_blocks (2 ^ 48)), orb_false_r;
    [done|by vm_compute|done].
Qed.

Lemma embedded_blocks f v :
  (f < 65536)%N -> (v < 2 ^ 32)%N ->
  in_blocks v6_blocks (f * 2 ^ 32 + v) =
  ((f =? 0) || (f =? 65535))%N && in_blocks v4_blocks v.
Proof.
  intros Hf Hv. rewrite low_blocks
    by (change (2 ^ 48)%N with (65536 * 2 ^ 32)%N; nia).
  destruct (N.eqb_spec f 0) as [->|Hf0]; cbn [orb andb].
  - rewrite (in_blocks_above (map _ _) (2 ^ 32)), orb_false_r; [done|by vm_compute|lia].
  - rewrite (in_blocks_below v4_blocks (2 ^ 32));
      [|apply v4_blocks_bound|nia].
    destruct (N.eqb_spec f 65535) as [->|Hf1]; cbn [orb andb].
    + apply in_blocks_shift.
    + apply (in_blocks_above _ (65535 * 2 ^ 32)); [by vm_compute|nia].
Qed.

Lemma high_segments a b c d e f g h :
  (b < 65536 /\ c < 65536 /\ d < 65536 /\ e < 65536 /\ f < 65536 /\ g < 65536 /\ h < 65536)%N ->
  [a; b; c; d; e] <> repeat 0%N 5 ->
  let r := (b * 2 ^ 96 + c * 2 ^ 80 + d * 2 ^ 64 + e * 2 ^ 48 + f * 2 ^ 32 + g * 65536 + h)%N in
  (r < 2 ^ 112 /\ 2 ^ 48 <= a * 2 ^ 112 + r)%N.
Proof.
  intros Hs H0.
  change (2 ^ 112)%N with 5192296858534827628530496329220096%N.
  change (2 ^ 96)%N with 79228162514264337593543950336%N.
  change (2 ^ 80)%N with 1208925819614629174706176%N.
  change (2 ^ 64)%N with 18446744073709551616%N.
  change (2 ^ 48)%N with 281474976710656%N.
  change (2 ^ 32)%N with 4294967296%N. cbn zeta.
  assert (0 < a \/ 0 < b \/ 0 < c \/ 0 < d \/ 0 < e)%N.
  { destruct a, b, c, d, e; try lia. by destruct H0. }
  lia.
Qed.

Lemma loopback_embedded ip :
  valid_v6 ip = true -> v6.is_loopback ip = true -> in_blocks v6_blocks (u128_from ip) = true.
Proof. intros _ H. unfold v6.is_loopback in H. apply bool_decide_eq_true in H as ->. by vm_compute. Qed.

Lemma is_non_public_ipv6_blocks ip :
  valid_v6 ip = true -> is_non_public_ipv6 ip = in_blocks v6_blocks (u128_from ip).
Proof.
  intros Hv. pose proof (loopback_embedded ip Hv) as Hloop.
  apply valid_v6_inv in Hv as (a & b & c & d & e & f & g & h & -> & Hs).
  rewrite !Forall_cons in Hs. destruct Hs as (Ha & Hb & Hc & Hd & He & Hf & Hg & Hh & _).
  revert Hloop. rewrite u128_segments. unfold is_non_public_ipv6.
  rewrite to_ipv4_segments. case_bool_decide as H0; cbn [andb].
  - injection H0 as -> -> -> -> ->. rewrite !N.mul_0_l, !N.add_0_l, <- N.add_assoc.
    assert (g * 65536 + h < 2 ^ 32)%N as Hlow by (change (2 ^ 32)%N with 4294967296%N; lia).
    rewrite embedded_blocks by done.
    destruct ((f =? 0) || (f =? 65535))%N eqn:E; cbn [andb].
    + destruct (embedded_ipv4 g h Hg Hh) as [Hval <-].
      rewrite <- is_non_public_ipv4_blocks by exact Hval.
      destruct (v6.is_loopback _); [by intros ->|by rewrite orb_false_r].
    + intros Hloop. destruct (v6.is_loopback _) eqn:El; [by specialize (Hloop eq_refl)|].
      unfold v6.is_unspecified. rewrite bool_decide_eq_false_2; [done|].
      intros [= -> -> ->]. discriminate E.
  - intros Hloop. clear Hloop. unfold v6.is_loopback, v6.is_unspecified.
    rewrite !bool_decide_eq_false_2 by (intros [= -> -> -> -> ->]; by destruct H0). cbn [orb].
    destruct (high_segments a b c d e f g h) as [Hr Hu]; [done..|].
    rewrite (first_segment_blocks a _ _ Ha Hr).
    rewrite v6_blocks_parts, (in_blocks_below v4_blocks (2 ^ 48)),
      (in_blocks_below (map _ _) (2 ^ 48)); done || by vm_compute.
Qed.

(** ** A parsed address is an address *)

Lemma read_number_bound radix k z limit s n rest :
  read_number radix k z limit s = Some (n, rest) -> (n < limit)%N.
Proof.
  unfold read_number. destruct (read_digits _ _ _ _ _) as [[[m c] r]|]; [|done].
  cbn. destruct (c =? 0); [done|]. destruct (_ && _ && _); [done|].
  destruct (N.ltb_spec m limit); [|done]. by intros [= <- _].
Qed.

Lemma read_separator_inv {T} sep i (inner : str -> option (T * str)) s x rest :
  read_separator sep i inner s = Some (x, rest) -> exists s', inner s' = Some (x, rest).
Proof.
  destruct i; cbn; [by exists s|]. destruct (read_given_char sep s) as [s'|]; [|done].
  cbn. by exists s'.
Qed.

Lemma read_ipv4_valid s ip rest : read_ipv4_addr s = Some (ip, rest) -> valid_v4 ip = true.
Proof.
  unfold read_ipv4_addr. intros H.
  repeat match type of H with
  | context [read_separator ?c ?i ?f ?t] =>
      destruct (read_separator c i f t) as [[? ?]|] eqn:?E; cbn [mbind option_bind] in H;
        [|done]
  end.
  injection H as <- <-. unfold valid_v4, octet. cbn [v4_a v4_b v4_c v4_d].
  rewrite !andb_true_iff, !N.ltb_lt.
  split_and!; match goal with
  | E : read_separator _ _ _ _ = Some (?n, _) |- (?n < _)%N =>
      apply read_separator_inv in E as [? E]; by apply read_number_bound in E
  end.
Qed.

Lemma read_groups_valid slots i s gs v4 rest :
  read_groups slots i s = (gs, v4, rest) ->
  length gs <= slots /\ Forall (fun g => g < 65536)%N gs.
Proof.
  revert i s gs v4 rest. induction slots as [|slots IH]; intros i s gs v4 rest; cbn [read_groups].
  { intros [= <- <- <-]. split; [done|constructor]. }
  destruct (if 0 <? slots then _ else _) as [[ip t]|] eqn:E4.
  - intros [= <- <- <-]. destruct (Nat.ltb_spec 0 slots); [|done].
    apply read_separator_inv in E4 as [? Hv%read_ipv4_valid]. unfold valid_v4, octet in Hv.
    rewrite !andb_true_iff, !N.ltb_lt in Hv. split; [cbn; lia|].
    repeat constructor; lia.
  - destruct (read_separator 58%N i (read_number 16 4 true 65536) s) as [[g t]|] eqn:E6.
    + destruct (read_groups slots (S i) t) as [[gs' b'] t'] eqn:Er.
      intros [= <- <- <-]. apply IH in Er as [Hl Hg]. split; [cbn; lia|].
      constructor; [|done]. apply read_separator_inv in E6 as [? E6].
      by apply read_number_bound in E6.
    + intros [= <- <- <-]. split; [cbn; lia|constructor].
Qed.

Lemma read_ipv6_valid s ip rest : read_ipv6_addr s = Some (ip, rest) -> valid_v6 ip = true.
Proof.
  unfold read_ipv6_addr. destruct (read_groups 8 0 s) as [[front h4] s1] eqn:Ef.
  apply read_groups_valid in Ef as [Hlf Hf].
  assert (forall l, length l = 8 -> Forall (fun g => g < 65536)%N l -> valid_v6 (mkV6 l) = true)
    as Hok.
  { intros l Hlen Hl. unfold valid_v6. cbn [segments]. rewrite Hlen.
    apply andb_true_iff. split; [done|]. apply forallb_forall. intros x Hx%list_elem_of_In.
    rewrite Forall_forall in Hl. by apply N.ltb_lt, Hl. }
  destruct (Nat.eqb_spec (length front) 8) as [E|E]; [intros [= <- <-]; by apply Hok|].
  destruct h4; [done|].
  destruct (read_given_char 58%N s1) as [s2|]; [|done]. cbn [mbind option_bind].
  destruct (read_given_char 58%N s2) as [s3|]; [|done]. cbn [mbind option_bind].
  destruct (read_groups (8 - (length front + 1)) 0 s3) as [[back b4] s4] eqn:Eb.
  apply read_groups_valid in Eb as [Hlb Hb].
  intros [= <- <-]. apply Hok.
  - rewrite !length_app, repeat_length. lia.
  - rewrite !Forall_app. split_and!; [done| |done].
    apply Forall_forall. intros x Hx%list_elem_of_In%repeat_spec. by subst x.
Qed.

Lemma parse_ip_valid s ip : parse_ip s = Some ip -> valid_ip ip = true.
Proof.
  unfold parse_ip. destruct (read_ipv4_addr s) as [[v rest]|] eqn:E4.
  - destruct (is_empty rest); [|done]. intros [= <-]. by apply read_ipv4_valid in E4.
  - destruct (read_ipv6_addr s) as [[v rest]|] eqn:E6; [|done]. cbn.
    destruct (is_empty rest); [|done]. intros [= <-]. by apply read_ipv6_valid in E6.
Qed.

(** ** What counts as non-public *)

(** The classification the proxy relies on is the one of the address
    blocks: an IPv4 address is non-public exactly when it lies in one of the
    listed blocks, so every mask comparison is an interval; an IPv6 address
    exactly when it embeds such an address (compatible or mapped form) or is
    unique-local, link-local or multicast.  No way to write an embedded
    address escapes the test. *)
Theorem is_non_public_ip_blocks ip :
  valid_ip ip = true -> is_non_public_ip ip = non_public_interval ip.
Proof.
  destruct ip as [ip|ip]; cbn [valid_ip is_non_public_ip non_public_interval].
  - apply is_non_public_ipv4_blocks.
  - apply is_non_public_ipv6_blocks.
Qed.

Lemma is_non_public_ip_blocks_witness :
  let ip := V6 (mkV6 [0; 0; 0; 0; 0; 65535; 2560; 1]%N) in
  valid_ip ip = true /\ is_non_public_ip ip = true.
Proof.
  split; [reflexivity|]. rewrite is_non_public_ip_blocks by reflexivity. vm_compute. reflexivity.
Defined.
