(* ===== verification/NetHost.v ===== *)
(** * Hosts and domain patterns of the network proxy

    [network-proxy/src/policy.rs]: how a host is normalised, how a domain
    pattern is normalised, expanded and compiled to a set of globs, and the
    comparison of patterns that keeps a configuration within its managed
    constraints.  Globs ([globset]) and [url::Host::parse] are parameters. *)

From S2P Require Import Prelude RustStr ExecRule IpAddr.
#[local] Open Scope str_scope.

(** [anyhow::Error]: the chain of its messages, the outermost first. *)
Abbreviation Anyhow := (list str).

Definition with_context {A} (context : str) (r : result Anyhow A) : result Anyhow A :=
  map_err (cons context) r.

(** What the proxy uses of [globset]: a builder with its options, and a set
    that matches when one of its globs does. *)
Class Globs := {
  Glob : Type;
  GlobSet : Type;
  glob_build (case_insensitive literal_separator : bool) : str -> result Anyhow Glob;
  glob_is_match : Glob -> str -> bool;
  globset_build : list Glob -> result Anyhow GlobSet;
  globset_is_match : GlobSet -> str -> bool;
  globset_is_match_any globs set h :
    globset_build globs = Ok set ->
    globset_is_match set h = existsb (fun g => glob_is_match g h) globs
}.

(** What it uses of the [url] crate: [url::Host::parse] followed by
    [to_string], and the host and port of [Url::parse]. *)
Class Urls := {
  url_host_parse : str -> option str;
  url_parse : str -> option (option str * option N)
}.

(** ** Normalisation *)

Definition DOT : char := 46%N.
Definition trim_dots : str -> str := trim_end_matches (N.eqb DOT).

(** [s.split_once(p)] for a string delimiter. *)
Fixpoint split_once_str (p s : str) : option (str * str) :=
  match strip_prefix p s with
  | Some r => Some ([], r)
  | None =>
      match s with
      | [] => None
      | c :: s => '(a, b) ← split_once_str p s; Some (c :: a, b)
      end
  end.

Definition unscoped_ip_literal (host : str) : option str :=
  '(ip, _) ← split_once 37%N host;
  _ ← parse_ip ip;
  Some ip.

Fixpoint normalize_scoped (delimiters : list str) (host : str) : option str :=
  match delimiters with
  | [] => None
  | delimiter :: rest =>
      match split_once_str delimiter host with
      | Some (ip, scope) =>
          match parse_ip ip with
          | Some _ => Some (ip ++ "%" ++ scope)
          | None => normalize_scoped rest host
          end
      | None => normalize_scoped rest host
      end
  end.

Definition normalize_ip_literal (host : str) : option str :=
  match parse_ip host with
  | Some _ => Some host
  | None => normalize_scoped ["%25"; "%"] host
  end.

Definition normalize_dns_host_or_ip_literal (host : str) : str :=
  let host := trim_dots (to_ascii_lowercase host) in
  match normalize_ip_literal host with
  | Some ip => ip
  | None => host
  end.

Definition normalize_host (host : str) : str :=
  let host := trim host in
  let bracketed :=
    rest ← strip_prefix "[" host;
    '(inside, _) ← split_once 93%N rest;
    Some inside in
  match bracketed with
  | Some inside => normalize_dns_host_or_ip_literal inside
  | None =>
      if count_char 58%N host =? 1
      then normalize_dns_host_or_ip_literal (default [] (head (split 58%N host)))
      else normalize_dns_host_or_ip_literal host
  end.

(** [Host] is the normalised, non-empty host. *)
Record Host := mkHost { as_str : str }.

Definition Host_parse (input : str) : result Anyhow Host :=
  let normalized := normalize_host input in
  if is_empty normalized then Err ["host is empty"] else Ok (mkHost normalized).

Definition is_loopback_host (host : Host) : bool :=
  let host := default (as_str host) (unscoped_ip_literal (as_str host)) in
  if bool_decide (host = "localhost") then true
  else match parse_ip host with
       | Some ip => is_loopback ip
       | None => false
       end.

Definition normalize_pattern (pattern : str) : str :=
  let pattern := trim pattern in
  if bool_decide (pattern = "*") then "*"
  else
    let '(prefix, remainder) :=
      match strip_prefix "**." pattern with
      | Some domain => ("**.", domain)
      | None =>
          match strip_prefix "*." pattern with
          | Some domain => ("*.", domain)
          | None => ("", pattern)
          end
      end in
    let remainder := normalize_host remainder in
    if is_empty prefix then remainder else prefix ++ remainder.

Example normalize_host_examples :
  normalize_host " Example.COM.:443" = "example.com" /\
  normalize_host "[2001:DB8::1]:443" = "2001:db8::1" /\
  normalize_host "fe80::1%25eth0" = "fe80::1%eth0" /\
  normalize_host "[fe80::1%25ETH0]" = "fe80::1%eth0" /\
  normalize_host "2001:db8::1" = "2001:db8::1" /\
  normalize_pattern " **.Example.com. " = "**.example.com" /\
  normalize_host "..." = "" /\
  is_loopback_host (mkHost "127.0.0.1%x") = true /\
  (* One pass is not always enough. *)
  normalize_host "[example.com:80]" = "example.com:80" /\
  normalize_host "example.com:80" = "example.com".
Proof. vm_compute. split_and!; reflexivity. Qed.

(** ** Domain patterns *)

Inductive DomainPattern :=
| ApexAndSubdomains (domain : str)
| SubdomainsOnly (domain : str)
| Exact (domain : str).

#[export] Instance DomainPattern_eq_dec : EqDecision DomainPattern.
Proof. solve_decision. Defined.

Definition parse_domain (domain : str) (build : str -> DomainPattern) : DomainPattern :=
  let domain := trim domain in
  if is_empty domain then Exact [] else build domain.

(** [DomainPattern::parse] *)
Definition DomainPattern_parse (input : str) : DomainPattern :=
  let input := trim input in
  if is_empty input then Exact []
  else
    match strip_prefix "**." input with
    | Some domain => parse_domain domain ApexAndSubdomains
    | None =>
        match strip_prefix "*." input with
        | Some domain => parse_domain domain SubdomainsOnly
        | None => Exact input
        end
    end.

Definition normalize_domain (domain : str) : str := to_ascii_lowercase (trim_dots domain).

Definition domain_eq (left_ right_ : str) : bool :=
  bool_decide (normalize_domain left_ = normalize_domain right_).

Definition is_subdomain_or_equal (child parent : str) : bool :=
  let child := normalize_domain child in
  let parent := normalize_domain parent in
  bool_decide (child = parent) || ends_with child ("." ++ parent).

Definition is_strict_subdomain (child parent : str) : bool :=
  let child := normalize_domain child in
  let parent := normalize_domain parent in
  bool_decide (child <> parent) && ends_with child ("." ++ parent).

Definition allows (self candidate : DomainPattern) : bool :=
  match self with
  | Exact domain =>
      match candidate with
      | Exact candidate => domain_eq candidate domain
      | _ => false
      end
  | SubdomainsOnly domain =>
      match candidate with
      | Exact candidate => is_strict_subdomain candidate domain
      | SubdomainsOnly candidate => is_subdomain_or_equal candidate domain
      | ApexAndSubdomains candidate => is_strict_subdomain candidate domain
      end
  | ApexAndSubdomains domain =>
      match candidate with
      | Exact candidate => is_subdomain_or_equal candidate domain
      | SubdomainsOnly candidate => is_subdomain_or_equal candidate domain
      | ApexAndSubdomains candidate => is_subdomain_or_equal candidate domain
      end
  end.

Definition expand_domain_pattern (pattern : str) : list str :=
  match DomainPattern_parse pattern with
  | Exact domain => [domain]
  | SubdomainsOnly domain => ["?*." ++ domain]
  | ApexAndSubdomains domain => [domain; "?*." ++ domain]
  end.

Definition is_global_wildcard_domain_pattern (pattern : str) : bool :=
  existsb (fun candidate => bool_decide (candidate = "*"))
    (expand_domain_pattern (normalize_pattern pattern)).

Section Constraints.
Context {urls : Urls}.

Definition parse_domain_for_constraints (domain : str) : str :=
  let domain := trim_dots (trim domain) in
  if is_empty domain then []
  else
    let host :=
      if starts_with domain "[" && ends_with domain "]"
      then take (length domain - 2) (drop 1 domain)
      else domain in
    if contains_char host 42%N || contains_char host 63%N || contains_char host 37%N
    then domain
    else default [] (url_host_parse host).

Definition parse_for_constraints (input : str) : DomainPattern :=
  let input := trim input in
  if is_empty input then Exact []
  else
    match strip_prefix "**." input with
    | Some domain => ApexAndSubdomains (parse_domain_for_constraints domain)
    | None =>
        match strip_prefix "*." input with
        | Some domain => SubdomainsOnly (parse_domain_for_constraints domain)
        | None => Exact (parse_domain_for_constraints input)
        end
    end.
End Constraints.

(** ** Sets of patterns *)

Inductive GlobalWildcard := WildcardAllow | WildcardReject.

Section Compile.
Context {globs : Globs}.

(** The candidates of one pattern that were not seen before. *)
Fixpoint add_candidates (candidates : list str) (seen : gset str) (builder : list Glob)
    : result Anyhow (gset str * list Glob) :=
  match candidates with
  | [] => Ok (seen, builder)
  | candidate :: rest =>
      if decide (candidate ∈ seen) then add_candidates rest seen builder
      else
        glob ← with_context ("invalid glob pattern: " ++ candidate)
                 (glob_build true false candidate);
        add_candidates rest ({[candidate]} ∪ seen) (builder ++ [glob])
  end.

Fixpoint add_patterns (patterns : list str) (global_wildcard : GlobalWildcard)
    (seen : gset str) (builder : list Glob) : result Anyhow (list Glob) :=
  match patterns with
  | [] => Ok builder
  | pattern :: rest =>
      if match global_wildcard with
         | WildcardReject => is_global_wildcard_domain_pattern pattern
         | WildcardAllow => false
         end
      then Err ["unsupported global wildcard domain pattern " ++ [34; 42; 34]%N
                ++ "; use exact hosts or scoped wildcards like *.example.com or **.example.com"]
      else
        '(seen, builder) ←
          add_candidates (expand_domain_pattern (normalize_pattern pattern)) seen builder;
        add_patterns rest global_wildcard seen builder
  end.

Definition compile_globset_with_policy (patterns : list str) (global_wildcard : GlobalWildcard)
    : result Anyhow GlobSet :=
  builder ← add_patterns patterns global_wildcard ∅ [];
  globset_build builder.

Definition compile_allowlist_globset (patterns : list str) : result Anyhow GlobSet :=
  compile_globset_with_policy patterns WildcardAllow.

Definition compile_denylist_globset (patterns : list str) : result Anyhow GlobSet :=
  compile_globset_with_policy patterns WildcardReject.
End Compile.

(** ** Subdomains *)

(** [h] is a subdomain of [d], at least one character longer than its dot. *)
Definition strict_subdomain (h d : str) : Prop := exists x, x <> [] /\ h = x ++ [DOT] ++ d.

Lemma ends_with_spec s p : ends_with s p = true <-> exists x, s = x ++ p.
Proof.
  unfold ends_with. rewrite bool_decide_eq_true. split.
  - intros [x Hx]. apply strip_suffix_Some in Hx. by exists x.
  - intros [x ->]. exists x. by apply strip_suffix_Some.
Qed.

Lemma is_subdomain_or_equal_spec c d :
  is_subdomain_or_equal c d = true <->
  normalize_domain c = normalize_domain d \/
  exists x, normalize_domain c = x ++ [DOT] ++ normalize_domain d.
Proof. unfold is_subdomain_or_equal. by rewrite orb_true_iff, bool_decide_eq_true, ends_with_spec. Qed.

Lemma is_strict_subdomain_spec c d :
  is_strict_subdomain c d = true <-> exists x, normalize_domain c = x ++ [DOT] ++ normalize_domain d.
Proof.
  unfold is_strict_subdomain. rewrite andb_true_iff, bool_decide_eq_true, ends_with_spec.
  split; [by intros [_ H]|]. intros [x Hx]. split; [|by exists x].
  rewrite Hx. intros E%(f_equal length). rewrite !length_app in E. cbn in E. lia.
Qed.

(** A longer suffix below a domain is a suffix of that domain. *)
Lemma subdomain_of_subdomain x c y d :
  y <> [] -> x :: [DOT] ++ c = y ++ [DOT] ++ d -> c = d \/ exists z, c = z ++ [DOT] ++ d.
Proof.
  intros Hy H. destruct y as [|y0 y]; [done|]. injection H as -> H.
  destruct y as [|y1 y]; injection H as H; [by left|]. right. by exists y.
Qed.

Lemma strict_subdomain_trans h c d :
  strict_subdomain h c -> c = d \/ (exists x, c = x ++ [DOT] ++ d) -> strict_subdomain h d.
Proof.
  intros (x & Hx & ->) [->|[y ->]]; [by exists x|].
  exists (x ++ [DOT] ++ y). split; [by destruct x|]. by rewrite <- !app_assoc.
Qed.

Lemma dotless_strict c d :
  head c <> Some DOT -> (exists x, c = x ++ [DOT] ++ d) -> strict_subdomain c d.
Proof. intros Hc [x ->]. exists x. split; [|done]. by intros ->. Qed.

(** The subdomain [z.c] of [c]. *)
Lemma child_of (z : char) c : strict_subdomain (z :: [DOT] ++ c) c.
Proof. by exists [z]. Qed.

Lemma child_of_inv (z : char) c d :
  strict_subdomain (z :: [DOT] ++ c) d -> c = d \/ exists x, c = x ++ [DOT] ++ d.
Proof. intros (y & Hy & H). by apply (subdomain_of_subdomain z c y d). Qed.

(** ** What a compiled set matches *)

(** The globs of one pattern. *)
Definition pattern_candidates (p : str) : list str := expand_domain_pattern (normalize_pattern p).

Section Matching.
Context {globs : Globs}.

Definition glob_matches (candidate h : str) : bool :=
  match glob_build true false candidate with
  | Ok g => glob_is_match g h
  | Err _ => false
  end.

Definition pattern_matches (h p : str) : bool :=
  existsb (fun c => glob_matches c h) (pattern_candidates p).

Definition builder_matches (seen : gset str) (builder : list Glob) : Prop :=
  forall h, existsb (fun g => glob_is_match g h) builder = true <->
            exists c, c ∈ seen /\ glob_matches c h = true.

Lemma builder_matches_add seen builder c g :
  builder_matches seen builder -> glob_build true false c = Ok g ->
  builder_matches ({[c]} ∪ seen) (builder ++ [g]).
Proof.
  intros Hb Hg h. rewrite existsb_app, orb_true_iff, (Hb h). cbn [existsb]. rewrite orb_false_r.
  assert (glob_matches c h = glob_is_match g h) as <- by (unfold glob_matches; by rewrite Hg).
  split.
  - intros [(d & Hd & Hm)|Hm]; [exists d|exists c]; (split; [|done]); apply elem_of_union;
      [by right|left; by apply elem_of_singleton].
  - intros (d & [->%elem_of_singleton|Hd]%elem_of_union & Hm); [by right|left]. by exists d.
Qed.

Lemma add_candidates_matches cs seen builder seen' builder' :
  add_candidates cs seen builder = Ok (seen', builder') ->
  builder_matches seen builder ->
  builder_matches seen' builder' /\ (forall c, c ∈ seen' <-> c ∈ seen \/ c ∈ cs).
Proof.
  revert seen builder. induction cs as [|c cs IH]; intros seen builder; cbn [add_candidates].
  { intros [= <- <-] Hb. split; [done|]. intros c. split; [by left|]. intros [?|Hn]; [done|]. by apply not_elem_of_nil in Hn. }
  destruct (decide (c ∈ seen)) as [Hc|Hc].
  - intros H Hb. destruct (IH _ _ H Hb) as [Hb' Hs]. split; [done|].
    intros d. rewrite Hs, elem_of_cons. split; [tauto|]. intros [?|[->|?]]; auto.
  - destruct (glob_build true false c) as [g|e] eqn:Hg; [|done]. cbn [with_context map_err].
    intros H Hb. destruct (IH _ _ H) as [Hb' Hs]; [by apply builder_matches_add|].
    split; [done|]. intros d. rewrite Hs, elem_of_union, elem_of_singleton, elem_of_cons. tauto.
Qed.

Lemma add_patterns_matches ps gw seen builder builder' :
  add_patterns ps gw seen builder = Ok builder' ->
  builder_matches seen builder ->
  exists seen', builder_matches seen' builder' /\
    (forall c, c ∈ seen' <-> c ∈ seen \/ exists p, p ∈ ps /\ c ∈ pattern_candidates p).
Proof.
  revert seen builder. induction ps as [|p ps IH]; intros seen builder; cbn [add_patterns].
  { intros [= <-] Hb. exists seen. split; [done|]. intros c. split; [by left|].
    intros [?|(p & Hp & _)]; [done|]. by apply not_elem_of_nil in Hp. }
  destruct (match gw with WildcardAllow => false | _ => _ end); [done|].
  destruct (add_candidates _ seen builder) as [[seen1 builder1]|] eqn:E; [|done].
  cbn [mbind result_bind]. intros H Hb.
  apply add_candidates_matches in E as [Hb1 Hs1]; [|done].
  destruct (IH _ _ H Hb1) as (seen' & Hb' & Hs'). exists seen'. split; [done|].
  intros c. rewrite Hs', Hs1. split.
  - intros [[?|?]|(q & Hq & Hc)]; [by left|right; exists p|right; exists q];
      (split; [|done]); [by left|by right].
  - intros [?|(q & [->|Hq]%elem_of_cons & Hc)]; [by left; left|by left; right|right].
    by exists q.
Qed.

(** A compiled set matches what the globs of its patterns match: skipping
    repeated candidates loses nothing. *)
Lemma compile_globset_matches ps gw set h :
  compile_globset_with_policy ps gw = Ok set ->
  globset_is_match set h = existsb (pattern_matches h) ps.
Proof.
  unfold compile_globset_with_policy.
  destruct (add_patterns ps gw ∅ []) as [builder|] eqn:E; [|done].
  cbn [mbind result_bind]. intros Hset.
  rewrite (globset_is_match_any _ _ h Hset). apply eq_iff_eq_true.
  apply add_patterns_matches in E as (seen & Hb & Hs).
  2:{ intros k. cbn. split; [done|]. intros (c & Hc & _). by apply not_elem_of_empty in Hc. }
  rewrite (Hb h), existsb_exists. split.
  - intros (c & Hc & Hm). apply Hs in Hc as [Hc|(p & Hp & Hc)]; [by apply not_elem_of_empty in Hc|].
    exists p. split; [by apply list_elem_of_In|]. apply existsb_exists. exists c.
    by rewrite <- list_elem_of_In.
  - intros (p & Hp%list_elem_of_In & (c & Hc%list_elem_of_In & Hm)%existsb_exists).
    exists c. split; [|done]. apply Hs. right. by exists p.
Qed.
End Matching.

(** ** Letter case does not matter

    Managed lists are compared after [to_ascii_lowercase]; the globs of a
    pattern do not depend on the case either. *)

Abbreviation lower := to_ascii_lowercase.

Definition not_letter (c : char) : bool := negb (is_ascii_alphabetic c).

Lemma lower_not_letter x c :
  not_letter c = true -> (char_to_ascii_lowercase x =? c)%N = (x =? c)%N.
Proof.
  unfold not_letter, is_ascii_alphabetic, is_ascii_lowercase, is_ascii_uppercase.
  rewrite negb_true_iff, orb_false_iff, !andb_false_iff, !N.leb_gt. intros Hc.
  apply eq_iff_eq_true. rewrite !N.eqb_eq.
  unfold char_to_ascii_lowercase, is_ascii_uppercase.
  destruct ((65 <=? x) && (x <=? 90))%N eqn:E; [|done].
  rewrite andb_true_iff, !N.leb_le in E. lia.
Qed.

Lemma lower_whitespace x : is_whitespace (char_to_ascii_lowercase x) = is_whitespace x.
Proof.
  unfold char_to_ascii_lowercase. destruct (is_ascii_uppercase x) eqn:E; [|done].
  unfold is_ascii_uppercase in E. rewrite andb_true_iff, !N.leb_le in E.
  assert (forall y, (65 <= y <= 122)%N -> is_whitespace y = false) as Hw.
  { intros y Hy. apply not_true_iff_false. unfold is_whitespace.
    rewrite !orb_true_iff, !andb_true_iff, !N.leb_le, !N.eqb_eq. lia. }
  by rewrite !Hw by lia.
Qed.

Lemma lower_lower s : lower (lower s) = lower s.
Proof.
  unfold to_ascii_lowercase. rewrite map_map. apply map_ext. intros x.
  unfold char_to_ascii_lowercase at 1. by rewrite to_ascii_lowercase_not_upper.
Qed.

Lemma lower_reverse s : lower (reverse s) = reverse (lower s).
Proof.
  induction s as [|c s IH]; [done|]. cbn [map to_ascii_lowercase].
  rewrite !reverse_cons. unfold to_ascii_lowercase in *. by rewrite map_app, IH.
Qed.

Lemma lower_app s t : lower (s ++ t) = lower s ++ lower t.
Proof. apply map_app. Qed.

Lemma lower_trim_start_matches p s :
  (forall x, p (char_to_ascii_lowercase x) = p x) ->
  trim_start_matches p (lower s) = lower (trim_start_matches p s).
Proof.
  intros Hp. induction s as [|c s IH]; [done|]. cbn. rewrite Hp. by destruct (p c).
Qed.

Lemma lower_trim_end_matches p s :
  (forall x, p (char_to_ascii_lowercase x) = p x) ->
  trim_end_matches p (lower s) = lower (trim_end_matches p s).
Proof.
  intros Hp. unfold trim_end_matches.
  by rewrite <- lower_reverse, lower_trim_start_matches, lower_reverse.
Qed.

Lemma lower_trim s : trim (lower s) = lower (trim s).
Proof.
  unfold trim, trim_end, trim_start.
  by rewrite lower_trim_start_matches, lower_trim_end_matches by apply lower_whitespace.
Qed.

Lemma lower_strip_prefix p s :
  forallb not_letter p = true -> strip_prefix p (lower s) = lower <$> strip_prefix p s.
Proof.
  revert s. induction p as [|c p IH]; intros s; [done|].
  cbn [forallb]. rewrite andb_true_iff. intros [Hc Hp]. destruct s as [|x s]; [done|].
  cbn [strip_prefix to_ascii_lowercase map]. rewrite (N.eqb_sym c), (N.eqb_sym c x).
  rewrite lower_not_letter by done. destruct (x =? c)%N; [|done]. by apply IH.
Qed.

Lemma lower_split_once c s :
  not_letter c = true ->
  split_once c (lower s) = (fun '(a, b) => (lower a, lower b)) <$> split_once c s.
Proof.
  intros Hc. induction s as [|x s IH]; [done|]. cbn. rewrite lower_not_letter by done.
  destruct (x =? c)%N; [done|]. unfold to_ascii_lowercase in IH. rewrite IH.
  by destruct (split_once c s) as [[a b]|].
Qed.

Lemma lower_head_split c s :
  not_letter c = true ->
  default [] (head (split c (lower s))) = lower (default [] (head (split c s))).
Proof.
  intros Hc. induction s as [|x s IH]; [done|]. cbn. rewrite lower_not_letter by done.
  destruct (x =? c)%N; [done|]. unfold to_ascii_lowercase in IH.
  by destruct (split c s) as [|p ps], (split c (map char_to_ascii_lowercase s)) as [|q qs];
    cbn in *; rewrite ?IH.
Qed.

Lemma lower_count_char c s : not_letter c = true -> count_char c (lower s) = count_char c s.
Proof.
  intros Hc. unfold count_char, to_ascii_lowercase. induction s as [|x s IH]; [done|].
  cbn [map]. rewrite !filter_cons.
  pose proof (lower_not_letter x c Hc) as Hx.
  destruct (N.eqb_spec x c) as [->|Hn].
  - apply N.eqb_eq in Hx. rewrite !decide_True by done. cbn. by rewrite IH.
  - apply N.eqb_neq in Hx. by rewrite !decide_False by done.
Qed.

Lemma normalize_dns_lower s :
  normalize_dns_host_or_ip_literal (lower s) = normalize_dns_host_or_ip_literal s.
Proof. unfold normalize_dns_host_or_ip_literal. by rewrite lower_lower. Qed.

Lemma normalize_host_lower s : normalize_host (lower s) = normalize_host s.
Proof.
  unfold normalize_host. rewrite lower_trim.
  rewrite lower_strip_prefix, lower_count_char, lower_head_split by done.
  destruct (strip_prefix "[" (trim s)) as [r|]; cbn [fmap option_fmap option_map mbind option_bind].
  - rewrite lower_split_once by done.
    destruct (split_once 93%N r) as [[a b]|]; cbn; [apply normalize_dns_lower|].
    by rewrite !normalize_dns_lower.
  - by rewrite !normalize_dns_lower.
Qed.

Lemma lower_eq_symbols s p : forallb not_letter p = true -> lower s = p <-> s = p.
Proof.
  revert p. induction s as [|x s IH]; intros [|c p]; cbn; try done.
  rewrite andb_true_iff. intros [Hc Hp]. pose proof (lower_not_letter x c Hc) as Hx.
  split; intros [= H1 H2].
  - apply N.eqb_eq in H1. rewrite Hx in H1. apply N.eqb_eq in H1. f_equal; [done|].
    by apply IH.
  - subst x. f_equal; [|by apply IH]. rewrite N.eqb_refl in Hx. by apply N.eqb_eq.
Qed.

Lemma normalize_pattern_lower p : normalize_pattern (lower p) = normalize_pattern p.
Proof.
  unfold normalize_pattern. rewrite lower_trim, !lower_strip_prefix by done.
  rewrite (bool_decide_ext _ (trim p = "*")) by by apply lower_eq_symbols.
  case_bool_decide; [done|].
  destruct (strip_prefix "**." (trim p)) as [r|]; cbn [fmap option_fmap option_map].
  { by rewrite normalize_host_lower. }
  destruct (strip_prefix "*." (trim p)) as [r|]; cbn [fmap option_fmap option_map];
    by rewrite normalize_host_lower.
Qed.

Lemma pattern_matches_lower `{Globs} h p q :
  lower p = lower q -> pattern_matches h p = pattern_matches h q.
Proof.
  intros E. unfold pattern_matches, pattern_candidates.
  by rewrite <- (normalize_pattern_lower p), E, normalize_pattern_lower.
Qed.

(** ** The hosts a pattern stands for

    A host is matched by a pattern when one of the pattern's globs matches
    it.  In a domain without glob characters the globs of a pattern are a
    domain, and a domain behind [?*.] *)

Definition domain_of (p : DomainPattern) : str :=
  match p with Exact d | SubdomainsOnly d | ApexAndSubdomains d => d end.

Definition pattern_globs (p : DomainPattern) : list str :=
  match p with
  | Exact domain => [domain]
  | SubdomainsOnly domain => ["?*." ++ domain]
  | ApexAndSubdomains domain => [domain; "?*." ++ domain]
  end.

(** [expand_domain_pattern] gives the globs of the pattern it parses. *)
Lemma expand_domain_pattern_globs s : expand_domain_pattern s = pattern_globs (DomainPattern_parse s).
Proof. done. Qed.

(** Patterns are compiled after their domains are normalised. *)
Definition normalized (p : DomainPattern) : DomainPattern :=
  match p with
  | Exact domain => Exact (normalize_domain domain)
  | SubdomainsOnly domain => SubdomainsOnly (normalize_domain domain)
  | ApexAndSubdomains domain => ApexAndSubdomains (normalize_domain domain)
  end.

(** Text in which no character is special to a glob. *)
Definition literal (s : str) : bool :=
  forallb (fun c => negb (existsb (N.eqb c) ("*?[]{}!,/" ++ [92%N]))) s.

(** The documented meaning of globs, for the two shapes that patterns with
    literal domains have: text without special characters matches itself, [?]
    is any single character, and [*] zero or more characters. *)
Class GlobLaws (globs : Globs) := {
  glob_literal d h :
    literal d = true -> lower d = d -> lower h = h -> glob_matches d h = true <-> h = d;
  glob_subdomains d h :
    literal d = true -> lower d = d -> lower h = h ->
    glob_matches ("?*." ++ d) h = true <-> strict_subdomain h d
}.

(** The normalised hosts that a pattern with a literal domain matches. *)
Definition literal_hosts (p : DomainPattern) (h : str) : Prop :=
  match p with
  | Exact d => h = normalize_domain d
  | SubdomainsOnly d => strict_subdomain h (normalize_domain d)
  | ApexAndSubdomains d =>
      h = normalize_domain d \/ strict_subdomain h (normalize_domain d)
  end.

Lemma allows_sound p q h :
  head (normalize_domain (domain_of q)) <> Some DOT ->
  allows p q = true -> literal_hosts q h -> literal_hosts p h.
Proof.
  intros Hdot. pose proof (dotless_strict (normalize_domain (domain_of q))) as Hstrict.
  destruct p as [d|d|d], q as [c|c|c]; cbn [allows literal_hosts domain_of] in *;
    rewrite ?is_subdomain_or_equal_spec, ?is_strict_subdomain_spec;
    unfold domain_eq; rewrite ?bool_decide_eq_true; try done.
  - intros Ha [->|Hs]; [destruct Ha as [Ha|Ha]; [by left|right; auto]|].
    right. by eapply strict_subdomain_trans.
  - intros Ha Hs. right. by eapply strict_subdomain_trans.
  - intros [Ha|Ha] ->; [by left|right; auto].
  - intros Ha [->|Hs]; [by auto|]. eapply strict_subdomain_trans; [done|]. by right.
  - intros Ha Hs. by eapply strict_subdomain_trans.
  - intros Ha ->. auto.
  - by intros <- ->.
Qed.

Lemma lower_child (z : char) d :
  (z < 65)%N -> lower (z :: [DOT] ++ normalize_domain d) = z :: [DOT] ++ normalize_domain d.
Proof.
  intros Hz. cbn. f_equal; [|f_equal; apply lower_lower].
  unfold char_to_ascii_lowercase, is_ascii_uppercase. by rewrite (proj2 (N.leb_gt 65 z)).
Qed.

Lemma allows_complete p q :
  (forall h, lower h = h -> literal_hosts q h -> literal_hosts p h) -> allows p q = true.
Proof.
  intros H.
  pose proof (H (normalize_domain (domain_of q)) (lower_lower _)) as Hc.
  pose proof (H _ (lower_child 0%N (domain_of q) ltac:(done))) as H0.
  pose proof (H _ (lower_child 1%N (domain_of q) ltac:(done))) as H1. clear H.
  destruct p as [d|d|d], q as [e|e|e]; cbn [allows literal_hosts domain_of] in *;
    rewrite ?is_subdomain_or_equal_spec, ?is_strict_subdomain_spec;
    unfold domain_eq; rewrite ?bool_decide_eq_true;
    set (c := normalize_domain e) in *; set (d' := normalize_domain d) in *.
  1: destruct (Hc (or_introl eq_refl)) as [->|(x & _ & ->)]; [by left|right; by exists x].
  1: { destruct (H0 (child_of _ c)) as [E0|E0%child_of_inv]; [|done].
       destruct (H1 (child_of _ c)) as [E1|E1%child_of_inv]; [congruence|done]. }
  1: destruct (Hc eq_refl) as [->|(x & _ & ->)]; [by left|right; by exists x].
  1: destruct (Hc (or_introl eq_refl)) as (x & _ & ->); by exists x.
  1: by apply child_of_inv with 0%N, H0, child_of.
  1: destruct (Hc eq_refl) as (x & _ & ->); by exists x.
  1: specialize (H0 (or_intror (child_of _ c))); specialize (H1 (or_intror (child_of _ c))); congruence.
  1: specialize (H0 (child_of _ c)); specialize (H1 (child_of _ c)); congruence.
  by apply Hc.
Qed.

Section GlobHosts.
Context {globs : Globs} {laws : GlobLaws globs}.

Definition globs_match (p : DomainPattern) (h : str) : bool :=
  existsb (fun glob => glob_matches glob h) (pattern_globs p).

Lemma globs_match_literal p h :
  literal (domain_of (normalized p)) = true -> lower h = h ->
  globs_match (normalized p) h = true <-> literal_hosts p h.
Proof.
  intros Hl Hh.
  assert (forall d, lower (normalize_domain d) = normalize_domain d) as Hn
    by (intros d; apply lower_lower).
  unfold globs_match. destruct p as [d|d|d]; cbn [domain_of normalized] in Hl;
    cbn [normalized pattern_globs literal_hosts existsb]; rewrite ?orb_true_iff.
  - rewrite glob_literal, glob_subdomains by done. intuition congruence.
  - rewrite glob_subdomains by done. intuition congruence.
  - rewrite glob_literal by done. intuition congruence.
Qed.

(** C28. The comparison of patterns decides inclusion.  For two patterns whose
    domains have no glob characters, the candidate's not beginning with a
    dot, a managed pattern allows the candidate exactly when every host, in
    its normal lowercase form, that one of the candidate's globs matches is
    matched by one of the managed pattern's. *)
Theorem allows_iff_included p q :
  literal (domain_of (normalized p)) = true -> literal (domain_of (normalized q)) = true ->
  head (domain_of (normalized q)) <> Some DOT ->
  (allows p q = true <-> forall h, lower h = h ->
     globs_match (normalized q) h = true -> globs_match (normalized p) h = true).
Proof.
  intros Hp Hq Hdot. split.
  - intros Ha h Hh. rewrite !globs_match_literal by done. apply allows_sound; [by destruct q|done].
  - intros H. apply allows_complete. intros h Hh. rewrite <- !globs_match_literal by done. by apply H.
Qed.

(** A leading dot is the exception: the host [.example.com] counts as a
    subdomain of [example.com], but no glob of its subdomains matches it. *)
Theorem leading_dot_allowed :
  allows (SubdomainsOnly "example.com") (Exact ".example.com") = true /\
  globs_match (normalized (Exact ".example.com")) ".example.com" = true /\
  globs_match (normalized (SubdomainsOnly "example.com")) ".example.com" = false.
Proof.
  split; [by vm_compute|]. split; [by apply globs_match_literal|].
  apply not_true_iff_false. rewrite globs_match_literal by done.
  intros (x & Hx & E). change (normalize_domain "example.com") with "example.com" in E.
  destruct x as [|c x]; [done|]. apply (f_equal length) in E.
  rewrite length_app in E. cbn in E. lia.
Qed.

End GlobHosts.

(** ** The spellings of a host *)

Lemma trim_dots_lower h n :
  clean_host h -> trim_dots (lower (h ++ repeat DOT n)) = lower h.
Proof.
  intros (Hne & _ & Hl). unfold trim_dots.
  rewrite lower_trim_end_matches
    by (intros x; rewrite !(N.eqb_sym DOT); by apply lower_not_letter).
  f_equal. rewrite trim_end_matches_all by apply repeat_dots_true.
  destruct (last h) as [d|] eqn:Ed; [|by apply last_None in Ed].
  apply (trim_end_matches_last _ _ d); [done|]. apply N.eqb_neq. unfold DOT. congruence.
Qed.

Lemma normalize_dns_dots h n :
  clean_host h ->
  normalize_dns_host_or_ip_literal (h ++ repeat DOT n) = normalize_dns_host_or_ip_literal h.
Proof.
  intros Hh. unfold normalize_dns_host_or_ip_literal. rewrite trim_dots_lower by done.
  pose proof (trim_dots_lower h 0 Hh) as H0. cbn [repeat] in H0. rewrite app_nil_r in H0.
  by rewrite H0.
Qed.

(** However a host is written (in any letter case, within white space, with
    trailing dots, a port, brackets), the proxy compares the same string. *)
Theorem normalize_host_spellings h body w1 w2 :
  clean_host h -> host_form h body ->
  forallb is_whitespace w1 = true -> forallb is_whitespace w2 = true ->
  normalize_host (w1 ++ body ++ w2) = normalize_dns_host_or_ip_literal h.
Proof.
  intros Hh Hf Hw1 Hw2. destruct (host_form_text h body Hh Hf) as [Ht Hne].
  unfold normalize_host. rewrite trim_host_text by done. clear Ht Hne.
  pose proof Hh as (Hne & _ & _).
  destruct Hf as [n Hb Hc|n port Hb Hc Hp Hd|n suffix Hn Hs].
  - rewrite strip_prefix_bracket by done. cbn [mbind option_bind].
    rewrite count_char_app, (count_char_none _ (repeat _ _)) by by apply no_char_repeat.
    rewrite Nat.add_0_r, (proj2 (Nat.eqb_neq _ _) Hc). by apply normalize_dns_dots.
  - rewrite strip_prefix_bracket by done. cbn [mbind option_bind].
    assert (no_char 58%N (h ++ repeat 46%N n)) as Hn
      by (apply no_char_app; split; [done|by apply no_char_repeat]).
    rewrite (app_assoc h), count_char_app, (count_char_none _ (h ++ _)) by done.
    change (":" ++ port) with ([58%N] ++ port). rewrite count_char_app.
    rewrite (count_char_none _ port) by by apply digits_no_char.
    change (count_char 58%N [58%N]) with 1. cbn [Nat.add Nat.eqb].
    cbn [app]. rewrite split_app by done. by apply normalize_dns_dots.
  - cbn [app strip_prefix]. rewrite N.eqb_refl. cbn [mbind option_bind].
    rewrite (app_assoc h).
    assert (split_once 93%N ((h ++ repeat 46%N n) ++ 93%N :: suffix)
            = Some (h ++ repeat 46%N n, suffix)) as ->.
    { apply split_once_Some. split; [done|]. apply no_char_app.
      split; [done|by apply no_char_repeat]. }
    by apply normalize_dns_dots.
Qed.

(** ** A concrete matcher

    Globs of [*], [?] and literal characters, to evaluate the definitions
    on examples. *)

Fixpoint wild_match (sep : bool) (pat s : str) : bool :=
  match pat with
  | [] => is_empty s
  | c :: pat =>
      if (c =? 42)%N then
        (fix star (s : str) : bool :=
           wild_match sep pat s
           || match s with
              | [] => false
              | x :: s => negb (sep && (x =? 47)%N) && star s
              end) s
      else
        match s with
        | [] => false
        | x :: s => ((c =? x)%N || ((c =? 63)%N && negb (sep && (x =? 47)%N))) && wild_match sep pat s
        end
  end.

Record WildGlob := mkWild { wild_ci : bool; wild_sep : bool; wild_pattern : str }.

Definition wild_is_match (g : WildGlob) (h : str) : bool :=
  if wild_ci g then wild_match (wild_sep g) (lower (wild_pattern g)) (lower h)
  else wild_match (wild_sep g) (wild_pattern g) h.

Definition wildcards : Globs := {|
  Glob := WildGlob;
  GlobSet := list WildGlob;
  glob_build ci sep p :=
    if contains_char p 91%N || contains_char p 123%N then Err ["unclosed class"]
    else Ok (mkWild ci sep p);
  glob_is_match := wild_is_match;
  globset_build l := Ok l;
  globset_is_match l h := existsb (fun g => wild_is_match g h) l;
  globset_is_match_any l set h E := match E in _ = r return
      match r with Ok set => existsb (fun g => wild_is_match g h) set
                             = existsb (fun g => wild_is_match g h) l | Err _ => True end
      with eq_refl => eq_refl end
|}.

Lemma literal_cons c d :
  literal (c :: d) = true -> (c <> 42 /\ c <> 63 /\ c <> 91 /\ c <> 123)%N /\ literal d = true.
Proof.
  unfold literal. cbn [forallb]. rewrite andb_true_iff, negb_true_iff. intros [Hc Hd].
  split; [|done]. split_and!; by intros ->.
Qed.

Lemma wild_match_literal d h : literal d = true -> wild_match false d h = true <-> h = d.
Proof.
  revert h. induction d as [|c d IH]; intros h Hd.
  { cbn. by destruct h. }
  apply literal_cons in Hd as [(Hs & Hq & _) Hd]. cbn [wild_match].
  rewrite (proj2 (N.eqb_neq c 42) Hs), (proj2 (N.eqb_neq c 63) Hq). cbn [andb].
  destruct h as [|x h]; [done|]. rewrite orb_false_r, andb_true_iff, N.eqb_eq, IH by done.
  split; [by intros [-> ->]|by intros [= -> ->]].
Qed.

Lemma wild_match_star d h :
  wild_match false (42%N :: d) h = true <-> exists x y, h = x ++ y /\ wild_match false d y = true.
Proof.
  induction h as [|c h IH].
  - cbn. rewrite orb_false_r. split; [by intros H; exists [], []|].
    by intros (x & y & [-> ->]%eq_sym%app_nil & H).
  - change (wild_match false (42%N :: d) (c :: h))
      with (wild_match false d (c :: h) || wild_match false (42%N :: d) h).
    rewrite orb_true_iff, IH. split.
    + intros [H|(x & y & -> & H)]; [by exists [], (c :: h)|by exists (c :: x), y].
    + intros ([|c' x] & y & E & H); [left; by rewrite E|right]. injection E as <- ->. by exists x, y.
Qed.

Lemma wild_match_subdomains d h :
  literal d = true -> wild_match false ("?*." ++ d) h = true <-> strict_subdomain h d.
Proof.
  intros Hd. assert (literal (DOT :: d) = true) as Hdot by done.
  destruct h as [|c h].
  { split; [done|]. by intros ([|] & ? & ?). }
  change (wild_match false ("?*." ++ d) (c :: h)) with
    (((63 =? c)%N || true) && wild_match false (42%N :: DOT :: d) h).
  rewrite orb_true_r, andb_true_l, wild_match_star. split.
  - intros (x & y & -> & ->%wild_match_literal); [|done]. by exists (c :: x).
  - intros ([|c' x] & Hx & E); [done|]. injection E as <- ->.
    exists x, (DOT :: d). split; [done|]. by apply wild_match_literal.
Qed.

Lemma literal_no_class d : literal d = true -> contains_char d 91%N || contains_char d 123%N = false.
Proof.
  intros Hd. apply orb_false_iff. unfold contains_char.
  induction d as [|c d IH]; [done|]. apply literal_cons in Hd as [(_ & _ & Hb & Hc) Hd].
  cbn [existsb]. apply N.eqb_neq in Hb, Hc. rewrite ?(N.eqb_sym 91), ?(N.eqb_sym 123), Hb, Hc.
  by apply IH.
Qed.

Lemma wildcards_laws : GlobLaws wildcards.
Proof.
  split; intros d h Hd Hl Hh; pose proof (literal_no_class d Hd) as Hn.
  - unfold glob_matches. cbn [glob_build wildcards]. rewrite Hn.
    change (wild_match false (lower d) (lower h) = true <-> h = d). rewrite Hl, Hh.
    by apply wild_match_literal.
  - unfold glob_matches. cbn [glob_build wildcards].
    replace (contains_char ("?*." ++ d) 91%N) with (contains_char d 91%N) by done.
    replace (contains_char ("?*." ++ d) 123%N) with (contains_char d 123%N) by done. rewrite Hn.
    change (wild_match false (lower ("?*." ++ d)) (lower h) = true <-> strict_subdomain h d).
    rewrite lower_app, Hl, Hh. by apply wild_match_subdomains.
Qed.

Lemma allows_iff_included_witness :
  let q := SubdomainsOnly "API.Example.com." in
  let p := ApexAndSubdomains "example.com" in
  literal (domain_of (normalized p)) = true /\
  globs_match (globs := wildcards) (normalized p) "v1.api.example.com" = true.
Proof.
  split; [by vm_compute|].
  refine (proj1 (allows_iff_included (laws := wildcards_laws) (ApexAndSubdomains "example.com")
    (SubdomainsOnly "API.Example.com.") _ _ _) _ _ _ _); by vm_compute.
Defined.

Definition demo_urls : Urls := {|
  url_host_parse h := Some (lower h);
  url_parse _ := None
|}.

Example compiled_examples :
  match compile_denylist_globset (globs := wildcards) ["*.Example.COM."; "b.com"; "B.com"] with
  | Ok set => globset_is_match (Globs := wildcards) set "api.example.com"
              && negb (globset_is_match (Globs := wildcards) set "example.com")
              && globset_is_match (Globs := wildcards) set "b.com"
  | Err _ => false
  end = true /\
  is_ok (compile_denylist_globset (globs := wildcards) [" * "]) = false /\
  is_ok (compile_allowlist_globset (globs := wildcards) [" * "]) = true.
Proof. by vm_compute. Qed.
