(* ===== verification/NetConfig.v ===== *)
(** * The configuration of the network proxy

    [network-proxy/src/config.rs]: the domain and unix-socket entries and
    their effective precedence, the edits of a configuration, the addresses
    the proxy binds, and the parsing of its listener addresses. *)

From S2P Require Import Prelude RustStr Truncate AbsolutePath FsPolicy ExecRule IpAddr NetHost.
#[local] Open Scope str_scope.

(** JSON values of a hook are only ever present or absent. *)
Class Json := {
  Value : Type;
  Value_eq_dec :: EqDecision Value
}.

(** ** Ordered maps *)

(** [BTreeMap<String, A>]: an association list in key order. *)
Definition str_compare : str -> str -> comparison := list_compare N.compare.

Section BTreeMap.
Context {A : Type}.

Fixpoint btree_insert (k : str) (a : A) (m : list (str * A)) : list (str * A) :=
  match m with
  | [] => [(k, a)]
  | (j, b) :: r =>
      match str_compare k j with
      | Lt => (k, a) :: m
      | Eq => (k, a) :: r
      | Gt => (j, b) :: btree_insert k a r
      end
  end.

Fixpoint btree_get (k : str) (m : list (str * A)) : option A :=
  match m with
  | [] => None
  | (j, b) :: r => if bool_decide (k = j) then Some b else btree_get k r
  end.
End BTreeMap.

(** ** Domain entries *)

(** The order of the constructors is the precedence. *)
Inductive NetworkDomainPermission := DomainNone | DomainAllow | DomainDeny.

#[export] Instance NetworkDomainPermission_eq_dec : EqDecision NetworkDomainPermission.
Proof. solve_decision. Defined.

Definition permission_rank (p : NetworkDomainPermission) : nat :=
  match p with DomainNone => 0 | DomainAllow => 1 | DomainDeny => 2 end.

Record NetworkDomainPermissionEntry := mkDomainEntry {
  pattern : str;
  permission : NetworkDomainPermission
}.

#[export] Instance NetworkDomainPermissionEntry_eq_dec : EqDecision NetworkDomainPermissionEntry.
Proof. solve_decision. Defined.

(** [NetworkDomainPermissions] *)
Record NetworkDomainPermissions := mkDomains { domain_list : list NetworkDomainPermissionEntry }.

#[export] Instance NetworkDomainPermissions_eq_dec : EqDecision NetworkDomainPermissions.
Proof. solve_decision. Defined.

(** The patterns in the order of their first entry, and the permission of
    each so far. *)
Definition effective_step (acc : list str * gmap str NetworkDomainPermission)
    (entry : NetworkDomainPermissionEntry) : list str * gmap str NetworkDomainPermission :=
  let '(order, effective) := acc in
  let order := match effective !! pattern entry with
               | Some _ => order
               | None => order ++ [pattern entry]
               end in
  let current := default (permission entry) (effective !! pattern entry) in
  let current := if permission_rank current <? permission_rank (permission entry)
                 then permission entry else current in
  (order, <[pattern entry := current]> effective).

Fixpoint take_effective (order : list str) (effective : gmap str NetworkDomainPermission)
    : list NetworkDomainPermissionEntry :=
  match order with
  | [] => []
  | p :: order =>
      match effective !! p with
      | Some perm => mkDomainEntry p perm :: take_effective order (delete p effective)
      | None => take_effective order effective
      end
  end.

Definition effective_entries (self : NetworkDomainPermissions) : list NetworkDomainPermissionEntry :=
  let '(order, effective) := fold_left effective_step (domain_list self) ([], ∅) in
  take_effective order effective.

(** ** Settings *)

Inductive NetworkUnixSocketPermission := SocketAllow | SocketNone.

#[export] Instance NetworkUnixSocketPermission_eq_dec : EqDecision NetworkUnixSocketPermission.
Proof. solve_decision. Defined.

Record NetworkUnixSocketPermissions := mkUnixSockets {
  socket_entries : list (str * NetworkUnixSocketPermission)
}.

#[export] Instance NetworkUnixSocketPermissions_eq_dec : EqDecision NetworkUnixSocketPermissions.
Proof. solve_decision. Defined.

Inductive NetworkMode := Limited | Full.

#[export] Instance NetworkMode_eq_dec : EqDecision NetworkMode.
Proof. solve_decision. Defined.

Definition allows_method (self : NetworkMode) (method : str) : bool :=
  match self with
  | Full => true
  | Limited => bool_decide (method ∈ ["GET"; "HEAD"; "OPTIONS"])
  end.

(** [mitm_hook.rs], the configuration of a hook. *)
Record MitmHookMatchConfig `{Json} := mkHookMatch {
  cfg_methods : list str;
  cfg_path_prefixes : list str;
  cfg_query : list (str * list str);
  cfg_headers : list (str * list str);
  cfg_body : option Value
}.

Record InjectedHeaderConfig := mkInjectedConfig {
  cfg_name : str;
  secret_env_var : option str;
  secret_file : option str;
  cfg_prefix : option str
}.

Record MitmHookActionsConfig := mkHookActionsConfig {
  cfg_strip_request_headers : list str;
  cfg_inject_request_headers : list InjectedHeaderConfig
}.

Record MitmHookConfig `{Json} := mkHookConfig {
  cfg_host : str;
  cfg_matcher : MitmHookMatchConfig;
  cfg_actions : MitmHookActionsConfig
}.

#[export] Instance MitmHookMatchConfig_eq_dec `{Json} : EqDecision MitmHookMatchConfig.
Proof. solve_decision. Defined.
#[export] Instance InjectedHeaderConfig_eq_dec : EqDecision InjectedHeaderConfig.
Proof. solve_decision. Defined.
#[export] Instance MitmHookActionsConfig_eq_dec : EqDecision MitmHookActionsConfig.
Proof. solve_decision. Defined.
#[export] Instance MitmHookConfig_eq_dec `{Json} : EqDecision MitmHookConfig.
Proof. solve_decision. Defined.

Record NetworkProxySettings `{Json} := mkSettings {
  enabled : bool;
  proxy_url : str;
  enable_socks5 : bool;
  socks_url : str;
  enable_socks5_udp : bool;
  allow_upstream_proxy : bool;
  dangerously_allow_non_loopback_proxy : bool;
  dangerously_allow_all_unix_sockets : bool;
  mode : NetworkMode;
  domains : option NetworkDomainPermissions;
  unix_sockets : option NetworkUnixSocketPermissions;
  allow_local_binding : bool;
  mitm : bool;
  mitm_hooks : list MitmHookConfig
}.

#[export] Instance NetworkProxySettings_eq_dec `{Json} : EqDecision NetworkProxySettings.
Proof. solve_decision. Defined.

(** [NetworkProxyConfig] *)
Record NetworkProxyConfig `{Json} := mkConfig { network : NetworkProxySettings }.

#[export] Instance NetworkProxyConfig_eq_dec `{Json} : EqDecision NetworkProxyConfig.
Proof. solve_decision. Defined.

Definition default_proxy_url : str := "http://127.0.0.1:3128".
Definition default_socks_url : str := "http://127.0.0.1:8081".

Section Settings.
Context {json : Json}.

(** [NetworkProxySettings::default] *)
Definition default_settings : NetworkProxySettings := {|
  enabled := false;
  proxy_url := default_proxy_url;
  enable_socks5 := true;
  socks_url := default_socks_url;
  enable_socks5_udp := true;
  allow_upstream_proxy := true;
  dangerously_allow_non_loopback_proxy := false;
  dangerously_allow_all_unix_sockets := false;
  mode := Full;
  domains := None;
  unix_sockets := None;
  allow_local_binding := false;
  mitm := false;
  mitm_hooks := []
|}.

(** Assignments to one field. *)
Definition set_domains (self : NetworkProxySettings) (d : option NetworkDomainPermissions) :=
  mkSettings json (enabled self) (proxy_url self) (enable_socks5 self) (socks_url self)
    (enable_socks5_udp self) (allow_upstream_proxy self)
    (dangerously_allow_non_loopback_proxy self) (dangerously_allow_all_unix_sockets self)
    (mode self) d (unix_sockets self) (allow_local_binding self) (mitm self) (mitm_hooks self).

Definition set_unix_sockets (self : NetworkProxySettings)
    (s : option NetworkUnixSocketPermissions) :=
  mkSettings json (enabled self) (proxy_url self) (enable_socks5 self) (socks_url self)
    (enable_socks5_udp self) (allow_upstream_proxy self)
    (dangerously_allow_non_loopback_proxy self) (dangerously_allow_all_unix_sockets self)
    (mode self) (domains self) s (allow_local_binding self) (mitm self) (mitm_hooks self).

Definition set_mode (self : NetworkProxySettings) (m : NetworkMode) :=
  mkSettings json (enabled self) (proxy_url self) (enable_socks5 self) (socks_url self)
    (enable_socks5_udp self) (allow_upstream_proxy self)
    (dangerously_allow_non_loopback_proxy self) (dangerously_allow_all_unix_sockets self)
    m (domains self) (unix_sockets self) (allow_local_binding self) (mitm self) (mitm_hooks self).

Definition domain_entries (self : NetworkProxySettings) (perm : NetworkDomainPermission)
    : option (list str) :=
  domains_ ← domains self;
  let entries := map pattern (List.filter (fun e => bool_decide (permission e = perm))
                                (effective_entries domains_)) in
  if is_empty entries then None else Some entries.

Definition allowed_domains (self : NetworkProxySettings) : option (list str) :=
  domain_entries self DomainAllow.
Definition denied_domains (self : NetworkProxySettings) : option (list str) :=
  domain_entries self DomainDeny.

Definition allow_unix_sockets (self : NetworkProxySettings) : list str :=
  match unix_sockets self with
  | Some sockets =>
      map fst (List.filter (fun e => bool_decide (snd e = SocketAllow)) (socket_entries sockets))
  | None => []
  end.

Definition non_empty_domains (entries : list NetworkDomainPermissionEntry)
    : option NetworkDomainPermissions :=
  if is_empty entries then None else Some (mkDomains entries).

Definition upsert_domain_permission (self : NetworkProxySettings) (host_ : str)
    (perm : NetworkDomainPermission) (normalize : str -> str) : NetworkProxySettings :=
  let entries := default [] (domain_list <$> domains self) in
  let normalized_host := normalize host_ in
  let entries :=
    List.filter (fun e => bool_decide (normalize (pattern e) <> normalized_host)) entries in
  set_domains self (non_empty_domains (entries ++ [mkDomainEntry host_ perm])).

Definition set_domain_entries (self : NetworkProxySettings) (entries : list str)
    (perm : NetworkDomainPermission) : NetworkProxySettings :=
  let list_ := default [] (domain_list <$> domains self) in
  let list_ := List.filter (fun e => bool_decide (permission e <> perm)) list_ in
  let list_ := fold_left (fun l entry =>
    if existsb (fun e => bool_decide (pattern e = entry) && bool_decide (permission e = perm)) l
    then l else l ++ [mkDomainEntry entry perm]) entries list_ in
  set_domains self (non_empty_domains list_).

Definition set_allowed_domains (self : NetworkProxySettings) (l : list str) :=
  set_domain_entries self l DomainAllow.
Definition set_denied_domains (self : NetworkProxySettings) (l : list str) :=
  set_domain_entries self l DomainDeny.

Definition set_unix_socket_entries (self : NetworkProxySettings) (entries : list str)
    (perm : NetworkUnixSocketPermission) : NetworkProxySettings :=
  let list_ := default [] (socket_entries <$> unix_sockets self) in
  let list_ := List.filter (fun e => bool_decide (snd e <> perm)) list_ in
  let list_ := fold_left (fun l entry => btree_insert entry perm l) entries list_ in
  set_unix_sockets self (if is_empty list_ then None else Some (mkUnixSockets list_)).

Definition set_allow_unix_sockets (self : NetworkProxySettings) (l : list str) :=
  set_unix_socket_entries self l SocketAllow.

(** An allow for a denied pattern does not lift the deny. *)
Example set_allowed_keeps_deny :
  let s := set_allowed_domains (set_denied_domains default_settings ["example.com"])
             ["example.com"; "b.com"] in
  allowed_domains s = Some ["b.com"] /\ denied_domains s = Some ["example.com"].
Proof. vm_compute. done. Qed.

(** ** Listener addresses *)

Record SocketAddr := mkAddr { addr_ip : IpAddr; addr_port : N }.

Definition LOCALHOST : IpAddr := V4 (mkV4 127 0 0 1).

Definition clamp_non_loopback (addr : SocketAddr) (allow_non_loopback : bool) : SocketAddr :=
  if is_loopback (addr_ip addr) then addr
  else if allow_non_loopback then addr
  else mkAddr LOCALHOST (addr_port addr).

Definition clamp_bind_addrs (http_addr socks_addr : SocketAddr) (cfg : NetworkProxySettings)
    : SocketAddr * SocketAddr :=
  let http_addr := clamp_non_loopback http_addr (dangerously_allow_non_loopback_proxy cfg) in
  let socks_addr := clamp_non_loopback socks_addr (dangerously_allow_non_loopback_proxy cfg) in
  if is_empty (allow_unix_sockets cfg) && negb (dangerously_allow_all_unix_sockets cfg)
  then (http_addr, socks_addr)
  else (mkAddr LOCALHOST (addr_port http_addr), mkAddr LOCALHOST (addr_port socks_addr)).

Record RuntimeConfig := mkRuntimeConfig { http_addr : SocketAddr; socks_addr : SocketAddr }.

Inductive ValidatedUnixSocketPath :=
| Native (path : PathBuf)
| UnixStyleAbsolute (path : str).

Definition UnixStyleAbsolutePath_parse (value : str) : option str :=
  if starts_with value "/" then Some value else None.

Record SocketAddressParts := mkParts { parts_host : str; parts_port : N }.

(** [str::parse::<u16>]: an optional plus sign and decimal digits. *)
Fixpoint parse_u16_digits (acc : N) (s : str) : option N :=
  match s with
  | [] => Some acc
  | c :: r =>
      if is_ascii_digit c
      then let acc := (acc * 10 + (c - 48))%N in
           if (acc <? 65536)%N then parse_u16_digits acc r else None
      else None
  end.
Definition parse_u16 (s : str) : option N :=
  let digits := default s (strip_prefix "+" s) in
  if is_empty digits then None else parse_u16_digits 0 digits.

Definition parse_host_port_fallback (input : str) (default_port : N)
    : result Anyhow SocketAddressParts :=
  let missing := Err ["missing host in network proxy address: " ++ input] in
  let without_scheme := match split_once_str "://" input with
                        | Some (_, rest) => rest
                        | None => input
                        end in
  let host_port := default without_scheme (head (split 47%N without_scheme)) in
  let host_port := match rsplit_once 64%N host_port with
                   | Some (_, rest) => rest
                   | None => host_port
                   end in
  let bracketed := rest ← strip_prefix "[" host_port; split_once 93%N rest in
  match bracketed with
  | Some (host_, after) =>
      let port := default default_port (p ← strip_prefix ":" after; parse_u16 p) in
      if is_empty host_ then missing else Ok (mkParts host_ port)
  | None =>
      let single := if count_char 58%N host_port =? 1 then rsplit_once 58%N host_port else None in
      match single with
      | Some (host_, port) =>
          if is_empty host_ then missing
          else Ok (mkParts host_ (default default_port (parse_u16 port)))
      | None =>
          if is_empty host_port then missing else Ok (mkParts host_port default_port)
      end
  end.

Section Addresses.
Context {urls : Urls}.

Definition is_bracket (c : char) : bool := (c =? 91)%N || (c =? 93)%N.

Definition parse_host_port (url : str) (default_port : N) : result Anyhow SocketAddressParts :=
  let missing := Err ["missing host in network proxy address: " ++ url] in
  let trimmed := trim url in
  if is_empty trimmed then missing
  else if match parse_ip trimmed with Some (V6 _) => true | _ => false end
          && negb (starts_with trimmed "[")
  then Ok (mkParts trimmed default_port)
  else
    let candidate := if contains trimmed "://" then trimmed else "http://" ++ trimmed in
    match url_parse candidate with
    | Some (Some host_, port) =>
        let host_ := trim_end_matches is_bracket (trim_start_matches is_bracket host_) in
        if is_empty host_ then missing else Ok (mkParts host_ (default default_port port))
    | _ => parse_host_port_fallback trimmed default_port
    end.

Definition resolve_addr (url : str) (default_port : N) : result Anyhow SocketAddr :=
  addr_parts ← parse_host_port url default_port;
  let host_ := if bool_decide (to_ascii_lowercase (parts_host addr_parts) = "localhost")
               then "127.0.0.1" else parts_host addr_parts in
  match parse_ip host_ with
  | Some ip => Ok (mkAddr ip (parts_port addr_parts))
  | None => Ok (mkAddr LOCALHOST (parts_port addr_parts))
  end.

Definition format_host_and_port (host_ : str) (port : N) : str :=
  if contains_char host_ 58%N then "[" ++ host_ ++ "]:" ++ format_number port
  else host_ ++ ":" ++ format_number port.

Definition host_and_port_from_network_addr (value : str) (default_port : N) : str :=
  let trimmed := trim value in
  if is_empty trimmed then "<missing>"
  else match parse_host_port trimmed default_port with
       | Ok parts => format_host_and_port (parts_host parts) (parts_port parts)
       | Err _ => format_host_and_port trimmed default_port
       end.
End Addresses.
End Settings.

Section Runtime.
Context {json : Json} {urls : Urls} {os : Os}.

(** On Unix every path that begins with a slash is native. *)
Definition ValidatedUnixSocketPath_parse (socket_path : str)
    : result Anyhow ValidatedUnixSocketPath :=
  if is_absolute socket_path then
    path ← with_context ("failed to normalize unix socket path " ++ socket_path)
             (map_err (fun _ => []) (from_absolute socket_path));
    Ok (Native path)
  else
    match UnixStyleAbsolutePath_parse socket_path with
    | Some path => Ok (UnixStyleAbsolute path)
    | None => Err ["expected an absolute path, got " ++ socket_path]
    end.

Fixpoint validate_socket_paths (index : N) (paths : list str) : result Anyhow unit :=
  match paths with
  | [] => Ok tt
  | path :: rest =>
      _ ← with_context ("invalid network.allow_unix_sockets[" ++ format_number index ++ "]")
            (ValidatedUnixSocketPath_parse path);
      validate_socket_paths (index + 1) rest
  end.

Definition validate_unix_socket_allowlist_paths (cfg : NetworkProxyConfig) : result Anyhow unit :=
  validate_socket_paths 0 (allow_unix_sockets (network cfg)).

Definition resolve_runtime (cfg : NetworkProxyConfig) : result Anyhow RuntimeConfig :=
  _ ← validate_unix_socket_allowlist_paths cfg;
  http_addr ← with_context ("invalid network.proxy_url: " ++ proxy_url (network cfg))
                (resolve_addr (proxy_url (network cfg)) 3128);
  socks_addr ← with_context ("invalid network.socks_url: " ++ socks_url (network cfg))
                 (resolve_addr (socks_url (network cfg)) 8081);
  let '(http_addr, socks_addr) := clamp_bind_addrs http_addr socks_addr (network cfg) in
  Ok (mkRuntimeConfig http_addr socks_addr).
End Runtime.

(** ** Effective permissions *)

Section Effective.

Definition stricter (a b : NetworkDomainPermission) : NetworkDomainPermission :=
  if permission_rank a <? permission_rank b then b else a.

(** The strictest permission among the entries of a pattern. *)
Definition strictest (p : str) (l : list NetworkDomainPermissionEntry)
    : option NetworkDomainPermission :=
  fold_left (fun acc e =>
    if bool_decide (pattern e = p)
    then Some (stricter (default (permission e) acc) (permission e)) else acc) l None.

Lemma strictest_snoc p l e :
  strictest p (l ++ [e]) =
  if bool_decide (pattern e = p)
  then Some (stricter (default (permission e) (strictest p l)) (permission e))
  else strictest p l.
Proof. unfold strictest. by rewrite fold_left_app. Qed.

Lemma effective_fold l :
  let '(order, effective) := fold_left effective_step l ([], ∅) in
  NoDup order /\ (forall p, p ∈ order <-> is_Some (effective !! p)) /\
  (forall p, effective !! p = strictest p l).
Proof.
  induction l as [|e l IH] using rev_ind.
  { cbn. split_and!; [constructor|intros p|done].
    rewrite lookup_empty. split; [by intros ?%not_elem_of_nil|by intros []]. }
  rewrite fold_left_app. destruct (fold_left effective_step l ([], ∅)) as [order eff].
  destruct IH as (Hnd & Hdom & Hval). cbn [fold_left effective_step].
  assert (forall p, <[pattern e := stricter (default (permission e) (eff !! pattern e)) (permission e)]>
            eff !! p = strictest p (l ++ [e])) as Hval'.
  { intros p. rewrite strictest_snoc. case_bool_decide as Hp.
    - subst p. by rewrite lookup_insert_eq, <- Hval.
    - by rewrite lookup_insert_ne. }
  split_and!; [| |done].
  - destruct (eff !! pattern e) eqn:E; [done|]. apply NoDup_app. split_and!; [done| |].
    + intros p Hp ->%list_elem_of_singleton. apply Hdom in Hp. rewrite E in Hp. by destruct Hp.
    + apply NoDup_singleton.
  - intros p. destruct (decide (pattern e = p)) as [<-|Hp].
    + rewrite lookup_insert_eq. split; [by eauto|intros _].
      destruct (eff !! pattern e) eqn:E; [apply Hdom; by rewrite E|].
      apply elem_of_app. right. by apply list_elem_of_singleton.
    + rewrite lookup_insert_ne, <- Hdom by done.
      destruct (eff !! pattern e); [done|]. rewrite elem_of_app, list_elem_of_singleton.
      split; [intros [?|?]; [done|by destruct Hp]|by left].
Qed.

Lemma take_effective_elem order eff p perm :
  NoDup order -> (forall q, q ∈ order -> is_Some (eff !! q)) ->
  mkDomainEntry p perm ∈ take_effective order eff <-> p ∈ order /\ eff !! p = Some perm.
Proof.
  revert eff. induction order as [|q order IH]; intros eff Hnd Hdom; cbn [take_effective].
  { split; [by intros ?%not_elem_of_nil|by intros [?%not_elem_of_nil _]]. }
  apply NoDup_cons in Hnd as [Hq Hnd].
  destruct (Hdom q ltac:(by left)) as [a Ha]. rewrite Ha, elem_of_cons.
  assert (forall r, r ∈ order -> delete q eff !! r = eff !! r) as Hdel.
  { intros r Hr. apply lookup_delete_ne. by intros ->. }
  rewrite IH; [|done|].
  2:{ intros r Hr. rewrite Hdel by done. apply Hdom. by right. }
  rewrite elem_of_cons. split.
  - intros [[= -> ->]|[Hp Hl]]; [by auto|]. rewrite Hdel in Hl by done. auto.
  - intros [[->|Hp] Hl]; [left; congruence|right]. by rewrite Hdel.
Qed.

(** The effective entries hold each pattern with its strictest permission. *)
Lemma effective_entries_spec d p perm :
  mkDomainEntry p perm ∈ effective_entries d <-> strictest p (domain_list d) = Some perm.
Proof.
  unfold effective_entries. pose proof (effective_fold (domain_list d)) as H.
  destruct (fold_left effective_step (domain_list d) ([], ∅)) as [order eff].
  destruct H as (Hnd & Hdom & Hval). rewrite take_effective_elem.
  - rewrite Hdom, Hval. split; [by intros [_ ?]|]. intros ->. by eauto.
  - done.
  - intros q. by rewrite Hdom.
Qed.

Lemma strictest_filter p l :
  strictest p l = strictest p (List.filter (fun e => bool_decide (pattern e = p)) l).
Proof.
  induction l as [|e l IH] using rev_ind; [done|].
  rewrite List.filter_app, strictest_snoc. cbn. case_bool_decide as He.
  - rewrite strictest_snoc, bool_decide_eq_true_2 by done. by rewrite IH.
  - by rewrite app_nil_r.
Qed.

(** A deny entry decides. *)
Lemma strictest_deny p l :
  strictest p l = Some DomainDeny <-> mkDomainEntry p DomainDeny ∈ l.
Proof.
  induction l as [|e l IH] using rev_ind.
  { cbn. split; [done|by intros ?%not_elem_of_nil]. }
  rewrite strictest_snoc, elem_of_app, list_elem_of_singleton, <- IH.
  case_bool_decide as He.
  - destruct e as [q perm]. cbn in *. subst q.
    destruct (strictest p l) as [[]|], perm; cbn;
      (split; [intros E; try discriminate E; auto|by intros [E|E]; try discriminate E]).
  - split; [by left|]. intros [?|<-]; [done|]. by destruct He.
Qed.

Context {json : Json}.

Lemma domain_entries_elem s perm p :
  p ∈ default [] (domain_entries s perm) <->
  exists d, domains s = Some d /\ strictest p (domain_list d) = Some perm.
Proof.
  unfold domain_entries. destruct (domains s) as [d|]; cbn [mbind option_bind];
    [|split; [by intros ?%not_elem_of_nil|by intros (? & ? & _)]].
  set (l := map pattern _).
  assert (p ∈ l <-> strictest p (domain_list d) = Some perm) as Hl.
  { rewrite <- effective_entries_spec. subst l. rewrite list_elem_of_In, in_map_iff. split.
    - intros ([q perm'] & <- & [Hin Hp]%filter_In). apply bool_decide_eq_true in Hp as <-.
      by apply list_elem_of_In.
    - intros Hin. exists (mkDomainEntry p perm). split; [done|]. apply filter_In.
      split; [by apply list_elem_of_In|by apply bool_decide_eq_true]. }
  assert (default [] (if is_empty l then None else Some l) = l) as ->.
  { destruct (is_empty l) eqn:E; [|done]. by apply is_empty_true in E as ->. }
  rewrite Hl. split; [by exists d|]. by intros (? & [= <-] & ?).
Qed.

Lemma denied_domains_elem s p :
  p ∈ default [] (denied_domains s) <->
  exists d, domains s = Some d /\ mkDomainEntry p DomainDeny ∈ domain_list d.
Proof.
  unfold denied_domains. rewrite domain_entries_elem. by setoid_rewrite strictest_deny.
Qed.

Lemma allowed_not_denied s p :
  p ∈ default [] (allowed_domains s) -> p ∉ default [] (denied_domains s).
Proof.
  unfold allowed_domains, denied_domains. rewrite !domain_entries_elem.
  intros (d & Hd & H1) (d' & Hd' & H2). congruence.
Qed.

(** No list is [Some []]. *)
Lemma domain_entries_None s perm :
  domain_entries s perm = None <-> default [] (domain_entries s perm) = [].
Proof.
  unfold domain_entries. destruct (domains s); cbn; [|done].
  destruct (is_empty _) eqn:E; [done|]. apply is_empty_false in E. cbn. split; [done|].
  by intros ?.
Qed.
End Effective.

(** ** Edits *)

Section Edits.
Context {json : Json}.

Definition domain_list_of (s : NetworkProxySettings) : list NetworkDomainPermissionEntry :=
  default [] (domain_list <$> domains s).

Lemma domain_list_set s l : domain_list_of (set_domains s (non_empty_domains l)) = l.
Proof.
  unfold domain_list_of, non_empty_domains. destruct (is_empty l) eqn:E; [|done].
  by apply is_empty_true in E as ->.
Qed.

Lemma domain_entries_of s perm p :
  p ∈ default [] (domain_entries s perm) <-> strictest p (domain_list_of s) = Some perm.
Proof.
  rewrite domain_entries_elem. unfold domain_list_of. destruct (domains s); cbn.
  - split; [by intros (? & [= <-] & ?)|by eauto].
  - split; [by intros (? & ? & _)|done].
Qed.

Lemma strictest_app_other p l k :
  Forall (fun e => pattern e <> p) k -> strictest p (l ++ k) = strictest p l.
Proof.
  intros Hk. rewrite strictest_filter, List.filter_app, strictest_filter.
  assert (List.filter (fun e => bool_decide (pattern e = p)) k = []) as ->.
  { induction Hk as [|e k He _ IH]; [done|]. cbn. by rewrite bool_decide_eq_false_2. }
  rewrite app_nil_r. by rewrite <- !strictest_filter.
Qed.

(** An upsert replaces every entry of the host, in any spelling, and leaves
    the others alone. *)
Lemma upsert_strictest s h perm n p :
  strictest p (domain_list_of (upsert_domain_permission s h perm n)) =
  if bool_decide (p = h) then Some perm
  else if bool_decide (n p = n h) then None else strictest p (domain_list_of s).
Proof.
  unfold upsert_domain_permission. rewrite domain_list_set. cbn zeta.
  fold (domain_list_of s). set (keep := List.filter _ _).
  assert (forall q, n q = n h -> strictest q keep = None) as Hgone.
  { intros q Hq. rewrite strictest_filter.
    assert (List.filter (fun e => bool_decide (pattern e = q)) keep = []) as ->; [|done].
    subst keep. induction (domain_list_of s) as [|e l IH]; [done|]. cbn.
    case_bool_decide as He; cbn; [|done]. rewrite bool_decide_eq_false_2; [done|]. congruence. }
  rewrite strictest_snoc. cbn [pattern permission]. case_bool_decide as Hp.
  - subst p. rewrite (bool_decide_eq_true_2 (h = h)), Hgone by done. cbn.
    unfold stricter. by destruct perm.
  - rewrite (bool_decide_eq_false_2 (p = h)) by congruence.
    case_bool_decide as Hn; [by apply Hgone|].
    rewrite strictest_filter, (strictest_filter p (domain_list_of s)). f_equal. subst keep.
    clear Hgone. induction (domain_list_of s) as [|e l IH]; [done|]. cbn.
    case_bool_decide as He; cbn; case_bool_decide as Hq; rewrite ?IH; try done.
    subst p. by destruct He.
Qed.

Lemma fold_push_entries perm es l p q :
  mkDomainEntry p q ∈ fold_left (fun l entry =>
    if existsb (fun e => bool_decide (pattern e = entry) && bool_decide (permission e = perm)) l
    then l else l ++ [mkDomainEntry entry perm]) es l
  <-> mkDomainEntry p q ∈ l \/ (p ∈ es /\ q = perm).
Proof.
  revert l. induction es as [|e es IH]; intros l; cbn [fold_left].
  { split; [by left|]. intros [?|[?%not_elem_of_nil _]]; done. }
  rewrite IH, elem_of_cons. destruct (existsb _ l) eqn:E.
  - split; [tauto|]. intros [?|[[->|?] ->]]; [by left| |by right]. left.
    apply existsb_exists in E as ([a b] & Hin%list_elem_of_In & [Ha Hb]%andb_true_iff).
    apply bool_decide_eq_true in Ha, Hb. cbn in *. by subst.
  - rewrite elem_of_app, list_elem_of_singleton. split.
    + intros [[?|[= -> ->]]|[? ->]]; auto.
    + intros [?|[[->|?] ->]]; auto.
Qed.

(** Setting the denied domains makes exactly them denied. *)
Theorem set_denied_domains_exact s l p :
  p ∈ default [] (denied_domains (set_denied_domains s l)) <-> p ∈ l.
Proof.
  unfold denied_domains, set_denied_domains, set_domain_entries.
  rewrite domain_entries_of, domain_list_set, strictest_deny, fold_push_entries.
  split; [|by auto]. intros [H|[? _]]; [|done].
  apply list_elem_of_In, filter_In in H as [_ H]. by apply bool_decide_eq_true in H.
Qed.

(** Setting the allowed domains lifts no deny. *)
Theorem set_allowed_keeps_denied s l p :
  p ∈ default [] (denied_domains s) ->
  p ∈ default [] (denied_domains (set_allowed_domains s l)) /\
  p ∉ default [] (allowed_domains (set_allowed_domains s l)).
Proof.
  intros H. assert (p ∈ default [] (denied_domains (set_allowed_domains s l))) as Hd.
  { revert H. unfold denied_domains, set_allowed_domains, set_domain_entries.
    rewrite !domain_entries_of, domain_list_set, !strictest_deny, fold_push_entries.
    intros H. left. apply list_elem_of_In, filter_In. split; [by apply list_elem_of_In|].
    by apply bool_decide_eq_true. }
  split; [done|]. intros Ha. by apply allowed_not_denied in Ha.
Qed.
End Edits.

(** ** Listeners stay local *)

Lemma clamp_non_loopback_port addr b : addr_port (clamp_non_loopback addr b) = addr_port addr.
Proof. unfold clamp_non_loopback. by destruct (is_loopback _), b. Qed.

Lemma clamp_non_loopback_false addr :
  is_loopback (addr_ip (clamp_non_loopback addr false)) = true.
Proof. unfold clamp_non_loopback. by destruct (is_loopback (addr_ip addr)) eqn:E. Qed.

Section Listeners.
Context {json : Json} {urls : Urls} {os : Os}.

(** The proxy may be reached from outside the machine only when the settings
    ask for it and no unix socket is proxied. *)
Definition exposed (s : NetworkProxySettings) : bool :=
  dangerously_allow_non_loopback_proxy s
  && is_empty (allow_unix_sockets s) && negb (dangerously_allow_all_unix_sockets s).

Lemma ValidatedUnixSocketPath_parse_ok p :
  is_ok (ValidatedUnixSocketPath_parse p) = is_absolute p.
Proof.
  unfold ValidatedUnixSocketPath_parse. destruct (is_absolute p) eqn:E.
  - unfold from_absolute, from_absolute_path, absolutize.
    assert (maybe_expand_home_directory home_dir p = p) as ->; [|by rewrite E].
    unfold maybe_expand_home_directory. destruct home_dir; [|done].
    destruct (strip_prefix "~" p) as [r|] eqn:Hp; [|done].
    apply strip_prefix_Some in Hp as ->. discriminate E.
  - unfold UnixStyleAbsolutePath_parse. unfold is_absolute in E. by rewrite E.
Qed.

Lemma validate_socket_paths_ok i l :
  if is_ok (validate_socket_paths i l) then Forall (fun p => is_absolute p = true) l
  else Exists (fun p => is_absolute p = false) l.
Proof.
  revert i. induction l as [|p l IH]; intros i; cbn [validate_socket_paths]; [by constructor|].
  pose proof (ValidatedUnixSocketPath_parse_ok p) as Hp.
  destruct (ValidatedUnixSocketPath_parse p); cbn in *; [|by constructor].
  specialize (IH (i + 1)%N). destruct (is_ok _); [by constructor|by apply Exists_cons_tl].
Qed.

Lemma clamp_bind_addrs_local h k s :
  let '(h', k') := clamp_bind_addrs h k s in
  addr_port h' = addr_port h /\ addr_port k' = addr_port k /\
  if exposed s then h' = h /\ k' = k
  else is_loopback (addr_ip h') = true /\ is_loopback (addr_ip k') = true.
Proof.
  unfold clamp_bind_addrs, exposed.
  pose proof (clamp_non_loopback_false h) as Hh. pose proof (clamp_non_loopback_false k) as Hk.
  destruct (dangerously_allow_non_loopback_proxy s), (is_empty (allow_unix_sockets s)),
    (dangerously_allow_all_unix_sockets s);
    cbn [andb negb addr_port addr_ip]; rewrite ?clamp_non_loopback_port; try done.
  all: unfold clamp_non_loopback; by destruct (is_loopback (addr_ip h)), (is_loopback (addr_ip k)).
Qed.

(** The proxy listens where the configuration may put it.  Resolving a
    configuration either fails, on a socket path that is not absolute or an
    address without a host, or gives the two configured ports; both listeners
    are on loopback addresses unless the settings ask for a reachable proxy
    and proxy no unix socket, and then they are the configured addresses. *)
Theorem resolve_runtime_local cfg :
  match resolve_runtime cfg with
  | Ok rc =>
      exists h k,
        resolve_addr (proxy_url (network cfg)) 3128 = Ok h /\
        resolve_addr (socks_url (network cfg)) 8081 = Ok k /\
        addr_port (http_addr rc) = addr_port h /\ addr_port (socks_addr rc) = addr_port k /\
        Forall (fun p => is_absolute p = true) (allow_unix_sockets (network cfg)) /\
        if exposed (network cfg)
        then http_addr rc = h /\ socks_addr rc = k
        else is_loopback (addr_ip (http_addr rc)) = true /\
             is_loopback (addr_ip (socks_addr rc)) = true
  | Err e =>
      is_ok (resolve_addr (proxy_url (network cfg)) 3128) = false \/
      is_ok (resolve_addr (socks_url (network cfg)) 8081) = false \/
      Exists (fun p => is_absolute p = false) (allow_unix_sockets (network cfg))
  end.
Proof.
  unfold resolve_runtime, validate_unix_socket_allowlist_paths.
  pose proof (validate_socket_paths_ok 0 (allow_unix_sockets (network cfg))) as Hs.
  destruct (validate_socket_paths 0 _); cbn in *; [|by auto].
  destruct (resolve_addr (proxy_url _) 3128) as [h|]; cbn; [|by auto].
  destruct (resolve_addr (socks_url _) 8081) as [k|]; cbn; [|by auto].
  pose proof (clamp_bind_addrs_local h k (network cfg)) as Hc.
  destruct (clamp_bind_addrs h k (network cfg)) as [h' k']. cbn.
  exists h, k. tauto.
Qed.
End Listeners.
