(* ===== verification/MitmHook.v ===== *)
(** * Hooks on intercepted requests

    [network-proxy/src/mitm_hook.rs] and the part of [mitm.rs] that applies a
    hook: a hook names a host, the requests it lets through and the headers
    it strips and injects.  A configuration is validated and compiled to the
    hooks of each host; a request to a hooked host must match one of them.
    The [http] types, [form_urlencoded], the environment and the file system
    are parameters. *)

From S2P Require Import Prelude RustStr Truncate AbsolutePath FsPolicy ExecRule IpAddr NetHost.
From S2P Require Import NetConfig.
#[local] Open Scope str_scope.

(** What the hooks use of the [http] and [form_urlencoded] crates: header
    names and values, a header map as a multimap, the pairs of a query. *)
Class Http := {
  HeaderName : Type;
  HeaderName_eq_dec :: EqDecision HeaderName;
  HeaderName_from_bytes : str -> result Anyhow HeaderName;
  HeaderValue : Type;
  HeaderValue_eq_dec :: EqDecision HeaderValue;
  HeaderValue_from_str : str -> result Anyhow HeaderValue;
  to_str : HeaderValue -> option str;
  HOST : HeaderName;
  HeaderMap : Type;
  get_all : HeaderName -> HeaderMap -> list HeaderValue;
  header_remove : HeaderName -> HeaderMap -> HeaderMap;
  header_insert : HeaderName -> HeaderValue -> HeaderMap -> HeaderMap;
  form_urlencoded_parse : str -> list (str * str);
  get_all_remove n m h :
    get_all n (header_remove m h) = if decide (n = m) then [] else get_all n h;
  get_all_insert n m v h :
    get_all n (header_insert m v h) = if decide (n = m) then [v] else get_all n h
}.

Definition PATTERN_PREFIX : str := "pattern:".
Definition LITERAL_PREFIX : str := "literal:".

(** ** Compiled hooks *)

Record CompiledGlobMatcher `{Globs} := mkGlobMatcher { glob_pattern : str; matcher_glob : Glob }.

Inductive PathMatcher `{Globs} :=
| Prefix (prefix : str)
| PathGlob (glob : CompiledGlobMatcher).

Inductive ValueMatcher `{Globs} :=
| ExactValue (value : str)
| ValueGlob (glob : CompiledGlobMatcher).

Inductive MatcherPattern :=
| Literal (s : str)
| GlobPattern (s : str).

Inductive SecretSource :=
| EnvVar (name : str)
| File (path : PathBuf).

Section Data.
Context {globs : Globs} {http : Http}.

Record QueryConstraint := mkQuery { query_name : str; query_values : list ValueMatcher }.
Record HeaderConstraint := mkHeader { header_name : HeaderName; header_values : list ValueMatcher }.

(** The [body] matcher of a compiled hook is always [None]. *)
Record MitmHookMatcher := mkMatcher {
  methods : list str;
  path_prefixes : list PathMatcher;
  query_constraints : list QueryConstraint;
  header_constraints : list HeaderConstraint
}.

Record ResolvedInjectedHeader := mkInjected {
  injected_name : HeaderName;
  injected_value : HeaderValue;
  injected_source : SecretSource
}.

Record MitmHookActions := mkActions {
  strip_request_headers : list HeaderName;
  inject_request_headers : list ResolvedInjectedHeader
}.

Record MitmHook := mkHook {
  hook_host : str;
  matcher : MitmHookMatcher;
  actions : MitmHookActions
}.

Inductive HookEvaluation :=
| NoHooksForHost
| Matched (actions : MitmHookActions)
| HookedHostNoMatch.

(** What the code reads of a request. *)
Record Request := mkRequest {
  req_method : str;
  uri_path : str;
  uri_query : option str;
  uri_authority : option str;
  req_headers : HeaderMap
}.
End Data.

Abbreviation MitmHooksByHost := (gmap str (list MitmHook)).

(** ** Matching *)

Section Matching.
Context {globs : Globs} {http : Http}.

Definition path_matcher_matches (self : PathMatcher) (candidate : str) : bool :=
  match self with
  | Prefix prefix => starts_with candidate prefix
  | PathGlob g => glob_is_match (matcher_glob g) candidate
  end.

Definition value_matcher_matches (self : ValueMatcher) (candidate : str) : bool :=
  match self with
  | ExactValue value => bool_decide (value = candidate)
  | ValueGlob g => glob_is_match (matcher_glob g) candidate
  end.

Definition path_matches (prefixes : list PathMatcher) (path : str) : bool :=
  existsb (fun m => path_matcher_matches m path) prefixes.

Definition push_value (m : gmap str (list str)) (kv : str * str) : gmap str (list str) :=
  <[kv.1 := default [] (m !! kv.1) ++ [kv.2]]> m.

Definition query_matches (constraints : list QueryConstraint) (req : Request) : bool :=
  if is_empty constraints then true
  else
    let actual_query := default [] (uri_query req) in
    let actual_values := fold_left push_value (form_urlencoded_parse actual_query) ∅ in
    forallb (fun constraint =>
      match actual_values !! query_name constraint with
      | Some actual =>
          existsb (fun candidate =>
            existsb (fun allowed => value_matcher_matches allowed candidate)
              (query_values constraint)) actual
      | None => false
      end) constraints.

Definition headers_match (constraints : list HeaderConstraint) (req : Request) : bool :=
  forallb (fun constraint =>
    let actual := get_all (header_name constraint) (req_headers req) in
    if is_empty actual then false
    else if is_empty (header_values constraint) then true
    else existsb (fun value =>
      match to_str value with
      | Some candidate =>
          existsb (fun allowed => value_matcher_matches allowed candidate)
            (header_values constraint)
      | None => false
      end) actual) constraints.

Definition hook_matches (hook : MitmHook) (req : Request) : bool :=
  let method := to_ascii_uppercase (req_method req) in
  if negb (existsb (fun allowed => bool_decide (allowed = method)) (methods (matcher hook)))
  then false
  else if negb (path_matches (path_prefixes (matcher hook)) (uri_path req)) then false
  else if negb (query_matches (query_constraints (matcher hook)) req) then false
  else headers_match (header_constraints (matcher hook)) req.

Fixpoint first_match (hooks : list MitmHook) (req : Request) : HookEvaluation :=
  match hooks with
  | [] => HookedHostNoMatch
  | hook :: rest => if hook_matches hook req then Matched (actions hook) else first_match rest req
  end.

Definition evaluate_mitm_hooks (hooks_by_host : MitmHooksByHost) (host_ : str) (req : Request)
    : HookEvaluation :=
  match hooks_by_host !! normalize_host host_ with
  | None => NoHooksForHost
  | Some hooks => first_match hooks req
  end.

(** [mitm.rs] *)
Definition apply_mitm_hook_actions (headers : HeaderMap) (acts : option MitmHookActions)
    : HeaderMap :=
  match acts with
  | None => headers
  | Some acts =>
      let headers := fold_left (fun h n => header_remove n h) (strip_request_headers acts) headers in
      fold_left (fun h i => header_insert (injected_name i) (injected_value i) h)
        (inject_request_headers acts) headers
  end.

Definition extract_request_host (req : Request) : option str :=
  match v ← head (get_all HOST (req_headers req)); to_str v with
  | Some h => Some h
  | None => uri_authority req
  end.

Definition authority_header_value (host_ : str) (port : N) : str :=
  if contains_char host_ 58%N then
    if (port =? 443)%N then "[" ++ host_ ++ "]" else "[" ++ host_ ++ "]:" ++ format_number port
  else if (port =? 443)%N then host_
  else host_ ++ ":" ++ format_number port.
End Matching.

(** ** Compilation *)

Section Compile.
Context {globs : Globs} {http : Http} {json : Json} {os : Os}.

Definition parse_matcher_pattern (pat : str) : result Anyhow MatcherPattern :=
  match strip_prefix LITERAL_PREFIX pat with
  | Some literal => Ok (Literal literal)
  | None =>
      match strip_prefix PATTERN_PREFIX pat with
      | None => Ok (Literal pat)
      | Some glob =>
          if is_empty glob then Err ["glob pattern must not be empty"] else Ok (GlobPattern glob)
      end
  end.

Definition compile_glob_matcher (pat : str) (literal_separator : bool)
    : result Anyhow CompiledGlobMatcher :=
  match glob_build false literal_separator pat with
  | Ok g => Ok (mkGlobMatcher _ pat g)
  | Err e => Err (("invalid glob pattern " ++ pat) :: e)
  end.

Definition compile_path_matcher (prefix : str) : result Anyhow PathMatcher :=
  p ← parse_matcher_pattern prefix;
  match p with
  | Literal prefix =>
      if is_empty prefix then Err ["path_prefixes must not contain empty entries"]
      else Ok (Prefix prefix)
  | GlobPattern g => g ← compile_glob_matcher g true; Ok (PathGlob g)
  end.
Definition compile_path_matchers (prefixes : list str) : result Anyhow (list PathMatcher) :=
  mapM compile_path_matcher prefixes.

Definition compile_value_matcher (value : str) : result Anyhow ValueMatcher :=
  p ← parse_matcher_pattern value;
  match p with
  | Literal value => Ok (ExactValue value)
  | GlobPattern g => g ← compile_glob_matcher g false; Ok (ValueGlob g)
  end.
Definition compile_value_matchers (values : list str) : result Anyhow (list ValueMatcher) :=
  mapM compile_value_matcher values.

Definition normalize_hook_host (host_ : str) : result Anyhow str :=
  let normalized := normalize_host host_ in
  if is_empty normalized then Err ["host must not be empty"]
  else if contains_char normalized 42%N
  then Err ["MITM hook hosts must be exact hosts and cannot contain wildcards"]
  else Ok normalized.

Definition normalize_method (method : str) : result Anyhow str :=
  let normalized := to_ascii_uppercase (trim method) in
  if is_empty normalized then Err ["methods must not contain empty entries"] else Ok normalized.
Definition normalize_methods (l : list str) : result Anyhow (list str) := mapM normalize_method l.

Definition normalize_query_name (name : str) : result Anyhow str :=
  if is_empty name then Err ["query keys must not be empty"] else Ok name.

Definition parse_header_name (name : str) : result Anyhow HeaderName :=
  match HeaderName_from_bytes name with
  | Ok n => Ok n
  | Err e => Err (("invalid header name " ++ name) :: e)
  end.

Definition parse_secret_file (path : str) : result Anyhow PathBuf :=
  if is_empty (trim path) then Err ["secret_file must not be empty"]
  else if negb (is_absolute path)
  then Err ["secret_file must be an absolute path: " ++ path]
  else with_context ("secret_file must be an absolute path: " ++ path)
         (map_err (fun _ => []) (from_absolute path)).

Fixpoint validate_query_constraints (query : list (str * list str)) : result Anyhow unit :=
  match query with
  | [] => Ok tt
  | (name, values) :: rest =>
      normalized ← normalize_query_name name;
      if is_empty normalized then Err ["query keys must not be empty"]
      else if is_empty values
      then Err ["query key " ++ name ++ " must list at least one allowed value"]
      else
        _ ← with_context ("invalid matcher for query key " ++ name) (compile_value_matchers values);
        validate_query_constraints rest
  end.

Fixpoint validate_header_constraints (headers : list (str * list str)) : result Anyhow unit :=
  match headers with
  | [] => Ok tt
  | (name, values) :: rest =>
      _ ← parse_header_name name;
      _ ← with_context ("invalid matcher for header " ++ name) (compile_value_matchers values);
      validate_header_constraints rest
  end.

Fixpoint validate_strip_request_headers (names : list str) : result Anyhow unit :=
  match names with
  | [] => Ok tt
  | name :: rest => _ ← parse_header_name name; validate_strip_request_headers rest
  end.

Definition exactly_one : result Anyhow unit :=
  Err ["expected exactly one of secret_env_var or secret_file"].

Fixpoint validate_injected_headers (headers : list InjectedHeaderConfig) : result Anyhow unit :=
  match headers with
  | [] => Ok tt
  | header :: rest =>
      _ ← parse_header_name (cfg_name header);
      _ ← match secret_env_var header, secret_file header with
          | Some v, None =>
              if is_empty (trim v) then Err ["secret_env_var must not be empty"] else Ok tt
          | None, Some f => _ ← parse_secret_file f; Ok tt
          | _, _ => exactly_one
          end;
      validate_injected_headers rest
  end.

Definition hook_field (index : N) (field : str) : str :=
  "network.mitm_hooks[" ++ format_number index ++ "]." ++ field.

Definition validate_hook (index : N) (hook : MitmHookConfig) : result Anyhow unit :=
  let invalid field {A} (r : result Anyhow A) :=
    with_context ("invalid " ++ hook_field index field) r in
  let m := cfg_matcher hook in
  host_ ← invalid "host" (normalize_hook_host (cfg_host hook));
  ms ← invalid "match.methods" (normalize_methods (cfg_methods m));
  if is_empty ms then Err [hook_field index "match.methods must not be empty"] else
  ps ← invalid "match.path_prefixes" (compile_path_matchers (cfg_path_prefixes m));
  if is_empty ps then Err [hook_field index "match.path_prefixes must not be empty"] else
  if bool_decide (is_Some (cfg_body m))
  then Err [hook_field index
              "match.body is reserved for a future release and is not yet supported"] else
  _ ← invalid "match.query" (validate_query_constraints (cfg_query m));
  _ ← invalid "match.headers" (validate_header_constraints (cfg_headers m));
  _ ← invalid "actions.strip_request_headers"
        (validate_strip_request_headers (cfg_strip_request_headers (cfg_actions hook)));
  _ ← invalid "actions.inject_request_headers"
        (validate_injected_headers (cfg_inject_request_headers (cfg_actions hook)));
  if is_empty host_ then Err [hook_field index "host must not be empty"] else Ok tt.

Fixpoint validate_hooks (index : N) (hooks : list MitmHookConfig) : result Anyhow unit :=
  match hooks with
  | [] => Ok tt
  | hook :: rest => _ ← validate_hook index hook; validate_hooks (index + 1) rest
  end.

Definition validate_mitm_hook_config (config : NetworkProxyConfig) : result Anyhow unit :=
  let hooks := mitm_hooks (network config) in
  if is_empty hooks then Ok tt
  else if negb (mitm (network config)) then Err ["network.mitm_hooks requires network.mitm = true"]
  else validate_hooks 0 hooks.

Section Resolvers.
Context (resolve_env_var : str -> option str) (read_secret_file : PathBuf -> result Anyhow str).

Definition compile_injected_header (header : InjectedHeaderConfig)
    : result Anyhow ResolvedInjectedHeader :=
  name ← parse_header_name (cfg_name header);
  '(secret, source) ←
    match secret_env_var header, secret_file header with
    | Some env_var, None =>
        match resolve_env_var env_var with
        | Some value => Ok (value, EnvVar env_var)
        | None => Err ["missing required environment variable " ++ env_var]
        end
    | None, Some f =>
        path ← parse_secret_file f;
        value ← read_secret_file path;
        Ok (value, File path)
    | _, _ => Err ["expected exactly one of secret_env_var or secret_file"]
    end;
  let prefix := default [] (cfg_prefix header) in
  value ← with_context ("invalid value for injected header " ++ cfg_name header)
            (HeaderValue_from_str (prefix ++ secret));
  Ok (mkInjected name value source).

Definition compile_query (kv : str * list str) : result Anyhow QueryConstraint :=
  name ← normalize_query_name kv.1;
  values ← compile_value_matchers kv.2;
  Ok (mkQuery name values).

Definition compile_header (kv : str * list str) : result Anyhow HeaderConstraint :=
  name ← parse_header_name kv.1;
  values ← compile_value_matchers kv.2;
  Ok (mkHeader name values).

Definition compile_hook (hook : MitmHookConfig) : result Anyhow MitmHook :=
  let m := cfg_matcher hook in
  host_ ← normalize_hook_host (cfg_host hook);
  methods ← normalize_methods (cfg_methods m);
  prefixes ← compile_path_matchers (cfg_path_prefixes m);
  query ← mapM compile_query (cfg_query m);
  headers ← mapM compile_header (cfg_headers m);
  strip ← mapM parse_header_name (cfg_strip_request_headers (cfg_actions hook));
  inject ← mapM (fun header =>
             with_context ("failed to compile injected header " ++ cfg_name header)
               (compile_injected_header header))
             (cfg_inject_request_headers (cfg_actions hook));
  Ok (mkHook host_ (mkMatcher methods prefixes query headers) (mkActions strip inject)).

Fixpoint compile_hooks (hooks : list MitmHookConfig) (hooks_by_host : MitmHooksByHost)
    : result Anyhow MitmHooksByHost :=
  match hooks with
  | [] => Ok hooks_by_host
  | hook :: rest =>
      h ← compile_hook hook;
      compile_hooks rest
        (<[hook_host h := default [] (hooks_by_host !! hook_host h) ++ [h]]> hooks_by_host)
  end.

Definition compile_mitm_hooks_with_resolvers (config : NetworkProxyConfig)
    : result Anyhow MitmHooksByHost :=
  _ ← validate_mitm_hook_config config;
  compile_hooks (mitm_hooks (network config)) ∅.
End Resolvers.

(** The environment and [std::fs::read_to_string] of a secret. *)
Definition compile_mitm_hooks (env_var : str -> option str) (config : NetworkProxyConfig)
    : result Anyhow MitmHooksByHost :=
  compile_mitm_hooks_with_resolvers env_var
    (fun path =>
       match read_to_string path with
       | Some value => Ok (trim value)
       | None => Err ["failed to read secret file " ++ render path]
       end) config.
End Compile.

(** ** Lemmas *)

Lemma mapM_Ok {E A B} (f : A -> result E B) l k :
  mapM f l = Ok k <-> Forall2 (fun x y => f x = Ok y) l k.
Proof.
  revert k. induction l as [|x l IH]; intros k; cbn.
  { split; [by intros [= <-]|by intros ->%Forall2_nil_inv_l]. }
  split.
  - destruct (f x) as [y|] eqn:Ex; [|done]. cbn.
    destruct (mapM f l) as [ys|] eqn:El; [|done]. cbn. intros [= <-].
    constructor; [done|]. by apply IH.
  - intros (y & ys & Hy & Hys%IH & ->)%Forall2_cons_inv_l. by rewrite Hy, Hys.
Qed.

Lemma mapM_is_ok {E A B} (f : A -> result E B) l :
  is_ok (mapM f l) = forallb (fun x => is_ok (f x)) l.
Proof.
  induction l as [|x l IH]; [done|]. cbn. destruct (f x) as [y|]; [|done]. cbn.
  rewrite <- IH. by destruct (mapM f l).
Qed.

Lemma is_ok_bind {E A B} (r : result E A) (f : A -> result E B) :
  is_ok (r ≫= f) = match r with Ok x => is_ok (f x) | Err _ => false end.
Proof. by destruct r. Qed.

Lemma is_ok_context {A} c (r : result Anyhow A) : is_ok (with_context c r) = is_ok r.
Proof. by destruct r. Qed.

Section Lemmas.
Context {globs : Globs} {http : Http} {json : Json} {os : Os}.
Variables (resolve_env_var : str -> option str) (read_secret_file : PathBuf -> result Anyhow str).

Abbreviation compile := (compile_mitm_hooks_with_resolvers resolve_env_var read_secret_file).
Abbreviation compile_one := (compile_hook resolve_env_var read_secret_file).

Definition for_host (host_ : str) (hooks : list MitmHook) : list MitmHook :=
  List.filter (fun h => bool_decide (hook_host h = host_)) hooks.

(** The hooks of a host, [None] without any. *)
Definition hooks_of (host_ : str) (hooks : list MitmHook) : option (list MitmHook) :=
  if is_empty (for_host host_ hooks) then None else Some (for_host host_ hooks).

Lemma hooks_of_snoc host_ hooks h :
  hooks_of host_ (hooks ++ [h]) =
  if bool_decide (hook_host h = host_)
  then Some (default [] (hooks_of host_ hooks) ++ [h]) else hooks_of host_ hooks.
Proof.
  unfold hooks_of, for_host. rewrite List.filter_app. cbn [List.filter].
  case_bool_decide; cbn [app]; [|by rewrite app_nil_r].
  destruct (List.filter _ hooks) as [|x l]; [done|]. by destruct l.
Qed.

Lemma compile_hooks_spec cfgs done_ acc :
  (forall h, acc !! h = hooks_of h done_) ->
  match compile_hooks resolve_env_var read_secret_file cfgs acc, mapM compile_one cfgs with
  | Ok m, Ok hs => forall h, m !! h = hooks_of h (done_ ++ hs)
  | Err e, Err e' => e = e'
  | _, _ => False
  end.
Proof.
  revert done_ acc. induction cfgs as [|c cfgs IH]; intros done_ acc Hacc; cbn [compile_hooks mapM].
  { cbn. intros h. by rewrite app_nil_r. }
  destruct (compile_one c) as [hk|e] eqn:Ec; cbn [mbind result_bind]; [|done].
  set (acc' := <[_ := _]> acc).
  assert (forall h, acc' !! h = hooks_of h (done_ ++ [hk])) as Hacc'.
  { intros h. subst acc'. rewrite hooks_of_snoc. case_bool_decide as Hh.
    - subst h. by rewrite lookup_insert_eq, Hacc.
    - by rewrite lookup_insert_ne. }
  specialize (IH (done_ ++ [hk]) acc' Hacc').
  destruct (compile_hooks _ _ cfgs acc') as [m|e]; destruct (mapM compile_one cfgs) as [hs|e'];
    try done.
  intros h. cbn. by rewrite IH, <- app_assoc.
Qed.

(** The groups of a compiled configuration are its hooks by host. *)
Lemma compile_groups config m :
  compile config = Ok m ->
  exists hs, mapM compile_one (mitm_hooks (network config)) = Ok hs /\
             forall h, m !! h = hooks_of h hs.
Proof.
  unfold compile_mitm_hooks_with_resolvers.
  destruct (validate_mitm_hook_config config); [|done]. cbn [mbind result_bind]. intros Hm.
  pose proof (compile_hooks_spec (mitm_hooks (network config)) [] ∅) as H.
  rewrite Hm in H. destruct (mapM compile_one _) as [hs|].
  - exists hs. split; [done|]. apply H. intros h. apply lookup_empty.
  - destruct H. intros h. apply lookup_empty.
Qed.

Lemma first_match_spec hooks req :
  match first_match hooks req with
  | NoHooksForHost => False
  | Matched acts =>
      exists pre h post, hooks = pre ++ h :: post /\
        Forall (fun h => hook_matches h req = false) pre /\
        hook_matches h req = true /\ acts = actions h
  | HookedHostNoMatch => Forall (fun h => hook_matches h req = false) hooks
  end.
Proof.
  induction hooks as [|h hooks IH]; cbn [first_match]; [constructor|].
  destruct (hook_matches h req) eqn:E.
  - exists [], h, hooks. by split_and!.
  - destruct (first_match hooks req); [done| |by constructor].
    destruct IH as (pre & h' & post & -> & Hpre & Hm & ->).
    exists (h :: pre), h', post. split_and!; try done. by constructor.
Qed.
End Lemmas.

Section Validation.
Context {globs : Globs} {http : Http} {json : Json} {os : Os}.

Lemma normalize_query_name_ok name : is_ok (normalize_query_name name) = negb (is_empty name).
Proof. unfold normalize_query_name. by destruct (is_empty name). Qed.

Lemma validated_query_compiles q :
  is_ok (validate_query_constraints q) = true -> is_ok (mapM compile_query q) = true.
Proof.
  rewrite mapM_is_ok. induction q as [|[name values] q IH]; [done|].
  cbn [validate_query_constraints forallb]. unfold compile_query at 1. cbn [fst snd].
  unfold normalize_query_name at 1 2. destruct (is_empty name) eqn:E; [done|].
  cbn [mbind result_bind]. rewrite E. destruct (is_empty values); [done|].
  destruct (compile_value_matchers values); [|done]. apply IH.
Qed.

Lemma validated_headers_compile q :
  is_ok (validate_header_constraints q) = true -> is_ok (mapM compile_header q) = true.
Proof.
  rewrite mapM_is_ok. induction q as [|[name values] q IH]; [done|].
  cbn [validate_header_constraints forallb]. unfold compile_header at 1. cbn [fst snd].
  destruct (parse_header_name name); [|done]. cbn [mbind result_bind].
  destruct (compile_value_matchers values); [|done]. apply IH.
Qed.

Lemma validated_strip_compiles l :
  is_ok (validate_strip_request_headers l) = true -> is_ok (mapM parse_header_name l) = true.
Proof.
  rewrite mapM_is_ok. induction l as [|n l IH]; [done|]. cbn.
  destruct (parse_header_name n); [|done]. apply IH.
Qed.

(** What a valid hook satisfies. *)
Lemma validate_hook_ok i hook :
  is_ok (validate_hook i hook) = true ->
  let m := cfg_matcher hook in
  is_ok (normalize_hook_host (cfg_host hook)) = true /\
  is_ok (normalize_methods (cfg_methods m)) = true /\ cfg_methods m <> [] /\
  is_ok (compile_path_matchers (cfg_path_prefixes m)) = true /\ cfg_path_prefixes m <> [] /\
  is_ok (validate_query_constraints (cfg_query m)) = true /\
  is_ok (validate_header_constraints (cfg_headers m)) = true /\
  is_ok (validate_strip_request_headers (cfg_strip_request_headers (cfg_actions hook))) = true.
Proof.
  unfold validate_hook.
  destruct (normalize_hook_host _); [|done]. cbn [with_context map_err mbind result_bind].
  destruct (normalize_methods _) as [ms|] eqn:Em; [|done]. cbn [with_context map_err mbind result_bind].
  destruct (is_empty ms) eqn:Ems; [done|].
  destruct (compile_path_matchers _) as [ps|] eqn:Ep; [|done]. cbn [with_context map_err mbind result_bind].
  destruct (is_empty ps) eqn:Eps; [done|].
  case_bool_decide; [done|].
  destruct (validate_query_constraints _); [|done]. cbn [with_context map_err mbind result_bind].
  destruct (validate_header_constraints _); [|done]. cbn [with_context map_err mbind result_bind].
  destruct (validate_strip_request_headers _); [|done]. cbn [is_ok].
  intros _. split_and!; try done.
  - intros E. rewrite E in Em. injection Em as <-. discriminate Ems.
  - intros E. rewrite E in Ep. injection Ep as <-. discriminate Eps.
Qed.

Lemma validate_hooks_each i hooks hook :
  is_ok (validate_hooks i hooks) = true -> hook ∈ hooks ->
  exists j, is_ok (validate_hook j hook) = true.
Proof.
  revert i. induction hooks as [|h hooks IH]; intros i; [by intros _ ?%not_elem_of_nil|].
  cbn [validate_hooks]. destruct (validate_hook i h) eqn:E; [|done]. cbn [mbind result_bind].
  intros Hv [->|Hin]%elem_of_cons; [exists i; by rewrite E|by eapply IH].
Qed.

Lemma validated_each config hook :
  is_ok (validate_mitm_hook_config config) = true -> hook ∈ mitm_hooks (network config) ->
  exists j, is_ok (validate_hook j hook) = true.
Proof.
  unfold validate_mitm_hook_config. destruct (is_empty _) eqn:E.
  { apply is_empty_true in E. rewrite E. by intros _ ?%not_elem_of_nil. }
  destruct (negb _); [done|]. apply validate_hooks_each.
Qed.

Variables (resolve_env_var : str -> option str) (read_secret_file : PathBuf -> result Anyhow str).

Lemma validated_hook_compiles i hook :
  is_ok (validate_hook i hook) = true ->
  (forall header, header ∈ cfg_inject_request_headers (cfg_actions hook) ->
     is_ok (compile_injected_header resolve_env_var read_secret_file header) = true) ->
  is_ok (compile_hook resolve_env_var read_secret_file hook) = true.
Proof.
  intros (Hh & Hm & _ & Hp & _ & Hq & Hhd & Hs)%validate_hook_ok Hinj. unfold compile_hook.
  destruct (normalize_hook_host _); [|done]. cbn [mbind result_bind].
  destruct (normalize_methods _); [|done]. cbn [mbind result_bind].
  destruct (compile_path_matchers _); [|done]. cbn [mbind result_bind].
  apply validated_query_compiles in Hq. destruct (mapM compile_query _); [|done].
  apply validated_headers_compile in Hhd. cbn [mbind result_bind].
  destruct (mapM compile_header _); [|done]. cbn [mbind result_bind].
  apply validated_strip_compiles in Hs. destruct (mapM parse_header_name _); [|done].
  cbn [mbind result_bind]. rewrite is_ok_bind.
  match goal with |- context [mapM ?f ?l] => assert (is_ok (mapM f l) = true) as H end.
  { rewrite mapM_is_ok. apply forallb_forall. intros x Hx%list_elem_of_In.
    rewrite is_ok_context. by apply Hinj. }
  by destruct (mapM _ _).
Qed.

(** Validation is complete: what it accepts fails to compile only for a
    secret that does not resolve or is not a header value. *)
Theorem validated_hooks_compile config :
  is_ok (validate_mitm_hook_config config) = true ->
  (forall hook header, hook ∈ mitm_hooks (network config) ->
     header ∈ cfg_inject_request_headers (cfg_actions hook) ->
     is_ok (compile_injected_header resolve_env_var read_secret_file header) = true) ->
  is_ok (compile_mitm_hooks_with_resolvers resolve_env_var read_secret_file config) = true.
Proof.
  intros Hv Hinj. unfold compile_mitm_hooks_with_resolvers.
  pose proof (validated_each config) as Heach.
  destruct (validate_mitm_hook_config config) as [[]|]; [|done]. cbn [mbind result_bind].
  pose proof (compile_hooks_spec resolve_env_var read_secret_file
    (mitm_hooks (network config)) [] ∅ (fun h => lookup_empty h)) as H.
  assert (is_ok (mapM (compile_hook resolve_env_var read_secret_file)
                   (mitm_hooks (network config))) = true) as Hok.
  { rewrite mapM_is_ok. apply forallb_forall. intros hook Hin%list_elem_of_In.
    destruct (Heach hook eq_refl Hin) as [j Hj].
    apply (validated_hook_compiles j hook Hj). intros header. by apply Hinj. }
  destruct (compile_hooks _ _ _ _), (mapM _ _); done.
Qed.

(** A hooked host is closed except for its hooks.  Of a compiled
    configuration, whose hooks compile one by one, a request to a host
    without hooks is not touched; a request to a hooked host, however its
    name is written, gets the actions of the first configured hook of that
    host that matches it, and is refused when none does.  A hook whose
    actions are given names the host exactly and lists the request's
    method. *)
Theorem compiled_hooks_enforced config m :
  compile_mitm_hooks_with_resolvers resolve_env_var read_secret_file config = Ok m ->
  exists hs,
    mapM (compile_hook resolve_env_var read_secret_file) (mitm_hooks (network config)) = Ok hs /\
    forall host_ req,
      let hooks := for_host (normalize_host host_) hs in
      match evaluate_mitm_hooks m host_ req with
      | NoHooksForHost => hooks = []
      | Matched acts =>
          exists pre h post, hooks = pre ++ h :: post /\
            Forall (fun h => hook_matches h req = false) pre /\
            hook_matches h req = true /\ acts = actions h /\
            hook_host h = normalize_host host_ /\
            to_ascii_uppercase (req_method req) ∈ methods (matcher h)
      | HookedHostNoMatch => hooks <> [] /\ Forall (fun h => hook_matches h req = false) hooks
      end.
Proof.
  intros (hs & Hhs & Hm)%compile_groups. exists hs. split; [done|]. intros host_ req hooks.
  unfold evaluate_mitm_hooks. rewrite Hm. unfold hooks_of. fold hooks.
  destruct (is_empty hooks) eqn:E; [by apply is_empty_true|].
  apply is_empty_false in E. pose proof (first_match_spec hooks req) as Hf.
  destruct (first_match hooks req) as [|acts|]; [done| |done].
  destruct Hf as (pre & h & post & Hl & Hpre & Hh & ->). exists pre, h, post.
  split_and!; try done.
  - assert (h ∈ hooks) as Hin by (rewrite Hl; apply elem_of_app; right; by left).
    apply list_elem_of_In, filter_In in Hin as [_ Hin]. by apply bool_decide_eq_true in Hin.
  - unfold hook_matches in Hh. destruct (existsb _ (methods (matcher h))) eqn:Em; [|done].
    apply existsb_exists in Em as (a & Ha & ->%bool_decide_eq_true). by apply list_elem_of_In.
Qed.
End Validation.

(** ** Actions *)

Section Actions.
Context {http : Http}.

Lemma get_all_strip n names headers :
  get_all n (fold_left (fun h x => header_remove x h) names headers) =
  if decide (n ∈ names) then [] else get_all n headers.
Proof.
  revert headers. induction names as [|m names IH]; intros headers; cbn [fold_left].
  { by destruct (decide _) as [?%not_elem_of_nil|]. }
  rewrite IH, get_all_remove.
  destruct (decide (n ∈ names)) as [Hn|Hn], (decide (n = m)) as [->|Hm];
    destruct (decide (n ∈ m :: names)) as [H|H] || destruct (decide (m ∈ m :: names)) as [H|H];
    try done; try (destruct H; apply elem_of_cons; tauto).
  apply elem_of_cons in H as [?|?]; done.
Qed.

Definition injected_for (n : HeaderName) (l : list ResolvedInjectedHeader) :=
  List.filter (fun i => bool_decide (injected_name i = n)) l.

Lemma get_all_inject n l headers :
  get_all n (fold_left (fun h i => header_insert (injected_name i) (injected_value i) h) l headers) =
  match last (injected_for n l) with
  | Some i => [injected_value i]
  | None => get_all n headers
  end.
Proof.
  induction l as [|i l IH] using rev_ind; [done|].
  rewrite fold_left_app. cbn [fold_left]. rewrite get_all_insert, IH.
  unfold injected_for. rewrite List.filter_app. cbn [List.filter].
  destruct (decide (n = injected_name i)) as [->|Hn].
  - rewrite bool_decide_eq_true_2 by done. by rewrite last_snoc.
  - rewrite bool_decide_eq_false_2 by congruence. by rewrite app_nil_r.
Qed.

(** What a hook injects is what is sent.  After the actions are applied,
    an injected header has exactly the value of its last injection, whatever
    the client sent; a header that is stripped and not injected is gone; all
    other headers are as the client sent them. *)
Theorem hook_actions_replace acts headers n :
  get_all n (apply_mitm_hook_actions headers (Some acts)) =
  match last (injected_for n (inject_request_headers acts)) with
  | Some i => [injected_value i]
  | None => if decide (n ∈ strip_request_headers acts) then [] else get_all n headers
  end.
Proof. cbn. by rewrite get_all_inject, get_all_strip. Qed.
End Actions.

(** ** At work *)

Definition demo_http : Http := {|
  HeaderName := str;
  HeaderName_from_bytes n := if is_empty n then Err ["invalid header name"]
                             else Ok (to_ascii_lowercase n);
  HeaderValue := str;
  HeaderValue_from_str v := if contains_char v NL then Err ["invalid header value"] else Ok v;
  to_str v := Some v;
  HOST := "host";
  HeaderMap := str -> list str;
  get_all n h := h n;
  header_remove m h := fun n => if decide (n = m) then [] else h n;
  header_insert m v h := fun n => if decide (n = m) then [v] else h n;
  form_urlencoded_parse q :=
    map (fun p => default (p, []) (split_once 61%N p)) (split 38%N q);
  get_all_remove n m h := eq_refl;
  get_all_insert n m v h := eq_refl
|}.

Definition demo_json : Json := {| Value := unit |}.
Definition demo_os : Os := mem_os None None [] [].

Definition demo_hook : MitmHookConfig (H := demo_json) :=
  mkHookConfig demo_json "API.github.com"
    (mkHookMatch demo_json ["post"; "PUT"] ["/repos/openai/"] [("draft", ["1"])] [] None)
    (mkHookActionsConfig ["X-Token"]
       [mkInjectedConfig "Authorization" (Some "TOKEN") None (Some "Bearer ")]).

Definition demo_config : NetworkProxyConfig (H := demo_json) :=
  mkConfig demo_json
    (mkSettings demo_json true [] true [] true true false false Limited None None false true
       [demo_hook]).

Definition demo_env (name : str) : option str :=
  if bool_decide (name = "TOKEN") then Some "secret" else None.
Definition no_secret_files (_ : PathBuf) : result Anyhow str := Err ["no such file"].

Definition demo_request (method path : str) : Request (http := demo_http) :=
  mkRequest (http := demo_http) method path (Some "draft=1&x=2") None
    (fun n => if decide (n = "authorization") then ["mine"] else []).

Definition demo_hooks :=
  compile_mitm_hooks_with_resolvers (globs := wildcards) (http := demo_http) (json := demo_json)
    (os := demo_os) demo_env no_secret_files demo_config.

(** The hook lets one request through, with the secret in place of what the
    client sent, and refuses another. *)
Example demo_hooks_work :
  match demo_hooks with
  | Ok m =>
      match evaluate_mitm_hooks m "api.GitHub.com:443" (demo_request "POST" "/repos/openai/x") with
      | Matched acts =>
          bool_decide (get_all (Http := demo_http) "authorization"
            (apply_mitm_hook_actions (http := demo_http)
               (req_headers (demo_request "POST" "/repos/openai/x")) (Some acts))
            = ["Bearer secret"])
      | _ => false
      end
      && match evaluate_mitm_hooks m "api.github.com" (demo_request "GET" "/repos/openai/x") with
         | HookedHostNoMatch => true | _ => false end
      && match evaluate_mitm_hooks m "github.com" (demo_request "GET" "/") with
         | NoHooksForHost => true | _ => false end
  | Err _ => false
  end = true.
Proof. by vm_compute. Qed.

Lemma compiled_hooks_enforced_witness :
  exists m, demo_hooks = Ok m /\
    exists hs, mapM (compile_hook (globs := wildcards) (http := demo_http) (json := demo_json)
                       (os := demo_os) demo_env no_secret_files)
                 (mitm_hooks (H := demo_json) (network (H := demo_json) demo_config)) = Ok hs /\
               length hs = 1.
Proof.
  assert (is_ok demo_hooks = true) as Hok by (vm_compute; reflexivity).
  destruct demo_hooks as [m|] eqn:E; [|discriminate Hok].
  exists m. split; [reflexivity|].
  destruct (compiled_hooks_enforced (globs := wildcards) (http := demo_http) (json := demo_json)
    (os := demo_os) demo_env no_secret_files demo_config m E) as (hs & Hhs & _).
  exists hs. split; [exact Hhs|]. apply mapM_Ok, Forall2_length in Hhs. symmetry. exact Hhs.
Defined.
