(* ===== verification/HopHeaders.v ===== *)
(** * Hop-by-hop headers of a forwarded request

    [network-proxy/src/http_proxy.rs], [remove_hop_by_hop_request_headers]:
    before a plain request is sent on, the headers that concern the client's
    own connection are dropped, those its [Connection] header names among
    them. *)

From S2P Require Import Prelude RustStr AbsolutePath NetHost NetConfig MitmHook.
#[local] Open Scope str_scope.

(** The header constants of the [http] crate. *)
Class HopNames `{Http} := {
  CONNECTION : HeaderName;
  KEEP_ALIVE : HeaderName;
  PROXY_CONNECTION : HeaderName;
  PROXY_AUTHORIZATION : HeaderName;
  TRAILER : HeaderName;
  TRANSFER_ENCODING : HeaderName;
  UPGRADE : HeaderName
}.

Section Hop.
Context {http : Http} {names : HopNames}.

(** The names in one [Connection] value. *)
Definition connection_headers (raw_connection : HeaderValue) : list str :=
  match to_str raw_connection with
  | Some text => List.filter (fun token => negb (is_empty token)) (map trim (split 44%N text))
  | None => []
  end.

Definition remove_token (headers : HeaderMap) (token : str) : HeaderMap :=
  match HeaderName_from_bytes token with
  | Ok name => header_remove name headers
  | Err _ => headers
  end.

(** The loop; [None] when the fuel is out. *)
Fixpoint connection_loop (fuel : nat) (headers : HeaderMap) : option HeaderMap :=
  match head (get_all CONNECTION headers) with
  | None => Some headers
  | Some raw_connection =>
      match fuel with
      | O => None
      | S fuel =>
          let headers := header_remove CONNECTION headers in
          connection_loop fuel (fold_left remove_token (connection_headers raw_connection) headers)
      end
  end.

(** The name [te], from its bytes. *)
Definition short_hop_header_name : str := [116; 101]%N.

Definition fixed_hop_names : list HeaderName :=
  [KEEP_ALIVE; PROXY_CONNECTION; PROXY_AUTHORIZATION; TRAILER; TRANSFER_ENCODING; UPGRADE].

Definition remove_hop_by_hop_request_headers (headers : HeaderMap) : option HeaderMap :=
  headers ← connection_loop 1 headers;
  let headers := fold_left (fun h name => header_remove name h) fixed_hop_names headers in
  Some (remove_token headers short_hop_header_name).

(** ** Lemmas *)

Definition token_names (tokens : list str) : list HeaderName :=
  omap (fun t => match HeaderName_from_bytes t with Ok n => Some n | Err _ => None end) tokens.

Lemma get_all_tokens n tokens headers :
  get_all n (fold_left remove_token tokens headers) =
  if decide (n ∈ token_names tokens) then [] else get_all n headers.
Proof.
  rewrite <- get_all_strip. f_equal. revert headers.
  induction tokens as [|t tokens IH]; intros headers; [done|].
  cbn [fold_left]. rewrite IH. unfold remove_token. cbn.
  by destruct (HeaderName_from_bytes t).
Qed.

(** What the first [Connection] value names, with the fixed list. *)
Definition hop_names (headers : HeaderMap) : list HeaderName :=
  match head (get_all CONNECTION headers) with
  | Some raw => CONNECTION :: token_names (connection_headers raw)
  | None => []
  end ++ fixed_hop_names ++ token_names [short_hop_header_name].

(** The first round removes every [Connection] header, so the loop ends
    after it. *)
Lemma connection_loop_once headers :
  connection_loop 1 headers =
  Some match head (get_all CONNECTION headers) with
       | Some raw => fold_left remove_token (connection_headers raw) (header_remove CONNECTION headers)
       | None => headers
       end.
Proof.
  cbn [connection_loop]. destruct (head _) as [raw|]; [|done].
  assert (get_all CONNECTION (fold_left remove_token (connection_headers raw)
            (header_remove CONNECTION headers)) = []) as ->; [|done].
  rewrite get_all_tokens, get_all_remove. destruct (decide _); [done|by rewrite decide_True].
Qed.

Lemma decide_app {A B} `{EqDecision A} (x : A) (l k : list A) (y z : B) :
  (if decide (x ∈ k) then y else if decide (x ∈ l) then y else z) =
  (if decide (x ∈ l ++ k) then y else z).
Proof.
  destruct (decide (x ∈ l ++ k)) as [[?|?]%elem_of_app|[? ?]%not_elem_of_app];
    destruct (decide (x ∈ k)), (decide (x ∈ l)); done.
Qed.

(** The hop-by-hop headers are dropped and nothing else.  The loop over
    the [Connection] headers ends after one round; afterwards there is no
    [Connection] header, no header the first [Connection] value names and
    none of the fixed list, and every other header is as the client sent
    it. *)
Theorem hop_by_hop_removed headers :
  exists headers', remove_hop_by_hop_request_headers headers = Some headers' /\
    (forall n, get_all n headers' =
       if decide (n ∈ hop_names headers) then [] else get_all n headers) /\
    get_all CONNECTION headers' = [].
Proof.
  unfold remove_hop_by_hop_request_headers. rewrite connection_loop_once. cbn [mbind option_bind].
  eexists. split; [reflexivity|].
  match goal with |- (forall n, get_all n ?h = _) /\ _ => assert (Hall : forall n,
    get_all n h = if decide (n ∈ hop_names headers) then [] else get_all n headers) end.
  { intros n.
    change (remove_token ?h ?t) with (fold_left remove_token [t] h).
    rewrite get_all_tokens, get_all_strip. unfold hop_names.
    destruct (head _) as [raw|].
    - rewrite get_all_tokens, get_all_remove.
      change (CONNECTION :: ?l) with ([CONNECTION] ++ l).
      rewrite <- !decide_app. repeat (destruct (decide _) || done).
      all: set_solver.
    - by rewrite app_nil_l, <- decide_app. }
  split; [done|]. rewrite Hall. destruct (decide _) as [|Hn]; [done|].
  unfold hop_names in Hn. destruct (get_all CONNECTION headers) as [|v l]; [done|].
  cbn in Hn. set_solver.
Qed.
End Hop.

(** ** At work *)

Definition demo_hop_names : HopNames (H := demo_http) := {|
  CONNECTION := "connection" : HeaderName (Http := demo_http);
  KEEP_ALIVE := "keep-alive" : HeaderName (Http := demo_http);
  PROXY_CONNECTION := "proxy-connection" : HeaderName (Http := demo_http);
  PROXY_AUTHORIZATION := "proxy-authorization" : HeaderName (Http := demo_http);
  TRAILER := "trailer" : HeaderName (Http := demo_http);
  TRANSFER_ENCODING := "transfer-encoding" : HeaderName (Http := demo_http);
  UPGRADE := "upgrade" : HeaderName (Http := demo_http)
|}.

Definition demo_headers (connection : list str) : HeaderMap (Http := demo_http) := fun n =>
  if bool_decide (n = "connection") then connection
  else if bool_decide (n ∈ ["x-one"; "x-two"; "te"; "accept"]) then ["value"] else [].

Definition kept_names (connection : list str) : option (list str) :=
  h ← remove_hop_by_hop_request_headers (http := demo_http) (names := demo_hop_names)
        (demo_headers connection);
  Some (List.filter (fun n => negb (is_empty (h n)))
          ["connection"; "x-one"; "x-two"; "te"; "accept"]).

(** Removing the name removes every [Connection] header, so what the second
    one names stays. *)
Example second_connection_ignored :
  kept_names ["X-One, x-two"] = Some ["accept"] /\
  kept_names ["X-One"; "x-two"] = Some ["x-two"; "accept"].
Proof. vm_compute. split; reflexivity. Qed.
