(* ===== verification/NetPolicy.v ===== *)
(** * Managed constraints of the network proxy

    [network-proxy/src/state.rs]: a configuration is validated against the
    constraints an administrator manages and compiled to the state the proxy
    runs on.  The theorem states what a validated configuration satisfies. *)

From S2P Require Import Prelude RustStr AbsolutePath FsPolicy ExecRule IpAddr NetHost.
From S2P Require Import NetConfig MitmHook.
#[local] Open Scope str_scope.

(** The interception state of [mitm.rs]: certificates and an upstream client. *)
Class Mitm := {
  MitmState : Type;
  MitmState_new (allow_upstream_proxy allow_local_binding : bool) : result Anyhow MitmState
}.

Record NetworkProxyConstraints := mkConstraints {
  c_enabled : option bool;
  c_mode : option NetworkMode;
  c_allow_upstream_proxy : option bool;
  c_dangerously_allow_non_loopback_proxy : option bool;
  c_dangerously_allow_all_unix_sockets : option bool;
  c_allowed_domains : option (list str);
  allowlist_expansion_enabled : option bool;
  c_denied_domains : option (list str);
  denylist_expansion_enabled : option bool;
  c_allow_unix_sockets : option (list str);
  c_allow_local_binding : option bool
}.

#[export] Instance NetworkProxyConstraints_eq_dec : EqDecision NetworkProxyConstraints.
Proof. solve_decision. Defined.

(** A text of an error: plain, or the debug print of a list. *)
Inductive ErrText :=
| Text (s : str)
| DebugList (l : list str).

Inductive NetworkProxyConstraintError :=
| InvalidValue (field_name : str) (candidate allowed : ErrText).

(** The [anyhow] error of a constraint error; lists are printed elsewhere. *)
Definition into_anyhow (e : NetworkProxyConstraintError) : Anyhow :=
  let '(InvalidValue field _ _) := e in ["invalid value for " ++ field].

Definition network_mode_rank (m : NetworkMode) : nat :=
  match m with Limited => 0 | Full => 1 end.

Record BlockedRequest := mkBlocked {
  br_host : str;
  br_reason : str;
  br_client : option str;
  br_method : option str;
  br_mode : option NetworkMode;
  br_protocol : str;
  br_decision : option str;
  br_source : option str;
  br_port : option N;
  br_timestamp : Z
}.

Section State.
Context {globs : Globs} {http : Http} {json : Json} {os : Os} {urls : Urls} {mitm_ : Mitm}.

(** [ConfigState] of [runtime.rs]. *)
Record ConfigState := mkConfigState {
  config : NetworkProxyConfig;
  allow_set : GlobSet;
  deny_set : GlobSet;
  mitm_state : option MitmState;
  hooks_by_host : MitmHooksByHost;
  constraints : NetworkProxyConstraints;
  blocked : list BlockedRequest;
  blocked_total : N
}.

Definition disabled : ErrText := Text "false (disabled by managed config)".

Definition invalid_value (field : str) (candidate allowed : ErrText)
    : result NetworkProxyConstraintError unit :=
  Err (InvalidValue field candidate allowed).

(** [candidate] may only be on where [max] is. *)
Definition validate_flag (field : str) (candidate max : bool)
    : result NetworkProxyConstraintError unit :=
  if candidate && negb max then invalid_value field (Text "true") disabled else Ok tt.

Definition validate_non_global_wildcard_domain_patterns (field : str) (patterns : list str)
    : result NetworkProxyConstraintError unit :=
  match List.find is_global_wildcard_domain_pattern patterns with
  | Some p =>
      Err (InvalidValue field (Text (trim p))
             (Text "exact hosts or scoped wildcards like *.example.com or **.example.com"))
  | None => Ok tt
  end.

Definition lower_set (l : list str) : gset str := list_to_set (map to_ascii_lowercase l).

(** The entries of [required] that [present] does not have; the order of a
    [HashSet] is unspecified. *)
Definition missing_entries (required present : gset str) : list str :=
  elements (required ∖ present).

Definition mode_name (m : NetworkMode) : str :=
  match m with Limited => "Limited" | Full => "Full" end.

Definition validate_allowed_domains (c : NetworkProxyConstraints) (allowed : list str)
    (config_allowed_domains : list str) (denied_domain_overrides : gset str)
    : result NetworkProxyConstraintError unit :=
  _ ← validate_non_global_wildcard_domain_patterns "network.allowed_domains" allowed;
  match allowlist_expansion_enabled c with
  | Some true =>
      let missing := missing_entries (lower_set allowed)
                       (lower_set config_allowed_domains ∪ denied_domain_overrides) in
      if is_empty missing then Ok tt
      else invalid_value "network.allowed_domains"
             (Text "missing managed allowed_domains entries") (DebugList missing)
  | Some false =>
      if decide (lower_set config_allowed_domains
                 = lower_set allowed ∖ denied_domain_overrides) then Ok tt
      else invalid_value "network.allowed_domains" (DebugList config_allowed_domains)
             (Text "must match managed allowed_domains")
  | None =>
      let managed_patterns := map parse_for_constraints allowed in
      let invalid := List.filter (fun entry =>
        negb (existsb (fun managed => allows managed (parse_for_constraints entry))
                managed_patterns)) config_allowed_domains in
      if is_empty invalid then Ok tt
      else invalid_value "network.allowed_domains" (DebugList invalid)
             (Text "subset of managed allowed_domains")
  end.

Definition validate_denied_domains (c : NetworkProxyConstraints) (denied : list str)
    (config_denied_domains : list str) : result NetworkProxyConstraintError unit :=
  _ ← validate_non_global_wildcard_domain_patterns "network.denied_domains" denied;
  match denylist_expansion_enabled c with
  | Some false =>
      if decide (lower_set config_denied_domains = lower_set denied) then Ok tt
      else invalid_value "network.denied_domains" (DebugList config_denied_domains)
             (Text "must match managed denied_domains")
  | Some true | None =>
      let missing := missing_entries (lower_set denied) (lower_set config_denied_domains) in
      if is_empty missing then Ok tt
      else invalid_value "network.denied_domains"
             (Text "missing managed denied_domains entries") (DebugList missing)
  end.

Definition validate_allow_unix_sockets (allowed : list str) (candidate : list str)
    : result NetworkProxyConstraintError unit :=
  let invalid := List.filter (fun entry =>
    negb (bool_decide (to_ascii_lowercase entry ∈ lower_set allowed))) candidate in
  if is_empty invalid then Ok tt
  else invalid_value "network.allow_unix_sockets" (DebugList invalid)
         (Text "subset of managed allow_unix_sockets").

Definition when {A} (o : option A) (f : A -> result NetworkProxyConstraintError unit)
    : result NetworkProxyConstraintError unit :=
  match o with Some a => f a | None => Ok tt end.

Definition validate_policy_against_constraints (cfg : NetworkProxyConfig)
    (c : NetworkProxyConstraints) : result NetworkProxyConstraintError unit :=
  let net := network cfg in
  let config_allowed_domains := default [] (allowed_domains net) in
  let config_denied_domains := default [] (denied_domains net) in
  let denied_domain_overrides := lower_set config_denied_domains in
  let config_allow_unix_sockets := allow_unix_sockets net in
  _ ← map_err (fun e => InvalidValue "network.mitm_hooks" (Text (default [] (head e)))
                          (Text "valid MITM hook configuration"))
        (validate_mitm_hook_config cfg);
  _ ← validate_non_global_wildcard_domain_patterns "network.denied_domains" config_denied_domains;
  _ ← when (c_enabled c) (validate_flag "network.enabled" (enabled net));
  _ ← when (c_mode c) (fun max_mode =>
        if network_mode_rank max_mode <? network_mode_rank (mode net)
        then invalid_value "network.mode" (Text (mode_name (mode net)))
               (Text (mode_name max_mode ++ " or more restrictive"))
        else Ok tt);
  _ ← validate_flag "network.allow_upstream_proxy" (allow_upstream_proxy net)
        (default true (c_allow_upstream_proxy c));
  _ ← validate_flag "network.dangerously_allow_non_loopback_proxy"
        (dangerously_allow_non_loopback_proxy net)
        (default true (c_dangerously_allow_non_loopback_proxy c));
  _ ← validate_flag "network.dangerously_allow_all_unix_sockets"
        (dangerously_allow_all_unix_sockets net)
        (default (bool_decide (c_allow_unix_sockets c = None))
           (c_dangerously_allow_all_unix_sockets c));
  _ ← when (c_allow_local_binding c)
        (validate_flag "network.allow_local_binding" (allow_local_binding net));
  _ ← when (c_allowed_domains c) (fun allowed =>
        validate_allowed_domains c allowed config_allowed_domains denied_domain_overrides);
  _ ← when (c_denied_domains c) (fun denied =>
        validate_denied_domains c denied config_denied_domains);
  when (c_allow_unix_sockets c) (fun allowed =>
    validate_allow_unix_sockets allowed config_allow_unix_sockets).

Definition build_config_state (env_var : str -> option str) (cfg : NetworkProxyConfig)
    (c : NetworkProxyConstraints) : result Anyhow ConfigState :=
  _ ← validate_unix_socket_allowlist_paths cfg;
  let allowed_domains_ := default [] (allowed_domains (network cfg)) in
  let denied_domains_ := default [] (denied_domains (network cfg)) in
  _ ← map_err into_anyhow
        (validate_non_global_wildcard_domain_patterns "network.denied_domains" denied_domains_);
  deny_set ← compile_denylist_globset denied_domains_;
  allow_set ← compile_allowlist_globset allowed_domains_;
  hooks ← compile_mitm_hooks env_var cfg;
  mitm_ ← (if mitm (network cfg)
           then m ← MitmState_new (allow_upstream_proxy (network cfg))
                      (allow_local_binding (network cfg)); Ok (Some m)
           else Ok None);
  Ok (mkConfigState cfg allow_set deny_set mitm_ hooks c [] 0).
End State.

(** ** What a configuration within its constraints satisfies *)

Abbreviation lower := to_ascii_lowercase.

(** The same pattern up to letter case. *)
Definition listed (p : str) (l : list str) : Prop := exists q, q ∈ l /\ lower p = lower q.

Definition no_wildcard (l : list str) : Prop :=
  Forall (fun p => is_global_wildcard_domain_pattern p = false) l.

Section Spec.
Context {globs : Globs} {http : Http} {json : Json} {os : Os} {urls : Urls}.
Variables (net : NetworkProxySettings) (c : NetworkProxyConstraints).

Abbreviation allowed := (default [] (allowed_domains net)).
Abbreviation denied := (default [] (denied_domains net)).

Definition allowed_within (managed : list str) : Prop :=
  no_wildcard managed /\
  match allowlist_expansion_enabled c with
  | Some true => forall p, p ∈ managed -> listed p allowed \/ listed p denied
  | Some false =>
      (forall p, p ∈ allowed -> listed p managed /\ ~ listed p denied) /\
      (forall p, p ∈ managed -> listed p allowed \/ listed p denied)
  | None =>
      forall p, p ∈ allowed -> exists q, q ∈ managed /\
        allows (parse_for_constraints q) (parse_for_constraints p) = true
  end.

Definition denied_within (managed : list str) : Prop :=
  no_wildcard managed /\
  (forall p, p ∈ managed -> listed p denied) /\
  (denylist_expansion_enabled c = Some false -> forall p, p ∈ denied -> listed p managed).

Record within_constraints : Prop := {
  w_enabled : c_enabled c = Some false -> enabled net = false;
  w_mode : c_mode c = Some Limited -> mode net = Limited;
  w_upstream : c_allow_upstream_proxy c = Some false -> allow_upstream_proxy net = false;
  w_non_loopback : c_dangerously_allow_non_loopback_proxy c = Some false ->
    dangerously_allow_non_loopback_proxy net = false;
  w_all_sockets :
    c_dangerously_allow_all_unix_sockets c = Some false \/
    (c_dangerously_allow_all_unix_sockets c = None /\ c_allow_unix_sockets c <> None) ->
    dangerously_allow_all_unix_sockets net = false;
  w_local_binding : c_allow_local_binding c = Some false -> allow_local_binding net = false;
  w_allowed l : c_allowed_domains c = Some l -> allowed_within l;
  w_denied l : c_denied_domains c = Some l -> denied_within l;
  w_sockets l p : c_allow_unix_sockets c = Some l -> p ∈ allow_unix_sockets net -> listed p l
}.
End Spec.

Section Validation.
Context {globs : Globs} {http : Http} {json : Json} {os : Os} {urls : Urls}.

Lemma lower_set_elem p l : lower p ∈ lower_set l <-> listed p l.
Proof.
  unfold lower_set, listed. rewrite elem_of_list_to_set, list_elem_of_In, in_map_iff.
  split; intros (q & H1 & H2); exists q; [|split]; rewrite ?list_elem_of_In in *; auto.
Qed.

Lemma lower_set_inv x l : x ∈ lower_set l -> exists p, p ∈ l /\ x = lower p.
Proof.
  unfold lower_set. rewrite elem_of_list_to_set, list_elem_of_In, in_map_iff.
  intros (p & <- & Hp). exists p. by rewrite list_elem_of_In.
Qed.

Lemma lower_set_sub (l : list str) (s : gset str) : lower_set l ⊆ s <-> forall p, p ∈ l -> lower p ∈ s.
Proof.
  split.
  - intros H p Hp. apply H, lower_set_elem. by exists p.
  - intros H x (p & Hp & ->)%lower_set_inv. by apply H.
Qed.

Lemma missing_entries_nil a b : is_empty (missing_entries a b) = true <-> a ⊆ b.
Proof.
  unfold missing_entries. rewrite is_empty_true, elements_empty_iff.
  split; [|apply subseteq_empty_difference]. intros H x Hx.
  destruct (decide (x ∈ b)) as [|Hn]; [done|]. exfalso.
  apply (not_elem_of_empty (C := gset str) x), H, elem_of_difference. done.
Qed.

Lemma no_wildcard_ok field l :
  is_ok (validate_non_global_wildcard_domain_patterns field l) = true <-> no_wildcard l.
Proof.
  unfold validate_non_global_wildcard_domain_patterns, no_wildcard.
  destruct (List.find _ l) as [p|] eqn:E.
  - apply find_some in E as [Hin Hw]. split; [done|]. rewrite Forall_forall.
    intros H. apply list_elem_of_In, H in Hin. congruence.
  - split; [intros _|done]. apply Forall_forall. intros p Hp.
    by apply (find_none _ _ E), list_elem_of_In.
Qed.

Lemma is_empty_filter {A} (f : A -> bool) l :
  is_empty (List.filter (fun x => negb (f x)) l) = true <-> forall x, x ∈ l -> f x = true.
Proof.
  rewrite is_empty_true. split.
  - intros H x Hx. destruct (f x) eqn:E; [done|].
    assert (In x (List.filter (fun x => negb (f x)) l)) as Hin.
    { apply filter_In. rewrite E. by rewrite <- list_elem_of_In. }
    by rewrite H in Hin.
  - intros H. destruct (List.filter _ l) as [|x r] eqn:E; [done|].
    assert (In x (List.filter (fun x => negb (f x)) l)) as Hin by (rewrite E; by left).
    apply filter_In in Hin as [Hx%list_elem_of_In Hf]. by rewrite H in Hf.
Qed.

Lemma is_ok_if {E} (b : bool) (e : E) : is_ok (if b then Ok tt else Err e) = b.
Proof. by destruct b. Qed.

Lemma is_ok_seq {E A} (r : result E A) (k : result E unit) :
  is_ok (_ ← r; k) = true <-> is_ok r = true /\ is_ok k = true.
Proof. destruct r; cbn; [tauto|]. split; [done|by intros [? _]]. Qed.

Lemma is_ok_when {A} (o : option A) f :
  is_ok (when o f) = true <-> forall a, o = Some a -> is_ok (f a) = true.
Proof. destruct o; cbn; [|done]. split; [by intros H ? [= <-]|by intros H; apply H]. Qed.

Lemma validate_flag_ok field candidate max :
  is_ok (validate_flag field candidate max) = true <-> (max = false -> candidate = false).
Proof. unfold validate_flag. destruct candidate, max; cbn; split; auto; intros H; by try discriminate (H eq_refl). Qed.

Lemma lower_set_difference a m d :
  lower_set a = lower_set m ∖ lower_set d <->
  (forall p, p ∈ a -> listed p m /\ ~ listed p d) /\
  (forall p, p ∈ m -> listed p a \/ listed p d).
Proof.
  split.
  - intros H. split; intros p Hp.
    + rewrite <- !lower_set_elem. apply elem_of_difference. rewrite <- H.
      apply lower_set_elem. by exists p.
    + destruct (decide (lower p ∈ lower_set d)) as [Hd|Hd]; [right; by apply lower_set_elem|left].
      apply lower_set_elem. rewrite H. apply elem_of_difference. split; [|done].
      apply lower_set_elem. by exists p.
  - intros [H1 H2]. apply set_eq. intros x. rewrite elem_of_difference. split.
    + intros (p & Hp & ->)%lower_set_inv. rewrite !lower_set_elem. by apply H1.
    + intros [(p & Hp & ->)%lower_set_inv Hd]. rewrite lower_set_elem in *.
      by destruct (H2 p Hp).
Qed.

Lemma validate_allowed_domains_ok net c managed :
  is_ok (validate_allowed_domains c managed (default [] (allowed_domains net))
           (lower_set (default [] (denied_domains net)))) = true <->
  allowed_within net c managed.
Proof.
  unfold validate_allowed_domains, allowed_within. rewrite is_ok_seq, no_wildcard_ok.
  apply and_iff_compat_l. destruct (allowlist_expansion_enabled c) as [[]|].
  - unfold invalid_value. rewrite is_ok_if, missing_entries_nil, lower_set_sub.
    by setoid_rewrite elem_of_union; setoid_rewrite lower_set_elem.
  - rewrite <- lower_set_difference. by destruct (decide _).
  - unfold invalid_value. rewrite is_ok_if, is_empty_filter.
    setoid_rewrite existsb_exists. split; intros H p Hp; destruct (H p Hp) as (q & Hq & Ha).
    + apply in_map_iff in Hq as (r & <- & Hr%list_elem_of_In). by exists r.
    + exists (parse_for_constraints q). split; [|done]. apply in_map, list_elem_of_In, Hq.
Qed.

Lemma validate_denied_domains_ok net c managed :
  is_ok (validate_denied_domains c managed (default [] (denied_domains net))) = true <->
  denied_within net c managed.
Proof.
  unfold validate_denied_domains, denied_within. rewrite is_ok_seq, no_wildcard_ok.
  apply and_iff_compat_l.
  assert (lower_set managed ⊆ lower_set (default [] (denied_domains net)) <->
          forall p, p ∈ managed -> listed p (default [] (denied_domains net))) as Hsub.
  { rewrite lower_set_sub. by setoid_rewrite lower_set_elem. }
  assert (lower_set (default [] (denied_domains net)) ⊆ lower_set managed <->
          forall p, p ∈ default [] (denied_domains net) -> listed p managed) as Hsup.
  { rewrite lower_set_sub. by setoid_rewrite lower_set_elem. }
  rewrite <- Hsub, <- Hsup. unfold invalid_value.
  destruct (denylist_expansion_enabled c) as [[]|].
  - rewrite is_ok_if, missing_entries_nil. split; [by intros ?|tauto].
  - destruct (decide _) as [->|Hn]; cbn.
    + split; [by intros|done].
    + split; [done|]. intros [H1 H2]. destruct Hn. apply set_eq. intros x.
      split; [by apply H2|by apply H1].
  - rewrite is_ok_if, missing_entries_nil. split; [by intros ?|tauto].
Qed.

Lemma validate_allow_unix_sockets_ok managed l :
  is_ok (validate_allow_unix_sockets managed l) = true <-> forall p, p ∈ l -> listed p managed.
Proof.
  unfold validate_allow_unix_sockets, invalid_value. rewrite is_ok_if, is_empty_filter.
  setoid_rewrite bool_decide_eq_true. by setoid_rewrite lower_set_elem.
Qed.

Lemma default_true_false o : default true o = false <-> o = Some false.
Proof. by destruct o as [[]|]. Qed.

Lemma default_sockets_false {A} (sockets : option A) (o : option bool) b :
  (b = true <-> sockets = None) ->
  default b o = false <-> o = Some false \/ (o = None /\ sockets <> None).
Proof.
  intros Hb. destruct o as [x|]; cbn.
  - split; [intros ->; by left|]. intros [[= ->]|[? _]]; done.
  - rewrite <- not_true_iff_false, Hb. split; [by auto|by intros [?|[_ ?]]].
Qed.

Lemma some_flag (o : option bool) (P : Prop) :
  (forall a, o = Some a -> a = false -> P) <-> (o = Some false -> P).
Proof. split; [by intros H E; apply (H false)|]. intros H a Ha ->. auto. Qed.

Lemma some_mode (o : option NetworkMode) m e :
  (forall a, o = Some a ->
     is_ok (if network_mode_rank a <? network_mode_rank m
            then invalid_value "network.mode" (Text (mode_name m)) (e a) else Ok tt) = true)
  <-> (o = Some Limited -> m = Limited).
Proof.
  split.
  - intros H E. specialize (H _ E). by destruct m.
  - intros H [] Ha; destruct m; try done. by specialize (H Ha).
Qed.

Lemma validate_policy_spec cfg c :
  is_ok (validate_policy_against_constraints cfg c) = true <->
  is_ok (validate_mitm_hook_config cfg) = true /\
  no_wildcard (default [] (denied_domains (network cfg))) /\
  within_constraints (network cfg) c.
Proof.
  unfold validate_policy_against_constraints. cbn zeta.
  rewrite !is_ok_seq, !is_ok_when, !validate_flag_ok, no_wildcard_ok.
  setoid_rewrite validate_flag_ok. setoid_rewrite validate_allowed_domains_ok.
  setoid_rewrite validate_denied_domains_ok. setoid_rewrite validate_allow_unix_sockets_ok.
  assert (forall e : Anyhow -> NetworkProxyConstraintError,
    is_ok (map_err e (validate_mitm_hook_config cfg)) = is_ok (validate_mitm_hook_config cfg))
    as -> by (intros; by destruct (validate_mitm_hook_config cfg)).
  rewrite !some_flag, !default_true_false,
    (some_mode _ _ (fun m => Text (mode_name m ++ " or more restrictive"))).
  rewrite (default_sockets_false (c_allow_unix_sockets c)) by apply bool_decide_eq_true.
  apply and_iff_compat_l, and_iff_compat_l. split.
  - intros (? & ? & ? & ? & ? & ? & ? & ? & Hs). split; try done.
    intros l p Hl. by apply Hs.
  - intros []. split_and!; try done. intros l Hl p. auto.
Qed.

(** C27. Validation is exactly conformance to the managed constraints.  A
    configuration is accepted if and only if its hooks are valid, no denied
    pattern is the global wildcard, every flag and the mode are at most what
    the constraints give, the allowed patterns are within the managed ones
    (equal up to case and denies, a superset, or each covered by a managed
    pattern, as the expansion flag says), every managed deny is kept, and
    every unix socket is a managed one. *)
Theorem validate_policy_iff cfg c :
  is_ok (validate_policy_against_constraints cfg c) = true <->
  is_ok (validate_mitm_hook_config cfg) = true /\
  no_wildcard (default [] (denied_domains (network cfg))) /\
  within_constraints (network cfg) c.
Proof. apply validate_policy_spec. Qed.
End Validation.
