(* ===== verification/NetRuntime.v ===== *)
(** * The network proxy at run time

    [network-proxy/src/runtime.rs], [network_policy.rs] and the check of
    [connect_policy.rs]: the decision on a host, the decider that may override
    it, the buffer of blocked requests, and the edits and reloads of the
    shared state.  An asynchronous operation is a sequence of atomic sections
    on the state behind the lock; the steps of several operations interleave. *)

From S2P Require Import Prelude RustStr AbsolutePath FsPolicy ExecRule IpAddr NetHost.
From S2P Require Import NetConfig MitmHook NetPolicy.
#[local] Open Scope str_scope.

Definition MAX_BLOCKED_EVENTS : nat := 200.

Inductive HostBlockReason := Denied | NotAllowed | NotAllowedLocal.

Definition reason_str (r : HostBlockReason) : str :=
  match r with
  | Denied => "denied"
  | NotAllowed => "not_allowed"
  | NotAllowedLocal => "not_allowed_local"
  end.

Inductive HostBlockDecision :=
| Allowed
| Blocked (reason : HostBlockReason).

(** [tokio::net::lookup_host] within the timeout: [None] when the lookup
    fails or times out. *)
Abbreviation Lookup := (str -> N -> option (list IpAddr)).

Definition host_resolves_to_non_public_ip (host_ : str) (port : N) (lookup : Lookup) : bool :=
  match parse_ip host_ with
  | Some ip => is_non_public_ip ip
  | None =>
      match lookup host_ port with
      | None => true
      | Some addrs => existsb is_non_public_ip addrs
      end
  end.

Definition is_explicit_local_allowlisted (allowed : list str) (host_ : Host) : bool :=
  let normalized_host := as_str host_ in
  let unscoped_host := unscoped_ip_literal normalized_host in
  existsb (fun pattern =>
    let pattern := trim pattern in
    if bool_decide (pattern = "*") || starts_with pattern "*." || starts_with pattern "**."
    then false
    else if contains_char pattern 42%N || contains_char pattern 63%N then false
    else
      let normalized_pattern := normalize_host pattern in
      bool_decide (normalized_pattern = normalized_host)
      || match unscoped_host with
         | Some ip => bool_decide (normalized_pattern = ip)
         | None => false
         end) allowed.

Inductive DomainListKind := ListAllow | ListDeny.

Definition constraint_field (k : DomainListKind) : str :=
  match k with ListAllow => "network.allowed_domains" | ListDeny => "network.denied_domains" end.
Definition list_name (k : DomainListKind) : str :=
  match k with ListAllow => "allowlist" | ListDeny => "denylist" end.
Definition list_permission (k : DomainListKind) : NetworkDomainPermission :=
  match k with ListAllow => DomainAllow | ListDeny => DomainDeny end.

Section Runtime.
Context {globs : Globs} {http : Http} {json : Json} {os : Os} {urls : Urls} {mitm_ : Mitm}.

Definition entries_of (k : DomainListKind) (net : NetworkProxySettings) : list str :=
  match k with
  | ListAllow => default [] (allowed_domains net)
  | ListDeny => default [] (denied_domains net)
  end.
Definition opposite_entries (k : DomainListKind) (net : NetworkProxySettings) : list str :=
  match k with
  | ListAllow => default [] (denied_domains net)
  | ListDeny => default [] (allowed_domains net)
  end.

(** ** The decision on a host *)

Definition globset_matches_host_or_unscoped (set : GlobSet) (host_ : str) : bool :=
  globset_is_match set host_
  || match unscoped_ip_literal host_ with
     | Some ip => globset_is_match set ip
     | None => false
     end.

Definition is_local_literal (host_ : Host) : bool :=
  let host_no_scope := default (as_str host_) (unscoped_ip_literal (as_str host_)) in
  if is_loopback_host host_ then true
  else match parse_ip host_no_scope with
       | Some ip => is_non_public_ip ip
       | None => false
       end.

(** After the reload: the decision reads the state once. *)
Definition host_blocked (guard : ConfigState) (lookup : Lookup) (host_ : str) (port : N)
    : HostBlockDecision :=
  match Host_parse host_ with
  | Err _ => Blocked NotAllowed
  | Ok host_ =>
      let net := network (config guard) in
      let allowed_domains_ := allowed_domains net in
      let allowed_domains_empty := bool_decide (allowed_domains_ = None) in
      let allowed_domains_ := default [] allowed_domains_ in
      let host_str := as_str host_ in
      if globset_matches_host_or_unscoped (deny_set guard) host_str then Blocked Denied
      else
        let is_allowlisted := globset_matches_host_or_unscoped (allow_set guard) host_str in
        let local_block :=
          if allow_local_binding net then false
          else if is_local_literal host_
          then negb (is_explicit_local_allowlisted allowed_domains_ host_)
          else host_resolves_to_non_public_ip host_str port lookup in
        if local_block then Blocked NotAllowedLocal
        else if allowed_domains_empty || negb is_allowlisted then Blocked NotAllowed
        else Allowed
  end.

(** [TargetCheckedStreamConnector::connect]: whether a direct connection to
    the address is attempted. *)
Definition connect_permitted (allow_local : bool) (ip : IpAddr) : bool :=
  negb (negb allow_local && is_non_public_ip ip).

(** ** The decider *)

Inductive NetworkPolicyDecision := PolicyDeny | PolicyAsk.

Inductive NetworkDecisionSource := BaselinePolicy | ModeGuard | ProxyState | Decider.

Inductive NetworkDecision :=
| NetAllow
| NetDeny (reason : str) (source : NetworkDecisionSource) (decision : NetworkPolicyDecision).

Definition REASON_POLICY_DENIED : str := "policy_denied".

Definition deny_with_source (reason : str) (source : NetworkDecisionSource) : NetworkDecision :=
  NetDeny (if is_empty reason then REASON_POLICY_DENIED else reason) source PolicyDeny.
Definition ask_with_source (reason : str) (source : NetworkDecisionSource) : NetworkDecision :=
  NetDeny (if is_empty reason then REASON_POLICY_DENIED else reason) source PolicyAsk.
Definition net_deny (reason : str) : NetworkDecision := deny_with_source reason Decider.
Definition net_ask (reason : str) : NetworkDecision := ask_with_source reason Decider.

Inductive NetworkProtocol := Http_ | HttpsConnect | Socks5Tcp | Socks5Udp.

Record NetworkPolicyRequest := mkPolicyRequest {
  pr_protocol : NetworkProtocol;
  pr_host : str;
  pr_port : N;
  pr_client_addr : option str;
  pr_method : option str;
  pr_command : option str;
  pr_exec_policy_hint : option str
}.

Definition map_decider_decision (d : NetworkDecision) : NetworkDecision :=
  match d with
  | NetAllow => NetAllow
  | NetDeny reason _ decision => NetDeny reason Decider decision
  end.

(** The decision, and the override flag of the audit event. *)
Definition evaluate_host_policy (guard : ConfigState) (lookup : Lookup)
    (decider : option (NetworkPolicyRequest -> NetworkDecision)) (request : NetworkPolicyRequest)
    : NetworkDecision * bool :=
  match host_blocked guard lookup (pr_host request) (pr_port request) with
  | Allowed => (NetAllow, false)
  | Blocked NotAllowed =>
      match decider with
      | Some decide =>
          let d := map_decider_decision (decide request) in
          (d, match d with NetAllow => true | NetDeny _ _ _ => false end)
      | None => (deny_with_source (reason_str NotAllowed) BaselinePolicy, false)
      end
  | Blocked reason => (deny_with_source (reason_str reason) BaselinePolicy, false)
  end.

(** ** Unix sockets *)

Definition is_unix_socket_allowed (macos : bool) (guard : ConfigState) (path : str) : bool :=
  if negb macos then false
  else if negb (is_absolute path) then false
  else if dangerously_allow_all_unix_sockets (network (config guard)) then true
  else
    match from_absolute path with
    | Err _ => false
    | Ok requested_abs =>
        let requested_canonical := canonicalize (render requested_abs) in
        existsb (fun allowed =>
          match ValidatedUnixSocketPath_parse allowed with
          | Ok (Native allowed_path) =>
              bool_decide (allowed_path = requested_abs)
              || match requested_canonical, canonicalize (render allowed_path) with
                 | Some r, Some a => bool_decide (a = r)
                 | _, _ => false
                 end
          | Ok (UnixStyleAbsolute _) | Err _ => false
          end) (allow_unix_sockets (network (config guard)))
    end.

(** ** Updates of the state *)

Definition set_blocked (s : ConfigState) (b : list BlockedRequest) (total : N) : ConfigState :=
  mkConfigState (config s) (allow_set s) (deny_set s) (mitm_state s) (hooks_by_host s)
    (constraints s) b total.

(** Drop from the front until at most [MAX_BLOCKED_EVENTS] are left. *)
Fixpoint pop_front_while (n : nat) (b : list BlockedRequest) : list BlockedRequest :=
  match n, b with
  | S n, _ :: r => if MAX_BLOCKED_EVENTS <? length b then pop_front_while n r else b
  | _, _ => b
  end.

(** The write section of [record_blocked]. *)
Definition record_blocked (guard : ConfigState) (entry : BlockedRequest) : ConfigState :=
  let b := blocked guard ++ [entry] in
  set_blocked guard (pop_front_while (length b) b) (saturating_add (blocked_total guard) 1).

Definition drain_blocked (guard : ConfigState) : ConfigState * list BlockedRequest :=
  (set_blocked guard [] (blocked_total guard), blocked guard).

(** The write section of [force_reload]: only the buffer is carried over. *)
Definition force_reload (guard new_state : ConfigState) : ConfigState :=
  set_blocked new_state (blocked guard) (blocked_total new_state).

(** The write section of [replace_config_state]. *)
Definition replace_config_state (guard new_state : ConfigState) : ConfigState :=
  set_blocked new_state (blocked guard) (blocked_total guard).

(** [update_domain_list]: the read section and what is computed from it; the
    result is [None] when the list needs no change. *)
Record UpdateCandidate := mkUpdate {
  previous_cfg : NetworkProxyConfig;
  update_constraints : NetworkProxyConstraints;
  update_state : ConfigState
}.

Definition update_domain_read (env_var : str -> option str) (guard : ConfigState)
    (host_ : str) (target : DomainListKind) : result Anyhow (option UpdateCandidate) :=
  host_ ← with_context "invalid network host" (Host_parse host_);
  let normalized_host := as_str host_ in
  let listed_in l := existsb (fun e => bool_decide (normalize_host e = normalized_host)) l in
  let previous_cfg := config guard in
  let c := constraints guard in
  let target_contains := listed_in (entries_of target (network previous_cfg)) in
  let opposite_contains := listed_in (opposite_entries target (network previous_cfg)) in
  if target_contains && negb opposite_contains then Ok None
  else
    let candidate := mkConfig json (upsert_domain_permission (network previous_cfg)
                       normalized_host (list_permission target) normalize_host) in
    _ ← with_context (constraint_field target ++ " constrained by managed config")
          (map_err into_anyhow (validate_policy_against_constraints candidate c));
    new_state ← with_context ("failed to compile updated network " ++ list_name target)
                  (build_config_state env_var candidate c);
    Ok (Some (mkUpdate previous_cfg c
                (set_blocked new_state (blocked guard) (blocked_total guard)))).

(** The write section: [None] when the policy changed in between, and the
    operation starts over. *)
Definition update_domain_write (guard : ConfigState) (u : UpdateCandidate) : option ConfigState :=
  if bool_decide (constraints guard <> update_constraints u)
     || bool_decide (config guard <> previous_cfg u)
  then None else Some (update_state u).

(** [set_network_mode], in the same two sections. *)
Definition mode_config (cfg : NetworkProxyConfig) (m : NetworkMode) : NetworkProxyConfig :=
  mkConfig json (set_mode (network cfg) m).

Definition set_network_mode_read (guard : ConfigState) (m : NetworkMode)
    : result Anyhow NetworkProxyConstraints :=
  _ ← with_context "network.mode constrained by managed config"
        (map_err into_anyhow
           (validate_policy_against_constraints (mode_config (config guard) m) (constraints guard)));
  Ok (constraints guard).

Definition set_network_mode_write (guard : ConfigState) (m : NetworkMode)
    (c : NetworkProxyConstraints) : option ConfigState :=
  if bool_decide (constraints guard <> c) then None
  else Some (mkConfigState (mode_config (config guard) m) (allow_set guard) (deny_set guard)
               (mitm_state guard) (hooks_by_host guard) (constraints guard)
               (blocked guard) (blocked_total guard)).
End Runtime.

(** ** Interleavings *)

Section Steps.
Context {globs : Globs} {http : Http} {json : Json} {os : Os} {urls : Urls} {mitm_ : Mitm}.

(** An operation between its sections. *)
Inductive Pending :=
| PReload (new_state : ConfigState)
| PUpdate (u : UpdateCandidate)
| PMode (m : NetworkMode) (c : NetworkProxyConstraints).

(** A state as the loaders build it: validated, then compiled
    ([core/src/network_proxy_loader.rs]). *)
Definition fresh (s : ConfigState) : Prop :=
  exists env_var, is_ok (validate_policy_against_constraints (config s) (constraints s)) = true /\
    build_config_state env_var (config s) (constraints s) = Ok s.

Abbreviation System := (ConfigState * list Pending)%type.

Inductive step : System -> System -> Prop :=
| step_reload_read s ps new_state :
    fresh new_state ->
    step (s, ps) (s, PReload (set_blocked new_state (blocked s) (blocked_total s)) :: ps)
| step_reload_write s ps1 ps2 new_state :
    step (s, ps1 ++ PReload new_state :: ps2) (new_state, ps1 ++ ps2)
| step_force s ps new_state :
    fresh new_state -> step (s, ps) (force_reload s new_state, ps)
| step_replace s ps new_state :
    fresh new_state -> step (s, ps) (replace_config_state s new_state, ps)
| step_record s ps entry : step (s, ps) (record_blocked s entry, ps)
| step_drain s ps : step (s, ps) ((drain_blocked s).1, ps)
| step_update_read s ps env_var host_ target u :
    update_domain_read env_var s host_ target = Ok (Some u) ->
    step (s, ps) (s, PUpdate u :: ps)
| step_update_write s ps1 ps2 u s' :
    update_domain_write s u = Some s' -> step (s, ps1 ++ PUpdate u :: ps2) (s', ps1 ++ ps2)
| step_mode_read s ps m c :
    set_network_mode_read s m = Ok c -> step (s, ps) (s, PMode m c :: ps)
| step_mode_write s ps1 ps2 m c s' :
    set_network_mode_write s m c = Some s' -> step (s, ps1 ++ PMode m c :: ps2) (s', ps1 ++ ps2)
(** An operation starts over, fails or is cancelled. *)
| step_abandon s ps1 ps2 p : step (s, ps1 ++ p :: ps2) (s, ps1 ++ ps2).

Inductive reachable : System -> Prop :=
| reachable_init s : fresh s -> reachable (s, [])
| reachable_step x y : reachable x -> step x y -> reachable y.

(** ** The invariant *)

Record good (s : ConfigState) : Prop := {
  good_bounded : length (blocked s) <= MAX_BLOCKED_EVENTS;
  good_valid : is_ok (validate_policy_against_constraints (config s) (constraints s)) = true;
  good_deny : compile_denylist_globset (default [] (denied_domains (network (config s))))
              = Ok (deny_set s);
  good_allow : compile_allowlist_globset (default [] (allowed_domains (network (config s))))
               = Ok (allow_set s)
}.

Definition good_pending (p : Pending) : Prop :=
  match p with
  | PReload s => good s
  | PUpdate u => good (update_state u)
  | PMode m c => c_mode c = Some Limited -> m = Limited
  end.

Lemma build_config_state_inv env_var cfg c s :
  build_config_state env_var cfg c = Ok s ->
  config s = cfg /\ constraints s = c /\ blocked s = [] /\ blocked_total s = 0%N /\
  compile_denylist_globset (default [] (denied_domains (network cfg))) = Ok (deny_set s) /\
  compile_allowlist_globset (default [] (allowed_domains (network cfg))) = Ok (allow_set s).
Proof.
  unfold build_config_state.
  destruct (validate_unix_socket_allowlist_paths cfg); [|done]. cbn [mbind result_bind].
  destruct (validate_non_global_wildcard_domain_patterns _ _); [|done].
  cbn [map_err mbind result_bind].
  destruct (compile_denylist_globset _) as [d|] eqn:Ed; [|done]. cbn [mbind result_bind].
  destruct (compile_allowlist_globset _) as [al|] eqn:Ea; [|done]. cbn [mbind result_bind].
  destruct (compile_mitm_hooks env_var cfg); [|done]. cbn [mbind result_bind].
  destruct (if mitm (network cfg) then _ else _); [|done]. cbn [mbind result_bind].
  intros [= <-]. by split_and!.
Qed.

Lemma good_set_blocked s b total :
  good s -> length b <= MAX_BLOCKED_EVENTS -> good (set_blocked s b total).
Proof. intros [] Hb. by split. Qed.

Lemma good_built env_var cfg c s :
  is_ok (validate_policy_against_constraints cfg c) = true ->
  build_config_state env_var cfg c = Ok s -> good s.
Proof.
  intros Hv (Hc & Hk & Hb & _ & Hd & Ha)%build_config_state_inv. split; rewrite ?Hc, ?Hk; try done.
  rewrite Hb. cbn. unfold MAX_BLOCKED_EVENTS. lia.
Qed.

Lemma good_fresh s : fresh s -> good s.
Proof. intros (env_var & Hv & Hb). by eapply good_built. Qed.

Lemma pop_front_while_length n b :
  length b <= n -> length (pop_front_while n b) <= MAX_BLOCKED_EVENTS.
Proof.
  revert b. induction n as [|n IH]; intros b Hn; cbn [pop_front_while].
  { destruct b; cbn in *; unfold MAX_BLOCKED_EVENTS; lia. }
  destruct b as [|x b]; [cbn; unfold MAX_BLOCKED_EVENTS; lia|].
  destruct (Nat.ltb_spec MAX_BLOCKED_EVENTS (length (x :: b))); [|lia].
  apply IH. cbn in Hn. lia.
Qed.

(** The buffer keeps the newest events. *)
Lemma pop_front_while_drop n b :
  length b <= n -> pop_front_while n b = drop (length b - MAX_BLOCKED_EVENTS) b.
Proof.
  revert b. induction n as [|n IH]; intros b Hn; cbn [pop_front_while].
  { by destruct b; [|cbn in Hn; lia]. }
  destruct b as [|x b]; [done|].
  destruct (Nat.ltb_spec MAX_BLOCKED_EVENTS (length (x :: b))) as [H|H].
  - rewrite IH by (cbn in Hn; lia).
    replace (length (x :: b) - MAX_BLOCKED_EVENTS)
      with (S (length b - MAX_BLOCKED_EVENTS)) by (cbn [length] in *; lia). done.
  - by replace (length (x :: b) - MAX_BLOCKED_EVENTS) with 0 by lia.
Qed.

Lemma record_blocked_buffer s entry :
  blocked (record_blocked s entry) =
  drop (length (blocked s) + 1 - MAX_BLOCKED_EVENTS) (blocked s ++ [entry]).
Proof. cbn. rewrite pop_front_while_drop by done. by rewrite length_app. Qed.

Lemma update_domain_read_inv env_var s host_ target u :
  update_domain_read env_var s host_ target = Ok (Some u) ->
  let h := normalize_host host_ in
  let candidate := mkConfig json (upsert_domain_permission (network (config s)) h
                     (list_permission target) normalize_host) in
  exists new_state, h <> [] /\
    is_ok (validate_policy_against_constraints candidate (constraints s)) = true /\
    build_config_state env_var candidate (constraints s) = Ok new_state /\
    u = mkUpdate (config s) (constraints s)
          (set_blocked new_state (blocked s) (blocked_total s)).
Proof.
  unfold update_domain_read, Host_parse.
  destruct (is_empty (normalize_host host_)) eqn:Eh; [done|]. cbn [with_context map_err].
  cbn [mbind result_bind as_str]. destruct (existsb _ _ && negb _); [done|].
  destruct (validate_policy_against_constraints _ _) eqn:Ev; [|done]. cbn [with_context map_err mbind result_bind].
  destruct (build_config_state _ _ _) as [n|] eqn:Eb; [|done]. cbn [with_context map_err mbind result_bind].
  intros [= <-]. exists n. apply is_empty_false in Eh. by split_and!.
Qed.

(** Only the mode constraint looks at the mode. *)
Lemma mode_config_valid cfg m c :
  is_ok (validate_policy_against_constraints cfg c) = true ->
  (c_mode c = Some Limited -> m = Limited) ->
  is_ok (validate_policy_against_constraints (mode_config cfg m) c) = true.
Proof.
  rewrite !validate_policy_spec. intros (Hh & Hd & []) Hm. split_and!; [done|done|]. by split.
Qed.

Lemma good_mode_write s m c s' :
  good s -> (c_mode c = Some Limited -> m = Limited) ->
  set_network_mode_write s m c = Some s' -> good s'.
Proof.
  intros [Hb Hv Hd Ha] Hm. unfold set_network_mode_write. case_bool_decide as Hc; [done|].
  subst c. intros [= <-]. split; try done. by apply mode_config_valid.
Qed.

Lemma set_network_mode_read_inv s m c :
  set_network_mode_read s m = Ok c ->
  c = constraints s /\ (c_mode c = Some Limited -> m = Limited).
Proof.
  unfold set_network_mode_read. destruct (validate_policy_against_constraints _ _) eqn:Hv; [|done].
  intros [= <-]. split; [done|]. intros Hm.
  assert (is_ok (validate_policy_against_constraints (mode_config (config s) m)
                   (constraints s)) = true) as Hok by by rewrite Hv.
  apply validate_policy_spec in Hok as (_ & _ & Hw). by apply (w_mode _ _ Hw).
Qed.

Lemma update_domain_write_inv s u s' :
  update_domain_write s u = Some s' -> s' = update_state u.
Proof. unfold update_domain_write. destruct (_ || _); [done|]. by intros [= <-]. Qed.

Lemma good_step s ps s' ps' :
  step (s, ps) (s', ps') ->
  good s -> Forall good_pending ps -> good s' /\ Forall good_pending ps'.
Proof.
  intros Hstep Hs Hps. inversion Hstep; subst; clear Hstep;
    repeat match goal with
    | H : Forall _ (_ ++ _ :: _) |- _ =>
        apply Forall_app in H as [? [? ?]%Forall_cons]
    end;
    (split; [|first [done | by apply Forall_app | constructor; [|done]]]); try done.
  - cbn. apply good_set_blocked; [by apply good_fresh|apply Hs].
  - apply good_set_blocked; [by apply good_fresh|apply Hs].
  - apply good_set_blocked; [by apply good_fresh|apply Hs].
  - apply good_set_blocked; [done|]. by apply pop_front_while_length.
  - apply good_set_blocked; [done|]. cbn. unfold MAX_BLOCKED_EVENTS. lia.
  - match goal with H : update_domain_read _ _ _ _ = _ |- _ =>
      apply update_domain_read_inv in H as (n & _ & Hv & Hb & ->) end.
    cbn. apply good_set_blocked; [by eapply good_built|apply Hs].
  - match goal with H : update_domain_write _ _ = Some _ |- _ =>
      by apply update_domain_write_inv in H as -> end.
  - match goal with H : set_network_mode_read _ _ = Ok _ |- _ =>
      by apply set_network_mode_read_inv in H as [-> H] end.
  - by eapply good_mode_write.
Qed.

Lemma net_reachable_good x : reachable x -> good x.1 /\ Forall good_pending x.2.
Proof.
  induction 1 as [s Hs|[s ps] [s' ps'] _ [IH1 IH2] Hstep]; cbn in *.
  - split; [by apply good_fresh|constructor].
  - by eapply good_step.
Qed.

(** ** Decisions in terms of patterns *)

(** A pattern of the list matches the host, or its address without scope. *)
Definition matches_list (h : str) (l : list str) : bool :=
  existsb (pattern_matches h) l
  || match unscoped_ip_literal h with
     | Some ip => existsb (pattern_matches ip) l
     | None => false
     end.

(** Without local binding a host is let through when it is an address listed
    by itself, or a name (or public address) that resolves to public
    addresses only. *)
Definition locally_permitted (s : ConfigState) (lookup : Lookup) (h : str) (port : N) : bool :=
  if is_local_literal (mkHost h)
  then is_explicit_local_allowlisted (default [] (allowed_domains (network (config s)))) (mkHost h)
  else negb (host_resolves_to_non_public_ip h port lookup).

Lemma globset_matches_list ps gw set h :
  compile_globset_with_policy ps gw = Ok set ->
  globset_matches_host_or_unscoped set h = matches_list h ps.
Proof.
  intros Hc. unfold globset_matches_host_or_unscoped, matches_list.
  rewrite (compile_globset_matches _ _ _ h Hc). f_equal.
  destruct (unscoped_ip_literal h) as [ip|]; [|done]. by apply compile_globset_matches with gw.
Qed.

Lemma existsb_listed h l k :
  (forall p, p ∈ l -> listed p k) ->
  existsb (pattern_matches h) l = true -> existsb (pattern_matches h) k = true.
Proof.
  rewrite !existsb_exists. intros H (p & Hp%list_elem_of_In & Hm).
  destruct (H p Hp) as (q & Hq & E). exists q. split; [by apply list_elem_of_In|].
  by rewrite <- (pattern_matches_lower h p q E).
Qed.

Lemma matches_list_listed h l k :
  (forall p, p ∈ l -> listed p k) -> matches_list h l = true -> matches_list h k = true.
Proof.
  intros H. unfold matches_list. rewrite !orb_true_iff. intros [Hm|Hm].
  - left. by eapply existsb_listed.
  - right. destruct (unscoped_ip_literal h); [|done]. by eapply existsb_listed.
Qed.

Lemma matches_list_nil h : matches_list h [] = false.
Proof. unfold matches_list. by destruct (unscoped_ip_literal h). Qed.

(** The decision in a state whose sets are compiled from its lists. *)
Definition decide_host (s : ConfigState) (lookup : Lookup) (h : str) (port : N)
    : HostBlockDecision :=
  if is_empty h then Blocked NotAllowed
  else if matches_list h (default [] (denied_domains (network (config s)))) then Blocked Denied
  else if negb (allow_local_binding (network (config s)) || locally_permitted s lookup h port)
  then Blocked NotAllowedLocal
  else if matches_list h (default [] (allowed_domains (network (config s)))) then Allowed
  else Blocked NotAllowed.

Lemma host_blocked_decide s lookup host_ port :
  good s -> host_blocked s lookup host_ port = decide_host s lookup (normalize_host host_) port.
Proof.
  intros [_ _ Hd Ha]. unfold host_blocked, decide_host, Host_parse.
  destruct (is_empty (normalize_host host_)); [done|]. cbn [as_str].
  set (h := normalize_host host_).
  rewrite (globset_matches_list _ _ _ h Hd), (globset_matches_list _ _ _ h Ha).
  destruct (matches_list h (default [] (denied_domains _))); [done|].
  assert ((if allow_local_binding (network (config s)) then false
           else if is_local_literal (mkHost h)
           then negb (is_explicit_local_allowlisted
                        (default [] (allowed_domains (network (config s)))) (mkHost h))
           else host_resolves_to_non_public_ip h port lookup)
          = negb (allow_local_binding (network (config s)) || locally_permitted s lookup h port))
    as ->.
  { unfold locally_permitted. destruct (allow_local_binding _); [done|].
    destruct (is_local_literal _); [done|]. symmetry. apply negb_involutive. }
  destruct (negb _); [done|].
  case_bool_decide as He; cbn [orb].
  - by rewrite He, matches_list_nil.
  - by destruct (matches_list h _).
Qed.

(** C23. The managed policy decides at run time.  In every state reached by
    any interleaving of reloads, edits, mode changes and records, the
    configuration is within its managed constraints and at most 200 blocked
    requests are kept; the decision on a host is the one the lists give: an
    empty host is not allowed, a match of a denied pattern is denied, then a
    local or private target is refused unless local binding is on or it is
    listed by itself (a name must resolve, and to public addresses only), and
    the rest is allowed exactly if an allowed pattern matches.  A host that a
    managed deny matches is denied; and where the allowlist may not be
    extended, an allowed host matches a managed pattern. *)
Theorem reachable_policy s ps lookup host_ port :
  reachable (s, ps) ->
  let h := normalize_host host_ in
  let c := constraints s in
  within_constraints (network (config s)) c /\
  length (blocked s) <= MAX_BLOCKED_EVENTS /\
  host_blocked s lookup host_ port = decide_host s lookup h port /\
  (forall l, c_denied_domains c = Some l -> h <> [] -> matches_list h l = true ->
     host_blocked s lookup host_ port = Blocked Denied) /\
  (forall l, c_allowed_domains c = Some l -> allowlist_expansion_enabled c = Some false ->
     host_blocked s lookup host_ port = Allowed -> matches_list h l = true).
Proof.
  intros [Hg _]%net_reachable_good h c. cbn [fst] in Hg.
  pose proof (good_valid _ Hg) as (_ & _ & Hw)%validate_policy_spec.
  rewrite host_blocked_decide by done. fold h. split_and!; [done|apply Hg|done| |].
  - intros l Hl Hh Hm. apply (w_denied _ _ Hw) in Hl as (_ & Hl & _).
    unfold decide_host. apply is_empty_false in Hh. rewrite Hh.
    by rewrite (matches_list_listed h l _ Hl Hm).
  - intros l Hl Hexp. apply (w_allowed _ _ Hw) in Hl as [_ Hl]. subst c. rewrite Hexp in Hl.
    unfold decide_host. destruct (is_empty h); [done|].
    destruct (matches_list h (default [] (denied_domains _))); [done|].
    destruct (negb _); [done|].
    destruct (matches_list h (default [] (allowed_domains _))) eqn:Em; [|done].
    intros _. eapply matches_list_listed; [|done]. intros p Hp. by apply Hl.
Qed.

(** C26. A decider overrides allowlist misses only.  In a reachable state the
    final decision allows a host only if the lists do, or if they merely miss
    it and the decider allows it, and the audit event says which; so whatever
    the decider answers, a denied host and, without local binding, a local
    target are refused.  What a decider refuses is reported as its own
    decision. *)
Theorem decider_overrides_misses_only s ps lookup decider req :
  reachable (s, ps) ->
  let h := normalize_host (pr_host req) in
  let baseline := decide_host s lookup h (pr_port req) in
  let '(decision, override) := evaluate_host_policy s lookup decider req in
  (decision = NetAllow <->
     baseline = Allowed \/
     baseline = Blocked NotAllowed /\ exists d, decider = Some d /\ d req = NetAllow) /\
  (override = true <-> decision = NetAllow /\ baseline = Blocked NotAllowed) /\
  (decision = NetAllow -> h <> [] ->
     matches_list h (default [] (denied_domains (network (config s)))) = false /\
     (allow_local_binding (network (config s)) = true \/
      locally_permitted s lookup h (pr_port req) = true)) /\
  (forall reason source d, decision = NetDeny reason source d ->
     source = match baseline, decider with
              | Blocked NotAllowed, Some _ => Decider
              | _, _ => BaselinePolicy
              end).
Proof.
  intros [Hg _]%net_reachable_good h baseline. cbn [fst] in Hg.
  assert (baseline = Allowed \/ baseline = Blocked NotAllowed -> h <> [] ->
    matches_list h (default [] (denied_domains (network (config s)))) = false /\
    (allow_local_binding (network (config s)) = true \/
     locally_permitted s lookup h (pr_port req) = true)) as Hok.
  { subst baseline. unfold decide_host. intros Hb Hh%is_empty_false. rewrite Hh in Hb.
    destruct (matches_list h (default [] (denied_domains _))); [by destruct Hb|].
    split; [done|]. apply orb_true_iff. by destruct (_ || _); [|destruct Hb]. }
  unfold evaluate_host_policy. rewrite host_blocked_decide by done. fold h. fold baseline.
  destruct baseline as [|[]]; [| |destruct decider as [d|]; [destruct (d req) eqn:Ed|]|];
    cbn [map_decider_decision]; split_and!; try (by auto);
    try (split; [by auto|by intros [?|(? & ? & ? & ?)]]);
    try (by intros ??? [= <- <- <-]); try (split; [done|by intros [? ?]]).
  - split; [intros _; right|done]. split; [done|]. by exists d.
  - split; [done|]. intros [?|(_ & d' & [= <-] & E)]; congruence.
Qed.

(** ** Edits of the lists *)

Lemma entries_of_strictest k net p :
  p ∈ entries_of k net <-> strictest p (domain_list_of net) = Some (list_permission k).
Proof. destruct k; apply domain_entries_of. Qed.

Definition opposite (k : DomainListKind) : DomainListKind :=
  match k with ListAllow => ListDeny | ListDeny => ListAllow end.

Lemma opposite_entries_of k net : opposite_entries k net = entries_of (opposite k) net.
Proof. by destruct k. Qed.

Lemma existsb_normalized h l :
  existsb (fun e => bool_decide (normalize_host e = h)) l = true <->
  exists p, p ∈ l /\ normalize_host p = h.
Proof.
  rewrite existsb_exists. split; intros (p & Hp & H); exists p;
    rewrite list_elem_of_In, ?bool_decide_eq_true in *; done.
Qed.

(** An edit of a list does what it says or nothing.  It fails on an empty
    host, when the edited configuration violates the managed constraints or
    does not compile; it has nothing to do exactly when the list has the host
    and the opposite list does not; otherwise the new state is within the
    constraints, lists the host, has no entry for it in the opposite list and
    keeps every other pattern where it was.  The write happens only on the
    configuration and constraints that were read. *)
Theorem update_domain_effect env_var s host_ target :
  let h := normalize_host host_ in
  let c := constraints s in
  match update_domain_read env_var s host_ target with
  | Err _ =>
      h = [] \/
      exists candidate,
        is_ok (validate_policy_against_constraints candidate c) = false \/
        is_ok (build_config_state env_var candidate c) = false
  | Ok None =>
      (exists p, p ∈ entries_of target (network (config s)) /\ normalize_host p = h) /\
      ~ (exists p, p ∈ opposite_entries target (network (config s)) /\ normalize_host p = h)
  | Ok (Some u) =>
      let s' := update_state u in
      let net' := network (config s') in
      (forall t, update_domain_write t u =
         if bool_decide (constraints t = c) && bool_decide (config t = config s)
         then Some s' else None) /\
      constraints s' = c /\ within_constraints net' c /\
      h ∈ entries_of target net' /\
      (forall p, p ∈ opposite_entries target net' -> normalize_host p <> normalize_host h) /\
      (forall k p, normalize_host p <> normalize_host h ->
         p ∈ entries_of k net' <-> p ∈ entries_of k (network (config s)))
  end.
Proof.
  intros h c. destruct (update_domain_read env_var s host_ target) as [[u|]|e] eqn:E.
  - apply update_domain_read_inv in E as (n & Hh & Hv & Hb & ->). fold h c in Hv, Hb.
    pose proof (build_config_state_inv _ _ _ _ Hb) as (Hcfg & Hc & _).
    cbn [update_state config constraints set_blocked]. rewrite Hcfg, Hc. cbn [network].
    apply validate_policy_spec in Hv as (_ & _ & Hw). split_and!; try done.
    + intros t. unfold update_domain_write. cbn [update_constraints previous_cfg update_state].
      fold c. rewrite !bool_decide_not. by destruct (bool_decide _), (bool_decide _).
    + apply entries_of_strictest. rewrite upsert_strictest. by rewrite bool_decide_eq_true_2.
    + intros p. rewrite opposite_entries_of, entries_of_strictest, upsert_strictest.
      case_bool_decide; [by destruct target|]. by case_bool_decide.
    + intros k p Hp. rewrite !entries_of_strictest, upsert_strictest.
      rewrite bool_decide_eq_false_2 by congruence. by rewrite bool_decide_eq_false_2.
  - unfold update_domain_read, Host_parse in E. fold h in E.
    destruct (is_empty h); [done|]. cbn [with_context map_err mbind result_bind as_str] in E.
    rewrite <- !existsb_normalized.
    destruct (existsb _ (entries_of _ _)), (existsb _ (opposite_entries _ _));
      cbn [andb negb] in E; try done.
    all: destruct (validate_policy_against_constraints _ _); [|done];
      cbn [with_context map_err mbind result_bind] in E;
      by destruct (build_config_state _ _ _).
  - unfold update_domain_read, Host_parse in E. fold h c in E.
    destruct (is_empty h) eqn:Eh; [left; by apply is_empty_true|right].
    cbn [with_context map_err mbind result_bind as_str] in E.
    destruct (_ && negb _); [done|].
    destruct (validate_policy_against_constraints _ _) eqn:Ev.
    + cbn [with_context map_err mbind result_bind] in E.
      destruct (build_config_state _ _ _) eqn:Eb; [done|].
      eexists. right. by rewrite Eb.
    + eexists. left. by rewrite Ev.
Qed.

(** An event recorded between the two sections of an edit is lost, with its
    count: the write section puts back the buffer that was read. *)
Theorem update_loses_event env_var s host_ target u entry :
  update_domain_read env_var s host_ target = Ok (Some u) ->
  exists s', update_domain_write (record_blocked s entry) u = Some s' /\
    blocked s' = blocked s /\ blocked_total s' = blocked_total s.
Proof.
  intros (n & _ & _ & _ & ->)%update_domain_read_inv.
  exists (set_blocked n (blocked s) (blocked_total s)). split_and!; try done.
  unfold update_domain_write. cbn. by rewrite !bool_decide_not, !bool_decide_eq_true_2.
Qed.

(** A forced reload keeps the buffer and restarts the count. *)
Theorem force_reload_resets_total s new_state :
  fresh new_state ->
  blocked (force_reload s new_state) = blocked s /\
  blocked_total (force_reload s new_state) = 0%N.
Proof.
  intros (env_var & _ & Hb). apply build_config_state_inv in Hb as (_ & _ & _ & Ht & _).
  by rewrite <- Ht.
Qed.
End Steps.

(** ** At work *)

Definition demo_mitm : Mitm := {| MitmState := unit; MitmState_new _ _ := Ok tt |}.

Section Demo.
#[local] Existing Instances wildcards demo_http demo_json demo_os demo_urls demo_mitm.

Definition demo_net : NetworkProxyConfig :=
  mkConfig _ (set_denied_domains
    (set_allowed_domains default_settings ["*.example.com"; "127.0.0.1"])
    ["evil.example.com"]).

Definition demo_constraints : NetworkProxyConstraints :=
  mkConstraints None None None None None (Some ["*.Example.com"; "127.0.0.1"]) (Some false)
    (Some ["EVIL.example.com"]) None None None.

Definition demo_built : result Anyhow ConfigState :=
  build_config_state (fun _ => None) demo_net demo_constraints.

(** A resolver that knows a public and a private name. *)
Definition demo_lookup : Lookup := fun h _ =>
  if bool_decide (h = "api.example.com") then Some [V4 (mkV4 93 184 216 34)]
  else if bool_decide (h = "rebind.example.com") then Some [V4 (mkV4 10 0 0 1)]
  else None.

Definition demo_decision (h : str) : option HostBlockDecision :=
  match demo_built with
  | Ok s => Some (host_blocked s demo_lookup h 443)
  | Err _ => None
  end.

(** A host listed by itself passes the policy without local binding, and is
    then refused by the connector. *)
Example demo_decisions :
  demo_decision "API.example.com." = Some Allowed /\
  demo_decision "evil.example.com:443" = Some (Blocked Denied) /\
  demo_decision "rebind.example.com" = Some (Blocked NotAllowedLocal) /\
  demo_decision "gone.example.com" = Some (Blocked NotAllowedLocal) /\
  demo_decision "[::ffff:10.0.0.1]" = Some (Blocked NotAllowedLocal) /\
  demo_decision "8.8.8.8" = Some (Blocked NotAllowed) /\
  demo_decision "127.0.0.1" = Some Allowed /\
  connect_permitted false (V4 (mkV4 127 0 0 1)) = false.
Proof. vm_compute. split_and!; reflexivity. Qed.

Lemma reachable_policy_witness :
  exists s, demo_built = Ok s /\
    host_blocked s demo_lookup "Evil.Example.com" 443 = Blocked Denied.
Proof.
  assert (is_ok demo_built = true) as Hok by (vm_compute; reflexivity).
  assert (is_ok (validate_policy_against_constraints demo_net demo_constraints) = true) as Hv
    by (vm_compute; reflexivity).
  destruct demo_built as [s|] eqn:E; [|discriminate Hok].
  exists s. split; [reflexivity|].
  destruct (build_config_state_inv _ _ _ _ E) as (Hc & Hk & _).
  assert (reachable (s, [])) as Hr.
  { apply reachable_init. exists (fun _ => None). rewrite Hc, Hk. split; [exact Hv|exact E]. }
  destruct (reachable_policy s [] demo_lookup "Evil.Example.com" 443 Hr) as (_ & _ & _ & Hd & _).
  apply (Hd ["EVIL.example.com"]).
  - rewrite Hk. reflexivity.
  - vm_compute. discriminate.
  - vm_compute. reflexivity.
Defined.

Lemma decider_overrides_misses_only_witness :
  exists s, demo_built = Ok s /\
    reachable (s, []) /\
    fst (evaluate_host_policy s demo_lookup (Some (fun _ => NetAllow))
           (mkPolicyRequest Http_ "evil.example.com" 80 None None None None)) <> NetAllow.
Proof.
  assert (is_ok demo_built = true) as Hok by (vm_compute; reflexivity).
  assert (is_ok (validate_policy_against_constraints demo_net demo_constraints) = true) as Hv
    by (vm_compute; reflexivity).
  destruct demo_built as [s|] eqn:E; [|discriminate Hok].
  exists s. split; [reflexivity|].
  destruct (build_config_state_inv _ _ _ _ E) as (Hc & Hk & _).
  assert (reachable (s, [])) as Hr.
  { apply reachable_init. exists (fun _ => None). rewrite Hc, Hk. split; [exact Hv|exact E]. }
  split; [exact Hr|].
  pose proof (decider_overrides_misses_only s [] demo_lookup (Some (fun _ => NetAllow))
    (mkPolicyRequest Http_ "evil.example.com" 80 None None None None) Hr) as H.
  destruct (evaluate_host_policy s demo_lookup _ _) as [d o].
  destruct H as (_ & _ & H & _). cbn [fst]. intros Hd.
  destruct (H Hd) as [Hm _]; [vm_compute; discriminate|].
  rewrite Hc in Hm. vm_compute in Hm. discriminate Hm.
Defined.
End Demo.
