(* ===== verification/NetHandlers.v ===== *)
(** * The request handlers of the network proxy

    [network-proxy/src/http_proxy.rs], [socks5.rs], [mitm.rs] and
    [responses.rs]: what the proxy does with a plain HTTP request, a CONNECT,
    a SOCKS5 connection or datagram, and a request inside an intercepted
    CONNECT.  A handler reads the shared state several times; between two
    reads the state may change, and each read first reloads and may fail.
    Handlers are programs over such reads, with the blocked requests they
    record and the audit events they emit. *)

From S2P Require Import Prelude RustStr AbsolutePath FsPolicy ExecRule IpAddr NetHost.
From S2P Require Import NetConfig MitmHook NetPolicy NetRuntime.
#[local] Open Scope str_scope.

(** ** Reasons and messages *)

Definition REASON_METHOD_NOT_ALLOWED : str := "method_not_allowed".
Definition REASON_MITM_HOOK_DENIED : str := "mitm_hook_denied".
Definition REASON_MITM_REQUIRED : str := "mitm_required".
Definition REASON_PROXY_DISABLED : str := "proxy_disabled".
Definition REASON_UNIX_SOCKET_UNSUPPORTED : str := "unix_socket_unsupported".

Definition blocked_header_value (reason : str) : str :=
  if bool_decide (reason = reason_str NotAllowed) || bool_decide (reason = reason_str NotAllowedLocal)
  then "blocked-by-allowlist"
  else if bool_decide (reason = reason_str Denied) then "blocked-by-denylist"
  else if bool_decide (reason = REASON_METHOD_NOT_ALLOWED) then "blocked-by-method-policy"
  else if bool_decide (reason = REASON_MITM_HOOK_DENIED) then "blocked-by-mitm-hook"
  else if bool_decide (reason = REASON_MITM_REQUIRED) then "blocked-by-mitm-required"
  else "blocked-by-policy".

Definition blocked_message (reason : str) : str :=
  if bool_decide (reason = reason_str NotAllowed) then "Domain not in allowlist."
  else if bool_decide (reason = reason_str NotAllowedLocal)
  then "Sandbox policy blocks local/private network addresses."
  else if bool_decide (reason = reason_str Denied) then "Domain denied by the sandbox policy."
  else if bool_decide (reason = REASON_METHOD_NOT_ALLOWED)
  then "Method not allowed in limited mode."
  else if bool_decide (reason = REASON_MITM_HOOK_DENIED)
  then "HTTPS request denied by MITM hook policy."
  else if bool_decide (reason = REASON_MITM_REQUIRED) then "MITM required for limited HTTPS."
  else if bool_decide (reason = REASON_PROXY_DISABLED) then "network proxy is disabled"
  else "Request blocked by network policy.".

Definition protocol_str (p : NetworkProtocol) : str :=
  match p with
  | Http_ => "http"
  | HttpsConnect => "https_connect"
  | Socks5Tcp => "socks5_tcp"
  | Socks5Udp => "socks5_udp"
  end.
Definition decision_str (d : NetworkPolicyDecision) : str :=
  match d with PolicyDeny => "deny" | PolicyAsk => "ask" end.
Definition source_str (s : NetworkDecisionSource) : str :=
  match s with
  | BaselinePolicy => "baseline_policy"
  | ModeGuard => "mode_guard"
  | ProxyState => "proxy_state"
  | Decider => "decider"
  end.

Record PolicyDecisionDetails := mkDetails {
  pd_decision : NetworkPolicyDecision;
  pd_reason : str;
  pd_source : NetworkDecisionSource;
  pd_protocol : NetworkProtocol;
  pd_host : str;
  pd_port : N
}.

(** The responses, up to their serialisation: a status with a text, a 403
    with the blocked headers, the JSON body of a blocked request. *)
Inductive Response :=
| TextResponse (status : N) (body : str)
| BlockedText (reason header body : str)
| JsonBlocked (host_ reason : str) (details : option PolicyDecisionDetails) (header : str).

Definition blocked_text_response (reason : str) : Response :=
  BlockedText reason (blocked_header_value reason) (blocked_message reason).
Definition json_blocked (host_ reason : str) (details : option PolicyDecisionDetails) : Response :=
  JsonBlocked host_ reason details (blocked_header_value reason).

(** ** Handlers as programs *)

Record AuditEvent := mkAudit {
  a_domain_scope : bool;
  a_decision : str;
  a_source : NetworkDecisionSource;
  a_reason : str;
  a_protocol : NetworkProtocol;
  a_address : str;
  a_port : N;
  a_override : bool
}.

Inductive Event :=
| Recorded (entry : BlockedRequest)
| Audited (e : AuditEvent).

Section Handlers.
Context {globs : Globs} {http : Http} {json : Json} {os : Os} {urls : Urls} {mitm_ : Mitm}.

(** The results of the successive reads. *)
Abbreviation World := (nat -> result Anyhow ConfigState).

(** A handler from the index of the next read to its result, the index after
    it and what it emitted. *)
Definition Handler (A : Type) : Type := World -> nat -> A * nat * list Event.

Definition h_ret {A} (a : A) : Handler A := fun _ n => (a, n, []).
Definition h_bind {A B} (m : Handler A) (f : A -> Handler B) : Handler B := fun w n =>
  let '(a, n, e1) := m w n in
  let '(b, n, e2) := f a w n in
  (b, n, e1 ++ e2).

#[local] Instance handler_ret : MRet Handler := fun A => h_ret.
#[local] Instance handler_bind : MBind Handler := fun A B f m => h_bind m f.

Definition h_read : Handler (result Anyhow ConfigState) := fun w n => (w n, S n, []).
Definition h_emit (e : Event) : Handler unit := fun _ n => (tt, n, [e]).

Definition run {A} (m : Handler A) (w : World) : A := (m w 0).1.1.
Definition events {A} (m : Handler A) (w : World) : list Event := (m w 0).2.

(** The environment of a handler: the clock, name resolution, the decider
    and the platform. *)
Context (now : Z) (lookup : Lookup) (decider : option (NetworkPolicyRequest -> NetworkDecision))
  (macos : bool).

(** [record_blocked], which reloads first; its error is ignored. *)
Definition record (host_ reason : str) (client method : option str) (m : option NetworkMode)
    (protocol : str) (details : option PolicyDecisionDetails) (port : option N) : Handler unit :=
  r ← h_read;
  match r with
  | Err _ => mret tt
  | Ok _ =>
      h_emit (Recorded (mkBlocked host_ reason client method m protocol
        (decision_str ∘ pd_decision <$> details) (source_str ∘ pd_source <$> details) port now))
  end.

Definition audit_block (source : NetworkDecisionSource) (reason : str) (protocol : NetworkProtocol)
    (address : str) (port : N) : Handler unit :=
  h_emit (Audited (mkAudit false "deny" source reason protocol address port false)).
Definition audit_allow (source : NetworkDecisionSource) (reason : str) (protocol : NetworkProtocol)
    (address : str) (port : N) : Handler unit :=
  h_emit (Audited (mkAudit false "allow" source reason protocol address port false)).

(** [evaluate_host_policy] with its read and its audit event. *)
Definition host_policy (req : NetworkPolicyRequest) : Handler (result Anyhow NetworkDecision) :=
  r ← h_read;
  match r with
  | Err e => mret (Err e)
  | Ok guard =>
      let '(decision, override) := evaluate_host_policy guard lookup decider req in
      let '(text, source, reason) :=
        match decision with
        | NetAllow => if override then ("allow", Decider, reason_str NotAllowed)
                      else ("allow", BaselinePolicy, "allow")
        | NetDeny reason source d => (decision_str d, source, reason)
        end in
      _ ← h_emit (Audited (mkAudit true text source reason (pr_protocol req) (pr_host req)
                             (pr_port req) override));
      mret (Ok decision)
  end.

Definition internal_error : Response := TextResponse 500 "error".

(** [proxy_disabled_response] *)
Definition proxy_disabled_response (host_ : str) (port : N) (client method : option str)
    (protocol : NetworkProtocol) (endpoint : option (str * N)) : Handler Response :=
  let '(address, audit_port) := default (host_, port) endpoint in
  _ ← audit_block ProxyState REASON_PROXY_DISABLED protocol address audit_port;
  let details := mkDetails PolicyDeny REASON_PROXY_DISABLED ProxyState protocol host_ port in
  _ ← record host_ REASON_PROXY_DISABLED client method None (protocol_str protocol)
        (Some details) (Some port);
  mret (TextResponse 503 (blocked_message REASON_PROXY_DISABLED)).

(** ** CONNECT *)

Inductive ConnectOutcome :=
| ConnectRefused (response : Response)
(** The tunnel is accepted; with an interception state it ends in the proxy,
    which handles the inner requests under the mode. *)
| ConnectAccepted (host_ : str) (port : N) (needs_mitm : bool) (m : NetworkMode)
    (interception : option MitmState).

Definition request_details (d : NetworkPolicyDecision) (reason : str)
    (source : NetworkDecisionSource) (protocol : NetworkProtocol) (host_ : str) (port : N) :=
  mkDetails d reason source protocol host_ port.

(** [http_connect_accept]; [authority] is what [RequestContext] finds. *)
Definition http_connect_accept (authority : option (str * N)) (client : option str)
    : Handler ConnectOutcome :=
  match authority with
  | None => mret (ConnectRefused (TextResponse 400 "missing authority"))
  | Some (authority_host, port) =>
      let host_ := normalize_host authority_host in
      if is_empty host_ then mret (ConnectRefused (TextResponse 400 "invalid host"))
      else
        enabled_read ← h_read;
        match enabled_read with
        | Err _ => mret (ConnectRefused internal_error)
        | Ok guard =>
            if negb (enabled (network (config guard))) then
              response ← proxy_disabled_response host_ port client (Some "CONNECT")
                           HttpsConnect None;
              mret (ConnectRefused response)
            else
              decision ← host_policy (mkPolicyRequest HttpsConnect host_ port client
                                        (Some "CONNECT") None None);
              match decision with
              | Err _ => mret (ConnectRefused internal_error)
              | Ok (NetDeny reason source d) =>
                  let details := request_details d reason source HttpsConnect host_ port in
                  _ ← record host_ reason client (Some "CONNECT") None "http-connect"
                        (Some details) (Some port);
                  mret (ConnectRefused (blocked_text_response reason))
              | Ok NetAllow =>
                  mode_read ← h_read;
                  match mode_read with
                  | Err _ => mret (ConnectRefused internal_error)
                  | Ok mode_guard =>
                      let mode_ := mode (network (config mode_guard)) in
                      mitm_read ← h_read;
                      match mitm_read with
                      | Err _ => mret (ConnectRefused internal_error)
                      | Ok mitm_guard =>
                          hooks_read ← h_read;
                          match hooks_read with
                          | Err _ => mret (ConnectRefused internal_error)
                          | Ok hooks_guard =>
                              let host_has_mitm_hooks :=
                                bool_decide (is_Some (hooks_by_host hooks_guard
                                                        !! normalize_host host_)) in
                              let connect_needs_mitm :=
                                bool_decide (mode_ = Limited) || host_has_mitm_hooks in
                              match mitm_state mitm_guard with
                              | None =>
                                  if connect_needs_mitm then
                                    _ ← audit_block ModeGuard REASON_MITM_REQUIRED HttpsConnect
                                          host_ port;
                                    let details := request_details PolicyDeny
                                      REASON_MITM_REQUIRED ModeGuard HttpsConnect host_ port in
                                    _ ← record host_ REASON_MITM_REQUIRED client (Some "CONNECT")
                                          (Some mode_) "http-connect" (Some details) (Some port);
                                    mret (ConnectRefused
                                            (blocked_text_response REASON_MITM_REQUIRED))
                                  else mret (ConnectAccepted host_ port false mode_ None)
                              | Some m =>
                                  mret (ConnectAccepted host_ port connect_needs_mitm mode_
                                          (if connect_needs_mitm then Some m else None))
                              end
                          end
                      end
                  end
              end
        end
  end.

(** ** Plain HTTP *)

(** The [Host] header as [typed_try_get] reads it: an error, absent, or a
    host with an optional port. *)
Inductive HostHeader :=
| HostInvalid
| HostAbsent
| HostIs (host_ : str) (port : option N).

(** What the code reads of the request and of its [RequestContext]. *)
Record RequestContext := mkContext {
  ctx_host : str;
  ctx_port : option N;
  ctx_default_port : bool;
  ctx_effective_port : N
}.

Record PlainRequest := mkPlain {
  plain_method : str;
  plain_scheme : option str;
  plain_host_header : HostHeader;
  (** The [x-unix-socket] header, [Some None] when it is not a string. *)
  plain_unix_socket : option (option str);
  plain_context : option RequestContext;
  plain_client : option str
}.

Definition validate_absolute_form_host_header (req : PlainRequest) (ctx : RequestContext)
    : result str unit :=
  match plain_scheme req with
  | None => Ok tt
  | Some _ =>
      match plain_host_header req with
      | HostInvalid => Err "invalid Host header"
      | HostAbsent => Ok tt
      | HostIs host_ port =>
          if bool_decide (host_ <> ctx_host ctx)
          then Err "Host header does not match request target"
          else
            match port with
            | Some host_port =>
                if bool_decide (Some host_port <> ctx_port ctx)
                then Err "Host header does not match request target" else Ok tt
            | None =>
                if negb (ctx_default_port ctx)
                then Err "Host header does not match request target" else Ok tt
            end
      end
  end.

Inductive PlainOutcome :=
| PlainAnswered (response : Response)
| PlainUnixSocket (path : str)
(** Sent on, through the upstream proxy of the environment or directly. *)
| PlainForwarded (host_ : str) (port : N) (upstream_proxy : bool).

(** The branch of a request with an [x-unix-socket] header. *)
Definition plain_unix_socket_request (req : PlainRequest) (method_allowed : bool)
    (header : option str) : Handler PlainOutcome :=
  let method := plain_method req in
  match header with
  | None => mret (PlainAnswered (TextResponse 400 "invalid x-unix-socket header"))
  | Some socket_path =>
      enabled_read ← h_read;
      match enabled_read with
      | Err _ => mret (PlainAnswered internal_error)
      | Ok guard =>
          if negb (enabled (network (config guard))) then
            response ← proxy_disabled_response socket_path 0 (plain_client req) (Some method)
                         Http_ (Some ("unix-socket", 0%N));
            mret (PlainAnswered response)
          else if negb method_allowed then
            _ ← audit_block ModeGuard REASON_METHOD_NOT_ALLOWED Http_ "unix-socket" 0;
            mret (PlainAnswered (json_blocked "unix-socket" REASON_METHOD_NOT_ALLOWED None))
          else if negb macos then
            _ ← audit_block ProxyState REASON_UNIX_SOCKET_UNSUPPORTED Http_ "unix-socket" 0;
            mret (PlainAnswered (TextResponse 501 "unix sockets unsupported"))
          else
            socket_read ← h_read;
            match socket_read with
            | Err _ => mret (PlainAnswered internal_error)
            | Ok guard =>
                if is_unix_socket_allowed macos guard socket_path then
                  _ ← audit_allow ProxyState "allow" Http_ "unix-socket" 0;
                  mret (PlainUnixSocket socket_path)
                else
                  _ ← audit_block ProxyState (reason_str NotAllowed) Http_ "unix-socket" 0;
                  mret (PlainAnswered (json_blocked "unix-socket" (reason_str NotAllowed) None))
            end
      end
  end.

(** The rest of a request the host policy allows. *)
Definition plain_allowed_request (req : PlainRequest) (method_allowed : bool) (host_ : str)
    (port : N) : Handler PlainOutcome :=
  let method := plain_method req in
  if negb method_allowed then
    _ ← audit_block ModeGuard REASON_METHOD_NOT_ALLOWED Http_ host_ port;
    let details := request_details PolicyDeny REASON_METHOD_NOT_ALLOWED ModeGuard Http_
                     host_ port in
    _ ← record host_ REASON_METHOD_NOT_ALLOWED (plain_client req) (Some method) (Some Limited)
          "http" (Some details) (Some port);
    mret (PlainAnswered (json_blocked host_ REASON_METHOD_NOT_ALLOWED (Some details)))
  else
    upstream_read ← h_read;
    match upstream_read with
    | Err _ => mret (PlainAnswered internal_error)
    | Ok guard =>
        mret (PlainForwarded host_ port (allow_upstream_proxy (network (config guard))))
    end.

Definition http_plain_proxy (req : PlainRequest) : Handler PlainOutcome :=
  let method := plain_method req in
  let client := plain_client req in
  method_read ← h_read;
  match method_read with
  | Err _ => mret (PlainAnswered internal_error)
  | Ok guard =>
      let method_allowed := allows_method (mode (network (config guard))) method in
      match plain_unix_socket req with
      | Some header => plain_unix_socket_request req method_allowed header
      | None =>
          match plain_context req with
          | None => mret (PlainAnswered (TextResponse 400 "missing host"))
          | Some ctx =>
              let host_ := normalize_host (ctx_host ctx) in
              let port := ctx_effective_port ctx in
              match validate_absolute_form_host_header req ctx with
              | Err reason => mret (PlainAnswered (TextResponse 400 reason))
              | Ok _ =>
                  enabled_read ← h_read;
                  match enabled_read with
                  | Err _ => mret (PlainAnswered internal_error)
                  | Ok guard =>
                      if negb (enabled (network (config guard))) then
                        response ← proxy_disabled_response host_ port client (Some method)
                                     Http_ None;
                        mret (PlainAnswered response)
                      else
                        decision ← host_policy (mkPolicyRequest Http_ host_ port client
                                                  (Some method) None None);
                        match decision with
                        | Err _ => mret (PlainAnswered internal_error)
                        | Ok (NetDeny reason source d) =>
                            let details := request_details d reason source Http_ host_ port in
                            _ ← record host_ reason client (Some method) None "http"
                                  (Some details) (Some port);
                            mret (PlainAnswered (json_blocked host_ reason (Some details)))
                        | Ok NetAllow => plain_allowed_request req method_allowed host_ port
                        end
                  end
              end
          end
      end
  end.

(** ** SOCKS5 *)

Inductive SocksOutcome :=
| SocksError (text : str)
| SocksDenied (message : str)
| SocksForwarded (host_ : str) (port : N).

(** A refusal before the host policy is asked. *)
Definition socks_refuse (protocol : NetworkProtocol) (log_protocol reason : str)
    (source : NetworkDecisionSource) (m : option NetworkMode) (host_ : str) (port : N)
    (client : option str) : Handler SocksOutcome :=
  _ ← audit_block source reason protocol host_ port;
  let details := request_details PolicyDeny reason source protocol host_ port in
  _ ← record host_ reason client None m log_protocol (Some details) (Some port);
  mret (SocksDenied (blocked_message reason)).

(** The host policy of a SOCKS5 request. *)
Definition socks_host_policy (protocol : NetworkProtocol) (log_protocol : str) (host_ : str)
    (port : N) (client : option str) : Handler SocksOutcome :=
  decision ← host_policy (mkPolicyRequest protocol host_ port client None None None);
  match decision with
  | Err _ => mret (SocksError "proxy error")
  | Ok (NetDeny reason source d) =>
      let details := request_details d reason source protocol host_ port in
      _ ← record host_ reason client None None log_protocol (Some details) (Some port);
      mret (SocksDenied (blocked_message reason))
  | Ok NetAllow => mret (SocksForwarded host_ port)
  end.

Definition handle_socks5_tcp (authority_host : str) (port : N) (client : option str)
    : Handler SocksOutcome :=
  let host_ := normalize_host authority_host in
  if is_empty host_ then mret (SocksError "invalid host")
  else
    enabled_read ← h_read;
    match enabled_read with
    | Err _ => mret (SocksError "proxy error")
    | Ok guard =>
        if negb (enabled (network (config guard))) then
          socks_refuse Socks5Tcp "socks5" REASON_PROXY_DISABLED ProxyState None host_ port client
        else
          mode_read ← h_read;
          match mode_read with
          | Err _ => mret (SocksError "proxy error")
          | Ok guard =>
              match mode (network (config guard)) with
              | Limited =>
                  socks_refuse Socks5Tcp "socks5" REASON_METHOD_NOT_ALLOWED ModeGuard
                    (Some Limited) host_ port client
              | Full =>
                  hooks_read ← h_read;
                  match hooks_read with
                  | Err _ => mret (SocksError "proxy error")
                  | Ok guard =>
                      if bool_decide (is_Some (hooks_by_host guard !! normalize_host host_)) then
                        socks_refuse Socks5Tcp "socks5" REASON_MITM_REQUIRED ModeGuard
                          (Some Full) host_ port client
                      else socks_host_policy Socks5Tcp "socks5" host_ port client
                  end
              end
          end
    end.

(** [server_address] is the text of the target address. *)
Definition inspect_socks5_udp (server_address : str) (port : N) (client : option str)
    : Handler SocksOutcome :=
  let host_ := normalize_host server_address in
  if is_empty host_ then mret (SocksError "invalid host")
  else
    enabled_read ← h_read;
    match enabled_read with
    | Err _ => mret (SocksError "proxy error")
    | Ok guard =>
        if negb (enabled (network (config guard))) then
          socks_refuse Socks5Udp "socks5-udp" REASON_PROXY_DISABLED ProxyState None host_ port
            client
        else
          mode_read ← h_read;
          match mode_read with
          | Err _ => mret (SocksError "proxy error")
          | Ok guard =>
              match mode (network (config guard)) with
              | Limited =>
                  socks_refuse Socks5Udp "socks5-udp" REASON_METHOD_NOT_ALLOWED ModeGuard
                    (Some Limited) host_ port client
              | Full => socks_host_policy Socks5Udp "socks5-udp" host_ port client
              end
          end
    end.

(** ** Inside an intercepted CONNECT *)

Inductive MitmPolicyDecision :=
| MitmAllow (hook_actions : option MitmHookActions)
| MitmBlock (response : Response)
(** A read that failed; the caller answers 502. *)
| MitmFailed.

(** [MitmPolicyContext] *)
Record MitmPolicyContext := mkMitmContext {
  target_host : str;
  target_port : N;
  mitm_mode : NetworkMode
}.

Definition mitm_refuse (policy : MitmPolicyContext) (reason : str) (client : option str)
    (method : str) : Handler MitmPolicyDecision :=
  _ ← record (target_host policy) reason client (Some method) (Some (mitm_mode policy)) "https"
        None (Some (target_port policy));
  mret (MitmBlock (blocked_text_response reason)).

Definition evaluate_mitm_policy (req : Request) (client : option str)
    (policy : MitmPolicyContext) : Handler MitmPolicyDecision :=
  let method := req_method req in
  if bool_decide (method = "CONNECT")
  then mret (MitmBlock (TextResponse 405 "CONNECT not supported inside MITM"))
  else
    let mismatch :=
      match extract_request_host req with
      | Some request_host =>
          let normalized := normalize_host request_host in
          negb (is_empty normalized) && bool_decide (normalized <> target_host policy)
      | None => false
      end in
    if mismatch then mret (MitmBlock (TextResponse 400 "host mismatch"))
    else
      host_read ← h_read;
      match host_read with
      | Err _ => mret MitmFailed
      | Ok guard =>
          match host_blocked guard lookup (target_host policy) (target_port policy) with
          | Blocked NotAllowedLocal =>
              mitm_refuse policy (reason_str NotAllowedLocal) client method
          | _ =>
              hooks_read ← h_read;
              match hooks_read with
              | Err _ => mret MitmFailed
              | Ok guard =>
                  let allowed hook_actions :=
                    if negb (allows_method (mitm_mode policy) method)
                    then mitm_refuse policy REASON_METHOD_NOT_ALLOWED client method
                    else mret (MitmAllow hook_actions) in
                  match evaluate_mitm_hooks (hooks_by_host guard) (target_host policy) req with
                  | Matched acts => allowed (Some acts)
                  | HookedHostNoMatch => mitm_refuse policy REASON_MITM_HOOK_DENIED client method
                  | NoHooksForHost => allowed None
                  end
              end
          end
      end.

(** ** A logic for handlers *)

(** [Q] holds of the result, the index of the next read and the events of
    [m] started at read [n]. *)
Definition wp {A} (w : World) (n : nat) (m : Handler A) (Q : A -> nat -> list Event -> Prop)
    : Prop :=
  Q (m w n).1.1 (m w n).1.2 (m w n).2.

Lemma wp_ret {A} w n (a : A) (Q : A -> nat -> list Event -> Prop) :
  Q a n [] -> wp w n (mret a) Q.
Proof. done. Qed.

Lemma wp_bind {A B} w n (m : Handler A) (f : A -> Handler B) Q :
  wp w n m (fun a k es => wp w k (f a) (fun b j es' => Q b j (es ++ es'))) ->
  wp w n (m ≫= f) Q.
Proof.
  unfold wp. cbv [mbind handler_bind h_bind]. destruct (m w n) as [[a k] e]. cbn [fst snd].
  by destruct (f a w k) as [[b j] e'].
Qed.

Lemma wp_read w n (Q : result Anyhow ConfigState -> nat -> list Event -> Prop) :
  (forall e, w n = Err e -> Q (Err e) (S n) []) ->
  (forall s, w n = Ok s -> Q (Ok s) (S n) []) -> wp w n h_read Q.
Proof. unfold wp, h_read. cbn [fst snd]. destruct (w n); auto. Qed.

Lemma wp_emit w n e (Q : unit -> nat -> list Event -> Prop) :
  Q tt n [e] -> wp w n (h_emit e) Q.
Proof. done. Qed.

Definition decision_of (req : NetworkPolicyRequest) (s : ConfigState) : NetworkDecision :=
  fst (evaluate_host_policy s lookup decider req).

Lemma wp_host_policy w n req (Q : result Anyhow NetworkDecision -> nat -> list Event -> Prop) :
  (forall e, w n = Err e -> Q (Err e) (S n) []) ->
  (forall s a, w n = Ok s -> Q (Ok (decision_of req s)) (S n) [Audited a]) ->
  wp w n (host_policy req) Q.
Proof.
  intros Herr Hok. unfold host_policy. apply wp_bind, wp_read; intros x Hx.
  { by apply wp_ret, Herr. }
  specialize (fun a => Hok x a Hx). unfold decision_of in Hok.
  destruct (evaluate_host_policy x lookup decider req) as [d o]. cbn [fst] in Hok.
  destruct d as [|reason source d]; [destruct o|]; apply wp_bind, wp_emit, wp_ret, Hok.
Qed.

Lemma wp_mono {A} w n (m : Handler A) (P Q : A -> nat -> list Event -> Prop) :
  wp w n m P -> (forall a k es, P a k es -> Q a k es) -> wp w n m Q.
Proof. unfold wp. auto. Qed.

(** The entries that a handler records. *)
Definition recorded (es : list Event) : list BlockedRequest :=
  omap (fun e => match e with Recorded b => Some b | Audited _ => None end) es.

(** ** What a forwarded request passed *)

(** One of the reads of a run succeeded with a state that satisfies [P]. *)
Definition some_read (w : World) (P : ConfigState -> Prop) : Prop :=
  exists n s, w n = Ok s /\ P s.

Lemma some_read_intro w n s (P : ConfigState -> Prop) : w n = Ok s -> P s -> some_read w P.
Proof. by exists n, s. Qed.

Definition is_enabled (s : ConfigState) : Prop := enabled (network (config s)) = true.
Definition policy_allows (req : NetworkPolicyRequest) (s : ConfigState) : Prop :=
  decision_of req s = NetAllow.
Definition state_mode (s : ConfigState) : NetworkMode := mode (network (config s)).
Definition hooked (host_ : str) (s : ConfigState) : bool :=
  bool_decide (is_Some (hooks_by_host s !! normalize_host host_)).

Definition connect_request (host_ : str) (port : N) (client : option str) :=
  mkPolicyRequest HttpsConnect host_ port client (Some "CONNECT") None None.
Definition plain_request (req : PlainRequest) (host_ : str) (port : N) :=
  mkPolicyRequest Http_ host_ port (plain_client req) (Some (plain_method req)) None None.
Definition socks_request (p : NetworkProtocol) (host_ : str) (port : N) (client : option str) :=
  mkPolicyRequest p host_ port client None None None.

Definition connect_checked (client : option str) (w : World) (out : ConnectOutcome) : Prop :=
  match out with
  | ConnectRefused _ => True
  | ConnectAccepted h p needs m inter =>
      some_read w is_enabled /\
      some_read w (policy_allows (connect_request h p client)) /\
      some_read w (fun s => state_mode s = m) /\
      some_read w (fun s => inter = if needs then mitm_state s else None) /\
      some_read w (fun s => needs = bool_decide (m = Limited) || hooked h s) /\
      (needs = true -> is_Some inter)
  end.

Definition plain_checked (req : PlainRequest) (w : World) (out : PlainOutcome) : Prop :=
  match out with
  | PlainAnswered _ => True
  | PlainUnixSocket path =>
      macos = true /\ plain_unix_socket req = Some (Some path) /\
      some_read w is_enabled /\
      some_read w (fun s => allows_method (state_mode s) (plain_method req) = true) /\
      some_read w (fun s => is_unix_socket_allowed macos s path = true)
  | PlainForwarded h p upstream =>
      plain_unix_socket req = None /\
      (exists ctx, plain_context req = Some ctx /\ h = normalize_host (ctx_host ctx) /\
         p = ctx_effective_port ctx /\ validate_absolute_form_host_header req ctx = Ok tt) /\
      some_read w is_enabled /\
      some_read w (fun s => allows_method (state_mode s) (plain_method req) = true) /\
      some_read w (policy_allows (plain_request req h p)) /\
      some_read w (fun s => upstream = allow_upstream_proxy (network (config s)))
  end.

Definition socks_checked (p : NetworkProtocol) (client : option str) (w : World)
    (out : SocksOutcome) : Prop :=
  match out with
  | SocksForwarded h port =>
      h <> [] /\ some_read w is_enabled /\ some_read w (fun s => state_mode s = Full) /\
      some_read w (policy_allows (socks_request p h port client)) /\
      (p = Socks5Tcp -> some_read w (fun s => hooked h s = false))
  | _ => True
  end.

(** What a handler records for its answer: a policy refusal exactly once,
    under the reason it shows, unless the reload before the recording fails;
    anything else never. *)
Definition recorded_once (w : World) (reason : str) (bs : list BlockedRequest) : Prop :=
  (exists b, bs = [b] /\ br_reason b = reason) \/ (bs = [] /\ exists n e, w n = Err e).

Definition response_accounted (w : World) (r : Response) (bs : list BlockedRequest) : Prop :=
  match r with
  | BlockedText reason header body =>
      recorded_once w reason bs /\ header = blocked_header_value reason /\
      body = blocked_message reason
  | JsonBlocked _ reason (Some d) header =>
      recorded_once w reason bs /\ header = blocked_header_value reason /\ pd_reason d = reason
  | JsonBlocked host_ _ None _ => host_ = "unix-socket" /\ bs = []
  | TextResponse status _ =>
      if bool_decide (status = 503%N) then recorded_once w REASON_PROXY_DISABLED bs else bs = []
  end.

Definition connect_accounted (w : World) (out : ConnectOutcome) (bs : list BlockedRequest) : Prop :=
  match out with
  | ConnectRefused r => response_accounted w r bs
  | ConnectAccepted _ _ _ _ _ => bs = []
  end.
Definition plain_accounted (w : World) (out : PlainOutcome) (bs : list BlockedRequest) : Prop :=
  match out with PlainAnswered r => response_accounted w r bs | _ => bs = [] end.
Definition socks_accounted (w : World) (out : SocksOutcome) (bs : list BlockedRequest) : Prop :=
  match out with
  | SocksDenied message => exists reason, message = blocked_message reason /\ recorded_once w reason bs
  | _ => bs = []
  end.

(** ** The handlers meet it *)

Ltac wp_step :=
  match goal with
  | |- wp _ _ (match ?x with _ => _ end) _ => let E := fresh "E" in destruct x eqn:E
  | |- wp _ _ (mret _) _ => apply wp_ret
  | |- wp _ _ (_ ≫= _) _ => apply wp_bind
  | |- wp _ _ h_read _ => apply wp_read; intros
  | |- wp _ _ (host_policy _) _ => apply wp_host_policy; intros
  | |- wp _ _ (h_emit _) _ => apply wp_emit
  | |- wp _ _ (record _ _ _ _ _ _ _ _) _ => unfold record
  | |- wp _ _ (audit_block _ _ _ _ _) _ => apply wp_emit
  | |- wp _ _ (audit_allow _ _ _ _ _) _ => apply wp_emit
  end.

Ltac account_one :=
  repeat match goal with
  | |- _ /\ _ => split
  | |- exists _, _ => eexists
  end; first [done | eassumption].

Ltac account :=
  cbn; repeat (case_bool_decide; try done); unfold recorded_once;
  repeat match goal with
  | |- _ \/ _ => first [left; account_one | right; account_one]
  | |- _ /\ _ => split
  | |- exists _, _ => eexists
  end; done.

Lemma disabled_accounted w n host_ port client method protocol endpoint :
  wp w n (proxy_disabled_response host_ port client method protocol endpoint)
    (fun r _ es => response_accounted w r (recorded es)).
Proof.
  unfold proxy_disabled_response. destruct (default _ _) as [a q].
  repeat wp_step; account.
Qed.

Lemma wp_disabled w n host_ port client method protocol endpoint (Q : Response -> nat -> list Event -> Prop) :
  (forall r k es, response_accounted w r (recorded es) -> Q r k es) ->
  wp w n (proxy_disabled_response host_ port client method protocol endpoint) Q.
Proof. intros H. eapply wp_mono; [apply disabled_accounted|auto]. Qed.

(** One of the reads of the run has the property. *)
Ltac this_read :=
  match goal with
  | H : ?w _ = Ok _ |- some_read ?w _ =>
      apply (some_read_intro _ _ _ _ H); cbn beta;
      first [done | assumption | congruence | by apply negb_false_iff]
  end.

Ltac checked := repeat split; try this_read.

Ltac run_handler :=
  repeat first [wp_step | apply wp_disabled; intros];
  rewrite ?app_nil_r, ?app_nil_l.

Lemma connect_spec w n authority client :
  wp w n (http_connect_accept authority client) (fun out _ es =>
    connect_checked client w out /\ connect_accounted w out (recorded es)).
Proof.
  unfold http_connect_accept. run_handler; split; try done; try account; cbn.
  - set (needs := bool_decide _ || _). checked.
    + destruct needs; this_read.
    + intros ->. by eexists.
  - by checked.
Qed.

Lemma plain_spec w n req :
  wp w n (http_plain_proxy req) (fun out _ es =>
    plain_checked req w out /\ plain_accounted w out (recorded es)).
Proof.
  unfold http_plain_proxy, plain_unix_socket_request, plain_allowed_request.
  run_handler; split; try done; try account; cbn.
  - checked; [|done]. by apply negb_false_iff.
  - split; [done|]. split; [|by checked].
    eexists. split_and!; [eassumption|done|done|].
    match goal with u : unit |- _ => by destruct u end.
Qed.

Lemma socks_tcp_spec w n authority_host port client :
  wp w n (handle_socks5_tcp authority_host port client) (fun out _ es =>
    socks_checked Socks5Tcp client w out /\ socks_accounted w out (recorded es)).
Proof.
  unfold handle_socks5_tcp, socks_refuse, socks_host_policy.
  run_handler; split; try done; try account; cbn.
  split; [by apply is_empty_false|]. checked. intros _. this_read.
Qed.

Lemma socks_udp_spec w n server_address port client :
  wp w n (inspect_socks5_udp server_address port client) (fun out _ es =>
    socks_checked Socks5Udp client w out /\ socks_accounted w out (recorded es)).
Proof.
  unfold inspect_socks5_udp, socks_refuse, socks_host_policy.
  run_handler; split; try done; try account; cbn.
  split; [by apply is_empty_false|]. by checked.
Qed.

Definition same_host (req : Request) (policy : MitmPolicyContext) : Prop :=
  forall h, extract_request_host req = Some h ->
    normalize_host h = [] \/ normalize_host h = target_host policy.

Definition mitm_checked (req : Request) (policy : MitmPolicyContext) (w : World)
    (out : MitmPolicyDecision) : Prop :=
  match out with
  | MitmAllow acts =>
      req_method req <> "CONNECT" /\ same_host req policy /\
      allows_method (mitm_mode policy) (req_method req) = true /\
      some_read w (fun s => host_blocked s lookup (target_host policy) (target_port policy)
                            <> Blocked NotAllowedLocal) /\
      some_read w (fun s => evaluate_mitm_hooks (hooks_by_host s) (target_host policy) req =
                            match acts with Some a => Matched a | None => NoHooksForHost end)
  | _ => True
  end.

Definition mitm_accounted (w : World) (out : MitmPolicyDecision) (bs : list BlockedRequest) : Prop :=
  match out with MitmBlock r => response_accounted w r bs | _ => bs = [] end.

Lemma same_host_check req policy :
  match extract_request_host req with
  | Some request_host =>
      negb (is_empty (normalize_host request_host)) &&
      bool_decide (normalize_host request_host <> target_host policy)
  | None => false
  end = false -> same_host req policy.
Proof.
  intros H h Hh. rewrite Hh in H. apply andb_false_iff in H as [H|H].
  - left. by apply is_empty_true, negb_false_iff.
  - right. apply bool_decide_eq_false in H. by apply dec_stable.
Qed.

Lemma mitm_spec w n req client policy :
  wp w n (evaluate_mitm_policy req client policy) (fun out _ es =>
    mitm_checked req policy w out /\ mitm_accounted w out (recorded es)).
Proof.
  unfold evaluate_mitm_policy, mitm_refuse.
  run_handler; split; try done; try account; cbn.
  all: split; [by case_bool_decide|].
  all: split; [by apply same_host_check|]; split; [by apply negb_false_iff|].
  all: split; this_read.
Qed.

(** ** The properties *)

(** C24. Nothing is forwarded unchecked.  Whatever the shared state does
    between two reads of a handler, a request that is forwarded met, in a
    state one of its reads returned, every condition on it: the proxy is
    enabled and the host policy allows that host, port and client; a plain
    request has a method the mode allows and a [Host] header that agrees with
    its target, a unix socket is allowed by the policy; a CONNECT that is
    accepted in limited mode, or to a host with hooks, is intercepted; a
    SOCKS5 connection needs full mode and no hooks, a datagram full mode.  A
    request inside a tunnel goes on only to the host of the tunnel, by a
    method the tunnel's mode allows, and only if no hook of the host is left
    unmatched. *)
Theorem forwarded_requests_checked w authority client req host_ port policy inner :
  connect_checked client w (run (http_connect_accept authority client) w) /\
  plain_checked req w (run (http_plain_proxy req) w) /\
  socks_checked Socks5Tcp client w (run (handle_socks5_tcp host_ port client) w) /\
  socks_checked Socks5Udp client w (run (inspect_socks5_udp host_ port client) w) /\
  mitm_checked inner policy w (run (evaluate_mitm_policy inner client policy) w).
Proof.
  split_and!; [apply connect_spec|apply plain_spec|apply socks_tcp_spec|apply socks_udp_spec
              |apply mitm_spec].
Qed.

(** Refusals are recorded exactly once.  Each answer of a handler that
    refuses a request for the policy carries the header and the message of
    one reason, and the handler has recorded one blocked request, with that
    reason, unless a reload failed; every other answer, an error or a
    forwarded request, records nothing.  The exception is a refused unix socket, which is only
    audited. *)
Theorem refusals_recorded_once w authority client req host_ port policy inner :
  connect_accounted w (run (http_connect_accept authority client) w)
    (recorded (events (http_connect_accept authority client) w)) /\
  plain_accounted w (run (http_plain_proxy req) w) (recorded (events (http_plain_proxy req) w)) /\
  socks_accounted w (run (handle_socks5_tcp host_ port client) w)
    (recorded (events (handle_socks5_tcp host_ port client) w)) /\
  socks_accounted w (run (inspect_socks5_udp host_ port client) w)
    (recorded (events (inspect_socks5_udp host_ port client) w)) /\
  mitm_accounted w (run (evaluate_mitm_policy inner client policy) w)
    (recorded (events (evaluate_mitm_policy inner client policy) w)).
Proof.
  split_and!; [apply connect_spec|apply plain_spec|apply socks_tcp_spec|apply socks_udp_spec
              |apply mitm_spec].
Qed.

Definition read_only_method (method : str) : Prop :=
  method ∈ ["GET"; "HEAD"; "OPTIONS"].

Lemma limited_read_only method : allows_method Limited method = true -> read_only_method method.
Proof.
  unfold allows_method, read_only_method. apply bool_decide_eq_true_1.
Qed.

(** C25. Limited mode is read-only.  If every state a handler reads is in
    limited mode, a plain request that is forwarded, also to a unix socket,
    has a read-only method; SOCKS5 forwards nothing; and a CONNECT that is
    accepted is intercepted in limited mode, so that of the requests inside
    it only read-only ones are passed on, whatever mode the proxy is in by
    then. *)
Theorem limited_mode_read_only w :
  (forall n s, w n = Ok s -> state_mode s = Limited) ->
  (forall req, match run (http_plain_proxy req) w with
     | PlainAnswered _ => True
     | _ => read_only_method (plain_method req)
     end) /\
  (forall host_ port client h p,
     run (handle_socks5_tcp host_ port client) w <> SocksForwarded h p /\
     run (inspect_socks5_udp host_ port client) w <> SocksForwarded h p) /\
  (forall authority client h p needs m inter,
     run (http_connect_accept authority client) w = ConnectAccepted h p needs m inter ->
     needs = true /\ is_Some inter /\
     forall w' inner c acts,
       run (evaluate_mitm_policy inner c (mkMitmContext h p m)) w' = MitmAllow acts ->
       read_only_method (req_method inner)).
Proof.
  intros Hw. split_and!.
  - intros req. pose proof (proj1 (plain_spec w 0 req)) as H. fold (run (http_plain_proxy req) w) in H.
    destruct (run _ _); [done| |]; cbn in H.
    + destruct H as (_ & _ & _ & (n & s & Hn & Hm) & _). rewrite (Hw _ _ Hn) in Hm.
      by apply limited_read_only.
    + destruct H as (_ & _ & _ & (n & s & Hn & Hm) & _). rewrite (Hw _ _ Hn) in Hm.
      by apply limited_read_only.
  - intros host_ port client h p.
    pose proof (proj1 (socks_tcp_spec w 0 host_ port client)) as H1.
    pose proof (proj1 (socks_udp_spec w 0 host_ port client)) as H2.
    split; intros E; [clear H2; rename H1 into H|rename H2 into H];
      unfold run in E; rewrite E in H; destruct H as (_ & _ & (n & s & Hn & Hm) & _);
      rewrite (Hw _ _ Hn) in Hm; done.
  - intros authority client h p needs m inter E.
    pose proof (proj1 (connect_spec w 0 authority client)) as H. unfold run in E. rewrite E in H.
    destruct H as (_ & _ & (n & s & Hn & Hm) & _ & (? & ? & _ & Hneeds) & Hi).
    rewrite (Hw _ _ Hn) in Hm. subst m. cbn in Hneeds. split_and!; [done|auto|].
    intros w' inner c acts E'.
    pose proof (proj1 (mitm_spec w' 0 inner c (mkMitmContext h p Limited))) as H.
    unfold run in E'. rewrite E' in H. by apply limited_read_only, H.
Qed.
End Handlers.

(** ** At work *)

Section Demo.
#[local] Existing Instances wildcards demo_http demo_json demo_os demo_urls demo_mitm.

(** The settings of [demo_net], switched on, in limited mode with
    interception. *)
Definition limited_net : NetworkProxyConfig :=
  let s := network demo_net in
  mkConfig _ (mkSettings _ true (proxy_url s) (enable_socks5 s) (socks_url s)
    (enable_socks5_udp s) (allow_upstream_proxy s) (dangerously_allow_non_loopback_proxy s)
    (dangerously_allow_all_unix_sockets s) Limited (domains s) (unix_sockets s)
    (allow_local_binding s) true (mitm_hooks s)).

Definition limited_built : result Anyhow ConfigState :=
  build_config_state (fun _ => None) limited_net demo_constraints.

(** The third read fails, the others return that state. *)
Definition steady : nat -> result Anyhow ConfigState := fun _ => limited_built.
Definition failing : nat -> result Anyhow ConfigState := fun n => if (n =? 2)%nat then Err ["reload failed"] else limited_built.

Definition demo_get (method host_ : str) : PlainRequest :=
  mkPlain method (Some "http") (HostIs host_ None) None
    (Some (mkContext host_ None true 80)) None.

Definition demo_plain (w : (nat -> result Anyhow ConfigState)) (method host_ : str) : PlainOutcome * list str :=
  let h := http_plain_proxy 0 demo_lookup None false (demo_get method host_) in
  (run h w, map br_reason (recorded (events h w))).

Example demo_handlers :
  demo_plain steady "GET" "api.example.com" = (PlainForwarded "api.example.com" 80 true, []) /\
  (demo_plain steady "POST" "api.example.com").2 = ["method_not_allowed"] /\
  (demo_plain steady "GET" "evil.example.com").2 = ["denied"] /\
  demo_plain failing "GET" "api.example.com" = (PlainAnswered internal_error, []) /\
  run (http_connect_accept 0 demo_lookup None (Some ("api.example.com", 443%N)) None) steady =
    ConnectAccepted "api.example.com" 443 true Limited (Some tt) /\
  run (handle_socks5_tcp 0 demo_lookup None "api.example.com" 443 None) steady =
    SocksDenied "Method not allowed in limited mode.".
Proof. vm_compute. split_and!; reflexivity. Qed.

Lemma limited_mode_read_only_witness :
  (exists h p, run (http_plain_proxy 0 demo_lookup None false
                      (demo_get "GET" "api.example.com")) steady = PlainForwarded h p true) /\
  read_only_method "GET" /\
  forall inner c acts,
    run (evaluate_mitm_policy 0 demo_lookup inner c (mkMitmContext "api.example.com" 443 Limited))
      failing = MitmAllow acts ->
    read_only_method (req_method inner).
Proof.
  assert (Hw : forall n s, steady n = Ok s -> state_mode s = Limited).
  { intros n s H. assert (Hm : match limited_built with
      | Ok t => state_mode t = Limited | Err _ => True end) by (vm_compute; reflexivity).
    unfold steady in H. rewrite H in Hm. exact Hm. }
  destruct (limited_mode_read_only 0 demo_lookup None false steady Hw) as (Hp & _ & Hc).
  assert (E : exists h p, run (http_plain_proxy 0 demo_lookup None false
            (demo_get "GET" "api.example.com")) steady = PlainForwarded h p true).
  { exists "api.example.com", 80%N. vm_compute. reflexivity. }
  split; [exact E|]. split.
  - specialize (Hp (demo_get "GET" "api.example.com")).
    destruct E as (h & p & E). rewrite E in Hp. exact Hp.
  - intros inner c acts.
    apply (Hc (Some ("api.example.com", 443%N)) None "api.example.com" 443%N true Limited
             (Some tt)).
    vm_compute. reflexivity.
Defined.
End Demo.
