(* ===== verification/ConfigMerge.v ===== *)
(** * Layers of configuration merged

    [codex-rs/config/src/merge.rs], [key_aliases.rs], [overrides.rs] and
    [fingerprint.rs] ([record_origins]): TOML values, the legacy keys renamed,
    a layer merged over another, the overrides of the command line, and the
    layer each setting is said to come from. *)

From S2P Require Import Prelude RustStr Truncate AbsolutePath IpAddr NetHost.
#[local] Open Scope str_scope.

(** [toml::Value]; a table is an insertion-ordered map without duplicate keys
    ([wf]). *)
Inductive scalar :=
| SString (s : str) | SInteger (z : Z) | SFloat (bits : N) | SBoolean (b : bool) | SDatetime (s : str).
Inductive toml :=
| Scalar (s : scalar)
| Array (items : list toml)
| Table (entries : list (str * toml)).

(** ** The maps of [toml] *)

Section Map.
Context {A : Type}.
Implicit Types (l : list (str * A)) (k : str) (v : A).

Fixpoint tget k l : option A :=
  match l with
  | [] => None
  | (k', v) :: l => if decide (k = k') then Some v else tget k l
  end.
Fixpoint tinsert k v l : list (str * A) :=
  match l with
  | [] => [(k, v)]
  | (k', v') :: l => if decide (k = k') then (k, v) :: l else (k', v') :: tinsert k v l
  end.
Definition tremove k l : list (str * A) := List.filter (fun e => bool_decide (fst e <> k)) l.

Lemma tget_tinsert k k' v l : tget k (tinsert k' v l) = if decide (k = k') then Some v else tget k l.
Proof.
  induction l as [|[a w] l IH]; cbn; [done|].
  destruct (decide (k' = a)) as [->|Ha]; cbn; [by destruct (decide (k = a))|].
  rewrite IH. destruct (decide (k = a)) as [->|]; [|done]. by rewrite decide_False by congruence.
Qed.

Lemma tget_tremove k k' l : tget k (tremove k' l) = if decide (k = k') then None else tget k l.
Proof.
  unfold tremove. induction l as [|[a w] l IH]; cbn; [by destruct (decide _)|].
  destruct (decide (a = k')) as [->|Ha].
  - rewrite bool_decide_false by tauto. rewrite IH. by destruct (decide (k = k')).
  - rewrite bool_decide_true by done. cbn. rewrite IH.
    destruct (decide (k = a)) as [->|]; [|done]. by rewrite decide_False by congruence.
Qed.

Lemma tget_elem k v l : tget k l = Some v -> (k, v) ∈ l.
Proof.
  induction l as [|[a w] l IH]; cbn; [done|].
  destruct (decide (k = a)) as [->|]; [intros [= ->]; by left|right; auto].
Qed.

Lemma tget_None k l : tget k l = None <-> k ∉ (fst <$> l).
Proof.
  induction l as [|[a w] l IH]; cbn; [split; [intros _; apply not_elem_of_nil|done]|].
  rewrite not_elem_of_cons. destruct (decide (k = a)); [by split; [|intros [? _]]|].
  rewrite IH. tauto.
Qed.

Lemma elem_tinsert k v l e : e ∈ tinsert k v l -> e = (k, v) \/ e ∈ l.
Proof.
  induction l as [|[a w] l IH]; cbn; [by rewrite list_elem_of_singleton; left|].
  destruct (decide (k = a)); rewrite !elem_of_cons; [tauto|]. intros [->|?%IH]; tauto.
Qed.

Lemma keys_tinsert k v l : NoDup (fst <$> l) -> NoDup (fst <$> tinsert k v l).
Proof.
  induction l as [|[a w] l IH]; cbn; [by repeat constructor; apply not_elem_of_nil|].
  intros [Ha Hl]%NoDup_cons. destruct (decide (k = a)) as [->|Hk]; cbn; [by constructor|].
  constructor; [|auto]. intros ([b u] & Heq & Hin)%list_elem_of_fmap. cbn in Heq. subst b.
  apply elem_tinsert in Hin as [[= ->]|Hin]; [done|]. apply Ha, list_elem_of_fmap. by exists (a, u).
Qed.

Lemma keys_tremove k l : NoDup (fst <$> l) -> NoDup (fst <$> tremove k l).
Proof.
  intros Hl. eapply sublist_NoDup; [exact Hl|]. unfold tremove. clear Hl.
  induction l as [|[a w] l IH]; cbn; [done|]. by destruct (bool_decide _); cbn; constructor.
Qed.
End Map.

(** ** Legacy keys ([key_aliases.rs]) *)

Record ConfigKeyAlias := mkAlias { table_path : list str; legacy_key : str; canonical_key : str }.

Definition CONFIG_KEY_ALIASES : list ConfigKeyAlias :=
  [mkAlias ["memories" : str] "no_memories_if_mcp_or_web_search" "disable_on_external_context"].

Definition apply_alias (path : list str) (table : list (str * toml)) (alias : ConfigKeyAlias)
  : list (str * toml) :=
  if decide (path = table_path alias) then
    match tget (legacy_key alias) table with
    | Some value =>
        let table := tremove (legacy_key alias) table in
        match tget (canonical_key alias) table with
        | Some _ => table
        | None => tinsert (canonical_key alias) value table
        end
    | None => table
    end
  else table.

Definition normalize_key_aliases (path : list str) (table : list (str * toml))
  : list (str * toml) :=
  fold_left (apply_alias path) CONFIG_KEY_ALIASES table.

Fixpoint normalized_with_key_aliases (path : list str) (value : toml) : toml :=
  match value with
  | Table table =>
      Table (normalize_key_aliases path
        ((fix children (t : list (str * toml)) : list (str * toml) :=
            match t with
            | [] => []
            | (key, child) :: t =>
                (key, normalized_with_key_aliases (path ++ [key]) child) :: children t
            end) table))
  | Array items => Array (map (normalized_with_key_aliases path) items)
  | Scalar s => Scalar s
  end.

(** ** Merging ([merge.rs]) *)

Definition is_permission_network_domains_path (path : list str) : bool :=
  match path with
  | [permissions; _; network; domains] =>
      bool_decide (permissions = "permissions") && bool_decide (network = "network")
      && bool_decide (domains = "domains")
  | _ => false
  end.

Definition normalize_network_domain_keys (table : list (str * toml)) : list (str * toml) :=
  fold_left (fun t e => tinsert (normalize_host (fst e)) (snd e) t) table [].

(** The recursion goes down the overlay; the fuel is more than its depth. *)
Fixpoint merge_toml_values_at_path (fuel : nat) (base overlay : toml) (path : list str) : toml :=
  match fuel with
  | 0 => base
  | S fuel =>
      match overlay, base with
      | Table overlay_table, Table base_table =>
          let base_table := normalize_key_aliases path base_table in
          let overlay_table := normalize_key_aliases path overlay_table in
          let '(base_table, overlay_table) :=
            if is_permission_network_domains_path path
            then (normalize_network_domain_keys base_table,
                  normalize_network_domain_keys overlay_table)
            else (base_table, overlay_table) in
          Table (fold_left (fun t e =>
            let '(key, value) := e in
            match tget key t with
            | Some existing =>
                tinsert key (merge_toml_values_at_path fuel existing value (path ++ [key])) t
            | None => tinsert key (normalized_with_key_aliases (path ++ [key]) value) t
            end) overlay_table base_table)
      | _, _ => normalized_with_key_aliases path overlay
      end
  end.

Fixpoint depth (v : toml) : nat :=
  match v with
  | Scalar _ => 0
  | Array items => S (foldr (fun v n => Nat.max (depth v) n) 0 items)
  | Table t =>
      S ((fix go (t : list (str * toml)) : nat :=
            match t with [] => 0 | (_, v) :: t => Nat.max (depth v) (go t) end) t)
  end.

Definition merge_toml_values (base overlay : toml) : toml :=
  merge_toml_values_at_path (S (depth overlay)) base overlay [].

(** [effective_config] of a list of layers, the lowest first. *)
Definition merge_layers (layers : list toml) : toml := fold_left merge_toml_values layers (Table []).

(** ** Overrides of the command line ([overrides.rs]) *)

Definition entries_of (v : toml) : list (str * toml) :=
  match v with Table t => t | _ => [] end.

(** The segments of [path.split('.')], of which there is at least one. *)
Fixpoint apply_segments (root : toml) (segments : list str) (value : toml) : toml :=
  match segments with
  | [] => root
  | [segment] => Table (tinsert segment value (entries_of root))
  | segment :: segments =>
      let child := default (Table []) (tget segment (entries_of root)) in
      Table (tinsert segment (apply_segments child segments value) (entries_of root))
  end.

Definition apply_toml_override (root : toml) (path : str) (value : toml) : toml :=
  apply_segments root (split 46%N path) value.

Definition build_cli_overrides_layer (cli_overrides : list (str * toml)) : toml :=
  fold_left (fun root o => apply_toml_override root (fst o) (snd o)) cli_overrides (Table []).

(** ** Where settings come from ([fingerprint.rs]) *)

Section Origins.
Context {M : Type}.

Fixpoint record_origins (value : toml) (meta : M) (path : list str) (origins : gmap str M)
  : gmap str M :=
  match value with
  | Table t =>
      (fix go (t : list (str * toml)) (o : gmap str M) : gmap str M :=
         match t with
         | [] => o
         | (key, val) :: t => go t (record_origins val meta (path ++ [key]) o)
         end) t origins
  | Array items =>
      (fix go (items : list toml) (idx : N) (o : gmap str M) : gmap str M :=
         match items with
         | [] => o
         | item :: items =>
             go items (idx + 1)%N (record_origins item meta (path ++ [format_number idx]) o)
         end) items 0%N origins
  | Scalar _ => if is_empty path then origins else <[join "." path := meta]> origins
  end.
End Origins.

(** ** Induction and normal forms *)

Section Induction.
Variable P : toml -> Prop.
Hypothesis HS : forall s, P (Scalar s).
Hypothesis HA : forall l, Forall P l -> P (Array l).
Hypothesis HT : forall t, Forall (fun e => P (snd e)) t -> P (Table t).

Fixpoint toml_nested_ind (v : toml) : P v :=
  match v with
  | Scalar s => HS s
  | Array l =>
      HA l ((fix go (l : list toml) : Forall P l :=
               match l with
               | [] => Forall_nil_2 P
               | v :: l => Forall_cons_2 P v l (toml_nested_ind v) (go l)
               end) l)
  | Table t =>
      HT t ((fix go (t : list (str * toml)) : Forall (fun e => P (snd e)) t :=
               match t with
               | [] => Forall_nil_2 _
               | (k, v) :: t => Forall_cons_2 (fun e => P (snd e)) (k, v) t (toml_nested_ind v) (go t)
               end) t)
  end.
End Induction.

(** A table is a map: no key twice, at any depth. *)
Inductive wf : toml -> Prop :=
| wf_scalar s : wf (Scalar s)
| wf_array l : Forall wf l -> wf (Array l)
| wf_table t : NoDup (fst <$> t) -> Forall (fun e => wf (snd e)) t -> wf (Table t).

Definition normalize_children (path : list str) (t : list (str * toml)) : list (str * toml) :=
  (fun e => (fst e, normalized_with_key_aliases (path ++ [fst e]) (snd e))) <$> t.

Lemma normalized_table path t :
  normalized_with_key_aliases path (Table t)
  = Table (normalize_key_aliases path (normalize_children path t)).
Proof.
  cbn. do 2 f_equal. induction t as [|[k v] t IH]; [done|]. cbn. by f_equal.
Qed.

Lemma normalized_array path l :
  normalized_with_key_aliases path (Array l) = Array (normalized_with_key_aliases path <$> l).
Proof. done. Qed.

Abbreviation MEMORIES := (["memories" : str]).

Lemma aliases_other path t : path <> MEMORIES -> normalize_key_aliases path t = t.
Proof. intros Hp. unfold normalize_key_aliases. cbn. unfold apply_alias. by rewrite decide_False. Qed.

Definition legacy : str := "no_memories_if_mcp_or_web_search".
Definition canonical : str := "disable_on_external_context".

Lemma aliases_memories t :
  normalize_key_aliases MEMORIES t
  = match tget legacy t with
    | Some value =>
        match tget canonical t with
        | Some _ => tremove legacy t
        | None => tinsert canonical value (tremove legacy t)
        end
    | None => t
    end.
Proof.
  unfold normalize_key_aliases. cbn. unfold apply_alias. rewrite decide_True by done. cbn.
  fold legacy canonical. destruct (tget legacy t); [|done].
  rewrite tget_tremove. by destruct (decide (canonical = legacy)).
Qed.

(** What a key gives after the renaming. *)
Lemma tget_aliases k path t :
  tget k (normalize_key_aliases path t)
  = if decide (path = MEMORIES) then
      if decide (k = legacy) then None
      else if decide (k = canonical) then
        match tget canonical t with Some v => Some v | None => tget legacy t end
      else tget k t
    else tget k t.
Proof.
  destruct (decide (path = MEMORIES)) as [->|Hp]; [|by rewrite aliases_other].
  rewrite aliases_memories. destruct (tget legacy t) as [v|] eqn:El.
  - destruct (tget canonical t) as [w|] eqn:Ec.
    + rewrite tget_tremove. destruct (decide (k = legacy)); [done|].
      by destruct (decide (k = canonical)) as [->|].
    + rewrite tget_tinsert, tget_tremove. destruct (decide (k = canonical)) as [->|]; [|done].
      by destruct (decide (canonical = legacy)).
  - destruct (decide (k = legacy)) as [->|]; [done|].
    destruct (decide (k = canonical)) as [->|]; [|done]. by destruct (tget canonical t).
Qed.

Lemma aliases_no_legacy path t : tget legacy t = None -> normalize_key_aliases path t = t.
Proof.
  intros H. destruct (decide (path = MEMORIES)) as [->|]; [|by apply aliases_other].
  by rewrite aliases_memories, H.
Qed.

Lemma aliases_idem path t :
  normalize_key_aliases path (normalize_key_aliases path t) = normalize_key_aliases path t.
Proof.
  destruct (decide (path = MEMORIES)) as [->|]; [|by rewrite !aliases_other].
  apply aliases_no_legacy. rewrite tget_aliases. by rewrite !decide_True.
Qed.

Lemma aliases_elem path t k v :
  (k, v) ∈ normalize_key_aliases path t -> exists k', (k', v) ∈ t.
Proof.
  destruct (decide (path = MEMORIES)) as [->|]; [|rewrite aliases_other by done; by eauto].
  rewrite aliases_memories. assert (forall e, e ∈ tremove legacy t -> e ∈ t) as Hr.
  { intros e. unfold tremove. rewrite !list_elem_of_In, filter_In. tauto. }
  destruct (tget legacy t) as [w|] eqn:El; [|by eauto].
  destruct (tget canonical t); [eauto|].
  intros [[= -> ->]|?]%elem_tinsert; [|by eauto]. exists legacy. by apply tget_elem.
Qed.

Lemma aliases_keys path t : NoDup (fst <$> t) -> NoDup (fst <$> normalize_key_aliases path t).
Proof.
  intros H. destruct (decide (path = MEMORIES)) as [->|]; [|by rewrite aliases_other].
  rewrite aliases_memories. destruct (tget legacy t); [|done].
  destruct (tget canonical t); [by apply keys_tremove|by apply keys_tinsert, keys_tremove].
Qed.

(** Renaming happens in the table [memories] only. *)
Lemma normalized_id path v :
  path <> [] -> path <> MEMORIES -> normalized_with_key_aliases path v = v.
Proof.
  revert path. induction v as [s|l IH|t IH] using toml_nested_ind; intros path H0 Hm; [done| |].
  - rewrite normalized_array. f_equal. induction IH as [|v l Hv _ IHl]; cbn; [done|].
    f_equal; [by apply Hv|exact IHl].
  - rewrite normalized_table, aliases_other by done. f_equal. unfold normalize_children.
    induction IH as [|[k v] t Hv _ IHt]; cbn; [done|]. f_equal; [|exact IHt]. f_equal.
    apply Hv; [by destruct path|]. destruct path as [|x [|y path]]; done.
Qed.

Lemma normalize_children_memories t : normalize_children MEMORIES t = t.
Proof.
  unfold normalize_children. induction t as [|[k v] t IH]; cbn; [done|].
  rewrite normalized_id by done. by f_equal.
Qed.

Lemma normalized_idem path v :
  normalized_with_key_aliases path (normalized_with_key_aliases path v)
  = normalized_with_key_aliases path v.
Proof.
  revert path. induction v as [s|l IH|t IH] using toml_nested_ind; intros path; [done| |].
  - rewrite !normalized_array. f_equal. rewrite <- list_fmap_compose. apply list_fmap_ext.
    intros i v Hv%list_elem_of_lookup_2. rewrite Forall_forall in IH. by apply IH.
  - rewrite !normalized_table. destruct (decide (path = MEMORIES)) as [->|Hp].
    + by rewrite !normalize_children_memories, aliases_idem.
    + rewrite !(aliases_other path) by done. f_equal. unfold normalize_children.
      rewrite <- list_fmap_compose. apply list_fmap_ext. intros i [k v] Hv%list_elem_of_lookup_2.
      cbn. f_equal. rewrite Forall_forall in IH. by apply (IH _ Hv).
Qed.

Lemma tget_normalize_children k path t :
  tget k (normalize_children path t) = normalized_with_key_aliases (path ++ [k]) <$> tget k t.
Proof.
  unfold normalize_children. induction t as [|[a v] t IH]; cbn; [done|].
  by destruct (decide (k = a)) as [->|].
Qed.

(** Normalising the children first or renaming first is the same. *)
Lemma tget_normalized k path t :
  tget k (normalize_key_aliases path (normalize_children path t))
  = normalized_with_key_aliases (path ++ [k]) <$> tget k (normalize_key_aliases path t).
Proof.
  destruct (decide (path = MEMORIES)) as [->|Hp].
  - rewrite normalize_children_memories. destruct (tget k _) as [v|]; cbn; [|done].
    by rewrite normalized_id.
  - rewrite !aliases_other by done. apply tget_normalize_children.
Qed.

(** ** What a merged configuration holds *)

(** What a layer says of the setting at a path: it gives a value (anything but
    a table), it has something else there or above it, or nothing. *)
Inductive verdict := Provides (v : toml) | Hides | Silent.

Fixpoint says (p : list str) (t : toml) : verdict :=
  match p, t with
  | [], Table _ => Hides
  | [], v => Provides v
  | k :: p, Table l => match tget k l with Some v => says p v | None => Silent end
  | _ :: _, _ => Hides
  end.

(** The setting at a path. *)
Definition leaf (p : list str) (t : toml) : option toml :=
  match says p t with Provides v => Some v | _ => None end.

(** [p] does not run through the keys of a table of network domains, which
    are host names and are put in their normal form. *)
Definition no_domains (path p : list str) : Prop :=
  forall q r, p = q ++ r -> r <> [] -> is_permission_network_domains_path (path ++ q) = false.

(** [t] at [path] has no legacy key left. *)
Definition normal (path : list str) (t : toml) : Prop := normalized_with_key_aliases path t = t.

Lemma no_domains_head path k p :
  no_domains path (k :: p) -> is_permission_network_domains_path path = false.
Proof. intros H. rewrite <- (app_nil_r path). by apply (H [] (k :: p)). Qed.

Lemma no_domains_tail path k p : no_domains path (k :: p) -> no_domains (path ++ [k]) p.
Proof.
  intros H q r -> Hr. rewrite <- app_assoc. by apply (H (k :: q) r).
Qed.

Lemma fold_merge_tget (g : str -> toml -> toml -> toml) (h : str -> toml -> toml) o b k :
  NoDup (fst <$> o) ->
  tget k (fold_left (fun t e =>
      let '(key, value) := e in
      match tget key t with
      | Some existing => tinsert key (g key existing value) t
      | None => tinsert key (h key value) t
      end) o b)
  = match tget k o with
    | Some v => Some (match tget k b with Some e => g k e v | None => h k v end)
    | None => tget k b
    end.
Proof.
  revert b. induction o as [|[a w] o IH]; intros b; [done|]. intros [Ha Ho]%NoDup_cons.
  cbn [fold_left tget fst]. rewrite IH by done. destruct (decide (k = a)) as [->|Hk].
  - cbn in Ha. apply tget_None in Ha. rewrite Ha. destruct (tget a b); by rewrite tget_tinsert, decide_True.
  - assert (tget k (match tget a b with
        | Some existing => tinsert a (g a existing w) b
        | None => tinsert a (h a w) b
        end) = tget k b) as -> by (destruct (tget a b); by rewrite tget_tinsert, decide_False).
    done.
Qed.

Lemma depth_elem k v t : (k, v) ∈ t -> depth v < depth (Table t).
Proof.
  induction t as [|[a w] t IH]; [by intros ?%elem_of_nil|]. cbn in *.
  intros [[= -> ->]|Hin]%elem_of_cons; [lia|]. apply IH in Hin. lia.
Qed.

Lemma normal_child path t k v : normal path (Table t) -> tget k t = Some v -> normal (path ++ [k]) v.
Proof.
  unfold normal. rewrite normalized_table. intros [= Ht] Hk.
  pose proof (tget_normalized k path t) as H. rewrite Ht, Hk in H.
  assert (tget k (normalize_key_aliases path t) = Some v) as Ha.
  { rewrite tget_aliases. destruct (decide (path = MEMORIES)) as [->|]; [|done].
    rewrite normalize_children_memories in Ht.
    assert (tget legacy t = None) as Hl.
    { rewrite <- Ht, tget_aliases. by rewrite !decide_True. }
    destruct (decide (k = legacy)) as [->|]; [congruence|].
    destruct (decide (k = canonical)) as [->|]; [by rewrite Hk|done]. }
  rewrite Ha in H. by injection H.
Qed.

Lemma normal_aliases path t : normal path (Table t) -> normalize_key_aliases path t = t.
Proof.
  unfold normal. rewrite normalized_table. intros [= Ht].
  destruct (decide (path = MEMORIES)) as [->|]; [|by apply aliases_other].
  by rewrite normalize_children_memories in Ht.
Qed.

Lemma leaf_not_provided p t : (forall v, says p t <> Provides v) -> leaf p t = None.
Proof. unfold leaf. destruct (says p t); [|done..]. intros H. by destruct (H v). Qed.

(** The setting after a merge is the overlay's where the overlay says
    something of it, else the one of the base. *)
Lemma leaf_merge_at p path b o fuel :
  no_domains path p -> normal path b -> wf o -> depth o < fuel ->
  leaf p (merge_toml_values_at_path fuel b o path)
  = match says p (normalized_with_key_aliases path o) with
    | Provides v => Some v
    | Hides => None
    | Silent => leaf p b
    end.
Proof.
  revert path b o fuel. induction p as [|k p IH]; intros path b o fuel Hd Hn Hw Hf;
    (destruct fuel as [|fuel]; [lia|]); cbn [merge_toml_values_at_path].
  - destruct o as [s|l|t], b as [s'|l'|t']; try done.
    destruct (is_permission_network_domains_path path); rewrite normalized_table; done.
  - assert (forall b, (forall t, b <> Table t) -> leaf (k :: p) (normalized_with_key_aliases path o)
      = match says (k :: p) (normalized_with_key_aliases path o) with
        | Provides v => Some v
        | Hides => None
        | Silent => leaf (k :: p) b
        end) as Hover.
    { intros b' Hb'. unfold leaf at 1. destruct (says _ _); [done|done|].
      symmetry. apply leaf_not_provided. intros v. destruct b'; [done|done|by destruct (Hb' entries)]. }
    destruct b as [s'|l'|b]; [destruct o; by apply (Hover (Scalar s'))|
      destruct o; by apply (Hover (Array l'))|]. clear Hover.
    destruct o as [s|l|o]; [done|done|]. inversion Hw as [| |? Hnd Hwv]; subst.
    rewrite (no_domains_head _ _ _ Hd), (normal_aliases _ _ Hn), normalized_table.
    unfold leaf at 1. cbn [says].
    rewrite fold_merge_tget by by apply aliases_keys. rewrite tget_normalized.
    destruct (tget k (normalize_key_aliases path o)) as [v|] eqn:Ev; cbn [fmap option_fmap option_map];
      [|unfold leaf; cbn [says]; by destruct (tget k b)].
    apply tget_elem, aliases_elem in Ev as [k' Hin].
    pose proof (depth_elem _ _ _ Hin). rewrite Forall_forall in Hwv. pose proof (Hwv _ Hin) as Hwv'.
    destruct (tget k b) as [e|] eqn:Ee.
    + specialize (IH (path ++ [k]) e v fuel (no_domains_tail _ _ _ Hd) (normal_child _ _ _ _ Hn Ee)
        Hwv' ltac:(lia)). unfold leaf in IH |- *. cbn [says]. rewrite Ee. exact IH.
    + unfold leaf. cbn [says]. rewrite Ee. by destruct (says p _).
Qed.

Lemma fold_merge_Forall (Q : str * toml -> Prop) (g : str -> toml -> toml -> toml)
    (h : str -> toml -> toml) o b :
  Forall Q b ->
  (forall k v e, (k, v) ∈ o -> Q (k, e) -> Q (k, g k e v)) ->
  (forall k v, (k, v) ∈ o -> Q (k, h k v)) ->
  Forall Q (fold_left (fun t e =>
      let '(key, value) := e in
      match tget key t with
      | Some existing => tinsert key (g key existing value) t
      | None => tinsert key (h key value) t
      end) o b).
Proof.
  revert b. induction o as [|[k v] o IH]; intros b Hb Hg Hh; [done|]. cbn [fold_left].
  apply IH; [|intros; apply Hg; [by right|done]|intros; apply Hh; by right].
  rewrite Forall_forall in *. intros e He.
  destruct (tget k b) as [x|] eqn:Ek; apply elem_tinsert in He as [->|He]; auto.
  - apply Hg; [by left|]. by apply Hb, tget_elem.
  - apply Hh. by left.
Qed.

Lemma normalize_children_id path t :
  normalize_children path t = t <-> Forall (fun e => normal (path ++ [fst e]) (snd e)) t.
Proof.
  unfold normalize_children. induction t as [|[k v] t IH]; cbn; [by split|].
  rewrite Forall_cons, <- IH. cbn. unfold normal. split.
  - intros [= H1 H2]. by rewrite H2.
  - intros [H1 H2]. by rewrite H1, H2.
Qed.

Lemma merge_normal_at path b o fuel :
  normal path b -> wf o -> depth o < fuel -> normal path (merge_toml_values_at_path fuel b o path).
Proof.
  revert path b o. induction fuel as [|fuel IH]; intros path b o Hn Hw Hf; [lia|].
  destruct (decide (path = [] \/ path = MEMORIES)) as [Hp|Hp].
  2:{ unfold normal. apply normalized_id; tauto. }
  cbn [merge_toml_values_at_path]. pose proof (normalized_idem path o) as Hidem.
  destruct o as [s|l|o]; [done|exact Hidem|]. destruct b as [s'|l'|b]; [exact Hidem|exact Hidem|].
  inversion Hw as [| |? Hnd Hwv]; subst. rewrite Forall_forall in Hwv.
  assert (is_permission_network_domains_path path = false) as -> by by destruct Hp as [->| ->].
  rewrite (normal_aliases _ _ Hn). unfold normal. rewrite normalized_table. f_equal.
  destruct (decide (path = MEMORIES)) as [->|Hm].
  - rewrite normalize_children_memories. apply aliases_no_legacy.
    rewrite fold_merge_tget by by apply aliases_keys. rewrite tget_aliases, !decide_True by done.
    rewrite <- (normal_aliases _ _ Hn), tget_aliases. by rewrite !decide_True.
  - rewrite aliases_other by done. apply normalize_children_id.
    unfold normal in Hn. rewrite normalized_table, aliases_other in Hn by done. injection Hn as Hn.
    apply normalize_children_id in Hn. apply fold_merge_Forall; [exact Hn| |].
    + cbn. intros k v e [k' Hin]%aliases_elem He.
      pose proof (depth_elem _ _ _ Hin). apply IH; [done|exact (Hwv _ Hin)|lia].
    + intros k v _. apply normalized_idem.
Qed.

(** ** Merging layers *)

Definition says_in_layer (p : list str) (layer : toml) : verdict :=
  says p (normalized_with_key_aliases [] layer).

Definition override (p : list str) (below : option toml) (layer : toml) : option toml :=
  match says_in_layer p layer with
  | Provides v => Some v
  | Hides => None
  | Silent => below
  end.

Lemma merge_layers_from p layers b :
  no_domains [] p -> Forall wf layers -> normal [] b ->
  leaf p (fold_left merge_toml_values layers b) = fold_left (override p) layers (leaf p b).
Proof.
  intros Hd. revert b. induction layers as [|o layers IH]; intros b Hw Hn; [done|].
  apply Forall_cons in Hw as [Ho Hw]. cbn [fold_left].
  rewrite IH by first [done | apply merge_normal_at; [done|done|lia]].
  f_equal. apply leaf_merge_at; [done|done|done|lia].
Qed.

Lemma override_last p layers acc v :
  fold_left (override p) layers acc = Some v ->
  (acc = Some v /\ Forall (fun l => says_in_layer p l = Silent) layers)
  \/ exists below layer above, layers = below ++ layer :: above
       /\ says_in_layer p layer = Provides v
       /\ Forall (fun l => says_in_layer p l = Silent) above.
Proof.
  revert acc. induction layers as [|l layers IH]; intros acc; cbn; [by left|].
  intros H. destruct (IH _ H) as [[Hl Hs]|(below & layer & above & -> & Hp & Hs)].
  - unfold override in Hl. destruct (says_in_layer p l) as [w| |] eqn:E; [|done|by left; split; [|constructor]].
    injection Hl as ->. right. by exists [], l, layers.
  - right. by exists (l :: below), layer, above.
Qed.

(** ** The origins of settings *)

(** The paths [record_origins] files, through tables and arrays. *)
Fixpoint recorded (path : list str) (v : toml) : list (list str) :=
  match v with
  | Table t =>
      (fix go (t : list (str * toml)) : list (list str) :=
         match t with
         | [] => []
         | (key, val) :: t => recorded (path ++ [key]) val ++ go t
         end) t
  | Array items =>
      (fix go (items : list toml) (idx : N) : list (list str) :=
         match items with
         | [] => []
         | item :: items => recorded (path ++ [format_number idx]) item ++ go items (idx + 1)%N
         end) items 0%N
  | Scalar _ => if is_empty path then [] else [path]
  end.

Lemma record_origins_lookup {M} v (meta : M) path o s :
  record_origins v meta path o !! s
  = if decide (s ∈ join "." <$> recorded path v) then Some meta else o !! s.
Proof.
  revert path o. induction v as [x|l IH|t IH] using toml_nested_ind; intros path o; cbn.
  - destruct (is_empty path); cbn; [by rewrite decide_False by apply not_elem_of_nil|].
    destruct (decide (s = join "." path)) as [->|Hs].
    + rewrite lookup_insert_eq, decide_True; [done|by left].
    + rewrite lookup_insert_ne by done. rewrite decide_False; [done|].
      by rewrite list_elem_of_singleton.
  - generalize 0%N. revert o. induction IH as [|v l Hv _ IHl]; intros o n; cbn.
    { by rewrite decide_False by apply not_elem_of_nil. }
    rewrite IHl, Hv, fmap_app. destruct (decide (s ∈ _ <$> recorded _ _)) as [H1|H1];
      destruct (decide (s ∈ _ <$> _ l _)) as [H2|H2];
      try (rewrite decide_True; [done|apply elem_of_app; tauto]).
    rewrite decide_False; [done|]. rewrite elem_of_app. tauto.
  - revert o. induction IH as [|[k v] t Hv _ IHt]; intros o; cbn.
    { by rewrite decide_False by apply not_elem_of_nil. }
    cbn in Hv. rewrite IHt, Hv, fmap_app. destruct (decide (s ∈ _ <$> recorded _ _)) as [H1|H1];
      destruct (decide (s ∈ _ <$> _ t)) as [H2|H2];
      try (rewrite decide_True; [done|apply elem_of_app; tauto]).
    rewrite decide_False; [done|]. rewrite elem_of_app. tauto.
Qed.

Lemma tget_nodup {A} k (v : A) l : NoDup (fst <$> l) -> (k, v) ∈ l -> tget k l = Some v.
Proof.
  induction l as [|[a w] l IH]; [by intros _ ?%elem_of_nil|]. intros [Ha Hl]%NoDup_cons.
  cbn. intros [[= -> ->]|Hin]%elem_of_cons; [by rewrite decide_True|].
  rewrite decide_False; [by apply IH|]. intros ->. apply Ha, list_elem_of_fmap. by exists (a, v).
Qed.

Lemma wf_normalized path v : wf v -> wf (normalized_with_key_aliases path v).
Proof.
  revert path. induction v as [s|l IH|t IH] using toml_nested_ind; intros path Hw; [done| |].
  - inversion Hw as [|? Hl|]; subst. rewrite normalized_array. constructor.
    rewrite Forall_fmap. rewrite Forall_forall in *. intros v Hv. by apply IH, Hl.
  - inversion Hw as [| |? Hnd Hwv]; subst. rewrite normalized_table. constructor.
    + apply aliases_keys. unfold normalize_children. by rewrite <- list_fmap_compose.
    + rewrite Forall_forall in *. intros [k v] [k' Hin]%aliases_elem. cbn.
      unfold normalize_children in Hin. apply list_elem_of_fmap in Hin as ([a w] & [= -> ->] & Hin).
      by apply (IH _ Hin), (Hwv _ Hin).
Qed.

Lemma recorded_table path t p :
  p ∈ recorded path (Table t) -> exists k v, (k, v) ∈ t /\ p ∈ recorded (path ++ [k]) v.
Proof.
  cbn. induction t as [|[k v] t IH]; [by intros ?%elem_of_nil|]. intros [H|H]%elem_of_app.
  - exists k, v. split; [by left|done].
  - apply IH in H as (a & w & Hin & H). exists a, w. split; [by right|done].
Qed.

Lemma recorded_table_2 path t p k v :
  (k, v) ∈ t -> p ∈ recorded (path ++ [k]) v -> p ∈ recorded path (Table t).
Proof.
  cbn. induction t as [|[a w] t IH]; [by intros ?%elem_of_nil|].
  intros [[= -> ->]|Hin]%elem_of_cons H; apply elem_of_app; [by left|right; by apply IH].
Qed.

(** A recorded path is not one the layer is silent of. *)
Lemma recorded_says path v p :
  wf v -> p ∈ recorded path v -> exists r, p = path ++ r /\ says r v <> Silent.
Proof.
  revert path p. induction v as [s|l IH|t IH] using toml_nested_ind; intros path p Hw.
  - cbn. destruct (is_empty path); [by intros ?%elem_of_nil|].
    intros ->%list_elem_of_singleton. exists []. by rewrite app_nil_r.
  - inversion Hw as [|? Hl|]; subst. clear Hw. cbn. generalize 0%N.
    induction IH as [|v l Hv _ IHl]; intros n; [by intros ?%elem_of_nil|].
    apply Forall_cons in Hl as [Hwv Hl]. intros [H|H]%elem_of_app.
    2:{ apply (IHl Hl) in H as (r & -> & _). exists r. split; [done|by destruct r]. }
    apply Hv in H as (r & -> & _); [|done]. exists (format_number n :: r).
    rewrite <- app_assoc. by split.
  - inversion Hw as [| |? Hnd Hwv]; subst. intros (k & v & Hin & Hp)%recorded_table.
    rewrite Forall_forall in IH, Hwv. specialize (Hwv _ Hin).
    apply (IH _ Hin) in Hp as (r & -> & Hr); [|done]. exists (k :: r). split; [by rewrite <- app_assoc|].
    cbn. by rewrite (tget_nodup _ _ _ Hnd Hin).
Qed.

(** A scalar a layer gives is recorded. *)
Lemma provides_recorded path v p s :
  path ++ p <> [] -> says p v = Provides (Scalar s) -> path ++ p ∈ recorded path v.
Proof.
  revert path v. induction p as [|k p IH]; intros path v Hp.
  - rewrite app_nil_r in *. destruct v; try done. cbn. intros [= ->].
    destruct path; [done|]. cbn. by left.
  - destruct v as [| |t]; try done. cbn [says]. destruct (tget k t) as [v|] eqn:E; [|done].
    intros Hs. apply (recorded_table_2 _ _ _ k v); [by apply tget_elem|].
    replace (path ++ k :: p) with ((path ++ [k]) ++ p) by by rewrite <- app_assoc.
    apply IH; [by destruct path|done].
Qed.

(** ** Overrides of the command line *)

(** [q] leaves [p] before either ends. *)
Fixpoint diverges (p q : list str) : bool :=
  match p, q with
  | a :: p, b :: q => if decide (a = b) then diverges p q else true
  | _, _ => false
  end.

Lemma apply_segments_cons root a segments value :
  segments <> [] ->
  apply_segments root (a :: segments) value
  = Table (tinsert a (apply_segments (default (Table []) (tget a (entries_of root))) segments value)
      (entries_of root)).
Proof. by destruct segments. Qed.

(** What is not a table gives way to an empty one. *)
Lemma apply_segments_table root segments value :
  segments <> [] ->
  apply_segments root segments value = apply_segments (Table (entries_of root)) segments value.
Proof. destruct segments as [|a [|b segments]]; [done|done|intros _; done]. Qed.

(** The override is at its path. *)
Lemma apply_segments_at root segments value :
  segments <> [] -> says segments (apply_segments root segments value) = says [] value.
Proof.
  revert root. induction segments as [|a segments IH]; intros root Hs; [done|].
  destruct (decide (segments = [])) as [->|Hne].
  - cbn [apply_segments says]. by rewrite tget_tinsert, decide_True.
  - rewrite apply_segments_cons by done. cbn [says]. rewrite tget_tinsert, decide_True by done.
    by apply IH.
Qed.

Lemma says_cons_table k p t :
  says (k :: p) (Table t) = match tget k t with Some v => says p v | None => Silent end.
Proof. done. Qed.

(** What is said below a value that is not a table was hidden by it. *)
Lemma says_entries k p v :
  says (k :: p) (Table (entries_of v)) = says (k :: p) v
  \/ (says (k :: p) v = Hides /\ says (k :: p) (Table (entries_of v)) = Silent).
Proof. destruct v; [by right..|by left]. Qed.

(** An override leaves the settings its path diverges from, except those below
    a value that is not a table, which gives way to one. *)
Lemma apply_segments_other root segments value q :
  diverges segments q = true ->
  says q (apply_segments root segments value) = says q root
  \/ (says q root = Hides /\ says q (apply_segments root segments value) = Silent).
Proof.
  revert root q. induction segments as [|a segments IH]; intros root q Hd; [done|].
  destruct q as [|b q]; [done|]. cbn [diverges] in Hd. destruct (decide (a = b)) as [<-|Hab].
  - assert (segments <> []) as Hne by by intros ->.
    rewrite apply_segments_cons by done. rewrite says_cons_table, tget_tinsert, decide_True by done.
    specialize (IH (default (Table []) (tget a (entries_of root))) q Hd).
    assert (says q (Table []) = Silent) as Hq by by destruct segments, q.
    destruct root as [s|l|t]; cbn [entries_of tget default] in IH |- *;
      [rewrite Hq in IH; right; by destruct IH as [|[? _]]..|].
    rewrite says_cons_table. destruct (tget a t) as [v|]; [exact IH|].
    cbn [default] in *. rewrite Hq in IH. left. by destruct IH as [|[? _]].
  - assert (says (b :: q) (apply_segments root (a :: segments) value)
            = says (b :: q) (Table (entries_of root))) as ->; [|by apply says_entries].
    destruct (decide (segments = [])) as [->|]; [cbn [apply_segments]|rewrite apply_segments_cons by done];
      by rewrite !says_cons_table, tget_tinsert, decide_False.
Qed.

(** The last override of a setting on the command line gives its value:
    overrides after it whose paths part from its path leave it as it is,
    whatever was set before. *)
Theorem last_override_wins before path value after :
  (forall t, value <> Table t) ->
  Forall (fun o => diverges (split 46%N (fst o)) (split 46%N path) = true) after ->
  leaf (split 46%N path) (build_cli_overrides_layer (before ++ (path, value) :: after)) = Some value.
Proof.
  intros Hv Ha. unfold build_cli_overrides_layer. rewrite fold_left_app. cbn.
  set (q := split 46%N path) in *.
  assert (forall root, says q root = Provides value ->
    leaf q (fold_left (fun root o => apply_toml_override root (fst o) (snd o)) after root) = Some value)
    as Hfold.
  { induction Ha as [|o after Ho _ IH]; intros root Hr; cbn; [unfold leaf; by rewrite Hr|].
    apply IH. unfold apply_toml_override.
    destruct (apply_segments_other root (split 46%N (fst o)) (snd o) q Ho) as [->|[H _]]; [done|].
    by rewrite H in Hr. }
  apply Hfold. unfold apply_toml_override. rewrite apply_segments_at by apply split_nonempty.
  destruct value; [done|done|by destruct (Hv entries)].
Qed.

Lemma last_override_wins_witness :
  leaf (split 46%N "tools.web")
    (build_cli_overrides_layer
       [("tools" : str, Scalar (SBoolean true)); ("tools.web" : str, Scalar (SBoolean false));
        ("tools.view" : str, Scalar (SBoolean true)); ("model" : str, Table [])])
  = Some (Scalar (SBoolean false)).
Proof.
  apply (last_override_wins [("tools" : str, Scalar (SBoolean true))] "tools.web"); [done|].
  repeat constructor.
Defined.

(** Keys of network domains meet in their normal form. *)
Example domains_merge :
  let layer host v := Table [("permissions" : str, Table [("p" : str, Table [("network" : str,
    Table [("domains" : str, Table [(host, Scalar (SBoolean v))])])])])] in
  merge_layers [layer "Example.COM" true; layer "example.com." false] = layer "example.com" false.
Proof. by vm_compute. Qed.

(** The canonical key wins over the legacy one of the same table, whichever
    comes first. *)
Example both_keys :
  merge_layers [Table [("memories" : str, Table [(legacy, Scalar (SBoolean true));
                                                (canonical, Scalar (SBoolean false))])]]
  = Table [("memories" : str, Table [(canonical, Scalar (SBoolean false))])].
Proof. by vm_compute. Qed.
