(* ===== verification/ConfigLayers.v ===== *)
(** * The stack of configuration layers

    [codex-rs/config/src/state.rs]: the layers a configuration is made of, in
    the order of their precedence, the user's layers replaced, the effective
    configuration and the layer each setting comes from. The theorems state the
    order every stack keeps, and that the highest enabled layer that says
    anything of a setting decides it and is named as its origin. *)

From S2P Require Import Prelude RustStr AbsolutePath FsPolicy ConfigMerge.
#[local] Open Scope str_scope.

(** ** Sources ([app-server-protocol/src/protocol/v2/config.rs]) *)

Inductive ConfigLayerSource :=
| Mdm (domain key : str)
| System (file : PathBuf)
| User (file : PathBuf) (profile : option str)
| Project (dot_codex_folder : PathBuf)
| SessionFlags
| LegacyManagedConfigTomlFromFile (file : PathBuf)
| LegacyManagedConfigTomlFromMdm.

#[export] Instance ConfigLayerSource_eq_dec : EqDecision ConfigLayerSource.
Proof. solve_decision. Defined.

Definition precedence (self : ConfigLayerSource) : nat :=
  match self with
  | Mdm _ _ => 0
  | System _ => 10
  | User _ profile => match profile with Some _ => 21 | None => 20 end
  | Project _ => 25
  | SessionFlags => 30
  | LegacyManagedConfigTomlFromFile _ => 40
  | LegacyManagedConfigTomlFromMdm => 50
  end.

Definition is_user (name : ConfigLayerSource) : bool :=
  match name with User _ _ => true | _ => false end.
Definition is_user_file (file : PathBuf) (name : ConfigLayerSource) : bool :=
  match name with User f _ => bool_decide (f = file) | _ => false end.

(** [ProfileV2Name] of [protocol/src/config_types.rs]. *)
Definition profile_v2_name_from_str (value : str) : result str str :=
  if is_empty value
     || negb (forallb (fun byte => is_ascii_alphanumeric byte || bool_decide (byte = 95%N)
                                   || bool_decide (byte = 45%N)) value)
  then Err value else Ok value.

(** ** Entries *)

(** The fingerprint of a configuration is a digest of its JSON. *)
Class Fingerprint := version_for_toml : toml -> str.

Record ConfigLayerEntry := mkEntry {
  name : ConfigLayerSource;
  config : toml;
  raw_toml : option str;
  version : str;
  disabled_reason : option str;
  hooks_config_folder_override : option PathBuf
}.

Record ConfigLayerMetadata := mkMetadata { meta_name : ConfigLayerSource; meta_version : str }.

Section Entry.
Context {fingerprint : Fingerprint}.

Definition entry_new (name : ConfigLayerSource) (config : toml) : ConfigLayerEntry :=
  mkEntry name config None (version_for_toml config) None None.
Definition entry_new_with_raw_toml (name : ConfigLayerSource) (config : toml) (raw_toml : str)
  : ConfigLayerEntry :=
  mkEntry name config (Some raw_toml) (version_for_toml config) None None.
Definition entry_new_disabled (name : ConfigLayerSource) (config : toml) (disabled_reason : str)
  : ConfigLayerEntry :=
  mkEntry name config None (version_for_toml config) (Some disabled_reason) None.
End Entry.

Definition is_disabled (self : ConfigLayerEntry) : bool :=
  match disabled_reason self with Some _ => true | None => false end.

Definition with_hooks_config_folder_override (self : ConfigLayerEntry) (folder : option PathBuf)
  : ConfigLayerEntry :=
  mkEntry (name self) (config self) (raw_toml self) (version self) (disabled_reason self) folder.

Definition metadata (self : ConfigLayerEntry) : ConfigLayerMetadata :=
  mkMetadata (name self) (version self).

Definition config_folder (self : ConfigLayerEntry) : option PathBuf :=
  match name self with
  | Mdm _ _ => None
  | System file => parent file
  | User file _ => parent file
  | Project dot_codex_folder => Some dot_codex_folder
  | SessionFlags => None
  | LegacyManagedConfigTomlFromFile _ => None
  | LegacyManagedConfigTomlFromMdm => None
  end.

Definition hooks_config_folder (self : ConfigLayerEntry) : option PathBuf :=
  match hooks_config_folder_override self with
  | Some folder => Some folder
  | None => config_folder self
  end.

(** ** The order of the layers *)

(** [is_sorted] by [partial_cmp]. *)
Fixpoint names_sorted (layers : list ConfigLayerEntry) : bool :=
  match layers with
  | a :: ((b :: _) as rest) =>
      (precedence (name a) <=? precedence (name b))%nat && names_sorted rest
  | _ => true
  end.

Definition not_in_order : str := "config layers are not in correct precedence order".
Definition no_parent : str := "project layer has no parent directory".
Definition not_root_to_cwd : str := "project layers are not ordered from root to cwd".

(** The loop of [verify_layer_ordering], [index] layers in. *)
Fixpoint verify_layers (index : nat) (layers : list ConfigLayerEntry) (user_layer_index : option nat)
    (previous_project : option PathBuf) : result str (option nat) :=
  match layers with
  | [] => Ok user_layer_index
  | layer :: layers =>
      let user_layer_index := if is_user (name layer) then Some index else user_layer_index in
      match name layer with
      | Project current =>
          match previous_project with
          | Some previous =>
              match parent previous with
              | None => Err no_parent
              | Some parent =>
                  if bool_decide (previous = current)
                     || negb (existsb (fun ancestor => bool_decide (ancestor = parent))
                                (ancestors current))
                  then Err not_root_to_cwd
                  else verify_layers (S index) layers user_layer_index (Some current)
              end
          | None => verify_layers (S index) layers user_layer_index (Some current)
          end
      | _ => verify_layers (S index) layers user_layer_index previous_project
      end
  end.

Definition verify_layer_ordering (layers : list ConfigLayerEntry) : result str (option nat) :=
  if negb (names_sorted layers) then Err not_in_order else verify_layers 0 layers None None.

(** ** The stack *)

Inductive ConfigLayerStackOrdering := LowestPrecedenceFirst | HighestPrecedenceFirst.

(** The requirements ([R], and [RT] as they were read) are carried along. *)
Section Stack.
Context {fingerprint : Fingerprint} {R RT : Type}.

Record ConfigLayerStack := mkStack {
  layers : list ConfigLayerEntry;
  user_layer_index : option nat;
  requirements : R;
  requirements_toml : RT;
  ignore_user_and_project_exec_policy_rules : bool;
  startup_warnings : option (list str)
}.

Definition stack_new (layers : list ConfigLayerEntry) (requirements : R) (requirements_toml : RT)
  : result str ConfigLayerStack :=
  user_layer_index ← verify_layer_ordering layers;
  mret (mkStack layers user_layer_index requirements requirements_toml false None).

Definition with_user_and_project_exec_policy_rules_ignored (self : ConfigLayerStack) (ignore : bool)
  : ConfigLayerStack :=
  mkStack (layers self) (user_layer_index self) (requirements self) (requirements_toml self) ignore
    (startup_warnings self).

Definition with_startup_warnings (self : ConfigLayerStack) (warnings : list str)
  : ConfigLayerStack :=
  mkStack (layers self) (user_layer_index self) (requirements self) (requirements_toml self)
    (ignore_user_and_project_exec_policy_rules self) (Some warnings).

Definition get_active_user_layer (self : ConfigLayerStack) : option ConfigLayerEntry :=
  index ← user_layer_index self; layers self !! index.

Definition get_user_config_file (self : ConfigLayerStack) : option PathBuf :=
  layer ← get_active_user_layer self;
  match name layer with User file _ => Some file | _ => None end.

Definition get_layers (self : ConfigLayerStack) (ordering : ConfigLayerStackOrdering)
    (include_disabled : bool) : list ConfigLayerEntry :=
  let layers := List.filter (fun layer => include_disabled || negb (is_disabled layer)) (layers self) in
  match ordering with
  | HighestPrecedenceFirst => reverse layers
  | LowestPrecedenceFirst => layers
  end.

Definition layers_high_to_low (self : ConfigLayerStack) : list ConfigLayerEntry :=
  get_layers self HighestPrecedenceFirst false.

Definition get_user_layers (self : ConfigLayerStack) (ordering : ConfigLayerStackOrdering)
    (include_disabled : bool) : list ConfigLayerEntry :=
  List.filter (fun layer => is_user (name layer)) (get_layers self ordering include_disabled).

Definition merge_entries (entries : list ConfigLayerEntry) : toml :=
  fold_left (fun merged layer => merge_toml_values merged (config layer)) entries (Table []).

Definition effective_user_config (self : ConfigLayerStack) : option toml :=
  let user_layers := get_user_layers self LowestPrecedenceFirst false in
  if is_empty user_layers then None else Some (merge_entries user_layers).

Definition effective_config (self : ConfigLayerStack) : toml :=
  merge_entries (get_layers self LowestPrecedenceFirst false).

Definition origins (self : ConfigLayerStack) : gmap str ConfigLayerMetadata :=
  fold_left (fun origins layer =>
    record_origins (normalized_with_key_aliases [] (config layer)) (metadata layer) [] origins)
    (get_layers self LowestPrecedenceFirst false) ∅.

(** A layer goes in before the first of higher precedence; [None] is the panic
    of [Vec::insert] out of range. *)
Definition insert_layer (layer : ConfigLayerEntry) (layers : list ConfigLayerEntry)
  : option (list ConfigLayerEntry) :=
  match position (fun l => (precedence (name layer) <? precedence (name l))%nat) layers with
  | Some index => vec_insert index layer layers
  | None => Some (layers ++ [layer])
  end.

(** The last of the user's layers. *)
Definition last_user_index (layers : list ConfigLayerEntry) : option nat :=
  find_map (fun e => if is_user (name (snd e)) then Some (fst e) else None)
    (reverse (imap pair layers)).

Definition set_layers (self : ConfigLayerStack) (layers : list ConfigLayerEntry)
  : ConfigLayerStack :=
  mkStack layers (last_user_index layers) (requirements self) (requirements_toml self)
    (ignore_user_and_project_exec_policy_rules self) (startup_warnings self).

Definition with_user_config_profile (self : ConfigLayerStack) (config_toml : PathBuf)
    (profile : option str) (user_config : toml) : option ConfigLayerStack :=
  let user_layer := entry_new (User config_toml profile) user_config in
  layers ←
    match position (fun layer => is_user_file config_toml (name layer)) (layers self) with
    | Some index => vec_remove index (layers self)
    | None => Some (layers self)
    end;
  layers ← insert_layer user_layer layers;
  Some (set_layers self layers).

Definition user_profile_of (config_toml : PathBuf) (layer : ConfigLayerEntry) : option str :=
  match name layer with
  | User file profile =>
      if bool_decide (file = config_toml) then
        profile ← profile;
        match profile_v2_name_from_str profile with Ok profile => Some profile | Err _ => None end
      else None
  | _ => None
  end.

Definition with_user_config (self : ConfigLayerStack) (config_toml : PathBuf) (user_config : toml)
  : option ConfigLayerStack :=
  let profile := find_map (user_profile_of config_toml) (layers self) in
  with_user_config_profile self config_toml profile user_config.

Fixpoint insert_layers (user_layers layers : list ConfigLayerEntry)
  : option (list ConfigLayerEntry) :=
  match user_layers with
  | [] => Some layers
  | user_layer :: user_layers => layers ← insert_layer user_layer layers; insert_layers user_layers layers
  end.

Definition with_user_layer_from (self other : ConfigLayerStack) : option ConfigLayerStack :=
  let user_layers := List.filter (fun layer => is_user (name layer)) (layers other) in
  let layers := List.filter (fun layer => negb (is_user (name layer))) (layers self) in
  layers ← insert_layers user_layers layers;
  Some (set_layers self layers).

(** The stacks a program can have. *)
Inductive reachable : ConfigLayerStack -> Prop :=
| reach_default r rt : reachable (mkStack [] None r rt false None)
| reach_new ls r rt s : stack_new ls r rt = Ok s -> reachable s
| reach_ignored s b : reachable s -> reachable (with_user_and_project_exec_policy_rules_ignored s b)
| reach_warnings s w : reachable s -> reachable (with_startup_warnings s w)
| reach_user_config s file c s' :
    reachable s -> with_user_config s file c = Some s' -> reachable s'
| reach_user_config_profile s file profile c s' :
    reachable s -> with_user_config_profile s file profile c = Some s' -> reachable s'
| reach_user_layer_from s other s' :
    reachable s -> reachable other -> with_user_layer_from s other = Some s' -> reachable s'.
End Stack.
Arguments ConfigLayerStack : clear implicits.


(** ** The order is kept *)

Definition below (a b : ConfigLayerEntry) : Prop := precedence (name a) <= precedence (name b).

#[local] Instance below_trans : Transitive below.
Proof. intros a b c. unfold below. lia. Qed.

Lemma names_sorted_spec ls : names_sorted ls = true <-> StronglySorted below ls.
Proof.
  split.
  - intros H. apply Sorted_StronglySorted; [apply _|]. induction ls as [|a [|b ls] IH]; [by constructor..|].
    cbn [names_sorted] in H. apply andb_true_iff in H as [Hab H]. apply Nat.leb_le in Hab.
    constructor; [by apply IH|by constructor].
  - intros H%StronglySorted_Sorted. induction H as [|a l Hl IH Ha]; [done|].
    destruct Ha as [|b l Hab]; [done|]. cbn [names_sorted] in *. rewrite IH, andb_true_r.
    by apply Nat.leb_le.
Qed.

Definition project_folder (layer : ConfigLayerEntry) : option PathBuf :=
  match name layer with Project folder => Some folder | _ => None end.

(** The check of the project folders alone. *)
Fixpoint verify_projects (previous : option PathBuf) (folders : list PathBuf) : result str unit :=
  match folders with
  | [] => Ok tt
  | current :: folders =>
      match previous with
      | Some previous =>
          match parent previous with
          | None => Err no_parent
          | Some parent =>
              if bool_decide (previous = current)
                 || negb (existsb (fun ancestor => bool_decide (ancestor = parent)) (ancestors current))
              then Err not_root_to_cwd
              else verify_projects (Some current) folders
          end
      | None => verify_projects (Some current) folders
      end
  end.

(** The loop keeps the last user layer and checks the project folders. *)
Fixpoint last_user_from (index : nat) (ls : list ConfigLayerEntry) (found : option nat) : option nat :=
  match ls with
  | [] => found
  | layer :: ls => last_user_from (S index) ls (if is_user (name layer) then Some index else found)
  end.

Lemma verify_layers_split index ls found previous :
  verify_layers index ls found previous
  = (fun _ => last_user_from index ls found) <$> verify_projects previous (omap project_folder ls).
Proof.
  revert index found previous. induction ls as [|layer ls IH]; intros index found previous; [done|].
  cbn [verify_layers last_user_from]. unfold project_folder at 1. cbn.
  destruct (name layer) as [d k|file|file p|folder| |file|] eqn:En; cbn [is_user]; try apply IH.
  cbn. destruct previous as [previous|]; [|apply IH]. destruct (parent previous) as [q|]; [|done].
  destruct (bool_decide _ || negb _); [done|apply IH].
Qed.

Lemma last_user_from_snoc index ls layer found :
  last_user_from index (ls ++ [layer]) found
  = if is_user (name layer) then Some (index + length ls) else last_user_from index ls found.
Proof.
  revert index found. induction ls as [|a ls IH]; intros index found; cbn; [by rewrite Nat.add_0_r|].
  rewrite IH. by rewrite <- Nat.add_succ_comm.
Qed.

Lemma last_user_index_from ls : last_user_index ls = last_user_from 0 ls None.
Proof.
  induction ls as [|layer ls IH] using rev_ind; [done|].
  rewrite last_user_from_snoc. cbn. unfold last_user_index in *.
  rewrite imap_app, reverse_app. cbn. rewrite Nat.add_0_r. by destruct (is_user (name layer)).
Qed.

(** What [verify_layer_ordering] accepts. *)
Definition ordered (ls : list ConfigLayerEntry) : Prop :=
  StronglySorted below ls /\ verify_projects None (omap project_folder ls) = Ok tt.

Lemma verify_ordered ls u :
  verify_layer_ordering ls = Ok u <-> ordered ls /\ u = last_user_index ls.
Proof.
  unfold verify_layer_ordering, ordered. rewrite last_user_index_from, <- names_sorted_spec.
  destruct (names_sorted ls); cbn; [|by split; [|intros [[]]]].
  rewrite verify_layers_split. destruct (verify_projects _ _) as [[]|e]; cbn.
  - split; [by intros [= <-]|by intros [_ ->]].
  - split; [done|by intros [[]]].
Qed.

Lemma insert_layer_spec x ls :
  exists l1 l2, ls = l1 ++ l2 /\ insert_layer x ls = Some (l1 ++ x :: l2)
    /\ Forall (fun y => below y x) l1
    /\ match l2 with [] => True | y :: _ => precedence (name x) < precedence (name y) end.
Proof.
  unfold insert_layer.
  pose proof (position_spec (fun l => (precedence (name x) <? precedence (name l))%nat) ls) as H.
  destruct (position _ ls) as [i|].
  - destruct H as (l1 & y & l2 & -> & -> & Hy & Hl). exists l1, (y :: l2).
    rewrite vec_insert_Some by (rewrite length_app; lia).
    rewrite take_app_length, drop_app_length. split_and!; [done..| |by apply Nat.ltb_lt].
    eapply Forall_impl; [exact Hl|]. intros z Hz%Nat.ltb_ge. exact Hz.
  - exists ls, []. rewrite app_nil_r. split_and!; [done..| |done].
    eapply Forall_impl; [exact H|]. intros z Hz%Nat.ltb_ge. exact Hz.
Qed.

(** A user layer goes into an ordered list, and nothing else changes. *)
Lemma insert_layer_ordered x ls :
  ordered ls -> is_user (name x) = true ->
  exists l1 l2, ls = l1 ++ l2 /\ insert_layer x ls = Some (l1 ++ x :: l2)
    /\ ordered (l1 ++ x :: l2).
Proof.
  intros [Hs Hp] Hx. destruct (insert_layer_spec x ls) as (l1 & l2 & -> & -> & H1 & H2).
  exists l1, l2. split_and!; [done..|]. split.
  - rewrite StronglySorted_app in *. destruct Hs as (H12 & Hs1 & Hs2). rewrite Forall_forall in H1.
    assert (Forall (below x) l2) as Hx2.
    { destruct l2 as [|y l2]; [done|]. assert (below x y) by (unfold below; lia).
      constructor; [done|]. apply StronglySorted_inv in Hs2 as [_ Hy].
      eapply Forall_impl; [exact Hy|]. intros z. by transitivity y. }
    split_and!; [|done|by constructor]. intros a b Ha [->|Hb]%elem_of_cons; auto.
  - rewrite omap_app in *. cbn. unfold project_folder at 2. by destruct (name x).
Qed.

Lemma ordered_without ls l1 x l2 :
  ordered ls -> ls = l1 ++ x :: l2 -> is_user (name x) = true -> ordered (l1 ++ l2).
Proof.
  intros [Hs Hp] -> Hx. split.
  - rewrite StronglySorted_app in *. destruct Hs as (H12 & Hs1 & Hs2).
    apply StronglySorted_inv in Hs2 as [Hs2 _]. split_and!; [|done..].
    intros a b Ha Hb. apply H12; [done|by right].
  - rewrite omap_app in *. cbn in Hp. unfold project_folder at 2 in Hp. by destruct (name x).
Qed.

Lemma ordered_filter ls : ordered ls -> ordered (List.filter (fun l => negb (is_user (name l))) ls).
Proof.
  intros [Hs Hp]. split.
  - clear Hp. induction Hs as [|a l Hl IH Ha]; [by constructor|]. cbn.
    destruct (negb _); [|done]. constructor; [done|]. rewrite Forall_forall in *.
    intros b Hb. apply Ha. rewrite list_elem_of_In in *. by apply filter_In in Hb as [? _].
  - assert (omap project_folder (List.filter (fun l => negb (is_user (name l))) ls)
            = omap project_folder ls) as ->; [|done].
    clear. induction ls as [|a ls IH]; [done|]. cbn.
    destruct (is_user (name a)) eqn:Ea; cbn; [|by destruct (project_folder a); rewrite IH].
    assert (project_folder a = None) as -> by (unfold project_folder; by destruct (name a)). exact IH.
Qed.

Lemma insert_layers_ordered us ls :
  ordered ls -> Forall (fun l => is_user (name l) = true) us ->
  exists ls', insert_layers us ls = Some ls' /\ ordered ls'.
Proof.
  revert ls. induction us as [|x us IH]; intros ls Ho Hu; [by exists ls|].
  apply Forall_cons in Hu as [Hx Hu]. cbn [insert_layers].
  destruct (insert_layer_ordered x ls Ho Hx) as (l1 & l2 & -> & -> & Ho'). by apply IH.
Qed.

Section Reach.
Context {fingerprint : Fingerprint} {R RT : Type}.
Implicit Types s : ConfigLayerStack R RT.

Definition in_order s : Prop := ordered (layers s) /\ user_layer_index s = last_user_index (layers s).

(** The user's layer replaced: an ordered list without the first layer of the
    file, and the new one in its place by precedence. *)
Lemma with_user_config_profile_spec s file profile c :
  ordered (layers s) ->
  exists rest l1 l2,
    rest = l1 ++ l2 /\
    ((rest = layers s /\ Forall (fun l => is_user_file file (name l) = false) (layers s)) \/
     exists k1 old k2, layers s = k1 ++ old :: k2 /\ rest = k1 ++ k2
       /\ is_user_file file (name old) = true
       /\ Forall (fun l => is_user_file file (name l) = false) k1) /\
    with_user_config_profile s file profile c
    = Some (set_layers s (l1 ++ entry_new (User file profile) c :: l2)) /\
    ordered (l1 ++ entry_new (User file profile) c :: l2).
Proof.
  intros Ho. set (new := entry_new (User file profile) c).
  unfold with_user_config_profile. fold new.
  pose proof (position_spec (fun l => is_user_file file (name l)) (layers s)) as H.
  destruct (position _ (layers s)) as [i|].
  - destruct H as (k1 & old & k2 & Hl & -> & Hold & Hk).
    assert (ordered (k1 ++ k2)) as Ho'.
    { apply (ordered_without (layers s) k1 old k2); [done..|]. by destruct (name old). }
    rewrite Hl, vec_remove_Some by (rewrite length_app; cbn; lia).
    assert (take (length k1) (k1 ++ old :: k2) ++ drop (S (length k1)) (k1 ++ old :: k2) = k1 ++ k2) as ->.
    { rewrite take_app_length. f_equal. rewrite drop_app_ge by lia.
      by replace (S (length k1) - length k1) with 1 by lia. }
    destruct (insert_layer_ordered new (k1 ++ k2) Ho' eq_refl) as (l1 & l2 & Heq & Hi & Ho2).
    exists (k1 ++ k2), l1, l2. cbn. rewrite Hi. split_and!; [done| |done..].
    right. by exists k1, old, k2.
  - destruct (insert_layer_ordered new (layers s) Ho eq_refl) as (l1 & l2 & Heq & Hi & Ho2).
    exists (layers s), l1, l2. cbn. rewrite Hi. split_and!; [done| |done..]. by left.
Qed.

Lemma with_user_layer_from_spec s other :
  ordered (layers s) ->
  exists ls, with_user_layer_from s other = Some (set_layers s ls) /\ ordered ls.
Proof.
  intros Ho. unfold with_user_layer_from.
  assert (Forall (fun l => is_user (name l) = true)
            (List.filter (fun layer => is_user (name layer)) (layers other))) as Hu.
  { apply Forall_forall. intros x Hx. rewrite list_elem_of_In in Hx. by apply filter_In in Hx as [_ Hx]. }
  destruct (insert_layers_ordered _ _ (ordered_filter _ Ho) Hu) as (ls & Heq & Hls).
  rewrite Heq. by exists ls.
Qed.

Lemma reachable_in_order s : reachable s -> in_order s.
Proof.
  induction 1 as [r rt|ls r rt s Hs|s b _ IH|s w _ IH|s file c s' _ [IH _] Hs|s file p c s' _ [IH _] Hs|
                  s other s' _ [IH _] _ _ Hs].
  - split; [|done]. split; [by constructor|done].
  - unfold stack_new in Hs. apply result_bind_Ok in Hs as (u & Hu%verify_ordered & [= <-]). exact Hu.
  - exact IH.
  - exact IH.
  - unfold with_user_config in Hs.
    destruct (with_user_config_profile_spec s file (find_map (user_profile_of file) (layers s)) c IH)
      as (rest & l1 & l2 & _ & _ & Heq & Ho). rewrite Heq in Hs. injection Hs as <-. by split.
  - destruct (with_user_config_profile_spec s file p c IH)
      as (rest & l1 & l2 & _ & _ & Heq & Ho). rewrite Heq in Hs. injection Hs as <-. by split.
  - destruct (with_user_layer_from_spec s other IH) as (ls & Heq & Ho).
    rewrite Heq in Hs. injection Hs as <-. by split.
Qed.
End Reach.

Lemma last_user_spec ls :
  match last_user_index ls with
  | Some i => exists l1 x l2, ls = l1 ++ x :: l2 /\ i = length l1 /\ is_user (name x) = true
                              /\ Forall (fun l => is_user (name l) = false) l2
  | None => Forall (fun l => is_user (name l) = false) ls
  end.
Proof.
  rewrite last_user_index_from. induction ls as [|a ls IH] using rev_ind; [constructor|].
  rewrite last_user_from_snoc. destruct (is_user (name a)) eqn:Ea; [by exists ls, a, []|].
  destruct (last_user_from 0 ls None) as [i|].
  - destruct IH as (l1 & x & l2 & -> & -> & Hx & Hl). exists l1, x, (l2 ++ [a]).
    rewrite <- app_assoc. split_and!; [done..|]. apply Forall_app. by split; [|constructor].
  - apply Forall_app. by split; [|constructor].
Qed.

Section Claims.
Context {fingerprint : Fingerprint} {R RT : Type}.
Implicit Types s : ConfigLayerStack R RT.

(** Every stack a program can have passes [verify_layer_ordering] with the
    index it keeps, although only [new] calls it; the active user layer is a
    user layer of the stack and none of the user's layers has a higher
    precedence; and replacing the user's layers never inserts out of range. *)
Theorem stack_stays_ordered s :
  reachable s ->
  verify_layer_ordering (layers s) = Ok (user_layer_index s) /\
  (forall l, get_active_user_layer s = Some l ->
     is_user (name l) = true /\
     forall l', l' ∈ layers s -> is_user (name l') = true -> below l' l) /\
  (forall file c, is_Some (with_user_config s file c)) /\
  (forall other, is_Some (with_user_layer_from s other)).
Proof.
  intros Hs. destruct (reachable_in_order _ Hs) as [Ho Hi]. split_and!.
  - by apply verify_ordered.
  - unfold get_active_user_layer. rewrite Hi. pose proof (last_user_spec (layers s)) as H.
    destruct (last_user_index (layers s)) as [i|]; [|done]. cbn.
    destruct H as (l1 & x & l2 & Hl & -> & Hx & H2). rewrite Hl, list_lookup_middle by done.
    intros l [= <-]. split; [done|]. destruct Ho as [Ho _]. rewrite Hl, StronglySorted_app in Ho.
    destruct Ho as (H12 & _ & _). rewrite Forall_forall in H2.
    intros l' [Hl'|[->|Hl']%elem_of_cons]%elem_of_app Hu; [by apply H12; [|left]|by unfold below|].
    by rewrite (H2 l') in Hu.
  - intros file c. unfold with_user_config.
    destruct (with_user_config_profile_spec s file (find_map (user_profile_of file) (layers s)) c Ho)
      as (rest & l1 & l2 & _ & _ & -> & _). by eexists.
  - intros other. destruct (with_user_layer_from_spec s other Ho) as (ls & -> & _). by eexists.
Qed.

(** The enabled layers, the lowest first. *)
Definition enabled s : list ConfigLayerEntry := get_layers s LowestPrecedenceFirst false.

Definition wf_layers s : Prop := Forall (fun e => wf (config e)) (layers s).

Lemma enabled_elem s e : e ∈ enabled s <-> e ∈ layers s /\ is_disabled e = false.
Proof.
  unfold enabled, get_layers. rewrite !list_elem_of_In, filter_In. cbn. by rewrite negb_true_iff.
Qed.

Lemma enabled_wf s : wf_layers s -> Forall (fun e => wf (config e)) (enabled s).
Proof. unfold wf_layers. rewrite !Forall_forall. intros H e [He _]%enabled_elem. by apply H. Qed.

Lemma filter_sorted {A} (Q : A -> A -> Prop) f l : StronglySorted Q l -> StronglySorted Q (List.filter f l).
Proof.
  induction 1 as [|a l Hl IH Ha]; [by constructor|]. cbn. destruct (f a); [|done].
  constructor; [done|]. rewrite Forall_forall in *. intros b Hb. apply Ha.
  rewrite list_elem_of_In in *. by apply filter_In in Hb as [? _].
Qed.

Lemma enabled_sorted s : reachable s -> StronglySorted below (enabled s).
Proof. intros [[Hs _] _]%reachable_in_order. by apply filter_sorted. Qed.

Definition entry_says (p : list str) (e : ConfigLayerEntry) : verdict := says_in_layer p (config e).

Lemma effective_leaf s p :
  wf_layers s -> no_domains [] p ->
  leaf p (effective_config s) = fold_left (fun below e => override p below (config e)) (enabled s) None.
Proof.
  intros Hw Hd. unfold effective_config, merge_entries. fold (enabled s).
  assert (forall (l : list ConfigLayerEntry) b,
      fold_left (fun merged layer => merge_toml_values merged (config layer)) l b
      = fold_left merge_toml_values (config <$> l) b) as ->.
  { induction l as [|e l IH]; intros b; [done|apply IH]. }
  rewrite merge_layers_from; [|done|by apply Forall_fmap, enabled_wf|exact eq_refl].
  assert (leaf p (Table []) = None) as -> by by destruct p.
  generalize (@None toml). induction (enabled s) as [|e l IH]; intros b; [done|apply IH].
Qed.

(** The layer that decides a setting: the last that says anything of it. *)
Definition decides (p : list str) (v : toml) (l : list ConfigLayerEntry) (e : ConfigLayerEntry) : Prop :=
  exists low high, l = low ++ e :: high /\ entry_says p e = Provides v
    /\ Forall (fun e => entry_says p e = Silent) high.

Lemma silent_fold p (l : list ConfigLayerEntry) acc :
  Forall (fun e => entry_says p e = Silent) l ->
  fold_left (fun below e => override p below (config e)) l acc = acc.
Proof.
  intros H. revert acc. induction H as [|e l He _ IH]; intros acc; [done|]. cbn. rewrite IH.
  unfold override. unfold entry_says in He. by rewrite He.
Qed.

Lemma decides_fold p v l :
  fold_left (fun below e => override p below (config e)) l None = Some v <-> exists e, decides p v l e.
Proof.
  split.
  - revert v. induction l as [|e l IH] using rev_ind; intros v; [done|].
    rewrite fold_left_app. cbn. unfold override at 1.
    destruct (says_in_layer p (config e)) as [w| |] eqn:E; [|done|].
    + intros [= ->]. exists e, l, []. split_and!; [done..|constructor].
    + intros (e' & low & high & -> & Hp & Hs)%IH. exists e', low, (high ++ [e]).
      rewrite <- app_assoc. split_and!; [done..|]. apply Forall_app. by split; [|constructor].
  - intros (e & low & high & -> & Hp & Hs). rewrite fold_left_app. cbn.
    rewrite silent_fold by done. unfold override. unfold entry_says in Hp. by rewrite Hp.
Qed.

(** C22. The effective configuration gives a setting a value exactly where an
    enabled layer gives it that value and every enabled layer after it says
    nothing of it, and those are of the same or a higher precedence: for every
    path that is not below the domains of a network profile. *)
Theorem effective_config_highest_layer s p v :
  reachable s -> wf_layers s -> no_domains [] p ->
  (leaf p (effective_config s) = Some v <->
   exists e, decides p v (enabled s) e /\
     forall e', e' ∈ layers s -> is_disabled e' = false -> precedence (name e) < precedence (name e') ->
       entry_says p e' = Silent).
Proof.
  intros Hr Hw Hd. rewrite effective_leaf, decides_fold by done. split; [|intros (e & He & _); by exists e].
  intros (e & He). exists e. split; [done|]. destruct He as (low & high & Hl & _ & Hs).
  intros e' Hin Hdis Hp. assert (e' ∈ enabled s) as He by by apply enabled_elem.
  pose proof (enabled_sorted _ Hr) as Hsort. rewrite Hl in *. rewrite StronglySorted_app in Hsort.
  destruct Hsort as (H12 & _ & _). rewrite Forall_forall in Hs.
  apply elem_of_app in He as [He|[->|He]%elem_of_cons]; [|lia|by apply Hs].
  specialize (H12 e' e He (list_elem_of_here _ _)). unfold below in H12. lia.
Qed.

(** The paths an entry records an origin for. *)
Definition recorded_paths (e : ConfigLayerEntry) : list (list str) :=
  recorded [] (normalized_with_key_aliases [] (config e)).

(** No key on the way to a scalar holds a dot, so that the names of the origins
    are told apart. *)
Definition dot_free s : Prop :=
  Forall (fun e => Forall (Forall (no_char 46%N)) (recorded_paths e)) (enabled s).

Definition record_entry (origins : gmap str ConfigLayerMetadata) (layer : ConfigLayerEntry) :=
  record_origins (normalized_with_key_aliases [] (config layer)) (metadata layer) [] origins.

Lemma origins_silent k (l : list ConfigLayerEntry) o :
  Forall (fun e => k ∉ join "." <$> recorded_paths e) l -> fold_left record_entry l o !! k = o !! k.
Proof.
  intros H. revert o. induction H as [|e l He _ IH]; intros o; [done|]. cbn. rewrite IH.
  unfold record_entry. rewrite record_origins_lookup. by rewrite decide_False.
Qed.

Lemma recorded_nonempty path v : [] ∉ recorded path v.
Proof.
  revert path. induction v as [s|l IH|t IH] using toml_nested_ind; intros path; cbn.
  - destruct path; cbn; [apply not_elem_of_nil|]. by intros ?%list_elem_of_singleton.
  - generalize 0%N. induction IH as [|v l Hv _ IHl]; intros n; [apply not_elem_of_nil|].
    intros [H|H]%elem_of_app; [by apply Hv in H|by apply IHl in H].
  - induction IH as [|[k v] t Hv _ IHt]; [apply not_elem_of_nil|].
    intros [H|H]%elem_of_app; [by apply Hv in H|by apply IHt in H].
Qed.

Lemma join_inj p q :
  p <> [] -> q <> [] -> Forall (no_char 46%N) p -> Forall (no_char 46%N) q ->
  join "." p = join "." q -> p = q.
Proof.
  intros Hp Hq Hdp Hdq H. rewrite <- (split_join 46%N p), <- (split_join 46%N q) by done.
  by f_equal.
Qed.

(** Where no key holds a dot, the origin of a scalar of the effective
    configuration names the layer that decides it: an enabled layer gives the
    value, the enabled layers after it say nothing of the setting, and its name
    and version are the origin filed under the dotted path. *)
Theorem origins_name_deciding_layer s p x :
  wf_layers s -> dot_free s -> no_domains [] p -> p <> [] ->
  leaf p (effective_config s) = Some (Scalar x) ->
  exists e, decides p (Scalar x) (enabled s) e /\ origins s !! join "." p = Some (metadata e).
Proof.
  intros Hw Hdot Hd Hp Hl. rewrite effective_leaf in Hl by done.
  apply decides_fold in Hl as (e & He). exists e. split; [done|].
  destruct He as (low & high & Hl & Hs & Hh). pose proof (enabled_wf _ Hw) as Hwf.
  unfold dot_free in Hdot. unfold origins. fold (enabled s). rewrite Hl in *.
  apply Forall_app in Hwf as [_ [Hwe Hwh]%Forall_cons].
  apply Forall_app in Hdot as [_ [Hde Hdh]%Forall_cons].
  assert (p ∈ recorded_paths e) as Hin by by apply (provides_recorded []  _ p x).
  change (fold_left record_entry (low ++ e :: high) ∅ !! join "." p = Some (metadata e)).
  rewrite fold_left_app. cbn. rewrite origins_silent.
  - unfold record_entry at 1. rewrite record_origins_lookup, decide_True; [done|].
    by apply list_elem_of_fmap_2.
  - rewrite Forall_forall in *. intros e' He' (q & Hq & Hq')%list_elem_of_fmap.
    unfold recorded_paths in Hq'.
    destruct (recorded_says [] _ q (wf_normalized [] _ (Hwh _ He')) Hq') as (r & -> & Hr).
    cbn [app] in *. destruct r as [|a r]; [by apply recorded_nonempty in Hq'|].
    assert (p = a :: r) as ->.
    { apply join_inj; [done|done| | |exact Hq].
      { rewrite Forall_forall in Hde. by apply Hde. }
      specialize (Hdh _ He'). rewrite Forall_forall in Hdh. by apply Hdh. }
    by apply Hr, Hh.
Qed.
End Claims.

(** ** Concrete stacks *)

Section Demo.
#[local] Instance no_digest : Fingerprint := fun _ => "sha256:".

Definition text (s : str) : toml := Scalar (SString s).
Definition home : PathBuf := [RootDir; Normal "home"; Normal "config.toml"].
Definition repo : PathBuf := [RootDir; Normal "repo"; Normal ".codex"].

Definition user_toml : toml :=
  Table [("model" : str, text "o3"); ("memories" : str, Table [(legacy, Scalar (SBoolean true))])].
Definition project_toml : toml :=
  Table [("model" : str, text "o4"); ("tools" : str, Table [("web" : str, Scalar (SBoolean false))])].
Definition flags_toml : toml := Table [("tools" : str, text "none")].

Definition demo_layers : list ConfigLayerEntry :=
  [entry_new (User home None) user_toml; entry_new (Project repo) project_toml;
   entry_new_disabled SessionFlags flags_toml "untrusted"].
Definition demo : ConfigLayerStack unit unit := mkStack demo_layers (Some 0) tt tt false None.

Lemma demo_reachable : reachable demo.
Proof. by apply (reach_new demo_layers tt tt). Defined.

Lemma demo_wf : wf_layers demo.
Proof.
  repeat constructor; cbn; rewrite ?not_elem_of_cons; repeat split;
    first [done | apply not_elem_of_nil | by intros ?%list_elem_of_singleton].
Defined.

Lemma short_no_domains p : length p <= 4 -> no_domains [] p.
Proof.
  intros Hp q r -> Hr. rewrite length_app in Hp. destruct r; [done|]. cbn in *.
  destruct q as [|? [|? [|? [|]]]]; try done. cbn in Hp. lia.
Qed.

Lemma stack_stays_ordered_witness :
  reachable demo /\ is_Some (with_user_config demo home (Table [])).
Proof.
  split; [exact demo_reachable|].
  exact (proj1 (proj2 (proj2 (stack_stays_ordered demo demo_reachable))) home (Table [])).
Defined.

Lemma effective_config_highest_layer_witness :
  leaf ["model" : str] (effective_config demo) = Some (text "o4") /\
  exists e, decides ["model" : str] (text "o4") (enabled demo) e.
Proof.
  split; [by vm_compute|].
  destruct (effective_config_highest_layer demo ["model" : str] (text "o4") demo_reachable demo_wf)
    as [H _]; [by apply short_no_domains; cbn; lia|].
  destruct (H eq_refl) as (e & He & _). by exists e.
Defined.

Lemma origins_name_deciding_layer_witness :
  exists e, decides ["memories" : str; canonical] (Scalar (SBoolean true)) (enabled demo) e /\
    origins demo !! join "." ["memories" : str; canonical] = Some (metadata e).
Proof.
  apply (origins_name_deciding_layer demo); [exact demo_wf| | |done|by vm_compute].
  - unfold dot_free. apply (bool_decide_unpack _). by vm_compute.
  - apply short_no_domains. cbn. lia.
Defined.

(** The legacy key is read under its new name; a layer that is disabled is not
    merged; and a setting that a higher layer replaced by a value of another
    kind keeps the origin of the layer that is no longer heard. *)
Example demo_effective :
  effective_config demo
  = Table [("model" : str, text "o4"); ("memories" : str, Table [(canonical, Scalar (SBoolean true))]);
           ("tools" : str, Table [("web" : str, Scalar (SBoolean false))])].
Proof. by vm_compute. Qed.

Definition replaced : ConfigLayerStack unit unit :=
  mkStack [entry_new (Project repo) project_toml; entry_new SessionFlags flags_toml] None tt tt false None.

Example stale_origin :
  leaf ["tools" : str; "web"] (effective_config replaced) = None /\
  meta_name <$> origins replaced !! ("tools.web" : str) = Some (Project repo) /\
  meta_name <$> origins replaced !! ("tools" : str) = Some SessionFlags.
Proof. by vm_compute. Qed.

(** The keys of network domains are normalised in the configuration, not in
    the origins. *)
Definition domains_toml : toml :=
  Table [("permissions" : str, Table [("p" : str, Table [("network" : str,
    Table [("domains" : str, Table [("Example.COM" : str, text "allow")])])])])].
Definition two_domains : ConfigLayerStack unit unit :=
  mkStack [entry_new (User home None) domains_toml; entry_new SessionFlags domains_toml] (Some 0) tt tt
    false None.
Definition domain_path (host : str) : list str := ["permissions" : str; "p"; "network"; "domains"; host].

Example domain_origins :
  leaf (domain_path "example.com") (effective_config two_domains) = Some (text "allow") /\
  origins two_domains !! join "." (domain_path "example.com") = None /\
  meta_name <$> origins two_domains !! join "." (domain_path "Example.COM") = Some SessionFlags.
Proof. by vm_compute. Qed.
End Demo.
