(* ===== verification/HookConfig.v ===== *)
(** * The hooks of a configuration

    [codex-rs/config/src/hook_config.rs]: the handlers a configuration or an
    administrator declares for each event. *)

From S2P Require Import Prelude RustStr AbsolutePath.

Inductive HookEventName :=
| PreToolUse | PermissionRequest | PostToolUse | PreCompact | PostCompact | SessionStart
| UserPromptSubmit | SubagentStart | SubagentStop | Stop.

Inductive HookHandlerConfig :=
| HookCommand (command : str) (command_windows : option str) (timeout_sec : option N)
    (async : bool) (status_message : option str)
| HookPrompt
| HookAgent.

Record MatcherGroup := mkGroup { matcher : option str; group_hooks : list HookHandlerConfig }.

Record HookEventsToml := mkEvents {
  pre_tool_use : list MatcherGroup;
  permission_request : list MatcherGroup;
  post_tool_use : list MatcherGroup;
  pre_compact : list MatcherGroup;
  post_compact : list MatcherGroup;
  session_start : list MatcherGroup;
  user_prompt_submit : list MatcherGroup;
  subagent_start : list MatcherGroup;
  subagent_stop : list MatcherGroup;
  stop : list MatcherGroup
}.

Record HookStateToml := mkHookState { hook_enabled : option bool; trusted_hash : option str }.
Record HooksToml := mkHooks { events : HookEventsToml; hook_state : gmap str HookStateToml }.
Record ManagedHooksRequirementsToml := mkManagedHooks {
  managed_dir : option PathBuf;
  windows_managed_dir : option PathBuf;
  managed_events : HookEventsToml
}.

#[export] Instance HookEventName_eq_dec : EqDecision HookEventName.
Proof. solve_decision. Defined.
#[export] Instance HookHandlerConfig_eq_dec : EqDecision HookHandlerConfig.
Proof. solve_decision. Defined.
#[export] Instance MatcherGroup_eq_dec : EqDecision MatcherGroup.
Proof. solve_decision. Defined.
#[export] Instance HookEventsToml_eq_dec : EqDecision HookEventsToml.
Proof. solve_decision. Defined.
#[export] Instance ManagedHooksRequirementsToml_eq_dec : EqDecision ManagedHooksRequirementsToml.
Proof. solve_decision. Defined.

Definition no_events : HookEventsToml := mkEvents [] [] [] [] [] [] [] [] [] [].

Definition events_is_empty (self : HookEventsToml) : bool :=
  is_empty (pre_tool_use self) && is_empty (permission_request self) && is_empty (post_tool_use self)
  && is_empty (pre_compact self) && is_empty (post_compact self) && is_empty (session_start self)
  && is_empty (user_prompt_submit self) && is_empty (subagent_start self)
  && is_empty (subagent_stop self) && is_empty (stop self).

Definition events_handler_count (self : HookEventsToml) : nat :=
  sum_list_with (fun group => length (group_hooks group))
    (concat [pre_tool_use self; permission_request self; post_tool_use self; pre_compact self;
             post_compact self; session_start self; user_prompt_submit self; subagent_start self;
             subagent_stop self; stop self]).

Definition into_matcher_groups (self : HookEventsToml) : list (HookEventName * list MatcherGroup) :=
  [(PreToolUse, pre_tool_use self); (PermissionRequest, permission_request self);
   (PostToolUse, post_tool_use self); (PreCompact, pre_compact self);
   (PostCompact, post_compact self); (SessionStart, session_start self);
   (UserPromptSubmit, user_prompt_submit self); (SubagentStart, subagent_start self);
   (SubagentStop, subagent_stop self); (Stop, stop self)].

Definition managed_hooks_is_empty (self : ManagedHooksRequirementsToml) : bool :=
  bool_decide (managed_dir self = None) && bool_decide (windows_managed_dir self = None)
  && events_is_empty (managed_events self).

Definition handler_count (self : ManagedHooksRequirementsToml) : nat :=
  events_handler_count (managed_events self).

Definition managed_dir_for_current_platform (self : ManagedHooksRequirementsToml) : option PathBuf :=
  managed_dir self.

(** The handlers of all events are those of the groups by event. *)
Lemma handler_count_groups self :
  events_handler_count self
  = sum_list_with (fun e => sum_list_with (fun g => length (group_hooks g)) e.2) (into_matcher_groups self).
Proof.
  unfold events_handler_count, into_matcher_groups. cbn [concat].
  rewrite !sum_list_with_app. done.
Qed.

Lemma no_handlers_empty self : events_is_empty self = true -> events_handler_count self = 0.
Proof.
  unfold events_is_empty. rewrite !andb_true_iff. intros H. destruct self as [a b c d e f g h i j].
  cbn in H. destruct a, b, c, d, e, f, g, h, i, j; cbn in H; intuition discriminate.
Qed.
