(* ===== verification/Constraint.v ===== *)
(** * Constrained values

    [codex-rs/config/src/constraint.rs] and the [RequirementSource] of
    [config_requirements.rs]: a value with the validators an administrator put
    on it and a normaliser. The theorem states that no sequence of operations
    holds a value that one of its validators refuses. *)

From S2P Require Import Prelude RustStr AbsolutePath.
#[local] Open Scope str_scope.

Inductive RequirementSource :=
| SourceUnknown
| MdmManagedPreferences (domain key : str)
| CloudRequirements
| SystemRequirementsToml (file : PathBuf)
| LegacyManagedConfigTomlFromFile (file : PathBuf)
| LegacyManagedConfigTomlFromMdm.

#[export] Instance RequirementSource_eq_dec : EqDecision RequirementSource.
Proof. solve_decision. Defined.

Definition requirement_source_fmt (self : RequirementSource) : str :=
  match self with
  | SourceUnknown => "<unspecified>"
  | MdmManagedPreferences domain key => "MDM " ++ domain ++ ":" ++ key
  | CloudRequirements => "cloud requirements"
  | SystemRequirementsToml file => render file
  | LegacyManagedConfigTomlFromFile file => render file
  | LegacyManagedConfigTomlFromMdm => "MDM managed_config.toml (legacy)"
  end.

Inductive ConstraintError :=
| InvalidValue (field_name candidate allowed : str) (requirement_source : RequirementSource)
| EmptyField (field_name : str)
| ExecPolicyParse (requirement_source : RequirementSource) (reason : str).

#[export] Instance ConstraintError_eq_dec : EqDecision ConstraintError.
Proof. solve_decision. Defined.

Definition empty_field (field_name : str) : ConstraintError := EmptyField field_name.

Definition constraint_error_fmt (self : ConstraintError) : str :=
  match self with
  | InvalidValue field candidate allowed source =>
      "invalid value for `" ++ field ++ "`: `" ++ candidate ++ "` is not in the allowed set "
        ++ allowed ++ " (set by " ++ requirement_source_fmt source ++ ")"
  | EmptyField field => "field `" ++ field ++ "` cannot be empty"
  | ExecPolicyParse source reason =>
      "invalid rules in requirements (set by " ++ requirement_source_fmt source ++ "): " ++ reason
  end.

Abbreviation ConstraintResult := (result ConstraintError).
Definition ConstraintValidator (T : Type) : Type := T -> result ConstraintError unit.

(** The text of [derive(Debug)], for messages. *)
Class Debug (T : Type) := debug_fmt : T -> str.

Record Constrained (T : Type) := mkConstrained {
  value : T;
  validator : ConstraintValidator T;
  normalizer : option (T -> T)
}.
Arguments mkConstrained {T} value validator normalizer.
Arguments value {T} _.
Arguments validator {T} _.
Arguments normalizer {T} _.

Section Constrained.
Context {T : Type}.

Definition constrained_new (initial_value : T) (v : ConstraintValidator T)
  : ConstraintResult (Constrained T) :=
  _ ← v initial_value;
  mret (mkConstrained initial_value v None).

Definition normalized (initial_value : T) (n : T -> T) : ConstraintResult (Constrained T) :=
  let v : ConstraintValidator T := fun _ => Ok tt in
  _ ← v (n initial_value);
  mret (mkConstrained (n initial_value) v (Some n)).

Definition allow_any (initial_value : T) : Constrained T :=
  mkConstrained initial_value (fun _ => Ok tt) None.

Definition only_validator `{EqDecision T, Debug T} (allowed_value : T) : ConstraintValidator T :=
  fun candidate =>
    if decide (candidate = allowed_value) then Ok tt
    else Err (InvalidValue "<unknown>" (debug_fmt candidate) ("[" ++ debug_fmt allowed_value ++ "]")
           SourceUnknown).

Definition allow_only `{EqDecision T, Debug T} (only_value : T) : Constrained T :=
  mkConstrained only_value (only_validator only_value) None.

Definition allow_any_from_default `{Inhabited T} : Constrained T := allow_any inhabitant.

Definition can_set (self : Constrained T) (candidate : T) : ConstraintResult unit :=
  validator self candidate.

Definition add_validator (self : Constrained T) (v : ConstraintValidator T)
  : ConstraintResult (Constrained T) :=
  let combined : ConstraintValidator T := fun candidate => _ ← validator self candidate; v candidate in
  _ ← combined (value self);
  mret (mkConstrained (value self) combined (normalizer self)).

Definition set (self : Constrained T) (candidate : T) : ConstraintResult (Constrained T) :=
  let candidate := match normalizer self with Some n => n candidate | None => candidate end in
  _ ← validator self candidate;
  mret (mkConstrained candidate (validator self) (normalizer self)).

(** A constrained value some calls give, with the validators it was given;
    a call that fails leaves it as it is. *)
Inductive constrained_by `{EqDecision T, Debug T}
  : list (ConstraintValidator T) -> Constrained T -> Prop :=
| by_new x v c : constrained_new x v = Ok c -> constrained_by [v] c
| by_normalized x n c : normalized x n = Ok c -> constrained_by [] c
| by_allow_any x : constrained_by [] (allow_any x)
| by_allow_only x : constrained_by [only_validator x] (allow_only x)
| by_add_validator vs c v c' :
    constrained_by vs c -> add_validator c v = Ok c' -> constrained_by (v :: vs) c'
| by_set vs c x c' : constrained_by vs c -> set c x = Ok c' -> constrained_by vs c'.

(** The validator is the conjunction of the validators. *)
Definition conjunction (vs : list (ConstraintValidator T)) (v : ConstraintValidator T) : Prop :=
  forall x,
    match v x with
    | Ok _ => Forall (fun v => v x = Ok tt) vs
    | Err e => Exists (fun v => v x = Err e) vs
    end.

Lemma conjunction_one v : conjunction [v] v.
Proof. intros x. destruct (v x) as [[]|e] eqn:E; [by constructor|by left]. Qed.

Lemma conjunction_and vs v w :
  conjunction vs v -> conjunction (w :: vs) (fun x => _ ← v x; w x).
Proof.
  intros Hc x. specialize (Hc x). cbn. destruct (v x) as [u|e]; cbn; [|by right].
  destruct (w x) as [[]|e] eqn:E; [by constructor|by left].
Qed.

Lemma constrained_conjunction `{EqDecision T, Debug T} vs c :
  constrained_by vs c ->
  conjunction vs (validator c) /\ exists u, validator c (value c) = Ok u.
Proof.
  induction 1 as [x v c Hn|x n c Hn|x|x|vs c v c' _ [Hc _] Hn|vs c x c' _ [Hc _] Hn].
  - unfold constrained_new in Hn. apply result_bind_Ok in Hn as (u & Hv & [= <-]).
    split; [apply conjunction_one|by exists u].
  - injection Hn as <-. split; [|by eexists]. intros y. by constructor.
  - split; [|by eexists]. intros y. by constructor.
  - split; [apply conjunction_one|]. exists tt. cbn. unfold only_validator. by rewrite decide_True.
  - unfold add_validator in Hn. apply result_bind_Ok in Hn as (u & Hv & [= <-]).
    split; [by apply conjunction_and|by exists u].
  - unfold set in Hn. apply result_bind_Ok in Hn as (u & Hv & [= <-]). by split; [|exists u].
Qed.

(** What becomes of a constrained value that is handed out. *)
Inductive evolves (c : Constrained T) : Constrained T -> Prop :=
| evolves_refl : evolves c c
| evolves_set c' x c'' : evolves c c' -> set c' x = Ok c'' -> evolves c c''
| evolves_add c' v c'' : evolves c c' -> add_validator c' v = Ok c'' -> evolves c c''.

Lemma evolves_valid c c' :
  validator c (value c) = Ok tt -> evolves c c' ->
  validator c (value c') = Ok tt /\ forall x, validator c' x = Ok tt -> validator c x = Ok tt.
Proof.
  intros Hc. induction 1 as [|c' x c'' _ [_ IH] Hs|c' v c'' _ [Hv IH] Hs]; [done| |].
  - unfold set in Hs. apply result_bind_Ok in Hs as ([] & Hv & [= <-]). cbn. by split; [apply IH|].
  - unfold add_validator in Hs. apply result_bind_Ok in Hs as (u & _ & [= <-]). cbn. split; [done|].
    intros x ([] & Hx & _)%result_bind_Ok. by apply IH.
Qed.
End Constrained.

(** After any sequence of operations a constrained value passes every
    validator installed since its construction; [set] holds the normalised
    candidate exactly where all of them accept it, and otherwise fails with
    what one of them says. *)
Theorem constrained_value_valid {T} `{EqDecision T, Debug T} vs (c : Constrained T) :
  constrained_by vs c ->
  Forall (fun v => v (value c) = Ok tt) vs /\
  forall x,
    let candidate := match normalizer c with Some n => n x | None => x end in
    match set c x with
    | Ok c' => value c' = candidate /\ constrained_by vs c' /\
               Forall (fun v => v candidate = Ok tt) vs
    | Err e => Exists (fun v => v candidate = Err e) vs
    end.
Proof.
  intros Hc. destruct (constrained_conjunction _ _ Hc) as (Hall & u & Hv). split.
  - specialize (Hall (value c)). by rewrite Hv in Hall.
  - intros x. destruct (set c x) as [c'|e] eqn:Hs.
    + pose proof (by_set _ _ _ _ Hc Hs) as Hc'. unfold set in Hs.
      apply result_bind_Ok in Hs as (w & Hw & [= <-]). split_and!; [done|done|].
      specialize (Hall (match normalizer c with Some n => n x | None => x end)).
      by rewrite Hw in Hall.
    + cbn. specialize (Hall (match normalizer c with Some n => n x | None => x end)).
      unfold set in Hs. by destruct (validator c _) as [|e'] eqn:E; [|injection Hs as <-].
Qed.

#[local] Instance debug_nat : Debug nat := fun _ => [].
Definition at_most (n : nat) : ConstraintValidator nat :=
  fun x => if (x <=? n)%nat then Ok tt else Err (EmptyField "value").
Definition small : Constrained nat := mkConstrained 3 (fun x => _ ← at_most 9 x; at_most 5 x) None.

Lemma small_by : constrained_by [at_most 5; at_most 9] small.
Proof.
  apply (by_add_validator _ (mkConstrained 3 (at_most 9) None)); [|done]. by apply (by_new 3).
Defined.

Lemma constrained_value_valid_witness :
  Forall (fun v => v 3 = Ok tt) [at_most 5; at_most 9] /\
  match set small 7 with
  | Ok _ => False
  | Err e => Exists (fun v => v 7 = Err e) [at_most 5; at_most 9]
  end.
Proof.
  destruct (constrained_value_valid _ _ small_by) as [H1 H2]. split; [exact H1|].
  exact (H2 7).
Defined.
