(* ===== verification/RequirementRules.v ===== *)
(** * Rules an administrator requires

    [codex-rs/config/src/requirements_exec_policy.rs]: the [[rules]] table of
    [requirements.toml] turned into a policy. The theorem states that a rule it
    accepts is enforced whatever rules it is merged with, and that such a policy
    allows nothing. *)

From S2P Require Import Prelude RustStr AbsolutePath ExecRule ExecPolicy Truncate.
#[local] Open Scope str_scope.

Inductive RequirementsDecisionToml := TomlAllow | TomlPrompt | TomlForbidden.

Definition as_decision (self : RequirementsDecisionToml) : Decision :=
  match self with TomlAllow => Allow | TomlPrompt => Prompt | TomlForbidden => Forbidden end.

Record PatternTokenToml := mkTokenToml { token : option str; any_of : option (list str) }.

Record PrefixRuleToml := mkRuleToml {
  toml_pattern : list PatternTokenToml;
  toml_decision : option RequirementsDecisionToml;
  toml_justification : option str
}.

Record RequirementsExecPolicyToml := mkRulesToml { prefix_rules : list PrefixRuleToml }.

#[export] Instance RequirementsDecisionToml_eq_dec : EqDecision RequirementsDecisionToml.
Proof. solve_decision. Defined.
#[export] Instance PatternTokenToml_eq_dec : EqDecision PatternTokenToml.
Proof. solve_decision. Defined.
#[export] Instance PrefixRuleToml_eq_dec : EqDecision PrefixRuleToml.
Proof. solve_decision. Defined.
#[export] Instance RequirementsExecPolicyToml_eq_dec : EqDecision RequirementsExecPolicyToml.
Proof. solve_decision. Defined.

Inductive ParseError :=
| EmptyPrefixRules
| EmptyPattern (rule_index : nat)
| InvalidPatternToken (rule_index token_index : nat) (reason : str)
| EmptyJustification (rule_index : nat)
| MissingDecision (rule_index : nat)
| AllowDecisionNotAllowed (rule_index : nat).

Definition parse_error_fmt (e : ParseError) : str :=
  let at_index i := "rules prefix_rule at index " ++ format_number (N.of_nat i) in
  match e with
  | EmptyPrefixRules => "rules prefix_rules cannot be empty"
  | EmptyPattern i => at_index i ++ " has an empty pattern"
  | InvalidPatternToken i j reason =>
      at_index i ++ " has an invalid pattern token at index " ++ format_number (N.of_nat j) ++ ": " ++ reason
  | EmptyJustification i => at_index i ++ " has an empty justification"
  | MissingDecision i => at_index i ++ " is missing a decision"
  | AllowDecisionNotAllowed i =>
      at_index i
        ++ " has decision 'allow', which is not permitted in requirements.toml: Codex merges these rules with other config and uses the most restrictive result (use 'prompt' or 'forbidden')"
  end.

Definition blank (s : str) : bool := is_empty (trim s).

Definition parse_pattern_token (t : PatternTokenToml) (rule_index token_index : nat)
  : result ParseError PatternToken :=
  match token t, any_of t with
  | Some single, None =>
      if blank single
      then Err (InvalidPatternToken rule_index token_index "token cannot be empty")
      else Ok (Single single)
  | None, Some alternatives =>
      if is_empty alternatives
      then Err (InvalidPatternToken rule_index token_index "any_of cannot be empty")
      else if existsb blank alternatives
      then Err (InvalidPatternToken rule_index token_index "any_of cannot include empty tokens")
      else Ok (Alts alternatives)
  | Some _, Some _ =>
      Err (InvalidPatternToken rule_index token_index "set either token or any_of, not both")
  | None, None =>
      Err (InvalidPatternToken rule_index token_index "set either token or any_of")
  end.

Fixpoint parse_tokens (tokens : list PatternTokenToml) (rule_index token_index : nat)
  : result ParseError (list PatternToken) :=
  match tokens with
  | [] => Ok []
  | t :: tokens =>
      p ← parse_pattern_token t rule_index token_index;
      ps ← parse_tokens tokens rule_index (S token_index);
      mret (p :: ps)
  end.

Definition insert_heads (heads : list str) (rest : list PatternToken) (decision : Decision)
    (justification : option str) (rules_by_program : MultiMap) : MultiMap :=
  fold_left (fun m head =>
    multimap_insert head (mkPrefixRule (mkPrefixPattern head rest) decision justification) m)
    heads rules_by_program.

(** One rule of the loop of [to_policy]. *)
Definition add_toml_rule (rule_index : nat) (rule : PrefixRuleToml) (rules_by_program : MultiMap)
  : result ParseError MultiMap :=
  if match toml_justification rule with Some j => blank j | None => false end
  then Err (EmptyJustification rule_index)
  else if is_empty (toml_pattern rule) then Err (EmptyPattern rule_index)
  else
    pattern_tokens ← parse_tokens (toml_pattern rule) rule_index 0;
    decision ←
      match toml_decision rule with
      | Some TomlAllow => Err (AllowDecisionNotAllowed rule_index)
      | Some decision => Ok (as_decision decision)
      | None => Err (MissingDecision rule_index)
      end;
    match pattern_tokens with
    | [] => Err (EmptyPattern rule_index)
    | first_token :: rest =>
        Ok (insert_heads (alternatives first_token) rest decision (toml_justification rule)
              rules_by_program)
    end.

Fixpoint add_toml_rules (rule_index : nat) (rules : list PrefixRuleToml) (m : MultiMap)
  : result ParseError MultiMap :=
  match rules with
  | [] => Ok m
  | rule :: rules =>
      m ← add_toml_rule rule_index rule m;
      add_toml_rules (S rule_index) rules m
  end.

Definition to_policy (self : RequirementsExecPolicyToml) : result ParseError Policy :=
  if is_empty (prefix_rules self) then Err EmptyPrefixRules
  else new <$> add_toml_rules 0 (prefix_rules self) ∅.

(** ** What a rule means *)

Definition token_accepts (t : PatternTokenToml) (c : str) : Prop :=
  token t = Some c \/ exists l, any_of t = Some l /\ c ∈ l.

(** A command that starts with what the tokens of the rule accept. *)
Definition rule_covers (r : PrefixRuleToml) (cmd : list str) : Prop :=
  exists used more, cmd = used ++ more /\ Forall2 token_accepts (toml_pattern r) used.

Lemma parse_token_accepts t i j p :
  parse_pattern_token t i j = Ok p -> forall c, accepts p c <-> token_accepts t c.
Proof.
  unfold parse_pattern_token, accepts, token_accepts.
  destruct (token t) as [s|], (any_of t) as [l|]; [done| | |done].
  - destruct (blank s); [done|]. intros [= <-] c. cbn. rewrite list_elem_of_singleton.
    split; [intros ->; by left|by intros [[= ->]|(l' & [=] & _)]].
  - destruct (is_empty l); [done|]. destruct (existsb blank l); [done|]. intros [= <-] c. cbn.
    split; [intros H; right; by exists l|by intros [[=]|(l' & [= <-] & H)]].
Qed.

Lemma parse_tokens_accepts ts i j ps :
  parse_tokens ts i j = Ok ps -> forall cs, Forall2 token_accepts ts cs <-> Forall2 accepts ps cs.
Proof.
  revert j ps. induction ts as [|t ts IH]; intros j ps; cbn.
  - intros [= <-] cs. split; inversion 1; constructor.
  - intros (p & Hp & (ps' & Hps & [= <-])%result_bind_Ok)%result_bind_Ok cs.
    pose proof (parse_token_accepts _ _ _ _ Hp) as Ha.
    split; intros H; inversion H as [|? c ? cs' Hc Hcs]; subst; constructor;
      first [by apply Ha | by apply (IH _ _ Hps)].
Qed.

Lemma parse_tokens_index ts i j i' j' ps :
  parse_tokens ts i j = Ok ps -> parse_tokens ts i' j' = Ok ps.
Proof.
  revert j j' ps. induction ts as [|t ts IH]; intros j j' ps; [done|]. cbn [parse_tokens].
  intros (p & Hp & (ps' & Hps & [= <-])%result_bind_Ok)%result_bind_Ok.
  assert (parse_pattern_token t i' j' = Ok p) as ->.
  { revert Hp. unfold parse_pattern_token. destruct (token t) as [w|], (any_of t) as [ws|]; try done.
    - by destruct (blank _).
    - destruct (is_empty ws); [done|]. by destruct (existsb blank ws). }
  cbn. by rewrite (IH _ (S j') _ Hps).
Qed.

Lemma insert_heads_elem heads rest d j m k r :
  r ∈ vec_of (insert_heads heads rest d j m) k <->
  r ∈ vec_of m k \/ (k ∈ heads /\ r = mkPrefixRule (mkPrefixPattern k rest) d j).
Proof.
  unfold insert_heads. revert m. induction heads as [|h heads IH]; intros m; cbn.
  { split; [by left|]. intros [?|[?%elem_of_nil _]]; done. }
  rewrite IH, elem_of_cons. unfold multimap_insert. destruct (decide (h = k)) as [->|Hk].
  - rewrite lookup_insert_eq. cbn. rewrite elem_of_app, list_elem_of_singleton. clear IH. split.
    + intros [[Hr|Hr]|[Hr1 Hr2]]; [by left|right; split; [by left|done]|right; split; [by right|done]].
    + intros [Hr|[[_|Hr] ->]]; [by left; left|by left; right|by right].
  - rewrite lookup_insert_ne by done. clear IH. split.
    + intros [Hr|[Hr1 Hr2]]; [by left|right; split; [by right|done]].
    + intros [Hr|[[->|Hr] ->]]; [by left|done|by right].
Qed.

(** A rule of the policy comes from one of the table. *)
Definition made_from (toml : PrefixRuleToml) (k : str) (r : PrefixRule) : Prop :=
  exists i first rest d, parse_tokens (toml_pattern toml) i 0 = Ok (first :: rest)
    /\ toml_decision toml = Some d /\ d <> TomlAllow /\ k ∈ alternatives first
    /\ r = mkPrefixRule (mkPrefixPattern k rest) (as_decision d) (toml_justification toml).

Lemma add_toml_rule_inv i toml m m' :
  add_toml_rule i toml m = Ok m' ->
  exists first rest d, parse_tokens (toml_pattern toml) i 0 = Ok (first :: rest)
    /\ toml_decision toml = Some d /\ d <> TomlAllow
    /\ m' = insert_heads (alternatives first) rest (as_decision d) (toml_justification toml) m.
Proof.
  unfold add_toml_rule. destruct (match toml_justification toml with Some _ => _ | None => _ end); [done|].
  destruct (is_empty _); [done|]. intros (ps & Hps & H)%result_bind_Ok.
  apply result_bind_Ok in H as (d' & Hd & H). destruct ps as [|first rest]; [done|].
  injection H as <-. destruct (toml_decision toml) as [d|]; [|done].
  exists first, rest, d. by destruct d; [done|injection Hd as <-..].
Qed.

Lemma add_toml_rules_elem i rules m m' k r :
  add_toml_rules i rules m = Ok m' ->
  r ∈ vec_of m' k <-> r ∈ vec_of m k \/ exists toml, toml ∈ rules /\ made_from toml k r.
Proof.
  revert i m. induction rules as [|toml rules IH]; intros i m; cbn.
  { intros [= <-]. split; [by left|]. by intros [?|(t & ?%elem_of_nil & _)]. }
  intros (m1 & Hm & H)%result_bind_Ok. rewrite (IH _ _ H).
  apply add_toml_rule_inv in Hm as (first & rest & d & Hp & Hd & Hn & ->).
  rewrite insert_heads_elem. split.
  - intros [[Hr|[Hk ->]]|(t & Ht & Hr)]; [by left|right|right].
    + exists toml. split; [by left|]. by exists i, first, rest, d.
    + exists t. split; [by right|done].
  - intros [Hr|(t & [->|Ht]%elem_of_cons & Hr)]; [by left; left| |right; by exists t].
    left. right. destruct Hr as (i' & first' & rest' & d' & Hp' & Hd' & _ & Hk & ->).
    rewrite Hd in Hd'. injection Hd' as <-. apply (parse_tokens_index _ _ _ i 0) in Hp'.
    rewrite Hp in Hp'. by injection Hp' as <- <-.
Qed.

Lemma to_policy_elem t p k r :
  to_policy t = Ok p ->
  r ∈ vec_of (rules_by_program p) k <-> exists toml, toml ∈ prefix_rules t /\ made_from toml k r.
Proof.
  unfold to_policy. destruct (is_empty _); [done|]. destruct (add_toml_rules _ _ _) as [m|] eqn:E; [|done].
  intros [= <-]. cbn. rewrite (add_toml_rules_elem _ _ _ _ k r E), lookup_empty. cbn. split.
  - by intros [?%elem_of_nil|].
  - by right.
Qed.

(** Each rule of the table is one the policy was made from. *)
Lemma add_toml_rules_rule n rules m m' toml :
  add_toml_rules n rules m = Ok m' -> toml ∈ rules ->
  exists i first rest d, parse_tokens (toml_pattern toml) i 0 = Ok (first :: rest)
    /\ toml_decision toml = Some d /\ d <> TomlAllow.
Proof.
  revert n m. induction rules as [|r rules IH]; intros n m; [by intros _ ?%elem_of_nil|].
  cbn. intros (m1 & Hm & H)%result_bind_Ok [->|Hin]%elem_of_cons; [|exact (IH _ _ H Hin)].
  apply add_toml_rule_inv in Hm as (first & rest & d & Hp & Hd & Hn & _). by exists n, first, rest, d.
Qed.

Lemma to_policy_rule t p toml :
  to_policy t = Ok p -> toml ∈ prefix_rules t ->
  exists i first rest d, parse_tokens (toml_pattern toml) i 0 = Ok (first :: rest)
    /\ toml_decision toml = Some d /\ d <> TomlAllow.
Proof.
  unfold to_policy. destruct (is_empty _); [done|].
  destruct (add_toml_rules _ _ _) as [m|] eqn:E; [|done]. intros _. exact (add_toml_rules_rule _ _ _ _ _ E).
Qed.

Lemma covered_matches toml k more used r :
  made_from toml k r -> Forall2 token_accepts (toml_pattern toml) (k :: used) ->
  exists m, rule_matches r (k :: used ++ more) = Some m /\ match_decision m = decision r.
Proof.
  intros (i & first & rest & d & Hp & _ & _ & _ & ->) Hc.
  apply (parse_tokens_accepts _ _ _ _ Hp) in Hc. apply Forall2_cons in Hc as [_ Hc].
  assert (matches_prefix (mkPrefixPattern k rest) (k :: used ++ more) = Some (k :: used)) as Hm.
  { apply matches_prefix_spec. by exists used, more. }
  unfold rule_matches. cbn [pattern decision justification]. rewrite Hm. by eexists.
Qed.

Section Enforced.
Context (home_dir : option str) (current_dir : result PathError str).

Lemma covered_exact t p toml cmd :
  to_policy t = Ok p -> toml ∈ prefix_rules t -> rule_covers toml cmd ->
  exists d m, toml_decision toml = Some d /\ as_decision d <> Allow
    /\ m ∈ exact_matches p cmd /\ match_decision m = as_decision d.
Proof.
  intros Ht Hin (used & more & -> & Hc).
  destruct (to_policy_rule _ _ _ Ht Hin) as (i & first & rest & d & Hp & Hd & Hn).
  pose proof (proj1 (parse_tokens_accepts _ _ _ _ Hp used) Hc) as Ha.
  inversion Ha as [|? k ? used' Hk _]; subst.
  assert (made_from toml k (mkPrefixRule (mkPrefixPattern k rest) (as_decision d) (toml_justification toml)))
    as Hmade by by exists i, first, rest, d.
  destruct (covered_matches _ _ more _ _ Hmade Hc) as (m & Hm & Hdec).
  exists d, m. split_and!; [done|by destruct d| |done].
  cbn [app]. rewrite exact_matches_vec. apply list_elem_of_omap.
  eexists. split; [|exact Hm]. apply (to_policy_elem _ _ _ _ Ht). by exists toml.
Qed.


(** Every match of a required rule asks or forbids. *)
Lemma required_match_not_allow t p cmd options m :
  to_policy t = Ok p -> m ∈ lookup_rules home_dir current_dir p cmd options ->
  match_decision m <> Allow.
Proof.
  intros Ht Hm.
  assert (forall k rules r c m0, rules_by_program p !! k = Some rules -> r ∈ rules ->
    rule_matches r c = Some m0 -> match_decision m0 <> Allow) as Hrule.
  { intros k rules r c m0 Hk Hr (pre & -> & _)%rule_matches_prefix. cbn.
    destruct (proj1 (to_policy_elem _ _ k r Ht)) as (toml & _ & i & first & rest & d & _ & _ & Hd & _ & ->).
    { by rewrite Hk. }
    cbn. by destruct d. }
  apply lookup_rules_elem in Hm as [(k & args & rules & r & _ & Hk & Hr & Hm)|(_ & _ & k & args & prog & base
    & rules & r & m0 & _ & _ & _ & Hk & Hr & _ & Hm & ->)]; [by eapply Hrule|].
  pose proof (Hrule _ _ _ _ _ Hk Hr Hm) as Hn. by destruct m0.
Qed.
End Enforced.

(** C21. Rules that are read from [requirements.toml] are enforced: a command
    that a rule covers gets a decision at least as severe as the rule's, which
    is not [allow], under whatever policy the rules are merged over; and by
    themselves they allow no command but where none of them matches. *)
Theorem required_rules_enforced home_dir current_dir t p :
  to_policy t = Ok p ->
  (forall toml cmd base h options, toml ∈ prefix_rules t -> rule_covers toml cmd ->
     exists d e, toml_decision toml = Some d /\ as_decision d <> Allow /\
       check_with_options home_dir current_dir (merge_overlay base p) cmd h options = Some e /\
       severity (as_decision d) <= severity (ev_decision e)) /\
  (forall cmd h options e, check_with_options home_dir current_dir p cmd h options = Some e ->
     ev_decision e = Allow -> matched_rules e = [HeuristicsRuleMatch cmd (h cmd)]).
Proof.
  intros Ht. split.
  - intros toml cmd base h options Hin Hc.
    destruct (covered_exact _ _ _ _ Ht Hin Hc) as (d & m & Hd & Hn & Hm & Hdec).
    destruct (check_total home_dir current_dir (merge_overlay base p) cmd h options)
      as (e & He & _ & Hmax & _). exists d, e. split_and!; [done..|].
    rewrite <- Hdec. apply Hmax.
    assert (m ∈ exact_matches (merge_overlay base p) cmd) as Hmem
      by (rewrite exact_matches_merge; apply elem_of_app; by right).
    unfold check_with_options in He. rewrite matches_for_exact in He by (intros E; by rewrite E in Hmem; no_elem).
    apply from_matches_Some in He as (-> & _). done.
  - intros cmd h options e He Hallow.
    destruct (check_total home_dir current_dir p cmd h options) as (e' & He' & _ & Hmax & Hcase).
    rewrite He in He'. injection He' as <-. destruct (is_match e) eqn:E; [|by destruct Hcase].
    apply existsb_exists in E as (m & Hm%list_elem_of_In & _). rewrite Hcase in Hm.
    pose proof (required_match_not_allow _ _ _ _ _ _ _ Ht Hm) as Hn. rewrite <- Hcase in Hm.
    apply Hmax in Hm. rewrite Hallow in Hm. by destruct (match_decision m); cbn in Hm; try lia.
Qed.

Definition push_rule : PrefixRuleToml :=
  mkRuleToml [mkTokenToml (Some ("git" : str)) None; mkTokenToml None (Some [("push" : str); "pull"])]
    (Some TomlForbidden) None.
Definition push_rules : RequirementsExecPolicyToml := mkRulesToml [push_rule].
Definition push_policy : Policy :=
  new {["git" : str := [mkPrefixRule (mkPrefixPattern "git" [Alts ["push" : str; "pull"]]) Forbidden None]]}.
Definition allow_git : Policy :=
  new {["git" : str := [mkPrefixRule (mkPrefixPattern "git" []) Allow None]]}.

Lemma required_rules_enforced_witness :
  exists e, check_with_options None (Ok "/") (merge_overlay allow_git push_policy) ["git"; "pull"; "-f"]
              (fun _ => Allow) default_options = Some e /\ 2 <= severity (ev_decision e).
Proof.
  destruct (required_rules_enforced None (Ok "/") push_rules push_policy) as [H _]; [by vm_compute|].
  destruct (H push_rule ["git"; "pull"; "-f"] allow_git (fun _ => Allow) default_options)
    as (d & e & Hd & _ & He & Hs).
  - by left.
  - exists ["git" : str; "pull"], ["-f" : str]. split; [done|].
    constructor; [by left|]. constructor; [|constructor]. right. eexists. split; [done|].
    right. by left.
  - injection Hd as <-. exists e. exact (conj He Hs).
Defined.

(** A required rule for a program's path hides the rules of its base name, and
    any required rule hides the heuristics: either may be stricter. *)
Definition path_rule : RequirementsExecPolicyToml :=
  mkRulesToml [mkRuleToml [mkTokenToml (Some ("/usr/bin/git" : str)) None] (Some TomlPrompt) None].
Example required_prompt_relaxes :
  let forbid_git := new {["git" : str := [mkPrefixRule (mkPrefixPattern "git" []) Forbidden None]]} in
  let options := mkMatchOptions true in
  let run p h := ev_decision <$> check_with_options None (Ok "/") p ["/usr/bin/git" : str; "push"]
                   (fun _ => h) options in
  match to_policy path_rule with
  | Ok required =>
      run forbid_git Prompt = Some Forbidden /\
      run (merge_overlay forbid_git required) Prompt = Some Prompt /\
      run empty Forbidden = Some Forbidden /\ run (merge_overlay empty required) Forbidden = Some Prompt
  | Err _ => False
  end.
Proof. by vm_compute. Qed.

Example rejected_rules :
  let one r := to_policy (mkRulesToml [r]) in
  let tok s := mkTokenToml (Some s) None in
  to_policy (mkRulesToml []) = Err EmptyPrefixRules /\
  one (mkRuleToml [] (Some TomlPrompt) None) = Err (EmptyPattern 0) /\
  one (mkRuleToml [tok " " ] (Some TomlPrompt) None)
    = Err (InvalidPatternToken 0 0 "token cannot be empty") /\
  one (mkRuleToml [tok "rm"] (Some TomlAllow) None) = Err (AllowDecisionNotAllowed 0) /\
  one (mkRuleToml [tok "rm"] None None) = Err (MissingDecision 0) /\
  one (mkRuleToml [tok "rm"] (Some TomlPrompt) (Some (" " : str))) = Err (EmptyJustification 0).
Proof. by vm_compute. Qed.
