(* ===== verification/Requirements.v ===== *)
(** * What an administrator requires

    [codex-rs/config/src/config_requirements.rs]: the requirements read from
    each managed source, merged with the highest precedence first, and turned
    into the constraints a configuration is derived under. The theorems state
    which source decides each field, and that no value that the requirements
    exclude is ever held. *)

From S2P Require Import Prelude RustStr AbsolutePath ExecRule ExecPolicy ShellParse CommandSafety.
From S2P Require Import ExecApproval FsPolicy FsRoots FsLegacy Permissions HookConfig.
From S2P Require Import IpAddr NetHost NetConfig Constraint RequirementRules.
#[local] Open Scope str_scope.

(** ** Values ([protocol/src/config_types.rs], [protocol.rs]) *)

Inductive ApprovalsReviewer := ReviewerUser | AutoReview.
Inductive WebSearchMode := WebDisabled | WebCached | WebLive.
Inductive SandboxMode := ModeReadOnly | ModeWorkspaceWrite | ModeDangerFullAccess.

#[export] Instance GranularApprovalConfig_eq_dec : EqDecision GranularApprovalConfig.
Proof. solve_decision. Defined.
#[export] Instance AskForApproval_eq_dec : EqDecision AskForApproval.
Proof. solve_decision. Defined.
#[export] Instance ApprovalsReviewer_eq_dec : EqDecision ApprovalsReviewer.
Proof. solve_decision. Defined.
#[export] Instance WebSearchMode_eq_dec : EqDecision WebSearchMode.
Proof. solve_decision. Defined.

Definition default_approval : AskForApproval := OnRequest.
Definition default_reviewer : ApprovalsReviewer := ReviewerUser.

Inductive SandboxModeRequirement :=
| ReqReadOnly | ReqWorkspaceWrite | ReqDangerFullAccess | ReqExternalSandbox.
Inductive WebSearchModeRequirement := ReqDisabled | ReqCached | ReqLive.
Inductive ResidencyRequirement := Us.
Inductive AppToolApproval := ApprovalAuto | ApprovalPrompt | ApprovalApprove.

#[export] Instance SandboxModeRequirement_eq_dec : EqDecision SandboxModeRequirement.
Proof. solve_decision. Defined.
#[export] Instance WebSearchModeRequirement_eq_dec : EqDecision WebSearchModeRequirement.
Proof. solve_decision. Defined.
#[export] Instance ResidencyRequirement_eq_dec : EqDecision ResidencyRequirement.
Proof. solve_decision. Defined.

Definition sandbox_mode_requirement (mode : SandboxMode) : SandboxModeRequirement :=
  match mode with
  | ModeReadOnly => ReqReadOnly
  | ModeWorkspaceWrite => ReqWorkspaceWrite
  | ModeDangerFullAccess => ReqDangerFullAccess
  end.

Definition web_search_requirement (mode : WebSearchMode) : WebSearchModeRequirement :=
  match mode with WebDisabled => ReqDisabled | WebCached => ReqCached | WebLive => ReqLive end.
Definition web_search_mode_of (mode : WebSearchModeRequirement) : WebSearchMode :=
  match mode with ReqDisabled => WebDisabled | ReqCached => WebCached | ReqLive => WebLive end.

(** ** The tables *)

Inductive McpServerIdentity := McpCommand (command : str) | McpUrl (url : str).
Record McpServerRequirement := mkMcp { identity : McpServerIdentity }.
Record PluginRequirementsToml := mkPlugin { plugin_mcp_servers : option (gmap str McpServerRequirement) }.
Definition plugin_is_empty (self : PluginRequirementsToml) : bool :=
  match plugin_mcp_servers self with Some servers => bool_decide (map_to_list servers = []) | None => true end.

Record ComputerUseRequirementsToml := mkComputerUse { allow_locked_computer_use : option bool }.
Definition computer_use_is_empty (self : ComputerUseRequirementsToml) : bool :=
  bool_decide (allow_locked_computer_use self = None).

Record FeatureRequirementsToml := mkFeatures { feature_entries : gmap str bool }.
Definition features_is_empty (self : FeatureRequirementsToml) : bool :=
  bool_decide (feature_entries self = ∅).

Record AppToolRequirementToml := mkAppTool { approval_mode : option AppToolApproval }.
Record AppRequirementToml := mkApp {
  app_enabled : option bool;
  app_tools : option (gmap str AppToolRequirementToml)
}.
Abbreviation AppsRequirementsToml := (gmap str AppRequirementToml).

Definition app_tool_is_empty (self : AppToolRequirementToml) : bool :=
  match approval_mode self with None => true | Some _ => false end.
Definition app_tools_is_empty (tools : gmap str AppToolRequirementToml) : bool :=
  forallb (fun e => app_tool_is_empty e.2) (map_to_list tools).
Definition app_is_empty (self : AppRequirementToml) : bool :=
  bool_decide (app_enabled self = None)
  && match app_tools self with Some tools => app_tools_is_empty tools | None => true end.
Definition apps_is_empty (self : AppsRequirementsToml) : bool :=
  forallb (fun e => app_is_empty e.2) (map_to_list self).

Definition default_tool : AppToolRequirementToml := mkAppTool None.
Definition default_app : AppRequirementToml := mkApp None None.

(** [for (key, value) in incoming] with [base.entry(key).or_default()]. *)
Definition merge_entries {A B} (d : A) (f : A -> B -> A) (base : gmap str A) (incoming : gmap str B)
  : gmap str A :=
  fold_left (fun base e => <[e.1 := f (default d (base !! e.1)) e.2]> base) (map_to_list incoming) base.

Definition merge_app_tool (base_tool incoming_tool : AppToolRequirementToml) : AppToolRequirementToml :=
  match approval_mode base_tool with
  | None => mkAppTool (approval_mode incoming_tool)
  | Some _ => base_tool
  end.

Definition merge_enabled (higher_precedence lower_precedence : option bool) : option bool :=
  if bool_decide (higher_precedence = Some false) || bool_decide (lower_precedence = Some false)
  then Some false
  else match higher_precedence with Some b => Some b | None => lower_precedence end.

Definition merge_app (base_requirement incoming_requirement : AppRequirementToml) : AppRequirementToml :=
  let enabled := merge_enabled (app_enabled base_requirement) (app_enabled incoming_requirement) in
  match app_tools incoming_requirement with
  | None => mkApp enabled (app_tools base_requirement)
  | Some incoming_tools =>
      let base_tools := default ∅ (app_tools base_requirement) in
      mkApp enabled (Some (merge_entries default_tool merge_app_tool base_tools incoming_tools))
  end.

Definition merge_app_requirements_descending (base incoming : AppsRequirementsToml)
  : AppsRequirementsToml :=
  merge_entries default_app merge_app base incoming.

(** ** Network ([NetworkRequirementsToml]) *)

Inductive NetworkDomainPermissionToml := TomlAllowDomain | TomlDenyDomain.
Inductive NetworkUnixSocketPermissionToml := TomlAllowSocket | TomlNoSocket.
#[export] Instance NetworkDomainPermissionToml_eq_dec : EqDecision NetworkDomainPermissionToml.
Proof. solve_decision. Defined.
#[export] Instance NetworkUnixSocketPermissionToml_eq_dec : EqDecision NetworkUnixSocketPermissionToml.
Proof. solve_decision. Defined.

(** [BTreeMap]s, in the order of their keys. *)
Abbreviation NetworkDomainPermissionsToml := (list (str * NetworkDomainPermissionToml)).
Abbreviation NetworkUnixSocketPermissionsToml := (list (str * NetworkUnixSocketPermissionToml)).

Definition keys_with {A} (f : A -> bool) (entries : list (str * A)) : list str :=
  map fst (List.filter (fun e => f e.2) entries).

Definition toml_allowed_domains (self : NetworkDomainPermissionsToml) : option (list str) :=
  let allowed := keys_with (fun p => bool_decide (p = TomlAllowDomain)) self in
  if is_empty allowed then None else Some allowed.
Definition toml_denied_domains (self : NetworkDomainPermissionsToml) : option (list str) :=
  let denied := keys_with (fun p => bool_decide (p = TomlDenyDomain)) self in
  if is_empty denied then None else Some denied.
Definition toml_allow_unix_sockets (self : NetworkUnixSocketPermissionsToml) : list str :=
  keys_with (fun p => bool_decide (p = TomlAllowSocket)) self.

(** The shape of [NetworkRequirementsToml] and of [NetworkConstraints]. *)
Record NetworkRequirementsToml := mkNetwork {
  n_enabled : option bool;
  n_http_port : option N;
  n_socks_port : option N;
  n_allow_upstream_proxy : option bool;
  n_dangerously_allow_non_loopback_proxy : option bool;
  n_dangerously_allow_all_unix_sockets : option bool;
  n_domains : option NetworkDomainPermissionsToml;
  n_managed_allowed_domains_only : option bool;
  n_unix_sockets : option NetworkUnixSocketPermissionsToml;
  n_allow_local_binding : option bool
}.

(** [RawNetworkRequirementsToml]: the lists of the old shape besides. *)
Record RawNetworkRequirementsToml := mkRawNetwork {
  raw : NetworkRequirementsToml;
  raw_allowed_domains : option (list str);
  raw_denied_domains : option (list str);
  raw_allow_unix_sockets : option (list str)
}.

Definition legacy_domain_permissions_from_lists (allowed_domains denied_domains : option (list str))
  : option NetworkDomainPermissionsToml :=
  let entries := fold_left (fun m p => btree_insert p TomlAllowDomain m) (default [] allowed_domains) [] in
  let entries := fold_left (fun m p => btree_insert p TomlDenyDomain m) (default [] denied_domains) entries in
  if is_empty entries then None else Some entries.

Definition legacy_unix_socket_permissions_from_list (allow_unix_sockets : option (list str))
  : option NetworkUnixSocketPermissionsToml :=
  let entries := fold_left (fun m p => btree_insert p TomlAllowSocket m) (default [] allow_unix_sockets) [] in
  if is_empty entries then None else Some entries.

Definition domains_and_lists : str :=
  "`experimental_network.domains` cannot be combined with legacy `allowed_domains` or `denied_domains`".
Definition sockets_and_list : str :=
  "`experimental_network.unix_sockets` cannot be combined with legacy `allow_unix_sockets`".

Definition is_some {A} (o : option A) : bool := match o with Some _ => true | None => false end.

Definition network_requirements_from_raw (r : RawNetworkRequirementsToml)
  : result str NetworkRequirementsToml :=
  let n := raw r in
  if is_some (n_domains n) && (is_some (raw_allowed_domains r) || is_some (raw_denied_domains r))
  then Err domains_and_lists
  else if is_some (n_unix_sockets n) && is_some (raw_allow_unix_sockets r)
  then Err sockets_and_list
  else Ok (mkNetwork (n_enabled n) (n_http_port n) (n_socks_port n) (n_allow_upstream_proxy n)
        (n_dangerously_allow_non_loopback_proxy n) (n_dangerously_allow_all_unix_sockets n)
        (match n_domains n with
         | Some domains => Some domains
         | None => legacy_domain_permissions_from_lists (raw_allowed_domains r) (raw_denied_domains r)
         end)
        (n_managed_allowed_domains_only n)
        (match n_unix_sockets n with
         | Some sockets => Some sockets
         | None => legacy_unix_socket_permissions_from_list (raw_allow_unix_sockets r)
         end)
        (n_allow_local_binding n)).

Record NetworkConstraints := mkNetConstraints {
  nc_enabled : option bool;
  nc_http_port : option N;
  nc_socks_port : option N;
  nc_allow_upstream_proxy : option bool;
  nc_dangerously_allow_non_loopback_proxy : option bool;
  nc_dangerously_allow_all_unix_sockets : option bool;
  nc_domains : option NetworkDomainPermissionsToml;
  nc_managed_allowed_domains_only : option bool;
  nc_unix_sockets : option NetworkUnixSocketPermissionsToml;
  nc_allow_local_binding : option bool
}.

Definition network_constraints_from (v : NetworkRequirementsToml) : NetworkConstraints :=
  mkNetConstraints (n_enabled v) (n_http_port v) (n_socks_port v) (n_allow_upstream_proxy v)
    (n_dangerously_allow_non_loopback_proxy v) (n_dangerously_allow_all_unix_sockets v) (n_domains v)
    (n_managed_allowed_domains_only v) (n_unix_sockets v) (n_allow_local_binding v).

(** ** Files that may not be read *)

Definition is_path_separator (ch : char) : bool := bool_decide (ch = 47%N).
(** The star, the question mark and the opening bracket. *)
Definition is_glob_metacharacter (ch : char) : bool :=
  bool_decide (ch = 42%N) || bool_decide (ch = 63%N) || bool_decide (ch = 91%N).

Definition contains_glob (pattern : str) : bool := existsb is_glob_metacharacter pattern.

(** The directory before the first glob character, and the rest. *)
Definition split_glob_pattern (input : str) : str * str :=
  match position is_glob_metacharacter input with
  | None => ([], input)
  | Some first_glob =>
      match position is_path_separator (reverse (take first_glob input)) with
      | None => ([], input)
      | Some back =>
          match first_glob - 1 - back with
          | 0 => ("/", drop 1 input)
          | index => (take index input, drop (S index) input)
          end
      end
  end.

Inductive DeserializePathError := WithoutBase | FromAbsolute (e : PathError).

Section DenyRead.
(** The environment, and the base path of [AbsolutePathBufGuard]. *)
Context (home_dir : option str) (current_dir : result PathError str) (base : option str).

Definition deserialize_absolute_path (input : str) : result DeserializePathError PathBuf :=
  match base with
  | Some base => Ok (resolve_path_against_base home_dir input base)
  | None =>
      if is_absolute input
      then match from_absolute_path home_dir current_dir input with
           | Ok p => Ok p
           | Err e => Err (FromAbsolute e)
           end
      else Err WithoutBase
  end.

(** [FilesystemDenyReadPattern::from_input] *)
Definition from_input (input : str) : result DeserializePathError str :=
  if negb (contains_glob input) then render <$> deserialize_absolute_path input
  else
    let '(directory_prefix, suffix) := split_glob_pattern input in
    normalized_prefix ← deserialize_absolute_path
      (if is_empty directory_prefix then "." else directory_prefix);
    let normalized_prefix := render normalized_prefix in
    mret (if is_empty suffix then normalized_prefix
          else if bool_decide (normalized_prefix = "/") then "/" ++ suffix
          else normalized_prefix ++ "/" ++ suffix).
End DenyRead.

Record FilesystemRequirementsToml := mkFsReq { deny_read : option (list str) }.

(** [RawFilesystemRequirementsToml]; of the reserved fields only whether they
    are there matters. *)
Record RawFilesystemRequirementsToml := mkRawFs {
  raw_deny_read : option (list str);
  has_description : bool;
  has_extends : bool;
  has_workspace_roots : bool;
  has_filesystem : bool;
  has_network : bool
}.
Definition reserved_filesystem : str :=
  "`permissions.filesystem` is reserved for requirements-level filesystem constraints and cannot define a profile".
Definition filesystem_requirements_from_raw (r : RawFilesystemRequirementsToml)
  : result str FilesystemRequirementsToml :=
  if has_description r || has_extends r || has_workspace_roots r || has_filesystem r || has_network r
  then Err reserved_filesystem
  else Ok (mkFsReq (raw_deny_read r)).

(** ** Requirements *)

Record RemoteSandboxConfigToml := mkRemote {
  hostname_patterns : list str;
  remote_allowed_sandbox_modes : list SandboxModeRequirement
}.

Record Sourced (T : Type) := mkSourced { sourced_value : T; source : RequirementSource }.
Arguments mkSourced {T} _ _.
Arguments sourced_value {T} _.
Arguments source {T} _.

Record ConstrainedWithSource (T : Type) := mkConstrainedWithSource {
  constrained : Constrained T;
  constrained_source : option RequirementSource
}.
Arguments mkConstrainedWithSource {T} _ _.
Arguments constrained {T} _.
Arguments constrained_source {T} _.

(** [WildMatchPattern::new_case_insensitive] of the crate [wildmatch]. *)
Class WildMatch := wild_matches : str -> str -> bool.

Definition normalize_hostname (hostname : str) : option str :=
  let hostname := trim_end_matches (N.eqb 46) (trim hostname) in
  if is_empty hostname then None else Some (to_ascii_lowercase hostname).

Section Requirements.
(** The profiles of [permissions_toml.rs] are carried along. *)
Context {PermissionProfileToml : Type}.

Record PermissionsRequirementsToml := mkPermissionsReq {
  filesystem_req : option FilesystemRequirementsToml;
  profiles : gmap str PermissionProfileToml
}.

Record FilesystemConstraints := mkFsConstraints { fc_deny_read : list str }.

Definition filesystem_constraints_from (v : PermissionsRequirementsToml) : FilesystemConstraints :=
  mkFsConstraints (default [] (filesystem ← filesystem_req v; deny_read filesystem)).

Record ConfigRequirementsToml := mkToml {
  t_allowed_approval_policies : option (list AskForApproval);
  t_allowed_approvals_reviewers : option (list ApprovalsReviewer);
  t_allowed_sandbox_modes : option (list SandboxModeRequirement);
  t_allowed_permissions : option (list str);
  t_remote_sandbox_config : option (list RemoteSandboxConfigToml);
  t_allowed_web_search_modes : option (list WebSearchModeRequirement);
  t_allow_managed_hooks_only : option bool;
  t_allow_appshots : option bool;
  t_computer_use : option ComputerUseRequirementsToml;
  t_feature_requirements : option FeatureRequirementsToml;
  t_hooks : option ManagedHooksRequirementsToml;
  t_mcp_servers : option (gmap str McpServerRequirement);
  t_plugins : option (gmap str PluginRequirementsToml);
  t_apps : option AppsRequirementsToml;
  t_rules : option RequirementsExecPolicyToml;
  t_enforce_residency : option ResidencyRequirement;
  t_network : option NetworkRequirementsToml;
  t_permissions : option PermissionsRequirementsToml;
  t_guardian_policy_config : option str
}.

Record ConfigRequirementsWithSources := mkWith {
  w_allowed_approval_policies : option (Sourced (list AskForApproval));
  w_allowed_approvals_reviewers : option (Sourced (list ApprovalsReviewer));
  w_allowed_sandbox_modes : option (Sourced (list SandboxModeRequirement));
  w_allowed_permissions : option (Sourced (list str));
  w_allowed_web_search_modes : option (Sourced (list WebSearchModeRequirement));
  w_allow_managed_hooks_only : option (Sourced bool);
  w_allow_appshots : option (Sourced bool);
  w_computer_use : option (Sourced ComputerUseRequirementsToml);
  w_feature_requirements : option (Sourced FeatureRequirementsToml);
  w_hooks : option (Sourced ManagedHooksRequirementsToml);
  w_mcp_servers : option (Sourced (gmap str McpServerRequirement));
  w_plugins : option (Sourced (gmap str PluginRequirementsToml));
  w_apps : option (Sourced AppsRequirementsToml);
  w_rules : option (Sourced RequirementsExecPolicyToml);
  w_enforce_residency : option (Sourced ResidencyRequirement);
  w_network : option (Sourced NetworkRequirementsToml);
  w_permissions : option (Sourced PermissionsRequirementsToml);
  w_guardian_policy_config : option (Sourced str)
}.

Definition no_requirements : ConfigRequirementsWithSources :=
  mkWith None None None None None None None None None None None None None None None None None None.

(** [fill_missing_take!] for one field. *)
Definition fill_missing_take {A} (s : RequirementSource) (base : option (Sourced A)) (other : option A)
  : option (Sourced A) :=
  match base, other with
  | None, Some value => Some (mkSourced value s)
  | _, _ => base
  end.

Definition blank_guardian_policy (g : option str) : bool :=
  match g with Some value => is_empty (trim value) | None => false end.

(** [merge_unset_fields] *)
Definition merge_unset_fields (self : ConfigRequirementsWithSources) (s : RequirementSource)
    (other : ConfigRequirementsToml) : ConfigRequirementsWithSources :=
  let guardian := if blank_guardian_policy (t_guardian_policy_config other) then None
                  else t_guardian_policy_config other in
  mkWith
    (fill_missing_take s (w_allowed_approval_policies self) (t_allowed_approval_policies other))
    (fill_missing_take s (w_allowed_approvals_reviewers self) (t_allowed_approvals_reviewers other))
    (fill_missing_take s (w_allowed_sandbox_modes self) (t_allowed_sandbox_modes other))
    (fill_missing_take s (w_allowed_permissions self) (t_allowed_permissions other))
    (fill_missing_take s (w_allowed_web_search_modes self) (t_allowed_web_search_modes other))
    (fill_missing_take s (w_allow_managed_hooks_only self) (t_allow_managed_hooks_only other))
    (fill_missing_take s (w_allow_appshots self) (t_allow_appshots other))
    (fill_missing_take s (w_computer_use self) (t_computer_use other))
    (fill_missing_take s (w_feature_requirements self) (t_feature_requirements other))
    (fill_missing_take s (w_hooks self) (t_hooks other))
    (fill_missing_take s (w_mcp_servers self) (t_mcp_servers other))
    (fill_missing_take s (w_plugins self) (t_plugins other))
    (match t_apps other with
     | Some incoming_apps =>
         match w_apps self with
         | Some existing_apps =>
             Some (mkSourced (merge_app_requirements_descending (sourced_value existing_apps) incoming_apps)
                     (source existing_apps))
         | None => Some (mkSourced incoming_apps s)
         end
     | None => w_apps self
     end)
    (fill_missing_take s (w_rules self) (t_rules other))
    (fill_missing_take s (w_enforce_residency self) (t_enforce_residency other))
    (fill_missing_take s (w_network self) (t_network other))
    (fill_missing_take s (w_permissions self) (t_permissions other))
    (fill_missing_take s (w_guardian_policy_config self) guardian).

Definition into_toml (self : ConfigRequirementsWithSources) : ConfigRequirementsToml :=
  mkToml (sourced_value <$> w_allowed_approval_policies self)
    (sourced_value <$> w_allowed_approvals_reviewers self)
    (sourced_value <$> w_allowed_sandbox_modes self) (sourced_value <$> w_allowed_permissions self) None
    (sourced_value <$> w_allowed_web_search_modes self)
    (sourced_value <$> w_allow_managed_hooks_only self) (sourced_value <$> w_allow_appshots self)
    (sourced_value <$> w_computer_use self) (sourced_value <$> w_feature_requirements self)
    (sourced_value <$> w_hooks self) (sourced_value <$> w_mcp_servers self)
    (sourced_value <$> w_plugins self) (sourced_value <$> w_apps self) (sourced_value <$> w_rules self)
    (sourced_value <$> w_enforce_residency self) (sourced_value <$> w_network self)
    (sourced_value <$> w_permissions self) (sourced_value <$> w_guardian_policy_config self).

(** ** The host ([remote_sandbox_config]) *)

Definition hostname_matches_any_pattern `{WildMatch} (hostname : str) (patterns : list str) : bool :=
  existsb (fun pattern =>
    match normalize_hostname pattern with
    | Some pattern => wild_matches pattern hostname
    | None => false
    end) patterns.

Definition set_sandbox_modes (self : ConfigRequirementsToml) (modes : list SandboxModeRequirement)
  : ConfigRequirementsToml :=
  mkToml (t_allowed_approval_policies self) (t_allowed_approvals_reviewers self) (Some modes)
    (t_allowed_permissions self) (t_remote_sandbox_config self) (t_allowed_web_search_modes self)
    (t_allow_managed_hooks_only self) (t_allow_appshots self) (t_computer_use self)
    (t_feature_requirements self) (t_hooks self) (t_mcp_servers self) (t_plugins self) (t_apps self)
    (t_rules self) (t_enforce_residency self) (t_network self) (t_permissions self)
    (t_guardian_policy_config self).

Definition apply_remote_sandbox_config `{WildMatch} (self : ConfigRequirementsToml)
    (hostname : option str) : ConfigRequirementsToml :=
  match t_remote_sandbox_config self with
  | None => self
  | Some remote_sandbox_config =>
      match (hostname ← hostname; normalize_hostname hostname) with
      | None => self
      | Some hostname =>
          match List.find (fun config => hostname_matches_any_pattern hostname (hostname_patterns config))
                  remote_sandbox_config with
          | None => self
          | Some matched_config => set_sandbox_modes self (remote_allowed_sandbox_modes matched_config)
          end
      end
  end.

Definition none_or {A} (f : A -> bool) (o : option A) : bool :=
  match o with Some a => f a | None => true end.
Definition never {A} (_ : A) : bool := false.

Definition toml_is_empty (self : ConfigRequirementsToml) : bool :=
  none_or never (t_allowed_approval_policies self)
  && none_or never (t_allowed_approvals_reviewers self)
  && none_or never (t_allowed_sandbox_modes self)
  && none_or never (t_allowed_permissions self)
  && none_or never (t_remote_sandbox_config self)
  && none_or never (t_allowed_web_search_modes self)
  && none_or never (t_allow_managed_hooks_only self)
  && none_or never (t_allow_appshots self)
  && none_or computer_use_is_empty (t_computer_use self)
  && none_or features_is_empty (t_feature_requirements self)
  && none_or managed_hooks_is_empty (t_hooks self)
  && none_or never (t_mcp_servers self)
  && none_or (fun plugins => forallb (fun e => plugin_is_empty e.2) (map_to_list plugins)) (t_plugins self)
  && none_or apps_is_empty (t_apps self)
  && none_or never (t_rules self)
  && none_or never (t_enforce_residency self)
  && none_or never (t_network self)
  && none_or never (t_permissions self)
  && none_or (fun value => is_empty (trim value)) (t_guardian_policy_config self).

(** ** Constraints *)

Record ConfigRequirements := mkRequirements {
  approval_policy : ConstrainedWithSource AskForApproval;
  approvals_reviewer : ConstrainedWithSource ApprovalsReviewer;
  permission_profile : ConstrainedWithSource PermissionProfile;
  web_search_mode : ConstrainedWithSource WebSearchMode;
  allow_managed_hooks_only : option (Sourced bool);
  allow_appshots : option (Sourced bool);
  computer_use : option (Sourced ComputerUseRequirementsToml);
  feature_requirements : option (Sourced FeatureRequirementsToml);
  managed_hooks : option (ConstrainedWithSource ManagedHooksRequirementsToml);
  mcp_servers : option (Sourced (gmap str McpServerRequirement));
  plugins : option (Sourced (gmap str PluginRequirementsToml));
  exec_policy : option (Sourced Policy);
  enforce_residency : ConstrainedWithSource (option ResidencyRequirement);
  network : option (Sourced NetworkConstraints);
  filesystem : option (Sourced FilesystemConstraints);
  guardian_policy_config_source : option RequirementSource
}.

Definition unconstrained {T} (x : T) : ConstrainedWithSource T :=
  mkConstrainedWithSource (allow_any x) None.

Definition default_requirements : ConfigRequirements :=
  mkRequirements (unconstrained default_approval) (unconstrained default_reviewer)
    (unconstrained read_only) (unconstrained WebCached) None None None None None None None None
    (unconstrained None) None None None.

Definition exec_policy_source (self : ConfigRequirements) : option RequirementSource :=
  source <$> exec_policy self.

Definition sandbox_mode_requirement_for_permission_profile (permission_profile : PermissionProfile)
  : SandboxModeRequirement :=
  match permission_profile with
  | Disabled => ReqDangerFullAccess
  | External _ => ReqExternalSandbox
  | Managed _ _ =>
      let file_system_policy := file_system_sandbox_policy permission_profile in
      if has_full_disk_write_access file_system_policy then ReqDangerFullAccess
      else if existsb (fun entry => can_write (access entry)) (entries file_system_policy)
      then ReqWorkspaceWrite
      else ReqReadOnly
  end.

(** The texts of [{:?}]. *)
Context {debug : forall T, Debug T}.

(** [Constrained::new] with a validator that accepts [ok]. *)
Definition accept_if {T A} (field : str) (shown : T -> A) (allowed : str) (s : RequirementSource)
    (ok : T -> bool) : ConstraintValidator T :=
  fun candidate =>
    if ok candidate then Ok tt else Err (InvalidValue field (debug_fmt (shown candidate)) allowed s).

Definition with_source {T} (s : RequirementSource) (c : Constrained T) : ConstrainedWithSource T :=
  mkConstrainedWithSource c (Some s).

(** The policies and the reviewers: a list whose first is the initial value. *)
Definition constrain_listed {T} `{EqDecision T} (list_name field : str) (d : T)
    (allowed : option (Sourced (list T))) : result ConstraintError (ConstrainedWithSource T) :=
  match allowed with
  | None => Ok (unconstrained d)
  | Some (mkSourced values s) =>
      match values with
      | [] => Err (empty_field list_name)
      | initial_value :: _ =>
          with_source s <$> constrained_new initial_value
            (accept_if field (fun c => c) (debug_fmt values) s
               (fun candidate => bool_decide (candidate ∈ values)))
      end
  end.

Definition constrain_profile (allowed : option (Sourced (list SandboxModeRequirement)))
  : result ConstraintError (ConstrainedWithSource PermissionProfile) :=
  match allowed with
  | None => Ok (unconstrained read_only)
  | Some (mkSourced modes s) =>
      if negb (bool_decide (ReqReadOnly ∈ modes))
      then Err (InvalidValue "allowed_sandbox_modes" (debug_fmt modes)
                  "must include 'read-only' to allow any PermissionProfile" s)
      else
        with_source s <$> constrained_new read_only
          (accept_if "sandbox_mode" sandbox_mode_requirement_for_permission_profile (debug_fmt modes) s
             (fun candidate =>
                bool_decide (sandbox_mode_requirement_for_permission_profile candidate ∈ modes)))
  end.

Definition constrain_rules (rules : option (Sourced RequirementsExecPolicyToml))
  : result ConstraintError (option (Sourced Policy)) :=
  match rules with
  | None => Ok None
  | Some (mkSourced rules s) =>
      match to_policy rules with
      | Ok policy => Ok (Some (mkSourced policy s))
      | Err err => Err (ExecPolicyParse s (parse_error_fmt err))
      end
  end.

(** The [BTreeSet] of the modes, with [disabled]. *)
Definition accepted_modes (modes : list WebSearchModeRequirement) : list WebSearchModeRequirement :=
  List.filter (fun m => bool_decide (m ∈ ReqDisabled :: modes)) [ReqDisabled; ReqCached; ReqLive].

Definition constrain_web_search (allowed : option (Sourced (list WebSearchModeRequirement)))
  : result ConstraintError (ConstrainedWithSource WebSearchMode) :=
  match allowed with
  | None => Ok (unconstrained WebCached)
  | Some (mkSourced modes s) =>
      let accepted := accepted_modes modes in
      let allowed_for_error := debug_fmt (map web_search_mode_of accepted) in
      let initial_value :=
        if bool_decide (ReqCached ∈ accepted) then WebCached
        else if bool_decide (ReqLive ∈ accepted) then WebLive
        else WebDisabled in
      with_source s <$> constrained_new initial_value
        (accept_if "web_search_mode" (fun c => c) allowed_for_error s
           (fun candidate => bool_decide (web_search_requirement candidate ∈ accepted)))
  end.

Definition constrain_equal {T} `{EqDecision T} (field : str) (required : T) (s : RequirementSource)
  : result ConstraintError (ConstrainedWithSource T) :=
  with_source s <$> constrained_new required
    (accept_if field (fun c => c) (debug_fmt required) s (fun candidate => bool_decide (candidate = required))).

Definition constrain_hooks (hooks : option (Sourced ManagedHooksRequirementsToml))
  : result ConstraintError (option (ConstrainedWithSource ManagedHooksRequirementsToml)) :=
  match hooks with
  | Some (mkSourced value s) =>
      if (0 <? handler_count value)%nat then Some <$> constrain_equal "hooks" value s else Ok None
  | None => Ok None
  end.

Definition constrain_residency (residency : option (Sourced ResidencyRequirement))
  : result ConstraintError (ConstrainedWithSource (option ResidencyRequirement)) :=
  match residency with
  | Some (mkSourced residency s) => constrain_equal "enforce_residency" (Some residency) s
  | None => Ok (unconstrained None)
  end.

Definition nonempty_features (f : option (Sourced FeatureRequirementsToml))
  : option (Sourced FeatureRequirementsToml) :=
  match f with
  | Some requirements => if features_is_empty (sourced_value requirements) then None else Some requirements
  | None => None
  end.

Definition map_sourced {A B} (f : A -> B) (o : option (Sourced A)) : option (Sourced B) :=
  (fun x => mkSourced (f (sourced_value x)) (source x)) <$> o.

(** [TryFrom<ConfigRequirementsWithSources>] *)
Definition requirements_try_from (toml : ConfigRequirementsWithSources)
  : result ConstraintError ConfigRequirements :=
  approval_policy ← constrain_listed "allowed_approval_policies" "approval_policy" default_approval
    (w_allowed_approval_policies toml);
  approvals_reviewer ← constrain_listed "allowed_approvals_reviewers" "approvals_reviewer"
    default_reviewer (w_allowed_approvals_reviewers toml);
  permission_profile ← constrain_profile (w_allowed_sandbox_modes toml);
  exec_policy ← constrain_rules (w_rules toml);
  web_search_mode ← constrain_web_search (w_allowed_web_search_modes toml);
  managed_hooks ← constrain_hooks (w_hooks toml);
  enforce_residency ← constrain_residency (w_enforce_residency toml);
  mret (mkRequirements approval_policy approvals_reviewer permission_profile web_search_mode
    (w_allow_managed_hooks_only toml) (w_allow_appshots toml) (w_computer_use toml)
    (nonempty_features (w_feature_requirements toml)) managed_hooks (w_mcp_servers toml)
    (w_plugins toml) exec_policy enforce_residency
    (map_sourced network_constraints_from (w_network toml))
    (map_sourced filesystem_constraints_from (w_permissions toml))
    (source <$> w_guardian_policy_config toml)).
End Requirements.
Arguments PermissionsRequirementsToml : clear implicits.
Arguments ConfigRequirementsToml : clear implicits.
Arguments ConfigRequirementsWithSources : clear implicits.

(** ** Sources merged *)

Lemma fold_entries_lookup {A B} (d : A) (f : A -> B -> A) (l : list (str * B)) (base : gmap str A) k :
  NoDup l.*1 ->
  fold_left (fun base e => <[e.1 := f (default d (base !! e.1)) e.2]> base) l base !! k
  = match (list_to_map l : gmap str B) !! k with
    | Some v => Some (f (default d (base !! k)) v)
    | None => base !! k
    end.
Proof.
  revert base. induction l as [|[a v] l IH]; intros base Hl; cbn; [by rewrite lookup_empty|].
  apply NoDup_cons in Hl as [Ha Hl]. rewrite IH by done. cbn.
  destruct (decide (a = k)) as [->|Hk].
  - assert ((list_to_map l : gmap str B) !! k = None) as -> by by apply not_elem_of_list_to_map.
    by rewrite !lookup_insert_eq.
  - by rewrite !lookup_insert_ne.
Qed.

Lemma merge_entries_lookup {A B} (d : A) (f : A -> B -> A) (base : gmap str A) (incoming : gmap str B) k :
  merge_entries d f base incoming !! k
  = match incoming !! k with
    | Some v => Some (f (default d (base !! k)) v)
    | None => base !! k
    end.
Proof.
  unfold merge_entries. rewrite fold_entries_lookup by apply NoDup_fst_map_to_list.
  by rewrite list_to_map_to_list.
Qed.

(** What the apps of a source say of an app and of one of its tools. *)
Definition enabled_in (app : str) (apps : AppsRequirementsToml) : option bool :=
  a ← apps !! app; app_enabled a.
Definition approval_in (app tool : str) (apps : AppsRequirementsToml) : option AppToolApproval :=
  a ← apps !! app; tools ← app_tools a; t ← tools !! tool; approval_mode t.

Lemma enabled_merge app base incoming :
  enabled_in app (merge_app_requirements_descending base incoming)
  = merge_enabled (enabled_in app base) (enabled_in app incoming).
Proof.
  unfold enabled_in, merge_app_requirements_descending. rewrite merge_entries_lookup.
  destruct (incoming !! app) as [i|]; cbn.
  - destruct (base !! app) as [b|]; cbn; unfold merge_app; by destruct (app_tools i).
  - destruct (base !! app) as [b|]; cbn; [|done]. unfold merge_enabled. by destruct (app_enabled b) as [[]|].
Qed.

Lemma approval_merge app tool base incoming :
  approval_in app tool (merge_app_requirements_descending base incoming)
  = match approval_in app tool base with
    | Some a => Some a
    | None => approval_in app tool incoming
    end.
Proof.
  unfold approval_in, merge_app_requirements_descending. rewrite merge_entries_lookup.
  destruct (incoming !! app) as [i|]; cbn; [|by repeat case_match].
  assert (forall t (bt : gmap str AppToolRequirementToml) it,
    (t0 ← merge_entries default_tool merge_app_tool bt it !! t; approval_mode t0)
    = match (t0 ← bt !! t; approval_mode t0) with
      | Some a => Some a | None => t0 ← it !! t; approval_mode t0 end) as Htool.
  { intros t bt it. rewrite merge_entries_lookup.
    destruct (it !! t) as [x|], (bt !! t) as [y|]; cbn; try done.
    - unfold merge_app_tool. by destruct (approval_mode y) eqn:E; cbn; rewrite ?E.
    - by destruct (approval_mode y). }
  unfold merge_app. destruct (base !! app) as [b|]; cbn.
  - destruct (app_tools i) as [it|]; cbn; [rewrite Htool|match goal with |- ?X = _ => by destruct X end].
    by destruct (app_tools b) as [bt|]; cbn; [|rewrite lookup_empty].
  - destruct (app_tools i) as [it|]; cbn; [|done]. by rewrite Htool, lookup_empty.
Qed.

Lemma find_map_snoc {A B} (f : A -> option B) l x :
  find_map f (l ++ [x]) = match find_map f l with Some y => Some y | None => f x end.
Proof. induction l as [|a l IH]; cbn; [by destruct (f x)|]. by destruct (f a). Qed.

Section Merge.
Context {P : Type}.
Implicit Types (t : ConfigRequirementsToml P) (w : ConfigRequirementsWithSources P).

(** Sources in descending precedence. *)
Abbreviation sources := (list (RequirementSource * ConfigRequirementsToml P)).

Definition merge_all (l : sources) : ConfigRequirementsWithSources P :=
  fold_left (fun w e => merge_unset_fields w e.1 e.2) l no_requirements.

(** A guardian policy of white space is none. *)
Definition guardian_of t : option str :=
  if blank_guardian_policy (t_guardian_policy_config t) then None else t_guardian_policy_config t.

(** The fields that the first source decides. *)
Inductive plain_field : forall A, (ConfigRequirementsToml P -> option A) ->
    (ConfigRequirementsWithSources P -> option (Sourced A)) -> Prop :=
| f_policies : plain_field _ t_allowed_approval_policies w_allowed_approval_policies
| f_reviewers : plain_field _ t_allowed_approvals_reviewers w_allowed_approvals_reviewers
| f_modes : plain_field _ t_allowed_sandbox_modes w_allowed_sandbox_modes
| f_allowed : plain_field _ t_allowed_permissions w_allowed_permissions
| f_web : plain_field _ t_allowed_web_search_modes w_allowed_web_search_modes
| f_hooks_only : plain_field _ t_allow_managed_hooks_only w_allow_managed_hooks_only
| f_appshots : plain_field _ t_allow_appshots w_allow_appshots
| f_computer : plain_field _ t_computer_use w_computer_use
| f_features : plain_field _ t_feature_requirements w_feature_requirements
| f_hooks : plain_field _ t_hooks w_hooks
| f_mcp : plain_field _ t_mcp_servers w_mcp_servers
| f_plugins : plain_field _ t_plugins w_plugins
| f_rules : plain_field _ t_rules w_rules
| f_residency : plain_field _ t_enforce_residency w_enforce_residency
| f_network : plain_field _ t_network w_network
| f_permissions : plain_field _ t_permissions w_permissions
| f_guardian : plain_field _ guardian_of w_guardian_policy_config.

Definition first_source {A} (f : ConfigRequirementsToml P -> option A) (l : sources)
  : option (Sourced A) :=
  find_map (fun e => (fun x => mkSourced x e.1) <$> f e.2) l.

Lemma merge_plain A f g w s t : plain_field A f g ->
  g (merge_unset_fields w s t) = fill_missing_take s (g w) (f t).
Proof. by destruct 1. Qed.

Lemma merge_plain_empty A f g : plain_field A f g -> g no_requirements = None.
Proof. by destruct 1. Qed.

Definition apps_of w : AppsRequirementsToml := default ∅ (sourced_value <$> w_apps w).

Lemma merge_apps w s t :
  (forall app, enabled_in app (apps_of (merge_unset_fields w s t))
    = merge_enabled (enabled_in app (apps_of w)) (enabled_in app (default ∅ (t_apps t)))) /\
  (forall app tool, approval_in app tool (apps_of (merge_unset_fields w s t))
    = match approval_in app tool (apps_of w) with
      | Some a => Some a
      | None => approval_in app tool (default ∅ (t_apps t))
      end).
Proof.
  unfold apps_of. cbn. destruct (t_apps t) as [i|]; cbn.
  - destruct (w_apps w) as [b|]; cbn; split; intros.
    + apply enabled_merge.
    + apply approval_merge.
    + unfold enabled_in at 2. rewrite lookup_empty. cbn. unfold merge_enabled.
      by destruct (enabled_in app i) as [[]|].
    + unfold approval_in at 2. by rewrite lookup_empty.
  - split; intros.
    + unfold enabled_in at 3. rewrite lookup_empty. cbn. unfold merge_enabled.
      by destruct (enabled_in app _) as [[]|].
    + unfold approval_in at 3. rewrite lookup_empty. by case_match.
Qed.

(** Disabled by any, else as the first that says so. *)
Definition disabled_or_first (said : list (option bool)) : option bool :=
  if bool_decide (Some false ∈ said) then Some false else find_map (fun b => b) said.

Lemma find_map_id_elem {A} (l : list (option A)) a : find_map (fun b => b) l = Some a -> Some a ∈ l.
Proof.
  induction l as [|[b|] l IH]; cbn; [done| |right; by apply IH]. intros [= ->]. by left.
Qed.

Lemma merge_enabled_snoc said x :
  merge_enabled (disabled_or_first said) x = disabled_or_first (said ++ [x]).
Proof.
  unfold merge_enabled, disabled_or_first. rewrite find_map_snoc.
  destruct (decide (Some false ∈ said)) as [Hs|Hs].
  - rewrite (bool_decide_true (Some false ∈ said)) by done.
    rewrite (bool_decide_true (Some false ∈ said ++ [x])); [done|]. apply elem_of_app. by left.
  - rewrite (bool_decide_false (Some false ∈ said)) by done.
    assert (find_map (fun b => b) said <> Some false) as Hf by by intros ?%find_map_id_elem.
    rewrite (bool_decide_false (find_map _ _ = _)) by done. cbn.
    destruct (decide (x = Some false)) as [Hx|Hx].
    + rewrite (bool_decide_true (Some false ∈ said ++ [x])), (bool_decide_true (x = _)); [done|done|].
      apply elem_of_app. right. rewrite Hx. by left.
    + rewrite (bool_decide_false (Some false ∈ said ++ [x])), (bool_decide_false (x = _)); [done|done|].
      rewrite elem_of_app, list_elem_of_singleton. by intros [?|?].
Qed.

(** Managed sources merged with the highest precedence first: each of the
    seventeen plain fields is that of the first source that has it, and names
    that source; an app is disabled as soon as one source disables it and is
    otherwise as the first source that says so; and the approval of a tool is
    that of the first source that gives one. *)
Theorem managed_sources_merge (l : sources) :
  (forall A f g, plain_field A f g -> g (merge_all l) = first_source f l) /\
  (forall app,
     enabled_in app (apps_of (merge_all l))
     = disabled_or_first (map (fun e => enabled_in app (default ∅ (t_apps e.2))) l)) /\
  (forall app tool,
     approval_in app tool (apps_of (merge_all l))
     = find_map (fun e => approval_in app tool (default ∅ (t_apps e.2))) l).
Proof.
  unfold merge_all, first_source. induction l as [|[s t] l (IH1 & IH2 & IH3)] using rev_ind.
  { split_and!; [intros A f g Hf; by apply merge_plain_empty in Hf|done|done]. }
  rewrite !fold_left_app. cbn [fold_left fst snd]. destruct (merge_apps (fold_left (fun w e => merge_unset_fields w e.1 e.2)
    l no_requirements) s t) as [He Ha]. split_and!.
  - intros A f g Hf. rewrite find_map_snoc, (merge_plain _ _ _ _ _ _ Hf), (IH1 _ _ _ Hf). cbn.
    by destruct (find_map _ l), (f t).
  - intros app. rewrite He, IH2, map_app. apply merge_enabled_snoc.
  - intros app tool. rewrite Ha, IH3, find_map_snoc. done.
Qed.
End Merge.

(** ** What the constraints keep *)

Section Bind.
Context {P : Type} {debug : forall T, Debug T} {os : Os}.

(** A constraint made of a test holds values that pass it. *)
Lemma accept_if_evolves {T A} field (shown : T -> A) allowed s ok x (c c' : Constrained T) :
  constrained_new x (accept_if field shown allowed s ok) = Ok c -> evolves c c' -> ok (value c') = true.
Proof.
  intros Hn Hc. unfold constrained_new in Hn. apply result_bind_Ok in Hn as ([] & Hx & [= <-]).
  destruct (evolves_valid (mkConstrained x _ None) _ Hx Hc) as [Hv _]. cbn in Hv. unfold accept_if in Hv.
  by destruct (ok (value c')).
Qed.

Lemma with_source_inv {T} s (r : result ConstraintError (Constrained T)) c :
  with_source s <$> r = Ok c -> exists c', r = Ok c' /\ c = with_source s c'.
Proof. destruct r as [c'|]; [|done]. intros [= <-]. by exists c'. Qed.

Lemma constrain_listed_keeps {T} `{EqDecision T} n f (d : T) values s c c' :
  constrain_listed n f d (Some (mkSourced values s)) = Ok c -> evolves (constrained c) c' ->
  value c' ∈ values.
Proof.
  cbn. destruct values as [|x values]; [done|]. intros (k & Hk & ->)%with_source_inv Hc.
  eapply accept_if_evolves in Hk; [|exact Hc]. by apply bool_decide_eq_true in Hk.
Qed.

Lemma constrain_profile_keeps modes s c c' :
  constrain_profile (Some (mkSourced modes s)) = Ok c -> evolves (constrained c) c' ->
  sandbox_mode_requirement_for_permission_profile (value c') ∈ modes.
Proof.
  cbn. destruct (bool_decide _); [|done]. intros (k & Hk & ->)%with_source_inv Hc.
  eapply accept_if_evolves in Hk; [|exact Hc]. by apply bool_decide_eq_true in Hk.
Qed.

Lemma accepted_modes_elem m modes : m ∈ accepted_modes modes <-> m = ReqDisabled \/ m ∈ modes.
Proof.
  unfold accepted_modes. rewrite list_elem_of_In, filter_In, bool_decide_eq_true, elem_of_cons.
  split; [tauto|]. intros H. split; [|exact H]. destruct m; cbn; tauto.
Qed.

Lemma constrain_web_search_keeps modes s c c' :
  constrain_web_search (Some (mkSourced modes s)) = Ok c -> evolves (constrained c) c' ->
  value c' = WebDisabled \/ web_search_requirement (value c') ∈ modes.
Proof.
  cbn. intros (k & Hk & ->)%with_source_inv Hc. eapply accept_if_evolves in Hk; [|exact Hc].
  apply bool_decide_eq_true, accepted_modes_elem in Hk as [Hk|Hk]; [left|by right].
  by destruct (value c').
Qed.

Lemma constrain_equal_keeps {T} `{EqDecision T} f (x : T) s c c' :
  constrain_equal f x s = Ok c -> evolves (constrained c) c' -> value c' = x.
Proof.
  intros (k & Hk & ->)%with_source_inv Hc. eapply accept_if_evolves in Hk; [|exact Hc].
  by apply bool_decide_eq_true in Hk.
Qed.

(** A profile that counts as [read-only] writes no path. *)
Lemma read_only_writes_nothing p path cwd :
  sandbox_mode_requirement_for_permission_profile p = ReqReadOnly ->
  can_write_path_with_cwd (file_system_sandbox_policy p) path cwd = false.
Proof.
  destruct p as [fs net| |net]; [|done|done]. unfold sandbox_mode_requirement_for_permission_profile.
  destruct fs as [es depth|]; cbn [file_system_sandbox_policy managed_to_sandbox_policy]; [|done].
  destruct (has_full_disk_write_access (SandboxPolicyOf Restricted depth es)); [done|].
  cbn [entries]. destruct (existsb _ es) eqn:E; [done|]. intros _. unfold can_write_path_with_cwd, resolve_access_with_cwd.
  cbn [kind]. destruct (resolve_candidate_path path cwd) as [q|]; [|done].
  pose proof (max_by_spec precedence_lt precedence_asym precedence_negtrans
    (List.filter (covers q) (resolved_entries_with_cwd (SandboxPolicyOf Restricted depth es) cwd))) as H.
  destruct (max_by _ _) as [e|]; [|done]. destruct H as [He _].
  rewrite list_elem_of_In in He. apply filter_In in He as [He _]. apply list_elem_of_In in He.
  unfold resolved_entries_with_cwd in He. apply list_elem_of_omap in He as (x & Hx & Hr).
  unfold resolve_entry in Hr. destruct (resolve_entry_path _ _); [|done]. injection Hr as <-. cbn [raccess].
  destruct (can_write (access x)) eqn:Ew; [|done].
  rewrite <- not_true_iff_false in E. destruct E. apply existsb_exists. exists x. by rewrite <- list_elem_of_In.
Qed.

(** C20. What the merged requirements exclude is never held: however the
    constrained values that come of them are set or narrowed, the approval
    policy and the reviewer are listed ones, the permission profile is of an
    allowed sandbox mode (and lets no path be written where only [read-only]
    is allowed), web search is of an allowed mode or disabled, and the managed
    hooks and the residency are the required ones. *)
Theorem managed_requirements_bind (w : ConfigRequirementsWithSources P) r :
  requirements_try_from w = Ok r ->
  (forall l s c, w_allowed_approval_policies w = Some (mkSourced l s) ->
     evolves (constrained (approval_policy r)) c -> value c ∈ l) /\
  (forall l s c, w_allowed_approvals_reviewers w = Some (mkSourced l s) ->
     evolves (constrained (approvals_reviewer r)) c -> value c ∈ l) /\
  (forall modes s c, w_allowed_sandbox_modes w = Some (mkSourced modes s) ->
     evolves (constrained (permission_profile r)) c ->
     sandbox_mode_requirement_for_permission_profile (value c) ∈ modes /\
     (Forall (fun m => m = ReqReadOnly) modes -> forall path cwd,
        can_write_path_with_cwd (file_system_sandbox_policy (value c)) path cwd = false)) /\
  (forall modes s c, w_allowed_web_search_modes w = Some (mkSourced modes s) ->
     evolves (constrained (web_search_mode r)) c ->
     value c = WebDisabled \/ web_search_requirement (value c) ∈ modes) /\
  (forall hooks s k c, w_hooks w = Some (mkSourced hooks s) -> managed_hooks r = Some k ->
     evolves (constrained k) c -> value c = hooks) /\
  (forall x s c, w_enforce_residency w = Some (mkSourced x s) ->
     evolves (constrained (enforce_residency r)) c -> value c = Some x).
Proof.
  unfold requirements_try_from. intros Hr.
  apply result_bind_Ok in Hr as (policy & Hpolicy & Hr). apply result_bind_Ok in Hr as (reviewer & Hrev & Hr).
  apply result_bind_Ok in Hr as (profile & Hprofile & Hr). apply result_bind_Ok in Hr as (exec & _ & Hr).
  apply result_bind_Ok in Hr as (web & Hweb & Hr). apply result_bind_Ok in Hr as (hooks & Hhooks & Hr).
  apply result_bind_Ok in Hr as (res & Hres & [= <-]). cbn. split_and!.
  - intros l s c Hl. rewrite Hl in Hpolicy. by apply (constrain_listed_keeps _ _ _ _ _ _ _ Hpolicy).
  - intros l s c Hl. rewrite Hl in Hrev. by apply (constrain_listed_keeps _ _ _ _ _ _ _ Hrev).
  - intros modes s c Hm Hc. rewrite Hm in Hprofile.
    pose proof (constrain_profile_keeps _ _ _ _ Hprofile Hc) as Hin. split; [done|].
    intros Hall path cwd. apply read_only_writes_nothing. rewrite Forall_forall in Hall. by apply Hall.
  - intros modes s c Hm. rewrite Hm in Hweb. by apply (constrain_web_search_keeps _ _ _ _ Hweb).
  - intros h s k c Hh Hk Hc. rewrite Hh, Hk in Hhooks. unfold constrain_hooks in Hhooks.
    destruct (0 <? handler_count h)%nat; [|done].
    destruct (constrain_equal "hooks" h s) as [k'|] eqn:E; [|done]. injection Hhooks as <-.
    by apply (constrain_equal_keeps _ _ _ _ _ E).
  - intros x s c Hx. rewrite Hx in Hres. by apply (constrain_equal_keeps _ _ _ _ _ Hres).
Qed.

Lemma new_accepted {T A} field (shown : T -> A) allowed s ok x :
  ok x = true -> exists c, with_source s <$> constrained_new x (accept_if field shown allowed s ok) = Ok c.
Proof. intros H. unfold constrained_new, accept_if. rewrite H. by eexists. Qed.

Lemma constrain_listed_ok {T} `{EqDecision T} n f (d : T) o :
  (exists c, constrain_listed n f d o = Ok c) <-> sourced_value <$> o <> Some [].
Proof.
  destruct o as [[[|x l] s]|]; cbn; [by split; [intros [??]|]| |by split; [|by eexists]].
  split; [done|]. intros _. apply new_accepted. apply bool_decide_eq_true. by left.
Qed.

Lemma constrain_profile_ok o :
  (exists c, constrain_profile o = Ok c) <->
  forall modes s, o = Some (mkSourced modes s) -> ReqReadOnly ∈ modes.
Proof.
  destruct o as [[modes s]|]; cbn; [|by split; [|by eexists]].
  destruct (decide (ReqReadOnly ∈ modes)) as [Hm|Hm].
  - rewrite bool_decide_true by done. cbn. split; [by intros _ ? ? [= <- <-]|]. intros _.
    apply new_accepted. by apply bool_decide_eq_true.
  - rewrite bool_decide_false by done. cbn. split; [by intros [??]|]. intros H. by destruct Hm; eapply H.
Qed.

Lemma constrain_web_search_ok o : exists c, constrain_web_search o = Ok c.
Proof.
  destruct o as [[modes s]|]; [|by eexists]. apply new_accepted. apply bool_decide_eq_true.
  destruct (decide (ReqCached ∈ accepted_modes modes)) as [Ec|Ec];
    [by rewrite (bool_decide_true (ReqCached ∈ _))|rewrite (bool_decide_false (ReqCached ∈ _)) by done].
  destruct (decide (ReqLive ∈ accepted_modes modes)) as [El|El];
    [by rewrite (bool_decide_true (ReqLive ∈ _))|rewrite (bool_decide_false (ReqLive ∈ _)) by done].
  apply accepted_modes_elem. by left.
Qed.

Lemma constrain_equal_ok {T} `{EqDecision T} f (x : T) s : exists c, constrain_equal f x s = Ok c.
Proof. apply new_accepted. by apply bool_decide_eq_true. Qed.

Lemma constrain_hooks_ok o : exists c, constrain_hooks o = Ok c.
Proof.
  destruct o as [[h s]|]; [|by eexists]. unfold constrain_hooks.
  destruct (0 <? handler_count h)%nat; [|by eexists].
  destruct (constrain_equal_ok "hooks" h s) as [c ->]. by eexists.
Qed.

Lemma constrain_residency_ok o : exists c, constrain_residency o = Ok c.
Proof. destruct o as [[x s]|]; cbn; [apply constrain_equal_ok|by eexists]. Qed.

Lemma constrain_rules_ok o :
  (exists c, constrain_rules o = Ok c) <->
  forall rules s, o = Some (mkSourced rules s) -> exists p, to_policy rules = Ok p.
Proof.
  destruct o as [[rules s]|]; cbn; [|by split; [|by eexists]].
  destruct (to_policy rules) as [p|e] eqn:E; split.
  - intros _ ? ? [= <- <-]. by exists p.
  - by eexists.
  - by intros [??].
  - intros H. destruct (H rules s eq_refl) as [p Hp]. congruence.
Qed.

(** When there is a configuration that meets the requirements. *)
Theorem requirements_satisfiable (w : ConfigRequirementsWithSources P) :
  (exists r, requirements_try_from w = Ok r) <->
  sourced_value <$> w_allowed_approval_policies w <> Some [] /\
  sourced_value <$> w_allowed_approvals_reviewers w <> Some [] /\
  (forall modes s, w_allowed_sandbox_modes w = Some (mkSourced modes s) -> ReqReadOnly ∈ modes) /\
  (forall rules s, w_rules w = Some (mkSourced rules s) -> exists p, to_policy rules = Ok p).
Proof.
  rewrite <- (constrain_listed_ok "allowed_approval_policies" "approval_policy" default_approval).
  rewrite <- (constrain_listed_ok "allowed_approvals_reviewers" "approvals_reviewer" default_reviewer).
  rewrite <- constrain_profile_ok, <- constrain_rules_ok. unfold requirements_try_from. split.
  - intros (r & Hr). apply result_bind_Ok in Hr as (c1 & H1 & Hr). apply result_bind_Ok in Hr as (c2 & H2 & Hr).
    apply result_bind_Ok in Hr as (c3 & H3 & Hr). apply result_bind_Ok in Hr as (c4 & H4 & _).
    split_and!; by eexists.
  - intros ([c1 H1] & [c2 H2] & [c3 H3] & [c4 H4]). rewrite H1, H2, H3, H4. cbn [mbind result_bind].
    destruct (constrain_web_search_ok (w_allowed_web_search_modes w)) as [c5 ->].
    destruct (constrain_hooks_ok (w_hooks w)) as [c6 ->].
    destruct (constrain_residency_ok (w_enforce_residency w)) as [c7 ->]. by eexists.
Qed.
End Bind.

(** ** Concrete requirements *)

Section Demo.
#[local] Instance no_debug : forall T, Debug T := fun _ _ => [].
#[local] Existing Instance demo_os.
Definition is_err {E A} (r : result E A) : Prop := match r with Ok _ => False | Err _ => True end.

Definition cloud_toml : ConfigRequirementsToml unit :=
  mkToml (Some [UnlessTrusted; OnRequest]) (Some [AutoReview]) (Some [ReqReadOnly]) None None
    (Some [ReqLive]) None None None None None None None
    (Some {["mail" : str := mkApp (Some true) None]}) None (Some Us) None None (Some (" " : str)).
Definition system_toml : ConfigRequirementsToml unit :=
  mkToml (Some [Never]) None (Some [ReqReadOnly; ReqDangerFullAccess]) None None None (Some true) None None
    None None None None
    (Some {["mail" : str := mkApp (Some false) (Some {["send" : str := mkAppTool (Some ApprovalPrompt)]})]})
    None None None None (Some ("be careful" : str)).
Definition system_file : RequirementSource := SystemRequirementsToml [RootDir; Normal "requirements.toml"].
Definition demo_sources := [(CloudRequirements, cloud_toml); (system_file, system_toml)].
Definition demo_with : ConfigRequirementsWithSources unit := merge_all demo_sources.
Definition demo_required : option ConfigRequirements :=
  match requirements_try_from demo_with with Ok r => Some r | Err _ => None end.

(** The sandbox modes of the cloud hide the wider ones of the system, the
    blank guardian policy does not hide the one of the system, and the app
    that the system disables is disabled. *)
Example demo_merge :
  w_allowed_sandbox_modes demo_with = Some (mkSourced [ReqReadOnly] CloudRequirements) /\
  w_guardian_policy_config demo_with = Some (mkSourced ("be careful" : str) system_file) /\
  enabled_in "mail" (apps_of demo_with) = Some false /\
  approval_in "mail" "send" (apps_of demo_with) = Some ApprovalPrompt.
Proof. by vm_compute. Qed.

Definition workspace_profile : PermissionProfile :=
  Managed (ManagedRestricted [SandboxEntry (Special Root) Read;
                              SandboxEntry (Special (ProjectRoots None)) Write] None) NetworkRestricted.

Example demo_profiles :
  match demo_required with
  | Some r =>
      is_err (set (constrained (permission_profile r)) workspace_profile) /\
      is_err (set (constrained (permission_profile r)) Disabled) /\
      value (constrained (web_search_mode r)) = WebLive
  | None => False
  end.
Proof. by vm_compute. Qed.

Lemma managed_requirements_bind_witness :
  match requirements_try_from demo_with with
  | Ok r => forall path cwd,
      can_write_path_with_cwd (file_system_sandbox_policy (value (constrained (permission_profile r))))
        path cwd = false
  | Err _ => False
  end.
Proof.
  destruct (requirements_try_from demo_with) as [r|e] eqn:E; [|by vm_compute in E].
  destruct (managed_requirements_bind demo_with r E) as (_ & _ & H & _).
  destruct (H [ReqReadOnly] CloudRequirements (constrained (permission_profile r))) as [_ Hw].
  - by vm_compute.
  - apply evolves_refl.
  - apply Hw. by repeat constructor.
Defined.
End Demo.
