(* ===== verification/NetworkProxySpec.v ===== *)
(** * The network proxy of a session

    [codex-rs/core/src/config/network_proxy_spec.rs]: the user's network
    configuration under the requirements of an administrator, the permission
    profile and the network rules of the exec policy. The theorem states that
    every specification a session can have keeps to the requirements. *)

From S2P Require Import Prelude RustStr Truncate AbsolutePath FsPolicy FsRoots FsLegacy.
From S2P Require Import Permissions ExecRule ExecPolicy IpAddr NetHost Requirements.
From S2P Require Import NetConfig MitmHook NetPolicy.
#[local] Open Scope str_scope.

(** [NetworkProxyConstraints::default] *)
Definition no_constraints : NetworkProxyConstraints :=
  mkConstraints None None None None None None None None None None None.

Section Spec.
Context {globs : Globs} {http : Http} {json : Json} {os : Os} {urls : Urls} {mitm_ : Mitm}.

Record NetworkProxySpec := mkSpec {
  base_config : NetworkProxyConfig;
  requirements : option NetworkConstraints;
  spec_config : NetworkProxyConfig;
  spec_constraints : NetworkProxyConstraints;
  hard_deny_allowlist_misses : bool
}.

Definition spec_enabled (self : NetworkProxySpec) : bool := enabled (network (spec_config self)).
Definition proxy_host_and_port (self : NetworkProxySpec) : str :=
  host_and_port_from_network_addr (proxy_url (network (spec_config self))) 3128.
Definition socks_enabled (self : NetworkProxySpec) : bool :=
  enable_socks5 (network (spec_config self)).

Definition managed_sandbox_active (permission_profile : PermissionProfile) : bool :=
  match permission_profile with Managed _ _ => true | _ => false end.
Definition is_allowlist_expansion_enabled (permission_profile : PermissionProfile)
    (hard_deny_allowlist_misses : bool) : bool :=
  managed_sandbox_active permission_profile && negb hard_deny_allowlist_misses.
Definition managed_allowed_domains_only (requirements : NetworkConstraints) : bool :=
  default false (nc_managed_allowed_domains_only requirements).
Definition is_denylist_expansion_enabled (permission_profile : PermissionProfile) : bool :=
  managed_sandbox_active permission_profile.

Definition merge_domain_lists (managed user_entries : list str) : list str :=
  fold_left (fun managed entry =>
    if existsb (fun managed_entry => bool_decide (to_ascii_lowercase managed_entry = to_ascii_lowercase entry)) managed
    then managed else managed ++ [entry]) user_entries managed.

(** The configuration and the constraints as [apply_requirements] goes on. *)
Abbreviation Applied := (NetworkProxySettings * NetworkProxyConstraints)%type.

Definition over {A} (o : option A) (f : A -> Applied -> Applied) (s : Applied) : Applied :=
  match o with Some a => f a s | None => s end.

Definition loopback_url (port : N) : str := "http://127.0.0.1:" ++ format_number port.

(** Assignments of the settings and of the constraints. *)
Definition with_flags (n : NetworkProxySettings) (enabled_ upstream non_loopback all_sockets local : bool)
    (proxy socks : str) : NetworkProxySettings :=
  mkSettings json enabled_ proxy (enable_socks5 n) socks (enable_socks5_udp n) upstream non_loopback
    all_sockets (mode n) (domains n) (unix_sockets n) local (mitm n) (mitm_hooks n).

Definition apply_flags (r : NetworkConstraints) (s : Applied) : Applied :=
  let '(n, c) := s in
  let pick {A} (o : option A) (old : A) : A := default old o in
  (with_flags n (pick (nc_enabled r) (enabled n)) (pick (nc_allow_upstream_proxy r) (allow_upstream_proxy n))
     (pick (nc_dangerously_allow_non_loopback_proxy r) (dangerously_allow_non_loopback_proxy n))
     (pick (nc_dangerously_allow_all_unix_sockets r) (dangerously_allow_all_unix_sockets n))
     (allow_local_binding n)
     (match nc_http_port r with Some port => loopback_url port | None => proxy_url n end)
     (match nc_socks_port r with Some port => loopback_url port | None => socks_url n end),
   mkConstraints (nc_enabled r) (c_mode c) (nc_allow_upstream_proxy r)
     (nc_dangerously_allow_non_loopback_proxy r) (nc_dangerously_allow_all_unix_sockets r)
     (c_allowed_domains c) (allowlist_expansion_enabled c) (c_denied_domains c)
     (denylist_expansion_enabled c) (c_allow_unix_sockets c) (c_allow_local_binding c)).

Definition set_allowed_constraint (c : NetworkProxyConstraints) (l : list str) (expansion : bool) :=
  mkConstraints (c_enabled c) (c_mode c) (c_allow_upstream_proxy c)
    (c_dangerously_allow_non_loopback_proxy c) (c_dangerously_allow_all_unix_sockets c)
    (Some l) (Some expansion) (c_denied_domains c) (denylist_expansion_enabled c)
    (c_allow_unix_sockets c) (c_allow_local_binding c).
Definition set_denied_constraint (c : NetworkProxyConstraints) (l : list str) (expansion : bool) :=
  mkConstraints (c_enabled c) (c_mode c) (c_allow_upstream_proxy c)
    (c_dangerously_allow_non_loopback_proxy c) (c_dangerously_allow_all_unix_sockets c)
    (c_allowed_domains c) (allowlist_expansion_enabled c) (Some l) (Some expansion)
    (c_allow_unix_sockets c) (c_allow_local_binding c).
Definition set_sockets_constraint (c : NetworkProxyConstraints) (l : list str) :=
  mkConstraints (c_enabled c) (c_mode c) (c_allow_upstream_proxy c)
    (c_dangerously_allow_non_loopback_proxy c) (c_dangerously_allow_all_unix_sockets c)
    (c_allowed_domains c) (allowlist_expansion_enabled c) (c_denied_domains c)
    (denylist_expansion_enabled c) (Some l) (c_allow_local_binding c).
Definition set_local_binding_constraint (c : NetworkProxyConstraints) (b : bool) :=
  mkConstraints (c_enabled c) (c_mode c) (c_allow_upstream_proxy c)
    (c_dangerously_allow_non_loopback_proxy c) (c_dangerously_allow_all_unix_sockets c)
    (c_allowed_domains c) (allowlist_expansion_enabled c) (c_denied_domains c)
    (denylist_expansion_enabled c) (c_allow_unix_sockets c) (Some b).

Definition managed_allowed (r : NetworkConstraints) (hard_deny : bool) : option (list str) :=
  let listed := d ← nc_domains r; toml_allowed_domains d in
  if hard_deny then Some (default [] listed) else listed.
Definition managed_denied (r : NetworkConstraints) : option (list str) :=
  d ← nc_domains r; toml_denied_domains d.

Definition apply_allowed (expansion : bool) (managed : list str) (s : Applied) : Applied :=
  let '(n, c) := s in
  let effective := if expansion then merge_domain_lists managed (default [] (allowed_domains n)) else managed in
  (set_allowed_domains n effective, set_allowed_constraint c managed expansion).
Definition apply_denied (expansion : bool) (managed : list str) (s : Applied) : Applied :=
  let '(n, c) := s in
  let effective := if expansion then merge_domain_lists managed (default [] (denied_domains n)) else managed in
  (set_denied_domains n effective, set_denied_constraint c managed expansion).
Definition apply_sockets (sockets : list (str * NetworkUnixSocketPermissionToml)) (s : Applied) : Applied :=
  let '(n, c) := s in
  let l := toml_allow_unix_sockets sockets in
  (set_allow_unix_sockets n l, set_sockets_constraint c l).
Definition apply_local_binding (b : bool) (s : Applied) : Applied :=
  let '(n, c) := s in
  (with_flags n (enabled n) (allow_upstream_proxy n) (dangerously_allow_non_loopback_proxy n)
     (dangerously_allow_all_unix_sockets n) b (proxy_url n) (socks_url n),
   set_local_binding_constraint c b).

Definition apply_requirements (config : NetworkProxyConfig) (r : NetworkConstraints)
    (permission_profile : PermissionProfile) (hard_deny : bool)
  : NetworkProxyConfig * NetworkProxyConstraints :=
  let s := apply_flags r (network config, no_constraints) in
  let s := over (managed_allowed r hard_deny)
             (apply_allowed (is_allowlist_expansion_enabled permission_profile hard_deny)) s in
  let s := over (managed_denied r) (apply_denied (is_denylist_expansion_enabled permission_profile)) s in
  let s := over (nc_unix_sockets r) apply_sockets s in
  let '(n, c) := over (nc_allow_local_binding r) apply_local_binding s in
  (mkConfig json n, c).

(** The [io::Error] of a constraint error. *)
Definition check_constraints (config : NetworkProxyConfig) (c : NetworkProxyConstraints)
  : result NetworkProxyConstraintError unit :=
  validate_policy_against_constraints config c.

Definition from_config_and_constraints (config : NetworkProxyConfig)
    (requirements : option NetworkConstraints) (permission_profile : PermissionProfile)
  : result NetworkProxyConstraintError NetworkProxySpec :=
  let hard_deny := match requirements with Some r => managed_allowed_domains_only r | None => false end in
  let '(applied, constraints) :=
    match requirements with
    | Some r => apply_requirements config r permission_profile hard_deny
    | None => (config, no_constraints)
    end in
  _ ← check_constraints applied constraints;
  mret (mkSpec config requirements applied constraints hard_deny).

Definition recompute_for_permission_profile (self : NetworkProxySpec)
    (permission_profile : PermissionProfile) : result NetworkProxyConstraintError NetworkProxySpec :=
  from_config_and_constraints (base_config self) (requirements self) permission_profile.

(** [upsert_network_domains]: a host is edited once. *)
Definition upsert_network_domains (n : NetworkProxySettings) (hosts : list str) (allow : bool)
  : NetworkProxySettings :=
  fst (fold_left (fun s host =>
    let '(n, incoming) := s in
    if bool_decide (host ∈ incoming) then (n, incoming)
    else (upsert_domain_permission n host (if allow then DomainAllow else DomainDeny) normalize_host,
          {[host]} ∪ incoming)) hosts (n, (∅ : gset str))).

Definition apply_exec_policy_network_rules (config : NetworkProxyConfig) (exec_policy : Policy)
  : NetworkProxyConfig :=
  let '(allowed_domains, denied_domains) := compiled_network_domains exec_policy in
  mkConfig json
    (upsert_network_domains (upsert_network_domains (network config) allowed_domains true)
       denied_domains false).

Definition with_exec_policy_network_rules (self : NetworkProxySpec) (exec_policy : Policy)
  : result NetworkProxyConstraintError NetworkProxySpec :=
  let config := apply_exec_policy_network_rules (spec_config self) exec_policy in
  _ ← check_constraints config (spec_constraints self);
  mret (mkSpec (base_config self) (requirements self) config (spec_constraints self)
          (hard_deny_allowlist_misses self)).

Definition build_config_state_for_spec (env_var : str -> option str) (self : NetworkProxySpec)
  : result Anyhow ConfigState :=
  build_config_state env_var (spec_config self) (spec_constraints self).

(** The decider of [start_proxy]; [ask] is the one it makes of its own. *)
Definition start_decider {D} (self : NetworkProxySpec) (permission_profile : PermissionProfile)
    (policy_decider : option D) (ask : D) (enable_network_approval_flow : bool) : option D :=
  if enable_network_approval_flow && negb (hard_deny_allowlist_misses self) then
    match policy_decider with
    | Some policy_decider => Some policy_decider
    | None => if managed_sandbox_active permission_profile then Some ask else None
    end
  else None.

(** The specifications a session can have. *)
Inductive spec_state : PermissionProfile -> NetworkProxySpec -> Prop :=
| spec_from config r p s : from_config_and_constraints config r p = Ok s -> spec_state p s
| spec_recompute q s p s' :
    spec_state q s -> recompute_for_permission_profile s p = Ok s' -> spec_state p s'
| spec_rules p s policy s' :
    spec_state p s -> with_exec_policy_network_rules s policy = Ok s' -> spec_state p s'.
End Spec.

Section Facts.
Context {globs : Globs} {http : Http} {json : Json} {os : Os} {urls : Urls} {mitm_ : Mitm}.
Implicit Types (n : NetworkProxySettings) (s : NetworkProxySpec) (p : PermissionProfile).

(** What a requirement fixes of the settings, their domains apart. *)
Record flags_fixed (r : NetworkConstraints) n : Prop := {
  fixed_enabled b : nc_enabled r = Some b -> enabled n = b;
  fixed_upstream b : nc_allow_upstream_proxy r = Some b -> allow_upstream_proxy n = b;
  fixed_non_loopback b :
    nc_dangerously_allow_non_loopback_proxy r = Some b -> dangerously_allow_non_loopback_proxy n = b;
  fixed_all_sockets b :
    nc_dangerously_allow_all_unix_sockets r = Some b -> dangerously_allow_all_unix_sockets n = b;
  fixed_local_binding b : nc_allow_local_binding r = Some b -> allow_local_binding n = b;
  fixed_http_port port : nc_http_port r = Some port -> proxy_url n = loopback_url port;
  fixed_socks_port port : nc_socks_port r = Some port -> socks_url n = loopback_url port
}.

(** The constraints that go with a requirement. *)
Record constraints_of (r : NetworkConstraints) p (hard : bool) (c : NetworkProxyConstraints) : Prop := {
  of_allowed : c_allowed_domains c = managed_allowed r hard;
  of_allow_expansion l :
    managed_allowed r hard = Some l -> allowlist_expansion_enabled c = Some (is_allowlist_expansion_enabled p hard);
  of_denied : c_denied_domains c = managed_denied r;
  of_deny_expansion l :
    managed_denied r = Some l -> denylist_expansion_enabled c = Some (is_denylist_expansion_enabled p);
  of_sockets : c_allow_unix_sockets c = toml_allow_unix_sockets <$> nc_unix_sockets r;
  of_all_sockets : c_dangerously_allow_all_unix_sockets c = nc_dangerously_allow_all_unix_sockets r
}.

Lemma apply_requirements_spec config r p hard :
  flags_fixed r (network (fst (apply_requirements config r p hard))) /\
  constraints_of r p hard (snd (apply_requirements config r p hard)).
Proof.
  unfold apply_requirements, over. destruct (managed_allowed r hard) as [a|] eqn:Ea, (managed_denied r) as [d|] eqn:Ed,
    (nc_unix_sockets r) as [u|] eqn:Eu, (nc_allow_local_binding r) as [b|] eqn:Eb;
    (split; split; cbn; rewrite ?Ea, ?Ed, ?Eu, ?Eb; try done;
     intros ? H; rewrite ?H; first [done | discriminate H | by injection H as <-]).
Qed.

(** The edits of domains touch nothing else. *)
Lemma upsert_network_domains_domains n hosts allow :
  exists d, upsert_network_domains n hosts allow = set_domains n d.
Proof.
  unfold upsert_network_domains.
  assert (exists d, n = set_domains n d) as Hn by (exists (domains n); by destruct n).
  revert Hn. generalize n at 1 3. generalize (∅ : gset str).
  induction hosts as [|h hosts IH]; intros seen m Hm; [exact Hm|]. cbn [fold_left].
  destruct (bool_decide _); [by apply IH|]. apply IH. destruct Hm as [d ->]. by eexists.
Qed.

(** What a specification keeps: it was checked, and its constraints are those
    of its requirements. *)
Record spec_ok p s : Prop := {
  ok_checked : is_ok (validate_policy_against_constraints (spec_config s) (spec_constraints s)) = true;
  ok_hard r : requirements s = Some r -> hard_deny_allowlist_misses s = managed_allowed_domains_only r;
  ok_flags r : requirements s = Some r -> flags_fixed r (network (spec_config s));
  ok_constraints r :
    requirements s = Some r -> constraints_of r p (managed_allowed_domains_only r) (spec_constraints s)
}.

Lemma from_config_ok config r p s : from_config_and_constraints config r p = Ok s -> spec_ok p s.
Proof.
  unfold from_config_and_constraints. destruct r as [r|].
  - pose proof (apply_requirements_spec config r p (managed_allowed_domains_only r)) as [Hf Hc].
    destruct (apply_requirements _ _ _ _) as [applied c]. cbn [fst snd] in *.
    intros (u & Hu & [= <-])%result_bind_Ok. unfold check_constraints in Hu.
    split; cbn; [by rewrite Hu|by intros ? [= <-]..].
  - intros (u & Hu & [= <-])%result_bind_Ok. unfold check_constraints in Hu.
    split; cbn; [by rewrite Hu|done..].
Qed.

Lemma flags_fixed_domains r n d : flags_fixed r n -> flags_fixed r (set_domains n d).
Proof. by intros []; split. Qed.

Lemma spec_state_ok p s : spec_state p s -> spec_ok p s.
Proof.
  induction 1 as [config r p s Hs|q s p s' _ _ Hs|p s policy s' _ [Hv Hh Hf Hc] Hs];
    [by eapply from_config_ok..|].
  unfold with_exec_policy_network_rules in Hs. apply result_bind_Ok in Hs as (u & Hu & [= <-]).
  split; cbn; [unfold check_constraints in Hu; by rewrite Hu|done| |done].
  intros r Hr. unfold apply_exec_policy_network_rules.
  destruct (compiled_network_domains policy) as [allowed denied]. cbn [network].
  destruct (upsert_network_domains_domains (network (spec_config s)) allowed true) as [d1 ->].
  destruct (upsert_network_domains_domains (set_domains (network (spec_config s)) d1) denied false) as [d2 ->].
  by apply flags_fixed_domains, flags_fixed_domains, Hf.
Qed.
End Facts.

Section Claims.
Context {globs : Globs} {http : Http} {json : Json} {os : Os} {urls : Urls} {mitm_ : Mitm}.

(** C19. Every specification a session can have keeps to its requirements,
    whatever the user configures and the exec policy rules say: the flags and
    the ports are the required ones; every managed deny is in force; with
    [managed_allowed_domains_only], or without a managed sandbox, the allowed
    domains are managed ones, and without a managed sandbox the denied ones
    too; the unix sockets are managed ones, and all of them are open only
    where the requirements say so; and with [managed_allowed_domains_only] no
    decider is asked about a domain that is not allowed. *)
Theorem spec_keeps_requirements p s r :
  spec_state p s -> requirements s = Some r ->
  let n := network (spec_config s) in
  let allowed := default [] (allowed_domains n) in
  let denied := default [] (denied_domains n) in
  flags_fixed r n /\
  (forall d, d ∈ default [] (managed_denied r) -> listed d denied) /\
  (managed_allowed_domains_only r = true ->
     forall d, d ∈ allowed -> listed d (default [] (managed_allowed r true))) /\
  (managed_sandbox_active p = false -> forall l, managed_allowed r false = Some l ->
     forall d, d ∈ allowed -> listed d l) /\
  (managed_sandbox_active p = false -> forall l, managed_denied r = Some l ->
     forall d, d ∈ denied -> listed d l) /\
  (forall sockets, nc_unix_sockets r = Some sockets ->
     (forall x, x ∈ allow_unix_sockets n -> listed x (toml_allow_unix_sockets sockets)) /\
     (nc_dangerously_allow_all_unix_sockets r <> Some true -> dangerously_allow_all_unix_sockets n = false)) /\
  (managed_allowed_domains_only r = true -> forall D p' (decider : option D) ask flow,
     start_decider s p' decider ask flow = None).
Proof.
  intros Hs Hr. destruct (spec_state_ok _ _ Hs) as [Hv Hh Hf Hc].
  destruct (Hc r Hr) as [Ha Hae Hd Hde Hu Hall]. apply validate_policy_spec in Hv as (_ & _ & Hw).
  cbn zeta. split_and!.
  - by apply Hf.
  - intros d Hin. destruct (managed_denied r) as [l|] eqn:E; [|by apply elem_of_nil in Hin].
    destruct (w_denied _ _ Hw l Hd) as (_ & H & _). by apply H.
  - intros Hhard d Hin. rewrite Hhard in Ha, Hae. cbn in Ha.
    destruct (w_allowed _ _ Hw _ Ha) as [_ H]. rewrite (Hae _ eq_refl) in H.
    unfold is_allowlist_expansion_enabled in H. rewrite andb_false_r in H. by apply H.
  - intros Hp l Hl d Hin. assert (exists l', managed_allowed r (managed_allowed_domains_only r) = Some l'
      /\ l' = l) as (l' & Hl' & ->).
    { unfold managed_allowed in *. destruct (managed_allowed_domains_only r); [|by exists l].
      rewrite Hl. by exists l. }
    rewrite Hl' in Ha. destruct (w_allowed _ _ Hw _ Ha) as [_ H]. rewrite (Hae _ Hl') in H.
    unfold is_allowlist_expansion_enabled in H. rewrite Hp in H. by apply H.
  - intros Hp l Hl d Hin. rewrite Hl in Hd. destruct (w_denied _ _ Hw l Hd) as (_ & _ & H).
    apply H; [|done]. rewrite (Hde _ Hl). unfold is_denylist_expansion_enabled. by rewrite Hp.
  - intros sockets Hk. rewrite Hk in Hu. cbn in Hu. split.
    + intros x Hx. by apply (w_sockets _ _ Hw _ x Hu).
    + intros Hn. apply (w_all_sockets _ _ Hw). rewrite Hall, Hu.
      destruct (nc_dangerously_allow_all_unix_sockets r) as [[]|]; [done|by left|by right].
  - intros Hhard D p' decider ask flow. unfold start_decider. rewrite (Hh r Hr), Hhard, andb_false_r. done.
Qed.
End Claims.

(** ** A concrete session *)

Section Demo.
Definition spec_mitm : Mitm := {| MitmState := unit; MitmState_new _ _ := Ok tt |}.
#[local] Existing Instances wildcards demo_http demo_json demo_os demo_urls spec_mitm.

Definition demo_required : NetworkConstraints :=
  mkNetConstraints (Some true) (Some 8888%N) None None (Some false) None
    (Some [("evil.com" : str, TomlDenyDomain); ("ok.com" : str, TomlAllowDomain)])
    (Some true) None (Some false).
Definition demo_user : NetworkProxyConfig :=
  mkConfig _ (set_allowed_domains default_settings ["news.com" : str; "OK.com"]).
Definition demo_managed : PermissionProfile := read_only.

Definition demo_spec : option NetworkProxySpec :=
  match from_config_and_constraints demo_user (Some demo_required) demo_managed with
  | Ok s => Some s
  | Err _ => None
  end.

Example demo_domains :
  match demo_spec with
  | Some s =>
      allowed_domains (network (spec_config s)) = Some ["ok.com" : str] /\
      denied_domains (network (spec_config s)) = Some ["evil.com" : str] /\
      proxy_url (network (spec_config s)) = "http://127.0.0.1:8888"
  | None => False
  end.
Proof. by vm_compute. Qed.

(** A rule that allows a managed deny is refused, not applied. *)
Definition allow_evil : Policy :=
  mkPolicy ∅ [mkNetworkRule "evil.com" Https Allow None] ∅.
Definition deny_more : Policy :=
  mkPolicy ∅ [mkNetworkRule "worse.com" Https Forbidden None] ∅.
Example demo_rules :
  match demo_spec with
  | Some s =>
      is_ok (with_exec_policy_network_rules s allow_evil) = false /\
      match with_exec_policy_network_rules s deny_more with
      | Ok s => denied_domains (network (spec_config s)) = Some ["evil.com" : str; "worse.com"]
      | Err _ => False
      end
  | None => False
  end.
Proof. by vm_compute. Qed.

Lemma spec_keeps_requirements_witness :
  match from_config_and_constraints demo_user (Some demo_required) demo_managed with
  | Ok s => listed "evil.com" (default [] (denied_domains (network (spec_config s))))
  | Err _ => False
  end.
Proof.
  destruct (from_config_and_constraints _ _ _) as [s|e] eqn:E; [|by vm_compute in E].
  assert (requirements s = Some demo_required) as Hr by by vm_compute in E; injection E as <-.
  destruct (spec_keeps_requirements demo_managed s demo_required (spec_from _ _ _ _ E) Hr) as (_ & H & _).
  apply H. by left.
Defined.
End Demo.
