(* ===== verification/HookOutput.v ===== *)
(** * What a hook says

    [codex-rs/hooks/src/schema.rs] (the output of a hook's command) and
    [engine/output_parser.rs]: the JSON object a hook prints on its standard
    output, and how each event reads it: which outputs block, stop, decide or
    rewrite, and which are invalid. The deserialisation of the wire types is
    derived code over [serde_json], so it is a parameter ([HookJson]). *)

From S2P Require Import Prelude RustStr HookConfig.
#[local] Open Scope str_scope.

(** ** The wire types ([schema.rs]) *)

Record HookUniversalOutputWire := mkUniversalWire {
  wire_continue : bool;
  wire_stop_reason : option str;
  wire_suppress_output : bool;
  wire_system_message : option str
}.

Inductive BlockDecisionWire := BlockWire.
Inductive PreToolUseDecisionWire := DecisionApprove | DecisionBlock.
Inductive PreToolUsePermissionDecisionWire := PermissionAllow | PermissionDeny | PermissionAsk.
Inductive PermissionRequestBehaviorWire := BehaviorAllow | BehaviorDeny.

(** The JSON values of [serde_json]. *)
Record PreToolUseHookSpecificOutputWire (Value : Type) := mkPreToolUseSpecific {
  pre_hook_event_name : HookEventName;
  permission_decision : option PreToolUsePermissionDecisionWire;
  permission_decision_reason : option str;
  pre_updated_input : option Value;
  pre_additional_context : option str
}.
Arguments mkPreToolUseSpecific {Value} _ _ _ _ _.
Arguments pre_hook_event_name {Value} _.
Arguments permission_decision {Value} _.
Arguments permission_decision_reason {Value} _.
Arguments pre_updated_input {Value} _.
Arguments pre_additional_context {Value} _.

Record PreToolUseCommandOutputWire (Value : Type) := mkPreToolUseWire {
  pre_universal : HookUniversalOutputWire;
  pre_decision : option PreToolUseDecisionWire;
  pre_reason : option str;
  pre_specific : option (PreToolUseHookSpecificOutputWire Value)
}.
Arguments mkPreToolUseWire {Value} _ _ _ _.
Arguments pre_universal {Value} _.
Arguments pre_decision {Value} _.
Arguments pre_reason {Value} _.
Arguments pre_specific {Value} _.

Record PermissionRequestDecisionWire (Value : Type) := mkDecisionWire {
  behavior : PermissionRequestBehaviorWire;
  permission_updated_input : option Value;
  updated_permissions : option Value;
  message : option str;
  interrupt : bool
}.
Arguments mkDecisionWire {Value} _ _ _ _ _.
Arguments behavior {Value} _.
Arguments permission_updated_input {Value} _.
Arguments updated_permissions {Value} _.
Arguments message {Value} _.
Arguments interrupt {Value} _.

Record PermissionRequestHookSpecificOutputWire (Value : Type) := mkPermissionSpecific {
  permission_hook_event_name : HookEventName;
  permission_wire_decision : option (PermissionRequestDecisionWire Value)
}.
Arguments mkPermissionSpecific {Value} _ _.
Arguments permission_hook_event_name {Value} _.
Arguments permission_wire_decision {Value} _.

Record PermissionRequestCommandOutputWire (Value : Type) := mkPermissionWire {
  permission_universal : HookUniversalOutputWire;
  permission_specific : option (PermissionRequestHookSpecificOutputWire Value)
}.
Arguments mkPermissionWire {Value} _ _.
Arguments permission_universal {Value} _.
Arguments permission_specific {Value} _.

Record PostToolUseHookSpecificOutputWire (Value : Type) := mkPostToolUseSpecific {
  post_hook_event_name : HookEventName;
  post_additional_context : option str;
  updated_mcp_tool_output : option Value
}.
Arguments mkPostToolUseSpecific {Value} _ _ _.
Arguments post_hook_event_name {Value} _.
Arguments post_additional_context {Value} _.
Arguments updated_mcp_tool_output {Value} _.

Record PostToolUseCommandOutputWire (Value : Type) := mkPostToolUseWire {
  post_universal : HookUniversalOutputWire;
  post_decision : option BlockDecisionWire;
  post_reason : option str;
  post_specific : option (PostToolUseHookSpecificOutputWire Value)
}.
Arguments mkPostToolUseWire {Value} _ _ _ _.
Arguments post_universal {Value} _.
Arguments post_decision {Value} _.
Arguments post_reason {Value} _.
Arguments post_specific {Value} _.

(** [SessionStartHookSpecificOutputWire] and
    [UserPromptSubmitHookSpecificOutputWire] hold the same fields. *)
Record ContextHookSpecificOutputWire := mkContextSpecific {
  context_hook_event_name : HookEventName;
  context_additional_context : option str
}.

(** [SessionStartCommandOutputWire] and [SubagentStartCommandOutputWire]. *)
Record SessionStartCommandOutputWire := mkSessionStartWire {
  start_universal : HookUniversalOutputWire;
  start_specific : option ContextHookSpecificOutputWire
}.

Record UserPromptSubmitCommandOutputWire := mkUserPromptWire {
  prompt_universal : HookUniversalOutputWire;
  prompt_decision : option BlockDecisionWire;
  prompt_reason : option str;
  prompt_specific : option ContextHookSpecificOutputWire
}.

(** [StopCommandOutputWire] and [SubagentStopCommandOutputWire]. *)
Record StopCommandOutputWire := mkStopWire {
  stop_universal : HookUniversalOutputWire;
  stop_decision : option BlockDecisionWire;
  stop_wire_reason : option str
}.

(** [PreCompactCommandOutputWire] and [PostCompactCommandOutputWire]. *)
Record CompactCommandOutputWire := mkCompactWire { compact_universal : HookUniversalOutputWire }.

(** ** [serde_json] *)

Class HookJson (Value : Type) := {
  from_str : str -> option Value;
  is_object : Value -> bool;
  pre_tool_use_wire : Value -> option (PreToolUseCommandOutputWire Value);
  permission_request_wire : Value -> option (PermissionRequestCommandOutputWire Value);
  post_tool_use_wire : Value -> option (PostToolUseCommandOutputWire Value);
  pre_compact_wire : Value -> option CompactCommandOutputWire;
  post_compact_wire : Value -> option CompactCommandOutputWire;
  session_start_wire : Value -> option SessionStartCommandOutputWire;
  subagent_start_wire : Value -> option SessionStartCommandOutputWire;
  user_prompt_submit_wire : Value -> option UserPromptSubmitCommandOutputWire;
  stop_wire : Value -> option StopCommandOutputWire;
  subagent_stop_wire : Value -> option StopCommandOutputWire
}.

(** ** The parsed outputs *)

Record UniversalOutput := mkUniversal {
  continue_processing : bool;
  stop_reason : option str;
  suppress_output : bool;
  system_message : option str
}.

Record SessionStartOutput := mkSessionStartOutput {
  so_universal : UniversalOutput;
  so_additional_context : option str
}.

Record PreToolUseOutput (Value : Type) := mkPreToolUseOutput {
  po_universal : UniversalOutput;
  po_block_reason : option str;
  po_additional_context : option str;
  po_updated_input : option Value;
  po_invalid_reason : option str
}.
Arguments mkPreToolUseOutput {Value} _ _ _ _ _.
Arguments po_universal {Value} _.
Arguments po_block_reason {Value} _.
Arguments po_additional_context {Value} _.
Arguments po_updated_input {Value} _.
Arguments po_invalid_reason {Value} _.

Inductive PermissionRequestDecision := PermissionAllowed | PermissionDenied (message : str).

#[export] Instance PermissionRequestDecision_eq_dec : EqDecision PermissionRequestDecision.
Proof. solve_decision. Defined.

Record PermissionRequestOutput := mkPermissionOutput {
  ro_universal : UniversalOutput;
  ro_decision : option PermissionRequestDecision;
  ro_invalid_reason : option str
}.

Record PostToolUseOutput := mkPostToolUseOutput {
  to_universal : UniversalOutput;
  to_should_block : bool;
  to_reason : option str;
  to_invalid_block_reason : option str;
  to_additional_context : option str;
  to_invalid_reason : option str
}.

Record UserPromptSubmitOutput := mkUserPromptOutput {
  uo_universal : UniversalOutput;
  uo_should_block : bool;
  uo_reason : option str;
  uo_invalid_block_reason : option str;
  uo_additional_context : option str
}.

Record StopOutput := mkStopOutput {
  st_universal : UniversalOutput;
  st_should_block : bool;
  st_reason : option str;
  st_invalid_block_reason : option str
}.

(** [PreCompactOutput] and [StatelessHookOutput]. *)
Record StatelessHookOutput := mkStatelessOutput {
  co_universal : UniversalOutput;
  co_invalid_reason : option str
}.

(** ** Reading *)

(** [Option::or_else]. *)
Definition or_else {A} (o : option A) (f : option A) : option A :=
  match o with Some a => Some a | None => f end.

Definition is_some {A} (o : option A) : bool := match o with Some _ => true | None => false end.

Definition universal_from (value : HookUniversalOutputWire) : UniversalOutput :=
  mkUniversal (wire_continue value) (wire_stop_reason value) (wire_suppress_output value)
    (wire_system_message value).

Definition trimmed_reason (reason : str) : option str :=
  let trimmed := trim reason in
  if is_empty trimmed then None else Some trimmed.

Definition looks_like_json (stdout : str) : bool :=
  let trimmed := trim_start stdout in
  starts_with trimmed "{" || starts_with trimmed "[".

Definition invalid_block_message (event_name : str) : str :=
  event_name ++ " hook returned decision:block without a non-empty reason".

Definition invalid_pre_tool_use_reason_message : str :=
  "PreToolUse hook returned permissionDecision:deny without a non-empty permissionDecisionReason".

Definition unsupported_pre_tool_use_universal (universal : UniversalOutput) : option str :=
  if negb (continue_processing universal)
  then Some "PreToolUse hook returned unsupported continue:false"
  else if is_some (stop_reason universal)
  then Some "PreToolUse hook returned unsupported stopReason"
  else if suppress_output universal
  then Some "PreToolUse hook returned unsupported suppressOutput"
  else None.

Definition unsupported_permission_request_universal (universal : UniversalOutput) : option str :=
  if negb (continue_processing universal)
  then Some "PermissionRequest hook returned unsupported continue:false"
  else if is_some (stop_reason universal)
  then Some "PermissionRequest hook returned unsupported stopReason"
  else if suppress_output universal
  then Some "PermissionRequest hook returned unsupported suppressOutput"
  else None.

Definition unsupported_post_tool_use_universal (universal : UniversalOutput) : option str :=
  if suppress_output universal then Some "PostToolUse hook returned unsupported suppressOutput"
  else None.

Definition unsupported_pre_tool_use_legacy_decision (decision : option PreToolUseDecisionWire)
    (reason : option str) : option str :=
  match decision with
  | Some DecisionApprove => Some "PreToolUse hook returned unsupported decision:approve"
  | Some DecisionBlock =>
      if is_some (reason ≫= trimmed_reason) then None
      else Some (invalid_block_message "PreToolUse")
  | None =>
      if is_some reason then Some "PreToolUse hook returned reason without decision" else None
  end.

(** A block without a reason that is not blank. *)
Definition blank_reason (reason : option str) : bool :=
  match reason with Some reason => is_empty (trim reason) | None => true end.

Section Parser.
Context {Value : Type} {json : HookJson Value}.

Definition parse_json {T} (from_value : Value -> option T) (stdout : str) : option T :=
  let trimmed := trim stdout in
  if is_empty trimmed then None
  else
    value ← from_str trimmed;
    if is_object value then from_value value else None.

Definition unsupported_permission_request_hook_specific_output
    (decision : option (PermissionRequestDecisionWire Value)) : option str :=
  decision ← decision;
  if is_some (permission_updated_input decision)
  then Some "PermissionRequest hook returned unsupported updatedInput"
  else if is_some (updated_permissions decision)
  then Some "PermissionRequest hook returned unsupported updatedPermissions"
  else if interrupt decision
  then Some "PermissionRequest hook returned unsupported interrupt:true"
  else None.

Definition permission_request_decision (decision : PermissionRequestDecisionWire Value)
  : PermissionRequestDecision :=
  match behavior decision with
  | BehaviorAllow => PermissionAllowed
  | BehaviorDeny =>
      PermissionDenied (default "PermissionRequest hook denied approval"
                          (message decision ≫= trimmed_reason))
  end.

Definition unsupported_post_tool_use_hook_specific_output
    (output : PostToolUseHookSpecificOutputWire Value) : option str :=
  if is_some (updated_mcp_tool_output output)
  then Some "PostToolUse hook returned unsupported updatedMCPToolOutput"
  else None.

Definition unsupported_pre_tool_use_hook_specific_output
    (output : PreToolUseHookSpecificOutputWire Value) : option str :=
  let allows := match permission_decision output with Some PermissionAllow => true | _ => false end in
  if is_some (pre_updated_input output) && negb allows
  then Some "PreToolUse hook returned updatedInput without permissionDecision:allow"
  else
    match permission_decision output with
    | Some PermissionAllow =>
        if is_some (pre_updated_input output) then None
        else Some "PreToolUse hook returned unsupported permissionDecision:allow"
    | Some PermissionAsk => Some "PreToolUse hook returned unsupported permissionDecision:ask"
    | Some PermissionDeny =>
        if is_some (permission_decision_reason output ≫= trimmed_reason) then None
        else Some invalid_pre_tool_use_reason_message
    | None =>
        if is_some (permission_decision_reason output)
        then Some "PreToolUse hook returned permissionDecisionReason without permissionDecision"
        else None
    end.

Definition session_start_output (universal : HookUniversalOutputWire)
    (hook_specific_output : option ContextHookSpecificOutputWire) : SessionStartOutput :=
  mkSessionStartOutput (universal_from universal)
    (hook_specific_output ≫= context_additional_context).

Definition parse_session_start (stdout : str) : option SessionStartOutput :=
  wire ← parse_json session_start_wire stdout;
  Some (session_start_output (start_universal wire) (start_specific wire)).

Definition parse_subagent_start (stdout : str) : option SessionStartOutput :=
  wire ← parse_json subagent_start_wire stdout;
  Some (session_start_output (start_universal wire) (start_specific wire)).

Definition parse_pre_tool_use (stdout : str) : option (PreToolUseOutput Value) :=
  wire ← parse_json pre_tool_use_wire stdout;
  let universal := universal_from (pre_universal wire) in
  let decision := pre_decision wire in
  let reason := pre_reason wire in
  let hook_specific_output := pre_specific wire in
  let additional_context := hook_specific_output ≫= pre_additional_context in
  let use_hook_specific_decision :=
    match hook_specific_output with
    | Some output =>
        is_some (permission_decision output) || is_some (permission_decision_reason output)
        || is_some (pre_updated_input output)
    | None => false
    end in
  let invalid_reason :=
    or_else (unsupported_pre_tool_use_universal universal)
      (if use_hook_specific_decision
       then hook_specific_output ≫= unsupported_pre_tool_use_hook_specific_output
       else unsupported_pre_tool_use_legacy_decision decision reason) in
  let block_reason :=
    if is_some invalid_reason then None
    else if use_hook_specific_decision then
      output ← hook_specific_output;
      match permission_decision output with
      | Some PermissionDeny => permission_decision_reason output ≫= trimmed_reason
      | _ => None
      end
    else
      match decision with
      | Some DecisionBlock => reason ≫= trimmed_reason
      | Some DecisionApprove | None => None
      end in
  let updated_input :=
    if is_some invalid_reason then None
    else
      output ← hook_specific_output;
      match permission_decision output with
      | Some PermissionAllow => pre_updated_input output
      | _ => None
      end in
  Some (mkPreToolUseOutput universal block_reason additional_context updated_input invalid_reason).

Definition parse_permission_request (stdout : str) : option PermissionRequestOutput :=
  wire ← parse_json permission_request_wire stdout;
  let universal := universal_from (permission_universal wire) in
  let decision := permission_specific wire ≫= permission_wire_decision in
  let invalid_reason :=
    or_else (unsupported_permission_request_universal universal)
      (output ← permission_specific wire;
       unsupported_permission_request_hook_specific_output (permission_wire_decision output)) in
  Some (mkPermissionOutput universal
          (if is_some invalid_reason then None else permission_request_decision <$> decision)
          invalid_reason).

Definition parse_post_tool_use (stdout : str) : option PostToolUseOutput :=
  wire ← parse_json post_tool_use_wire stdout;
  let universal := universal_from (post_universal wire) in
  let invalid_reason :=
    or_else (unsupported_post_tool_use_universal universal)
      (post_specific wire ≫= unsupported_post_tool_use_hook_specific_output) in
  let should_block := is_some (post_decision wire) in
  let invalid_block_reason :=
    if should_block && blank_reason (post_reason wire)
    then Some (invalid_block_message "PostToolUse")
    else if negb should_block && continue_processing universal && is_some (post_reason wire)
    then Some "PostToolUse hook returned reason without decision"
    else None in
  Some (mkPostToolUseOutput universal
          (should_block && negb (is_some invalid_reason) && negb (is_some invalid_block_reason))
          (post_reason wire) invalid_block_reason
          (post_specific wire ≫= post_additional_context) invalid_reason).

Definition parse_pre_compact (stdout : str) : option StatelessHookOutput :=
  wire ← parse_json pre_compact_wire stdout;
  Some (mkStatelessOutput (universal_from (compact_universal wire)) None).

Definition parse_post_compact (stdout : str) : option StatelessHookOutput :=
  wire ← parse_json post_compact_wire stdout;
  Some (mkStatelessOutput (universal_from (compact_universal wire)) None).

Definition parse_user_prompt_submit (stdout : str) : option UserPromptSubmitOutput :=
  wire ← parse_json user_prompt_submit_wire stdout;
  let should_block := is_some (prompt_decision wire) in
  let invalid_block_reason :=
    if should_block && blank_reason (prompt_reason wire)
    then Some (invalid_block_message "UserPromptSubmit")
    else None in
  Some (mkUserPromptOutput (universal_from (prompt_universal wire))
          (should_block && negb (is_some invalid_block_reason)) (prompt_reason wire)
          invalid_block_reason (prompt_specific wire ≫= context_additional_context)).

Definition stop_output (universal : HookUniversalOutputWire) (decision : option BlockDecisionWire)
    (reason : option str) (event_name : str) : StopOutput :=
  let should_block := is_some decision in
  let invalid_block_reason :=
    if should_block && blank_reason reason then Some (invalid_block_message event_name) else None in
  mkStopOutput (universal_from universal) (should_block && negb (is_some invalid_block_reason))
    reason invalid_block_reason.

Definition parse_stop (stdout : str) : option StopOutput :=
  wire ← parse_json stop_wire stdout;
  Some (stop_output (stop_universal wire) (stop_decision wire) (stop_wire_reason wire) "Stop").

Definition parse_subagent_stop (stdout : str) : option StopOutput :=
  wire ← parse_json subagent_stop_wire stdout;
  Some (stop_output (stop_universal wire) (stop_decision wire) (stop_wire_reason wire)
          "SubagentStop").

End Parser.
