(* ===== verification/HookDispatch.v ===== *)
(** * Selecting and running hooks

    [codex-rs/hooks/src/events/common.rs], [engine/mod.rs] (a configured
    handler) and [engine/dispatcher.rs]: the handlers an event selects, the
    summaries of their runs, and the collection of the results of handlers that
    run at the same time. The commands themselves are a parameter: what each
    handler's run returns, and the order in which the runs finish. The theorems
    state that every selected handler is reported once, in the configured
    order, whatever order they finish in. *)

From S2P Require Import Prelude RustStr Truncate AbsolutePath HookConfig.
#[local] Open Scope str_scope.

(** ** The protocol's types ([protocol/src/protocol.rs]) *)

Inductive HookHandlerType := HandlerCommand | HandlerPrompt | HandlerAgent.
Inductive HookExecutionMode := Sync | Async.
Inductive HookScope := ScopeThread | ScopeTurn.
Inductive HookSource :=
| SourceSystem | SourceUser | SourceProject | SourceMdm | SourceSessionFlags | SourcePlugin
| SourceCloudRequirements | SourceLegacyManagedConfigFile | SourceLegacyManagedConfigMdm
| SourceUnknown.
Inductive HookRunStatus := Running | Completed | Failed | Blocked | Stopped.
Inductive HookOutputEntryKind :=
| WarningEntry | StopEntry | FeedbackEntry | ContextEntry | ErrorEntry.

#[export] Instance HookSource_eq_dec : EqDecision HookSource.
Proof. solve_decision. Defined.
#[export] Instance HookRunStatus_eq_dec : EqDecision HookRunStatus.
Proof. solve_decision. Defined.

Record HookOutputEntry := mkOutputEntry { kind : HookOutputEntryKind; text : str }.

Record HookRunSummary := mkRunSummary {
  id : str;
  run_event_name : HookEventName;
  run_handler_type : HookHandlerType;
  execution_mode : HookExecutionMode;
  scope : HookScope;
  run_source_path : PathBuf;
  run_source : HookSource;
  run_display_order : Z;
  status : HookRunStatus;
  run_status_message : option str;
  started_at : Z;
  completed_at : option Z;
  duration_ms : option Z;
  entries : list HookOutputEntry
}.

Record HookCompletedEvent := mkCompleted { turn_id : option str; run : HookRunSummary }.

(** ** A configured handler ([engine/mod.rs]) *)

Record ConfiguredHandler := mkHandler {
  event_name : HookEventName;
  handler_matcher : option str;
  command : str;
  timeout_sec : N;
  status_message : option str;
  source_path : PathBuf;
  handler_source : HookSource;
  display_order : Z;
  env : list (str * str)
}.

Definition event_name_label (event_name : HookEventName) : str :=
  match event_name with
  | PreToolUse => "pre-tool-use"
  | PermissionRequest => "permission-request"
  | PostToolUse => "post-tool-use"
  | PreCompact => "pre-compact"
  | PostCompact => "post-compact"
  | SessionStart => "session-start"
  | UserPromptSubmit => "user-prompt-submit"
  | SubagentStart => "subagent-start"
  | SubagentStop => "subagent-stop"
  | Stop => "stop"
  end.

(** [{}] of a signed integer. *)
Definition format_integer (z : Z) : str :=
  if (z <? 0)%Z then "-" ++ format_number (Z.to_N (- z)) else format_number (Z.to_N z).

Definition run_id (self : ConfiguredHandler) : str :=
  event_name_label (event_name self) ++ ":" ++ format_integer (display_order self) ++ ":"
  ++ render (source_path self).

(** ** Matchers ([events/common.rs]) *)

(** [Regex::new] and [Regex::is_match] of the crate [regex]. *)
Class Regex := regex_new : str -> result str (str -> bool).

Section Matcher.
Context {regex : Regex}.

Definition is_match_all_matcher (matcher : str) : bool :=
  is_empty matcher || bool_decide (matcher = "*").

Definition is_exact_matcher (matcher : str) : bool :=
  forallb (fun ch => is_ascii_alphanumeric ch || (ch =? 95)%N || (ch =? 124)%N) matcher.

Definition validate_matcher_pattern (matcher : str) : result str unit :=
  if is_match_all_matcher matcher || is_exact_matcher matcher then Ok tt
  else _ ← regex_new matcher; Ok tt.

Definition matches_matcher (matcher input : option str) : bool :=
  match matcher with
  | None => true
  | Some matcher =>
      if is_match_all_matcher matcher then true
      else if is_exact_matcher matcher then
        match input with
        | Some input => existsb (fun candidate => bool_decide (candidate = input)) (split 124 matcher)
        | None => false
        end
      else
        match input, ok (regex_new matcher) with
        | Some input, Some is_match => is_match input
        | _, _ => false
        end
  end.

Definition matcher_pattern_for_event (event_name : HookEventName) (matcher : option str)
  : option str :=
  match event_name with
  | PreToolUse | PermissionRequest | PostToolUse | SessionStart | SubagentStart | SubagentStop
  | PreCompact | PostCompact => matcher
  | UserPromptSubmit | Stop => None
  end.

Definition matcher_inputs (tool_name : str) (matcher_aliases : list str) : list str :=
  tool_name :: matcher_aliases.

(** ** Selection ([engine/dispatcher.rs]) *)

Definition selects (matcher_inputs : list str) (handler : ConfiguredHandler) : bool :=
  match event_name handler with
  | PreToolUse | PermissionRequest | PostToolUse | SessionStart | SubagentStart | SubagentStop
  | PreCompact | PostCompact =>
      if is_empty matcher_inputs then matches_matcher (handler_matcher handler) None
      else existsb (fun input => matches_matcher (handler_matcher handler) (Some input)) matcher_inputs
  | UserPromptSubmit | Stop => true
  end.

Definition select_handlers_for_matcher_inputs (handlers : list ConfiguredHandler)
    (event : HookEventName) (matcher_inputs : list str) : list ConfiguredHandler :=
  List.filter (selects matcher_inputs)
    (List.filter (fun handler => bool_decide (event_name handler = event)) handlers).

Definition select_handlers (handlers : list ConfiguredHandler) (event : HookEventName)
    (matcher_input : option str) : list ConfiguredHandler :=
  select_handlers_for_matcher_inputs handlers event
    (match matcher_input with Some input => [input] | None => [] end).
End Matcher.

(** ** Summaries *)

Definition scope_for_event (event_name : HookEventName) : HookScope :=
  match event_name with
  | SessionStart | SubagentStart => ScopeThread
  | PreToolUse | PermissionRequest | PostToolUse | PreCompact | PostCompact | UserPromptSubmit
  | SubagentStop | Stop => ScopeTurn
  end.

(** [now] is [chrono::Utc::now().timestamp()]. *)
Definition running_summary (now : Z) (handler : ConfiguredHandler) : HookRunSummary :=
  mkRunSummary (run_id handler) (event_name handler) HandlerCommand Sync
    (scope_for_event (event_name handler)) (source_path handler) (handler_source handler)
    (display_order handler) Running (status_message handler) now None None [].

(** [CommandRunResult] of [engine/command_runner.rs]. *)
Record CommandRunResult := mkRunResult {
  result_started_at : Z;
  result_completed_at : Z;
  result_duration_ms : Z;
  exit_code : option Z;
  stdout : str;
  stderr : str;
  error : option str
}.

Definition completed_summary (handler : ConfiguredHandler) (run_result : CommandRunResult)
    (status : HookRunStatus) (entries : list HookOutputEntry) : HookRunSummary :=
  mkRunSummary (run_id handler) (event_name handler) HandlerCommand Sync
    (scope_for_event (event_name handler)) (source_path handler) (handler_source handler)
    (display_order handler) status (status_message handler) (result_started_at run_result)
    (Some (result_completed_at run_result)) (Some (result_duration_ms run_result)) entries.

(** ** Shared by the events ([events/common.rs]) *)

Definition join_text_chunks (chunks : list str) : option str :=
  if is_empty chunks then None else Some (join [NL; NL] chunks).

Definition trimmed_non_empty (text : str) : option str :=
  let trimmed := trim text in
  if is_empty trimmed then None else Some trimmed.

Definition flatten_additional_contexts (additional_contexts : list (list str)) : list str :=
  concat additional_contexts.

Definition serialization_failure_hook_event (now : Z) (turn_id : option str) (error_message : str)
    (handler : ConfiguredHandler) : HookCompletedEvent :=
  let run := running_summary now handler in
  mkCompleted turn_id
    (mkRunSummary (id run) (run_event_name run) (run_handler_type run) (execution_mode run)
       (scope run) (run_source_path run) (run_source run) (run_display_order run) Failed
       (run_status_message run) (started_at run) (Some (started_at run)) (Some 0%Z)
       [mkOutputEntry ErrorEntry error_message]).

Definition serialization_failure_hook_events (now : Z) (handlers : list ConfiguredHandler)
    (turn_id : option str) (error_message : str) : list HookCompletedEvent :=
  map (serialization_failure_hook_event now turn_id error_message) handlers.

Definition hook_run_for_tool_use (run : HookRunSummary) (tool_use_id : str) : HookRunSummary :=
  mkRunSummary (id run ++ ":" ++ tool_use_id) (run_event_name run) (run_handler_type run)
    (execution_mode run) (scope run) (run_source_path run) (run_source run) (run_display_order run)
    (status run) (run_status_message run) (started_at run) (completed_at run) (duration_ms run)
    (entries run).

Definition hook_completed_for_tool_use (event : HookCompletedEvent) (tool_use_id : str)
  : HookCompletedEvent :=
  mkCompleted (turn_id event) (hook_run_for_tool_use (run event) tool_use_id).

Definition serialization_failure_hook_events_for_tool_use (now : Z)
    (handlers : list ConfiguredHandler) (turn_id : option str) (error_message tool_use_id : str)
  : list HookCompletedEvent :=
  map (fun event => hook_completed_for_tool_use event tool_use_id)
    (serialization_failure_hook_events now handlers turn_id error_message).

(** ** Running ([engine/dispatcher.rs]) *)

Record ParsedHandler (T : Type) := mkParsed {
  completed : HookCompletedEvent;
  data : T;
  completion_order : nat
}.
Arguments mkParsed {T} _ _ _.
Arguments completed {T} _.
Arguments data {T} _.
Arguments completion_order {T} _.

Definition set_completion_order {T} (completion_order : nat) (parsed : ParsedHandler T)
  : ParsedHandler T :=
  mkParsed (completed parsed) (data parsed) completion_order.

(** Where the handler that was configured at [configured_order] finished. *)
Definition finished_at (configured_order : nat) (finishing : list nat) : nat :=
  default 0 (position (Nat.eqb configured_order) finishing).

Section Execute.
Context {T : Type}.

(** What the command of each handler returns, and how the event reads it:
    [None] is a panic. *)
Context (run_command : nat -> ConfiguredHandler -> CommandRunResult).
Context (parse : ConfiguredHandler -> CommandRunResult -> option str -> option (ParsedHandler T)).
Context (turn_id : option str).

(** The loop over [FuturesUnordered]: [finishing] gives the configured order of
    the future that each [pending.next()] finds finished. *)
Fixpoint drain (finishing : list nat) (pending : list (nat * ConfiguredHandler))
    (completion_order : nat) (completed : list (nat * ParsedHandler T))
  : option (list (nat * ParsedHandler T)) :=
  match finishing with
  | [] => if is_empty pending then Some completed else None
  | configured_order :: finishing =>
      index ← position (fun future => Nat.eqb configured_order (fst future)) pending;
      future ← pending !! index;
      pending ← vec_remove index pending;
      parsed ← parse (snd future) (run_command configured_order (snd future)) turn_id;
      drain finishing pending (S completion_order)
        (completed ++ [(configured_order, set_completion_order completion_order parsed)])
  end.

Definition execute_handlers (finishing : list nat) (handlers : list ConfiguredHandler)
  : option (list (ParsedHandler T)) :=
  completed ← drain finishing (imap pair handlers) 0 [];
  Some (map snd (sort_by_key fst completed)).

(** The reference: one handler after another. *)
Definition in_order (handlers : list ConfiguredHandler) : option (list (ParsedHandler T)) :=
  mapM (fun future => parse (snd future) (run_command (fst future) (snd future)) turn_id)
    (imap pair handlers).

(** ** The order of the results *)

Definition look (handlers : list ConfiguredHandler) (i : nat) : option (ParsedHandler T) :=
  handler ← handlers !! i; parse handler (run_command i handler) turn_id.

Fixpoint stamped (handlers : list ConfiguredHandler) (n : nat) (finishing : list nat)
  : option (list (nat * ParsedHandler T)) :=
  match finishing with
  | [] => Some []
  | i :: finishing =>
      parsed ← look handlers i;
      rest ← stamped handlers (S n) finishing;
      Some ((i, set_completion_order n parsed) :: rest)
  end.

Lemma vec_remove_middle {A} (l1 l2 : list A) x :
  vec_remove (length l1) (l1 ++ x :: l2) = Some (l1 ++ l2).
Proof.
  rewrite vec_remove_Some by (rewrite length_app; cbn; lia).
  rewrite take_app_length, cons_middle, app_assoc. f_equal. f_equal.
  rewrite drop_app_ge by (rewrite length_app; cbn; lia).
  by replace (S (length l1) - length (l1 ++ [x])) with 0 by (rewrite length_app; cbn; lia).
Qed.

Lemma drain_stamped handlers finishing : forall pending n completed,
  finishing ≡ₚ map fst pending ->
  (forall i h, (i, h) ∈ pending -> handlers !! i = Some h) ->
  drain finishing pending n completed = app completed <$> stamped handlers n finishing.
Proof.
  induction finishing as [|i finishing IH]; intros pending n completed HP HL; cbn.
  { apply Permutation_nil_l, eq_sym, map_eq_nil in HP. subst. cbn. by rewrite app_nil_r. }
  pose proof (position_spec (fun future => Nat.eqb i (fst future)) pending) as Hpos.
  destruct (position _ pending) as [index|]; cbn.
  - destruct Hpos as (l1 & [j h] & l2 & -> & -> & Hj & _). cbn in Hj. apply Nat.eqb_eq in Hj as <-.
    rewrite list_lookup_middle by done. cbn. rewrite vec_remove_middle. cbn.
    unfold look. rewrite (HL i h) by (apply elem_of_app; right; left). cbn.
    destruct (parse h _ turn_id) as [parsed|]; cbn; [|done].
    rewrite IH.
    + destruct (stamped _ _ _); cbn; [|done]. by rewrite <- app_assoc.
    + apply (Permutation_cons_inv (a := i)). rewrite HP, !map_app. cbn.
      by rewrite Permutation_middle.
    + intros j h' Hin. apply HL. rewrite elem_of_app, elem_of_cons in *. tauto.
  - assert (Hi : i ∈ map fst pending) by (rewrite <- HP; left).
    apply list_elem_of_fmap in Hi as ([j h] & -> & Hin).
    rewrite Forall_forall in Hpos. specialize (Hpos _ Hin). cbn in Hpos.
    by rewrite Nat.eqb_refl in Hpos.
Qed.

Lemma stamped_Some handlers finishing : forall n l,
  stamped handlers n finishing = Some l ->
  map fst l = finishing /\
  forall e, e ∈ l -> exists k p, finishing !! k = Some (fst e) /\ look handlers (fst e) = Some p
                                /\ snd e = set_completion_order (n + k) p.
Proof.
  induction finishing as [|i finishing IH]; intros n l; cbn.
  { intros [= <-]. split; [done|]. intros e He. by apply not_elem_of_nil in He. }
  destruct (look handlers i) as [p|] eqn:Hp; cbn; [|done].
  destruct (stamped _ _ _) as [rest|] eqn:Hrest; cbn; [|done]. intros [= <-].
  destruct (IH _ _ Hrest) as [<- Hall]. split; [done|]. intros e [->|He]%elem_of_cons.
  - exists 0, p. cbn. by rewrite Nat.add_0_r.
  - destruct (Hall e He) as (k & q & Hk & Hq & ->). exists (S k), q. split_and!; [done..|].
    by replace (n + S k) with (S n + k) by lia.
Qed.

Lemma stamped_None handlers finishing : forall n,
  stamped handlers n finishing = None -> exists i, i ∈ finishing /\ look handlers i = None.
Proof.
  induction finishing as [|i finishing IH]; intros n; cbn; [done|].
  destruct (look handlers i) as [p|] eqn:Hp; cbn; [|by exists i; split; [left|]].
  destruct (stamped _ _ _) as [rest|] eqn:Hrest; cbn; [done|]. intros _.
  destruct (IH _ Hrest) as (j & Hj & Hl). exists j. split; [by right|done].
Qed.

Lemma finished_at_lookup finishing k i :
  NoDup finishing -> finishing !! k = Some i -> finished_at i finishing = k.
Proof.
  intros HN Hk. unfold finished_at. pose proof (position_spec (Nat.eqb i) finishing) as Hpos.
  destruct (position _ finishing) as [k'|]; cbn.
  - destruct Hpos as (l1 & x & l2 & -> & -> & Hx & _). apply Nat.eqb_eq in Hx as <-.
    eapply NoDup_lookup; [exact HN| |exact Hk]. by rewrite list_lookup_middle.
  - rewrite Forall_forall in Hpos. specialize (Hpos i). rewrite Nat.eqb_refl in Hpos.
    discriminate Hpos. by eapply list_elem_of_lookup_2.
Qed.

Lemma seq_strongly_sorted n : forall i, StronglySorted le (seq i n).
Proof.
  induction n as [|n IH]; intros i; cbn; constructor; [apply IH|].
  apply Forall_forall. intros x Hx. apply elem_of_seq in Hx. lia.
Qed.

Lemma sort_by_key_seq {A} (l : list (nat * A)) n :
  map fst l ≡ₚ seq 0 n -> map fst (sort_by_key fst l) = seq 0 n.
Proof.
  intros HP. apply (StronglySorted_unique le); [|apply seq_strongly_sorted|].
  - pose proof (sort_by_key_sorted fst l) as Hs. induction Hs as [|x k Hs IH Hx]; cbn; constructor.
    + done.
    + by apply Forall_map.
  - by rewrite sort_by_key_perm.
Qed.

Lemma in_order_lookup handlers results i p :
  in_order handlers = Some results -> i < length handlers -> look handlers i = Some p ->
  results !! i = Some p.
Proof.
  intros Hr Hi Hp. apply mapM_Some in Hr.
  destruct (lookup_lt_is_Some_2 handlers i Hi) as [h Hh]. unfold look in Hp. rewrite Hh in Hp.
  eapply Forall2_lookup_l in Hr as (q & Hq & Hpq); [|by rewrite list_lookup_imap, Hh].
  cbn in *. congruence.
Qed.

Lemma in_order_length handlers results :
  in_order handlers = Some results -> length results = length handlers.
Proof. intros Hr. apply mapM_Some, Forall2_length in Hr. by rewrite length_imap in Hr. Qed.

Lemma in_order_None handlers i :
  i < length handlers -> look handlers i = None -> in_order handlers = None.
Proof.
  intros Hi Hl. apply mapM_None. apply Exists_exists.
  destruct (lookup_lt_is_Some_2 handlers i Hi) as [h Hh]. exists (i, h). split.
  - apply (list_elem_of_lookup_2 _ i). by rewrite list_lookup_imap, Hh.
  - unfold look in Hl. by rewrite Hh in Hl.
Qed.

Lemma map_lookup {A B} (f : A -> B) l i : map f l !! i = f <$> l !! i.
Proof. apply list_lookup_fmap. Qed.

Lemma numbered_seq {A} (l : list A) : map fst (imap pair l) = seq 0 (length l).
Proof.
  apply list_eq. intros i. rewrite map_lookup, list_lookup_imap.
  destruct (l !! i) as [x|] eqn:E; cbn.
  - symmetry. apply lookup_seq. apply lookup_lt_Some in E. lia.
  - symmetry. apply lookup_ge_None in E. apply lookup_ge_None. rewrite length_seq. lia.
Qed.

(** What is collected, in configured order. *)
Lemma collected_results finishing handlers l :
  finishing ≡ₚ seq 0 (length handlers) -> stamped handlers 0 finishing = Some l ->
  exists results, in_order handlers = Some results /\
    map snd (sort_by_key fst l)
    = imap (fun i parsed => set_completion_order (finished_at i finishing) parsed) results.
Proof.
  intros HP Hl. assert (HN : NoDup finishing) by (rewrite HP; apply NoDup_seq).
  destruct (stamped_Some _ _ _ _ Hl) as [Hfst Hall].
  assert (Hseq : map fst (sort_by_key fst l) = seq 0 (length handlers))
    by (apply sort_by_key_seq; by rewrite Hfst).
  assert (Hat : forall i, i < length handlers -> exists p,
    map snd (sort_by_key fst l) !! i = Some (set_completion_order (finished_at i finishing) p)
    /\ look handlers i = Some p).
  { intros i Hi. assert (Hsi : map fst (sort_by_key fst l) !! i = Some i)
      by (rewrite Hseq; by apply lookup_seq).
    rewrite map_lookup in Hsi. rewrite map_lookup. destruct (sort_by_key fst l !! i) as [e|] eqn:He; [|done].
    cbn in Hsi. injection Hsi as Hei. apply list_elem_of_lookup_2 in He.
    rewrite sort_by_key_perm in He. destruct (Hall e He) as (k & p & Hk & Hp & Hs).
    rewrite Hei in *. exists p. cbn. rewrite Hs. cbn. by rewrite (finished_at_lookup _ k). }
  destruct (in_order handlers) as [results|] eqn:Hr.
  - exists results. split; [done|]. apply list_eq_same_length with (n := length handlers).
    + by rewrite length_imap, (in_order_length _ _ Hr).
    + rewrite length_map, <- (length_map fst), Hseq. apply length_seq.
    + intros i x y Hi Hx Hy. destruct (Hat i Hi) as (p & Hp & Hlook).
      rewrite list_lookup_imap, (in_order_lookup _ _ _ _ Hr Hi Hlook) in Hy. cbn in Hy. congruence.
  - apply mapM_None in Hr. apply Exists_exists in Hr as ([i h] & Hin & Hn).
    apply list_elem_of_lookup in Hin as [j Hj]. rewrite list_lookup_imap in Hj.
    destruct (handlers !! j) as [h'|] eqn:E; [|done]. cbn in Hj. injection Hj as -> ->.
    destruct (Hat i) as (p & _ & Hlook); [by eapply lookup_lt_Some|].
    unfold look in Hlook. rewrite E in Hlook. cbn in *. congruence.
Qed.

(** Whatever order the handlers finish in, the results are those of running
    them one after another, stamped with the place each finished at. *)
Theorem hooks_report_in_configured_order finishing handlers :
  finishing ≡ₚ seq 0 (length handlers) ->
  execute_handlers finishing handlers
  = imap (fun i parsed => set_completion_order (finished_at i finishing) parsed)
    <$> in_order handlers.
Proof.
  intros HP. unfold execute_handlers. rewrite (drain_stamped handlers).
  - destruct (stamped _ _ _) as [l|] eqn:Hl; cbn.
    + destruct (collected_results _ _ _ HP Hl) as (results & -> & Heq). exact (f_equal Some Heq).
    + destruct (stamped_None _ _ _ Hl) as (i & Hi & Hn). rewrite HP, elem_of_seq in Hi.
      by rewrite (in_order_None handlers i) by (done || lia).
  - by rewrite numbered_seq.
  - intros i h Hin. apply list_elem_of_lookup in Hin as [j Hj].
    rewrite list_lookup_imap in Hj. destruct (handlers !! j) eqn:E; cbn in Hj; congruence.
Qed.

(** A reading that does not panic on the handlers that run. *)
Lemma execute_total (read : nat -> ConfiguredHandler -> ParsedHandler T) finishing handlers :
  (forall i handler, handlers !! i = Some handler ->
     parse handler (run_command i handler) turn_id = Some (read i handler)) ->
  finishing ≡ₚ seq 0 (length handlers) ->
  execute_handlers finishing handlers
  = Some (imap (fun i handler => set_completion_order (finished_at i finishing) (read i handler))
            handlers).
Proof.
  intros Hread HP. rewrite hooks_report_in_configured_order by done.
  assert (in_order handlers = Some (imap read handlers)) as ->.
  - unfold in_order. apply mapM_Some_2, Forall2_lookup. intros i. rewrite !list_lookup_imap.
    destruct (handlers !! i) eqn:E; constructor. by apply Hread.
  - cbn. f_equal. apply list_eq. intros i. rewrite !list_lookup_imap. by destruct (handlers !! i).
Qed.

(** What can be read off the results, when no reading panics. *)
Lemma execute_maps {B} (f : ParsedHandler T -> B) (g : nat -> ConfiguredHandler -> B) finishing
    handlers :
  (forall n parsed, f (set_completion_order n parsed) = f parsed) ->
  (forall i handler, handlers !! i = Some handler -> exists parsed,
     parse handler (run_command i handler) turn_id = Some parsed /\ f parsed = g i handler) ->
  finishing ≡ₚ seq 0 (length handlers) ->
  exists results, execute_handlers finishing handlers = Some results
                  /\ map f results = imap g handlers.
Proof.
  intros Hf Hread HP. rewrite hooks_report_in_configured_order by done.
  destruct (in_order handlers) as [results|] eqn:Hr.
  - eexists. split; [done|]. apply mapM_Some in Hr. apply list_eq. intros i.
    rewrite map_lookup, !list_lookup_imap. destruct (handlers !! i) as [h|] eqn:Hh.
    + eapply Forall2_lookup_l in Hr as (p & Hp & Heq); [|by rewrite list_lookup_imap, Hh].
      destruct (Hread i h Hh) as (q & Hq & Hid). rewrite Hp. cbn in *. rewrite Hf. congruence.
    + apply Forall2_length in Hr. rewrite length_imap in Hr. apply lookup_ge_None in Hh.
      by rewrite (proj2 (lookup_ge_None results i)) by lia.
  - apply mapM_None, Exists_exists in Hr as ([i h] & Hin & Hn).
    apply list_elem_of_lookup in Hin as [j Hj]. rewrite list_lookup_imap in Hj.
    destruct (handlers !! j) as [h'|] eqn:E; [|done]. cbn in Hj. injection Hj as -> ->.
    destruct (Hread i h E) as (p & Hp & _). cbn in Hn. congruence.
Qed.

(** One result for each handler, under the id of its run. *)
Lemma execute_reports finishing handlers :
  (forall i handler, handlers !! i = Some handler -> exists parsed,
     parse handler (run_command i handler) turn_id = Some parsed
     /\ id (run (completed parsed)) = run_id handler) ->
  finishing ≡ₚ seq 0 (length handlers) ->
  exists results, execute_handlers finishing handlers = Some results
  /\ map (fun result => id (run (completed result))) results = map run_id handlers.
Proof.
  intros Hread HP.
  destruct (execute_maps (fun result => id (run (completed result))) (fun _ => run_id)
              finishing handlers) as (results & Hex & Hmap); [done..|].
  exists results. split; [done|]. rewrite Hmap. apply (imap_const run_id).
Qed.
End Execute.

(** Every future of the selected handlers finishes once, in some order. *)
Definition all_finish (finishing : list nat) (matched : list ConfiguredHandler) : Prop :=
  finishing ≡ₚ seq 0 (length matched).

Definition reported_ids (events : list HookCompletedEvent) : list str :=
  map (fun event => id (run event)) events.

Lemma failures_reported now turn message handlers :
  reported_ids (serialization_failure_hook_events now handlers turn message) = map run_id handlers.
Proof. unfold reported_ids, serialization_failure_hook_events. by rewrite map_map. Qed.

Lemma failures_reported_for_tool_use now turn message request_id handlers :
  reported_ids
    (serialization_failure_hook_events_for_tool_use now handlers turn message request_id)
  = map (fun handler => run_id handler ++ ":" ++ request_id) handlers.
Proof.
  unfold reported_ids, serialization_failure_hook_events_for_tool_use,
    serialization_failure_hook_events. by rewrite !map_map.
Qed.

Lemma tool_use_reported {T} (results : list (ParsedHandler T)) request_id handlers :
  map (fun result => id (run (completed result))) results = map run_id handlers ->
  reported_ids (map (fun result => hook_completed_for_tool_use (completed result) request_id) results)
  = map (fun handler => run_id handler ++ ":" ++ request_id) handlers.
Proof.
  intros H. unfold reported_ids. rewrite map_map. cbn.
  rewrite <- (map_map (fun result => id (run (completed result))) (fun i => i ++ ":" ++ request_id)).
  by rewrite H, map_map.
Qed.

Lemma selected_event {regex : Regex} handlers event inputs i handler :
  select_handlers_for_matcher_inputs handlers event inputs !! i = Some handler ->
  event_name handler = event /\ handler ∈ handlers /\ selects inputs handler = true.
Proof.
  intros Hi. apply list_elem_of_lookup_2, list_elem_of_In in Hi.
  unfold select_handlers_for_matcher_inputs in Hi.
  apply filter_In in Hi as [Hi Hs]. apply filter_In in Hi as [Hin He].
  split_and!; [by apply bool_decide_eq_true in He|by apply list_elem_of_In|done].
Qed.
