(* ===== verification/HookTools.v ===== *)
(** * Hooks around a tool call

    [codex-rs/hooks/src/events/pre_tool_use.rs], [permission_request.rs],
    [post_tool_use.rs] and the part of [core/src/hook_runtime.rs] that acts on
    a hook before a tool runs. The theorems state what the hooks of one call
    decide together: a blocking hook blocks the call whatever the others say,
    the rewrite that finished last is kept, a denial wins over every approval,
    and a run that failed decides nothing. *)

From S2P Require Import Prelude RustStr Truncate AbsolutePath HookConfig HookOutput HookDispatch.
#[local] Open Scope str_scope.

(** ** Inputs ([schema.rs]) *)

(** [serde_json::to_string], which may fail. *)
Class ToJson (A : Type) := to_json : A -> result str str.

Record SubagentHookContext := mkSubagent { agent_id : str; agent_type : str }.
Record SubagentCommandInputFields := mkSubagentFields {
  field_agent_id : option str;
  field_agent_type : option str
}.

Definition subagent_fields (value : option SubagentHookContext) : SubagentCommandInputFields :=
  match value with
  | Some context => mkSubagentFields (Some (agent_id context)) (Some (agent_type context))
  | None => mkSubagentFields None None
  end.

(** [NullableString::from_path]. *)
Definition nullable_from_path (path : option PathBuf) : option str := render <$> path.

(** The fields that the inputs of a tool call share. *)
Record ToolCommandInput (Value : Type) := mkToolInput {
  in_session_id : str;
  in_turn_id : str;
  in_subagent : SubagentCommandInputFields;
  in_transcript_path : option str;
  in_cwd : str;
  in_hook_event_name : str;
  in_model : str;
  in_permission_mode : str;
  in_tool_name : str;
  in_tool_input : Value
}.
Arguments mkToolInput {Value} _ _ _ _ _ _ _ _ _ _.
Arguments in_tool_name {Value} _.
Arguments in_tool_input {Value} _.

Record PreToolUseCommandInput (Value : Type) := mkPreToolUseInput {
  pre_input : ToolCommandInput Value;
  pre_input_tool_use_id : str
}.
Arguments mkPreToolUseInput {Value} _ _.
Arguments pre_input {Value} _.

Record PostToolUseCommandInput (Value : Type) := mkPostToolUseInput {
  post_input : ToolCommandInput Value;
  tool_response : Value;
  post_input_tool_use_id : str
}.
Arguments mkPostToolUseInput {Value} _ _ _.

(** ** Requests *)

(** The fields shared by [PreToolUseRequest], [PermissionRequestRequest] and
    [PostToolUseRequest]; [request_id] is [tool_use_id] and [run_id_suffix]. *)
Record ToolRequest (Value : Type) := mkToolRequest {
  session_id : str;
  request_turn_id : str;
  subagent : option SubagentHookContext;
  cwd : PathBuf;
  transcript_path : option PathBuf;
  model : str;
  permission_mode : str;
  tool_name : str;
  matcher_aliases : list str;
  request_id : str;
  tool_input : Value
}.
Arguments mkToolRequest {Value} _ _ _ _ _ _ _ _ _ _ _.
Arguments session_id {Value} _.
Arguments request_turn_id {Value} _.
Arguments subagent {Value} _.
Arguments cwd {Value} _.
Arguments transcript_path {Value} _.
Arguments model {Value} _.
Arguments permission_mode {Value} _.
Arguments tool_name {Value} _.
Arguments matcher_aliases {Value} _.
Arguments request_id {Value} _.
Arguments tool_input {Value} _.

Definition tool_command_input {Value} (hook_event_name : str) (request : ToolRequest Value)
  : ToolCommandInput Value :=
  mkToolInput (session_id request) (request_turn_id request) (subagent_fields (subagent request))
    (nullable_from_path (transcript_path request)) (render (cwd request)) hook_event_name
    (model request) (permission_mode request) (tool_name request) (tool_input request).

Definition pre_tool_use_input {Value} (request : ToolRequest Value) : PreToolUseCommandInput Value :=
  mkPreToolUseInput (tool_command_input "PreToolUse" request) (request_id request).
Definition build_command_input {Value} (request : ToolRequest Value) : ToolCommandInput Value :=
  tool_command_input "PermissionRequest" request.
Definition post_tool_use_input {Value} (request : ToolRequest Value) (tool_response : Value)
  : PostToolUseCommandInput Value :=
  mkPostToolUseInput (tool_command_input "PostToolUse" request) tool_response (request_id request).

(** ** What the parsers share *)

Definition error_entry (text : str) : HookOutputEntry := mkOutputEntry ErrorEntry text.
Definition failure (text : str) : HookRunStatus * list HookOutputEntry := (Failed, [error_entry text]).
Definition exited_with (code : Z) : str := "hook exited with code " ++ format_integer code.
Definition no_status_code : str := "hook exited without a status code".

(** The system message of an output is shown as a warning. *)
Definition warnings (universal : UniversalOutput) : list HookOutputEntry :=
  match system_message universal with
  | Some system_message => [mkOutputEntry WarningEntry system_message]
  | None => []
  end.

(** [append_additional_context]: the texts for the model, and their entries. *)
Definition contexts_of (additional_context : option str) : list str :=
  match additional_context with Some context => [context] | None => [] end.
Definition context_entries (contexts : list str) : list HookOutputEntry :=
  map (mkOutputEntry ContextEntry) contexts.

Definition parsed_handler {D} (handler : ConfiguredHandler) (run_result : CommandRunResult)
    (turn_id : option str) (interpreted : HookRunStatus * list HookOutputEntry * D)
  : ParsedHandler D :=
  let '(status, entries, data) := interpreted in
  mkParsed (mkCompleted turn_id (completed_summary handler run_result status entries)) data 0.

(** ** [pre_tool_use.rs] *)

Record PreToolUseOutcome (Value : Type) := mkPreOutcome {
  pre_hook_events : list HookCompletedEvent;
  should_block : bool;
  block_reason : option str;
  additional_contexts : list str;
  updated_input : option Value
}.
Arguments mkPreOutcome {Value} _ _ _ _ _.
Arguments pre_hook_events {Value} _.
Arguments should_block {Value} _.
Arguments block_reason {Value} _.
Arguments additional_contexts {Value} _.
Arguments updated_input {Value} _.

Record PreToolUseHandlerData (Value : Type) := mkPreData {
  data_should_block : bool;
  data_block_reason : option str;
  additional_contexts_for_model : list str;
  data_updated_input : option Value
}.
Arguments mkPreData {Value} _ _ _ _.
Arguments data_should_block {Value} _.
Arguments data_block_reason {Value} _.
Arguments additional_contexts_for_model {Value} _.
Arguments data_updated_input {Value} _.

Section Tools.
Context {Value : Type} {json : HookJson Value} {regex : Regex}.
Context {pre_to_json : ToJson (PreToolUseCommandInput Value)}.
Context {permission_to_json : ToJson (ToolCommandInput Value)}.
Context {post_to_json : ToJson (PostToolUseCommandInput Value)}.

(** The clock, and the runs of the commands: what the command of the handler
    that was selected at a place returns for an input. *)
Context (now : Z) (run_command : str -> nat -> ConfiguredHandler -> CommandRunResult).

Definition no_pre_data : PreToolUseHandlerData Value := mkPreData false None [] None.

Definition interpret_pre_tool_use (run_result : CommandRunResult)
  : HookRunStatus * list HookOutputEntry * PreToolUseHandlerData Value :=
  match error run_result with
  | Some error => (failure error, no_pre_data)
  | None =>
      match exit_code run_result with
      | Some 0%Z =>
          if is_empty (trim (stdout run_result)) then ((Completed, []), no_pre_data)
          else
            match parse_pre_tool_use (stdout run_result) with
            | Some parsed =>
                let entries := warnings (po_universal parsed) in
                match po_invalid_reason parsed with
                | Some invalid_reason =>
                    ((Failed, entries ++ [error_entry invalid_reason]), no_pre_data)
                | None =>
                    let contexts := contexts_of (po_additional_context parsed) in
                    let entries := entries ++ context_entries contexts in
                    match po_block_reason parsed with
                    | Some reason =>
                        ((Blocked, entries ++ [mkOutputEntry FeedbackEntry reason]),
                         mkPreData true (Some reason) contexts None)
                    | None =>
                        ((Completed, entries),
                         mkPreData false None contexts (po_updated_input parsed))
                    end
                end
            | None =>
                if looks_like_json (stdout run_result)
                then (failure "hook returned invalid pre-tool-use JSON output", no_pre_data)
                else ((Completed, []), no_pre_data)
            end
      | Some 2%Z =>
          match trimmed_non_empty (stderr run_result) with
          | Some reason =>
              ((Blocked, [mkOutputEntry FeedbackEntry reason]),
               mkPreData true (Some reason) [] None)
          | None =>
              (failure
                 "PreToolUse hook exited with code 2 but did not write a blocking reason to stderr",
               no_pre_data)
          end
      | Some exit_code => (failure (exited_with exit_code), no_pre_data)
      | None => (failure no_status_code, no_pre_data)
      end
  end.

Definition pre_tool_use_completed (handler : ConfiguredHandler) (run_result : CommandRunResult)
    (turn_id : option str) : option (ParsedHandler (PreToolUseHandlerData Value)) :=
  Some (parsed_handler handler run_result turn_id (interpret_pre_tool_use run_result)).

Definition latest_updated_input (results : list (ParsedHandler (PreToolUseHandlerData Value)))
  : option Value :=
  snd <$> max_by_key fst
    (omap (fun result =>
       (fun updated_input => (completion_order result, updated_input))
       <$> data_updated_input (data result)) results).

Definition pre_tool_use_preview (handlers : list ConfiguredHandler) (request : ToolRequest Value)
  : list HookRunSummary :=
  map (fun handler => hook_run_for_tool_use (running_summary now handler) (request_id request))
    (select_handlers_for_matcher_inputs handlers PreToolUse
       (matcher_inputs (tool_name request) (matcher_aliases request))).

(** [finishing] is the order in which the selected handlers finish. *)
Definition pre_tool_use_run (finishing : list nat) (handlers : list ConfiguredHandler)
    (request : ToolRequest Value) : option (PreToolUseOutcome Value) :=
  let matched :=
    select_handlers_for_matcher_inputs handlers PreToolUse
      (matcher_inputs (tool_name request) (matcher_aliases request)) in
  if is_empty matched then Some (mkPreOutcome [] false None [] None)
  else
    match to_json (pre_tool_use_input request) with
    | Err error =>
        Some (mkPreOutcome
                (serialization_failure_hook_events_for_tool_use now matched
                   (Some (request_turn_id request))
                   ("failed to serialize pre tool use hook input: " ++ error) (request_id request))
                false None [] None)
    | Ok input_json =>
        results ← execute_handlers (run_command input_json) pre_tool_use_completed
                    (Some (request_turn_id request)) finishing matched;
        let should_block := existsb (fun result => data_should_block (data result)) results in
        Some (mkPreOutcome
                (map (fun result => hook_completed_for_tool_use (completed result)
                                      (request_id request)) results)
                should_block
                (find_map (fun result => data_block_reason (data result)) results)
                (flatten_additional_contexts
                   (map (fun result => additional_contexts_for_model (data result)) results))
                (if should_block then None else latest_updated_input results))
    end.

(** [run_pre_tool_use_hooks] of [core/src/hook_runtime.rs]; [command] is the
    text of the field [command] of the tool's input. *)
Inductive PreToolUseHookResult :=
| Continue (updated_input : option Value)
| BlockedBy (message : str).

Definition pre_tool_use_result (tool_name : str) (command : option str)
    (outcome : PreToolUseOutcome Value) : PreToolUseHookResult :=
  if negb (should_block outcome) then Continue (updated_input outcome)
  else
    match block_reason outcome with
    | None => Continue None
    | Some reason =>
        match
          (if bool_decide (tool_name = "Bash") || bool_decide (tool_name = "apply_patch")
           then command else None)
        with
        | Some command =>
            BlockedBy ("Command blocked by PreToolUse hook: " ++ reason ++ ". Command: " ++ command)
        | None =>
            BlockedBy ("Tool call blocked by PreToolUse hook: " ++ reason ++ ". Tool: "
                       ++ tool_name)
        end
    end.

(** ** [permission_request.rs] *)

Record PermissionRequestOutcome := mkPermissionOutcome {
  permission_hook_events : list HookCompletedEvent;
  decision : option PermissionRequestDecision
}.

(** [PermissionRequestHandlerData] holds the decision alone. *)
Definition interpret_permission_request (run_result : CommandRunResult)
  : HookRunStatus * list HookOutputEntry * option PermissionRequestDecision :=
  match error run_result with
  | Some error => (failure error, None)
  | None =>
      match exit_code run_result with
      | Some 0%Z =>
          if is_empty (trim (stdout run_result)) then ((Completed, []), None)
          else
            match parse_permission_request (stdout run_result) with
            | Some parsed =>
                let entries := warnings (ro_universal parsed) in
                match ro_invalid_reason parsed with
                | Some invalid_reason => ((Failed, entries ++ [error_entry invalid_reason]), None)
                | None =>
                    match ro_decision parsed with
                    | Some PermissionAllowed => ((Completed, entries), Some PermissionAllowed)
                    | Some (PermissionDenied message) =>
                        ((Blocked, entries ++ [mkOutputEntry FeedbackEntry message]),
                         Some (PermissionDenied message))
                    | None => ((Completed, entries), None)
                    end
                end
            | None =>
                if looks_like_json (stdout run_result)
                then (failure "hook returned invalid permission-request JSON output", None)
                else ((Completed, []), None)
            end
      | Some 2%Z =>
          match trimmed_non_empty (stderr run_result) with
          | Some message =>
              ((Blocked, [mkOutputEntry FeedbackEntry message]), Some (PermissionDenied message))
          | None =>
              (failure
                 "PermissionRequest hook exited with code 2 but did not write a denial reason to stderr",
               None)
          end
      | Some exit_code => (failure (exited_with exit_code), None)
      | None => (failure no_status_code, None)
      end
  end.

Definition permission_request_completed (handler : ConfiguredHandler)
    (run_result : CommandRunResult) (turn_id : option str)
  : option (ParsedHandler (option PermissionRequestDecision)) :=
  Some (parsed_handler handler run_result turn_id (interpret_permission_request run_result)).

(** The loop of [resolve_permission_request_decision]. *)
Fixpoint resolve_decisions (resolved_allow : option PermissionRequestDecision)
    (decisions : list PermissionRequestDecision) : option PermissionRequestDecision :=
  match decisions with
  | [] => resolved_allow
  | PermissionAllowed :: decisions => resolve_decisions (Some PermissionAllowed) decisions
  | PermissionDenied message :: _ => Some (PermissionDenied message)
  end.
Definition resolve_permission_request_decision (decisions : list PermissionRequestDecision)
  : option PermissionRequestDecision := resolve_decisions None decisions.

Definition permission_request_preview (handlers : list ConfiguredHandler)
    (request : ToolRequest Value) : list HookRunSummary :=
  map (fun handler => hook_run_for_tool_use (running_summary now handler) (request_id request))
    (select_handlers_for_matcher_inputs handlers PermissionRequest
       (matcher_inputs (tool_name request) (matcher_aliases request))).

Definition permission_request_run (finishing : list nat) (handlers : list ConfiguredHandler)
    (request : ToolRequest Value) : option PermissionRequestOutcome :=
  let matched :=
    select_handlers_for_matcher_inputs handlers PermissionRequest
      (matcher_inputs (tool_name request) (matcher_aliases request)) in
  if is_empty matched then Some (mkPermissionOutcome [] None)
  else
    match to_json (build_command_input request) with
    | Err error =>
        Some (mkPermissionOutcome
                (serialization_failure_hook_events_for_tool_use now matched
                   (Some (request_turn_id request))
                   ("failed to serialize permission request hook input: " ++ error)
                   (request_id request))
                None)
    | Ok input_json =>
        results ← execute_handlers (run_command input_json) permission_request_completed
                    (Some (request_turn_id request)) finishing matched;
        Some (mkPermissionOutcome
                (map (fun result => hook_completed_for_tool_use (completed result)
                                      (request_id request)) results)
                (resolve_permission_request_decision (omap data results)))
    end.

(** ** [post_tool_use.rs] *)

Record PostToolUseOutcome := mkPostOutcome {
  post_hook_events : list HookCompletedEvent;
  post_should_stop : bool;
  post_stop_reason : option str;
  post_additional_contexts : list str;
  feedback_message : option str
}.

Record PostToolUseHandlerData := mkPostData {
  data_should_stop : bool;
  data_stop_reason : option str;
  post_contexts_for_model : list str;
  feedback_messages_for_model : list str
}.

Definition no_post_data : PostToolUseHandlerData := mkPostData false None [] [].

Definition interpret_post_tool_use (run_result : CommandRunResult)
  : HookRunStatus * list HookOutputEntry * PostToolUseHandlerData :=
  match error run_result with
  | Some error => (failure error, no_post_data)
  | None =>
      match exit_code run_result with
      | Some 0%Z =>
          if is_empty (trim (stdout run_result)) then ((Completed, []), no_post_data)
          else
            match parse_post_tool_use (stdout run_result) with
            | Some parsed =>
                let universal := to_universal parsed in
                let contexts :=
                  if negb (is_some (to_invalid_reason parsed))
                     && negb (is_some (to_invalid_block_reason parsed))
                  then contexts_of (to_additional_context parsed) else [] in
                let entries := warnings universal ++ context_entries contexts in
                if negb (continue_processing universal) then
                  let stop_text :=
                    default "PostToolUse hook stopped execution" (stop_reason universal) in
                  let model_feedback :=
                    default stop_text (to_reason parsed ≫= trimmed_non_empty) in
                  ((Stopped, entries ++ [mkOutputEntry StopEntry stop_text]),
                   mkPostData true (stop_reason universal) contexts [model_feedback])
                else
                  match to_invalid_reason parsed, to_invalid_block_reason parsed with
                  | Some reason, _ | None, Some reason =>
                      ((Failed, entries ++ [error_entry reason]), mkPostData false None contexts [])
                  | None, None =>
                      if to_should_block parsed then
                        match to_reason parsed with
                        | Some reason =>
                            ((Blocked, entries ++ [mkOutputEntry FeedbackEntry reason]),
                             mkPostData false None contexts [reason])
                        | None => ((Blocked, entries), mkPostData false None contexts [])
                        end
                      else ((Completed, entries), mkPostData false None contexts [])
                  end
            | None =>
                if looks_like_json (stdout run_result)
                then (failure "hook returned invalid post-tool-use JSON output", no_post_data)
                else ((Completed, []), no_post_data)
            end
      | Some 2%Z =>
          match trimmed_non_empty (stderr run_result) with
          | Some reason =>
              ((Completed, [mkOutputEntry FeedbackEntry reason]),
               mkPostData false None [] [reason])
          | None =>
              (failure "PostToolUse hook exited with code 2 but did not write feedback to stderr",
               no_post_data)
          end
      | Some exit_code => (failure (exited_with exit_code), no_post_data)
      | None => (failure no_status_code, no_post_data)
      end
  end.

Definition post_tool_use_completed (handler : ConfiguredHandler) (run_result : CommandRunResult)
    (turn_id : option str) : option (ParsedHandler PostToolUseHandlerData) :=
  Some (parsed_handler handler run_result turn_id (interpret_post_tool_use run_result)).

Definition post_tool_use_preview (handlers : list ConfiguredHandler) (request : ToolRequest Value)
  : list HookRunSummary :=
  map (fun handler => hook_run_for_tool_use (running_summary now handler) (request_id request))
    (select_handlers_for_matcher_inputs handlers PostToolUse
       (matcher_inputs (tool_name request) (matcher_aliases request))).

Definition post_tool_use_run (finishing : list nat) (handlers : list ConfiguredHandler)
    (request : ToolRequest Value) (tool_response : Value) : option PostToolUseOutcome :=
  let matched :=
    select_handlers_for_matcher_inputs handlers PostToolUse
      (matcher_inputs (tool_name request) (matcher_aliases request)) in
  if is_empty matched then Some (mkPostOutcome [] false None [] None)
  else
    match to_json (post_tool_use_input request tool_response) with
    | Err error =>
        Some (mkPostOutcome
                (serialization_failure_hook_events_for_tool_use now matched
                   (Some (request_turn_id request))
                   ("failed to serialize post tool use hook input: " ++ error) (request_id request))
                false None [] None)
    | Ok input_json =>
        results ← execute_handlers (run_command input_json) post_tool_use_completed
                    (Some (request_turn_id request)) finishing matched;
        Some (mkPostOutcome
                (map (fun result => hook_completed_for_tool_use (completed result)
                                      (request_id request)) results)
                (existsb (fun result => data_should_stop (data result)) results)
                (find_map (fun result => data_stop_reason (data result)) results)
                (flatten_additional_contexts
                   (map (fun result => post_contexts_for_model (data result)) results))
                (join_text_chunks
                   (concat (map (fun result => feedback_messages_for_model (data result)) results))))
    end.

(** ** What the hooks of a call decide *)

(** The reason a run blocks the call for, and the input it replaces the tool's
    with. *)
Definition blocking_reason (run_result : CommandRunResult) : option str :=
  match error run_result, exit_code run_result with
  | None, Some 0%Z => parse_pre_tool_use (stdout run_result) ≫= po_block_reason
  | None, Some 2%Z => trimmed_non_empty (stderr run_result)
  | _, _ => None
  end.
Definition rewriting (run_result : CommandRunResult) : option Value :=
  match error run_result, exit_code run_result with
  | None, Some 0%Z => parse_pre_tool_use (stdout run_result) ≫= po_updated_input
  | _, _ => None
  end.

Lemma trimmed_reason_Some reason trimmed :
  trimmed_reason reason = Some trimmed -> trimmed <> [].
Proof. unfold trimmed_reason. destruct (is_empty _) eqn:E; [done|]. intros [= <-]. by apply is_empty_false. Qed.

Lemma parse_json_nonempty {A} (f : Value -> option A) s a : parse_json f s = Some a -> is_empty (trim s) = false.
Proof. unfold parse_json. by destruct (is_empty (trim s)). Qed.

(** An output is invalid, blocks, or may rewrite. *)
Lemma parse_pre_tool_use_cases stdout parsed :
  parse_pre_tool_use stdout = Some parsed ->
  (po_invalid_reason parsed <> None -> po_block_reason parsed = None /\ po_updated_input parsed = None)
  /\ (forall reason, po_block_reason parsed = Some reason ->
        reason <> [] /\ po_updated_input parsed = None).
Proof.
  unfold parse_pre_tool_use. destruct (parse_json _ _) as [wire|]; cbn; [|done]. intros [= <-]. cbn.
  destruct (or_else _ _) as [invalid|]; cbn; [done|]. split; [done|]. intros reason.
  destruct (pre_specific wire) as [output|]; cbn.
  - destruct (permission_decision output) as [[]|]; cbn.
    + done.
    + intros Hr. split; [|done]. destruct (permission_decision_reason output) as [r|]; [|done].
      by apply trimmed_reason_Some in Hr.
    + done.
    + destruct (_ || _); cbn; [done|]. destruct (pre_decision wire) as [[]|]; [done| |done].
      destruct (pre_reason wire) as [r|]; [|done]. intros Hr. split; [|done].
      by apply trimmed_reason_Some in Hr.
  - destruct (pre_decision wire) as [[]|]; [done| |done].
    destruct (pre_reason wire) as [r|]; [|done]. intros Hr. split; [|done].
    by apply trimmed_reason_Some in Hr.
Qed.

(** The cases of a command's result that the events tell apart. *)
Inductive run_case (run_result : CommandRunResult) : Prop :=
| RunBroken text : error run_result = Some text -> run_case run_result
| RunOk : error run_result = None -> exit_code run_result = Some 0%Z -> run_case run_result
| RunTwo : error run_result = None -> exit_code run_result = Some 2%Z -> run_case run_result
| RunOther code : error run_result = None -> exit_code run_result = Some code ->
    code <> 0%Z -> code <> 2%Z -> run_case run_result
| RunNoStatus : error run_result = None -> exit_code run_result = None -> run_case run_result.

Lemma run_cases run_result : run_case run_result.
Proof.
  destruct (error run_result) as [text|] eqn:He; [by eapply RunBroken|].
  destruct (exit_code run_result) as [code|] eqn:Hc; [|by apply RunNoStatus].
  destruct (decide (code = 0%Z)) as [->|]; [by apply RunOk|].
  destruct (decide (code = 2%Z)) as [->|]; [by apply RunTwo|]. by eapply RunOther.
Qed.

Lemma interpret_pre_tool_use_spec run_result :
  let data := snd (interpret_pre_tool_use run_result) in
  data_block_reason data = blocking_reason run_result
  /\ data_should_block data = is_some (blocking_reason run_result)
  /\ data_updated_input data = rewriting run_result.
Proof.
  unfold interpret_pre_tool_use, blocking_reason, rewriting.
  destruct (run_cases run_result) as [text He|He Hc|He Hc|code He Hc Hz Ht|He Hc]; rewrite He; cbn.
  - done.
  - rewrite Hc. destruct (is_empty (trim _)) eqn:Htrim.
    + unfold parse_pre_tool_use, parse_json. by rewrite Htrim.
    + destruct (parse_pre_tool_use _) as [parsed|] eqn:Hp; cbn; [|by destruct (looks_like_json _)].
      destruct (parse_pre_tool_use_cases _ _ Hp) as [Hinvalid Hblock].
      destruct (po_invalid_reason parsed); cbn.
      * by destruct Hinvalid as [-> ->].
      * destruct (po_block_reason parsed) as [reason|]; cbn; [|done].
        by destruct (Hblock reason) as [_ ->].
  - rewrite Hc. by destruct (trimmed_non_empty _).
  - rewrite Hc. destruct code as [|[p|[p|p|]|]|p]; done.
  - by rewrite Hc.
Qed.

Lemma blocking_reason_Some run_result reason :
  blocking_reason run_result = Some reason -> reason <> [] /\ rewriting run_result = None.
Proof.
  unfold blocking_reason, rewriting.
  destruct (run_cases run_result) as [text He|He Hc|He Hc|code He Hc Hz Ht|He Hc]; rewrite He.
  - done.
  - rewrite Hc. destruct (parse_pre_tool_use _) as [parsed|] eqn:Hp; cbn; [|done].
    apply (parse_pre_tool_use_cases _ _ Hp).
  - rewrite Hc. intros Hr. split; [|done]. by apply trimmed_reason_Some in Hr.
  - rewrite Hc. destruct code as [|[p|[p|p|]|]|p]; done.
  - by rewrite Hc.
Qed.

(** What the runs decide together: the reason to block, and the rewrite. *)
Inductive decides (finishing : list nat) (runs : list CommandRunResult)
  : option str -> option Value -> Prop :=
| DecidesBlock i run_result reason :
    runs !! i = Some run_result -> blocking_reason run_result = Some reason ->
    (forall j earlier, j < i -> runs !! j = Some earlier -> blocking_reason earlier = None) ->
    decides finishing runs (Some reason) None
| DecidesRewrite i run_result input :
    (forall j other, runs !! j = Some other -> blocking_reason other = None) ->
    runs !! i = Some run_result -> rewriting run_result = Some input ->
    (forall j other, runs !! j = Some other -> rewriting other <> None ->
       finished_at j finishing <= finished_at i finishing) ->
    decides finishing runs None (Some input)
| DecidesNothing :
    (forall j other, runs !! j = Some other ->
       blocking_reason other = None /\ rewriting other = None) ->
    decides finishing runs None None.

Section Results.
Context (finishing : list nat) (matched : list ConfiguredHandler) (input_json : str).
Context (turn_id : option str).

Definition pre_results : list (ParsedHandler (PreToolUseHandlerData Value)) :=
  imap (fun i handler => set_completion_order (finished_at i finishing)
    (parsed_handler handler (run_command input_json i handler) turn_id
       (interpret_pre_tool_use (run_command input_json i handler)))) matched.
Definition runs : list CommandRunResult := imap (run_command input_json) matched.

Lemma data_parsed_handler {D} handler run_result turn (x : HookRunStatus * list HookOutputEntry * D) :
  data (parsed_handler handler run_result turn x) = snd x.
Proof. by destruct x as [[status entries] d]. Qed.

Lemma pre_results_lookup i result :
  pre_results !! i = Some result ->
  exists run_result, runs !! i = Some run_result
    /\ completion_order result = finished_at i finishing
    /\ data_block_reason (data result) = blocking_reason run_result
    /\ data_should_block (data result) = is_some (blocking_reason run_result)
    /\ data_updated_input (data result) = rewriting run_result.
Proof.
  unfold pre_results, runs. rewrite !list_lookup_imap. destruct (matched !! i) as [h|]; [|done].
  cbn [fmap option_fmap option_map]. intros [= <-]. eexists. split; [done|]. cbn [completion_order data set_completion_order].
  rewrite data_parsed_handler. split; [done|]. apply interpret_pre_tool_use_spec.
Qed.

Lemma runs_lookup i run_result :
  runs !! i = Some run_result -> exists result, pre_results !! i = Some result.
Proof.
  unfold pre_results, runs. rewrite !list_lookup_imap. destruct (matched !! i) as [h|]; [|done]. by eexists.
Qed.

Lemma existsb_is_some {A B} (g : A -> bool) (f : A -> option B) (l : list A) :
  (forall i x, l !! i = Some x -> g x = is_some (f x)) -> existsb g l = is_some (find_map f l).
Proof.
  induction l as [|x l IH]; cbn; [done|]. intros H. rewrite (H 0 x) by done.
  destruct (f x); cbn; [done|]. apply IH. intros i y. apply (H (S i)).
Qed.

Lemma latest_updated_input_spec (results : list (ParsedHandler (PreToolUseHandlerData Value))) :
  match latest_updated_input results with
  | Some input => exists i result, results !! i = Some result
      /\ data_updated_input (data result) = Some input
      /\ forall j other, results !! j = Some other -> data_updated_input (data other) <> None ->
           completion_order other <= completion_order result
  | None => forall i result, results !! i = Some result -> data_updated_input (data result) = None
  end.
Proof.
  unfold latest_updated_input. set (stamp := fun result => _).
  pose proof (max_by_key_spec fst (omap stamp results)) as Hmax.
  destruct (max_by_key _ _) as [[order input]|]; cbn.
  - destruct Hmax as [Hin Hmax]. apply list_elem_of_omap in Hin as (result & Hin & Hs).
    apply list_elem_of_lookup in Hin as [i Hi]. exists i, result. unfold stamp in Hs.
    destruct (data_updated_input (data result)) as [v|]; [|done]. injection Hs as <- <-.
    split_and!; [done..|]. intros j other Hj Hother.
    destruct (data_updated_input (data other)) as [w|] eqn:Hw; [|done].
    apply (Hmax (completion_order other, w)). apply list_elem_of_omap. exists other.
    split; [by eapply list_elem_of_lookup_2|]. unfold stamp. by rewrite Hw.
  - intros i result Hi. destruct (data_updated_input (data result)) as [v|] eqn:Hv; [|done].
    assert (Hin : (completion_order result, v) ∈ omap stamp results).
    { apply list_elem_of_omap. exists result. split; [by eapply list_elem_of_lookup_2|].
      unfold stamp. by rewrite Hv. }
    rewrite Hmax in Hin. by apply not_elem_of_nil in Hin.
Qed.

Lemma results_decide :
  decides finishing runs (find_map (fun result => data_block_reason (data result)) pre_results)
    (if existsb (fun result => data_should_block (data result)) pre_results then None
     else latest_updated_input pre_results)
  /\ existsb (fun result => data_should_block (data result)) pre_results
     = is_some (find_map (fun result => data_block_reason (data result)) pre_results).
Proof.
  assert (existsb (fun result => data_should_block (data result)) pre_results
     = is_some (find_map (fun result => data_block_reason (data result)) pre_results)) as Heq.
  { apply existsb_is_some. intros i result Hi.
    destruct (pre_results_lookup _ _ Hi) as (r & _ & _ & -> & -> & _). done. }
  split; [|done]. rewrite Heq.
  pose proof (find_map_spec (fun result => data_block_reason (data result)) pre_results) as Hfind.
  destruct (find_map _ pre_results) as [reason|]; cbn.
  - destruct Hfind as (i & result & Hi & Hr & Hmin).
    destruct (pre_results_lookup _ _ Hi) as (r & Hrun & _ & Hb & _).
    rewrite Hb in Hr. eapply DecidesBlock; [done..|]. intros j earlier Hlt Hj.
    destruct (runs_lookup _ _ Hj) as [other Hother].
    destruct (pre_results_lookup _ _ Hother) as (r' & Hr' & _ & Hb' & _).
    specialize (Hmin j other Hlt Hother). cbn in Hmin. congruence.
  - assert (Hnone : forall j other, runs !! j = Some other -> blocking_reason other = None).
    { intros j other Hj. destruct (runs_lookup _ _ Hj) as [res Hres].
      destruct (pre_results_lookup _ _ Hres) as (r' & Hr' & _ & Hb' & _).
      specialize (Hfind j res Hres). cbn in Hfind. congruence. }
    pose proof (latest_updated_input_spec pre_results) as Hlatest.
    destruct (latest_updated_input pre_results) as [input|].
    + destruct Hlatest as (i & result & Hi & Hu & Hmax).
      destruct (pre_results_lookup _ _ Hi) as (r & Hrun & Hord & _ & _ & Hw).
      apply (DecidesRewrite _ _ i r input); [done..|congruence|]. intros j other Hj Hother.
      destruct (runs_lookup _ _ Hj) as [res Hres].
      destruct (pre_results_lookup _ _ Hres) as (r' & Hr' & Hord' & _ & _ & Hw').
      rewrite <- Hord, <- Hord'. apply (Hmax j res Hres). congruence.
    + apply DecidesNothing. intros j other Hj. split; [by eapply Hnone|].
      destruct (runs_lookup _ _ Hj) as [res Hres].
      destruct (pre_results_lookup _ _ Hres) as (r' & Hr' & _ & _ & _ & Hw').
      specialize (Hlatest j res Hres). congruence.
Qed.
End Results.

(** C12. A hook that blocks always blocks the call: the reason is that of the first
    blocking handler in configured order, whatever order the runs finish in and
    whatever the other hooks return, and no input is rewritten. Otherwise the
    call goes on with the rewrite of the run that finished last. *)
Theorem pre_tool_use_block_wins finishing handlers (request : ToolRequest Value) input_json tool
    command :
  let matched :=
    select_handlers_for_matcher_inputs handlers PreToolUse
      (matcher_inputs (tool_name request) (matcher_aliases request)) in
  to_json (pre_tool_use_input request) = Ok input_json ->
  finishing ≡ₚ seq 0 (length matched) ->
  exists outcome, pre_tool_use_run finishing handlers request = Some outcome
  /\ length (pre_hook_events outcome) = length matched
  /\ decides finishing (runs matched input_json) (block_reason outcome) (updated_input outcome)
  /\ match block_reason outcome with
     | Some reason => reason <> [] /\ exists before after,
         pre_tool_use_result tool command outcome = BlockedBy (before ++ reason ++ after)
     | None => pre_tool_use_result tool command outcome = Continue (updated_input outcome)
     end.
Proof.
  intros matched Hjson HP. unfold pre_tool_use_run. fold matched.
  destruct matched as [|h hs] eqn:Hm; cbn [is_empty].
  { eexists. split_and!; [done..|by apply DecidesNothing|done]. }
  rewrite <- Hm in *. rewrite Hjson.
  rewrite (execute_total _ _ _ (fun i handler =>
    parsed_handler handler (run_command input_json i handler) (Some (request_turn_id request))
      (interpret_pre_tool_use (run_command input_json i handler))) finishing matched) by done.
  destruct (results_decide finishing matched input_json (Some (request_turn_id request)))
    as [Hdecides Hblock]. fold (pre_results finishing matched input_json (Some (request_turn_id request))).
  eexists. split; [done|]. cbn [pre_hook_events block_reason updated_input]. split.
  { unfold pre_results. by rewrite length_map, length_imap. }
  split; [done|]. unfold pre_tool_use_result. cbn [should_block block_reason updated_input].
  rewrite Hblock. rewrite Hblock in Hdecides.
  destruct (find_map _ _) as [reason|]; cbn; [|done]. split.
  - inversion Hdecides; subst. by eapply blocking_reason_Some.
  - destruct (if bool_decide (tool = "Bash") || bool_decide (tool = "apply_patch")
              then command else None) as [text|].
    + by exists "Command blocked by PreToolUse hook: "%str, (". Command: " ++ text)%str.
    + by exists "Tool call blocked by PreToolUse hook: "%str, (". Tool: " ++ tool)%str.
Qed.

(** ** Approvals *)

(** What a run answers to a request for approval. *)
Definition verdict (run_result : CommandRunResult) : option PermissionRequestDecision :=
  match error run_result, exit_code run_result with
  | None, Some 0%Z => parse_permission_request (stdout run_result) ≫= ro_decision
  | None, Some 2%Z => PermissionDenied <$> trimmed_non_empty (stderr run_result)
  | _, _ => None
  end.

Lemma interpret_permission_request_spec run_result :
  snd (interpret_permission_request run_result) = verdict run_result.
Proof.
  unfold interpret_permission_request, verdict.
  destruct (run_cases run_result) as [text He|He Hc|He Hc|code He Hc Hz Ht|He Hc]; rewrite He; cbn.
  - done.
  - rewrite Hc. destruct (is_empty (trim _)) eqn:Htrim.
    + unfold parse_permission_request, parse_json. by rewrite Htrim.
    + destruct (parse_permission_request _) as [parsed|] eqn:Hp; cbn;
        [|by destruct (looks_like_json _)].
      unfold parse_permission_request in Hp. destruct (parse_json _ _) as [wire|]; [|done].
      injection Hp as <-. cbn. destruct (or_else _ _) as [invalid|]; cbn; [done|].
      by destruct (_ <$> _) as [[]|].
  - rewrite Hc. by destruct (trimmed_non_empty _).
  - rewrite Hc. destruct code as [|[p|[p|p|]|]|p]; done.
  - by rewrite Hc.
Qed.

Definition denial (decision : option PermissionRequestDecision) : option str :=
  match decision with Some (PermissionDenied message) => Some message | _ => None end.

Lemma resolve_decisions_spec {A} (f : A -> option PermissionRequestDecision) (l : list A) : forall allow,
  resolve_decisions allow (omap f l)
  = match find_map (fun x => denial (f x)) l with
    | Some message => Some (PermissionDenied message)
    | None => if existsb (fun x => is_some (f x)) l then Some PermissionAllowed else allow
    end.
Proof.
  induction l as [|x l IH]; intros allow; cbn; [done|].
  destruct (f x) as [[|message]|]; cbn; [|done|by rewrite IH].
  rewrite IH. destruct (find_map _ l); [done|]. by destruct (existsb _ l).
Qed.

Definition permission_results (finishing : list nat) (matched : list ConfiguredHandler)
    (input_json : str) (turn_id : option str)
  : list (ParsedHandler (option PermissionRequestDecision)) :=
  imap (fun i handler => set_completion_order (finished_at i finishing)
    (parsed_handler handler (run_command input_json i handler) turn_id
       (interpret_permission_request (run_command input_json i handler)))) matched.

Lemma permission_results_verdicts finishing matched input_json turn_id :
  omap data (permission_results finishing matched input_json turn_id)
  = omap verdict (runs matched input_json).
Proof.
  unfold permission_results, runs. set (run := run_command input_json). clearbody run.
  enough (forall k, omap data (imap (fun i handler => set_completion_order (finished_at (k i) finishing)
    (parsed_handler handler (run i handler) turn_id (interpret_permission_request (run i handler)))) matched)
    = omap verdict (imap run matched)) as H by apply (H (fun i => i)).
  revert run. induction matched as [|h hs IH]; intros run k; cbn; [done|].
  rewrite data_parsed_handler, interpret_permission_request_spec.
  specialize (IH (run ∘ S) (k ∘ S)). unfold compose in IH |- *. rewrite IH. done.
Qed.

Lemma resolved_verdicts (l : list CommandRunResult) :
  match resolve_decisions None (omap verdict l) with
  | Some (PermissionDenied message) => exists i run_result,
      l !! i = Some run_result /\ verdict run_result = Some (PermissionDenied message)
      /\ forall j earlier, j < i -> l !! j = Some earlier -> denial (verdict earlier) = None
  | Some PermissionAllowed =>
      (exists i run_result, l !! i = Some run_result /\ verdict run_result = Some PermissionAllowed)
      /\ forall i run_result, l !! i = Some run_result -> denial (verdict run_result) = None
  | None => forall i run_result, l !! i = Some run_result -> verdict run_result = None
  end.
Proof.
  rewrite resolve_decisions_spec.
  pose proof (find_map_spec (fun r => denial (verdict r)) l) as Hfind.
  destruct (find_map _ l) as [message|].
  - destruct Hfind as (i & r & Hi & Hr & Hmin). exists i, r. split_and!; [done| |done].
    unfold denial in Hr. by destruct (verdict r) as [[|m]|]; [..|done]; simplify_eq.
  - destruct (existsb _ l) eqn:E.
    + split; [|done]. apply existsb_exists in E as (r & Hin & Hr).
      apply list_elem_of_In, list_elem_of_lookup in Hin as [i Hi]. exists i, r. split; [done|].
      specialize (Hfind i r Hi). cbn in Hfind. unfold denial in Hfind.
      by destruct (verdict r) as [[|m]|].
    + intros i r Hi. destruct (verdict r) eqn:Hv; [|done]. exfalso. apply Bool.not_true_iff_false in E. apply E.
      apply existsb_exists. exists r. split; [|by rewrite Hv].
      by eapply list_elem_of_In, list_elem_of_lookup_2.
Qed.

(** C11. A denial wins over every approval: the decision is the denial of the first
    handler in configured order that denies; it approves only when a handler
    approves and none denies, and without a verdict the approval is left to the
    reviewer. The order in which the runs finish does not matter. *)
Theorem permission_denial_wins finishing handlers (request : ToolRequest Value) input_json :
  let matched :=
    select_handlers_for_matcher_inputs handlers PermissionRequest
      (matcher_inputs (tool_name request) (matcher_aliases request)) in
  to_json (build_command_input request) = Ok input_json ->
  finishing ≡ₚ seq 0 (length matched) ->
  exists outcome, permission_request_run finishing handlers request = Some outcome
  /\ match decision outcome with
     | Some (PermissionDenied message) => exists i run_result,
         runs matched input_json !! i = Some run_result
         /\ verdict run_result = Some (PermissionDenied message)
         /\ forall j earlier, j < i -> runs matched input_json !! j = Some earlier ->
              denial (verdict earlier) = None
     | Some PermissionAllowed =>
         (exists i run_result, runs matched input_json !! i = Some run_result
                               /\ verdict run_result = Some PermissionAllowed)
         /\ forall i run_result, runs matched input_json !! i = Some run_result ->
              denial (verdict run_result) = None
     | None => forall i run_result, runs matched input_json !! i = Some run_result ->
                 verdict run_result = None
     end.
Proof.
  intros matched Hjson HP. unfold permission_request_run. fold matched.
  destruct matched as [|h hs] eqn:Hm; cbn [is_empty]; [by eexists|].
  rewrite <- Hm in *. rewrite Hjson.
  rewrite (execute_total _ _ _ (fun i handler =>
    parsed_handler handler (run_command input_json i handler) (Some (request_turn_id request))
      (interpret_permission_request (run_command input_json i handler))) finishing matched) by done.
  fold (permission_results finishing matched input_json (Some (request_turn_id request))).
  eexists. split; [done|]. cbn [decision]. unfold resolve_permission_request_decision.
  rewrite permission_results_verdicts. apply resolved_verdicts.
Qed.
End Tools.

(** ** Examples *)

(** Outputs named by what they say, in place of JSON objects. *)
Definition demo_universal : HookUniversalOutputWire := mkUniversalWire true None false None.

Definition demo_pre (v : str) : option (PreToolUseCommandOutputWire str) :=
  if bool_decide (v = "{deny}") then
    Some (mkPreToolUseWire demo_universal None None
            (Some (mkPreToolUseSpecific PreToolUse (Some PermissionDeny) (Some "no") None None)))
  else if bool_decide (v = "{rewrite}") then
    Some (mkPreToolUseWire demo_universal None None
            (Some (mkPreToolUseSpecific PreToolUse (Some PermissionAllow) None (Some "ls") None)))
  else None.

Definition demo_permission (v : str) : option (PermissionRequestCommandOutputWire str) :=
  if bool_decide (v = "{deny}") then
    Some (mkPermissionWire demo_universal
            (Some (mkPermissionSpecific PermissionRequest
                     (Some (mkDecisionWire BehaviorDeny None None (Some "no") false)))))
  else if bool_decide (v = "{deny, interrupt}") then
    Some (mkPermissionWire demo_universal
            (Some (mkPermissionSpecific PermissionRequest
                     (Some (mkDecisionWire BehaviorDeny None None (Some "no") true)))))
  else if bool_decide (v = "{allow}") then
    Some (mkPermissionWire demo_universal
            (Some (mkPermissionSpecific PermissionRequest
                     (Some (mkDecisionWire BehaviorAllow None None None false)))))
  else None.

Definition demo_stop (v : str) : option StopCommandOutputWire :=
  if bool_decide (v = "{end}") then
    Some (mkStopWire (mkUniversalWire false (Some "enough") false None) None None)
  else if bool_decide (v = "{block}") then
    Some (mkStopWire demo_universal (Some BlockWire) (Some "go on"))
  else None.

Definition demo_json : HookJson str := {|
  from_str := Some;
  is_object := fun v => starts_with v "{";
  pre_tool_use_wire := demo_pre;
  permission_request_wire := demo_permission;
  post_tool_use_wire := fun _ => None;
  pre_compact_wire := fun _ => None;
  post_compact_wire := fun _ => None;
  session_start_wire := fun _ => None;
  subagent_start_wire := fun _ => None;
  user_prompt_submit_wire := fun _ => None;
  stop_wire := demo_stop;
  subagent_stop_wire := demo_stop
|}.

Definition demo_regex : Regex := fun _ => Ok (fun _ => false).

(** Each handler prints its command. *)
Definition demo_run (_ : str) (_ : nat) (handler : ConfiguredHandler) : CommandRunResult :=
  mkRunResult 1 2 1 (Some 0%Z) (command handler) [] None.

Definition demo_handler (event : HookEventName) (command : str) (order : Z) : ConfiguredHandler :=
  mkHandler event (Some "Bash|Edit") command 600 None [RootDir; Normal "hooks.json"] SourceUser
    order [].

Definition demo_request : ToolRequest str :=
  mkToolRequest "s" "t" None [RootDir] None "m" "default" "Bash" [] "call" "{}".

Lemma pre_tool_use_block_wins_witness :
  exists outcome,
    pre_tool_use_run (json := demo_json) (regex := demo_regex) (pre_to_json := fun _ => Ok [])
      0 demo_run [1; 0]
      [demo_handler PreToolUse "{deny}" 0; demo_handler PreToolUse "{rewrite}" 1] demo_request
    = Some outcome
    /\ block_reason outcome = Some "no" /\ updated_input outcome = None.
Proof.
  destruct (pre_tool_use_block_wins (json := demo_json) (regex := demo_regex)
    (pre_to_json := fun _ => Ok []) 0 demo_run [1; 0]
    [demo_handler PreToolUse "{deny}" 0; demo_handler PreToolUse "{rewrite}" 1] demo_request []
    "Bash" None) as (outcome & Hrun & _).
  - reflexivity.
  - apply (bool_decide_unpack _). vm_compute. reflexivity.
  - exists outcome. split; [exact Hrun|]. vm_compute in Hrun. injection Hrun as <-. split; reflexivity.
Defined.

Lemma permission_denial_wins_witness :
  exists outcome,
    permission_request_run (json := demo_json) (regex := demo_regex)
      (permission_to_json := fun _ => Ok []) 0 demo_run [1; 0]
      [demo_handler PermissionRequest "{allow}" 0; demo_handler PermissionRequest "{deny}" 1]
      demo_request
    = Some outcome /\ decision outcome = Some (PermissionDenied "no").
Proof.
  destruct (permission_denial_wins (json := demo_json) (regex := demo_regex)
    (permission_to_json := fun _ => Ok []) 0 demo_run [1; 0]
    [demo_handler PermissionRequest "{allow}" 0; demo_handler PermissionRequest "{deny}" 1]
    demo_request []) as (outcome & Hrun & _).
  - reflexivity.
  - apply (bool_decide_unpack _). vm_compute. reflexivity.
  - exists outcome. split; [exact Hrun|]. vm_compute in Hrun. injection Hrun as <-. reflexivity.
Defined.

(** A denial that also asks to interrupt is not closed: the field is reserved,
    the run fails, and its denial is dropped. *)
Example interrupting_denial_dropped :
  let handler := demo_handler PermissionRequest "{deny, interrupt}" 0 in
  interpret_permission_request (json := demo_json) (demo_run [] 0 handler)
  = (Failed, [error_entry "PermissionRequest hook returned unsupported interrupt:true"], None).
Proof. vm_compute. reflexivity. Qed.
