(* ===== verification/HookTurn.v ===== *)
(** * Hooks around a turn

    [codex-rs/hooks/src/events/user_prompt_submit.rs], [session_start.rs],
    [compact.rs] and [stop.rs]: the hooks of a prompt, of the start of a session
    or a subagent, of a compaction and of the end of a turn. The theorems state
    that stopping a turn takes precedence over going on with it, that a run that
    failed decides nothing for any event, and that no event panics on the
    handlers it selects. *)

From S2P Require Import Prelude RustStr Truncate AbsolutePath HookConfig HookOutput HookDispatch.
From S2P Require Import HookTools.
#[local] Open Scope str_scope.

(** ** Requests and inputs ([schema.rs]) *)

(** The fields that [UserPromptSubmitRequest], [SessionStartRequest],
    [PreCompactRequest], [PostCompactRequest] and [StopRequest] share. *)
Record TurnRequest := mkTurnRequest {
  turn_session_id : str;
  turn_cwd : PathBuf;
  turn_transcript_path : option PathBuf;
  turn_model : str
}.

(** The fields that their inputs share. *)
Record TurnCommandInput := mkTurnInput {
  turn_in_session_id : str;
  turn_in_transcript_path : option str;
  turn_in_cwd : str;
  turn_in_hook_event_name : str;
  turn_in_model : str
}.

Definition turn_command_input (hook_event_name : str) (request : TurnRequest) : TurnCommandInput :=
  mkTurnInput (turn_session_id request) (nullable_from_path (turn_transcript_path request))
    (render (turn_cwd request)) hook_event_name (turn_model request).

Record UserPromptSubmitRequest := mkPromptRequest {
  prompt_base : TurnRequest;
  prompt_turn_id : str;
  prompt_subagent : option SubagentHookContext;
  prompt_permission_mode : str;
  prompt : str
}.
Record UserPromptSubmitCommandInput := mkPromptInput {
  prompt_in : TurnCommandInput;
  prompt_in_turn_id : str;
  prompt_in_subagent : SubagentCommandInputFields;
  prompt_in_permission_mode : str;
  prompt_in_prompt : str
}.

Inductive SessionStartSource := Startup | Resume | Clear | Compact.
Definition session_start_source_str (self : SessionStartSource) : str :=
  match self with
  | Startup => "startup"
  | Resume => "resume"
  | Clear => "clear"
  | Compact => "compact"
  end.

Inductive StartHookTarget :=
| TargetSessionStart (source : SessionStartSource)
| TargetSubagentStart (turn_id agent_id agent_type : str).

Definition start_event_name (self : StartHookTarget) : HookEventName :=
  match self with TargetSessionStart _ => SessionStart | TargetSubagentStart _ _ _ => SubagentStart end.
Definition start_matcher_input (self : StartHookTarget) : str :=
  match self with
  | TargetSessionStart source => session_start_source_str source
  | TargetSubagentStart _ _ agent_type => agent_type
  end.

Record SessionStartRequest := mkStartRequest {
  start_base : TurnRequest;
  start_permission_mode : str;
  target : StartHookTarget
}.
Record SessionStartCommandInput := mkStartInput {
  start_in : TurnCommandInput;
  start_in_permission_mode : str;
  start_in_source : str
}.
Record SubagentStartCommandInput := mkSubagentStartInput {
  subagent_in : TurnCommandInput;
  subagent_in_turn_id : str;
  subagent_in_permission_mode : str;
  subagent_in_agent_id : str;
  subagent_in_agent_type : str
}.

(** [PreCompactRequest] and [PostCompactRequest]. *)
Record CompactRequest := mkCompactRequest {
  compact_base : TurnRequest;
  compact_turn_id : str;
  compact_subagent : option SubagentHookContext;
  trigger : str
}.
Record CompactCommandInput := mkCompactInput {
  compact_in : TurnCommandInput;
  compact_in_turn_id : str;
  compact_in_subagent : SubagentCommandInputFields;
  compact_in_trigger : str
}.

Inductive StopHookTarget :=
| TargetStop
| TargetSubagentStop (agent_id agent_type : str) (agent_transcript_path : option PathBuf).

Definition stop_event_name (self : StopHookTarget) : HookEventName :=
  match self with TargetStop => Stop | TargetSubagentStop _ _ _ => SubagentStop end.
Definition stop_matcher_input (self : StopHookTarget) : option str :=
  match self with TargetStop => None | TargetSubagentStop _ agent_type _ => Some agent_type end.

Record StopRequest := mkStopRequest {
  stop_base : TurnRequest;
  stop_turn_id : str;
  stop_permission_mode : str;
  stop_hook_active : bool;
  last_assistant_message : option str;
  stop_target : StopHookTarget
}.
Record StopCommandInput := mkStopInput {
  stop_in : TurnCommandInput;
  stop_in_turn_id : str;
  stop_in_permission_mode : str;
  stop_in_stop_hook_active : bool;
  stop_in_last_assistant_message : option str
}.
Record SubagentStopCommandInput := mkSubagentStopInput {
  subagent_stop_in : StopCommandInput;
  subagent_stop_agent_id : str;
  subagent_stop_agent_type : str;
  subagent_stop_agent_transcript_path : option str
}.

(** ** Outcomes *)

(** [UserPromptSubmitOutcome] and [SessionStartOutcome]. *)
Record ContextOutcome := mkContextOutcome {
  context_hook_events : list HookCompletedEvent;
  context_should_stop : bool;
  context_stop_reason : option str;
  context_additional_contexts : list str
}.

(** [UserPromptSubmitHandlerData] and [SessionStartHandlerData]. *)
Record ContextHandlerData := mkContextData {
  ctx_should_stop : bool;
  ctx_stop_reason : option str;
  ctx_contexts_for_model : list str
}.

(** [PreCompactOutcome] and [StatelessHookOutcome]. *)
Record CompactOutcome := mkCompactOutcome {
  compact_hook_events : list HookCompletedEvent;
  compact_should_stop : bool;
  compact_stop_reason : option str
}.
Record CompactHandlerData := mkCompactData {
  cmp_should_stop : bool;
  cmp_stop_reason : option str
}.

(** [HookPromptFragment] of [protocol/src/items.rs]. *)
Record HookPromptFragment := mkFragment { fragment_text : str; hook_run_id : str }.

Record StopOutcome := mkStopOutcome {
  stop_hook_events : list HookCompletedEvent;
  outcome_should_stop : bool;
  outcome_stop_reason : option str;
  outcome_should_block : bool;
  outcome_block_reason : option str;
  outcome_continuation_fragments : list HookPromptFragment
}.
Record StopHandlerData := mkStopData {
  should_stop : bool;
  stop_data_reason : option str;
  stop_should_block : bool;
  stop_block_reason : option str;
  continuation_fragments : list HookPromptFragment
}.

Definition no_context_data : ContextHandlerData := mkContextData false None [].
Definition no_compact_data : CompactHandlerData := mkCompactData false None.
Definition no_stop_data : StopHandlerData := mkStopData false None false None [].

Definition stop_entries (stop_reason : option str) : list HookOutputEntry :=
  match stop_reason with
  | Some stop_reason_text => [mkOutputEntry StopEntry stop_reason_text]
  | None => []
  end.

Section Turn.
Context {Value : Type} {json : HookJson Value} {regex : Regex}.
Context {prompt_to_json : ToJson UserPromptSubmitCommandInput}.
Context {session_start_to_json : ToJson SessionStartCommandInput}.
Context {subagent_start_to_json : ToJson SubagentStartCommandInput}.
Context {compact_to_json : ToJson CompactCommandInput}.
Context {stop_to_json : ToJson StopCommandInput}.
Context {subagent_stop_to_json : ToJson SubagentStopCommandInput}.
Context (now : Z) (run_command : str -> nat -> ConfiguredHandler -> CommandRunResult).

(** ** [user_prompt_submit.rs] *)

Definition interpret_user_prompt_submit (run_result : CommandRunResult)
  : HookRunStatus * list HookOutputEntry * ContextHandlerData :=
  match error run_result with
  | Some error => (failure error, no_context_data)
  | None =>
      match exit_code run_result with
      | Some 0%Z =>
          let trimmed_stdout := trim (stdout run_result) in
          if is_empty trimmed_stdout then ((Completed, []), no_context_data)
          else
            match parse_user_prompt_submit (stdout run_result) with
            | Some parsed =>
                let universal := uo_universal parsed in
                let contexts :=
                  if negb (is_some (uo_invalid_block_reason parsed))
                  then contexts_of (uo_additional_context parsed) else [] in
                let entries := warnings universal ++ context_entries contexts in
                if negb (continue_processing universal) then
                  ((Stopped, entries ++ stop_entries (stop_reason universal)),
                   mkContextData true (stop_reason universal) contexts)
                else
                  match uo_invalid_block_reason parsed with
                  | Some invalid_block_reason =>
                      ((Failed, entries ++ [error_entry invalid_block_reason]),
                       mkContextData false None contexts)
                  | None =>
                      if uo_should_block parsed then
                        ((Blocked,
                          entries ++ match uo_reason parsed with
                                     | Some reason => [mkOutputEntry FeedbackEntry reason]
                                     | None => []
                                     end),
                         mkContextData true (uo_reason parsed) contexts)
                      else ((Completed, entries), mkContextData false None contexts)
                  end
            | None =>
                if looks_like_json (stdout run_result)
                then (failure "hook returned invalid user prompt submit JSON output", no_context_data)
                else ((Completed, context_entries [trimmed_stdout]),
                      mkContextData false None [trimmed_stdout])
            end
      | Some 2%Z =>
          match trimmed_non_empty (stderr run_result) with
          | Some reason =>
              ((Blocked, [mkOutputEntry FeedbackEntry reason]), mkContextData true (Some reason) [])
          | None =>
              (failure
                 "UserPromptSubmit hook exited with code 2 but did not write a blocking reason to stderr",
               no_context_data)
          end
      | Some exit_code => (failure (exited_with exit_code), no_context_data)
      | None => (failure no_status_code, no_context_data)
      end
  end.

Definition user_prompt_submit_completed (handler : ConfiguredHandler)
    (run_result : CommandRunResult) (turn_id : option str)
  : option (ParsedHandler ContextHandlerData) :=
  Some (parsed_handler handler run_result turn_id (interpret_user_prompt_submit run_result)).

Definition context_outcome (results : list (ParsedHandler ContextHandlerData)) : ContextOutcome :=
  mkContextOutcome (map completed results)
    (existsb (fun result => ctx_should_stop (data result)) results)
    (find_map (fun result => ctx_stop_reason (data result)) results)
    (flatten_additional_contexts (map (fun result => ctx_contexts_for_model (data result)) results)).

Definition user_prompt_submit_input (request : UserPromptSubmitRequest)
  : UserPromptSubmitCommandInput :=
  mkPromptInput (turn_command_input "UserPromptSubmit" (prompt_base request))
    (prompt_turn_id request) (subagent_fields (prompt_subagent request))
    (prompt_permission_mode request) (prompt request).

Definition user_prompt_submit_preview (handlers : list ConfiguredHandler) : list HookRunSummary :=
  map (running_summary now) (select_handlers handlers UserPromptSubmit None).

Definition user_prompt_submit_run (finishing : list nat) (handlers : list ConfiguredHandler)
    (request : UserPromptSubmitRequest) : option ContextOutcome :=
  let matched := select_handlers handlers UserPromptSubmit None in
  if is_empty matched then Some (mkContextOutcome [] false None [])
  else
    match to_json (user_prompt_submit_input request) with
    | Err error =>
        Some (mkContextOutcome
                (serialization_failure_hook_events now matched (Some (prompt_turn_id request))
                   ("failed to serialize user prompt submit hook input: " ++ error))
                false None [])
    | Ok input_json =>
        results ← execute_handlers (run_command input_json) user_prompt_submit_completed
                    (Some (prompt_turn_id request)) finishing matched;
        Some (context_outcome results)
    end.

(** ** [session_start.rs] *)

(** [None] is the panic on another event. *)
Definition interpret_session_start (event_name : HookEventName) (run_result : CommandRunResult)
  : option (HookRunStatus * list HookOutputEntry * ContextHandlerData) :=
  match error run_result with
  | Some error => Some (failure error, no_context_data)
  | None =>
      match exit_code run_result with
      | Some 0%Z =>
          let trimmed_stdout := trim (stdout run_result) in
          if is_empty trimmed_stdout then Some ((Completed, []), no_context_data)
          else
            parsed ← match event_name with
                     | SessionStart => Some (parse_session_start (stdout run_result))
                     | SubagentStart => Some (parse_subagent_start (stdout run_result))
                     | _ => None
                     end;
            match parsed with
            | Some parsed =>
                let universal := so_universal parsed in
                let contexts := contexts_of (so_additional_context parsed) in
                let entries := warnings universal ++ context_entries contexts in
                if bool_decide (event_name = SessionStart) && negb (continue_processing universal)
                then
                  Some ((Stopped, entries ++ stop_entries (stop_reason universal)),
                        mkContextData true (stop_reason universal) contexts)
                else Some ((Completed, entries), mkContextData false None contexts)
            | None =>
                if looks_like_json (stdout run_result) then
                  text ← match event_name with
                         | SessionStart => Some "hook returned invalid session start JSON output"
                         | SubagentStart => Some "hook returned invalid subagent start JSON output"
                         | _ => None
                         end;
                  Some (failure text, no_context_data)
                else Some ((Completed, context_entries [trimmed_stdout]),
                           mkContextData false None [trimmed_stdout])
            end
      | Some exit_code => Some (failure (exited_with exit_code), no_context_data)
      | None => Some (failure no_status_code, no_context_data)
      end
  end.

Definition session_start_completed (handler : ConfiguredHandler) (run_result : CommandRunResult)
    (turn_id : option str) : option (ParsedHandler ContextHandlerData) :=
  parsed_handler handler run_result turn_id <$>
    interpret_session_start (event_name handler) run_result.

Definition session_start_preview (handlers : list ConfiguredHandler) (request : SessionStartRequest)
  : list HookRunSummary :=
  map (running_summary now)
    (select_handlers handlers (start_event_name (target request))
       (Some (start_matcher_input (target request)))).

Definition session_start_run (finishing : list nat) (handlers : list ConfiguredHandler)
    (request : SessionStartRequest) (turn_id : option str) : option ContextOutcome :=
  let matched :=
    select_handlers handlers (start_event_name (target request))
      (Some (start_matcher_input (target request))) in
  if is_empty matched then Some (mkContextOutcome [] false None [])
  else
    let input :=
      match target request with
      | TargetSessionStart source =>
          (map_err (fun error =>
             serialization_failure_hook_events now matched turn_id
               ("failed to serialize session start hook input: " ++ error))
             (to_json (mkStartInput (turn_command_input "SessionStart" (start_base request))
                         (start_permission_mode request) (session_start_source_str source))),
           turn_id)
      | TargetSubagentStart subagent_turn_id agent_id agent_type =>
          (map_err (fun error =>
             serialization_failure_hook_events now matched (Some subagent_turn_id)
               ("failed to serialize subagent start hook input: " ++ error))
             (to_json (mkSubagentStartInput (turn_command_input "SubagentStart" (start_base request))
                         subagent_turn_id (start_permission_mode request) agent_id agent_type)),
           Some subagent_turn_id)
      end in
    match fst input with
    | Err hook_events => Some (mkContextOutcome hook_events false None [])
    | Ok input_json =>
        results ← execute_handlers (run_command input_json) session_start_completed (snd input)
                    finishing matched;
        Some (context_outcome results)
    end.

(** ** [compact.rs] *)

(** [parse_pre_completed], and [parse_completed] for [parse_post_completed]. *)
Definition interpret_compact (event_label : str)
    (parse_output : str -> option StatelessHookOutput) (run_result : CommandRunResult)
  : HookRunStatus * list HookOutputEntry * CompactHandlerData :=
  match error run_result with
  | Some error => (failure error, no_compact_data)
  | None =>
      match exit_code run_result with
      | Some 0%Z =>
          if is_empty (trim (stdout run_result)) then ((Completed, []), no_compact_data)
          else
            match parse_output (stdout run_result) with
            | Some parsed =>
                let universal := co_universal parsed in
                let entries := warnings universal in
                if negb (continue_processing universal) then
                  ((Stopped,
                    entries ++ [mkOutputEntry StopEntry
                                  (default (event_label ++ " hook stopped execution")
                                     (stop_reason universal))]),
                   mkCompactData true (stop_reason universal))
                else
                  match co_invalid_reason parsed with
                  | Some invalid_reason =>
                      ((Failed, entries ++ [error_entry invalid_reason]), no_compact_data)
                  | None => ((Completed, entries), no_compact_data)
                  end
            | None =>
                if looks_like_json (stdout run_result)
                then (failure ("hook returned invalid " ++ event_label ++ " hook JSON output"),
                      no_compact_data)
                else ((Completed, []), no_compact_data)
            end
      | Some code =>
          (failure (default (exited_with code) (trimmed_non_empty (stderr run_result))),
           no_compact_data)
      | None => (failure "hook process terminated without an exit code", no_compact_data)
      end
  end.

Definition parse_pre_completed (handler : ConfiguredHandler) (run_result : CommandRunResult)
    (turn_id : option str) : option (ParsedHandler CompactHandlerData) :=
  Some (parsed_handler handler run_result turn_id
          (interpret_compact "PreCompact" parse_pre_compact run_result)).
Definition parse_post_completed (handler : ConfiguredHandler) (run_result : CommandRunResult)
    (turn_id : option str) : option (ParsedHandler CompactHandlerData) :=
  Some (parsed_handler handler run_result turn_id
          (interpret_compact "PostCompact" parse_post_compact run_result)).

Definition compact_command_input (hook_event_name : str) (request : CompactRequest)
  : CompactCommandInput :=
  mkCompactInput (turn_command_input hook_event_name (compact_base request))
    (compact_turn_id request) (subagent_fields (compact_subagent request)) (trigger request).

Definition preview_pre (handlers : list ConfiguredHandler) (request : CompactRequest)
  : list HookRunSummary :=
  map (running_summary now) (select_handlers handlers PreCompact (Some (trigger request))).
Definition preview_post (handlers : list ConfiguredHandler) (request : CompactRequest)
  : list HookRunSummary :=
  map (running_summary now) (select_handlers handlers PostCompact (Some (trigger request))).

Definition compact_outcome (results : list (ParsedHandler CompactHandlerData)) : CompactOutcome :=
  mkCompactOutcome (map completed results)
    (existsb (fun result => cmp_should_stop (data result)) results)
    (find_map (fun result => cmp_stop_reason (data result)) results).

Definition run_pre (finishing : list nat) (handlers : list ConfiguredHandler)
    (request : CompactRequest) : option CompactOutcome :=
  let matched := select_handlers handlers PreCompact (Some (trigger request)) in
  if is_empty matched then Some (mkCompactOutcome [] false None)
  else
    match to_json (compact_command_input "PreCompact" request) with
    | Err error =>
        Some (mkCompactOutcome
                (serialization_failure_hook_events now matched (Some (compact_turn_id request))
                   ("failed to serialize pre compact hook input: " ++ error))
                false None)
    | Ok input_json =>
        results ← execute_handlers (run_command input_json) parse_pre_completed
                    (Some (compact_turn_id request)) finishing matched;
        Some (compact_outcome results)
    end.

Definition run_post (finishing : list nat) (handlers : list ConfiguredHandler)
    (request : CompactRequest) : option CompactOutcome :=
  let matched := select_handlers handlers PostCompact (Some (trigger request)) in
  if is_empty matched then Some (mkCompactOutcome [] false None)
  else
    match to_json (compact_command_input "PostCompact" request) with
    | Err error =>
        Some (mkCompactOutcome
                (serialization_failure_hook_events now matched (Some (compact_turn_id request))
                   ("failed to serialize post compact hook input: " ++ error))
                false None)
    | Ok input_json =>
        results ← execute_handlers (run_command input_json) parse_post_completed
                    (Some (compact_turn_id request)) finishing matched;
        Some (compact_outcome results)
    end.

(** ** [stop.rs] *)

Definition stop_label (event : HookEventName) : option str :=
  match event with
  | Stop => Some "Stop"
  | SubagentStop => Some "SubagentStop"
  | _ => None
  end.

(** [None] is the panic on another event. *)
Definition interpret_stop (event : HookEventName) (run_id : str) (run_result : CommandRunResult)
  : option (HookRunStatus * list HookOutputEntry * StopHandlerData) :=
  label ← stop_label event;
  let is_stop := bool_decide (event = Stop) in
  let block reason :=
    mkStopData false None true (Some reason) [mkFragment reason run_id] in
  Some
    match error run_result with
    | Some error => (failure error, no_stop_data)
    | None =>
        match exit_code run_result with
        | Some 0%Z =>
            if is_empty (trim (stdout run_result)) then ((Completed, []), no_stop_data)
            else
              match
                (if is_stop then parse_stop (stdout run_result)
                 else parse_subagent_stop (stdout run_result))
              with
              | Some parsed =>
                  let universal := st_universal parsed in
                  let entries := warnings universal in
                  if negb (continue_processing universal) then
                    ((Stopped, entries ++ stop_entries (stop_reason universal)),
                     mkStopData true (stop_reason universal) false None [])
                  else
                    match st_invalid_block_reason parsed with
                    | Some invalid_block_reason =>
                        ((Failed, entries ++ [error_entry invalid_block_reason]), no_stop_data)
                    | None =>
                        if st_should_block parsed then
                          match st_reason parsed ≫= trimmed_non_empty with
                          | Some reason =>
                              ((Blocked, entries ++ [mkOutputEntry FeedbackEntry reason]), block reason)
                          | None =>
                              ((Failed,
                                entries ++ [error_entry (label ++
                                  " hook returned decision:block without a non-empty reason")]),
                               no_stop_data)
                          end
                        else ((Completed, entries), no_stop_data)
                    end
              | None =>
                  (failure
                     (if is_stop then "hook returned invalid stop hook JSON output"
                      else "hook returned invalid subagent stop hook JSON output"),
                   no_stop_data)
              end
        | Some 2%Z =>
            match trimmed_non_empty (stderr run_result) with
            | Some reason => ((Blocked, [mkOutputEntry FeedbackEntry reason]), block reason)
            | None =>
                (failure (label ++
                   " hook exited with code 2 but did not write a continuation prompt to stderr"),
                 no_stop_data)
            end
        | Some exit_code => (failure (exited_with exit_code), no_stop_data)
        | None => (failure no_status_code, no_stop_data)
        end
    end.

Definition stop_completed (handler : ConfiguredHandler) (run_result : CommandRunResult)
    (turn_id : option str) : option (ParsedHandler StopHandlerData) :=
  parsed_handler handler run_result turn_id <$>
    interpret_stop (event_name handler) (run_id handler) run_result.

Definition aggregate_results (results : list StopHandlerData) : StopHandlerData :=
  let any_stop := existsb should_stop results in
  let any_block := negb any_stop && existsb stop_should_block results in
  mkStopData any_stop (find_map stop_data_reason results) any_block
    (if any_block then join_text_chunks (omap stop_block_reason results) else None)
    (if any_block
     then concat (map continuation_fragments (List.filter stop_should_block results))
     else []).

Definition stop_preview (handlers : list ConfiguredHandler) (request : StopRequest)
  : list HookRunSummary :=
  map (running_summary now)
    (select_handlers handlers (stop_event_name (stop_target request))
       (stop_matcher_input (stop_target request))).

Definition stop_command_input (hook_event_name : str) (request : StopRequest) : StopCommandInput :=
  mkStopInput (turn_command_input hook_event_name (stop_base request)) (stop_turn_id request)
    (stop_permission_mode request) (stop_hook_active request) (last_assistant_message request).

Definition stop_run (finishing : list nat) (handlers : list ConfiguredHandler)
    (request : StopRequest) : option StopOutcome :=
  let matched :=
    select_handlers handlers (stop_event_name (stop_target request))
      (stop_matcher_input (stop_target request)) in
  if is_empty matched then Some (mkStopOutcome [] false None false None [])
  else
    let failed message :=
      mkStopOutcome
        (serialization_failure_hook_events now matched (Some (stop_turn_id request)) message)
        false None false None [] in
    match
      match stop_target request with
      | TargetStop =>
          map_err (fun error => failed ("failed to serialize stop hook input: " ++ error))
            (to_json (stop_command_input "Stop" request))
      | TargetSubagentStop agent_id agent_type agent_transcript_path =>
          map_err (fun error => failed ("failed to serialize subagent stop hook input: " ++ error))
            (to_json (mkSubagentStopInput (stop_command_input "SubagentStop" request) agent_id
                        agent_type (nullable_from_path agent_transcript_path)))
      end
    with
    | Err outcome => Some outcome
    | Ok input_json =>
        results ← execute_handlers (run_command input_json) stop_completed
                    (Some (stop_turn_id request)) finishing matched;
        let aggregate := aggregate_results (map data results) in
        Some (mkStopOutcome (map completed results) (should_stop aggregate)
                (stop_data_reason aggregate) (stop_should_block aggregate)
                (stop_block_reason aggregate) (continuation_fragments aggregate))
    end.

(** ** Reports *)

Lemma parsed_handler_id {D} handler run_result turn (x : HookRunStatus * list HookOutputEntry * D) :
  id (run (completed (parsed_handler handler run_result turn x))) = run_id handler.
Proof. by destruct x as [[status entries] d]. Qed.

Lemma interpret_session_start_total event run_result :
  event = SessionStart \/ event = SubagentStart ->
  is_Some (interpret_session_start event run_result).
Proof.
  unfold interpret_session_start. intros H.
  destruct (error run_result); [by eexists|].
  destruct (exit_code run_result) as [[|p|p]|]; [|by eexists..].
  destruct (is_empty _); [by eexists|]. destruct H as [-> | ->]; cbn.
  - destruct (parse_session_start _) as [parsed|].
    + cbn. by destruct (continue_processing _); eexists.
    + by destruct (looks_like_json _); eexists.
  - destruct (parse_subagent_start _) as [parsed|]; [by eexists|].
    by destruct (looks_like_json _); eexists.
Qed.

Lemma interpret_stop_total event id run_result :
  event = Stop \/ event = SubagentStop -> is_Some (interpret_stop event id run_result).
Proof. intros [-> | ->]; cbn; by eexists. Qed.
End Turn.

(** ** Every event *)

Section Events.
Context {Value : Type} {json : HookJson Value} {regex : Regex}.
Context {pre_to_json : ToJson (PreToolUseCommandInput Value)}.
Context {permission_to_json : ToJson (ToolCommandInput Value)}.
Context {post_to_json : ToJson (PostToolUseCommandInput Value)}.
Context {prompt_to_json : ToJson UserPromptSubmitCommandInput}.
Context {session_start_to_json : ToJson SessionStartCommandInput}.
Context {subagent_start_to_json : ToJson SubagentStartCommandInput}.
Context {compact_to_json : ToJson CompactCommandInput}.
Context {stop_to_json : ToJson StopCommandInput}.
Context {subagent_stop_to_json : ToJson SubagentStopCommandInput}.
Context (now : Z) (run_command : str -> nat -> ConfiguredHandler -> CommandRunResult).

Definition selected_for_tool (event : HookEventName) (handlers : list ConfiguredHandler)
    (request : ToolRequest Value) : list ConfiguredHandler :=
  select_handlers_for_matcher_inputs handlers event
    (matcher_inputs (tool_name request) (matcher_aliases request)).

(** The ids of the runs of a tool call. *)
Definition tool_run_ids (request : ToolRequest Value) (matched : list ConfiguredHandler)
  : list str :=
  map (fun handler => run_id handler ++ ":" ++ request_id request) matched.

(** A run gives an outcome whose events are those of the ids. *)
Definition reports {O} (outcome : option O) (events : O -> list HookCompletedEvent)
    (ids : list str) : Prop :=
  exists o, outcome = Some o /\ reported_ids (events o) = ids.

Ltac none_matched H := apply is_empty_true in H; rewrite H; eexists; split; [reflexivity|done].
Ltac completes := intros ? ? ?; eexists; split; [reflexivity|apply parsed_handler_id].

Lemma tool_events_reported finishing handlers request tool_response :
  (all_finish finishing (selected_for_tool PreToolUse handlers request) ->
   reports (pre_tool_use_run now run_command finishing handlers request) pre_hook_events
     (tool_run_ids request (selected_for_tool PreToolUse handlers request)))
  /\ (all_finish finishing (selected_for_tool PermissionRequest handlers request) ->
   reports (permission_request_run now run_command finishing handlers request)
     permission_hook_events
     (tool_run_ids request (selected_for_tool PermissionRequest handlers request)))
  /\ (all_finish finishing (selected_for_tool PostToolUse handlers request) ->
   reports (post_tool_use_run now run_command finishing handlers request tool_response)
     post_hook_events
     (tool_run_ids request (selected_for_tool PostToolUse handlers request))).
Proof.
  unfold reports, pre_tool_use_run, permission_request_run, post_tool_use_run, tool_run_ids.
  split_and!.
  all: match goal with |- all_finish _ ?m -> _ => set (matched := m); intros HP end.
  all: fold (selected_for_tool PreToolUse handlers request)
    (selected_for_tool PermissionRequest handlers request)
    (selected_for_tool PostToolUse handlers request); fold matched.
  all: destruct (is_empty matched) eqn:He; [none_matched He|].
  all: destruct (to_json _) as [input_json|text].
  all: try (eexists; split; [reflexivity|apply failures_reported_for_tool_use]).
  all: match goal with |- context [execute_handlers ?r ?p ?t _ _] =>
         destruct (execute_reports r p t finishing matched) as (results & -> & Hids);
           [completes|exact HP|] end.
  all: eexists; split; [reflexivity|]; by apply tool_use_reported.
Qed.

Lemma turn_reported {T} (results : list (ParsedHandler T)) ids :
  map (fun result => id (run (completed result))) results = ids ->
  reported_ids (map completed results) = ids.
Proof. intros <-. unfold reported_ids. by rewrite map_map. Qed.

Lemma prompt_events_reported finishing handlers request :
  let matched := select_handlers handlers UserPromptSubmit None in
  all_finish finishing matched ->
  reports (user_prompt_submit_run now run_command finishing handlers request)
    context_hook_events (map run_id matched).
Proof.
  intros matched HP. unfold reports, user_prompt_submit_run. fold matched.
  destruct (is_empty matched) eqn:He; [none_matched He|].
  destruct (to_json _) as [input_json|text];
    [|eexists; split; [reflexivity|apply failures_reported]].
  edestruct (execute_reports (run_command input_json) user_prompt_submit_completed)
    as (results & -> & Hids); [completes|exact HP|].
  eexists. split; [reflexivity|]. by apply turn_reported.
Qed.

Lemma compact_events_reported finishing handlers request :
  (all_finish finishing (select_handlers handlers PreCompact (Some (trigger request))) ->
   reports (run_pre now run_command finishing handlers request) compact_hook_events
     (map run_id (select_handlers handlers PreCompact (Some (trigger request)))))
  /\ (all_finish finishing (select_handlers handlers PostCompact (Some (trigger request))) ->
   reports (run_post now run_command finishing handlers request) compact_hook_events
     (map run_id (select_handlers handlers PostCompact (Some (trigger request))))).
Proof.
  unfold reports, run_pre, run_post. split.
  all: match goal with |- all_finish _ ?m -> _ => set (matched := m); intros HP end.
  all: destruct (is_empty matched) eqn:He; [none_matched He|].
  all: destruct (to_json _) as [input_json|text];
    [|eexists; split; [reflexivity|apply failures_reported]].
  all: match goal with |- context [execute_handlers ?r ?p ?t _ _] =>
         destruct (execute_reports r p t finishing matched) as (results & -> & Hids);
           [completes|exact HP|] end.
  all: eexists; split; [reflexivity|]; by apply turn_reported.
Qed.

Lemma start_events_reported finishing handlers request turn_id :
  let matched := select_handlers handlers (start_event_name (target request))
                   (Some (start_matcher_input (target request))) in
  all_finish finishing matched ->
  reports (session_start_run now run_command finishing handlers request turn_id)
    context_hook_events (map run_id matched).
Proof.
  intros matched HP. unfold reports, session_start_run. fold matched.
  destruct (is_empty matched) eqn:He; [none_matched He|].
  assert (Hparse : forall input_json turn i handler, matched !! i = Some handler ->
    exists parsed, session_start_completed handler (run_command input_json i handler) turn
                   = Some parsed /\ id (run (completed parsed)) = run_id handler).
  { intros input_json turn i handler Hi. apply selected_event in Hi as [Hevent _].
    destruct (interpret_session_start_total (event_name handler)
                (run_command input_json i handler)) as [x Hx].
    - rewrite Hevent. destruct (target request); [by left|by right].
    - unfold session_start_completed. rewrite Hx. eexists. split; [done|]. apply parsed_handler_id. }
  destruct (target request); cbn [fst snd];
    (destruct (to_json _) as [input_json|text]; cbn [map_err];
      [|eexists; split; [reflexivity|apply failures_reported]]).
  all: edestruct (execute_reports (run_command input_json) session_start_completed)
    as (results & -> & Hids); [apply Hparse|exact HP|].
  all: eexists; split; [reflexivity|]; by apply turn_reported.
Qed.

Lemma stop_events_reported finishing handlers request :
  let matched := select_handlers handlers (stop_event_name (stop_target request))
                   (stop_matcher_input (stop_target request)) in
  all_finish finishing matched ->
  reports (stop_run now run_command finishing handlers request) stop_hook_events
    (map run_id matched).
Proof.
  intros matched HP. unfold reports, stop_run. fold matched.
  destruct (is_empty matched) eqn:He; [none_matched He|].
  assert (Hparse : forall input_json turn i handler, matched !! i = Some handler ->
    exists parsed, stop_completed handler (run_command input_json i handler) turn
                   = Some parsed /\ id (run (completed parsed)) = run_id handler).
  { intros input_json turn i handler Hi. apply selected_event in Hi as [Hevent _].
    destruct (interpret_stop_total (event_name handler) (run_id handler)
                (run_command input_json i handler)) as [x Hx].
    - rewrite Hevent. destruct (stop_target request); [by left|by right].
    - unfold stop_completed. rewrite Hx. eexists. split; [done|]. apply parsed_handler_id. }
  destruct (stop_target request);
    (destruct (to_json _) as [input_json|text]; cbn [map_err];
      [|eexists; split; [reflexivity|apply failures_reported]]).
  all: edestruct (execute_reports (run_command input_json) stop_completed)
    as (results & -> & Hids); [apply Hparse|exact HP|].
  all: eexists; split; [reflexivity|]; by apply turn_reported.
Qed.

(** ** The engine ([engine/mod.rs]) *)

(** The requests of [ClaudeHooksEngine]. *)
Inductive HookCall :=
| CallPreToolUse (request : ToolRequest Value)
| CallPermissionRequest (request : ToolRequest Value)
| CallPostToolUse (request : ToolRequest Value) (tool_response : Value)
| CallUserPromptSubmit (request : UserPromptSubmitRequest)
| CallSessionStart (request : SessionStartRequest) (turn_id : option str)
| CallPreCompact (request : CompactRequest)
| CallPostCompact (request : CompactRequest)
| CallStop (request : StopRequest).

(** [preview_*]: the runs that are shown as running. *)
Definition preview (handlers : list ConfiguredHandler) (call : HookCall) : list HookRunSummary :=
  match call with
  | CallPreToolUse request => pre_tool_use_preview now handlers request
  | CallPermissionRequest request => permission_request_preview now handlers request
  | CallPostToolUse request _ => post_tool_use_preview now handlers request
  | CallUserPromptSubmit _ => user_prompt_submit_preview now handlers
  | CallSessionStart request _ => session_start_preview now handlers request
  | CallPreCompact request => preview_pre now handlers request
  | CallPostCompact request => preview_post now handlers request
  | CallStop request => stop_preview now handlers request
  end.

(** [run_*]: the events of the runs that completed. *)
Definition run_events (finishing : list nat) (handlers : list ConfiguredHandler) (call : HookCall)
  : option (list HookCompletedEvent) :=
  match call with
  | CallPreToolUse request =>
      pre_hook_events <$> pre_tool_use_run now run_command finishing handlers request
  | CallPermissionRequest request =>
      permission_hook_events <$> permission_request_run now run_command finishing handlers request
  | CallPostToolUse request tool_response =>
      post_hook_events <$>
        post_tool_use_run now run_command finishing handlers request tool_response
  | CallUserPromptSubmit request =>
      context_hook_events <$> user_prompt_submit_run now run_command finishing handlers request
  | CallSessionStart request turn_id =>
      context_hook_events <$> session_start_run now run_command finishing handlers request turn_id
  | CallPreCompact request =>
      compact_hook_events <$> run_pre now run_command finishing handlers request
  | CallPostCompact request =>
      compact_hook_events <$> run_post now run_command finishing handlers request
  | CallStop request => stop_hook_events <$> stop_run now run_command finishing handlers request
  end.

Lemma reports_events {O} (outcome : option O) events ids :
  reports outcome events ids -> exists l, events <$> outcome = Some l /\ reported_ids l = ids.
Proof. intros (o & -> & Hids). by exists (events o). Qed.

(** C14. Every run that is shown as running completes, once, and in the order it was
    shown in: no event panics, whatever the commands return, whatever order
    they finish in, and also when the input cannot be serialised. *)
Theorem every_previewed_run_completes finishing handlers call :
  finishing ≡ₚ seq 0 (length (preview handlers call)) ->
  exists events, run_events finishing handlers call = Some events
  /\ map (fun event => id (run event)) events = map id (preview handlers call).
Proof.
  destruct call; cbn [preview run_events];
    unfold pre_tool_use_preview, permission_request_preview, post_tool_use_preview,
      user_prompt_submit_preview, session_start_preview, preview_pre, preview_post, stop_preview;
    rewrite length_map, map_map; intros HP; apply reports_events.
  - by apply (tool_events_reported finishing handlers request (tool_input request)).
  - by apply (tool_events_reported finishing handlers request (tool_input request)).
  - by apply tool_events_reported.
  - by apply prompt_events_reported.
  - by apply start_events_reported.
  - by apply compact_events_reported.
  - by apply compact_events_reported.
  - by apply stop_events_reported.
Qed.
End Events.

(** ** What a run decides *)

Section Decisions.
Context {Value : Type} {json : HookJson Value}.

(** What makes a run faulty.  An event whose hooks give a [verdict] reads a
    status of 2 as one, with its text on the error stream; the output of a run
    that ends with status 0 is blank, or parses to something not [invalid], or
    is [plain] text, which does not look like JSON. *)
Record OutputRules (O : Type) := mkOutputRules {
  verdict_status : bool;
  plain_text : bool;
  parses : str -> option O;
  invalid : O -> bool
}.
Arguments mkOutputRules {O} _ _ _ _.
Arguments verdict_status {O} _.
Arguments plain_text {O} _.
Arguments parses {O} _ _.
Arguments invalid {O} _ _.

Definition bad_output {O} (rules : OutputRules O) (stdout : str) : bool :=
  negb (is_empty (trim stdout))
  && match parses rules stdout with
     | Some parsed => invalid rules parsed
     | None => looks_like_json stdout || negb (plain_text rules)
     end.

Definition bad_verdict {O} (rules : OutputRules O) (stderr : str) : bool :=
  negb (verdict_status rules && is_some (trimmed_non_empty stderr)).

Definition faulty {O} (rules : OutputRules O) (r : CommandRunResult) : bool :=
  is_some (error r)
  || match exit_code r with
     | Some 0%Z => bad_output rules (stdout r)
     | Some 2%Z => bad_verdict rules (stderr r)
     | _ => true
     end.

(** An output that asks to stop stops the turn, whatever else it says. *)
Definition goes_on_invalid (universal : UniversalOutput) (wrong : bool) : bool :=
  continue_processing universal && wrong.

Definition pre_rules : OutputRules (PreToolUseOutput Value) :=
  mkOutputRules true true parse_pre_tool_use (fun o => is_some (po_invalid_reason o)).
Definition permission_rules : OutputRules PermissionRequestOutput :=
  mkOutputRules true true parse_permission_request (fun o => is_some (ro_invalid_reason o)).
Definition post_rules : OutputRules PostToolUseOutput :=
  mkOutputRules true true parse_post_tool_use (fun o =>
    goes_on_invalid (to_universal o)
      (is_some (to_invalid_reason o) || is_some (to_invalid_block_reason o))).
Definition prompt_rules : OutputRules UserPromptSubmitOutput :=
  mkOutputRules true true parse_user_prompt_submit (fun o =>
    goes_on_invalid (uo_universal o) (is_some (uo_invalid_block_reason o))).
Definition compact_rules (parse_output : str -> option StatelessHookOutput) :
    OutputRules StatelessHookOutput :=
  mkOutputRules false true parse_output (fun o =>
    goes_on_invalid (co_universal o) (is_some (co_invalid_reason o))).
Definition start_rules (event : HookEventName) : OutputRules SessionStartOutput :=
  mkOutputRules false true
    (if bool_decide (event = SessionStart) then parse_session_start else parse_subagent_start)
    (fun _ => false).
Definition stop_rules (event : HookEventName) : OutputRules StopOutput :=
  mkOutputRules true false
    (if bool_decide (event = Stop) then parse_stop else parse_subagent_stop) (fun o =>
    goes_on_invalid (st_universal o)
      (is_some (st_invalid_block_reason o)
       || st_should_block o && negb (is_some (st_reason o ≫= trimmed_non_empty)))).

Definition failed_empty {D} (nothing : D) (x : HookRunStatus * list HookOutputEntry * D) : Prop :=
  fst (fst x) = Failed /\ snd x = nothing.

(** A [bad] run is reported as failed and leaves [nothing]; another is not. *)
Definition fails_exactly {D} (nothing : D) (bad : bool)
    (interpreted : HookRunStatus * list HookOutputEntry * D) : Prop :=
  if bad then failed_empty nothing interpreted else fst (fst interpreted) <> Failed.

Lemma fails_exactly_intro {O D} (rules : OutputRules O) (nothing : D) r x :
  (forall text, error r = Some text -> failed_empty nothing x) ->
  (error r = None -> exit_code r = Some 0%Z -> fails_exactly nothing (bad_output rules (stdout r)) x) ->
  (error r = None -> exit_code r = Some 2%Z -> fails_exactly nothing (bad_verdict rules (stderr r)) x) ->
  (forall code, error r = None -> exit_code r = Some code -> code <> 0%Z -> code <> 2%Z ->
     failed_empty nothing x) ->
  (error r = None -> exit_code r = None -> failed_empty nothing x) ->
  fails_exactly nothing (faulty rules r) x.
Proof.
  intros Hbroken Hzero Htwo Hother Hnone. unfold faulty.
  destruct (run_cases r) as [text He|He Hc|He Hc|code He Hc Hz Ht|He Hc]; rewrite ?He, ?Hc.
  - by apply (Hbroken text).
  - by apply Hzero.
  - by apply Htwo.
  - specialize (Hother code He Hc Hz Ht). by destruct code as [|[p|[p|p|]|]|p].
  - by apply Hnone.
Qed.

(** The five cases of a run, with the code's own match reduced in each. *)
Ltac by_run_case :=
  apply fails_exactly_intro;
  [ by intros text -> | intros -> -> | intros -> ->
  | intros [|[p|[p|p|]|]|p] -> -> ?? ; done | by intros -> -> ].

(** A verdict on the error stream. *)
Ltac by_verdict := unfold bad_verdict; cbn; by destruct (trimmed_non_empty _).

Lemma pre_fails_exactly r :
  fails_exactly no_pre_data (faulty pre_rules r) (interpret_pre_tool_use r).
Proof.
  unfold interpret_pre_tool_use. by_run_case; [|by_verdict].
  unfold bad_output; cbn. destruct (is_empty _); [done|].
  destruct (parse_pre_tool_use _) as [parsed|].
  - destruct (po_invalid_reason parsed); [done|]. by destruct (po_block_reason parsed).
  - by destruct (looks_like_json _).
Qed.

Lemma permission_fails_exactly r :
  fails_exactly None (faulty permission_rules r) (interpret_permission_request r).
Proof.
  unfold interpret_permission_request. by_run_case; [|by_verdict].
  unfold bad_output; cbn. destruct (is_empty _); [done|].
  destruct (parse_permission_request _) as [parsed|].
  - destruct (ro_invalid_reason parsed); [done|]. by destruct (ro_decision parsed) as [[]|].
  - by destruct (looks_like_json _).
Qed.

Lemma post_fails_exactly r :
  fails_exactly no_post_data (faulty post_rules r) (interpret_post_tool_use r).
Proof.
  unfold interpret_post_tool_use. by_run_case; [|by_verdict].
  unfold bad_output; cbn. unfold goes_on_invalid. destruct (is_empty _); [done|].
  destruct (parse_post_tool_use _) as [parsed|]; [|by destruct (looks_like_json _)].
  destruct (continue_processing _); [|done].
  destruct (to_invalid_reason parsed), (to_invalid_block_reason parsed); cbn; try done.
  by destruct (to_should_block parsed), (to_reason parsed).
Qed.

Lemma prompt_fails_exactly r :
  fails_exactly no_context_data (faulty prompt_rules r) (interpret_user_prompt_submit r).
Proof.
  unfold interpret_user_prompt_submit. by_run_case; [|by_verdict].
  unfold bad_output; cbn. unfold goes_on_invalid. destruct (is_empty _); [done|].
  destruct (parse_user_prompt_submit _) as [parsed|]; [|by destruct (looks_like_json _)].
  destruct (continue_processing _); [|done].
  destruct (uo_invalid_block_reason parsed); cbn; [done|]. by destruct (uo_should_block parsed).
Qed.

Lemma compact_fails_exactly label parse_output r :
  fails_exactly no_compact_data (faulty (compact_rules parse_output) r)
    (interpret_compact label parse_output r).
Proof.
  unfold interpret_compact. by_run_case; [|done].
  unfold bad_output; cbn. unfold goes_on_invalid. destruct (is_empty _); [done|].
  destruct (parse_output _) as [parsed|]; [|by destruct (looks_like_json _)].
  destruct (continue_processing _); [|done]. by destruct (co_invalid_reason parsed).
Qed.

Lemma start_fails_exactly event r x :
  interpret_session_start event r = Some x ->
  fails_exactly no_context_data (faulty (start_rules event) r) x.
Proof.
  unfold interpret_session_start. intros Hx. apply fails_exactly_intro.
  - intros text He. rewrite He in Hx. by injection Hx as <-.
  - intros He Hc. rewrite He, Hc in Hx. cbv zeta in Hx. unfold bad_output; cbn.
    destruct (is_empty _); [by injection Hx as <-|].
    destruct event; cbn in Hx |- *; try discriminate Hx.
    + rewrite bool_decide_eq_true_2 by done.
      destruct (parse_session_start _) as [parsed|]; cbn in Hx.
      * by destruct (negb _); injection Hx as <-.
      * by destruct (looks_like_json _); injection Hx as <-.
    + rewrite bool_decide_eq_false_2 by done.
      destruct (parse_subagent_start _) as [parsed|]; cbn in Hx; [by injection Hx as <-|].
      by destruct (looks_like_json _); injection Hx as <-.
  - intros He Hc. rewrite He, Hc in Hx. by injection Hx as <-.
  - intros code He Hc Hz Ht. rewrite He, Hc in Hx.
    by destruct code; [done|..]; injection Hx as <-.
  - intros He Hc. rewrite He, Hc in Hx. by injection Hx as <-.
Qed.

Lemma stop_fails_exactly event id r x :
  interpret_stop event id r = Some x ->
  fails_exactly no_stop_data (faulty (stop_rules event) r) x.
Proof.
  unfold interpret_stop. destruct (stop_label event) as [label|]; [|done]. cbn [mbind option_bind].
  intros [= <-]. by_run_case; [|by_verdict].
  unfold bad_output; cbn. unfold goes_on_invalid. destruct (is_empty _); [done|].
  replace ((if bool_decide (event = Stop) then parse_stop else parse_subagent_stop) (stdout r))
    with (if bool_decide (event = Stop) then parse_stop (stdout r) else parse_subagent_stop (stdout r))
    by by destruct (bool_decide _).
  destruct (if bool_decide _ then _ else _) as [parsed|]; [|by destruct (looks_like_json _)].
  destruct (continue_processing _); [|done].
  destruct (st_invalid_block_reason parsed); [done|]. destruct (st_should_block parsed); [|done].
  by destruct (_ ≫= trimmed_non_empty).
Qed.

End Decisions.

(** ** The end of a turn *)

(** What a run asks of the turn that is ending. *)
Inductive StopEffect :=
| Ends (stop_reason : option str)
| GoesOn (prompt : str)
| NoEffect.

Definition ends (effect : StopEffect) : bool := match effect with Ends _ => true | _ => false end.
Definition goes_on (effect : StopEffect) : option str :=
  match effect with GoesOn prompt => Some prompt | _ => None end.
Definition end_reason (effect : StopEffect) : option str :=
  match effect with Ends stop_reason => stop_reason | _ => None end.

Section StopTurn.
Context {Value : Type} {json : HookJson Value} {regex : Regex}.
Context {stop_to_json : ToJson StopCommandInput}.
Context {subagent_stop_to_json : ToJson SubagentStopCommandInput}.
Context (now : Z) (run_command : str -> nat -> ConfiguredHandler -> CommandRunResult).

Definition stop_effect (event : HookEventName) (run_result : CommandRunResult) : StopEffect :=
  match error run_result, exit_code run_result with
  | None, Some 0%Z =>
      match
        (if bool_decide (event = Stop) then parse_stop (stdout run_result)
         else parse_subagent_stop (stdout run_result))
      with
      | Some parsed =>
          if negb (continue_processing (st_universal parsed))
          then Ends (stop_reason (st_universal parsed))
          else if st_should_block parsed then
            match st_reason parsed ≫= trimmed_non_empty with
            | Some prompt => GoesOn prompt
            | None => NoEffect
            end
          else NoEffect
      | None => NoEffect
      end
  | None, Some 2%Z =>
      match trimmed_non_empty (stderr run_result) with
      | Some prompt => GoesOn prompt
      | None => NoEffect
      end
  | _, _ => NoEffect
  end.

(** The data a handler leaves for its effect. *)
Definition data_of_effect (id : str) (effect : StopEffect) : StopHandlerData :=
  match effect with
  | Ends stop_reason => mkStopData true stop_reason false None []
  | GoesOn prompt => mkStopData false None true (Some prompt) [mkFragment prompt id]
  | NoEffect => no_stop_data
  end.

Lemma parse_stop_blank stdout (parse : str -> option StopOutput) :
  parse = parse_stop \/ parse = parse_subagent_stop ->
  is_empty (trim stdout) = true -> parse stdout = None.
Proof.
  intros [-> | ->] H; unfold parse_stop, parse_subagent_stop, parse_json; by rewrite H.
Qed.

Lemma parse_stop_invalid stdout parsed :
  parse_stop stdout = Some parsed \/ parse_subagent_stop stdout = Some parsed ->
  st_invalid_block_reason parsed <> None -> st_should_block parsed = false.
Proof.
  unfold parse_stop, parse_subagent_stop. intros [H|H]; destruct (parse_json _ _); try done;
    injection H as <-; unfold stop_output; cbn;
    (destruct (is_some _ && blank_reason _) eqn:E; [|done]); intros _; by rewrite andb_false_r.
Qed.

Lemma interpret_stop_effect event id r :
  event = Stop \/ event = SubagentStop ->
  snd <$> interpret_stop event id r = Some (data_of_effect id (stop_effect event r)).
Proof.
  intros Hevent. unfold interpret_stop, stop_effect.
  assert (exists label, stop_label event = Some label) as [label ->]
    by (destruct Hevent as [-> | ->]; by eexists).
  cbn [mbind option_bind fmap option_fmap option_map]. f_equal.
  destruct (run_cases r) as [text He|He Hc|He Hc|code He Hc Hz Ht|He Hc]; rewrite He; [done| | | |].
  - rewrite Hc. set (out := if bool_decide _ then _ else _).
    destruct (is_empty (trim (stdout r))) eqn:Hblank.
    + assert (out = None) as ->; [|done]. unfold out.
      destruct (bool_decide _); eapply parse_stop_blank; eauto.
    + destruct out as [parsed|] eqn:Hout; [|done].
      destruct (negb (continue_processing _)); [done|].
      destruct (st_invalid_block_reason parsed) eqn:Hinv.
      * rewrite (parse_stop_invalid (stdout r) parsed); [done| |by rewrite Hinv].
        unfold out in Hout. destruct (bool_decide _); auto.
      * destruct (st_should_block parsed); [|done]. by destruct (_ ≫= trimmed_non_empty).
  - rewrite Hc. by destruct (trimmed_non_empty _).
  - rewrite Hc. destruct code as [|[p|[p|p|]|]|p]; done.
  - by rewrite Hc.
Qed.

(** The fragment a handler adds to the turn that goes on. *)
Definition fragment (e : str * StopEffect) : option HookPromptFragment :=
  (fun prompt => mkFragment prompt (fst e)) <$> goes_on (snd e).

Lemma aggregate_effects (l : list (str * StopEffect)) :
  let results := map (fun e => data_of_effect (fst e) (snd e)) l in
  existsb should_stop results = existsb ends (map snd l)
  /\ find_map stop_data_reason results = find_map end_reason (map snd l)
  /\ existsb stop_should_block results = negb (is_empty (omap goes_on (map snd l)))
  /\ omap stop_block_reason results = omap goes_on (map snd l)
  /\ concat (map continuation_fragments (List.filter stop_should_block results))
     = omap fragment l.
Proof.
  cbv zeta. induction l as [|[id effect] l (IH1 & IH2 & IH3 & IH4 & IH5)]; [done|].
  cbn [map existsb find_map omap list_omap List.filter fst snd] in *. rewrite IH1, IH2, IH3, IH4.
  destruct effect as [reason|prompt|]; cbn; rewrite ?IH5; done.
Qed.

(** What the matching handlers return for a turn that ends. *)
Definition stop_effects (matched : list ConfiguredHandler) (event : HookEventName)
    (input_json : str) : list (str * StopEffect) :=
  imap (fun i handler => (run_id handler, stop_effect event (run_command input_json i handler)))
    matched.

Definition stop_input (request : StopRequest) : result str str :=
  match stop_target request with
  | TargetStop => to_json (stop_command_input "Stop" request)
  | TargetSubagentStop agent_id agent_type agent_transcript_path =>
      to_json (mkSubagentStopInput (stop_command_input "SubagentStop" request) agent_id agent_type
                 (nullable_from_path agent_transcript_path))
  end.

Lemma stop_results finishing matched event input_json turn_id :
  event = Stop \/ event = SubagentStop ->
  (forall i handler, matched !! i = Some handler -> event_name handler = event) ->
  finishing ≡ₚ seq 0 (length matched) ->
  exists results,
    execute_handlers (run_command input_json) stop_completed turn_id finishing matched = Some results
    /\ map data results
       = map (fun e => data_of_effect (fst e) (snd e)) (stop_effects matched event input_json).
Proof.
  intros Hevent Hmatched HP.
  destruct (execute_maps (run_command input_json) stop_completed turn_id data
    (fun i handler => data_of_effect (run_id handler)
                        (stop_effect event (run_command input_json i handler)))
    finishing matched) as (results & Hex & Hmap); [done| |done|].
  - intros i handler Hi. unfold stop_completed. rewrite (Hmatched i handler Hi).
    pose proof (interpret_stop_effect event (run_id handler) (run_command input_json i handler)
                  Hevent) as Heff.
    destruct (interpret_stop _ _ _) as [x|]; [|done]. injection Heff as <-.
    eexists. split; [done|]. by destruct x as [[status entries] d].
  - exists results. split; [done|]. rewrite Hmap. unfold stop_effects. apply list_eq. intros i.
    rewrite map_lookup, !list_lookup_imap. by destruct (matched !! i).
Qed.

(** C15. Ending a turn wins over going on with it: when a handler ends the turn, no
    handler's prompt continues it; otherwise every prompt does, in configured
    order, each with the id of the run that gave it. The order in which the
    runs finish does not matter. *)
Theorem ending_wins_over_continuing finishing handlers request input_json :
  let event := stop_event_name (stop_target request) in
  let matched := select_handlers handlers event (stop_matcher_input (stop_target request)) in
  let effects := stop_effects matched event input_json in
  let prompts := omap goes_on (map snd effects) in
  stop_input request = Ok input_json ->
  finishing ≡ₚ seq 0 (length matched) ->
  exists outcome, stop_run now run_command finishing handlers request = Some outcome
  /\ outcome_should_stop outcome = existsb ends (map snd effects)
  /\ outcome_stop_reason outcome = find_map end_reason (map snd effects)
  /\ outcome_should_block outcome = negb (existsb ends (map snd effects)) && negb (is_empty prompts)
  /\ (outcome_block_reason outcome, outcome_continuation_fragments outcome)
     = if outcome_should_block outcome then (Some (join [NL; NL] prompts), omap fragment effects)
       else (None, []).
Proof.
  intros event matched effects prompts Hjson HP. unfold stop_run. fold event matched.
  destruct (is_empty matched) eqn:He.
  { apply is_empty_true in He. unfold prompts, effects. rewrite He. eexists. by split_and!. }
  destruct (stop_results finishing matched event input_json (Some (stop_turn_id request)))
    as (results & Hexec & Hdata).
  - unfold event. destruct (stop_target request); auto.
  - intros i handler Hi. by apply selected_event in Hi as [-> _].
  - done.
  - destruct (aggregate_effects effects) as (H1 & H2 & H3 & H4 & H5).
    unfold stop_input in Hjson.
    assert (Hagg : aggregate_results (map data results)
      = mkStopData (existsb ends (map snd effects)) (find_map end_reason (map snd effects))
          (negb (existsb ends (map snd effects)) && negb (is_empty prompts))
          (if negb (existsb ends (map snd effects)) && negb (is_empty prompts)
           then Some (join [NL; NL] prompts) else None)
          (if negb (existsb ends (map snd effects)) && negb (is_empty prompts)
           then omap fragment effects else [])).
    { unfold aggregate_results. rewrite Hdata. fold effects. rewrite H1, H2, H3, H4, H5.
      fold prompts. unfold join_text_chunks. by destruct (existsb ends _), (is_empty prompts). }
    destruct (stop_target request); rewrite Hjson; cbn [map_err]; rewrite Hexec;
      (eexists; split; [reflexivity|]; rewrite Hagg; cbn; split_and!; try done;
       by destruct (negb _ && negb _)).
Qed.
End StopTurn.

(** ** Examples *)

Definition demo_turn : TurnRequest := mkTurnRequest "s" [RootDir] None "m".
Definition demo_stop_request : StopRequest :=
  mkStopRequest demo_turn "t" "default" false None TargetStop.

Lemma every_previewed_run_completes_witness :
  exists events,
    run_events (json := demo_json) (regex := demo_regex) (pre_to_json := fun _ => Ok [])
      (permission_to_json := fun _ => Ok []) (post_to_json := fun _ => Ok [])
      (prompt_to_json := fun _ => Ok []) (session_start_to_json := fun _ => Ok [])
      (subagent_start_to_json := fun _ => Ok []) (compact_to_json := fun _ => Ok [])
      (stop_to_json := fun _ => Ok []) (subagent_stop_to_json := fun _ => Ok [])
      0 demo_run [1; 0] [demo_handler Stop "{block}" 0; demo_handler Stop "{end}" 1]
      (CallStop demo_stop_request) = Some events
    /\ map (fun event => id (run event)) events = ["stop:0:/hooks.json"; "stop:1:/hooks.json"].
Proof.
  destruct (every_previewed_run_completes (json := demo_json) (regex := demo_regex)
    (pre_to_json := fun _ => Ok []) (permission_to_json := fun _ => Ok [])
    (post_to_json := fun _ => Ok []) (prompt_to_json := fun _ => Ok [])
    (session_start_to_json := fun _ => Ok []) (subagent_start_to_json := fun _ => Ok [])
    (compact_to_json := fun _ => Ok []) (stop_to_json := fun _ => Ok [])
    (subagent_stop_to_json := fun _ => Ok []) 0 demo_run [1; 0]
    [demo_handler Stop "{block}" 0; demo_handler Stop "{end}" 1] (CallStop demo_stop_request))
    as (events & Hrun & Hids).
  - apply (bool_decide_unpack _). vm_compute. reflexivity.
  - exists events. split; [exact Hrun|]. rewrite Hids. vm_compute. reflexivity.
Defined.

Lemma ending_wins_over_continuing_witness :
  exists outcome,
    stop_run (json := demo_json) (regex := demo_regex) (stop_to_json := fun _ => Ok [])
      (subagent_stop_to_json := fun _ => Ok []) 0 demo_run [1; 0]
      [demo_handler Stop "{block}" 0; demo_handler Stop "{end}" 1] demo_stop_request = Some outcome
    /\ outcome_should_stop outcome = true /\ outcome_continuation_fragments outcome = [].
Proof.
  destruct (ending_wins_over_continuing (json := demo_json) (regex := demo_regex)
    (stop_to_json := fun _ => Ok []) (subagent_stop_to_json := fun _ => Ok []) 0 demo_run [1; 0]
    [demo_handler Stop "{block}" 0; demo_handler Stop "{end}" 1] demo_stop_request [])
    as (outcome & Hrun & _).
  - reflexivity.
  - apply (bool_decide_unpack _). vm_compute. reflexivity.
  - exists outcome. split; [exact Hrun|]. vm_compute in Hrun. injection Hrun as <-. split; reflexivity.
Defined.

Example a_prompt_goes_on :
  continuation_fragments <$>
    (snd <$> interpret_stop (json := demo_json) Stop "stop:0:/hooks.json"
               (demo_run [] 0 (demo_handler Stop "{block}" 0)))
  = Some [mkFragment "go on" "stop:0:/hooks.json"].
Proof. vm_compute. reflexivity. Qed.
