(* ===== verification/HookSpill.v ===== *)
(** * Hook outputs that are too long for the model

    [codex-rs/hooks/src/output_spill.rs]: a text a hook adds to the context is
    kept within a budget of tokens; a longer one is written to a file, and a
    preview that names the file takes its place. *)

From S2P Require Import Prelude RustStr Truncate AbsolutePath HookDispatch HookTools HookTurn.
#[local] Open Scope str_scope.

Definition HOOK_OUTPUT_TOKEN_LIMIT : N := 2500.

(** The file system: whether a directory can be made and a file written. *)
Record SpillFs := mkSpillFs {
  create_dir_all : PathBuf -> bool;
  write : PathBuf -> str -> bool
}.

(** The text for the model, and the file that was written. *)
Record Spilled := mkSpilled { shown : str; saved : option (PathBuf * str) }.

Section Spill.
Context (home_dir : option str) (fs : SpillFs).

(** [uuid] is the fresh [Uuid::new_v4()] of the file. *)
Definition hook_output_path (output_dir : PathBuf) (thread_id uuid : str) : PathBuf :=
  abs_join home_dir (abs_join home_dir output_dir thread_id) (uuid ++ ".txt").

Definition spilled_hook_output_preview (text : str) (path : PathBuf) : option str :=
  let footer := [NL; NL] ++ "Full hook output saved to: " ++ render path in
  let preview_policy :=
    Tokens (saturating_sub HOOK_OUTPUT_TOKEN_LIMIT (approx_token_count footer)) in
  preview ← formatted_truncate_text text preview_policy;
  Some (preview ++ footer).

Definition truncated_output (text : str) : option Spilled :=
  (fun shown => mkSpilled shown None)
  <$> formatted_truncate_text text (Tokens HOOK_OUTPUT_TOKEN_LIMIT).

(** [None] is a panic of the truncation. *)
Definition maybe_spill_text (output_dir : PathBuf) (thread_id uuid text : str) : option Spilled :=
  if (approx_token_count text <=? HOOK_OUTPUT_TOKEN_LIMIT)%N then Some (mkSpilled text None)
  else
    let path := hook_output_path output_dir thread_id uuid in
    if match parent path with Some parent => negb (create_dir_all fs parent) | None => false end
    then truncated_output text
    else if negb (write fs path text) then truncated_output text
    else
      shown ← spilled_hook_output_preview text path;
      Some (mkSpilled shown (Some (path, text))).

Definition maybe_spill_texts (output_dir : PathBuf) (thread_id : str) (texts : list (str * str))
  : option (list Spilled) :=
  mapM (fun e => maybe_spill_text output_dir thread_id (fst e) (snd e)) texts.

Definition maybe_spill_prompt_fragments (output_dir : PathBuf) (thread_id : str)
    (fragments : list (str * HookPromptFragment)) : option (list HookPromptFragment) :=
  mapM (fun e =>
    spilled ← maybe_spill_text output_dir thread_id (fst e) (fragment_text (snd e));
    Some (mkFragment (shown spilled) (hook_run_id (snd e)))) fragments.
End Spill.

(** A text is shown as it is, or saved as it is, or it was not possible to save
    it; spilling never panics. *)
Theorem spilled_text_kept home_dir fs output_dir thread_id uuid text :
  (blen text <= USIZE_MAX)%N ->
  exists spilled, maybe_spill_text home_dir fs output_dir thread_id uuid text = Some spilled
  /\ match saved spilled with
     | Some (path, kept) =>
         kept = text /\ write fs path text = true
         /\ exists preview, shown spilled
              = preview ++ [NL; NL] ++ "Full hook output saved to: " ++ render path
     | None =>
         shown spilled = text
         \/ let path := hook_output_path home_dir output_dir thread_id uuid in
            write fs path text = false
            \/ (parent path ≫= fun p => Some (create_dir_all fs p)) = Some false
     end.
Proof.
  intros Hlen. assert (Hformat : forall policy, is_Some (formatted_truncate_text text policy)).
  { intros policy. unfold formatted_truncate_text. destruct (blen text <=? _)%N; [by eexists|].
    destruct (truncate_text_total text policy Hlen) as [result ->]. by eexists. }
  unfold maybe_spill_text. destruct (approx_token_count text <=? _)%N.
  { eexists. split; [done|]. by left. }
  set (path := hook_output_path home_dir output_dir thread_id uuid).
  destruct (Hformat (Tokens HOOK_OUTPUT_TOKEN_LIMIT)) as [short Hshort].
  unfold truncated_output. rewrite Hshort.
  destruct (parent path) as [dir|] eqn:Hdir; [destruct (create_dir_all fs dir) eqn:Hmk|].
  2:{ eexists. split; [done|]. right. right. cbn. by rewrite Hmk. }
  all: cbn [negb]; destruct (write fs path text) eqn:Hwrite; cbn [negb];
    [|eexists; split; [done|]; right; by left].
  all: unfold spilled_hook_output_preview; cbv zeta;
    match goal with |- context [formatted_truncate_text _ ?p] =>
      destruct (Hformat p) as [preview ->] end.
  all: eexists; split; [reflexivity|]; split_and!; [done|exact Hwrite|by exists preview].
Qed.

(** The preview is longer than the budget: the line count and the marker that
    truncation adds are not part of it. *)
Example preview_exceeds_limit :
  (fun spilled => approx_token_count (shown spilled))
  <$> maybe_spill_text None (mkSpillFs (fun _ => true) (fun _ _ => true)) [RootDir; Normal "tmp"]
        "t" "u" (replicate (N.to_nat 10001) 97%N)
  = Some 2512%N.
Proof. vm_compute. reflexivity. Qed.
