(* ===== verification/HookDiscovery.v ===== *)
(** * Which hooks run

    [codex-rs/hooks/src/config_rules.rs] (what the user decided about each
    hook), [lib.rs] and [declarations.rs] (the key of a hook) and
    [engine/discovery.rs]: the hooks an administrator requires, those of each
    configuration layer and those of plugins, and which of them become handlers.
    The theorems state that only a managed hook, a hook the user trusted in this
    very form, or a hook whose trust was bypassed ever runs, that a project
    cannot trust its own hooks, and that every hook that runs has an id of its
    own. *)

From Stdlib Require Import DecimalN.
From S2P Require Import Prelude RustStr Truncate AbsolutePath ConfigMerge ConfigLayers HookConfig.
From S2P Require Import Constraint Requirements HookOutput HookDispatch.
#[local] Open Scope str_scope.

(** ** The state of a hook ([config_rules.rs]) *)

(** The files and formats that discovery reads: [std::fs], and the derived
    deserialisation and serialisation of [toml] and [serde_json]. *)
Class HookFiles := {
  is_file : PathBuf -> bool;
  read_to_string : PathBuf -> result str str;
  hooks_file_from_str : str -> result str HookEventsToml;
  hook_events_from_toml : toml -> result str HookEventsToml;
  hook_state_from_toml : toml -> option HookStateToml;
  hook_identity_to_toml : str -> MatcherGroup -> toml;
  debug_text : str -> str;
  path_error_text : PathError -> str
}.

Definition toml_get (key : str) (value : toml) : option toml :=
  match value with Table table => tget key table | _ => None end.

Definition no_hook_state : HookStateToml := mkHookState None None.

Definition may_set_hook_state (layer : ConfigLayerEntry) : bool :=
  match name layer with User _ _ | SessionFlags => true | _ => false end.

Definition override_state (effective state : HookStateToml) : HookStateToml :=
  mkHookState (or_else (HookConfig.hook_enabled state) (HookConfig.hook_enabled effective))
    (or_else (trusted_hash state) (trusted_hash effective)).

Section States.
Context {files : HookFiles} {RT : Type}.

(** One entry of the table [hooks.state]. *)
Definition apply_state (states : gmap str HookStateToml) (entry : str * toml)
  : gmap str HookStateToml :=
  match hook_state_from_toml (snd entry) with
  | None => states
  | Some state =>
      let key := trim (fst entry) in
      if is_empty key then states
      else <[key := override_state (default no_hook_state (states !! key)) state]> states
  end.

Definition state_entries (layer : ConfigLayerEntry) : list (str * toml) :=
  match toml_get "hooks" (config layer) ≫= toml_get "state" with
  | Some (Table state_by_key) => state_by_key
  | _ => []
  end.

Definition apply_layer (states : gmap str HookStateToml) (layer : ConfigLayerEntry)
  : gmap str HookStateToml :=
  if may_set_hook_state layer then fold_left apply_state (state_entries layer) states else states.

Definition hook_states_from_stack (stack : option (ConfigLayerStack ConfigRequirements RT))
  : gmap str HookStateToml :=
  match stack with
  | None => ∅
  | Some stack => fold_left apply_layer (get_layers stack LowestPrecedenceFirst true) ∅
  end.
End States.

(** ** Keys ([lib.rs], [declarations.rs]) *)

Definition hook_event_key_label (event_name : HookEventName) : str :=
  match event_name with
  | PreToolUse => "pre_tool_use"
  | PermissionRequest => "permission_request"
  | PostToolUse => "post_tool_use"
  | PreCompact => "pre_compact"
  | PostCompact => "post_compact"
  | SessionStart => "session_start"
  | UserPromptSubmit => "user_prompt_submit"
  | SubagentStart => "subagent_start"
  | SubagentStop => "subagent_stop"
  | Stop => "stop"
  end.

Definition hook_key (key_source : str) (event_name : HookEventName)
    (group_index handler_index : nat) : str :=
  key_source ++ ":" ++ hook_event_key_label event_name ++ ":"
  ++ format_number (N.of_nat group_index) ++ ":" ++ format_number (N.of_nat handler_index).

Definition plugin_hook_key_source (plugin_id source_relative_path : str) : str :=
  plugin_id ++ ":" ++ source_relative_path.

(** [PluginHookSource] and [PluginId] of [plugin/src]. *)
Record PluginId := mkPluginId { plugin_name : str; marketplace_name : str }.
Definition as_key (self : PluginId) : str := plugin_name self ++ "@" ++ marketplace_name self.

Record PluginHookSource := mkPluginSource {
  source_plugin_id : PluginId;
  plugin_root : PathBuf;
  plugin_data_root : PathBuf;
  plugin_source_path : PathBuf;
  source_relative_path : str;
  plugin_hooks : HookEventsToml
}.

Record PluginHookDeclaration := mkDeclaration {
  declaration_key : str;
  declaration_event_name : HookEventName
}.

Definition plugin_hook_declarations (hook_sources : list PluginHookSource)
  : list PluginHookDeclaration :=
  concat (map (fun source =>
    let key_source :=
      plugin_hook_key_source (as_key (source_plugin_id source)) (source_relative_path source) in
    concat (map (fun e =>
      concat (imap (fun group_index group =>
        imap (fun handler_index _ =>
          mkDeclaration (hook_key key_source (fst e) group_index handler_index) (fst e))
          (group_hooks group)) (snd e)))
      (into_matcher_groups (plugin_hooks source)))) hook_sources).

(** ** Discovery ([engine/discovery.rs]) *)

Inductive HookTrustStatus := TrustManaged | TrustUntrusted | TrustTrusted | TrustModified.

#[export] Instance HookTrustStatus_eq_dec : EqDecision HookTrustStatus.
Proof. solve_decision. Defined.

Record HookListEntry := mkListEntry {
  key : str;
  entry_event_name : HookEventName;
  entry_matcher : option str;
  entry_command : str;
  entry_timeout_sec : N;
  entry_status_message : option str;
  entry_source_path : PathBuf;
  entry_source : HookSource;
  entry_plugin_id : option str;
  entry_display_order : Z;
  enabled : bool;
  is_managed : bool;
  current_hash : str;
  trust_status : HookTrustStatus
}.

(** [DiscoveryResult], and the counter of the entries. *)
Record Discovery := mkDiscovery {
  handlers : list ConfiguredHandler;
  hook_entries : list HookListEntry;
  warnings : list str;
  next_display_order : Z
}.

Record HookHandlerSource := mkHandlerSource {
  path : PathBuf;
  key_source : str;
  hook_source : HookSource;
  source_is_managed : bool;
  source_bypass_hook_trust : bool;
  hook_states : gmap str HookStateToml;
  source_env : list (str * str);
  plugin_id : option str
}.

Record HookDiscoveryPolicy := mkPolicy {
  allow_managed_only : bool;
  bypass_hook_trust : bool
}.

Definition allows (self : HookDiscoveryPolicy) (source : HookHandlerSource) : bool :=
  negb (allow_managed_only self) || source_is_managed source.

Definition hook_trust_status (is_managed : bool) (current_hash : str) (trusted_hash : option str)
  : HookTrustStatus :=
  if is_managed then TrustManaged
  else
    match trusted_hash with
    | Some trusted_hash =>
        if bool_decide (trusted_hash = current_hash) then TrustTrusted else TrustModified
    | None => TrustUntrusted
    end.

Definition hook_enabled (is_managed : bool) (state : option HookStateToml) : bool :=
  is_managed || negb (bool_decide (state ≫= HookConfig.hook_enabled = Some false)).

Definition hook_trusted_hash (is_managed : bool) (state : option HookStateToml) : option str :=
  if is_managed then None else state ≫= trusted_hash.

(** [str::replace], for a pattern that is not empty; [skip] characters are part
    of the match before. *)
Fixpoint replace_from (pattern by_ s : str) (skip : nat) : str :=
  match s with
  | [] => []
  | c :: rest =>
      match skip with
      | S skip => replace_from pattern by_ rest skip
      | O =>
          match strip_prefix pattern s with
          | Some _ => by_ ++ replace_from pattern by_ rest (pred (length pattern))
          | None => c :: replace_from pattern by_ rest 0
          end
      end
  end.
Definition str_replace (pattern by_ s : str) : str := replace_from pattern by_ s 0.

Definition expand_env (env : list (str * str)) (command : str) : str :=
  fold_left (fun command e => str_replace ("${" ++ fst e ++ "}") (snd e) command) env command.

Definition warn (message : str) (st : Discovery) : Discovery :=
  mkDiscovery (handlers st) (hook_entries st) (warnings st ++ [message]) (next_display_order st).

(** Whether a hook that is listed runs. *)
Definition runs (source : HookHandlerSource) (entry : HookListEntry) : bool :=
  enabled entry
  && (source_bypass_hook_trust source
      || match trust_status entry with TrustManaged | TrustTrusted => true | _ => false end).

Section Discover.
Context {files : HookFiles} {fingerprint : Fingerprint} {regex : Regex} {RT : Type}.
Context (home_dir : option str) (current_dir : result PathError str).

(** The order in which the [HashMap] of an environment is iterated. *)
Context (iterate : list (str * str) -> list (str * str)).

Definition command_hook_hash (event_name : HookEventName) (matcher : option str)
    (normalized_handler : HookHandlerConfig) : str :=
  version_for_toml
    (hook_identity_to_toml (hook_event_key_label event_name) (mkGroup matcher [normalized_handler])).

(** One command hook of a group. *)
Definition command_entry (source : HookHandlerSource) (event_name : HookEventName)
    (matcher : option str) (group_index handler_index : nat) (command : str)
    (timeout_sec : option N) (async : bool) (status_message : option str) (display_order : Z)
  : HookListEntry :=
  let timeout_sec := N.max (default 600%N timeout_sec) 1 in
  let normalized_handler := HookCommand command None (Some timeout_sec) async status_message in
  let current_hash := command_hook_hash event_name matcher normalized_handler in
  let key := hook_key (key_source source) event_name group_index handler_index in
  let state := hook_states source !! key in
  mkListEntry key event_name matcher (expand_env (iterate (source_env source)) command)
    timeout_sec status_message (path source) (hook_source source) (plugin_id source) display_order
    (hook_enabled (source_is_managed source) state) (source_is_managed source) current_hash
    (hook_trust_status (source_is_managed source) current_hash
       (hook_trusted_hash (source_is_managed source) state)).

Definition handler_of_entry (source : HookHandlerSource) (entry : HookListEntry)
  : ConfiguredHandler :=
  mkHandler (entry_event_name entry) (entry_matcher entry) (entry_command entry)
    (entry_timeout_sec entry) (entry_status_message entry) (path source) (hook_source source)
    (entry_display_order entry) (source_env source).

Definition append_entry (source : HookHandlerSource) (entry : HookListEntry) (st : Discovery)
  : Discovery :=
  mkDiscovery
    (if runs source entry then handlers st ++ [handler_of_entry source entry] else handlers st)
    (hook_entries st ++ [entry]) (warnings st) (next_display_order st + 1).

Definition append_handler (source : HookHandlerSource) (event_name : HookEventName)
    (matcher : option str) (group_index : nat) (st : Discovery)
    (e : nat * HookHandlerConfig) : Discovery :=
  match snd e with
  | HookCommand command _ timeout_sec async status_message =>
      if async then
        warn ("skipping async hook in " ++ render (path source)
              ++ ": async hooks are not supported yet") st
      else if is_empty (trim command) then
        warn ("skipping empty hook command in " ++ render (path source)) st
      else
        append_entry source
          (command_entry source event_name matcher group_index (fst e) command timeout_sec async
             status_message (next_display_order st)) st
  | HookPrompt =>
      warn ("skipping prompt hook in " ++ render (path source)
            ++ ": prompt hooks are not supported yet") st
  | HookAgent =>
      warn ("skipping agent hook in " ++ render (path source)
            ++ ": agent hooks are not supported yet") st
  end.

Definition append_group (source : HookHandlerSource) (event_name : HookEventName) (st : Discovery)
    (e : nat * MatcherGroup) : Discovery :=
  let matcher := matcher_pattern_for_event event_name (matcher (snd e)) in
  let invalid :=
    matcher ← matcher;
    match validate_matcher_pattern matcher with Ok _ => None | Err err => Some (matcher, err) end in
  match invalid with
  | Some (matcher, err) =>
      warn ("invalid matcher " ++ debug_text matcher ++ " in " ++ render (path source) ++ ": "
            ++ err) st
  | None =>
      fold_left (append_handler source event_name matcher (fst e))
        (imap pair (group_hooks (snd e))) st
  end.

Definition append_matcher_groups (source : HookHandlerSource) (st : Discovery)
    (e : HookEventName * list MatcherGroup) : Discovery :=
  fold_left (append_group source (fst e)) (imap pair (snd e)) st.

Definition append_hook_events (policy : HookDiscoveryPolicy) (source : HookHandlerSource)
    (hook_events : HookEventsToml) (st : Discovery) : Discovery :=
  if negb (allows policy source) then st
  else fold_left (append_matcher_groups source) (into_matcher_groups hook_events) st.

(** *** Sources *)

Definition hook_metadata_for_config_layer_source (source : ConfigLayerSource) : HookSource * bool :=
  match source with
  | System _ => (SourceSystem, true)
  | User _ _ => (SourceUser, false)
  | Project _ => (SourceProject, false)
  | Mdm _ _ => (SourceMdm, true)
  | SessionFlags => (SourceSessionFlags, false)
  | ConfigLayers.LegacyManagedConfigTomlFromFile _ => (SourceLegacyManagedConfigFile, true)
  | ConfigLayers.LegacyManagedConfigTomlFromMdm => (SourceLegacyManagedConfigMdm, true)
  end.

Definition hook_source_for_requirement_source (source : option RequirementSource) : HookSource :=
  match source with
  | Some (MdmManagedPreferences _ _) => SourceMdm
  | Some (SystemRequirementsToml _) => SourceSystem
  | Some (Constraint.LegacyManagedConfigTomlFromFile _) => SourceLegacyManagedConfigFile
  | Some Constraint.LegacyManagedConfigTomlFromMdm => SourceLegacyManagedConfigMdm
  | Some CloudRequirements => SourceCloudRequirements
  | Some Constraint.SourceUnknown | None => HookDispatch.SourceUnknown
  end.

Definition synthetic_layer_path (path : str) : PathBuf := resolve_path_against_base home_dir path "/".

Definition config_toml_source_path (layer : ConfigLayerEntry) : PathBuf :=
  match name layer with
  | System file | User file _ | ConfigLayers.LegacyManagedConfigTomlFromFile file => file
  | Project dot_codex_folder =>
      abs_join home_dir (default dot_codex_folder (hooks_config_folder layer)) "config.toml"
  | Mdm domain key => synthetic_layer_path ("<mdm:" ++ domain ++ ":" ++ key ++ ">/config.toml")
  | ConfigLayers.LegacyManagedConfigTomlFromMdm =>
      synthetic_layer_path "<legacy-managed-config.toml-mdm>/managed_config.toml"
  | SessionFlags => synthetic_layer_path "<session-flags>/config.toml"
  end.

Definition fallback_managed_hooks_source_path (requirement_source : option RequirementSource)
  : PathBuf :=
  match requirement_source with
  | Some (SystemRequirementsToml file) | Some (Constraint.LegacyManagedConfigTomlFromFile file) =>
      file
  | Some (MdmManagedPreferences domain key) =>
      synthetic_layer_path ("<mdm:" ++ domain ++ ":" ++ key ++ ">/requirements.toml")
  | Some CloudRequirements => synthetic_layer_path "<cloud-requirements>/requirements.toml"
  | Some Constraint.LegacyManagedConfigTomlFromMdm =>
      synthetic_layer_path "<legacy-managed-config.toml-mdm>/managed_config.toml"
  | Some Constraint.SourceUnknown | None =>
      synthetic_layer_path "<managed-requirements>/requirements.toml"
  end.

Definition managed_hooks_source_path (managed_hooks : ManagedHooksRequirementsToml)
    (requirement_source : option RequirementSource) : PathBuf :=
  match
    (source_path ← managed_dir_for_current_platform managed_hooks;
     if is_absolute (render source_path)
     then ok (from_absolute_path home_dir current_dir (render source_path)) else None)
  with
  | Some source_path => source_path
  | None => fallback_managed_hooks_source_path requirement_source
  end.

(** A source of hooks that are read from the file [path]. *)
Definition file_source (path : PathBuf) (hook_source : HookSource) (is_managed bypass : bool)
    (hook_states : gmap str HookStateToml) : HookHandlerSource :=
  mkHandlerSource path (render path) hook_source is_managed bypass hook_states [] None.

(** *** Reading a layer *)

Definition load_hooks_json (config_folder : option PathBuf) (warnings : list str)
  : option (PathBuf * HookEventsToml) * list str :=
  match (fun folder => push folder (Normal "hooks.json")) <$> config_folder with
  | None => (None, warnings)
  | Some source_path =>
      if negb (is_file source_path) then (None, warnings)
      else
        match read_to_string source_path with
        | Err err =>
            (None, warnings ++ ["failed to read hooks config " ++ render source_path ++ ": " ++ err])
        | Ok contents =>
            match hooks_file_from_str contents with
            | Err err =>
                (None,
                 warnings ++ ["failed to parse hooks config " ++ render source_path ++ ": " ++ err])
            | Ok hooks =>
                match from_absolute_path home_dir current_dir (render source_path) with
                | Err err =>
                    (None,
                     warnings ++ ["failed to normalize hooks config path " ++ render source_path
                                  ++ ": " ++ path_error_text err])
                | Ok source_path =>
                    (if events_is_empty hooks then None else Some (source_path, hooks), warnings)
                end
            end
        end
  end.

Definition load_toml_hooks_from_layer (layer : ConfigLayerEntry) (warnings : list str)
  : option (PathBuf * HookEventsToml) * list str :=
  let source_path := config_toml_source_path layer in
  match toml_get "hooks" (config layer) with
  | None => (None, warnings)
  | Some hook_value =>
      match hook_events_from_toml hook_value with
      | Err err =>
          (None, warnings ++ ["failed to parse TOML hooks in " ++ render source_path ++ ": " ++ err])
      | Ok parsed =>
          (if events_is_empty parsed then None else Some (source_path, parsed), warnings)
      end
  end.

Definition set_warnings (st : Discovery) (warnings : list str) : Discovery :=
  mkDiscovery (handlers st) (hook_entries st) warnings (next_display_order st).

Definition append_layer (policy : HookDiscoveryPolicy) (states : gmap str HookStateToml)
    (st : Discovery) (layer : ConfigLayerEntry) : Discovery :=
  let '(hook_source, is_managed) := hook_metadata_for_config_layer_source (name layer) in
  let policy_path := config_toml_source_path layer in
  if negb (allows policy (file_source policy_path hook_source is_managed false states)) then st
  else
    let '(json_hooks, warnings1) := load_hooks_json (hooks_config_folder layer) (warnings st) in
    let '(toml_hooks, warnings2) := load_toml_hooks_from_layer layer warnings1 in
    let both :=
      match json_hooks, toml_hooks with
      | Some (json_source_path, json_events), Some (toml_source_path, toml_events) =>
          if negb (events_is_empty json_events) && negb (events_is_empty toml_events)
          then ["loading hooks from both " ++ render json_source_path ++ " and "
                ++ render toml_source_path ++ "; prefer a single representation for this layer"]
          else []
      | _, _ => []
      end in
    fold_left (fun st hooks =>
      append_hook_events policy
        (file_source (fst hooks) hook_source is_managed (bypass_hook_trust policy) states)
        (snd hooks) st)
      (omap (fun hooks => hooks) [json_hooks; toml_hooks]) (set_warnings st (warnings2 ++ both)).

Definition append_managed_requirement_handlers (policy : HookDiscoveryPolicy)
    (states : gmap str HookStateToml) (stack : ConfigLayerStack ConfigRequirements RT)
    (st : Discovery) : Discovery :=
  match managed_hooks (requirements stack) with
  | None => st
  | Some hooks =>
      let source_path :=
        managed_hooks_source_path (value (constrained hooks)) (constrained_source hooks) in
      append_hook_events policy
        (file_source source_path (hook_source_for_requirement_source (constrained_source hooks))
           true false states)
        (managed_events (value (constrained hooks))) st
  end.

Definition plugin_env (source : PluginHookSource) : list (str * str) :=
  let plugin_root_value := render (plugin_root source) in
  let plugin_data_root_value := render (plugin_data_root source) in
  [("PLUGIN_ROOT", plugin_root_value); ("CLAUDE_PLUGIN_ROOT", plugin_root_value);
   ("PLUGIN_DATA", plugin_data_root_value); ("CLAUDE_PLUGIN_DATA", plugin_data_root_value)].

Definition append_plugin_source (policy : HookDiscoveryPolicy) (states : gmap str HookStateToml)
    (st : Discovery) (source : PluginHookSource) : Discovery :=
  let plugin_id := as_key (source_plugin_id source) in
  append_hook_events policy
    (mkHandlerSource (plugin_source_path source)
       (plugin_hook_key_source plugin_id (source_relative_path source)) SourcePlugin false
       (bypass_hook_trust policy) states (plugin_env source) (Some plugin_id))
    (plugin_hooks source) st.

Definition append_plugin_hook_sources (policy : HookDiscoveryPolicy)
    (states : gmap str HookStateToml) (sources : list PluginHookSource) (st : Discovery)
  : Discovery :=
  fold_left (append_plugin_source policy states) sources st.

Definition discovery_policy (stack : option (ConfigLayerStack ConfigRequirements RT))
    (bypass_hook_trust : bool) : HookDiscoveryPolicy :=
  mkPolicy
    match stack with
    | Some stack =>
        match allow_managed_hooks_only (requirements stack) with
        | Some requirement => sourced_value requirement
        | None => false
        end
    | None => false
    end
    bypass_hook_trust.

Definition discover_handlers (stack : option (ConfigLayerStack ConfigRequirements RT))
    (plugin_hook_sources : list PluginHookSource) (plugin_hook_load_warnings : list str)
    (bypass_hook_trust : bool) : Discovery :=
  let states := hook_states_from_stack stack in
  let policy := discovery_policy stack bypass_hook_trust in
  let st := mkDiscovery [] [] plugin_hook_load_warnings 0 in
  let st :=
    match stack with
    | Some stack =>
        fold_left (append_layer policy states) (get_layers stack LowestPrecedenceFirst false)
          (append_managed_requirement_handlers policy states stack st)
    | None => st
    end in
  append_plugin_hook_sources policy states plugin_hook_sources st.

(** [ClaudeHooksEngine::new] and [list_hooks]: without the feature there are no
    hooks. *)
Definition engine_handlers (enabled bypass_hook_trust : bool)
    (stack : option (ConfigLayerStack ConfigRequirements RT))
    (plugin_hook_sources : list PluginHookSource) (plugin_hook_load_warnings : list str)
  : list ConfiguredHandler :=
  if negb enabled then []
  else handlers (discover_handlers stack plugin_hook_sources plugin_hook_load_warnings
                   bypass_hook_trust).

Definition list_hooks (feature_enabled bypass_hook_trust : bool)
    (stack : option (ConfigLayerStack ConfigRequirements RT))
    (plugin_hook_sources : list PluginHookSource) (plugin_hook_load_warnings : list str)
  : list HookListEntry * list str :=
  if negb feature_enabled then ([], [])
  else
    let discovered :=
      discover_handlers stack plugin_hook_sources plugin_hook_load_warnings bypass_hook_trust in
    (hook_entries discovered, warnings discovered).

(** ** What is discovered *)

Definition managed_source (source : HookSource) : bool :=
  match source with
  | SourceUser | SourceProject | SourceSessionFlags | SourcePlugin => false
  | _ => true
  end.

(** A handler is the hook of an entry. *)
Definition runs_entry (handler : ConfiguredHandler) (entry : HookListEntry) : Prop :=
  event_name handler = entry_event_name entry /\ handler_matcher handler = entry_matcher entry
  /\ HookDispatch.command handler = entry_command entry
  /\ timeout_sec handler = entry_timeout_sec entry
  /\ source_path handler = entry_source_path entry
  /\ handler_source handler = entry_source entry
  /\ display_order handler = entry_display_order entry.

(** The hash of an entry is that of the command as it is configured. *)
Definition hash_of_form (entry : HookListEntry) : Prop :=
  exists command env, entry_command entry = expand_env env command
  /\ current_hash entry
     = command_hook_hash (entry_event_name entry) (entry_matcher entry)
         (HookCommand command None (Some (entry_timeout_sec entry)) false
            (entry_status_message entry)).

Section Invariant.
Context (policy : HookDiscoveryPolicy) (states : gmap str HookStateToml).

Definition entry_ok (entry : HookListEntry) : Prop :=
  (allow_managed_only policy = true -> is_managed entry = true)
  /\ (is_managed entry = true -> managed_source (entry_source entry) = true)
  /\ enabled entry = hook_enabled (is_managed entry) (states !! key entry)
  /\ trust_status entry
     = hook_trust_status (is_managed entry) (current_hash entry)
         (hook_trusted_hash (is_managed entry) (states !! key entry))
  /\ hash_of_form entry.

Definition may_run (entry : HookListEntry) : Prop :=
  enabled entry = true
  /\ (bypass_hook_trust policy = true \/ trust_status entry = TrustManaged
      \/ trust_status entry = TrustTrusted).

Definition discovery_ok (st : Discovery) : Prop :=
  (forall entry, entry ∈ hook_entries st -> entry_ok entry)
  /\ (forall handler, handler ∈ handlers st ->
        exists entry, entry ∈ hook_entries st /\ runs_entry handler entry /\ may_run entry).

Definition source_ok (source : HookHandlerSource) : Prop :=
  (source_bypass_hook_trust source = true -> bypass_hook_trust policy = true)
  /\ hook_states source = states
  /\ (source_is_managed source = true -> managed_source (hook_source source) = true).

Lemma fold_left_invariant {A B} (P : A -> Prop) (f : A -> B -> A) (l : list B) : forall a,
  (forall a b, b ∈ l -> P a -> P (f a b)) -> P a -> P (fold_left f l a).
Proof.
  induction l as [|b l IH]; intros a Hf Ha; cbn; [done|]. apply IH.
  - intros a' b' Hin. apply Hf. by right.
  - apply Hf; [by left|done].
Qed.

Lemma warn_ok message st : discovery_ok st -> discovery_ok (warn message st).
Proof. done. Qed.

Lemma append_entry_ok source entry st :
  source_ok source -> entry_ok entry -> entry_source entry = hook_source source ->
  entry_source_path entry = path source ->
  discovery_ok st -> discovery_ok (append_entry source entry st).
Proof.
  intros (Hbypass & _) Hentry Hsource Hpath [Hentries Hhandlers]. unfold append_entry. split; cbn.
  - intros e [He| ->%list_elem_of_singleton]%elem_of_app; [by apply Hentries|done].
  - assert (Hold : forall handler, handler ∈ handlers st ->
      exists entry', entry' ∈ hook_entries st ++ [entry] /\ runs_entry handler entry' /\ may_run entry').
    { intros handler Hin. destruct (Hhandlers handler Hin) as (e & He & Hr & Hm).
      exists e. split; [apply elem_of_app; by left|done]. }
    destruct (runs source entry) eqn:Hruns; [|exact Hold].
    intros handler [Hin| ->%list_elem_of_singleton]%elem_of_app; [by apply Hold|].
    exists entry. split; [apply elem_of_app; right; by left|]. split; [by split_and!|].
    unfold runs in Hruns. apply andb_true_iff in Hruns as [He Ht]. split; [done|].
    apply orb_true_iff in Ht as [Ht|Ht]; [left; by apply Hbypass|right].
    destruct (trust_status entry); auto; discriminate Ht.
Qed.

Lemma append_hook_events_ok source hook_events st :
  source_ok source -> discovery_ok st ->
  discovery_ok (append_hook_events policy source hook_events st).
Proof.
  intros Hsource Hst. unfold append_hook_events.
  destruct (allows policy source) eqn:Hallows; cbn [negb]; [|done].
  apply fold_left_invariant; [|done]. intros st1 [event groups] _ Hst1.
  unfold append_matcher_groups. cbn [fst snd].
  apply fold_left_invariant; [|done]. intros st2 [group_index group] _ Hst2.
  unfold append_group. cbn [fst snd].
  destruct (_ ≫= _) as [[m err]|]; [by apply warn_ok|].
  apply fold_left_invariant; [|done]. intros st3 [handler_index handler] _ Hst3.
  unfold append_handler. cbn [fst snd]. destruct handler as [command w timeout async message| |];
    [|by apply warn_ok..].
  destruct async; [by apply warn_ok|]. destruct (is_empty (trim command)); [by apply warn_ok|].
  apply append_entry_ok; try done. destruct Hsource as (_ & Hstates & Hmanaged).
  unfold entry_ok, hash_of_form. cbn. rewrite Hstates. split_and!; try done.
  - intros H. unfold allows in Hallows. rewrite H in Hallows. done.
  - by exists command, (iterate (source_env source)).
Qed.
End Invariant.

Lemma layer_source_managed layer hook_source :
  hook_metadata_for_config_layer_source layer = (hook_source, true) ->
  managed_source hook_source = true.
Proof. destruct layer; cbn; intros [= <-]; done. Qed.

Lemma requirement_source_managed source :
  managed_source (hook_source_for_requirement_source source) = true.
Proof. by destruct source as [[]|]. Qed.

Lemma append_layer_ok policy states st layer :
  discovery_ok policy states st -> discovery_ok policy states (append_layer policy states st layer).
Proof.
  intros Hst. unfold append_layer.
  destruct (hook_metadata_for_config_layer_source (name layer)) as [source managed] eqn:Hmeta.
  destruct (negb (allows _ _)); [done|].
  destruct (load_hooks_json _ _) as [json_hooks warnings1].
  destruct (load_toml_hooks_from_layer _ _) as [toml_hooks warnings2].
  apply fold_left_invariant; [|exact Hst]. intros st' hooks _ Hst'.
  apply append_hook_events_ok; [|done]. split_and!; [done|done|]. cbn. intros ->.
  by eapply layer_source_managed.
Qed.

Lemma discover_ok stack plugin_hook_sources load_warnings bypass :
  discovery_ok (discovery_policy stack bypass) (hook_states_from_stack stack)
    (discover_handlers stack plugin_hook_sources load_warnings bypass).
Proof.
  unfold discover_handlers, append_plugin_hook_sources. set (policy := discovery_policy stack bypass).
  set (states := hook_states_from_stack stack).
  assert (Hempty : discovery_ok policy states (mkDiscovery [] [] load_warnings 0)).
  { split; intros x Hx; by apply not_elem_of_nil in Hx. }
  apply fold_left_invariant.
  - intros st source _ Hst. apply append_hook_events_ok; [|done]. by split_and!.
  - destruct stack as [stack|]; [|done]. apply fold_left_invariant.
    + intros st layer _ Hst. by apply append_layer_ok.
    + unfold append_managed_requirement_handlers.
      destruct (managed_hooks _) as [hooks|]; [|done].
      apply append_hook_events_ok; [|done]. split_and!; [done|done|]. intros _.
      apply requirement_source_managed.
Qed.

(** ** The state of a hook *)

(** An entry of a layer of the user or of the session that trusts a hash. *)
Definition trusts (layers : list ConfigLayerEntry) (key hash : str) : Prop :=
  exists layer k value state, layer ∈ layers
  /\ ((exists file profile, name layer = User file profile) \/ name layer = SessionFlags)
  /\ (k, value) ∈ state_entries layer /\ trim k = key
  /\ hook_state_from_toml value = Some state /\ trusted_hash state = Some hash.

Definition trusted_by (layers : list ConfigLayerEntry) (states : gmap str HookStateToml) : Prop :=
  forall key state hash, states !! key = Some state -> trusted_hash state = Some hash ->
    trusts layers key hash.

Lemma apply_state_trusted layers layer states entry :
  layer ∈ layers -> may_set_hook_state layer = true -> entry ∈ state_entries layer ->
  trusted_by layers states -> trusted_by layers (apply_state states entry).
Proof.
  intros Hlayer Hmay Hin Hstates. unfold apply_state. destruct entry as [k value].
  cbn [fst snd].
  destruct (hook_state_from_toml value) as [new|] eqn:Hnew; [|done].
  destruct (is_empty (trim k)); [done|]. intros key state hash Hkey Hhash.
  destruct (decide (key = trim k)) as [->|Hne].
  - rewrite lookup_insert_eq in Hkey. injection Hkey as <-. cbn in Hhash.
    destruct (trusted_hash new) as [h|] eqn:Hh; cbn in Hhash.
    + injection Hhash as ->. exists layer, k, value, new. split_and!; try done.
      unfold may_set_hook_state in Hmay. destruct (name layer); try discriminate Hmay; eauto.
    + destruct (states !! trim k) as [old|] eqn:Hold; [|done]. by eapply Hstates.
  - rewrite lookup_insert_ne in Hkey by done. by eapply Hstates.
Qed.

Lemma hook_states_trusted (stack : ConfigLayerStack ConfigRequirements RT) :
  trusted_by (get_layers stack LowestPrecedenceFirst true) (hook_states_from_stack (Some stack)).
Proof.
  unfold hook_states_from_stack. set (layers := get_layers _ _ _).
  apply fold_left_invariant; [|intros key state hash H; by rewrite lookup_empty in H].
  intros states layer Hlayer Hstates. unfold apply_layer.
  destruct (may_set_hook_state layer) eqn:Hmay; [|done].
  apply fold_left_invariant; [|done]. intros states' entry Hin Hstates'.
  by apply (apply_state_trusted layers layer).
Qed.

(** C10. Every handler is the hook of an entry that is enabled, and that is managed,
    or whose trust is bypassed, or whose very form the user or the session
    trusts; under an administrator who allows managed hooks only it is managed.
    A project, a plugin and the user's own file are never managed, and a
    project's or a plugin's configuration cannot trust a hook. *)
Theorem only_trusted_hooks_run (stack : ConfigLayerStack ConfigRequirements RT)
    plugin_hook_sources load_warnings bypass handler :
  let discovered := discover_handlers (Some stack) plugin_hook_sources load_warnings bypass in
  let states := hook_states_from_stack (Some stack) in
  handler ∈ handlers discovered ->
  exists entry, entry ∈ hook_entries discovered /\ runs_entry handler entry
  /\ (is_managed entry = true /\ managed_source (handler_source handler) = true
      \/ (states !! key entry ≫= HookConfig.hook_enabled) <> Some false
         /\ (allow_managed_hooks_only (requirements stack) ≫= Some ∘ sourced_value) <> Some true
         /\ (bypass = true
             \/ hash_of_form entry
                /\ trusts (get_layers stack LowestPrecedenceFirst true) (key entry)
                     (current_hash entry))).
Proof.
  intros discovered states Hin.
  destruct (discover_ok (Some stack) plugin_hook_sources load_warnings bypass) as [Hentries Hhandlers].
  destruct (Hhandlers handler Hin) as (entry & Hentry & Hruns & Henabled & Hmay).
  destruct (Hentries entry Hentry) as (Hpolicy & Hmanaged & Hen & Htrust & Hform).
  exists entry. split; [done|]. split; [done|].
  destruct (is_managed entry) eqn:Hm.
  { left. split; [done|]. destruct Hruns as (_ & _ & _ & _ & _ & -> & _). by apply Hmanaged. }
  right. rewrite Hen in Henabled. unfold hook_enabled in Henabled.
  unfold hook_trust_status, hook_trusted_hash in Htrust. split_and!.
  - apply negb_true_iff, bool_decide_eq_false in Henabled. exact Henabled.
  - intros Honly. cbn [discovery_policy allow_managed_only] in Hpolicy. destruct (allow_managed_hooks_only _) as [requirement|]; [|done].
    cbn in Honly. injection Honly as Honly. by specialize (Hpolicy Honly).
  - destruct Hmay as [Hmay|[Hmay|Hmay]]; [by left| |right].
    + rewrite Hmay in Htrust. by repeat case_match.
    + split; [done|]. rewrite Hmay in Htrust. revert Htrust.
      destruct (hook_states_from_stack (Some stack) !! key entry) as [state|] eqn:Hstate;
        cbn [mbind option_bind]; [|done].
      destruct (trusted_hash state) as [hash|] eqn:Hhash; [|done].
      destruct (bool_decide (hash = current_hash entry)) eqn:E; [|done]. intros _.
      apply bool_decide_eq_true in E as <-. by eapply hook_states_trusted.
Qed.

(** ** The order of the entries *)

Definition numbered (st : Discovery) : Prop :=
  next_display_order st = Z.of_nat (length (hook_entries st))
  /\ (forall i entry, hook_entries st !! i = Some entry -> entry_display_order entry = Z.of_nat i)
  /\ StronglySorted Z.lt (map display_order (handlers st))
  /\ Forall (fun order => 0 <= order < next_display_order st)%Z (map display_order (handlers st)).

Lemma strongly_sorted_snoc (l : list Z) (x : Z) :
  StronglySorted Z.lt l -> Forall (fun y => y < x)%Z l -> StronglySorted Z.lt (l ++ [x]).
Proof.
  induction 1 as [|y l Hs IH Hy]; cbn; intros Hx; [repeat constructor|].
  apply Forall_cons in Hx as [Hyx Hx]. constructor; [by apply IH|].
  apply Forall_app. split; [done|by repeat constructor].
Qed.

Lemma append_entry_numbered source entry st :
  entry_display_order entry = next_display_order st -> numbered st ->
  numbered (append_entry source entry st).
Proof.
  intros Horder (Hnext & Hentries & Hsorted & Hrange). unfold numbered, append_entry.
  cbn [next_display_order hook_entries handlers].
  assert (Hrange' : Forall (fun order => 0 <= order < next_display_order st + 1)%Z
                      (map display_order (handlers st))).
  { eapply Forall_impl; [exact Hrange|]. cbn. lia. }
  split_and!.
  - rewrite length_app. cbn. lia.
  - intros i e Hi. apply lookup_app_Some in Hi as [Hi|[Hle Hi]]; [by apply Hentries|].
    apply list_lookup_singleton_Some in Hi as [Hz <-]. rewrite Horder, Hnext. f_equal. lia.
  - destruct (runs source entry); [|done]. rewrite map_app. apply strongly_sorted_snoc; [done|].
    cbn. rewrite Horder. eapply Forall_impl; [exact Hrange|]. cbn. lia.
  - destruct (runs source entry); [|done]. rewrite map_app. apply Forall_app. split; [done|].
    cbn. rewrite Horder, Hnext. repeat constructor; lia.
Qed.

Lemma append_hook_events_numbered policy source hook_events st :
  numbered st -> numbered (append_hook_events policy source hook_events st).
Proof.
  intros Hst. unfold append_hook_events. destruct (negb _); [done|].
  apply fold_left_invariant; [|done]. intros st1 [event groups] _ Hst1.
  unfold append_matcher_groups. cbn [fst snd].
  apply fold_left_invariant; [|done]. intros st2 [group_index group] _ Hst2.
  unfold append_group. cbn [fst snd]. destruct (_ ≫= _) as [[m err]|]; [done|].
  apply fold_left_invariant; [|done]. intros st3 [handler_index handler] _ Hst3.
  unfold append_handler. cbn [fst snd]. destruct handler as [command w timeout async message| |];
    [|done..].
  destruct async; [done|]. destruct (is_empty (trim command)); [done|].
  by apply append_entry_numbered.
Qed.

Lemma discover_numbered stack plugin_hook_sources load_warnings bypass :
  numbered (discover_handlers stack plugin_hook_sources load_warnings bypass).
Proof.
  unfold discover_handlers, append_plugin_hook_sources.
  assert (Hempty : numbered (mkDiscovery [] [] load_warnings 0)).
  { split_and!; [done|done|constructor..]. }
  apply fold_left_invariant; [intros st source _ Hst; by apply append_hook_events_numbered|].
  destruct stack as [stack|]; [|done]. apply fold_left_invariant.
  - intros st layer _ Hst. unfold append_layer. destruct (hook_metadata_for_config_layer_source _).
    destruct (negb _); [done|]. destruct (load_hooks_json _ _), (load_toml_hooks_from_layer _ _).
    apply fold_left_invariant; [|exact Hst]. intros st' hooks _ Hst'.
    by apply append_hook_events_numbered.
  - unfold append_managed_requirement_handlers. destruct (managed_hooks _); [|done].
    by apply append_hook_events_numbered.
Qed.
End Discover.

(** ** Ids *)

Lemma app_char_inj (c : char) a b x y :
  no_char c a -> no_char c b -> a ++ c :: x = b ++ c :: y -> a = b /\ x = y.
Proof.
  unfold no_char. revert b. induction a as [|d a IH]; intros [|e b] Ha Hb H; cbn in H.
  - by injection H.
  - injection H as -> _. by destruct Hb; left.
  - injection H as -> _. by destruct Ha; left.
  - injection H as -> H. rewrite not_elem_of_cons in Ha, Hb.
    destruct (IH b) as [-> ->]; tauto.
Qed.

Lemma format_number_inj m n : format_number m = format_number n -> m = n.
Proof. intros H. apply DecimalN.Unsigned.to_uint_inj. by apply str_of_uint_inj. Qed.

Lemma format_number_digits n : no_char 58 (format_number n).
Proof.
  unfold format_number, no_char. induction (N.to_uint n); cbn; rewrite ?not_elem_of_cons;
    [apply not_elem_of_nil|(split; [done|assumption])..].
Qed.

Lemma event_name_label_plain event : no_char 58 (event_name_label event).
Proof. destruct event; unfold no_char; apply (bool_decide_unpack _); vm_compute; reflexivity. Qed.

Lemma run_id_order h k :
  (0 <= display_order h)%Z -> (0 <= display_order k)%Z -> run_id h = run_id k ->
  display_order h = display_order k.
Proof.
  intros Hh Hk H. unfold run_id in H.
  apply app_char_inj in H as [_ H]; [|apply event_name_label_plain..].
  unfold format_integer in H. rewrite !(proj2 (Z.ltb_ge _ _)) in H by done.
  apply app_char_inj in H as [H _]; [|apply format_number_digits..].
  apply format_number_inj in H. lia.
Qed.

(** The ids of the runs are told apart: every hook that is discovered is listed
    at the place its number says, and no two handlers share a run id. *)
Theorem discovered_ids_distinct `{files : HookFiles, fingerprint : Fingerprint, regex : Regex} {RT}
    home_dir current_dir iterate (stack : option (ConfigLayerStack ConfigRequirements RT))
    plugin_hook_sources load_warnings bypass :
  let discovered :=
    discover_handlers home_dir current_dir iterate stack plugin_hook_sources load_warnings bypass in
  NoDup (map run_id (handlers discovered))
  /\ forall i entry, hook_entries discovered !! i = Some entry ->
       entry_display_order entry = Z.of_nat i.
Proof.
  intros discovered.
  destruct (discover_numbered home_dir current_dir iterate stack plugin_hook_sources load_warnings
              bypass) as (_ & Hentries & Hsorted & Hrange).
  split; [|exact Hentries]. fold discovered in Hsorted, Hrange. revert Hsorted Hrange.
  generalize (next_display_order discovered) as bound. intros bound.
  induction (handlers discovered) as [|h hs IH]; cbn [map]; [constructor|].
  intros Hsorted Hrange. apply StronglySorted_inv in Hsorted as [Hsorted Hlt].
  apply Forall_cons in Hrange as [Hh Hrange]. constructor; [|by apply IH].
  intros Hin. apply list_elem_of_fmap in Hin as (k & Hid & Hk).
  rewrite Forall_forall in Hlt, Hrange.
  assert (Hk' : display_order k ∈ map display_order hs) by (by apply list_elem_of_fmap_2).
  specialize (Hlt _ Hk'). specialize (Hrange _ Hk'). cbn in Hrange.
  apply run_id_order in Hid; lia.
Qed.

(** ** Examples *)

Definition demo_events : HookEventsToml :=
  mkEvents [mkGroup (Some "Bash") [HookCommand "check" None None false None;
                                   HookCommand "other" None None false None]]
    [] [] [] [] [] [] [] [] [].

(** A state is the text of the hash it trusts, and a hash is the command's
    length. *)
Definition demo_files : HookFiles := {|
  is_file := fun _ => false;
  read_to_string := fun _ => Err [];
  hooks_file_from_str := fun _ => Err [];
  hook_events_from_toml := fun _ => Ok demo_events;
  hook_state_from_toml := fun v =>
    match v with Scalar (SString hash) => Some (mkHookState None (Some hash)) | _ => None end;
  hook_identity_to_toml := fun _ group =>
    match group_hooks group with
    | [HookCommand command _ _ _ _] => Scalar (SString command)
    | _ => Table []
    end;
  debug_text := fun s => s;
  path_error_text := fun _ => []
|}.
Definition demo_fingerprint : Fingerprint := fun v =>
  match v with Scalar (SString command) => "sha:" ++ command | _ => "sha" end.

Definition demo_layer (name : ConfigLayerSource) (trusted : list (str * str)) : ConfigLayerEntry :=
  mkEntry name
    (Table [("hooks", Table [("state",
       Table (map (fun e => (fst e, Scalar (SString (snd e)))) trusted))])])
    None "v" None None.

(** The user trusts the first hook of the project; the project trusts its
    second hook itself. *)
Definition demo_stack : ConfigLayerStack ConfigRequirements unit :=
  mkStack
    [demo_layer (User [RootDir; Normal "u"; Normal "config.toml"] None)
       [("/p/.codex/config.toml:pre_tool_use:0:0", "sha:check")];
     demo_layer (Project [RootDir; Normal "p"; Normal ".codex"])
       [("/p/.codex/config.toml:pre_tool_use:0:1", "sha:other")]]
    (Some 0) default_requirements tt false None.

Definition demo_discovery : Discovery :=
  discover_handlers (files := demo_files) (fingerprint := demo_fingerprint)
    (regex := fun _ => Err []) None (Err NoCurrentDir) (fun env => env) (Some demo_stack) [] [] false.

Example project_cannot_trust_itself :
  map HookDispatch.command (handlers demo_discovery) = ["check"]
  /\ map trust_status (hook_entries demo_discovery)
     = [TrustUntrusted; TrustUntrusted; TrustTrusted; TrustUntrusted].
Proof. vm_compute. split; reflexivity. Qed.

Lemma only_trusted_hooks_run_witness :
  exists handler entry, handlers demo_discovery = [handler]
  /\ entry ∈ hook_entries demo_discovery /\ runs_entry handler entry.
Proof.
  destruct (handlers demo_discovery) as [|handler rest] eqn:Hhandlers; [discriminate Hhandlers|].
  destruct (only_trusted_hooks_run (files := demo_files) (fingerprint := demo_fingerprint)
    (regex := fun _ => Err []) None (Err NoCurrentDir) (fun env => env) demo_stack [] [] false handler)
    as (entry & Hentry & Hruns & _).
  - fold demo_discovery. rewrite Hhandlers. left.
  - exists handler, entry. split_and!; [|exact Hentry|exact Hruns].
    vm_compute in Hhandlers. injection Hhandlers as <- <-. reflexivity.
Defined.
