(* ===== verification/ThreadItems.v ===== *)
(** * The items of a thread, and how events become items

    [app-server-protocol/src/protocol/v2/item.rs] and [item_builders.rs],
    with the events of [protocol/src/protocol.rs] that they are built from.
    Where the app server has its own copy of a protocol type that carries the
    same values ([MessagePhase], [MemoryCitation], [WebSearchAction], ...)
    the two are one type here; thread ids are the strings they print as.
    Event records have the fields that the thread history reads. *)

From S2P Require Import Prelude RustStr AbsolutePath ExecApproval Truncate NetConfig.
#[local] Open Scope str_scope.

(** JSON values. *)
Class JsonNull `{Json} := { Null : Value }.

(** ** Values that are passed through *)

Inductive MessagePhase := Commentary | FinalAnswer.

Record MemoryCitationEntry := mkCitationEntry {
  cited_path : str;
  line_start : N;
  line_end : N;
  note : str
}.
Record MemoryCitation := mkCitation { entries : list MemoryCitationEntry; rollout_ids : list str }.

Record TextElement := mkTextElement { byte_range : N * N; placeholder : option str }.

Inductive WebSearchAction :=
| SearchWeb (query : option str) (queries : option (list str))
| OpenPage (url : option str)
| FindInPage (url find_pattern : option str)
| OtherAction.

Inductive ReasoningEffort := EffortNone | Minimal | LowEffort | Medium | HighEffort | XHigh.

Record HookPromptFragment := mkFragment { fragment_text : str; hook_run_id : str }.

(** ** Agents *)

(** [protocol.rs] *)
Inductive AgentStatus :=
| PendingInit
| Running
| InterruptedAgent
| CompletedAgent (message : option str)
| Errored (message : str)
| Shutdown
| NotFound.

Inductive CollabAgentStatus :=
| CollabPendingInit | CollabRunning | CollabInterrupted | CollabCompleted | CollabErrored
| CollabShutdown | CollabNotFound.

Record CollabAgentState := mkAgentState {
  agent_status : CollabAgentStatus;
  agent_message : option str
}.

Definition collab_agent_state (value : AgentStatus) : CollabAgentState :=
  match value with
  | PendingInit => mkAgentState CollabPendingInit None
  | Running => mkAgentState CollabRunning None
  | InterruptedAgent => mkAgentState CollabInterrupted None
  | CompletedAgent message => mkAgentState CollabCompleted message
  | Errored message => mkAgentState CollabErrored (Some message)
  | Shutdown => mkAgentState CollabShutdown None
  | NotFound => mkAgentState CollabNotFound None
  end.

Inductive CollabAgentTool := SpawnAgent | SendInput | ResumeAgent | Wait | CloseAgent.
Inductive CollabAgentToolCallStatus := CollabCallInProgress | CollabCallCompleted | CollabCallFailed.

(** ** Commands and patches *)

Inductive ParsedCommand :=
| ParsedRead (cmd name path : str)
| ParsedListFiles (cmd : str) (path : option str)
| ParsedSearch (cmd : str) (query path : option str)
| ParsedUnknown (cmd : str).

Inductive CommandAction :=
| ReadAction (command name : str) (path : PathBuf)
| ListFilesAction (command : str) (path : option str)
| SearchAction (command : str) (query path : option str)
| UnknownAction (command : str).

Inductive ExecCommandSource := Agent | UserShell | UnifiedExecStartup | UnifiedExecInteraction.
Inductive ExecCommandStatus := ExecCompleted | ExecFailed | ExecDeclined.
Inductive CommandExecutionStatus :=
| CommandInProgress | CommandCompleted | CommandFailed | CommandDeclined.

Definition command_execution_status (value : ExecCommandStatus) : CommandExecutionStatus :=
  match value with
  | ExecCompleted => CommandCompleted
  | ExecFailed => CommandFailed
  | ExecDeclined => CommandDeclined
  end.

Inductive FileChange :=
| AddChange (content : str)
| DeleteChange (content : str)
| UpdateChange (unified_diff : str) (move_path : option str).

Inductive PatchChangeKind := KindAdd | KindDelete | KindUpdate (move_path : option str).
Record FileUpdateChange := mkFileUpdate {
  changed_path : str;
  change_kind : PatchChangeKind;
  change_diff : str
}.

(** The core status, and the one of an item, which may be in progress. *)
Inductive CorePatchApplyStatus := CorePatchCompleted | CorePatchFailed | CorePatchDeclined.
Inductive PatchApplyStatus := PatchInProgress | PatchCompleted | PatchFailed | PatchDeclined.

Definition patch_apply_status (value : CorePatchApplyStatus) : PatchApplyStatus :=
  match value with
  | CorePatchCompleted => PatchCompleted
  | CorePatchFailed => PatchFailed
  | CorePatchDeclined => PatchDeclined
  end.

Inductive McpToolCallStatus := McpInProgress | McpCompleted | McpFailed.
Inductive DynamicToolCallStatus := DynamicInProgress | DynamicCompleted | DynamicFailed.

Inductive DynamicToolCallOutputContentItem :=
| DynamicText (text : str)
| DynamicImage (image_url : str).

Inductive UserInput :=
| TextInput (text : str) (text_elements : list TextElement)
| ImageInput (url : str) (detail : option ImageDetail)
| LocalImageInput (path : str) (detail : option ImageDetail).

Section Items.
Context {json : Json}.

Record McpToolCallResult := mkMcpResult {
  content : list Value;
  structured_content : option Value;
  meta : option Value
}.

(** [ThreadItem] *)
Inductive ThreadItem :=
| UserMessage (id_ : str) (content : list UserInput)
| HookPrompt (id_ : str) (fragments : list HookPromptFragment)
| AgentMessage (id_ text : str) (phase : option MessagePhase)
    (memory_citation : option MemoryCitation)
| Plan (id_ text : str)
| Reasoning (id_ : str) (summary content : list str)
| CommandExecution (id_ command : str) (cwd : PathBuf) (process_id : option str)
    (source : ExecCommandSource) (status : CommandExecutionStatus)
    (command_actions : list CommandAction) (aggregated_output : option str)
    (exit_code : option Z) (duration_ms : option Z)
| FileChangeItem (id_ : str) (changes : list FileUpdateChange) (status : PatchApplyStatus)
| McpToolCall (id_ server tool : str) (status : McpToolCallStatus) (arguments : Value)
    (mcp_app_resource_uri plugin_id : option str) (result : option McpToolCallResult)
    (error : option str) (duration_ms : option Z)
| DynamicToolCall (id_ : str) (namespace : option str) (tool : str) (arguments : Value)
    (status : DynamicToolCallStatus)
    (content_items : option (list DynamicToolCallOutputContentItem))
    (success : option bool) (duration_ms : option Z)
| CollabAgentToolCall (id_ : str) (tool : CollabAgentTool) (status : CollabAgentToolCallStatus)
    (sender_thread_id : str) (receiver_thread_ids : list str) (prompt model : option str)
    (reasoning_effort : option ReasoningEffort) (agents_states : gmap str CollabAgentState)
| WebSearch (id_ query : str) (action : option WebSearchAction)
| ImageView (id_ : str) (path : PathBuf)
| ImageGeneration (id_ status : str) (revised_prompt : option str) (result : str)
    (saved_path : option PathBuf)
| EnteredReviewMode (id_ review : str)
| ExitedReviewMode (id_ review : str)
| ContextCompaction (id_ : str).

(** [ThreadItem::id] *)
Definition id (item : ThreadItem) : str :=
  match item with
  | UserMessage id_ _ | HookPrompt id_ _ | AgentMessage id_ _ _ _ | Plan id_ _
  | Reasoning id_ _ _ | CommandExecution id_ _ _ _ _ _ _ _ _ _ | FileChangeItem id_ _ _
  | McpToolCall id_ _ _ _ _ _ _ _ _ _ | DynamicToolCall id_ _ _ _ _ _ _ _
  | CollabAgentToolCall id_ _ _ _ _ _ _ _ _ | WebSearch id_ _ _ | ImageView id_ _
  | ImageGeneration id_ _ _ _ _ | EnteredReviewMode id_ _ | ExitedReviewMode id_ _
  | ContextCompaction id_ => id_
  end.
End Items.

(** ** item_builders.rs *)

(** A [Duration], in nanoseconds. *)
Definition as_millis (duration : N) : Z := Z.of_N (duration / 1000000).
Definition i64_max : Z := (2 ^ 63 - 1)%Z.
(** [i64::try_from], of a number that is not negative *)
Definition i64_try_from (n : Z) : option Z := if (n <=? i64_max)%Z then Some n else None.

Record ExecCommandBegin := mkExecBegin {
  begin_call_id : str;
  begin_process_id : option str;
  begin_turn_id : str;
  begin_command : list str;
  begin_cwd : PathBuf;
  begin_parsed_cmd : list ParsedCommand;
  begin_source : ExecCommandSource
}.

Record ExecCommandEnd := mkExecEnd {
  end_call_id : str;
  end_process_id : option str;
  end_turn_id : str;
  end_command : list str;
  end_cwd : PathBuf;
  end_parsed_cmd : list ParsedCommand;
  end_source : ExecCommandSource;
  end_aggregated_output : str;
  end_exit_code : Z;
  end_duration : N;
  end_status : ExecCommandStatus
}.

(** A patch event: the request for approval and the begin event carry the
    same three fields, the end event a status as well. *)
Record PatchEvent := mkPatchEvent {
  patch_call_id : str;
  patch_turn_id : str;
  patch_changes : gmap str FileChange
}.

Inductive GuardianAssessmentAction :=
| GuardCommand (command : str) (cwd : PathBuf)
| GuardExecve (program : str) (argv : list str) (cwd : PathBuf)
| GuardOther.

Inductive GuardianAssessmentStatus :=
| AssessInProgress | AssessApproved | AssessDenied | AssessTimedOut | AssessAborted.

Record GuardianAssessment := mkAssessment {
  target_item_id : option str;
  guardian_turn_id : str;
  guardian_status : GuardianAssessmentStatus;
  guardian_action : GuardianAssessmentAction
}.

Definition map_patch_change_kind (change : FileChange) : PatchChangeKind :=
  match change with
  | AddChange _ => KindAdd
  | DeleteChange _ => KindDelete
  | UpdateChange _ move_path => KindUpdate move_path
  end.

Definition format_file_change_diff (change : FileChange) : str :=
  match change with
  | AddChange content | DeleteChange content => content
  | UpdateChange unified_diff move_path =>
      match move_path with
      | Some path => unified_diff ++ [NL; NL] ++ "Moved to: " ++ path
      | None => unified_diff
      end
  end.

(** The order of Rust strings, and of changes by their paths. *)
Definition str_le : relation str := cmp_le str_compare.
#[export] Instance str_le_dec : RelDecision str_le := cmp_le_dec str_compare.

Definition path_le (a b : FileUpdateChange) : Prop := str_le (changed_path a) (changed_path b).
#[export] Instance path_le_dec : RelDecision path_le := fun a b => str_le_dec _ _.

(** The entries of a [HashMap] in some order, then a stable sort by path. *)
Definition convert_change (e : str * FileChange) : FileUpdateChange :=
  mkFileUpdate e.1 (map_patch_change_kind e.2) (format_file_change_diff e.2).

Definition convert_patch_changes (changes : gmap str FileChange) : list FileUpdateChange :=
  merge_sort path_le (map convert_change (map_to_list changes)).

Section Builders.
Context {json : Json}.
(** [shlex::try_join] of the shlex crate, the home directory, and the summary
    of a command ([shell-command/src/parse_command.rs]). *)
Context (shlex_try_join : list str -> option str) (home_dir : option str)
  (parse_command : list str -> list ParsedCommand).

(** [shlex_join] of [parse_command.rs] *)
Definition shlex_join (tokens : list str) : str :=
  default "<command included NUL byte>" (shlex_try_join tokens).

Definition from_core_with_cwd (value : ParsedCommand) (cwd : PathBuf) : CommandAction :=
  match value with
  | ParsedRead cmd name path => ReadAction cmd name (abs_join home_dir cwd path)
  | ParsedListFiles cmd path => ListFilesAction cmd path
  | ParsedSearch cmd query path => SearchAction cmd query path
  | ParsedUnknown cmd => UnknownAction cmd
  end.

Definition build_file_change_begin_item (payload : PatchEvent) : ThreadItem :=
  FileChangeItem (patch_call_id payload) (convert_patch_changes (patch_changes payload))
    PatchInProgress.

Definition build_file_change_approval_request_item (payload : PatchEvent) : ThreadItem :=
  FileChangeItem (patch_call_id payload) (convert_patch_changes (patch_changes payload))
    PatchInProgress.

Definition build_file_change_end_item (payload : PatchEvent) (status : CorePatchApplyStatus)
    : ThreadItem :=
  FileChangeItem (patch_call_id payload) (convert_patch_changes (patch_changes payload))
    (patch_apply_status status).

Definition build_command_execution_begin_item (payload : ExecCommandBegin) : ThreadItem :=
  CommandExecution (begin_call_id payload) (shlex_join (begin_command payload))
    (begin_cwd payload) (begin_process_id payload) (begin_source payload) CommandInProgress
    (map (fun parsed => from_core_with_cwd parsed (begin_cwd payload)) (begin_parsed_cmd payload))
    None None None.

Definition build_command_execution_end_item (payload : ExecCommandEnd) : ThreadItem :=
  let aggregated_output :=
    if is_empty (end_aggregated_output payload) then None
    else Some (end_aggregated_output payload) in
  let duration_ms := default i64_max (i64_try_from (as_millis (end_duration payload))) in
  CommandExecution (end_call_id payload) (shlex_join (end_command payload)) (end_cwd payload)
    (end_process_id payload) (end_source payload)
    (command_execution_status (end_status payload))
    (map (fun parsed => from_core_with_cwd parsed (end_cwd payload)) (end_parsed_cmd payload))
    aggregated_output (Some (end_exit_code payload)) (Some duration_ms).

Definition build_item_from_guardian_event (assessment : GuardianAssessment)
    (status : CommandExecutionStatus) : option ThreadItem :=
  match guardian_action assessment with
  | GuardCommand command cwd =>
      id_ ← target_item_id assessment;
      Some (CommandExecution id_ command cwd None Agent status [UnknownAction command]
              None None None)
  | GuardExecve program argv cwd =>
      id_ ← target_item_id assessment;
      let argv := match argv with [] => [program] | _ :: rest => program :: rest end in
      let command := shlex_join argv in
      let parsed_cmd := parse_command argv in
      let command_actions :=
        match parsed_cmd with
        | [] => [UnknownAction command]
        | _ => map (fun parsed => from_core_with_cwd parsed cwd) parsed_cmd
        end in
      Some (CommandExecution id_ command cwd None Agent status command_actions None None None)
  | GuardOther => None
  end.
End Builders.

(** ** Lemmas *)

Lemma str_compare_laws : cmp_laws str_compare.
Proof. apply list_compare_laws, N_compare_laws. Qed.

#[export] Instance str_le_trans : Transitive str_le := cmp_le_trans str_compare_laws.
#[export] Instance str_le_total : Total str_le := cmp_le_total str_compare_laws.
#[export] Instance str_le_antisym : AntiSymm (=) str_le := cmp_le_antisym str_compare_laws.

#[export] Instance path_le_trans : Transitive path_le.
Proof. intros a b c. apply str_le_trans. Qed.
#[export] Instance path_le_total : Total path_le.
Proof. intros a b. apply str_le_total. Qed.

(** The changes of an item come in the order of their paths, whatever the
    order in which the map lists its entries. *)
Theorem convert_patch_changes_order changes l :
  l ≡ₚ map_to_list changes ->
  merge_sort path_le (map convert_change l) = convert_patch_changes changes.
Proof.
  intros Hl. unfold convert_patch_changes. apply StronglySorted_unique_strong with path_le.
  - intros x y Hx Hy H1 H2.
    rewrite merge_sort_Permutation, list_elem_of_fmap in Hx, Hy.
    destruct Hx as ([p c] & -> & Hx), Hy as ([q d] & -> & Hy).
    assert (p = q) as <- by (by apply (anti_symm str_le)).
    rewrite Hl in Hx. apply elem_of_map_to_list in Hx, Hy. congruence.
  - apply StronglySorted_merge_sort; apply _.
  - apply StronglySorted_merge_sort; apply _.
  - by rewrite !merge_sort_Permutation, Hl.
Qed.
