(* ===== verification/ThreadHistory.v ===== *)
(** * The turns of a thread, rebuilt from its events

    [app-server-protocol/src/protocol/thread_history.rs]: the reducer that
    turns the persisted items of a rollout, or the live events of a running
    turn, into the list of turns that clients see.  Events carry the fields
    the reducer reads ([ThreadItems]).  A fresh UUID is an argument of the
    operations that may need one. *)

From Stdlib Require Import DecimalN.
From S2P Require Import Prelude RustStr AbsolutePath Truncate TokenUsage History NetConfig.
From S2P Require Import ThreadItems.
#[local] Open Scope str_scope.

(** ** Turns *)

Inductive TurnStatus := Completed | Interrupted | Failed | InProgress.
#[export] Instance TurnStatus_eq_dec : EqDecision TurnStatus.
Proof. solve_decision. Defined.

Inductive CodexErrorInfo :=
| ContextWindowExceeded | UsageLimitExceeded | ServerOverloaded | CyberPolicy
| HttpConnectionFailed (http_status_code : option N)
| ResponseStreamConnectionFailed (http_status_code : option N)
| InternalServerError | Unauthorized | BadRequest | SandboxError
| ResponseStreamDisconnected (http_status_code : option N)
| ResponseTooManyFailedAttempts (http_status_code : option N)
| ActiveTurnNotSteerable | ThreadRollbackFailed | OtherError.

(** [CodexErrorInfo::affects_turn_status] *)
Definition info_affects_turn_status (info : CodexErrorInfo) : bool :=
  match info with
  | ThreadRollbackFailed | ActiveTurnNotSteerable => false
  | _ => true
  end.

Record TurnError := mkTurnError {
  error_message : str;
  codex_error_info : option CodexErrorInfo;
  additional_details : option str
}.

Inductive TurnItemsView := NotLoaded | Summary | FullView.

Section History.
Context {json : Json} {null : JsonNull}.

Record Turn := mkTurn {
  turn_id : str;
  items : list ThreadItem;
  items_view : TurnItemsView;
  status : TurnStatus;
  error : option TurnError;
  started_at : option Z;
  completed_at : option Z;
  duration_ms : option Z
}.

Record PendingTurn := mkPending {
  p_id : str;
  p_items : list ThreadItem;
  p_error : option TurnError;
  p_status : TurnStatus;
  p_started_at : option Z;
  p_completed_at : option Z;
  p_duration_ms : option Z;
  opened_explicitly : bool;
  saw_compaction : bool;
  rollout_start_index : nat
}.

(** [impl From<PendingTurn> for Turn] *)
Definition turn_from (value : PendingTurn) : Turn :=
  mkTurn (p_id value) (p_items value) FullView (p_status value) (p_error value)
    (p_started_at value) (p_completed_at value) (p_duration_ms value).

Definition set_items (t : PendingTurn) (l : list ThreadItem) : PendingTurn :=
  mkPending (p_id t) l (p_error t) (p_status t) (p_started_at t) (p_completed_at t)
    (p_duration_ms t) (opened_explicitly t) (saw_compaction t) (rollout_start_index t).
Definition set_turn_items (t : Turn) (l : list ThreadItem) : Turn :=
  mkTurn (turn_id t) l (items_view t) (status t) (error t) (started_at t) (completed_at t)
    (duration_ms t).
Definition set_end (t : PendingTurn) (s : TurnStatus) (completed duration : option Z) : PendingTurn :=
  mkPending (p_id t) (p_items t) (p_error t) s (p_started_at t) completed duration
    (opened_explicitly t) (saw_compaction t) (rollout_start_index t).
Definition set_turn_end (t : Turn) (s : TurnStatus) (completed duration : option Z) : Turn :=
  mkTurn (turn_id t) (items t) (items_view t) s (error t) (started_at t) completed duration.

(** ** Events *)

Record UserMessageEvent := mkUserMessage {
  um_message : str;
  um_images : option (list str);
  um_image_details : list (option ImageDetail);
  um_local_images : list str;
  um_local_image_details : list (option ImageDetail);
  um_text_elements : list TextElement
}.

Record McpInvocation := mkInvocation {
  inv_server : str;
  inv_tool : str;
  inv_arguments : option Value
}.
(** A result, with its [is_error] flag, or an error message. *)
Definition McpResult : Type := result str (McpToolCallResult * option bool).

(** A collaboration event between two threads. *)
Record CollabEvent := mkCollab {
  collab_call_id : str;
  sender_thread_id : str;
  receiver_thread_id : str
}.

Inductive TurnItem := PlanItem (id_ text : str) | OtherItem.

Inductive EventMsg :=
| EvUserMessage (payload : UserMessageEvent)
| EvAgentMessage (message : str) (phase : option MessagePhase) (citation : option MemoryCitation)
| EvAgentReasoning (text : str)
| EvAgentReasoningRawContent (text : str)
| EvWebSearchBegin (call_id : str)
| EvWebSearchEnd (call_id query : str) (action : WebSearchAction)
| EvExecCommandBegin (payload : ExecCommandBegin)
| EvExecCommandEnd (payload : ExecCommandEnd)
| EvGuardianAssessment (payload : GuardianAssessment)
| EvApplyPatchApprovalRequest (payload : PatchEvent)
| EvPatchApplyBegin (payload : PatchEvent)
| EvPatchApplyEnd (payload : PatchEvent) (status : CorePatchApplyStatus)
| EvDynamicToolCallRequest (call_id turn_id : str) (namespace : option str) (tool : str)
    (arguments : Value)
| EvDynamicToolCallResponse (call_id turn_id : str) (namespace : option str) (tool : str)
    (arguments : Value) (content_items : list DynamicToolCallOutputContentItem)
    (success : bool) (duration : N)
| EvMcpToolCallBegin (call_id : str) (invocation : McpInvocation)
    (mcp_app_resource_uri plugin_id : option str)
| EvMcpToolCallEnd (call_id : str) (invocation : McpInvocation)
    (mcp_app_resource_uri plugin_id : option str) (duration : N) (result : McpResult)
| EvViewImageToolCall (call_id : str) (path : PathBuf)
| EvImageGenerationBegin (call_id : str)
| EvImageGenerationEnd (call_id status : str) (revised_prompt : option str) (result : str)
    (saved_path : option PathBuf)
| EvCollabAgentSpawnBegin (call_id sender prompt model : str) (effort : ReasoningEffort)
| EvCollabAgentSpawnEnd (call_id sender : str) (new_thread_id : option str) (prompt model : str)
    (effort : ReasoningEffort) (agent : AgentStatus)
| EvCollabAgentInteractionBegin (payload : CollabEvent) (prompt : str)
| EvCollabAgentInteractionEnd (payload : CollabEvent) (prompt : str) (agent : AgentStatus)
| EvCollabWaitingBegin (call_id sender : str) (receivers : list str)
| EvCollabWaitingEnd (call_id sender : str) (statuses : gmap str AgentStatus)
| EvCollabCloseBegin (payload : CollabEvent)
| EvCollabCloseEnd (payload : CollabEvent) (agent : AgentStatus)
| EvCollabResumeBegin (payload : CollabEvent)
| EvCollabResumeEnd (payload : CollabEvent) (agent : AgentStatus)
| EvContextCompacted
| EvEnteredReviewMode (user_facing_hint : option str)
| EvExitedReviewMode (overall_explanation : option str)
| EvItemStarted (turn_id : str) (item : TurnItem)
| EvItemCompleted (turn_id : str) (item : TurnItem)
| EvError (message : str) (info : option CodexErrorInfo)
| EvThreadRolledBack (num_turns : N)
| EvTurnAborted (turn_id : option str) (completed_at duration_ms : option Z)
| EvTurnStarted (turn_id : str) (started_at : option Z)
| EvTurnComplete (turn_id : str) (completed_at duration_ms : option Z)
(** Hook and token count events, and those not persisted. *)
| EvIgnored.

(** [ErrorEvent::affects_turn_status] *)
Definition affects_turn_status (info : option CodexErrorInfo) : bool :=
  match info with Some info => info_affects_turn_status info | None => true end.

(** ** The builder *)

Record ThreadHistoryBuilder := mkBuilder {
  turns : list Turn;
  current_turn : option PendingTurn;
  next_item_index : N;
  current_rollout_index : nat;
  next_rollout_index : nat
}.

Definition new : ThreadHistoryBuilder := mkBuilder [] None 1 0 0.

Definition set_turns (b : ThreadHistoryBuilder) (l : list Turn) (c : option PendingTurn) :=
  mkBuilder l c (next_item_index b) (current_rollout_index b) (next_rollout_index b).
Definition set_current (b : ThreadHistoryBuilder) (c : option PendingTurn) :=
  set_turns b (turns b) c.

Definition finish_current_turn (b : ThreadHistoryBuilder) : ThreadHistoryBuilder :=
  match current_turn b with
  | Some turn =>
      if is_empty (p_items turn) && negb (opened_explicitly turn) && negb (saw_compaction turn)
      then set_current b None
      else set_turns b (turns b ++ [turn_from turn]) None
  | None => b
  end.

Definition finish (b : ThreadHistoryBuilder) : list Turn := turns (finish_current_turn b).

Definition active_turn_snapshot (b : ThreadHistoryBuilder) : option Turn :=
  match turn_from <$> current_turn b with
  | Some t => Some t
  | None => last (turns b)
  end.

Definition active_turn_position (b : ThreadHistoryBuilder) : option nat :=
  if bool_decide (is_Some (current_turn b)) then Some (length (turns b))
  else if is_empty (turns b) then None
  else Some (length (turns b) - 1).

Definition has_active_turn (b : ThreadHistoryBuilder) : bool :=
  bool_decide (is_Some (current_turn b)).

Definition active_turn_id_if_explicit (b : ThreadHistoryBuilder) : option str :=
  turn ← current_turn b;
  if opened_explicitly turn then Some (p_id turn) else None.

Definition active_turn_start_index (b : ThreadHistoryBuilder) : option nat :=
  rollout_start_index <$> current_turn b.

(** The id of a turn that replay opens by itself. *)
Definition rollout_id (index : nat) : str := "rollout-" ++ format_number (N.of_nat index).

(** [uuid] is what [Uuid::now_v7] would return. *)
Definition new_turn (uuid : str) (b : ThreadHistoryBuilder) (id : option str) : PendingTurn :=
  let id :=
    match id with
    | Some id => id
    | None =>
        if (next_rollout_index b =? 0)%nat then uuid else rollout_id (current_rollout_index b)
    end in
  mkPending id [] None Completed None None None false false (current_rollout_index b).

Definition ensure_turn (uuid : str) (b : ThreadHistoryBuilder) : PendingTurn :=
  match current_turn b with
  | Some turn => turn
  | None => new_turn uuid b None
  end.

(** A change of the turn that [ensure_turn] gives. *)
Definition with_turn (uuid : str) (b : ThreadHistoryBuilder) (f : PendingTurn -> PendingTurn)
    : ThreadHistoryBuilder :=
  set_current b (Some (f (ensure_turn uuid b))).

Definition item_id (index : N) : str := "item-" ++ format_number index.

Definition next_item_id (b : ThreadHistoryBuilder) : str * ThreadHistoryBuilder :=
  (item_id (next_item_index b),
   mkBuilder (turns b) (current_turn b) (next_item_index b + 1) (current_rollout_index b)
     (next_rollout_index b)).

(** The first element that [p] holds of is replaced, or [None]. *)
Fixpoint update_first {A} (p : A -> bool) (f : A -> A) (l : list A) : option (list A) :=
  match l with
  | [] => None
  | x :: l => if p x then Some (f x :: l) else l' ← update_first p f l; Some (x :: l')
  end.

Definition upsert_turn_item (l : list ThreadItem) (item : ThreadItem) : list ThreadItem :=
  match update_first (fun e => bool_decide (id e = id item)) (fun _ => item) l with
  | Some l' => l'
  | None => l ++ [item]
  end.

Definition upsert_item_in_turn_id (b : ThreadHistoryBuilder) (tid : str) (item : ThreadItem)
    : ThreadHistoryBuilder :=
  let in_finished :=
    match update_first (fun t => bool_decide (turn_id t = tid))
            (fun t => set_turn_items t (upsert_turn_item (items t) item)) (turns b) with
    | Some l => set_turns b l (current_turn b)
    | None => b
    end in
  match current_turn b with
  | Some turn =>
      if bool_decide (p_id turn = tid)
      then set_current b (Some (set_items turn (upsert_turn_item (p_items turn) item)))
      else in_finished
  | None => in_finished
  end.

Definition upsert_item_in_current_turn (uuid : str) (b : ThreadHistoryBuilder) (item : ThreadItem)
    : ThreadHistoryBuilder :=
  with_turn uuid b (fun t => set_items t (upsert_turn_item (p_items t) item)).

(** The common ending: by turn id if the event has one. *)
Definition upsert_item (uuid : str) (b : ThreadHistoryBuilder) (tid : str) (item : ThreadItem)
    : ThreadHistoryBuilder :=
  if is_empty tid then upsert_item_in_current_turn uuid b item
  else upsert_item_in_turn_id b tid item.

(** The common ending of an item with a number of its own. *)
Definition push_numbered (uuid : str) (b : ThreadHistoryBuilder) (item : str -> ThreadItem)
    : ThreadHistoryBuilder :=
  let '(id_, b) := next_item_id b in
  with_turn uuid b (fun t => set_items t (p_items t ++ [item id_])).

(** ** The handlers *)

(** [parse_hook_prompt_message] ([protocol/src/items.rs]); the XML of one
    fragment is read by a third-party crate, and a message without an id gets
    a fresh one. *)
Context (from_xml_str : str -> option HookPromptFragment).

Definition parse_hook_prompt_fragment (text : str) : option HookPromptFragment :=
  fragment ← from_xml_str (trim text);
  if is_empty (trim (hook_run_id fragment)) then None else Some fragment.

Definition parse_hook_prompt_message (content : list ContentItem)
    : option (list HookPromptFragment) :=
  fragments ← mapM (fun item => match item with
    | InputText text => parse_hook_prompt_fragment text
    | _ => None
    end) content;
  if is_empty fragments then None else Some fragments.

(** [HookPromptItem::from_fragments]: the id of the message, or a new one.  In
    a rollout the turn itself never takes the UUID. *)
Definition hook_prompt_id (uuid : str) (id : option str) : str := default uuid id.

(** [handle_response_item] *)
Definition handle_response_item {Opaque} (uuid : str) (b : ThreadHistoryBuilder)
    (item : ResponseItem Opaque) : ThreadHistoryBuilder :=
  match item with
  | Message id_ role content _ =>
      if bool_decide (role <> "user") then b
      else
        match parse_hook_prompt_message content with
        | None => b
        | Some fragments =>
            with_turn uuid b (fun t =>
              set_items t (p_items t ++ [HookPrompt (hook_prompt_id uuid id_) fragments]))
        end
  | _ => b
  end.

(** The detail of the image at [idx]. *)
Definition detail_at (details : list (option ImageDetail)) (idx : nat) : option ImageDetail :=
  mjoin (details !! idx).

Definition build_user_inputs (payload : UserMessageEvent) : list UserInput :=
  (if negb (is_empty (trim (um_message payload)))
   then [TextInput (um_message payload) (um_text_elements payload)] else []) ++
  (match um_images payload with
   | Some images =>
       imap (fun idx image => ImageInput image (detail_at (um_image_details payload) idx)) images
   | None => []
   end) ++
  imap (fun idx path => LocalImageInput path (detail_at (um_local_image_details payload) idx))
    (um_local_images payload).

Definition handle_user_message (uuid : str) (b : ThreadHistoryBuilder) (payload : UserMessageEvent)
    : ThreadHistoryBuilder :=
  let b :=
    match current_turn b with
    | Some turn =>
        if negb (opened_explicitly turn) && negb (saw_compaction turn && is_empty (p_items turn))
        then finish_current_turn b else b
    | None => b
    end in
  push_numbered uuid b (fun id_ => UserMessage id_ (build_user_inputs payload)).

Definition handle_agent_message (uuid : str) (b : ThreadHistoryBuilder) (text : str)
    (phase : option MessagePhase) (memory_citation : option MemoryCitation)
    : ThreadHistoryBuilder :=
  if is_empty text then b
  else push_numbered uuid b (fun id_ => AgentMessage id_ text phase memory_citation).

(** Both reasoning handlers: [extend] adds to the reasoning item that is last
    in the turn, [fresh] makes a new one. *)
Definition handle_reasoning (uuid : str) (b : ThreadHistoryBuilder) (text : str)
    (extend : str -> list str -> list str -> ThreadItem) (fresh : str -> ThreadItem)
    : ThreadHistoryBuilder :=
  if is_empty text then b
  else
    match last (p_items (ensure_turn uuid b)) with
    | Some (Reasoning id_ summary content) =>
        with_turn uuid b (fun t =>
          set_items t (removelast (p_items t) ++ [extend id_ summary content]))
    | _ => push_numbered uuid b fresh
    end.

Definition handle_agent_reasoning (uuid : str) (b : ThreadHistoryBuilder) (text : str) :=
  handle_reasoning uuid b text
    (fun id_ summary content => Reasoning id_ (summary ++ [text]) content)
    (fun id_ => Reasoning id_ [text] []).

Definition handle_agent_reasoning_raw_content (uuid : str) (b : ThreadHistoryBuilder)
    (text : str) :=
  handle_reasoning uuid b text
    (fun id_ summary content => Reasoning id_ summary (content ++ [text]))
    (fun id_ => Reasoning id_ [] [text]).

(** [handle_item_started] and [handle_item_completed], which do the same. *)
Definition handle_item (b : ThreadHistoryBuilder) (tid : str) (item : TurnItem)
    : ThreadHistoryBuilder :=
  match item with
  | PlanItem id_ text =>
      if is_empty text then b else upsert_item_in_turn_id b tid (Plan id_ text)
  | OtherItem => b
  end.

(** The builders of [item_builders.rs]. *)
Context (shlex_try_join : list str -> option str) (home_dir : option str)
  (parse_command : list str -> list ParsedCommand).

Definition handle_guardian_assessment (uuid : str) (b : ThreadHistoryBuilder)
    (payload : GuardianAssessment) : ThreadHistoryBuilder :=
  let go status :=
    match build_item_from_guardian_event shlex_try_join home_dir parse_command payload status with
    | Some item => upsert_item uuid b (guardian_turn_id payload) item
    | None => b
    end in
  match guardian_status payload with
  | AssessInProgress => go CommandInProgress
  | AssessDenied | AssessAborted => go CommandDeclined
  | AssessTimedOut => go CommandFailed
  | AssessApproved => b
  end.

Definition mcp_item (call_id : str) (status : McpToolCallStatus) (invocation : McpInvocation)
    (uri plugin_id : option str) (result : option McpToolCallResult) (error : option str)
    (duration_ms : option Z) : ThreadItem :=
  McpToolCall call_id (inv_server invocation) (inv_tool invocation) status
    (default Null (inv_arguments invocation)) uri plugin_id result error duration_ms.

(** [McpToolCallEndEvent::is_success] *)
Definition is_success (r : McpResult) : bool :=
  match r with
  | Ok (_, is_error) => negb (default false is_error)
  | Err _ => false
  end.

Definition handle_mcp_tool_call_end (uuid : str) (b : ThreadHistoryBuilder) (call_id : str)
    (invocation : McpInvocation) (uri plugin_id : option str) (duration : N) (r : McpResult)
    : ThreadHistoryBuilder :=
  let status := if is_success r then McpCompleted else McpFailed in
  let '(result, error) :=
    match r with Ok (value, _) => (Some value, None) | Err message => (None, Some message) end in
  upsert_item_in_current_turn uuid b
    (mcp_item call_id status invocation uri plugin_id result error
       (i64_try_from (as_millis duration))).

(** The status of a finished collaboration call. *)
Definition collab_status (agent : AgentStatus) : CollabAgentToolCallStatus :=
  match agent with Errored _ | NotFound => CollabCallFailed | _ => CollabCallCompleted end.

Definition collab_begin (tool : CollabAgentTool) (payload : CollabEvent) (prompt : option str)
    : ThreadItem :=
  CollabAgentToolCall (collab_call_id payload) tool CollabCallInProgress
    (sender_thread_id payload) [receiver_thread_id payload] prompt None None ∅.

Definition collab_end (tool : CollabAgentTool) (payload : CollabEvent) (prompt : option str)
    (agent : AgentStatus) : ThreadItem :=
  CollabAgentToolCall (collab_call_id payload) tool (collab_status agent)
    (sender_thread_id payload) [receiver_thread_id payload] prompt None None
    {[receiver_thread_id payload := collab_agent_state agent]}.

Definition spawn_end (call_id sender : str) (new_thread_id : option str) (prompt model : str)
    (effort : ReasoningEffort) (agent : AgentStatus) : ThreadItem :=
  let status :=
    match agent with
    | Errored _ | NotFound => CollabCallFailed
    | _ => if bool_decide (is_Some new_thread_id) then CollabCallCompleted else CollabCallFailed
    end in
  let '(receivers, states) :=
    match new_thread_id with
    | Some receiver => ([receiver], {[receiver := collab_agent_state agent]})
    | None => ([], ∅)
    end in
  CollabAgentToolCall call_id SpawnAgent status sender receivers (Some prompt) (Some model)
    (Some effort) states.

Definition waiting_end (call_id sender : str) (statuses : gmap str AgentStatus) : ThreadItem :=
  let status :=
    if existsb (fun e => match e.2 with Errored _ | NotFound => true | _ => false end)
         (map_to_list statuses)
    then CollabCallFailed else CollabCallCompleted in
  CollabAgentToolCall call_id Wait status sender
    (merge_sort str_le (map fst (map_to_list statuses))) None None None
    (collab_agent_state <$> statuses).

Definition REVIEW_FALLBACK_MESSAGE : str := "Reviewer failed to output a response.".

Definition render_review_output_text (overall_explanation : str) : str :=
  let explanation := trim overall_explanation in
  if is_empty explanation then REVIEW_FALLBACK_MESSAGE else explanation.

Definition handle_error (b : ThreadHistoryBuilder) (message : str) (info : option CodexErrorInfo)
    : ThreadHistoryBuilder :=
  if negb (affects_turn_status info) then b
  else
    match current_turn b with
    | None => b
    | Some t =>
        set_current b (Some (mkPending (p_id t) (p_items t)
          (Some (mkTurnError message info None)) Failed (p_started_at t) (p_completed_at t)
          (p_duration_ms t) (opened_explicitly t) (saw_compaction t) (rollout_start_index t)))
    end.

Definition handle_turn_aborted (b : ThreadHistoryBuilder) (tid : option str)
    (completed duration : option Z) : ThreadHistoryBuilder :=
  let active :=
    match current_turn b with
    | Some t => set_current b (Some (set_end t Interrupted completed duration))
    | None => b
    end in
  match tid with
  | None => active
  | Some tid =>
      if match current_turn b with Some t => bool_decide (p_id t = tid) | None => false end
      then active
      else
        match update_first (fun t => bool_decide (turn_id t = tid))
                (fun t => set_turn_end t Interrupted completed duration) (turns b) with
        | Some l => set_turns b l (current_turn b)
        | None => active
        end
  end.

Definition handle_turn_started (b : ThreadHistoryBuilder) (tid : str) (started : option Z)
    : ThreadHistoryBuilder :=
  let b := finish_current_turn b in
  set_current b (Some (mkPending tid [] None InProgress started None None true false
                         (current_rollout_index b))).

Definition mark_status (s : TurnStatus) : TurnStatus :=
  match s with Completed | InProgress => Completed | s => s end.

Definition handle_turn_complete (b : ThreadHistoryBuilder) (tid : str)
    (completed duration : option Z) : ThreadHistoryBuilder :=
  let active :=
    match current_turn b with
    | Some t =>
        finish_current_turn
          (set_current b (Some (set_end t (mark_status (p_status t)) completed duration)))
    | None => b
    end in
  if match current_turn b with Some t => bool_decide (p_id t = tid) | None => false end
  then active
  else
    match update_first (fun t => bool_decide (turn_id t = tid))
            (fun t => set_turn_end t (mark_status (status t)) completed duration) (turns b) with
    | Some l => set_turns b l (current_turn b)
    | None => active
    end.

Definition handle_compacted (uuid : str) (b : ThreadHistoryBuilder) : ThreadHistoryBuilder :=
  with_turn uuid b (fun t =>
    mkPending (p_id t) (p_items t) (p_error t) (p_status t) (p_started_at t) (p_completed_at t)
      (p_duration_ms t) (opened_explicitly t) true (rollout_start_index t)).

(** The sums cannot reach the limits of [usize] and [i64], as every item is in
    memory. *)
Definition handle_thread_rollback (b : ThreadHistoryBuilder) (num_turns : N)
    : ThreadHistoryBuilder :=
  let b := finish_current_turn b in
  let n := N.to_nat num_turns in
  let turns :=
    if (length (turns b) <=? n)%nat then [] else take (length (turns b) - n) (turns b) in
  let item_count := sum_list_with (fun t => length (items t)) turns in
  mkBuilder turns (current_turn b) (N.of_nat item_count + 1) (current_rollout_index b)
    (next_rollout_index b).

Definition handle_event (uuid : str) (b : ThreadHistoryBuilder) (event : EventMsg)
    : ThreadHistoryBuilder :=
  let current := upsert_item_in_current_turn uuid b in
  match event with
  | EvUserMessage payload => handle_user_message uuid b payload
  | EvAgentMessage message phase citation => handle_agent_message uuid b message phase citation
  | EvAgentReasoning text => handle_agent_reasoning uuid b text
  | EvAgentReasoningRawContent text => handle_agent_reasoning_raw_content uuid b text
  | EvWebSearchBegin call_id => current (WebSearch call_id [] None)
  | EvWebSearchEnd call_id query action => current (WebSearch call_id query (Some action))
  | EvExecCommandBegin payload =>
      upsert_item_in_turn_id b (begin_turn_id payload)
        (build_command_execution_begin_item shlex_try_join home_dir payload)
  | EvExecCommandEnd payload =>
      upsert_item_in_turn_id b (end_turn_id payload)
        (build_command_execution_end_item shlex_try_join home_dir payload)
  | EvGuardianAssessment payload => handle_guardian_assessment uuid b payload
  | EvApplyPatchApprovalRequest payload =>
      upsert_item uuid b (patch_turn_id payload) (build_file_change_approval_request_item payload)
  | EvPatchApplyBegin payload =>
      upsert_item uuid b (patch_turn_id payload) (build_file_change_begin_item payload)
  | EvPatchApplyEnd payload status =>
      upsert_item uuid b (patch_turn_id payload) (build_file_change_end_item payload status)
  | EvDynamicToolCallRequest call_id tid namespace tool arguments =>
      upsert_item uuid b tid (DynamicToolCall call_id namespace tool arguments DynamicInProgress
                                None None None)
  | EvDynamicToolCallResponse call_id tid namespace tool arguments content_items success duration =>
      upsert_item uuid b tid (DynamicToolCall call_id namespace tool arguments
        (if success then DynamicCompleted else DynamicFailed) (Some content_items)
        (Some success) (i64_try_from (as_millis duration)))
  | EvMcpToolCallBegin call_id invocation uri plugin_id =>
      current (mcp_item call_id McpInProgress invocation uri plugin_id None None None)
  | EvMcpToolCallEnd call_id invocation uri plugin_id duration result =>
      handle_mcp_tool_call_end uuid b call_id invocation uri plugin_id duration result
  | EvViewImageToolCall call_id path => current (ImageView call_id path)
  | EvImageGenerationBegin call_id => current (ImageGeneration call_id [] None [] None)
  | EvImageGenerationEnd call_id status revised_prompt result saved_path =>
      current (ImageGeneration call_id status revised_prompt result saved_path)
  | EvCollabAgentSpawnBegin call_id sender prompt model effort =>
      current (CollabAgentToolCall call_id SpawnAgent CollabCallInProgress sender []
                 (Some prompt) (Some model) (Some effort) ∅)
  | EvCollabAgentSpawnEnd call_id sender new_thread_id prompt model effort agent =>
      current (spawn_end call_id sender new_thread_id prompt model effort agent)
  | EvCollabAgentInteractionBegin payload prompt =>
      current (collab_begin SendInput payload (Some prompt))
  | EvCollabAgentInteractionEnd payload prompt agent =>
      current (collab_end SendInput payload (Some prompt) agent)
  | EvCollabWaitingBegin call_id sender receivers =>
      current (CollabAgentToolCall call_id Wait CollabCallInProgress sender receivers
                 None None None ∅)
  | EvCollabWaitingEnd call_id sender statuses => current (waiting_end call_id sender statuses)
  | EvCollabCloseBegin payload => current (collab_begin CloseAgent payload None)
  | EvCollabCloseEnd payload agent => current (collab_end CloseAgent payload None agent)
  | EvCollabResumeBegin payload => current (collab_begin ResumeAgent payload None)
  | EvCollabResumeEnd payload agent => current (collab_end ResumeAgent payload None agent)
  | EvContextCompacted => push_numbered uuid b ContextCompaction
  | EvEnteredReviewMode hint =>
      push_numbered uuid b (fun id_ => EnteredReviewMode id_ (default "Review requested." hint))
  | EvExitedReviewMode overall_explanation =>
      let review := default REVIEW_FALLBACK_MESSAGE
                      (render_review_output_text <$> overall_explanation) in
      push_numbered uuid b (fun id_ => ExitedReviewMode id_ review)
  | EvItemStarted tid item | EvItemCompleted tid item => handle_item b tid item
  | EvError message info => handle_error b message info
  | EvThreadRolledBack num_turns => handle_thread_rollback b num_turns
  | EvTurnAborted tid completed duration => handle_turn_aborted b tid completed duration
  | EvTurnStarted tid started => handle_turn_started b tid started
  | EvTurnComplete tid completed duration => handle_turn_complete b tid completed duration
  | EvIgnored => b
  end.

Inductive RolloutItem {Opaque} :=
| RolloutEvent (event : EventMsg)
| RolloutCompacted
| RolloutResponse (item : ResponseItem Opaque)
(** A turn context or the session's metadata. *)
| RolloutOther.

Definition handle_rollout_item {Opaque} (uuid : str) (b : ThreadHistoryBuilder)
    (item : RolloutItem (Opaque := Opaque)) : ThreadHistoryBuilder :=
  let b := mkBuilder (turns b) (current_turn b) (next_item_index b) (next_rollout_index b)
             (S (next_rollout_index b)) in
  match item with
  | RolloutEvent event => handle_event uuid b event
  | RolloutCompacted => handle_compacted uuid b
  | RolloutResponse item => handle_response_item uuid b item
  | RolloutOther => b
  end.

(** [build_turns_from_rollout_items]; each item comes with what a new UUID
    would be. *)
Definition replay {Opaque} (b : ThreadHistoryBuilder)
    (rollout : list (str * RolloutItem (Opaque := Opaque))) : ThreadHistoryBuilder :=
  fold_left (fun b x => handle_rollout_item x.1 b x.2) rollout b.

Definition build_turns_from_rollout_items {Opaque}
    (rollout : list (str * RolloutItem (Opaque := Opaque))) : list Turn :=
  finish (replay new rollout).

(** ** Numbered items *)

Definition current_items (b : ThreadHistoryBuilder) : list ThreadItem :=
  match current_turn b with Some t => p_items t | None => [] end.

(** The ids of all items, turn by turn. *)
Definition item_ids (b : ThreadHistoryBuilder) : list str :=
  map id (concat (map items (turns b)) ++ current_items b).

Definition foreign (i : str) : Prop := forall k, i <> item_id k.

(** What an operation does to the ids of the items and the next number. *)
Inductive id_step : list str * N -> list str * N -> Prop :=
| id_push l n : id_step (l, n) (l ++ [item_id n], (n + 1)%N)
| id_insert l k i n : foreign i -> id_step (l ++ k, n) (l ++ i :: k, n)
| id_cut l k n : id_step (l ++ k, n) (l, (N.of_nat (length l) + 1)%N).

Definition id_state (b : ThreadHistoryBuilder) : list str * N := (item_ids b, next_item_index b).

Lemma finish_ids b : id_state (finish_current_turn b) = id_state b.
Proof.
  unfold finish_current_turn, id_state, item_ids, current_items.
  destruct (current_turn b) as [t|] eqn:E; [|by rewrite E].
  destruct (_ && _) eqn:Ee; cbn.
  - by destruct (p_items t).
  - by rewrite (map_app items), concat_app, app_nil_r; cbn; rewrite app_nil_r.
Qed.

Lemma with_turn_ids uuid b f :
  item_ids (with_turn uuid b f) =
  map id (concat (map items (turns b))) ++ map id (p_items (f (ensure_turn uuid b))).
Proof. unfold item_ids, current_items. cbn. by rewrite map_app. Qed.

Lemma ensure_turn_items uuid b : p_items (ensure_turn uuid b) = current_items b.
Proof. unfold ensure_turn, current_items. by destruct (current_turn b). Qed.

Lemma push_numbered_ids uuid b f :
  (forall i, id (f i) = i) ->
  id_step (id_state b) (id_state (push_numbered uuid b f)).
Proof.
  intros Hf. unfold push_numbered, next_item_id, id_state. rewrite with_turn_ids.
  cbn [p_items set_items turns]. rewrite ensure_turn_items. unfold item_ids, current_items.
  cbn [current_turn]. rewrite !map_app, app_assoc. cbn [map]. rewrite Hf. apply id_push.
Qed.

Lemma update_first_spec {A} (p : A -> bool) f l :
  match update_first p f l with
  | Some l' => exists l1 x l2, l = l1 ++ x :: l2 /\ p x = true /\ l' = l1 ++ f x :: l2 /\
      Forall (fun y => p y = false) l1
  | None => Forall (fun y => p y = false) l
  end.
Proof.
  induction l as [|y l IH]; cbn; [constructor|]. destruct (p y) eqn:E.
  - by exists [], y, l.
  - destruct (update_first p f l) as [l'|]; cbn.
    + destruct IH as (l1 & x & l2 & -> & Hx & -> & Hl). exists (y :: l1), x, l2. auto.
    + by constructor.
Qed.

(** An item that is put in place, or at the end, leaves the ids in place. *)
Lemma upsert_ids l item :
  map id (upsert_turn_item l item) = map id l \/
  map id (upsert_turn_item l item) = map id l ++ [id item].
Proof.
  unfold upsert_turn_item.
  pose proof (update_first_spec (fun e => bool_decide (id e = id item)) (fun _ => item) l) as H.
  destruct (update_first _ _ l) as [l'|].
  - destruct H as (l1 & x & l2 & -> & Hx%bool_decide_eq_true & -> & _). left.
    rewrite !map_app. cbn. by rewrite Hx.
  - right. by rewrite map_app.
Qed.

(** The ids between [l1] and [l2] gain one at most. *)
Lemma upsert_step l1 l2 l item n :
  foreign (id item) ->
  rtc id_step (l1 ++ map id l ++ l2, n) (l1 ++ map id (upsert_turn_item l item) ++ l2, n).
Proof.
  intros Hf. destruct (upsert_ids l item) as [-> | ->]; [reflexivity|].
  apply rtc_once. rewrite <- !app_assoc, !(app_assoc l1). by apply id_insert.
Qed.

Lemma upsert_current_step uuid b item :
  foreign (id item) ->
  rtc id_step (id_state b) (id_state (upsert_item_in_current_turn uuid b item)).
Proof.
  intros Hf. unfold id_state, upsert_item_in_current_turn. rewrite with_turn_ids. cbn.
  rewrite ensure_turn_items. unfold item_ids. rewrite map_app.
  pose proof (upsert_step (map id (concat (map items (turns b)))) [] (current_items b) item
    (next_item_index b) Hf) as H. by rewrite !app_nil_r in H.
Qed.

Lemma upsert_turn_id_step b tid item :
  foreign (id item) ->
  rtc id_step (id_state b) (id_state (upsert_item_in_turn_id b tid item)).
Proof.
  intros Hf. unfold upsert_item_in_turn_id.
  assert (rtc id_step (id_state b) (id_state
    match update_first (fun t => bool_decide (turn_id t = tid))
            (fun t => set_turn_items t (upsert_turn_item (items t) item)) (turns b) with
    | Some l => set_turns b l (current_turn b)
    | None => b
    end)) as Hfin.
  { pose proof (update_first_spec (fun t => bool_decide (turn_id t = tid))
      (fun t => set_turn_items t (upsert_turn_item (items t) item)) (turns b)) as H.
    destruct (update_first _ _ _) as [l|]; [|done].
    destruct H as (l1 & t & l2 & El & _ & -> & _).
    unfold id_state, item_ids, current_items. cbn. rewrite El.
    rewrite !(map_app items), !concat_app. cbn. rewrite !map_app, <- !app_assoc.
    by apply upsert_step. }
  destruct (current_turn b) as [t|] eqn:E; [|done].
  destruct (bool_decide _); [|done].
  pose proof (upsert_step (map id (concat (map items (turns b)))) [] (p_items t) item
    (next_item_index b) Hf) as H.
  unfold id_state, item_ids, current_items. cbn. rewrite E, !map_app.
  by rewrite !app_nil_r in H.
Qed.

Lemma upsert_item_step uuid b tid item :
  foreign (id item) -> rtc id_step (id_state b) (id_state (upsert_item uuid b tid item)).
Proof.
  intros Hf. unfold upsert_item.
  destruct (is_empty tid); [by apply upsert_current_step|by apply upsert_turn_id_step].
Qed.

(** Ends of turns keep the items. *)
Lemma update_turns_items p f l l' :
  (forall t, items (f t) = items t) -> update_first p f l = Some l' ->
  map items l' = map items l.
Proof.
  intros Hf Hu. pose proof (update_first_spec p f l) as H. rewrite Hu in H.
  destruct H as (l1 & t & l2 & -> & _ & -> & _). rewrite !map_app. cbn. by rewrite Hf.
Qed.

Lemma set_current_ids b t t' :
  current_turn b = Some t -> p_items t' = p_items t ->
  id_state (set_current b (Some t')) = id_state b.
Proof. intros E Hi. unfold id_state, item_ids, current_items. cbn. by rewrite E, Hi. Qed.

Lemma set_turns_ids b l :
  map items l = map items (turns b) -> id_state (set_turns b l (current_turn b)) = id_state b.
Proof. intros E. unfold id_state, item_ids, current_items. cbn. by rewrite E. Qed.

Lemma with_turn_same uuid b f :
  (forall t, p_items (f t) = p_items t) -> id_state (with_turn uuid b f) = id_state b.
Proof.
  intros Hf. unfold id_state. rewrite with_turn_ids, Hf, ensure_turn_items.
  unfold item_ids. by rewrite map_app.
Qed.

Lemma aborted_ids b tid c d : id_state (handle_turn_aborted b tid c d) = id_state b.
Proof.
  unfold handle_turn_aborted.
  assert (id_state match current_turn b with
    | Some t => set_current b (Some (set_end t Interrupted c d)) | None => b end = id_state b) as Ha.
  { destruct (current_turn b) eqn:E; [|done]. by eapply set_current_ids. }
  destruct tid as [tid|]; [|done].
  destruct (match current_turn b with Some t => bool_decide (p_id t = tid) | None => false end); [done|].
  destruct (update_first _ _ _) as [l|] eqn:El; [|done].
  apply set_turns_ids. by eapply update_turns_items, El.
Qed.

Lemma complete_ids b tid c d : id_state (handle_turn_complete b tid c d) = id_state b.
Proof.
  unfold handle_turn_complete.
  assert (id_state match current_turn b with
    | Some t => finish_current_turn
        (set_current b (Some (set_end t (mark_status (p_status t)) c d)))
    | None => b end = id_state b) as Ha.
  { destruct (current_turn b) eqn:E; [|done]. rewrite finish_ids. by eapply set_current_ids. }
  destruct (match current_turn b with Some t => bool_decide (p_id t = tid) | None => false end); [done|].
  destruct (update_first _ _ _) as [l|] eqn:El; [|done].
  apply set_turns_ids. by eapply update_turns_items, El.
Qed.

Lemma rollback_ids b n : id_step (id_state b) (id_state (handle_thread_rollback b n)).
Proof.
  rewrite <- (finish_ids b). unfold handle_thread_rollback.
  assert (current_turn (finish_current_turn b) = None) as E.
  { unfold finish_current_turn. destruct (current_turn b) eqn:E; [|done]. by destruct (_ && _). }
  set (b1 := finish_current_turn b) in *. clearbody b1.
  set (m := (length (turns b1) - N.to_nat n)%nat).
  replace (if (length (turns b1) <=? N.to_nat n)%nat then [] else take m (turns b1))
    with (take m (turns b1)).
  2:{ destruct (Nat.leb_spec (length (turns b1)) (N.to_nat n)); [|done].
      by replace m with 0%nat by lia. }
  unfold id_state, item_ids, current_items. cbn. rewrite E, !app_nil_r.
  rewrite <- (take_drop m (turns b1)) at 1. rewrite map_app, concat_app, map_app.
  assert (sum_list_with (fun t => length (items t)) (take m (turns b1)) =
          length (map id (concat (map items (take m (turns b1)))))) as ->.
  { rewrite length_map. induction (take m (turns b1)) as [|t l IH]; cbn; [done|].
    by rewrite length_app, IH. }
  apply id_cut.
Qed.

(** The item ids that an event brings with it. *)
Definition supplied_id (event : EventMsg) : option str :=
  match event with
  | EvWebSearchBegin i | EvWebSearchEnd i _ _ | EvViewImageToolCall i _
  | EvDynamicToolCallRequest i _ _ _ _ | EvDynamicToolCallResponse i _ _ _ _ _ _ _
  | EvMcpToolCallBegin i _ _ _ | EvMcpToolCallEnd i _ _ _ _ _
  | EvImageGenerationBegin i | EvImageGenerationEnd i _ _ _ _
  | EvCollabAgentSpawnBegin i _ _ _ _ | EvCollabAgentSpawnEnd i _ _ _ _ _ _
  | EvCollabWaitingBegin i _ _ | EvCollabWaitingEnd i _ _
  | EvItemStarted _ (PlanItem i _) | EvItemCompleted _ (PlanItem i _) => Some i
  | EvExecCommandBegin payload => Some (begin_call_id payload)
  | EvExecCommandEnd payload => Some (end_call_id payload)
  | EvGuardianAssessment payload => target_item_id payload
  | EvApplyPatchApprovalRequest payload | EvPatchApplyBegin payload
  | EvPatchApplyEnd payload _ => Some (patch_call_id payload)
  | EvCollabAgentInteractionBegin payload _ | EvCollabAgentInteractionEnd payload _ _
  | EvCollabCloseBegin payload | EvCollabCloseEnd payload _
  | EvCollabResumeBegin payload | EvCollabResumeEnd payload _ => Some (collab_call_id payload)
  | _ => None
  end.

Definition foreign_event (event : EventMsg) : Prop :=
  match supplied_id event with Some i => foreign i | None => True end.

Lemma user_message_ids uuid b payload :
  rtc id_step (id_state b) (id_state (handle_user_message uuid b payload)).
Proof.
  unfold handle_user_message. apply rtc_once.
  match goal with |- context [push_numbered _ ?b' _] =>
    assert (id_state b = id_state b') as -> end.
  { destruct (current_turn b) as [t|]; [|done]. destruct (_ && _); [|done].
    by rewrite finish_ids. }
  by apply push_numbered_ids.
Qed.

Lemma reasoning_ids uuid b text extend fresh :
  (forall i s c, id (extend i s c) = i) -> (forall i, id (fresh i) = i) ->
  rtc id_step (id_state b) (id_state (handle_reasoning uuid b text extend fresh)).
Proof.
  intros He Hf. unfold handle_reasoning. destruct (is_empty text); [done|].
  assert (id_step (id_state b) (id_state (push_numbered uuid b fresh))) as Hp
    by (by apply push_numbered_ids).
  destruct (last _) as [x|] eqn:El; [|by apply rtc_once].
  destruct x; try (by apply rtc_once).
  apply last_Some in El as [l El]. unfold id_state. rewrite with_turn_ids. cbn.
  rewrite El, removelast_last, map_app. cbn [map]. rewrite He.
  unfold item_ids. rewrite <- (ensure_turn_items uuid), El, !map_app. reflexivity.
Qed.

Lemma guardian_ids uuid b payload :
  foreign_event (EvGuardianAssessment payload) ->
  rtc id_step (id_state b) (id_state (handle_guardian_assessment uuid b payload)).
Proof.
  unfold handle_guardian_assessment, foreign_event, supplied_id. intros Hf.
  assert (forall st, rtc id_step (id_state b) (id_state
    match build_item_from_guardian_event shlex_try_join home_dir parse_command payload st with
    | Some item => upsert_item uuid b (guardian_turn_id payload) item
    | None => b
    end)) as Hgo.
  { intros st. destruct (build_item_from_guardian_event _ _ _ payload st) as [item|] eqn:E; [|done].
    apply upsert_item_step. unfold build_item_from_guardian_event in E.
    destruct (guardian_action payload); try done; destruct (target_item_id payload); try done;
      injection E as <-; done. }
  destruct (guardian_status payload); first [apply Hgo | done].
Qed.

Lemma numbered_ids uuid b f :
  (forall i, id (f i) = i) -> rtc id_step (id_state b) (id_state (push_numbered uuid b f)).
Proof. intros Hf. by apply rtc_once, push_numbered_ids. Qed.

Lemma agent_message_ids uuid b text phase citation :
  rtc id_step (id_state b) (id_state (handle_agent_message uuid b text phase citation)).
Proof. unfold handle_agent_message. destruct (is_empty text); [done|]. by apply numbered_ids. Qed.

Lemma item_step b tid item :
  (forall i t, item = PlanItem i t -> foreign i) ->
  rtc id_step (id_state b) (id_state (handle_item b tid item)).
Proof.
  intros Hf. destruct item as [i t|]; cbn; [|done]. destruct (is_empty t); [done|].
  apply upsert_turn_id_step. by eapply Hf.
Qed.

Lemma error_ids b message info : id_state (handle_error b message info) = id_state b.
Proof.
  unfold handle_error. destruct (negb _); [done|]. destruct (current_turn b) eqn:E; [|done].
  by eapply set_current_ids.
Qed.

Lemma finish_current_None b : current_turn (finish_current_turn b) = None.
Proof.
  unfold finish_current_turn. destruct (current_turn b) eqn:E; [|done]. by destruct (_ && _).
Qed.

Lemma turn_started_ids b tid started : id_state (handle_turn_started b tid started) = id_state b.
Proof.
  rewrite <- (finish_ids b). unfold handle_turn_started, id_state, item_ids, current_items. cbn.
  by rewrite finish_current_None.
Qed.

Create HintDb items.
#[local] Hint Resolve upsert_current_step upsert_turn_id_step upsert_item_step user_message_ids
  reasoning_ids guardian_ids numbered_ids agent_message_ids rtc_once rollback_ids : items.

(** Every event moves the ids by such steps. *)
Lemma handle_event_ids uuid b event :
  foreign_event event ->
  rtc id_step (id_state b) (id_state (handle_event uuid b event)).
Proof.
  intros Hf. destruct event; unfold foreign_event in Hf; cbn in Hf; cbn [handle_event];
    rewrite ?error_ids, ?turn_started_ids, ?aborted_ids, ?complete_ids; auto with items; try done.
  - by apply reasoning_ids.
  - by apply reasoning_ids.
  - unfold handle_mcp_tool_call_end. destruct result as [[value ?]|]; by apply upsert_current_step.
  - apply upsert_current_step. unfold spawn_end. by destruct new_thread_id.
  - apply item_step. by intros i t ->.
  - apply item_step. by intros i t ->.
Qed.

Lemma rollout_ids_step {Opaque} uuid b (item : RolloutItem (Opaque := Opaque)) :
  match item with
  | RolloutEvent event => foreign_event event
  | RolloutResponse (Message id_ _ _ _) => foreign (hook_prompt_id uuid id_)
  | _ => True
  end ->
  rtc id_step (id_state b) (id_state (handle_rollout_item uuid b item)).
Proof.
  intros Hf. unfold handle_rollout_item. set (b1 := mkBuilder _ _ _ _ _).
  change (id_state b) with (id_state b1). clearbody b1. destruct item as [event| |item|].
  - by apply handle_event_ids.
  - unfold handle_compacted. by rewrite with_turn_same.
  - destruct item; try done. cbn. destruct (bool_decide _); [done|].
    destruct (parse_hook_prompt_message content); [|done].
    unfold id_state. rewrite with_turn_ids. cbn. rewrite ensure_turn_items.
    unfold item_ids. rewrite !map_app. cbn [map]. rewrite app_assoc.
    apply rtc_once. rewrite <- (app_nil_r (_ ++ _)) at 1. by apply id_insert.
  - done.
Qed.

Lemma item_id_inj k j : item_id k = item_id j -> k = j.
Proof.
  unfold item_id, format_number. intros E%(app_inv_head "item-")%str_of_uint_inj.
  by rewrite <- (DecimalN.Unsigned.of_to k), E, DecimalN.Unsigned.of_to.
Qed.

(** The numbers increase along the history, each at most its position, and
    the next number is larger than all of them. *)
Record numbered_ok (x : list str * N) : Prop := {
  ok_position : forall p k, x.1 !! p = Some (item_id k) -> (k <= N.of_nat p + 1)%N;
  ok_next : forall p k, x.1 !! p = Some (item_id k) -> (k < x.2)%N;
  ok_increasing : forall p q k j, p < q -> x.1 !! p = Some (item_id k) ->
    x.1 !! q = Some (item_id j) -> (k < j)%N;
  ok_bound : (x.2 <= N.of_nat (length x.1) + 1)%N
}.

Lemma insert_lookup {A} (l k : list A) i p :
  p <> length l ->
  (l ++ i :: k) !! p = (l ++ k) !! (if (p <? length l)%nat then p else p - 1).
Proof.
  intros Hp. destruct (Nat.ltb_spec p (length l)) as [Hlt|Hge].
  - by rewrite !lookup_app_l.
  - rewrite !lookup_app_r by lia. destruct (p - length l) as [|m] eqn:E; [lia|].
    cbn. f_equal. lia.
Qed.

Lemma id_step_ok x y : id_step x y -> numbered_ok x -> numbered_ok y.
Proof.
  intros Hs [Hp Hn Hi Hb]. destruct Hs as [l n|l k i n Hf|l k n]; cbn [fst snd] in *.
  - split; cbn [fst snd].
    + intros p j [[_ Hl]|[-> E]]%lookup_snoc_Some; [by apply Hp|].
      apply item_id_inj in E as ->. lia.
    + intros p j [[_ Hl]|[-> E]]%lookup_snoc_Some.
      * specialize (Hn _ _ Hl). lia.
      * apply item_id_inj in E as ->. lia.
    + intros p q a b Hpq [[Hlt Ha]|[-> Ea]]%lookup_snoc_Some [[Hlq Hq]|[-> Eq]]%lookup_snoc_Some.
      * by apply (Hi p q).
      * apply item_id_inj in Eq as ->. by apply (Hn p).
      * lia.
      * lia.
    + rewrite length_app. cbn. lia.
  - assert (forall p a, (l ++ i :: k) !! p = Some (item_id a) -> p <> length l) as Hne.
    { intros p a Hl ->. rewrite list_lookup_middle in Hl by done. injection Hl as ->. by eapply Hf. }
    split; cbn [fst snd].
    + intros p a Hl. pose proof (Hne _ _ Hl) as Hq. rewrite insert_lookup in Hl by done.
      apply Hp in Hl. destruct (p <? length l)%nat; lia.
    + intros p a Hl. pose proof (Hne _ _ Hl) as Hq. rewrite insert_lookup in Hl by done. by eapply Hn.
    + intros p q a b Hpq Ha Hb'. pose proof (Hne _ _ Ha) as Hp1. pose proof (Hne _ _ Hb') as Hq1.
      rewrite insert_lookup in Ha, Hb' by done. eapply Hi; [|exact Ha|exact Hb'].
      destruct (Nat.ltb_spec p (length l)), (Nat.ltb_spec q (length l)); lia.
    + rewrite !length_app in *. cbn. lia.
  - assert (forall p a, l !! p = Some a -> (l ++ k) !! p = Some a) as Hl
      by (intros; by apply lookup_app_l_Some).
    split; cbn [fst snd].
    + intros p a Ha. by apply Hp, Hl.
    + intros p a Ha. pose proof (Hp _ _ (Hl _ _ Ha)). apply lookup_lt_Some in Ha. lia.
    + intros p q a b Hpq Ha Hb'. by apply (Hi p q); [|apply Hl|apply Hl].
    + lia.
Qed.

Lemma id_steps_ok x y : rtc id_step x y -> numbered_ok x -> numbered_ok y.
Proof. induction 1; eauto using id_step_ok. Qed.

Lemma new_ok : numbered_ok (id_state new).
Proof. split; cbn; try done. Qed.

(** A builder fed with rollout items and live events, none of which brings
    an id of the form the builder gives. *)
Inductive built {Opaque : Type} : ThreadHistoryBuilder -> Prop :=
| built_new : built new
| built_event uuid b event :
    built b -> foreign_event event -> built (handle_event uuid b event)
| built_rollout uuid b (item : RolloutItem (Opaque := Opaque)) :
    built b ->
    match item with
    | RolloutEvent event => foreign_event event
    | RolloutResponse (Message id_ _ _ _) => foreign (hook_prompt_id uuid id_)
    | _ => True
    end -> built (handle_rollout_item uuid b item).

Lemma built_ok {Opaque} b : built (Opaque := Opaque) b -> numbered_ok (id_state b).
Proof.
  induction 1 as [|uuid b event _ IH Hf|uuid b item _ IH Hf]; [apply new_ok| |].
  - eapply id_steps_ok; [by apply handle_event_ids|done].
  - eapply id_steps_ok; [by apply rollout_ids_step|done].
Qed.

(** ** Turn ids *)

(** The turns as [finish] would give them, the active one included. *)
Definition view (b : ThreadHistoryBuilder) : list Turn :=
  turns b ++ match current_turn b with Some t => [turn_from t] | None => [] end.
Definition turn_ids (b : ThreadHistoryBuilder) : list str := map turn_id (view b).

Lemma turn_ids_eq b :
  turn_ids b = map turn_id (turns b) ++ match current_turn b with Some t => [p_id t] | None => [] end.
Proof. unfold turn_ids, view. rewrite map_app. by destruct (current_turn b). Qed.

Lemma finish_turn_ids b : turn_ids (finish_current_turn b) `sublist_of` turn_ids b.
Proof.
  unfold finish_current_turn. destruct (current_turn b) as [t|] eqn:E; [|done].
  unfold turn_ids, view. rewrite E. destruct (_ && _); cbn.
  - rewrite app_nil_r, map_app. by apply sublist_inserts_r.
  - by rewrite app_nil_r.
Qed.

(** The id of the turn that an event may open. *)
Definition opened_id (uuid : str) (b : ThreadHistoryBuilder) (event : EventMsg) : str :=
  match event with
  | EvTurnStarted tid _ => tid
  | _ => p_id (new_turn uuid b None)
  end.

Lemma with_turn_turn_ids uuid b f :
  (forall t, p_id (f t) = p_id t) ->
  turn_ids (with_turn uuid b f) `sublist_of` turn_ids b ++ [p_id (new_turn uuid b None)].
Proof.
  intros Hf. rewrite !turn_ids_eq. cbn. rewrite Hf. unfold ensure_turn.
  destruct (current_turn b) as [t|].
  - by apply sublist_inserts_r.
  - by rewrite app_nil_r.
Qed.

Lemma push_numbered_turn_ids uuid b f :
  turn_ids (push_numbered uuid b f) `sublist_of` turn_ids b ++ [p_id (new_turn uuid b None)].
Proof.
  unfold push_numbered, next_item_id. set (b1 := mkBuilder _ _ _ _ _).
  change (turn_ids b) with (turn_ids b1).
  change (p_id (new_turn uuid b None)) with (p_id (new_turn uuid b1 None)).
  by apply with_turn_turn_ids.
Qed.

Lemma update_turns_turn_ids p f l l' :
  (forall t, turn_id (f t) = turn_id t) -> update_first p f l = Some l' ->
  map turn_id l' = map turn_id l.
Proof.
  intros Hf Hu. pose proof (update_first_spec p f l) as H. rewrite Hu in H.
  destruct H as (l1 & t & l2 & -> & _ & -> & _). rewrite !map_app. cbn. by rewrite Hf.
Qed.

Lemma set_current_turn_ids b t t' :
  current_turn b = Some t -> p_id t' = p_id t -> turn_ids (set_current b (Some t')) = turn_ids b.
Proof. intros E Hi. rewrite !turn_ids_eq. cbn. by rewrite E, Hi. Qed.

Lemma set_turns_turn_ids b l :
  map turn_id l = map turn_id (turns b) -> turn_ids (set_turns b l (current_turn b)) = turn_ids b.
Proof. intros E. rewrite !turn_ids_eq. cbn. by rewrite E. Qed.

Lemma upsert_turn_id_turn_ids b tid item :
  turn_ids (upsert_item_in_turn_id b tid item) = turn_ids b.
Proof.
  unfold upsert_item_in_turn_id.
  assert (turn_ids match update_first (fun t => bool_decide (turn_id t = tid))
            (fun t => set_turn_items t (upsert_turn_item (items t) item)) (turns b) with
    | Some l => set_turns b l (current_turn b)
    | None => b
    end = turn_ids b) as Hfin.
  { destruct (update_first _ _ _) eqn:E; [|done].
    apply set_turns_turn_ids. by eapply update_turns_turn_ids, E. }
  destruct (current_turn b) as [t|] eqn:E; [|done]. destruct (bool_decide _); [|done].
  by eapply set_current_turn_ids.
Qed.

Lemma upsert_item_turn_ids uuid b tid item :
  turn_ids (upsert_item uuid b tid item) `sublist_of` turn_ids b ++ [p_id (new_turn uuid b None)].
Proof.
  unfold upsert_item. destruct (is_empty tid); [by apply with_turn_turn_ids|].
  rewrite upsert_turn_id_turn_ids. by apply sublist_inserts_r.
Qed.

Lemma error_turn_ids b message info : turn_ids (handle_error b message info) = turn_ids b.
Proof.
  unfold handle_error. destruct (negb _); [done|]. destruct (current_turn b) eqn:E; [|done].
  by eapply set_current_turn_ids.
Qed.

Lemma aborted_turn_ids b tid c d : turn_ids (handle_turn_aborted b tid c d) = turn_ids b.
Proof.
  unfold handle_turn_aborted.
  assert (turn_ids match current_turn b with
    | Some t => set_current b (Some (set_end t Interrupted c d)) | None => b end = turn_ids b) as Ha.
  { destruct (current_turn b) eqn:E; [|done]. by eapply set_current_turn_ids. }
  destruct tid as [tid|]; [|done].
  destruct (match current_turn b with Some t => bool_decide (p_id t = tid) | None => false end); [done|].
  destruct (update_first _ _ _) as [l|] eqn:El; [|done].
  apply set_turns_turn_ids. by eapply update_turns_turn_ids, El.
Qed.

Lemma complete_turn_ids b tid c d :
  turn_ids (handle_turn_complete b tid c d) `sublist_of` turn_ids b.
Proof.
  unfold handle_turn_complete.
  assert (turn_ids match current_turn b with
    | Some t => finish_current_turn
        (set_current b (Some (set_end t (mark_status (p_status t)) c d)))
    | None => b end `sublist_of` turn_ids b) as Ha.
  { destruct (current_turn b) eqn:E; [|done]. rewrite finish_turn_ids.
    by erewrite set_current_turn_ids. }
  destruct (match current_turn b with Some t => bool_decide (p_id t = tid) | None => false end); [done|].
  destruct (update_first _ _ _) as [l|] eqn:El; [|done].
  erewrite set_turns_turn_ids; [done|]. by eapply update_turns_turn_ids, El.
Qed.

Lemma finish_new_turn uuid b : new_turn uuid (finish_current_turn b) None = new_turn uuid b None.
Proof.
  unfold finish_current_turn. destruct (current_turn b); [|done]. by destruct (_ && _).
Qed.

Lemma user_message_turn_ids uuid b payload :
  turn_ids (handle_user_message uuid b payload)
  `sublist_of` turn_ids b ++ [p_id (new_turn uuid b None)].
Proof.
  unfold handle_user_message. rewrite push_numbered_turn_ids.
  destruct (current_turn b) as [t|]; [|done]. destruct (_ && _); [|done].
  rewrite finish_new_turn. apply sublist_app; [apply finish_turn_ids|done].
Qed.

Lemma started_turn_ids b tid started :
  turn_ids (handle_turn_started b tid started) `sublist_of` turn_ids b ++ [tid].
Proof.
  unfold handle_turn_started. rewrite (turn_ids_eq (set_current _ _)). cbn.
  pose proof (finish_turn_ids b) as H. rewrite (turn_ids_eq (finish_current_turn b)) in H.
  rewrite finish_current_None, app_nil_r in H. by apply sublist_app.
Qed.

Lemma rollback_turns b n :
  turns (handle_thread_rollback b n) = take (length (finish b) - N.to_nat n) (finish b) /\
  current_turn (handle_thread_rollback b n) = None.
Proof.
  unfold handle_thread_rollback, finish. cbn. rewrite finish_current_None. split; [|done].
  destruct (Nat.leb_spec (length (turns (finish_current_turn b))) (N.to_nat n)); [|done].
  by replace (_ - _)%nat with 0%nat by lia.
Qed.

Lemma rollback_turn_ids b n : turn_ids (handle_thread_rollback b n) `sublist_of` turn_ids b.
Proof.
  rewrite <- (finish_turn_ids b), !turn_ids_eq, finish_current_None, !app_nil_r.
  destruct (rollback_turns b n) as [-> ->]. rewrite app_nil_r. unfold finish.
  rewrite <- (take_drop (length (turns (finish_current_turn b)) - N.to_nat n)
                (turns (finish_current_turn b))) at 3.
  rewrite map_app. by apply sublist_inserts_r.
Qed.

Lemma agent_message_turn_ids uuid b text phase citation :
  turn_ids (handle_agent_message uuid b text phase citation)
  `sublist_of` turn_ids b ++ [p_id (new_turn uuid b None)].
Proof.
  unfold handle_agent_message. destruct (is_empty text); [by apply sublist_inserts_r|].
  apply push_numbered_turn_ids.
Qed.

Lemma reasoning_turn_ids uuid b text extend fresh :
  turn_ids (handle_reasoning uuid b text extend fresh)
  `sublist_of` turn_ids b ++ [p_id (new_turn uuid b None)].
Proof.
  unfold handle_reasoning. destruct (is_empty text); [by apply sublist_inserts_r|].
  destruct (last _) as [x|]; [|apply push_numbered_turn_ids].
  destruct x; try apply push_numbered_turn_ids. by apply with_turn_turn_ids.
Qed.

Lemma item_turn_ids b tid item : turn_ids (handle_item b tid item) = turn_ids b.
Proof.
  destruct item as [i t|]; cbn; [|done]. destruct (is_empty t); [done|].
  apply upsert_turn_id_turn_ids.
Qed.

Lemma guardian_turn_ids uuid b payload :
  turn_ids (handle_guardian_assessment uuid b payload)
  `sublist_of` turn_ids b ++ [p_id (new_turn uuid b None)].
Proof.
  unfold handle_guardian_assessment.
  destruct (guardian_status payload); try (by apply sublist_inserts_r);
    (destruct (build_item_from_guardian_event _ _ _ _ _);
     [apply upsert_item_turn_ids|by apply sublist_inserts_r]).
Qed.

(** An event opens one turn at most, and keeps the order of the others. *)
Lemma handle_event_turn_ids uuid b event :
  turn_ids (handle_event uuid b event) `sublist_of` turn_ids b ++ [opened_id uuid b event].
Proof.
  destruct event; cbn [handle_event opened_id];
    rewrite ?error_turn_ids, ?aborted_turn_ids, ?item_turn_ids, ?upsert_turn_id_turn_ids;
    first [ by apply with_turn_turn_ids | apply push_numbered_turn_ids
          | apply upsert_item_turn_ids | apply reasoning_turn_ids | apply guardian_turn_ids
          | apply user_message_turn_ids | apply started_turn_ids | apply agent_message_turn_ids
          | by apply sublist_inserts_r | idtac ].
  - unfold handle_mcp_tool_call_end. destruct result as [[value ?]|]; by apply with_turn_turn_ids.
  - apply sublist_inserts_r, rollback_turn_ids.
  - apply sublist_inserts_r, complete_turn_ids.
Qed.

Lemma finish_index b : next_rollout_index (finish_current_turn b) = next_rollout_index b.
Proof. unfold finish_current_turn. destruct (current_turn b); [|done]. by destruct (_ && _). Qed.

Lemma upsert_index b tid item :
  next_rollout_index (upsert_item_in_turn_id b tid item) = next_rollout_index b.
Proof. unfold upsert_item_in_turn_id. repeat case_match; done. Qed.

Lemma upsert_item_index uuid b tid item :
  next_rollout_index (upsert_item uuid b tid item) = next_rollout_index b.
Proof. unfold upsert_item. destruct (is_empty tid); [done|]. apply upsert_index. Qed.

Lemma handle_event_index uuid b event :
  next_rollout_index (handle_event uuid b event) = next_rollout_index b.
Proof.
  destruct event; cbn [handle_event]; rewrite ?upsert_index, ?upsert_item_index; try done.
  - unfold handle_user_message. cbn.
    destruct (current_turn b); [|done]. destruct (_ && _); [|done]. apply finish_index.
  - unfold handle_agent_message. by destruct (is_empty message).
  - unfold handle_agent_reasoning, handle_reasoning. repeat case_match; done.
  - unfold handle_agent_reasoning_raw_content, handle_reasoning. repeat case_match; done.
  - unfold handle_guardian_assessment.
    destruct (guardian_status payload); try done;
      (destruct (build_item_from_guardian_event _ _ _ _ _); [apply upsert_item_index|done]).
  - unfold handle_mcp_tool_call_end. by destruct result as [[value ?]|].
  - unfold handle_item. repeat case_match; rewrite ?upsert_index; done.
  - unfold handle_item. repeat case_match; rewrite ?upsert_index; done.
  - unfold handle_error. repeat case_match; done.
  - unfold handle_thread_rollback. apply finish_index.
  - unfold handle_turn_aborted. repeat case_match; done.
  - apply finish_index.
  - unfold handle_turn_complete. repeat case_match; rewrite ?finish_index; done.
Qed.

(** The turns that a rollout opens explicitly. *)
Definition started {Opaque} (item : RolloutItem (Opaque := Opaque)) : option str :=
  match item with RolloutEvent (EvTurnStarted tid _) => Some tid | _ => None end.
Definition started_ids {Opaque} (rollout : list (str * RolloutItem (Opaque := Opaque))) : list str :=
  omap (fun x => started x.2) rollout.

(** They have ids of their own, not of the form that replay gives. *)
Definition fresh_starts {Opaque} (rollout : list (str * RolloutItem (Opaque := Opaque))) : Prop :=
  NoDup (started_ids rollout) /\ forall tid j, tid ∈ started_ids rollout -> tid <> rollout_id j.

Lemma rollout_id_inj j k : rollout_id j = rollout_id k -> j = k.
Proof.
  unfold rollout_id, format_number. intros E%(app_inv_head "rollout-")%str_of_uint_inj.
  apply Nat2N.inj. by rewrite <- (DecimalN.Unsigned.of_to (N.of_nat j)), E, DecimalN.Unsigned.of_to.
Qed.

Lemma rollout_turn_ids {Opaque} uuid b (item : RolloutItem (Opaque := Opaque)) :
  next_rollout_index (handle_rollout_item uuid b item) = S (next_rollout_index b) /\
  turn_ids (handle_rollout_item uuid b item) `sublist_of`
    turn_ids b ++ [default (rollout_id (next_rollout_index b)) (started item)].
Proof.
  unfold handle_rollout_item. set (b1 := mkBuilder _ _ _ _ _).
  change (turn_ids b) with (turn_ids b1).
  change (rollout_id (next_rollout_index b)) with (p_id (new_turn uuid b1 None)).
  destruct item as [event| |item|].
  - split; [apply handle_event_index|]. pose proof (handle_event_turn_ids uuid b1 event) as H.
    by destruct event.
  - split; [done|]. by apply with_turn_turn_ids.
  - unfold handle_response_item. destruct item; try (split; [done|by apply sublist_inserts_r]).
    destruct (bool_decide _); [split; [done|by apply sublist_inserts_r]|].
    destruct (parse_hook_prompt_message content);
      (split; [done|first [by apply with_turn_turn_ids|by apply sublist_inserts_r]]).
  - split; [done|]. by apply sublist_inserts_r.
Qed.

Lemma replay_turn_ids {Opaque} (rollout : list (str * RolloutItem (Opaque := Opaque))) :
  fresh_starts rollout ->
  let b := replay new rollout in
  next_rollout_index b = length rollout /\ NoDup (turn_ids b) /\
  forall i, i ∈ turn_ids b ->
    i ∈ started_ids rollout \/ exists j, j < length rollout /\ i = rollout_id j.
Proof.
  induction rollout as [|[uuid item] rollout IH] using rev_ind; intros [Hn Hr].
  { split_and!; [done|constructor|]. by intros i ?%not_elem_of_nil. }
  unfold started_ids in Hn, Hr |- *. rewrite omap_app in *.
  assert (fresh_starts rollout) as Hf.
  { apply NoDup_app in Hn as (Hn & _ & _). split; [done|].
    intros tid j Ht. apply Hr, elem_of_app. by left. }
  destruct (IH Hf) as (Hi & Hnd & Hin). clear IH.
  unfold replay. rewrite fold_left_app. cbn [fold_left fst snd]. fold (replay (Opaque := Opaque) new rollout).
  destruct (rollout_turn_ids uuid (replay new rollout) item) as [-> Hs].
  rewrite Hi in *. rewrite length_app. cbn [length].
  set (o := default _ _) in Hs.
  assert (o ∉ turn_ids (replay new rollout)) as Ho.
  { intros [Hst|(j & Hj & Eo)]%Hin; subst o; cbn in Hn, Hr.
    - destruct (started item) as [tid|] eqn:Es; cbn in Hst.
      + apply NoDup_app in Hn as (_ & Hd & _). eapply Hd; [exact Hst|]. cbn; rewrite ?Es; by left.
      + eapply (proj2 Hf); [exact Hst|reflexivity].
    - destruct (started item) as [tid|] eqn:Es; cbn in Eo.
      + eapply Hr; [|exact Eo]. apply elem_of_app. right. cbn; rewrite ?Es; by left.
      + apply rollout_id_inj in Eo. lia. }
  split_and!; [lia| |].
  - eapply sublist_NoDup; [|exact Hs]. apply NoDup_app. split_and!; [done| |apply NoDup_singleton].
    intros x Hx ->%list_elem_of_singleton. done.
  - intros i Hx. apply elem_of_sublist with (2 := Hs) in Hx.
    apply elem_of_app in Hx as [Hx| ->%list_elem_of_singleton].
    + destruct (Hin i Hx) as [?|(j & ? & ->)]; [left; apply elem_of_app; by left|right; exists j; split; [lia|done]].
    + subst o. destruct (started item) as [tid|] eqn:Es; cbn.
      * left. apply elem_of_app. right. rewrite ?Es. by left.
      * right. exists (length rollout). split; [lia|done].
Qed.

(** ** Routing *)

(** An item put into the turn with that id. *)
Definition put_item (tid : str) (item : ThreadItem) (t : Turn) : Turn :=
  if decide (turn_id t = tid) then set_turn_items t (upsert_turn_item (items t) item) else t.

Lemma put_item_other tid item l : tid ∉ map turn_id l -> map (put_item tid item) l = l.
Proof.
  induction l as [|t l IH]; [done|]. intros [Hn Hl]%not_elem_of_cons. cbn.
  rewrite IH by done. unfold put_item. by rewrite decide_False.
Qed.

Lemma update_first_put tid item l :
  NoDup (map turn_id l) ->
  default l (update_first (fun t => bool_decide (turn_id t = tid))
    (fun t => set_turn_items t (upsert_turn_item (items t) item)) l) = map (put_item tid item) l.
Proof.
  induction l as [|t l IH]; intros Hn; [done|].
  cbn in Hn. apply NoDup_cons in Hn as [Ht Hn]. cbn. unfold put_item at 1.
  case_bool_decide as E; cbn.
  - rewrite decide_True, put_item_other by (done || by rewrite <- E). done.
  - rewrite decide_False by done. rewrite <- IH by done. by destruct (update_first _ _ l).
Qed.

Lemma upsert_view b tid item :
  NoDup (turn_ids b) ->
  view (upsert_item_in_turn_id b tid item) = map (put_item tid item) (view b).
Proof.
  rewrite turn_ids_eq. intros Hn. unfold upsert_item_in_turn_id, view.
  apply NoDup_app in Hn as (Hl & Hd & _).
  pose proof (update_first_put tid item (turns b) Hl) as Hu. rewrite map_app.
  destruct (current_turn b) as [t|] eqn:E.
  - cbn. unfold put_item at 2. cbn. case_bool_decide as Et; cbn.
    + rewrite decide_True by done. rewrite put_item_other; [done|].
      intros Hin. apply (Hd tid Hin). rewrite Et. left.
    + rewrite decide_False by done. rewrite <- Hu. destruct (update_first _ _ _); cbn; by rewrite ?E.
  - cbn. rewrite app_nil_r, <- Hu. destruct (update_first _ _ _); cbn; by rewrite ?E, ?app_nil_r.
Qed.

(** The item is in the turn once it has been put there, at the place of the
    first item with its id, or at the end. *)
Lemma upsert_turn_item_spec l item :
  item ∈ upsert_turn_item l item /\
  (NoDup (map id l) -> forall x, x ∈ upsert_turn_item l item <-> x = item \/ x ∈ l /\ id x <> id item).
Proof.
  unfold upsert_turn_item.
  pose proof (update_first_spec (fun e => bool_decide (id e = id item)) (fun _ => item) l) as H.
  destruct (update_first _ _ l) as [l'|].
  - destruct H as (l1 & x & l2 & -> & Hx%bool_decide_eq_true & -> & _).
    split; [apply elem_of_app; right; left|]. intros Hn y.
    rewrite map_app in Hn. cbn in Hn. apply NoDup_app in Hn as (_ & H1 & Hn).
    apply NoDup_cons in Hn as [H2 _]. rewrite !elem_of_app, !elem_of_cons, Hx in *.
    assert (forall z, z ∈ l1 \/ z ∈ l2 -> id z <> id item) as Hne.
    { intros z [Hz|Hz] E.
      - apply (H1 (id z)); [by apply list_elem_of_fmap_2|]. rewrite E. left.
      - apply H2. rewrite <- E. by apply list_elem_of_fmap_2. }
    split.
    + intros [Hy|[->|Hy]]; [right; split; [tauto|apply Hne; tauto]|by left
                           |right; split; [tauto|apply Hne; tauto]].
    + intros [->|[[Hy|[->|Hy]] Hi]]; [tauto|tauto|done|tauto].
  - split; [apply elem_of_app; right; left|]. intros _ y.
    rewrite elem_of_app, list_elem_of_singleton. split; [|tauto].
    intros [Hy|Hy]; [right|by left]. split; [done|].
    rewrite Forall_forall in H. by apply H, bool_decide_eq_false in Hy.
Qed.

(** ** The properties *)


(** Rolling back turns drops exactly the last turns.  Whatever came
    before, after a rollback of [n] turns the history is what it was, the
    open turn counted, without its last [n] turns (all of them if there are
    fewer), no turn is open, and the number of the next item is one more than
    the number of items left. *)
Theorem rollback_drops_last_turns uuid b n :
  let b' := handle_event uuid b (EvThreadRolledBack n) in
  finish b' = take (length (finish b) - N.to_nat n) (finish b) /\
  current_turn b' = None /\
  next_item_index b' = (N.of_nat (length (item_ids b')) + 1)%N.
Proof.
  cbn [handle_event]. destruct (rollback_turns b n) as [Ht Hc]. split_and!.
  - unfold finish at 1. unfold finish_current_turn. by rewrite Hc.
  - done.
  - unfold item_ids, current_items. rewrite Hc, app_nil_r, length_map. cbn. f_equal. f_equal.
    generalize (if (length (turns (finish_current_turn b)) <=? N.to_nat n)%nat then []
      else take (length (turns (finish_current_turn b)) - N.to_nat n)
             (turns (finish_current_turn b))).
    intros l. induction l as [|t l IH]; cbn; [done|]. by rewrite length_app, IH.
Qed.

(** A command's events find its turn.  In the history rebuilt from a
    rollout whose explicit turns have ids of their own, all turns have
    different ids; and the end of a command, however late it arrives, is put
    into the turn it names, in the place of the command's item if there is
    one: no other turn changes, and no item of that turn but the command's
    own. *)
Theorem late_events_find_their_turn {Opaque} (rollout : list (str * RolloutItem (Opaque := Opaque)))
    uuid payload :
  fresh_starts rollout ->
  let b := replay new rollout in
  let item := build_command_execution_end_item shlex_try_join home_dir payload in
  let b' := handle_event uuid b (EvExecCommandEnd payload) in
  NoDup (turn_ids b) /\
  view b' = map (put_item (end_turn_id payload) item) (view b) /\
  forall t, t ∈ view b -> turn_id t = end_turn_id payload -> NoDup (map id (items t)) ->
    forall x, x ∈ items (put_item (end_turn_id payload) item t) <->
      x = item \/ x ∈ items t /\ id x <> end_call_id payload.
Proof.
  intros Hf b item b'. destruct (replay_turn_ids rollout Hf) as (_ & Hn & _).
  split_and!; [done|by apply upsert_view|].
  intros t Ht Hid Hu x. unfold put_item. rewrite decide_True by done. cbn.
  by apply upsert_turn_item_spec.
Qed.
End History.

(** ** At work *)

Section Demo.
#[local] Instance thread_json : Json := {| Value := unit |}.
#[local] Instance thread_null : JsonNull := {| Null := tt |}.

Definition no_xml (_ : str) : option HookPromptFragment := None.
Definition spaced (tokens : list str) : option str := Some (join " " tokens).
Definition unparsed (argv : list str) : list ParsedCommand := [ParsedUnknown (join " " argv)].

Definition item (event : EventMsg) : str * RolloutItem (Opaque := unit) := ([], RolloutEvent event).

Definition demo_begin : ExecCommandBegin :=
  mkExecBegin "call-1" None "turn-a" ["sleep"; "9"] [RootDir] [] Agent.
Definition demo_end : ExecCommandEnd :=
  mkExecEnd "call-1" None "turn-a" ["sleep"; "9"] [RootDir] [] Agent "out" 0 9000000000
    ExecCompleted.
Definition demo_user (text : str) : UserMessageEvent := mkUserMessage text None [] [] [] [].

(** A command still runs when its turn completes and another one starts. *)
Definition demo_rollout : list (str * RolloutItem (Opaque := unit)) := [
  item (EvTurnStarted "turn-a" None);
  item (EvUserMessage (demo_user "go"));
  item (EvExecCommandBegin demo_begin);
  item (EvAgentMessage "started" None None);
  item (EvTurnComplete "turn-a" None None);
  item (EvTurnStarted "turn-b" None);
  item (EvUserMessage (demo_user "and now?"))].

Definition demo_builder : ThreadHistoryBuilder :=
  replay no_xml spaced None unparsed new demo_rollout.
Definition demo_late : ThreadHistoryBuilder :=
  handle_event spaced None unparsed [] demo_builder (EvExecCommandEnd demo_end).

Definition shape (b : ThreadHistoryBuilder) : list (str * list str) :=
  map (fun t => (turn_id t, map id (items t))) (view b).

Example late_end_routed :
  shape demo_late = [("turn-a", ["item-1"; "call-1"; "item-2"]); ("turn-b", ["item-3"])] /\
  shape (handle_event spaced None unparsed [] demo_late (EvThreadRolledBack 1)) =
    [("turn-a", ["item-1"; "call-1"; "item-2"])] /\
  map status (finish (handle_event spaced None unparsed [] demo_builder
    (EvTurnAborted (Some "turn-b") None None))) = [Completed; Interrupted].
Proof. vm_compute. split_and!; reflexivity. Qed.

(** The items of a turn that is rolled back give their numbers back. *)
Definition demo_turns : ThreadHistoryBuilder :=
  replay no_xml spaced None unparsed new (Opaque := unit) [
    item (EvTurnStarted "turn-a" None); item (EvUserMessage (demo_user "one"));
    item (EvAgentMessage "first" None None); item (EvTurnComplete "turn-a" None None);
    item (EvTurnStarted "turn-b" None); item (EvUserMessage (demo_user "two"));
    item (EvAgentMessage "second" None None); item (EvTurnComplete "turn-b" None None)].

Example rolled_back_numbers_reused :
  let rolled := handle_event spaced None unparsed [] demo_turns (EvThreadRolledBack 1) in
  let again := handle_event spaced None unparsed []
    (handle_event spaced None unparsed [] rolled (EvTurnStarted "turn-c" None))
    (EvUserMessage (demo_user "three")) in
  shape demo_turns = [("turn-a", ["item-1"; "item-2"]); ("turn-b", ["item-3"; "item-4"])] /\
  shape again = [("turn-a", ["item-1"; "item-2"]); ("turn-c", ["item-3"])].
Proof. vm_compute. split; reflexivity. Qed.

(** An interrupted turn keeps the error of the failure before it, although
    the field is meant for failed turns only. *)
Example interrupted_keeps_error :
  match last (finish (handle_event spaced None unparsed []
    (handle_event spaced None unparsed [] demo_builder (EvError "boom" None))
    (EvTurnAborted (Some "turn-b") None None))) with
  | Some t => status t = Interrupted /\ error_message <$> error t = Some ("boom" : str)
  | None => False
  end.
Proof. vm_compute. split; reflexivity. Qed.

Lemma demo_foreign : foreign "call-1".
Proof. intros k. vm_compute. discriminate. Qed.

Lemma demo_built : built no_xml spaced None unparsed (Opaque := unit) demo_late.
Proof.
  apply built_event; [|exact demo_foreign].
  unfold demo_builder, replay, demo_rollout, item. cbn [fold_left fst snd].
  repeat (apply built_rollout; [|first [exact I|exact demo_foreign]]). apply built_new.
Qed.


Lemma late_events_find_their_turn_witness :
  NoDup (turn_ids demo_builder) /\
  view demo_late =
    map (put_item "turn-a" (build_command_execution_end_item spaced None demo_end))
      (view demo_builder).
Proof.
  assert (fresh_starts demo_rollout) as Hf.
  { split.
    - apply (bool_decide_eq_true_1 _). vm_compute. reflexivity.
    - intros tid j Ht. cbn in Ht. apply elem_of_cons in Ht as [->|Ht]; [discriminate|].
      apply elem_of_cons in Ht as [->|Ht]; [discriminate|]. by apply not_elem_of_nil in Ht. }
  destruct (late_events_find_their_turn no_xml spaced None unparsed demo_rollout [] demo_end Hf)
    as (Hn & Hv & _).
  split; [exact Hn|exact Hv].
Defined.
End Demo.
