(* ===== verification/MentionCodec.v ===== *)
(** * Mentions in the prompt history

    [codex-rs/tui/src/mention_codec.rs]: a prompt mentions tools by name
    ([$name]) and the composer knows what each mention is bound to; in the
    history file a bound mention is written as a link, [[$name](path)]. Reading
    is by bytes; every byte that is tested is ASCII, so the model reads
    characters, and a position is the rest of the text. The theorem states that
    reading a text written with its mentions gives the text back, with each
    name bound to its paths in the order they were given. *)

From S2P Require Import Prelude RustStr.
Open Scope str_scope.

(** ** mention_syntax.rs *)

Definition TOOL_MENTION_SIGIL : char := 36%N.
Definition PLUGIN_TEXT_MENTION_SIGIL : char := 64%N.

Definition LBRACKET : char := 91%N.
Definition RBRACKET : char := 93%N.
Definition LPAREN : char := 40%N.
Definition RPAREN : char := 41%N.

(** ** mention_codec.rs *)

Record LinkedMention := mkMention { mention : str; mention_path : str }.
Record DecodedHistoryText := mkDecoded { decoded_text : str; decoded_mentions : list LinkedMention }.

Definition is_mention_name_char (c : char) : bool :=
  is_ascii_alphanumeric c || (c =? 95)%N || (c =? 45)%N.

Definition is_ascii_whitespace (c : char) : bool :=
  ((c =? 32) || (c =? 9) || (c =? 10) || (c =? 12) || (c =? 13))%N.

Definition is_common_env_var (name : str) : bool :=
  bool_decide (to_ascii_uppercase name ∈
    (["PATH"; "HOME"; "USER"; "SHELL"; "PWD"; "TMPDIR"; "TEMP"; "TMP"; "LANG"; "TERM";
      "XDG_CONFIG_HOME"] : list str)).

(** [path.rsplit(['/', '\\']).next()] *)
Definition last_component (path : str) : str :=
  rev (take_while (fun c => negb ((c =? 47) || (c =? 92))%N) (rev path)).

Definition is_tool_path (path : str) : bool :=
  starts_with path "app://" || starts_with path "mcp://" || starts_with path "plugin://"
  || starts_with path "skill://"
  || bool_decide (to_ascii_lowercase (last_component path) = to_ascii_lowercase "SKILL.md").

(** The name, the path, and what follows the link. *)
Definition parse_linked_tool_mention (text : str) (sigil : char) : option (str * str * str) :=
  match text with
  | _ :: g :: rest =>
      if (g =? sigil)%N then
        let name := take_while is_mention_name_char rest in
        if is_empty name then None
        else match trim_start_matches is_mention_name_char rest with
        | b :: rest =>
            if (b =? RBRACKET)%N then
              match trim_start_matches is_ascii_whitespace rest with
              | p :: rest =>
                  if (p =? LPAREN)%N then
                    '(path, rest) ← split_once RPAREN rest;
                    let path := trim path in
                    if is_empty path then None else Some (name, path, rest)
                  else None
              | [] => None
              end
            else None
        | [] => None
        end
      else None
  | _ => None
  end.

Definition parse_history_linked_mention (text : str) : option (str * str * str) :=
  match parse_linked_tool_mention text TOOL_MENTION_SIGIL with
  | Some (name, path, rest) =>
      if negb (is_common_env_var name) && is_tool_path path then Some (name, path, rest)
      else None
  | None => None
  end
  ∪ match parse_linked_tool_mention text PLUGIN_TEXT_MENTION_SIGIL with
    | Some (name, path, rest) =>
        if negb (is_common_env_var name) && starts_with path "plugin://" then Some (name, path, rest)
        else None
    | None => None
    end.

Fixpoint decode_loop (fuel : nat) (text : str) : DecodedHistoryText :=
  match fuel, text with
  | S fuel, c :: rest =>
      match (if (c =? LBRACKET)%N then parse_history_linked_mention text else None) with
      | Some (name, path, rest) =>
          let decoded := decode_loop fuel rest in
          mkDecoded (TOOL_MENTION_SIGIL :: name ++ decoded_text decoded)
            (mkMention name path :: decoded_mentions decoded)
      | None =>
          let decoded := decode_loop fuel rest in
          mkDecoded (c :: decoded_text decoded) (decoded_mentions decoded)
      end
  | _, _ => mkDecoded [] []
  end.

Definition decode_history_mentions (text : str) : DecodedHistoryText :=
  decode_loop (length text) text.

(** [mentions_by_name]: the paths of each name, in order. *)
Definition mentions_by_name (mentions : list LinkedMention) : gmap str (list str) :=
  fold_left (fun by_name m =>
      <[mention m := default [] (by_name !! mention m) ++ [mention_path m]]> by_name)
    mentions ∅.

Fixpoint encode_loop (fuel : nat) (text : str) (by_name : gmap str (list str)) : str :=
  match fuel, text with
  | S fuel, c :: rest =>
      let name := if (c =? TOOL_MENTION_SIGIL)%N then take_while is_mention_name_char rest else [] in
      match (if is_empty name then None else by_name !! name) with
      | Some (path :: paths) =>
          [LBRACKET; TOOL_MENTION_SIGIL] ++ name ++ [RBRACKET; LPAREN] ++ path ++ [RPAREN]
          ++ encode_loop fuel (trim_start_matches is_mention_name_char rest) (<[name := paths]> by_name)
      | _ => c :: encode_loop fuel rest by_name
      end
  | _, _ => []
  end.

Definition encode_history_mentions (text : str) (mentions : list LinkedMention) : str :=
  if is_empty mentions || is_empty text then text
  else encode_loop (length text) text (mentions_by_name mentions).

(** ** What a text mentions *)

(** The names after a sigil, in order. *)
Fixpoint mentioned_names (text : str) : list str :=
  match text with
  | [] => []
  | c :: rest =>
      let name := if (c =? TOOL_MENTION_SIGIL)%N then take_while is_mention_name_char rest else [] in
      if is_empty name then mentioned_names rest else name :: mentioned_names rest
  end.

Definition occurrences (name : str) (names : list str) : nat :=
  length (filter (fun n => n = name) names).

(** The paths a list of mentions gives to a name, in order. *)
Definition paths_of (name : str) (mentions : list LinkedMention) : list str :=
  map mention_path (filter (fun m => mention m = name) mentions).

(** A mention that a link can carry. *)
Definition linkable (m : LinkedMention) : Prop :=
  mention m <> [] /\ forallb is_mention_name_char (mention m) = true
  /\ is_common_env_var (mention m) = false
  /\ is_tool_path (mention_path m) = true /\ trim (mention_path m) = mention_path m
  /\ no_char RPAREN (mention_path m).

(** No [[$] and no [[@] in the text: nothing in it begins like a link. *)
Definition no_link_begins (text : str) : Prop :=
  contains text [LBRACKET; TOOL_MENTION_SIGIL] = false
  /\ contains text [LBRACKET; PLUGIN_TEXT_MENTION_SIGIL] = false.

#[global] Instance linkable_dec m : Decision (linkable m).
Proof. unfold linkable, no_char. apply _. Defined.
#[global] Instance no_link_begins_dec text : Decision (no_link_begins text).
Proof. apply _. Defined.

Lemma no_link_begins_cons c text : no_link_begins (c :: text) -> no_link_begins text.
Proof.
  unfold no_link_begins. cbn [contains]. intros [H1 H2].
  split; by apply orb_false_iff in H1 as [_ H1], H2 as [_ H2].
Qed.

Lemma no_link_begins_app w text : no_link_begins (w ++ text) -> no_link_begins text.
Proof. induction w as [|c w IH]; [done|]. intros H%no_link_begins_cons. auto. Qed.

Lemma no_link_begins_next c text :
  no_link_begins (LBRACKET :: c :: text) ->
  c <> TOOL_MENTION_SIGIL /\ c <> PLUGIN_TEXT_MENTION_SIGIL.
Proof.
  unfold no_link_begins. cbn [contains]. intros [H1 H2].
  apply orb_false_iff in H1 as [H1 _], H2 as [H2 _].
  split; intros ->; [by cbn in H1|by cbn in H2].
Qed.

(** ** Links are read back *)

Lemma name_char_not c :
  is_mention_name_char c = true -> c <> TOOL_MENTION_SIGIL /\ c <> RBRACKET /\ c <> LBRACKET.
Proof. intros H. split_and!; intros ->; discriminate H. Qed.

Lemma tool_path_not_empty path : is_tool_path path = true -> path <> [].
Proof. intros H ->. discriminate H. Qed.

Lemma parse_link m rest :
  linkable m ->
  parse_history_linked_mention
    ([LBRACKET; TOOL_MENTION_SIGIL] ++ mention m ++ [RBRACKET; LPAREN] ++ mention_path m
     ++ [RPAREN] ++ rest)
  = Some (mention m, mention_path m, rest).
Proof.
  intros (Hne & Hname & Henv & Hpath & Htrim & Hclose).
  unfold parse_history_linked_mention, parse_linked_tool_mention at 1. cbn [app].
  rewrite N.eqb_refl. cbv zeta.
  rewrite take_while_app, (proj2 (is_empty_false _) Hne) by done.
  rewrite trim_start_matches_all by done. cbn.
  assert (split_once RPAREN (mention_path m ++ RPAREN :: rest) = Some (mention_path m, rest)) as ->
    by (apply split_once_Some; done).
  cbn. rewrite Htrim, (proj2 (is_empty_false _) (tool_path_not_empty _ Hpath)), Henv, Hpath. done.
Qed.

Lemma parse_no_link text :
  (forall c rest, text = c :: rest -> c <> TOOL_MENTION_SIGIL /\ c <> PLUGIN_TEXT_MENTION_SIGIL) ->
  parse_history_linked_mention (LBRACKET :: text) = None.
Proof.
  intros H. unfold parse_history_linked_mention, parse_linked_tool_mention.
  destruct text as [|c rest]; [done|]. destruct (H c rest eq_refl) as [H1 H2].
  apply N.eqb_neq in H1, H2. by rewrite H1, H2.
Qed.

(** What follows a bracket that is not part of a link is kept by the encoder. *)
Lemma encode_head fuel text by_name c rest :
  encode_loop fuel text by_name = c :: rest ->
  exists d text', text = d :: text' /\ (c = d \/ d = TOOL_MENTION_SIGIL /\ c = LBRACKET).
Proof.
  destruct fuel as [|fuel], text as [|d text]; try done. cbn. intros H.
  exists d, text. split; [done|]. revert H. case_match; [|intros [= <- _]; by left].
  destruct l; [intros [= <- _]; by left|]. intros [= <- _].
  destruct (N.eqb_spec d TOOL_MENTION_SIGIL); [by right|]. done.
Qed.

Lemma encode_no_paths fuel text : length text <= fuel -> encode_loop fuel text ∅ = text.
Proof.
  revert text. induction fuel as [|fuel IH]; intros [|c text] Hfuel; try done; cbn in *; [lia|].
  rewrite lookup_empty. destruct (is_empty _); f_equal; apply IH; lia.
Qed.

Definition bound (by_name : gmap str (list str)) (name : str) : list str :=
  default [] (by_name !! name).

Lemma mentions_by_name_spec mentions name :
  bound (mentions_by_name mentions) name = paths_of name mentions.
Proof.
  unfold mentions_by_name, paths_of.
  assert (forall m0, bound (fold_left (fun by_name m =>
    <[mention m := default [] (by_name !! mention m) ++ [mention_path m]]> by_name) mentions m0) name
    = bound m0 name ++ map mention_path (filter (fun m => mention m = name) mentions)) as H.
  { induction mentions as [|m mentions IH]; intros m0; cbn [fold_left].
    - by rewrite app_nil_r.
    - rewrite IH, filter_cons. unfold bound. destruct (decide (mention m = name)) as [<-|Hne].
      + rewrite lookup_insert_eq. cbn. by rewrite <- app_assoc.
      + by rewrite lookup_insert_ne. }
  by rewrite H.
Qed.

Lemma mentioned_names_skip w text :
  forallb is_mention_name_char w = true -> mentioned_names (w ++ text) = mentioned_names text.
Proof.
  induction w as [|c w IH]; [done|]. cbn. intros [Hc Hw]%andb_true_iff.
  apply name_char_not in Hc as [Hc _]. rewrite (proj2 (N.eqb_neq _ _) Hc). auto.
Qed.

(** ** Writing and reading *)

Section RoundTrip.

(** Every path a name is bound to makes a link. *)
Definition all_linkable (by_name : gmap str (list str)) : Prop :=
  forall name path, path ∈ bound by_name name -> linkable (mkMention name path).

(** What reading gives back of a text whose names were bound by [by_name]. *)
Definition read_back (text : str) (by_name : gmap str (list str)) (d : DecodedHistoryText) : Prop :=
  decoded_text d = text
  /\ map mention (decoded_mentions d) `sublist_of` mentioned_names text
  /\ forall name, paths_of name (decoded_mentions d)
                  = take (occurrences name (mentioned_names text)) (bound by_name name).

Lemma read_back_char c text by_name d :
  (forall name, take_while is_mention_name_char text = name -> c = TOOL_MENTION_SIGIL ->
    name = [] \/ bound by_name name = []) ->
  read_back text by_name d ->
  read_back (c :: text) by_name (mkDecoded (c :: decoded_text d) (decoded_mentions d)).
Proof.
  intros Hc (<- & Hsub & Hpaths). unfold read_back.
  cbn [decoded_text decoded_mentions mentioned_names] in *. cbv zeta.
  destruct (N.eqb_spec c TOOL_MENTION_SIGIL) as [E|]; cbn; [|done].
  destruct (is_empty (take_while _ _)) eqn:Hempty; [done|].
  apply is_empty_false in Hempty. split_and!; [done|by constructor|].
  intros name. rewrite Hpaths. unfold occurrences. rewrite filter_cons.
  case_decide as Hname; [|done]. destruct (Hc _ eq_refl E) as [|Hnil]; [done|].
  rewrite Hname in Hnil. by rewrite Hnil, !take_nil.
Qed.

Lemma read_back_link name path paths text by_name d :
  name <> [] -> forallb is_mention_name_char name = true ->
  take_while is_mention_name_char (name ++ text) = name ->
  by_name !! name = Some (path :: paths) ->
  read_back text (<[name := paths]> by_name) d ->
  read_back (TOOL_MENTION_SIGIL :: name ++ text) by_name
    (mkDecoded (TOOL_MENTION_SIGIL :: name ++ decoded_text d)
       (mkMention name path :: decoded_mentions d)).
Proof.
  intros Hne Hname Htake Hpath (<- & Hsub & Hpaths). unfold read_back. cbn. cbv zeta.
  rewrite Htake, (proj2 (is_empty_false _) Hne), mentioned_names_skip by done.
  split_and!; [done|by constructor|]. intros n. unfold paths_of, occurrences in *.
  rewrite !filter_cons. cbn. specialize (Hpaths n). unfold bound in *.
  destruct (decide (name = n)) as [<-|Hn].
  - rewrite lookup_insert_eq in Hpaths. rewrite Hpath. cbn. by f_equal.
  - by rewrite lookup_insert_ne in Hpaths.
Qed.

Lemma encode_then_decode fuel text by_name fuel' :
  all_linkable by_name -> no_link_begins text -> length text <= fuel ->
  length (encode_loop fuel text by_name) <= fuel' ->
  read_back text by_name (decode_loop fuel' (encode_loop fuel text by_name)).
Proof.
  revert text by_name fuel'.
  induction fuel as [|fuel IH]; intros [|c text] by_name fuel' Hlink Hopen Hfuel Hfuel';
    cbn [length] in Hfuel; [| lia | |].
  1,2: cbn; destruct fuel'; by split_and!.
  pose proof (no_link_begins_cons _ _ Hopen) as Hopen'.
  cbn in Hfuel' |- *. cbv zeta in Hfuel' |- *.
  destruct (if is_empty _ then None else _) as [[|path paths]|] eqn:Hlookup.
  2:{ destruct (N.eqb_spec c TOOL_MENTION_SIGIL) as [->|]; [|done].
      destruct (is_empty (take_while _ _)) eqn:Hempty; [done|]. apply is_empty_false in Hempty.
      set (name := take_while is_mention_name_char text) in *.
      set (rest := trim_start_matches is_mention_name_char text) in *.
      assert (text = name ++ rest) as Htext by (symmetry; apply take_while_trim).
      pose proof (take_while_forallb is_mention_name_char text) as Hname. fold name in Hname.
      destruct fuel' as [|fuel']; [cbn in Hfuel'; lia|].
      assert (linkable (mkMention name path)) as Hm
        by (apply Hlink; unfold bound; rewrite Hlookup; left).
      cbn [decode_loop]. rewrite N.eqb_refl.
      pose proof (parse_link _ (encode_loop fuel rest (<[name:=paths]> by_name)) Hm) as Hparse.
      cbn [mention mention_path app] in Hparse. rewrite Hparse.
      rewrite Htext at 1. apply (read_back_link _ _ paths); try done.
      { by rewrite <- Htext. }
      apply IH.
      - intros n p Hp. apply Hlink. unfold bound in *. destruct (decide (name = n)) as [<-|].
        + rewrite lookup_insert_eq in Hp. rewrite Hlookup. by right.
        + by rewrite lookup_insert_ne in Hp.
      - rewrite Htext in Hopen'. by apply no_link_begins_app in Hopen'.
      - rewrite Htext in Hfuel. rewrite length_app in Hfuel. lia.
      - cbn in Hfuel'. rewrite !length_app in Hfuel'. cbn in Hfuel'.
        rewrite length_app in Hfuel'. cbn in Hfuel'. lia. }
  all: destruct fuel' as [|fuel']; [cbn in Hfuel'; lia|]; cbn [decode_loop].
  all: replace (if (c =? LBRACKET)%N then _ else None) with (@None (str * str * str)).
  1,3: apply read_back_char; [|apply IH; [done..|lia|cbn in Hfuel'; lia]].
  1,2: intros name <- E; rewrite E in Hlookup; cbn in Hlookup;
    destruct (is_empty _) eqn:Hempty; [left; by apply is_empty_true|right];
    unfold bound; by rewrite Hlookup.
  all: destruct (N.eqb_spec c LBRACKET) as [->|]; [|done]; symmetry; apply parse_no_link.
  all: intros e rest He; apply encode_head in He as (d & text' & -> & He).
  all: apply no_link_begins_next in Hopen as [Hd1 Hd2]; by destruct He as [->|[-> _]].
Qed.

End RoundTrip.

(** C18. A prompt written to the history with its mentions is read back as it
    was: the text is the same, and each name is bound to the paths it was given,
    in their order, as many times as the text mentions it, so that mentions the
    text does not use are dropped. The text must not itself contain what begins
    a link, and the mentions must be such that a link can carry them. *)
Theorem history_mentions_roundtrip text mentions :
  Forall linkable mentions -> no_link_begins text ->
  let decoded := decode_history_mentions (encode_history_mentions text mentions) in
  decoded_text decoded = text
  /\ map mention (decoded_mentions decoded) `sublist_of` mentioned_names text
  /\ forall name,
       paths_of name (decoded_mentions decoded)
       = take (occurrences name (mentioned_names text)) (paths_of name mentions).
Proof.
  intros Hlink Hopen. cbv zeta.
  assert (all_linkable (mentions_by_name mentions)) as Hall.
  { intros name path. rewrite mentions_by_name_spec. unfold paths_of.
    intros (m & -> & Hm)%list_elem_of_fmap. apply list_elem_of_filter in Hm as [Hname Hm].
    rewrite Forall_forall in Hlink. destruct m. cbn in Hname. subst. by apply Hlink. }
  assert (encode_history_mentions text mentions
          = encode_loop (length text) text (mentions_by_name mentions)) as ->.
  { unfold encode_history_mentions. destruct mentions as [|m mentions]; cbn [is_empty orb].
    - symmetry. by apply encode_no_paths.
    - by destruct text. }
  destruct (encode_then_decode (length text) text (mentions_by_name mentions) _ Hall Hopen
    (le_n _) (le_n _)) as (Htext & Hsub & Hpaths).
  split_and!; [done..|]. intros name. specialize (Hpaths name).
  by rewrite mentions_by_name_spec in Hpaths.
Qed.

(** A prompt that mentions one of two skills of the same name twice, another
    tool that is not bound, and a variable. *)
Definition demo_mentions : list LinkedMention :=
  [mkMention "fix" "skill://a"; mkMention "fix" "/s/fix/SKILL.md"; mkMention "gh" "app://gh"].

Lemma history_mentions_roundtrip_witness :
  encode_history_mentions "$fix [it] then $fix, $HOME" demo_mentions
  = "[$fix](skill://a) [it] then [$fix](/s/fix/SKILL.md), $HOME"
  /\ decoded_text (decode_history_mentions
       (encode_history_mentions "$fix [it] then $fix, $HOME" demo_mentions))
     = "$fix [it] then $fix, $HOME".
Proof.
  split; [vm_compute; reflexivity|].
  destruct (history_mentions_roundtrip "$fix [it] then $fix, $HOME" demo_mentions) as [H _].
  - apply (bool_decide_unpack _). vm_compute. reflexivity.
  - apply (bool_decide_unpack _). vm_compute. reflexivity.
  - exact H.
Defined.

(** A link that the user wrote is read as a mention, which it was not. *)
Example written_link_becomes_mention :
  decode_history_mentions (encode_history_mentions "see [$fix](skill://a)" [])
  = mkDecoded "see $fix" [mkMention "fix" "skill://a"].
Proof. vm_compute. reflexivity. Qed.
