(* ===== verification/ChatHistory.v ===== *)
(** * The history of the composer

    [codex-rs/tui/src/bottom_pane/chat_composer_history.rs]: the prompts of
    earlier sessions, which are fetched one at a time from a log, and those of
    this session, in one space of offsets; browsing them with Up and Down; and
    the incremental search, which goes over them without blocking: a prompt that
    was not fetched yet is asked for, and the search goes on when it comes. An
    operation returns the new state, the lookups it sends and its result; the
    index the search takes may be out of range, which would be a panic ([None]).
    [str::to_lowercase] (a table of Unicode) is an argument. The theorems are in
    [HistorySearch]. *)

From S2P Require Import Prelude RustStr MentionCodec.
Open Scope str_scope.

(** ** Entries *)

(** [protocol/src/user_input.rs] *)
Record ByteRange := mkByteRange { start : nat; end_ : nat }.
Record TextElement := mkTextElement { byte_range : ByteRange; placeholder : option str }.

Record MentionBinding := mkBinding { bound_mention : str; bound_path : str }.

Record HistoryEntry := mkEntry {
  text : str;
  text_elements : list TextElement;
  local_image_paths : list str;
  remote_image_urls : list str;
  mention_bindings : list MentionBinding;
  pending_pastes : list (str * str);
}.

#[export] Instance ByteRange_eq_dec : EqDecision ByteRange.
Proof. solve_decision. Defined.
#[export] Instance TextElement_eq_dec : EqDecision TextElement.
Proof. solve_decision. Defined.
#[export] Instance MentionBinding_eq_dec : EqDecision MentionBinding.
Proof. solve_decision. Defined.
#[export] Instance HistoryEntry_eq_dec : EqDecision HistoryEntry.
Proof. solve_decision. Defined.

(** [HistoryEntry::new] *)
Definition entry_new (text : str) : HistoryEntry :=
  let decoded := decode_history_mentions text in
  mkEntry (decoded_text decoded) [] [] []
    (map (fun m => mkBinding (mention m) (mention_path m)) (decoded_mentions decoded)) [].

(** ** The state *)

Inductive HistorySearchDirection := Older | Newer.

Inductive HistorySearchResult :=
| SearchFound (entry : HistoryEntry)
| SearchPending
| AtBoundary
| NotFound.

Inductive HistoryEntryResponse :=
| EntryFound (entry : HistoryEntry)
| EntrySearch (result : HistorySearchResult)
| Ignored.

Record PendingHistorySearch := mkPendingSearch {
  pending_offset : nat;
  pending_direction : HistorySearchDirection;
  boundary_if_exhausted : bool;
}.

Record UniqueHistoryMatch := mkMatch { match_offset : nat; match_entry : HistoryEntry }.

Record HistorySearchState := mkSearch {
  query : str;
  query_lower : str;
  selected_offset : option nat;
  unique_matches : list UniqueHistoryMatch;
  selected_match_index : option nat;
  seen_texts : gset str;
  awaiting : option PendingHistorySearch;
  exhausted_older : bool;
  exhausted_newer : bool;
}.

Record ChatComposerHistory := mkHistory {
  thread_id : option str;
  persistent_log_id : option N;
  persistent_entry_count : nat;
  local_history : list HistoryEntry;
  fetched_history : gmap nat HistoryEntry;
  history_cursor : option Z;
  last_history_text : option str;
  search : option HistorySearchState;
}.

(** [AppEvent::LookupMessageHistoryEntry] *)
Record LookupMessageHistoryEntry := mkLookup {
  lookup_thread_id : str; lookup_offset : nat; lookup_log_id : N }.

Definition set_search (s : option HistorySearchState) (h : ChatComposerHistory) :=
  mkHistory (thread_id h) (persistent_log_id h) (persistent_entry_count h) (local_history h)
    (fetched_history h) (history_cursor h) (last_history_text h) s.
Definition set_cursor (cursor : option Z) (h : ChatComposerHistory) :=
  mkHistory (thread_id h) (persistent_log_id h) (persistent_entry_count h) (local_history h)
    (fetched_history h) cursor (last_history_text h) (search h).
Definition set_last_text (last : option str) (h : ChatComposerHistory) :=
  mkHistory (thread_id h) (persistent_log_id h) (persistent_entry_count h) (local_history h)
    (fetched_history h) (history_cursor h) last (search h).
Definition set_fetched (fetched : gmap nat HistoryEntry) (h : ChatComposerHistory) :=
  mkHistory (thread_id h) (persistent_log_id h) (persistent_entry_count h) (local_history h)
    fetched (history_cursor h) (last_history_text h) (search h).
Definition set_local (l : list HistoryEntry) (h : ChatComposerHistory) :=
  mkHistory (thread_id h) (persistent_log_id h) (persistent_entry_count h) l
    (fetched_history h) (history_cursor h) (last_history_text h) (search h).

Definition set_awaiting (a : option PendingHistorySearch) (s : HistorySearchState) :=
  mkSearch (query s) (query_lower s) (selected_offset s) (unique_matches s)
    (selected_match_index s) (seen_texts s) a (exhausted_older s) (exhausted_newer s).

(** ** Operations that do not search *)

Definition new_history : ChatComposerHistory := mkHistory None None 0 [] ∅ None None None.

Definition set_metadata (thread : str) (log_id : N) (entry_count : nat) (h : ChatComposerHistory)
    : ChatComposerHistory :=
  mkHistory (Some thread) (Some log_id) entry_count [] ∅ None None None.

Definition reset_navigation (h : ChatComposerHistory) : ChatComposerHistory :=
  set_search None (set_last_text None (set_cursor None h)).

Definition reset_search (h : ChatComposerHistory) : ChatComposerHistory := set_search None h.

Definition entry_is_empty (e : HistoryEntry) : bool :=
  is_empty (text e) && is_empty (text_elements e) && is_empty (local_image_paths e)
  && is_empty (remote_image_urls e) && is_empty (mention_bindings e)
  && is_empty (pending_pastes e).

Definition record_local_submission (entry : HistoryEntry) (h : ChatComposerHistory)
    : ChatComposerHistory :=
  if entry_is_empty entry then h
  else
    let h := reset_navigation h in
    if last_is (fun prev => bool_decide (prev = entry)) (local_history h) then h
    else set_local (local_history h ++ [entry]) h.

Definition total_entries (h : ChatComposerHistory) : nat :=
  persistent_entry_count h + length (local_history h).

Definition should_handle_navigation (h : ChatComposerHistory) (draft : str) (cursor : nat) : bool :=
  if (persistent_entry_count h =? 0) && is_empty (local_history h) then false
  else if is_empty draft then true
  else if negb (cursor =? 0) && negb (cursor =? byte_len draft) then false
  else bool_decide (last_history_text h = Some draft).

Definition lookup_at (h : ChatComposerHistory) (offset : nat) : list LookupMessageHistoryEntry :=
  match thread_id h, persistent_log_id h with
  | Some thread, Some log_id => [mkLookup thread offset log_id]
  | _, _ => []
  end.

Definition entry_at_cached_offset (h : ChatComposerHistory) (offset : nat) : option HistoryEntry :=
  if persistent_entry_count h <=? offset
  then local_history h !! (offset - persistent_entry_count h)
  else fetched_history h !! offset.

Definition populate_history_at_index (h : ChatComposerHistory) (global_idx : nat)
    : ChatComposerHistory * list LookupMessageHistoryEntry * option HistoryEntry :=
  if persistent_entry_count h <=? global_idx then
    match local_history h !! (global_idx - persistent_entry_count h) with
    | Some entry => (set_last_text (Some (text entry)) h, [], Some entry)
    | None => (h, [], None)
    end
  else
    match fetched_history h !! global_idx with
    | Some entry => (set_last_text (Some (text entry)) h, [], Some entry)
    | None => (h, lookup_at h global_idx, None)
    end.

Definition navigate_up (h : ChatComposerHistory)
    : ChatComposerHistory * list LookupMessageHistoryEntry * option HistoryEntry :=
  let h := set_search None h in
  if total_entries h =? 0 then (h, [], None)
  else
    let at_ next_idx := populate_history_at_index (set_cursor (Some next_idx) h) (Z.to_nat next_idx) in
    match history_cursor h with
    | None => at_ (Z.of_nat (total_entries h) - 1)%Z
    | Some idx => if (idx =? 0)%Z then (h, [], None) else at_ (idx - 1)%Z
    end.

Definition navigate_down (h : ChatComposerHistory)
    : ChatComposerHistory * list LookupMessageHistoryEntry * option HistoryEntry :=
  let h := set_search None h in
  if total_entries h =? 0 then (h, [], None)
  else
    match history_cursor h with
    | None => (h, [], None)
    | Some idx =>
        if total_entries h <=? Z.to_nat idx + 1
        then (set_last_text None (set_cursor None h), [], Some (entry_new []))
        else populate_history_at_index (set_cursor (Some (idx + 1)%Z) h) (Z.to_nat (idx + 1))
    end.

(** ** The search *)

Definition is_exhausted (direction : HistorySearchDirection) (s : HistorySearchState) : bool :=
  match direction with Older => exhausted_older s | Newer => exhausted_newer s end.

Definition mark_exhausted (direction : HistorySearchDirection) (s : HistorySearchState)
    : HistorySearchState :=
  mkSearch (query s) (query_lower s) (selected_offset s) (unique_matches s)
    (selected_match_index s) (seen_texts s) (awaiting s)
    (match direction with Older => true | Newer => exhausted_older s end)
    (match direction with Older => exhausted_newer s | Newer => true end).

Definition select_match (index : nat) (s : HistorySearchState) : HistorySearchState :=
  match unique_matches s !! index with
  | Some history_match =>
      mkSearch (query s) (query_lower s) (Some (match_offset history_match)) (unique_matches s)
        (Some index) (seen_texts s) None false false
  | None => s
  end.

(** [slice::partition_point], on a list that is partitioned. *)
Fixpoint partition_point {A} (f : A -> bool) (l : list A) : nat :=
  match l with
  | [] => 0
  | x :: l => if f x then S (partition_point f l) else 0
  end.

Definition record_match (offset : nat) (entry : HistoryEntry) (s : HistorySearchState)
    : HistorySearchState :=
  match position (fun m => match_offset m =? offset) (unique_matches s) with
  | Some index => select_match index s
  | None =>
      let insert_index := partition_point (fun m => offset <? match_offset m) (unique_matches s) in
      select_match insert_index
        (mkSearch (query s) (query_lower s) (selected_offset s)
           (take insert_index (unique_matches s)
            ++ mkMatch offset entry :: drop insert_index (unique_matches s))
           (selected_match_index s) ({[text entry]} ∪ seen_texts s) (awaiting s)
           (exhausted_older s) (exhausted_newer s))
  end.

(** The selected offset is set before the match is recorded, which sets it
    again; the flags are cleared afterwards. *)
Definition search_match_state (offset : nat) (entry : HistoryEntry) (s : HistorySearchState)
    : HistorySearchState :=
  let s := mkSearch (query s) (query_lower s) (Some offset) (unique_matches s)
             (selected_match_index s) (seen_texts s) (awaiting s) (exhausted_older s)
             (exhausted_newer s) in
  let s := record_match offset entry s in
  mkSearch (query s) (query_lower s) (selected_offset s) (unique_matches s)
    (selected_match_index s) (seen_texts s) None false false.

Definition search_match (h : ChatComposerHistory) (offset : nat) (entry : HistoryEntry)
    : ChatComposerHistory * HistorySearchResult :=
  (set_search (search_match_state offset entry <$> search h)
     (set_last_text (Some (text entry)) (set_cursor (Some (Z.of_nat offset)) h)),
   SearchFound entry).

Definition search_result_is_unique (h : ChatComposerHistory) (entry : HistoryEntry) : bool :=
  match search h with
  | Some s => negb (bool_decide (text entry ∈ seen_texts s))
  | None => true
  end.

Definition exhausted_search_result (h : ChatComposerHistory) (direction : HistorySearchDirection)
    (boundary : bool) : ChatComposerHistory * HistorySearchResult :=
  (set_search
     ((fun s => let s := set_awaiting None s in
                if boundary then mark_exhausted direction s else s) <$> search h) h,
   if boundary then AtBoundary else NotFound).

Definition select_cached_unique_match (h : ChatComposerHistory)
    (direction : HistorySearchDirection)
    : option (option (ChatComposerHistory * HistorySearchResult)) :=
  match (s ← search h; selected_index ← selected_match_index s;
         next_index ← match direction with
                      | Older => if S selected_index <? length (unique_matches s)
                                 then Some (S selected_index) else None
                      | Newer => match selected_index with S i => Some i | 0 => None end
                      end;
         Some (s, next_index)) with
  | None => Some None
  | Some (s, next_index) =>
      history_match ← unique_matches s !! next_index;
      Some (Some
        (set_search (Some (select_match next_index s))
           (set_last_text (Some (text (match_entry history_match)))
              (set_cursor (Some (Z.of_nat (match_offset history_match))) h)),
         SearchFound (match_entry history_match)))
  end.

Definition next_offset (direction : HistorySearchDirection) (total offset : nat) : option nat :=
  match direction with
  | Older => match offset with S i => Some i | 0 => None end
  | Newer => if S offset <? total then Some (S offset) else None
  end.

Definition search_start_offset (h : ChatComposerHistory) (total : nat)
    (direction : HistorySearchDirection) (restart : bool) : option nat :=
  let selected := s ← search h; selected_offset s in
  match direction with
  | Older => if restart then match total with S i => Some i | 0 => None end
             else selected ≫= next_offset Older total
  | Newer => if restart then Some 0 else selected ≫= next_offset Newer total
  end.

Definition search_new (to_lowercase : str -> str) (query : str) : HistorySearchState :=
  mkSearch query (to_lowercase query) None [] None ∅ None false false.

Section Search.
Context (to_lowercase : str -> str).

Definition search_matches (h : ChatComposerHistory) (entry : HistoryEntry) : bool :=
  match search h with
  | None => false
  | Some s => is_empty (query s) || contains (to_lowercase (text entry)) (query_lower s)
  end.

(** [while offset < total_entries] *)
Fixpoint advance_search_from (fuel : nat) (h : ChatComposerHistory) (offset : nat)
    (direction : HistorySearchDirection) (boundary : bool)
    : ChatComposerHistory * list LookupMessageHistoryEntry * HistorySearchResult :=
  match fuel with
  | 0 => (h, [], NotFound)
  | S fuel =>
      if total_entries h <=? offset then (h, [], NotFound)
      else
        let continue :=
          match next_offset direction (total_entries h) offset with
          | Some offset => advance_search_from fuel h offset direction boundary
          | None => (h, [], NotFound)
          end in
        match entry_at_cached_offset h offset with
        | Some entry =>
            if search_matches h entry && search_result_is_unique h entry
            then let '(h, r) := search_match h offset entry in (h, [], r)
            else continue
        | None =>
            if (offset <? persistent_entry_count h) && negb (is_empty (lookup_at h offset)) then
              (set_search
                 (set_awaiting (Some (mkPendingSearch offset direction boundary)) <$> search h) h,
               lookup_at h offset, SearchPending)
            else continue
        end
  end.

(** A scan that starts inside the history, and the answer when it ends. *)
Definition advance_or_exhaust (h : ChatComposerHistory) (offset : option nat)
    (direction : HistorySearchDirection) (boundary : bool)
    : ChatComposerHistory * list LookupMessageHistoryEntry * HistorySearchResult :=
  match offset with
  | None => let '(h, r) := exhausted_search_result h direction boundary in (h, [], r)
  | Some offset =>
      let '(h, lookups, r) :=
        advance_search_from (total_entries h) h offset direction boundary in
      match r with
      | NotFound => let '(h, r) := exhausted_search_result h direction boundary in (h, lookups, r)
      | _ => (h, lookups, r)
      end
  end.

Definition advance_search_after (h : ChatComposerHistory) (offset : nat)
    (direction : HistorySearchDirection) (boundary : bool)
    : ChatComposerHistory * list LookupMessageHistoryEntry * HistorySearchResult :=
  advance_or_exhaust h (next_offset direction (total_entries h) offset) direction boundary.

Definition on_entry_response (h : ChatComposerHistory) (log_id : N) (offset : nat)
    (entry : option str)
    : ChatComposerHistory * list LookupMessageHistoryEntry * HistoryEntryResponse :=
  if negb (bool_decide (persistent_log_id h = Some log_id)) then (h, [], Ignored)
  else
    let entry := entry_new <$> entry in
    let h := match entry with
             | Some entry => set_fetched (<[offset := entry]> (fetched_history h)) h
             | None => h
             end in
    let continue pending :=
      let '(h, lookups, r) := advance_search_after h offset (pending_direction pending)
                                (boundary_if_exhausted pending) in
      (h, lookups, EntrySearch r) in
    match (s ← search h; pending ← awaiting s;
           if pending_offset pending =? offset then Some pending else None) with
    | Some pending =>
        match entry with
        | Some entry =>
            if search_matches h entry && search_result_is_unique h entry
            then let '(h, r) := search_match h offset entry in (h, [], EntrySearch r)
            else continue pending
        | None => continue pending
        end
    | None =>
        if bool_decide (history_cursor h = Some (Z.of_nat offset)) then
          match entry with
          | Some entry => (set_last_text (Some (text entry)) h, [], EntryFound entry)
          | None => (h, [], Ignored)
          end
        else (h, [], Ignored)
    end.

Definition search_history (h : ChatComposerHistory) (query_text : str)
    (direction : HistorySearchDirection) (restart : bool)
    : option (ChatComposerHistory * list LookupMessageHistoryEntry * HistorySearchResult) :=
  let total := total_entries h in
  if total =? 0 then Some (set_search (Some (search_new to_lowercase query_text)) h, [], NotFound)
  else
    let query_changed :=
      match search h with Some s => negb (bool_decide (query s = query_text)) | None => true end in
    if negb query_changed && negb restart
       && match (s ← search h; awaiting s) with Some _ => true | None => false end
    then Some (h, [], SearchPending)
    else
      let h :=
        if query_changed || restart
           || match search h with None => true | Some _ => false end
        then set_search (Some (search_new to_lowercase query_text)) h
        else set_search (set_awaiting None <$> search h) h in
      let boundary :=
        negb restart
        && match (s ← search h; selected_offset s) with Some _ => true | None => false end in
      cached ← (if negb restart && negb query_changed
                then select_cached_unique_match h direction else Some None);
      match cached with
      | Some (h, r) => Some (h, [], r)
      | None =>
          if boundary
             && match search h with Some s => is_exhausted direction s | None => false end
          then Some (h, [], AtBoundary)
          else Some (advance_or_exhaust h
                       (search_start_offset h total direction (query_changed || restart))
                       direction boundary)
      end.

End Search.

(** ** Examples *)

Definition plain_entry (text : str) : HistoryEntry := mkEntry text [] [] [] [] [].

Example record_once :
  local_history (record_local_submission (plain_entry "a")
    (record_local_submission (plain_entry "a") new_history)) = [plain_entry "a"].
Proof. vm_compute. reflexivity. Qed.
