(* ===== verification/HistorySearch.v ===== *)
(** * What browsing and searching the history show

    About [ChatHistory]. The incremental search is specified as a cursor over a
    list, the matching prompts, newest first and without repetitions; the code
    only knows the part of the list that it reached, and asks the log for
    prompts it does not have. The theorems state that, whatever events come in
    between, the search makes the moves of that cursor, that every key gets its
    result when the log answers, and that what browsing shows is the prompt under
    its cursor. *)

From S2P Require Import Prelude RustStr ChatHistory.
Open Scope str_scope.

(** ** What a search goes over *)

Section Spec.
Context (to_lowercase : str -> str) (q thread : str) (L : N) (n : nat).
Context (loc : list HistoryEntry) (log : nat -> option str).

(** The prompt at an offset: what the log answers, or what was typed here. *)
Definition entry_at (i : nat) : option HistoryEntry :=
  if n <=? i then loc !! (i - n) else entry_new <$> log i.

Definition wanted (e : HistoryEntry) : bool :=
  is_empty q || contains (to_lowercase (text e)) (to_lowercase q).

(** The matching prompts below an offset whose text was not seen, newest
    first, each text once. *)
Fixpoint recall (i : nat) (seen : gset str) : list UniqueHistoryMatch :=
  match i with
  | 0 => []
  | S i =>
      match entry_at i with
      | Some e =>
          if wanted e && negb (bool_decide (text e ∈ seen))
          then mkMatch i e :: recall i ({[text e]} ∪ seen)
          else recall i seen
      | None => recall i seen
      end
  end.

Definition total : nat := n + length loc.
Definition all_matches : list UniqueHistoryMatch := recall total ∅.

(** ** A cursor over a list *)

(** What moving the cursor gives; there is no cursor on an empty list. *)
Definition answer (j : option nat) (d : HistorySearchDirection)
    : option nat * HistorySearchResult :=
  let stay := (j, match j with Some _ => AtBoundary | None => NotFound end) in
  match (match d, j with
         | Older, Some i => Some (S i)
         | Older, None => Some 0
         | Newer, Some (S i) => Some i
         | Newer, _ => None
         end) with
  | Some i => match all_matches !! i with
              | Some m => (Some i, SearchFound (match_entry m))
              | None => stay
              end
  | None => stay
  end.

(** A key, the answer of the log to a lookup (whoever asked for it), or a
    response about another log. *)
Inductive Event :=
| Press (d : HistorySearchDirection)
| Answer (offset : nat)
| Stale (log_id : N) (offset : nat) (entry : option str).

(** The cursor, and the move that waits for the log. *)
Definition CursorState : Type := option nat * option (HistorySearchDirection * nat).

(** The moves the search may make. While a move waits, keys do nothing; the
    answer it waits for either ends it or brings it to another offset, further
    in its direction. *)
Inductive spec_step : CursorState -> Event -> list LookupMessageHistoryEntry ->
    option HistorySearchResult -> CursorState -> Prop :=
| press_waiting j w d : spec_step (j, Some w) (Press d) [] (Some SearchPending) (j, Some w)
| press_answered j d :
    spec_step (j, None) (Press d) [] (Some (snd (answer j d))) (fst (answer j d), None)
| press_waits j d off :
    off < n ->
    spec_step (j, None) (Press d) [mkLookup thread off L] (Some SearchPending) (j, Some (d, off))
| answer_ends j d off :
    spec_step (j, Some (d, off)) (Answer off) [] (Some (snd (answer j d))) (fst (answer j d), None)
| answer_goes_on j d off off' :
    match d with Older => off' < off | Newer => off < off' end -> off' < n ->
    spec_step (j, Some (d, off)) (Answer off) [mkLookup thread off' L] (Some SearchPending)
      (j, Some (d, off'))
| answer_to_other j w off :
    (forall d, w <> Some (d, off)) -> spec_step (j, w) (Answer off) [] None (j, w)
| stale_ignored j w log_id off e :
    log_id <> L -> spec_step (j, w) (Stale log_id off e) [] None (j, w).

Inductive spec_run : CursorState -> list Event ->
    list (list LookupMessageHistoryEntry * option HistorySearchResult) -> Prop :=
| spec_run_nil st : spec_run st [] []
| spec_run_cons st ev lookups r st' events trace :
    spec_step st ev lookups r st' -> spec_run st' events trace ->
    spec_run st (ev :: events) ((lookups, r) :: trace).

(** The code on an event, and what reaches the search session. *)
Definition step (h : ChatComposerHistory) (ev : Event)
    : option (ChatComposerHistory * list LookupMessageHistoryEntry * option HistorySearchResult) :=
  let respond log_id offset entry :=
    let '(h, lookups, r) := on_entry_response to_lowercase h log_id offset entry in
    Some (h, lookups, match r with EntrySearch r => Some r | _ => None end) in
  match ev with
  | Press d =>
      '(h, lookups, r) ← search_history to_lowercase h q d false;
      Some (h, lookups, Some r)
  | Answer offset => respond L offset (log offset)
  | Stale log_id offset entry => respond log_id offset entry
  end.

Fixpoint run (h : ChatComposerHistory) (events : list Event)
    : option (list (list LookupMessageHistoryEntry * option HistorySearchResult)) :=
  match events with
  | [] => Some []
  | ev :: events =>
      '(h, lookups, r) ← step h ev;
      trace ← run h events;
      Some ((lookups, r) :: trace)
  end.

(** A history of this log whose cache holds what the log answers. *)
Definition ready (h : ChatComposerHistory) : Prop :=
  thread_id h = Some thread /\ persistent_log_id h = Some L /\ persistent_entry_count h = n
  /\ local_history h = loc
  /\ forall i e, fetched_history h !! i = Some e -> entry_new <$> log i = Some e.

(** ** The list of matches *)

Lemma recall_below i seen : Forall (fun m => match_offset m < i) (recall i seen).
Proof.
  revert seen. induction i as [|i IH]; intros seen; cbn; [constructor|].
  assert (forall seen, Forall (fun m => match_offset m < S i) (recall i seen)) as H
    by (intros; eapply Forall_impl; [apply IH|intros; cbn in *; lia]).
  repeat case_match; try apply H. constructor; [cbn; lia|apply H].
Qed.

Lemma recall_sorted i seen :
  StronglySorted (fun m1 m2 => match_offset m2 < match_offset m1) (recall i seen).
Proof.
  revert seen. induction i as [|i IH]; intros seen; cbn; [constructor|].
  repeat case_match; try apply IH. constructor; [apply IH|apply recall_below].
Qed.

(** Nothing matches above the first match. *)
Lemma recall_head i seen m rest k e :
  recall i seen = m :: rest -> match_offset m < k < i -> entry_at k = Some e ->
  wanted e = false \/ text e ∈ seen.
Proof.
  revert seen. induction i as [|i IH]; intros seen Hm Hk He; [lia|]. cbn in Hm.
  destruct (entry_at i) as [x|] eqn:Hx.
  - destruct (wanted x && _) eqn:Hw.
    + injection Hm as <- _. cbn in Hk. lia.
    + destruct (decide (k = i)) as [->|]; [|apply (IH seen); [done|lia|done]].
      rewrite He in Hx. injection Hx as <-.
      apply andb_false_iff in Hw as [Hw|Hw]; bool_hyps; auto.
  - destruct (decide (k = i)) as [->|]; [congruence|]. apply (IH seen); [done|lia|done].
Qed.

Definition texts (found : list UniqueHistoryMatch) : gset str :=
  list_to_set (map (fun m => text (match_entry m)) found).

(** The matches down to offset [i] are [found]. *)
Definition scanned (found : list UniqueHistoryMatch) (i : nat) : Prop :=
  all_matches = found ++ recall i (texts found).

Lemma texts_snoc found m : texts (found ++ [m]) = {[text (match_entry m)]} ∪ texts found.
Proof. unfold texts. rewrite map_app, list_to_set_app_L. cbn. set_solver. Qed.

(** One offset further down. *)
Lemma scanned_next found i :
  scanned found (S i) ->
  match entry_at i with
  | Some e =>
      if wanted e && negb (bool_decide (text e ∈ texts found))
      then scanned (found ++ [mkMatch i e]) i else scanned found i
  | None => scanned found i
  end.
Proof.
  unfold scanned. cbn [recall]. repeat case_match; try done. intros ->.
  by rewrite texts_snoc, <- app_assoc.
Qed.

Lemma scanned_above found i m :
  scanned (found ++ [m]) i -> Forall (fun x => match_offset m < match_offset x) found.
Proof.
  unfold scanned. intros H. pose proof (recall_sorted total ∅) as Hs.
  fold all_matches in Hs. rewrite H, <- app_assoc in Hs.
  rewrite app_assoc in Hs. apply StronglySorted_app_1_l in Hs.
  apply Forall_forall. intros x Hx.
  by apply (StronglySorted_app_1_elem_of _ _ _ x m Hs); [|left].
Qed.

(** ** The invariant *)

(** What the state of a search says when its cursor is [j] and [found] are the
    matches that were reached. *)
Record tracks (s : HistorySearchState) (found : list UniqueHistoryMatch) (j : option nat) : Prop := {
  tr_query : query s = q;
  tr_lower : query_lower s = to_lowercase q;
  tr_found : unique_matches s = found;
  tr_seen : seen_texts s = texts found;
  tr_index : selected_match_index s = j;
  tr_offset : selected_offset s = match_offset <$> (j ≫= fun i => found !! i);
  tr_valid : match j with Some i => i < length found | None => found = [] end;
  tr_settled : match last found with Some m => scanned found (match_offset m) | None => True end;
  tr_older : exhausted_older s = true -> S <$> j = Some (length found) /\ all_matches = found;
  tr_newer : exhausted_newer s = true -> j = Some 0;
}.

Definition some_cursor (j : option nat) : bool :=
  match j with Some _ => true | None => false end.

(** A scan in a direction that is at an offset. *)
Definition scanning (d : HistorySearchDirection) (found : list UniqueHistoryMatch)
    (j : option nat) (i : nat) : Prop :=
  match d with
  | Older => length found = match j with Some i => S i | None => 0 end /\ scanned found (S i)
  | Newer => j = Some 0 /\ exists m, found !! 0 = Some m /\ match_offset m < i
  end.

(** A scan that reached the end. *)
Definition scan_done (d : HistorySearchDirection) (found : list UniqueHistoryMatch)
    (j : option nat) : Prop :=
  match d with
  | Older => length found = (match j with Some i => S i | None => 0 end) /\ all_matches = found
  | Newer => j = Some 0 \/ j = None /\ all_matches = []
  end.

Definition inv (st : CursorState) (h : ChatComposerHistory) : Prop :=
  ready h /\ exists s found, search h = Some s /\ tracks s found (fst st)
  /\ match snd st with
     | None => awaiting s = None /\ (fst st = None -> all_matches = [])
     | Some (d, off) =>
         awaiting s = Some (mkPendingSearch off d (some_cursor (fst st))) /\ off < n
         /\ scanning d found (fst st) off
     end.

Lemma ready_set_search s h : ready h -> ready (set_search s h).
Proof. done. Qed.

Lemma tracks_set_awaiting a s found j : tracks s found j -> tracks (set_awaiting a s) found j.
Proof. by intros []; constructor. Qed.

(** The matches found are the first ones. *)
Lemma tracks_prefix s found j i m :
  tracks s found j -> found !! i = Some m -> all_matches !! i = Some m.
Proof.
  intros H Hm. pose proof (tr_settled _ _ _ H) as Hs.
  destruct (last found) as [x|] eqn:Hl.
  - rewrite Hs. by apply lookup_app_l_Some.
  - apply last_None in Hl as ->. by rewrite lookup_nil in Hm.
Qed.

(** ** Selecting *)

Lemma partition_point_all {A} (f : A -> bool) l :
  Forall (fun x => f x = true) l -> partition_point f l = length l.
Proof. induction 1 as [|x l Hx _ IH]; cbn; [done|]. by rewrite Hx, IH. Qed.

Lemma position_none {A} (f : A -> bool) l :
  Forall (fun x => f x = false) l -> position f l = None.
Proof. induction 1 as [|x l Hx _ IH]; cbn; [done|]. by rewrite Hx, IH. Qed.

Lemma search_match_tracks s found j off e :
  tracks s found j -> scanned (found ++ [mkMatch off e]) off ->
  tracks (search_match_state off e s) (found ++ [mkMatch off e]) (Some (length found)).
Proof.
  intros H Hs. pose proof (scanned_above _ _ _ Hs) as Habove. destruct H.
  unfold search_match_state, record_match. cbn [unique_matches]. rewrite tr_found0.
  rewrite position_none
    by (eapply Forall_impl; [exact Habove|cbn; intros x Hx; apply Nat.eqb_neq; lia]).
  rewrite partition_point_all
    by (eapply Forall_impl; [exact Habove|cbn; intros x Hx; by apply Nat.ltb_lt]).
  rewrite firstn_all, skipn_all. unfold select_match. cbn [unique_matches].
  rewrite list_lookup_middle by done. cbv zeta. constructor; cbn; try done.
  - by rewrite tr_seen0, texts_snoc.
  - by rewrite list_lookup_middle.
  - rewrite length_app. cbn. lia.
  - by rewrite last_snoc.
Qed.

Lemma select_match_tracks s found j i m :
  tracks s found j -> found !! i = Some m -> tracks (select_match i s) found (Some i).
Proof.
  intros H Hm. unfold select_match. destruct H. rewrite tr_found0, Hm.
  constructor; cbn; try done.
  - by rewrite Hm.
  - by apply lookup_lt_Some in Hm.
Qed.

(** ** Scanning *)

Section Scan.
Context (h : ChatComposerHistory) (s : HistorySearchState) (found : list UniqueHistoryMatch)
  (j : option nat).
Hypothesis Hready : ready h.
Hypothesis Hsearch : search h = Some s.
Hypothesis Htracks : tracks s found j.

Lemma total_eq : total_entries h = total.
Proof. destruct Hready as (_ & _ & Hn & Hl & _). unfold total_entries, total. by rewrite Hn, Hl. Qed.

Lemma matches_eq e :
  search_matches to_lowercase h e && search_result_is_unique h e
  = wanted e && negb (bool_decide (text e ∈ texts found)).
Proof.
  unfold search_matches, search_result_is_unique, wanted. rewrite Hsearch.
  destruct Htracks. by rewrite tr_query0, tr_lower0, tr_seen0.
Qed.

Lemma cached_entry i e : entry_at_cached_offset h i = Some e -> entry_at i = Some e.
Proof.
  destruct Hready as (_ & _ & Hn & Hl & Hcache).
  unfold entry_at_cached_offset, entry_at. rewrite Hn, Hl.
  destruct (n <=? i); [done|apply Hcache].
Qed.

Lemma not_cached i : i < total -> entry_at_cached_offset h i = None -> i < n.
Proof.
  destruct Hready as (_ & _ & Hn & Hl & Hcache).
  unfold entry_at_cached_offset, total. rewrite Hn, Hl.
  destruct (Nat.leb_spec n i); [|done].
  intros Hi Hnone%lookup_ge_None. lia.
Qed.

Lemma lookup_at_eq i : lookup_at h i = [mkLookup thread i L].
Proof. destruct Hready as (Ht & HL & _). unfold lookup_at. by rewrite Ht, HL. Qed.

(** What a scan does with the entry of an offset. *)
Lemma scan_entry d i e :
  i < total -> scanning d found j i -> entry_at i = Some e ->
  if wanted e && negb (bool_decide (text e ∈ texts found))
  then d = Older /\ scanned (found ++ [mkMatch i e]) i
       /\ length found = match j with Some i => S i | None => 0 end
  else match next_offset d total i with
       | Some i => scanning d found j i
       | None => scan_done d found j
       end.
Proof.
  intros Hi Hd He. destruct d; cbn [scanning] in Hd.
  - destruct Hd as [Hlen Hs%scanned_next]. rewrite He in Hs.
    destruct (wanted e && _) eqn:Hw; [done|]. destruct i as [|i]; cbn; [|done].
    split; [done|]. by rewrite Hs, app_nil_r.
  - destruct Hd as (-> & m & Hm & Hlt).
    pose proof (tracks_prefix _ _ _ _ _ Htracks Hm) as Hall.
    destruct all_matches as [|m' rest] eqn:E; [done|]. injection Hall as ->.
    destruct (recall_head _ _ _ _ i e E ltac:(lia) He) as [Hw|Hin]; [|set_solver].
    rewrite Hw. cbn [andb next_offset]. destruct (S i <? total); [|by left]. split; [done|]. exists m. split; [done|lia].
Qed.

Lemma scan_missing d i :
  i < total -> scanning d found j i -> entry_at i = None ->
  match next_offset d total i with
  | Some i => scanning d found j i
  | None => scan_done d found j
  end.
Proof.
  intros Hi Hd He. destruct d; cbn [scanning] in Hd.
  - destruct Hd as [Hlen Hs%scanned_next]. rewrite He in Hs.
    destruct i as [|i]; cbn; [|done]. split; [done|]. by rewrite Hs, app_nil_r.
  - destruct Hd as (-> & m & Hm & Hlt). cbn [next_offset].
    destruct (S i <? total); [|by left]. split; [done|]. exists m. split; [done|lia].
Qed.

(** A match was found: the cursor moves to it. *)
Lemma search_match_inv i e :
  scanned (found ++ [mkMatch i e]) i ->
  length found = match j with Some i => S i | None => 0 end ->
  exists h', search_match h i e = (h', snd (answer j Older))
    /\ inv (fst (answer j Older), None) h'.
Proof.
  intros Hs Hlen.
  assert (answer j Older = (Some (length found), SearchFound e)) as ->.
  { assert (all_matches !! length found = Some (mkMatch i e)) as Hm.
    { rewrite Hs. apply lookup_app_l_Some. by apply list_lookup_middle. }
    unfold answer. rewrite Hlen in *. destruct j; by rewrite Hm. }
  eexists. split; [done|]. split; [done|].
  eexists _, _. unfold set_search. cbn. rewrite Hsearch. split; [done|].
  split; [by apply search_match_tracks with j|]. by split.
Qed.

Lemma exhausted_inv d :
  scan_done d found j ->
  exists h', exhausted_search_result h d (some_cursor j) = (h', snd (answer j d))
    /\ inv (fst (answer j d), None) h'.
Proof.
  intros Hdone.
  assert (answer j d = (j, if some_cursor j then AtBoundary else NotFound)) as ->.
  { unfold answer. destruct d; cbn in Hdone.
    - destruct Hdone as [Hlen ->]. destruct j; by rewrite lookup_ge_None_2 by (cbn in *; lia).
    - by destruct Hdone as [->|[-> _]]. }
  eexists. split; [done|]. split; [done|].
  eexists _, found. cbn. rewrite Hsearch. split; [done|]. split; [|split].
  - apply (tracks_set_awaiting None) in Htracks as [].
    destruct j as [i|] eqn:Hj; cbn; [|done].
    constructor; cbn in *; try done; destruct d; cbn; try done.
    + intros _. destruct Hdone as [-> ->]. done.
    + intros _. by destruct Hdone as [|[? _]].
  - by destruct (some_cursor j), d.
  - cbn. intros ->. destruct Htracks, d; [|by destruct Hdone as [|[]]].
    by destruct Hdone as [_ ->].
Qed.

End Scan.

Definition further (d : HistorySearchDirection) (i off : nat) : Prop :=
  match d with Older => off <= i | Newer => i <= off end.

(** The three ways a scan from an offset ends: at a match, at a lookup, at the
    end. *)
Definition scan_ends (h : ChatComposerHistory) (found : list UniqueHistoryMatch) (j : option nat)
    (d : HistorySearchDirection) (i : nat)
    (res : ChatComposerHistory * list LookupMessageHistoryEntry * HistorySearchResult) : Prop :=
  let '(h', lookups, r) := res in
  r <> NotFound /\ r = snd (answer j d) /\ lookups = [] /\ inv (fst (answer j d), None) h'
  \/ (exists off, r = SearchPending /\ lookups = [mkLookup thread off L]
        /\ off < n /\ inv (j, Some (d, off)) h' /\ further d i off)
  \/ r = NotFound /\ lookups = [] /\ h' = h /\ scan_done d found j.

Lemma scan_ends_further h found j d i i' res :
  further d i i' -> scan_ends h found j d i' res -> scan_ends h found j d i res.
Proof.
  intros Hf. destruct res as [[h' lookups] r]. unfold scan_ends.
  intros [?|[(off & H1 & H2 & H3 & H4 & H5)|?]]; [by left| |by right; right].
  right; left. exists off. split_and!; [done..|]. destruct d; cbn in *; lia.
Qed.

Lemma next_offset_further d i i' :
  next_offset d total i = Some i' -> i < total ->
  i' < total /\ i' <> i /\ further d i i'.
Proof.
  destruct d; cbn [next_offset further].
  - destruct i; [done|]. intros [= ->]. lia.
  - destruct (Nat.ltb_spec (S i) total); [|done]. intros [= <-]. lia.
Qed.

(** A lookup stops the scan. *)
Lemma scan_asks h s found j d i :
  ready h -> search h = Some s -> tracks s found j -> scanning d found j i -> i < n ->
  inv (j, Some (d, i))
    (set_search (set_awaiting (Some (mkPendingSearch i d (some_cursor j))) <$> search h) h).
Proof.
  intros Hready Hsearch Htracks Hd Hn. split; [done|]. eexists _, found. cbn. rewrite Hsearch.
  split; [done|]. split; [by apply tracks_set_awaiting|]. done.
Qed.

Lemma advance_spec h s found j d fuel i :
  ready h -> search h = Some s -> tracks s found j -> scanning d found j i -> i < total ->
  match d with Older => i < fuel | Newer => total - i <= fuel end ->
  scan_ends h found j d i
    (advance_search_from to_lowercase fuel h i d (some_cursor j)).
Proof.
  intros Hready Hsearch Htracks. revert i.
  induction fuel as [|fuel IH]; intros i Hd Hi Hfuel; [destruct d; lia|].
  cbn [advance_search_from]. rewrite (total_eq h Hready), (proj2 (Nat.leb_gt _ _) Hi).
  assert (match next_offset d total i with
          | Some i => scanning d found j i | None => scan_done d found j end ->
    scan_ends h found j d i
      match next_offset d total i with
      | Some offset => advance_search_from to_lowercase fuel h offset d (some_cursor j)
      | None => (h, [], NotFound)
      end) as Hgo.
  { intros Hnext. destruct (next_offset d total i) as [i'|] eqn:Hi'.
    - destruct (next_offset_further _ _ _ Hi' Hi) as (Hlt & Hne & Hf).
      apply (scan_ends_further _ _ _ _ _ i'); [done|]. apply IH; [done..|].
      destruct d; cbn [further] in Hf; lia.
    - right; right. by split_and!. }
  destruct (entry_at_cached_offset h i) as [e|] eqn:Hcached.
  - apply (cached_entry h Hready) in Hcached.
    pose proof (scan_entry h s found j Hready Hsearch Htracks d i e Hi Hd Hcached) as Hscan.
    rewrite (matches_eq h s found j Hsearch Htracks).
    destruct (wanted e && _); [|by apply Hgo]. destruct Hscan as (-> & Hs & Hlen).
    destruct (search_match_inv h s found j Hready Hsearch Htracks i e Hs Hlen) as (h' & Hm & Hinv).
    rewrite Hm. left. split_and!; try done.
    unfold search_match in Hm. injection Hm as _ Hr. by rewrite <- Hr.
  - pose proof (not_cached h Hready i Hi Hcached) as Hn.
    pose proof (scan_asks h s found j d i Hready Hsearch Htracks Hd Hn) as Hinv.
    pose proof (lookup_at_eq h Hready i) as Hl.
    destruct Hready as (Ht & HL & Hcount & Hrest).
    rewrite Hcount, (proj2 (Nat.ltb_lt _ _) Hn), Hl. right; left. exists i. split_and!; try done.
    by destruct d; cbn.
Qed.

(** A scan and its answer. *)
Lemma advance_or_exhaust_spec h s found j d start :
  ready h -> search h = Some s -> tracks s found j ->
  match start with
  | Some i => scanning d found j i /\ i < total
  | None => scan_done d found j
  end ->
  exists h' lookups r,
    advance_or_exhaust to_lowercase h start d (some_cursor j) = (h', lookups, r)
    /\ (r = snd (answer j d) /\ lookups = [] /\ inv (fst (answer j d), None) h'
        \/ exists off i, r = SearchPending /\ lookups = [mkLookup thread off L]
              /\ off < n /\ inv (j, Some (d, off)) h' /\ start = Some i /\ further d i off).
Proof.
  intros Hready Hsearch Htracks Hstart. unfold advance_or_exhaust.
  destruct start as [i|].
  - destruct Hstart as [Hd Hi].
    assert (match d with Older => i < total | Newer => total - i <= total end) as Hfuel
      by (destruct d; lia).
    pose proof (advance_spec h s found j d total i Hready Hsearch Htracks Hd Hi Hfuel) as Hcases.
    rewrite (total_eq h Hready).
    destruct (advance_search_from _ _ _ _ _ _) as [[h' lookups] r]. destruct Hcases as [(Hne & Hr & Hl & Hinv)|[(off & -> & H2)|(-> & -> & -> & Hdone)]].
    + exists h', lookups, r. split; [by destruct r|]. by left.
    + eexists _, _, _. split; [done|]. right. exists off, i. naive_solver.
    + destruct (exhausted_inv h s found j Hready Hsearch Htracks d Hdone) as (h' & -> & Hinv).
      eexists _, _, _. split; [done|]. by left.
  - destruct (exhausted_inv h s found j Hready Hsearch Htracks d Hstart) as (h' & -> & Hinv).
    eexists _, _, _. split; [done|]. by left.
Qed.

(** ** One event *)

Lemma tracks_new : tracks (search_new to_lowercase q) [] None.
Proof. by constructor. Qed.

Lemma scanned_nil : scanned [] total.
Proof. done. Qed.

(** A match that was reached is selected again without a scan. *)
Lemma select_cached_spec h s found j d :
  ready h -> search h = Some s -> tracks s found j -> (j = None -> all_matches = []) ->
  (exists h', select_cached_unique_match h d = Some (Some (h', snd (answer j d)))
      /\ inv (fst (answer j d), None) h')
  \/ select_cached_unique_match h d = Some None
     /\ match d, j with
        | Older, Some i => S i = length found
        | Newer, Some (S _) => False
        | _, _ => True
        end.
Proof.
  intros Hready Hsearch Htracks Hnone. unfold select_cached_unique_match. rewrite Hsearch.
  pose proof (tr_index _ _ _ Htracks) as Hj. pose proof (tr_valid _ _ _ Htracks) as Hvalid.
  cbn [mbind option_bind]. rewrite Hj, (tr_found _ _ _ Htracks).
  assert (forall i m, found !! i = Some m ->
    match d, j with
    | Older, Some k => i = S k
    | Newer, Some (S k) => i = k
    | _, _ => False
    end ->
    exists h', Some (Some (set_search (Some (select_match i s))
                 (set_last_text (Some (text (match_entry m)))
                    (set_cursor (Some (Z.of_nat (match_offset m))) h)), SearchFound (match_entry m)))
             = Some (Some (h', snd (answer j d))) /\ inv (fst (answer j d), None) h') as Hgo.
  { intros i m Hm Hi. pose proof (tracks_prefix _ _ _ _ _ Htracks Hm) as Hall.
    assert (answer j d = (Some i, SearchFound (match_entry m))) as ->
      by (unfold answer; destruct d, j as [[|k]|]; subst; try done; by rewrite Hall).
    eexists. split; [done|]. split; [done|]. eexists _, found. split; [done|].
    split; [by apply select_match_tracks with j m|]. cbn.
    unfold select_match. by rewrite (tr_found _ _ _ Htracks), Hm. }
  destruct j as [i|]; cbn [mbind option_bind]; [|right; by destruct d].
  destruct d; cbn [mbind option_bind].
  - destruct (Nat.ltb_spec (S i) (length found)) as [Hlt|Hge]; cbn [mbind option_bind].
    + left. destruct (lookup_lt_is_Some_2 _ _ Hlt) as [m Hm].
      rewrite (tr_found _ _ _ Htracks), Hm. by apply Hgo.
    + right. split; [done|lia].
  - destruct i as [|i]; cbn [mbind option_bind]; [by right|]. left.
    destruct (lookup_lt_is_Some_2 found i ltac:(lia)) as [m Hm].
    rewrite (tr_found _ _ _ Htracks), Hm. by apply Hgo.
Qed.

(** Where a scan starts when it is not from a match that was reached. *)
Lemma start_spec h s found j d :
  ready h -> search h = Some s -> tracks s found j -> (j = None -> all_matches = []) ->
  match d, j with
  | Older, Some i => S i = length found
  | Newer, Some (S _) => False
  | _, _ => True
  end ->
  match search_start_offset h total d false with
  | Some i => scanning d found j i /\ i < total
  | None => scan_done d found j
  end.
Proof.
  intros Hready Hsearch Htracks Hnone Hd. unfold search_start_offset. rewrite Hsearch.
  cbn [mbind option_bind].
  rewrite (tr_offset _ _ _ Htracks). pose proof (tr_valid _ _ _ Htracks) as Hvalid.
  destruct j as [i|]; cbn [mbind option_bind fmap option_fmap option_map].
  2:{ specialize (Hnone eq_refl). subst found. destruct d; [done|by right]. }
  destruct (lookup_lt_is_Some_2 _ _ Hvalid) as [m Hm]. rewrite Hm.
  cbn [mbind option_bind fmap option_fmap option_map].
  pose proof (tracks_prefix _ _ _ _ _ Htracks Hm) as Hall.
  assert (match_offset m < total) as Hlt.
  { pose proof (recall_below total ∅) as Hb. rewrite Forall_forall in Hb.
    by apply Hb, list_elem_of_lookup_2 with i. }
  destruct d.
  - pose proof (tr_settled _ _ _ Htracks) as Hs.
    rewrite last_lookup, <- Hd in Hs. cbn in Hs. rewrite Hm in Hs.
    destruct (match_offset m) as [|k] eqn:Hk; cbn [next_offset scan_done].
    + split; [done|]. by rewrite Hs, app_nil_r.
    + split; [done|lia].
  - destruct i as [|i]; [|done]. cbn [next_offset].
    destruct (Nat.ltb_spec (S (match_offset m)) total); [|by left].
    split; [|done]. split; [done|]. exists m. split; [done|lia].
Qed.

(** A search without entries matches nothing. *)
Lemma empty_spec h found j d s :
  ready h -> tracks s found j -> total = 0 ->
  spec_step (j, None) (Press d) [] (Some NotFound) (None, None)
  /\ inv (None, None) (set_search (Some (search_new to_lowercase q)) h).
Proof.
  intros Hready Htracks Hzero.
  assert (all_matches = []) as Hall by (unfold all_matches; by rewrite Hzero).
  assert (j = None) as ->.
  { pose proof (tr_valid _ _ _ Htracks) as Hvalid. destruct j as [i|]; [|done].
    destruct (lookup_lt_is_Some_2 _ _ Hvalid) as [m Hm].
    pose proof (tracks_prefix _ _ _ _ _ Htracks Hm) as H. by rewrite Hall in H. }
  split.
  - pose proof (press_answered None d) as H. unfold answer in H. rewrite Hall in H. by destruct d.
  - split; [done|]. eexists _, []. split; [done|]. split; [apply tracks_new|by split].
Qed.

(** A key when no move waits. *)
Lemma press_spec h j d :
  inv (j, None) h ->
  exists h' lookups r st',
    search_history to_lowercase h q d false = Some (h', lookups, r)
    /\ spec_step (j, None) (Press d) lookups (Some r) st' /\ inv st' h'.
Proof.
  intros (Hready & s & found & Hsearch & Htracks & Hawait & Hnone). cbn [fst snd] in *.
  unfold search_history. rewrite (total_eq h Hready), Hsearch.
  destruct (Nat.eqb_spec total 0) as [Hzero|Hnz].
  { destruct (empty_spec h found j d s Hready Htracks Hzero). by eexists _, _, _, _. }
  rewrite (tr_query _ _ _ Htracks), bool_decide_true by done.
  cbn [negb andb orb mbind option_bind fmap option_fmap option_map]. rewrite Hawait.
  set (h1 := set_search (Some (set_awaiting None s)) h).
  apply (tracks_set_awaiting None) in Htracks. set (s1 := set_awaiting None s) in *.
  assert (ready h1) as Hready1 by done. assert (search h1 = Some s1) as Hsearch1 by done.
  cbn [search set_search h1].
  cbn [mbind option_bind].
  assert ((match selected_offset s1 with Some _ => true | None => false end) = some_cursor j) as Hb.
  { rewrite (tr_offset _ _ _ Htracks). pose proof (tr_valid _ _ _ Htracks) as Hvalid.
    destruct j as [i|]; [|done]. cbn. by destruct (lookup_lt_is_Some_2 _ _ Hvalid) as [m ->]. }
  destruct (select_cached_spec h1 s1 found j d Hready1 Hsearch1 Htracks Hnone)
    as [(h' & Hsel & Hinv)|[Hsel Hpos]]; fold h1; rewrite Hsel; cbn [mbind option_bind].
  { eexists _, _, _, _. split; [done|]. split; [constructor|done]. }
  rewrite Hb.
  destruct (some_cursor j && is_exhausted d s1) eqn:Hex.
  { apply andb_true_iff in Hex as [Hj Hex].
    assert (answer j d = (j, AtBoundary)) as Ha.
    { destruct j as [i|]; [|done]. unfold answer. destruct d; cbn in Hex.
      - destruct (tr_older _ _ _ Htracks Hex) as [Hlen ->]. injection Hlen as Hlen.
        by rewrite lookup_ge_None_2 by lia.
      - apply (tr_newer _ _ _ Htracks) in Hex. by injection Hex as ->. }
    eexists _, _, _, _. split; [done|]. split.
    - pose proof (press_answered j d) as H. rewrite Ha in H. exact H.
    - split; [done|]. eexists s1, found. by split_and!. }
  pose proof (start_spec h1 s1 found j d Hready1 Hsearch1 Htracks Hnone Hpos) as Hstart.
  destruct (advance_or_exhaust_spec h1 s1 found j d _ Hready1 Hsearch1 Htracks Hstart)
    as (h' & lookups & r & Hrun & Hcases).
  rewrite Hrun.
  destruct Hcases as [(-> & -> & Hinv)|(off & i & -> & -> & Hoff & Hinv & _)];
    eexists _, _, _, _; (split; [done|]); (split; [|exact Hinv]); by constructor.
Qed.

(** What a response puts in the cache is what the log answers. *)
Lemma cache_ready h off e :
  ready h -> entry_new <$> log off = Some e -> ready (set_fetched (<[off := e]> (fetched_history h)) h).
Proof.
  intros (Ht & HL & Hn & Hl & Hcache) He. split_and!; try done. cbn. intros i x.
  destruct (decide (off = i)) as [<-|Hne].
  - rewrite lookup_insert_eq. congruence.
  - rewrite lookup_insert_ne by done. apply Hcache.
Qed.

Lemma inv_ready st h h' :
  inv st h -> ready h' -> search h' = search h -> inv st h'.
Proof. intros (_ & s & found & Hs & Hrest) Hready Heq. split; [done|]. exists s, found. by rewrite Heq. Qed.

(** The answer that a move waits for. *)
Lemma answer_spec h j d off :
  inv (j, Some (d, off)) h ->
  exists h' lookups r st',
    on_entry_response to_lowercase h L off (log off) = (h', lookups, EntrySearch r)
    /\ spec_step (j, Some (d, off)) (Answer off) lookups (Some r) st' /\ inv st' h'.
Proof.
  intros (Hready & s & found & Hsearch & Htracks & Hawait & Hoff & Hscan). cbn [fst snd] in *.
  assert (off < total) as Hlt by (unfold total; lia).
  assert (entry_at off = entry_new <$> log off) as Hentry
    by (unfold entry_at; by rewrite (proj2 (Nat.leb_gt _ _) Hoff)).
  unfold on_entry_response. destruct Hready as (Ht & HL & Hready). rewrite bool_decide_true by done.
  assert (ready h) as Hready' by done. cbn [negb].
  set (h1 := match entry_new <$> log off with
             | Some entry => set_fetched (<[off:=entry]> (fetched_history h)) h
             | None => h end).
  assert (ready h1 /\ search h1 = Some s) as [Hready1 Hsearch1].
  { unfold h1. destruct (entry_new <$> log off) eqn:He; [|done]. split; [by apply cache_ready|done]. }
  rewrite Hsearch1. cbn [mbind option_bind]. rewrite Hawait. cbn [mbind option_bind pending_offset].
  rewrite Nat.eqb_refl. cbn [pending_direction boundary_if_exhausted].
  assert (match next_offset d total off with
          | Some i => scanning d found j i | None => scan_done d found j end ->
    exists h' lookups r st',
      (let '(h, lookups, r) := advance_search_after to_lowercase h1 off d (some_cursor j) in
       (h, lookups, EntrySearch r)) = (h', lookups, EntrySearch r)
      /\ spec_step (j, Some (d, off)) (Answer off) lookups (Some r) st' /\ inv st' h') as Hgo.
  { intros Hnext. unfold advance_search_after. rewrite (total_eq h1 Hready1).
    destruct (advance_or_exhaust_spec h1 s found j d (next_offset d total off)
      Hready1 Hsearch1 Htracks) as (h' & lookups & r & Hrun & Hcases).
    { destruct (next_offset d total off) as [i|] eqn:Hi; [|done].
      split; [done|]. by apply next_offset_further in Hi as (? & _). }
    rewrite Hrun.
    destruct Hcases as [(-> & -> & Hinv)|(off' & i & -> & -> & Hoff' & Hinv & Hi & Hf)];
      eexists _, _, _, _; (split; [done|]); (split; [|exact Hinv]); constructor; [|done].
    apply next_offset_further in Hi as (_ & Hne & Hfi); [|done].
    destruct d; cbn [further] in *; lia. }
  destruct (entry_new <$> log off) as [e|] eqn:He.
  - rewrite (matches_eq h1 s found j Hsearch1 Htracks).
    pose proof (scan_entry h1 s found j Hready1 Hsearch1 Htracks d off e Hlt Hscan Hentry) as Hcase.
    destruct (wanted e && _); [|by apply Hgo].
    destruct Hcase as (-> & Hs & Hlen).
    destruct (search_match_inv h1 s found j Hready1 Hsearch1 Htracks off e Hs Hlen)
      as (h' & -> & Hinv).
    eexists _, _, _, _. split; [done|]. split; [constructor|done].
  - apply Hgo. by apply (scan_missing s found j Htracks d off).
Qed.

(** A response that no move waits for leaves the search alone. *)
Lemma other_response_spec h j w log_id off e :
  inv (j, w) h -> (log_id = L -> e = log off /\ forall d, w <> Some (d, off)) ->
  exists h' r, on_entry_response to_lowercase h log_id off e = (h', [], r)
    /\ (forall x, r <> EntrySearch x) /\ inv (j, w) h'.
Proof.
  intros Hinv Hother. pose proof Hinv as (Hready & s & found & Hsearch & Hrest).
  unfold on_entry_response. destruct Hready as (Ht & HL & Hready').
  assert (ready h) as Hready by done. rewrite HL.
  destruct (bool_decide (Some L = Some log_id)) eqn:Hid; cbn [negb]; bool_hyps.
  2:{ eexists _, _. by split_and!. }
  injection Hid as <-. destruct (Hother eq_refl) as [-> Hw].
  set (h1 := match entry_new <$> log off with
             | Some entry => set_fetched (<[off:=entry]> (fetched_history h)) h
             | None => h end).
  assert (inv (j, w) h1) as Hinv1.
  { apply (inv_ready _ h); [done|unfold h1|unfold h1; by destruct (entry_new <$> log off)].
    destruct (entry_new <$> log off) eqn:He; [by apply cache_ready|done]. }
  assert (search h1 = Some s) as -> by (unfold h1; by destruct (entry_new <$> log off)).
  assert ((pending ← awaiting s; if pending_offset pending =? off then Some pending else None)
          = None) as Hnone.
  { destruct Hrest as [_ Hrest]. cbn [snd] in Hrest. destruct w as [[d off']|].
    - destruct Hrest as (-> & _ & _). cbn. destruct (Nat.eqb_spec off' off) as [->|]; [|done].
      by destruct (Hw d).
    - by destruct Hrest as [-> _]. }
  cbn [mbind option_bind] in Hnone |- *. rewrite Hnone.
  repeat case_match; eexists _, _; by split_and!.
Qed.

(** The code makes the moves of the cursor. *)
Lemma step_spec st h ev :
  inv st h -> (forall log_id off e, ev = Stale log_id off e -> log_id <> L) ->
  exists h' lookups r st',
    step h ev = Some (h', lookups, r) /\ spec_step st ev lookups r st' /\ inv st' h'.
Proof.
  intros Hinv Hstale. destruct st as [j w]. destruct ev as [d|off|log_id off e]; cbn [step].
  - destruct w as [[d' off]|].
    + destruct Hinv as (Hready & s & found & Hsearch & Htracks & Hawait & Hoff & Hscan).
      assert (search_history to_lowercase h q d false = Some (h, [], SearchPending)) as ->.
      { unfold search_history. rewrite (total_eq h Hready), Hsearch.
        rewrite (proj2 (Nat.eqb_neq _ _)) by (cbn [snd] in Hoff; unfold total; lia).
        rewrite (tr_query _ _ _ Htracks), bool_decide_true by done.
        cbn [negb andb mbind option_bind]. by rewrite Hawait. }
      eexists _, _, _, _. split; [done|]. split; [constructor|].
      split; [done|]. by exists s, found.
    + destruct (press_spec h j d Hinv) as (h' & lookups & r & st' & -> & Hstep & Hinv').
      by eexists _, _, _, _.
  - destruct w as [[d off']|]; [destruct (decide (off = off')) as [->|Hne]|].
    + destruct (answer_spec h j d off' Hinv) as (h' & lookups & r & st' & -> & Hstep & Hinv').
      by eexists _, _, _, _.
    + destruct (other_response_spec h j (Some (d, off')) L off (log off) Hinv)
        as (h' & r & -> & Hr & Hinv'); [intros _; split; [done|]; congruence|].
      eexists _, _, _, _. split; [done|]. split; [|exact Hinv'].
      destruct r as [x|x|]; [|by destruct (Hr x)|]; constructor; congruence.
    + destruct (other_response_spec h j None L off (log off) Hinv)
        as (h' & r & -> & Hr & Hinv'); [done|].
      eexists _, _, _, _. split; [done|]. split; [|exact Hinv'].
      destruct r as [x|x|]; [|by destruct (Hr x)|]; by constructor.
  - destruct (other_response_spec h j w log_id off e Hinv) as (h' & r & -> & Hr & Hinv').
    { intros ->. by destruct (Hstale L off e). }
    eexists _, _, _, _. split; [done|]. split; [|exact Hinv'].
    destruct r as [x|x|]; [|by destruct (Hr x)|]; constructor; by eapply Hstale.
Qed.

Lemma run_spec st h events :
  inv st h -> (forall log_id off e, Stale log_id off e ∈ events -> log_id <> L) ->
  exists trace, run h events = Some trace /\ spec_run st events trace.
Proof.
  revert st h. induction events as [|ev events IH]; intros st h Hinv Hstale.
  - exists []. split; [done|constructor].
  - destruct (step_spec st h ev Hinv) as (h' & lookups & r & st' & Hrun & Hstep & Hinv').
    { intros log_id off e ->. by apply (Hstale log_id off e); left. }
    destruct (IH st' h' Hinv') as (trace & Htrace & Hspec).
    { intros log_id off e He. apply (Hstale log_id off e). by right. }
    exists ((lookups, r) :: trace). cbn [run]. rewrite Hrun. cbn [mbind option_bind].
    rewrite Htrace. split; [done|]. by apply spec_run_cons with st'.
Qed.

(** The query is set: the search starts over at the newest prompt. *)
Lemma restart_spec h :
  ready h ->
  exists h' lookups r st,
    search_history to_lowercase h q Older true = Some (h', lookups, r)
    /\ spec_step (None, None) (Press Older) lookups (Some r) st /\ inv st h'.
Proof.
  intros Hready. unfold search_history. rewrite (total_eq h Hready).
  destruct (Nat.eqb_spec total 0) as [Hzero|Hnz].
  { destruct (empty_spec h [] None Older _ Hready tracks_new Hzero). by eexists _, _, _, _. }
  cbn [negb]. rewrite andb_false_r. cbn [andb]. rewrite orb_true_r. cbn [orb mbind option_bind].
  set (h1 := set_search (Some (search_new to_lowercase q)) h).
  assert (search h1 = Some (search_new to_lowercase q)) as Hs by done.
  destruct (advance_or_exhaust_spec h1 _ [] None Older (Some (total - 1)) Hready Hs tracks_new)
    as (h' & lookups & r & Hrun & Hcases).
  { split; [|lia]. split; [done|]. replace (S (total - 1)) with total by lia. apply scanned_nil. }
  assert (search_start_offset h1 total Older true = Some (total - 1)) as Hst
    by (unfold search_start_offset; destruct total; [done|]; f_equal; lia).
  rewrite Hst. cbn [some_cursor] in Hrun. rewrite Hrun.
  destruct Hcases as [(-> & -> & Hinv)|(off & i & -> & -> & Hoff & Hinv & _)];
    eexists _, _, _, _; (split; [done|]); (split; [|exact Hinv]); by constructor.
Qed.

End Spec.

(** ** What the list of matches is *)

Section Matches.
Context (to_lowercase : str -> str) (q : str) (n : nat) (loc : list HistoryEntry)
  (log : nat -> option str).
#[local] Abbreviation entry_at := (entry_at n loc log).
#[local] Abbreviation recall := (recall to_lowercase q n loc log).
#[local] Abbreviation wanted := (wanted to_lowercase q).

Lemma recall_sound i seen m :
  m ∈ recall i seen ->
  entry_at (match_offset m) = Some (match_entry m) /\ wanted (match_entry m) = true
  /\ text (match_entry m) ∉ seen.
Proof.
  revert seen. induction i as [|i IH]; intros seen; cbn; [by intros ?%not_elem_of_nil|].
  destruct (entry_at i) as [e|] eqn:He; [|apply IH].
  destruct (wanted e && _) eqn:Hw; [|apply IH]. bool_hyps.
  intros [->|(H1 & H2 & H3)%IH]%elem_of_cons; [done|]. split_and!; [done..|set_solver].
Qed.

Lemma recall_complete i seen k e :
  k < i -> entry_at k = Some e -> wanted e = true -> text e ∉ seen ->
  exists m, m ∈ recall i seen /\ text (match_entry m) = text e /\ k <= match_offset m.
Proof.
  revert seen. induction i as [|i IH]; intros seen Hk He Hw Hseen; [lia|]. cbn.
  destruct (decide (k = i)) as [->|Hne].
  - rewrite He, Hw, bool_decide_false by done. cbn. exists (mkMatch i e).
    split; [left|]. done.
  - assert (k < i) as Hlt by lia. destruct (entry_at i) as [x|]; [|by apply IH].
    destruct (wanted x && _) eqn:Hx; [|by apply IH].
    destruct (decide (text x = text e)) as [Heq|Hdiff].
    + exists (mkMatch i x). split; [left|]. cbn. split; [done|lia].
    + destruct (IH ({[text x]} ∪ seen) Hlt He Hw ltac:(set_solver)) as (m & Hm & H).
      exists m. split; [by right|done].
Qed.

Lemma recall_nodup i seen : NoDup (map (fun m => text (match_entry m)) (recall i seen)).
Proof.
  revert seen. induction i as [|i IH]; intros seen; cbn; [constructor|].
  destruct (entry_at i) as [e|]; [|apply IH]. destruct (wanted e && _); [|apply IH].
  cbn. constructor; [|apply IH].
  intros (m & Hm & Hin)%list_elem_of_fmap. apply recall_sound in Hin. set_solver.
Qed.

(** The list holds prompts that match, each text once, at its newest offset
    and from the newest to the oldest, and no matching text is missing. *)
Theorem all_matches_spec :
  let matches := all_matches to_lowercase q n loc log in
  (forall m, m ∈ matches ->
     entry_at (match_offset m) = Some (match_entry m) /\ wanted (match_entry m) = true)
  /\ NoDup (map (fun m => text (match_entry m)) matches)
  /\ StronglySorted (fun m1 m2 => match_offset m2 < match_offset m1) matches
  /\ forall i e, i < total n loc -> entry_at i = Some e -> wanted e = true ->
       exists m, m ∈ matches /\ text (match_entry m) = text e /\ i <= match_offset m.
Proof.
  cbv zeta. unfold all_matches. split_and!.
  - intros m (H1 & H2 & _)%recall_sound. done.
  - apply recall_nodup.
  - apply recall_sorted.
  - intros i e Hi He Hw. apply recall_complete; [done..|set_solver].
Qed.

End Matches.

(** ** Searching *)

Section Claims.
Context (to_lowercase : str -> str) (q thread : str) (L : N) (n : nat).
Context (loc : list HistoryEntry) (log : nat -> option str).
#[local] Abbreviation ready := (ready thread L n loc log).
#[local] Abbreviation answer := (answer to_lowercase q n loc log).
#[local] Abbreviation spec_step := (spec_step to_lowercase q thread L n loc log).
#[local] Abbreviation spec_run := (spec_run to_lowercase q thread L n loc log).

(** C16. The incremental search is a cursor over the list of matching prompts,
    newest first and without repetitions ([all_matches_spec]). After a query is
    set, whatever keys, answers of the log (in any order, asked for or not) and
    stale responses come, the code never indexes out of range, and every result
    and every lookup is one that [spec_step] allows: a key moves the cursor by
    one or stops at an end, a move that needs a prompt that is not there asks for
    it and gives the same result when the answers came, and nothing else moves
    it. *)
Theorem search_is_a_cursor h events :
  ready h -> (forall log_id off e, Stale log_id off e ∈ events -> log_id <> L) ->
  exists h' lookups r st trace,
    search_history to_lowercase h q Older true = Some (h', lookups, r)
    /\ spec_step (None, None) (Press Older) lookups (Some r) st
    /\ run to_lowercase q L log h' events = Some trace
    /\ spec_run st events trace.
Proof.
  intros Hready Hstale.
  destruct (restart_spec to_lowercase q thread L n loc log h Hready)
    as (h' & lookups & r & st & Hrun & Hstep & Hinv).
  destruct (run_spec to_lowercase q thread L n loc log st h' events Hinv Hstale)
    as (trace & Htrace & Hspec).
  by exists h', lookups, r, st, trace.
Qed.

(** The log answers each lookup that was sent until a result is there. *)
Fixpoint settle (fuel : nat) (h : ChatComposerHistory)
    (lookups : list LookupMessageHistoryEntry) (r : HistorySearchResult)
    : option (ChatComposerHistory * HistorySearchResult) :=
  match r, fuel, lookups with
  | SearchPending, S fuel, [lookup] =>
      match on_entry_response to_lowercase h (lookup_log_id lookup) (lookup_offset lookup)
              (log (lookup_offset lookup)) with
      | (h, lookups, EntrySearch r) => settle fuel h lookups r
      | _ => None
      end
  | SearchPending, _, _ => None
  | _, _, _ => Some (h, r)
  end.

Fixpoint presses (h : ChatComposerHistory) (ds : list HistorySearchDirection)
    : option (list HistorySearchResult) :=
  match ds with
  | [] => Some []
  | d :: ds =>
      '(h, lookups, r) ← search_history to_lowercase h q d false;
      '(h, r) ← settle n h lookups r;
      rs ← presses h ds;
      Some (r :: rs)
  end.

Fixpoint answers (j : option nat) (ds : list HistorySearchDirection) : list HistorySearchResult :=
  match ds with
  | [] => []
  | d :: ds => snd (answer j d) :: answers (fst (answer j d)) ds
  end.

Lemma answer_not_pending j d : snd (answer j d) <> SearchPending.
Proof. unfold HistorySearch.answer. repeat case_match; by subst. Qed.

Lemma settle_answer fuel h lookups j d :
  settle fuel h lookups (snd (answer j d)) = Some (h, snd (answer j d)).
Proof. pose proof (answer_not_pending j d). by destruct fuel, (snd (answer j d)). Qed.

(** The lookups left of a move that waits at an offset. *)
Definition moves_left (d : HistorySearchDirection) (off : nat) : nat :=
  match d with Older => S off | Newer => n - off end.

Lemma settle_waiting fuel h j d off :
  inv to_lowercase q thread L n loc log (j, Some (d, off)) h -> off < n ->
  moves_left d off <= fuel ->
  exists h', settle fuel h [mkLookup thread off L] SearchPending = Some (h', snd (answer j d))
    /\ inv to_lowercase q thread L n loc log (fst (answer j d), None) h'.
Proof.
  revert h off. induction fuel as [|fuel IH]; intros h off Hinv Hoff Hfuel;
    [destruct d; cbn in Hfuel; lia|].
  destruct (answer_spec to_lowercase q thread L n loc log h j d off Hinv)
    as (h' & lookups & r & st' & Hrun & Hstep & Hinv').
  cbn [settle lookup_log_id lookup_offset]. rewrite Hrun.
  inversion Hstep; subst.
  - exists h'. split; [apply settle_answer|done].
  - apply IH; [done..|]. destruct d; cbn in *; lia.
Qed.

Lemma settle_press h j d lookups r st :
  spec_step (j, None) (Press d) lookups (Some r) st ->
  inv to_lowercase q thread L n loc log st h ->
  exists h', settle n h lookups r = Some (h', snd (answer j d))
    /\ inv to_lowercase q thread L n loc log (fst (answer j d), None) h'.
Proof.
  intros Hstep Hinv. inversion Hstep; subst.
  - exists h. split; [apply settle_answer|done].
  - apply settle_waiting; [done..|]. destruct d; cbn; lia.
Qed.

Lemma presses_spec h j ds :
  inv to_lowercase q thread L n loc log (j, None) h -> presses h ds = Some (answers j ds).
Proof.
  revert h j. induction ds as [|d ds IH]; intros h j Hinv; [done|]. cbn [presses answers].
  destruct (press_spec to_lowercase q thread L n loc log h j d Hinv)
    as (h1 & lookups & r & st & -> & Hstep & Hinv1). cbn [mbind option_bind].
  destruct (settle_press h1 j d lookups r st Hstep Hinv1) as (h2 & -> & Hinv2).
  cbn [mbind option_bind]. by rewrite (IH h2 _ Hinv2).
Qed.

(** When the log answers, every key gets its result: after at most as many
    answers as there are prompts in the log, the query shows the newest match or
    that there is none, and the keys that follow walk over the list of matches,
    whichever prompts had been fetched before. *)
Theorem searches_are_answered h ds :
  ready h ->
  exists h0 lookups r h1,
    search_history to_lowercase h q Older true = Some (h0, lookups, r)
    /\ settle n h0 lookups r = Some (h1, snd (answer None Older))
    /\ presses h1 ds = Some (answers (fst (answer None Older)) ds).
Proof.
  intros Hready.
  destruct (restart_spec to_lowercase q thread L n loc log h Hready)
    as (h0 & lookups & r & st & Hrun & Hstep & Hinv).
  destruct (settle_press h0 None Older lookups r st Hstep Hinv) as (h1 & Hset & Hinv1).
  exists h0, lookups, r, h1. split_and!; [done..|]. by apply presses_spec.
Qed.

(** ** Browsing *)

(** Up and Down on the space of offsets; [None] is the draft. *)
Definition up (c : option nat) : option nat :=
  match c with
  | None => match total n loc with S i => Some i | 0 => None end
  | Some (S i) => Some i
  | Some 0 => Some 0
  end.
Definition down (c : option nat) : option nat :=
  match c with
  | Some i => if S i <? total n loc then Some (S i) else None
  | None => None
  end.

(** Where the history is browsed. *)
Definition browsing (h : ChatComposerHistory) (c : option nat) : Prop :=
  ready h /\ history_cursor h = (Z.of_nat <$> c)
  /\ match c with Some i => i < total n loc | None => True end.

(** What an operation shows when it moves to an offset: its prompt, or nothing
    yet, and then it asks for it. *)
Definition shows (i : nat) (h : ChatComposerHistory) (lookups : list LookupMessageHistoryEntry)
    (shown : option HistoryEntry) : Prop :=
  match shown with
  | Some e => entry_at n loc log i = Some e /\ lookups = [] /\ last_history_text h = Some (text e)
  | None => i < n /\ lookups = [mkLookup thread i L]
  end.

Lemma populate_shows h i h' lookups shown :
  ready h -> i < total n loc ->
  populate_history_at_index h i = (h', lookups, shown) ->
  shows i h' lookups shown /\ ready h' /\ history_cursor h' = history_cursor h.
Proof.
  intros Hready Hi. unfold populate_history_at_index.
  pose proof Hready as (Ht & HL & Hn & Hl & Hcache). rewrite Hn, Hl.
  assert (lookup_at h i = [mkLookup thread i L]) as -> by (unfold lookup_at; by rewrite Ht, HL).
  unfold shows, entry_at. destruct (Nat.leb_spec n i).
  - destruct (lookup_lt_is_Some_2 loc (i - n)) as [e ->]; [unfold total in Hi; lia|].
    by intros [= <- <- <-].
  - destruct (fetched_history h !! i) as [e|] eqn:He; intros [= <- <- <-]; split_and!; try done.
    by apply Hcache.
Qed.

Lemma browsing_total h : ready h -> total_entries h = total n loc.
Proof. intros (_ & _ & Hn & Hl & _). unfold total_entries, total. by rewrite Hn, Hl. Qed.

(** Moving to an offset. *)
Lemma move_to h i :
  ready h -> i < total n loc ->
  exists h' lookups shown,
    populate_history_at_index (set_cursor (Some (Z.of_nat i)) (set_search None h)) i
    = (h', lookups, shown)
    /\ browsing h' (Some i) /\ shows i h' lookups shown.
Proof.
  intros Hready Hi.
  destruct (populate_history_at_index _ i) as [[h' lookups] shown] eqn:Hrun.
  apply populate_shows in Hrun as (Hs & Hr & Hcur); [|done..].
  exists h', lookups, shown. by split_and!.
Qed.

Lemma navigate_up_spec h c :
  browsing h c ->
  exists h' lookups shown,
    navigate_up h = (h', lookups, shown) /\ browsing h' (up c)
    /\ match up c with
       | Some i => if bool_decide (up c = c) then lookups = [] /\ shown = None
                   else shows i h' lookups shown
       | None => lookups = [] /\ shown = None
       end.
Proof.
  intros (Hready & Hcursor & Hc). unfold navigate_up, up.
  change (total_entries (set_search None h)) with (total_entries h).
  change (history_cursor (set_search None h)) with (history_cursor h).
  rewrite (browsing_total h Hready), Hcursor.
  destruct (Nat.eqb_spec (total n loc) 0) as [Hz|Hnz].
  - destruct c as [i|]; [lia|]. rewrite Hz. eexists _, _, _. by split_and!.
  - destruct c as [[|i]|]; cbn [fmap option_fmap option_map].
    + rewrite bool_decide_true by done. eexists _, _, _. by split_and!.
    + rewrite bool_decide_false by (intros [=]; lia).
      rewrite (proj2 (Z.eqb_neq _ _)) by lia. replace (Z.of_nat (S i) - 1)%Z with (Z.of_nat i) by lia.
      rewrite Nat2Z.id. apply move_to; [done|lia].
    + destruct (total n loc) as [|k] eqn:Ht; [done|]. rewrite bool_decide_false by done.
      replace (Z.of_nat (S k) - 1)%Z with (Z.of_nat k) by lia. rewrite Nat2Z.id.
      apply move_to; [done|lia].
Qed.

Lemma navigate_down_spec h c :
  browsing h c ->
  exists h' lookups shown,
    navigate_down h = (h', lookups, shown) /\ browsing h' (down c)
    /\ match down c with
       | Some i => shows i h' lookups shown
       | None => lookups = [] /\ shown = (if c is Some _ then Some (entry_new []) else None)
       end.
Proof.
  intros (Hready & Hcursor & Hc). unfold navigate_down, down.
  change (total_entries (set_search None h)) with (total_entries h).
  change (history_cursor (set_search None h)) with (history_cursor h).
  rewrite (browsing_total h Hready), Hcursor.
  destruct (Nat.eqb_spec (total n loc) 0) as [Hz|Hnz].
  - destruct c as [i|]; [lia|]. eexists _, _, _. by split_and!.
  - destruct c as [i|]; cbn [fmap option_fmap option_map]; [|eexists _, _, _; by split_and!].
    rewrite Nat2Z.id. destruct (Nat.leb_spec (total n loc) (i + 1)) as [Hge|Hlt].
    + rewrite (proj2 (Nat.ltb_ge _ _)) by lia. eexists _, _, _. by split_and!.
    + rewrite (proj2 (Nat.ltb_lt _ _)) by lia.
      replace (Z.of_nat i + 1)%Z with (Z.of_nat (S i)) by lia. rewrite Nat2Z.id.
      apply move_to; [done|lia].
Qed.

Lemma response_spec h c off :
  browsing h c -> search h = None ->
  exists h' r, on_entry_response to_lowercase h L off (log off) = (h', [], r)
    /\ browsing h' c
    /\ r = match entry_new <$> log off with
           | Some e => if bool_decide (c = Some off) then EntryFound e else Ignored
           | None => Ignored
           end.
Proof.
  intros (Hready & Hcursor & Hc) Hsearch. unfold on_entry_response.
  pose proof Hready as (Ht & HL & _). rewrite bool_decide_true by done. cbn [negb].
  assert (bool_decide (history_cursor h = Some (Z.of_nat off)) = bool_decide (c = Some off)) as Hb.
  { apply bool_decide_ext. rewrite Hcursor. destruct c; cbn; naive_solver lia. }
  destruct (entry_new <$> log off) as [e|] eqn:He.
  - cbn [search set_fetched]. rewrite Hsearch. cbn [mbind option_bind history_cursor set_fetched].
    rewrite Hb. pose proof (cache_ready thread L n loc log h off e Hready He) as Hready'.
    destruct (bool_decide (c = Some off)); eexists _, _; by split_and!.
  - rewrite Hsearch. cbn [mbind option_bind].
    destruct (bool_decide (history_cursor h = Some (Z.of_nat off))); eexists _, _; by split_and!.
Qed.

(** Browsing is a cursor too: Up and Down move it by one, from the draft to the
    oldest prompt and back, what is shown is the prompt it is on, which is asked
    for when it is not there, and an answer is shown only when it is the one for
    the cursor. *)
Theorem browsing_is_a_cursor h c :
  browsing h c ->
  (exists h' lookups shown,
     navigate_up h = (h', lookups, shown) /\ browsing h' (up c)
     /\ match up c with
        | Some i => if bool_decide (up c = c) then lookups = [] /\ shown = None
                    else shows i h' lookups shown
        | None => lookups = [] /\ shown = None
        end)
  /\ (exists h' lookups shown,
       navigate_down h = (h', lookups, shown) /\ browsing h' (down c)
       /\ match down c with
          | Some i => shows i h' lookups shown
          | None => lookups = [] /\ shown = (if c is Some _ then Some (entry_new []) else None)
          end)
  /\ forall off, search h = None ->
       exists h' r, on_entry_response to_lowercase h L off (log off) = (h', [], r)
         /\ browsing h' c
         /\ r = match entry_new <$> log off with
                | Some e => if bool_decide (c = Some off) then EntryFound e else Ignored
                | None => Ignored
                end.
Proof.
  intros Hb. split_and!; [by apply navigate_up_spec|by apply navigate_down_spec|].
  intros off. by apply response_spec.
Qed.

End Claims.

(** ** Histories *)

Lemma set_metadata_ready thread L n log h : ready thread L n [] log (set_metadata thread L n h).
Proof. by split_and!. Qed.

(** A prompt that is recorded leaves the history ready, with one more prompt or
    the same ones, and nothing browsed or searched. *)
Lemma record_ready thread L n loc log h entry :
  ready thread L n loc log h ->
  ready thread L n (local_history (record_local_submission entry h)) log
    (record_local_submission entry h).
Proof.
  intros (Ht & HL & Hn & Hl & Hcache). unfold record_local_submission.
  repeat case_match; by split_and!.
Qed.

(** ** Examples *)

(** Three prompts of earlier sessions, and one of this one. *)
Definition demo_log (i : nat) : option str :=
  ([ "fix a"; "make"; "fix a" ] : list str) !! i.

Definition demo_history : ChatComposerHistory :=
  record_local_submission (plain_entry "Fix b") (set_metadata "t" 7%N 3 new_history).

Lemma demo_ready : ready "t" 7%N 3 [plain_entry "Fix b"] demo_log demo_history.
Proof. apply (record_ready "t" 7%N 3 []), set_metadata_ready. Qed.

Lemma search_is_a_cursor_witness :
  exists h' lookups r trace,
    search_history to_ascii_lowercase demo_history "fix" Older true = Some (h', lookups, r)
    /\ run to_ascii_lowercase "fix" 7%N demo_log h'
         [Press Older; Stale 8 2 None; Press Newer; Answer 2; Press Older] = Some trace.
Proof.
  destruct (search_is_a_cursor to_ascii_lowercase "fix" "t" 7%N 3 [plain_entry "Fix b"] demo_log
    demo_history [Press Older; Stale 8 2 None; Press Newer; Answer 2; Press Older])
    as (h' & lookups & r & st & trace & Hsearch & _ & Hrun & _).
  - exact demo_ready.
  - intros log_id off e H. repeat (apply elem_of_cons in H as [H|H]; [congruence|]).
    by apply not_elem_of_nil in H.
  - by exists h', lookups, r, trace.
Defined.

(** The older prompt of the same text is skipped, and the end is reported. *)
Lemma searches_are_answered_witness :
  exists h0 lookups r h1,
    search_history to_ascii_lowercase demo_history "fix" Older true = Some (h0, lookups, r)
    /\ settle to_ascii_lowercase demo_log 3 h0 lookups r
       = Some (h1, SearchFound (plain_entry "Fix b"))
    /\ presses to_ascii_lowercase "fix" 3 demo_log h1 [Older; Older; Newer; Newer]
       = Some [SearchFound (plain_entry "fix a"); AtBoundary; SearchFound (plain_entry "Fix b");
               AtBoundary].
Proof.
  destruct (searches_are_answered to_ascii_lowercase "fix" "t" 7%N 3 [plain_entry "Fix b"] demo_log
    demo_history [Older; Older; Newer; Newer] demo_ready)
    as (h0 & lookups & r & h1 & Hsearch & Hsettle & Hpresses).
  exists h0, lookups, r, h1. split_and!; [exact Hsearch|exact Hsettle|exact Hpresses].
Defined.
