(* ===== verification/TableHoldback.v ===== *)
(** * Tables in a text that is still being written

    [codex-rs/tui/src/table_detect.rs] (what is a row of a table, and which
    lines are in a fenced block) and [streaming/table_holdback.rs]: a row of a
    table may change the layout of all the rows before it, so a table is held
    back until the text ends. The scanner reads the text line by line as it is
    committed; [table_holdback_state], which reads a whole text, is the
    reference the source tests it against. The theorem states that they agree
    however the text was cut into lines. *)

From S2P Require Import Prelude RustStr ByteStr.
Open Scope str_scope.

Definition PIPE : char := 124%N.
Definition BACKSLASH : char := 92%N.
Definition COLON : char := 58%N.
Definition DASH : char := 45%N.
Definition BACKTICK : char := 96%N.
Definition TILDE : char := 126%N.
Definition GREATER : char := 62%N.

(** ** table_detect.rs *)

Definition strip_prefix_or_self (p s : str) : str := default s (strip_prefix p s).
Definition strip_suffix_or_self (p s : str) : str := default s (strip_suffix p s).

(** The bytes that are looked for are ASCII, and no slice is cut after the
    byte skipped by a backslash, so this reads characters. *)
Fixpoint split_unescaped_pipe (content : str) : list str :=
  match content with
  | [] => [[]]
  | c :: rest =>
      let push l := match l with
                    | [] => [[c]]
                    | p :: ps => (c :: p) :: ps
                    end in
      if (c =? BACKSLASH)%N then
        match rest with
        | [] => [[c]]
        | d :: rest => match split_unescaped_pipe rest with
                       | [] => [[c; d]]
                       | p :: ps => (c :: d :: p) :: ps
                       end
        end
      else if (c =? PIPE)%N then [] :: split_unescaped_pipe rest
      else push (split_unescaped_pipe rest)
  end.

Definition parse_table_segments (line : str) : option (list str) :=
  let trimmed := trim line in
  if is_empty trimmed then None
  else
    let has_outer_pipe := starts_with trimmed [PIPE] || ends_with trimmed [PIPE] in
    let content := strip_prefix_or_self [PIPE] trimmed in
    let content := strip_suffix_or_self [PIPE] content in
    let raw_segments := split_unescaped_pipe content in
    if negb has_outer_pipe && (length raw_segments <=? 1) then None
    else
      let segments := map trim raw_segments in
      if is_empty segments then None else Some segments.

Definition is_table_header_line (line : str) : bool :=
  match parse_table_segments line with
  | Some segments => existsb (fun s => negb (is_empty s)) segments
  | None => false
  end.

Definition is_table_delimiter_segment (segment : str) : bool :=
  let trimmed := trim segment in
  if is_empty trimmed then false
  else
    let without_leading := strip_prefix_or_self [COLON] trimmed in
    let without_ends := strip_suffix_or_self [COLON] without_leading in
    (3 <=? byte_len without_ends) && forallb (N.eqb DASH) without_ends.

Definition is_table_delimiter_line (line : str) : bool :=
  match parse_table_segments line with
  | Some segments => forallb is_table_delimiter_segment segments
  | None => false
  end.

Inductive FenceKind := Outside | Markdown | Other.

#[export] Instance FenceKind_eq_dec : EqDecision FenceKind.
Proof. solve_decision. Defined.

(** The marker, its length and the kind of the fence that is open. *)
Definition FenceTracker : Type := option (char * nat * FenceKind).

Definition kind (tracker : FenceTracker) : FenceKind :=
  match tracker with Some (_, _, k) => k | None => Outside end.

(** Each round strips a character. *)
Fixpoint strip_blockquote_loop (fuel : nat) (rest : str) : str :=
  match fuel with
  | 0 => rest
  | S fuel =>
      match strip_prefix [GREATER] rest with
      | None => rest
      | Some stripped =>
          strip_blockquote_loop fuel (trim_start (strip_prefix_or_self [SPACE] stripped))
      end
  end.
Definition strip_blockquote_prefix (line : str) : str :=
  strip_blockquote_loop (length line) (trim_start line).

Definition parse_fence_marker (line : str) : option (char * nat) :=
  match line with
  | [] => None
  | first :: _ =>
      if negb (first =? BACKTICK)%N && negb (first =? TILDE)%N then None
      else
        let len := length (take_while (N.eqb first) line) in
        if len <? 3 then None else Some (first, len)
  end.

(** [s.split_whitespace().next().unwrap_or_default()] *)
Definition first_word (s : str) : str :=
  take_while (fun c => negb (is_whitespace c)) (trim_start s).

(** The marker is ASCII: its length in bytes is its number of characters. *)
Definition is_markdown_fence_info (trimmed_line : str) (marker_len : nat) : bool :=
  let info := to_ascii_lowercase (first_word (drop marker_len trimmed_line)) in
  bool_decide (info = "md") || bool_decide (info = "markdown").

Definition advance (tracker : FenceTracker) (raw_line : str) : FenceTracker :=
  let leading_spaces := length (take_while (N.eqb SPACE) raw_line) in
  if 3 <? leading_spaces then tracker
  else
    let fence_scan_text := strip_blockquote_prefix (drop leading_spaces raw_line) in
    match parse_fence_marker fence_scan_text with
    | None => tracker
    | Some (marker, len) =>
        match tracker with
        | Some (open_char, open_len, _) =>
            if (marker =? open_char)%N && (open_len <=? len)
               && is_empty (trim (drop len fence_scan_text))
            then None else tracker
        | None =>
            Some (marker, len, if is_markdown_fence_info fence_scan_text len then Markdown else Other)
        end
    end.

(** ** table_holdback.rs *)

Inductive TableHoldbackState :=
| NoTable
| PendingHeader (header_start : nat)
| Confirmed (table_start : nat).

Record PreviousLineState := mkPrevious {
  previous_source_start : nat;
  previous_fence_kind : FenceKind;
  previous_is_header : bool;
}.

Record TableHoldbackScanner := mkScanner {
  source_offset : nat;
  fence_tracker : FenceTracker;
  previous_line : option PreviousLineState;
  pending_header_start : option nat;
  confirmed_table_start : option nat;
}.

Definition new_scanner : TableHoldbackScanner := mkScanner 0 None None None None.

Definition scanner_state (s : TableHoldbackScanner) : TableHoldbackState :=
  match confirmed_table_start s with
  | Some start => Confirmed start
  | None => match pending_header_start s with
            | Some start => PendingHeader start
            | None => NoTable
            end
  end.

Definition table_candidate_text (line : str) : option str :=
  let stripped := trim (strip_blockquote_prefix line) in
  match parse_table_segments stripped with Some _ => Some stripped | None => None end.

Definition in_code (k : FenceKind) : bool := bool_decide (k = Other).

Definition is_some_and {A} (f : A -> bool) (o : option A) : bool :=
  match o with Some x => f x | None => false end.

Definition push_line (s : TableHoldbackScanner) (source_line : str) : TableHoldbackScanner :=
  let line := strip_suffix_or_self [NL] source_line in
  let source_start := source_offset s in
  let fence_kind := kind (fence_tracker s) in
  let candidate_text := if in_code fence_kind then None else table_candidate_text line in
  let is_header := is_some_and is_table_header_line candidate_text in
  let is_delimiter := is_some_and is_table_delimiter_line candidate_text in
  let '(confirmed, pending) :=
    match confirmed_table_start s, previous_line s with
    | None, Some previous =>
        if negb (in_code (previous_fence_kind previous)) && negb (in_code fence_kind)
           && previous_is_header previous && is_delimiter
        then (Some (previous_source_start previous), None)
        else (None, pending_header_start s)
    | confirmed, _ => (confirmed, pending_header_start s)
    end in
  let pending :=
    match confirmed with
    | None => if is_empty (trim line) then pending
              else if negb (in_code fence_kind) && is_header then Some source_start else None
    | Some _ => pending
    end in
  mkScanner (source_offset s + byte_len source_line) (advance (fence_tracker s) line)
    (Some (mkPrevious source_start fence_kind is_header)) pending confirmed.

Definition push_source_chunk (s : TableHoldbackScanner) (source_chunk : str)
    : TableHoldbackScanner :=
  fold_left push_line (split_inclusive NL source_chunk) s.

(** ** The reference *)

Record ParsedLine := mkParsed { line_text : str; fence_context : FenceKind; line_start : nat }.

(** [parse_lines_with_fence_state], from a tracker and an offset. *)
Fixpoint parse_lines (tracker : FenceTracker) (source_start : nat) (lines : list str)
    : list ParsedLine :=
  match lines with
  | [] => []
  | raw_line :: lines =>
      mkParsed raw_line (kind tracker) source_start
      :: parse_lines (advance tracker raw_line) (source_start + byte_len raw_line + 1) lines
  end.
Definition parse_lines_with_fence_state (source : str) : list ParsedLine :=
  parse_lines None 0 (split NL source).

(** Whether two lines are the header and the delimiter of a table. *)
Definition header_then_delimiter (header_line delimiter_line : ParsedLine) : bool :=
  negb (in_code (fence_context header_line)) && negb (in_code (fence_context delimiter_line))
  && is_some_and is_table_header_line (table_candidate_text (line_text header_line))
  && is_some_and is_table_delimiter_line (table_candidate_text (line_text delimiter_line)).

Fixpoint first_table (lines : list ParsedLine) : option nat :=
  match lines with
  | header_line :: (delimiter_line :: _) as rest =>
      if header_then_delimiter header_line delimiter_line then Some (line_start header_line)
      else first_table rest
  | _ => None
  end.

Definition table_holdback_state (source : str) : TableHoldbackState :=
  let lines := parse_lines_with_fence_state source in
  match first_table lines with
  | Some start => Confirmed start
  | None =>
      match List.find (fun line => negb (is_empty (trim (line_text line)))) (rev lines) with
      | Some line =>
          if negb (in_code (fence_context line))
             && is_some_and is_table_header_line (table_candidate_text (line_text line))
          then PendingHeader (line_start line) else NoTable
      | None => NoTable
      end
  end.


(** ** Lines *)

(** A text that ends where a line ends. *)
Definition line_end (s : str) : Prop := s = [] \/ exists t, s = t ++ [NL].

Lemma split_inclusive_app a b :
  line_end a -> split_inclusive NL (a ++ b) = split_inclusive NL a ++ split_inclusive NL b.
Proof.
  intros [->|[t ->]]; [done|]. induction t as [|c t IH]; cbn; [done|].
  destruct (c =? NL)%N; [by rewrite IH|]. rewrite IH.
  destruct (split_inclusive NL (t ++ [NL])) eqn:E; [|done].
  destruct t as [|d t]; cbn in E; [done|]. by destruct (d =? NL)%N, (split_inclusive NL (t ++ [NL])).
Qed.

Lemma line_end_app a b : line_end a -> line_end b -> line_end (a ++ b).
Proof.
  intros Ha [->|[t ->]]; [by rewrite app_nil_r|]. right. exists (a ++ t). by rewrite app_assoc.
Qed.

Definition piece_line (piece : str) : str := strip_suffix_or_self [NL] piece.

Lemma piece_line_nl s : piece_line (s ++ [NL]) = s.
Proof.
  unfold piece_line, strip_suffix_or_self.
  by rewrite (proj2 (strip_suffix_Some [NL] (s ++ [NL]) s) eq_refl).
Qed.

Lemma piece_line_cons c p : p <> [] -> piece_line (c :: p) = c :: piece_line p.
Proof.
  intros Hp. destruct p as [|d p] using rev_ind; [done|].
  destruct (decide (d = NL)) as [->|Hd].
  - by rewrite (app_comm_cons p [NL] c), !piece_line_nl.
  - unfold piece_line, strip_suffix_or_self.
    by rewrite app_comm_cons, !strip_suffix_None_snoc.
Qed.

Lemma split_inclusive_nonempty c s : Forall (fun p => p <> []) (split_inclusive c s).
Proof.
  induction s as [|x s IH]; cbn; [constructor|]. destruct (x =? c)%N; [by constructor|].
  destruct (split_inclusive c s); constructor; [done|constructor|done|]. by inversion IH.
Qed.

(** The lines of a text are its pieces without their ends; a text that ends
    with a newline, or is empty, has one more, which is empty. *)
Lemma split_pieces s :
  split NL s = map piece_line (split_inclusive NL s)
               ++ (if (default NL (last s) =? NL)%N then [[]] else []).
Proof.
  induction s as [|c s IH]; [done|]. cbn [split split_inclusive].
  destruct (N.eqb_spec c NL) as [->|Hc].
  - rewrite IH. cbn. f_equal. by destruct s.
  - destruct s as [|d s].
    + cbn [split split_inclusive map app last default]. cbn [from_option id]. rewrite (proj2 (N.eqb_neq _ _) Hc). unfold piece_line, strip_suffix_or_self.
      by rewrite (strip_suffix_None_snoc NL [] c Hc : strip_suffix [NL] [c] = None).
    + rewrite IH. change (last (c :: d :: s)) with (last (d :: s)).
      destruct (split_inclusive NL (d :: s)) as [|p ps] eqn:E.
      { cbn in E. by destruct (d =? NL)%N, (split_inclusive NL s). }
      cbn [map app]. pose proof (split_inclusive_nonempty NL (d :: s)) as Hne. rewrite E in Hne.
      inversion Hne. by rewrite piece_line_cons.
Qed.

(** Every piece but the last ends with a newline. *)
Lemma split_inclusive_ends s ps p : split_inclusive NL s = ps ++ [p] -> Forall (fun x => last x = Some NL) ps.
Proof.
  revert ps p. induction s as [|c s IH]; intros ps p; cbn; [by destruct ps|].
  destruct (N.eqb_spec c NL) as [->|Hc].
  - destruct ps as [|x ps]; [constructor|]. intros [= <- H]. constructor; [done|by eapply IH].
  - destruct (split_inclusive NL s) as [|x xs] eqn:E; [by destruct ps as [|? []]|].
    destruct ps as [|y ps]; [constructor|]. intros [= <- H].
    pose proof (IH (x :: ps) p) as Hps. rewrite H in Hps. specialize (Hps eq_refl).
    inversion Hps as [|? ? Hx Hrest]; subst. constructor; [|done].
    destruct x; [done|]. done.
Qed.

(** ** The scanner agrees with the reference *)

Definition is_header_line (l : ParsedLine) : bool :=
  negb (in_code (fence_context l))
  && is_some_and is_table_header_line (table_candidate_text (line_text l)).

Lemma first_table_snoc lines x :
  first_table (lines ++ [x])
  = match first_table lines with
    | Some start => Some start
    | None => match last lines with
              | Some y => if header_then_delimiter y x then Some (line_start y) else None
              | None => None
              end
    end.
Proof.
  induction lines as [|y lines IH]; [done|].
  destruct lines as [|z lines]; [done|].
  change ((y :: z :: lines) ++ [x]) with (y :: (z :: lines) ++ [x]).
  cbn [first_table] in IH |- *. cbn [app] in IH |- *.
  destruct (header_then_delimiter y z); [done|]. exact IH.
Qed.

Definition line_length (line : str) : nat := byte_len line + 1.

Lemma parse_lines_snoc tracker start lines x :
  parse_lines tracker start (lines ++ [x])
  = parse_lines tracker start lines
    ++ [mkParsed x (kind (fold_left advance lines tracker))
          (start + sum_list_with line_length lines)].
Proof.
  revert tracker start. induction lines as [|y lines IH]; intros tracker start; cbn.
  - by rewrite Nat.add_0_r.
  - rewrite IH. cbn [fold_left app]. do 4 f_equal. unfold line_length at 2. lia.
Qed.

Definition nonblank (l : ParsedLine) : bool := negb (is_empty (trim (line_text l))).

Definition pending_of (lines : list ParsedLine) : option nat :=
  match List.find nonblank (rev lines) with
  | Some l => if is_header_line l then Some (line_start l) else None
  | None => None
  end.

Definition previous_of (l : ParsedLine) : PreviousLineState :=
  mkPrevious (line_start l) (fence_context l) (is_header_line l).

(** What the scanner remembers of the lines it read. *)
Record scanned (s : TableHoldbackScanner) (pieces : list str) : Prop := {
  sc_offset : source_offset s = sum_list_with byte_len pieces;
  sc_tracker : fence_tracker s = fold_left advance (map piece_line pieces) None;
  sc_previous : previous_line s = previous_of <$> last (parse_lines None 0 (map piece_line pieces));
  sc_confirmed : confirmed_table_start s = first_table (parse_lines None 0 (map piece_line pieces));
  sc_pending : confirmed_table_start s = None ->
    pending_header_start s = pending_of (parse_lines None 0 (map piece_line pieces));
}.

Lemma piece_lengths pieces :
  Forall (fun x => last x = Some NL) pieces ->
  sum_list_with line_length (map piece_line pieces) = sum_list_with byte_len pieces.
Proof.
  induction 1 as [|p pieces Hp _ IH]; [done|]. cbn [map sum_list_with]. rewrite IH. f_equal.
  apply last_Some in Hp as [t ->]. rewrite piece_line_nl. unfold line_length.
  by rewrite byte_len_app.
Qed.

(** What one more line confirms. *)
Lemma first_table_push parsed x :
  first_table (parsed ++ [x])
  = match first_table parsed, previous_of <$> last parsed with
    | None, Some previous =>
        if negb (in_code (previous_fence_kind previous)) && negb (in_code (fence_context x))
           && previous_is_header previous
           && is_some_and is_table_delimiter_line
                (if in_code (fence_context x) then None else table_candidate_text (line_text x))
        then Some (previous_source_start previous) else None
    | confirmed, _ => confirmed
    end.
Proof.
  rewrite first_table_snoc. destruct (first_table parsed); [done|].
  destruct (last parsed) as [y|]; [|done]. cbn. unfold header_then_delimiter, is_header_line.
  cbn. destruct (in_code (fence_context y)), (in_code (fence_context x)); cbn; try done.
  all: by destruct (is_some_and _ _).
Qed.

Lemma push_line_scanned s pieces p :
  Forall (fun x => last x = Some NL) pieces ->
  scanned s pieces -> scanned (push_line s p) (pieces ++ [p]).
Proof.
  intros Hends [Hoff Htr Hprev Hconf Hpend].
  set (parsed := parse_lines None 0 (map piece_line pieces)) in *.
  set (x := mkParsed (piece_line p) (kind (fence_tracker s)) (source_offset s)).
  assert (parse_lines None 0 (map piece_line (pieces ++ [p])) = parsed ++ [x]) as Hparsed.
  { rewrite map_app. cbn [map]. rewrite parse_lines_snoc, piece_lengths by done.
    unfold x. by rewrite Hoff, Htr. }
  assert (is_some_and is_table_header_line
            (if in_code (kind (fence_tracker s)) then None else table_candidate_text (piece_line p))
          = is_header_line x) as Hx
    by (unfold is_header_line; cbn; by destruct (in_code _)).
  pose proof (first_table_push parsed x) as Hft. rewrite <- Hconf, <- Hprev in Hft.
  cbn [fence_context line_text x] in Hft.
  unfold push_line. fold (piece_line p). rewrite Hx.
  assert (forall cp : option nat * option nat,
    fst cp = first_table (parsed ++ [x]) ->
    (fst cp = None -> pending_of parsed = snd cp) ->
    scanned (let '(confirmed, pending) := cp in
      mkScanner (source_offset s + byte_len p) (advance (fence_tracker s) (piece_line p))
        (Some (mkPrevious (source_offset s) (kind (fence_tracker s)) (is_header_line x)))
        (match confirmed with
         | None => if is_empty (trim (piece_line p)) then pending
                   else if negb (in_code (kind (fence_tracker s))) && is_header_line x
                        then Some (source_offset s) else None
         | Some _ => pending
         end) confirmed) (pieces ++ [p])) as Hgo.
  { intros [confirmed pending] Hc Hp. cbn [fst snd] in *. constructor; rewrite ?Hparsed;
      cbn [source_offset fence_tracker previous_line confirmed_table_start pending_header_start].
    - by rewrite Hoff, sum_list_with_app; cbn; rewrite Nat.add_0_r.
    - by rewrite Htr, map_app, fold_left_app.
    - by rewrite last_snoc.
    - done.
    - intros Hnone. rewrite Hnone in *. unfold pending_of. rewrite rev_unit. cbn [List.find].
      unfold nonblank at 1. cbn [line_text x].
      destruct (is_empty (trim (piece_line p))); cbn [negb]; [symmetry; by apply Hp|].
      unfold is_header_line. cbn [fence_context x]. by destruct (in_code _). }
  destruct (confirmed_table_start s) as [c|] eqn:Hcs;
    [by apply (Hgo (Some c, pending_header_start s))|].
  specialize (Hpend eq_refl).
  destruct (previous_line s) as [previous|] eqn:Hps;
    [|by apply (Hgo (None, pending_header_start s))].
  destruct (negb _ && _ && _ && _) eqn:Hb.
  - by apply (Hgo (Some (previous_source_start previous), None)).
  - by apply (Hgo (None, pending_header_start s)).
Qed.

Lemma fold_push_scanned pieces p :
  Forall (fun x => last x = Some NL) pieces ->
  scanned (fold_left push_line pieces new_scanner) pieces
  /\ scanned (fold_left push_line (pieces ++ [p]) new_scanner) (pieces ++ [p]).
Proof.
  intros Hends.
  assert (scanned (fold_left push_line pieces new_scanner) pieces) as Hs.
  { induction pieces as [|x pieces IH] using rev_ind; [by constructor|].
    apply Forall_app in Hends as [Hends _]. rewrite fold_left_app.
    apply push_line_scanned; [done|by apply IH]. }
  split; [done|]. rewrite fold_left_app. by apply push_line_scanned.
Qed.

(** A blank line at the end changes nothing. *)
Lemma blank_last lines x :
  line_text x = [] ->
  first_table (lines ++ [x]) = first_table lines /\ pending_of (lines ++ [x]) = pending_of lines.
Proof.
  intros Hx. split.
  - rewrite first_table_snoc. destruct (first_table lines); [done|].
    destruct (last lines); [|done]. unfold header_then_delimiter. rewrite Hx.
    cbn. by rewrite andb_false_r.
  - unfold pending_of. rewrite rev_unit. cbn [List.find]. unfold nonblank at 1. by rewrite Hx.
Qed.

Lemma holdback_alt source :
  table_holdback_state source
  = let parsed := parse_lines None 0 (map piece_line (split_inclusive NL source)) in
    match first_table parsed with
    | Some start => Confirmed start
    | None => match pending_of parsed with Some start => PendingHeader start | None => NoTable end
    end.
Proof.
  unfold table_holdback_state, parse_lines_with_fence_state. rewrite split_pieces.
  set (lines := map piece_line (split_inclusive NL source)). cbv zeta.
  assert (forall parsed,
    match List.find (fun line => negb (is_empty (trim (line_text line)))) (rev parsed) with
    | Some line =>
        if negb (in_code (fence_context line))
           && is_some_and is_table_header_line (table_candidate_text (line_text line))
        then PendingHeader (line_start line) else NoTable
    | None => NoTable
    end = match pending_of parsed with Some start => PendingHeader start | None => NoTable end) as Hp.
  { intros parsed. unfold pending_of. fold nonblank. destruct (List.find _ _) as [l|]; [|done].
    fold (is_header_line l). by destruct (is_header_line l). }
  rewrite Hp. destruct (default NL (last source) =? NL)%N; [|by rewrite app_nil_r].
  rewrite parse_lines_snoc.
  destruct (blank_last (parse_lines None 0 lines)
    (mkParsed [] (kind (fold_left advance lines None)) (0 + sum_list_with line_length lines)) eq_refl)
    as [-> ->]. done.
Qed.

(** Read in chunks that end where lines end (the last one may not), the scanner
    holds back what the reference holds back of the whole text. *)
Theorem scanner_agrees chunks chunk :
  Forall line_end chunks ->
  scanner_state (fold_left push_source_chunk (chunks ++ [chunk]) new_scanner)
  = table_holdback_state (concat chunks ++ chunk).
Proof.
  intros Hends.
  assert (line_end (concat chunks)) as Hend.
  { induction Hends; cbn; [by left|]. by apply line_end_app. }
  assert (forall s, fold_left push_source_chunk (chunks ++ [chunk]) s
                    = fold_left push_line (split_inclusive NL (concat chunks ++ chunk)) s) as Hfold.
  { clear Hend. induction Hends as [|c chunks Hc Hcs IH]; intros s; cbn; [done|].
    rewrite IH. cbn in *. rewrite <- app_assoc, (split_inclusive_app c) by done.
    by rewrite fold_left_app. }
  rewrite Hfold, holdback_alt. set (source := concat chunks ++ chunk).
  assert (scanned (fold_left push_line (split_inclusive NL source) new_scanner)
            (split_inclusive NL source)) as [_ _ _ Hc Hp].
  { destruct (split_inclusive NL source) as [|p ps] eqn:E using rev_ind; [by constructor|].
    apply split_inclusive_ends in E. by apply fold_push_scanned. }
  unfold scanner_state. cbv zeta. rewrite <- Hc.
  destruct (confirmed_table_start _); [done|]. by rewrite Hp.
Qed.


(** ** What is held back begins where a line of the text begins *)

Lemma concat_pieces s : concat (split_inclusive NL s) = s.
Proof.
  induction s as [|c s IH]; cbn; [done|]. destruct (c =? NL)%N; cbn; [by rewrite IH|].
  destruct (split_inclusive NL s) as [|p ps]; cbn in *; by rewrite <- IH.
Qed.

Lemma parse_lines_start pieces rest l :
  Forall (fun x => last x = Some NL) (removelast pieces) ->
  l ∈ parse_lines None 0 (map piece_line pieces) ->
  at_boundary (concat pieces ++ rest) (line_start l).
Proof.
  revert rest. induction pieces as [|p pieces IH] using rev_ind; intros rest Hends Hl;
    [by apply not_elem_of_nil in Hl|].
  rewrite removelast_last in Hends.
  rewrite map_app in Hl. cbn [map] in Hl. rewrite parse_lines_snoc in Hl.
  rewrite concat_app. cbn [concat]. rewrite <- !app_assoc.
  apply elem_of_app in Hl as [Hl|Hl].
  - apply IH; [|done]. destruct pieces as [|x pieces] using rev_ind; [constructor|].
    rewrite removelast_last. by apply Forall_app in Hends as [Hends _].
  - apply list_elem_of_singleton in Hl as ->. cbn [line_start].
    rewrite piece_lengths by done. exists (concat pieces), (p ++ [] ++ rest). split; [done|].
    clear. induction pieces as [|x pieces IH]; [done|]. cbn. by rewrite byte_len_app, IH.
Qed.

Lemma first_table_elem lines start :
  first_table lines = Some start -> exists l, l ∈ lines /\ line_start l = start.
Proof.
  induction lines as [|x lines IH]; [done|]. cbn. destruct lines as [|y lines]; [done|].
  destruct (header_then_delimiter x y); [intros [= <-]; exists x; by split; [left|]|].
  intros (l & Hl & H)%IH. exists l. by split; [right|].
Qed.

Definition held_from (state : TableHoldbackState) : option nat :=
  match state with
  | Confirmed start | PendingHeader start => Some start
  | NoTable => None
  end.

Lemma held_from_boundary source start :
  held_from (table_holdback_state source) = Some start -> at_boundary source start.
Proof.
  rewrite holdback_alt. cbv zeta. intros H.
  assert (exists l, l ∈ parse_lines None 0 (map piece_line (split_inclusive NL source))
                    /\ line_start l = start) as (l & Hl & <-).
  { destruct (first_table _) as [s|] eqn:Hf; cbn in H.
    - injection H as <-. by apply first_table_elem.
    - destruct (pending_of _) as [s|] eqn:Hp; [|done]. injection H as <-.
      unfold pending_of in Hp. destruct (List.find _ _) as [l|] eqn:Hfind; [|done].
      destruct (is_header_line l); [|done]. injection Hp as <-. exists l. split; [|done].
      apply find_some in Hfind as [Hin _]. apply list_elem_of_In. by apply in_rev. }
  rewrite <- (concat_pieces source) at 1. rewrite <- (app_nil_r (concat _)).
  apply parse_lines_start; [|done].
  destruct (split_inclusive NL source) as [|p ps] eqn:E using rev_ind; [constructor|].
  rewrite removelast_last. by apply split_inclusive_ends in E.
Qed.

(** ** Examples *)

Definition text_of (lines : list str) : str := concat (map (fun l => l ++ [NL]) lines).

Example table_tests :
  split_unescaped_pipe "A \| B | C" = ["A \| B "; " C"]
  /\ is_table_delimiter_line "|:---:|---:|" = true
  /\ is_table_delimiter_line "| -- | -- |" = false
  /\ table_holdback_state (text_of ["intro"; "> | A | B |"; "> | --- | --- |"]) = Confirmed 6
  /\ table_holdback_state (text_of ["intro"; "A | B"; ""]) = PendingHeader 6
  /\ table_holdback_state (text_of ["```sh"; "a | b"; "--- | ---"; "```"]) = NoTable.
Proof. split_and!; vm_compute; reflexivity. Qed.
