(* ===== verification/StreamCore.v ===== *)
(** * The answer as it is shown while it is written

    [codex-rs/tui/src/markdown_stream.rs] (the source is committed line by
    line), [streaming/mod.rs] (the queue of lines) and the core of
    [streaming/controller.rs]: the source is rendered again whenever lines are
    committed, the lines that will not change any more are queued, ticks emit
    them from the queue, and the rest ([TableHoldback]) stays a tail that may
    still change. The renderer of Markdown, which is large and built on a
    third-party parser, is an argument; so is the clock. Offsets into the source
    are bytes, and a slice out of range or inside a character is a panic
    ([None]). The theorems state that nothing panics whatever the renderer does,
    and that every line of the answer is shown once and in order: a line that is
    emitted is the line of its number in a rendering of a part of the answer,
    and finalizing returns the lines from the first one not emitted on. *)

From S2P Require Import Prelude RustStr ByteStr TableHoldback.
Open Scope str_scope.

(** ** markdown_stream.rs *)

Record MarkdownStreamCollector := mkCollector { buffer : str; committed_source_len : nat }.

Definition new_collector : MarkdownStreamCollector := mkCollector [] 0.

Definition collector_push (c : MarkdownStreamCollector) (delta : str) : MarkdownStreamCollector :=
  mkCollector (buffer c ++ delta) (committed_source_len c).

Definition commit_complete_source (c : MarkdownStreamCollector)
    : option (MarkdownStreamCollector * option str) :=
  match rfind (N.eqb NL) (buffer c) with
  | None => Some (c, None)
  | Some idx =>
      let commit_end := idx + 1 in
      if commit_end <=? committed_source_len c then Some (c, None)
      else
        out ← slice (buffer c) (committed_source_len c) commit_end;
        Some (mkCollector (buffer c) commit_end, Some out)
  end.

Definition finalize_and_drain_source (c : MarkdownStreamCollector)
    : option (MarkdownStreamCollector * str) :=
  if byte_len (buffer c) <=? committed_source_len c then Some (new_collector, [])
  else
    out ← slice_from (buffer c) (committed_source_len c);
    Some (new_collector, if ends_with out [NL] then out else out ++ [NL]).

(** ** mod.rs and controller.rs *)

Inductive HistoryRenderMode := Rich | Raw.

#[export] Instance HistoryRenderMode_eq_dec : EqDecision HistoryRenderMode.
Proof. solve_decision. Defined.

Record StablePrefixLenCache := mkCache {
  source_start : nat; cache_width : option nat; stable_prefix_len : nat }.

Section Core.
Context {Line : Type} (line_of : str -> Line) (render_rich : option nat -> str -> list Line).

Record QueuedLine := mkQueued { line : Line; enqueued_at : N }.

Record StreamState := mkState {
  collector : MarkdownStreamCollector;
  queued_lines : list QueuedLine;
  has_seen_delta : bool;
}.

Definition set_collector (c : MarkdownStreamCollector) (s : StreamState) : StreamState :=
  mkState c (queued_lines s) (has_seen_delta s).
Definition set_queue (q : list QueuedLine) (s : StreamState) : StreamState :=
  mkState (collector s) q (has_seen_delta s).

Definition new_state : StreamState := mkState new_collector [] false.
Definition state_clear (s : StreamState) : StreamState := mkState new_collector [] false.
Definition state_step (s : StreamState) : StreamState * list Line :=
  match queued_lines s with
  | [] => (s, [])
  | queued :: rest => (set_queue rest s, [line queued])
  end.
Definition drain_n (max_lines : nat) (s : StreamState) : StreamState * list Line :=
  let end_ := Nat.min max_lines (length (queued_lines s)) in
  (set_queue (drop end_ (queued_lines s)) s, map line (take end_ (queued_lines s))).
Definition clear_queue (s : StreamState) : StreamState := set_queue [] s.
Definition queued_len (s : StreamState) : nat := length (queued_lines s).
Definition oldest_queued_age (now : N) (s : StreamState) : option N :=
  (fun queued => (now - enqueued_at queued)%N) <$> head (queued_lines s).
Definition enqueue (now : N) (lines : list Line) (s : StreamState) : StreamState :=
  set_queue (queued_lines s ++ map (fun l => mkQueued l now) lines) s.

Record StreamCore := mkCore {
  state : StreamState;
  width : option nat;
  raw_source : str;
  rendered_lines : list Line;
  enqueued_stable_len : nat;
  emitted_stable_len : nat;
  render_mode : HistoryRenderMode;
  stable_prefix_len_cache : option StablePrefixLenCache;
  holdback_scanner : TableHoldbackScanner;
}.

Definition new_core (width : option nat) (mode : HistoryRenderMode) : StreamCore :=
  mkCore new_state width [] [] 0 0 mode None new_scanner.

Definition set_state (s : StreamState) (c : StreamCore) : StreamCore :=
  mkCore s (width c) (raw_source c) (rendered_lines c) (enqueued_stable_len c)
    (emitted_stable_len c) (render_mode c) (stable_prefix_len_cache c) (holdback_scanner c).
Definition set_source (source : str) (scanner : TableHoldbackScanner) (c : StreamCore) : StreamCore :=
  mkCore (state c) (width c) source (rendered_lines c) (enqueued_stable_len c)
    (emitted_stable_len c) (render_mode c) (stable_prefix_len_cache c) scanner.
Definition set_rendered (l : list Line) (c : StreamCore) : StreamCore :=
  mkCore (state c) (width c) (raw_source c) l (enqueued_stable_len c)
    (emitted_stable_len c) (render_mode c) (stable_prefix_len_cache c) (holdback_scanner c).
Definition set_enqueued (n : nat) (c : StreamCore) : StreamCore :=
  mkCore (state c) (width c) (raw_source c) (rendered_lines c) n
    (emitted_stable_len c) (render_mode c) (stable_prefix_len_cache c) (holdback_scanner c).
Definition set_emitted (n : nat) (c : StreamCore) : StreamCore :=
  mkCore (state c) (width c) (raw_source c) (rendered_lines c) (enqueued_stable_len c)
    n (render_mode c) (stable_prefix_len_cache c) (holdback_scanner c).
Definition set_cache (cache : option StablePrefixLenCache) (c : StreamCore) : StreamCore :=
  mkCore (state c) (width c) (raw_source c) (rendered_lines c) (enqueued_stable_len c)
    (emitted_stable_len c) (render_mode c) cache (holdback_scanner c).
Definition set_layout (w : option nat) (mode : HistoryRenderMode) (s : StreamState) (c : StreamCore)
    : StreamCore :=
  mkCore s w (raw_source c) (rendered_lines c) (enqueued_stable_len c)
    (emitted_stable_len c) mode (stable_prefix_len_cache c) (holdback_scanner c).

(** [history_cell/mod.rs] *)
Definition raw_lines_from_source (source : str) : list Line :=
  if is_empty source then []
  else
    let parts := split NL source in
    map line_of (if ends_with source [NL] then removelast parts else parts).

Definition render_source (w : option nat) (mode : HistoryRenderMode) (source : str) : list Line :=
  match mode with Rich => render_rich w source | Raw => raw_lines_from_source source end.

Definition recompute_streaming_render (c : StreamCore) : StreamCore :=
  set_rendered (render_source (width c) (render_mode c) (raw_source c)) c.

(** [v[a..b]] of a vector *)
Definition vec_slice {A} (a b : nat) (l : list A) : option (list A) :=
  if (a <=? b) && (b <=? length l) then Some (take (b - a) (drop a l)) else None.

Definition has_tail (c : StreamCore) : bool := enqueued_stable_len c <? length (rendered_lines c).

Definition current_tail_lines (c : StreamCore) : list Line :=
  drop (Nat.min (enqueued_stable_len c) (length (rendered_lines c))) (rendered_lines c).

Definition cache_hit (c : StreamCore) (start : nat) : option nat :=
  cache ← stable_prefix_len_cache c;
  if (source_start cache =? start) && bool_decide (cache_width cache = width c)
  then Some (stable_prefix_len cache) else None.

Definition stable_prefix_len_for_source_start (c : StreamCore) (start : nat)
    : option (StreamCore * nat) :=
  match cache_hit c start with
  | Some len => Some (c, len)
  | None =>
      prefix ← slice_to (raw_source c) (Nat.min start (byte_len (raw_source c)));
      let len := length (render_rich (width c) prefix) in
      Some (set_cache (Some (mkCache start (width c) len)) c, len)
  end.

Definition tail_budget_from_source_start (c : StreamCore) (start : nat)
    : option (StreamCore * nat) :=
  if start =? 0 then Some (c, length (rendered_lines c))
  else
    let start := Nat.min start (byte_len (raw_source c)) in
    '(c, len) ← stable_prefix_len_for_source_start c start;
    Some (c, length (rendered_lines c) - len).

Definition active_tail_budget_lines (c : StreamCore) : option (StreamCore * nat) :=
  match render_mode c with
  | Raw => Some (c, 0)
  | Rich =>
      match scanner_state (holdback_scanner c) with
      | Confirmed start | PendingHeader start => tail_budget_from_source_start c start
      | NoTable => Some (c, 0)
      end
  end.

Definition compute_target_stable_len (c : StreamCore) : option (StreamCore * nat) :=
  '(c, tail_budget) ← active_tail_budget_lines c;
  Some (c, Nat.max (length (rendered_lines c) - tail_budget) (emitted_stable_len c)).

(** The lines between what was emitted and a boundary are queued again. *)
Definition requeue (now : N) (target : nat) (c : StreamCore) : option StreamCore :=
  let c := set_state (clear_queue (state c)) c in
  c ← (if emitted_stable_len c <? target
       then lines ← vec_slice (emitted_stable_len c) target (rendered_lines c);
            Some (set_state (enqueue now lines (state c)) c)
       else Some c);
  Some (set_enqueued target c).

Definition sync_stable_queue (now : N) (c : StreamCore) : option (StreamCore * bool) :=
  '(c, target) ← compute_target_stable_len c;
  if target <? enqueued_stable_len c then
    c ← requeue now target c;
    Some (c, negb (queued_len (state c) =? 0))
  else if target =? enqueued_stable_len c then Some (c, false)
  else
    lines ← vec_slice (enqueued_stable_len c) target (rendered_lines c);
    Some (set_enqueued target (set_state (enqueue now lines (state c)) c), true).

Definition rebuild_stable_queue_from_render (now : N) (c : StreamCore) : option StreamCore :=
  '(c, target) ← compute_target_stable_len c;
  requeue now target c.

Definition push_delta (now : N) (delta : str) (c : StreamCore) : option (StreamCore * bool) :=
  let s := state c in
  let s := mkState (collector_push (collector s) delta) (queued_lines s)
             (has_seen_delta s || negb (is_empty delta)) in
  let c := set_state s c in
  if contains_char delta NL then
    '(collector, committed) ← commit_complete_source (collector (state c));
    let c := set_state (set_collector collector (state c)) c in
    match committed with
    | None => Some (c, false)
    | Some source =>
        let c := set_source (raw_source c ++ source)
                   (push_source_chunk (holdback_scanner c) source) c in
        sync_stable_queue now (recompute_streaming_render c)
    end
  else Some (c, false).

Definition finalize_remaining (c : StreamCore) : option (StreamCore * list Line) :=
  '(collector, remainder) ← finalize_and_drain_source (collector (state c));
  let c := set_state (set_collector collector (state c)) c in
  let c := if is_empty remainder then c
           else set_source (raw_source c ++ remainder)
                  (push_source_chunk (holdback_scanner c) remainder) c in
  let rendered := render_source (width c) (render_mode c) (raw_source c) in
  if length rendered <=? emitted_stable_len c then Some (c, [])
  else lines ← vec_slice (emitted_stable_len c) (length rendered) rendered; Some (c, lines).

Definition tick (c : StreamCore) : StreamCore * list Line :=
  let '(s, step) := state_step (state c) in
  (set_emitted (emitted_stable_len c + length step) (set_state s c), step).

Definition tick_batch (max_lines : nat) (c : StreamCore) : StreamCore * list Line :=
  if max_lines =? 0 then (c, [])
  else
    let '(s, step) := drain_n max_lines (state c) in
    let c := set_state s c in
    if is_empty step then (c, step)
    else (set_emitted (emitted_stable_len c + length step) c, step).

(** What a change of the width or of the mode does next; the two functions
    have the same text. *)
Definition relayout (now : N) (had_pending_queue had_live_tail : bool) (c : StreamCore)
    : option StreamCore :=
  if is_empty (raw_source c) then Some c
  else
    let c := recompute_streaming_render c in
    let len := length (rendered_lines c) in
    let emitted := Nat.min (emitted_stable_len c) len in
    let emitted := if had_pending_queue && (emitted =? len) && (0 <? emitted)
                   then emitted - 1 else emitted in
    let c := set_emitted emitted c in
    let c := set_state (clear_queue (state c)) c in
    if (0 <? emitted) && negb had_pending_queue && negb had_live_tail
    then Some (set_enqueued len c)
    else rebuild_stable_queue_from_render now c.

Definition set_width (now : N) (w : option nat) (c : StreamCore) : option StreamCore :=
  if bool_decide (width c = w) then Some c
  else
    let had_pending_queue := 0 <? queued_len (state c) in
    let had_live_tail := has_tail c in
    relayout now had_pending_queue had_live_tail (set_layout w (render_mode c) (state c) c).

Definition set_render_mode (now : N) (mode : HistoryRenderMode) (c : StreamCore)
    : option StreamCore :=
  if bool_decide (render_mode c = mode) then Some c
  else
    let had_pending_queue := 0 <? queued_len (state c) in
    let had_live_tail := has_tail c in
    relayout now had_pending_queue had_live_tail (set_layout (width c) mode (state c) c).

Definition core_reset (c : StreamCore) : StreamCore :=
  mkCore (state_clear (state c)) (width c) [] [] 0 0 (render_mode c) None new_scanner.

(** [clear_queue] of the two controllers *)
Definition core_clear_queue (c : StreamCore) : StreamCore :=
  set_enqueued (emitted_stable_len c) (set_state (clear_queue (state c)) c).

(** ** StreamController *)

Record StreamController := mkController { core : StreamCore; header_emitted : bool }.

(** [AgentMessageCell::new(lines, is_first_line)] *)
Record AgentMessageCell := mkCell { cell_lines : list Line; is_first_line : bool }.

Definition emit (k : StreamController) (lines : list Line)
    : StreamController * option AgentMessageCell :=
  if is_empty lines then (k, None)
  else (mkController (core k) true, Some (mkCell lines (negb (header_emitted k)))).

Definition new_controller (w : option nat) (mode : HistoryRenderMode) : StreamController :=
  mkController (new_core w mode) false.

Definition push (now : N) (delta : str) (k : StreamController) : option (StreamController * bool) :=
  '(c, enqueued) ← push_delta now delta (core k);
  Some (mkController c (header_emitted k), enqueued).

Definition on_commit_tick (k : StreamController)
    : StreamController * option AgentMessageCell * bool :=
  let '(c, step) := tick (core k) in
  let '(k, cell) := emit (mkController c (header_emitted k)) step in
  (k, cell, is_empty (queued_lines (state c))).

Definition on_commit_tick_batch (max_lines : nat) (k : StreamController)
    : StreamController * option AgentMessageCell * bool :=
  let '(c, step) := tick_batch max_lines (core k) in
  let '(k, cell) := emit (mkController c (header_emitted k)) step in
  (k, cell, is_empty (queued_lines (state c))).

Definition finalize (k : StreamController)
    : option (StreamController * option AgentMessageCell * option str) :=
  '(c, remaining) ← finalize_remaining (core k);
  if is_empty (raw_source c) then
    Some (mkController (core_reset c) (header_emitted k), None, None)
  else
    let source := raw_source c in
    let '(k, out) := emit (mkController (set_source [] (holdback_scanner c) c) (header_emitted k))
                       remaining in
    Some (mkController (core_reset (core k)) (header_emitted k), out, Some source).

(** ** The invariant *)

(** What was committed is a prefix of the buffer that ends where a line ends;
    the scanner read it, and the cache holds what it would compute. The queue
    is not longer than what is queued and not emitted. *)
Record ok (c : StreamCore) : Prop := {
  ok_buffer : exists rest, buffer (collector (state c)) = raw_source c ++ rest;
  ok_committed : committed_source_len (collector (state c)) = byte_len (raw_source c);
  ok_line_end : line_end (raw_source c);
  ok_scanner : holdback_scanner c = push_source_chunk new_scanner (raw_source c);
  ok_cache : forall k, stable_prefix_len_cache c = Some k ->
    exists a b, raw_source c = a ++ b /\ byte_len a = source_start k
      /\ stable_prefix_len k = length (render_rich (cache_width k) a);
  ok_queue : length (queued_lines (state c)) + emitted_stable_len c <= enqueued_stable_len c;
}.

Lemma new_core_ok w mode : ok (new_core w mode).
Proof. constructor; cbn; [by exists []|done|by left|done|done|lia]. Qed.

(** How many of the rendered lines will not change: all of them, but for those
    from a table on. *)
Definition stable_len (w : option nat) (mode : HistoryRenderMode) (source : str) : nat :=
  let total := length (render_source w mode source) in
  match mode with
  | Raw => total
  | Rich =>
      match held_from (table_holdback_state source) with
      | None => total
      | Some start =>
          if start =? 0 then 0
          else Nat.min total
                 (length (render_rich w (default [] (slice_to source start))))
      end
  end.

Definition rendered_now (c : StreamCore) : Prop :=
  rendered_lines c = render_source (width c) (render_mode c) (raw_source c).

Lemma slice_to_app a b : slice_to (a ++ b) (byte_len a) = Some a.
Proof. unfold slice_to. pose proof (slice_app [] a b) as H. by cbn in H. Qed.

Lemma scanner_state_ok c : ok c -> scanner_state (holdback_scanner c) = table_holdback_state (raw_source c).
Proof. intros H. rewrite (ok_scanner c H). apply (scanner_agrees [] (raw_source c)). constructor. Qed.

Lemma set_cache_ok c k : ok c ->
  (forall k', k = Some k' -> exists a b, raw_source c = a ++ b /\ byte_len a = source_start k'
      /\ stable_prefix_len k' = length (render_rich (cache_width k') a)) ->
  ok (set_cache k c).
Proof. intros [] Hk. by constructor. Qed.

(** The budget of the tail is what the specification says; only the cache may
    change, and it does not show. *)
Lemma prefix_len_spec c a b :
  ok c -> raw_source c = a ++ b ->
  exists k, stable_prefix_len_for_source_start c (byte_len a)
            = Some (set_cache k c, length (render_rich (width c) a))
            /\ ok (set_cache k c).
Proof.
  intros Hok Hraw. unfold stable_prefix_len_for_source_start.
  destruct (cache_hit c (byte_len a)) as [len|] eqn:Hhit.
  - exists (stable_prefix_len_cache c).
    assert (set_cache (stable_prefix_len_cache c) c = c) as -> by (by destruct c).
    split; [|done]. do 2 f_equal. unfold cache_hit in Hhit. revert Hhit.
    destruct (stable_prefix_len_cache c) as [k|] eqn:Hk; [|done]. cbn.
    destruct (Nat.eqb_spec (source_start k) (byte_len a)) as [Hs|]; [|done].
    destruct (bool_decide _) eqn:Hw; [|done]. bool_hyps. intros [= <-].
    destruct (ok_cache c Hok k Hk) as (a' & b' & Hraw' & Ha' & ->). rewrite Hw.
    rewrite Hraw in Hraw'.
    assert (a = a') as ->; [|done].
    assert (split_at (byte_len a) (a ++ b) = Some (a', b')) as H
      by (apply split_at_Some; split; [done|congruence]).
    rewrite split_at_app in H. congruence.
  - rewrite Hraw, Nat.min_l by (rewrite byte_len_app; lia). rewrite slice_to_app.
    cbn [mbind option_bind]. eexists. split; [done|]. apply set_cache_ok; [done|].
    intros k [= <-]. by exists a, b.
Qed.

Lemma target_spec c :
  ok c -> rendered_now c ->
  exists k, compute_target_stable_len c
            = Some (set_cache k c,
                Nat.max (stable_len (width c) (render_mode c) (raw_source c)) (emitted_stable_len c))
            /\ ok (set_cache k c).
Proof.
  intros Hok Hnow. unfold compute_target_stable_len, active_tail_budget_lines, stable_len.
  rewrite <- Hnow.
  assert (set_cache (stable_prefix_len_cache c) c = c) as Hsame by (by destruct c).
  destruct (render_mode c).
  2:{ exists (stable_prefix_len_cache c). rewrite Hsame. cbn. by rewrite Nat.sub_0_r. }
  rewrite (scanner_state_ok c Hok).
  assert (forall start, held_from (table_holdback_state (raw_source c)) = Some start ->
    exists k, ('(c, tail_budget) ← tail_budget_from_source_start c start;
               Some (c, Nat.max (length (rendered_lines c) - tail_budget) (emitted_stable_len c)))
              = Some (set_cache k c, Nat.max
                  (if start =? 0 then 0
                   else Nat.min (length (rendered_lines c))
                          (length (render_rich (width c) (default [] (slice_to (raw_source c) start)))))
                  (emitted_stable_len c)) /\ ok (set_cache k c)) as Hgo.
  { intros start Hstart. apply held_from_boundary in Hstart as (a & b & Hraw & <-).
    unfold tail_budget_from_source_start. destruct (Nat.eqb_spec (byte_len a) 0) as [Hz|Hnz].
    - exists (stable_prefix_len_cache c). rewrite Hsame. cbn. by rewrite Nat.sub_diag.
    - assert (Nat.min (byte_len a) (byte_len (raw_source c)) = byte_len a) as ->
        by (rewrite Hraw, byte_len_app; lia).
      destruct (prefix_len_spec c a b Hok Hraw) as (k & -> & Hok'). exists k.
      rewrite Hraw, slice_to_app. cbn [mbind option_bind default from_option id].
      split; [|done]. cbn [rendered_lines set_cache emitted_stable_len]. do 3 f_equal. lia. }
  destruct (table_holdback_state (raw_source c)) as [|start|start]; [|by apply Hgo..].
  exists (stable_prefix_len_cache c). rewrite Hsame. cbn. by rewrite Nat.sub_0_r.
Qed.

Lemma stable_len_le w mode source : stable_len w mode source <= length (render_source w mode source).
Proof.
  unfold stable_len. destruct mode; [|done]. destruct (held_from _); [|done].
  destruct (_ =? 0); lia.
Qed.

(** The two states show the same source in the same layout. *)
Definition same_view (c c' : StreamCore) : Prop :=
  width c' = width c /\ render_mode c' = render_mode c /\ raw_source c' = raw_source c
  /\ rendered_lines c' = rendered_lines c /\ emitted_stable_len c' = emitted_stable_len c
  /\ collector (state c') = collector (state c).

Definition queue_of (c : StreamCore) : list Line := map line (queued_lines (state c)).

Lemma vec_slice_Some {A} a b (l : list A) :
  a <= b -> b <= length l -> vec_slice a b l = Some (take (b - a) (drop a l)).
Proof.
  intros Ha Hb. unfold vec_slice. by rewrite (proj2 (Nat.leb_le _ _) Ha), (proj2 (Nat.leb_le _ _) Hb).
Qed.

Lemma map_line_enqueue now (l : list Line) : map line (map (fun x => mkQueued x now) l) = l.
Proof. rewrite map_map. apply map_id. Qed.

Lemma ok_set_queue c q n :
  ok c -> length q + emitted_stable_len c <= n -> ok (set_enqueued n (set_state (set_queue q (state c)) c)).
Proof. intros [] H. by constructor. Qed.

Lemma requeue_spec now target c :
  ok c -> emitted_stable_len c <= target ->
  (emitted_stable_len c < target -> target <= length (rendered_lines c)) ->
  exists c', requeue now target c = Some c' /\ ok c' /\ same_view c c'
    /\ enqueued_stable_len c' = target
    /\ queue_of c' = take (target - emitted_stable_len c)
                       (drop (emitted_stable_len c) (rendered_lines c)).
Proof.
  intros Hok Hle Hlen. unfold requeue. cbn [set_state emitted_stable_len rendered_lines].
  destruct (Nat.ltb_spec (emitted_stable_len c) target) as [Hlt|Hge].
  - rewrite vec_slice_Some by auto. cbn [mbind option_bind].
    eexists. split; [done|]. split_and!; try done.
    + apply (ok_set_queue c); [done|]. cbn. rewrite length_map, length_take, length_drop. lia.
    + unfold queue_of. cbn. apply map_line_enqueue.
  - cbn [mbind option_bind]. eexists. split; [done|]. split_and!; try done.
    + by apply (ok_set_queue c).
    + unfold queue_of. cbn. by replace (target - emitted_stable_len c) with 0 by lia.
Qed.

Definition target_len (c : StreamCore) : nat :=
  Nat.max (stable_len (width c) (render_mode c) (raw_source c)) (emitted_stable_len c).

Lemma rebuild_spec now c :
  ok c -> rendered_now c ->
  exists c', rebuild_stable_queue_from_render now c = Some c' /\ ok c' /\ same_view c c'.
Proof.
  intros Hok Hnow. unfold rebuild_stable_queue_from_render.
  destruct (target_spec c Hok Hnow) as (k & -> & Hok'). fold (target_len c). cbn [mbind option_bind].
  destruct (requeue_spec now (target_len c) (set_cache k c) Hok') as (c' & -> & Hc' & Hsame & _).
  - cbn. unfold target_len. lia.
  - cbn. pose proof (stable_len_le (width c) (render_mode c) (raw_source c)).
    rewrite Hnow. unfold target_len. lia.
  - by exists c'.
Qed.

(** After the queue is brought up to date, what is queued goes to the boundary
    of the tail: it is rebuilt when the boundary moved back, else extended. *)
Lemma sync_spec now c :
  ok c -> rendered_now c ->
  exists c' b, sync_stable_queue now c = Some (c', b) /\ ok c' /\ same_view c c'
    /\ enqueued_stable_len c' = target_len c
    /\ if target_len c <? enqueued_stable_len c
       then queue_of c' = take (target_len c - emitted_stable_len c)
                            (drop (emitted_stable_len c) (rendered_lines c))
       else queue_of c' = queue_of c ++ take (target_len c - enqueued_stable_len c)
                                         (drop (enqueued_stable_len c) (rendered_lines c)).
Proof.
  intros Hok Hnow. unfold sync_stable_queue.
  destruct (target_spec c Hok Hnow) as (k & -> & Hok'). fold (target_len c). cbn [mbind option_bind].
  pose proof (stable_len_le (width c) (render_mode c) (raw_source c)) as Hst. rewrite <- Hnow in Hst.
  cbn [enqueued_stable_len set_cache].
  destruct (Nat.ltb_spec (target_len c) (enqueued_stable_len c)) as [Hlt|Hge].
  - destruct (requeue_spec now (target_len c) (set_cache k c) Hok') as (c' & -> & Hc' & Hsame & Henq & Hq).
    + cbn. unfold target_len. lia.
    + cbn. unfold target_len. lia.
    + cbn [mbind option_bind]. eexists c', _. split; [done|]. by split_and!.
  - pose proof (ok_queue c Hok) as Hqueue.
    destruct (Nat.eqb_spec (target_len c) (enqueued_stable_len c)) as [Heq|Hne].
    + eexists _, _. split; [done|]. split_and!; try done. rewrite Heq, Nat.sub_diag. cbn.
      by rewrite app_nil_r.
    + cbn [rendered_lines set_cache]. rewrite vec_slice_Some by (unfold target_len in *; lia).
      cbn [mbind option_bind]. eexists _, _. split; [done|]. split_and!; try done.
      * apply (ok_set_queue (set_cache k c)); [done|]. cbn.
        rewrite length_app, length_map, length_take, length_drop. lia.
      * unfold queue_of. cbn. by rewrite map_app, map_line_enqueue.
Qed.

(** ** Committing the source *)

Lemma byte_len_nl s : byte_len (s ++ [NL]) = byte_len s + 1.
Proof. rewrite byte_len_app. done. Qed.

Lemma contains_nl_rfind s : contains_char s NL = true -> rfind (N.eqb NL) s <> None.
Proof.
  intros H%contains_char_spec. unfold rfind. destruct (rfind_char (N.eqb NL) s) eqn:E; [done|].
  apply rfind_char_None in E. rewrite Forall_forall in E. specialize (E NL H).
  by rewrite N.eqb_refl in E.
Qed.

(** The complete lines that were not committed yet. *)
Lemma commit_spec c raw rest :
  buffer c = raw ++ rest -> committed_source_len c = byte_len raw -> line_end raw ->
  exists c' out, commit_complete_source c = Some (c', out) /\ buffer c' = buffer c
    /\ match out with
       | None => committed_source_len c' = byte_len raw
       | Some m => committed_source_len c' = byte_len (raw ++ m) /\ line_end (raw ++ m)
                   /\ exists y, rest = m ++ y
       end.
Proof.
  intros Hbuf Hcom Hend. unfold commit_complete_source, rfind.
  destruct (rfind_char (N.eqb NL) (buffer c)) as [[idx d]|] eqn:Hr; cbn [fmap option_fmap option_map fst];
    [|eexists _, None; by split_and!].
  apply rfind_char_Some in Hr as (x & y & Hxy & <- & Hd & Hy).
  apply N.eqb_eq in Hd as <-. rewrite Hcom.
  destruct (Nat.leb_spec (byte_len x + 1) (byte_len raw)) as [|Hlt];
    [eexists _, None; by split_and!|].
  assert (raw ++ rest = (x ++ [NL]) ++ y) as Heq by (rewrite <- app_assoc, <- Hbuf; exact Hxy).
  destruct (prefix_by_len raw rest (x ++ [NL]) y Heq) as (m & Hm & ->);
    [rewrite byte_len_nl; lia|].
  rewrite <- byte_len_nl, Hm, Hbuf, byte_len_app, slice_app. cbn [mbind option_bind].
  eexists _, (Some m). split; [done|]. cbn. split; [done|]. split_and!.
  - by rewrite byte_len_app.
  - rewrite <- Hm. right. by exists x.
  - by exists y.
Qed.

(** The source with its last line ended. *)
Definition complete (s : str) : str := if is_empty s || ends_with s [NL] then s else s ++ [NL].

Lemma ends_with_nl s : ends_with s [NL] = true <-> exists t, s = t ++ [NL].
Proof.
  unfold ends_with. rewrite bool_decide_eq_true. split.
  - intros [t H%strip_suffix_Some]. by exists t.
  - intros [t ->]. exists t. by apply strip_suffix_Some.
Qed.

Lemma complete_line_end s : line_end (complete s).
Proof.
  unfold complete. destruct (is_empty s) eqn:He; cbn [orb].
  - left. by apply is_empty_true.
  - destruct (ends_with s [NL]) eqn:Hs; right; [by apply ends_with_nl|by exists s].
Qed.

Lemma complete_id s : line_end s -> complete s = s.
Proof.
  intros [->|H]; [done|]. unfold complete. apply ends_with_nl in H. rewrite H. by rewrite orb_true_r.
Qed.

Lemma drain_spec c raw rest :
  buffer c = raw ++ rest -> committed_source_len c = byte_len raw -> line_end raw ->
  exists out, finalize_and_drain_source c = Some (new_collector, out)
    /\ raw ++ out = complete (buffer c).
Proof.
  intros Hbuf Hcom Hend. unfold finalize_and_drain_source. rewrite Hcom, Hbuf.
  destruct (Nat.leb_spec (byte_len (raw ++ rest)) (byte_len raw)) as [Hle|Hgt].
  - rewrite byte_len_app in Hle. assert (rest = []) as -> by (apply byte_len_nil; lia).
    exists []. split; [done|]. rewrite !app_nil_r. by rewrite complete_id.
  - unfold slice_from. rewrite split_at_app. cbn [fmap option_fmap option_map snd mbind option_bind].
    eexists. split; [done|]. unfold complete.
    destruct rest as [|r rest _] using rev_ind; [rewrite app_nil_r in Hgt; lia|].
    assert (is_empty (raw ++ rest ++ [r]) = false) as ->
      by (apply is_empty_false; intros [_ [_ ?]%app_eq_nil]%app_eq_nil; done).
    assert (forall a, ends_with (a ++ [r]) [NL] = (r =? NL)%N) as Hends.
    { intros a. destruct (N.eqb_spec r NL) as [->|Hr]; [apply ends_with_nl; by exists a|].
      apply not_true_iff_false. rewrite ends_with_nl. intros [t Ht].
      apply app_inj_tail in Ht as [_ ?]. done. }
    rewrite (app_assoc raw rest [r]), !Hends. cbn [orb].
    destruct (r =? NL)%N; by rewrite ?app_assoc.
Qed.

(** ** One operation *)

Inductive Op :=
| OpPush (now : N) (delta : str)
| OpTick
| OpBatch (max_lines : nat)
| OpWidth (now : N) (w : option nat)
| OpMode (now : N) (mode : HistoryRenderMode)
| OpClear.

(** The new state and the lines emitted. *)
Definition exec (c : StreamCore) (op : Op) : option (StreamCore * list Line) :=
  match op with
  | OpPush now delta => '(c, _) ← push_delta now delta c; Some (c, [])
  | OpTick => Some (tick c)
  | OpBatch n => Some (tick_batch n c)
  | OpWidth now w => c ← set_width now w c; Some (c, [])
  | OpMode now mode => c ← set_render_mode now mode c; Some (c, [])
  | OpClear => Some (core_clear_queue c, [])
  end.

Fixpoint run (c : StreamCore) (ops : list Op) : option (StreamCore * list Line) :=
  match ops with
  | [] => Some (c, [])
  | op :: ops =>
      '(c, lines) ← exec c op;
      '(c, more) ← run c ops;
      Some (c, lines ++ more)
  end.

(** A delta either only goes to the buffer or commits lines, and then the
    queue is brought up to date with a new rendering. *)
Lemma push_spec now delta c :
  ok c ->
  exists c' b, push_delta now delta c = Some (c', b) /\ ok c'
    /\ buffer (collector (state c')) = buffer (collector (state c)) ++ delta
    /\ width c' = width c /\ render_mode c' = render_mode c
    /\ emitted_stable_len c' = emitted_stable_len c
    /\ (raw_source c' = raw_source c /\ rendered_lines c' = rendered_lines c
        /\ enqueued_stable_len c' = enqueued_stable_len c /\ queue_of c' = queue_of c
        \/ (exists m, raw_source c' = raw_source c ++ m) /\ rendered_now c'
           /\ enqueued_stable_len c' = target_len c'
           /\ queue_of c'
             = if enqueued_stable_len c' <? enqueued_stable_len c
               then take (enqueued_stable_len c' - emitted_stable_len c)
                      (drop (emitted_stable_len c) (rendered_lines c'))
               else queue_of c ++ take (enqueued_stable_len c' - enqueued_stable_len c)
                                    (drop (enqueued_stable_len c) (rendered_lines c'))).
Proof.
  intros Hok. destruct (ok_buffer c Hok) as [rest Hbuf]. unfold push_delta.
  set (s0 := mkState _ _ _). set (c0 := set_state s0 c).
  assert (buffer (collector s0) = raw_source c ++ rest ++ delta) as Hbuf0
    by (cbn; rewrite Hbuf; by rewrite app_assoc).
  assert (ok c0) as Hok0.
  { destruct Hok. constructor; try done. by exists (rest ++ delta). }
  destruct (contains_char delta NL).
  2:{ eexists _, _. split; [done|]. split_and!; try done. by left. }
  destruct (commit_spec (collector s0) (raw_source c) (rest ++ delta) Hbuf0
    (ok_committed c Hok) (ok_line_end c Hok)) as (k & out & Hcommit & Hkbuf & Hout).
  cbn [state c0 set_state]. rewrite Hcommit. cbn [mbind option_bind].
  destruct out as [m|].
  2:{ eexists _, _. split; [done|]. destruct Hok0. split_and!; try done; [constructor; try done|by left].
      cbn. exists (rest ++ delta). by rewrite Hkbuf. }
  destruct Hout as (Hcom & Hend & y & Hy).
  set (c1 := recompute_streaming_render _).
  assert (ok c1) as Hok1.
  { destruct Hok. constructor; cbn; try done.
    - exists y. by rewrite Hkbuf, Hbuf0, Hy, app_assoc.
    - rewrite ok_scanner0. unfold push_source_chunk.
      by rewrite split_inclusive_app, fold_left_app by done.
    - intros k' Hk'. destruct (ok_cache0 k' Hk') as (a & b & Hraw & Ha & Hl).
      exists a, (b ++ m). split; [by rewrite Hraw, app_assoc|done]. }
  assert (rendered_now c1) as Hnow1 by done.
  destruct (sync_spec now c1 Hok1 Hnow1)
    as (c' & b & Hsync & Hok' & (Hw & Hm & Hr & Hrl & He & Hc) & Henq & Hq).
  exists c', b. split; [exact Hsync|].
  split_and!; [done|rewrite Hc; cbn; by rewrite Hkbuf|done..|].
  right. split; [by exists m|]. split; [by unfold rendered_now; rewrite Hrl, Hw, Hm, Hr|].
  assert (target_len c' = target_len c1) as Ht by (unfold target_len; by rewrite Hw, Hm, Hr, He).
  split; [by rewrite Ht|]. rewrite Henq, Hrl.
  change (enqueued_stable_len c) with (enqueued_stable_len c1).
  destruct (_ <? _); exact Hq.
Qed.

(** What a tick does to the queue. *)
Definition drained (n : nat) (c c' : StreamCore) (lines : list Line) : Prop :=
  ok c' /\ lines = take n (queue_of c) /\ queue_of c' = drop n (queue_of c)
  /\ emitted_stable_len c' = emitted_stable_len c + length lines
  /\ width c' = width c /\ render_mode c' = render_mode c /\ raw_source c' = raw_source c
  /\ rendered_lines c' = rendered_lines c /\ enqueued_stable_len c' = enqueued_stable_len c
  /\ collector (state c') = collector (state c).

Lemma tick_drains c c' lines : ok c -> tick c = (c', lines) -> drained 1 c c' lines.
Proof.
  intros Hok. unfold tick, state_step, drained, queue_of.
  destruct (queued_lines (state c)) as [|x xs] eqn:Hq; intros [= <- <-];
    destruct Hok as [H1 H2 H3 H4 H5 H6]; rewrite Hq in H6; cbn in H6;
    split_and!; try done; try (cbn; rewrite Hq; done); try (cbn; lia);
    constructor; try done; cbn; rewrite ?Hq; cbn; lia.
Qed.

Lemma drain_min n (q : list QueuedLine) :
  map line (take (Nat.min n (length q)) q) = take n (map line q)
  /\ map line (drop (Nat.min n (length q)) q) = drop n (map line q).
Proof.
  destruct (Nat.min_spec n (length q)) as [[_ ->]|[Hle ->]].
  - by rewrite !(fmap_take line), !(fmap_drop line).
  - rewrite firstn_all, skipn_all. cbn.
    rewrite take_ge, drop_ge by (rewrite length_map; lia). done.
Qed.

Lemma tick_batch_drains n c c' lines : ok c -> tick_batch n c = (c', lines) -> drained n c c' lines.
Proof.
  intros Hok. unfold tick_batch, drained.
  destruct (Nat.eqb_spec n 0) as [->|Hn].
  { intros [= <- <-]. split_and!; try done; cbn; lia. }
  unfold drain_n. cbn [set_state state]. set (q := queued_lines (state c)).
  destruct (drain_min n q) as [Htake Hdrop]. rewrite Htake. change (map line q) with (queue_of c) in *.
  destruct Hok as [H1 H2 H3 H4 H5 H6].
  assert (length q = length (queue_of c)) as Hlen by (unfold queue_of; by rewrite length_map).
  fold q in H6. rewrite Hlen in H6.
  destruct (is_empty (take n (queue_of c))) eqn:He; intros [= <- <-].
  - apply is_empty_true in He. rewrite He. split_and!; try done; try (cbn; lia).
    constructor; try done. cbn. rewrite length_drop, Hlen. lia.
  - split_and!; try done. constructor; try done. cbn.
    rewrite length_drop, length_take, Hlen. lia.
Qed.

Lemma set_layout_ok w mode c : ok c -> ok (set_layout w mode (state c) c).
Proof. by intros []; constructor. Qed.

Lemma set_emitted_ok n c : ok c -> n <= emitted_stable_len c -> ok (set_emitted n c).
Proof. intros [] H. constructor; try done. cbn. lia. Qed.

Lemma relayout_spec now pending tail c :
  ok c -> exists c', relayout now pending tail c = Some c' /\ ok c'.
Proof.
  intros Hok. unfold relayout. destruct (is_empty (raw_source c)); [by exists c|].
  cbv zeta. set (c1 := recompute_streaming_render c).
  set (len := length (rendered_lines c1)).
  set (m := Nat.min (emitted_stable_len c1) len).
  set (emitted := if pending && (m =? len) && (0 <? m) then m - 1 else m).
  assert (emitted <= emitted_stable_len c1 /\ emitted <= len) as [He1 He2]
    by (unfold emitted, m; destruct (_ && _ && _); lia).
  assert (ok c1) as Hok1 by (destruct Hok; by constructor).
  pose proof (set_emitted_ok emitted c1 Hok1 He1) as Hok2.
  set (c2 := set_emitted emitted c1) in *.
  pose proof (ok_queue c2 Hok2) as Hq.
  assert (ok (set_state (clear_queue (state c2)) c2)) as Hok3.
  { destruct Hok2. constructor; try done. cbn. cbn in Hq. lia. }
  destruct ((0 <? emitted) && _ && _).
  - eexists. split; [done|]. by apply (ok_set_queue c2 [] len).
  - destruct (rebuild_spec now _ Hok3) as (c' & -> & Hc' & _); [done|]. by exists c'.
Qed.

Lemma exec_ok c op : ok c -> exists c' lines, exec c op = Some (c', lines) /\ ok c'.
Proof.
  intros Hok. destruct op as [now delta| |n|now w|now mode|]; cbn [exec].
  - destruct (push_spec now delta c Hok) as (c' & b & -> & Hc' & _). by exists c', [].
  - destruct (tick c) as [c' lines] eqn:Ht. apply tick_drains in Ht as [? _]; [|done].
    by exists c', lines.
  - destruct (tick_batch n c) as [c' lines] eqn:Ht. apply tick_batch_drains in Ht as [? _]; [|done].
    by exists c', lines.
  - unfold set_width. destruct (bool_decide _); [by exists c, []|].
    destruct (relayout_spec now (0 <? queued_len (state c)) (has_tail c) _
      (set_layout_ok w (render_mode c) c Hok)) as (c' & -> & ?). by exists c', [].
  - unfold set_render_mode. destruct (bool_decide _); [by exists c, []|].
    destruct (relayout_spec now (0 <? queued_len (state c)) (has_tail c) _
      (set_layout_ok (width c) mode c Hok)) as (c' & -> & ?). by exists c', [].
  - eexists _, []. split; [done|]. apply ok_set_queue; [done|]. cbn. lia.
Qed.

(** Finalizing renders the whole source and returns what was not emitted. *)
Lemma finalize_spec c :
  ok c ->
  exists c', finalize_remaining c
    = Some (c', drop (emitted_stable_len c)
                  (render_source (width c) (render_mode c)
                     (complete (buffer (collector (state c))))))
    /\ raw_source c' = complete (buffer (collector (state c))).
Proof.
  intros Hok. destruct (ok_buffer c Hok) as [rest Hbuf].
  destruct (drain_spec _ _ _ Hbuf (ok_committed c Hok) (ok_line_end c Hok)) as (out & Hdrain & Hout).
  unfold finalize_remaining. rewrite Hdrain. cbn [mbind option_bind].
  match goal with |- context [if is_empty out then ?a else ?b] =>
    set (c1 := if is_empty out then a else b) end.
  assert (raw_source c1 = complete (buffer (collector (state c))) /\ width c1 = width c
          /\ render_mode c1 = render_mode c /\ emitted_stable_len c1 = emitted_stable_len c)
    as (Hr & Hw & Hm & He).
  { unfold c1. destruct (is_empty out) eqn:Ho; [|done]. apply is_empty_true in Ho as ->.
    rewrite app_nil_r in Hout. by cbn. }
  rewrite Hr, Hw, Hm, He. cbv zeta.
  destruct (Nat.leb_spec (length (render_source (width c) (render_mode c)
    (complete (buffer (collector (state c)))))) (emitted_stable_len c)) as [Hle|Hgt].
  - exists c1. by rewrite drop_ge.
  - rewrite vec_slice_Some by lia. cbn [mbind option_bind]. exists c1.
    split; [|done]. do 2 f_equal. rewrite take_ge by (rewrite length_drop; lia). done.
Qed.

(** Whatever is written, however it is rendered and whatever is done to the
    layout meanwhile, no slice of the source or of the rendered lines panics,
    and no more is emitted than was queued. *)
Theorem streaming_never_panics w mode ops :
  exists c lines c' remaining,
    run (new_core w mode) ops = Some (c, lines)
    /\ length (queued_lines (state c)) + emitted_stable_len c <= enqueued_stable_len c
    /\ finalize_remaining c = Some (c', remaining).
Proof.
  assert (forall c, ok c -> exists c' lines, run c ops = Some (c', lines) /\ ok c') as Hrun.
  { induction ops as [|op ops IH]; intros c Hok; [by exists c, []|].
    destruct (exec_ok c op Hok) as (c1 & l1 & He & Hok1).
    destruct (IH c1 Hok1) as (c2 & l2 & Hr & Hok2).
    exists c2, (l1 ++ l2). cbn [run]. rewrite He. cbn [mbind option_bind]. by rewrite Hr. }
  destruct (Hrun _ (new_core_ok w mode)) as (c & lines & Hr & Hok).
  destruct (finalize_spec c Hok) as (c' & Hf & _).
  eexists c, lines, c', _. split_and!; [done|apply ok_queue, Hok|exact Hf].
Qed.

(** ** Every line is shown once *)

(** The source typed in, and the operations that do not change the layout. *)
Definition plain_op (op : Op) : bool :=
  match op with OpPush _ _ | OpTick | OpBatch _ => true | _ => false end.

Definition typed (ops : list Op) : str :=
  concat (map (fun op => match op with OpPush _ delta => delta | _ => [] end) ops).

Lemma line_end_suffix (a b : str) : line_end (a ++ b) -> line_end b.
Proof.
  destruct b as [|x b _] using rev_ind; [by left|].
  intros [H|[t H]]; [by apply app_eq_nil in H as [_ [_ ?]%app_eq_nil]|].
  rewrite app_assoc in H. apply app_inj_tail in H as [_ ->]. right. by exists b.
Qed.


Section Shown.
Context (w : option nat) (mode : HistoryRenderMode).
#[local] Abbreviation render := (render_source w mode).
#[local] Abbreviation stable := (stable_len w mode).

(** Line [i] of the rendering of a part of [source] that ends where a line
    ends, short of the tail that was held back. *)
Definition line_of_part (source : str) (i : nat) (l : Line) : Prop :=
  exists p, p `prefix_of` source /\ line_end p /\ i < stable p /\ render p !! i = Some l.

(** What is rendered of a part of [source], short of its tail, is rendered of
    the whole. *)
Definition parts_unchanged (source : str) : Prop :=
  forall p, p `prefix_of` source -> line_end p ->
    take (stable p) (render source) = take (stable p) (render p).

(** The lines emitted and those queued are lines of the answer, by number. *)
Definition shown (c : StreamCore) (lines : list Line) : Prop :=
  ok c /\ width c = w /\ render_mode c = mode
  /\ length lines = emitted_stable_len c
  /\ length (lines ++ queue_of c) = enqueued_stable_len c
  /\ forall i l, (lines ++ queue_of c) !! i = Some l -> line_of_part (raw_source c) i l.

Lemma line_of_part_app source m i l : line_of_part source i l -> line_of_part (source ++ m) i l.
Proof. intros (p & Hp & ?). exists p. split; [by apply prefix_app_r|done]. Qed.

Lemma shown_new : shown (new_core w mode) [].
Proof. split_and!; [apply new_core_ok|done..]. Qed.

(** The lines of a window of the rendering, behind as many as come before it. *)
Lemma window_lines source (before : list Line) m :
  line_end source -> length before <= m -> (length before < m -> m <= stable source) ->
  let l := before ++ take (m - length before) (drop (length before) (render source)) in
  length l = m /\
  ((forall i x, before !! i = Some x -> line_of_part source i x) ->
   forall i x, l !! i = Some x -> line_of_part source i x).
Proof.
  intros Hend Hle Hm l. pose proof (stable_len_le w mode source) as Hst. split.
  { unfold l. rewrite length_app, length_take, length_drop. lia. }
  intros Hbefore i x [Hx|[Hi Hx]]%lookup_app_Some; [by apply Hbefore|].
  apply lookup_take_Some in Hx as [Hx Hlt]. rewrite lookup_drop in Hx.
  replace (length before + (i - length before)) with i in Hx by lia.
  exists source. split_and!; [done|done|lia|done].
Qed.

Lemma shown_push now delta c lines :
  shown c lines ->
  exists c', exec c (OpPush now delta) = Some (c', []) /\ shown c' lines
    /\ buffer (collector (state c')) = buffer (collector (state c)) ++ delta.
Proof.
  intros (Hok & Hw & Hm & Hlen & Henq & Hall).
  destruct (push_spec now delta c Hok) as (c' & b & Hpush & Hok' & Hbuf & Hw' & Hm' & He' & Hcase).
  exists c'. cbn [exec]. rewrite Hpush. cbn [mbind option_bind].
  split; [done|]. split; [|done]. rewrite Hw in Hw'. rewrite Hm in Hm'.
  destruct Hcase as [(Hraw' & _ & Henq' & Hq')|((m & Hraw') & Hnow' & Henq' & Hq')].
  - unfold shown. rewrite Hw', Hm', Hraw', Henq', Hq', He'. by split_and!.
  - pose proof (ok_line_end c' Hok') as Hend.
    assert (rendered_lines c' = render (raw_source c')) as Hr' by (by rewrite Hnow', Hw', Hm').
    assert (enqueued_stable_len c' = Nat.max (stable (raw_source c')) (emitted_stable_len c)) as Ht
      by (rewrite Henq'; unfold target_len; by rewrite Hw', Hm', He').
    assert (forall i l, (lines ++ queue_of c) !! i = Some l -> line_of_part (raw_source c') i l)
      as Hold by (intros i l Hl; rewrite Hraw'; by apply line_of_part_app, Hall).
    unfold shown. rewrite Hw', Hm', He', Hq', Hr'.
    destruct (Nat.ltb_spec (enqueued_stable_len c') (enqueued_stable_len c)) as [Hlt|Hge].
    + destruct (window_lines (raw_source c') lines (enqueued_stable_len c')) as [Hl Hin];
        [done|lia|lia|]. rewrite Hlen in Hl, Hin. split_and!; [done..|].
      apply Hin. intros i l Hl'. by apply Hold, lookup_app_l_Some.
    + destruct (window_lines (raw_source c') (lines ++ queue_of c) (enqueued_stable_len c'))
        as [Hl Hin]; [done|lia|rewrite Henq; rewrite length_app in Henq; lia|].
      rewrite Henq in Hl, Hin. rewrite app_assoc. split_and!; [done..|]. by apply Hin.
Qed.

Lemma shown_drained n c c' lines more :
  shown c lines -> drained n c c' more -> shown c' (lines ++ more).
Proof.
  intros (Hok & Hw & Hm & Hlen & Henq & Hall)
    (Hok' & Hmore & Hq' & He' & Hw' & Hm' & Hraw' & Hr' & Henq' & _).
  unfold shown. rewrite Hw', Hm', He', Henq', Hraw'.
  assert ((lines ++ more) ++ queue_of c' = lines ++ queue_of c) as ->
    by (by rewrite <- app_assoc, Hmore, Hq', take_drop).
  split_and!; [done..| |done|done]. by rewrite length_app, Hlen.
Qed.

Lemma shown_exec c op lines :
  shown c lines -> plain_op op = true ->
  exists c' more, exec c op = Some (c', more) /\ shown c' (lines ++ more)
    /\ buffer (collector (state c')) = buffer (collector (state c)) ++ typed [op].
Proof.
  intros Hshown Hop. pose proof Hshown as (Hok & _).
  destruct op as [now delta| |n| | |]; try done; cbn [exec].
  - destruct (shown_push now delta c lines Hshown) as (c' & He & Hs & Hb).
    exists c', []. rewrite app_nil_r. cbn [exec] in He. rewrite He.
    split_and!; [done..|]. rewrite Hb. unfold typed. cbn. by rewrite app_nil_r.
  - destruct (tick c) as [c' more] eqn:Ht. apply tick_drains in Ht; [|done].
    exists c', more. split; [done|]. split; [by apply shown_drained with 1 c|].
    destruct Ht as (_ & _ & _ & _ & _ & _ & _ & _ & _ & ->). unfold typed. cbn. by rewrite app_nil_r.
  - destruct (tick_batch n c) as [c' more] eqn:Ht. apply tick_batch_drains in Ht; [|done].
    exists c', more. split; [done|]. split; [by apply shown_drained with n c|].
    destruct Ht as (_ & _ & _ & _ & _ & _ & _ & _ & _ & ->). unfold typed. cbn. by rewrite app_nil_r.
Qed.

Lemma shown_run ops c lines :
  shown c lines -> Forall (fun op => plain_op op = true) ops ->
  exists c' more, run c ops = Some (c', more) /\ shown c' (lines ++ more)
    /\ buffer (collector (state c')) = buffer (collector (state c)) ++ typed ops.
Proof.
  intros Hshown Hops. revert c lines Hshown.
  induction Hops as [|op ops Hop _ IH]; intros c lines Hshown.
  - exists c, []. rewrite app_nil_r. split_and!; [done..|]. unfold typed. cbn. by rewrite app_nil_r.
  - destruct (shown_exec c op lines Hshown Hop) as (c1 & l1 & He & Hs1 & Hb1).
    destruct (IH c1 (lines ++ l1) Hs1) as (c2 & l2 & Hr & Hs2 & Hb2).
    exists c2, (l1 ++ l2). cbn [run]. rewrite He. cbn [mbind option_bind]. rewrite Hr.
    rewrite app_assoc. split_and!; [done..|]. rewrite Hb2, Hb1. unfold typed. cbn.
    by rewrite !app_nil_r, app_assoc.
Qed.

(** Lines that are lines of parts make up the rendering with what is behind
    them, when the parts are unchanged. *)
Lemma parts_make_whole source lines :
  parts_unchanged source ->
  (forall i l, lines !! i = Some l -> line_of_part source i l) ->
  lines ++ drop (length lines) (render source) = render source.
Proof.
  intros Hun Hall. rewrite <- (take_drop (length lines) (render source)) at 2. f_equal.
  assert (forall i l, lines !! i = Some l -> render source !! i = Some l) as Hin.
  { intros i l (p & Hp & Hend & Hi & Hl)%Hall. specialize (Hun p Hp Hend).
    apply (f_equal (fun x => x !! i)) in Hun. by rewrite !lookup_take_lt, Hl in Hun. }
  apply list_eq. intros i. destruct (lines !! i) as [l|] eqn:El.
  - rewrite lookup_take_lt by (by eapply lookup_lt_Some). symmetry. by apply Hin.
  - symmetry. apply lookup_take_ge. by apply lookup_ge_None in El.
Qed.

End Shown.

(** ** The raw mode *)

Lemma raw_lines_alt s :
  raw_lines_from_source s = map line_of (map piece_line (split_inclusive NL s)).
Proof.
  unfold raw_lines_from_source. destruct (is_empty s) eqn:He.
  { by apply is_empty_true in He as ->. }
  apply is_empty_false in He. f_equal. rewrite split_pieces.
  destruct s as [|x s _] using rev_ind; [done|]. rewrite last_snoc. cbn [default from_option id].
  destruct (N.eqb_spec x NL) as [->|Hx].
  - assert (ends_with (s ++ [NL]) [NL] = true) as -> by (apply ends_with_nl; by exists s).
    apply removelast_last.
  - destruct (ends_with (s ++ [x]) [NL]) eqn:Hends; [|by rewrite app_nil_r].
    apply ends_with_nl in Hends as [t Ht]. by apply app_inj_tail in Ht as [_ ?].
Qed.

Lemma raw_unchanged w source : parts_unchanged w Raw source.
Proof.
  intros p [t ->] Hp. unfold stable_len, render_source.
  rewrite !raw_lines_alt, split_inclusive_app, !map_app by done.
  rewrite take_app_length. by rewrite firstn_all.
Qed.

(** C17. While an answer is written and its lines are emitted, one or several at
    a tick, in any interleaving, and the layout does not change, every line is
    shown once and in order, in both modes and whatever the renderer is: nothing
    fails; the line emitted as number [i] is line [i] of the rendering of a part
    of the answer that ends where a line ends, short of the table held back
    there; and finalizing returns the lines of the rendering of the whole answer
    from the first number not emitted on.  Hence what is shown is the rendering
    of the whole answer, in raw mode always, and in rich mode when what follows
    a part does not change the rendering of its lines (a line that is emitted
    keeps the look it had). *)
Theorem stream_shown_once w mode ops :
  Forall (fun op => plain_op op = true) ops ->
  exists c lines c' remaining,
    run (new_core w mode) ops = Some (c, lines)
    /\ finalize_remaining c = Some (c', remaining)
    /\ (forall i l, lines !! i = Some l -> line_of_part w mode (complete (typed ops)) i l)
    /\ remaining = drop (length lines) (render_source w mode (complete (typed ops)))
    /\ (mode = Raw \/ parts_unchanged w mode (complete (typed ops)) ->
        lines ++ remaining = render_source w mode (complete (typed ops))).
Proof.
  intros Hops.
  destruct (shown_run w mode ops _ [] (shown_new w mode) Hops) as (c & lines & Hrun & Hshown & Hbuf).
  cbn [app] in Hshown. destruct Hshown as (Hok & Hw & Hm & Hlen & _ & Hall).
  destruct (finalize_spec c Hok) as (c' & Hf & _). cbn in Hbuf. rewrite Hbuf, Hw, Hm, <- Hlen in Hf.
  destruct (ok_buffer c Hok) as [rest Hb].
  destruct (drain_spec _ _ _ Hb (ok_committed c Hok) (ok_line_end c Hok)) as (out & _ & Hout).
  rewrite Hbuf in Hout.
  assert (forall i l, lines !! i = Some l -> line_of_part w mode (complete (typed ops)) i l) as Hin
    by (intros i l Hl; rewrite <- Hout; by apply line_of_part_app, Hall, lookup_app_l_Some).
  eexists c, lines, c', _. split_and!; [done..|]. intros Hun. apply parts_make_whole; [|done].
  destruct Hun as [->|Hun]; [apply raw_unchanged|done].
Qed.

End Core.

(** ** Examples *)

(** A renderer that wraps words, and in which a table is rendered as a whole. *)
Definition wrap_words (w : option nat) (source : str) : list str :=
  concat (map (fun l => match w with
                        | Some 1 => split SPACE (piece_line l)
                        | _ => [piece_line l]
                        end) (split_inclusive NL source)).

Definition demo_ops : list Op :=
  [OpPush 0 ("one" ++ [NL] ++ "tw"); OpTick; OpPush 1 ("o" ++ [NL] ++ "three" ++ [NL] ++ "fo");
   OpBatch 5].

Lemma stream_shown_once_witness :
  exists c lines c' remaining,
    run (fun s => s) wrap_words (new_core None Raw) demo_ops = Some (c, lines)
    /\ finalize_remaining (fun s => s) wrap_words c = Some (c', remaining)
    /\ lines ++ remaining = ["one"; "two"; "three"; "fo"].
Proof.
  destruct (stream_shown_once (fun s => s) wrap_words None Raw demo_ops)
    as (c & lines & c' & remaining & Hrun & Hfinal & _ & _ & Hall).
  - repeat constructor.
  - exists c, lines, c', remaining. split_and!; [exact Hrun|exact Hfinal|]. apply Hall. by left.
Defined.

(** In rich mode an emitted line keeps its look when what follows restyles it:
    here a title is underlined after it was shown. *)
Definition underlined (_ : option nat) (source : str) : list str :=
  if bool_decide (source = "T" ++ [NL] ++ "==" ++ [NL]) then ["# T"]
  else map piece_line (split_inclusive NL source).

Example restyled_line_kept :
  (fun r => match r with (c, lines) =>
     (lines, snd <$> finalize_remaining (fun s => s) underlined c) end) <$>
    run (fun s => s) underlined (new_core None Rich)
      [OpPush 0 ("T" ++ [NL]); OpTick; OpPush 1 ("==" ++ [NL])]
  = Some (["T"], Some []).
Proof. vm_compute. reflexivity. Qed.

(** A table is held back while it is written. *)
Example table_is_tail :
  (fun '(c, _) => (queued_lines (state c), length (rendered_lines c), enqueued_stable_len c)) <$>
    run (fun s => s) wrap_words (new_core None Rich)
      [OpPush 0 ("a" ++ [NL] ++ "| x | y |" ++ [NL] ++ "|---|---|" ++ [NL] ++ "| 1 | 2 |" ++ [NL])]
  = Some ([mkQueued "a" 0], 4, 1).
Proof. vm_compute. reflexivity. Qed.

(** After a resize that breaks emitted lines, the code avoids replaying what was
    emitted, but it does not count the new lines as emitted: finalizing
    returns lines that are on the screen already. *)
Example resize_replays_lines :
  (fun r => match r with (c, lines) =>
     (lines, queued_lines (state c), snd <$> finalize_remaining (fun s => s) wrap_words c) end) <$>
    run (fun s => s) wrap_words (new_core None Rich)
      [OpPush 0 ("one two" ++ [NL]); OpTick; OpWidth 1 (Some 1)]
  = Some (["one two"], [], Some ["two"]).
Proof. vm_compute. reflexivity. Qed.
