(* ===== verification/StreamTick.v ===== *)
(** * How fast the answer is shown

    [codex-rs/tui/src/streaming/chunking.rs] (when the lines that wait are
    shown one by one and when all at once), the controller of plans in
    [controller.rs] and [commit_tick.rs] (one tick over the two controllers).
    Instants and durations are nanoseconds. The styling of a plan's lines is an
    argument. The theorems state that the policy does not flap between its two
    gears, that a tick takes lines from the front of each queue and all of them
    when catching up, and that ticks alone empty the queues. *)

From S2P Require Import Prelude RustStr TableHoldback StreamCore.
Open Scope str_scope.

Definition from_millis (ms : N) : N := (ms * 1000000)%N.

(** ** chunking.rs *)

Definition ENTER_QUEUE_DEPTH_LINES : nat := 8.
Definition ENTER_OLDEST_AGE : N := from_millis 120.
Definition EXIT_QUEUE_DEPTH_LINES : nat := 2.
Definition EXIT_OLDEST_AGE : N := from_millis 40.
Definition EXIT_HOLD : N := from_millis 250.
Definition REENTER_CATCH_UP_HOLD : N := from_millis 250.
Definition SEVERE_QUEUE_DEPTH_LINES : nat := 64.
Definition SEVERE_OLDEST_AGE : N := from_millis 300.

Inductive ChunkingMode := Smooth | CatchUp.

#[export] Instance ChunkingMode_eq_dec : EqDecision ChunkingMode.
Proof. solve_decision. Defined.

Record QueueSnapshot := mkSnapshot { snapshot_lines : nat; oldest_age : option N }.

Inductive DrainPlan := Single | Batch (max_lines : nat).

Record ChunkingDecision := mkDecision {
  decision_mode : ChunkingMode; entered_catch_up : bool; drain_plan : DrainPlan }.

Record AdaptiveChunkingPolicy := mkPolicy {
  mode : ChunkingMode;
  below_exit_threshold_since : option N;
  last_catch_up_exit_at : option N;
}.

Definition default_policy : AdaptiveChunkingPolicy := mkPolicy Smooth None None.
Definition policy_reset (p : AdaptiveChunkingPolicy) : AdaptiveChunkingPolicy := default_policy.

Definition age_test (test : N -> bool) (snapshot : QueueSnapshot) : bool :=
  match oldest_age snapshot with Some oldest => test oldest | None => false end.

Definition should_enter_catch_up (snapshot : QueueSnapshot) : bool :=
  (ENTER_QUEUE_DEPTH_LINES <=? snapshot_lines snapshot)
  || age_test (fun oldest => (ENTER_OLDEST_AGE <=? oldest)%N) snapshot.
Definition should_exit_catch_up (snapshot : QueueSnapshot) : bool :=
  (snapshot_lines snapshot <=? EXIT_QUEUE_DEPTH_LINES)
  && age_test (fun oldest => (oldest <=? EXIT_OLDEST_AGE)%N) snapshot.
Definition is_severe_backlog (snapshot : QueueSnapshot) : bool :=
  (SEVERE_QUEUE_DEPTH_LINES <=? snapshot_lines snapshot)
  || age_test (fun oldest => (SEVERE_OLDEST_AGE <=? oldest)%N) snapshot.

Definition reentry_hold_active (p : AdaptiveChunkingPolicy) (now : N) : bool :=
  match last_catch_up_exit_at p with
  | Some exit => (now - exit <? REENTER_CATCH_UP_HOLD)%N
  | None => false
  end.

Definition maybe_enter_catch_up (p : AdaptiveChunkingPolicy) (snapshot : QueueSnapshot) (now : N)
    : AdaptiveChunkingPolicy * bool :=
  if negb (should_enter_catch_up snapshot) then (p, false)
  else if reentry_hold_active p now && negb (is_severe_backlog snapshot) then (p, false)
  else (mkPolicy CatchUp None None, true).

Definition maybe_exit_catch_up (p : AdaptiveChunkingPolicy) (snapshot : QueueSnapshot) (now : N)
    : AdaptiveChunkingPolicy :=
  if negb (should_exit_catch_up snapshot) then mkPolicy (mode p) None (last_catch_up_exit_at p)
  else match below_exit_threshold_since p with
       | Some since =>
           if (EXIT_HOLD <=? now - since)%N then mkPolicy Smooth None (Some now) else p
       | None => mkPolicy (mode p) (Some now) (last_catch_up_exit_at p)
       end.

Definition note_catch_up_exit (p : AdaptiveChunkingPolicy) (now : N) : AdaptiveChunkingPolicy :=
  match mode p with
  | CatchUp => mkPolicy (mode p) (below_exit_threshold_since p) (Some now)
  | Smooth => p
  end.

Definition decide_chunking (p : AdaptiveChunkingPolicy) (snapshot : QueueSnapshot) (now : N)
    : AdaptiveChunkingPolicy * ChunkingDecision :=
  if snapshot_lines snapshot =? 0 then
    let p := note_catch_up_exit p now in
    (mkPolicy Smooth None (last_catch_up_exit_at p), mkDecision Smooth false Single)
  else
    let '(p, entered) :=
      match mode p with
      | Smooth => maybe_enter_catch_up p snapshot now
      | CatchUp => (maybe_exit_catch_up p snapshot now, false)
      end in
    (p, mkDecision (mode p) entered
          (match mode p with
           | Smooth => Single
           | CatchUp => Batch (Nat.max (snapshot_lines snapshot) 1)
           end)).

(** ** The policy does not flap *)

(** The policy after decisions on snapshots, in order. *)
Definition policy_after (steps : list (QueueSnapshot * N)) : AdaptiveChunkingPolicy :=
  fold_left (fun p step => fst (decide_chunking p (fst step) (snd step))) steps default_policy.

(** The gear a decision leaves behind and the one it chooses. *)
Definition leaves_catch_up (before : list (QueueSnapshot * N)) (step : QueueSnapshot * N) : Prop :=
  mode (policy_after before) = CatchUp /\ mode (policy_after (before ++ [step])) = Smooth.

Lemma policy_after_snoc steps step :
  policy_after (steps ++ [step])
  = fst (decide_chunking (policy_after steps) (fst step) (snd step)).
Proof. unfold policy_after. by rewrite fold_left_app. Qed.

(** The last time the policy left the fast gear. *)
Definition last_exit (steps : list (QueueSnapshot * N)) (t : N) : Prop :=
  exists before step after,
    steps = before ++ step :: after /\ leaves_catch_up before step /\ snd step = t
    /\ forall a b, after = a ++ b -> mode (policy_after (before ++ step :: a)) = Smooth.

(** The hold is counted from the last exit. *)
Lemma exit_recorded steps t :
  last_exit steps t -> last_catch_up_exit_at (policy_after steps) = Some t.
Proof.
  intros (before & step & after & -> & [Hcatch Hsmooth] & <- & Hstay).
  rewrite policy_after_snoc in Hsmooth.
  assert (last_catch_up_exit_at (policy_after (before ++ [step])) = Some (snd step)) as Hrec.
  { rewrite policy_after_snoc. unfold decide_chunking, note_catch_up_exit, maybe_exit_catch_up in *.
    rewrite Hcatch in *. destruct (snapshot_lines (fst step) =? 0); [done|].
    destruct (negb _); [done|]. destruct (below_exit_threshold_since _) as [since|]; [|done].
    destruct (EXIT_HOLD <=? _)%N; [done|]. cbn in Hsmooth. congruence. }
  clear Hcatch Hsmooth. induction after as [|x after IH] using rev_ind; [done|].
  pose proof (Hstay after [x] eq_refl) as Hmode.
  pose proof (Hstay (after ++ [x]) [] ltac:(by rewrite app_nil_r)) as Hmode'.
  rewrite app_comm_cons, app_assoc, policy_after_snoc in Hmode' |- *.
  specialize (IH ltac:(intros a b ->; apply (Hstay a (b ++ [x])); by rewrite app_assoc)).
  unfold decide_chunking, note_catch_up_exit, maybe_enter_catch_up in *. rewrite Hmode in *.
  destruct (snapshot_lines (fst x) =? 0); [done|].
  destruct (negb (should_enter_catch_up _)); [done|].
  by destruct (reentry_hold_active _ _ && _).
Qed.

(** After an exit, the fast gear is not entered again for [250] ms unless the
    backlog is severe, and it is only entered under pressure. *)
Theorem no_early_reentry steps snapshot now t :
  last_exit steps t ->
  entered_catch_up (snd (decide_chunking (policy_after steps) snapshot now)) = true ->
  should_enter_catch_up snapshot = true
  /\ (is_severe_backlog snapshot = true \/ (REENTER_CATCH_UP_HOLD <= now - t)%N).
Proof.
  intros Hexit%exit_recorded. unfold decide_chunking, maybe_enter_catch_up, reentry_hold_active.
  rewrite Hexit. destruct (snapshot_lines snapshot =? 0); [done|].
  destruct (mode (policy_after steps)); [|done].
  destruct (should_enter_catch_up snapshot); cbn [negb]; [|done].
  destruct (N.ltb_spec (now - t) REENTER_CATCH_UP_HOLD); cbn [andb]; [|by split; [|right]].
  destruct (is_severe_backlog snapshot); cbn [negb]; [by split; [|left]|done].
Qed.

Lemma smooth_no_since steps :
  mode (policy_after steps) = Smooth -> below_exit_threshold_since (policy_after steps) = None.
Proof.
  induction steps as [|[snapshot now] steps IH] using rev_ind; [done|].
  rewrite policy_after_snoc. cbn [fst snd].
  unfold decide_chunking, maybe_enter_catch_up, maybe_exit_catch_up.
  destruct (snapshot_lines snapshot =? 0); [done|].
  destruct (mode (policy_after steps)) eqn:Hmode.
  - destruct (negb (should_enter_catch_up _)); [intros _; by apply IH|].
    destruct (reentry_hold_active _ _ && _); [intros _; by apply IH|done].
  - destruct (negb (should_exit_catch_up _)); [done|].
    destruct (below_exit_threshold_since _); [|done].
    destruct (EXIT_HOLD <=? _)%N; [done|]. cbn [fst]. by rewrite Hmode.
Qed.

Definition all_low (steps : list (QueueSnapshot * N)) : Prop :=
  Forall (fun step => should_exit_catch_up (fst step) = true) steps.

(** The time the policy keeps is one at which a run of low snapshots began that
    is not over. *)
Lemma low_since steps since :
  below_exit_threshold_since (policy_after steps) = Some since ->
  exists before snapshot after,
    steps = before ++ (snapshot, since) :: after /\ all_low ((snapshot, since) :: after).
Proof.
  induction steps as [|[snapshot now] steps IH] using rev_ind; [done|].
  rewrite policy_after_snoc. cbn [fst snd].
  unfold decide_chunking, maybe_enter_catch_up, maybe_exit_catch_up.
  destruct (snapshot_lines snapshot =? 0); [done|].
  destruct (mode (policy_after steps)) eqn:Hmode.
  - pose proof (smooth_no_since steps Hmode) as Hnone.
    destruct (negb (should_enter_catch_up _)); [cbn; by rewrite Hnone|].
    destruct (reentry_hold_active _ _ && _); [cbn; by rewrite Hnone|done].
  - destruct (should_exit_catch_up snapshot) eqn:Hlow; cbn [negb]; [|done].
    destruct (below_exit_threshold_since (policy_after steps)) as [since'|] eqn:Hb.
    + destruct (EXIT_HOLD <=? _)%N; [done|]. cbn. rewrite Hb. intros [= ->].
      destruct (IH eq_refl) as (before & x & after & -> & Hall).
      exists before, x, (after ++ [(snapshot, now)]). rewrite <- app_assoc. split; [done|].
      unfold all_low in *. rewrite app_comm_cons. apply Forall_app. split; [done|].
      by repeat constructor.
    + intros [= ->]. exists steps, snapshot, []. split; [done|]. by repeat constructor.
Qed.

(** While lines wait, the fast gear is only left after the pressure was low at
    every decision for [250] ms. *)
Theorem exit_is_held steps snapshot now :
  snapshot_lines snapshot <> 0 -> leaves_catch_up steps (snapshot, now) ->
  should_exit_catch_up snapshot = true
  /\ exists before first since after,
       steps = before ++ (first, since) :: after /\ all_low ((first, since) :: after)
       /\ (EXIT_HOLD <= now - since)%N.
Proof.
  intros Hne [Hcatch Hsmooth]. rewrite policy_after_snoc in Hsmooth. cbn [fst snd] in Hsmooth.
  unfold decide_chunking, maybe_exit_catch_up in Hsmooth. rewrite Hcatch in Hsmooth.
  rewrite (proj2 (Nat.eqb_neq _ _) Hne) in Hsmooth.
  destruct (should_exit_catch_up snapshot); cbn in Hsmooth; [|congruence].
  split; [done|].
  destruct (below_exit_threshold_since (policy_after steps)) as [since|] eqn:Hb;
    [|cbn in Hsmooth; congruence].
  destruct (N.leb_spec EXIT_HOLD (now - since)); [|congruence].
  destruct (low_since _ _ Hb) as (before & x & after & Hsteps & Hall).
  by exists before, x, since, after.
Qed.

(** ** PlanStreamController *)

Section Tick.
Context {Line : Type} (line_of : str -> Line) (render_rich : option nat -> str -> list Line).
Context (plan_title : Line) (plan_line : Line -> Line).

(** [new_proposed_plan_stream(lines, is_stream_continuation)] *)
Record ProposedPlanCell := mkPlanCell { plan_lines : list Line; is_stream_continuation : bool }.

Record PlanStreamController := mkPlan {
  plan_core : StreamCore (Line := Line);
  plan_header_emitted : bool;
  top_padding_emitted : bool;
}.

Definition render_display_lines (k : PlanStreamController) (lines : list Line)
    (include_bottom_padding : bool) : list Line :=
  let blank := line_of [SPACE] in
  (if plan_header_emitted k then [] else [plan_title; blank])
  ++ map plan_line ((if top_padding_emitted k then [] else [blank]) ++ lines
                    ++ (if include_bottom_padding then [blank] else [])).

Definition plan_emit (k : PlanStreamController) (lines : list Line) (include_bottom_padding : bool)
    : PlanStreamController * option ProposedPlanCell :=
  if is_empty lines && negb include_bottom_padding then (k, None)
  else
    (mkPlan (plan_core k) true true,
     Some (mkPlanCell (render_display_lines k lines include_bottom_padding)
             (plan_header_emitted k))).

Definition plan_on_commit_tick (k : PlanStreamController)
    : PlanStreamController * option ProposedPlanCell * bool :=
  let '(c, step) := tick (plan_core k) in
  let '(k, cell) := plan_emit (mkPlan c (plan_header_emitted k) (top_padding_emitted k)) step false in
  (k, cell, is_empty (queued_lines (state c))).

Definition plan_on_commit_tick_batch (max_lines : nat) (k : PlanStreamController)
    : PlanStreamController * option ProposedPlanCell * bool :=
  let '(c, step) := tick_batch max_lines (plan_core k) in
  let '(k, cell) := plan_emit (mkPlan c (plan_header_emitted k) (top_padding_emitted k)) step false in
  (k, cell, is_empty (queued_lines (state c))).

Definition plan_finalize (k : PlanStreamController)
    : option (PlanStreamController * option ProposedPlanCell * option str) :=
  '(c, remaining) ← finalize_remaining line_of render_rich (plan_core k);
  if is_empty (raw_source c) then
    Some (mkPlan (core_reset c) (plan_header_emitted k) (top_padding_emitted k), None, None)
  else
    let source := raw_source c in
    let '(k', out) :=
      plan_emit (mkPlan c (plan_header_emitted k) (top_padding_emitted k)) remaining true in
    Some (mkPlan (core_reset c) (plan_header_emitted k') (top_padding_emitted k'), out, Some source).

(** ** commit_tick.rs *)

Inductive CommitTickScope := AnyMode | CatchUpOnly.

Inductive HistoryCell := Message (cell : AgentMessageCell (Line := Line)) | Plan (cell : ProposedPlanCell).

Record CommitTickOutput := mkOutput {
  cells : list HistoryCell; has_controller : bool; all_idle : bool }.
Definition default_output : CommitTickOutput := mkOutput [] false true.

Definition max_duration (lhs rhs : option N) : option N :=
  match lhs, rhs with
  | Some l, Some r => Some (N.max l r)
  | Some l, None => Some l
  | None, Some r => Some r
  | None, None => None
  end.

Definition stream_queue_snapshot (stream : option (StreamController (Line := Line)))
    (plan : option PlanStreamController) (now : N) : QueueSnapshot :=
  let '(queued, oldest) :=
    match stream with
    | Some k => (queued_len (state (core k)),
                 max_duration None (oldest_queued_age now (state (core k))))
    | None => (0, None)
    end in
  match plan with
  | Some k => mkSnapshot (queued + queued_len (state (plan_core k)))
                (max_duration oldest (oldest_queued_age now (state (plan_core k))))
  | None => mkSnapshot queued oldest
  end.

Definition drain_stream_controller (k : StreamController (Line := Line)) (plan : DrainPlan) :=
  match plan with
  | Single => on_commit_tick k
  | Batch max_lines => on_commit_tick_batch max_lines k
  end.
Definition drain_plan_stream_controller (k : PlanStreamController) (plan : DrainPlan) :=
  match plan with
  | Single => plan_on_commit_tick k
  | Batch max_lines => plan_on_commit_tick_batch max_lines k
  end.

Definition push_cell {A} (wrap : A -> HistoryCell) (cell : option A) (is_idle : bool)
    (output : CommitTickOutput) : CommitTickOutput :=
  mkOutput (cells output ++ match cell with Some cell => [wrap cell] | None => [] end) true
    (all_idle output && is_idle).

Definition apply_commit_tick_plan (drain : DrainPlan) (stream : option StreamController)
    (plan : option PlanStreamController)
    : option StreamController * option PlanStreamController * CommitTickOutput :=
  let '(stream, output) :=
    match stream with
    | Some k => let '(k, cell, is_idle) := drain_stream_controller k drain in
                (Some k, push_cell Message cell is_idle default_output)
    | None => (None, default_output)
    end in
  match plan with
  | Some k => let '(k, cell, is_idle) := drain_plan_stream_controller k drain in
              (stream, Some k, push_cell Plan cell is_idle output)
  | None => (stream, None, output)
  end.

Definition run_commit_tick (policy : AdaptiveChunkingPolicy) (stream : option StreamController)
    (plan : option PlanStreamController) (scope : CommitTickScope) (now : N)
    : AdaptiveChunkingPolicy * option StreamController * option PlanStreamController
      * CommitTickOutput :=
  let snapshot := stream_queue_snapshot stream plan now in
  let '(policy, decision) := decide_chunking policy snapshot now in
  if match scope with CatchUpOnly => negb (bool_decide (decision_mode decision = CatchUp))
     | AnyMode => false end
  then (policy, stream, plan, default_output)
  else
    let '(stream, plan, output) := apply_commit_tick_plan (drain_plan decision) stream plan in
    (policy, stream, plan, output).

(** ** What a tick shows *)

#[local] Abbreviation stream_queue k := (queue_of (core k)).

Definition cell_shows (k : StreamController (Line := Line)) (cell : option AgentMessageCell)
    (lines : list Line) : Prop :=
  match cell with
  | Some cell => cell_lines cell = lines /\ is_first_line cell = negb (header_emitted k)
  | None => lines = []
  end.

(** How many lines of a queue a plan takes. *)
Definition taken (drain : DrainPlan) : nat :=
  match drain with Single => 1 | Batch max_lines => max_lines end.

Lemma emit_shows c b lines k' cell :
  emit (mkController c b) lines = (k', cell) ->
  core k' = c /\ cell_shows (mkController c b) cell lines.
Proof.
  unfold emit. destruct (is_empty lines) eqn:He; intros [= <- <-]; [|done].
  split; [done|]. by apply is_empty_true.
Qed.

Lemma drain_stream_shows k drain k' cell is_idle :
  ok render_rich (core k) -> drain_stream_controller k drain = (k', cell, is_idle) ->
  exists lines,
    drained render_rich (taken drain) (core k) (core k') lines
    /\ cell_shows k cell lines /\ is_idle = is_empty (stream_queue k').
Proof.
  intros Hok. unfold drain_stream_controller, on_commit_tick, on_commit_tick_batch.
  assert (forall n c lines k' cell, drained render_rich n (core k) c lines ->
    emit (mkController c (header_emitted k)) lines = (k', cell) ->
    drained render_rich n (core k) (core k') lines /\ cell_shows k cell lines
    /\ is_empty (queued_lines (state c)) = is_empty (stream_queue k')) as Hgo.
  { intros n c lines k1 cell1 Hd (Hcore & Hshow)%emit_shows. rewrite Hcore. split_and!; [done..|].
    unfold queue_of. by destruct (queued_lines (state c)). }
  destruct drain as [|n]; cbn [taken].
  - destruct (tick (core k)) as [c lines] eqn:Ht. destruct (emit _ lines) as [k1 cell1] eqn:He.
    intros [= <- <- <-]. exists lines. apply (tick_drains render_rich) in Ht; [|done].
    by apply (Hgo _ c).
  - destruct (tick_batch n (core k)) as [c lines] eqn:Ht.
    destruct (emit _ lines) as [k1 cell1] eqn:He.
    intros [= <- <- <-]. exists lines. apply (tick_batch_drains render_rich) in Ht; [|done].
    by apply (Hgo _ c).
Qed.

Lemma drain_plan_drains k drain k' cell is_idle :
  ok render_rich (plan_core k) -> drain_plan_stream_controller k drain = (k', cell, is_idle) ->
  exists lines, drained render_rich (taken drain) (plan_core k) (plan_core k') lines.
Proof.
  intros Hok. unfold drain_plan_stream_controller, plan_on_commit_tick, plan_on_commit_tick_batch.
  assert (forall c h t lines k' cell, plan_emit (mkPlan c h t) lines false = (k', cell) ->
    plan_core k' = c) as Hcore.
  { intros c h t lines k1 cell1. unfold plan_emit. destruct (_ && _); by intros [= <- _]. }
  destruct drain as [|n].
  - destruct (tick (plan_core k)) as [c lines] eqn:Ht.
    destruct (plan_emit _ lines _) as [k1 cell1] eqn:He. intros [= <- _ _].
    apply Hcore in He. rewrite He. exists lines. by apply (tick_drains render_rich) in Ht.
  - destruct (tick_batch n (plan_core k)) as [c lines] eqn:Ht.
    destruct (plan_emit _ lines _) as [k1 cell1] eqn:He. intros [= <- _ _].
    apply Hcore in He. rewrite He. exists lines. by apply (tick_batch_drains render_rich) in Ht.
Qed.

(** A tick takes lines from the front of both queues: one of each, or all of
    them when the policy catches up. *)
Theorem tick_takes_front policy k plan now :
  ok render_rich (core k) -> ok render_rich (plan_core plan) ->
  exists policy' k' plan' output lines,
    run_commit_tick policy (Some k) (Some plan) AnyMode now
    = (policy', Some k', Some plan', output)
    /\ ok render_rich (core k') /\ ok render_rich (plan_core plan')
    /\ concat (map (fun c => match c with Message c => cell_lines c | Plan _ => [] end) (cells output))
       = lines
    /\ stream_queue k = lines ++ stream_queue k'
    /\ match mode policy' with
       | CatchUp => stream_queue k' = [] /\ queue_of (plan_core plan') = []
       | Smooth => lines = take 1 (stream_queue k)
                   /\ queue_of (plan_core plan') = drop 1 (queue_of (plan_core plan))
       end.
Proof.
  intros Hok Hokp. unfold run_commit_tick.
  set (snapshot := stream_queue_snapshot (Some k) (Some plan) now).
  assert (snapshot_lines snapshot
          = length (stream_queue k) + length (queue_of (plan_core plan))) as Hsnap.
  { unfold snapshot, queue_of. cbn. by rewrite !length_map. }
  clearbody snapshot.
  destruct (decide_chunking policy snapshot now) as [policy' decision] eqn:Hd.
  assert (match mode policy' with
          | CatchUp => length (stream_queue k) <= taken (drain_plan decision)
                       /\ length (queue_of (plan_core plan)) <= taken (drain_plan decision)
          | Smooth => taken (drain_plan decision) = 1
          end) as Htaken.
  { unfold decide_chunking in Hd. destruct (snapshot_lines snapshot =? 0).
    - injection Hd as <- <-. done.
    - destruct (match mode policy with Smooth => _ | CatchUp => _ end) as [p entered].
      injection Hd as <- <-. cbn [drain_plan]. destruct (mode p); cbn [taken]; lia. }
  unfold apply_commit_tick_plan.
  destruct (drain_stream_controller k _) as [[k' cell] idle] eqn:Hk.
  destruct (drain_plan_stream_controller plan _) as [[plan' pcell] pidle] eqn:Hp.
  apply drain_stream_shows in Hk as (lines & Hdr & Hshow & _); [|done].
  apply drain_plan_drains in Hp as (plines & Hdrp); [|done].
  destruct Hdr as (Hok' & Hlines & Hq & _). destruct Hdrp as (Hokp' & _ & Hqp & _).
  eexists policy', k', plan', _, lines. split; [done|]. split_and!; [done|done|..].
  - cbn. rewrite map_app, concat_app. destruct cell as [cell|]; cbn in *.
    + destruct Hshow as [-> _]. destruct pcell; cbn; by rewrite !app_nil_r.
    + rewrite Hshow. by destruct pcell.
  - rewrite Hlines, Hq. by rewrite take_drop.
  - rewrite Hq, Hqp, Hlines. destruct (mode policy'); [by rewrite Htaken|].
    by rewrite !drop_ge by lia.
Qed.

(** Ticks at successive times, whatever the policy did before. *)
Fixpoint ticks policy k plan (nows : list N) :=
  match nows with
  | [] => Some (k, plan, [])
  | now :: nows =>
      match run_commit_tick policy (Some k) (Some plan) AnyMode now with
      | (policy, Some k, Some plan, output) =>
          '(k, plan, outputs) ← ticks policy k plan nows;
          Some (k, plan, output :: outputs)
      | _ => None
      end
  end.

(** As many ticks as lines wait show them all, in order. *)
Theorem ticks_show_queue policy k plan nows :
  ok render_rich (core k) -> ok render_rich (plan_core plan) ->
  length (stream_queue k) <= length nows -> length (queue_of (plan_core plan)) <= length nows ->
  exists k' plan' outputs,
    ticks policy k plan nows = Some (k', plan', outputs)
    /\ stream_queue k' = [] /\ queue_of (plan_core plan') = []
    /\ concat (map (fun output => concat (map (fun c =>
         match c with Message c => cell_lines c | Plan _ => [] end) (cells output))) outputs)
       = stream_queue k.
Proof.
  revert policy k plan. induction nows as [|now nows IH]; intros policy k plan Hok Hokp Hk Hp.
  - cbn in Hk, Hp. exists k, plan, [].
    destruct (stream_queue k); [|cbn in Hk; lia].
    destruct (queue_of (plan_core plan)); [done|cbn in Hp; lia].
  - destruct (tick_takes_front policy k plan now Hok Hokp)
      as (policy' & k' & plan' & output & lines & Hrun & Hok' & Hokp' & Hcells & Hq & Hmode).
    assert (length (stream_queue k') <= length nows
            /\ length (queue_of (plan_core plan')) <= length nows) as [Hk' Hp'].
    { rewrite Hq, length_app in Hk. cbn [length] in Hk, Hp. destruct (mode policy').
      - destruct Hmode as [Hl Hqp]. rewrite Hqp, length_drop. split; [|lia].
        destruct (stream_queue k) as [|x xs]; cbn in Hl.
        + symmetry in Hq. apply app_eq_nil in Hq as [_ ->]. cbn. lia.
        + rewrite Hl in Hk. cbn in Hk. lia.
      - destruct Hmode as [-> ->]. cbn. lia. }
    destruct (IH policy' k' plan' Hok' Hokp' Hk' Hp')
      as (k2 & plan2 & outputs & Ht & Hk2 & Hp2 & Hall).
    exists k2, plan2, (output :: outputs). cbn [ticks]. rewrite Hrun, Ht. cbn [mbind option_bind].
    split_and!; [done..|]. cbn. by rewrite Hcells, Hall, Hq.
Qed.

End Tick.

(** ** Examples *)

(** Twenty lines waiting: everything is shown at once; then the queue is empty
    and the policy is slow again; a new burst a moment later is not yet a
    reason to hurry. *)
Example gears :
  let steps := [(mkSnapshot 20 (Some 0), 0); (mkSnapshot 0 None, from_millis 50)]%N in
  mode (policy_after (take 1 steps)) = CatchUp /\ mode (policy_after steps) = Smooth
  /\ mode (policy_after (steps ++ [(mkSnapshot 20 (Some 0%N), from_millis 100)])) = Smooth
  /\ mode (policy_after (steps ++ [(mkSnapshot 70 (Some 0%N), from_millis 100)])) = CatchUp.
Proof. split_and!; vm_compute; reflexivity. Qed.
